(* ===== verification/_CoqProject ===== *)
-Q . S2P
Prelude.v
StdAlgorithms.v
Status.v
Varint.v
ByteIO.v
Crc32c.v
Pfor.v
SectionFramer.v
FormatConstants.v
TailPointer.v
BootstrapHeader.v
StatsBlock.v
NormsPod.v
NullBitmap.v
LogicalIndexDirectory.v
TailMetaRegion.v
TermKey.v
SampledTermIndex.v
DictBlockDirectory.v
Zstd.v
PforRuns.v
FrqPod.v
DictEntry.v
DictBlock.v
FrqPrelude.v
PrxPod.v
PerIndexMeta.v
FileIO.v
SpillableByteBuffer.v
LocalFile.v
Bsbf.v
CompactPostingPool.v
DocidSets.v
TermPatterns.v
BatchRangeFetcher.v
LogicalIndexReader.v
WindowedPosting.v
DocidPostingReader.v
Queries.v
PhraseQuery.v
Conjunction.v
PhraseMatch.v
PhrasePrefix.v
TermPostings.v
SpillRunCodec.v
PostingGroups.v
RunMerge.v
SpimiTermBuffer.v
SpimiChains.v
SpimiInvariant.v
SpimiDrain.v
PostingWriter.v
LogicalIndexWriter.v
IndexBuild.v
EntryRoundtrip.v
PostingRoundtrip.v
FreqRoundtrip.v
IndexRoundtrip.v
CompoundWriter.v
SegmentReader.v
ContainerRoundtrip.v
IndexFromTokens.v
PhraseRoundtrip.v
MeteredFileReader.v
Bm25Scorer.v
StatsProvider.v
TopK.v
ScoringQuery.v
SelectiveWand.v
SelectiveExact.v
ScoringRoundtrip.v
