(* ===== verification/Prelude.v ===== *)
(** * SNII: a native inverted index, verified.

    SNII (src/core) is the inverted-index core of a search engine: it accumulates
    tokens, writes the postings of their terms into a container file with a
    two-level term dictionary, and answers term, boolean, prefix, wildcard,
    regular-expression, phrase and scored queries from range reads on that file.
    This development is a shallow embedding of its C++ in Rocq, one file per
    component, with the theorems that make the components and their composition
    correct. Paths below are relative to src/core/src and src/core/include/snii.

    ** How the program fits together, and where it is modelled

    Foundations.
    - Prelude: the unsigned integer types as [Z] with their wrap-around ([u8] to
      [u64]), buffers as [list Z], generic lemmas, the tactics [ulia] and [dlia],
      the hint databases [snii] (bounds) and [snii_len] (lengths); ByteIO adds
      [reads] and [safe], which follow a decoder through its cursor.
    - StdAlgorithms: [std::sort], [std::stable_sort], [std::priority_queue] and
      [std::unique] as classes with their documented behaviour, and instances.
    - Status (common/status): the monad [result], with [Ok], [Err] for an early
      return of a status, and [Undef] for what C++ leaves undefined.
    - Varint, ByteIO, Crc32c, Pfor, PforRuns, SectionFramer, Zstd (encoding/):
      integers, cursors, checksums, block codec, framed sections, compressor.

    The format (format/), a file per structure: FormatConstants, BootstrapHeader,
    TailPointer, StatsBlock, NormsPod, NullBitmap, LogicalIndexDirectory,
    TailMetaRegion, TermKey, SampledTermIndex, DictBlockDirectory, DictEntry,
    DictBlock, FrqPod, FrqPrelude, PrxPod, PerIndexMeta, Bsbf.

    Files (io/).
    - FileIO: the readers and writers as interfaces, [serves] the contract of a
      reader over given bytes, [FileWriterLaws] that of a writer.
    - LocalFile: io/local_file over the system calls; it discharges both.
    - BatchRangeFetcher: io/batch_range_fetcher, planned and coalesced reads.
    - MeteredFileReader: io/metered_file_reader, the block cache with its counters.

    Building (writer/).
    - CompactPostingPool: the arena of slices the accumulator appends to.
    - TermPostings, PostingGroups: the postings of a term, and their specification.
    - SpimiTermBuffer: writer/spimi_term_buffer, the accumulator; SpillRunCodec and
      RunMerge: writer/spill_run_codec, its run files and their k-way merge.
      SpimiChains, SpimiInvariant and SpimiDrain hold their theory.
    - SpillableByteBuffer: the buffer of the dictionary, and the memory reporter.
    - PostingWriter, LogicalIndexWriter: writer/logical_index_writer, entries,
      blocks, filter, norms and metadata of one index. IndexBuild: their theory.
    - CompoundWriter: writer/snii_compound_writer, the container.

    Reading (reader/, stats/).
    - SegmentReader: reader/snii_segment_reader, from the tail to an index.
    - LogicalIndexReader: reader/logical_index_reader, lookup and enumeration.
    - WindowedPosting: reader/windowed_posting, postings with a skip prelude.
    - StatsProvider: stats/snii_stats_provider, the statistics scores need.

    Querying (query/).
    - DocidSets, DocidPostingReader, TermPatterns, Queries: unions, batched
      readers, patterns, and the queries that return documents of terms.
    - PhraseQuery: query/phrase_query, conjunctions, phrases, phrase prefixes;
      Conjunction, PhraseMatch and PhrasePrefix hold their theory.
    - Bm25Scorer, TopK, ScoringQuery, SelectiveWand: query/bm25_scorer and
      query/scoring_query, with SelectiveExact for the theory of the last.

    The composition. EntryRoundtrip, PostingRoundtrip, FreqRoundtrip and
    IndexRoundtrip show that the bytes LogicalIndexWriter leaves are what the
    readers expect; ContainerRoundtrip adds the container; IndexFromTokens,
    PhraseRoundtrip and ScoringRoundtrip run the whole path, from the accumulator
    or the writer to the answers of the queries.

    An operation of a class is a function from the object's record and the
    arguments to a [result] of the object it leaves and what it returns; an
    out-parameter is a result. A method the source inlines in a loop has the name
    of its role. Names follow the source, members with their trailing underscore.

    ** What the theorems show

    - The whole path: tokens fed into the accumulator, with any caps that make it
      spill, drained into the index writer and written to a container, are what
      term queries ([tokens_answered]) and phrases, phrase prefixes and
      conjunctions ([tokens_phrases]) find; a container of any indexes is read
      back under its keys ([segment_roundtrip]), with its scores
      ([scored_container]).
    - The accumulator: [spimi_delivers] says which documents a term is given, for
      tokens in any order and any spills (those of each stretch of tokens sorted,
      the stretches joined; the example [unordered_drain] shows the difference);
      [spimi_rejects], [MergeRuns_merges], and for its arena
      [arena_chain_contents] and [arena_safe].
    - The queries over any index whose blocks and postings are in its file (the
      records [indexes], [answers] and [answers_postings] are the contract between
      readers and queries): [term_query_exact], [boolean_or_exact],
      [prefix_query_exact], [wildcard_query_exact], [regexp_query_exact],
      [phrase_query_exact], [phrase_prefix_query_exact], [boolean_and_exact]. What
      they read: a conjunction only the windows its candidates fall in
      ([covering_windows_exact]), a batch at most two rounds ([docid_batch_exact];
      [reads_at_most] of BatchRangeFetcher).
    - Scored queries: the exhaustive query returns the best documents; the WAND
      loop ends ([wand_query_ends]) and keeps its cursors ([wand_cursors_typed]);
      the selective variant answers as the eager one ([selective_wand_same]);
      both are exact on one window ([wand_short_term_exact]), and not on several
      (the example [wand_misses_best], a fault of the code).
    - Readers: [logical_index_lookup_exact], [logical_index_prefix_exact],
      [windowed_read_exact], [docid_batch_exact], [batch_fetch_exact],
      [metered_exact], [local_file_roundtrip].
    - Formats: round trips of encoder and decoder ([pfor_decode_encode],
      [prx_window_roundtrip], [per_index_meta_roundtrip], [dict_block_find_term],
      [frq_prelude_locate] and one in each format file); detection of corruption
      ([section_rejects_burst], through the linearity of the checksum); safety on
      arbitrary bytes ([pfor_decode_safe], [logical_index_safe]); the filter
      ([bsbf_no_false_negative], [bsbf_contents]); the bounds of a locator
      ([resolve_window_exact]). Theorems that show where the code departs from
      its comments, such as [prelude_open_wraps], stand with the component.

    ** Fuel

    A loop without structural recursion takes fuel, and a theorem says that it is
    enough: ten groups for a varint; one round more than the bytes of a region
    where a round consumes a byte (dictionary blocks, metadata sections); the
    number of elements where a round consumes one (PFOR runs, k-way union, heap
    merges, super-blocks); the bytes to move and the interruptions to come for the
    system calls; the postings not yet passed, plus one, for the WAND loops;
    the windows, plus one, for a skip. Out of fuel is [Undef] or [None], which
    the theorems exclude.

    ** Parameters

    Code outside the repository is a class of operations with laws that state its
    documentation: the ZSTD library ([ZstdOps]), CRoaring ([RoaringOps]), XXH64,
    the CPU probe, the AVX2 intrinsics and the floating-point size estimate of the
    filter ([BsbfEnv], [BsbfFpp]), the [crc32] instruction, the system calls
    ([Posix]), temp files ([TempFile]), [std::regex] ([Regex], with [RegexLaws] on
    patterns that start with a literal), [std::log]
    ([StdLog], no laws), the order of [std::unordered_map] ([UnorderedMap]), the
    growth of a vector ([VectorGrowth]), sorting and heaps ([StdSort], [Sort],
    [PriorityQueueOf]). Each has an instance, on which the witnesses run.

    ** Limits

    Sizes: the round trips ask for containers below 2^60 bytes, terms of at most
    2^20 bytes and dictionary blocks of at most 2^25, so that the 64-bit offsets
    and the caps of the decoders are respected; the hypotheses say so. The theorems
    on scores ask that no score of the query is negative or a NaN, which is
    decidable on the postings at hand.

    Not modelled: io/s3_object_store (calls of the AWS SDK behind the interface of
    FileIO); query/query_profile (a wall clock and a copy of the I/O counters) and
    the overloads of queries that take a profile; null checks of pointers and of
    out-parameters; reservations of memory; exceptions of allocation; threads
    (the memory reporter counts atomically, no other object is shared). The benchmarks, the examples and the
    tests under src are glue around the library. *)

(** ** Machine integers, bytes, list lemmas and automation

    Shared by every file: the wrap-around of the unsigned C++ integer types
    ([uint8_t], [uint16_t], [uint32_t], [uint64_t] and [size_t], all as [Z]), the
    range predicates of those types, byte buffers as [list Z], bit-level
    reasoning, little-endian regrouping of digits, and the hint databases. *)

From stdpp Require Export base tactics sets list list_numbers numbers option strings sorting.
From Stdlib Require Export ZArith Lia.

#[global] Set Default Goal Selector "!".

(** stdpp's [≪]/[≫] are [Z.shiftl]/[Z.shiftr]. *)
#[local] Open Scope Z_scope.

(** A byte buffer: [std::vector<uint8_t>], [Slice], [std::string]. *)
Abbreviation bytes := (list Z) (only parsing).

(** ** Unsigned machine integers *)

(** [static_cast<uintN_t>(x)]: reduction modulo [2^N]. *)
Definition u8 (x : Z) : Z := x `mod` 2 ^ 8.
Definition u16 (x : Z) : Z := x `mod` 2 ^ 16.
Definition u32 (x : Z) : Z := x `mod` 2 ^ 32.
Definition u64 (x : Z) : Z := x `mod` 2 ^ 64.
Definition UINT32_MAX : Z := 4294967295.

(** The values an object of the type can hold. *)
Definition is_u8 (x : Z) : Prop := 0 ≤ x < 2 ^ 8.
Definition is_u16 (x : Z) : Prop := 0 ≤ x < 2 ^ 16.
Definition is_u32 (x : Z) : Prop := 0 ≤ x < 2 ^ 32.
Definition is_u64 (x : Z) : Prop := 0 ≤ x < 2 ^ 64.

Abbreviation is_bytes := (Forall is_u8).
Abbreviation is_u32s := (Forall is_u32).

(** [size()] of a container, as the [size_t] it returns. *)
Abbreviation zlen l := (Z.of_nat (length l)).

#[export] Instance is_u8_dec x : Decision (is_u8 x).
Proof. unfold is_u8. apply _. Defined.
#[export] Instance is_u16_dec x : Decision (is_u16 x).
Proof. unfold is_u16. apply _. Defined.
#[export] Instance is_u32_dec x : Decision (is_u32 x).
Proof. unfold is_u32. apply _. Defined.
#[export] Instance is_u64_dec x : Decision (is_u64 x).
Proof. unfold is_u64. apply _. Defined.

Lemma u8_small x : is_u8 x → u8 x = x.
Proof. apply Z.mod_small. Qed.
Lemma u16_small x : is_u16 x → u16 x = x.
Proof. apply Z.mod_small. Qed.
Lemma u32_small x : is_u32 x → u32 x = x.
Proof. apply Z.mod_small. Qed.
Lemma u64_small x : is_u64 x → u64 x = x.
Proof. apply Z.mod_small. Qed.

Lemma u8_range x : is_u8 (u8 x).
Proof. apply Z.mod_pos_bound. lia. Qed.
Lemma u16_range x : is_u16 (u16 x).
Proof. apply Z.mod_pos_bound. lia. Qed.
Lemma u32_range x : is_u32 (u32 x).
Proof. apply Z.mod_pos_bound. lia. Qed.
Lemma u64_range x : is_u64 (u64 x).
Proof. apply Z.mod_pos_bound. lia. Qed.

Lemma is_u8_u32 x : is_u8 x → is_u32 x.
Proof. unfold is_u8, is_u32. lia. Qed.
Lemma is_u32_u64 x : is_u32 x → is_u64 x.
Proof. unfold is_u32, is_u64. lia. Qed.
Lemma is_u8_u64 x : is_u8 x → is_u64 x.
Proof. unfold is_u8, is_u64. lia. Qed.

(** Unfold every range predicate and wrap, then [lia]. [2 ^ n] is evaluated
    first because [lia] treats a literal power as a constant. *)
Ltac unfold_ranges :=
  unfold is_u8, is_u16, is_u32, is_u64, u8, u16, u32, u64 in *.
Ltac ulia :=
  unfold_ranges;
  change (2 ^ 8) with 256 in *; change (2 ^ 16) with 65536 in *;
  change (2 ^ 32) with 4294967296 in *;
  change (2 ^ 64) with 18446744073709551616 in *; lia.

(** Quotients and remainders by a literal. *)
Ltac dlia := Z.to_euclidean_division_equations; lia.

Create HintDb snii discriminated.
#[export] Hint Resolve u8_range u16_range u32_range u64_range : snii.
#[export] Hint Resolve is_u32_u64 is_u8_u64 is_u8_u32 : snii.
#[export] Hint Resolve Forall_nil_2 Forall_cons_2 Forall_app_2 : snii.
#[export] Hint Extern 1 (is_u8 (Zpos _)) => (split; [discriminate|reflexivity]) : snii.
#[export] Hint Extern 1 (is_u8 0) => (split; [discriminate|reflexivity]) : snii.
#[export] Hint Extern 1 (is_u32 (Zpos _)) => (split; [discriminate|reflexivity]) : snii.
#[export] Hint Extern 1 (is_u32 0) => (split; [discriminate|reflexivity]) : snii.
#[export] Hint Extern 1 (is_u64 (Zpos _)) => (split; [discriminate|reflexivity]) : snii.
#[export] Hint Extern 1 (is_u64 0) => (split; [discriminate|reflexivity]) : snii.

(** ** Bits *)

Create Rewrite HintDb zbits.
#[export] Hint Rewrite Z.land_spec Z.lor_spec Z.lxor_spec Z.ldiff_spec Z.bits_0
  : zbits.
#[export] Hint Rewrite Z.shiftr_spec Z.shiftl_spec Z.ones_spec using lia : zbits.

(** Goals [a = b] on [Z] proved bit by bit: [bitwise i] leaves the equation of
    the [i]-th bits ([0 ≤ i]) with the operators pushed to the leaves. *)
Ltac bitwise i :=
  apply Z.bits_inj_iff'; intros i ?; autorewrite with zbits.

Lemma testbit_high (n x i : Z) : 0 ≤ n → 0 ≤ x < 2 ^ n → n ≤ i → Z.testbit x i = false.
Proof. intros ? Hx ?. apply (Z.bounded_iff_bits_nonneg n); lia. Qed.

Lemma range_of_bits (n x : Z) :
  0 ≤ n → 0 ≤ x → (∀ i, n ≤ i → Z.testbit x i = false) → 0 ≤ x < 2 ^ n.
Proof. intros ?? Hb. apply Z.bounded_iff_bits_nonneg'; [lia..|]. intros i ?. apply Hb; lia. Qed.

Lemma lxor_range (n x y : Z) : 0 ≤ n → 0 ≤ x < 2 ^ n → 0 ≤ y < 2 ^ n → 0 ≤ Z.lxor x y < 2 ^ n.
Proof.
  intros ? Hx Hy. apply range_of_bits; [done| |].
  - rewrite Z.lxor_nonneg. split; lia.
  - intros i ?. rewrite Z.lxor_spec. by rewrite !(testbit_high n) by lia.
Qed.

Lemma lor_range (n x y : Z) : 0 ≤ n → 0 ≤ x < 2 ^ n → 0 ≤ y < 2 ^ n → 0 ≤ Z.lor x y < 2 ^ n.
Proof.
  intros ? Hx Hy. apply range_of_bits; [done| |].
  - rewrite Z.lor_nonneg. split; lia.
  - intros i ?. rewrite Z.lor_spec. by rewrite !(testbit_high n) by lia.
Qed.

(** Disjoint bit fields: [lor] of a low part and a shifted high part adds. *)
Lemma lor_shiftl_add (n x y : Z) :
  0 ≤ n → 0 ≤ x < 2 ^ n → Z.lor x (y ≪ n) = x + y * 2 ^ n.
Proof.
  intros ? Hx. rewrite <- Z.shiftl_mul_pow2 by lia.
  rewrite <- Z.lxor_lor, <- Z.add_nocarry_lxor; [lia|..].
  all: bitwise i; destruct (decide (i < n));
    [rewrite (Z.testbit_neg_r y) by lia; by rewrite andb_false_r
    |by rewrite (testbit_high n x) by lia].
Qed.

(** ** Lists *)

Create Rewrite HintDb snii_len.
#[export] Hint Rewrite @length_app @length_fmap @length_insert @length_replicate
  @length_take @length_drop @length_cons @length_nil : snii_len.
Ltac solve_len := autorewrite with snii_len in *; try lia.

(** Update of an array cell and the split of the array around it. *)
Lemma list_split_at {A} (l : list A) (i : nat) x :
  l !! i = Some x → l = take i l ++ x :: drop (S i) l.
Proof. intros. by rewrite take_drop_middle. Qed.

Lemma take_app_length_exact {A} (l k : list A) n : n = length l → take n (l ++ k) = l.
Proof. intros ->. by rewrite take_app_length. Qed.

Lemma drop_app_length_exact {A} (l k : list A) n : n = length l → drop n (l ++ k) = k.
Proof. intros ->. by rewrite drop_app_length. Qed.

(** The [off, off+n) window of a buffer that is cut as [pre ++ mid ++ post]. *)
Lemma take_drop_mid {A} (pre mid post : list A) :
  take (length mid) (drop (length pre) (pre ++ mid ++ post)) = mid.
Proof. by rewrite drop_app_length, take_app_length. Qed.

Lemma lt_sorted_le l : StronglySorted Z.lt l → StronglySorted Z.le l.
Proof. induction 1 as [|x l Hl IH Hx]; constructor; [done|]. eapply Forall_impl; [exact Hx|]. lia. Qed.

Lemma lt_sorted_nodup l : StronglySorted Z.lt l → NoDup l.
Proof.
  induction 1 as [|x l Hl IH Hx]; constructor; [|done]. intros Hin. rewrite Forall_forall in Hx. specialize (Hx x Hin). lia.
Qed.

Lemma StronglySorted_lookup_lt {A} (R : A → A → Prop) l (i j : nat) x y :
  StronglySorted R l → l !! i = Some x → l !! j = Some y → (i < j)%nat → R x y.
Proof.
  intros Hl. revert i j. induction Hl as [|z l Hl IH Hz]; intros i j Hi Hj Hij; [done|].
  destruct i as [|i], j as [|j]; [lia| |lia|].
  - cbn in Hi, Hj. injection Hi as ->. rewrite Forall_lookup in Hz. eauto.
  - cbn in Hi, Hj. apply (IH i j); [done..|lia].
Qed.

(** A list cut into pieces of [k], the last one possibly shorter. *)
Fixpoint chunks_loop {A} (fuel k : nat) (l : list A) : list (list A) :=
  match fuel, l with
  | S fuel, _ :: _ => take k l :: chunks_loop fuel k (drop k l)
  | _, _ => []
  end.
Definition chunks {A} (k : nat) (l : list A) : list (list A) := chunks_loop (length l) k l.

Lemma chunks_loop_spec {A} fuel k (l : list A) :
  (0 < k)%nat → (length l ≤ fuel)%nat →
  concat (chunks_loop fuel k l) = l ∧ Forall (λ s, s ≠ []) (chunks_loop fuel k l).
Proof.
  intros Hk. revert l. induction fuel as [|fuel IH]; intros l Hf.
  { destruct l; [by split|cbn in Hf; lia]. }
  destruct l as [|x l]; [by split|]. cbn [chunks_loop concat].
  destruct (IH (drop k (x :: l))) as [-> Hne]; [rewrite length_drop; cbn in *; lia|].
  rewrite take_drop. split; [done|]. constructor; [|done]. by destruct k; [lia|].
Qed.

Lemma chunks_spec {A} k (l : list A) :
  (0 < k)%nat → concat (chunks k l) = l ∧ Forall (λ s, s ≠ []) (chunks k l).
Proof. intros. by apply chunks_loop_spec. Qed.

Lemma elem_of_concat_map {A B} (f : A → list B) l x : x ∈ concat (map f l) ↔ ∃ a, a ∈ l ∧ x ∈ f a.
Proof.
  induction l as [|a l IH]; cbn [map concat]; [split; [by intros ?%elem_of_nil|intros (? & ?%elem_of_nil & _); done]|].
  rewrite elem_of_app, IH. split.
  - intros [Hx|(b & Hb & Hx)]; [exists a|exists b]; (split; [|done]); [left|by right].
  - intros (b & [-> | Hb]%elem_of_cons & Hx); [by left|right; by exists b].
Qed.

Lemma concat_count {A} (cs : list (list A)) : Forall (λ s, s ≠ []) cs → (length cs ≤ length (concat cs))%nat.
Proof.
  induction 1 as [|c cs Hc Hcs IH]; cbn [concat length]; [done|]. rewrite length_app. destruct c; [done|]. cbn [length]. lia.
Qed.

Lemma chunks_loop_length {A} fuel (k : nat) (l : list A) :
  (0 < k)%nat → (length l ≤ fuel)%nat →
  zlen (chunks_loop fuel k l) = (zlen l + Z.of_nat k - 1) / Z.of_nat k.
Proof.
  intros Hk. revert l. induction fuel as [|fuel IH]; intros l Hf.
  { destruct l; [|cbn in Hf; lia]. cbn [chunks_loop length]. symmetry. apply Z.div_small. lia. }
  destruct l as [|x l]; [cbn [chunks_loop length]; symmetry; apply Z.div_small; lia|].
  cbn [chunks_loop length]. cbn [length] in Hf. rewrite Nat2Z.inj_succ.
  rewrite IH by (rewrite length_drop; cbn [length]; lia). rewrite length_drop. cbn [length].
  destruct (decide (k ≤ S (length l))%nat) as [Hle|Hgt].
  - replace (Z.of_nat (S (length l)) + Z.of_nat k - 1)
      with (Z.of_nat (S (length l) - k) + Z.of_nat k - 1 + 1 * Z.of_nat k) by lia.
    rewrite Z.div_add by lia. lia.
  - replace (S (length l) - k)%nat with 0%nat by lia. rewrite Z.div_small by lia.
    apply Z.div_unique_pos with (Z.of_nat (length l)); lia.
Qed.
Lemma chunks_length {A} (k : nat) (l : list A) :
  (0 < k)%nat → zlen (chunks k l) = (zlen l + Z.of_nat k - 1) / Z.of_nat k.
Proof. intros. by apply chunks_loop_length. Qed.

Lemma chunks_loop_Forall {A} (P : A → Prop) fuel k l :
  Forall P l → Forall (Forall P) (chunks_loop fuel k l).
Proof.
  revert l. induction fuel as [|fuel IH]; intros l Hl; cbn [chunks_loop]; [done|].
  destruct l as [|x l]; [done|]. constructor; [by apply Forall_take|]. by apply IH, Forall_drop.
Qed.
Lemma chunks_Forall {A} (P : A → Prop) k l : Forall P l → Forall (Forall P) (chunks k l).
Proof. apply chunks_loop_Forall. Qed.

(** ** Little-endian regrouping

    [little_endian_to_Z n ds] reads the list [ds] of [n]-bit digits as one
    number; [Z_to_little_endian m n x] writes [x] as [m] digits (both stdpp). *)

Lemma le_to_Z_cons n d ds :
  little_endian_to_Z n (d :: ds) = Z.lor d (little_endian_to_Z n ds ≪ n).
Proof. done. Qed.

Lemma le_to_Z_nonneg n ds : 0 ≤ n → Forall (λ d, 0 ≤ d) ds → 0 ≤ little_endian_to_Z n ds.
Proof.
  intros ?. induction 1 as [|d ds ?? IH]; [done|]. cbn.
  apply Z.lor_nonneg. split; [done|]. by apply Z.shiftl_nonneg.
Qed.

Lemma le_to_Z_app n xs ys :
  0 ≤ n →
  little_endian_to_Z n (xs ++ ys) =
    Z.lor (little_endian_to_Z n xs) (little_endian_to_Z n ys ≪ (zlen xs * n)).
Proof.
  intros Hn. induction xs as [|x xs IH]; cbn.
  { by rewrite Z.mul_0_l, Z.shiftl_0_r. }
  rewrite IH, Z.shiftl_lor, Z.shiftl_shiftl, Z.lor_assoc by nia. do 2 f_equal. lia.
Qed.

Lemma le_to_Z_cons_add n d ds :
  0 ≤ n → 0 ≤ d < 2 ^ n →
  little_endian_to_Z n (d :: ds) = d + little_endian_to_Z n ds * 2 ^ n.
Proof. intros. rewrite le_to_Z_cons. by rewrite lor_shiftl_add. Qed.

Lemma le_to_Z_app_add n xs ys :
  0 ≤ n → Forall (λ d, 0 ≤ d < 2 ^ n) xs →
  little_endian_to_Z n (xs ++ ys) =
    little_endian_to_Z n xs + little_endian_to_Z n ys * 2 ^ (zlen xs * n).
Proof.
  intros. rewrite le_to_Z_app by done.
  apply lor_shiftl_add; [lia|]. by apply little_endian_to_Z_bound.
Qed.

Lemma le_to_Z_drop n ds k :
  0 ≤ n → Forall (λ d, 0 ≤ d < 2 ^ n) ds →
  little_endian_to_Z n (drop k ds) = little_endian_to_Z n ds ≫ (Z.of_nat k * n).
Proof.
  intros Hn Hds. revert k. induction Hds as [|d ds Hd Hds IH]; intros k.
  { rewrite drop_nil. cbn [little_endian_to_Z]. by rewrite Z.shiftr_0_l. }
  destruct k as [|k]; cbn [drop]; [by rewrite Z.shiftr_0_r|].
  rewrite IH, le_to_Z_cons_add by done.
  replace (Z.of_nat (S k) * n) with (n + Z.of_nat k * n) by lia.
  rewrite <- Z.shiftr_shiftr by lia. f_equal.
  rewrite Z.shiftr_div_pow2 by lia. rewrite Z.div_add by lia.
  rewrite Z.div_small by done. lia.
Qed.

Lemma le_to_Z_take n ds k :
  0 ≤ n → Forall (λ d, 0 ≤ d < 2 ^ n) ds →
  little_endian_to_Z n (take k ds) = little_endian_to_Z n ds `mod` 2 ^ (Z.of_nat k * n).
Proof.
  intros Hn Hds.
  assert (Forall (λ d, 0 ≤ d < 2 ^ n) (take k ds)) as Ht by by apply Forall_take.
  pose proof (little_endian_to_Z_bound n _ Hn Ht) as Hb.
  destruct (decide (k ≤ length ds)%nat).
  - rewrite <- (take_drop k ds) at 2. rewrite le_to_Z_app_add by done.
    rewrite length_take, Nat.min_l in * by lia. rewrite Z.mod_add by lia.
    by rewrite Z.mod_small.
  - rewrite take_ge in * by lia. symmetry. apply Z.mod_small. split; [lia|].
    eapply Z.lt_le_trans; [apply Hb|]. apply Z.pow_le_mono_r; nia.
Qed.

Lemma le_to_Z_lookup n ds i d :
  0 ≤ n → Forall (λ d, 0 ≤ d < 2 ^ n) ds → ds !! i = Some d →
  d = (little_endian_to_Z n ds ≫ (Z.of_nat i * n)) `mod` 2 ^ n.
Proof.
  intros Hn Hds Hi. rewrite <- le_to_Z_drop by done. rewrite (drop_S ds d i) by done.
  assert (0 ≤ d < 2 ^ n) as Hd by (rewrite Forall_lookup in Hds; eauto).
  rewrite le_to_Z_cons_add by done. rewrite Z.mod_add by lia. by rewrite Z.mod_small.
Qed.
