(* ===== verification/StdAlgorithms.v ===== *)
(** * StdAlgorithms: the algorithms of the C++ library the code calls.

    [std::sort], [std::stable_sort] and [std::priority_queue] are classes with
    the behaviour the C++ standard documents, for a comparator that orders the
    elements at hand; [std::unique] is a function, and so is [partition_point],
    the binary search behind [std::upper_bound]. [StdSortUniform] says that a sort
    sees its elements through the comparator alone. The modules at the end are
    instances, an insertion sort and a queue on a list. *)

From S2P Require Import Prelude.

#[local] Open Scope Z_scope.

(** A comparator a priority queue accepts. *)
Definition strict_weak {A} (less : A → A → bool) : Prop :=
  (∀ a b, less a b = true → less b a = false) ∧ (∀ a b c, less a b = false → less b c = false → less a c = false).

(** One that is an order on the elements at hand. *)
Definition strict_weak_on {A} (P : A → Prop) (less : A → A → bool) : Prop :=
  (∀ a b, P a → P b → less a b = true → less b a = false) ∧
  (∀ a b c, P a → P b → P c → less a b = false → less b c = false → less a c = false).

Lemma strict_weak_everywhere {A} (P : A → Prop) less : strict_weak less → strict_weak_on P less.
Proof. intros [Has Htr]. split; [intros a b _ _; apply Has|intros a b c _ _ _; apply Htr]. Qed.

Lemma Forall_top {A} (l : list A) : Forall (λ _, True) l.
Proof. by apply Forall_forall. Qed.

(** A priority queue for the comparator [less]: what [pop] takes is not less
    than any element. [queue_elems] is a ghost. *)
Class PriorityQueueOf (A : Type) := {
  queue : Type;
  queue_empty : queue;
  queue_push : (A → A → bool) → A → queue → queue;
  queue_pop : (A → A → bool) → queue → option (A * queue);
  queue_size : queue → Z;
  queue_elems : queue → list A;
  queue_size_spec q : queue_size q = zlen (queue_elems q);
  queue_empty_spec : queue_elems queue_empty = [];
  queue_push_spec less a q : queue_elems (queue_push less a q) ≡ₚ a :: queue_elems q;
  queue_pop_spec less q P :
    strict_weak_on P less → Forall P (queue_elems q) →
    match queue_pop less q with
    | None => queue_elems q = []
    | Some (a, q') => queue_elems q ≡ₚ a :: queue_elems q' ∧ Forall (λ b, less a b = false) (queue_elems q')
    end
}.

(** [std::sort], [std::stable_sort]. *)
Class StdSort := {
  std_sort {A} : (A → A → bool) → list A → list A;
  std_stable_sort {A} : (A → A → bool) → list A → list A
}.

(** Both sort by a comparator that is an order on the elements; the second keeps
    equivalent elements in order. *)
Class StdSortLaws `{StdSort} := {
  std_sort_perm {A} P (less : A → A → bool) l : strict_weak_on P less → Forall P l → std_sort less l ≡ₚ l;
  std_sort_sorted {A} P (less : A → A → bool) l :
    strict_weak_on P less → Forall P l → StronglySorted (λ a b, less b a = false) (std_sort less l);
  std_stable_sort_perm {A} P (less : A → A → bool) l : strict_weak_on P less → Forall P l → std_stable_sort less l ≡ₚ l;
  std_stable_sort_sorted {A} P (less : A → A → bool) l :
    strict_weak_on P less → Forall P l → StronglySorted (λ a b, less b a = false) (std_stable_sort less l);
  std_stable_sort_stable {A} (less : A → A → bool) x l :
    strict_weak less →
    List.filter (λ y, negb (less x y) && negb (less y x)) (std_stable_sort less l) =
      List.filter (λ y, negb (less x y) && negb (less y x)) l
}.

(** [std::sort] sees the elements through the comparator only: on related vectors it
    does the same moves. *)
Class StdSortUniform `{StdSort} := {
  std_sort_uniform {A B} (R : A → B → Prop) lessA lessB la lb :
    (∀ a b a' b', R a b → R a' b' → lessA a a' = lessB b b') → Forall2 R la lb →
    Forall2 R (std_sort lessA la) (std_sort lessB lb)
}.

Section Sorting.
Context `{StdSortLaws} {A : Type} (less : A → A → bool) (l : list A) (Hless : strict_weak less).

Lemma std_sort_permutes : std_sort less l ≡ₚ l.
Proof. apply (std_sort_perm (λ _, True)); [by apply strict_weak_everywhere|apply Forall_top]. Qed.
Lemma std_sort_sorts : StronglySorted (λ a b, less b a = false) (std_sort less l).
Proof. apply (std_sort_sorted (λ _, True)); [by apply strict_weak_everywhere|apply Forall_top]. Qed.
Lemma std_stable_sort_permutes : std_stable_sort less l ≡ₚ l.
Proof. apply (std_stable_sort_perm (λ _, True)); [by apply strict_weak_everywhere|apply Forall_top]. Qed.
Lemma std_stable_sort_sorts : StronglySorted (λ a b, less b a = false) (std_stable_sort less l).
Proof. apply (std_stable_sort_sorted (λ _, True)); [by apply strict_weak_everywhere|apply Forall_top]. Qed.
End Sorting.

(** [std::unique] and [erase]. *)
Fixpoint unique {A} `{EqDecision A} (l : list A) : list A :=
  match l with
  | [] => []
  | x :: l' =>
      match unique l' with
      | y :: u => if decide (x = y) then y :: u else x :: y :: u
      | [] => [x]
      end
  end.

Lemma unique_elem {A} `{EqDecision A} (l : list A) x : x ∈ unique l ↔ x ∈ l.
Proof.
  induction l as [|u l IH]; [done|]. cbn [unique]. rewrite elem_of_cons, <- IH.
  destruct (unique l) as [|v rest]; [by rewrite elem_of_cons|].
  destruct (decide (u = v)) as [->|]; rewrite !elem_of_cons; tauto.
Qed.

(** Behind a sort, what is left ascends strictly. *)
Lemma unique_sorted l : StronglySorted Z.le l → StronglySorted Z.lt (unique l).
Proof.
  induction 1 as [|x l Hs IH Hx]; cbn [unique]; [constructor|]. pose proof (unique_elem l) as Hel.
  destruct (unique l) as [|y u]; [by repeat constructor|]. rewrite Forall_forall in Hx. destruct (decide (x = y)) as [->|Hne]; [done|].
  constructor; [done|]. assert (x < y) as Hy by (specialize (Hx y (proj1 (Hel y) ltac:(by left))); lia).
  apply StronglySorted_inv in IH as [_ Hu]. constructor; [done|]. eapply Forall_impl; [exact Hu|]. cbn. lia.
Qed.

(** [std::upper_bound] and its kind: how many elements at the front satisfy [p], by
    halving of a range. The fuel is the number of elements. *)
Fixpoint partition_loop {A} (p : A → bool) (fuel : nat) (l : list A) (first count : Z) : Z :=
  match fuel with
  | O => first
  | S fuel =>
      if 0 <? count then
        let step := count / 2 in
        match l !! Z.to_nat (first + step) with
        | Some x => if p x then partition_loop p fuel l (first + step + 1) (count - (step + 1)) else partition_loop p fuel l first step
        | None => first
        end
      else first
  end.
Definition partition_point {A} (p : A → bool) (l : list A) : Z := partition_loop p (length l) l 0 (zlen l).

Lemma partition_loop_spec {A} (p : A → bool) fuel l first count (k : nat) :
  (∀ (i : nat) x, l !! i = Some x → p x = bool_decide (i < k)%nat) → (k ≤ length l)%nat →
  0 ≤ first ≤ Z.of_nat k → Z.of_nat k ≤ first + count → first + count ≤ zlen l → count ≤ Z.of_nat fuel →
  partition_loop p fuel l first count = Z.of_nat k.
Proof.
  intros Hp Hk. revert first count. induction fuel as [|fuel IH]; intros first count Hf Hc Hl Hfuel; cbn [partition_loop]; [lia|].
  destruct (Z.ltb_spec 0 count) as [Hpos|]; [|lia].
  assert (0 ≤ count / 2 < count) as Hstep by (split; [apply Z.div_pos; lia|apply Z.div_lt; lia]). set (step := count / 2) in *.
  destruct (lookup_lt_is_Some_2 l (Z.to_nat (first + step))) as [x Hx]; [lia|]. rewrite Hx, (Hp _ _ Hx).
  destruct (bool_decide_reflect (Z.to_nat (first + step) < k)%nat); apply IH; lia.
Qed.

Lemma partition_point_spec {A} (p : A → bool) l (k : nat) :
  (∀ (i : nat) x, l !! i = Some x → p x = bool_decide (i < k)%nat) → (k ≤ length l)%nat → partition_point p l = Z.of_nat k.
Proof. intros Hp Hk. apply partition_loop_spec; [done|lia..]. Qed.

(** ** Instances *)

Module StableSorting.
Section Insertion.
Context {A : Type} (less : A → A → bool).

Fixpoint insert (x : A) (l : list A) : list A :=
  match l with [] => [x] | y :: l' => if less y x then y :: insert x l' else x :: l end.
Definition isort (l : list A) : list A := foldr insert [] l.

Lemma insert_perm x l : insert x l ≡ₚ x :: l.
Proof. induction l as [|y l IH]; cbn; [done|]. destruct (less y x); [|done]. rewrite IH. constructor. Qed.

Lemma isort_perm l : isort l ≡ₚ l.
Proof. induction l as [|x l IH]; cbn; [done|]. by rewrite insert_perm, IH. Qed.

Lemma insert_sorted (P : A → Prop) x l : strict_weak_on P less → Forall P (x :: l) →
  StronglySorted (λ a b, less b a = false) l → StronglySorted (λ a b, less b a = false) (insert x l).
Proof.
  intros [Has Htr] [Hx Hl]%Forall_cons Hs. revert Hl. induction Hs as [|y l Hs IH Hy]; intros Hl; cbn [insert]; [by repeat constructor|].
  apply Forall_cons in Hl as [Hpy Hl]. destruct (less y x) eqn:Hyx.
  - constructor; [by apply IH|]. rewrite insert_perm. constructor; [by apply Has|done].
  - constructor; [by constructor|]. constructor; [done|]. rewrite Forall_forall in *. intros z Hz. apply (Htr z y x); auto.
Qed.

Lemma isort_sorted (P : A → Prop) l : strict_weak_on P less → Forall P l → StronglySorted (λ a b, less b a = false) (isort l).
Proof.
  intros Hw. induction l as [|x l IH]; cbn; [constructor|]. intros [Hx Hl]%Forall_cons. apply (insert_sorted P); [done| |by apply IH].
  constructor; [done|]. change (foldr insert [] l) with (isort l). by rewrite isort_perm.
Qed.

Hypothesis Hless : strict_weak less.

Abbreviation equiv z y := (negb (less z y) && negb (less y z)).

Lemma filter_insert z x l : List.filter (λ y, equiv z y) (insert x l) = List.filter (λ y, equiv z y) (x :: l).
Proof.
  destruct Hless as [Has Htr]. induction l as [|y l IH]; [done|]. cbn [insert]. destruct (less y x) eqn:Hyx; [|done].
  cbn [List.filter] in *. rewrite IH. destruct (equiv z y) eqn:Hzy; [|done]. destruct (equiv z x) eqn:Hzx; [|done].
  apply andb_true_iff in Hzy as [Hzy%negb_true_iff Hyz%negb_true_iff], Hzx as [Hzx%negb_true_iff Hxz%negb_true_iff].
  by rewrite (Htr y z x Hyz Hzx) in Hyx.
Qed.

Lemma isort_stable z l : List.filter (λ y, equiv z y) (isort l) = List.filter (λ y, equiv z y) l.
Proof. induction l as [|x l IH]; [done|]. cbn [isort foldr]. rewrite filter_insert. cbn [List.filter]. fold (isort l). by rewrite IH. Qed.
End Insertion.

#[global] Instance stable_insertion : StdSort := {| std_sort A := isort; std_stable_sort A := isort |}.
#[global] Instance stable_insertion_laws : StdSortLaws.
Proof.
  split; intros.
  - apply isort_perm.
  - by apply (isort_sorted _ P).
  - apply isort_perm.
  - by apply (isort_sorted _ P).
  - by apply isort_stable.
Qed.
#[global] Instance stable_insertion_uniform : StdSortUniform.
Proof.
  split. intros A B R lessA lessB la lb Hless Hl. change (Forall2 R (isort lessA la) (isort lessB lb)).
  assert (∀ a b la lb, R a b → Forall2 R la lb → Forall2 R (insert lessA a la) (insert lessB b lb)) as Hins.
  { intros a b la' lb' Hab. induction 1 as [|a' b' la' lb' Hab' Hl' IH]; cbn [insert]; [by constructor; [|constructor]|].
    rewrite (Hless a' b' a b) by done. destruct (lessB b' b); constructor; [done|done|done|by constructor]. }
  induction Hl as [|a b la lb Hab Hl IH]; cbn [isort foldr]; [constructor|]. by apply Hins.
Qed.
End StableSorting.

Module ListQueue.
Fixpoint select {A} (less : A → A → bool) (a : A) (l : list A) : A * list A :=
  match l with
  | [] => (a, [])
  | b :: l => let '(m, r) := select less b l in if less a m then (m, a :: r) else (a, m :: r)
  end.

Lemma select_perm {A} (less : A → A → bool) a l : let '(m, r) := select less a l in a :: l ≡ₚ m :: r.
Proof.
  revert a. induction l as [|b l IH]; intros a; cbn [select]; [done|].
  specialize (IH b). destruct (select less b l) as [m r]. by destruct (less a m); rewrite IH; constructor.
Qed.

Lemma select_spec {A} (P : A → Prop) (less : A → A → bool) a l :
  strict_weak_on P less → Forall P (a :: l) → let '(m, r) := select less a l in Forall (λ b, less m b = false) r.
Proof.
  intros [Has Htr]. revert a. induction l as [|b l IH]; intros a [Ha Hl]%Forall_cons; cbn [select]; [constructor|].
  specialize (IH b Hl). pose proof (select_perm less b l) as Hp. destruct (select less b l) as [m r].
  assert (P m ∧ Forall P r) as [Hm Hr] by (apply Forall_cons; by rewrite <- Hp). destruct (less a m) eqn:Ham; constructor; try done; [by apply Has|].
  rewrite Forall_forall in *. intros x Hx. apply (Htr a m x); auto.
Qed.

#[global] Instance list_queue A : PriorityQueueOf A.
Proof.
  refine {| queue := list A; queue_empty := []; queue_push _ a q := a :: q; queue_size q := zlen q; queue_elems q := q;
            queue_pop less q := match q with [] => None | a :: q => Some (select less a q) end |}; [done|done|done|].
  intros less [|a q] P Hless HP; [done|]. pose proof (select_spec P less a q Hless HP) as Hs. pose proof (select_perm less a q) as Hp.
  by destruct (select less a q).
Defined.
End ListQueue.
