(* ===== verification/Status.v ===== *)
(** * Status: error codes and the result monad.

    [common/status.h] and [common/status.cpp]. Every fallible function of the
    program returns a [Status]; on success its results are in out-parameters.
    Here such a function returns a [result]:

    - [Ok a] is [Status::OK()] with the out-parameters [a];
    - [Err st] is the early return of the non-OK status [st];
    - [Undef] is a state the C++ gives no meaning to: a [Slice] that leaves its
      buffer, an index out of range, an arena read outside a block. The safety
      theorems of the later files say where it cannot happen.

    [SNII_RETURN_IF_ERROR(e); k] is the bind of the monad. *)

From S2P Require Import Prelude.

Inductive StatusCode :=
  kOk | kCorruption | kNotFound | kInvalidArgument | kIoError | kUnsupported | kInternal.

#[export] Instance StatusCode_eq_dec : EqDecision StatusCode.
Proof. solve_decision. Defined.

Record Status := mkStatus { code_ : StatusCode; message_ : string }.

#[export] Instance Status_eq_dec : EqDecision Status.
Proof. solve_decision. Defined.

Definition OK : Status := mkStatus kOk "".
Definition Corruption (m : string) : Status := mkStatus kCorruption m.
Definition NotFound (m : string) : Status := mkStatus kNotFound m.
Definition InvalidArgument (m : string) : Status := mkStatus kInvalidArgument m.
Definition IoError (m : string) : Status := mkStatus kIoError m.
Definition Unsupported (m : string) : Status := mkStatus kUnsupported m.
Definition Internal (m : string) : Status := mkStatus kInternal m.

Definition ok (st : Status) : bool := bool_decide (code_ st = kOk).

(** [kCodeNames], in the order of the enum. *)
Definition kCodeNames (c : StatusCode) : string :=
  match c with
  | kOk => "OK" | kCorruption => "Corruption" | kNotFound => "NotFound"
  | kInvalidArgument => "InvalidArgument" | kIoError => "IoError"
  | kUnsupported => "Unsupported" | kInternal => "Internal"
  end.

Definition to_string (st : Status) : string :=
  if String.eqb (message_ st) "" then kCodeNames (code_ st)
  else (kCodeNames (code_ st) ++ ": " ++ message_ st)%string.

(** ** Results *)

Inductive result (A : Type) : Type :=
  | Ok (a : A)
  | Err (st : Status)
  | Undef.
Arguments Ok {A} a.
Arguments Err {A} st.
Arguments Undef {A}.

#[export] Instance result_ret : MRet result := @Ok.
#[export] Instance result_bind : MBind result := λ A B k r,
  match r with Ok a => k a | Err st => Err st | Undef => Undef end.
#[export] Instance result_fmap : FMap result := λ A B f r,
  match r with Ok a => Ok (f a) | Err st => Err st | Undef => Undef end.

#[export] Instance result_eq_dec {A} `{EqDecision A} : EqDecision (result A).
Proof. solve_decision. Defined.

(** [if (b) return st;] *)
Definition reject_if (b : bool) (st : Status) : result unit :=
  if b then Err st else Ok tt.

(** The outcome is one the C++ defines: a value or a [Status]. *)
Definition defined {A} (r : result A) : Prop := r ≠ Undef.

Definition is_ok {A} (r : result A) : bool :=
  match r with Ok _ => true | _ => false end.

Lemma result_bind_Ok {A B} (r : result A) (k : A → result B) b :
  r ≫= k = Ok b → ∃ a, r = Ok a ∧ k a = Ok b.
Proof. destruct r; cbn; [eauto|done|done]. Qed.

(** Stepping by rewriting keeps checksums out of conversion. *)
Lemma bind_Ok {A B} (a : A) (k : A → result B) : Ok a ≫= k = k a.
Proof. done. Qed.
Lemma bind_reject b st {B} (k : unit → result B) :
  reject_if b st ≫= k = if b then Err st else k tt.
Proof. by destruct b. Qed.
Lemma bind_reject_false b st {B} (k : unit → result B) :
  b = false → reject_if b st ≫= k = k tt.
Proof. by intros ->. Qed.

Lemma reject_if_Ok b st u : reject_if b st = Ok u → b = false.
Proof. by destruct b. Qed.

Lemma defined_bind {A B} (r : result A) (k : A → result B) :
  defined r → (∀ a, r = Ok a → defined (k a)) → defined (r ≫= k).
Proof. unfold defined. destruct r; cbn; auto. Qed.

Lemma defined_Ok {A} (a : A) : defined (Ok a).
Proof. done. Qed.
Lemma defined_Err {A} st : defined (A := A) (Err st).
Proof. done. Qed.
Lemma defined_reject_if b st : defined (reject_if b st).
Proof. by destruct b. Qed.
#[export] Hint Resolve defined_Ok defined_Err defined_reject_if : snii.

(** Invert a successful [do]-block one statement at a time. *)
Ltac inv_bind H :=
  repeat match type of H with
  | _ ≫= _ = Ok _ =>
      let a := fresh "a" in let E := fresh "E" in
      apply result_bind_Ok in H as (a & E & H)
  end.

(** A loop [for (x : l) { SNII_RETURN_IF_ERROR(f(x, &acc)); }]. *)
Fixpoint fold_result {A B} (f : B → A → result A) (l : list B) (acc : A) : result A :=
  match l with
  | [] => Ok acc
  | x :: l => acc' ← f x acc; fold_result f l acc'
  end.

Lemma fold_result_app {A B} (f : B → A → result A) l k acc :
  fold_result f (l ++ k) acc = (fold_result f l acc ≫= fold_result f k).
Proof.
  revert acc. induction l as [|x l IH]; intros acc; cbn; [done|].
  destruct (f x acc); cbn; [apply IH|done|done].
Qed.

Lemma fold_result_map {A B C} (f : B → A → result A) (g : C → B) l acc :
  fold_result f (map g l) acc = fold_result (λ x, f (g x)) l acc.
Proof.
  revert acc. induction l as [|x l IH]; intros acc; cbn; [done|].
  destruct (f (g x) acc); cbn; [apply IH|done|done].
Qed.
