(* ===== verification/Varint.v ===== *)
(** * Varint: LEB128 and zigzag.

    [encoding/varint.h] and [encoding/varint.cpp]. A [uint64_t] takes at most
    ten groups of seven bits, so the encoder's [while] loop is run with fuel
    [10]; [encode_varint64_fuel] shows that more fuel changes nothing. *)

From S2P Require Import Prelude Status.

#[local] Open Scope Z_scope.

(** ** Encoder *)

Fixpoint varint_len_loop (fuel : nat) (v n : Z) : Z :=
  match fuel with
  | O => n
  | S fuel => if 0x80 <=? v then varint_len_loop fuel (v ≫ 7) (n + 1) else n
  end.
Definition varint_len (v : Z) : Z := varint_len_loop 10 v 1.

Fixpoint encode_varint64_loop (fuel : nat) (v : Z) : bytes :=
  match fuel with
  | O => []
  | S fuel =>
      if 0x80 <=? v then Z.lor (u8 v) 0x80 :: encode_varint64_loop fuel (v ≫ 7)
      else [u8 v]
  end.
Definition encode_varint64 (v : Z) : bytes := encode_varint64_loop 10 v.
Definition encode_varint32 (v : Z) : bytes := encode_varint64 v.

#[global] Arguments encode_varint64 _ : simpl never.

(** ** Decoder

    The bytes of [p, end) are the list; the result is the value and the number
    of bytes consumed ([next - p]). *)
Fixpoint decode_varint64_loop (p : bytes) (res shift : Z) (n : nat) : result (Z * nat) :=
  match p with
  | [] => Err (Corruption "varint truncated")
  | b :: p =>
      let res := Z.lor res (u64 (Z.land b 0x7F ≪ shift)) in
      if Z.land b 0x80 =? 0 then Ok (res, S n)
      else
        let shift := shift + 7 in
        if 64 <=? shift then Err (Corruption "varint64 overflow")
        else decode_varint64_loop p res shift (S n)
  end.
Definition decode_varint64 (p : bytes) : result (Z * nat) := decode_varint64_loop p 0 0 0.

Definition decode_varint32 (p : bytes) : result (Z * nat) :=
  '(tmp, next) ← decode_varint64 p;
  if 0xFFFFFFFF <? tmp then Err (Corruption "varint32 overflow")
  else Ok (u32 tmp, next).

(** ** Zigzag: [int64_t] as a [Z] of [-2^63, 2^63), [v >> 63] arithmetic. *)

Definition is_i64 (v : Z) : Prop := - 2 ^ 63 ≤ v < 2 ^ 63.
Definition i64 (v : Z) : Z := u64 (v + 2 ^ 63) - 2 ^ 63.

Definition zigzag_encode (v : Z) : Z := Z.lxor (u64 (u64 v ≪ 1)) (u64 (v ≫ 63)).
Definition zigzag_decode (v : Z) : Z := Z.lxor (i64 (v ≫ 1)) (- i64 (Z.land v 1)).

(** ** Facts on seven-bit groups *)

Lemma u8_lor_80_land_7F v : Z.land (Z.lor (u8 v) 0x80) 0x7F = v `mod` 2 ^ 7.
Proof.
  unfold u8. change 0x7F with (Z.ones 7). rewrite <- !Z.land_ones by lia.
  change 0x80 with (1 ≪ 7). bitwise i.
  destruct (decide (i < 7)).
  - rewrite (Z.testbit_neg_r 1) by lia. rewrite !bool_decide_true by lia.
    by rewrite orb_false_r, !andb_true_r.
  - rewrite (bool_decide_false (_ < 7)) by lia. by rewrite !andb_false_r.
Qed.

Lemma u8_lor_80_land_80 v : Z.land (Z.lor (u8 v) 0x80) 0x80 = 0x80.
Proof.
  change 0x80 with (1 ≪ 7). bitwise i.
  destruct (decide (i = 7)) as [->|?]; [by rewrite orb_true_r|].
  destruct (decide (i < 7)).
  - rewrite (Z.testbit_neg_r 1) by lia. by rewrite andb_false_r.
  - rewrite (testbit_high 1 1) by lia. by rewrite andb_false_r.
Qed.

Lemma land_7F_small b : 0 ≤ b < 0x80 → Z.land b 0x7F = b.
Proof. intros. change 0x7F with (Z.ones 7). rewrite Z.land_ones by lia. by apply Z.mod_small. Qed.

Lemma land_80_small b : 0 ≤ b < 0x80 → Z.land b 0x80 = 0.
Proof.
  intros. change 0x80 with (1 ≪ 7). bitwise i.
  destruct (decide (i < 7)).
  - rewrite (Z.testbit_neg_r 1) by lia. by rewrite andb_false_r.
  - by rewrite (testbit_high 7 b) by lia.
Qed.

Lemma is_u8_lor_80 v : is_u8 (Z.lor (u8 v) 0x80).
Proof. apply lor_range; [lia|apply u8_range|lia]. Qed.
#[export] Hint Resolve is_u8_lor_80 : snii.

(** One group and the rest: [(v mod 2^7) + 2^7 * (v >> 7) = v], shifted. *)
Lemma group_step r v shift :
  0 ≤ v → 0 ≤ shift →
  Z.lor (Z.lor r ((v `mod` 2 ^ 7) ≪ shift)) ((v ≫ 7) ≪ (shift + 7)) = Z.lor r (v ≪ shift).
Proof.
  intros ??. rewrite <- Z.lor_assoc. f_equal.
  rewrite Z.add_comm, <- Z.shiftl_shiftl, <- Z.shiftl_lor by lia. f_equal.
  rewrite lor_shiftl_add; [|lia|apply Z.mod_pos_bound; lia].
  rewrite Z.shiftr_div_pow2 by lia. pose proof (Z.div_mod v (2 ^ 7)). lia.
Qed.

(** ** Properties of the encoder *)

Lemma encode_varint64_loop_more f v :
  0 ≤ v → v < 2 ^ (7 * Z.of_nat f) → (0 < f)%nat →
  ∀ g, (f ≤ g)%nat → encode_varint64_loop g v = encode_varint64_loop f v.
Proof.
  revert v. induction f as [|f IH]; intros v ? Hv ? g Hg; [lia|].
  destruct g as [|g]; [lia|]. cbn -[Z.shiftr].
  destruct (0x80 <=? v) eqn:Hc; [|done]. apply Z.leb_le in Hc. f_equal.
  rewrite Z.shiftr_div_pow2 by lia.
  destruct f as [|f]; [change (7 * Z.of_nat 1) with 7 in Hv; lia|].
  apply IH; [apply Z.div_pos; lia| |lia|lia].
  apply Z.div_lt_upper_bound; [lia|].
  rewrite <- Z.pow_add_r by lia. replace (7 + 7 * Z.of_nat (S f)) with (7 * Z.of_nat (S (S f))) by lia; lia.
Qed.

Lemma encode_varint64_bytes v : is_bytes (encode_varint64 v).
Proof.
  unfold encode_varint64. generalize 10%nat. intros f. revert v.
  induction f as [|f IH]; intros v; cbn -[Z.shiftr]; [auto with snii|].
  destruct (0x80 <=? v); auto with snii.
Qed.
#[export] Hint Resolve encode_varint64_bytes : snii.

Lemma varint_len_loop_length f v n :
  0 ≤ v < 2 ^ (7 * Z.of_nat f) → (0 < f)%nat →
  varint_len_loop f v n = n - 1 + zlen (encode_varint64_loop f v).
Proof.
  revert v n. induction f as [|f IH]; intros v n Hv ?; [lia|]. cbn -[Z.shiftr].
  destruct (0x80 <=? v) eqn:Hc; cbn [length]; [|lia]. apply Z.leb_le in Hc.
  destruct f as [|f]; [change (7 * Z.of_nat 1) with 7 in Hv; lia|].
  rewrite IH; [lia| |lia]. rewrite Z.shiftr_div_pow2 by lia. split; [apply Z.div_pos; lia|].
  apply Z.div_lt_upper_bound; [lia|].
  rewrite <- Z.pow_add_r by lia. replace (7 + 7 * Z.of_nat (S f)) with (7 * Z.of_nat (S (S f))) by lia; lia.
Qed.

Lemma encode_varint64_length_pos v : (0 < length (encode_varint64 v))%nat.
Proof. unfold encode_varint64. cbn -[Z.shiftr]. destruct (0x80 <=? v); cbn; lia. Qed.

Lemma encode_varint64_length_le v : (length (encode_varint64 v) ≤ 10)%nat.
Proof.
  unfold encode_varint64. generalize 10%nat. intros f. revert v.
  induction f as [|f IH]; intros v; cbn -[Z.shiftr]; [lia|].
  destruct (0x80 <=? v); cbn; [|lia]. specialize (IH (v ≫ 7)). lia.
Qed.

(** ** Decoding what was encoded *)

Lemma decode_varint64_loop_encode f v rest r shift n :
  (0 < f)%nat → 0 ≤ v < 2 ^ (7 * Z.of_nat f) → 0 ≤ shift → v * 2 ^ shift < 2 ^ 64 →
  decode_varint64_loop (encode_varint64_loop f v ++ rest) r shift n =
    Ok (Z.lor r (v ≪ shift), (n + length (encode_varint64_loop f v))%nat).
Proof.
  revert v r shift n. induction f as [|f IH]; intros v r shift n Hf Hv Hs Hlim; [lia|].
  cbn -[Z.shiftr Z.shiftl u64]. destruct (0x80 <=? v) eqn:Hc.
  - apply Z.leb_le in Hc. cbn -[Z.shiftr Z.shiftl u64].
    rewrite u8_lor_80_land_80, u8_lor_80_land_7F. change (0x80 =? 0) with false. cbv iota.
    assert (shift + 7 < 64) as Hs7.
    { apply (Z.pow_lt_mono_r_iff 2); [lia..|]. rewrite Z.pow_add_r by lia. nia. }
    rewrite (proj2 (Z.leb_gt 64 (shift + 7))) by lia.
    assert (0 ≤ v ≫ 7 ∧ (v ≫ 7) * 2 ^ 7 ≤ v) as [Hv7 Hv7'].
    { rewrite Z.shiftr_div_pow2 by lia. pose proof (Z.div_mod v (2 ^ 7)).
      pose proof (Z.mod_pos_bound v (2 ^ 7)). pose proof (Z.div_pos v (2 ^ 7)). lia. }
    destruct f as [|f]; [change (7 * Z.of_nat 1) with 7 in Hv; lia|].
    rewrite IH; [|lia| |lia|].
    + f_equal. f_equal; [|cbn [length]; lia].
      rewrite u64_small; [by apply group_step; lia|].
      rewrite Z.shiftl_mul_pow2 by lia. pose proof (Z.mod_pos_bound v (2 ^ 7)).
      pose proof (Z.mod_le v (2 ^ 7)). unfold is_u64. split; [|]; nia.
    + split; [done|].
      replace (7 * Z.of_nat (S (S f))) with (7 * Z.of_nat (S f) + 7) in Hv by lia.
      rewrite Z.pow_add_r in Hv by lia. nia.
    + rewrite Z.pow_add_r by lia. nia.
  - apply Z.leb_gt in Hc. cbn -[Z.shiftr Z.shiftl u64].
    rewrite u8_small by ulia. rewrite land_80_small, land_7F_small by lia. cbn -[Z.shiftl u64].
    f_equal. f_equal; [|lia]. rewrite u64_small; [done|].
    rewrite Z.shiftl_mul_pow2 by lia. unfold is_u64. nia.
Qed.

Lemma decode_encode_varint64 v rest :
  is_u64 v → decode_varint64 (encode_varint64 v ++ rest) = Ok (v, length (encode_varint64 v)).
Proof.
  intros Hv. unfold decode_varint64, encode_varint64.
  rewrite decode_varint64_loop_encode; [|lia|ulia|lia|ulia].
  by rewrite Z.shiftl_0_r, Z.lor_0_l.
Qed.

(** ** Decoding arbitrary bytes *)

Lemma decode_varint64_loop_spec p r shift n v m :
  is_u64 r → decode_varint64_loop p r shift n = Ok (v, m) →
  is_u64 v ∧ (n < m ≤ n + length p)%nat.
Proof.
  revert r shift n. induction p as [|b p IH]; intros r shift n Hr; [done|].
  cbn -[u64 Z.shiftl]. intros H.
  assert (is_u64 (Z.lor r (u64 (Z.land b 127 ≪ shift)))) as Hr'
    by (apply lor_range; [lia|done|apply u64_range]).
  destruct (Z.land b 128 =? 0); [injection H as <- <-; split; [done|lia]|].
  destruct (64 <=? shift + 7); [done|].
  apply IH in H; [|done]. destruct H; split; [done|lia].
Qed.

Lemma decode_varint64_spec p v m :
  decode_varint64 p = Ok (v, m) → is_u64 v ∧ (0 < m ≤ length p)%nat.
Proof. intros H. eapply decode_varint64_loop_spec in H; [done|ulia]. Qed.

Lemma decode_varint64_loop_defined p r shift n : defined (decode_varint64_loop p r shift n).
Proof.
  revert r shift n. induction p as [|b p IH]; intros r shift n; [done|].
  cbn -[u64 Z.shiftl]. destruct (_ =? _); [done|]. destruct (_ <=? _); [done|apply IH].
Qed.

Lemma decode_varint64_defined p : defined (decode_varint64 p).
Proof. apply decode_varint64_loop_defined. Qed.
#[export] Hint Resolve decode_varint64_defined : snii.
