(* ===== verification/ByteIO.v ===== *)
(** * ByteIO: [Slice], [ByteSink] and [ByteSource].

    [common/slice.h], [encoding/byte_sink.*] and [encoding/byte_source.*].

    A sink is the vector it appends to. A source is its slice and the cursor
    [pos_]; a method of the source is a [reader], a state transformer that may
    fail. Two relations carry the proofs of every format file:

    - [reads r bs a]: wherever the bytes [bs] stand in a buffer, the reader [r]
      placed at their start returns [a] and stops right behind them. It
      composes along the bind of readers, so a decoder's round trip follows
      the encoder's byte layout ([reads_bind]);
    - [safe r]: on every well-formed source, whatever its bytes, [r] ends with a
      value or a [Status], never outside the buffer, and the cursor only moves
      forward ([safe_bind]). *)

From S2P Require Import Prelude Status Varint.

#[local] Open Scope Z_scope.

(** ** Slice *)

Abbreviation Slice := (list Z) (only parsing).

(** [subslice(off, n)]: the assertion [off + n <= size_] is absent from a
    release build, where a view that leaves the buffer is undefined. *)
Definition subslice (s : Slice) (off n : Z) : result Slice :=
  if off + n <=? zlen s then Ok (take (Z.to_nat n) (drop (Z.to_nat off) s)) else Undef.

(** ** ByteSink *)

Abbreviation ByteSink := (list Z) (only parsing).

Definition put_u8 (v : Z) (buf_ : ByteSink) : ByteSink := buf_ ++ [v].

Fixpoint put_le (n : nat) (v : Z) (i : Z) (buf_ : ByteSink) : ByteSink :=
  match n with
  | O => buf_
  | S n => put_le n v (i + 1) (put_u8 (u8 (v ≫ (8 * i))) buf_)
  end.
Definition put_fixed16 (v : Z) (buf_ : ByteSink) : ByteSink := put_le 2 v 0 buf_.
Definition put_fixed32 (v : Z) (buf_ : ByteSink) : ByteSink := put_le 4 v 0 buf_.
Definition put_fixed64 (v : Z) (buf_ : ByteSink) : ByteSink := put_le 8 v 0 buf_.

Definition put_varint32 (v : Z) (buf_ : ByteSink) : ByteSink := buf_ ++ encode_varint32 v.
Definition put_varint64 (v : Z) (buf_ : ByteSink) : ByteSink := buf_ ++ encode_varint64 v.
Definition put_zigzag (v : Z) (buf_ : ByteSink) : ByteSink := put_varint64 (zigzag_encode v) buf_.
Definition put_bytes (s : Slice) (buf_ : ByteSink) : ByteSink := buf_ ++ s.

(** [sink.put_x(v);] as a pipeline: [sink |> put_x v]. *)
Notation "s |> f" := (f s) (at level 40, left associativity, only parsing).

(** ** ByteSource *)

Record ByteSource := mkByteSource { s_ : Slice; pos_ : nat }.

Definition source (s : Slice) : ByteSource := mkByteSource s 0.

Definition reader (A : Type) : Type := ByteSource → result (A * ByteSource).

#[export] Instance reader_ret : MRet reader := λ A a src, Ok (a, src).
#[export] Instance reader_bind : MBind reader := λ A B k r src,
  match r src with Ok (a, src') => k a src' | Err st => Err st | Undef => Undef end.

(** [return st;] inside a reader, and [if (b) return st;]. *)
Definition fail {A} (st : Status) : reader A := λ _, Err st.
Definition return_if (b : bool) (st : Status) : reader unit :=
  λ src, if b then Err st else Ok (tt, src).
(** A computation that does not touch the source. *)
Definition lift {A} (r : result A) : reader A := λ src, r ≫= λ a, Ok (a, src).

Definition remaining (src : ByteSource) : Z := zlen (s_ src) - Z.of_nat (pos_ src).
Definition eof (src : ByteSource) : bool := bool_decide (pos_ src = length (s_ src)).
Definition get_position : reader Z := λ src, Ok (Z.of_nat (pos_ src), src).
Definition get_remaining : reader Z := λ src, Ok (remaining src, src).
Definition get_eof : reader bool := λ src, Ok (eof src, src).
Definition slice_from (start len : Z) : reader Slice :=
  λ src, sub ← subslice (s_ src) start len; Ok (sub, src).

Definition advance (n : nat) (src : ByteSource) : ByteSource :=
  mkByteSource (s_ src) (pos_ src + n).

Definition get_u8 : reader Z := λ src,
  if remaining src <? 1 then Err (Corruption "get_u8 overrun")
  else match s_ src !! pos_ src with
       | Some v => Ok (v, advance 1 src)
       | None => Undef
       end.

(** [for (i < n) r |= uintN_t(s_[pos_ + i]) << (8 * i);] where [r] is a
    [uintN_t], to which [get_fixed] reduces the sum. *)
Fixpoint get_le (n : nat) (i r : Z) (p : bytes) : option Z :=
  match n, p with
  | O, _ => Some r
  | S _, [] => None
  | S n, b :: p => get_le n (i + 1) (Z.lor r (b ≪ (8 * i))) p
  end.

Definition get_fixed (n : nat) (err : string) : reader Z := λ src,
  if remaining src <? Z.of_nat n then Err (Corruption err)
  else match get_le n 0 0 (drop (pos_ src) (s_ src)) with
       | Some v => Ok (v `mod` 2 ^ (8 * Z.of_nat n), advance n src)
       | None => Undef
       end.
Definition get_fixed16 : reader Z := get_fixed 2 "get_fixed16 overrun".
Definition get_fixed32 : reader Z := get_fixed 4 "get_fixed32 overrun".
Definition get_fixed64 : reader Z := get_fixed 8 "get_fixed64 overrun".

Definition get_varint64 : reader Z := λ src,
  '(v, n) ← decode_varint64 (drop (pos_ src) (s_ src));
  Ok (v, advance n src).

Definition get_varint32 : reader Z :=
  tmp ← get_varint64;
  _ ← return_if (0xFFFFFFFF <? tmp) (Corruption "varint32 overflow");
  mret (u32 tmp).

Definition get_zigzag : reader Z :=
  tmp ← get_varint64;
  mret (zigzag_decode tmp).

Definition get_bytes (n : Z) : reader Slice := λ src,
  if remaining src <? n then Err (Corruption "get_bytes overrun")
  else out ← subslice (s_ src) (Z.of_nat (pos_ src)) n;
       Ok (out, advance (Z.to_nat n) src).

(** [for (i < n) { SNII_RETURN_IF_ERROR(r(&x)); out.push_back(x); }] *)
Fixpoint read_n {A} (r : reader A) (n : nat) : reader (list A) :=
  match n with
  | O => mret []
  | S n => x ← r; xs ← read_n r n; mret (x :: xs)
  end.

(** Run a reader over a whole slice with a source of its own. *)
Definition run_reader {A} (r : reader A) (s : Slice) : result A :=
  '(a, _) ← r (source s); Ok a.

(** ** The bytes each [put] appends *)

Fixpoint le_bytes (n : nat) (v : Z) (i : Z) : bytes :=
  match n with
  | O => []
  | S n => u8 (v ≫ (8 * i)) :: le_bytes n v (i + 1)
  end.

Lemma put_le_app n v i buf_ : put_le n v i buf_ = buf_ ++ le_bytes n v i.
Proof.
  revert i buf_. induction n as [|n IH]; intros i buf_; cbn -[Z.shiftr u8].
  - by rewrite app_nil_r.
  - rewrite IH. unfold put_u8. by rewrite <- app_assoc.
Qed.

Definition fixed16 (v : Z) : bytes := le_bytes 2 v 0.
Definition fixed32 (v : Z) : bytes := le_bytes 4 v 0.
Definition fixed64 (v : Z) : bytes := le_bytes 8 v 0.

#[global] Arguments fixed16 _ : simpl never.
#[global] Arguments fixed32 _ : simpl never.
#[global] Arguments fixed64 _ : simpl never.

Lemma put_u8_app v buf_ : put_u8 v buf_ = buf_ ++ [v].
Proof. done. Qed.
Lemma put_fixed16_app v buf_ : put_fixed16 v buf_ = buf_ ++ fixed16 v.
Proof. apply put_le_app. Qed.
Lemma put_fixed32_app v buf_ : put_fixed32 v buf_ = buf_ ++ fixed32 v.
Proof. apply put_le_app. Qed.
Lemma put_fixed64_app v buf_ : put_fixed64 v buf_ = buf_ ++ fixed64 v.
Proof. apply put_le_app. Qed.
Lemma put_varint32_app v buf_ : put_varint32 v buf_ = buf_ ++ encode_varint64 v.
Proof. done. Qed.
Lemma put_varint64_app v buf_ : put_varint64 v buf_ = buf_ ++ encode_varint64 v.
Proof. done. Qed.
Lemma put_bytes_app s buf_ : put_bytes s buf_ = buf_ ++ s.
Proof. done. Qed.

(** [sink]: every pipeline of [put]s becomes a right-nested concatenation. *)
Create Rewrite HintDb sink.
#[export] Hint Rewrite put_u8_app put_fixed16_app put_fixed32_app put_fixed64_app
  put_varint32_app put_varint64_app put_bytes_app : sink.
#[export] Hint Rewrite <- @app_assoc : sink.
#[export] Hint Rewrite @app_nil_l : sink.

Lemma le_bytes_length n v i : length (le_bytes n v i) = n.
Proof. revert i. induction n as [|n IH]; intros i; cbn; by rewrite ?IH. Qed.
Lemma fixed16_length v : length (fixed16 v) = 2%nat.
Proof. apply le_bytes_length. Qed.
Lemma fixed32_length v : length (fixed32 v) = 4%nat.
Proof. apply le_bytes_length. Qed.
Lemma fixed64_length v : length (fixed64 v) = 8%nat.
Proof. apply le_bytes_length. Qed.
#[export] Hint Rewrite fixed16_length fixed32_length fixed64_length : snii_len.

Lemma le_bytes_is_bytes n v i : is_bytes (le_bytes n v i).
Proof. revert i. induction n as [|n IH]; intros i; cbn -[u8]; auto with snii. Qed.
Lemma fixed16_bytes v : is_bytes (fixed16 v).
Proof. apply le_bytes_is_bytes. Qed.
Lemma fixed32_bytes v : is_bytes (fixed32 v).
Proof. apply le_bytes_is_bytes. Qed.
Lemma fixed64_bytes v : is_bytes (fixed64 v).
Proof. apply le_bytes_is_bytes. Qed.
#[export] Hint Resolve fixed16_bytes fixed32_bytes fixed64_bytes : snii.

Lemma get_le_le_bytes n v i r rest :
  0 ≤ v → 0 ≤ i →
  get_le n i r (le_bytes n v i ++ rest) =
    Some (Z.lor r (((v ≫ (8 * i)) `mod` 2 ^ (8 * Z.of_nat n)) ≪ (8 * i))).
Proof.
  intros Hv. revert i r. induction n as [|n IH]; intros i r Hi.
  { cbn. change (2 ^ (8 * 0)) with 1. by rewrite Z.mod_1_r, Z.shiftl_0_l, Z.lor_0_r. }
  cbn -[u8 Z.shiftr Z.shiftl Z.mul Z.of_nat]. rewrite IH by lia. f_equal.
  rewrite <- Z.lor_assoc. f_equal.
  replace (8 * (i + 1)) with (8 + 8 * i) by lia.
  rewrite <- Z.shiftl_shiftl, <- Z.shiftl_lor by lia. f_equal.
  rewrite lor_shiftl_add; [|lia|apply u8_range].
  rewrite (Z.add_comm 8), <- (Z.shiftr_shiftr v) by lia.
  replace (8 * Z.of_nat (S n)) with (8 + 8 * Z.of_nat n) by lia.
  set (x := v ≫ (8 * i)). rewrite Z.pow_add_r by lia.
  rewrite (Z.rem_mul_r x (2 ^ 8)) by lia.
  rewrite Z.shiftr_div_pow2 by lia. unfold u8. lia.
Qed.

(** ** Readers that read back what a sink wrote *)

Definition reads {A} (r : reader A) (bs : bytes) (a : A) : Prop :=
  ∀ pre post : bytes,
    r (mkByteSource (pre ++ bs ++ post) (length pre)) =
      Ok (a, mkByteSource (pre ++ bs ++ post) (length pre + length bs)).

Lemma reads_ret {A} (a : A) : reads (mret a) [] a.
Proof. intros pre post. cbn. by rewrite Nat.add_0_r. Qed.

Lemma reads_bind {A B} (r : reader A) (k : A → reader B) bs bs' a b :
  reads r bs a → reads (k a) bs' b → reads (r ≫= k) (bs ++ bs') b.
Proof.
  intros Hr Hk pre post. unfold mbind, reader_bind.
  rewrite <- app_assoc. rewrite Hr.
  specialize (Hk (pre ++ bs) post). rewrite <- app_assoc, length_app in Hk. rewrite Hk.
  by rewrite length_app, Nat.add_assoc.
Qed.

(** A statement that reads nothing. *)
Lemma reads_pure {A B} (r : reader A) (k : A → reader B) bs a b :
  reads r [] a → reads (k a) bs b → reads (r ≫= k) bs b.
Proof. apply reads_bind. Qed.

Lemma reads_last {A B} (r : reader A) (k : A → reader B) bs a b :
  reads r bs a → reads (k a) [] b → reads (r ≫= k) bs b.
Proof. intros. rewrite <- (app_nil_r bs). by eapply reads_bind. Qed.

Lemma reads_return_if b st : b = false → reads (return_if b st) [] tt.
Proof. intros -> pre post. cbn. by rewrite Nat.add_0_r. Qed.

Lemma reads_lift {A} (r : result A) a : r = Ok a → reads (lift r) [] a.
Proof. intros -> pre post. cbn. by rewrite Nat.add_0_r. Qed.

Lemma reads_get_u8 v : reads get_u8 [v] v.
Proof.
  intros pre post. unfold get_u8, remaining. cbn.
  rewrite (proj2 (Z.ltb_ge _ _)) by (rewrite !length_app; cbn; lia).
  by rewrite lookup_app_r, Nat.sub_diag by lia.
Qed.

Lemma reads_get_fixed n err v :
  0 ≤ v < 2 ^ (8 * Z.of_nat n) → reads (get_fixed n err) (le_bytes n v 0) v.
Proof.
  intros Hv pre post. unfold get_fixed, remaining. cbn [s_ pos_].
  rewrite (proj2 (Z.ltb_ge _ _)) by (rewrite !length_app, le_bytes_length; lia).
  rewrite drop_app_length, get_le_le_bytes by lia. change (8 * 0) with 0.
  rewrite Z.shiftr_0_r, Z.shiftl_0_r, Z.lor_0_l, !Z.mod_small by (rewrite ?Z.mod_small; done).
  unfold advance. cbn. by rewrite le_bytes_length.
Qed.

Lemma reads_get_fixed16 v : is_u16 v → reads get_fixed16 (fixed16 v) v.
Proof. exact (reads_get_fixed 2 _ v). Qed.
Lemma reads_get_fixed32 v : is_u32 v → reads get_fixed32 (fixed32 v) v.
Proof. exact (reads_get_fixed 4 _ v). Qed.
Lemma reads_get_fixed64 v : is_u64 v → reads get_fixed64 (fixed64 v) v.
Proof. exact (reads_get_fixed 8 _ v). Qed.

Lemma reads_get_varint64 v : is_u64 v → reads get_varint64 (encode_varint64 v) v.
Proof.
  intros Hv pre post. unfold get_varint64. cbn [s_ pos_].
  rewrite drop_app_length, decode_encode_varint64 by done. done.
Qed.

Lemma reads_get_varint32 v : is_u32 v → reads get_varint32 (encode_varint64 v) v.
Proof.
  intros Hv. unfold get_varint32. eapply reads_last; [by apply reads_get_varint64, is_u32_u64|].
  eapply reads_pure; [apply reads_return_if, Z.ltb_ge; ulia|].
  rewrite u32_small by done. apply reads_ret.
Qed.

Lemma reads_get_bytes bs n : n = zlen bs → reads (get_bytes n) bs bs.
Proof.
  intros -> pre post. unfold get_bytes, remaining, subslice. cbn [s_ pos_].
  rewrite (proj2 (Z.ltb_ge _ _)) by (rewrite !length_app; lia).
  rewrite (proj2 (Z.leb_le _ _)) by (rewrite !length_app; lia).
  rewrite !Nat2Z.id. rewrite take_drop_mid. done.
Qed.

Lemma reads_read_n {A B} (r : reader A) (enc : B → bytes) (f : B → A) (l : list B) :
  Forall (λ x, reads r (enc x) (f x)) l →
  reads (read_n r (length l)) (concat (map enc l)) (map f l).
Proof.
  induction 1 as [|x l Hx Hl IH]; cbn; [apply reads_ret|].
  eapply reads_bind; [done|]. eapply reads_last; [done|]. apply reads_ret.
Qed.

(** Reading all of a payload. *)
Lemma reads_run {A} (r : reader A) bs a : reads r bs a → run_reader r bs = Ok a.
Proof.
  intros H. specialize (H [] []). cbn in H. rewrite app_nil_r in H.
  unfold run_reader, source. by rewrite H.
Qed.

(** [if (!src.eof()) return st;] at the end of a payload. *)
Lemma run_reader_eof {A B} (r : reader A) (k : A → reader B) bs a b :
  reads r bs a → k a (mkByteSource bs (length bs)) = Ok (b, mkByteSource bs (length bs)) →
  run_reader (r ≫= k) bs = Ok b.
Proof.
  intros H Hk. specialize (H [] []). cbn in H. rewrite app_nil_r in H.
  unfold run_reader, source, mbind, reader_bind. rewrite H. cbn. by rewrite Hk.
Qed.

Lemma eof_end bs : eof (mkByteSource bs (length bs)) = true.
Proof. unfold eof. cbn. by rewrite bool_decide_true. Qed.

Create HintDb reads discriminated.
#[export] Hint Resolve reads_get_u8 reads_get_fixed16 reads_get_fixed32
  reads_get_fixed64 reads_get_varint32 reads_get_varint64 reads_ret : reads.
#[export] Hint Extern 1 (reads (get_bytes _) _ _) =>
  (apply reads_get_bytes; first [done|reflexivity]) : reads.

(** One statement of a decoder: a field, then the rest of the bytes. *)
Ltac reads_step :=
  lazymatch goal with
  | |- reads (_ ≫= _) (_ ++ _) _ => eapply reads_bind; [solve [eauto with reads snii]|]
  | |- reads (_ ≫= _) _ _ => eapply reads_last; [solve [eauto with reads snii]|]
  | |- reads (mret _) [] _ => apply reads_ret
  end.
Ltac reads_guard := eapply reads_pure; [apply reads_return_if|].

(** ** Readers that are safe on every input *)

Definition wf_source (src : ByteSource) : Prop := (pos_ src ≤ length (s_ src))%nat.

(** [post] bounds what a successful run can return. *)
Definition safe_post {A} (r : reader A) (post : A → Prop) : Prop :=
  ∀ src, wf_source src →
    match r src with
    | Ok (a, src') =>
        post a ∧ s_ src' = s_ src ∧ (pos_ src ≤ pos_ src')%nat ∧ wf_source src'
    | Err _ => True
    | Undef => False
    end.
Abbreviation safe r := (safe_post r (λ _, True)).

Lemma safe_weaken {A} (r : reader A) (P Q : A → Prop) :
  safe_post r P → (∀ a, P a → Q a) → safe_post r Q.
Proof.
  intros Hr HPQ src Hsrc. specialize (Hr src Hsrc).
  destruct (r src) as [[a src']| |]; [|done|done]. destruct Hr. auto.
Qed.

Lemma safe_ret {A} (a : A) (P : A → Prop) : P a → safe_post (mret a) P.
Proof. intros HP src Hsrc. cbn. auto. Qed.

Lemma safe_fail {A} st (P : A → Prop) : safe_post (fail st) P.
Proof. intros src Hsrc. done. Qed.

Lemma safe_bind {A B} (r : reader A) (k : A → reader B) (P : A → Prop) (Q : B → Prop) :
  safe_post r P → (∀ a, P a → safe_post (k a) Q) → safe_post (r ≫= k) Q.
Proof.
  intros Hr Hk src Hsrc. unfold mbind, reader_bind. specialize (Hr src Hsrc).
  destruct (r src) as [[a src']| |]; [|done|done]. destruct Hr as (HP & Hs & Hle & Hwf).
  specialize (Hk a HP src' Hwf). destruct (k a src') as [[b src'']| |]; [|done|done].
  destruct Hk as (? & ? & ? & ?). repeat split; [done|congruence|lia|done].
Qed.

Lemma safe_return_if b st : safe_post (return_if b st) (λ _, b = false).
Proof. intros src Hsrc. unfold return_if. destruct b; auto. Qed.

Lemma safe_lift {A} (r : result A) (P : A → Prop) :
  defined r → (∀ a, r = Ok a → P a) → safe_post (lift r) P.
Proof. intros Hr HP src Hsrc. unfold lift. destruct r; cbn; auto. Qed.

Lemma safe_get_u8 : safe get_u8.
Proof.
  intros [s p] Hsrc. unfold get_u8, remaining, wf_source in *. cbn in *.
  destruct (_ <? 1) eqn:Hr; [done|]. apply Z.ltb_ge in Hr.
  destruct (lookup_lt_is_Some_2 s p) as [b ->]; [lia|]. cbn. repeat split; lia.
Qed.

Lemma get_le_Some n i r p : (n ≤ length p)%nat → is_Some (get_le n i r p).
Proof.
  revert i r p. induction n as [|n IH]; intros i r p Hlen; [done|].
  destruct p as [|b p]; cbn in *; [lia|]. apply IH. lia.
Qed.

Lemma safe_get_fixed_range n err : safe_post (get_fixed n err) (λ v, 0 ≤ v < 2 ^ (8 * Z.of_nat n)).
Proof.
  intros [s p] Hsrc. unfold get_fixed, remaining, wf_source in *. cbn in *.
  destruct (_ <? _) eqn:Hr; [done|]. apply Z.ltb_ge in Hr.
  destruct (get_le_Some n 0 0 (drop p s)) as [v ->]; [rewrite length_drop; lia|].
  cbn [s_ pos_ advance]. pose proof (Z.mod_pos_bound v (2 ^ (8 * Z.of_nat n)) ltac:(lia)).
  repeat split; lia.
Qed.
Lemma safe_get_fixed n err : safe (get_fixed n err).
Proof. by eapply safe_weaken; [apply safe_get_fixed_range|]. Qed.
Lemma safe_get_fixed32_u32 : safe_post get_fixed32 is_u32.
Proof. exact (safe_get_fixed_range 4 _). Qed.
Lemma safe_get_fixed64_u64 : safe_post get_fixed64 is_u64.
Proof. exact (safe_get_fixed_range 8 _). Qed.
Lemma safe_get_fixed16 : safe get_fixed16. Proof. apply safe_get_fixed. Qed.
Lemma safe_get_fixed32 : safe get_fixed32. Proof. apply safe_get_fixed. Qed.
Lemma safe_get_fixed64 : safe get_fixed64. Proof. apply safe_get_fixed. Qed.

Lemma safe_get_varint64 : safe_post get_varint64 is_u64.
Proof.
  intros [s p] Hsrc. unfold get_varint64, wf_source in *. cbn -[decode_varint64] in *.
  pose proof (decode_varint64_defined (drop p s)) as Hd.
  destruct (decode_varint64 (drop p s)) as [[v n]| |] eqn:Hdec; cbn; [|done|done].
  apply decode_varint64_spec in Hdec as (? & ?). rewrite length_drop in *. repeat split; [ulia..| |]; cbn; lia.
Qed.

Lemma safe_get_varint32 : safe_post get_varint32 is_u32.
Proof.
  eapply safe_bind; [apply safe_get_varint64|]. intros v _.
  eapply safe_bind; [apply safe_return_if|]. intros [] _. apply safe_ret. apply u32_range.
Qed.

Lemma safe_get_bytes n : 0 ≤ n → safe_post (get_bytes n) (λ bs, zlen bs = n).
Proof.
  intros Hn [s p] Hsrc. unfold get_bytes, remaining, wf_source, subslice in *. cbn in *.
  destruct (_ <? _) eqn:Hr; [done|]. apply Z.ltb_ge in Hr.
  rewrite (proj2 (Z.leb_le _ _)) by lia. cbn.
  rewrite length_take, length_drop. repeat split; lia.
Qed.

Lemma safe_get_position : safe_post get_position (λ p, 0 ≤ p).
Proof. intros src Hsrc. cbn. repeat split; [lia|lia|done]. Qed.
Lemma safe_get_remaining : safe_post get_remaining (λ n, 0 ≤ n).
Proof. intros src Hsrc. unfold remaining, wf_source in *. cbn. unfold remaining. repeat split; [lia|lia|done]. Qed.
Lemma safe_get_eof : safe get_eof.
Proof. intros src Hsrc. cbn. auto. Qed.

Lemma safe_read_n {A} (r : reader A) (P : A → Prop) n :
  safe_post r P → safe_post (read_n r n) (λ l, length l = n ∧ Forall P l).
Proof.
  intros Hr. induction n as [|n IH]; cbn; [by apply safe_ret|].
  eapply safe_bind; [done|]. intros x Hx. eapply safe_bind; [apply IH|].
  intros xs [Hlen Hxs]. apply safe_ret. cbn. auto.
Qed.

Lemma safe_run {A} (r : reader A) (P : A → Prop) s :
  safe_post r P → defined (run_reader r s) ∧ ∀ a, run_reader r s = Ok a → P a.
Proof.
  intros Hr. specialize (Hr (source s)). unfold run_reader, defined.
  destruct (r (source s)) as [[a src']| |]; cbn.
  - split; [done|]. intros a' [= <-]. apply Hr. unfold wf_source. cbn. lia.
  - done.
  - exfalso. apply Hr. unfold wf_source. cbn. lia.
Qed.

(** A reader that consumes at least one byte when it succeeds: what bounds the
    number of rounds of a [while (!src.eof())] loop. *)
Definition advances {A} (r : reader A) : Prop :=
  ∀ src, wf_source src →
    match r src with Ok (_, src') => (pos_ src < pos_ src')%nat | _ => True end.

Lemma advances_bind {A B} (r : reader A) (k : A → reader B) (P : A → Prop) Q :
  safe_post r P → advances r → (∀ a, P a → safe_post (k a) Q) → advances (r ≫= k).
Proof.
  intros Hr Ha Hk src Hsrc. unfold mbind, reader_bind. specialize (Hr src Hsrc). specialize (Ha src Hsrc).
  destruct (r src) as [[a src']| |]; [|done|done]. destruct Hr as (HP & _ & _ & Hwf).
  specialize (Hk a HP src' Hwf). destruct (k a src') as [[b src'']| |]; [|done|done].
  destruct Hk as (_ & _ & ? & _). lia.
Qed.

Lemma advances_get_varint64 : advances get_varint64.
Proof.
  intros [s p] Hsrc. unfold get_varint64, wf_source in *. cbn -[decode_varint64] in *.
  destruct (decode_varint64 (drop p s)) as [[v n]| |] eqn:Hdec; cbn; [|done|done].
  apply decode_varint64_spec in Hdec as (_ & ?). lia.
Qed.

(** A reader whose cursor never moves back, whether or not it is safe. *)
Definition forward {A} (r : reader A) : Prop :=
  ∀ src, wf_source src →
    match r src with
    | Ok (_, src') => (pos_ src ≤ pos_ src')%nat ∧ wf_source src'
    | _ => True
    end.

Lemma safe_forward {A} (r : reader A) P : safe_post r P → forward r.
Proof.
  intros Hr src Hsrc. specialize (Hr src Hsrc). destruct (r src) as [[a src']| |]; [|done|done].
  destruct Hr as (_ & _ & ? & ?). done.
Qed.

Lemma forward_bind {A B} (r : reader A) (k : A → reader B) :
  forward r → (∀ a, forward (k a)) → forward (r ≫= k).
Proof.
  intros Hr Hk src Hsrc. unfold mbind, reader_bind. specialize (Hr src Hsrc).
  destruct (r src) as [[a src']| |]; [|done|done]. destruct Hr as [Hle Hwf].
  specialize (Hk a src' Hwf). destruct (k a src') as [[b src'']| |]; [|done|done]. destruct Hk. split; [lia|done].
Qed.

Lemma forward_ret {A} (a : A) : forward (mret a).
Proof. intros src Hsrc. by cbn. Qed.
Lemma forward_lift {A} (r : result A) : forward (lift r).
Proof. intros src Hsrc. unfold lift. by destruct r. Qed.
Lemma forward_slice_from start len : forward (slice_from start len).
Proof. intros src Hsrc. unfold slice_from. by destruct (subslice _ _ _). Qed.
Lemma forward_return_if b st : forward (return_if b st).
Proof. intros src Hsrc. unfold return_if. by destruct b. Qed.
Lemma forward_get_bytes n : forward (get_bytes n).
Proof.
  intros [s p] Hsrc. unfold get_bytes, remaining, wf_source, subslice in *. cbn in *.
  destruct (_ <? n) eqn:Hr; [done|]. apply Z.ltb_ge in Hr. destruct (_ <=? _); [|done]. cbn. lia.
Qed.

Lemma advances_bind_forward {A B} (r : reader A) (k : A → reader B) :
  forward r → advances r → (∀ a, forward (k a)) → advances (r ≫= k).
Proof.
  intros Hr Ha Hk src Hsrc. unfold mbind, reader_bind. specialize (Hr src Hsrc). specialize (Ha src Hsrc).
  destruct (r src) as [[a src']| |]; [|done|done]. destruct Hr as [_ Hwf].
  specialize (Hk a src' Hwf). destruct (k a src') as [[b src'']| |]; [|done|done]. destruct Hk. lia.
Qed.

(** The statement that consumes may come after others. *)
Lemma advances_bind_r {A B} (r : reader A) (k : A → reader B) :
  forward r → (∀ a, advances (k a)) → advances (r ≫= k).
Proof.
  intros Hr Hk src Hsrc. unfold mbind, reader_bind. specialize (Hr src Hsrc).
  destruct (r src) as [[a src']| |]; [|done|done]. destruct Hr as [Hle Hwf].
  specialize (Hk a src' Hwf). destruct (k a src') as [[b src'']| |]; [|done|done]. lia.
Qed.

Lemma advances_get_u8 : advances get_u8.
Proof.
  intros src Hsrc. unfold get_u8. destruct (remaining src <? 1); [done|].
  destruct (s_ src !! pos_ src); [|done]. cbn. lia.
Qed.

Create HintDb safe discriminated.
#[export] Hint Resolve safe_get_u8 safe_get_fixed16 safe_get_fixed32 safe_get_fixed64
  safe_get_varint64 safe_get_varint32 safe_get_position safe_get_remaining
  safe_get_eof safe_return_if safe_fail : safe.
#[export] Hint Extern 1 (safe_post (mret _) (λ _, True)) => (by apply safe_ret) : safe.

(** One statement of a decoder whose safety needs no case analysis. *)
Ltac safe_step :=
  eapply safe_bind; [solve [eauto with safe]|]; intros ??.

(** ** Runs that remember where they stand

    [slice_from] and [position] tie a decoder to its place in the buffer; for
    these, [runs r src Post] relates the value to the source it leaves. *)

Definition runs {A} (r : reader A) (src : ByteSource) (Post : A → ByteSource → Prop) : Prop :=
  match r src with
  | Ok (a, src') =>
      s_ src' = s_ src ∧ (pos_ src ≤ pos_ src')%nat ∧ wf_source src' ∧ Post a src'
  | Err _ => True
  | Undef => False
  end.

Lemma runs_bind {A B} (r : reader A) (k : A → reader B) src P Q :
  runs r src P →
  (∀ a src', s_ src' = s_ src → (pos_ src ≤ pos_ src')%nat → wf_source src' → P a src' →
     runs (k a) src' Q) →
  runs (r ≫= k) src Q.
Proof.
  unfold runs, mbind, reader_bind. intros Hr Hk.
  destruct (r src) as [[a src']| |]; [|done|done]. destruct Hr as (Hs & Hp & Hwf & HP).
  specialize (Hk a src' Hs Hp Hwf HP). destruct (k a src') as [[b src'']| |]; [|done|done].
  destruct Hk as (? & ? & ? & ?). split_and!; [congruence|lia|done|done].
Qed.

Lemma runs_safe {A} (r : reader A) (P : A → Prop) src :
  safe_post r P → wf_source src → runs r src (λ a _, P a).
Proof.
  intros Hr Hsrc. specialize (Hr src Hsrc). unfold runs.
  destruct (r src) as [[a src']| |]; [|done|done]. destruct Hr as (? & ? & ? & ?). by split_and!.
Qed.

Lemma safe_runs {A} (r : reader A) (P : A → Prop) :
  (∀ src, wf_source src → runs r src (λ a _, P a)) → safe_post r P.
Proof.
  intros Hr src Hsrc. specialize (Hr src Hsrc). unfold runs in Hr.
  destruct (r src) as [[a src']| |]; [|done|done]. destruct Hr as (? & ? & ? & ?). by split_and!.
Qed.

Lemma runs_weaken {A} (r : reader A) src (P Q : A → ByteSource → Prop) :
  runs r src P → (∀ a src', s_ src' = s_ src → P a src' → Q a src') → runs r src Q.
Proof.
  unfold runs. destruct (r src) as [[a src']| |]; [|done|done]. intros (?&?&?&?) Hw. split_and!; auto.
Qed.

Lemma runs_ret {A} (a : A) src (P : A → ByteSource → Prop) :
  wf_source src → P a src → runs (mret a) src P.
Proof. intros. unfold runs. cbn. by split_and!. Qed.

Lemma runs_get_position src :
  wf_source src → runs get_position src (λ p src', p = Z.of_nat (pos_ src) ∧ src' = src).
Proof. intros. unfold runs. cbn. by split_and!. Qed.

Lemma runs_get_bytes n src :
  0 ≤ n → wf_source src →
  runs (get_bytes n) src (λ bs src',
    zlen bs = n ∧ pos_ src' = (pos_ src + Z.to_nat n)%nat ∧
    bs = take (Z.to_nat n) (drop (pos_ src) (s_ src))).
Proof.
  intros Hn Hsrc. pose proof (safe_get_bytes n Hn src Hsrc) as H. revert H.
  unfold runs, get_bytes, subslice. destruct (_ <? n); [done|].
  destruct (_ <=? _); [|done]. cbn. rewrite Nat2Z.id. intros (?&?&?&?). by split_and!.
Qed.

Lemma runs_return_if b st src :
  wf_source src → runs (return_if b st) src (λ _ src', b = false ∧ src' = src).
Proof. intros. unfold runs, return_if. by destruct b; [|split_and!]. Qed.

Lemma runs_slice_from start len src :
  wf_source src → 0 ≤ start → 0 ≤ len → start + len ≤ Z.of_nat (pos_ src) →
  runs (slice_from start len) src (λ bs src',
    src' = src ∧ bs = take (Z.to_nat len) (drop (Z.to_nat start) (s_ src))).
Proof.
  unfold wf_source. intros Hsrc ???. unfold runs, slice_from, subslice.
  rewrite (proj2 (Z.leb_le _ _)) by lia. cbn. by split_and!.
Qed.

(** A statement of a decoder run on a buffer that holds its bytes. *)
Lemma bind_reads {A B} (r : reader A) (k : A → reader B) pre bs post a :
  reads r bs a →
  (r ≫= k) (mkByteSource (pre ++ bs ++ post) (length pre)) =
    k a (mkByteSource ((pre ++ bs) ++ post) (length (pre ++ bs))).
Proof.
  intros Hr. unfold mbind, reader_bind. rewrite Hr. by rewrite <- app_assoc, length_app.
Qed.

Lemma bind_reads_source {A B} (r : reader A) (k : A → reader B) bs post a :
  reads r bs a →
  (r ≫= k) (source (bs ++ post)) = k a (mkByteSource (bs ++ post) (length bs)).
Proof. intros Hr. exact (bind_reads r k [] bs post a Hr). Qed.

Lemma subslice_defined s off n :
  0 ≤ off → 0 ≤ n → off + n ≤ zlen s → defined (subslice s off n).
Proof. intros. unfold subslice. by rewrite (proj2 (Z.leb_le _ _)) by lia. Qed.

Lemma subslice_ok s off n :
  off + n ≤ zlen s → subslice s off n = Ok (take (Z.to_nat n) (drop (Z.to_nat off) s)).
Proof. intros. unfold subslice. by rewrite (proj2 (Z.leb_le _ _)). Qed.

Lemma subslice_mid pre mid post :
  subslice (pre ++ mid ++ post) (zlen pre) (zlen mid) = Ok mid.
Proof.
  unfold subslice. rewrite (proj2 (Z.leb_le _ _)) by (rewrite !length_app; lia).
  by rewrite !Nat2Z.id, take_drop_mid.
Qed.

(** [mid] as the rest of the first part of a buffer. *)
Lemma subslice_at pre mid post off n :
  off = zlen pre → n = zlen mid → subslice (pre ++ mid ++ post) off n = Ok mid.
Proof. intros -> ->. apply subslice_mid. Qed.

Lemma subslice_rest pre mid post :
  subslice (pre ++ mid ++ post) (zlen pre) (zlen (pre ++ mid) - zlen pre) = Ok mid.
Proof.
  rewrite <- (subslice_mid pre mid post). f_equal. rewrite length_app. lia.
Qed.

Lemma subslice_app_l a b n : n = zlen a → subslice (a ++ b) 0 n = Ok a.
Proof. intros ->. exact (subslice_mid [] a b). Qed.

Lemma subslice_app_r a b off n : off = zlen a → n = zlen b → subslice (a ++ b) off n = Ok b.
Proof. intros -> ->. pose proof (subslice_mid a b []) as H. by rewrite app_nil_r in H. Qed.

(** ** Every block of [n] bytes is a fixed-width field *)

Lemma le_bytes_digits n v i :
  0 ≤ i → 0 ≤ v → little_endian_to_Z 8 (le_bytes n v i) = (v ≫ (8 * i)) `mod` 2 ^ (8 * Z.of_nat n).
Proof.
  intros Hi Hv. revert i Hi. induction n as [|n IH]; intros i Hi; cbn [le_bytes].
  { cbn [little_endian_to_Z]. change (8 * Z.of_nat 0) with 0. change (2 ^ 0) with 1. by rewrite Z.mod_1_r. }
  rewrite le_to_Z_cons_add by (lia || apply u8_range). rewrite IH by lia.
  replace (8 * (i + 1)) with (8 * i + 8) by lia. rewrite <- Z.shiftr_shiftr by lia.
  set (x := v ≫ (8 * i)). replace (8 * Z.of_nat (S n)) with (8 + 8 * Z.of_nat n) by lia.
  rewrite Z.pow_add_r, (Z.rem_mul_r x (2 ^ 8)) by lia. rewrite Z.shiftr_div_pow2 by lia. unfold u8. lia.
Qed.

Lemma le_to_Z_inj n xs ys :
  0 ≤ n → length xs = length ys → Forall (λ d, 0 ≤ d < 2 ^ n) xs → Forall (λ d, 0 ≤ d < 2 ^ n) ys →
  little_endian_to_Z n xs = little_endian_to_Z n ys → xs = ys.
Proof.
  intros Hn Hlen Hx Hy H. rewrite <- (Z_to_little_endian_to_Z (zlen xs) n xs) by done.
  rewrite H. apply Z_to_little_endian_to_Z; [by rewrite Hlen|done..].
Qed.

Lemma le_bytes_cover n s :
  is_bytes s → (n ≤ length s)%nat →
  ∃ v rest, 0 ≤ v < 2 ^ (8 * Z.of_nat n) ∧ s = le_bytes n v 0 ++ rest ∧
    is_bytes rest ∧ length rest = (length s - n)%nat.
Proof.
  intros Hs Hn. exists (little_endian_to_Z 8 (take n s)), (drop n s).
  assert (is_bytes (take n s)) as Ht by by apply Forall_take.
  pose proof (little_endian_to_Z_bound 8 _ ltac:(lia) Ht) as Hb.
  rewrite length_take, Nat.min_l in Hb by lia. rewrite (Z.mul_comm _ 8) in Hb.
  split_and!; [lia|lia| |by apply Forall_drop|by rewrite length_drop].
  rewrite <- (take_drop n s) at 1. f_equal.
  apply (le_to_Z_inj 8); [lia| |done|apply le_bytes_is_bytes|].
  - rewrite le_bytes_length, length_take. lia.
  - rewrite le_bytes_digits by lia. change (8 * 0) with 0. by rewrite Z.shiftr_0_r, Z.mod_small.
Qed.

Lemma fixed16_cover s : is_bytes s → (2 ≤ length s)%nat →
  ∃ v rest, is_u16 v ∧ s = fixed16 v ++ rest ∧ is_bytes rest ∧ length rest = (length s - 2)%nat.
Proof. exact (le_bytes_cover 2 s). Qed.
Lemma fixed32_cover s : is_bytes s → (4 ≤ length s)%nat →
  ∃ v rest, is_u32 v ∧ s = fixed32 v ++ rest ∧ is_bytes rest ∧ length rest = (length s - 4)%nat.
Proof. exact (le_bytes_cover 4 s). Qed.
Lemma fixed64_cover s : is_bytes s → (8 ≤ length s)%nat →
  ∃ v rest, is_u64 v ∧ s = fixed64 v ++ rest ∧ is_bytes rest ∧ length rest = (length s - 8)%nat.
Proof. exact (le_bytes_cover 8 s). Qed.

Lemma fixed32_inj v w : is_u32 v → is_u32 w → fixed32 v = fixed32 w → v = w.
Proof.
  intros Hv Hw H. pose proof (le_bytes_digits 4 v 0 ltac:(lia) (proj1 Hv)) as Ev.
  pose proof (le_bytes_digits 4 w 0 ltac:(lia) (proj1 Hw)) as Ew.
  unfold fixed32 in H. rewrite H, Ew in Ev.
  change (8 * 0) with 0 in Ev. rewrite !Z.shiftr_0_r, !Z.mod_small in Ev by done. done.
Qed.

(** ** A payload read to its end

    [r; if (!src.eof()) return Corruption(msg);] *)

Definition whole {A} (r : reader A) (msg : string) : reader A :=
  a ← r;
  at_end ← get_eof;
  _ ← return_if (negb at_end) (Corruption msg);
  mret a.

Lemma run_whole {A} (r : reader A) msg bs a : reads r bs a → run_reader (whole r msg) bs = Ok a.
Proof.
  intros Hr. unfold run_reader, whole. rewrite <- (app_nil_r bs).
  rewrite (bind_reads_source _ _ _ _ a) by done. rewrite app_nil_r.
  unfold mbind, reader_bind, get_eof. rewrite eof_end. done.
Qed.

Lemma safe_whole {A} (r : reader A) msg P : safe_post r P → safe_post (whole r msg) P.
Proof.
  intros Hr. unfold whole. eapply safe_bind; [done|]. intros a Ha.
  do 2 safe_step. by apply safe_ret.
Qed.

(** [for (i < n) put(x_i)] appends the encodings in order. *)
Fixpoint put_each {A} (put : A → ByteSink → ByteSink) (l : list A) (sink : ByteSink) : ByteSink :=
  match l with [] => sink | x :: l => put_each put l (put x sink) end.

Lemma put_each_app {A} (put : A → ByteSink → ByteSink) (enc : A → bytes) l sink :
  (∀ x s, put x s = s ++ enc x) → put_each put l sink = sink ++ concat (map enc l).
Proof.
  intros Hput. revert sink. induction l as [|x l IH]; intros sink; cbn [put_each map concat].
  - by rewrite app_nil_r.
  - rewrite IH, Hput. by rewrite <- app_assoc.
Qed.

Lemma reads_read_n_id {A} (r : reader A) (enc : A → bytes) (l : list A) n :
  n = length l → Forall (λ x, reads r (enc x) x) l →
  reads (read_n r n) (concat (map enc l)) l.
Proof. intros -> H. rewrite <- (map_id l) at 3. by apply reads_read_n. Qed.

Lemma concat_is_bytes {A} (enc : A → bytes) l :
  Forall (λ x, is_bytes (enc x)) l → is_bytes (concat (map enc l)).
Proof. induction 1; cbn; auto with snii. Qed.

Lemma safe_lift_run {A} (r : reader A) s P : safe_post r P → safe_post (lift (run_reader r s)) P.
Proof.
  intros Hr. destruct (safe_run r P s Hr) as [Hd HP]. by apply safe_lift.
Qed.

(** ** Running a decoder statement by statement *)

Section Step.
Context {B : Type}.

Lemma bind_return_if b st (k : unit → reader B) src :
  (return_if b st ≫= k) src = if b then Err st else k tt src.
Proof. by destruct b. Qed.

Lemma bind_lift {A} (r : result A) (k : A → reader B) src :
  (lift r ≫= k) src = (r ≫= λ a, k a src).
Proof. by destruct r. Qed.

Lemma bind_get_position (k : Z → reader B) src :
  (get_position ≫= k) src = k (Z.of_nat (pos_ src)) src.
Proof. done. Qed.

Lemma bind_get_remaining (k : Z → reader B) pre post :
  (get_remaining ≫= k) (mkByteSource (pre ++ post) (length pre)) =
    k (zlen post) (mkByteSource (pre ++ post) (length pre)).
Proof.
  unfold mbind, reader_bind, get_remaining, remaining. cbn [s_ pos_]. f_equal.
  rewrite length_app. lia.
Qed.

Lemma bind_bind {A C} (r : reader A) (k : A → reader C) (h : C → reader B) src :
  ((r ≫= k) ≫= h) src = (r ≫= λ a, k a ≫= h) src.
Proof. unfold mbind, reader_bind. by destruct (r src) as [[? ?]| |]. Qed.

Lemma bind_step {A} (r : reader A) (k : A → reader B) src :
  (r ≫= k) src = match r src with Ok (a, src') => k a src' | Err st => Err st | Undef => Undef end.
Proof. done. Qed.

Lemma bind_mret {A} (a : A) (k : A → reader B) src : (mret a ≫= k) src = k a src.
Proof. done. Qed.

Lemma bind_get_eof_end (k : bool → reader B) bs :
  (get_eof ≫= k) (mkByteSource bs (length bs)) = k true (mkByteSource bs (length bs)).
Proof. unfold mbind, reader_bind, get_eof. by rewrite eof_end. Qed.

(** The last field of a buffer. *)
Lemma bind_reads_end {A} (r : reader A) (k : A → reader B) pre bs a :
  reads r bs a →
  (r ≫= k) (mkByteSource (pre ++ bs) (length pre)) =
    k a (mkByteSource (pre ++ bs) (length (pre ++ bs))).
Proof.
  intros Hr. pose proof (bind_reads r k pre bs [] a Hr) as H. by rewrite !app_nil_r in H.
Qed.
End Step.

(** The end-of-payload check after the last field. *)
Lemma run_eof_check {A} (a : A) msg bs :
  (at_end ← get_eof; _ ← return_if (negb at_end) (Corruption msg); mret a)
    (mkByteSource bs (length bs)) = Ok (a, mkByteSource bs (length bs)).
Proof. unfold mbind, reader_bind, get_eof. by rewrite eof_end. Qed.

Lemma concat_length_ge {A} (enc : A → bytes) l k :
  (∀ x, k ≤ length (enc x))%nat → (k * length l ≤ length (concat (map enc l)))%nat.
Proof. intros Hk. induction l as [|x l IH]; cbn; [lia|]. rewrite length_app. specialize (Hk x). lia. Qed.

(** ** Arrays of [uint32_t] *)

(** An array of [uint32_t] seen as the bytes of a little-endian machine. *)
Definition words_bytes (words : list Z) : bytes := concat (map fixed32 words).

(** The values of such an array. *)
Definition words_of (bs : bytes) : list Z := map (little_endian_to_Z 8) (chunks 4 bs).

Lemma words_bytes_length ws : length (words_bytes ws) = (4 * length ws)%nat.
Proof.
  induction ws as [|w ws IH]; [done|]. unfold words_bytes in *. cbn [map concat length].
  rewrite length_app, fixed32_length, IH. lia.
Qed.

Lemma words_bytes_is_bytes ws : is_bytes (words_bytes ws).
Proof. apply concat_is_bytes. apply Forall_true. intros. apply fixed32_bytes. Qed.

Lemma words_bytes_app xs ys : words_bytes (xs ++ ys) = words_bytes xs ++ words_bytes ys.
Proof. unfold words_bytes. by rewrite map_app, concat_app. Qed.

Lemma words_bytes_cons w ws : words_bytes (w :: ws) = fixed32 w ++ words_bytes ws.
Proof. done. Qed.

Lemma chunks_words fuel ws :
  (length ws ≤ fuel)%nat → chunks_loop fuel 4 (words_bytes ws) = map fixed32 ws.
Proof.
  revert ws. induction fuel as [|fuel IH]; intros ws Hf; destruct ws as [|w ws]; cbn [length] in Hf;
    [done|lia|done|].
  rewrite words_bytes_cons. assert (∃ b t, fixed32 w ++ words_bytes ws = b :: t) as (b & t & Ht) by by eexists _, _.
  cbn [chunks_loop map]. rewrite Ht, <- Ht.
  rewrite take_app_length_exact, drop_app_length_exact by by rewrite fixed32_length.
  f_equal. apply IH. lia.
Qed.

Lemma words_of_bytes ws : is_u32s ws → map (little_endian_to_Z 8) (chunks 4 (words_bytes ws)) = ws.
Proof.
  intros Hws. unfold chunks. rewrite chunks_words by (rewrite words_bytes_length; lia).
  rewrite map_map. induction Hws as [|w ws Hw Hws IH]; [done|]. cbn [map]. rewrite IH. f_equal.
  unfold fixed32. rewrite le_bytes_digits by (unfold is_u32 in Hw; lia).
  change (8 * 0) with 0. rewrite Z.shiftr_0_r. by apply u32_small.
Qed.
