(* ===== verification/Crc32c.v ===== *)
(** * Crc32c: the CRC-32C checksum.

    [encoding/crc32c.h] and [encoding/crc32c.cpp]: the slice-by-8 tables and
    loop, the SSE4.2 loop over the [crc32] instruction (a parameter of the
    model, with the semantics the processor manual gives it), and the entry
    point that chooses between them.

    The reference is the bit-serial register: [crc_bits n] shifts [n] zero bits
    into it. It is linear for [xor] and injective on 32-bit states, and that
    gives the equivalence of the three implementations and the detection of
    every corruption confined to four consecutive bytes. *)

From S2P Require Import Prelude Status ByteIO.

#[local] Open Scope Z_scope.

(** Bit-reflected Castagnoli polynomial. *)
Definition kPoly : Z := 0x82F63B78.

(** ** Tables *)

(** [c = (c & 1) ? (kPoly ^ (c >> 1)) : (c >> 1)] *)
Definition crc_bit (c : Z) : Z :=
  if Z.land c 1 =? 0 then c ≫ 1 else Z.lxor kPoly (c ≫ 1).

(** [for (k < n) c = ...;] *)
Fixpoint crc_bits (n : nat) (c : Z) : Z :=
  match n with O => c | S n => crc_bits n (crc_bit c) end.

(** Column [s] of the table, [t[s][0..256)]. *)
Definition slice8_row0 : list Z := map (crc_bits 8) (seqZ 0 256).
Fixpoint slice8_row (s : nat) : list Z :=
  match s with
  | O => slice8_row0
  | S s => map (λ c, Z.lxor (slice8_row0 !!! Z.to_nat (Z.land c 0xFF)) (c ≫ 8)) (slice8_row s)
  end.
Definition make_slice8_table : list (list Z) := map slice8_row (seq 0 8).

Definition kSlice8 : list (list Z) := make_slice8_table.
Definition slice8 (s : nat) (i : Z) : Z := (kSlice8 !!! s) !!! Z.to_nat i.

Definition load_le32 (p0 p1 p2 p3 : Z) : Z :=
  Z.lor (Z.lor (Z.lor p0 (p1 ≪ 8)) (p2 ≪ 16)) (p3 ≪ 24).

(** ** Software path *)

(** [while (n--) crc = kSlice8[0][(crc ^ *p++) & 0xFF] ^ (crc >> 8);] *)
Fixpoint crc32c_tail (crc : Z) (p : bytes) : Z :=
  match p with
  | [] => crc
  | b :: p => crc32c_tail (Z.lxor (slice8 0 (Z.land (Z.lxor crc b) 0xFF)) (crc ≫ 8)) p
  end.

(** One iteration of the loop over eight bytes, on the two words it loads. *)
Definition crc32c_slice8_words (crc lo hi : Z) : Z :=
  let crc := Z.lxor crc lo in
  Z.lxor (Z.lxor (Z.lxor (Z.lxor (Z.lxor (Z.lxor (Z.lxor
    (slice8 7 (Z.land crc 0xFF)) (slice8 6 (Z.land (crc ≫ 8) 0xFF)))
    (slice8 5 (Z.land (crc ≫ 16) 0xFF))) (slice8 4 (crc ≫ 24)))
    (slice8 3 (Z.land hi 0xFF))) (slice8 2 (Z.land (hi ≫ 8) 0xFF)))
    (slice8 1 (Z.land (hi ≫ 16) 0xFF))) (slice8 0 (hi ≫ 24)).

(** [while (n >= 8) { crc = step(crc, p[0..8)); p += 8; n -= 8; } tail] *)
Fixpoint by_eight (step : Z → Z → Z → Z → Z → Z → Z → Z → Z → Z) (tail : Z → bytes → Z)
    (crc : Z) (p : bytes) : Z :=
  match p with
  | p0 :: p1 :: p2 :: p3 :: p4 :: p5 :: p6 :: p7 :: p =>
      by_eight step tail (step crc p0 p1 p2 p3 p4 p5 p6 p7) p
  | _ => tail crc p
  end.

Definition crc32c_slice8 : Z → bytes → Z :=
  by_eight (λ crc p0 p1 p2 p3 p4 p5 p6 p7,
    crc32c_slice8_words crc (load_le32 p0 p1 p2 p3) (load_le32 p4 p5 p6 p7)) crc32c_tail.

Definition bitnot32 (x : Z) : Z := Z.lxor x 0xFFFFFFFF.

(** The portable build, and the fallback of the x86 build. *)
Definition crc32c_extend (crc : Z) (data : Slice) : Z :=
  bitnot32 (crc32c_slice8 (bitnot32 crc) data).

Definition crc32c (data : Slice) : Z := crc32c_extend 0 data.

#[global] Arguments crc32c _ : simpl never.

(** ** Hardware path *)

Section Hardware.
(** [_mm_crc32_u8/u32/u64] and the CPUID probe. *)
Variable mm_crc32_u8 mm_crc32_u32 mm_crc32_u64 : Z → Z → Z.
Variable kHasSse42 : bool.

Fixpoint crc32c_hw_bytes (crc : Z) (p : bytes) : Z :=
  match p with
  | [] => crc
  | b :: p => crc32c_hw_bytes (mm_crc32_u8 crc b) p
  end.

Definition crc32c_hw_tail (crc : Z) (p : bytes) : Z :=
  match p with
  | p0 :: p1 :: p2 :: p3 :: p =>
      crc32c_hw_bytes (mm_crc32_u32 crc (load_le32 p0 p1 p2 p3)) p
  | _ => crc32c_hw_bytes crc p
  end.

(** [memcpy(&v, p, 8)] on a little-endian machine. *)
Definition crc32c_hw : Z → bytes → Z :=
  by_eight (λ crc p0 p1 p2 p3 p4 p5 p6 p7,
    u32 (mm_crc32_u64 crc (little_endian_to_Z 8 [p0; p1; p2; p3; p4; p5; p6; p7])))
    crc32c_hw_tail.

Definition crc32c_extend_x86 (crc : Z) (data : Slice) : Z :=
  let crc := bitnot32 crc in
  if kHasSse42 then bitnot32 (crc32c_hw crc data)
  else bitnot32 (crc32c_slice8 crc data).
End Hardware.

(** ** The bit-serial reference *)

(** Feed one byte; feed a buffer. *)
Definition crc_byte (c b : Z) : Z := crc_bits 8 (Z.lxor c b).
Fixpoint crc_reference (c : Z) (p : bytes) : Z :=
  match p with [] => c | b :: p => crc_reference (crc_byte c b) p end.

Lemma crc_bit_alt c : crc_bit c = Z.lxor (if Z.odd c then kPoly else 0) (c ≫ 1).
Proof.
  unfold crc_bit. rewrite <- Z.bit0_odd. change 1 with (Z.ones 1) at 1.
  rewrite Z.land_ones by lia. change (2 ^ 1) with 2. rewrite Zmod_odd, <- Z.bit0_odd.
  by destruct (Z.testbit c 0).
Qed.

Lemma crc_bit_lxor x y : crc_bit (Z.lxor x y) = Z.lxor (crc_bit x) (crc_bit y).
Proof.
  rewrite !crc_bit_alt, Z.shiftr_lxor, <- !Z.bit0_odd, Z.lxor_spec.
  destruct (Z.testbit x 0), (Z.testbit y 0); cbn [xorb]; bitwise i;
    by repeat match goal with |- context [Z.testbit ?a ?b] => destruct (Z.testbit a b) end.
Qed.

Lemma crc_bits_lxor n x y : crc_bits n (Z.lxor x y) = Z.lxor (crc_bits n x) (crc_bits n y).
Proof. revert x y. induction n as [|n IH]; intros x y; cbn; [done|]. by rewrite crc_bit_lxor, IH. Qed.

Lemma crc_bits_add n m x : crc_bits (n + m) x = crc_bits m (crc_bits n x).
Proof. revert x. induction n as [|n IH]; intros x; cbn; [done|apply IH]. Qed.

Lemma crc_bit_range c : is_u32 c → is_u32 (crc_bit c).
Proof.
  intros Hc. rewrite crc_bit_alt. apply lxor_range; [lia| |].
  - destruct (Z.odd c); unfold kPoly; lia.
  - rewrite Z.shiftr_div_pow2 by lia. unfold is_u32 in Hc. change (2 ^ 1) with 2.
    split; [apply Z.div_pos; lia|]. apply Z.div_lt_upper_bound; lia.
Qed.

Lemma crc_bits_range n c : is_u32 c → is_u32 (crc_bits n c).
Proof. revert c. induction n as [|n IH]; intros c Hc; cbn; [done|]. by apply IH, crc_bit_range. Qed.

(** Low zero bits only shift the register. *)
Lemma crc_bits_shiftl n x : crc_bits n (x ≪ Z.of_nat n) = x.
Proof.
  revert x. induction n as [|n IH]; intros x; [apply Z.shiftl_0_r|].
  cbn [crc_bits].
  rewrite crc_bit_alt, <- Z.bit0_odd, Z.shiftl_spec_low by lia. rewrite Z.lxor_0_l.
  rewrite Z.shiftr_shiftl_l by lia.
  replace (Z.of_nat (S n) - 1) with (Z.of_nat n) by lia. apply IH.
Qed.

(** Injective: [kPoly] has its top bit set, [c >> 1] has not. *)
Lemma crc_bit_zero c : is_u32 c → crc_bit c = 0 → c = 0.
Proof.
  intros Hc. rewrite crc_bit_alt. rewrite Z.lxor_eq_0_iff.
  rewrite Z.shiftr_div_pow2 by lia. change (2 ^ 1) with 2.
  pose proof (Zdiv2_odd_eqn c) as Hodd. rewrite Z.div2_div in Hodd.
  unfold is_u32 in Hc. change (2 ^ 32) with 4294967296 in Hc.
  destruct (Z.odd c); unfold kPoly; lia.
Qed.

Lemma crc_bits_zero n c : is_u32 c → crc_bits n c = 0 → c = 0.
Proof.
  revert c. induction n as [|n IH]; intros c Hc; cbn; [done|]. intros H.
  apply crc_bit_zero; [done|]. apply IH; [by apply crc_bit_range|done].
Qed.

Lemma crc_bits_inj n x y : is_u32 x → is_u32 y → crc_bits n x = crc_bits n y → x = y.
Proof.
  intros ?? H. apply Z.lxor_eq_0_iff in H. rewrite <- crc_bits_lxor in H.
  apply crc_bits_zero in H; [by apply Z.lxor_eq_0_iff|]. by apply lxor_range.
Qed.

(** ** Bytes and words through the register *)

Lemma lor_shiftl_lxor n x y : 0 ≤ n → 0 ≤ x < 2 ^ n → Z.lor x (y ≪ n) = Z.lxor x (y ≪ n).
Proof.
  intros ? Hx. bitwise i. destruct (decide (i < n)).
  - rewrite (Z.testbit_neg_r y) by lia. by destruct (Z.testbit x i).
  - rewrite (testbit_high n x) by lia. by destruct (Z.testbit y (i - n)).
Qed.

(** A buffer enters the register as one little-endian number. *)
Lemma crc_reference_word c p :
  is_bytes p → crc_reference c p = crc_bits (8 * length p) (Z.lxor c (little_endian_to_Z 8 p)).
Proof.
  revert c. induction p as [|b p IH]; intros c Hp; cbn [crc_reference length].
  { cbn. by rewrite Z.lxor_0_r. }
  apply Forall_cons in Hp as [Hb Hp]. rewrite IH by done. unfold crc_byte.
  replace (8 * S (length p))%nat with (8 + 8 * length p)%nat by lia.
  rewrite crc_bits_add. f_equal. rewrite le_to_Z_cons.
  rewrite lor_shiftl_lxor by (done || lia).
  by rewrite <- Z.lxor_assoc, (crc_bits_lxor 8 (Z.lxor c b)), (crc_bits_shiftl 8).
Qed.

Lemma crc_reference_app c p q : crc_reference c (p ++ q) = crc_reference (crc_reference c p) q.
Proof. revert c. induction p as [|b p IH]; intros c; cbn; [done|apply IH]. Qed.

Lemma crc_reference_range c p : is_u32 c → is_bytes p → is_u32 (crc_reference c p).
Proof.
  intros Hc Hp. revert c Hc. induction Hp as [|b p Hb Hp IH]; intros c Hc; cbn [crc_reference]; [done|].
  apply IH, crc_bits_range, lxor_range; [lia|done|by apply is_u8_u32].
Qed.

Lemma crc_reference_inj c d p :
  is_u32 c → is_u32 d → is_bytes p → crc_reference c p = crc_reference d p → c = d.
Proof.
  intros Hc Hd Hp. revert c d Hc Hd.
  induction Hp as [|b p Hb Hp IH]; intros c d Hc Hd; cbn [crc_reference]; [done|]. intros H.
  assert (∀ e, is_u32 e → is_u32 (Z.lxor e b)) as Hx.
  { intros e He. apply lxor_range; [lia|done|by apply is_u8_u32]. }
  apply IH in H; [|by apply crc_bits_range, Hx..].
  apply crc_bits_inj in H; [|by apply Hx..].
  apply (f_equal (λ e, Z.lxor e b)) in H.
  by rewrite !Z.lxor_assoc, Z.lxor_nilpotent, !Z.lxor_0_r in H.
Qed.

(** ** The tables *)

Lemma land_FF_range x : 0 ≤ Z.land x 0xFF < 256.
Proof. change 0xFF with (Z.ones 8). rewrite Z.land_ones by lia. apply Z.mod_pos_bound. lia. Qed.

Lemma split_low_byte x : Z.lxor (Z.land x 0xFF) ((x ≫ 8) ≪ 8) = x.
Proof.
  change 0xFF with (Z.ones 8). bitwise i. destruct (decide (i < 8)).
  - rewrite bool_decide_true, (Z.testbit_neg_r (x ≫ 8)) by lia.
    by rewrite andb_true_r, xorb_false_r.
  - rewrite bool_decide_false, Z.shiftr_spec by lia. rewrite andb_false_r. cbn. f_equal. lia.
Qed.

Lemma crc_bits_split_byte n x :
  (8 ≤ n)%nat →
  crc_bits n x = Z.lxor (crc_bits n (Z.land x 0xFF)) (crc_bits (n - 8) (x ≫ 8)).
Proof.
  intros Hn. rewrite <- (split_low_byte x) at 1. rewrite crc_bits_lxor. f_equal.
  replace n with (8 + (n - 8))%nat at 1 by lia. rewrite crc_bits_add. f_equal.
  apply (crc_bits_shiftl 8).
Qed.

Lemma slice8_row_lookup s i :
  0 ≤ i < 256 → slice8_row s !! Z.to_nat i = Some (crc_bits (8 * S s) i).
Proof.
  revert i. induction s as [|s IH]; intros i Hi; cbn [slice8_row].
  - unfold slice8_row0. rewrite list_lookup_fmap, lookup_seqZ_lt by lia.
    cbn [fmap option_fmap option_map]. do 2 f_equal. lia.
  - rewrite list_lookup_fmap, IH by done. cbn [fmap option_fmap option_map]. f_equal.
    replace (8 * S (S s))%nat with (8 * S s + 8)%nat by lia.
    rewrite crc_bits_add, (crc_bits_split_byte 8 (crc_bits (8 * S s) i)) by lia. f_equal.
    unfold slice8_row0. apply list_lookup_total_correct.
    pose proof (land_FF_range (crc_bits (8 * S s) i)).
    rewrite list_lookup_fmap, lookup_seqZ_lt by lia.
    cbn [fmap option_fmap option_map]. do 2 f_equal. lia.
Qed.

Lemma slice8_spec s i : (s < 8)%nat → 0 ≤ i < 256 → slice8 s i = crc_bits (8 * S s) i.
Proof.
  intros Hs Hi. unfold slice8, kSlice8, make_slice8_table.
  apply list_lookup_total_correct. rewrite <- slice8_row_lookup by done. f_equal.
  apply list_lookup_total_correct. rewrite list_lookup_fmap, lookup_seq_lt by lia. done.
Qed.

(** ** Equivalence of the implementations *)

Lemma crc32c_tail_reference c p : is_bytes p → crc32c_tail c p = crc_reference c p.
Proof.
  intros Hp. revert c. induction Hp as [|b p Hb Hp IH]; intros c; cbn [crc32c_tail crc_reference]; [done|].
  rewrite IH. f_equal. unfold crc_byte. rewrite slice8_spec by (lia || apply land_FF_range).
  rewrite (crc_bits_split_byte 8 (Z.lxor c b)) by lia. f_equal.
  rewrite Z.shiftr_lxor, (Z.shiftr_div_pow2 b) by lia.
  rewrite (Z.div_small b) by apply Hb. by rewrite Z.lxor_0_r.
Qed.

Lemma load_le32_word p0 p1 p2 p3 :
  load_le32 p0 p1 p2 p3 = little_endian_to_Z 8 [p0; p1; p2; p3].
Proof.
  unfold load_le32. cbn. rewrite Z.shiftl_0_l, Z.lor_0_r.
  rewrite !Z.shiftl_lor, !Z.shiftl_shiftl by lia. by rewrite !Z.lor_assoc.
Qed.

Lemma load_le32_range p0 p1 p2 p3 :
  is_u8 p0 → is_u8 p1 → is_u8 p2 → is_u8 p3 → is_u32 (load_le32 p0 p1 p2 p3).
Proof.
  intros. rewrite load_le32_word. unfold is_u32.
  apply (little_endian_to_Z_bound 8 [p0; p1; p2; p3]); [lia|].
  change (is_bytes [p0; p1; p2; p3]). auto with snii.
Qed.

(** The four table look-ups of a 32-bit word. *)
Lemma slice8_word s x :
  is_u32 x → (s + 3 < 8)%nat →
  Z.lxor (Z.lxor (Z.lxor (slice8 (s + 3) (Z.land x 0xFF)) (slice8 (s + 2) (Z.land (x ≫ 8) 0xFF)))
    (slice8 (s + 1) (Z.land (x ≫ 16) 0xFF))) (slice8 s (x ≫ 24)) = crc_bits (8 * (s + 4)) x.
Proof.
  intros Hx Hs.
  assert (0 ≤ x ≫ 24 < 256) as Hx24.
  { rewrite Z.shiftr_div_pow2 by lia. unfold is_u32 in Hx. split; [apply Z.div_pos; lia|].
    apply Z.div_lt_upper_bound; lia. }
  rewrite !slice8_spec by (lia || apply land_FF_range).
  rewrite (crc_bits_split_byte _ x) by lia.
  rewrite (crc_bits_split_byte _ (x ≫ 8)) by lia.
  rewrite Z.shiftr_shiftr by lia.
  rewrite (crc_bits_split_byte _ (x ≫ (8 + 8))) by lia.
  rewrite Z.shiftr_shiftr by lia.
  rewrite !Z.lxor_assoc. repeat (f_equal; [f_equal; lia|]). f_equal; lia.
Qed.

Lemma lxor_assoc8 a b c d e f g h :
  Z.lxor (Z.lxor (Z.lxor (Z.lxor (Z.lxor (Z.lxor (Z.lxor a b) c) d) e) f) g) h =
  Z.lxor (Z.lxor (Z.lxor (Z.lxor a b) c) d) (Z.lxor (Z.lxor (Z.lxor e f) g) h).
Proof. by rewrite !Z.lxor_assoc. Qed.

(** Eight bytes at a time. *)
Lemma crc_reference_8 c p0 p1 p2 p3 p4 p5 p6 p7 p :
  is_bytes [p0; p1; p2; p3; p4; p5; p6; p7] →
  crc_reference c (p0 :: p1 :: p2 :: p3 :: p4 :: p5 :: p6 :: p7 :: p) =
  crc_reference (Z.lxor (crc_bits 64 (Z.lxor c (load_le32 p0 p1 p2 p3)))
                        (crc_bits 32 (load_le32 p4 p5 p6 p7))) p.
Proof.
  intros Hp. change (p0 :: p1 :: p2 :: p3 :: p4 :: p5 :: p6 :: p7 :: p)
    with (([p0; p1; p2; p3] ++ [p4; p5; p6; p7]) ++ p).
  rewrite !crc_reference_app. f_equal.
  change [p0; p1; p2; p3; p4; p5; p6; p7] with ([p0; p1; p2; p3] ++ [p4; p5; p6; p7]) in Hp.
  apply Forall_app in Hp as [Hlo Hhi].
  rewrite !crc_reference_word by done. rewrite <- !load_le32_word. cbn [length Nat.mul Nat.add].
  change 64%nat with (32 + 32)%nat. by rewrite (crc_bits_add 32 32), <- crc_bits_lxor.
Qed.

Lemma crc32c_slice8_words_spec c lo hi :
  is_u32 c → is_u32 lo → is_u32 hi →
  crc32c_slice8_words c lo hi = Z.lxor (crc_bits 64 (Z.lxor c lo)) (crc_bits 32 hi).
Proof.
  intros Hc Hlo Hhi. unfold crc32c_slice8_words. rewrite lxor_assoc8.
  assert (is_u32 (Z.lxor c lo)) by (apply lxor_range; [lia|done|done]).
  pose proof (slice8_word 4 (Z.lxor c lo)) as Hw. pose proof (slice8_word 0 hi) as Hw'.
  cbn [Nat.add Nat.mul] in Hw, Hw'. by rewrite Hw, Hw' by (done || lia).
Qed.

(** The chunked loop computes the reference when its step and its tail do. *)
Lemma by_eight_reference step tail c p :
  (∀ c p0 p1 p2 p3 p4 p5 p6 p7, is_u32 c → is_bytes [p0; p1; p2; p3; p4; p5; p6; p7] →
    step c p0 p1 p2 p3 p4 p5 p6 p7 = crc_reference c [p0; p1; p2; p3; p4; p5; p6; p7]) →
  (∀ c p, is_u32 c → is_bytes p → tail c p = crc_reference c p) →
  is_u32 c → is_bytes p → by_eight step tail c p = crc_reference c p.
Proof.
  intros Hstep Htail.
  assert (∀ n c p, (length p ≤ n)%nat → is_u32 c → is_bytes p →
            by_eight step tail c p = crc_reference c p) as H; [|by eauto].
  clear c p. intros n. induction n as [|n IH]; intros c p Hlen Hc Hp.
  { destruct p; [|cbn in Hlen; lia]. cbn [by_eight]. by apply Htail. }
  destruct p as [|p0 [|p1 [|p2 [|p3 [|p4 [|p5 [|p6 [|p7 p]]]]]]]]; cbn [by_eight];
    try by apply Htail.
  change (p0 :: p1 :: p2 :: p3 :: p4 :: p5 :: p6 :: p7 :: p)
    with ([p0; p1; p2; p3; p4; p5; p6; p7] ++ p) in *.
  apply Forall_app in Hp as [Hp8 Hp]. rewrite crc_reference_app, <- Hstep by done.
  apply IH; [cbn in Hlen; lia| |done].
  rewrite Hstep by done. by apply crc_reference_range.
Qed.

Lemma crc32c_slice8_reference c p :
  is_u32 c → is_bytes p → crc32c_slice8 c p = crc_reference c p.
Proof.
  apply by_eight_reference; [|by intros; apply crc32c_tail_reference].
  intros d p0 p1 p2 p3 p4 p5 p6 p7 Hd Hp. rewrite crc_reference_8 by done. cbn [crc_reference].
  repeat (apply Forall_cons in Hp as [? Hp]).
  by rewrite crc32c_slice8_words_spec by (done || by apply load_le32_range).
Qed.

Lemma bitnot32_range x : is_u32 x → is_u32 (bitnot32 x).
Proof. intros. apply lxor_range; [lia|done|lia]. Qed.

Lemma bitnot32_involutive x : bitnot32 (bitnot32 x) = x.
Proof. unfold bitnot32. by rewrite Z.lxor_assoc, Z.lxor_nilpotent, Z.lxor_0_r. Qed.

Lemma crc32c_extend_range c p : is_u32 c → is_bytes p → is_u32 (crc32c_extend c p).
Proof.
  intros. unfold crc32c_extend. rewrite crc32c_slice8_reference by (done || by apply bitnot32_range).
  apply bitnot32_range, crc_reference_range; [by apply bitnot32_range|done].
Qed.

Lemma crc32c_range p : is_bytes p → is_u32 (crc32c p).
Proof. apply crc32c_extend_range. ulia. Qed.
#[export] Hint Resolve crc32c_range : snii.

(** The table-driven software checksum is the bit-serial CRC-32C. *)
Lemma crc32c_extend_reference crc data :
  is_u32 crc → is_bytes data →
  crc32c_extend crc data = bitnot32 (crc_reference (bitnot32 crc) data).
Proof.
  intros. unfold crc32c_extend. by rewrite crc32c_slice8_reference by (done || by apply bitnot32_range).
Qed.

(** ** Properties *)

(** feeding a buffer in two pieces is feeding it whole, so the incremental
    checksum of a file written by several appends is the one of the file. *)
Theorem crc32c_extend_app crc p q :
  is_u32 crc → is_bytes p → is_bytes q →
  crc32c_extend (crc32c_extend crc p) q = crc32c_extend crc (p ++ q).
Proof.
  intros. rewrite !crc32c_extend_reference by auto using crc32c_extend_range with snii.
  by rewrite bitnot32_involutive, crc_reference_app.
Qed.

(** ** The processor's [crc32] instruction *)

Section HardwareSpec.
(** Intel SDM, [CRC32]: accumulate an 8, 32 or 64-bit operand. *)
Variable mm_crc32_u8 mm_crc32_u32 mm_crc32_u64 : Z → Z → Z.
Hypothesis mm_crc32_u8_spec : ∀ c v,
  is_u32 c → is_u8 v → mm_crc32_u8 c v = crc_bits 8 (Z.lxor c v).
Hypothesis mm_crc32_u32_spec : ∀ c v,
  is_u32 c → is_u32 v → mm_crc32_u32 c v = crc_bits 32 (Z.lxor c v).
Hypothesis mm_crc32_u64_spec : ∀ c v,
  is_u32 c → is_u64 v → mm_crc32_u64 c v = crc_bits 64 (Z.lxor c v).

Lemma crc32c_hw_bytes_reference c p :
  is_u32 c → is_bytes p → crc32c_hw_bytes mm_crc32_u8 c p = crc_reference c p.
Proof.
  intros Hc Hp. revert c Hc.
  induction Hp as [|b p Hb Hp IH]; intros c Hc; cbn [crc32c_hw_bytes crc_reference]; [done|].
  rewrite mm_crc32_u8_spec by done. apply IH, crc_bits_range, lxor_range; [lia|done|].
  by apply is_u8_u32.
Qed.

Lemma crc32c_hw_tail_reference c p :
  is_u32 c → is_bytes p →
  crc32c_hw_tail mm_crc32_u8 mm_crc32_u32 c p = crc_reference c p.
Proof.
  intros Hc Hp.
  destruct p as [|p0 [|p1 [|p2 [|p3 p]]]]; cbn [crc32c_hw_tail];
    try by apply crc32c_hw_bytes_reference.
  change (p0 :: p1 :: p2 :: p3 :: p) with ([p0; p1; p2; p3] ++ p) in *.
  apply Forall_app in Hp as [Hp4 Hp]. rewrite crc_reference_app, (crc_reference_word c) by done.
  rewrite <- load_le32_word. cbn [length Nat.mul Nat.add].
  repeat (apply Forall_cons in Hp4 as [? Hp4]).
  assert (is_u32 (load_le32 p0 p1 p2 p3)) by by apply load_le32_range.
  rewrite mm_crc32_u32_spec by done. apply crc32c_hw_bytes_reference; [|done].
  by apply crc_bits_range, lxor_range.
Qed.

Lemma crc32c_hw_reference c p :
  is_u32 c → is_bytes p →
  crc32c_hw mm_crc32_u8 mm_crc32_u32 mm_crc32_u64 c p = crc_reference c p.
Proof.
  apply by_eight_reference; [|apply crc32c_hw_tail_reference].
  intros d p0 p1 p2 p3 p4 p5 p6 p7 Hd Hp.
  rewrite crc_reference_word by done. cbn [length Nat.mul Nat.add].
  assert (is_u64 (little_endian_to_Z 8 [p0; p1; p2; p3; p4; p5; p6; p7])).
  { apply (little_endian_to_Z_bound 8 [_; _; _; _; _; _; _; _]); [lia|done]. }
  rewrite mm_crc32_u64_spec by done. apply u32_small.
  change 64%nat with (8 * length [p0; p1; p2; p3; p4; p5; p6; p7])%nat.
  rewrite <- crc_reference_word by done. by apply crc_reference_range.
Qed.
End HardwareSpec.

(** on a processor whose [crc32] instruction accumulates as its manual says,
    the SSE4.2 path returns what the portable path returns. *)
Theorem crc32c_extend_x86_portable mm_u8 mm_u32 mm_u64 kHasSse42 crc data :
  (∀ c v, is_u32 c → is_u8 v → mm_u8 c v = crc_bits 8 (Z.lxor c v)) →
  (∀ c v, is_u32 c → is_u32 v → mm_u32 c v = crc_bits 32 (Z.lxor c v)) →
  (∀ c v, is_u32 c → is_u64 v → mm_u64 c v = crc_bits 64 (Z.lxor c v)) →
  is_u32 crc → is_bytes data →
  crc32c_extend_x86 mm_u8 mm_u32 mm_u64 kHasSse42 crc data = crc32c_extend crc data.
Proof.
  intros H8 H32 H64 Hcrc Hdata. unfold crc32c_extend_x86. destruct kHasSse42; [|done].
  rewrite crc32c_extend_reference by done.
  by rewrite crc32c_hw_reference by (done || by apply bitnot32_range).
Qed.

(** ** Detection *)

Lemma crc32c_reference data : is_bytes data →
  crc32c data = bitnot32 (crc_reference 0xFFFFFFFF data).
Proof. intros. unfold crc32c. by rewrite crc32c_extend_reference by (done || ulia). Qed.

Lemma bitnot32_inj x y : bitnot32 x = bitnot32 y → x = y.
Proof. intros H. by rewrite <- (bitnot32_involutive x), H, bitnot32_involutive. Qed.

Lemma le_to_Z_inj8 v w :
  length v = length w → is_bytes v → is_bytes w →
  little_endian_to_Z 8 v = little_endian_to_Z 8 w → v = w.
Proof.
  intros Hlen Hv Hw H.
  rewrite <- (Z_to_little_endian_to_Z (zlen v) 8 v) by (done || lia).
  rewrite H. apply Z_to_little_endian_to_Z; [by rewrite Hlen|lia|done].
Qed.

(** Two buffers that differ only within four consecutive bytes. *)
Lemma crc32c_burst pre v w post :
  is_bytes pre → is_bytes v → is_bytes w → is_bytes post →
  length v = length w → (length v ≤ 4)%nat → v ≠ w →
  crc32c (pre ++ v ++ post) ≠ crc32c (pre ++ w ++ post).
Proof.
  intros Hpre Hv Hw Hpost Hlen Hle Hne H. apply Hne.
  rewrite !crc32c_reference in H by auto with snii. apply bitnot32_inj in H.
  rewrite !crc_reference_app in H.
  assert (is_u32 (crc_reference 0xFFFFFFFF pre)) as Hc by (apply crc_reference_range; [ulia|done]).
  apply crc_reference_inj in H; [|by apply crc_reference_range..|exact Hpost].
  generalize dependent (crc_reference 0xFFFFFFFF pre). intros c H Hc.
  rewrite !crc_reference_word, Hlen in H by done.
  assert (∀ u, is_bytes u → (length u ≤ 4)%nat → is_u32 (little_endian_to_Z 8 u)) as Hu.
  { intros u Hb Hl. pose proof (little_endian_to_Z_bound 8 u ltac:(lia) Hb).
    unfold is_u32. assert (2 ^ (zlen u * 8) ≤ 2 ^ 32) by (apply Z.pow_le_mono_r; lia). lia. }
  apply crc_bits_inj in H; [|apply lxor_range; [lia|exact Hc|apply Hu; [done|lia]]..].
  apply (f_equal (Z.lxor c)) in H.
  rewrite <- !Z.lxor_assoc, !Z.lxor_nilpotent, !Z.lxor_0_l in H. by apply le_to_Z_inj8.
Qed.

(** a corruption confined to four consecutive bytes changes the checksum. *)
Theorem crc32c_detects_burst pre v w post :
  is_bytes pre → is_bytes v → is_bytes w → is_bytes post →
  length v = length w → (length v ≤ 4)%nat → v ≠ w →
  crc32c (pre ++ v ++ post) ≠ crc32c (pre ++ w ++ post).
Proof. apply crc32c_burst. Qed.

(** ** Witnesses *)

(** The check value of the CRC-32C catalogue: the checksum of "123456789". *)
Example crc32c_check_value : crc32c [49; 50; 51; 52; 53; 54; 55; 56; 57] = 0xE3069283.
Proof. vm_compute. reflexivity. Qed.

Lemma crc32c_extend_app_witness :
  crc32c_extend (crc32c_extend 0 [1; 2; 3]) [4; 5] = crc32c_extend 0 ([1; 2; 3] ++ [4; 5]).
Proof. apply crc32c_extend_app; [ulia|auto with snii..]. Defined.

Lemma crc32c_extend_x86_portable_witness :
  let mm n := λ c v, crc_bits n (Z.lxor c v) in
  crc32c_extend_x86 (mm 8%nat) (mm 32%nat) (mm 64%nat) true 0 [1; 2; 3; 4; 5; 6; 7; 8; 9]
    = crc32c_extend 0 [1; 2; 3; 4; 5; 6; 7; 8; 9].
Proof.
  intros mm. apply crc32c_extend_x86_portable; [reflexivity..|ulia|auto 10 with snii].
Defined.

Lemma crc32c_detects_burst_witness :
  crc32c ([7] ++ [1; 2] ++ [9]) ≠ crc32c ([7] ++ [1; 3] ++ [9]).
Proof.
  apply (crc32c_detects_burst [7] [1; 2] [1; 3] [9]);
    [auto with snii..|reflexivity|cbn; lia|discriminate].
Defined.
