(* ===== verification/Pfor.v ===== *)
(** * Pfor: the PFOR block codec.

    [encoding/pfor.h] and [encoding/pfor.cpp]. Values of at most [w] bits are
    packed [w] bits each, the rest are patched from an exception table. The
    packed run is read back with one 64-bit load per value ([bitunpack_fast])
    and byte by byte near its end ([bitunpack_tail]).

    The specification of the packed run is arithmetic: the [w]-bit digits and
    the bytes are two little-endian writings of one number. *)

From S2P Require Import Prelude Status Varint ByteIO.

#[local] Open Scope Z_scope.

(** ** Encoder *)

(** [while (v) { ++b; v >>= 1; }] *)
Fixpoint bits_for_loop (fuel : nat) (v b : Z) : Z :=
  match fuel with
  | O => b
  | S fuel => if v =? 0 then b else bits_for_loop fuel (v ≫ 1) (b + 1)
  end.
Definition bits_for (v : Z) : Z := bits_for_loop 32 v 0.

Definition SIZE_MAX : Z := 2 ^ 64 - 1.

Definition width_exceptions (v : list Z) (w : Z) : Z := zlen (filter (λ x, w < bits_for x) v).

(** [(static_cast<size_t>(w) * n + 7) / 8 + exc * 6] *)
Definition width_cost (v : list Z) (w : Z) : Z :=
  u64 (u64 (u64 (w * zlen v) + 7) / 8 + u64 (width_exceptions v w * 6)).

Fixpoint choose_width_loop (v : list Z) (ws : list Z) (best best_cost : Z) : Z :=
  match ws with
  | [] => best
  | w :: ws =>
      let cost := width_cost v w in
      if cost <? best_cost then choose_width_loop v ws w cost
      else choose_width_loop v ws best best_cost
  end.

Definition max_width (v : list Z) : Z := foldl (λ m x, Z.max m (bits_for x)) 0 v.
Definition choose_width (v : list Z) : Z :=
  choose_width_loop v (seqZ 0 (max_width v + 1)) (max_width v) SIZE_MAX.

Definition low_mask (w : Z) : Z := if 32 <=? w then 0xFFFFFFFF else (1 ≪ w) - 1.

(** [while (filled >= 8) { put_u8(acc); acc >>= 8; filled -= 8; }] *)
Fixpoint bitpack_flush (fuel : nat) (acc filled : Z) (out : ByteSink) : Z * Z * ByteSink :=
  match fuel with
  | O => (acc, filled, out)
  | S fuel =>
      if 8 <=? filled then bitpack_flush fuel (acc ≫ 8) (filled - 8) (put_u8 (u8 acc) out)
      else (acc, filled, out)
  end.

Fixpoint bitpack_loop (v : list Z) (w acc filled : Z) (out : ByteSink) : ByteSink :=
  match v with
  | [] => if 0 <? filled then put_u8 (u8 acc) out else out
  | x :: v =>
      let acc := Z.lor acc (u64 (Z.land x (low_mask w) ≪ filled)) in
      let filled := filled + w in
      let '(acc, filled, out) := bitpack_flush (Z.to_nat filled) acc filled out in
      bitpack_loop v w acc filled out
  end.
Definition bitpack (v : list Z) (w : Z) (out : ByteSink) : ByteSink :=
  if w =? 0 then out else bitpack_loop v w 0 0 out.

(** The loop that fills [exc] and zeroes the exceptions in [low]. *)
Fixpoint split_exceptions (w i : Z) (vs : list Z) : list (Z * Z) * list Z :=
  match vs with
  | [] => ([], [])
  | v :: vs =>
      let '(exc, low) := split_exceptions w (i + 1) vs in
      if w <? bits_for v then ((u32 i, v) :: exc, 0 :: low) else (exc, v :: low)
  end.

Fixpoint put_exceptions (exc : list (Z * Z)) (prev : Z) (out : ByteSink) : ByteSink :=
  match exc with
  | [] => out
  | e :: exc =>
      put_exceptions exc e.1 (out |> put_varint32 (u32 (e.1 - prev)) |> put_varint32 e.2)
  end.

Definition pfor_encode (values : list Z) (out : ByteSink) : ByteSink :=
  let w := choose_width values in
  let '(exc, low) := split_exceptions w 0 values in
  out |> put_u8 w |> put_varint32 (u32 (zlen exc)) |> bitpack low w |> put_exceptions exc 0.

(** ** Decoder *)

Definition load_u64_le (base : bytes) (off : Z) : result Z :=
  let p := take 8 (drop (Z.to_nat off) base) in
  if bool_decide (length p = 8%nat) then Ok (little_endian_to_Z 8 p) else Undef.

Definition unpack_value (word bit_off w : Z) : Z :=
  u32 (Z.land (word ≫ (Z.land bit_off 7)) (low_mask w)).

(** [for (b = byte_off; b < packed && b < byte_off + 8; ++b) word |= base[b] << ...] *)
Fixpoint tail_word (fuel : nat) (base : bytes) (packed byte_off b word : Z) : result Z :=
  match fuel with
  | O => Ok word
  | S fuel =>
      if (b <? packed) && (b <? byte_off + 8) then
        match base !! Z.to_nat b with
        | Some x =>
            tail_word fuel base packed byte_off (b + 1)
              (Z.lor word (u64 (x ≪ ((b - byte_off) * 8))))
        | None => Undef
        end
      else Ok word
  end.

(** The second loop, from index [i] with [k] values left. *)
Fixpoint bitunpack_tail (base : bytes) (packed w : Z) (k : nat) (i : Z) : result (list Z) :=
  match k with
  | O => Ok []
  | S k =>
      let bit_off := u64 (w * i) in
      let byte_off := bit_off ≫ 3 in
      word ← tail_word 8 base packed byte_off byte_off 0;
      rest ← bitunpack_tail base packed w k (i + 1);
      Ok (unpack_value word bit_off w :: rest)
  end.

(** The first loop; its [break] continues with the second one. *)
Fixpoint bitunpack_fast (base : bytes) (packed w : Z) (k : nat) (i : Z) : result (list Z) :=
  match k with
  | O => Ok []
  | S k' =>
      let bit_off := u64 (w * i) in
      let byte_off := bit_off ≫ 3 in
      if packed - 8 <? byte_off then bitunpack_tail base packed w k i
      else
        word ← load_u64_le base byte_off;
        rest ← bitunpack_fast base packed w k' (i + 1);
        Ok (unpack_value word bit_off w :: rest)
  end.

Definition bitunpack (n w : Z) : reader (list Z) :=
  if w =? 0 then mret (replicate (Z.to_nat n) 0)
  else
    let packed := u64 (u64 (w * n) + 7) / 8 in
    buf ← get_bytes packed;
    lift (if 8 <=? packed then bitunpack_fast buf packed w (Z.to_nat n) 0
          else bitunpack_tail buf packed w (Z.to_nat n) 0).

Fixpoint get_exceptions (n_exc : nat) (n idx : Z) (out : list Z) : reader (list Z) :=
  match n_exc with
  | O => mret out
  | S n_exc =>
      d ← get_varint32;
      val ← get_varint32;
      let idx := u32 (idx + d) in
      _ ← return_if (n <=? idx) (Corruption "pfor exception index out of range");
      get_exceptions n_exc n idx (<[Z.to_nat idx := val]> out)
  end.

Definition pfor_decode (n : Z) : reader (list Z) :=
  w ← get_u8;
  n_exc ← get_varint32;
  out ← bitunpack n w;
  get_exceptions (Z.to_nat n_exc) n 0 out.

(** ** Bit widths *)

Lemma bits_for_loop_spec f v b :
  0 ≤ v < 2 ^ Z.of_nat f →
  b ≤ bits_for_loop f v b ≤ b + Z.of_nat f ∧
  ∀ w, 0 ≤ w → (bits_for_loop f v b ≤ b + w ↔ v < 2 ^ w).
Proof.
  revert v b. induction f as [|f IH]; intros v b Hv; cbn [bits_for_loop].
  { change (2 ^ Z.of_nat 0) with 1 in Hv. split; [lia|]. intros w Hw.
    assert (0 < 2 ^ w) by (apply Z.pow_pos_nonneg; lia). lia. }
  destruct (v =? 0) eqn:Hz.
  { apply Z.eqb_eq in Hz as ->. split; [lia|]. intros w Hw.
    assert (0 < 2 ^ w) by (apply Z.pow_pos_nonneg; lia). lia. }
  apply Z.eqb_neq in Hz. rewrite Z.shiftr_div_pow2 by lia. change (2 ^ 1) with 2.
  assert (2 ^ Z.of_nat (S f) = 2 * 2 ^ Z.of_nat f) as Hp.
  { rewrite Nat2Z.inj_succ, Z.pow_succ_r by lia. lia. }
  rewrite Hp in Hv. clear Hp.
  destruct (IH (v / 2) (b + 1)) as [Hb IH']; [dlia|]. split; [lia|]. intros w Hw.
  destruct (decide (w = 0)) as [->|?]; [change (2 ^ 0) with 1; lia|].
  specialize (IH' (w - 1) ltac:(lia)).
  assert (2 ^ w = 2 * 2 ^ (w - 1)) as Hpw.
  { rewrite <- Z.pow_succ_r by lia. f_equal. lia. }
  replace (b + 1 + (w - 1)) with (b + w) in IH' by lia. rewrite IH'. dlia.
Qed.

Lemma bits_for_range v : is_u32 v → 0 ≤ bits_for v ≤ 32.
Proof. intros Hv. apply (bits_for_loop_spec 32 v 0) in Hv as [Hv _]. exact Hv. Qed.

Lemma bits_for_le v w : is_u32 v → 0 ≤ w → bits_for v ≤ w ↔ v < 2 ^ w.
Proof. intros Hv Hw. apply (bits_for_loop_spec 32 v 0) in Hv as [_ Hv]. exact (Hv w Hw). Qed.

Lemma max_width_ge v m : m ≤ foldl (λ m x, Z.max m (bits_for x)) m v.
Proof. revert m. induction v as [|x v IH]; intros m; cbn [foldl]; [lia|]. specialize (IH (Z.max m (bits_for x))). lia. Qed.

Lemma max_width_range v : is_u32s v → 0 ≤ max_width v ≤ 32.
Proof.
  intros Hv. split; [apply max_width_ge|]. unfold max_width.
  assert (∀ m, m ≤ 32 → foldl (λ m x, Z.max m (bits_for x)) m v ≤ 32) as H; [|by apply H].
  induction Hv as [|x v Hx Hv IH]; intros m Hm; cbn [foldl]; [done|].
  apply IH. pose proof (bits_for_range x Hx). lia.
Qed.

Lemma max_width_bound v : Forall (λ x, bits_for x ≤ max_width v) v.
Proof.
  unfold max_width. generalize 0. induction v as [|x v IH]; intros m; cbn [foldl]; constructor; [|apply IH].
  pose proof (max_width_ge v (Z.max m (bits_for x))). lia.
Qed.

(** ** The chosen width *)

Lemma choose_width_loop_spec v ws best best_cost :
  let r := choose_width_loop v ws best best_cost in
  (r = best ∧ Forall (λ w, best_cost ≤ width_cost v w) ws) ∨
  (r ∈ ws ∧ width_cost v r < best_cost ∧ Forall (λ w, width_cost v r ≤ width_cost v w) ws).
Proof.
  revert best best_cost. induction ws as [|w ws IH]; intros best best_cost r; [by left|].
  subst r. cbn [choose_width_loop]. destruct (width_cost v w <? best_cost) eqn:Hc.
  - apply Z.ltb_lt in Hc. right. destruct (IH w (width_cost v w)) as [(-> & H)|(Hin & Hlt & H)].
    + split; [left|]. split; [done|]. constructor; [lia|done].
    + split; [by right|]. split; [lia|]. constructor; [lia|done].
  - apply Z.ltb_ge in Hc. destruct (IH best best_cost) as [(-> & H)|(Hin & Hlt & H)].
    + left. split; [done|]. by constructor.
    + right. split; [by right|]. split; [done|]. constructor; [lia|done].
Qed.

Lemma choose_width_range v : is_u32s v → 0 ≤ choose_width v ≤ max_width v.
Proof.
  intros Hv. pose proof (max_width_range v Hv). unfold choose_width.
  destruct (choose_width_loop_spec v (seqZ 0 (max_width v + 1)) (max_width v) SIZE_MAX)
    as [(-> & _)|(Hin & _)]; [lia|]. apply elem_of_seqZ in Hin. lia.
Qed.

Lemma choose_width_u8 v : is_u32s v → is_u8 (choose_width v) ∧ choose_width v ≤ 32.
Proof. intros Hv. pose proof (choose_width_range v Hv). pose proof (max_width_range v Hv). ulia. Qed.

(** ** The packed run *)

Lemma low_mask_ones w : 0 ≤ w ≤ 32 → low_mask w = Z.ones w.
Proof.
  intros Hw. unfold low_mask. destruct (32 <=? w) eqn:H.
  - apply Z.leb_le in H. by replace w with 32 by lia.
  - by rewrite Z.shiftl_1_l, Z.ones_equiv, Z.sub_1_r.
Qed.

Lemma low_mask_mod w x : 0 ≤ w ≤ 32 → Z.land x (low_mask w) = x `mod` 2 ^ w.
Proof. intros. rewrite low_mask_ones by done. apply Z.land_ones. lia. Qed.

Lemma bitpack_flush_spec fuel acc filled out :
  0 ≤ filled ≤ Z.of_nat fuel → 0 ≤ acc < 2 ^ filled →
  ∃ acc' filled' e,
    bitpack_flush fuel acc filled out = (acc', filled', out ++ e) ∧ is_bytes e ∧
    0 ≤ filled' < 8 ∧ 0 ≤ acc' < 2 ^ filled' ∧ filled = filled' + 8 * zlen e ∧
    acc = little_endian_to_Z 8 e + acc' * 2 ^ (8 * zlen e).
Proof.
  revert acc filled out. induction fuel as [|fuel IH]; intros acc filled out Hf Ha.
  { exists acc, filled, []. cbn. rewrite app_nil_r. split_and!; (done || lia). }
  cbn [bitpack_flush]. destruct (8 <=? filled) eqn:H8.
  2: { apply Z.leb_gt in H8. exists acc, filled, []. rewrite app_nil_r. cbn. split_and!; (done || lia). }
  apply Z.leb_le in H8. rewrite Z.shiftr_div_pow2 by lia.
  destruct (IH (acc / 2 ^ 8) (filled - 8) (put_u8 (u8 acc) out))
    as (acc' & filled' & e & -> & He & Hf' & Ha' & Hfl & Hacc); [lia| |].
  { split; [apply Z.div_pos; lia|]. apply Z.div_lt_upper_bound; [lia|].
    rewrite <- Z.pow_add_r by lia. replace (8 + (filled - 8)) with filled by lia. lia. }
  exists acc', filled', (u8 acc :: e). unfold put_u8. rewrite <- app_assoc. cbn [app].
  split_and!; [done|auto with snii|lia..| |].
  - cbn [length]. lia.
  - rewrite le_to_Z_cons_add by (lia || apply u8_range). cbn [length].
    replace (8 * Z.of_nat (S (length e))) with (8 * zlen e + 8) by lia.
    rewrite Z.pow_add_r by lia. unfold u8. pose proof (Z.div_mod acc (2 ^ 8)). lia.
Qed.

Lemma bitpack_loop_spec v w acc filled out :
  0 < w ≤ 32 → Forall (λ d, 0 ≤ d < 2 ^ w) v → 0 ≤ filled < 8 → 0 ≤ acc < 2 ^ filled →
  ∃ bs, bitpack_loop v w acc filled out = out ++ bs ∧ is_bytes bs ∧
    zlen bs = (filled + w * zlen v + 7) / 8 ∧
    little_endian_to_Z 8 bs = acc + little_endian_to_Z w v * 2 ^ filled.
Proof.
  intros Hw Hv. revert acc filled out.
  induction Hv as [|x v Hx Hv IH]; intros acc filled out Hf Ha; cbn [bitpack_loop].
  { destruct (0 <? filled) eqn:H0.
    - apply Z.ltb_lt in H0. exists [u8 acc]. split_and!; [done|auto with snii| |].
      + cbn. dlia.
      + cbn. rewrite Z.shiftl_0_l, Z.lor_0_r. assert (2 ^ filled ≤ 2 ^ 8) by (apply Z.pow_le_mono_r; lia).
        rewrite u8_small by (unfold is_u8; lia). lia.
    - apply Z.ltb_ge in H0. exists []. rewrite app_nil_r. assert (filled = 0) as -> by lia.
      change (2 ^ 0) with 1 in *. split_and!; [done|constructor|cbn; dlia|cbn; lia]. }
  rewrite low_mask_mod, Z.mod_small by lia.
  assert (0 < 2 ^ filled) by (apply Z.pow_pos_nonneg; lia).
  assert (0 ≤ acc + x * 2 ^ filled < 2 ^ (filled + w)) as Hb.
  { rewrite Z.pow_add_r by lia. nia. }
  assert (2 ^ (filled + w) ≤ 2 ^ 40) by (apply Z.pow_le_mono_r; lia).
  rewrite u64_small; [|rewrite Z.shiftl_mul_pow2 by lia; unfold is_u64; nia].
  rewrite lor_shiftl_add by lia.
  destruct (bitpack_flush_spec (Z.to_nat (filled + w)) (acc + x * 2 ^ filled) (filled + w) out)
    as (acc' & filled' & e & -> & He & Hf' & Ha' & Hfill & Hacc); [lia|done|].
  destruct (IH acc' filled' (out ++ e)) as (bs & -> & Hbs & Hlen & Hle); [done..|].
  exists (e ++ bs). rewrite <- app_assoc. split_and!; [done|auto with snii| |].
  - rewrite length_app, Nat2Z.inj_add, Hlen. cbn [length]. dlia.
  - rewrite le_to_Z_app_add by (lia || done). rewrite Hle, (le_to_Z_cons_add w) by (lia || done).
    rewrite (Z.mul_comm (zlen e)).
    transitivity ((acc + x * 2 ^ filled) + little_endian_to_Z w v * 2 ^ (filled' + 8 * zlen e)).
    + rewrite Hacc, Z.pow_add_r by lia. lia.
    + rewrite <- Hfill, Z.pow_add_r by lia. lia.
Qed.

Lemma bitpack_spec v w out :
  0 < w ≤ 32 → Forall (λ d, 0 ≤ d < 2 ^ w) v →
  ∃ bs, bitpack v w out = out ++ bs ∧ is_bytes bs ∧
    zlen bs = (w * zlen v + 7) / 8 ∧ little_endian_to_Z 8 bs = little_endian_to_Z w v.
Proof.
  intros Hw Hv. unfold bitpack. rewrite (proj2 (Z.eqb_neq w 0)) by lia.
  destruct (bitpack_loop_spec v w 0 0 out) as (bs & -> & Hbs & Hlen & Hle); [done..|lia|cbn; lia|].
  exists bs. split_and!; [done..|]. rewrite Hle. change (2 ^ 0) with 1. lia.
Qed.

(** ** Reading the packed run: both loops load the same eight bytes. *)

Definition unpack_spec (base : bytes) (w : Z) (k : nat) (i : Z) : list Z :=
  map (λ j, unpack_value (little_endian_to_Z 8 (take 8 (drop (Z.to_nat (u64 (w * j) ≫ 3)) base)))
                         (u64 (w * j)) w) (seqZ i (Z.of_nat k)).

Lemma unpack_spec_S base w k i :
  unpack_spec base w (S k) i =
  unpack_value (little_endian_to_Z 8 (take 8 (drop (Z.to_nat (u64 (w * i) ≫ 3)) base))) (u64 (w * i)) w
    :: unpack_spec base w k (i + 1).
Proof.
  unfold unpack_spec. rewrite seqZ_cons by lia. cbn [map]. repeat f_equal; lia.
Qed.

Lemma tail_word_defined fuel base packed byte_off b word :
  packed = zlen base → 0 ≤ b → defined (tail_word fuel base packed byte_off b word).
Proof.
  intros Hp. revert b word. induction fuel as [|fuel IH]; intros b word Hb; cbn [tail_word]; [done|].
  destruct (b <? packed) eqn:Hlt; [|done]. apply Z.ltb_lt in Hlt.
  destruct (b <? byte_off + 8); [|done]. cbn [andb].
  destruct (lookup_lt_is_Some_2 base (Z.to_nat b)) as [x ->]; [lia|]. apply IH. lia.
Qed.

Lemma tail_word_spec fuel base byte_off b word :
  is_bytes base → 0 ≤ byte_off ≤ b → b + Z.of_nat fuel = byte_off + 8 →
  0 ≤ word < 2 ^ ((b - byte_off) * 8) →
  tail_word fuel base (zlen base) byte_off b word =
    Ok (word + little_endian_to_Z 8 (take fuel (drop (Z.to_nat b) base)) * 2 ^ ((b - byte_off) * 8)).
Proof.
  intros Hbs. revert b word. induction fuel as [|fuel IH]; intros b word Hb Hfuel Hw; cbn [tail_word take].
  { rewrite take_0. cbn [little_endian_to_Z]. f_equal. lia. }
  destruct (b <? zlen base) eqn:Hlt.
  2: { apply Z.ltb_ge in Hlt. cbn [andb]. rewrite drop_ge by lia. cbn [take little_endian_to_Z]. f_equal. lia. }
  apply Z.ltb_lt in Hlt. rewrite (proj2 (Z.ltb_lt b (byte_off + 8))) by lia. cbn [andb].
  destruct (lookup_lt_is_Some_2 base (Z.to_nat b)) as [x Hx]; [lia|]. rewrite Hx.
  assert (is_u8 x) as Hx8 by (rewrite Forall_lookup in Hbs; eauto).
  rewrite (drop_S base x) by done. cbn [take].
  assert (Forall is_u8 (take fuel (drop (S (Z.to_nat b)) base))) by by apply Forall_take, Forall_drop.
  rewrite le_to_Z_cons_add by (lia || done).
  assert (0 < 2 ^ ((b - byte_off) * 8)) by (apply Z.pow_pos_nonneg; lia).
  assert (2 ^ ((b + 1 - byte_off) * 8) = 2 ^ 8 * 2 ^ ((b - byte_off) * 8)) as Hpow.
  { rewrite <- Z.pow_add_r by lia. f_equal. lia. }
  assert (2 ^ ((b + 1 - byte_off) * 8) ≤ 2 ^ 64) by (apply Z.pow_le_mono_r; lia).
  rewrite u64_small; [|rewrite Z.shiftl_mul_pow2 by lia; unfold is_u8, is_u64 in *; nia].
  rewrite lor_shiftl_add by lia. rewrite IH; [|lia..|unfold is_u8 in *; nia].
  replace (Z.to_nat (b + 1)) with (S (Z.to_nat b)) by lia. f_equal. rewrite Hpow. lia.
Qed.

Lemma bitunpack_tail_spec base w k i :
  is_bytes base →
  bitunpack_tail base (zlen base) w k i = Ok (unpack_spec base w k i).
Proof.
  intros Hbs. revert i. induction k as [|k IH]; intros i; cbn [bitunpack_tail]; [done|].
  rewrite tail_word_spec; [|done| |lia|].
  - rewrite IH, unpack_spec_S. cbn. do 4 f_equal. rewrite Z.sub_diag. change (2 ^ (0 * 8)) with 1. lia.
  - split; [|lia]. apply Z.shiftr_nonneg. apply u64_range.
  - rewrite Z.sub_diag. change (2 ^ (0 * 8)) with 1. lia.
Qed.

Lemma bitunpack_fast_spec base w k i :
  is_bytes base → 8 ≤ zlen base →
  bitunpack_fast base (zlen base) w k i = Ok (unpack_spec base w k i).
Proof.
  intros Hbs Hlen. revert i. induction k as [|k IH]; intros i; cbn [bitunpack_fast]; [done|].
  destruct (_ <? _) eqn:Hlt; [by apply bitunpack_tail_spec|]. apply Z.ltb_ge in Hlt.
  unfold load_u64_le. rewrite bool_decide_true.
  2: { rewrite length_take, length_drop.
       assert (0 ≤ u64 (w * i) ≫ 3) by (apply Z.shiftr_nonneg, u64_range). lia. }
  rewrite unpack_spec_S. cbn. by rewrite IH.
Qed.

Lemma bitunpack_tail_defined base w k i :
  defined (bitunpack_tail base (zlen base) w k i).
Proof.
  revert i. induction k as [|k IH]; intros i; cbn [bitunpack_tail]; [done|].
  apply defined_bind; [apply tail_word_defined; [done|]; apply Z.shiftr_nonneg, u64_range|].
  intros word _. apply defined_bind; [apply IH|done].
Qed.

Lemma bitunpack_fast_defined base w k i :
  8 ≤ zlen base → defined (bitunpack_fast base (zlen base) w k i).
Proof.
  intros Hlen. revert i. induction k as [|k IH]; intros i; cbn [bitunpack_fast]; [done|].
  destruct (_ <? _) eqn:Hlt; [apply bitunpack_tail_defined|]. apply Z.ltb_ge in Hlt.
  apply defined_bind.
  - unfold load_u64_le. rewrite bool_decide_true; [done|].
    rewrite length_take, length_drop.
    assert (0 ≤ u64 (w * i) ≫ 3) by (apply Z.shiftr_nonneg, u64_range). lia.
  - intros word _. apply defined_bind; [apply IH|done].
Qed.

(** ** What [pfor_encode] appends *)

Lemma bitpack_flush_app fuel acc filled o1 o2 :
  bitpack_flush fuel acc filled (o1 ++ o2) =
  let '(acc', filled', o) := bitpack_flush fuel acc filled o2 in (acc', filled', o1 ++ o).
Proof.
  revert acc filled o2. induction fuel as [|fuel IH]; intros acc filled o2; cbn [bitpack_flush]; [done|].
  destruct (8 <=? filled); [|done]. unfold put_u8. rewrite <- app_assoc. apply IH.
Qed.

Lemma bitpack_loop_app v w acc filled o1 o2 :
  bitpack_loop v w acc filled (o1 ++ o2) = o1 ++ bitpack_loop v w acc filled o2.
Proof.
  revert acc filled o2. induction v as [|x v IH]; intros acc filled o2; cbn [bitpack_loop].
  - destruct (0 <? filled); unfold put_u8; by rewrite <- ?app_assoc.
  - rewrite bitpack_flush_app. by destruct (bitpack_flush _ _ _ o2) as [[??]?].
Qed.

Lemma bitpack_app v w out : bitpack v w out = out ++ bitpack v w [].
Proof.
  unfold bitpack. destruct (w =? 0); [by rewrite app_nil_r|].
  rewrite <- (app_nil_r out) at 1. apply bitpack_loop_app.
Qed.

Lemma put_exceptions_app exc prev out : put_exceptions exc prev out = out ++ put_exceptions exc prev [].
Proof.
  revert prev out. induction exc as [|e exc IH]; intros prev out; cbn [put_exceptions].
  - by rewrite app_nil_r.
  - rewrite IH, (IH _ ([] |> _ |> _)). autorewrite with sink. done.
Qed.

Definition pfor_bytes (values : list Z) : bytes := pfor_encode values [].

Lemma pfor_encode_app values out : pfor_encode values out = out ++ pfor_bytes values.
Proof.
  unfold pfor_bytes, pfor_encode. destruct (split_exceptions _ _ _) as [exc low].
  rewrite bitpack_app, put_exceptions_app, (bitpack_app _ _ ([] |> _ |> _)), (put_exceptions_app _ _ (_ ++ _)).
  autorewrite with sink. done.
Qed.
#[export] Hint Rewrite pfor_encode_app : sink.

Lemma pfor_bytes_unfold values :
  let w := choose_width values in
  let exc := (split_exceptions w 0 values).1 in
  let low := (split_exceptions w 0 values).2 in
  pfor_bytes values =
    [w] ++ encode_varint64 (u32 (zlen exc)) ++ bitpack low w [] ++ put_exceptions exc 0 [].
Proof.
  unfold pfor_bytes, pfor_encode. destruct (split_exceptions _ _ _) as [exc low]. cbn [fst snd].
  rewrite put_exceptions_app, bitpack_app. autorewrite with sink. done.
Qed.

(** ** Exceptions *)

Definition patch (out : list Z) (e : Z * Z) : list Z := <[Z.to_nat e.1 := e.2]> out.

Definition wf_exc (n : Z) (e : Z * Z) : Prop := 0 ≤ e.1 < n ∧ is_u32 e.2.

Lemma split_exceptions_spec w i vs n :
  is_u32s vs → 0 ≤ w → 0 ≤ i → i + zlen vs ≤ n → n ≤ 2 ^ 32 →
  let '(exc, low) := split_exceptions w i vs in
  length low = length vs ∧ (length exc ≤ length vs)%nat ∧
  Forall (λ d, 0 ≤ d < 2 ^ w) low ∧ Forall (wf_exc n) exc ∧
  ∀ pre, zlen pre = i → foldl patch (pre ++ low) exc = pre ++ vs.
Proof.
  intros Hvs Hw. revert i. induction Hvs as [|v vs Hv Hvs IH]; intros i Hi Hn Hn32; cbn [split_exceptions].
  { by split_and!; [|cbn; lia|constructor|constructor|]. }
  cbn [length] in Hn. specialize (IH (i + 1) ltac:(lia) ltac:(lia) Hn32).
  destruct (split_exceptions w (i + 1) vs) as [exc low]. destruct IH as (Hlen & Hexc & Hlow & Hwf & Hfold).
  destruct (w <? bits_for v) eqn:Hb; cbn [length].
  - split_and!; [lia|lia| | |].
    + constructor; [|done]. assert (0 < 2 ^ w) by (apply Z.pow_pos_nonneg; lia). lia.
    + constructor; [|done]. split; [|done]. cbn. rewrite u32_small by ulia. lia.
    + intros pre Hpre. cbn [foldl]. unfold patch at 2. cbn [fst snd]. rewrite u32_small by ulia.
      replace (Z.to_nat i) with (length pre + 0)%nat by lia. rewrite insert_app_r. cbn.
      rewrite cons_middle, app_assoc. rewrite Hfold; [by rewrite <- app_assoc|]. rewrite length_app. cbn. lia.
  - apply Z.ltb_ge in Hb. apply bits_for_le in Hb; [|done..].
    split_and!; [lia|lia| |done|].
    + constructor; [|done]. unfold is_u32 in Hv. lia.
    + intros pre Hpre. rewrite cons_middle, app_assoc.
      rewrite Hfold; [by rewrite <- app_assoc|]. rewrite length_app. cbn. lia.
Qed.

Lemma reads_get_exceptions exc n idx out :
  n ≤ 2 ^ 32 → is_u32 idx → Forall (wf_exc n) exc →
  reads (get_exceptions (length exc) n idx out) (put_exceptions exc idx []) (foldl patch out exc).
Proof.
  intros Hn Hidx Hexc. revert idx Hidx out.
  induction Hexc as [|[i v] exc [Hi Hv] Hexc IH]; intros idx Hidx out; cbn [get_exceptions put_exceptions length foldl].
  { apply reads_ret. }
  cbn [fst snd] in *. rewrite put_exceptions_app. autorewrite with sink. do 2 reads_step.
  assert (u32 (idx + u32 (i - idx)) = i) as Hidx'.
  { unfold u32. rewrite Zplus_mod_idemp_r. replace (idx + (i - idx)) with i by lia. apply Z.mod_small. lia. }
  rewrite Hidx'. reads_guard; [lia|]. apply IH. ulia.
Qed.

(** ** The packed run, read back *)

Lemma bits_shiftr_low x k : 0 ≤ k → x ≫ k = x / 2 ^ k.
Proof. intros. by apply Z.shiftr_div_pow2. Qed.

(** A value of at most 57 bits lies in the eight bytes at its byte offset. *)
Lemma unpack_value_spec bs w off :
  is_bytes bs → 0 ≤ w ≤ 32 → is_u64 off →
  unpack_value (little_endian_to_Z 8 (take 8 (drop (Z.to_nat (off ≫ 3)) bs))) off w =
    (little_endian_to_Z 8 bs ≫ off) `mod` 2 ^ w.
Proof.
  intros Hbs Hw Hoff. unfold unpack_value. rewrite low_mask_mod by done.
  assert (0 ≤ off ≫ 3) by (apply Z.shiftr_nonneg, Hoff).
  assert (Forall is_u8 (drop (Z.to_nat (off ≫ 3)) bs)) by by apply Forall_drop.
  rewrite le_to_Z_take, le_to_Z_drop by (done || lia). rewrite Z2Nat.id by done.
  change (Z.of_nat 8 * 8) with 64.
  assert (0 ≤ Z.land off 7 < 8) as Hr.
  { change 7 with (Z.ones 3). rewrite Z.land_ones by lia. apply Z.mod_pos_bound. lia. }
  assert (off = (off ≫ 3) * 8 + Z.land off 7) as Ho.
  { change 7 with (Z.ones 3). rewrite Z.land_ones, Z.shiftr_div_pow2 by lia.
    change (2 ^ 3) with 8. pose proof (Z.div_mod off 8). lia. }
  set (N := little_endian_to_Z 8 bs). rewrite <- !Z.land_ones by lia.
  rewrite Z.shiftr_land, Z.shiftr_shiftr by lia. rewrite <- Ho.
  rewrite u32_small.
  - bitwise i. rewrite <- andb_assoc. f_equal. destruct (decide (i < w)).
    + by rewrite !bool_decide_true by lia.
    + by rewrite (bool_decide_false (i < w)), andb_false_r by lia.
  - rewrite Z.land_ones by lia. pose proof (Z.mod_pos_bound (Z.land (N ≫ off) (Z.ones 64 ≫ Z.land off 7)) (2 ^ w)).
    assert (2 ^ w ≤ 2 ^ 32) by (apply Z.pow_le_mono_r; lia).
    assert (0 < 2 ^ w) by (apply Z.pow_pos_nonneg; lia). unfold is_u32. lia.
Qed.

Lemma unpack_spec_digits bs w ds :
  is_bytes bs → 0 < w ≤ 32 → Forall (λ d, 0 ≤ d < 2 ^ w) ds → zlen ds < 2 ^ 58 →
  little_endian_to_Z 8 bs = little_endian_to_Z w ds →
  unpack_spec bs w (length ds) 0 = ds.
Proof.
  intros Hbs Hw Hds Hn Hle. apply list_eq_same_length with (n := length ds); [done| |].
  { unfold unpack_spec. rewrite length_map, length_seqZ. lia. }
  intros i x y Hi Hx Hy. unfold unpack_spec in Hx.
  rewrite list_lookup_fmap, lookup_seqZ_lt in Hx by lia. injection Hx as <-.
  rewrite u64_small by (unfold is_u64; nia).
  rewrite unpack_value_spec; [|done|lia|unfold is_u64; nia]. rewrite Hle.
  rewrite (le_to_Z_lookup w ds i y) by (done || lia). do 2 f_equal. lia.
Qed.

Lemma reads_bitunpack ds w out :
  0 ≤ w ≤ 32 → Forall (λ d, 0 ≤ d < 2 ^ w) ds → zlen ds < 2 ^ 58 →
  out = bitpack ds w [] → reads (bitunpack (zlen ds) w) out ds.
Proof.
  intros Hw Hds Hn ->. unfold bitunpack. destruct (w =? 0) eqn:H0.
  { apply Z.eqb_eq in H0 as ->. unfold bitpack. cbn.
    replace (replicate _ 0) with ds; [apply reads_ret|]. rewrite Nat2Z.id. symmetry.
    apply replicate_as_elem_of. split; [done|]. intros d Hd. rewrite Forall_forall in Hds.
    specialize (Hds d Hd). change (2 ^ 0) with 1 in Hds. lia. }
  apply Z.eqb_neq in H0. destruct (bitpack_spec ds w []) as (bs & -> & Hbs & Hlen & Hle); [lia|done|].
  cbn [app]. rewrite (u64_small (w * zlen ds)), u64_small by (unfold is_u64; nia). rewrite <- Hlen.
  eapply reads_last; [by apply reads_get_bytes|]. apply reads_lift. rewrite Nat2Z.id.
  destruct (8 <=? zlen bs) eqn:H8.
  - apply Z.leb_le in H8. rewrite bitunpack_fast_spec by done. f_equal. apply unpack_spec_digits; (done || lia).
  - rewrite bitunpack_tail_spec by done. f_equal. apply unpack_spec_digits; (done || lia).
Qed.

(** Encode, then decode, for an array of at most [2^32] values. *)
Lemma reads_pfor_decode values :
  is_u32s values → zlen values < 2 ^ 32 →
  reads (pfor_decode (zlen values)) (pfor_bytes values) values.
Proof.
  intros Hv Hn. rewrite pfor_bytes_unfold. cbv zeta.
  pose proof (choose_width_u8 _ Hv) as [Hw8 Hw32]. set (w := choose_width values) in *.
  pose proof (split_exceptions_spec w 0 values (zlen values) Hv) as Hs.
  destruct (split_exceptions w 0 values) as [exc low]. cbn [fst snd].
  destruct Hs as (Hlen & Hexc & Hlow & Hwf & Hfold); [unfold is_u8 in *; lia..|].
  unfold pfor_decode. rewrite u32_small by (unfold is_u32; lia). reads_step.
  eapply reads_bind; [apply reads_get_varint32; unfold is_u32; lia|].
  eapply reads_bind; [rewrite <- Hlen; apply reads_bitunpack; (done || unfold is_u8 in *; lia)|].
  rewrite Nat2Z.id. specialize (Hfold [] eq_refl). cbn [app] in Hfold. rewrite <- Hfold.
  rewrite Hfold. rewrite <- Hfold at 2. apply reads_get_exceptions; [lia|ulia|done].
Qed.

(** ** Safety of the decoder *)

Lemma bitunpack_tail_shape base packed w k i l :
  bitunpack_tail base packed w k i = Ok l → length l = k ∧ is_u32s l.
Proof.
  revert i l. induction k as [|k IH]; intros i l; cbn [bitunpack_tail].
  - intros [= <-]. split; [done|constructor].
  - intros H. inv_bind H. injection H as <-. apply IH in E0 as [??].
    cbn [length]. split; [lia|]. constructor; [apply u32_range|done].
Qed.

Lemma bitunpack_fast_shape base packed w k i l :
  bitunpack_fast base packed w k i = Ok l → length l = k ∧ is_u32s l.
Proof.
  revert i l. induction k as [|k IH]; intros i l; cbn [bitunpack_fast].
  - intros [= <-]. split; [done|constructor].
  - destruct (_ <? _); [apply bitunpack_tail_shape|].
    intros H. inv_bind H. injection H as <-. apply IH in E0 as [??].
    cbn [length]. split; [lia|]. constructor; [apply u32_range|done].
Qed.

Lemma safe_bitunpack n w :
  0 ≤ n → safe_post (bitunpack n w) (λ l, zlen l = n ∧ is_u32s l).
Proof.
  intros Hn. unfold bitunpack. destruct (w =? 0).
  { apply safe_ret. rewrite length_replicate. split; [lia|]. apply Forall_replicate. ulia. }
  eapply safe_bind.
  { apply safe_get_bytes. apply Z.div_pos; [apply u64_range|lia]. }
  intros buf <-. apply safe_lift.
  - destruct (8 <=? zlen buf) eqn:H8; [apply bitunpack_fast_defined; lia|apply bitunpack_tail_defined].
  - intros l. destruct (8 <=? zlen buf); intros H;
      [apply bitunpack_fast_shape in H|apply bitunpack_tail_shape in H]; destruct H; split; (done || lia).
Qed.

Lemma safe_get_exceptions k n idx out :
  zlen out = n → is_u32s out →
  safe_post (get_exceptions k n idx out) (λ l, zlen l = n ∧ is_u32s l).
Proof.
  revert idx out. induction k as [|k IH]; intros idx out Hlen Hout; cbn [get_exceptions].
  { by apply safe_ret. }
  eapply safe_bind; [apply safe_get_varint32|]. intros d Hd.
  eapply safe_bind; [apply safe_get_varint32|]. intros v Hv.
  eapply safe_bind; [apply safe_return_if|]. intros [] _. apply IH.
  - by rewrite length_insert.
  - by apply Forall_insert.
Qed.

Lemma safe_pfor_decode n :
  0 ≤ n → safe_post (pfor_decode n) (λ out, zlen out = n ∧ is_u32s out).
Proof.
  intros Hn. unfold pfor_decode. eapply safe_bind; [apply safe_get_u8|]. intros w _.
  eapply safe_bind; [apply safe_get_varint32|]. intros n_exc _.
  eapply safe_bind; [by apply safe_bitunpack|]. intros out [Hlen Hout]. by apply safe_get_exceptions.
Qed.

Lemma put_exceptions_bytes exc prev :
  is_bytes (put_exceptions exc prev []) ∧ zlen (put_exceptions exc prev []) ≤ 20 * zlen exc.
Proof.
  revert prev. induction exc as [|e exc IH]; intros prev; cbn [put_exceptions]; [by split; [constructor|cbn]|].
  rewrite put_exceptions_app. destruct (IH e.1) as [Hb Hl]. autorewrite with sink. split; [auto with snii|].
  pose proof (encode_varint64_length_le (u32 (e.1 - prev))). pose proof (encode_varint64_length_le e.2). solve_len.
Qed.

(** A block is bytes, and no more than 24 of them per value. *)
Lemma pfor_bytes_bound values :
  is_u32s values → zlen values < 2 ^ 32 →
  is_bytes (pfor_bytes values) ∧ zlen (pfor_bytes values) ≤ 12 + 24 * zlen values.
Proof.
  intros Hv Hn. rewrite pfor_bytes_unfold. cbv zeta.
  pose proof (choose_width_u8 _ Hv) as [Hw8 Hw32]. set (w := choose_width values) in *.
  pose proof (split_exceptions_spec w 0 values (zlen values) Hv) as Hs.
  destruct (split_exceptions w 0 values) as [exc low]. cbn [fst snd].
  destruct Hs as (Hlen & Hexc & Hlow & Hwf & _); [unfold is_u8 in *; lia..|].
  destruct (put_exceptions_bytes exc 0) as [Heb Hel].
  assert (is_bytes (bitpack low w []) ∧ zlen (bitpack low w []) ≤ 4 * zlen values + 1) as [Hpb Hpl].
  { destruct (decide (w = 0)) as [->|?]; [unfold bitpack; cbn; by split; [constructor|lia]|].
    destruct (bitpack_spec low w []) as (bs & -> & Hbs & Hl & _); [unfold is_u8 in *; lia|done|].
    split; [done|]. cbn [app]. rewrite Hl, Hlen.
    assert (w * zlen values ≤ 32 * zlen values) by (apply Z.mul_le_mono_nonneg_r; lia). dlia. }
  pose proof (encode_varint64_length_le (u32 (zlen exc))). split.
  - repeat apply Forall_app_2; auto with snii.
  - solve_len.
Qed.

(** ** Properties *)

(** C28: every [uint32] array is read back from the bytes [pfor_encode] appended,
    wherever they stand in the buffer, and the cursor ends right behind them. *)
Theorem pfor_decode_encode values out post :
  is_u32s values → zlen values < 2 ^ 32 →
  pfor_decode (zlen values) (mkByteSource (pfor_encode values out ++ post) (length out)) =
    Ok (values, mkByteSource (pfor_encode values out ++ post) (length (pfor_encode values out))).
Proof.
  intros Hv Hn. rewrite pfor_encode_app. rewrite <- app_assoc, length_app.
  by apply reads_pfor_decode.
Qed.

(** C30: on arbitrary bytes [pfor_decode] either fails with a [Status] or fills
    exactly [n] values of 32 bits; no load leaves the packed run. *)
Theorem pfor_decode_safe n src :
  0 ≤ n → wf_source src →
  match pfor_decode n src with
  | Ok (out, src') => zlen out = n ∧ is_u32s out ∧ (pos_ src ≤ pos_ src' ≤ length (s_ src))%nat
  | Err _ => True
  | Undef => False
  end.
Proof.
  intros Hn Hsrc. pose proof (safe_pfor_decode n Hn src Hsrc) as H.
  destruct (pfor_decode n src) as [[out src']| |]; [|done|done].
  destruct H as ([??] & Hs & ? & Hwf). unfold wf_source in Hwf. rewrite Hs in Hwf. by split_and!.
Qed.

(** the chosen width minimises the estimated size over every width up to the
    widest value, with no overflow in the estimate. *)
Theorem choose_width_optimal v w :
  is_u32s v → zlen v < 2 ^ 58 → 0 ≤ w ≤ max_width v →
  (choose_width v * zlen v + 7) / 8 + 6 * width_exceptions v (choose_width v) ≤
    (w * zlen v + 7) / 8 + 6 * width_exceptions v w.
Proof.
  intros Hv Hn Hw. pose proof (max_width_range v Hv) as Hmax.
  assert (∀ w, 0 ≤ w ≤ 32 → width_cost v w = (w * zlen v + 7) / 8 + 6 * width_exceptions v w ∧
            width_cost v w < SIZE_MAX) as Hcost.
  { intros u Hu. unfold width_cost, SIZE_MAX.
    assert (0 ≤ width_exceptions v u ≤ zlen v).
    { unfold width_exceptions. pose proof (length_filter (λ x, u < bits_for x) v). lia. }
    rewrite (u64_small (u * zlen v)) by (unfold is_u64; nia).
    rewrite (u64_small (u * zlen v + 7)) by (unfold is_u64; nia).
    rewrite (u64_small (width_exceptions v u * 6)) by (unfold is_u64; lia).
    assert (0 ≤ (u * zlen v + 7) / 8 < 2 ^ 61) by (split; [apply Z.div_pos; nia|apply Z.div_lt_upper_bound; nia]).
    rewrite u64_small by (unfold is_u64; lia). lia. }
  pose proof (choose_width_range v Hv). 
  rewrite <- (proj1 (Hcost w ltac:(lia))), <- (proj1 (Hcost (choose_width v) ltac:(lia))).
  unfold choose_width. pose proof (choose_width_loop_spec v (seqZ 0 (max_width v + 1)) (max_width v) SIZE_MAX) as Hl.
  destruct Hl as [(_ & Hl)|(_ & _ & Hl)]; rewrite Forall_forall in Hl;
    specialize (Hl w); rewrite elem_of_seqZ in Hl; specialize (Hl ltac:(lia)); [|done].
  pose proof (Hcost w). lia.
Qed.

(** ** Witnesses *)

Lemma pfor_decode_encode_witness :
  pfor_decode 5 (mkByteSource (pfor_encode [1; 2; 3; 70000; 2] [9] ++ [8]) 1) =
    Ok ([1; 2; 3; 70000; 2],
        mkByteSource (pfor_encode [1; 2; 3; 70000; 2] [9] ++ [8])
          (length (pfor_encode [1; 2; 3; 70000; 2] [9]))).
Proof. apply (pfor_decode_encode [1; 2; 3; 70000; 2] [9] [8]); [auto 10 with snii|cbn; lia]. Defined.

Lemma pfor_decode_safe_witness :
  match pfor_decode 3 (mkByteSource [7; 0; 255; 255; 255] 0) with
  | Ok (out, src') => zlen out = 3 ∧ is_u32s out ∧ (0 ≤ pos_ src' ≤ 5)%nat
  | Err _ => True
  | Undef => False
  end.
Proof. apply (pfor_decode_safe 3 (mkByteSource [7; 0; 255; 255; 255] 0)); [lia|unfold wf_source; cbn; lia]. Defined.

Lemma choose_width_optimal_witness :
  let v := [1; 2; 3; 70000; 2] in
  (choose_width v * 5 + 7) / 8 + 6 * width_exceptions v (choose_width v) ≤
    (17 * 5 + 7) / 8 + 6 * width_exceptions v 17.
Proof. apply (choose_width_optimal [1; 2; 3; 70000; 2] 17); [auto 10 with snii|cbn; lia|vm_compute; split; discriminate]. Defined.
