(* ===== verification/SectionFramer.v ===== *)
(** * SectionFramer: checksummed sections.

    [encoding/section_framer.h] and [encoding/section_framer.cpp]:
    [type | varint64 len | payload | fixed32 crc32c(type, len, payload)]. *)

From S2P Require Import Prelude Status Varint ByteIO Crc32c.

#[local] Open Scope Z_scope.

Record FramedSection := mkFramedSection { type : Z; payload : Slice }.

Definition write (sink : ByteSink) (section_type : Z) (payload : Slice) : ByteSink :=
  let framed := [] |> put_u8 section_type |> put_varint64 (zlen payload) |> put_bytes payload in
  let crc := crc32c framed in
  sink |> put_bytes framed |> put_fixed32 crc.

Definition read : reader FramedSection :=
  start ← get_position;
  type ← get_u8;
  len ← get_varint64;
  payload ← get_bytes len;
  pos ← get_position;
  let framed_len := pos - start in
  stored ← get_fixed32;
  covered ← slice_from start framed_len;
  _ ← return_if (negb (crc32c covered =? stored)) (Corruption "section crc mismatch");
  mret (mkFramedSection type payload).

(** ** Layout *)

Definition framed_bytes (t : Z) (p : Slice) : bytes := [t] ++ encode_varint64 (zlen p) ++ p.
Definition section_bytes (t : Z) (p : Slice) : bytes :=
  framed_bytes t p ++ fixed32 (crc32c (framed_bytes t p)).

Lemma write_app sink t p : write sink t p = sink ++ section_bytes t p.
Proof. unfold write, section_bytes, framed_bytes. autorewrite with sink. done. Qed.
#[export] Hint Rewrite write_app : sink.

Lemma framed_bytes_is_bytes t p : is_u8 t → is_bytes p → is_bytes (framed_bytes t p).
Proof. intros. unfold framed_bytes. auto with snii. Qed.
#[export] Hint Resolve framed_bytes_is_bytes : snii.

Lemma section_bytes_is_bytes t p : is_u8 t → is_bytes p → is_bytes (section_bytes t p).
Proof. intros. unfold section_bytes. auto with snii. Qed.
#[export] Hint Resolve section_bytes_is_bytes : snii.

(** The reader on [type | len | p | crc] for any stored checksum. *)
Lemma read_section t p stored pre post :
  is_u64 (zlen p) → is_u32 stored →
  let s := pre ++ (framed_bytes t p ++ fixed32 stored) ++ post in
  read (mkByteSource s (length pre)) =
    if crc32c (framed_bytes t p) =? stored
    then Ok (mkFramedSection t p,
             mkByteSource s (length pre + length (framed_bytes t p ++ fixed32 stored)))
    else Err (Corruption "section crc mismatch").
Proof.
  intros Hp Hst s. subst s. set (c := crc32c (framed_bytes t p)). unfold read.
  unfold mbind at 1, reader_bind at 1. cbn [get_position pos_].
  unfold framed_bytes at 1. rewrite <- !app_assoc.
  rewrite (bind_reads get_u8 _ pre [t] _ t) by apply reads_get_u8.
  rewrite (bind_reads get_varint64 _ _ _ _ (zlen p)) by by apply reads_get_varint64.
  rewrite (bind_reads (get_bytes (zlen p)) _ _ p _ p) by by apply reads_get_bytes.
  unfold mbind at 1, reader_bind at 1. cbn [get_position pos_].
  rewrite (bind_reads get_fixed32 _ _ _ _ stored) by by apply reads_get_fixed32.
  set (src := mkByteSource _ _).
  assert (s_ src = pre ++ framed_bytes t p ++ fixed32 stored ++ post) as Hs.
  { subst src. cbn [s_]. unfold framed_bytes. by rewrite <- !app_assoc. }
  unfold mbind at 1, reader_bind at 1. unfold slice_from at 1. rewrite Hs.
  replace (_ - Z.of_nat (length pre)) with (zlen (framed_bytes t p))
    by (unfold framed_bytes; rewrite !length_app; cbn [length]; lia).
  rewrite subslice_mid. cbn [mbind result_bind]. fold c.
  unfold mbind, reader_bind, return_if. destruct (c =? stored); [|done].
  unfold mret, reader_ret. subst src. do 2 f_equal. unfold framed_bytes.
  f_equal; [by rewrite <- !app_assoc|]. rewrite !length_app. cbn [length]. lia.
Qed.

Lemma reads_section t p :
  is_u8 t → is_bytes p → is_u64 (zlen p) →
  reads read (section_bytes t p) (mkFramedSection t p).
Proof.
  intros Ht Hp Hlen pre post. unfold section_bytes.
  rewrite read_section by auto with snii. by rewrite Z.eqb_refl.
Qed.
#[export] Hint Resolve reads_section : reads.

Lemma safe_read : safe_post read (λ fs, is_u64 (zlen (payload fs))).
Proof.
  apply safe_runs. intros src Hsrc. unfold read.
  eapply runs_bind; [by apply runs_get_position|]. intros start s1 _ _ Hw1 [-> ->].
  eapply runs_bind; [by apply runs_safe, Hw1; apply safe_get_u8|]. intros t s2 Hs2 Hp2 Hw2 _.
  eapply runs_bind; [by apply runs_safe, Hw2; apply safe_get_varint64|]. intros len s3 Hs3 Hp3 Hw3 Hlen.
  eapply runs_bind; [by apply runs_get_bytes; [apply Hlen|]|]. intros p s4 Hs4 Hp4 Hw4 (Hpl & _ & _).
  eapply runs_bind; [by apply runs_get_position|]. intros pos s5 _ _ Hw5 [-> ->].
  eapply runs_bind; [by apply runs_safe, Hw5; apply safe_get_fixed32|]. intros st s6 Hs6 Hp6 Hw6 _.
  eapply runs_bind; [apply runs_slice_from; (done || lia)|]. intros cov s7 _ _ Hw7 [-> ->].
  eapply runs_bind; [by apply runs_return_if|]. intros [] s8 _ _ Hw8 _.
  apply runs_ret; [done|]. cbn. by rewrite Hpl.
Qed.
#[export] Hint Resolve safe_read : safe.

Lemma advances_read : advances read.
Proof.
  unfold read. apply advances_bind_r; [eapply safe_forward, safe_get_position|]. intros start.
  apply advances_bind_forward; [eapply safe_forward, safe_get_u8|apply advances_get_u8|]. intros t.
  apply forward_bind; [eapply safe_forward, safe_get_varint64|]. intros len.
  apply forward_bind; [apply forward_get_bytes|]. intros p.
  apply forward_bind; [eapply safe_forward, safe_get_position|]. intros pos.
  apply forward_bind; [eapply safe_forward, safe_get_fixed32|]. intros stored.
  apply forward_bind; [apply forward_slice_from|]. intros c.
  apply forward_bind; [apply forward_return_if|]. intros _. apply forward_ret.
Qed.

(** ** Properties *)

(** a section is read back from the bytes [write] appended, and the cursor
    ends right behind its checksum. *)
Theorem section_roundtrip sink t p post :
  is_u8 t → is_bytes p → is_u64 (zlen p) →
  read (mkByteSource (write sink t p ++ post) (length sink)) =
    Ok (mkFramedSection t p, mkByteSource (write sink t p ++ post) (length (write sink t p))).
Proof.
  intros Ht Hp Hlen. rewrite write_app, <- app_assoc, length_app. by apply reads_section.
Qed.

(** C27: a section whose payload was corrupted within four consecutive bytes is
    rejected: the reader never hands out the damaged payload. *)
Theorem section_rejects_burst t pre v post :
  is_u8 t → is_bytes pre → is_bytes v → is_bytes post →
  is_u64 (zlen (pre ++ v ++ post)) → (length v ≤ 4)%nat →
  ∃ hdr crc, write [] t (pre ++ v ++ post) = hdr ++ pre ++ v ++ post ++ crc ∧
    ∀ w before after, is_bytes w → length w = length v → w ≠ v →
      read (mkByteSource (before ++ (hdr ++ pre ++ w ++ post ++ crc) ++ after) (length before)) =
        Err (Corruption "section crc mismatch").
Proof.
  intros Ht Hpre Hv Hpost Hlen H4. rewrite write_app. unfold section_bytes.
  set (crc := crc32c (framed_bytes t (pre ++ v ++ post))).
  exists ([t] ++ encode_varint64 (zlen (pre ++ v ++ post))), (fixed32 crc). split.
  { unfold framed_bytes. by rewrite <- !app_assoc. }
  intros w before after Hw Hlw Hne.
  assert (zlen (pre ++ w ++ post) = zlen (pre ++ v ++ post)) as Hz.
  { rewrite !length_app. lia. }
  pose proof (read_section t (pre ++ w ++ post) crc before after) as Hr. cbv zeta in Hr.
  rewrite <- Hz.
  replace (([t] ++ encode_varint64 (zlen (pre ++ w ++ post))) ++ pre ++ w ++ post ++ fixed32 crc)
    with (framed_bytes t (pre ++ w ++ post) ++ fixed32 crc)
    by (unfold framed_bytes; by rewrite <- !app_assoc).
  rewrite Hr; [|by rewrite Hz|subst crc; auto 6 with snii].
  rewrite (proj2 (Z.eqb_neq _ _)); [done|]. subst crc. unfold framed_bytes. rewrite Hz.
  rewrite !(app_assoc [t]), !(app_assoc ([t] ++ _) pre).
  apply (crc32c_burst (([t] ++ encode_varint64 _) ++ pre) w v post); auto 6 with snii; lia.
Qed.

(** ** Witnesses *)

Lemma section_roundtrip_witness :
  read (mkByteSource (write [1] 7 [10; 20] ++ [5]) 1) =
    Ok (mkFramedSection 7 [10; 20], mkByteSource (write [1] 7 [10; 20] ++ [5]) 9).
Proof. apply (section_roundtrip [1] 7 [10; 20] [5]); [auto with snii..|split; cbn; lia]. Defined.

Lemma section_rejects_burst_witness :
  ∃ hdr crc, write [] 3 ([1] ++ [2; 3] ++ [4]) = hdr ++ [1] ++ [2; 3] ++ [4] ++ crc ∧
    ∀ w before after, is_bytes w → length w = 2%nat → w ≠ [2; 3] →
      read (mkByteSource (before ++ (hdr ++ [1] ++ w ++ [4] ++ crc) ++ after) (length before)) =
        Err (Corruption "section crc mismatch").
Proof. apply (section_rejects_burst 3 [1] [2; 3] [4]); [auto with snii..|split; cbn; lia|cbn; lia]. Defined.
