(* ===== verification/FormatConstants.v ===== *)
(** * FormatConstants: the container's magic numbers, enumerations and flags.

    [format/format_constants.h]. *)

From S2P Require Import Prelude.

#[local] Open Scope Z_scope.

Definition kContainerMagic : Z := 0x49494E53.
Definition kTailMagic : Z := 0x4C494154.
Definition kFormatVersion : Z := 1.
Definition kMinReaderVersion : Z := 1.
Definition kMetaFormatVersion : Z := 1.

(** [enum class SectionType : uint8_t], with [static_cast<uint8_t>]. *)
Inductive SectionType :=
  kStatsBlock | kSampledTermIndex | kDictBlockDirectory | kXFilter | kSectionRefs
  | kPerIndexMetaHeader | kLogicalIndexDirectory | kTailMetaHeader | kFeatureBits.

Definition section_type_u8 (t : SectionType) : Z :=
  match t with
  | kStatsBlock => 1 | kSampledTermIndex => 2 | kDictBlockDirectory => 3 | kXFilter => 4
  | kSectionRefs => 5 | kPerIndexMetaHeader => 6 | kLogicalIndexDirectory => 7
  | kTailMetaHeader => 8 | kFeatureBits => 9
  end.

Inductive IndexConfig := kDocsOnly | kDocsPositions | kDocsPositionsScoring | kPositionsOffsets.
Inductive IndexTier := kT1 | kT2 | kT3.

#[export] Instance IndexConfig_eq_dec : EqDecision IndexConfig.
Proof. solve_decision. Defined.
#[export] Instance IndexTier_eq_dec : EqDecision IndexTier.
Proof. solve_decision. Defined.

Definition index_config_u8 (c : IndexConfig) : Z :=
  match c with
  | kDocsOnly => 0 | kDocsPositions => 1 | kDocsPositionsScoring => 2 | kPositionsOffsets => 3
  end.
Definition tier_u8 (t : IndexTier) : Z := match t with kT1 => 1 | kT2 => 2 | kT3 => 3 end.

Definition tier_of (cfg : IndexConfig) : IndexTier :=
  if decide (cfg = kDocsOnly) then kT1 else if decide (cfg = kDocsPositions) then kT2 else kT3.
Definition has_positions (cfg : IndexConfig) : bool := bool_decide (cfg ≠ kDocsOnly).
Definition has_scoring (cfg : IndexConfig) : bool := bool_decide (cfg = kDocsPositionsScoring).

(** [namespace dict_flags] *)
Definition kKind : Z := 1.
Definition kEnc : Z := 2.
Definition kHasSb : Z := 4.
Definition kHasChampion : Z := 8.
Definition kOffsetsRef : Z := 16.

Inductive DictEntryKind := kPodRef | kInline.
Inductive DictEntryEnc := kSlim | kWindowed.
#[export] Instance DictEntryKind_eq_dec : EqDecision DictEntryKind.
Proof. solve_decision. Defined.
#[export] Instance DictEntryEnc_eq_dec : EqDecision DictEntryEnc.
Proof. solve_decision. Defined.

(** [enum class PrxCodec : uint8_t] *)
Definition PrxCodec_kRaw : Z := 0.
Definition PrxCodec_kZstd : Z := 1.
Definition PrxCodec_kPfor : Z := 2.

Definition kFrqBaseUnit : Z := 256.
Definition kSlimDfThreshold : Z := 512.
Definition kDefaultInlineThreshold : Z := 256.
Definition kAdaptiveWindowDfThreshold : Z := 8192.
Definition kAdaptiveWindowDocs : Z := 1024.
Definition kDefaultTargetDictBlockBytes : Z := 64 * 1024.
