(* ===== verification/TailPointer.v ===== *)
(** * TailPointer: the fixed footer of a container.

    [format/tail_pointer.h] and [format/tail_pointer.cpp]. The decoder writes
    the fields of its out-parameter while it parses, before the checksum is
    compared, so [decode_tail_pointer] returns the object it leaves together
    with the [Status]: [out_reader] threads both. *)

From S2P Require Import Prelude Status Varint ByteIO Crc32c FormatConstants.

#[local] Open Scope Z_scope.

Record TailPointer := mkTailPointer {
  meta_region_offset : Z;
  meta_region_length : Z;
  hot_off : Z;
  meta_region_checksum : Z;
  bootstrap_header_checksum : Z
}.

Definition wf_tail_pointer (tp : TailPointer) : Prop :=
  is_u64 (meta_region_offset tp) ∧ is_u64 (meta_region_length tp) ∧ is_u64 (hot_off tp) ∧
  is_u32 (meta_region_checksum tp) ∧ is_u32 (bootstrap_header_checksum tp).

(** [TailPointer tp;] *)
Definition default_tail_pointer : TailPointer := mkTailPointer 0 0 0 0 0.

Definition kFixedSize : Z := 4 + 2 + 3 * 8 + 2 * 4 + 1 + 4.
Definition kChecksumCoverage : Z := kFixedSize - 4.
Definition tail_pointer_size : Z := kFixedSize.

Definition serialize_covered (tp : TailPointer) (covered : ByteSink) : ByteSink :=
  covered
  |> put_fixed32 kTailMagic
  |> put_fixed16 kFormatVersion
  |> put_fixed64 (meta_region_offset tp)
  |> put_fixed64 (meta_region_length tp)
  |> put_fixed64 (hot_off tp)
  |> put_fixed32 (meta_region_checksum tp)
  |> put_fixed32 (bootstrap_header_checksum tp)
  |> put_u8 (u8 kFixedSize).

Definition encode_tail_pointer (tp : TailPointer) (sink : ByteSink) : result ByteSink :=
  let covered := serialize_covered tp [] in
  if negb (zlen covered =? kChecksumCoverage) then
    Err (Internal "tail_pointer: covered size mismatch")
  else
    let tail_checksum := crc32c covered in
    Ok (sink |> put_bytes covered |> put_fixed32 tail_checksum).

(** ** Decoding into an object *)

Definition out_reader (A : Type) : Type :=
  ByteSource → TailPointer → result (A * ByteSource) * TailPointer.

#[export] Instance out_reader_ret : MRet out_reader := λ A a src out, (Ok (a, src), out).
#[export] Instance out_reader_bind : MBind out_reader := λ A B k r src out,
  match r src out with
  | (Ok (a, src'), out') => k a src' out'
  | (Err st, out') => (Err st, out')
  | (Undef, out') => (Undef, out')
  end.

(** [SNII_RETURN_IF_ERROR(src.get(&local))] and [...(&out->field)]. *)
Definition get_local {A} (r : reader A) : out_reader A := λ src out, (r src, out).
Definition get_into {A} (r : reader A) (set : A → TailPointer → TailPointer) : out_reader unit :=
  λ src out,
    match r src with
    | Ok (a, src') => (Ok (tt, src'), set a out)
    | Err st => (Err st, out)
    | Undef => (Undef, out)
    end.

Definition set_offset v tp := mkTailPointer v (meta_region_length tp) (hot_off tp)
  (meta_region_checksum tp) (bootstrap_header_checksum tp).
Definition set_length v tp := mkTailPointer (meta_region_offset tp) v (hot_off tp)
  (meta_region_checksum tp) (bootstrap_header_checksum tp).
Definition set_hot_off v tp := mkTailPointer (meta_region_offset tp) (meta_region_length tp) v
  (meta_region_checksum tp) (bootstrap_header_checksum tp).
Definition set_meta_checksum v tp := mkTailPointer (meta_region_offset tp) (meta_region_length tp)
  (hot_off tp) v (bootstrap_header_checksum tp).
Definition set_bootstrap_checksum v tp := mkTailPointer (meta_region_offset tp)
  (meta_region_length tp) (hot_off tp) (meta_region_checksum tp) v.

Definition decode_body (covered : Slice) : out_reader unit :=
  magic ← get_local get_fixed32;
  _ ← get_local (return_if (negb (magic =? kTailMagic)) (Corruption "tail_pointer: bad magic"));
  _ ← get_local get_fixed16;
  _ ← get_into get_fixed64 set_offset;
  _ ← get_into get_fixed64 set_length;
  _ ← get_into get_fixed64 set_hot_off;
  _ ← get_into get_fixed32 set_meta_checksum;
  _ ← get_into get_fixed32 set_bootstrap_checksum;
  on_disk_size ← get_local get_u8;
  _ ← get_local (return_if (negb (on_disk_size =? kFixedSize))
                   (Corruption "tail_pointer: embedded size mismatch"));
  tail_checksum ← get_local get_fixed32;
  get_local (return_if (negb (tail_checksum =? crc32c covered))
               (Corruption "tail_pointer: tail_checksum mismatch")).

Definition decode_tail_pointer (last_bytes : Slice) (out : TailPointer) : result unit * TailPointer :=
  if negb (zlen last_bytes =? kFixedSize) then
    (Err (Corruption "tail_pointer: input is not the fixed size"), out)
  else
    match subslice last_bytes 0 kChecksumCoverage with
    | Ok covered =>
        let '(r, out') := decode_body covered (source last_bytes) out in
        (('(u, _) ← r; Ok u), out')
    | Err st => (Err st, out)
    | Undef => (Undef, out)
    end.

(** ** Layout *)

Definition covered_bytes (magic version : Z) (tp : TailPointer) (size : Z) : bytes :=
  fixed32 magic ++ fixed16 version ++ fixed64 (meta_region_offset tp) ++
  fixed64 (meta_region_length tp) ++ fixed64 (hot_off tp) ++ fixed32 (meta_region_checksum tp) ++
  fixed32 (bootstrap_header_checksum tp) ++ [size].

Definition tail_pointer_bytes (version : Z) (tp : TailPointer) : bytes :=
  let covered := covered_bytes kTailMagic version tp kFixedSize in
  covered ++ fixed32 (crc32c covered).

Lemma covered_bytes_length magic version tp size : length (covered_bytes magic version tp size) = 39%nat.
Proof. unfold covered_bytes. by rewrite !length_app, !fixed64_length, !fixed32_length, fixed16_length. Qed.

Lemma covered_bytes_is_bytes magic version tp size :
  is_u8 size → is_bytes (covered_bytes magic version tp size).
Proof. intros. unfold covered_bytes. auto 12 with snii. Qed.

Lemma encode_tail_pointer_app tp sink :
  encode_tail_pointer tp sink = Ok (sink ++ tail_pointer_bytes kFormatVersion tp).
Proof.
  unfold encode_tail_pointer.
  assert (serialize_covered tp [] = covered_bytes kTailMagic kFormatVersion tp kFixedSize) as ->.
  { unfold serialize_covered, covered_bytes. autorewrite with sink. done. }
  rewrite covered_bytes_length. cbn [negb]. autorewrite with sink. done.
Qed.

(** Any 43 bytes are the nine fields. *)
Lemma tail_layout_cover s :
  is_bytes s → zlen s = kFixedSize →
  ∃ magic version tp size stored,
    is_u32 magic ∧ is_u16 version ∧ wf_tail_pointer tp ∧ is_u8 size ∧ is_u32 stored ∧
    s = covered_bytes magic version tp size ++ fixed32 stored.
Proof.
  unfold kFixedSize. intros Hs Hlen.
  destruct (fixed32_cover s) as (magic & s1 & ? & -> & Hs1 & Hl1); [done|lia|].
  destruct (fixed16_cover s1) as (version & s2 & ? & -> & Hs2 & Hl2); [done|lia|].
  destruct (fixed64_cover s2) as (a & s3 & ? & -> & Hs3 & Hl3); [done|lia|].
  destruct (fixed64_cover s3) as (b & s4 & ? & -> & Hs4 & Hl4); [done|lia|].
  destruct (fixed64_cover s4) as (c & s5 & ? & -> & Hs5 & Hl5); [done|lia|].
  destruct (fixed32_cover s5) as (d & s6 & ? & -> & Hs6 & Hl6); [done|lia|].
  destruct (fixed32_cover s6) as (e & s7 & ? & -> & Hs7 & Hl7); [done|lia|].
  destruct Hs7 as [|size s8 ? Hs8]; [cbn [length] in *; lia|].
  destruct (fixed32_cover s8) as (stored & s9 & ? & -> & Hs9 & Hl9); [done|cbn [length] in *; lia|].
  destruct s9; [|cbn [length] in *; lia].
  exists magic, version, (mkTailPointer a b c d e), size, stored. unfold covered_bytes. cbn.
  rewrite !app_nil_r. unfold wf_tail_pointer. cbn. by split_and!.
Qed.

(** ** Stepping the decoder over its layout *)

Lemma bind_get_local {A B} (r : reader A) (k : A → out_reader B) pre bs post a out :
  reads r bs a →
  (get_local r ≫= k) (mkByteSource (pre ++ bs ++ post) (length pre)) out =
    k a (mkByteSource ((pre ++ bs) ++ post) (length (pre ++ bs))) out.
Proof.
  intros Hr. unfold mbind, out_reader_bind, get_local. rewrite Hr. by rewrite <- app_assoc, length_app.
Qed.

Lemma bind_get_into {A B} (r : reader A) set (k : unit → out_reader B) pre bs post a out :
  reads r bs a →
  (get_into r set ≫= k) (mkByteSource (pre ++ bs ++ post) (length pre)) out =
    k tt (mkByteSource ((pre ++ bs) ++ post) (length (pre ++ bs))) (set a out).
Proof.
  intros Hr. unfold mbind, out_reader_bind, get_into. rewrite Hr. by rewrite <- app_assoc, length_app.
Qed.

Lemma bind_get_local_source {A B} (r : reader A) (k : A → out_reader B) bs post a out :
  reads r bs a →
  (get_local r ≫= k) (source (bs ++ post)) out = k a (mkByteSource (bs ++ post) (length bs)) out.
Proof. intros Hr. exact (bind_get_local r k [] bs post a out Hr). Qed.

(** The outcome on every 43-byte input, by the first check that fails. *)
Lemma decode_tail_pointer_layout magic version tp size stored out :
  is_u32 magic → is_u16 version → wf_tail_pointer tp → is_u8 size → is_u32 stored →
  let covered := covered_bytes magic version tp size in
  decode_tail_pointer (covered ++ fixed32 stored) out =
    if negb (magic =? kTailMagic) then (Err (Corruption "tail_pointer: bad magic"), out)
    else if negb (size =? kFixedSize) then (Err (Corruption "tail_pointer: embedded size mismatch"), tp)
    else if negb (stored =? crc32c covered) then
      (Err (Corruption "tail_pointer: tail_checksum mismatch"), tp)
    else (Ok tt, tp).
Proof.
  intros Hm Hv (Ha & Hb & Hc & Hd & He) Hs Hst covered. unfold decode_tail_pointer.
  rewrite length_app, fixed32_length. subst covered. set (covered := covered_bytes _ _ _ _).
  assert (length covered = 39%nat) as Hlen by apply covered_bytes_length. rewrite Hlen.
  change (Z.of_nat (39 + 4) =? kFixedSize) with true. cbn [negb].
  assert (subslice (covered ++ fixed32 stored) 0 kChecksumCoverage = Ok covered) as ->.
  { pose proof (subslice_mid [] covered (fixed32 stored)) as H. rewrite Hlen in H. exact H. }
  unfold decode_body. subst covered. unfold covered_bytes at 2. rewrite <- !app_assoc.
  set (covered := covered_bytes _ _ _ _).
  rewrite (bind_get_local_source get_fixed32 _ _ _ magic) by by apply reads_get_fixed32.
  destruct (negb (magic =? kTailMagic)) eqn:Hmagic; [done|].
  unfold mbind at 1, out_reader_bind at 1. cbn [get_local return_if].
  rewrite (bind_get_local get_fixed16 _ _ _ _ version) by by apply reads_get_fixed16.
  rewrite (bind_get_into get_fixed64 set_offset _ _ _ _ (meta_region_offset tp)) by by apply reads_get_fixed64.
  rewrite (bind_get_into get_fixed64 set_length _ _ _ _ (meta_region_length tp)) by by apply reads_get_fixed64.
  rewrite (bind_get_into get_fixed64 set_hot_off _ _ _ _ (hot_off tp)) by by apply reads_get_fixed64.
  rewrite (bind_get_into get_fixed32 set_meta_checksum _ _ _ _ (meta_region_checksum tp)) by by apply reads_get_fixed32.
  rewrite (bind_get_into get_fixed32 set_bootstrap_checksum _ _ _ _ (bootstrap_header_checksum tp)) by by apply reads_get_fixed32.
  rewrite (bind_get_local get_u8 _ _ [size] _ size) by apply reads_get_u8.
  replace (set_bootstrap_checksum _ _) with tp by (by destruct tp).
  destruct (negb (size =? kFixedSize)) eqn:Hsize; [done|].
  unfold mbind at 1, out_reader_bind at 1. cbn [get_local return_if].
  rewrite <- (app_nil_r (fixed32 stored)).
  rewrite (bind_get_local get_fixed32 _ _ _ _ stored) by by apply reads_get_fixed32.
  unfold get_local, return_if. by destruct (negb (stored =? crc32c covered)).
Qed.

(** ** Properties *)

(** the 43 bytes the decoder accepts are exactly the encodings of the tail
    pointer it fills in, for some format version (which it does not check). *)
Theorem decode_tail_pointer_exact s out tp :
  is_bytes s →
  decode_tail_pointer s out = (Ok tt, tp) ↔
  ∃ version, is_u16 version ∧ wf_tail_pointer tp ∧ s = tail_pointer_bytes version tp.
Proof.
  intros Hs. split.
  - intros H. destruct (decide (zlen s = kFixedSize)) as [Hlen|Hlen].
    2: { unfold decode_tail_pointer in H. rewrite (proj2 (Z.eqb_neq _ _)) in H by done. done. }
    destruct (tail_layout_cover s Hs Hlen) as (magic & version & tp' & size & stored & ? & ? & ? & ? & ? & ->).
    rewrite decode_tail_pointer_layout in H by done.
    destruct (magic =? kTailMagic) eqn:Hm; [|done].
    destruct (size =? kFixedSize) eqn:Hz; [|done].
    destruct (stored =? _) eqn:Hst; [|done]. injection H as <-.
    apply Z.eqb_eq in Hm, Hz, Hst. exists version. split_and!; [done..|].
    unfold tail_pointer_bytes. congruence.
  - intros (version & ? & ? & ->). unfold tail_pointer_bytes.
    set (covered := covered_bytes _ _ _ _).
    assert (is_u8 kFixedSize) by by vm_compute. assert (is_u32 kTailMagic) by by vm_compute.
    assert (is_u32 (crc32c covered)) by (apply crc32c_range; by apply covered_bytes_is_bytes).
    subst covered. rewrite decode_tail_pointer_layout by done. by rewrite !Z.eqb_refl.
Qed.

(** the footer the writer appends is the one the reader decodes. *)
Theorem tail_pointer_roundtrip tp sink out :
  wf_tail_pointer tp →
  ∃ bs, encode_tail_pointer tp sink = Ok (sink ++ bs) ∧ zlen bs = tail_pointer_size ∧
    decode_tail_pointer bs out = (Ok tt, tp).
Proof.
  intros Htp. exists (tail_pointer_bytes kFormatVersion tp). rewrite encode_tail_pointer_app.
  split_and!; [done| |].
  - unfold tail_pointer_bytes. by rewrite length_app, covered_bytes_length, fixed32_length.
  - assert (is_u8 kFixedSize) by by vm_compute. assert (is_u32 kTailMagic) by by vm_compute.
    assert (is_u16 kFormatVersion) by by vm_compute.
    unfold tail_pointer_bytes. set (covered := covered_bytes _ _ _ _).
    assert (is_u32 (crc32c covered)) by (apply crc32c_range; by apply covered_bytes_is_bytes).
    subst covered. rewrite decode_tail_pointer_layout by done. by rewrite !Z.eqb_refl.
Qed.

(** The comment of the header says the checksum is verified before [out] is
    filled; a footer with a bad checksum leaves its fields in [out]. *)
Example decode_tail_pointer_fills_before_checksum :
  let covered := covered_bytes kTailMagic 1 (mkTailPointer 77 5 0 0 0) kFixedSize in
  decode_tail_pointer (covered ++ fixed32 0) default_tail_pointer =
    (Err (Corruption "tail_pointer: tail_checksum mismatch"), mkTailPointer 77 5 0 0 0).
Proof. vm_compute. reflexivity. Qed.

(** ** Witnesses *)

Lemma tail_pointer_roundtrip_witness :
  ∃ bs, encode_tail_pointer (mkTailPointer 100 20 0 7 9) [1] = Ok ([1] ++ bs) ∧
    zlen bs = 43 ∧ decode_tail_pointer bs default_tail_pointer = (Ok tt, mkTailPointer 100 20 0 7 9).
Proof. apply tail_pointer_roundtrip. unfold wf_tail_pointer. cbn. ulia. Defined.

Lemma decode_tail_pointer_exact_witness :
  ∃ version, is_u16 version ∧ wf_tail_pointer (mkTailPointer 1 2 3 4 5) ∧
    tail_pointer_bytes 9 (mkTailPointer 1 2 3 4 5) = tail_pointer_bytes version (mkTailPointer 1 2 3 4 5).
Proof.
  apply (decode_tail_pointer_exact _ default_tail_pointer).
  - unfold tail_pointer_bytes. apply Forall_app_2; [|auto with snii]. apply covered_bytes_is_bytes. by vm_compute.
  - vm_compute. reflexivity.
Defined.
