(* ===== verification/BootstrapHeader.v ===== *)
(** * BootstrapHeader: the fixed header of a container.

    [format/bootstrap_header.h] and [format/bootstrap_header.cpp]. The null
    checks of the two functions are not modelled: the sink and the
    out-parameter are values here. *)

From S2P Require Import Prelude Status Varint ByteIO Crc32c FormatConstants.

#[local] Open Scope Z_scope.

Record BootstrapHeader := mkBootstrapHeader {
  magic : Z;
  format_version : Z;
  min_reader_version : Z;
  flags : Z;
  header_length : Z;
  tail_pointer_size : Z
}.

Definition wf_bootstrap_header (h : BootstrapHeader) : Prop :=
  is_u32 (magic h) ∧ is_u16 (format_version h) ∧ is_u16 (min_reader_version h) ∧
  is_u32 (flags h) ∧ is_u8 (tail_pointer_size h).

Definition kBootstrapHeaderSize : Z := 4 + 2 + 2 + 4 + 4 + 1 + 4.
Definition kChecksumCoverage : Z := kBootstrapHeaderSize - 4.

Definition encode_fields (header : BootstrapHeader) (sink : ByteSink) : ByteSink :=
  sink
  |> put_fixed32 (magic header)
  |> put_fixed32 (Z.lor (u32 (min_reader_version header ≪ 16)) (format_version header))
  |> put_fixed32 (flags header)
  |> put_fixed32 kBootstrapHeaderSize
  |> put_u8 (tail_pointer_size header).

Definition encode_bootstrap_header (header : BootstrapHeader) (sink : ByteSink) : result ByteSink :=
  let fields := encode_fields header [] in
  let checksum := crc32c fields in
  Ok (sink |> put_bytes fields |> put_fixed32 checksum).

Definition decode_body (data : Slice) : reader BootstrapHeader :=
  magic ← get_fixed32;
  version_pair ← get_fixed32;
  flags ← get_fixed32;
  header_length ← get_fixed32;
  tail_pointer_size ← get_u8;
  stored_checksum ← get_fixed32;
  _ ← return_if (negb (magic =? kContainerMagic))
        (Corruption "bootstrap_header: bad container magic");
  covered ← lift (subslice data 0 kChecksumCoverage);
  _ ← return_if (negb (crc32c covered =? stored_checksum))
        (Corruption "bootstrap_header: checksum mismatch");
  let min_reader_version := u16 (Z.land (version_pair ≫ 16) 0xFFFF) in
  _ ← return_if (kFormatVersion <? min_reader_version)
        (Unsupported "bootstrap_header: container requires a newer reader version");
  mret (mkBootstrapHeader magic (u16 (Z.land version_pair 0xFFFF)) min_reader_version flags
          header_length tail_pointer_size).

Definition decode_bootstrap_header (data : Slice) : result BootstrapHeader :=
  if negb (zlen data =? kBootstrapHeaderSize) then
    Err (Corruption "bootstrap_header: wrong header size")
  else run_reader (decode_body data) data.

(** ** Layout *)

Definition fields_bytes (m pair f len tps : Z) : bytes :=
  fixed32 m ++ fixed32 pair ++ fixed32 f ++ fixed32 len ++ [tps].

Lemma fields_bytes_length m pair f len tps : length (fields_bytes m pair f len tps) = 17%nat.
Proof. unfold fields_bytes. by rewrite !length_app, !fixed32_length. Qed.

Lemma fields_bytes_is_bytes m pair f len tps : is_u8 tps → is_bytes (fields_bytes m pair f len tps).
Proof. intros. unfold fields_bytes. auto 10 with snii. Qed.

Definition version_pair (h : BootstrapHeader) : Z := format_version h + min_reader_version h * 2 ^ 16.

Definition bootstrap_header_bytes (h : BootstrapHeader) : bytes :=
  let fields := fields_bytes (magic h) (version_pair h) (flags h) kBootstrapHeaderSize (tail_pointer_size h) in
  fields ++ fixed32 (crc32c fields).

Lemma version_pair_put h : wf_bootstrap_header h →
  Z.lor (u32 (min_reader_version h ≪ 16)) (format_version h) = version_pair h.
Proof.
  intros (_ & Hf & Hm & _). unfold is_u16 in *. rewrite u32_small.
  - rewrite Z.lor_comm. by apply lor_shiftl_add.
  - rewrite Z.shiftl_mul_pow2 by lia. unfold is_u32. lia.
Qed.

Lemma version_pair_low p : Z.land p 0xFFFF = p `mod` 2 ^ 16.
Proof. change 0xFFFF with (Z.ones 16). apply Z.land_ones. lia. Qed.

Lemma encode_bootstrap_header_app h sink :
  wf_bootstrap_header h →
  encode_bootstrap_header h sink = Ok (sink ++ bootstrap_header_bytes h).
Proof.
  intros Hh. unfold encode_bootstrap_header, encode_fields. rewrite version_pair_put by done.
  autorewrite with sink. done.
Qed.

(** The outcome on every 21-byte input, by the first check that fails. *)
Lemma decode_bootstrap_header_layout m pair f len tps stored :
  is_u32 m → is_u32 pair → is_u32 f → is_u32 len → is_u32 stored →
  let fields := fields_bytes m pair f len tps in
  decode_bootstrap_header (fields ++ fixed32 stored) =
    if negb (m =? kContainerMagic) then Err (Corruption "bootstrap_header: bad container magic")
    else if negb (crc32c fields =? stored) then Err (Corruption "bootstrap_header: checksum mismatch")
    else if kFormatVersion <? pair / 2 ^ 16 then
      Err (Unsupported "bootstrap_header: container requires a newer reader version")
    else Ok (mkBootstrapHeader m (pair `mod` 2 ^ 16) (pair / 2 ^ 16) f len tps).
Proof.
  intros Hm Hp Hf Hl Hst fields. unfold decode_bootstrap_header.
  assert (length fields = 17%nat) as Hlen by apply fields_bytes_length.
  rewrite length_app, fixed32_length, Hlen.
  change (Z.of_nat (17 + 4) =? kBootstrapHeaderSize) with true. cbn [negb].
  unfold run_reader, decode_body.
  assert (subslice (fields ++ fixed32 stored) 0 kChecksumCoverage = Ok fields) as ->.
  { pose proof (subslice_mid [] fields (fixed32 stored)) as H. rewrite Hlen in H. exact H. }
  assert (fields ++ fixed32 stored =
    fixed32 m ++ fixed32 pair ++ fixed32 f ++ fixed32 len ++ [tps] ++ fixed32 stored) as ->.
  { subst fields. unfold fields_bytes. by rewrite <- !app_assoc. }
  rewrite (bind_reads_source get_fixed32 _ _ _ m) by by apply reads_get_fixed32.
  rewrite (bind_reads get_fixed32 _ _ _ _ pair) by by apply reads_get_fixed32.
  rewrite (bind_reads get_fixed32 _ _ _ _ f) by by apply reads_get_fixed32.
  rewrite (bind_reads get_fixed32 _ _ _ _ len) by by apply reads_get_fixed32.
  rewrite (bind_reads get_u8 _ _ [tps] _ tps) by apply reads_get_u8.
  rewrite <- (app_nil_r (fixed32 stored)).
  rewrite (bind_reads get_fixed32 _ _ _ _ stored) by by apply reads_get_fixed32.
  assert (u16 (Z.land (pair ≫ 16) 0xFFFF) = pair / 2 ^ 16) as ->.
  { rewrite version_pair_low, Z.shiftr_div_pow2 by lia. unfold is_u32 in Hp.
    assert (0 ≤ pair / 2 ^ 16 < 2 ^ 16) by (split; [apply Z.div_pos; lia|apply Z.div_lt_upper_bound; lia]).
    rewrite Z.mod_small by lia. by apply u16_small. }
  rewrite version_pair_low, (u16_small (_ `mod` _)) by apply u16_range.
  set (src := mkByteSource _ _). unfold mbind, reader_bind, return_if, lift.
  destruct (negb (m =? kContainerMagic)); [done|].
  cbn [mbind result_bind]. destruct (negb (crc32c fields =? stored)); [done|].
  by destruct (kFormatVersion <? pair / 2 ^ 16).
Qed.

Lemma fields_cover s :
  is_bytes s → zlen s = kBootstrapHeaderSize →
  ∃ m pair f len tps stored, is_u32 m ∧ is_u32 pair ∧ is_u32 f ∧ is_u32 len ∧ is_u8 tps ∧ is_u32 stored ∧
    s = fields_bytes m pair f len tps ++ fixed32 stored.
Proof.
  unfold kBootstrapHeaderSize. intros Hs Hlen.
  destruct (fixed32_cover s) as (m & s1 & ? & -> & Hs1 & Hl1); [done|lia|].
  destruct (fixed32_cover s1) as (pair & s2 & ? & -> & Hs2 & Hl2); [done|lia|].
  destruct (fixed32_cover s2) as (f & s3 & ? & -> & Hs3 & Hl3); [done|lia|].
  destruct (fixed32_cover s3) as (len & s4 & ? & -> & Hs4 & Hl4); [done|lia|].
  destruct Hs4 as [|tps s5 ? Hs5]; [cbn [length] in *; lia|].
  destruct (fixed32_cover s5) as (stored & s6 & ? & -> & Hs6 & Hl6); [done|cbn [length] in *; lia|].
  destruct s6; [|cbn [length] in *; lia].
  exists m, pair, f, len, tps, stored. unfold fields_bytes. rewrite <- !app_assoc, app_nil_r. by split_and!.
Qed.

(** ** Properties *)

(** a header is read back as written, with the derived header length; a
    container that asks for a newer reader is refused as [Unsupported]. *)
Theorem bootstrap_header_roundtrip h sink :
  wf_bootstrap_header h → magic h = kContainerMagic →
  ∃ bs, encode_bootstrap_header h sink = Ok (sink ++ bs) ∧
    decode_bootstrap_header bs =
      if kFormatVersion <? min_reader_version h then
        Err (Unsupported "bootstrap_header: container requires a newer reader version")
      else Ok (mkBootstrapHeader (magic h) (format_version h) (min_reader_version h) (flags h)
                 kBootstrapHeaderSize (tail_pointer_size h)).
Proof.
  intros Hh Hmagic. exists (bootstrap_header_bytes h). split; [by apply encode_bootstrap_header_app|].
  destruct Hh as (Hm & Hf & Hr & Hfl & Ht). unfold is_u16 in *.
  assert (0 ≤ version_pair h < 2 ^ 32) as Hp by (unfold version_pair; lia).
  assert (version_pair h / 2 ^ 16 = min_reader_version h) as Hq.
  { unfold version_pair. rewrite Z.div_add, Z.div_small by lia. lia. }
  assert (version_pair h `mod` 2 ^ 16 = format_version h) as Hrm.
  { unfold version_pair. rewrite Z.mod_add, Z.mod_small by lia. lia. }
  unfold bootstrap_header_bytes. set (fields := fields_bytes _ _ _ _ _).
  assert (is_u32 (crc32c fields)) by (by apply crc32c_range, fields_bytes_is_bytes).
  assert (is_u32 kBootstrapHeaderSize) by by vm_compute.
  subst fields. rewrite decode_bootstrap_header_layout by done.
  by rewrite Hmagic, !Z.eqb_refl, Hq, Hrm.
Qed.

(** a decoded header comes from bytes whose magic, checksum and minimum
    reader version are right; every other 21 bytes and every other length is an
    error, never a fault. *)
Theorem decode_bootstrap_header_sound s h :
  is_bytes s → defined (decode_bootstrap_header s) ∧
  (decode_bootstrap_header s = Ok h →
   magic h = kContainerMagic ∧ 0 ≤ min_reader_version h ≤ kFormatVersion ∧
   ∃ fields, s = fields ++ fixed32 (crc32c fields) ∧
     fields = fields_bytes (magic h) (version_pair h) (flags h) (header_length h) (tail_pointer_size h)).
Proof.
  intros Hs. destruct (decide (zlen s = kBootstrapHeaderSize)) as [Hlen|Hlen].
  2: { unfold decode_bootstrap_header. rewrite (proj2 (Z.eqb_neq _ _)) by done. done. }
  destruct (fields_cover s Hs Hlen) as (m & pair & f & len & tps & stored & ? & ? & ? & ? & ? & ? & ->).
  rewrite decode_bootstrap_header_layout by done.
  destruct (m =? kContainerMagic) eqn:Hm; [|done]. destruct (_ =? stored) eqn:Hst; [|done].
  cbn [negb]. destruct (kFormatVersion <? pair / 2 ^ 16) eqn:Hr; [done|]. split; [done|].
  intros [= <-]. apply Z.eqb_eq in Hm, Hst. apply Z.ltb_ge in Hr. cbn.
  assert (version_pair (mkBootstrapHeader m (pair `mod` 2 ^ 16) (pair / 2 ^ 16) f len tps) = pair) as Hp.
  { unfold version_pair. cbn [format_version min_reader_version]. pose proof (Z.div_mod pair (2 ^ 16)). lia. }
  split_and!; [done| |done|].
  - apply Z.div_pos; [|lia]. unfold is_u32 in *. lia.
  - exists (fields_bytes m pair f len tps). rewrite Hp, Hst. done.
Qed.

(** ** Witnesses *)

Definition sample_bootstrap_header : BootstrapHeader := mkBootstrapHeader kContainerMagic 1 1 0 0 43.

Lemma bootstrap_header_roundtrip_witness :
  ∃ bs, encode_bootstrap_header sample_bootstrap_header [] = Ok ([] ++ bs) ∧
    decode_bootstrap_header bs = Ok (mkBootstrapHeader kContainerMagic 1 1 0 21 43).
Proof.
  apply (bootstrap_header_roundtrip sample_bootstrap_header []); [|done].
  unfold wf_bootstrap_header. by vm_compute.
Defined.

Lemma decode_bootstrap_header_sound_witness :
  let s := bootstrap_header_bytes sample_bootstrap_header in
  defined (decode_bootstrap_header s).
Proof.
  apply (decode_bootstrap_header_sound _ sample_bootstrap_header).
  unfold bootstrap_header_bytes. apply Forall_app_2; [|auto with snii].
  apply fields_bytes_is_bytes. by vm_compute.
Defined.
