(* ===== verification/StatsBlock.v ===== *)
(** * StatsBlock: the counters of a logical index.

    [format/stats_block.h] and [format/stats_block.cpp]. *)

From S2P Require Import Prelude Status Varint ByteIO SectionFramer FormatConstants.

#[local] Open Scope Z_scope.

Record StatsBlock := mkStatsBlock {
  doc_count : Z;
  indexed_doc_count : Z;
  term_count : Z;
  sum_total_term_freq : Z;
  null_count : Z
}.

Definition wf_stats_block (sb : StatsBlock) : Prop :=
  is_u64 (doc_count sb) ∧ is_u64 (indexed_doc_count sb) ∧ is_u64 (term_count sb) ∧
  is_u64 (sum_total_term_freq sb) ∧ is_u64 (null_count sb).

Definition encode_payload (sb : StatsBlock) (payload : ByteSink) : ByteSink :=
  payload
  |> put_varint64 (doc_count sb)
  |> put_varint64 (indexed_doc_count sb)
  |> put_varint64 (term_count sb)
  |> put_varint64 (sum_total_term_freq sb)
  |> put_varint64 (null_count sb).

Definition read_fields : reader StatsBlock :=
  doc_count ← get_varint64;
  indexed_doc_count ← get_varint64;
  term_count ← get_varint64;
  sum_total_term_freq ← get_varint64;
  null_count ← get_varint64;
  mret (mkStatsBlock doc_count indexed_doc_count term_count sum_total_term_freq null_count).

Definition decode_payload (payload : Slice) : result StatsBlock :=
  run_reader (whole read_fields "stats_block: trailing bytes in payload") payload.

Definition encode_stats_block (sb : StatsBlock) (sink : ByteSink) : ByteSink :=
  let payload := encode_payload sb [] in
  SectionFramer.write sink (section_type_u8 kStatsBlock) payload.

Definition decode_stats_block : reader StatsBlock :=
  sec ← SectionFramer.read;
  _ ← return_if (negb (type sec =? section_type_u8 kStatsBlock))
        (InvalidArgument "stats_block: unexpected section type");
  lift (decode_payload (payload sec)).

(** ** Layout *)

Definition stats_payload (sb : StatsBlock) : bytes :=
  encode_varint64 (doc_count sb) ++ encode_varint64 (indexed_doc_count sb) ++
  encode_varint64 (term_count sb) ++ encode_varint64 (sum_total_term_freq sb) ++
  encode_varint64 (null_count sb).

Lemma encode_payload_app sb sink : encode_payload sb sink = sink ++ stats_payload sb.
Proof. unfold encode_payload, stats_payload. autorewrite with sink. done. Qed.

Lemma stats_payload_bytes sb : is_bytes (stats_payload sb).
Proof. unfold stats_payload. auto 10 with snii. Qed.
#[export] Hint Resolve stats_payload_bytes : snii.

Lemma stats_payload_length sb : is_u64 (zlen (stats_payload sb)).
Proof.
  unfold stats_payload. rewrite !length_app.
  pose proof (encode_varint64_length_le (doc_count sb)).
  pose proof (encode_varint64_length_le (indexed_doc_count sb)).
  pose proof (encode_varint64_length_le (term_count sb)).
  pose proof (encode_varint64_length_le (sum_total_term_freq sb)).
  pose proof (encode_varint64_length_le (null_count sb)). unfold is_u64. lia.
Qed.

Lemma reads_read_fields sb : wf_stats_block sb → reads read_fields (stats_payload sb) sb.
Proof.
  intros (?&?&?&?&?). destruct sb. cbn in *. unfold read_fields, stats_payload. cbn.
  do 5 reads_step. apply reads_ret.
Qed.

Lemma reads_decode_stats_block sb :
  wf_stats_block sb →
  reads decode_stats_block (section_bytes (section_type_u8 kStatsBlock) (stats_payload sb)) sb.
Proof.
  intros Hsb. unfold decode_stats_block.
  eapply reads_last; [apply reads_section; [by vm_compute|auto with snii|apply stats_payload_length]|].
  cbn [type payload]. rewrite Z.eqb_refl. reads_guard; [done|].
  apply reads_lift. by apply run_whole, reads_read_fields.
Qed.

Lemma encode_stats_block_app sb sink :
  encode_stats_block sb sink = sink ++ section_bytes (section_type_u8 kStatsBlock) (stats_payload sb).
Proof. unfold encode_stats_block. rewrite encode_payload_app. autorewrite with sink. done. Qed.

(** Every decoded counter fits its field. *)
Lemma safe_decode_stats_block : safe_post decode_stats_block wf_stats_block.
Proof.
  unfold decode_stats_block. eapply safe_bind; [apply safe_read|]. intros sec _. safe_step.
  apply safe_lift_run, safe_whole. unfold read_fields.
  do 5 (eapply safe_bind; [apply safe_get_varint64|]; intros ? ?). apply safe_ret. by split_and!.
Qed.

(** ** Properties *)

(** the counters of an index are read back as written. *)
Theorem stats_block_roundtrip sb sink post :
  wf_stats_block sb →
  let s := encode_stats_block sb sink ++ post in
  decode_stats_block (mkByteSource s (length sink)) =
    Ok (sb, mkByteSource s (length (encode_stats_block sb sink))).
Proof.
  intros Hsb s. subst s. rewrite encode_stats_block_app, <- app_assoc, length_app.
  by apply reads_decode_stats_block.
Qed.

Lemma stats_block_roundtrip_witness :
  let sb := mkStatsBlock 10 9 300 4096 1 in
  let s := encode_stats_block sb [5] ++ [6] in
  decode_stats_block (mkByteSource s 1) = Ok (sb, mkByteSource s (length (encode_stats_block sb [5]))).
Proof.
  apply (stats_block_roundtrip (mkStatsBlock 10 9 300 4096 1) [5] [6]).
  unfold wf_stats_block. cbn. ulia.
Defined.
