(* ===== verification/NormsPod.v ===== *)
(** * NormsPod: one encoded length byte per document.

    [format/norms_pod.h] and [format/norms_pod.cpp]. The writer is the vector
    it accumulates; an opened reader is its document count and the view of the
    norm bytes. *)

From S2P Require Import Prelude Status Varint ByteIO SectionFramer FormatConstants.

#[local] Open Scope Z_scope.

Module NormsPodWriter.
Record t := mk { norms_ : list Z }.
Definition new : t := mk [].
Definition add (encoded_norm : Z) (w : t) : t := mk (norms_ w ++ [encoded_norm]).
Definition count (w : t) : Z := zlen (norms_ w).
Definition finish (w : t) (sink : ByteSink) : ByteSink :=
  let payload := [] |> put_varint64 (zlen (norms_ w)) |> put_bytes (norms_ w) in
  SectionFramer.write sink (section_type_u8 kStatsBlock) payload.
End NormsPodWriter.

Module NormsPodReader.
Record t := mk { norms_ : Slice; doc_count_ : Z }.

Definition read_payload : reader t :=
  doc_count ← get_varint64;
  _ ← return_if (0xFFFFFFFF <? doc_count) (Corruption "norms POD doc_count overflows uint32");
  rest ← get_remaining;
  _ ← return_if (negb (rest =? doc_count)) (Corruption "norms POD length mismatch");
  bytes ← get_bytes doc_count;
  mret (mk bytes (u32 doc_count)).

Definition open (framed : Slice) : result t :=
  '(sec, _) ← SectionFramer.read (source framed);
  run_reader read_payload (payload sec).

Definition doc_count (r : t) : Z := doc_count_ r.
(** [norms_[docid]]: undefined out of range. *)
Definition encoded_norm (r : t) (docid : Z) : result Z :=
  match norms_ r !! Z.to_nat docid with Some v => Ok v | None => Undef end.
Definition try_encoded_norm (r : t) (docid : Z) : result Z :=
  if doc_count_ r <=? docid then Err (InvalidArgument "norms: docid out of range")
  else encoded_norm r docid.
End NormsPodReader.

Import NormsPodReader.

(** An opened reader holds one norm per document. *)
Definition wf_norms (r : t) : Prop := zlen (norms_ r) = doc_count_ r ∧ is_u32 (doc_count_ r).

Definition norms_payload (norms : list Z) : bytes := encode_varint64 (zlen norms) ++ norms.

Lemma norms_finish_app w sink :
  NormsPodWriter.finish w sink =
  sink ++ section_bytes (section_type_u8 kStatsBlock) (norms_payload (NormsPodWriter.norms_ w)).
Proof. unfold NormsPodWriter.finish, norms_payload. autorewrite with sink. done. Qed.

(** [remaining] at a known place of a buffer that ends with the payload. *)
Lemma norms_run_read_payload norms :
  zlen norms < 2 ^ 32 → run_reader read_payload (norms_payload norms) = Ok (mk norms (zlen norms)).
Proof.
  intros Hn. unfold run_reader, read_payload, norms_payload.
  rewrite (bind_reads_source get_varint64 _ _ _ (zlen norms)) by (apply reads_get_varint64; unfold is_u64; lia).
  rewrite bind_return_if, (proj2 (Z.ltb_ge _ _)) by lia.
  rewrite bind_get_remaining, bind_return_if, Z.eqb_refl. cbn [negb].
  rewrite (bind_reads_end _ _ _ _ norms) by by apply reads_get_bytes.
  cbn. by rewrite u32_small by (unfold is_u32; lia).
Qed.

Lemma norms_safe_read_payload : safe_post read_payload wf_norms.
Proof.
  unfold read_payload. eapply safe_bind; [apply safe_get_varint64|]. intros n [Hn0 _].
  eapply safe_bind; [apply safe_return_if|]. intros [] Hn. cbn beta in Hn. apply Z.ltb_ge in Hn.
  eapply safe_bind; [apply safe_get_remaining|]. intros rest _. safe_step.
  eapply safe_bind; [by apply safe_get_bytes|]. intros bs Hbs. apply safe_ret.
  unfold wf_norms. cbn. rewrite u32_small by (unfold is_u32; lia). split; [done|]. unfold is_u32. lia.
Qed.

Lemma norms_open_spec framed :
  defined (open framed) ∧ ∀ r, open framed = Ok r → wf_norms r.
Proof.
  unfold open. pose proof (safe_read (source framed)) as Hr.
  destruct (SectionFramer.read (source framed)) as [[sec src]| |]; cbn;
    [|done|exfalso; apply Hr; unfold wf_source; cbn; lia].
  apply (safe_run _ _ _ norms_safe_read_payload).
Qed.

Lemma norms_add_all ns w : NormsPodWriter.norms_ (fold_left (flip NormsPodWriter.add) ns w) = NormsPodWriter.norms_ w ++ ns.
Proof. revert w. induction ns as [|n ns IH]; intros w; cbn [fold_left]; [by rewrite app_nil_r|]. rewrite IH. cbn. by rewrite <- app_assoc. Qed.

(** The section of some norms, opened. *)
Lemma norms_section_open norms :
  is_bytes norms → zlen norms < 2 ^ 32 →
  open (section_bytes (section_type_u8 kStatsBlock) (norms_payload norms)) = Ok (mk norms (zlen norms)).
Proof.
  intros Hb Hn. assert (is_u64 (zlen (norms_payload norms))).
  { unfold norms_payload. rewrite length_app. pose proof (encode_varint64_length_le (zlen norms)). unfold is_u64. lia. }
  assert (is_bytes (norms_payload norms)) by (unfold norms_payload; auto with snii).
  unfold open. pose proof (reads_section (section_type_u8 kStatsBlock) (norms_payload norms)) as Hr.
  specialize (Hr ltac:(by vm_compute) ltac:(done) ltac:(done) [] []).
  cbn [app length] in Hr. rewrite app_nil_r in Hr. unfold source. rewrite Hr. cbn. by apply norms_run_read_payload.
Qed.

(** ** Properties *)

(** on any bytes at all, opening the norms is defined, and an opened reader
    answers every checked access with a norm or [InvalidArgument]: it never
    reads outside the section. *)
Theorem norms_pod_safe framed r docid :
  defined (open framed) ∧
  (open framed = Ok r → 0 ≤ docid →
   (docid < doc_count r → ∃ v, encoded_norm r docid = Ok v ∧ try_encoded_norm r docid = Ok v) ∧
   (doc_count r ≤ docid →
    try_encoded_norm r docid = Err (InvalidArgument "norms: docid out of range"))).
Proof.
  destruct (norms_open_spec framed) as [Hd Hwf]. split; [done|]. intros Ho Hdoc.
  destruct (Hwf r Ho) as [Hlen _]. unfold try_encoded_norm, encoded_norm, doc_count in *. split.
  - intros Hlt. destruct (lookup_lt_is_Some_2 (norms_ r) (Z.to_nat docid)) as [v ->]; [lia|].
    exists v. by rewrite (proj2 (Z.leb_gt _ _)) by lia.
  - intros Hge. by rewrite (proj2 (Z.leb_le _ _)) by lia.
Qed.

(** the norm of the [i]-th document added is the norm read for docid [i]. *)
Theorem norms_pod_roundtrip norms i v :
  is_bytes norms → zlen norms < 2 ^ 32 → norms !! i = Some v →
  let w := foldl (λ w v, NormsPodWriter.add v w) NormsPodWriter.new norms in
  ∃ r, open (NormsPodWriter.finish w []) = Ok r ∧ doc_count r = zlen norms ∧
    try_encoded_norm r (Z.of_nat i) = Ok v.
Proof.
  intros Hb Hn Hi w. assert (NormsPodWriter.norms_ w = norms) as Hw.
  { assert (∀ l k, foldl (λ w v, NormsPodWriter.add v w) k l = fold_left (flip NormsPodWriter.add) l k) as Hf.
    { induction l as [|x l IH]; intros k; [done|]. apply IH. }
    subst w. by rewrite Hf, norms_add_all. }
  exists (mk norms (zlen norms)). rewrite norms_finish_app, Hw. cbn [app]. split_and!; [by apply norms_section_open|done|].
  unfold try_encoded_norm, encoded_norm. cbn. apply lookup_lt_Some in Hi as Hlt.
  rewrite (proj2 (Z.leb_gt _ _)) by lia. by rewrite Nat2Z.id, Hi.
Qed.

(** ** Witnesses *)

Lemma norms_pod_roundtrip_witness :
  let w := foldl (λ w v, NormsPodWriter.add v w) NormsPodWriter.new [3; 7; 255] in
  ∃ r, open (NormsPodWriter.finish w []) = Ok r ∧ doc_count r = 3 ∧ try_encoded_norm r 2 = Ok 255.
Proof. apply (norms_pod_roundtrip [3; 7; 255] 2 255); [auto with snii|cbn; lia|done]. Defined.
