(* ===== verification/NullBitmap.v ===== *)
(** * NullBitmap: the set of NULL documents.

    [format/null_bitmap.h] and [format/null_bitmap.cpp]. CRoaring is third-party
    code: its bitmap type and the calls the program makes are the class
    [RoaringOps], and what the program relies on of them is [RoaringLaws]. *)

From S2P Require Import Prelude Status Varint ByteIO SectionFramer FormatConstants.

#[local] Open Scope Z_scope.

(** The calls on [roaring::Roaring]. [portable_deserialize_size rb n] is
    [roaring_bitmap_portable_deserialize_size]: the bytes a valid container at
    [rb] takes, [0] if there is none. *)
Class RoaringOps (Roaring : Type) := {
  roaring_empty : Roaring;
  roaring_add : Z → Roaring → Roaring;
  roaring_contains : Z → Roaring → bool;
  roaring_cardinality : Roaring → Z;
  getSizeInBytes : Roaring → Z;
  roaring_write : Roaring → bytes;
  portable_deserialize_size : bytes → Z → Z;
  readSafe : bytes → Z → Roaring
}.

(** Documented behaviour: a set of [uint32] values, and a portable form that is
    written in [getSizeInBytes] bytes, recognised and read back. *)
Class RoaringLaws (Roaring : Type) `{RoaringOps Roaring} := {
  roaring_contains_empty x : roaring_contains x roaring_empty = false;
  roaring_contains_add x y b :
    is_u32 x → is_u32 y → roaring_contains x (roaring_add y b) = (x =? y) || roaring_contains x b;
  roaring_write_length b : zlen (roaring_write b) = getSizeInBytes b;
  roaring_write_bytes b : is_bytes (roaring_write b);
  roaring_size_bound b : 0 < getSizeInBytes b < 2 ^ 48;
  roaring_deserialize_size b :
    portable_deserialize_size (roaring_write b) (getSizeInBytes b) = getSizeInBytes b;
  roaring_readSafe_contains x b :
    roaring_contains x (readSafe (roaring_write b) (getSizeInBytes b)) = roaring_contains x b;
  roaring_readSafe_cardinality b :
    roaring_cardinality (readSafe (roaring_write b) (getSizeInBytes b)) = roaring_cardinality b
}.

Definition kNullBitmapSectionType : Z := 0x20.

Section NullBitmap.
Context {Roaring : Type} `{RoaringOps Roaring}.

(** [NullBitmapWriter] is its bitmap. *)
Definition add_null (docid : Z) (bitmap_ : Roaring) : Roaring := roaring_add docid bitmap_.
Definition writer_null_count (bitmap_ : Roaring) : Z := u32 (roaring_cardinality bitmap_).
Definition finish (bitmap_ : Roaring) (doc_count : Z) (sink : ByteSink) : ByteSink :=
  let roaring_size := getSizeInBytes bitmap_ in
  let roaring_buf := roaring_write bitmap_ in
  let payload := [] |> put_varint64 doc_count |> put_varint64 roaring_size
                    |> put_bytes roaring_buf in
  SectionFramer.write sink kNullBitmapSectionType payload.

Record NullBitmapReader := mkNullBitmapReader { bitmap_ : Roaring; doc_count_ : Z }.

Definition read_payload : reader NullBitmapReader :=
  doc_count ← get_varint64;
  _ ← return_if (0xFFFFFFFF <? doc_count) (Corruption "null bitmap doc_count overflows uint32");
  roaring_size ← get_varint64;
  rest ← get_remaining;
  _ ← return_if (rest <? roaring_size) (Corruption "null bitmap roaring_size exceeds payload");
  roaring_bytes ← get_bytes roaring_size;
  let probed := portable_deserialize_size roaring_bytes roaring_size in
  _ ← return_if ((probed =? 0) || negb (probed =? roaring_size))
        (Corruption "null bitmap: malformed roaring container");
  mret (mkNullBitmapReader (readSafe roaring_bytes roaring_size) (u32 doc_count)).

Definition open (framed : Slice) : result NullBitmapReader :=
  '(sec, _) ← SectionFramer.read (source framed);
  run_reader read_payload (payload sec).

Definition is_null (docid : Z) (r : NullBitmapReader) : bool := roaring_contains docid (bitmap_ r).
Definition null_count (r : NullBitmapReader) : Z := u32 (roaring_cardinality (bitmap_ r)).
Definition doc_count (r : NullBitmapReader) : Z := doc_count_ r.

(** ** Layout *)

Definition null_payload (b : Roaring) (n : Z) : bytes :=
  encode_varint64 n ++ encode_varint64 (getSizeInBytes b) ++ roaring_write b.

Lemma null_finish_app b n sink :
  finish b n sink = sink ++ section_bytes kNullBitmapSectionType (null_payload b n).
Proof. unfold finish, null_payload. autorewrite with sink. done. Qed.

Context `{!RoaringLaws Roaring}.

Lemma null_run_read_payload b n :
  is_u32 n →
  run_reader read_payload (null_payload b n) =
    Ok (mkNullBitmapReader (readSafe (roaring_write b) (getSizeInBytes b)) n).
Proof.
  intros Hn. pose proof (roaring_size_bound b). pose proof (roaring_write_length b) as Hlen.
  unfold run_reader, read_payload, null_payload.
  rewrite (bind_reads_source get_varint64 _ _ _ n) by (by apply reads_get_varint64, is_u32_u64).
  rewrite bind_return_if, (proj2 (Z.ltb_ge _ _)) by ulia.
  rewrite (bind_reads get_varint64 _ _ _ _ (getSizeInBytes b)) by (apply reads_get_varint64; unfold is_u64; lia).
  rewrite bind_get_remaining, bind_return_if, Hlen, Z.ltb_irrefl.
  rewrite (bind_reads_end _ _ _ _ (roaring_write b)) by by apply reads_get_bytes.
  rewrite roaring_deserialize_size, bind_return_if, Z.eqb_refl.
  rewrite (proj2 (Z.eqb_neq _ _)) by lia. cbn. by rewrite u32_small.
Qed.

Lemma null_safe_read_payload : safe_post read_payload (λ r, is_u32 (doc_count_ r)).
Proof.
  unfold read_payload. eapply safe_bind; [apply safe_get_varint64|]. intros n _.
  eapply safe_bind; [apply safe_return_if|]. intros [] _.
  eapply safe_bind; [apply safe_get_varint64|]. intros size [Hsize _].
  do 2 safe_step. eapply safe_bind; [by apply safe_get_bytes|]. intros bs _.
  safe_step. apply safe_ret. apply u32_range.
Qed.

Lemma null_open_finish b n :
  is_u32 n →
  open (finish b n []) =
    Ok (mkNullBitmapReader (readSafe (roaring_write b) (getSizeInBytes b)) n).
Proof.
  intros Hn. rewrite null_finish_app. cbn [app]. unfold open.
  pose proof (roaring_size_bound b). pose proof (roaring_write_bytes b).
  pose proof (roaring_write_length b).
  assert (is_u64 (zlen (null_payload b n))).
  { unfold null_payload. rewrite !length_app. pose proof (encode_varint64_length_le n).
    pose proof (encode_varint64_length_le (getSizeInBytes b)). unfold is_u64. lia. }
  assert (is_bytes (null_payload b n)) by (unfold null_payload; auto with snii).
  pose proof (reads_section kNullBitmapSectionType (null_payload b n)) as Hr.
  specialize (Hr ltac:(by vm_compute) ltac:(done) ltac:(done) [] []).
  cbn [app length] in Hr. rewrite app_nil_r in Hr. unfold source. rewrite Hr. cbn.
  by apply null_run_read_payload.
Qed.

Definition add_nulls (nulls : list Z) : Roaring := foldr add_null roaring_empty nulls.

Lemma contains_add_nulls x nulls :
  is_u32 x → is_u32s nulls → roaring_contains x (add_nulls nulls) = bool_decide (x ∈ nulls).
Proof.
  intros Hx Hn. induction Hn as [|y nulls Hy Hn IH].
  { apply roaring_contains_empty. }
  change (add_nulls (y :: nulls)) with (roaring_add y (add_nulls nulls)). rewrite roaring_contains_add, IH by done.
  destruct (Z.eqb_spec x y) as [->|?]; cbn.
  - symmetry. apply bool_decide_true. left.
  - apply bool_decide_ext. rewrite elem_of_cons. intuition congruence.
Qed.

(** the reader opened on the written section answers [is_null] exactly for
    the documents that were added, and keeps the document count. *)
Theorem null_bitmap_roundtrip nulls n :
  is_u32s nulls → is_u32 n →
  ∃ r, open (finish (add_nulls nulls) n []) = Ok r ∧ doc_count r = n ∧
    null_count r = writer_null_count (add_nulls nulls) ∧
    ∀ docid, is_u32 docid → is_null docid r = bool_decide (docid ∈ nulls).
Proof.
  intros Hnulls Hn. eexists. split; [by apply null_open_finish|]. split; [done|]. split.
  - unfold null_count, writer_null_count. cbn. by rewrite roaring_readSafe_cardinality.
  - intros docid Hd. unfold is_null. cbn. rewrite roaring_readSafe_contains.
    by apply contains_add_nulls.
Qed.
End NullBitmap.

(** Opening is defined on all bytes, and CRoaring only sees a container its
    size probe accepted. *)
Lemma null_bitmap_open_defined {Roaring} `{RoaringOps Roaring} framed : defined (open framed).
Proof.
  unfold open. pose proof (safe_read (source framed)) as Hr.
  destruct (SectionFramer.read (source framed)) as [[sec src]| |]; cbn;
    [|done|exfalso; apply Hr; unfold wf_source; cbn; lia].
  apply (safe_run _ _ _ null_safe_read_payload).
Qed.

(** ** An instance: duplicate-free lists of [uint32], four bytes per value *)

Module ToyRoaring.
Definition ok (l : list Z) : Prop := NoDup l ∧ is_u32s l.
#[local] Instance ok_dec l : Decision (ok l).
Proof. unfold ok. apply _. Defined.
Definition t : Type := dsig ok.

Definition elems (b : t) : list Z := proj1_sig b.
Definition empty : t := dexist [] (conj (NoDup_nil_2) (Forall_nil_2 _)).
Definition of_list (l : list Z) : t :=
  match decide (ok l) with left H => dexist l H | right _ => empty end.
Definition add (x : Z) (b : t) : t := if decide (x ∈ elems b) then b else of_list (x :: elems b).

#[global] Instance ops : RoaringOps t := {
  roaring_empty := empty;
  roaring_add := add;
  roaring_contains x b := bool_decide (x ∈ elems b);
  roaring_cardinality b := zlen (elems b);
  getSizeInBytes b := 1 + 4 * zlen (elems b);
  roaring_write b := 0 :: concat (map fixed32 (elems b));
  portable_deserialize_size rb n := if (n - 1) `mod` 4 =? 0 then n else 0;
  readSafe rb n :=
    match run_reader (_ ← get_u8; read_n get_fixed32 (Z.to_nat ((n - 1) / 4))) rb with
    | Ok l => of_list l | _ => empty
    end
}.

Lemma elems_ok b : ok (elems b).
Proof. exact (proj2_dsig b). Qed.

Lemma elems_of_list l : ok l → elems (of_list l) = l.
Proof. intros H. unfold of_list. by destruct (decide (ok l)). Qed.

Lemma elems_length b : zlen (elems b) ≤ 2 ^ 32.
Proof.
  destruct (elems_ok b) as [Hnd Hu].
  assert (elems b ⊆+ seqZ 0 (2 ^ 32)) as Hsub.
  { apply NoDup_submseteq; [done|]. intros x Hx. rewrite Forall_forall in Hu.
    apply elem_of_seqZ. specialize (Hu x Hx). unfold is_u32 in Hu. lia. }
  apply submseteq_length in Hsub. rewrite length_seqZ in Hsub. lia.
Qed.

Lemma concat_fixed32_length l : zlen (concat (map fixed32 l)) = 4 * zlen l.
Proof. induction l as [|x l IH]; cbn; [done|]. rewrite length_app, fixed32_length. lia. Qed.

Lemma readSafe_write b : elems (readSafe (roaring_write b) (getSizeInBytes b)) = elems b.
Proof.
  destruct (elems_ok b) as [Hnd Hu]. cbn -[Z.of_nat].
  replace (1 + 4 * zlen (elems b) - 1) with (zlen (elems b) * 4) by lia.
  rewrite Z.div_mul, Nat2Z.id by lia.
  rewrite (reads_run _ _ (elems b)); [by apply elems_of_list|].
  change (0 :: ?l) with ([0] ++ l). eapply reads_bind; [apply reads_get_u8|].
  apply reads_read_n_id; [done|]. eapply Forall_impl; [exact Hu|]. intros x. apply reads_get_fixed32.
Qed.

#[global] Instance laws : RoaringLaws t.
Proof.
  split.
  - done.
  - intros x y b Hx Hy. cbn. unfold add. destruct (decide (y ∈ elems b)).
    + destruct (Z.eqb_spec x y) as [->|]; [|done]. by rewrite bool_decide_true.
    + rewrite elems_of_list by (destruct (elems_ok b); by split; constructor).
      destruct (Z.eqb_spec x y) as [->|?]; cbn; [apply bool_decide_true; left|].
      apply bool_decide_ext. rewrite elem_of_cons. intuition congruence.
  - intros b. cbn -[Z.of_nat]. rewrite Nat2Z.inj_succ, concat_fixed32_length. cbn -[Z.of_nat]. lia.
  - intros b. cbn. constructor; [ulia|]. apply concat_is_bytes.
    apply Forall_forall. intros x _. apply fixed32_bytes.
  - intros b. cbn -[Z.of_nat]. pose proof (elems_length b). lia.
  - intros b. cbn -[Z.of_nat Z.modulo]. replace (_ - 1) with (zlen (elems b) * 4) by lia.
    by rewrite Z.mod_mul by lia.
  - intros x b. change (bool_decide (x ∈ elems (readSafe (roaring_write b) (getSizeInBytes b))) =
                        bool_decide (x ∈ elems b)). by rewrite readSafe_write.
  - intros b. change (zlen (elems (readSafe (roaring_write b) (getSizeInBytes b))) = zlen (elems b)).
    by rewrite readSafe_write.
Qed.
End ToyRoaring.

Lemma null_bitmap_roundtrip_witness :
  ∃ r : NullBitmapReader (Roaring := ToyRoaring.t), open (finish (add_nulls [5; 70000; 5]) 100 []) = Ok r ∧
    doc_count r = 100 ∧ null_count r = writer_null_count (Roaring := ToyRoaring.t) (add_nulls [5; 70000; 5]) ∧
    ∀ docid, is_u32 docid → is_null docid r = bool_decide (docid ∈ [5; 70000; 5]).
Proof. apply (null_bitmap_roundtrip (Roaring := ToyRoaring.t)); [auto with snii|ulia]. Defined.
