(* ===== verification/LogicalIndexDirectory.v ===== *)
(** * LogicalIndexDirectory: where each logical index keeps its meta block.

    [format/logical_index_directory.h] and [.cpp]. Builder and reader are the
    vector [refs_] they hold; a suffix is its byte string. *)

From S2P Require Import Prelude Status Varint ByteIO SectionFramer FormatConstants.

#[local] Open Scope Z_scope.

Record LogicalIndexRef := mkLogicalIndexRef {
  index_id : Z;
  index_suffix : bytes;
  meta_off : Z;
  meta_len : Z
}.

Definition wf_ref (r : LogicalIndexRef) : Prop :=
  is_u64 (index_id r) ∧ is_bytes (index_suffix r) ∧ is_u32 (zlen (index_suffix r)) ∧
  is_u64 (meta_off r) ∧ is_u64 (meta_len r).

Definition kMinEntryBytes : Z := 4.

Definition encode_entry (ref : LogicalIndexRef) (payload : ByteSink) : ByteSink :=
  payload
  |> put_varint64 (index_id ref)
  |> put_varint32 (u32 (zlen (index_suffix ref)))
  |> put_bytes (index_suffix ref)
  |> put_varint64 (meta_off ref)
  |> put_varint64 (meta_len ref).

Definition decode_entry : reader LogicalIndexRef :=
  index_id ← get_varint64;
  suffix_len ← get_varint32;
  rest ← get_remaining;
  _ ← return_if (rest <? suffix_len)
        (Corruption "logical_index_directory: suffix_len exceeds payload");
  suffix ← get_bytes suffix_len;
  meta_off ← get_varint64;
  meta_len ← get_varint64;
  mret (mkLogicalIndexRef index_id suffix meta_off meta_len).

Definition read_entries : reader (list LogicalIndexRef) :=
  n_entries ← get_varint32;
  rest ← get_remaining;
  _ ← return_if (rest / kMinEntryBytes <? n_entries)
        (Corruption "logical_index_directory: n_entries exceeds payload capacity");
  read_n decode_entry (Z.to_nat n_entries).

Definition decode_payload (payload : Slice) : result (list LogicalIndexRef) :=
  run_reader (whole read_entries "logical_index_directory: trailing bytes in payload") payload.

(** [LogicalIndexDirectoryBuilder] *)
Definition add (ref : LogicalIndexRef) (refs_ : list LogicalIndexRef) : list LogicalIndexRef :=
  refs_ ++ [ref].

Definition finish (refs_ : list LogicalIndexRef) (sink : ByteSink) : ByteSink :=
  let payload := [] |> put_varint32 (u32 (zlen refs_)) |> put_each encode_entry refs_ in
  SectionFramer.write sink (section_type_u8 kLogicalIndexDirectory) payload.

(** [LogicalIndexDirectoryReader] *)
Definition open (framed : Slice) : result (list LogicalIndexRef) :=
  '(sec, _) ← SectionFramer.read (source framed);
  _ ← reject_if (negb (type sec =? section_type_u8 kLogicalIndexDirectory))
        (InvalidArgument "logical_index_directory: unexpected section type");
  decode_payload (payload sec).

Definition size (refs_ : list LogicalIndexRef) : Z := u32 (zlen refs_).

Definition get (refs_ : list LogicalIndexRef) (i : Z) : result LogicalIndexRef :=
  if zlen refs_ <=? i then Err (NotFound "logical_index_directory: index out of range")
  else match refs_ !! Z.to_nat i with Some r => Ok r | None => Undef end.

(** [*found] and [*out]: [None] is [*found = false]. *)
Fixpoint find (refs_ : list LogicalIndexRef) (id : Z) (suffix : bytes) : option LogicalIndexRef :=
  match refs_ with
  | [] => None
  | ref :: refs_ =>
      if negb (index_id ref =? id) || negb (bool_decide (index_suffix ref = suffix))
      then find refs_ id suffix
      else Some ref
  end.

(** ** Layout *)

Definition entry_bytes (r : LogicalIndexRef) : bytes :=
  encode_varint64 (index_id r) ++ encode_varint64 (u32 (zlen (index_suffix r))) ++ index_suffix r ++
  encode_varint64 (meta_off r) ++ encode_varint64 (meta_len r).

Definition directory_payload (refs : list LogicalIndexRef) : bytes :=
  encode_varint64 (u32 (zlen refs)) ++ concat (map entry_bytes refs).

Definition directory_bytes (refs : list LogicalIndexRef) : bytes :=
  section_bytes (section_type_u8 kLogicalIndexDirectory) (directory_payload refs).

Lemma encode_entry_app r sink : encode_entry r sink = sink ++ entry_bytes r.
Proof. unfold encode_entry, entry_bytes. autorewrite with sink. done. Qed.

Lemma lid_finish_app refs sink : finish refs sink = sink ++ directory_bytes refs.
Proof.
  unfold finish, directory_bytes, directory_payload.
  rewrite (put_each_app _ entry_bytes) by apply encode_entry_app. autorewrite with sink. done.
Qed.

Lemma entry_bytes_length r : (4 ≤ length (entry_bytes r))%nat.
Proof.
  unfold entry_bytes. rewrite !length_app.
  pose proof (encode_varint64_length_pos (index_id r)).
  pose proof (encode_varint64_length_pos (u32 (zlen (index_suffix r)))).
  pose proof (encode_varint64_length_pos (meta_off r)).
  pose proof (encode_varint64_length_pos (meta_len r)). lia.
Qed.

Lemma lid_directory_payload_bytes refs : Forall wf_ref refs → is_bytes (directory_payload refs).
Proof.
  intros H. unfold directory_payload. apply Forall_app_2; [auto with snii|]. apply concat_is_bytes.
  eapply Forall_impl; [exact H|]. intros r (?&?&?&?&?). unfold entry_bytes. auto 10 with snii.
Qed.

Lemma reads_decode_entry r : wf_ref r → reads decode_entry (entry_bytes r) r.
Proof.
  intros (?&?&?&?&?) pre post. destruct r as [id sfx off len]. cbn in *.
  unfold decode_entry, entry_bytes. cbn [index_id index_suffix meta_off meta_len].
  rewrite (u32_small (zlen sfx)) by done. rewrite <- !app_assoc.
  rewrite (bind_reads get_varint64 _ _ _ _ id) by by apply reads_get_varint64.
  rewrite (bind_reads get_varint32 _ _ _ _ (zlen sfx)) by by apply reads_get_varint32.
  rewrite bind_get_remaining, bind_return_if, (proj2 (Z.ltb_ge _ _)) by (rewrite !length_app; lia).
  rewrite (bind_reads (get_bytes _) _ _ sfx _ sfx) by by apply reads_get_bytes.
  rewrite (bind_reads get_varint64 _ _ _ _ off) by by apply reads_get_varint64.
  rewrite (bind_reads get_varint64 _ _ _ _ len) by by apply reads_get_varint64.
  unfold mret, reader_ret. do 2 f_equal. f_equal; [by rewrite <- !app_assoc|]. rewrite !length_app. lia.
Qed.

Lemma lid_decode_directory_payload refs :
  Forall wf_ref refs → is_u32 (zlen refs) → decode_payload (directory_payload refs) = Ok refs.
Proof.
  intros Hrefs Hn. unfold decode_payload, directory_payload, run_reader, whole, read_entries.
  rewrite (u32_small _ Hn).
  rewrite bind_bind, (bind_reads_source get_varint32 _ _ _ (zlen refs)) by by apply reads_get_varint32.
  rewrite bind_bind, bind_get_remaining, bind_bind, bind_return_if, (proj2 (Z.ltb_ge _ _)).
  2: { pose proof (concat_length_ge entry_bytes refs 4 entry_bytes_length).
       unfold kMinEntryBytes. apply Z.div_le_lower_bound; lia. }
  rewrite (bind_reads_end _ _ _ _ refs).
  - by rewrite run_eof_check.
  - rewrite Nat2Z.id. apply reads_read_n_id; [done|].
    eapply Forall_impl; [exact Hrefs|]. apply reads_decode_entry.
Qed.

Lemma lid_open_directory refs :
  Forall wf_ref refs → is_u32 (zlen refs) → is_u64 (zlen (directory_payload refs)) →
  open (directory_bytes refs) = Ok refs.
Proof.
  intros Hrefs Hn Hlen. unfold open, directory_bytes, source.
  pose proof (reads_section (section_type_u8 kLogicalIndexDirectory) (directory_payload refs)
    ltac:(by vm_compute) (lid_directory_payload_bytes _ Hrefs) Hlen [] []) as Hr.
  cbn [app length] in Hr. rewrite app_nil_r in Hr. rewrite Hr. cbn.
  by apply lid_decode_directory_payload.
Qed.

Lemma safe_decode_entry : safe_post decode_entry (λ r, is_u64 (meta_off r) ∧ is_u64 (meta_len r)).
Proof.
  unfold decode_entry. safe_step.
  eapply safe_bind; [apply safe_get_varint32|]. intros n [? _]. do 2 safe_step.
  eapply safe_bind; [by apply safe_get_bytes|]. intros sfx _.
  do 2 (eapply safe_bind; [apply safe_get_varint64|]; intros ? ?). by apply safe_ret.
Qed.

Lemma safe_read_entries :
  safe_post read_entries (Forall (λ r, is_u64 (meta_off r) ∧ is_u64 (meta_len r))).
Proof.
  unfold read_entries. eapply safe_bind; [apply safe_get_varint32|]. intros n _. do 2 safe_step.
  eapply safe_weaken; [apply safe_read_n, safe_decode_entry|]. by intros l [_ Hl].
Qed.

Lemma lid_open_spec framed :
  defined (open framed) ∧
  ∀ refs, open framed = Ok refs → Forall (λ r, is_u64 (meta_off r) ∧ is_u64 (meta_len r)) refs.
Proof.
  unfold open. pose proof (safe_read (source framed)) as Hr.
  destruct (SectionFramer.read (source framed)) as [[sec src]| |]; cbn;
    [|done|exfalso; apply Hr; unfold wf_source; cbn; lia].
  destruct (negb _); [done|]. cbn. apply (safe_run _ _ _ (safe_whole _ _ _ safe_read_entries)).
Qed.

(** ** Lookup *)

Lemma find_spec refs id suffix r :
  find refs id suffix = Some r → r ∈ refs ∧ index_id r = id ∧ index_suffix r = suffix.
Proof.
  induction refs as [|x refs IH]; cbn; [done|].
  destruct (Z.eqb_spec (index_id x) id); cbn; [case_bool_decide; cbn|].
  - intros [= <-]. split; [left|done].
  - intros Hf. destruct (IH Hf) as (?&?&?). split; [by right|done].
  - intros Hf. destruct (IH Hf) as (?&?&?). split; [by right|done].
Qed.

(** The first entry with the key wins. *)
Lemma find_first refs1 r refs2 :
  Forall (λ x, (index_id x, index_suffix x) ≠ (index_id r, index_suffix r)) refs1 →
  find (refs1 ++ r :: refs2) (index_id r) (index_suffix r) = Some r.
Proof.
  induction 1 as [|x refs1 Hx Hrefs IH]; cbn.
  - by rewrite Z.eqb_refl, bool_decide_true.
  - destruct (Z.eqb_spec (index_id x) (index_id r)); cbn; [|done].
    rewrite bool_decide_false; [done|]. intros ?. apply Hx. congruence.
Qed.

Lemma find_key_absent refs id suffix :
  (id, suffix) ∉ map (λ r, (index_id r, index_suffix r)) refs → find refs id suffix = None.
Proof.
  intros Ha. destruct (find refs id suffix) as [r|] eqn:Hf; [|done]. apply find_spec in Hf as (Hr & <- & <-).
  destruct Ha. apply list_elem_of_fmap. by exists r.
Qed.

(** ** Properties *)

(** an index that was added under a key unused before it is found under that
    key in the directory read back, with the place of its meta block. *)
Theorem logical_index_directory_find refs1 r refs2 :
  let refs := refs1 ++ r :: refs2 in
  Forall wf_ref refs → is_u32 (zlen refs) → is_u64 (zlen (directory_payload refs)) →
  Forall (λ x, (index_id x, index_suffix x) ≠ (index_id r, index_suffix r)) refs1 →
  ∃ dir, open (finish refs []) = Ok dir ∧ size dir = zlen refs ∧
    find dir (index_id r) (index_suffix r) = Some r ∧ get dir (zlen refs1) = Ok r.
Proof.
  intros refs Hrefs Hn Hlen Hfirst. exists refs. rewrite lid_finish_app. cbn [app].
  split_and!; [by apply lid_open_directory|by apply u32_small|by apply find_first|].
  unfold get. subst refs. rewrite (proj2 (Z.leb_gt _ _)) by (rewrite length_app; cbn [length]; lia).
  by rewrite Nat2Z.id, list_lookup_middle.
Qed.

Lemma logical_index_directory_find_witness :
  let refs := [mkLogicalIndexRef 1 [] 40 10; mkLogicalIndexRef 1 [97; 98] 50 7] in
  ∃ dir, open (finish refs []) = Ok dir ∧ size dir = 2 ∧
    find dir 1 [97; 98] = Some (mkLogicalIndexRef 1 [97; 98] 50 7) ∧
    get dir 1 = Ok (mkLogicalIndexRef 1 [97; 98] 50 7).
Proof.
  apply (logical_index_directory_find [mkLogicalIndexRef 1 [] 40 10] (mkLogicalIndexRef 1 [97; 98] 50 7) []).
  - repeat constructor; cbn; lia.
  - cbn. ulia.
  - vm_compute. split; [discriminate|reflexivity].
  - repeat constructor. discriminate.
Defined.
