(* ===== verification/TailMetaRegion.v ===== *)
(** * TailMetaRegion: the meta blocks of a container and their directory.

    [format/tail_meta_region.h] and [format/tail_meta_region.cpp]. The range
    checks of [open] and [find] add two [uint64_t]s, and the sum wraps. *)

From S2P Require Import Prelude Status Varint ByteIO Crc32c SectionFramer FormatConstants.
From S2P Require LogicalIndexDirectory.

#[local] Open Scope Z_scope.
Abbreviation Dir := LogicalIndexDirectory.open (only parsing).

(** [TailMetaRegionBuilder::Entry]; the builder is the vector of them. *)
Record Entry := mkEntry { index_id : Z; suffix : bytes; entry_data : bytes }.

Definition kHeaderFields : Z := 4 + 4 + 8 + 4 + 8 + 8.
Definition kHeaderSize : Z := kHeaderFields + 4.
Definition kRegionChecksumSize : Z := 4.

Definition add_index (id : Z) (sfx : bytes) (per_index_meta_bytes : Slice) (entries_ : list Entry)
    : list Entry := entries_ ++ [mkEntry id sfx per_index_meta_bytes].

(** The loop that fills the directory builder and advances [offset]. *)
Fixpoint place_entries (entries : list Entry) (offset : Z)
    : list LogicalIndexDirectory.LogicalIndexRef * Z :=
  match entries with
  | [] => ([], offset)
  | e :: entries =>
      let ref := LogicalIndexDirectory.mkLogicalIndexRef (index_id e) (suffix e) offset
                   (zlen (entry_data e)) in
      let '(refs, offset) := place_entries entries (u64 (offset + zlen (entry_data e))) in
      (ref :: refs, offset)
  end.

Definition finish (entries_ : list Entry) (sink : ByteSink) : ByteSink :=
  let '(dir, directory_offset) := place_entries entries_ kHeaderSize in
  let dir_bytes := LogicalIndexDirectory.finish dir [] in
  let directory_length := zlen dir_bytes in
  let meta_region_len := u64 (directory_offset + directory_length + kRegionChecksumSize) in
  let fields := []
    |> put_fixed32 kMetaFormatVersion
    |> put_fixed32 0
    |> put_fixed64 meta_region_len
    |> put_fixed32 (u32 (zlen entries_))
    |> put_fixed64 directory_offset
    |> put_fixed64 directory_length in
  let region := [] |> put_bytes fields |> put_fixed32 (crc32c fields)
    |> put_each (λ e, put_bytes (entry_data e)) entries_
    |> put_bytes dir_bytes in
  let region := region |> put_fixed32 (crc32c region) in
  sink |> put_bytes region.

Record TailMetaRegionReader := mkReader {
  region_ : Slice;
  dir_ : list LogicalIndexDirectory.LogicalIndexRef;
  n_ : Z
}.

Record Header := mkHeader {
  ver : Z; hflags : Z; meta_region_len : Z; n : Z; directory_offset : Z; directory_length : Z
}.

Definition read_header : reader Header :=
  ver ← get_fixed32;
  flags ← get_fixed32;
  meta_region_len ← get_fixed64;
  n ← get_fixed32;
  directory_offset ← get_fixed64;
  directory_length ← get_fixed64;
  mret (mkHeader ver flags meta_region_len n directory_offset directory_length).

Definition open (region : Slice) : result TailMetaRegionReader :=
  _ ← reject_if (zlen region <? kHeaderSize + kRegionChecksumSize)
        (Corruption "tail_meta_region: region too short");
  let covered := zlen region - kRegionChecksumSize in
  cs ← subslice region covered kRegionChecksumSize;
  region_crc ← run_reader get_fixed32 cs;
  body ← subslice region 0 covered;
  _ ← reject_if (negb (crc32c body =? region_crc))
        (Corruption "tail_meta_region: meta_region_checksum mismatch");
  hs ← subslice region 0 kHeaderFields;
  h ← run_reader read_header hs;
  hc ← subslice region kHeaderFields 4;
  header_crc ← run_reader get_fixed32 hc;
  _ ← reject_if (negb (crc32c hs =? header_crc))
        (Corruption "tail_meta_region: header crc mismatch");
  _ ← reject_if (negb (ver h =? kMetaFormatVersion))
        (Unsupported "tail_meta_region: unsupported meta_format_version");
  _ ← reject_if (negb (meta_region_len h =? zlen region))
        (Corruption "tail_meta_region: declared length mismatch");
  _ ← reject_if ((zlen region <? u64 (directory_offset h + directory_length h))
                 || (directory_offset h <? kHeaderSize))
        (Corruption "tail_meta_region: directory out of range");
  dir_slice ← subslice region (directory_offset h) (directory_length h);
  dir ← LogicalIndexDirectory.open dir_slice;
  _ ← reject_if (negb (LogicalIndexDirectory.size dir =? n h))
        (Corruption "tail_meta_region: directory size mismatch");
  Ok (mkReader region dir (n h)).

Definition n_logical_indexes (r : TailMetaRegionReader) : Z := n_ r.

(** [None] is [*found = false]. *)
Definition find (r : TailMetaRegionReader) (id : Z) (sfx : bytes) : result (option Slice) :=
  match LogicalIndexDirectory.find (dir_ r) id sfx with
  | None => Ok None
  | Some ref =>
      _ ← reject_if (zlen (region_ r) <?
                     u64 (LogicalIndexDirectory.meta_off ref + LogicalIndexDirectory.meta_len ref))
            (Corruption "tail_meta_region: meta block out of range");
      s ← subslice (region_ r) (LogicalIndexDirectory.meta_off ref) (LogicalIndexDirectory.meta_len ref);
      Ok (Some s)
  end.

(** ** Layout *)

Definition header_bytes (h : Header) : bytes :=
  fixed32 (ver h) ++ fixed32 (hflags h) ++ fixed64 (meta_region_len h) ++ fixed32 (n h) ++
  fixed64 (directory_offset h) ++ fixed64 (directory_length h).

Definition wf_header (h : Header) : Prop :=
  is_u32 (ver h) ∧ is_u32 (hflags h) ∧ is_u64 (meta_region_len h) ∧ is_u32 (n h) ∧
  is_u64 (directory_offset h) ∧ is_u64 (directory_length h).

Definition region_body (h : Header) (mid : bytes) : bytes :=
  header_bytes h ++ fixed32 (crc32c (header_bytes h)) ++ mid.
Definition region_bytes (h : Header) (mid : bytes) : bytes :=
  region_body h mid ++ fixed32 (crc32c (region_body h mid)).

Lemma header_bytes_length h : length (header_bytes h) = 36%nat.
Proof. unfold header_bytes. by rewrite !length_app, !fixed32_length, !fixed64_length. Qed.

Lemma header_bytes_bytes h : is_bytes (header_bytes h).
Proof. unfold header_bytes. auto 10 with snii. Qed.
#[local] Hint Resolve header_bytes_bytes : snii.

Lemma reads_header h : wf_header h → reads read_header (header_bytes h) h.
Proof.
  intros (?&?&?&?&?&?). destruct h. cbn in *. unfold read_header, header_bytes. cbn.
  do 6 reads_step. apply reads_ret.
Qed.

Lemma subslice_prefix pre post : subslice (pre ++ post) 0 (zlen pre) = Ok pre.
Proof. exact (subslice_mid [] pre post). Qed.

Lemma subslice_fixed32 pre v post : subslice (pre ++ fixed32 v ++ post) (zlen pre) 4 = Ok (fixed32 v).
Proof. pose proof (subslice_mid pre (fixed32 v) post) as Hs. by rewrite fixed32_length in Hs. Qed.

Lemma run_fixed32 v : is_u32 v → run_reader get_fixed32 (fixed32 v) = Ok v.
Proof. intros. by apply reads_run, reads_get_fixed32. Qed.

(** [open] on any region whose two checksums hold, down to the directory. *)
Lemma open_region_bytes h mid :
  wf_header h → is_bytes mid →
  let region := region_bytes h mid in
  open region =
    (_ ← reject_if (negb (ver h =? kMetaFormatVersion))
           (Unsupported "tail_meta_region: unsupported meta_format_version");
     _ ← reject_if (negb (meta_region_len h =? zlen region))
           (Corruption "tail_meta_region: declared length mismatch");
     _ ← reject_if ((zlen region <? u64 (directory_offset h + directory_length h))
                    || (directory_offset h <? kHeaderSize))
           (Corruption "tail_meta_region: directory out of range");
     dir_slice ← subslice region (directory_offset h) (directory_length h);
     dir ← LogicalIndexDirectory.open dir_slice;
     _ ← reject_if (negb (LogicalIndexDirectory.size dir =? n h))
           (Corruption "tail_meta_region: directory size mismatch");
     Ok (mkReader region dir (n h))).
Proof.
  intros Hh Hmid region. unfold open.
  set (body := region_body h mid).
  assert (is_bytes body) as Hb by (subst body; unfold region_body; auto with snii).
  assert (zlen region = zlen body + 4) as Hlen.
  { subst region. unfold region_bytes. rewrite length_app, fixed32_length. fold body. lia. }
  assert (40 ≤ zlen body) as Hlb.
  { subst body. unfold region_body. rewrite !length_app, header_bytes_length, fixed32_length. lia. }
  rewrite bind_reject_false by (apply Z.ltb_ge; unfold kHeaderSize, kHeaderFields, kRegionChecksumSize; lia).
  replace (zlen region - kRegionChecksumSize) with (zlen body) by (unfold kRegionChecksumSize; lia).
  assert (region = body ++ fixed32 (crc32c body)) as Er by done.
  assert (subslice region (zlen body) kRegionChecksumSize = Ok (fixed32 (crc32c body))) as ->.
  { rewrite Er, <- (app_nil_r (fixed32 (crc32c body))) at 1. apply subslice_fixed32. }
  rewrite bind_Ok, run_fixed32, bind_Ok by auto with snii.
  assert (subslice region 0 (zlen body) = Ok body) as -> by (rewrite Er; apply subslice_prefix).
  rewrite bind_Ok, bind_reject_false by by rewrite Z.eqb_refl.
  assert (subslice region 0 kHeaderFields = Ok (header_bytes h)) as ->.
  { rewrite Er. subst body. unfold region_body. rewrite <- !app_assoc.
    replace kHeaderFields with (zlen (header_bytes h)) by by rewrite header_bytes_length.
    apply subslice_prefix. }
  rewrite bind_Ok, (reads_run _ _ _ (reads_header h Hh)), bind_Ok.
  assert (subslice region kHeaderFields 4 = Ok (fixed32 (crc32c (header_bytes h)))) as ->.
  { rewrite Er. subst body. unfold region_body. rewrite <- !app_assoc.
    replace kHeaderFields with (zlen (header_bytes h)) by by rewrite header_bytes_length.
    apply subslice_fixed32. }
  rewrite bind_Ok, run_fixed32, bind_Ok by auto with snii.
  by rewrite bind_reject_false by by rewrite Z.eqb_refl.
Qed.

Definition meta_data (entries : list Entry) : bytes := concat (map entry_data entries).

Definition wf_entry (e : Entry) : Prop :=
  is_u64 (index_id e) ∧ is_bytes (suffix e) ∧ is_u32 (zlen (suffix e)) ∧ is_bytes (entry_data e).

Lemma place_entries_spec entries offset :
  0 ≤ offset → offset + zlen (meta_data entries) < 2 ^ 64 → Forall wf_entry entries →
  let '(refs, e) := place_entries entries offset in
  e = offset + zlen (meta_data entries) ∧ length refs = length entries ∧
  Forall LogicalIndexDirectory.wf_ref refs ∧
  ∀ l1 x l2, entries = l1 ++ x :: l2 →
    ∃ r1 r2, refs = r1 ++ LogicalIndexDirectory.mkLogicalIndexRef (index_id x) (suffix x)
                      (offset + zlen (meta_data l1)) (zlen (entry_data x)) :: r2 ∧
      map (λ r, (LogicalIndexDirectory.index_id r, LogicalIndexDirectory.index_suffix r)) r1 =
      map (λ e, (index_id e, suffix e)) l1.
Proof.
  unfold meta_data. revert offset.
  induction entries as [|e entries IH]; intros offset Ho Hb Hwf; cbn [place_entries map concat].
  { cbn. split_and!; [lia|done|constructor|]. intros [|? ?] x l2; discriminate. }
  cbn [map concat] in Hb. rewrite length_app in Hb |- *.
  apply Forall_cons in Hwf as [(?&?&?&?) Hwf]. rewrite u64_small by (unfold is_u64; lia).
  specialize (IH (offset + zlen (entry_data e)) ltac:(lia) ltac:(lia) Hwf).
  destruct (place_entries entries _) as [refs e']. destruct IH as (-> & Hlen & Hrefs & Hpos).
  split_and!; [lia|cbn; lia| |].
  - constructor; [|done]. unfold LogicalIndexDirectory.wf_ref. cbn. unfold is_u64 in *.
    split_and!; (done || lia).
  - intros [|y l1] x l2 [= <- ->].
    + exists [], refs. cbn. rewrite Z.add_0_r. done.
    + destruct (Hpos l1 x l2 eq_refl) as (r1 & r2 & -> & Hkeys). eexists (_ :: r1), r2. cbn [map concat].
      rewrite length_app, Nat2Z.inj_add, Z.add_assoc. split; [done|]. cbn. by rewrite Hkeys.
Qed.

(** The bytes [finish] appends, whatever the arithmetic of the offsets. *)
Definition written_header (entries : list Entry) : Header :=
  let '(refs, off) := place_entries entries kHeaderSize in
  let dlen := zlen (LogicalIndexDirectory.directory_bytes refs) in
  mkHeader kMetaFormatVersion 0 (u64 (off + dlen + kRegionChecksumSize)) (u32 (zlen entries)) off dlen.

Definition written_mid (entries : list Entry) : bytes :=
  meta_data entries ++ LogicalIndexDirectory.directory_bytes (place_entries entries kHeaderSize).1.

Lemma tmr_finish_app entries sink :
  finish entries sink = sink ++ region_bytes (written_header entries) (written_mid entries).
Proof.
  unfold finish, written_header, written_mid, region_bytes, region_body, header_bytes, meta_data.
  destruct (place_entries entries kHeaderSize) as [refs off]. cbn [fst].
  rewrite LogicalIndexDirectory.lid_finish_app. cbn [ver hflags meta_region_len n directory_offset directory_length].
  rewrite (put_each_app _ entry_data) by done. autorewrite with sink. done.
Qed.

Lemma region_bytes_length h mid : zlen (region_bytes h mid) = kHeaderSize + zlen mid + 4.
Proof.
  unfold region_bytes, region_body, kHeaderSize, kHeaderFields.
  rewrite !length_app, header_bytes_length, !fixed32_length. lia.
Qed.

Lemma meta_data_bytes entries : Forall wf_entry entries → is_bytes (meta_data entries).
Proof.
  intros Hwf. apply concat_is_bytes. eapply Forall_impl; [exact Hwf|]. by intros e (?&?&?&?).
Qed.

Section Written.
Variable entries : list Entry.
Hypothesis entries_wf : Forall wf_entry entries.
Hypothesis entries_count : is_u32 (zlen entries).
Hypothesis region_size : is_u64 (zlen (finish entries [])).

Let refs := (place_entries entries kHeaderSize).1.
Let dir := LogicalIndexDirectory.directory_bytes refs.
Let region := region_bytes (written_header entries) (written_mid entries).

Lemma written_size : zlen region = 40 + zlen (meta_data entries) + zlen dir + 4 ∧ zlen region < 2 ^ 64.
Proof.
  assert (zlen region = 40 + zlen (meta_data entries) + zlen dir + 4) as E.
  { subst region. rewrite region_bytes_length. unfold written_mid. rewrite length_app.
    unfold dir, refs. assert (kHeaderSize = 40) by done. lia. }
  split; [done|]. rewrite tmr_finish_app in region_size. apply region_size.
Qed.

Lemma written_refs :
  place_entries entries kHeaderSize = (refs, kHeaderSize + zlen (meta_data entries)) ∧
  length refs = length entries ∧ Forall LogicalIndexDirectory.wf_ref refs ∧
  ∀ l1 x l2, entries = l1 ++ x :: l2 →
    ∃ r1 r2, refs = r1 ++ LogicalIndexDirectory.mkLogicalIndexRef (index_id x) (suffix x)
                      (kHeaderSize + zlen (meta_data l1)) (zlen (entry_data x)) :: r2 ∧
      map (λ r, (LogicalIndexDirectory.index_id r, LogicalIndexDirectory.index_suffix r)) r1 =
      map (λ e, (index_id e, suffix e)) l1.
Proof.
  pose proof written_size as [Hs Hlt]. change kHeaderSize with 40.
  pose proof (place_entries_spec entries 40 ltac:(lia) ltac:(lia) entries_wf) as Hp.
  subst refs. change kHeaderSize with 40. destruct (place_entries entries 40) as [rs off].
  destruct Hp as (-> & Hp). split; [done|exact Hp].
Qed.

Lemma written_header_eq :
  written_header entries =
    mkHeader kMetaFormatVersion 0 (zlen region) (zlen entries)
      (kHeaderSize + zlen (meta_data entries)) (zlen dir).
Proof.
  pose proof written_size as [Hs Hlt]. unfold written_header.
  rewrite (proj1 written_refs). fold dir. change kHeaderSize with 40. unfold kRegionChecksumSize.
  rewrite u64_small, u32_small by (done || unfold is_u64; lia). f_equal. lia.
Qed.

Lemma written_dir_bytes : is_bytes dir.
Proof.
  apply section_bytes_is_bytes; [by vm_compute|].
  apply LogicalIndexDirectory.lid_directory_payload_bytes, written_refs.
Qed.

Lemma written_split : ∃ head tail,
  zlen head = kHeaderSize ∧ region = head ++ meta_data entries ++ dir ++ tail.
Proof.
  unfold region, region_bytes. set (crc := fixed32 (crc32c (region_body _ _))).
  set (h := written_header entries).
  exists (header_bytes h ++ fixed32 (crc32c (header_bytes h))), crc. split.
  - by rewrite length_app, header_bytes_length, fixed32_length.
  - unfold region_body, written_mid. fold refs dir. by rewrite <- !app_assoc.
Qed.

Lemma open_written : open region = Ok (mkReader region refs (zlen entries)).
Proof.
  pose proof written_size as [Hs Hlt]. pose proof written_refs as (_ & Hlen & Hrefs & _).
  destruct written_split as (head & tail & Hhead & Hsplit).
  assert (wf_header (written_header entries)) as Hh.
  { rewrite written_header_eq. unfold wf_header.
    cbn [ver hflags meta_region_len n directory_offset directory_length].
    change kHeaderSize with 40. unfold kMetaFormatVersion, is_u32, is_u64 in *. lia. }
  assert (is_bytes (written_mid entries)) as Hmid.
  { unfold written_mid. apply Forall_app_2; [by apply meta_data_bytes|apply written_dir_bytes]. }
  unfold region at 1. rewrite open_region_bytes by done. fold region. rewrite written_header_eq.
  cbn [ver hflags meta_region_len n directory_offset directory_length].
  rewrite bind_reject_false by done. rewrite bind_reject_false by by rewrite Z.eqb_refl.
  assert (kHeaderSize = 40) as Hk by done.
  rewrite bind_reject_false.
  2: { apply orb_false_iff. split; apply Z.ltb_ge; [rewrite u64_small; [|unfold is_u64]|]; lia. }
  assert (subslice region (kHeaderSize + zlen (meta_data entries)) (zlen dir) = Ok dir) as ->.
  { rewrite Hsplit, (app_assoc head), <- Hhead, <- Nat2Z.inj_add, <- length_app. apply subslice_mid. }
  assert (is_u32 (zlen refs)) as Hnr by by rewrite Hlen.
  rewrite bind_Ok. unfold dir. rewrite LogicalIndexDirectory.lid_open_directory; [|done..|].
  - unfold LogicalIndexDirectory.size. rewrite bind_Ok, u32_small by done.
    by rewrite bind_reject_false by by rewrite Hlen, Z.eqb_refl.
  - assert (zlen (LogicalIndexDirectory.directory_payload refs) ≤ zlen dir).
    { unfold dir, LogicalIndexDirectory.directory_bytes, section_bytes, framed_bytes.
      rewrite !length_app. lia. }
    unfold is_u64. lia.
Qed.

Lemma find_written l1 e l2 :
  entries = l1 ++ e :: l2 →
  Forall (λ x, (index_id x, suffix x) ≠ (index_id e, suffix e)) l1 →
  find (mkReader region refs (zlen entries)) (index_id e) (suffix e) = Ok (Some (entry_data e)).
Proof.
  intros He Hfirst. pose proof written_size as [Hs Hlt].
  pose proof written_refs as (_ & _ & _ & Hpos). destruct (Hpos l1 e l2 He) as (r1 & r2 & Hr & Hkeys).
  destruct written_split as (head & tail & Hhead & Hsplit).
  unfold find. cbn [dir_ region_]. rewrite Hr. set (ref := LogicalIndexDirectory.mkLogicalIndexRef _ _ _ _).
  change (index_id e) with (LogicalIndexDirectory.index_id ref).
  change (suffix e) with (LogicalIndexDirectory.index_suffix ref).
  rewrite LogicalIndexDirectory.find_first.
  - cbn [LogicalIndexDirectory.meta_off LogicalIndexDirectory.meta_len ref].
    assert (meta_data entries = meta_data l1 ++ entry_data e ++ meta_data l2) as Hm.
    { unfold meta_data. by rewrite He, map_app, concat_app. }
    assert (kHeaderSize = 40) as Hk by done.
    assert (zlen (meta_data entries) =
      zlen (meta_data l1) + zlen (entry_data e) + zlen (meta_data l2)) as Hml.
    { rewrite Hm, !length_app. lia. }
    rewrite bind_reject_false.
    2: { apply Z.ltb_ge. rewrite u64_small; [|unfold is_u64]; lia. }
    rewrite Hsplit, Hm, <- !app_assoc, (app_assoc head), <- Hhead, <- Nat2Z.inj_add, <- length_app.
    by rewrite subslice_mid.
  - cbn. change (Forall (λ x, (λ p, p ≠ (index_id e, suffix e))
      ((λ r, (LogicalIndexDirectory.index_id r, LogicalIndexDirectory.index_suffix r)) x)) r1).
    apply Forall_map. rewrite Hkeys. by apply Forall_map.
Qed.

Lemma written_keys :
  map (λ r, (LogicalIndexDirectory.index_id r, LogicalIndexDirectory.index_suffix r)) refs =
  map (λ e, (index_id e, suffix e)) entries.
Proof.
  pose proof written_refs as (_ & Hlen & _ & Hpos). destruct (decide (entries = [])) as [He|Hne].
  - rewrite He in Hlen |- *. apply nil_length_inv in Hlen. by rewrite Hlen.
  - destruct (exists_last Hne) as (l & e & He). destruct (Hpos l e [] He) as (r1 & r2 & Hr & Hkeys). rewrite Hr, He, !map_app, Hkeys. cbn [map].
    assert (length r2 = 0%nat) as Hr2.
    { apply (f_equal length) in Hkeys. rewrite !length_map in Hkeys. rewrite Hr, He, !length_app in Hlen.
      cbn [length] in Hlen. lia. }
    by destruct r2.
Qed.

Lemma find_absent id sfx :
  (id, sfx) ∉ map (λ e, (index_id e, suffix e)) entries → find (mkReader region refs (zlen entries)) id sfx = Ok None.
Proof. intros Ha. unfold find. cbn [dir_]. by rewrite LogicalIndexDirectory.find_key_absent by by rewrite written_keys. Qed.
End Written.

(** ** Properties *)

(** the region a builder writes is opened, and the meta block of an index is
    found, byte for byte, under the key it was first added with. *)
Theorem tail_meta_region_find entries1 e entries2 :
  let entries := entries1 ++ e :: entries2 in
  Forall wf_entry entries → is_u32 (zlen entries) → is_u64 (zlen (finish entries [])) →
  Forall (λ x, (index_id x, suffix x) ≠ (index_id e, suffix e)) entries1 →
  ∃ r, open (finish entries []) = Ok r ∧ n_logical_indexes r = zlen entries ∧
    find r (index_id e) (suffix e) = Ok (Some (entry_data e)).
Proof.
  intros entries Hwf Hn Hsize Hfirst. eexists. split_and!.
  - rewrite tmr_finish_app. by apply open_written.
  - done.
  - by eapply find_written.
Qed.

(** The sum of the directory's offset and length wraps modulo [2^64]: a region
    with valid checksums sends [open] outside its buffer. *)
Definition wrapping_region : bytes :=
  region_bytes (mkHeader kMetaFormatVersion 0 44 0 (2 ^ 64 - 8) 8) [].

Example open_wraps : open wrapping_region = Undef.
Proof. vm_compute. reflexivity. Qed.

Lemma tail_meta_region_find_witness :
  let entries := [mkEntry 1 [] [9; 8]; mkEntry 1 [97] [7; 7; 7]] in
  ∃ r, open (finish entries []) = Ok r ∧ n_logical_indexes r = 2 ∧ find r 1 [97] = Ok (Some [7; 7; 7]).
Proof.
  apply (tail_meta_region_find [mkEntry 1 [] [9; 8]] (mkEntry 1 [97] [7; 7; 7]) []).
  - repeat constructor; cbn; lia.
  - cbn. ulia.
  - vm_compute. split; [discriminate|reflexivity].
  - repeat constructor. discriminate.
Defined.
