(* ===== verification/TermKey.v ===== *)
(** * TermKey: term bytes, their order and their front coding.

    The helpers [common_prefix_len], [write_term_key] and [read_term_key] that
    [format/dict_entry.cpp] and [format/sampled_term_index.cpp] both define (the
    two copies differ in the message of one error), and the comparison of
    [std::string_view]s, which is the unsigned lexicographic order of bytes. *)

From S2P Require Import Prelude Status Varint ByteIO.

#[local] Open Scope Z_scope.

(** ** [std::string_view] comparison *)

Fixpoint term_ltb (s t : bytes) : bool :=
  match s, t with
  | _, [] => false
  | [], _ :: _ => true
  | a :: s, b :: t => (a <? b) || ((a =? b) && term_ltb s t)
  end.

Definition term_lt (s t : bytes) : Prop := term_ltb s t = true.
#[export] Instance term_lt_dec s t : Decision (term_lt s t).
Proof. unfold term_lt. apply _. Defined.

Lemma term_ltb_irrefl s : term_ltb s s = false.
Proof. induction s as [|a s IH]; cbn; [done|]. by rewrite Z.ltb_irrefl, Z.eqb_refl, IH. Qed.

Lemma term_lt_cons a s b t : term_lt (a :: s) (b :: t) ↔ a < b ∨ a = b ∧ term_lt s t.
Proof. unfold term_lt. cbn. rewrite orb_true_iff, andb_true_iff, Z.ltb_lt, Z.eqb_eq. done. Qed.

Lemma term_lt_trans s t u : term_lt s t → term_lt t u → term_lt s u.
Proof.
  revert t u. induction s as [|a s IH]; intros [|b t] [|c u]; try done.
  rewrite !term_lt_cons. intros [?|[-> ?]] [?|[-> ?]]; [left; lia..|]. right. eauto.
Qed.

Lemma term_trichotomy s t : term_lt s t ∨ s = t ∨ term_lt t s.
Proof.
  revert t. induction s as [|a s IH]; intros [|b t]; [by right; left|by left|by right; right|].
  rewrite !term_lt_cons. destruct (Z.lt_trichotomy a b) as [?|[->|?]]; [tauto| |tauto].
  destruct (IH t) as [?|[->|?]]; tauto.
Qed.

#[export] Instance term_lt_strict : StrictOrder term_lt.
Proof.
  split; [|exact term_lt_trans]. intros s Hs. unfold term_lt in Hs. by rewrite term_ltb_irrefl in Hs.
Qed.
#[export] Instance term_lt_trichotomy : Trichotomy term_lt.
Proof. exact term_trichotomy. Qed.

Lemma term_ltb_false s t : term_ltb s t = false ↔ ¬ term_lt s t.
Proof. unfold term_lt. destruct (term_ltb s t); naive_solver. Qed.

Lemma term_ltb_antisym s t : term_lt s t → term_ltb t s = false.
Proof. intros Hst. apply term_ltb_false. intros Hts. by apply (irreflexivity term_lt s), (term_lt_trans _ t). Qed.

(** [s <= t] *)
Definition term_leb (s t : bytes) : bool := negb (term_ltb t s).
Definition term_le (s t : bytes) : Prop := term_leb s t = true.

Lemma term_le_cases s t : term_le s t ↔ s = t ∨ term_lt s t.
Proof.
  unfold term_le, term_leb. rewrite negb_true_iff, term_ltb_false. split.
  - destruct (term_trichotomy s t) as [?|[?|?]]; tauto.
  - intros [->|Hst] Hts; [by apply (irreflexivity term_lt t)|].
    by apply (irreflexivity term_lt s), (term_lt_trans _ t).
Qed.

Lemma term_le_lt_trans s t u : term_le s t → term_lt t u → term_lt s u.
Proof. rewrite term_le_cases. intros [->|?] ?; [done|]. by eapply term_lt_trans. Qed.
Lemma term_lt_le_trans s t u : term_lt s t → term_le t u → term_lt s u.
Proof. rewrite term_le_cases. intros ? [<-|?]; [done|]. by eapply term_lt_trans. Qed.

(** ** Front coding *)

(** [while (n < lim && term[n] == prev[n]) ++n;] *)
Fixpoint common_prefix_loop (lim : nat) (term prev : bytes) (n : Z) : Z :=
  match lim, term, prev with
  | S lim, a :: term, b :: prev => if a =? b then common_prefix_loop lim term prev (n + 1) else n
  | _, _, _ => n
  end.
Definition common_prefix_len (term prev : bytes) : Z :=
  let lim := u32 (Z.min (zlen term) (zlen prev)) in
  common_prefix_loop (Z.to_nat lim) term prev 0.

Definition write_term_key (term prev : bytes) (sink : ByteSink) : ByteSink :=
  let prefix := common_prefix_len term prev in
  let suffix := drop (Z.to_nat prefix) term in
  sink |> put_varint32 prefix |> put_varint32 (u32 (zlen suffix)) |> put_bytes suffix.

Definition read_term_key (err : string) (prev : bytes) : reader bytes :=
  prefix ← get_varint32;
  suffix_len ← get_varint32;
  _ ← return_if (zlen prev <? prefix) (Corruption err);
  suffix ← get_bytes suffix_len;
  mret (take (Z.to_nat prefix) prev ++ suffix).

(** A term the program can store: bytes, with a length of 32 bits. *)
Definition wf_term (t : bytes) : Prop := is_bytes t ∧ is_u32 (zlen t).
#[export] Instance wf_term_dec t : Decision (wf_term t).
Proof. unfold wf_term. apply _. Defined.

Lemma common_prefix_loop_spec lim term prev n :
  ∃ k : nat, common_prefix_loop lim term prev n = n + Z.of_nat k ∧
    (k ≤ length term)%nat ∧ (k ≤ length prev)%nat ∧ take k term = take k prev.
Proof.
  revert term prev n. induction lim as [|lim IH]; intros [|a term] [|b prev] n; cbn [common_prefix_loop];
    try (exists 0%nat; cbn; split_and!; (done || lia)).
  destruct (Z.eqb_spec a b) as [->|]; [|exists 0%nat; cbn; split_and!; (done || lia)].
  destruct (IH term prev (n + 1)) as (k & -> & Ht & Hp & Heq).
  exists (S k). cbn [take length]. split_and!; [lia|lia|lia|by rewrite Heq].
Qed.

Lemma common_prefix_len_spec term prev :
  0 ≤ common_prefix_len term prev ≤ zlen term ∧ common_prefix_len term prev ≤ zlen prev ∧
  take (Z.to_nat (common_prefix_len term prev)) term =
  take (Z.to_nat (common_prefix_len term prev)) prev.
Proof.
  unfold common_prefix_len.
  destruct (common_prefix_loop_spec (Z.to_nat (u32 (Z.min (zlen term) (zlen prev)))) term prev 0)
    as (k & -> & ? & ? & Heq).
  rewrite Z.add_0_l, Nat2Z.id. split_and!; (done || lia).
Qed.

Definition term_key_bytes (term prev : bytes) : bytes :=
  let prefix := common_prefix_len term prev in
  let suffix := drop (Z.to_nat prefix) term in
  encode_varint64 prefix ++ encode_varint64 (u32 (zlen suffix)) ++ suffix.

Lemma write_term_key_app term prev sink :
  write_term_key term prev sink = sink ++ term_key_bytes term prev.
Proof. unfold write_term_key, term_key_bytes. autorewrite with sink. done. Qed.
#[export] Hint Rewrite write_term_key_app : sink.

Lemma term_key_bytes_is_bytes term prev : wf_term term → is_bytes (term_key_bytes term prev).
Proof.
  intros [Ht _]. unfold term_key_bytes. repeat apply Forall_app_2; auto with snii. by apply Forall_drop.
Qed.
#[export] Hint Resolve term_key_bytes_is_bytes : snii.

Lemma term_key_bytes_pos term prev : (2 ≤ length (term_key_bytes term prev))%nat.
Proof.
  unfold term_key_bytes. rewrite !length_app.
  pose proof (encode_varint64_length_pos (common_prefix_len term prev)).
  pose proof (encode_varint64_length_pos (u32 (zlen (drop (Z.to_nat (common_prefix_len term prev)) term)))).
  lia.
Qed.

Lemma reads_term_key err term prev :
  wf_term term → reads (read_term_key err prev) (term_key_bytes term prev) term.
Proof.
  intros [_ Hlen]. unfold read_term_key, term_key_bytes.
  pose proof (common_prefix_len_spec term prev) as (Hp & Hpp & Heq).
  set (p := common_prefix_len term prev) in *.
  assert (is_u32 (zlen (drop (Z.to_nat p) term))) as Hs by (rewrite length_drop; unfold is_u32 in *; lia).
  rewrite (u32_small (zlen _)) by done.
  eapply reads_bind; [apply reads_get_varint32; unfold is_u32 in *; lia|].
  eapply reads_bind; [by apply reads_get_varint32|].
  reads_guard; [apply Z.ltb_ge; lia|].
  eapply reads_last; [by apply reads_get_bytes|].
  rewrite <- Heq, take_drop. apply reads_ret.
Qed.
#[export] Hint Resolve reads_term_key : reads.

Lemma safe_read_term_key err prev : safe (read_term_key err prev).
Proof.
  unfold read_term_key. eapply safe_bind; [apply safe_get_varint32|]. intros p [? _].
  eapply safe_bind; [apply safe_get_varint32|]. intros n [? _]. safe_step.
  eapply safe_bind; [by apply safe_get_bytes|]. intros s _. by apply safe_ret.
Qed.
#[export] Hint Resolve safe_read_term_key : safe.

(** ** Strictly ascending term lists and binary search *)

(** [std::upper_bound] on a sorted vector: the number of terms [<= target]. The
    loop is the standard's halving of a [first, count] range; fuel [count]. *)
Fixpoint upper_bound_loop (fuel : nat) (terms : list bytes) (target : bytes) (first count : Z) : Z :=
  match fuel with
  | O => first
  | S fuel =>
      if 0 <? count then
        let step := count / 2 in
        match terms !! Z.to_nat (first + step) with
        | Some s =>
            if negb (term_ltb target s)
            then upper_bound_loop fuel terms target (first + step + 1) (count - (step + 1))
            else upper_bound_loop fuel terms target first step
        | None => first
        end
      else first
  end.
Definition upper_bound (terms : list bytes) (target : bytes) : Z :=
  upper_bound_loop (length terms) terms target 0 (zlen terms).

Lemma upper_bound_loop_spec fuel terms target first count :
  StronglySorted term_le terms → 0 ≤ first → 0 ≤ count ≤ Z.of_nat fuel → first + count ≤ zlen terms →
  (∀ (i : nat) s, terms !! i = Some s → Z.of_nat i < first → term_le s target) →
  (∀ (i : nat) s, terms !! i = Some s → first + count ≤ Z.of_nat i → term_lt target s) →
  let r := upper_bound_loop fuel terms target first count in
  first ≤ r ≤ first + count ∧
  (∀ (i : nat) s, terms !! i = Some s → Z.of_nat i < r → term_le s target) ∧
  (∀ (i : nat) s, terms !! i = Some s → r ≤ Z.of_nat i → term_lt target s).
Proof.
  intros Hsorted. revert first count.
  assert (∀ (i j : nat) s t, terms !! i = Some s → terms !! j = Some t → (i ≤ j)%nat → term_le s t) as Hmono.
  { intros i j s t Hi Hj Hij. destruct (decide (i = j)) as [->|].
    - rewrite Hi in Hj. injection Hj as ->. apply term_le_cases. by left.
    - eapply StronglySorted_lookup_lt; [done|exact Hi|exact Hj|lia]. }
  induction fuel as [|fuel IH]; intros first count Hf Hc Hlen Hlo Hhi r; subst r; cbn [upper_bound_loop].
  { split_and!; [lia|lia|done|]. intros i s Hi Hr. apply (Hhi i); [done|lia]. }
  destruct (Z.ltb_spec 0 count) as [Hpos|].
  2: { split_and!; [lia|lia|done|]. intros i s Hi Hr. apply (Hhi i); [done|lia]. }
  assert (0 ≤ count / 2 < count) as Hstep by (split; [apply Z.div_pos; lia|apply Z.div_lt; lia]).
  set (step := count / 2) in *.
  destruct (lookup_lt_is_Some_2 terms (Z.to_nat (first + step))) as [s Hs]; [lia|]. rewrite Hs.
  destruct (term_ltb target s) eqn:Hlt; cbn [negb].
  - destruct (IH first step) as (Hr & Hl & Hh); [lia|lia|lia|done| |].
    + intros i t Hi Hge. apply (term_lt_le_trans _ s); [exact Hlt|]. eapply Hmono; [exact Hs|exact Hi|lia].
    + split_and!; [lia|lia|exact Hl|exact Hh].
  - destruct (IH (first + step + 1) (count - (step + 1))) as (Hr & Hl & Hh); [lia|lia|lia| | |].
    + intros i t Hi Hge. assert (term_le t s) as Hts by (eapply Hmono; [exact Hi|exact Hs|lia]).
      assert (term_le s target) as Hst by (unfold term_le, term_leb; by rewrite Hlt).
      apply term_le_cases in Hts as [->|Hts]; [done|]. apply term_le_cases. right.
      by eapply term_lt_le_trans.
    + intros i t Hi Hge. apply (Hhi i); [done|lia].
    + split_and!; [lia|lia|exact Hl|exact Hh].
Qed.
