(* ===== verification/SampledTermIndex.v ===== *)
(** * SampledTermIndex: from a term to the DICT block that may hold it.

    [format/sampled_term_index.h] and [.cpp]. Builder and reader are the vector
    of first terms they hold. [std::upper_bound] is [TermKey.upper_bound]. *)

From S2P Require Import Prelude Status Varint ByteIO SectionFramer FormatConstants TermKey.

#[local] Open Scope Z_scope.

Definition prefix_error : string := "sampled_term_index: prefix_len exceeds prev_term length".

Definition add_block_first_term (first_term : bytes) (first_terms_ : list bytes) : list bytes :=
  first_terms_ ++ [first_term].

(** The loop over the sample terms, each front coded against the previous. *)
Fixpoint write_samples (terms : list bytes) (prev : bytes) (payload : ByteSink) : ByteSink :=
  match terms with
  | [] => payload
  | t :: terms => write_samples terms t (payload |> write_term_key t prev)
  end.

Definition finish (first_terms_ : list bytes) (sink : ByteSink) : ByteSink :=
  let payload := [] |> put_varint32 (u32 (zlen first_terms_)) in
  let payload :=
    match first_terms_ with
    | [] => payload
    | front :: _ =>
        payload |> write_term_key front [] |> write_term_key (List.last first_terms_ front) []
        |> write_samples first_terms_ []
    end in
  SectionFramer.write sink (section_type_u8 kSampledTermIndex) payload.

Fixpoint read_samples (n : nat) (prev : bytes) : reader (list bytes) :=
  match n with
  | O => mret []
  | S n => term ← read_term_key prefix_error prev; rest ← read_samples n term; mret (term :: rest)
  end.

Definition read_payload : reader (list bytes) :=
  n_blocks ← get_varint32;
  if n_blocks =? 0 then
    at_end ← get_eof;
    _ ← return_if (negb at_end)
          (Corruption "sampled_term_index: empty index contains trailing bytes");
    mret []
  else
    min_term ← read_term_key prefix_error [];
    max_term ← read_term_key prefix_error [];
    out ← read_samples (Z.to_nat n_blocks) [];
    at_end ← get_eof;
    _ ← return_if (negb at_end) (Corruption "sampled_term_index: payload contains trailing bytes");
    _ ← return_if (negb (bool_decide (head out = Some min_term)) ||
                   negb (bool_decide (last out = Some max_term)))
          (Corruption "sampled_term_index: min/max inconsistent with sample_terms");
    mret out.

Definition parse_payload (payload : Slice) : result (list bytes) := run_reader read_payload payload.

Definition open (section : Slice) : result (list bytes) :=
  '(sec, _) ← SectionFramer.read (source section);
  _ ← reject_if (negb (type sec =? section_type_u8 kSampledTermIndex))
        (InvalidArgument "sampled_term_index: not a kSampledTermIndex section");
  parse_payload (payload sec).

Definition n_blocks (sample_terms_ : list bytes) : Z := u32 (zlen sample_terms_).

(** [Some ordinal] is [*maybe_present = true]. *)
Definition locate (sample_terms_ : list bytes) (target : bytes) : option Z :=
  match sample_terms_ with
  | [] => None
  | front :: _ =>
      if term_ltb target front then None
      else Some (u32 (upper_bound sample_terms_ target - 1))
  end.

(** ** Layout *)

Fixpoint samples_bytes (terms : list bytes) (prev : bytes) : bytes :=
  match terms with
  | [] => []
  | t :: terms => term_key_bytes t prev ++ samples_bytes terms t
  end.

Definition payload_bytes (terms : list bytes) : bytes :=
  encode_varint64 (u32 (zlen terms)) ++
  match terms with
  | [] => []
  | front :: _ =>
      term_key_bytes front [] ++ term_key_bytes (List.last terms front) [] ++ samples_bytes terms []
  end.

Lemma write_samples_app terms prev sink :
  write_samples terms prev sink = sink ++ samples_bytes terms prev.
Proof.
  revert prev sink. induction terms as [|t terms IH]; intros prev sink; cbn [write_samples samples_bytes].
  - by rewrite app_nil_r.
  - rewrite IH. by autorewrite with sink.
Qed.

Lemma sti_finish_app terms sink :
  finish terms sink = sink ++ section_bytes (section_type_u8 kSampledTermIndex) (payload_bytes terms).
Proof.
  unfold finish, payload_bytes. destruct terms as [|front terms].
  - by autorewrite with sink.
  - rewrite write_samples_app. autorewrite with sink. done.
Qed.

Lemma samples_bytes_is_bytes terms prev : Forall wf_term terms → is_bytes (samples_bytes terms prev).
Proof.
  intros Ht. revert prev. induction Ht as [|t terms Ht Hts IH]; intros prev; cbn [samples_bytes];
    auto with snii.
Qed.

Lemma last_wf front terms : Forall wf_term (front :: terms) → wf_term (List.last (front :: terms) front).
Proof.
  intros Hwf. rewrite Forall_forall in Hwf. apply Hwf.
  rewrite (app_removelast_last (l := front :: terms) front) at 2 by done.
  apply elem_of_app. right. by apply list_elem_of_singleton.
Qed.

Lemma payload_bytes_is_bytes terms : Forall wf_term terms → is_bytes (payload_bytes terms).
Proof.
  intros Ht. unfold payload_bytes. apply Forall_app_2; [auto with snii|].
  destruct terms as [|front terms]; [constructor|].
  pose proof (last_wf _ _ Ht). apply Forall_cons in Ht as Ht'. destruct Ht' as [Hf _].
  apply Forall_app_2; [by apply term_key_bytes_is_bytes|].
  apply Forall_app_2; [by apply term_key_bytes_is_bytes|by apply samples_bytes_is_bytes].
Qed.

Lemma reads_samples terms prev :
  Forall wf_term terms → reads (read_samples (length terms) prev) (samples_bytes terms prev) terms.
Proof.
  intros Ht. revert prev. induction Ht as [|t terms Ht Hts IH]; intros prev; cbn [read_samples samples_bytes length].
  { apply reads_ret. }
  reads_step. eapply reads_last; [apply IH|]. apply reads_ret.
Qed.

Lemma parse_payload_bytes terms :
  Forall wf_term terms → is_u32 (zlen terms) → parse_payload (payload_bytes terms) = Ok terms.
Proof.
  intros Ht Hn. unfold parse_payload, payload_bytes, run_reader, read_payload. rewrite (u32_small _ Hn).
  destruct terms as [|front terms].
  { rewrite (bind_reads_source get_varint32 _ _ _ 0) by (apply reads_get_varint32; ulia). done. }
  set (l := front :: terms) in *.
  rewrite (bind_reads_source get_varint32 _ _ _ (zlen l)) by by apply reads_get_varint32.
  rewrite (proj2 (Z.eqb_neq _ _)) by (subst l; cbn [length]; lia).
  rewrite (bind_reads _ _ _ _ _ front) by (apply reads_term_key; by apply Forall_cons in Ht as [? _]).
  rewrite (bind_reads _ _ _ _ _ (List.last l front)) by by apply reads_term_key, last_wf.
  rewrite Nat2Z.id, (bind_reads_end _ _ _ _ l) by by apply reads_samples.
  rewrite bind_get_eof_end, bind_return_if. cbn [negb].
  rewrite bind_return_if, (bool_decide_true (head l = Some front)) by done.
  rewrite bool_decide_true; [done|]. subst l.
  rewrite (app_removelast_last (l := front :: terms) front) at 1 by done. apply last_snoc.
Qed.

Lemma sti_open_finish terms :
  Forall wf_term terms → is_u32 (zlen terms) → is_u64 (zlen (payload_bytes terms)) →
  open (finish terms []) = Ok terms.
Proof.
  intros Ht Hn Hlen. rewrite sti_finish_app. cbn [app]. unfold open, source.
  pose proof (reads_section (section_type_u8 kSampledTermIndex) (payload_bytes terms)
    ltac:(by vm_compute) (payload_bytes_is_bytes _ Ht) Hlen [] []) as Hr.
  cbn [app length] in Hr. rewrite app_nil_r in Hr. rewrite Hr. cbn.
  by apply parse_payload_bytes.
Qed.

Lemma safe_read_samples n prev : safe_post (read_samples n prev) (λ l, length l = n).
Proof.
  revert prev. induction n as [|n IH]; intros prev; cbn [read_samples]; [by apply safe_ret|].
  safe_step. eapply safe_bind; [apply IH|]. intros l Hl. apply safe_ret. cbn. by rewrite Hl.
Qed.

Lemma sti_safe_read_payload : safe_post read_payload (λ l, is_u32 (zlen l)).
Proof.
  unfold read_payload. eapply safe_bind; [apply safe_get_varint32|]. intros n Hn.
  destruct (n =? 0); [do 2 safe_step; apply safe_ret; cbn; ulia|]. do 2 safe_step.
  eapply safe_bind; [apply safe_read_samples|]. intros l Hl. do 3 safe_step.
  apply safe_ret. rewrite Hl. unfold is_u32 in *. lia.
Qed.

Lemma sti_open_spec section :
  defined (open section) ∧ ∀ terms, open section = Ok terms → is_u32 (zlen terms).
Proof.
  unfold open. pose proof (safe_read (source section)) as Hr.
  destruct (SectionFramer.read (source section)) as [[sec src]| |]; cbn;
    [|done|exfalso; apply Hr; unfold wf_source; cbn; lia].
  destruct (negb _); [done|]. cbn. apply (safe_run _ _ _ sti_safe_read_payload).
Qed.

(** ** Locating *)

(** The block whose range of terms contains the target: the last one whose
    first term is at most the target. *)
Definition block_of (terms : list bytes) (target : bytes) (i : nat) : Prop :=
  (∃ s, terms !! i = Some s ∧ term_le s target) ∧
  (∀ (j : nat) s, terms !! j = Some s → (i < j)%nat → term_lt target s).

Lemma locate_spec terms target :
  StronglySorted term_lt terms → is_u32 (zlen terms) →
  match locate terms target with
  | None => ∀ s, s ∈ terms → term_lt target s
  | Some i => 0 ≤ i < zlen terms ∧ block_of terms target (Z.to_nat i)
  end.
Proof.
  intros Hs Hn. unfold locate. destruct terms as [|front terms]; [by intros s ?%elem_of_nil|].
  set (l := front :: terms) in *. destruct (term_ltb target front) eqn:Hlt.
  { intros s Hin. apply list_elem_of_lookup in Hin as [[|i] Hi]; [by injection Hi as <-|].
    eapply term_lt_trans; [exact Hlt|].
    by apply (StronglySorted_lookup_lt term_lt l 0 (S i)); [..|lia]. }
  assert (StronglySorted term_le l) as Hs'.
  { clear -Hs. induction Hs as [|x k Hk IH Hx]; constructor; [done|].
    eapply Forall_impl; [exact Hx|]. intros y Hy. apply term_le_cases. by right. }
  destruct (upper_bound_loop_spec (length l) l target 0 (zlen l)) as (Hr & Hlo & Hhi);
    [done|lia|lia|lia|intros; lia|intros i s Hi; apply lookup_lt_Some in Hi; lia|].
  fold (upper_bound l target) in *. set (r := upper_bound l target) in *.
  assert (0 < r) as Hpos.
  { destruct (Z.le_gt_cases r 0); [|done]. specialize (Hhi 0%nat front eq_refl ltac:(lia)).
    apply term_ltb_false in Hlt. done. }
  rewrite u32_small by (unfold is_u32 in *; lia). split; [lia|]. split.
  - destruct (lookup_lt_is_Some_2 l (Z.to_nat (r - 1))) as [s Hi]; [lia|].
    exists s. split; [done|]. apply (Hlo _ _ Hi). lia.
  - intros j s Hj Hij. apply (Hhi j); [done|lia].
Qed.

(** ** Properties *)

(** over the first terms of a sorted dictionary, [locate] on the index read
    back names the one block that can hold the target, and reports absence only
    of terms below the first one. *)
Theorem sampled_term_index_locate terms target :
  Forall wf_term terms → is_u32 (zlen terms) → is_u64 (zlen (payload_bytes terms)) →
  StronglySorted term_lt terms →
  ∃ idx, open (finish terms []) = Ok idx ∧ n_blocks idx = zlen terms ∧
    match locate idx target with
    | None => ∀ s, s ∈ terms → term_lt target s
    | Some i => 0 ≤ i < zlen terms ∧ block_of terms target (Z.to_nat i)
    end.
Proof.
  intros Ht Hn Hlen Hs. exists terms. split_and!; [by apply sti_open_finish|by apply u32_small|].
  by apply locate_spec.
Qed.

Lemma sampled_term_index_locate_witness :
  let terms := [[97]; [98; 99]; [98; 100; 1]] in
  ∃ idx, open (finish terms []) = Ok idx ∧ n_blocks idx = 3 ∧
    match locate idx [98; 99; 200] with
    | None => ∀ s, s ∈ terms → term_lt [98; 99; 200] s
    | Some i => 0 ≤ i < 3 ∧ block_of terms [98; 99; 200] (Z.to_nat i)
    end.
Proof.
  apply (sampled_term_index_locate [[97]; [98; 99]; [98; 100; 1]] [98; 99; 200]).
  - repeat constructor; cbn; lia.
  - cbn. ulia.
  - vm_compute. split; [discriminate|reflexivity].
  - repeat constructor.
Defined.
