(* ===== verification/DictBlockDirectory.v ===== *)
(** * DictBlockDirectory: where each DICT block lies.

    [format/dict_block_directory.h] and [.cpp]. Builder and reader are the
    vector [refs_] they hold. *)

From S2P Require Import Prelude Status Varint ByteIO SectionFramer FormatConstants.

#[local] Open Scope Z_scope.

(** [block_ref_flags::kZstd] *)
Definition kZstd : Z := 1.

Record BlockRef := mkBlockRef {
  offset : Z; length_ : Z; n_entries : Z; flags : Z; checksum : Z; uncomp_len : Z
}.

(** A reference whose unstored field has its default. *)
Definition wf_block_ref (r : BlockRef) : Prop :=
  is_u64 (offset r) ∧ is_u64 (length_ r) ∧ is_u32 (n_entries r) ∧ is_u8 (flags r) ∧
  is_u32 (checksum r) ∧ is_u64 (uncomp_len r) ∧
  (Z.land (flags r) kZstd = 0 → uncomp_len r = 0).

Definition encode_ref (ref : BlockRef) (payload : ByteSink) : ByteSink :=
  let payload := payload
    |> put_varint64 (offset ref)
    |> put_varint64 (length_ ref)
    |> put_varint32 (n_entries ref)
    |> put_u8 (flags ref)
    |> put_fixed32 (checksum ref) in
  if negb (Z.land (flags ref) kZstd =? 0) then payload |> put_varint64 (uncomp_len ref) else payload.

Definition decode_ref : reader BlockRef :=
  offset ← get_varint64;
  length ← get_varint64;
  n_entries ← get_varint32;
  flags ← get_u8;
  checksum ← get_fixed32;
  if negb (Z.land flags kZstd =? 0) then
    uncomp_len ← get_varint64;
    mret (mkBlockRef offset length n_entries flags checksum uncomp_len)
  else mret (mkBlockRef offset length n_entries flags checksum 0).

Definition kMinRefBytes : Z := 8.

Definition read_refs : reader (list BlockRef) :=
  n_blocks ← get_varint32;
  rest ← get_remaining;
  _ ← return_if (rest / kMinRefBytes <? n_blocks)
        (Corruption "dict_block_directory: n_blocks exceeds payload capacity");
  read_n decode_ref (Z.to_nat n_blocks).

Definition decode_payload (payload : Slice) : result (list BlockRef) :=
  run_reader (whole read_refs "dict_block_directory: trailing bytes in payload") payload.

(** [DictBlockDirectoryBuilder] *)
Definition add (ref : BlockRef) (refs_ : list BlockRef) : list BlockRef := refs_ ++ [ref].

Definition finish (refs_ : list BlockRef) (sink : ByteSink) : ByteSink :=
  let payload := [] |> put_varint32 (u32 (zlen refs_)) |> put_each encode_ref refs_ in
  SectionFramer.write sink (section_type_u8 kDictBlockDirectory) payload.

(** [DictBlockDirectoryReader] *)
Definition open (section : Slice) : result (list BlockRef) :=
  '(sec, _) ← SectionFramer.read (source section);
  _ ← reject_if (negb (type sec =? section_type_u8 kDictBlockDirectory))
        (InvalidArgument "dict_block_directory: unexpected section type");
  decode_payload (payload sec).

Definition n_blocks (refs_ : list BlockRef) : Z := u32 (zlen refs_).

Definition get (refs_ : list BlockRef) (ordinal : Z) : result BlockRef :=
  if zlen refs_ <=? ordinal then Err (NotFound "dict_block_directory: ordinal out of range")
  else match refs_ !! Z.to_nat ordinal with Some r => Ok r | None => Undef end.

(** ** Layout *)

Definition ref_bytes (r : BlockRef) : bytes :=
  encode_varint64 (offset r) ++ encode_varint64 (length_ r) ++ encode_varint64 (n_entries r) ++
  [flags r] ++ fixed32 (checksum r) ++
  (if negb (Z.land (flags r) kZstd =? 0) then encode_varint64 (uncomp_len r) else []).

Definition directory_payload (refs : list BlockRef) : bytes :=
  encode_varint64 (u32 (zlen refs)) ++ concat (map ref_bytes refs).
Definition directory_bytes (refs : list BlockRef) : bytes :=
  section_bytes (section_type_u8 kDictBlockDirectory) (directory_payload refs).

Lemma encode_ref_app r sink : encode_ref r sink = sink ++ ref_bytes r.
Proof.
  unfold encode_ref, ref_bytes. destruct (negb _); autorewrite with sink; by rewrite ?app_nil_r.
Qed.

Lemma dbd_finish_app refs sink : finish refs sink = sink ++ directory_bytes refs.
Proof.
  unfold finish, directory_bytes, directory_payload.
  rewrite (put_each_app _ ref_bytes) by apply encode_ref_app. autorewrite with sink. done.
Qed.

Lemma ref_bytes_length r : (8 ≤ length (ref_bytes r))%nat.
Proof.
  unfold ref_bytes. rewrite !length_app, fixed32_length. cbn [length].
  pose proof (encode_varint64_length_pos (offset r)).
  pose proof (encode_varint64_length_pos (length_ r)).
  pose proof (encode_varint64_length_pos (n_entries r)). lia.
Qed.

Lemma ref_bytes_is_bytes r : wf_block_ref r → is_bytes (ref_bytes r).
Proof.
  intros (?&?&?&?&?&?&?). unfold ref_bytes.
  repeat apply Forall_app_2; auto with snii. destruct (negb _); auto with snii.
Qed.

Lemma dbd_directory_payload_bytes refs : Forall wf_block_ref refs → is_bytes (directory_payload refs).
Proof.
  intros Hr. unfold directory_payload. apply Forall_app_2; [auto with snii|]. apply concat_is_bytes.
  eapply Forall_impl; [exact Hr|]. apply ref_bytes_is_bytes.
Qed.

Lemma reads_decode_ref r : wf_block_ref r → reads decode_ref (ref_bytes r) r.
Proof.
  intros (?&?&?&?&?&?&Hz). destruct r as [o l n f c u]. cbn in *. unfold decode_ref, ref_bytes.
  cbn [offset length_ n_entries flags checksum uncomp_len]. do 4 reads_step.
  eapply reads_bind; [by apply reads_get_fixed32|].
  destruct (Z.land f kZstd =? 0) eqn:Hf; cbn [negb].
  - apply Z.eqb_eq in Hf. rewrite (Hz Hf). apply reads_ret.
  - reads_step. apply reads_ret.
Qed.

Lemma dbd_decode_directory_payload refs :
  Forall wf_block_ref refs → is_u32 (zlen refs) → decode_payload (directory_payload refs) = Ok refs.
Proof.
  intros Hrefs Hn. unfold decode_payload, directory_payload, run_reader, whole, read_refs.
  rewrite (u32_small _ Hn).
  rewrite bind_bind, (bind_reads_source get_varint32 _ _ _ (zlen refs)) by by apply reads_get_varint32.
  rewrite bind_bind, bind_get_remaining, bind_bind, bind_return_if, (proj2 (Z.ltb_ge _ _)).
  2: { pose proof (concat_length_ge ref_bytes refs 8 ref_bytes_length).
       unfold kMinRefBytes. apply Z.div_le_lower_bound; lia. }
  rewrite (bind_reads_end _ _ _ _ refs).
  - by rewrite run_eof_check.
  - rewrite Nat2Z.id. apply reads_read_n_id; [done|].
    eapply Forall_impl; [exact Hrefs|]. apply reads_decode_ref.
Qed.

Lemma dbd_open_directory refs :
  Forall wf_block_ref refs → is_u32 (zlen refs) → is_u64 (zlen (directory_payload refs)) →
  open (directory_bytes refs) = Ok refs.
Proof.
  intros Hrefs Hn Hlen. unfold open, directory_bytes, source.
  pose proof (reads_section (section_type_u8 kDictBlockDirectory) (directory_payload refs)
    ltac:(by vm_compute) (dbd_directory_payload_bytes _ Hrefs) Hlen [] []) as Hr.
  cbn [app length] in Hr. rewrite app_nil_r in Hr. rewrite Hr. cbn.
  by apply dbd_decode_directory_payload.
Qed.

Lemma safe_decode_ref : safe decode_ref.
Proof.
  unfold decode_ref. do 2 (eapply safe_bind; [apply safe_get_varint64|]; intros ? ?).
  eapply safe_bind; [apply safe_get_varint32|]. intros n _. do 2 safe_step.
  destruct (negb _); [|by apply safe_ret].
  eapply safe_bind; [apply safe_get_varint64|]. intros u _. by apply safe_ret.
Qed.

Lemma safe_read_refs : safe_post read_refs (λ refs, is_u32 (zlen refs)).
Proof.
  unfold read_refs. eapply safe_bind; [apply safe_get_varint32|]. intros n Hn. do 2 safe_step.
  eapply safe_weaken; [apply safe_read_n, safe_decode_ref|]. intros l [-> _].
  unfold is_u32 in *. lia.
Qed.

Lemma dbd_open_spec section :
  defined (open section) ∧ ∀ refs, open section = Ok refs → is_u32 (zlen refs).
Proof.
  unfold open. pose proof (safe_read (source section)) as Hr.
  destruct (SectionFramer.read (source section)) as [[sec src]| |]; cbn;
    [|done|exfalso; apply Hr; unfold wf_source; cbn; lia].
  destruct (negb _); [done|]. cbn. apply (safe_run _ _ _ (safe_whole _ _ _ safe_read_refs)).
Qed.

(** ** Properties *)

(** the directory read back maps each ordinal below [n_blocks] to the
    reference added at that position, and every other ordinal to [NotFound]. *)
Theorem dict_block_directory_get refs i :
  Forall wf_block_ref refs → is_u32 (zlen refs) → is_u64 (zlen (directory_payload refs)) → 0 ≤ i →
  ∃ dir, open (finish refs []) = Ok dir ∧ n_blocks dir = zlen refs ∧
    get dir i = match refs !! Z.to_nat i with
                | Some r => Ok r
                | None => Err (NotFound "dict_block_directory: ordinal out of range")
                end.
Proof.
  intros Hrefs Hn Hlen Hi. exists refs. rewrite dbd_finish_app. cbn [app].
  split_and!; [by apply dbd_open_directory|by apply u32_small|].
  unfold get. destruct (Z.leb_spec (zlen refs) i).
  - by rewrite lookup_ge_None_2 by lia.
  - by destruct (lookup_lt_is_Some_2 refs (Z.to_nat i)) as [r ->]; [lia|].
Qed.

Lemma dict_block_directory_get_witness :
  let refs := [mkBlockRef 21 100 3 0 7 0; mkBlockRef 121 60 4 1 9 200] in
  ∃ dir, open (finish refs []) = Ok dir ∧ n_blocks dir = 2 ∧
    get dir 1 = Ok (mkBlockRef 121 60 4 1 9 200).
Proof.
  apply (dict_block_directory_get [mkBlockRef 21 100 3 0 7 0; mkBlockRef 121 60 4 1 9 200] 1).
  - repeat constructor; cbn; try lia. all: done.
  - cbn. ulia.
  - vm_compute. split; [discriminate|reflexivity].
  - lia.
Defined.
