(* ===== verification/Zstd.v ===== *)
(** * Zstd: the wrapper around the compressor.

    [encoding/zstd_codec.h] and [encoding/zstd_codec.cpp]. The library itself is
    third-party code: its two calls are the class [ZstdOps], with the error name
    or the bytes written, and [ZstdLaws] is the behaviour its manual documents. *)

From S2P Require Import Prelude Status ByteIO.

#[local] Open Scope Z_scope.

Class ZstdOps := {
  ZSTD_compressBound : Z → Z;
  (** [ZSTD_compress(dst, dstCapacity, src, srcSize, level)] *)
  ZSTD_compress : Z → bytes → Z → string + bytes;
  (** [ZSTD_decompress(dst, dstCapacity, src, srcSize)] *)
  ZSTD_decompress : Z → bytes → string + bytes
}.

Class ZstdLaws `{ZstdOps} := {
  (** A destination of [ZSTD_compressBound] bytes always suffices. *)
  ZSTD_compress_fits src level :
    is_bytes src → ∃ dst, ZSTD_compress (ZSTD_compressBound (zlen src)) src level = inr dst;
  (** The bound the header of the library documents, with its margin. *)
  ZSTD_compressBound_le n : 0 ≤ n → ZSTD_compressBound n ≤ n + n / 256 + 64;
  ZSTD_compress_cap cap src level dst : ZSTD_compress cap src level = inr dst → zlen dst ≤ cap;
  ZSTD_compress_bytes cap src level dst :
    is_bytes src → ZSTD_compress cap src level = inr dst → is_bytes dst;
  (** Decompressing into a large enough destination gives the source back. *)
  ZSTD_decompress_compress cap cap' src level dst :
    is_bytes src → ZSTD_compress cap src level = inr dst → zlen src ≤ cap' →
    ZSTD_decompress cap' dst = inr src;
  ZSTD_decompress_bytes cap src dst : ZSTD_decompress cap src = inr dst → is_bytes dst ∧ zlen dst ≤ cap
}.

Section Wrapper.
Context `{ZstdOps}.

Definition zstd_compress (input : Slice) (level : Z) : result bytes :=
  match ZSTD_compress (ZSTD_compressBound (zlen input)) input level with
  | inl name => Err (Internal ("zstd compress: " ++ name))
  | inr out => Ok out
  end.

Definition zstd_decompress (input : Slice) (expected_uncomp_len : Z) : result bytes :=
  match ZSTD_decompress expected_uncomp_len input with
  | inl name => Err (Corruption ("zstd decompress: " ++ name))
  | inr out =>
      if negb (zlen out =? expected_uncomp_len) then
        Err (Corruption "zstd decompressed length mismatch")
      else Ok out
  end.

Lemma zstd_decompress_defined input n : defined (zstd_decompress input n).
Proof. unfold zstd_decompress. destruct (ZSTD_decompress _ _); [done|]. by destruct (negb _). Qed.

Lemma zstd_decompress_length input n out : zstd_decompress input n = Ok out → zlen out = n.
Proof.
  unfold zstd_decompress. destruct (ZSTD_decompress _ _) as [|o]; [done|].
  destruct (Z.eqb_spec (zlen o) n); cbn; [|done]. by intros [= <-].
Qed.

Context `{!ZstdLaws}.

Lemma zstd_roundtrip src level :
  is_bytes src → ∃ dst, zstd_compress src level = Ok dst ∧ is_bytes dst ∧
    zstd_decompress dst (zlen src) = Ok src ∧ zlen dst ≤ zlen src + zlen src / 256 + 64.
Proof.
  intros Hs. destruct (ZSTD_compress_fits src level Hs) as [dst Hd]. exists dst.
  unfold zstd_compress, zstd_decompress. rewrite Hd.
  rewrite (ZSTD_decompress_compress _ (zlen src) _ _ _ Hs Hd) by lia. rewrite Z.eqb_refl. split; [done|].
  split; [by eapply ZSTD_compress_bytes|]. split; [done|].
  apply ZSTD_compress_cap in Hd. pose proof (ZSTD_compressBound_le (zlen src)). lia.
Qed.
End Wrapper.

(** A codec that satisfies the laws: a one-byte frame header, then the bytes. *)
Module StoredZstd.
#[global] Instance ops : ZstdOps := {
  ZSTD_compressBound n := n + 1;
  ZSTD_compress cap src level :=
    if cap <? zlen src + 1 then inl "Destination buffer is too small"%string else inr (253 :: src);
  ZSTD_decompress cap src :=
    match src with
    | b :: src =>
        if (b =? 253) && bool_decide (is_bytes src) then
          if cap <? zlen src then inl "Destination buffer is too small"%string else inr src
        else inl "Unknown frame descriptor"%string
    | [] => inl "Unknown frame descriptor"%string
    end
}.
#[global] Instance laws : ZstdLaws.
Proof.
  split; cbn.
  - intros src level _. rewrite Z.ltb_irrefl. eauto.
  - intros n Hn. pose proof (Z.div_pos n 256). lia.
  - intros cap src level dst. destruct (Z.ltb_spec cap (zlen src + 1)); [done|]. intros [= <-]. cbn [length]. lia.
  - intros cap src level dst Hs. destruct (cap <? _); [done|]. intros [= <-]. constructor; [ulia|done].
  - intros cap cap' src level dst Hs. destruct (cap <? _); [done|]. intros [= <-] Hc.
    cbn. rewrite bool_decide_true by done. cbn. by rewrite (proj2 (Z.ltb_ge _ _)) by lia.
  - intros cap [|b src] dst; [done|]. destruct (_ && _) eqn:Hb; [|done].
    apply andb_true_iff in Hb as [_ Hb]. apply bool_decide_eq_true in Hb.
    destruct (cap <? zlen src) eqn:Hc; [done|]. intros [= <-]. apply Z.ltb_ge in Hc. done.
Qed.
End StoredZstd.
