(* ===== verification/PforRuns.v ===== *)
(** * PforRuns: arrays of any length in PFOR runs of 256 values.

    [encode_pfor_runs] and [decode_pfor_runs], which [format/frq_pod.cpp] and
    [format/prx_pod.cpp] both define. A run consumes at least one value, so the
    length of the array is fuel enough for both loops. *)

From S2P Require Import Prelude Status ByteIO FormatConstants Pfor.

#[local] Open Scope Z_scope.

(** [for (off = 0; off < n; off += kFrqBaseUnit)] on the values from [off] on. *)
Fixpoint encode_pfor_runs_loop (fuel : nat) (values : list Z) (out : ByteSink) : ByteSink :=
  match fuel with
  | O => out
  | S fuel =>
      if 0 <? zlen values then
        let run := if zlen values <? kFrqBaseUnit then zlen values else kFrqBaseUnit in
        encode_pfor_runs_loop fuel (drop (Z.to_nat run) values)
          (pfor_encode (take (Z.to_nat run) values) out)
      else out
  end.
Definition encode_pfor_runs (values : list Z) (out : ByteSink) : ByteSink :=
  encode_pfor_runs_loop (length values) values out.

(** With [n] values left to decode. *)
Fixpoint decode_pfor_runs_loop (fuel : nat) (n : Z) : reader (list Z) :=
  match fuel with
  | O => mret []
  | S fuel =>
      if 0 <? n then
        let run := if n <? kFrqBaseUnit then n else kFrqBaseUnit in
        xs ← pfor_decode run;
        rest ← decode_pfor_runs_loop fuel (n - run);
        mret (xs ++ rest)
      else mret []
  end.
Definition decode_pfor_runs (n : Z) : reader (list Z) := decode_pfor_runs_loop (Z.to_nat n) n.

(** ** Layout *)

Definition pfor_runs_bytes (values : list Z) : bytes := encode_pfor_runs values [].

Lemma encode_pfor_runs_loop_app fuel values out :
  encode_pfor_runs_loop fuel values out = out ++ encode_pfor_runs_loop fuel values [].
Proof.
  revert values out. induction fuel as [|fuel IH]; intros values out; cbn [encode_pfor_runs_loop];
    [by rewrite app_nil_r|].
  destruct (0 <? zlen values); [|by rewrite app_nil_r].
  rewrite IH, (IH _ (pfor_encode _ [])). rewrite (pfor_encode_app _ out), (pfor_encode_app _ []).
  by rewrite <- app_assoc.
Qed.

Lemma encode_pfor_runs_app values out : encode_pfor_runs values out = out ++ pfor_runs_bytes values.
Proof. apply encode_pfor_runs_loop_app. Qed.
#[export] Hint Rewrite encode_pfor_runs_app : sink.

Lemma run_length n : 0 < n →
  let run := if n <? kFrqBaseUnit then n else kFrqBaseUnit in 0 < run ≤ n ∧ run ≤ 256.
Proof. intros Hn. unfold kFrqBaseUnit. destruct (Z.ltb_spec n 256); lia. Qed.

Lemma reads_pfor_runs_loop fuel fuel' values :
  is_u32s values → (length values ≤ fuel)%nat → (length values ≤ fuel')%nat →
  reads (decode_pfor_runs_loop fuel' (zlen values)) (encode_pfor_runs_loop fuel values []) values.
Proof.
  revert fuel' values. induction fuel as [|fuel IH]; intros fuel' values Hv Hf Hf'.
  { destruct values; [|cbn in Hf; lia]. destruct fuel'; apply reads_ret. }
  destruct fuel' as [|fuel'].
  { destruct values; [|cbn in Hf'; lia]. apply reads_ret. }
  cbn [encode_pfor_runs_loop decode_pfor_runs_loop]. destruct (Z.ltb_spec 0 (zlen values)) as [Hpos|Hz].
  2: { destruct values; [|cbn in Hz; lia]. apply reads_ret. }
  destruct (run_length _ Hpos) as [Hrun Hrun']. set (run := if _ <? _ then _ else _) in *.
  assert (zlen (take (Z.to_nat run) values) = run) as Hlen by (rewrite length_take; lia).
  rewrite encode_pfor_runs_loop_app, pfor_encode_app. cbn [app].
  eapply reads_bind.
  { rewrite <- Hlen at 1. apply reads_pfor_decode; [by apply Forall_take|lia]. }
  replace (zlen values - run) with (zlen (drop (Z.to_nat run) values)) by (rewrite length_drop; lia).
  eapply reads_last; [apply IH; [by apply Forall_drop|rewrite length_drop; lia..]|].
  rewrite take_drop. apply reads_ret.
Qed.

Lemma reads_decode_pfor_runs values :
  is_u32s values → reads (decode_pfor_runs (zlen values)) (pfor_runs_bytes values) values.
Proof. intros Hv. apply reads_pfor_runs_loop; [done|lia|lia]. Qed.
#[export] Hint Resolve reads_decode_pfor_runs : reads.

Lemma pfor_runs_loop_bound fuel values :
  is_u32s values →
  is_bytes (encode_pfor_runs_loop fuel values []) ∧ zlen (encode_pfor_runs_loop fuel values []) ≤ 36 * zlen values.
Proof.
  revert values. induction fuel as [|fuel IH]; intros values Hv; cbn [encode_pfor_runs_loop]; [by split; [constructor|cbn; lia]|].
  destruct (Z.ltb_spec 0 (zlen values)) as [Hpos|Hz]; [|by split; [constructor|cbn; lia]].
  destruct (run_length _ Hpos) as [Hrun Hrun']. set (run := if _ <? _ then _ else _) in *.
  rewrite encode_pfor_runs_loop_app, pfor_encode_app. cbn [app].
  assert (zlen (take (Z.to_nat run) values) = run) as Hlen by (rewrite length_take; lia).
  destruct (pfor_bytes_bound (take (Z.to_nat run) values)) as [Hb Hl]; [by apply Forall_take|lia|].
  destruct (IH (drop (Z.to_nat run) values)) as [Hb' Hl']; [by apply Forall_drop|].
  rewrite length_drop in Hl'. rewrite Hlen in Hl. split; [by apply Forall_app_2|]. rewrite length_app. lia.
Qed.

Lemma pfor_runs_bytes_is_bytes values : is_u32s values → is_bytes (pfor_runs_bytes values).
Proof. apply pfor_runs_loop_bound. Qed.
Lemma pfor_runs_bytes_le values : is_u32s values → zlen (pfor_runs_bytes values) ≤ 36 * zlen values.
Proof. apply pfor_runs_loop_bound. Qed.
#[export] Hint Resolve pfor_runs_bytes_is_bytes : snii.

Lemma safe_decode_pfor_runs_loop fuel n :
  0 ≤ n ≤ Z.of_nat fuel →
  safe_post (decode_pfor_runs_loop fuel n) (λ l, zlen l = n ∧ is_u32s l).
Proof.
  revert n. induction fuel as [|fuel IH]; intros n Hn; cbn [decode_pfor_runs_loop].
  { apply safe_ret. cbn. split; [lia|constructor]. }
  destruct (Z.ltb_spec 0 n) as [Hpos|Hz].
  2: { apply safe_ret. cbn. split; [lia|constructor]. }
  destruct (run_length _ Hpos) as [Hrun Hrun']. set (run := if _ <? _ then _ else _) in *.
  eapply safe_bind; [apply safe_pfor_decode; lia|]. intros xs [Hx Hxs].
  eapply safe_bind; [apply IH; lia|]. intros rest [Hr Hrest].
  apply safe_ret. rewrite length_app. split; [lia|by apply Forall_app_2].
Qed.

Lemma safe_decode_pfor_runs n :
  0 ≤ n → safe_post (decode_pfor_runs n) (λ l, zlen l = n ∧ is_u32s l).
Proof. intros Hn. apply safe_decode_pfor_runs_loop. lia. Qed.
