(* ===== verification/FrqPod.v ===== *)
(** * FrqPod: doc-delta and frequency regions.

    [format/frq_pod.h] and [format/frq_pod.cpp]. A region is pure payload; its
    codec metadata ([FrqRegionMeta]) travels in the prelude or in the dict
    entry. [emit_region] fills every field but [verify_crc], which keeps the
    value the caller's object has. *)

From S2P Require Import Prelude Status Varint ByteIO Crc32c FormatConstants Pfor Zstd PforRuns.

#[local] Open Scope Z_scope.

Record FrqRegionMeta := mkFrqRegionMeta {
  zstd : bool;
  uncomp_len : Z;
  disk_len : Z;
  crc : Z;
  verify_crc : bool
}.

(** [FrqRegionMeta m;] *)
Definition default_region_meta : FrqRegionMeta := mkFrqRegionMeta false 0 0 0 true.

#[export] Instance FrqRegionMeta_eq_dec : EqDecision FrqRegionMeta.
Proof. solve_decision. Defined.

Definition kAutoZstdMinBytes : Z := 512.
Definition kDefaultZstdLevel : Z := 3.
Definition kMaxRegionUncompBytes : Z := 256 * 1024 * 1024.
Definition kMaxWindowDocs : Z := 1 ≪ 24.

(** [docs[i] < docs[i - 1]] for some [i] past the head. *)
Fixpoint check_ascending (prev : Z) (docs : list Z) : result unit :=
  match docs with
  | [] => Ok tt
  | d :: docs =>
      if d <? prev then Err (InvalidArgument "frq: docids must be ascending")
      else check_ascending d docs
  end.

Definition validate_docs (docs : list Z) (win_base : Z) : result unit :=
  match docs with
  | [] => Ok tt
  | front :: rest =>
      if front <? win_base then Err (InvalidArgument "frq: first docid below win_base")
      else check_ascending front rest
  end.

Definition should_compress (level plain_len : Z) : bool :=
  if level =? 0 then false else if 0 <? level then true else kAutoZstdMinBytes <=? plain_len.

Fixpoint doc_deltas (docids : list Z) (prev : Z) : list Z :=
  match docids with
  | [] => []
  | d :: docids => u32 (u64 (d - prev)) :: doc_deltas docids d
  end.

(** [cur += dd[i]; docids[i] = static_cast<uint32_t>(cur);] *)
Fixpoint sum_deltas (dd : list Z) (cur : Z) : list Z :=
  match dd with
  | [] => []
  | d :: dd => let cur := u64 (cur + d) in u32 cur :: sum_deltas dd cur
  end.

Section FrqPod.
Context `{ZstdOps}.

Definition emit_region (plain : Slice) (level : Z) (out : ByteSink) (meta : FrqRegionMeta)
    : result (ByteSink * FrqRegionMeta) :=
  let compress := should_compress level (zlen plain) in
  disk ← (if compress then zstd_compress plain (if 0 <? level then level else kDefaultZstdLevel)
          else Ok plain);
  Ok (out |> put_bytes disk,
      mkFrqRegionMeta compress (zlen plain) (zlen disk) (crc32c disk) (verify_crc meta)).

Definition open_region (disk : Slice) (meta : FrqRegionMeta) : result Slice :=
  _ ← reject_if (negb (zlen disk =? disk_len meta)) (Corruption "frq: region slice length mismatch");
  _ ← reject_if (kMaxRegionUncompBytes <? uncomp_len meta)
        (Corruption "frq: region uncomp_len exceeds sane cap");
  _ ← reject_if (verify_crc meta && negb (crc32c disk =? crc meta))
        (Corruption "frq: region crc mismatch");
  if negb (zstd meta) then
    _ ← reject_if (negb (uncomp_len meta =? disk_len meta))
          (Corruption "frq: raw region length inconsistent");
    Ok disk
  else zstd_decompress disk (uncomp_len meta).

Definition build_dd_region (docids_ascending : list Z) (win_base level : Z) (out : ByteSink)
    (meta : FrqRegionMeta) : result (ByteSink * FrqRegionMeta) :=
  _ ← validate_docs docids_ascending win_base;
  let dd := doc_deltas docids_ascending win_base in
  let plain := [] |> put_varint32 (u32 (zlen docids_ascending)) |> encode_pfor_runs dd in
  emit_region plain level out meta.

Definition build_freq_region (freqs : list Z) (level : Z) (out : ByteSink) (meta : FrqRegionMeta)
    : result (ByteSink * FrqRegionMeta) :=
  let plain := [] |> encode_pfor_runs freqs in
  emit_region plain level out meta.

Definition read_dd_payload : reader (list Z) :=
  n ← get_varint32;
  _ ← return_if (kMaxWindowDocs <? n) (Corruption "frq: doc count exceeds sane cap");
  decode_pfor_runs n.

Definition decode_dd_region (dd_disk : Slice) (meta : FrqRegionMeta) (win_base : Z) : result (list Z) :=
  plain ← open_region dd_disk meta;
  dd ← run_reader (whole read_dd_payload "frq: trailing bytes after dd region payload") plain;
  Ok (sum_deltas dd win_base).

Definition decode_freq_region (freq_disk : Slice) (meta : FrqRegionMeta) (doc_count : Z)
    : result (list Z) :=
  plain ← open_region freq_disk meta;
  if doc_count =? 0 then
    _ ← reject_if (negb (uncomp_len meta =? 0)) (Corruption "frq: empty freq region expected");
    Ok []
  else
    run_reader (whole (decode_pfor_runs doc_count) "frq: trailing bytes after freq region payload")
      plain.

(** ** Deltas *)

Definition ascending_from (win_base : Z) (docs : list Z) : Prop :=
  Sorted Z.le docs ∧ Forall (λ d, win_base ≤ d) docs.

Lemma check_ascending_ok prev docs : Sorted Z.le (prev :: docs) → check_ascending prev docs = Ok tt.
Proof.
  revert prev. induction docs as [|d docs IH]; intros prev Hs; cbn [check_ascending]; [done|].
  apply Sorted_inv in Hs as [Hs Hr]. apply HdRel_inv in Hr.
  rewrite (proj2 (Z.ltb_ge _ _)) by lia. by apply IH.
Qed.

Lemma check_ascending_err prev docs :
  check_ascending prev docs = Ok tt ∧ Sorted Z.le (prev :: docs) ∨
  check_ascending prev docs = Err (InvalidArgument "frq: docids must be ascending") ∧
    ¬ Sorted Z.le (prev :: docs).
Proof.
  revert prev. induction docs as [|d docs IH]; intros prev; cbn [check_ascending].
  { left. split; [done|]. by repeat constructor. }
  destruct (Z.ltb_spec d prev) as [Hlt|Hge].
  - right. split; [done|]. intros Hs. apply Sorted_inv in Hs as [_ Hr]. apply HdRel_inv in Hr. lia.
  - destruct (IH d) as [[-> Hs]|[-> Hs]]; [left|right]; (split; [done|]).
    + constructor; [done|]. by constructor.
    + intros Hs'. apply Hs. by apply Sorted_inv in Hs' as [? _].
Qed.

Lemma validate_docs_ok docs win_base : ascending_from win_base docs → validate_docs docs win_base = Ok tt.
Proof.
  intros [Hs Hf]. destruct docs as [|d docs]; [done|]. cbn.
  apply Forall_cons in Hf as [Hd _]. rewrite (proj2 (Z.ltb_ge _ _)) by lia. by apply check_ascending_ok.
Qed.

Lemma validate_docs_err docs win_base :
  ¬ ascending_from win_base docs → ∃ m, validate_docs docs win_base = Err (InvalidArgument m).
Proof.
  intros Hn. destruct docs as [|d docs]; [exfalso; apply Hn; by split|]. cbn.
  destruct (Z.ltb_spec d win_base) as [Hlt|Hge]; [eauto|].
  destruct (check_ascending_err d docs) as [[_ Hs]|[-> _]]; [|eauto].
  exfalso. apply Hn. split; [done|]. apply Sorted_StronglySorted in Hs; [|intros ???; lia].
  apply StronglySorted_inv in Hs as [_ Hs]. constructor; [done|].
  eapply Forall_impl; [exact Hs|]. cbn. lia.
Qed.

Lemma sum_doc_deltas docs prev :
  is_u32s docs → 0 ≤ prev → ascending_from prev docs → sum_deltas (doc_deltas docs prev) prev = docs.
Proof.
  intros Hd Hp [Hs Hf]. revert prev Hp Hf. induction Hd as [|d docs Hd Hds IH]; intros prev Hp Hf;
    cbn [doc_deltas sum_deltas]; [done|].
  apply Forall_cons in Hf as [Hpd _].
  rewrite (u64_small (d - prev)), (u32_small (d - prev)) by ulia.
  replace (prev + (d - prev)) with d by lia. rewrite u64_small, u32_small by (done || ulia).
  f_equal. apply Sorted_StronglySorted in Hs; [|intros ???; lia].
  apply StronglySorted_inv in Hs as [Hs Hall]. apply IH.
  - by apply StronglySorted_Sorted.
  - ulia.
  - exact Hall.
Qed.

Lemma doc_deltas_length docs prev : length (doc_deltas docs prev) = length docs.
Proof. revert prev. induction docs as [|d docs IH]; intros prev; cbn; by rewrite ?IH. Qed.

Lemma doc_deltas_u32 docs prev : is_u32s (doc_deltas docs prev).
Proof. revert prev. induction docs as [|d docs IH]; intros prev; cbn; auto with snii. Qed.

Lemma sum_deltas_shape dd cur : length (sum_deltas dd cur) = length dd ∧ is_u32s (sum_deltas dd cur).
Proof.
  revert cur. induction dd as [|d dd IH]; intros cur; cbn; [by split|].
  destruct (IH (u64 (cur + d))) as [-> ?]. auto with snii.
Qed.

(** ** Regions *)

Context `{!ZstdLaws}.

Definition dd_plain (docs : list Z) (win_base : Z) : bytes :=
  encode_varint64 (u32 (zlen docs)) ++ pfor_runs_bytes (doc_deltas docs win_base).

Lemma dd_plain_bytes docs win_base : is_bytes (dd_plain docs win_base).
Proof. unfold dd_plain. auto using doc_deltas_u32 with snii. Qed.

Lemma emit_open_region plain level out meta :
  is_bytes plain → zlen plain ≤ kMaxRegionUncompBytes →
  ∃ disk meta', emit_region plain level out meta = Ok (out ++ disk, meta') ∧ is_bytes disk ∧
    disk_len meta' = zlen disk ∧ uncomp_len meta' = zlen plain ∧ crc meta' = crc32c disk ∧
    verify_crc meta' = verify_crc meta ∧ open_region disk meta' = Ok plain.
Proof.
  intros Hp Hcap. unfold emit_region.
  destruct (should_compress level (zlen plain)) eqn:Hc.
  - destruct (zstd_roundtrip plain (if 0 <? level then level else kDefaultZstdLevel) Hp)
      as (disk & -> & Hd & Hdec & _).
    rewrite bind_Ok. eexists disk, _. split; [done|]. cbn [disk_len uncomp_len crc verify_crc].
    split_and!; try done. unfold open_region. cbn [disk_len uncomp_len crc verify_crc zstd negb].
    rewrite bind_reject_false by by rewrite Z.eqb_refl.
    rewrite bind_reject_false by (by apply Z.ltb_ge).
    rewrite bind_reject_false by (rewrite Z.eqb_refl; apply andb_false_r). done.
  - rewrite bind_Ok. eexists plain, _. split; [done|]. cbn [disk_len uncomp_len crc verify_crc].
    split_and!; try done. unfold open_region. cbn [disk_len uncomp_len crc verify_crc zstd negb].
    rewrite bind_reject_false by by rewrite Z.eqb_refl.
    rewrite bind_reject_false by (by apply Z.ltb_ge).
    rewrite bind_reject_false by (rewrite Z.eqb_refl; apply andb_false_r).
    by rewrite bind_reject_false by by rewrite Z.eqb_refl.
Qed.

Lemma reads_dd_payload docs win_base :
  zlen docs ≤ kMaxWindowDocs →
  reads read_dd_payload (dd_plain docs win_base) (doc_deltas docs win_base).
Proof.
  unfold kMaxWindowDocs. intros Hn. change (1 ≪ 24) with 16777216 in Hn. unfold read_dd_payload, dd_plain.
  rewrite u32_small by ulia. eapply reads_bind; [apply reads_get_varint32; ulia|].
  reads_guard; [apply Z.ltb_ge; unfold kMaxWindowDocs; change (1 ≪ 24) with 16777216; lia|].
  rewrite <- (doc_deltas_length docs win_base). apply reads_decode_pfor_runs, doc_deltas_u32.
Qed.

Lemma dd_plain_built docs win_base :
  ([] |> put_varint32 (u32 (zlen docs)) |> encode_pfor_runs (doc_deltas docs win_base)) = dd_plain docs win_base.
Proof. unfold dd_plain. by autorewrite with sink. Qed.

Lemma dd_plain_le docs win_base : zlen (dd_plain docs win_base) ≤ 10 + 36 * zlen docs.
Proof.
  unfold dd_plain. pose proof (pfor_runs_bytes_le _ (doc_deltas_u32 docs win_base)) as Hl.
  rewrite doc_deltas_length in Hl. pose proof (encode_varint64_length_le (u32 (zlen docs))).
  rewrite length_app. lia.
Qed.

(** A region opened to the plain bytes gives the docids. *)
Lemma decode_dd_opened docs win_base disk meta :
  is_u32s docs → 0 ≤ win_base → zlen docs ≤ kMaxWindowDocs → ascending_from win_base docs →
  open_region disk meta = Ok (dd_plain docs win_base) → decode_dd_region disk meta win_base = Ok docs.
Proof.
  intros Hd Hw Hn Ha Ho. unfold decode_dd_region. rewrite Ho, bind_Ok.
  erewrite run_whole by by apply reads_dd_payload. rewrite bind_Ok. by rewrite sum_doc_deltas.
Qed.

Lemma decode_freq_opened freqs disk meta :
  is_u32s freqs → uncomp_len meta = zlen (pfor_runs_bytes freqs) →
  open_region disk meta = Ok (pfor_runs_bytes freqs) → decode_freq_region disk meta (zlen freqs) = Ok freqs.
Proof.
  intros Hf Hul Ho. unfold decode_freq_region. rewrite Ho, bind_Ok.
  destruct (Z.eqb_spec (zlen freqs) 0) as [Hz|Hz].
  - destruct freqs; [|cbn in Hz; lia]. by rewrite bind_reject_false by by rewrite Hul.
  - by apply run_whole, reads_decode_pfor_runs.
Qed.

(** *** Uncompressed regions *)

(** The metadata of a region stored as it is. *)
Definition raw_meta (plain : bytes) (verify : bool) : FrqRegionMeta :=
  mkFrqRegionMeta false (zlen plain) (zlen plain) (crc32c plain) verify.

Lemma build_dd_raw docs win_base meta :
  ascending_from win_base docs →
  build_dd_region docs win_base 0 [] meta =
    Ok (dd_plain docs win_base, raw_meta (dd_plain docs win_base) (verify_crc meta)).
Proof.
  intros Ha. unfold build_dd_region. rewrite validate_docs_ok, bind_Ok by done. cbv zeta.
  by rewrite dd_plain_built.
Qed.

Lemma build_freq_raw freqs meta :
  build_freq_region freqs 0 [] meta =
    Ok (pfor_runs_bytes freqs, raw_meta (pfor_runs_bytes freqs) (verify_crc meta)).
Proof. done. Qed.

(** Raw bytes open as themselves; the checksum counts only when it is in force. *)
Lemma open_raw plain meta :
  zstd meta = false → uncomp_len meta = zlen plain → disk_len meta = zlen plain →
  (verify_crc meta = true → crc meta = crc32c plain) → zlen plain ≤ kMaxRegionUncompBytes →
  open_region plain meta = Ok plain.
Proof.
  intros Hz Hu Hd Hc Hcap. unfold open_region. rewrite Hd, Hu, Hz.
  rewrite bind_reject_false by by rewrite Z.eqb_refl. rewrite bind_reject_false by by apply Z.ltb_ge.
  rewrite bind_reject_false.
  - cbn [negb]. by rewrite bind_reject_false by by rewrite Z.eqb_refl.
  - destruct (verify_crc meta); [|done]. by rewrite Hc, Z.eqb_refl.
Qed.

(** ** Properties *)

(** a dd region decodes to the docids it was built from, raw or compressed;
    docids that are not ascending from [win_base] are refused. *)
Theorem dd_region_roundtrip docs win_base level out meta :
  is_u32s docs → 0 ≤ win_base → zlen docs ≤ kMaxWindowDocs →
  zlen (dd_plain docs win_base) ≤ kMaxRegionUncompBytes →
  (ascending_from win_base docs →
   ∃ disk meta', build_dd_region docs win_base level out meta = Ok (out ++ disk, meta') ∧
     disk_len meta' = zlen disk ∧ decode_dd_region disk meta' win_base = Ok docs) ∧
  (¬ ascending_from win_base docs →
   ∃ m, build_dd_region docs win_base level out meta = Err (InvalidArgument m)).
Proof.
  intros Hd Hw Hn Hcap. unfold build_dd_region. split.
  - intros Ha. rewrite validate_docs_ok, bind_Ok by done.
    cbv zeta. rewrite dd_plain_built.
    destruct (emit_open_region (dd_plain docs win_base) level out meta)
      as (disk & meta' & -> & _ & Hdl & _ & _ & _ & Ho); [apply dd_plain_bytes|done|].
    exists disk, meta'. split_and!; [done..|]. by apply decode_dd_opened.
  - intros Ha. destruct (validate_docs_err docs win_base Ha) as [m ->]. by exists m.
Qed.

(** a frequency region decodes to the frequencies it was built from. *)
Theorem freq_region_roundtrip freqs level out meta :
  is_u32s freqs → zlen (pfor_runs_bytes freqs) ≤ kMaxRegionUncompBytes →
  ∃ disk meta', build_freq_region freqs level out meta = Ok (out ++ disk, meta') ∧
    disk_len meta' = zlen disk ∧ decode_freq_region disk meta' (zlen freqs) = Ok freqs.
Proof.
  intros Hf Hcap. unfold build_freq_region.
  assert (([] |> encode_pfor_runs freqs) = pfor_runs_bytes freqs) as -> by by autorewrite with sink.
  destruct (emit_open_region (pfor_runs_bytes freqs) level out meta)
    as (disk & meta' & -> & _ & Hdl & Hul & _ & _ & Ho); [by apply pfor_runs_bytes_is_bytes|done|].
  exists disk, meta'. split_and!; [done..|]. by apply decode_freq_opened.
Qed.

(** a region whose bytes changed within four consecutive ones is refused when
    its checksum is in force (every region outside an inline entry). *)
Theorem region_rejects_burst pre v w post meta win_base :
  is_bytes pre → is_bytes v → is_bytes w → is_bytes post →
  length v = length w → (length v ≤ 4)%nat → v ≠ w →
  verify_crc meta = true → crc meta = crc32c (pre ++ v ++ post) →
  ∃ m, decode_dd_region (pre ++ w ++ post) meta win_base = Err (Corruption m).
Proof.
  intros Hpre Hv Hw Hpost Hlen H4 Hne Hvc Hcrc. unfold decode_dd_region, open_region.
  destruct (negb (zlen (pre ++ w ++ post) =? disk_len meta)) eqn:Hl; [by eexists|].
  destruct (kMaxRegionUncompBytes <? uncomp_len meta) eqn:Hu; [by eexists|].
  rewrite Hvc, Hcrc.
  rewrite (proj2 (Z.eqb_neq (crc32c (pre ++ w ++ post)) (crc32c (pre ++ v ++ post)))); [by eexists|].
  intros Heq. symmetry in Heq. by apply crc32c_burst in Heq.
Qed.
End FrqPod.

(** ** Safety *)

Lemma open_region_defined `{ZstdOps} disk meta : defined (open_region disk meta).
Proof.
  unfold open_region. repeat (apply defined_bind; [apply defined_reject_if|]; intros _ _).
  destruct (negb (zstd meta)); [by destruct (negb _)|apply zstd_decompress_defined].
Qed.

Lemma safe_read_dd_payload : safe_post read_dd_payload (λ l, zlen l ≤ kMaxWindowDocs ∧ is_u32s l).
Proof.
  unfold read_dd_payload. eapply safe_bind; [apply safe_get_varint32|]. intros n [Hn _].
  eapply safe_bind; [apply safe_return_if|]. intros [] Hc. cbn beta in Hc. apply Z.ltb_ge in Hc.
  eapply safe_weaken; [by apply safe_decode_pfor_runs|]. intros l [-> ?]. done.
Qed.

(** on any bytes and any metadata, decoding a dd region is defined, and what
    it returns is at most [kMaxWindowDocs] 32-bit docids. *)
Theorem decode_dd_region_safe `{ZstdOps} dd_disk meta win_base :
  match decode_dd_region dd_disk meta win_base with
  | Ok docs => zlen docs ≤ kMaxWindowDocs ∧ is_u32s docs
  | Err _ => True
  | Undef => False
  end.
Proof.
  unfold decode_dd_region. pose proof (open_region_defined dd_disk meta) as Ho.
  destruct (open_region dd_disk meta) as [plain| |]; cbn; [|done|done].
  destruct (safe_run _ _ plain (safe_whole _ "frq: trailing bytes after dd region payload" _
    safe_read_dd_payload)) as [Hd Hp].
  destruct (run_reader _ plain) as [dd| |]; cbn; [|done|done].
  destruct (Hp dd eq_refl) as [Hlen _]. destruct (sum_deltas_shape dd win_base) as [-> ?]. done.
Qed.

(** ** Witnesses *)

Lemma dd_region_roundtrip_witness :
  let docs := [7; 9; 9; 300] in
  ∃ disk meta', build_dd_region docs 5 3 [1] default_region_meta = Ok ([1] ++ disk, meta') ∧
    disk_len meta' = zlen disk ∧ decode_dd_region disk meta' 5 = Ok docs.
Proof.
  apply (dd_region_roundtrip [7; 9; 9; 300] 5 3 [1] default_region_meta).
  - auto with snii.
  - lia.
  - vm_compute. discriminate.
  - vm_compute. discriminate.
  - split; repeat constructor; lia.
Defined.

Lemma freq_region_roundtrip_witness :
  ∃ disk meta', build_freq_region [1; 4; 2] (-1) [] default_region_meta = Ok ([] ++ disk, meta') ∧
    disk_len meta' = zlen disk ∧ decode_freq_region disk meta' 3 = Ok [1; 4; 2].
Proof.
  apply (freq_region_roundtrip [1; 4; 2] (-1) [] default_region_meta); [auto with snii|].
  vm_compute. discriminate.
Defined.

Lemma region_rejects_burst_witness :
  ∃ m, decode_dd_region ([2] ++ [3; 3] ++ [9]) (mkFrqRegionMeta false 4 4 (crc32c ([2] ++ [3; 4] ++ [9])) true) 0
    = Err (Corruption m).
Proof.
  apply (region_rejects_burst [2] [3; 4] [3; 3] [9]);
    [auto with snii..|reflexivity|cbn; lia|discriminate|reflexivity|reflexivity].
Defined.
