(* ===== verification/DictEntry.v ===== *)
(** * DictEntry: one term of a DICT block.

    [format/dict_entry.h] and [format/dict_entry.cpp]. The decoder starts from
    [DictEntry{}] and fills the fields the layout stores for the tier, the kind
    and the encoding; [stored] is what that leaves of an encoded entry. *)

From S2P Require Import Prelude Status Varint ByteIO FormatConstants TermKey FrqPod.

#[local] Open Scope Z_scope.

Record DictEntry := mkDictEntry {
  term : bytes;
  kind : DictEntryKind;
  enc : DictEntryEnc;
  has_sb : bool;
  df : Z;
  ttf_delta : Z;
  max_freq : Z;
  frq_off_delta : Z;
  frq_len : Z;
  prelude_len : Z;
  frq_docs_len : Z;
  prx_off_delta : Z;
  prx_len : Z;
  dd_meta : FrqRegionMeta;
  freq_meta : FrqRegionMeta;
  inline_dd_disk_len : Z;
  frq_bytes : bytes;
  prx_bytes : bytes
}.

#[export] Instance DictEntry_eq_dec : EqDecision DictEntry.
Proof. solve_decision. Defined.

(** [DictEntry{}] *)
Definition default_entry : DictEntry :=
  mkDictEntry [] kPodRef kSlim false 0 0 0 0 0 0 0 0 0 default_region_meta default_region_meta 0 [] [].

Definition prefix_error : string := "dict_entry: prefix_len exceeds prev_term length".

(** ** Encoder *)

Definition pack_flags (e : DictEntry) : Z :=
  let f := 0 in
  let f := if decide (kind e = kInline) then Z.lor f kKind else f in
  let f := if decide (enc e = kWindowed) then Z.lor f kEnc else f in
  if has_sb e then Z.lor f kHasSb else f.

Definition tier_has_stats (t : IndexTier) : bool := tier_u8 kT2 <=? tier_u8 t.

Definition write_stats (e : DictEntry) (tier : IndexTier) (sink : ByteSink) : ByteSink :=
  let sink := sink |> put_varint32 (df e) in
  if negb (tier_has_stats tier) then sink
  else sink |> put_varint64 (ttf_delta e) |> put_varint64 (max_freq e).

Definition pack_win_mode (e : DictEntry) : Z :=
  let mode := 0 in
  let mode := if zstd (dd_meta e) then Z.lor mode 1 else mode in
  if zstd (freq_meta e) then Z.lor mode 2 else mode.

Definition write_region_meta (e : DictEntry) (tier : IndexTier) (store_crc : bool)
    (sink : ByteSink) : ByteSink :=
  let sink := sink |> put_u8 (pack_win_mode e) |> put_varint64 (uncomp_len (dd_meta e)) in
  let sink := if store_crc then sink |> put_fixed32 (crc (dd_meta e)) else sink in
  if negb (tier_has_stats tier) then sink
  else
    let sink := sink |> put_varint64 (uncomp_len (freq_meta e)) in
    if store_crc then sink |> put_fixed32 (crc (freq_meta e)) else sink.

Definition write_pod_ref (e : DictEntry) (tier : IndexTier) (sink : ByteSink) : ByteSink :=
  let sink := sink |> put_varint64 (frq_off_delta e) |> put_varint64 (frq_len e) in
  let sink :=
    if decide (enc e = kWindowed) then sink |> put_varint64 (prelude_len e)
    else sink |> put_varint64 (frq_docs_len e) |> write_region_meta e tier true in
  if negb (tier_has_stats tier) then sink
  else sink |> put_varint64 (prx_off_delta e) |> put_varint64 (prx_len e).

Definition write_inline (e : DictEntry) (tier : IndexTier) (sink : ByteSink) : ByteSink :=
  let sink := sink |> put_varint64 (zlen (frq_bytes e)) |> put_bytes (frq_bytes e)
    |> put_varint64 (inline_dd_disk_len e) |> write_region_meta e tier false in
  if negb (tier_has_stats tier) then sink
  else sink |> put_varint64 (zlen (prx_bytes e)) |> put_bytes (prx_bytes e).

Definition write_body (e : DictEntry) (prev : bytes) (tier : IndexTier) (sink : ByteSink) : ByteSink :=
  let sink := sink |> write_term_key (term e) prev |> put_u8 (pack_flags e) |> write_stats e tier in
  if decide (kind e = kInline) then write_inline e tier sink else write_pod_ref e tier sink.

Definition encode_dict_entry (entry : DictEntry) (prev_term : bytes) (tier : IndexTier)
    (sink : ByteSink) : ByteSink :=
  let body := write_body entry prev_term tier [] in
  sink |> put_varint64 (zlen body) |> put_bytes body.

(** ** Decoder *)

Definition set_term (t : bytes) (e : DictEntry) : DictEntry :=
  mkDictEntry t (kind e) (enc e) (has_sb e) (df e) (ttf_delta e) (max_freq e) (frq_off_delta e)
    (frq_len e) (prelude_len e) (frq_docs_len e) (prx_off_delta e) (prx_len e) (dd_meta e)
    (freq_meta e) (inline_dd_disk_len e) (frq_bytes e) (prx_bytes e).

Definition apply_flags (f : Z) (e : DictEntry) : DictEntry :=
  mkDictEntry (term e)
    (if negb (Z.land f kKind =? 0) then kInline else kPodRef)
    (if negb (Z.land f kEnc =? 0) then kWindowed else kSlim)
    (negb (Z.land f kHasSb =? 0))
    (df e) (ttf_delta e) (max_freq e) (frq_off_delta e)
    (frq_len e) (prelude_len e) (frq_docs_len e) (prx_off_delta e) (prx_len e) (dd_meta e)
    (freq_meta e) (inline_dd_disk_len e) (frq_bytes e) (prx_bytes e).

Definition set_stats (d t m : Z) (e : DictEntry) : DictEntry :=
  mkDictEntry (term e) (kind e) (enc e) (has_sb e) d t m (frq_off_delta e)
    (frq_len e) (prelude_len e) (frq_docs_len e) (prx_off_delta e) (prx_len e) (dd_meta e)
    (freq_meta e) (inline_dd_disk_len e) (frq_bytes e) (prx_bytes e).

Definition set_pod_ref (fo fl pl fdl po xl : Z) (dd fq : FrqRegionMeta) (e : DictEntry) : DictEntry :=
  mkDictEntry (term e) (kind e) (enc e) (has_sb e) (df e) (ttf_delta e) (max_freq e)
    fo fl pl fdl po xl dd fq (inline_dd_disk_len e) (frq_bytes e) (prx_bytes e).

Definition set_inline (fb : bytes) (ddl : Z) (xb : bytes) (dd fq : FrqRegionMeta) (e : DictEntry)
    : DictEntry :=
  mkDictEntry (term e) (kind e) (enc e) (has_sb e) (df e) (ttf_delta e) (max_freq e)
    (frq_off_delta e) (frq_len e) (prelude_len e) (frq_docs_len e) (prx_off_delta e) (prx_len e)
    dd fq ddl fb xb.

Definition read_stats (tier : IndexTier) (out : DictEntry) : reader DictEntry :=
  df ← get_varint32;
  if negb (tier_has_stats tier) then mret (set_stats df (ttf_delta out) (max_freq out) out)
  else
    ttf_delta ← get_varint64;
    max_freq ← get_varint64;
    mret (set_stats df ttf_delta max_freq out).

Definition get_crc_if (has_crc : bool) (default : Z) : reader Z :=
  if has_crc then get_fixed32 else mret default.

(** The new [dd_meta] and [freq_meta] of [out]. *)
Definition read_region_meta (tier : IndexTier) (has_crc : bool) (dd_disk_len freq_disk_len : Z)
    (out : DictEntry) : reader (FrqRegionMeta * FrqRegionMeta) :=
  mode ← get_u8;
  _ ← return_if (negb (Z.land mode (Z.lnot 3) =? 0)) (Corruption "dict_entry: unknown win_mode bits");
  dd_uncomp ← get_varint64;
  dd_crc ← get_crc_if has_crc (crc (dd_meta out));
  let dd := mkFrqRegionMeta (negb (Z.land mode 1 =? 0)) dd_uncomp dd_disk_len dd_crc has_crc in
  if negb (tier_has_stats tier) then
    _ ← return_if (negb (Z.land mode 2 =? 0)) (Corruption "dict_entry: freq mode set without freq tier");
    mret (dd, freq_meta out)
  else
    freq_uncomp ← get_varint64;
    freq_crc ← get_crc_if has_crc (crc (freq_meta out));
    mret (dd, mkFrqRegionMeta (negb (Z.land mode 2 =? 0)) freq_uncomp freq_disk_len freq_crc has_crc).

Definition read_pod_ref (tier : IndexTier) (out : DictEntry) : reader DictEntry :=
  fo ← get_varint64;
  fl ← get_varint64;
  out' ← (if decide (enc out = kWindowed) then
            pl ← get_varint64;
            mret (set_pod_ref fo fl pl (frq_docs_len out) (prx_off_delta out) (prx_len out)
                    (dd_meta out) (freq_meta out) out)
          else
            fdl ← get_varint64;
            _ ← return_if (fl <? fdl) (Corruption "dict_entry: frq_docs_len exceeds frq_len");
            metas ← read_region_meta tier true fdl (fl - fdl) out;
            mret (set_pod_ref fo fl (prelude_len out) fdl (prx_off_delta out) (prx_len out)
                    metas.1 metas.2 out));
  if negb (tier_has_stats tier) then mret out'
  else
    po ← get_varint64;
    xl ← get_varint64;
    mret (set_pod_ref (frq_off_delta out') (frq_len out') (prelude_len out') (frq_docs_len out')
            po xl (dd_meta out') (freq_meta out') out').

Definition read_byte_blob : reader bytes :=
  len ← get_varint64;
  get_bytes len.

Definition read_inline (tier : IndexTier) (out : DictEntry) : reader DictEntry :=
  fb ← read_byte_blob;
  ddl ← get_varint64;
  _ ← return_if (zlen fb <? ddl) (Corruption "dict_entry: inline_dd_disk_len exceeds frq_bytes");
  metas ← read_region_meta tier false ddl (zlen fb - ddl) out;
  if negb (tier_has_stats tier) then mret (set_inline fb ddl (prx_bytes out) metas.1 metas.2 out)
  else
    xb ← read_byte_blob;
    mret (set_inline fb ddl xb metas.1 metas.2 out).

Definition read_locator (tier : IndexTier) (out : DictEntry) : reader DictEntry :=
  if decide (kind out = kInline) then read_inline tier out else read_pod_ref tier out.

Definition read_entry_len : reader Z :=
  total ← get_varint64;
  rest ← get_remaining;
  _ ← return_if (rest <? total) (Corruption "dict_entry: entry_len out of range");
  mret total.

Definition decode_dict_entry (prev_term : bytes) (tier : IndexTier) : reader DictEntry :=
  total ← read_entry_len;
  body_start ← get_position;
  t ← read_term_key prefix_error prev_term;
  flags ← get_u8;
  let out := apply_flags flags (set_term t default_entry) in
  out ← read_stats tier out;
  out ← read_locator tier out;
  pos ← get_position;
  let consumed := pos - body_start in
  _ ← return_if (negb (consumed =? total))
        (Corruption "dict_entry: body length does not match entry_len");
  mret out.

Definition skip_dict_entry : reader unit :=
  total ← read_entry_len;
  _ ← get_bytes total;
  mret tt.

(** ** Entries the program stores *)

Definition wf_region (m : FrqRegionMeta) : Prop := is_u64 (uncomp_len m) ∧ is_u32 (crc m).

Definition wf_entry (tier : IndexTier) (e : DictEntry) : Prop :=
  wf_term (term e) ∧ is_u32 (df e) ∧ is_u64 (ttf_delta e) ∧ is_u64 (max_freq e) ∧
  is_u64 (frq_off_delta e) ∧ is_u64 (frq_len e) ∧ is_u64 (prelude_len e) ∧
  is_u64 (prx_off_delta e) ∧ is_u64 (prx_len e) ∧
  0 ≤ frq_docs_len e ≤ frq_len e ∧
  wf_region (dd_meta e) ∧ wf_region (freq_meta e) ∧
  0 ≤ inline_dd_disk_len e ≤ zlen (frq_bytes e) ∧
  is_bytes (frq_bytes e) ∧ zlen (frq_bytes e) < 2 ^ 62 ∧
  is_bytes (prx_bytes e) ∧ zlen (prx_bytes e) < 2 ^ 62 ∧
  (tier_has_stats tier = false → zstd (freq_meta e) = false).

(** The region metadata read back, by tier and presence of a checksum. *)
Definition stored_region (m : FrqRegionMeta) (disk : Z) (has_crc : bool) : FrqRegionMeta :=
  mkFrqRegionMeta (zstd m) (uncomp_len m) disk (if has_crc then crc m else 0) has_crc.

Definition stored (tier : IndexTier) (e : DictEntry) : DictEntry :=
  let stats := tier_has_stats tier in
  let base := mkDictEntry (term e) (kind e) (enc e) (has_sb e) (df e)
    (if stats then ttf_delta e else 0) (if stats then max_freq e else 0) 0 0 0 0 0 0
    default_region_meta default_region_meta 0 [] [] in
  match kind e with
  | kInline =>
      set_inline (frq_bytes e) (inline_dd_disk_len e) (if stats then prx_bytes e else [])
        (stored_region (dd_meta e) (inline_dd_disk_len e) false)
        (if stats then stored_region (freq_meta e) (zlen (frq_bytes e) - inline_dd_disk_len e) false
         else default_region_meta) base
  | kPodRef =>
      let po := if stats then prx_off_delta e else 0 in
      let xl := if stats then prx_len e else 0 in
      match enc e with
      | kWindowed =>
          set_pod_ref (frq_off_delta e) (frq_len e) (prelude_len e) 0 po xl
            default_region_meta default_region_meta base
      | kSlim =>
          set_pod_ref (frq_off_delta e) (frq_len e) 0 (frq_docs_len e) po xl
            (stored_region (dd_meta e) (frq_docs_len e) true)
            (if stats then stored_region (freq_meta e) (frq_len e - frq_docs_len e) true
             else default_region_meta) base
      end
  end.

(** ** Layout *)

Definition stats_bytes (e : DictEntry) (tier : IndexTier) : bytes :=
  encode_varint64 (df e) ++
  (if tier_has_stats tier then encode_varint64 (ttf_delta e) ++ encode_varint64 (max_freq e) else []).

Definition crc_bytes (store_crc : bool) (c : Z) : bytes := if store_crc then fixed32 c else [].

Definition region_meta_bytes (e : DictEntry) (tier : IndexTier) (store_crc : bool) : bytes :=
  [pack_win_mode e] ++ encode_varint64 (uncomp_len (dd_meta e)) ++
  crc_bytes store_crc (crc (dd_meta e)) ++
  (if tier_has_stats tier then
     encode_varint64 (uncomp_len (freq_meta e)) ++ crc_bytes store_crc (crc (freq_meta e))
   else []).

Definition pod_ref_bytes (e : DictEntry) (tier : IndexTier) : bytes :=
  encode_varint64 (frq_off_delta e) ++ encode_varint64 (frq_len e) ++
  (if decide (enc e = kWindowed) then encode_varint64 (prelude_len e)
   else encode_varint64 (frq_docs_len e) ++ region_meta_bytes e tier true) ++
  (if tier_has_stats tier then encode_varint64 (prx_off_delta e) ++ encode_varint64 (prx_len e) else []).

Definition blob_bytes (b : bytes) : bytes := encode_varint64 (zlen b) ++ b.

Definition inline_bytes (e : DictEntry) (tier : IndexTier) : bytes :=
  blob_bytes (frq_bytes e) ++ encode_varint64 (inline_dd_disk_len e) ++
  region_meta_bytes e tier false ++
  (if tier_has_stats tier then blob_bytes (prx_bytes e) else []).

Definition body_bytes (e : DictEntry) (prev : bytes) (tier : IndexTier) : bytes :=
  term_key_bytes (term e) prev ++ [pack_flags e] ++ stats_bytes e tier ++
  (if decide (kind e = kInline) then inline_bytes e tier else pod_ref_bytes e tier).

Definition entry_bytes (e : DictEntry) (prev : bytes) (tier : IndexTier) : bytes :=
  blob_bytes (body_bytes e prev tier).

Lemma write_region_meta_app e tier b sink :
  write_region_meta e tier b sink = sink ++ region_meta_bytes e tier b.
Proof.
  unfold write_region_meta, region_meta_bytes, crc_bytes.
  destruct (tier_has_stats tier), b; cbn [negb]; by autorewrite with sink; rewrite ?app_nil_r.
Qed.

Lemma write_body_app e prev tier sink : write_body e prev tier sink = sink ++ body_bytes e prev tier.
Proof.
  unfold write_body, write_inline, write_pod_ref, write_stats, body_bytes, inline_bytes, pod_ref_bytes,
    stats_bytes, blob_bytes.
  rewrite !write_region_meta_app.
  destruct (tier_has_stats tier); cbn [negb];
    (destruct (decide (kind e = kInline)); [|destruct (decide (enc e = kWindowed))]);
    by autorewrite with sink; rewrite ?app_nil_r.
Qed.

Lemma encode_dict_entry_app e prev tier sink :
  encode_dict_entry e prev tier sink = sink ++ entry_bytes e prev tier.
Proof. unfold encode_dict_entry. rewrite write_body_app. by autorewrite with sink. Qed.
#[export] Hint Rewrite encode_dict_entry_app : sink.

(** ** The flags and the mode byte *)

Lemma pack_flags_fields e :
  is_u8 (pack_flags e) ∧
  (if negb (Z.land (pack_flags e) kKind =? 0) then kInline else kPodRef) = kind e ∧
  (if negb (Z.land (pack_flags e) kEnc =? 0) then kWindowed else kSlim) = enc e ∧
  negb (Z.land (pack_flags e) kHasSb =? 0) = has_sb e.
Proof. unfold pack_flags. by destruct (kind e), (enc e), (has_sb e). Qed.

Lemma pack_win_mode_fields e :
  is_u8 (pack_win_mode e) ∧
  Z.land (pack_win_mode e) (Z.lnot 3) = 0 ∧
  negb (Z.land (pack_win_mode e) 1 =? 0) = zstd (dd_meta e) ∧
  negb (Z.land (pack_win_mode e) 2 =? 0) = zstd (freq_meta e).
Proof. unfold pack_win_mode. by destruct (zstd (dd_meta e)), (zstd (freq_meta e)). Qed.

Lemma apply_pack_flags e out :
  apply_flags (pack_flags e) out =
    mkDictEntry (term out) (kind e) (enc e) (has_sb e)
    (df out) (ttf_delta out) (max_freq out) (frq_off_delta out)
    (frq_len out) (prelude_len out) (frq_docs_len out) (prx_off_delta out) (prx_len out) (dd_meta out)
    (freq_meta out) (inline_dd_disk_len out) (frq_bytes out) (prx_bytes out).
Proof.
  unfold apply_flags. destruct (pack_flags_fields e) as (_ & -> & -> & ->). done.
Qed.

(** ** The body, field by field *)

Lemma reads_stats e tier out :
  is_u32 (df e) → is_u64 (ttf_delta e) → is_u64 (max_freq e) →
  reads (read_stats tier out) (stats_bytes e tier)
    (set_stats (df e) (if tier_has_stats tier then ttf_delta e else ttf_delta out)
       (if tier_has_stats tier then max_freq e else max_freq out) out).
Proof.
  intros. unfold read_stats, stats_bytes. destruct (tier_has_stats tier); cbn [negb].
  - do 3 reads_step. apply reads_ret.
  - rewrite app_nil_r. reads_step. apply reads_ret.
Qed.

Lemma reads_get_crc_if b c d : is_u32 c → reads (get_crc_if b d) (crc_bytes b c) (if b then c else d).
Proof. intros. unfold get_crc_if, crc_bytes. destruct b; [by apply reads_get_fixed32|apply reads_ret]. Qed.
#[local] Hint Resolve reads_get_crc_if : reads.

Lemma reads_region_meta e tier b ddl fql out :
  wf_region (dd_meta e) → wf_region (freq_meta e) →
  crc (dd_meta out) = 0 → crc (freq_meta out) = 0 →
  (tier_has_stats tier = false → zstd (freq_meta e) = false) →
  reads (read_region_meta tier b ddl fql out) (region_meta_bytes e tier b)
    (stored_region (dd_meta e) ddl b,
     if tier_has_stats tier then stored_region (freq_meta e) fql b else freq_meta out).
Proof.
  intros [Hdu Hdc] [Hfu Hfc] Hd0 Hf0 Hfz. destruct (pack_win_mode_fields e) as (_ & H3 & H1 & H2).
  unfold read_region_meta, region_meta_bytes, stored_region.
  reads_step. reads_guard; [by rewrite H3|]. do 2 reads_step. rewrite H1, H2, Hd0.
  destruct (tier_has_stats tier); cbn [negb].
  - do 2 reads_step. rewrite Hf0. apply reads_ret.
  - rewrite Hfz by done. reads_guard; [done|]. apply reads_ret.
Qed.

Lemma reads_byte_blob b : zlen b < 2 ^ 62 → reads read_byte_blob (blob_bytes b) b.
Proof.
  intros Hb. unfold read_byte_blob, blob_bytes.
  eapply reads_bind; [apply reads_get_varint64; ulia|]. by apply reads_get_bytes.
Qed.

(** What [stored] needs of the entry under construction: the fields the locator
    does not read are those of [DictEntry{}]. *)
Definition base_of (tier : IndexTier) (e : DictEntry) : DictEntry :=
  mkDictEntry (term e) (kind e) (enc e) (has_sb e) (df e)
    (if tier_has_stats tier then ttf_delta e else 0) (if tier_has_stats tier then max_freq e else 0)
    0 0 0 0 0 0 default_region_meta default_region_meta 0 [] [].

Lemma reads_pod_ref e tier :
  wf_entry tier e → kind e = kPodRef →
  reads (read_pod_ref tier (base_of tier e)) (pod_ref_bytes e tier) (stored tier e).
Proof.
  intros (_&_&_&_&Hfo&Hfl&Hpl&Hpo&Hxl&Hfdl&Hdm&Hfm&_&_&_&_&_&Hfz) Hk.
  assert (is_u64 (frq_docs_len e)) by (unfold is_u64 in *; lia).
  unfold read_pod_ref, pod_ref_bytes, stored, base_of. rewrite Hk.
  do 2 reads_step. cbn [enc].
  destruct (enc e); [rewrite !decide_False by done|rewrite !decide_True by done].
  - eapply reads_bind.
    { reads_step. reads_guard; [apply Z.ltb_ge; lia|].
      eapply reads_last; [by apply (reads_region_meta e)|]. apply reads_ret. }
    destruct (tier_has_stats tier); cbn [negb]; [do 2 reads_step|]; apply reads_ret.
  - eapply reads_bind; [reads_step; apply reads_ret|].
    destruct (tier_has_stats tier); cbn [negb]; [do 2 reads_step|]; apply reads_ret.
Qed.

Lemma reads_inline e tier :
  wf_entry tier e → kind e = kInline →
  reads (read_inline tier (base_of tier e)) (inline_bytes e tier) (stored tier e).
Proof.
  intros (_&_&_&_&_&_&_&_&_&_&Hdm&Hfm&Hdl&_&Hfl&_&Hxl&Hfz) Hk.
  unfold read_inline, inline_bytes, stored, base_of. rewrite Hk.
  eapply reads_bind; [by apply reads_byte_blob|].
  eapply reads_bind; [apply reads_get_varint64; ulia|].
  reads_guard; [apply Z.ltb_ge; lia|].
  eapply reads_bind; [by apply (reads_region_meta e)|].
  destruct (tier_has_stats tier); cbn [negb]; [|apply reads_ret].
  eapply reads_last; [by apply reads_byte_blob|]. apply reads_ret.
Qed.

Lemma reads_locator e tier :
  wf_entry tier e →
  reads (read_locator tier (base_of tier e))
    (if decide (kind e = kInline) then inline_bytes e tier else pod_ref_bytes e tier) (stored tier e).
Proof.
  intros He. unfold read_locator. change (kind (base_of tier e)) with (kind e).
  destruct (decide (kind e = kInline)) as [Hk|Hk]; [by apply reads_inline|].
  apply reads_pod_ref; [done|]. by destruct (kind e).
Qed.

(** The body of a storable entry is far below the 64-bit length field. *)
Lemma region_meta_bytes_le e tier b : (length (region_meta_bytes e tier b) ≤ 29)%nat.
Proof.
  unfold region_meta_bytes, crc_bytes.
  pose proof (encode_varint64_length_le (uncomp_len (dd_meta e))).
  pose proof (encode_varint64_length_le (uncomp_len (freq_meta e))).
  destruct b, (tier_has_stats tier); solve_len.
Qed.

Lemma term_key_bytes_le t prev : (length (term_key_bytes t prev) ≤ 20 + length t)%nat.
Proof.
  unfold term_key_bytes. pose proof (encode_varint64_length_le (common_prefix_len t prev)).
  pose proof (encode_varint64_length_le (u32 (zlen (drop (Z.to_nat (common_prefix_len t prev)) t)))).
  solve_len.
Qed.

Lemma blob_bytes_le b : (length (blob_bytes b) ≤ 10 + length b)%nat.
Proof. unfold blob_bytes. pose proof (encode_varint64_length_le (zlen b)). solve_len. Qed.

Lemma body_bytes_le e prev tier :
  (length (body_bytes e prev tier) ≤ 160 + length (term e) + length (frq_bytes e) + length (prx_bytes e))%nat.
Proof.
  unfold body_bytes, stats_bytes, inline_bytes, pod_ref_bytes.
  pose proof (term_key_bytes_le (term e) prev). pose proof (blob_bytes_le (frq_bytes e)).
  pose proof (blob_bytes_le (prx_bytes e)). pose proof (region_meta_bytes_le e tier true).
  pose proof (region_meta_bytes_le e tier false).
  pose proof (encode_varint64_length_le (df e)). pose proof (encode_varint64_length_le (ttf_delta e)).
  pose proof (encode_varint64_length_le (max_freq e)).
  pose proof (encode_varint64_length_le (frq_off_delta e)). pose proof (encode_varint64_length_le (frq_len e)).
  pose proof (encode_varint64_length_le (prelude_len e)). pose proof (encode_varint64_length_le (frq_docs_len e)).
  pose proof (encode_varint64_length_le (prx_off_delta e)). pose proof (encode_varint64_length_le (prx_len e)).
  pose proof (encode_varint64_length_le (inline_dd_disk_len e)).
  destruct (tier_has_stats tier), (decide (kind e = kInline)), (decide (enc e = kWindowed)); solve_len.
Qed.

Lemma body_bytes_u64 e prev tier : wf_entry tier e → is_u64 (zlen (body_bytes e prev tier)).
Proof.
  intros ([_ Ht]&_&_&_&_&_&_&_&_&_&_&_&_&_&Hf&_&Hx&_). pose proof (body_bytes_le e prev tier). ulia.
Qed.

Lemma blob_bytes_is_bytes b : is_bytes b → is_bytes (blob_bytes b).
Proof. intros. apply Forall_app_2; auto with snii. Qed.

Lemma region_meta_bytes_is_bytes e tier b : is_bytes (region_meta_bytes e tier b).
Proof.
  unfold region_meta_bytes, crc_bytes. destruct (pack_win_mode_fields e) as [Hm _].
  destruct b, (tier_has_stats tier); repeat apply Forall_app_2; auto with snii.
Qed.
#[local] Hint Resolve blob_bytes_is_bytes region_meta_bytes_is_bytes : snii.

Lemma entry_bytes_is_bytes e prev tier : wf_entry tier e → is_bytes (entry_bytes e prev tier).
Proof.
  intros (Ht&_&_&_&_&_&_&_&_&_&_&_&_&Hf&_&Hx&_). destruct (pack_flags_fields e) as [Hp _].
  apply blob_bytes_is_bytes. unfold body_bytes, stats_bytes, inline_bytes, pod_ref_bytes.
  destruct (tier_has_stats tier), (decide (kind e = kInline)), (decide (enc e = kWindowed));
    rewrite ?Forall_app; split_and!; auto with snii.
Qed.
#[export] Hint Resolve entry_bytes_is_bytes : snii.

Lemma reads_decode_dict_entry e prev tier :
  wf_entry tier e → reads (decode_dict_entry prev tier) (entry_bytes e prev tier) (stored tier e).
Proof.
  intros He pre post. pose proof (body_bytes_u64 e prev tier He) as Hlen.
  pose proof He as (Ht&Hdf&Htt&Hmf&_). unfold entry_bytes, blob_bytes.
  unfold decode_dict_entry, read_entry_len. rewrite bind_bind, <- app_assoc.
  rewrite (bind_reads _ _ _ _ _ (zlen (body_bytes e prev tier))) by by apply reads_get_varint64.
  rewrite bind_bind, bind_get_remaining, bind_bind, bind_return_if.
  rewrite (proj2 (Z.ltb_ge _ _)) by solve_len. cbv beta iota.
  rewrite bind_mret, bind_get_position. cbn [pos_].
  set (loc := if decide (kind e = kInline) then inline_bytes e tier else pod_ref_bytes e tier).
  replace (body_bytes e prev tier ++ post)
    with (term_key_bytes (term e) prev ++ [pack_flags e] ++ stats_bytes e tier ++ loc ++ post)
    by (unfold body_bytes; by rewrite <- !app_assoc).
  rewrite (bind_reads _ _ _ _ _ (term e)) by by apply reads_term_key.
  rewrite (bind_reads _ _ _ _ _ (pack_flags e)) by apply reads_get_u8.
  rewrite (bind_reads _ _ _ _ _ _ (reads_stats e tier _ Hdf Htt Hmf)), apply_pack_flags.
  rewrite (bind_reads _ _ _ _ _ _ (reads_locator e tier He)).
  rewrite bind_get_position, bind_return_if. cbn [pos_].
  rewrite (proj2 (Z.eqb_eq _ _)); cbn [negb].
  - unfold mret, reader_ret, body_bytes. do 2 f_equal. f_equal; [by rewrite <- !app_assoc|].
    fold loc. solve_len.
  - unfold body_bytes. fold loc. rewrite !length_app. lia.
Qed.

Lemma reads_skip_dict_entry e prev tier :
  wf_entry tier e → reads skip_dict_entry (entry_bytes e prev tier) tt.
Proof.
  intros He pre post. pose proof (body_bytes_u64 e prev tier He) as Hlen. unfold entry_bytes, blob_bytes.
  unfold skip_dict_entry, read_entry_len. rewrite bind_bind, <- app_assoc.
  rewrite (bind_reads _ _ _ _ _ (zlen (body_bytes e prev tier))) by by apply reads_get_varint64.
  rewrite bind_bind, bind_get_remaining, bind_bind, bind_return_if.
  rewrite (proj2 (Z.ltb_ge _ _)) by solve_len. cbv beta iota.
  rewrite bind_mret.
  rewrite (bind_reads _ _ _ _ _ (body_bytes e prev tier)) by by apply reads_get_bytes.
  unfold mret, reader_ret. do 2 f_equal. f_equal; [by rewrite <- !app_assoc|]. solve_len.
Qed.

(** ** Properties *)

(** an encoded entry, wherever it stands in a buffer, decodes to what the
    layout stores of it ([stored]), and the cursor ends right behind it. *)
Theorem dict_entry_roundtrip e prev tier pre post :
  wf_entry tier e →
  let buf := encode_dict_entry e prev tier pre in
  decode_dict_entry prev tier (mkByteSource (buf ++ post) (length pre)) =
    Ok (stored tier e, mkByteSource (buf ++ post) (length buf)).
Proof.
  intros He buf. subst buf. rewrite encode_dict_entry_app, <- app_assoc, length_app.
  by apply reads_decode_dict_entry.
Qed.

(** skipping an encoded entry moves the cursor exactly where decoding it
    does, without reading the body. *)
Theorem skip_dict_entry_lands e prev tier pre post :
  wf_entry tier e →
  let buf := encode_dict_entry e prev tier pre in
  skip_dict_entry (mkByteSource (buf ++ post) (length pre)) = Ok (tt, mkByteSource (buf ++ post) (length buf)).
Proof.
  intros He buf. subst buf. rewrite encode_dict_entry_app, <- app_assoc, length_app.
  by apply (reads_skip_dict_entry e).
Qed.

(** ** Safety *)

Lemma safe_read_entry_len : safe_post read_entry_len (λ n, 0 ≤ n).
Proof.
  unfold read_entry_len. eapply safe_bind; [apply safe_get_varint64|]. intros n [? _].
  do 2 safe_step. by apply safe_ret.
Qed.
#[export] Hint Resolve safe_read_entry_len : safe.

Lemma safe_read_region_meta tier b d f out : safe (read_region_meta tier b d f out).
Proof.
  unfold read_region_meta, get_crc_if. do 3 safe_step.
  eapply safe_bind; [destruct b; [apply safe_get_fixed32|by apply safe_ret]|]. intros ? _.
  destruct (tier_has_stats tier); cbn [negb].
  - safe_step. eapply safe_bind; [destruct b; [apply safe_get_fixed32|by apply safe_ret]|]. intros ? _.
    by apply safe_ret.
  - safe_step. by apply safe_ret.
Qed.
#[local] Hint Resolve safe_read_region_meta : safe.

Lemma safe_read_pod_ref tier out : safe (read_pod_ref tier out).
Proof.
  unfold read_pod_ref. do 2 safe_step.
  eapply (safe_bind _ _ (λ _, True)).
  - destruct (decide _); [|do 3 safe_step]; [safe_step|]; by apply safe_ret.
  - intros o _. destruct (tier_has_stats tier); cbn [negb]; [do 2 safe_step|]; by apply safe_ret.
Qed.

Lemma safe_read_byte_blob : safe read_byte_blob.
Proof.
  unfold read_byte_blob. eapply safe_bind; [apply safe_get_varint64|]. intros n [? _].
  eapply safe_weaken; [by apply safe_get_bytes|done].
Qed.
#[local] Hint Resolve safe_read_byte_blob : safe.

Lemma safe_read_inline tier out : safe (read_inline tier out).
Proof.
  unfold read_inline. do 4 safe_step.
  destruct (tier_has_stats tier); cbn [negb]; [safe_step|]; by apply safe_ret.
Qed.

Lemma safe_read_stats tier out : safe (read_stats tier out).
Proof.
  unfold read_stats. safe_step. destruct (tier_has_stats tier); cbn [negb]; [do 2 safe_step|]; by apply safe_ret.
Qed.
#[local] Hint Resolve safe_read_stats : safe.

Lemma safe_read_locator tier out : safe (read_locator tier out).
Proof. unfold read_locator. destruct (decide _); [apply safe_read_inline|apply safe_read_pod_ref]. Qed.
#[local] Hint Resolve safe_read_locator : safe.

Lemma safe_decode_dict_entry prev tier : safe (decode_dict_entry prev tier).
Proof. unfold decode_dict_entry. do 8 safe_step. by apply safe_ret. Qed.
#[export] Hint Resolve safe_decode_dict_entry : safe.

Lemma advances_decode_dict_entry prev tier : advances (decode_dict_entry prev tier).
Proof.
  unfold decode_dict_entry. eapply (advances_bind _ _ _ (λ _, True)); [apply safe_read_entry_len| |].
  - unfold read_entry_len. eapply (advances_bind _ _ _ (λ _, True)); [apply safe_get_varint64|apply advances_get_varint64|].
    intros n _. do 2 safe_step. by apply safe_ret.
  - intros n _. do 7 safe_step. by apply safe_ret.
Qed.

Lemma safe_skip_dict_entry : safe skip_dict_entry.
Proof.
  unfold skip_dict_entry. eapply safe_bind; [apply safe_read_entry_len|]. intros n Hn.
  eapply safe_bind; [by apply safe_get_bytes|]. intros ? _. by apply safe_ret.
Qed.
#[export] Hint Resolve safe_skip_dict_entry : safe.

(** ** Witnesses *)

Definition sample_entry : DictEntry :=
  mkDictEntry [98; 97; 114] kPodRef kSlim true 300 7 9 1000 70 0 40 5000 60
    (mkFrqRegionMeta false 40 40 123456 true) (mkFrqRegionMeta true 99 30 654321 true) 0 [] [].

Lemma sample_entry_wf tier : tier_has_stats tier = true → wf_entry tier sample_entry.
Proof.
  intros Ht. unfold wf_entry, wf_region, wf_term. rewrite Ht. cbn.
  split_and!; try (auto with snii; fail); try lia; try done.
Qed.

Lemma dict_entry_roundtrip_witness :
  let buf := encode_dict_entry sample_entry [98; 97; 122] kT2 [1; 2; 3] in
  decode_dict_entry [98; 97; 122] kT2 (mkByteSource (buf ++ [9]) 3) =
    Ok (sample_entry, mkByteSource (buf ++ [9]) (length buf)).
Proof.
  exact (dict_entry_roundtrip sample_entry [98; 97; 122] kT2 [1; 2; 3] [9]
    (sample_entry_wf kT2 eq_refl)).
Defined.

Lemma skip_dict_entry_lands_witness :
  let buf := encode_dict_entry sample_entry [] kT3 [1; 2; 3] in
  skip_dict_entry (mkByteSource (buf ++ [9]) 3) = Ok (tt, mkByteSource (buf ++ [9]) (length buf)).
Proof.
  exact (skip_dict_entry_lands sample_entry [] kT3 [1; 2; 3] [9] (sample_entry_wf kT3 eq_refl)).
Defined.
