(* ===== verification/DictBlock.v ===== *)
(** * DictBlock: front-coded dictionary blocks with term anchors.

    [format/dict_block.h] and [format/dict_block.cpp]. Every [anchor_interval_]
    entries the front coding restarts; the proofs cut the entries into the
    segments between anchors ([chunks]). [decode_loop] and [scan_loop] are the
    [while (!src.eof())] loops; an entry takes at least one byte, so one more
    round than the segment has bytes is fuel enough ([decode_loop_defined],
    [scan_loop_defined]), and running out of fuel is [Undef]. *)

From S2P Require Import Prelude Status Varint ByteIO Crc32c FormatConstants TermKey FrqPod DictEntry.

#[local] Open Scope Z_scope.

Definition kFooterBytes : Z := 4.
Definition kNAnchorsBytes : Z := 4.
Definition kAnchorOffBytes : Z := 4.
Definition kDictBlockFormatVer : Z := 1.
Definition kHasPositions : Z := 1.

(** ** Builder *)

Record DictBlockBuilder := mkDictBlockBuilder {
  b_tier_ : IndexTier;
  b_has_positions_ : bool;
  b_frq_base_ : Z;
  b_prx_base_ : Z;
  b_anchor_interval_ : Z;
  b_n_entries_ : Z;
  b_entries_ : list DictEntry;
  b_prev_term_ : bytes;
  b_entries_est_ : Z;
  b_n_anchors_ : Z
}.

Definition estimate_entry_bytes (e : DictEntry) : Z :=
  let body := varint_len (u32 (zlen (term e))) in
  let body := body + varint_len (u32 (zlen (term e))) in
  let body := body + zlen (term e) in
  let body := body + 1 in
  let body := body + 10 in
  let body := body + 10 in
  let body := body + 10 in
  let body :=
    if decide (kind e = kInline) then
      let body := body + (10 + zlen (frq_bytes e)) in
      body + (10 + zlen (prx_bytes e))
    else body + 10 * 5 in
  varint_len body + body.

(** The constructor. *)
Definition new_builder (tier : IndexTier) (has_positions : bool) (frq_base prx_base anchor_interval : Z)
    : DictBlockBuilder :=
  mkDictBlockBuilder tier has_positions frq_base prx_base
    (if anchor_interval =? 0 then 1 else anchor_interval) 0 [] [] 0 0.

Definition is_anchor (anchor_interval_ index : Z) : bool := index `mod` anchor_interval_ =? 0.

Definition add_entry (entry : DictEntry) (b : DictBlockBuilder) : DictBlockBuilder :=
  mkDictBlockBuilder (b_tier_ b) (b_has_positions_ b) (b_frq_base_ b) (b_prx_base_ b)
    (b_anchor_interval_ b) (u32 (b_n_entries_ b + 1)) (b_entries_ b ++ [entry]) (term entry)
    (u64 (b_entries_est_ b + estimate_entry_bytes entry))
    (if is_anchor (b_anchor_interval_ b) (b_n_entries_ b) then u64 (b_n_anchors_ b + 1)
     else b_n_anchors_ b).

Definition estimated_bytes (b : DictBlockBuilder) : Z :=
  let header := varint_len (b_n_entries_ b) + 2 in
  let header := header + varint_len (b_frq_base_ b) in
  let header := if b_has_positions_ b then header + varint_len (b_prx_base_ b) else header in
  let anchors := b_n_anchors_ b * kAnchorOffBytes + kNAnchorsBytes in
  u64 (header + b_entries_est_ b + anchors + kFooterBytes).

(** The entries from index [i] on; [prev] is the previous entry's term. *)
Fixpoint write_entries (tier : IndexTier) (anchor_interval_ : Z) (entries : list DictEntry) (i : Z)
    (prev : bytes) (body : ByteSink) (anchor_offsets : list Z) : ByteSink * list Z :=
  match entries with
  | [] => (body, anchor_offsets)
  | e :: entries =>
      let anchor := is_anchor anchor_interval_ i in
      let anchor_offsets := if anchor then anchor_offsets ++ [u32 (zlen body)] else anchor_offsets in
      let prev_term := if anchor then [] else prev in
      write_entries tier anchor_interval_ entries (i + 1) (term e)
        (encode_dict_entry e prev_term tier body) anchor_offsets
  end.

Definition write_header (b : DictBlockBuilder) (body : ByteSink) : ByteSink :=
  let body := body |> put_varint64 (b_n_entries_ b) |> put_u8 kDictBlockFormatVer
    |> put_u8 (if b_has_positions_ b then kHasPositions else 0) |> put_varint64 (b_frq_base_ b) in
  if b_has_positions_ b then put_varint64 (b_prx_base_ b) body else body.

Definition finish (b : DictBlockBuilder) (sink : ByteSink) : ByteSink :=
  let body := write_header b [] in
  let '(body, anchor_offsets) :=
    write_entries (b_tier_ b) (b_anchor_interval_ b) (take (Z.to_nat (b_n_entries_ b)) (b_entries_ b))
      0 [] body [] in
  let body := put_each put_fixed32 anchor_offsets body in
  let body := put_fixed32 (u32 (zlen anchor_offsets)) body in
  sink |> put_bytes body |> put_fixed32 (crc32c body).

(** ** Reader *)

Record DictBlockReader := mkDictBlockReader {
  block_ : Slice;
  tier_ : IndexTier;
  has_positions_ : bool;
  frq_base_ : Z;
  prx_base_ : Z;
  n_entries_ : Z;
  entries_begin_ : Z;
  anchor_offsets_ : list Z;
  anchor_terms_ : list bytes
}.

Definition verify_crc (block : Slice) : result Slice :=
  _ ← reject_if (zlen block <? kFooterBytes + kNAnchorsBytes)
        (Corruption "dict_block: block too short to contain footer");
  let covered_len := zlen block - kFooterBytes in
  covered ← subslice block 0 covered_len;
  footer ← subslice block covered_len kFooterBytes;
  stored ← run_reader get_fixed32 footer;
  _ ← reject_if (negb (crc32c covered =? stored)) (Corruption "dict_block: crc32c checksum mismatch");
  Ok covered.

Definition check_flags (flags : Z) (has_positions : bool) : result unit :=
  let flag_pos := negb (Z.land flags kHasPositions =? 0) in
  reject_if (negb (Bool.eqb flag_pos has_positions))
    (InvalidArgument "dict_block: has_positions inconsistent with block_flags").

(** [n_entries], [frq_base_], [prx_base_] and [entries_begin_]. *)
Definition read_header (has_positions : bool) : reader (Z * Z * Z * Z) :=
  n_entries ← get_varint64;
  ver ← get_u8;
  flags ← get_u8;
  _ ← return_if (negb (ver =? kDictBlockFormatVer))
        (Unsupported "dict_block: unsupported entry_format_ver");
  _ ← lift (check_flags flags has_positions);
  frq_base ← get_varint64;
  prx_base ← (if has_positions then get_varint64 else mret 0);
  entries_begin ← get_position;
  mret (n_entries, frq_base, prx_base, entries_begin).

(** The anchors from index [i] on; [prev] is [anchor_offsets_[i - 1]]. *)
Fixpoint read_anchors (covered : Slice) (tier : IndexTier) (entries_begin anchor_table_begin : Z)
    (n : nat) (first : bool) (prev : Z) : reader (list (Z * bytes)) :=
  match n with
  | O => mret []
  | S n =>
      off ← get_fixed32;
      _ ← return_if (anchor_table_begin <=? off) (Corruption "dict_block: anchor offset out of range");
      _ ← (if first then
             return_if (negb (off =? entries_begin))
               (Corruption "dict_block: first anchor offset is not the start of entries")
           else
             return_if (off <=? prev)
               (Corruption "dict_block: anchor offsets are not strictly increasing"));
      e_src ← lift (subslice covered off (anchor_table_begin - off));
      probe ← lift (run_reader (decode_dict_entry [] tier) e_src);
      rest ← read_anchors covered tier entries_begin anchor_table_begin n false off;
      mret ((off, term probe) :: rest)
  end.

Definition open (block : Slice) (tier : IndexTier) (has_positions : bool) : result DictBlockReader :=
  covered ← verify_crc block;
  '(n_entries, frq_base, prx_base, entries_begin) ← run_reader (read_header has_positions) covered;
  _ ← reject_if (zlen covered <? kNAnchorsBytes) (Corruption "dict_block: missing n_anchors");
  na_src ← subslice covered (zlen covered - kNAnchorsBytes) kNAnchorsBytes;
  n_anchors ← run_reader get_fixed32 na_src;
  let anchor_table_bytes := n_anchors * kAnchorOffBytes in
  _ ← reject_if ((zlen covered <? kNAnchorsBytes + anchor_table_bytes) ||
                 (zlen covered <? entries_begin + anchor_table_bytes + kNAnchorsBytes))
        (Corruption "dict_block: anchor table out of range");
  let anchor_table_begin := zlen covered - kNAnchorsBytes - anchor_table_bytes in
  at_src ← subslice covered anchor_table_begin anchor_table_bytes;
  anchors ← run_reader (read_anchors covered tier entries_begin anchor_table_begin
                          (Z.to_nat n_anchors) true 0) at_src;
  Ok (mkDictBlockReader covered tier has_positions frq_base prx_base (u32 n_entries) entries_begin
        anchors.*1 anchors.*2).

(** [while (lo + 1 < hi)]; the range shrinks, its length is the fuel. *)
Fixpoint locate_anchor_loop (fuel : nat) (anchor_terms : list bytes) (target : bytes) (lo hi : Z) : Z :=
  match fuel with
  | O => lo
  | S fuel =>
      if lo + 1 <? hi then
        let mid := lo + (hi - lo) / 2 in
        if term_leb (default [] (anchor_terms !! Z.to_nat mid)) target
        then locate_anchor_loop fuel anchor_terms target mid hi
        else locate_anchor_loop fuel anchor_terms target lo mid
      else lo
  end.

Definition locate_anchor (r : DictBlockReader) (target : bytes) : option Z :=
  match anchor_terms_ r with
  | [] => None
  | front :: _ =>
      if term_ltb target front then None
      else Some (locate_anchor_loop (length (anchor_terms_ r)) (anchor_terms_ r) target
                   0 (zlen (anchor_terms_ r)))
  end.

(** [anchor_offsets_[a]], and the slice of the segment that starts there. *)
Definition anchor_offset (r : DictBlockReader) (a : Z) : result Z :=
  match anchor_offsets_ r !! Z.to_nat a with Some off => Ok off | None => Undef end.

Definition segment (r : DictBlockReader) (a : Z) : result Slice :=
  seg_begin ← anchor_offset r a;
  let is_last := a + 1 =? zlen (anchor_offsets_ r) in
  seg_end ← (if is_last then
               Ok (u64 (zlen (block_ r) - kNAnchorsBytes - zlen (anchor_offsets_ r) * kAnchorOffBytes))
             else anchor_offset r (a + 1));
  _ ← reject_if ((seg_end <? seg_begin) || (zlen (block_ r) <? seg_end))
        (Corruption "dict_block: anchor segment range invalid");
  subslice (block_ r) seg_begin (seg_end - seg_begin).

Fixpoint decode_loop (fuel : nat) (tier : IndexTier) (prev : bytes) (out : list DictEntry)
    (src : ByteSource) : result (list DictEntry) :=
  match fuel with
  | O => Undef
  | S fuel =>
      if eof src then Ok out
      else
        '(e, src) ← decode_dict_entry prev tier src;
        decode_loop fuel tier (term e) (out ++ [e]) src
  end.

Definition decode_segment (r : DictBlockReader) (a : Z) (out : list DictEntry) : result (list DictEntry) :=
  seg ← segment r a;
  decode_loop (S (length seg)) (tier_ r) [] out (source seg).

Definition decode_all (r : DictBlockReader) : result (list DictEntry) :=
  out ← fold_result (decode_segment r) (seqZ 0 (zlen (anchor_offsets_ r))) [];
  _ ← reject_if (negb (zlen out =? n_entries_ r)) (Corruption "dict_block: decoded entry count mismatch");
  Ok out.

(** The result is [*out] when [*found]. *)
Fixpoint scan_loop (fuel : nat) (tier : IndexTier) (target prev : bytes) (src : ByteSource)
    : result (option DictEntry) :=
  match fuel with
  | O => Undef
  | S fuel =>
      if eof src then Ok None
      else
        '(e, src) ← decode_dict_entry prev tier src;
        if decide (term e = target) then Ok (Some e)
        else if term_ltb target (term e) then Ok None
        else scan_loop fuel tier target (term e) src
  end.

Definition scan_from_anchor (r : DictBlockReader) (anchor_idx : Z) (target : bytes)
    : result (option DictEntry) :=
  seg ← segment r anchor_idx;
  scan_loop (S (length seg)) (tier_ r) target [] (source seg).

Definition find_term (r : DictBlockReader) (target : bytes) : result (option DictEntry) :=
  match locate_anchor r target with
  | None => Ok None
  | Some anchor_idx => scan_from_anchor r anchor_idx target
  end.

(** ** Segments *)

Fixpoint chain_bytes (tier : IndexTier) (prev : bytes) (es : list DictEntry) : bytes :=
  match es with
  | [] => []
  | e :: es => entry_bytes e prev tier ++ chain_bytes tier (term e) es
  end.
Definition seg_bytes (tier : IndexTier) (seg : list DictEntry) : bytes := chain_bytes tier [] seg.

Fixpoint seg_offsets (tier : IndexTier) (start : Z) (segs : list (list DictEntry)) : list Z :=
  match segs with
  | [] => []
  | s :: segs => start :: seg_offsets tier (start + zlen (seg_bytes tier s)) segs
  end.

Lemma encode_dict_entry_pos e prev tier : (1 ≤ length (entry_bytes e prev tier))%nat.
Proof.
  unfold entry_bytes, blob_bytes. pose proof (encode_varint64_length_pos (zlen (body_bytes e prev tier))).
  rewrite length_app. lia.
Qed.

Lemma chain_bytes_length tier prev es : (length es ≤ length (chain_bytes tier prev es))%nat.
Proof.
  revert prev. induction es as [|e es IH]; intros prev; cbn [chain_bytes length]; [lia|].
  rewrite length_app. pose proof (encode_dict_entry_pos e prev tier). specialize (IH (term e)). lia.
Qed.

(** Entries between two anchors go out as one front-coding chain. *)
Lemma write_entries_chain tier k xs ys q r prev body offs :
  0 < r → r + zlen xs ≤ k →
  ∃ prev', write_entries tier k (xs ++ ys) (q * k + r) prev body offs =
    write_entries tier k ys (q * k + r + zlen xs) prev' (body ++ chain_bytes tier prev xs) offs.
Proof.
  revert r prev body. induction xs as [|x xs IH]; intros r prev body Hr Hk.
  { exists prev. cbn. by rewrite app_nil_r, Z.add_0_r. }
  cbn [app write_entries chain_bytes length] in *. unfold is_anchor.
  rewrite (Z.add_comm (q * k) r), Z.mod_add, Z.mod_small by lia. rewrite (proj2 (Z.eqb_neq _ _)) by lia.
  rewrite encode_dict_entry_app.
  destruct (IH (r + 1) (term x) (body ++ entry_bytes x prev tier)) as [prev' Heq]; [lia|lia|].
  exists prev'. replace (r + q * k + 1) with (q * k + (r + 1)) by lia. rewrite Heq, <- app_assoc.
  f_equal. lia.
Qed.

Lemma write_entries_segments tier (k : nat) fuel es q prev body offs :
  (0 < k)%nat → (length es ≤ fuel)%nat →
  write_entries tier (Z.of_nat k) es (q * Z.of_nat k) prev body offs =
    (body ++ concat (map (seg_bytes tier) (chunks_loop fuel k es)),
     offs ++ map u32 (seg_offsets tier (zlen body) (chunks_loop fuel k es))).
Proof.
  intros Hk. revert es q prev body offs. induction fuel as [|fuel IH]; intros es q prev body offs Hf.
  { destruct es; [|cbn in Hf; lia]. cbn. by rewrite !app_nil_r. }
  destruct es as [|e es]; [cbn; by rewrite !app_nil_r|].
  destruct k as [|k]; [lia|]. cbn [chunks_loop take drop concat map seg_offsets].
  cbn [write_entries]. unfold is_anchor. rewrite Z.mod_mul by lia. cbn [Z.eqb].
  rewrite encode_dict_entry_app.
  destruct (write_entries_chain tier (Z.of_nat (S k)) (take k es) (drop k es) q 1 (term e)
    (body ++ entry_bytes e [] tier) (offs ++ [u32 (zlen body)])) as [prev' Heq];
    [lia|rewrite length_take; lia|].
  rewrite take_drop in Heq. rewrite Heq. clear Heq.
  assert (seg_bytes tier (e :: take k es) = entry_bytes e [] tier ++ chain_bytes tier (term e) (take k es))
    as -> by done.
  destruct (decide (k ≤ length es)%nat) as [Hle|Hgt].
  - replace (q * Z.of_nat (S k) + 1 + zlen (take k es)) with ((q + 1) * Z.of_nat (S k))
      by (rewrite length_take; lia).
    rewrite IH by (rewrite length_drop; cbn in Hf; lia). f_equal; [by rewrite <- !app_assoc|].
    rewrite <- !app_assoc. cbn [app]. do 4 f_equal. rewrite !length_app. lia.
  - rewrite (drop_ge es) by lia. cbn [write_entries]. destruct fuel; cbn [chunks_loop map concat seg_offsets];
      by rewrite app_nil_r, <- !app_assoc.
Qed.

(** ** Layout of a finished block *)

Section Layout.
Context (tier : IndexTier) (has_positions : bool) (frq_base prx_base : Z) (k : nat).
Context (es : list DictEntry).

Definition header_bytes : bytes :=
  encode_varint64 (zlen es) ++ [kDictBlockFormatVer] ++ [if has_positions then kHasPositions else 0] ++
  encode_varint64 frq_base ++ (if has_positions then encode_varint64 prx_base else []).
Definition entries_bytes : bytes := concat (map (seg_bytes tier) (chunks k es)).
Definition offsets : list Z := seg_offsets tier (zlen header_bytes) (chunks k es).
Definition table_bytes : bytes := concat (map fixed32 offsets).
Definition covered_bytes : bytes := header_bytes ++ entries_bytes ++ table_bytes ++ fixed32 (zlen offsets).
Definition block_bytes : bytes := covered_bytes ++ fixed32 (crc32c covered_bytes).

Definition first_term (seg : list DictEntry) : bytes := from_option term [] (head seg).

(** What [open] leaves of the block. *)
Definition opened : DictBlockReader :=
  mkDictBlockReader covered_bytes tier has_positions frq_base (if has_positions then prx_base else 0)
    (zlen es) (zlen header_bytes) offsets (map first_term (chunks k es)).

(** A block the writer can produce: its offsets fit their 32-bit fields. *)
Definition wf_block : Prop :=
  (0 < k)%nat ∧ is_u64 frq_base ∧ is_u64 prx_base ∧ Forall (wf_entry tier) es ∧
  zlen covered_bytes < 2 ^ 32.

Lemma chain_bytes_is_bytes prev l : Forall (wf_entry tier) l → is_bytes (chain_bytes tier prev l).
Proof. intros Hl. revert prev. induction Hl; intros prev; cbn [chain_bytes]; auto with snii. Qed.

Lemma seg_offsets_length start segs : length (seg_offsets tier start segs) = length segs.
Proof. revert start. induction segs as [|s segs IH]; intros start; cbn; by rewrite ?IH. Qed.

Lemma fixed32s_length l : zlen (concat (map fixed32 l)) = 4 * zlen l.
Proof. induction l as [|x l IH]; cbn [map concat]; [done|]. rewrite length_app, fixed32_length. cbn [length]. lia. Qed.

Context (Hwf : wf_block).

Lemma covered_is_bytes : is_bytes covered_bytes.
Proof.
  destruct Hwf as (Hk & _ & _ & Hes & _). unfold covered_bytes, header_bytes, entries_bytes, table_bytes.
  unfold kDictBlockFormatVer, kHasPositions.
  rewrite !Forall_app. split_and!; auto with snii.
  - destruct has_positions; auto with snii.
  - destruct has_positions; auto with snii.
  - apply concat_is_bytes. pose proof (chunks_Forall (wf_entry tier) k es Hes) as Hs.
    eapply Forall_impl; [exact Hs|]. intros. by apply chain_bytes_is_bytes.
  - apply concat_is_bytes. apply Forall_forall. intros. auto with snii.
Qed.

Lemma covered_length :
  zlen covered_bytes = zlen header_bytes + zlen entries_bytes + 4 * zlen offsets + 4.
Proof. unfold covered_bytes, table_bytes. rewrite !length_app, fixed32_length. pose proof (fixed32s_length offsets). lia. Qed.

Lemma es_length_u32 : zlen es + 4 ≤ zlen covered_bytes.
Proof.
  destruct Hwf as (Hk & _). rewrite covered_length. unfold entries_bytes.
  destruct (chunks_spec k es Hk) as [Hc _]. rewrite <- Hc at 1.
  generalize (chunks k es). intros segs.
  assert (length (concat segs) ≤ length (concat (map (seg_bytes tier) segs)))%nat; [|lia].
  induction segs as [|s segs IH]; cbn [map concat]; [done|]. rewrite !length_app.
  pose proof (chain_bytes_length tier [] s). unfold seg_bytes in *. lia.
Qed.

Lemma seg_offsets_bounds start segs :
  0 ≤ start →
  Forall (λ off, start ≤ off ≤ start + zlen (concat (map (seg_bytes tier) segs)))
    (seg_offsets tier start segs).
Proof.
  revert start. induction segs as [|s segs IH]; intros start Hs; cbn [seg_offsets map concat]; [done|].
  rewrite length_app. constructor; [lia|]. eapply Forall_impl; [apply IH; lia|]. cbn beta. lia.
Qed.

Lemma offsets_u32 : is_u32s offsets.
Proof.
  destruct Hwf as (_&_&_&_&Hlen). rewrite covered_length in Hlen. unfold offsets.
  eapply Forall_impl; [apply seg_offsets_bounds; lia|]. cbn beta. unfold entries_bytes in Hlen. ulia.
Qed.

Lemma offsets_length : zlen offsets = zlen (chunks k es).
Proof. unfold offsets. by rewrite seg_offsets_length. Qed.
End Layout.

Lemma map_u32_id l : is_u32s l → map u32 l = l.
Proof. induction 1 as [|x l Hx Hl IH]; cbn [map]; [done|]. by rewrite IH, u32_small. Qed.

(** [add_entry] keeps the entries in order and counts them and the anchors. *)
Definition build (tier : IndexTier) (has_positions : bool) (frq_base prx_base : Z) (k : Z)
    (es : list DictEntry) : DictBlockBuilder :=
  fold_left (flip add_entry) es (new_builder tier has_positions frq_base prx_base k).

Lemma build_fields es b :
  let b' := fold_left (flip add_entry) es b in
  b_entries_ b' = b_entries_ b ++ es ∧ b_tier_ b' = b_tier_ b ∧ b_has_positions_ b' = b_has_positions_ b ∧
  b_frq_base_ b' = b_frq_base_ b ∧ b_prx_base_ b' = b_prx_base_ b ∧
  b_anchor_interval_ b' = b_anchor_interval_ b ∧
  (is_u32 (b_n_entries_ b) → b_n_entries_ b' = u32 (b_n_entries_ b + zlen es)).
Proof.
  revert b. induction es as [|e es IH]; intros b; cbn [fold_left].
  { rewrite app_nil_r. split_and!; try done. intros. by rewrite Z.add_0_r, u32_small. }
  destruct (IH (add_entry e b)) as (He & Ht & Hh & Hf & Hp & Hk & Hn). cbn zeta. cbn [flip] in *. rewrite He, Ht, Hh, Hf, Hp, Hk. cbn.
  split_and!; try done; [by rewrite <- app_assoc|]. intros Hb. cbn in Hn. rewrite Hn by auto with snii.
  unfold u32. rewrite Z.add_mod_idemp_l by lia. f_equal. lia.
Qed.

Lemma finish_build tier hp fb pb (k : nat) es sink :
  wf_block tier hp fb pb k es →
  finish (build tier hp fb pb (Z.of_nat k) es) sink = sink ++ block_bytes tier hp fb pb k es.
Proof.
  intros Hwf. pose proof Hwf as (Hk & Hfb & Hpb & Hes & Hlen).
  pose proof (es_length_u32 tier hp fb pb k es Hwf) as Hn.
  pose proof (build_fields es (new_builder tier hp fb pb (Z.of_nat k))) as (He&Ht&Hh&Hf&Hp&Hk'&Hne).
  unfold build. set (b := fold_left _ _ _) in *. cbn in He, Ht, Hh, Hf, Hp, Hk', Hne.
  specialize (Hne ltac:(ulia)). rewrite Z.add_0_l, u32_small in Hne by ulia.
  unfold finish. rewrite He, Ht, Hk', Hne, (proj2 (Z.eqb_neq (Z.of_nat k) 0)) by lia.
  rewrite Nat2Z.id, firstn_all.
  assert (write_header b [] = header_bytes hp fb pb es) as ->.
  { unfold write_header, header_bytes. rewrite Hne, Hh, Hf, Hp. destruct hp; autorewrite with sink; [done|].
    by rewrite app_nil_r. }
  pose proof (write_entries_segments tier k (length es) es 0 [] (header_bytes hp fb pb es) [] Hk (le_n _)) as Hw.
  change (0 * Z.of_nat k) with 0 in Hw. rewrite Hw. clear Hw. cbn [app].
  change (chunks_loop (length es) k es) with (chunks k es).
  rewrite map_u32_id by by apply offsets_u32.
  rewrite (put_each_app _ fixed32) by (intros; apply put_fixed32_app).
  change (seg_offsets tier _ _) with (offsets tier hp fb pb k es).
  rewrite u32_small.
  - rewrite !put_fixed32_app, put_bytes_app. unfold block_bytes, covered_bytes, entries_bytes, table_bytes.
    rewrite <- !app_assoc. done.
  - rewrite covered_length in Hlen. ulia.
Qed.

(** ** Opening a finished block *)

Section Open.
Context (tier : IndexTier) (hp : bool) (fb pb : Z) (k : nat) (es : list DictEntry).
Context (Hwf : wf_block tier hp fb pb k es).

Abbreviation covered := (covered_bytes tier hp fb pb k es).
Abbreviation header := (header_bytes hp fb pb es).
Abbreviation entries := (entries_bytes tier k es).
Abbreviation offs := (offsets tier hp fb pb k es).

Lemma verify_crc_block_gen c stored :
  4 ≤ zlen c → is_u32 stored →
  verify_crc (c ++ fixed32 stored) =
    if crc32c c =? stored then Ok c else Err (Corruption "dict_block: crc32c checksum mismatch").
Proof.
  intros Hc Hs. unfold verify_crc, kFooterBytes, kNAnchorsBytes.
  assert (zlen (c ++ fixed32 stored) = zlen c + 4) as Hlen by (rewrite length_app, fixed32_length; lia).
  rewrite bind_reject_false by (apply Z.ltb_ge; lia). rewrite Hlen.
  replace (zlen c + 4 - 4) with (zlen c) by lia.
  rewrite subslice_app_l, bind_Ok by done.
  rewrite subslice_app_r, bind_Ok by (rewrite ?fixed32_length; done).
  rewrite (reads_run get_fixed32 (fixed32 stored) stored), bind_Ok by by apply reads_get_fixed32.
  rewrite bind_reject. by destruct (crc32c c =? stored).
Qed.

Lemma run_read_header rest :
  run_reader (read_header hp) (header ++ rest) =
    Ok (zlen es, fb, if hp then pb else 0, zlen header).
Proof.
  pose proof Hwf as (Hk & Hfb & Hpb & Hes & Hlen).
  pose proof (es_length_u32 tier hp fb pb k es Hwf) as Hn.
  unfold run_reader, read_header, header_bytes. rewrite <- !app_assoc.
  rewrite (bind_reads_source _ _ _ _ (zlen es)) by (apply reads_get_varint64; ulia).
  rewrite (bind_reads _ _ _ _ _ kDictBlockFormatVer) by apply reads_get_u8.
  rewrite (bind_reads _ _ _ _ _ (if hp then kHasPositions else 0)) by apply reads_get_u8.
  rewrite bind_return_if. cbn [Z.eqb negb kDictBlockFormatVer Pos.eqb].
  rewrite bind_lift. replace (check_flags _ hp) with (Ok tt) by by destruct hp. rewrite bind_Ok.
  rewrite (bind_reads _ _ _ _ _ fb) by by apply reads_get_varint64.
  destruct hp.
  - rewrite (bind_reads _ _ _ _ _ pb) by by apply reads_get_varint64.
    rewrite bind_get_position. cbn [pos_]. unfold mret, reader_ret. cbn [mbind result_bind].
    do 2 f_equal. rewrite !length_app. cbn [length]. lia.
  - rewrite bind_mret, bind_get_position. cbn [pos_]. unfold mret, reader_ret. cbn [mbind result_bind].
    do 2 f_equal. rewrite !length_app. cbn [length]. lia.
Qed.

Lemma seg_head s :
  s ≠ [] → Forall (wf_entry tier) s →
  (1 ≤ length (seg_bytes tier s))%nat ∧
  ∀ rest, run_reader (decode_dict_entry [] tier) (seg_bytes tier s ++ rest)
    = Ok (from_option (stored tier) default_entry (head s)).
Proof.
  intros Hne Hs. destruct s as [|e s]; [done|]. apply Forall_cons in Hs as [He _].
  unfold seg_bytes. cbn [chain_bytes head from_option]. split.
  - rewrite length_app. pose proof (encode_dict_entry_pos e [] tier). lia.
  - intros rest. pose proof (reads_decode_dict_entry e [] tier He []) as Hr. cbn [app] in Hr.
    unfold run_reader, source. rewrite <- app_assoc. by rewrite Hr.
Qed.

Lemma stored_term e : term (stored tier e) = term e.
Proof. unfold stored. by destruct (kind e), (enc e). Qed.

Lemma reads_anchors pre segs post eb (first : bool) prev :
  Forall (λ s, s ≠ []) segs → Forall (Forall (wf_entry tier)) segs →
  zlen (pre ++ concat (map (seg_bytes tier) segs)) < 2 ^ 32 →
  (if first then zlen pre = eb else prev < zlen pre) →
  reads (read_anchors (pre ++ concat (map (seg_bytes tier) segs) ++ post) tier eb
           (zlen (pre ++ concat (map (seg_bytes tier) segs))) (length segs) first prev)
    (concat (map fixed32 (seg_offsets tier (zlen pre) segs)))
    (zip (seg_offsets tier (zlen pre) segs) (map first_term segs)).
Proof.
  revert pre first prev. induction segs as [|s segs IH]; intros pre first prev Hne Hs Hlen Hfirst;
    cbn [read_anchors map concat seg_offsets length zip zip_with]; [apply reads_ret|].
  apply Forall_cons in Hne as [Hne Hnes]. apply Forall_cons in Hs as [Hs Hss].
  destruct (seg_head s Hne Hs) as [Hpos Hprobe].
  cbn [map concat] in Hlen. rewrite !length_app in Hlen.
  eapply reads_bind; [apply reads_get_fixed32; ulia|].
  reads_guard; [apply Z.leb_gt; rewrite !length_app; lia|].
  eapply reads_pure.
  { instantiate (1 := tt). destruct first; apply reads_return_if.
    - by rewrite Hfirst, Z.eqb_refl.
    - apply Z.leb_gt. lia. }
  eapply reads_pure.
  { apply reads_lift, (subslice_rest pre (seg_bytes tier s ++ concat (map (seg_bytes tier) segs)) post). }
  eapply reads_pure; [apply reads_lift, Hprobe|].
  specialize (IH (pre ++ seg_bytes tier s) false (zlen pre)).
  replace (zlen pre + zlen (seg_bytes tier s)) with (zlen (pre ++ seg_bytes tier s))
    by (rewrite length_app; lia).
  eapply reads_last.
  { rewrite <- (app_assoc _ _ post), (app_assoc pre), (app_assoc pre).
    apply IH; [done|done|rewrite !length_app; lia|rewrite length_app; lia]. }
  destruct s as [|e s]; [done|]. cbn [head from_option first_term]. rewrite stored_term. apply reads_ret.
Qed.

Lemma open_block_bytes : open (block_bytes tier hp fb pb k es) tier hp = Ok (opened tier hp fb pb k es).
Proof.
  pose proof Hwf as (Hk & Hfb & Hpb & Hes & Hlen).
  pose proof (covered_length tier hp fb pb k es) as Hcl.
  pose proof (es_length_u32 tier hp fb pb k es Hwf) as Hn.
  unfold open, block_bytes. rewrite verify_crc_block_gen by
    (lia || by apply crc32c_range, covered_is_bytes).
  rewrite Z.eqb_refl, bind_Ok.
  assert (run_reader (read_header hp) covered = Ok (zlen es, fb, if hp then pb else 0, zlen header)) as ->
    by apply run_read_header.
  rewrite bind_Ok. unfold kNAnchorsBytes, kAnchorOffBytes.
  rewrite bind_reject_false by (apply Z.ltb_ge; lia).
  assert (covered = (header ++ entries ++ table_bytes tier hp fb pb k es) ++ fixed32 (zlen offs)) as Hc
    by (unfold covered_bytes; by rewrite <- !app_assoc).
  assert (zlen (header ++ entries ++ table_bytes tier hp fb pb k es) = zlen covered - 4) as Hpl
    by (rewrite Hc, (length_app _ (fixed32 _)), fixed32_length; lia).
  rewrite Hc at 1. rewrite subslice_app_r, bind_Ok by (rewrite ?fixed32_length; lia).
  rewrite (reads_run get_fixed32 _ (zlen offs)), bind_Ok by (apply reads_get_fixed32; ulia).
  rewrite bind_reject_false by (apply orb_false_iff; split; apply Z.ltb_ge; lia).
  replace (zlen covered - 4 - zlen offs * 4) with (zlen (header ++ entries)) by (rewrite length_app; lia).
  assert (covered = (header ++ entries) ++ table_bytes tier hp fb pb k es ++ fixed32 (zlen offs)) as Hc2
    by (unfold covered_bytes; by rewrite <- !app_assoc).
  assert (zlen (table_bytes tier hp fb pb k es) = zlen offs * 4) as Htl
    by (unfold table_bytes; rewrite fixed32s_length; lia).
  rewrite Hc2 at 1. rewrite <- Htl, subslice_mid, bind_Ok.
  rewrite offsets_length, Nat2Z.id.
  erewrite reads_run; cycle 1.
  { unfold covered_bytes, entries_bytes, table_bytes, offsets.
    apply (reads_anchors header (chunks k es)); [by apply chunks_spec|by apply chunks_Forall| |done].
    unfold entries_bytes in Hcl. rewrite length_app. lia. }
  rewrite bind_Ok. unfold opened. rewrite u32_small by ulia.
  rewrite fst_zip, snd_zip; [done|..]; by rewrite seg_offsets_length, length_map.
Qed.
End Open.

(** ** Reading an opened block *)

Section Lookup.
Context (tier : IndexTier) (hp : bool) (fb pb : Z) (k : nat) (es : list DictEntry).
Context (Hwf : wf_block tier hp fb pb k es).

Abbreviation blk := (opened tier hp fb pb k es).
Abbreviation segs := (chunks k es).

Lemma seg_offsets_lookup start l s r :
  seg_offsets tier start (l ++ s :: r) !! length l =
    Some (start + zlen (concat (map (seg_bytes tier) l))).
Proof.
  revert start. induction l as [|x l IH]; intros start; cbn [seg_offsets app length map concat lookup list_lookup].
  { cbn. f_equal. lia. }
  rewrite IH. f_equal. rewrite length_app. lia.
Qed.

Lemma anchor_offset_opened l s r :
  segs = l ++ s :: r →
  anchor_offset blk (zlen l) = Ok (zlen (header_bytes hp fb pb es ++ concat (map (seg_bytes tier) l))).
Proof.
  intros Hs. unfold anchor_offset, opened. cbn [anchor_offsets_]. rewrite Nat2Z.id. unfold offsets.
  rewrite Hs, seg_offsets_lookup. f_equal. rewrite length_app. lia.
Qed.

Lemma segment_opened l s r :
  segs = l ++ s :: r → segment blk (zlen l) = Ok (seg_bytes tier s).
Proof.
  intros Hs. pose proof Hwf as (Hk & Hfb & Hpb & Hes & Hlen).
  pose proof (covered_length tier hp fb pb k es) as Hcl.
  pose proof (offsets_length tier hp fb pb k es) as Hol.
  assert (entries_bytes tier k es = concat (map (seg_bytes tier) l) ++ seg_bytes tier s ++
    concat (map (seg_bytes tier) r)) as He.
  { unfold entries_bytes. rewrite Hs, map_app, concat_app. done. }
  set (pre := header_bytes hp fb pb es ++ concat (map (seg_bytes tier) l)).
  assert (covered_bytes tier hp fb pb k es = pre ++ seg_bytes tier s ++
    concat (map (seg_bytes tier) r) ++ table_bytes tier hp fb pb k es ++
    fixed32 (zlen (offsets tier hp fb pb k es))) as Hc.
  { unfold covered_bytes. rewrite He. subst pre. by rewrite <- !app_assoc. }
  unfold segment. rewrite (anchor_offset_opened l s r Hs), bind_Ok. fold pre.
  cbn [anchor_offsets_ block_ opened]. rewrite Hol. unfold kNAnchorsBytes, kAnchorOffBytes.
  assert (∀ e, e = zlen pre + zlen (seg_bytes tier s) →
    (_ ← reject_if ((e <? zlen pre) || (zlen (covered_bytes tier hp fb pb k es) <? e))
        (Corruption "dict_block: anchor segment range invalid");
     subslice (covered_bytes tier hp fb pb k es) (zlen pre) (e - zlen pre)) = Ok (seg_bytes tier s)) as Hend.
  { intros e ->. rewrite bind_reject_false.
    - rewrite Hc. replace (_ + _ - _) with (zlen (seg_bytes tier s)) by lia. apply subslice_mid.
    - apply orb_false_iff. split; apply Z.ltb_ge; [lia|]. rewrite Hc, !length_app. lia. }
  destruct r as [|s' r].
  - rewrite (proj2 (Z.eqb_eq _ _)) by (rewrite Hs, length_app; cbn [length]; lia).
    rewrite bind_Ok. apply Hend. cbn [map concat] in He. rewrite app_nil_r in He.
    rewrite u64_small.
    + subst pre. rewrite Hcl, He, !length_app. lia.
    + rewrite <- Hol. ulia.
  - rewrite (proj2 (Z.eqb_neq _ _)) by (rewrite Hs, length_app; cbn [length]; lia).
    replace (zlen l + 1) with (zlen (l ++ [s])) by (rewrite length_app; cbn [length]; lia).
    rewrite (anchor_offset_opened (l ++ [s]) s' r), bind_Ok by by rewrite <- app_assoc.
    apply Hend. subst pre. rewrite map_app, concat_app. cbn [map concat].
    rewrite app_nil_r, !length_app. lia.
Qed.

Lemma decode_loop_chain fuel prev out pre l :
  Forall (wf_entry tier) l → (length l < fuel)%nat →
  decode_loop fuel tier prev out (mkByteSource (pre ++ chain_bytes tier prev l) (length pre)) =
    Ok (out ++ map (stored tier) l).
Proof.
  intros Hl. revert fuel prev out pre. induction Hl as [|e l He Hl IH]; intros fuel prev out pre Hf;
    (destruct fuel as [|fuel]; [lia|]); cbn [decode_loop chain_bytes map].
  { rewrite app_nil_r, eof_end. by rewrite app_nil_r. }
  pose proof (encode_dict_entry_pos e prev tier) as Hpos. cbn [length] in Hf.
  assert (eof (mkByteSource (pre ++ entry_bytes e prev tier ++ chain_bytes tier (term e) l) (length pre))
    = false) as ->.
  { unfold eof. cbn [s_ pos_]. rewrite !length_app. apply bool_decide_eq_false. lia. }
  rewrite (reads_decode_dict_entry e prev tier He), bind_Ok, stored_term.
  rewrite <- length_app, (app_assoc pre). rewrite IH by lia. by rewrite <- app_assoc.
Qed.

Lemma wf_segs l s r : segs = l ++ s :: r → s ≠ [] ∧ Forall (wf_entry tier) s.
Proof.
  intros Hs. pose proof Hwf as (Hk & _ & _ & Hes & _).
  destruct (chunks_spec k es Hk) as [_ Hne]. pose proof (chunks_Forall (wf_entry tier) k es Hes) as Hw.
  rewrite Hs in Hne, Hw.
  apply Forall_app in Hne as [_ Hne], Hw as [_ Hw].
  apply Forall_cons in Hne as [? _], Hw as [? _]. done.
Qed.

Lemma decode_segment_opened l s r out :
  segs = l ++ s :: r → decode_segment blk (zlen l) out = Ok (out ++ map (stored tier) s).
Proof.
  intros Hs. unfold decode_segment. rewrite (segment_opened l s r Hs), bind_Ok.
  destruct (wf_segs l s r Hs) as [_ Hw]. unfold source, seg_bytes. cbn [tier_ opened].
  pose proof (chain_bytes_length tier [] s) as Hlen.
  exact (decode_loop_chain (S (length (chain_bytes tier [] s))) [] out [] s Hw ltac:(lia)).
Qed.

Lemma decode_segments l r out :
  segs = l ++ r →
  fold_result (decode_segment blk) (seqZ (zlen l) (zlen r)) out =
    Ok (out ++ map (stored tier) (concat r)).
Proof.
  revert l out. induction r as [|s r IH]; intros l out Hs; cbn [concat map length].
  { cbn. by rewrite app_nil_r. }
  rewrite seqZ_cons by lia. cbn [fold_result]. rewrite (decode_segment_opened l s r), bind_Ok by done.
  specialize (IH (l ++ [s]) (out ++ map (stored tier) s)). rewrite length_app in IH. cbn [length] in IH.
  replace (Z.succ (zlen l)) with (Z.of_nat (length l + 1)) by lia.
  replace (Z.pred (Z.of_nat (S (length r)))) with (zlen r) by lia.
  rewrite IH by by rewrite <- app_assoc. by rewrite map_app, <- app_assoc.
Qed.

Lemma decode_all_opened : decode_all blk = Ok (map (stored tier) es).
Proof.
  pose proof Hwf as (Hk & _ & _ & Hes & _). destruct (chunks_spec k es Hk) as [Hc _].
  unfold decode_all. cbn [anchor_offsets_ opened n_entries_].
  rewrite (offsets_length tier hp fb pb k es). assert (fold_result (decode_segment blk) (seqZ 0 (zlen segs)) [] = Ok (map (stored tier) (concat segs)))
    as -> by exact (decode_segments [] segs [] eq_refl).
  rewrite bind_Ok.
  cbn [app]. rewrite Hc. by rewrite bind_reject_false by by rewrite length_map, Z.eqb_refl.
Qed.

(** ** Finding a term *)

Definition entry_lt (e f : DictEntry) : Prop := term_lt (term e) (term f).
Definition lookup_term (target : bytes) (l : list DictEntry) : option DictEntry :=
  List.find (λ e, bool_decide (term e = target)) l.

Lemma lookup_term_None target l : Forall (λ e, term e ≠ target) l → lookup_term target l = None.
Proof. induction 1 as [|e l He Hl IH]; [done|]. cbn. by rewrite bool_decide_false. Qed.

Lemma lookup_term_app target l r :
  lookup_term target (l ++ r) =
    match lookup_term target l with Some e => Some e | None => lookup_term target r end.
Proof. induction l as [|e l IH]; [done|]. cbn. destruct (bool_decide _); [done|apply IH]. Qed.

Lemma stored_not_target target l :
  Forall (λ e, term e ≠ target) l → Forall (λ e, term e ≠ target) (map (stored tier) l).
Proof. intros Hl. apply Forall_map. eapply Forall_impl; [exact Hl|]. intros e He. cbn. by rewrite stored_term. Qed.

Lemma scan_loop_chain fuel target prev pre l :
  Forall (wf_entry tier) l → StronglySorted entry_lt l → (length l < fuel)%nat →
  scan_loop fuel tier target prev (mkByteSource (pre ++ chain_bytes tier prev l) (length pre)) =
    Ok (lookup_term target (map (stored tier) l)).
Proof.
  intros Hl. revert fuel prev pre. induction Hl as [|e l He Hl IH]; intros fuel prev pre Hs Hf;
    (destruct fuel as [|fuel]; [lia|]); cbn [scan_loop chain_bytes map].
  { by rewrite app_nil_r, eof_end. }
  pose proof (encode_dict_entry_pos e prev tier) as Hpos. cbn [length] in Hf.
  assert (eof (mkByteSource (pre ++ entry_bytes e prev tier ++ chain_bytes tier (term e) l) (length pre))
    = false) as ->.
  { unfold eof. cbn [s_ pos_]. rewrite !length_app. apply bool_decide_eq_false. lia. }
  rewrite (reads_decode_dict_entry e prev tier He), bind_Ok, stored_term.
  apply StronglySorted_inv in Hs as [Hs Hall].
  unfold lookup_term. cbn [List.find]. rewrite stored_term. fold (lookup_term target (map (stored tier) l)).
  destruct (decide (term e = target)) as [Heq|Hne]; [by rewrite bool_decide_true|].
  rewrite bool_decide_false by done.
  destruct (term_ltb target (term e)) eqn:Hlt.
  - rewrite lookup_term_None; [done|]. apply stored_not_target. eapply Forall_impl; [exact Hall|].
    intros f Hef Hft. unfold entry_lt in Hef. rewrite Hft in Hef.
    apply (irreflexivity term_lt target). by apply (term_lt_trans _ (term e)).
  - rewrite <- length_app, (app_assoc pre). by rewrite IH by (done || lia).
Qed.

Lemma locate_anchor_loop_spec fuel (ats : list bytes) target lo hi :
  0 ≤ lo < hi → hi ≤ zlen ats → hi - lo ≤ Z.of_nat fuel →
  StronglySorted term_lt ats →
  (∀ t, ats !! Z.to_nat lo = Some t → term_le t target) →
  (∀ (i : nat) t, ats !! i = Some t → hi ≤ Z.of_nat i → term_lt target t) →
  let r := locate_anchor_loop fuel ats target lo hi in
  lo ≤ r < hi ∧ (∀ t, ats !! Z.to_nat r = Some t → term_le t target) ∧
  (∀ (i : nat) t, ats !! i = Some t → r < Z.of_nat i → term_lt target t).
Proof.
  intros Hlh Hhi Hfuel Hs. revert lo hi Hlh Hhi Hfuel.
  induction fuel as [|fuel IH]; intros lo hi Hlh Hhi Hfuel Hlo Hup r; subst r; cbn [locate_anchor_loop]; [lia|].
  destruct (Z.ltb_spec (lo + 1) hi) as [Hlt|Hge].
  2: { split; [lia|]. split; [done|]. intros i t Hi Hr. apply (Hup i); [done|lia]. }
  assert (lo < lo + (hi - lo) / 2 < hi) as Hmid by (split; dlia).
  set (mid := lo + (hi - lo) / 2) in *. clearbody mid.
  destruct (lookup_lt_is_Some_2 ats (Z.to_nat mid)) as [m Hm]; [lia|]. rewrite Hm. cbn [from_option id].
  destruct (term_leb m target) eqn:Hle.
  - destruct (IH mid hi) as (? & ? & ?); [lia..| |done|split_and!; [lia|lia|done|done]].
    intros t Ht. rewrite Hm in Ht. by injection Ht as <-.
  - assert (term_lt target m) as Htm.
    { unfold term_leb in Hle. by apply negb_false_iff in Hle. }
    destruct (IH lo mid) as (? & ? & ?); [lia..|done| |split_and!; [lia|lia|done|done]].
    intros i t Hi Hge. destruct (decide (i = Z.to_nat mid)) as [->|].
    + rewrite Hm in Hi. by injection Hi as <-.
    + apply (term_lt_trans _ m); [done|]. eapply StronglySorted_lookup_lt; [exact Hs|exact Hm|exact Hi|lia].
Qed.

(** The first terms of the segments ascend, and bound their segments. *)
Lemma segment_first s : s ≠ [] → StronglySorted entry_lt s → Forall (λ e, term_le (first_term s) (term e)) s.
Proof.
  intros Hne Hs. destruct s as [|e s]; [done|]. apply StronglySorted_inv in Hs as [_ Hall].
  constructor; [apply term_le_cases; by left|]. eapply Forall_impl; [exact Hall|].
  intros f Hf. apply term_le_cases. by right.
Qed.

Lemma first_terms_sorted (l : list (list DictEntry)) :
  Forall (λ s, s ≠ []) l → StronglySorted entry_lt (concat l) →
  StronglySorted term_lt (map first_term l).
Proof.
  induction 1 as [|s l Hne Hl IH]; cbn [concat map]; intros Hs; [constructor|].
  apply StronglySorted_app in Hs as (Hlt & _ & Hs). constructor; [by apply IH|].
  apply Forall_map, Forall_forall. intros s' Hs'. destruct s as [|e s]; [done|].
  destruct s' as [|e' s']. { rewrite Forall_forall in Hl. by apply Hl in Hs'. }
  apply (Hlt e e'); [by left|]. apply list_elem_of_In, in_concat. exists (e' :: s').
  split; [by apply list_elem_of_In|by left].
Qed.

Lemma segments_sorted (l : list (list DictEntry)) :
  StronglySorted entry_lt (concat l) → Forall (StronglySorted entry_lt) l.
Proof.
  induction l as [|s l IH]; cbn [concat]; intros Hs; [done|].
  apply StronglySorted_app in Hs as (_ & ? & ?). constructor; auto.
Qed.

(** No segment that starts behind the target holds it. *)
Lemma above_target target (l : list (list DictEntry)) :
  Forall (λ s, s ≠ []) l → Forall (StronglySorted entry_lt) l →
  Forall (λ s, term_lt target (first_term s)) l → Forall (λ e, term e ≠ target) (concat l).
Proof.
  intros Hne Hs Ht. apply Forall_concat, Forall_forall. intros s Hin.
  rewrite Forall_forall in Hne, Hs, Ht. specialize (Ht s Hin).
  eapply Forall_impl; [by apply segment_first; auto|]. cbn. intros e He Heq. rewrite Heq in He.
  apply (irreflexivity term_lt target). by eapply term_lt_le_trans.
Qed.

Lemma lookup_located l s r target :
  Forall (λ s, s ≠ []) (l ++ s :: r) → StronglySorted entry_lt (concat (l ++ s :: r)) →
  term_le (first_term s) target → Forall (λ s, term_lt target (first_term s)) r →
  lookup_term target (map (stored tier) (concat (l ++ s :: r))) =
    lookup_term target (map (stored tier) s).
Proof.
  intros Hne Hs Hle Hr. pose proof (segments_sorted _ Hs) as Hss.
  apply Forall_app in Hne as [_ Hne], Hss as [_ Hss].
  apply Forall_cons in Hne as [Hsne Hne], Hss as [Hs1 Hss].
  rewrite concat_app. cbn [concat]. rewrite !map_app, !lookup_term_app.
  rewrite lookup_term_None.
  - destruct (lookup_term target (map (stored tier) s)); [done|].
    apply lookup_term_None, stored_not_target. by apply above_target.
  - apply stored_not_target, Forall_forall. intros e He Heq.
    rewrite concat_app in Hs. cbn [concat] in Hs. destruct s as [|f s]; [done|].
    assert (f ∈ (f :: s) ++ concat r) as Hf by by left.
    pose proof (StronglySorted_app_1_elem_of _ _ _ e f Hs He Hf) as Hef.
    unfold entry_lt in Hef. rewrite Heq in Hef. apply (irreflexivity term_lt target).
    by eapply term_lt_le_trans.
Qed.

Lemma find_term_opened target :
  StronglySorted entry_lt es →
  find_term blk target = Ok (lookup_term target (map (stored tier) es)).
Proof.
  intros Hs. pose proof Hwf as (Hk & _ & _ & Hes & _). destruct (chunks_spec k es Hk) as [Hc Hne].
  assert (StronglySorted entry_lt (concat segs)) as Hsc by by rewrite Hc.
  pose proof (first_terms_sorted segs Hne Hsc) as Hsf.
  unfold find_term, locate_anchor. cbn [anchor_terms_ opened].
  destruct (map first_term segs) as [|front ats] eqn:Hm.
  { apply map_eq_nil in Hm. rewrite Hm in Hc. by rewrite <- Hc. }
  destruct (term_ltb target front) eqn:Hlt.
  { rewrite <- Hc, lookup_term_None; [done|]. apply stored_not_target, above_target; [done|by apply segments_sorted|].
    apply (Forall_map first_term). change (list_fmap _ _ first_term segs) with (map first_term segs).
    rewrite Hm. apply StronglySorted_inv in Hsf as [_ Hall].
    constructor; [done|]. eapply Forall_impl; [exact Hall|]. intros t Ht. by apply (term_lt_trans _ front). }
  rewrite <- Hm in Hsf |- *.
  destruct (locate_anchor_loop_spec (length (map first_term segs)) (map first_term segs) target 0
    (zlen (map first_term segs))) as (Hr & Hle & Hgt); [rewrite Hm; cbn [length]; lia|lia|lia|done| | |].
  { rewrite Hm. intros t [= <-]. unfold term_le, term_leb. by rewrite Hlt. }
  { intros i t Hi Hge. apply lookup_lt_Some in Hi. lia. }
  set (a := locate_anchor_loop _ _ _ _ _) in *. rewrite length_map in Hr.
  destruct (lookup_lt_is_Some_2 segs (Z.to_nat a)) as [s Hsa]; [lia|].
  pose proof (take_drop_middle segs (Z.to_nat a) s Hsa) as Hsplit. symmetry in Hsplit.
  set (l := take (Z.to_nat a) segs) in *. set (r := drop (S (Z.to_nat a)) segs) in *.
  assert (zlen l = a) as Hl by (subst l; rewrite length_take; lia).
  unfold scan_from_anchor. rewrite <- Hl at 1. rewrite (segment_opened l s r Hsplit), bind_Ok.
  destruct (wf_segs l s r Hsplit) as [_ Hw]. unfold source, seg_bytes. cbn [tier_ opened].
  pose proof (chain_bytes_length tier [] s) as Hlen.
  pose proof (segments_sorted _ Hsc) as Hss. rewrite Hsplit in Hss.
  apply Forall_app in Hss as [_ Hss]. apply Forall_cons in Hss as [Hss _].
  pose proof (scan_loop_chain (S (length (chain_bytes tier [] s))) target [] [] s Hw Hss ltac:(lia)) as Hscan.
  cbn [app length] in Hscan. rewrite Hscan. f_equal. rewrite <- Hc, Hsplit. symmetry.
  apply lookup_located; rewrite <- ?Hsplit; [done|done| |].
  - apply (Hle (first_term s)). by rewrite list_lookup_fmap, Hsa.
  - apply Forall_lookup. intros i x Hx. subst r. rewrite lookup_drop in Hx.
    apply (Hgt (S (Z.to_nat a) + i)%nat); [|lia]. by rewrite list_lookup_fmap, Hx.
Qed.
End Lookup.

(** ** Safety *)

Lemma safe_read_header hp : safe_post (read_header hp) (λ '(_, _, _, p), 0 ≤ p).
Proof.
  unfold read_header. do 4 safe_step.
  eapply safe_bind; [apply (safe_lift _ (λ _, True)); [apply defined_reject_if|done]|]. intros [] _.
  safe_step. eapply (safe_bind _ _ (λ _, True)).
  { destruct hp; [|by apply safe_ret]. eapply safe_weaken; [apply safe_get_varint64|done]. }
  intros x _. eapply safe_bind; [apply safe_get_position|]. intros p Hp. by apply safe_ret.
Qed.

Lemma safe_run_decode_entry tier s :
  defined (run_reader (decode_dict_entry [] tier) s).
Proof. by destruct (safe_run _ _ s (safe_decode_dict_entry [] tier)). Qed.

(** The offsets [open] accepts ascend below the anchor table. *)
Lemma safe_read_anchors covered tier eb tb n (first : bool) prev :
  0 ≤ tb ≤ zlen covered →
  safe_post (read_anchors covered tier eb tb n first prev)
    (λ l, length l = n ∧ Forall (λ a, 0 ≤ a.1 < tb ∧ (first = false → prev < a.1)) l ∧
          StronglySorted Z.lt l.*1).
Proof.
  intros Htb. revert first prev. induction n as [|n IH]; intros first prev; cbn [read_anchors].
  { apply safe_ret. split_and!; constructor. }
  eapply safe_bind; [apply safe_get_fixed32_u32|]. intros off [Hoff _].
  eapply safe_bind; [apply safe_return_if|]. intros [] Hlt. cbn beta in Hlt. apply Z.leb_gt in Hlt.
  eapply (safe_bind _ _ (λ _, first = false → prev < off)).
  { destruct first; (eapply safe_weaken; [apply safe_return_if|]); intros [] Hc; cbn beta in Hc; [done|].
    intros _. by apply Z.leb_gt in Hc. }
  intros [] Hprev.
  eapply (safe_bind _ _ (λ _, True)); [apply safe_lift; [apply subslice_defined; lia|done]|]. intros e _.
  eapply (safe_bind _ _ (λ _, True)); [apply safe_lift; [apply safe_run_decode_entry|done]|]. intros p _.
  eapply safe_bind; [apply IH|]. intros rest (Hlen & Hall & Hs). apply safe_ret. cbn [length fmap list_fmap fst].
  split_and!; [lia| |].
  - constructor; [cbn; split; [lia|done]|]. eapply Forall_impl; [exact Hall|]. cbn.
    intros a [? Ha]. split; [done|]. intros Hf. specialize (Hprev Hf). specialize (Ha eq_refl). lia.
  - constructor; [done|]. apply Forall_map. eapply Forall_impl; [exact Hall|]. intros a [_ Ha]. cbn. auto.
Qed.

(** What [open] guarantees of the reader, on any bytes. *)
Definition table_begin (r : DictBlockReader) : Z :=
  zlen (block_ r) - kNAnchorsBytes - zlen (anchor_offsets_ r) * kAnchorOffBytes.
Definition wf_reader (r : DictBlockReader) : Prop :=
  length (anchor_terms_ r) = length (anchor_offsets_ r) ∧
  Forall (λ off, 0 ≤ off < table_begin r) (anchor_offsets_ r) ∧
  0 ≤ table_begin r ∧ zlen (block_ r) < 2 ^ 64.

Lemma verify_crc_spec block :
  match verify_crc block with
  | Ok covered => 4 ≤ zlen covered ≤ zlen block
  | Err _ => True
  | Undef => False
  end.
Proof.
  unfold verify_crc, kFooterBytes, kNAnchorsBytes. rewrite bind_reject.
  destruct (Z.ltb_spec (zlen block) (4 + 4)) as [|Hlen]; [done|].
  rewrite (subslice_ok _ 0), bind_Ok by lia. rewrite subslice_ok, bind_Ok by lia.
  set (c := take _ (drop (Z.to_nat 0) block)). set (f := take (Z.to_nat 4) _).
  destruct (safe_run _ _ f safe_get_fixed32) as [Hd _].
  destruct (run_reader get_fixed32 f) as [st| |]; [|done|done]. rewrite bind_Ok, bind_reject.
  destruct (negb _); [done|]. subst c. rewrite length_take, length_drop. lia.
Qed.

Lemma open_spec block tier hp :
  zlen block < 2 ^ 64 →
  match open block tier hp with Ok r => wf_reader r | Err _ => True | Undef => False end.
Proof.
  intros H64. unfold open. pose proof (verify_crc_spec block) as Hc.
  destruct (verify_crc block) as [covered| |]; [rewrite bind_Ok|done|done].
  destruct (safe_run _ _ covered (safe_read_header hp)) as [Hd Hp].
  destruct (run_reader (read_header hp) covered) as [[[[n fb] pb] eb]| |]; [rewrite bind_Ok|done|done].
  specialize (Hp _ eq_refl). cbn in Hp. rewrite bind_reject. unfold kNAnchorsBytes, kAnchorOffBytes.
  destruct (zlen covered <? 4); [done|].
  destruct (subslice covered _ 4) as [na| |] eqn:Hna;
    [rewrite bind_Ok|done|by apply subslice_defined in Hna; [|lia..]].
  destruct (safe_run _ _ na safe_get_fixed32_u32) as [Hnd Hnb].
  destruct (run_reader get_fixed32 na) as [n_anchors| |]; [rewrite bind_Ok|done|done].
  specialize (Hnb _ eq_refl). destruct Hnb as [Hn0 _]. rewrite bind_reject.
  destruct (_ || _) eqn:Hr; [done|]. apply orb_false_iff in Hr as [Hr1 Hr2]. apply Z.ltb_ge in Hr1, Hr2.
  destruct (subslice covered (zlen covered - 4 - n_anchors * 4) _) as [at_src| |] eqn:Hat;
    [rewrite bind_Ok|done|by apply subslice_defined in Hat; [|lia..]].
  set (tb := zlen covered - 4 - n_anchors * 4) in *.
  destruct (safe_run _ _ at_src (safe_read_anchors covered tier eb tb (Z.to_nat n_anchors) true 0 ltac:(lia)))
    as [Had Hap].
  destruct (run_reader _ at_src) as [anchors| |]; [rewrite bind_Ok|done|done].
  destruct (Hap _ eq_refl) as (Hlen & Hall & _).
  unfold wf_reader, table_begin. cbn [block_ anchor_offsets_ anchor_terms_].
  unfold kNAnchorsBytes, kAnchorOffBytes. rewrite !length_fmap.
  replace (zlen covered - 4 - zlen anchors * 4) with tb by lia. split_and!; [done| |lia|lia].
  apply Forall_map. eapply Forall_impl; [exact Hall|]. intros a [? _]. done.
Qed.

Lemma segment_defined r a :
  wf_reader r → 0 ≤ a < zlen (anchor_offsets_ r) →
  defined (segment r a).
Proof.
  intros (_ & Hoffs & Htb & H64) Ha. unfold segment, anchor_offset.
  destruct (lookup_lt_is_Some_2 (anchor_offsets_ r) (Z.to_nat a)) as [off Hoff]; [lia|]. rewrite Hoff, bind_Ok.
  pose proof (proj1 (Forall_lookup _ _) Hoffs _ _ Hoff) as Hb. cbn in Hb.
  assert (∀ e, defined (_ ← reject_if ((e <? off) || (zlen (block_ r) <? e))
      (Corruption "dict_block: anchor segment range invalid"); subslice (block_ r) off (e - off))) as Hgo.
  { intros e. rewrite bind_reject. destruct (_ || _) eqn:He; [done|].
    apply orb_false_iff in He as [He1 He2]. apply Z.ltb_ge in He1, He2. apply subslice_defined; lia. }
  destruct (Z.eqb_spec (a + 1) (zlen (anchor_offsets_ r))); [apply Hgo|].
  destruct (lookup_lt_is_Some_2 (anchor_offsets_ r) (Z.to_nat (a + 1))) as [e He]; [lia|].
  rewrite He, bind_Ok. apply Hgo.
Qed.

(** Fuel: every round of a scan consumes a byte of the segment. *)
Lemma scan_loop_defined fuel tier target prev src :
  wf_source src → (length (s_ src) - pos_ src < fuel)%nat →
  defined (scan_loop fuel tier target prev src).
Proof.
  revert prev src. induction fuel as [|fuel IH]; intros prev src Hwf Hf; [lia|]. cbn [scan_loop].
  destruct (eof src); [done|].
  pose proof (safe_decode_dict_entry prev tier src Hwf) as Hs.
  pose proof (advances_decode_dict_entry prev tier src Hwf) as Ha.
  destruct (decode_dict_entry prev tier src) as [[e src']| |]; [rewrite bind_Ok|done|done].
  destruct Hs as (_ & Hss & _ & Hwf'). destruct (decide _); [done|]. destruct (term_ltb _ _); [done|].
  apply IH; [done|]. unfold wf_source in *. rewrite Hss in *. lia.
Qed.

Lemma decode_loop_defined fuel tier prev out src :
  wf_source src → (length (s_ src) - pos_ src < fuel)%nat →
  defined (decode_loop fuel tier prev out src).
Proof.
  revert prev out src. induction fuel as [|fuel IH]; intros prev out src Hwf Hf; [lia|]. cbn [decode_loop].
  destruct (eof src); [done|].
  pose proof (safe_decode_dict_entry prev tier src Hwf) as Hs.
  pose proof (advances_decode_dict_entry prev tier src Hwf) as Ha.
  destruct (decode_dict_entry prev tier src) as [[e src']| |]; [rewrite bind_Ok|done|done].
  destruct Hs as (_ & Hss & _ & Hwf'). apply IH; [done|]. unfold wf_source in *. rewrite Hss in *. lia.
Qed.

Lemma locate_anchor_loop_range fuel ats target lo hi :
  0 ≤ lo < hi → 0 ≤ locate_anchor_loop fuel ats target lo hi < hi.
Proof.
  revert lo hi. induction fuel as [|fuel IH]; intros lo hi Hlh; cbn [locate_anchor_loop]; [lia|].
  destruct (Z.ltb_spec (lo + 1) hi); [|lia].
  assert (lo < lo + (hi - lo) / 2 < hi) as Hmid by (split; dlia).
  destruct (term_leb _ _).
  - specialize (IH (lo + (hi - lo) / 2) hi). lia.
  - specialize (IH lo (lo + (hi - lo) / 2)). lia.
Qed.

Lemma find_term_defined r target : wf_reader r → defined (find_term r target).
Proof.
  intros Hr. pose proof Hr as (Hlen & _). unfold find_term, locate_anchor.
  destruct (anchor_terms_ r) as [|front ats]; [done|]. destruct (term_ltb target front); [done|].
  unfold scan_from_anchor. set (a := locate_anchor_loop _ _ _ _ _).
  pose proof (locate_anchor_loop_range (length (front :: ats)) (front :: ats) target 0
    (zlen (front :: ats)) ltac:(cbn; lia)) as Ha. fold a in Ha. rewrite Hlen in Ha.
  apply defined_bind; [by apply segment_defined|]. intros seg _.
  apply scan_loop_defined; cbn [source s_ pos_]; [unfold wf_source; cbn; lia|lia].
Qed.

Lemma decode_all_defined r : wf_reader r → defined (decode_all r).
Proof.
  intros Hr. unfold decode_all. apply defined_bind; [|intros; apply defined_bind; [apply defined_reject_if|done]].
  assert (∀ a, a ∈ seqZ 0 (zlen (anchor_offsets_ r)) → 0 ≤ a < zlen (anchor_offsets_ r)) as Hin.
  { intros a Ha. apply elem_of_seqZ in Ha. lia. }
  generalize (@nil DictEntry). revert Hin. generalize (seqZ 0 (zlen (anchor_offsets_ r))).
  intros l Hin. induction l as [|a l IH]; intros out; [done|]. cbn [fold_result].
  apply defined_bind.
  - unfold decode_segment. apply defined_bind; [apply segment_defined; [done|apply Hin; by left]|].
    intros seg _. apply decode_loop_defined; cbn [source s_ pos_]; [unfold wf_source; cbn; lia|lia].
  - intros out' _. apply IH. intros b Hb. apply Hin. by right.
Qed.

(** ** Properties *)

(** a finished block opens, and enumerating it gives back every entry that
    was added, in order, across the anchors. *)
Theorem dict_block_decode_all tier hp fb pb (k : nat) es :
  wf_block tier hp fb pb k es →
  ∃ r, open (finish (build tier hp fb pb (Z.of_nat k) es) []) tier hp = Ok r ∧
    frq_base_ r = fb ∧ prx_base_ r = (if hp then pb else 0) ∧ n_entries_ r = zlen es ∧
    decode_all r = Ok (map (stored tier) es).
Proof.
  intros Hwf. exists (opened tier hp fb pb k es). rewrite finish_build by done. cbn [app].
  split_and!; [by apply open_block_bytes|done..|by apply decode_all_opened].
Qed.

(** C29: on a block whose entries were added in ascending term order, the anchor
    search finds exactly the entry of the target term, and nothing when no entry
    has it. *)
Theorem dict_block_find_term tier hp fb pb (k : nat) es target :
  wf_block tier hp fb pb k es → StronglySorted entry_lt es →
  ∃ r, open (finish (build tier hp fb pb (Z.of_nat k) es) []) tier hp = Ok r ∧
    find_term r target = Ok (lookup_term target (map (stored tier) es)).
Proof.
  intros Hwf Hs. exists (opened tier hp fb pb k es). rewrite finish_build by done. cbn [app].
  split; [by apply open_block_bytes|by apply find_term_opened].
Qed.

(** on any bytes [open] ends with a reader or a [Status]; on a reader it
    returned, looking up any term and enumerating the block never read outside
    the block, and their loops end. *)
Theorem dict_block_safe block tier hp :
  zlen block < 2 ^ 64 →
  match open block tier hp with
  | Ok r => (∀ target, defined (find_term r target)) ∧ defined (decode_all r)
  | Err _ => True
  | Undef => False
  end.
Proof.
  intros H64. pose proof (open_spec block tier hp H64) as Ho.
  destruct (open block tier hp) as [r| |]; [|done|done].
  split; [intros; by apply find_term_defined|by apply decode_all_defined].
Qed.

(** a finished block whose checksummed bytes changed within four consecutive
    ones does not open. *)
Theorem dict_block_rejects_burst tier hp fb pb (k : nat) es pre v post w :
  wf_block tier hp fb pb k es →
  covered_bytes tier hp fb pb k es = pre ++ v ++ post →
  length w = length v → (length v ≤ 4)%nat → is_bytes w → w ≠ v →
  ∃ crc, finish (build tier hp fb pb (Z.of_nat k) es) [] = (pre ++ v ++ post) ++ crc ∧
    open ((pre ++ w ++ post) ++ crc) tier hp =
      Err (Corruption "dict_block: crc32c checksum mismatch").
Proof.
  intros Hwf Hc Hlw H4 Hw Hne. exists (fixed32 (crc32c (pre ++ v ++ post))).
  pose proof (covered_is_bytes tier hp fb pb k es Hwf) as Hb.
  pose proof (covered_length tier hp fb pb k es) as Hcl.
  rewrite finish_build by done. cbn [app]. unfold block_bytes. rewrite Hc in *.
  split; [done|].
  assert (zlen (pre ++ w ++ post) = zlen (pre ++ v ++ post)) as Hz by (rewrite !length_app; lia).
  unfold open. rewrite verify_crc_block_gen; [|lia|by apply crc32c_range].
  apply Forall_app in Hb as [Hpre Hb]. apply Forall_app in Hb as [Hv Hpost].
  rewrite (proj2 (Z.eqb_neq _ _)); [done|]. by apply crc32c_burst; try lia.
Qed.

(** ** Witnesses *)

Definition sample_inline (t : bytes) : DictEntry :=
  mkDictEntry t kInline kSlim false 2 3 4 0 0 0 0 0 0
    (mkFrqRegionMeta false 2 2 0 false) (mkFrqRegionMeta false 1 1 0 false) 2 [5; 6; 7] [8; 9].
Definition sample_entries : list DictEntry :=
  [sample_inline [97]; sample_inline [97; 98]; sample_inline [97; 99; 100]; sample_inline [98]; sample_inline [98; 97]].

Lemma sample_entries_wf : wf_block kT2 true 100 200 2 sample_entries.
Proof.
  split; [lia|]. split; [ulia|]. split; [ulia|]. split.
  - repeat constructor; cbn; try lia; try (auto with snii; fail); try done.
  - vm_compute. reflexivity.
Qed.

Lemma sample_entries_sorted : StronglySorted entry_lt sample_entries.
Proof. repeat constructor. Qed.

Lemma dict_block_decode_all_witness :
  ∃ r, open (finish (build kT2 true 100 200 2 sample_entries) []) kT2 true = Ok r ∧
    frq_base_ r = 100 ∧ prx_base_ r = 200 ∧ n_entries_ r = 5 ∧
    decode_all r = Ok sample_entries.
Proof. exact (dict_block_decode_all kT2 true 100 200 2 sample_entries sample_entries_wf). Defined.

Lemma dict_block_find_term_witness :
  ∃ r, open (finish (build kT2 true 100 200 2 sample_entries) []) kT2 true = Ok r ∧
    find_term r [97; 99; 100] = Ok (Some (sample_inline [97; 99; 100])).
Proof.
  exact (dict_block_find_term kT2 true 100 200 2 sample_entries [97; 99; 100]
    sample_entries_wf sample_entries_sorted).
Defined.

Lemma dict_block_safe_witness :
  match open [0; 1; 0; 0; 0; 0; 0; 0; 9; 9; 9; 9] kT1 false with
  | Ok r => (∀ target, defined (find_term r target)) ∧ defined (decode_all r)
  | Err _ => True
  | Undef => False
  end.
Proof. apply (dict_block_safe [0; 1; 0; 0; 0; 0; 0; 0; 9; 9; 9; 9] kT1 false). reflexivity. Defined.

Lemma dict_block_rejects_burst_witness :
  ∃ crc, finish (build kT1 false 1 1 1 []) [] = ([0] ++ [1; 0; 1] ++ [0; 0; 0; 0]) ++ crc ∧
    open (([0] ++ [1; 0; 2] ++ [0; 0; 0; 0]) ++ crc) kT1 false =
      Err (Corruption "dict_block: crc32c checksum mismatch").
Proof.
  apply (dict_block_rejects_burst kT1 false 1 1 1 [] [0] [1; 0; 1] [0; 0; 0; 0] [1; 0; 2]).
  - split; [lia|]. split; [ulia|]. split; [ulia|]. split; [done|reflexivity].
  - reflexivity.
  - reflexivity.
  - cbn. lia.
  - auto with snii.
  - discriminate.
Defined.

(** The estimate counts neither the region metadata of a slim entry nor its
    checksums, so it is no upper bound of the finished size. *)
Definition wide_entry (t : bytes) : DictEntry :=
  let m := 2 ^ 64 - 1 in
  mkDictEntry t kPodRef kSlim false 0 m m m m 0 m m m
    (mkFrqRegionMeta false m m 0 true) (mkFrqRegionMeta false m 0 0 true) 0 [] [].
Example estimated_bytes_low :
  let b := build kT2 true 0 0 16 [wide_entry [97]; wide_entry [98]] in
  zlen (finish b []) > estimated_bytes b.
Proof. vm_compute. reflexivity. Qed.
