(* ===== verification/FrqPrelude.v ===== *)
(** * FrqPrelude: the two-level skip directory of a windowed posting.

    [format/frq_prelude.h] and [format/frq_prelude.cpp]. The builder cuts the
    windows into super-blocks of [group_size] ([encode_super_blocks_loop]; a
    super-block takes at least one window, so their number is fuel enough). The
    additions of 64-bit lengths keep their wrap-around ([u64]), which is what
    [prelude_open_wraps] is about. *)

From S2P Require Import Prelude Status Varint ByteIO Crc32c.

#[local] Open Scope Z_scope.

Definition kMaxWindows : Z := 1 ≪ 24.
Definition kHasFreq : Z := 1.
Definition kHasPrx : Z := 2.
Definition kDdZstd : Z := 1.
Definition kFreqZstd : Z := 2.
Definition kKnownBits : Z := Z.lor kDdZstd kFreqZstd.

Record WindowMeta := mkWindowMeta {
  last_docid : Z;
  win_base : Z;
  doc_count : Z;
  dd_zstd : bool;
  dd_off : Z;
  dd_disk_len : Z;
  dd_uncomp_len : Z;
  crc_dd : Z;
  freq_zstd : bool;
  freq_off : Z;
  freq_disk_len : Z;
  freq_uncomp_len : Z;
  crc_freq : Z;
  prx_off : Z;
  prx_len : Z;
  max_freq : Z;
  max_norm : Z;
  verify_crc : bool
}.

#[export] Instance WindowMeta_eq_dec : EqDecision WindowMeta.
Proof. solve_decision. Defined.

Record FrqPreludeColumns := mkFrqPreludeColumns {
  has_freq : bool;
  has_prx : bool;
  group_size : Z;
  windows : list WindowMeta
}.

Definition ceil_div (a b : Z) : Z := u64 (a + b - 1) / b.

(** ** Builder *)

Definition make_flags (cols : FrqPreludeColumns) : Z :=
  let flags := 0 in
  let flags := if has_freq cols then Z.lor flags kHasFreq else flags in
  if has_prx cols then Z.lor flags kHasPrx else flags.

Definition make_win_mode (m : WindowMeta) (has_freq : bool) : Z :=
  let mode := 0 in
  let mode := if dd_zstd m then Z.lor mode kDdZstd else mode in
  if has_freq && freq_zstd m then Z.lor mode kFreqZstd else mode.

(** [windows[w].last_docid < windows[w - 1].last_docid] for some [w]. *)
Fixpoint check_monotonic (prev : Z) (ws : list WindowMeta) : result unit :=
  match ws with
  | [] => Ok tt
  | m :: ws =>
      if last_docid m <? prev then Err (InvalidArgument "frq_prelude: last_docid not monotonic")
      else check_monotonic (last_docid m) ws
  end.

Definition validate_input (cols : FrqPreludeColumns) : result unit :=
  _ ← reject_if (group_size cols =? 0) (InvalidArgument "frq_prelude: group_size must be >= 1");
  _ ← reject_if (kMaxWindows <? zlen (windows cols))
        (InvalidArgument "frq_prelude: window count exceeds cap");
  match windows cols with
  | [] => Ok tt
  | m :: ws => check_monotonic (last_docid m) ws
  end.

Definition encode_window_row (m : WindowMeta) (has_freq has_prx : bool) (prev_last : Z)
    (block : ByteSink) : ByteSink :=
  let block := block |> put_varint64 (u64 (last_docid m - prev_last)) |> put_varint64 (doc_count m)
    |> put_u8 (make_win_mode m has_freq) |> put_varint64 (dd_off m) |> put_varint64 (dd_disk_len m)
    |> put_varint64 (dd_uncomp_len m) |> put_fixed32 (crc_dd m) in
  let block :=
    if has_freq then
      block |> put_varint64 (freq_off m) |> put_varint64 (freq_disk_len m)
        |> put_varint64 (freq_uncomp_len m) |> put_fixed32 (crc_freq m)
    else block in
  let block :=
    if has_prx then block |> put_varint64 (prx_off m) |> put_varint64 (prx_len m) else block in
  block |> put_varint64 (max_freq m) |> put_u8 (max_norm m).

Record SuperBlock := mkSuperBlock { block : ByteSink; sb_last : Z }.

(** The rows [start, end) of one super-block, and the new [prev_last]. *)
Fixpoint encode_rows (has_freq has_prx : bool) (ws : list WindowMeta) (prev_last : Z)
    (block : ByteSink) : ByteSink * Z :=
  match ws with
  | [] => (block, prev_last)
  | m :: ws => encode_rows has_freq has_prx ws (last_docid m)
                 (encode_window_row m has_freq has_prx prev_last block)
  end.

Fixpoint encode_super_blocks_loop (fuel : nat) (has_freq has_prx : bool) (g : Z)
    (ws : list WindowMeta) (prev_last : Z) : list SuperBlock :=
  match fuel, ws with
  | S fuel, _ :: _ =>
      let '(block, prev_last) := encode_rows has_freq has_prx (take (Z.to_nat g) ws) prev_last [] in
      mkSuperBlock block prev_last ::
        encode_super_blocks_loop fuel has_freq has_prx g (drop (Z.to_nat g) ws) prev_last
  | _, _ => []
  end.

Definition encode_super_blocks (cols : FrqPreludeColumns) : list SuperBlock :=
  encode_super_blocks_loop (length (windows cols)) (has_freq cols) (has_prx cols) (group_size cols)
    (windows cols) 0.

Fixpoint encode_super_block_dir (blocks : list SuperBlock) (prev_last block_off : Z)
    (dir_sink : ByteSink) : ByteSink :=
  match blocks with
  | [] => dir_sink
  | sb :: blocks =>
      let dir_sink := dir_sink |> put_varint64 (u64 (sb_last sb - prev_last))
        |> put_varint64 block_off |> put_varint64 (zlen (block sb)) in
      encode_super_block_dir blocks (sb_last sb) (u64 (block_off + zlen (block sb))) dir_sink
  end.

Definition build_frq_prelude (cols : FrqPreludeColumns) (out : ByteSink) : result ByteSink :=
  _ ← validate_input cols;
  let blocks := encode_super_blocks cols in
  let dir_sink := encode_super_block_dir blocks 0 0 [] in
  let covered := [] |> put_u8 (make_flags cols) |> put_varint64 (zlen (windows cols))
    |> put_varint64 (group_size cols) |> put_varint64 (zlen blocks)
    |> put_varint64 (zlen dir_sink) |> put_bytes dir_sink in
  let out := out |> put_bytes covered |> put_fixed32 (crc32c covered) in
  Ok (put_each (λ sb, put_bytes (block sb)) blocks out).

(** ** Reader *)

Record Header := mkHeader {
  h_has_freq : bool;
  h_has_prx : bool;
  h_n : Z;
  h_group_size : Z;
  h_n_super : Z;
  h_sbdir_len : Z
}.

Definition verify_covered_crc (prelude : Slice) (header_end sbdir_len : Z) : result unit :=
  let covered := u64 (header_end + sbdir_len) in
  _ ← reject_if (zlen prelude <? u64 (covered + 4))
        (Corruption "frq_prelude: buffer too short for crc region");
  crc_src ← subslice prelude covered 4;
  stored ← run_reader get_fixed32 crc_src;
  body ← subslice prelude 0 covered;
  reject_if (negb (crc32c body =? stored)) (Corruption "frq_prelude: crc32c mismatch").

Definition parse_header : reader Header :=
  flags ← get_u8;
  n ← get_varint64;
  group_size ← get_varint64;
  n_super ← get_varint64;
  sbdir_len ← get_varint64;
  _ ← return_if ((kMaxWindows <? n) || (kMaxWindows <? n_super))
        (Corruption "frq_prelude: window count exceeds sane cap");
  _ ← return_if (group_size =? 0) (Corruption "frq_prelude: group_size is zero");
  _ ← return_if (negb (n_super =? ceil_div n group_size))
        (Corruption "frq_prelude: n_super inconsistent with N/G");
  mret (mkHeader (negb (Z.land flags kHasFreq =? 0)) (negb (Z.land flags kHasPrx =? 0))
          n group_size n_super sbdir_len).

Record SbDirRow := mkSbDirRow { row_last_docid : Z; block_off : Z; block_len : Z }.

(** The rows that remain, and [expect_off] after the last one. *)
Fixpoint read_dir_rows (n : nat) (prev_last expect_off : Z) : reader (list SbDirRow * Z) :=
  match n with
  | O => mret ([], expect_off)
  | S n =>
      ldd ← get_varint64;
      off ← get_varint64;
      len ← get_varint64;
      let last := u64 (prev_last + ldd) in
      _ ← return_if ((last <? prev_last) || negb (off =? expect_off))
            (Corruption "frq_prelude: super-block dir inconsistent");
      '(rows, end_off) ← read_dir_rows n last (u64 (expect_off + len));
      mret (mkSbDirRow last off len :: rows, end_off)
  end.

Definition decode_super_block_dir (dir : Slice) (h : Header) : result (list SbDirRow * Z) :=
  run_reader (whole (read_dir_rows (Z.to_nat (h_n_super h)) 0 0)
                "frq_prelude: super-block dir has trailing bytes") dir.

Definition check_win_mode (mode : Z) (has_freq : bool) : result unit :=
  _ ← reject_if (negb (Z.land mode (Z.lnot kKnownBits) =? 0))
        (Corruption "frq_prelude: unknown win_mode bits");
  reject_if (negb has_freq && negb (Z.land mode kFreqZstd =? 0))
    (Corruption "frq_prelude: freq mode set without has_freq").

Definition read_freq_columns (has_freq : bool) : reader (Z * Z * Z * Z) :=
  if has_freq then
    freq_off ← get_varint64;
    freq_disk_len ← get_varint64;
    freq_uncomp_len ← get_varint64;
    crc_freq ← get_fixed32;
    mret (freq_off, freq_disk_len, freq_uncomp_len, crc_freq)
  else mret (0, 0, 0, 0).

Definition read_prx_columns (has_prx : bool) : reader (Z * Z) :=
  if has_prx then
    prx_off ← get_varint64;
    prx_len ← get_varint64;
    mret (prx_off, prx_len)
  else mret (0, 0).

(** The window and the new [*prev_last]. *)
Definition decode_window_row (has_freq has_prx : bool) (prev_last : Z) : reader (WindowMeta * Z) :=
  ldd ← get_varint64;
  doc_count ← get_varint64;
  mode ← get_u8;
  _ ← lift (check_win_mode mode has_freq);
  dd_off ← get_varint64;
  dd_disk_len ← get_varint64;
  dd_uncomp_len ← get_varint64;
  crc_dd ← get_fixed32;
  '(freq_off, freq_disk_len, freq_uncomp_len, crc_freq) ← read_freq_columns has_freq;
  '(prx_off, prx_len) ← read_prx_columns has_prx;
  max_freq ← get_varint64;
  max_norm ← get_u8;
  let last := u32 (u64 (prev_last + ldd)) in
  mret (mkWindowMeta last prev_last (u32 doc_count) (negb (Z.land mode kDdZstd =? 0)) dd_off
          dd_disk_len dd_uncomp_len crc_dd (has_freq && negb (Z.land mode kFreqZstd =? 0)) freq_off
          freq_disk_len freq_uncomp_len crc_freq prx_off prx_len (u32 max_freq) max_norm true, last).

Fixpoint decode_rows (has_freq has_prx : bool) (row_count : nat) (prev_last : Z)
    : reader (list WindowMeta * Z) :=
  match row_count with
  | O => mret ([], prev_last)
  | S row_count =>
      '(m, prev_last) ← decode_window_row has_freq has_prx prev_last;
      '(ms, prev_last) ← decode_rows has_freq has_prx row_count prev_last;
      mret (m :: ms, prev_last)
  end.

Definition decode_one_block (blk : Slice) (h : Header) (sb_last_docid row_count prev_last : Z)
    : result (list WindowMeta * Z) :=
  '(ms, prev_last) ←
    run_reader (whole (decode_rows (h_has_freq h) (h_has_prx h) (Z.to_nat row_count) prev_last)
                  "frq_prelude: window block has trailing bytes") blk;
  _ ← reject_if (negb (prev_last =? sb_last_docid))
        (Corruption "frq_prelude: window block last docid mismatch");
  Ok (ms, prev_last).

Fixpoint decode_blocks_loop (window_region : Slice) (h : Header) (dir : list SbDirRow)
    (prev_last : Z) (ws : list WindowMeta) : result (list WindowMeta) :=
  match dir with
  | [] => Ok ws
  | r :: dir =>
      _ ← reject_if ((zlen window_region <? u64 (block_off r + block_len r)) ||
                     (u64 (block_off r + block_len r) <? block_off r))
            (Corruption "frq_prelude: window block out of region");
      let rows := Z.min (h_group_size h) (u64 (h_n h - zlen ws)) in
      blk ← subslice window_region (block_off r) (block_len r);
      '(ms, prev_last) ← decode_one_block blk h (row_last_docid r) rows prev_last;
      decode_blocks_loop window_region h dir prev_last (ws ++ ms)
  end.

Definition decode_all_blocks (window_region : Slice) (h : Header) (dir : list SbDirRow)
    : result (list WindowMeta) :=
  ws ← decode_blocks_loop window_region h dir 0 [];
  _ ← reject_if (negb (zlen ws =? h_n h)) (Corruption "frq_prelude: decoded window count mismatch");
  Ok ws.

(** [*dd_block_len] and [*freq_block_len]. *)
Fixpoint validate_region_layout (has_freq : bool) (ws : list WindowMeta) (dd_expect freq_expect : Z)
    : result (Z * Z) :=
  match ws with
  | [] => Ok (dd_expect, freq_expect)
  | m :: ws =>
      _ ← reject_if (negb (dd_off m =? dd_expect)) (Corruption "frq_prelude: dd region not contiguous");
      _ ← reject_if ((dd_uncomp_len m <? dd_disk_len m) && negb (dd_zstd m))
            (Corruption "frq_prelude: raw dd region length inconsistent");
      _ ← reject_if (u64 (dd_expect + dd_disk_len m) <? dd_expect)
            (Corruption "frq_prelude: dd block length overflow");
      let dd_expect := u64 (dd_expect + dd_disk_len m) in
      if has_freq then
        _ ← reject_if (negb (freq_off m =? freq_expect))
              (Corruption "frq_prelude: freq region not contiguous");
        _ ← reject_if (u64 (freq_expect + freq_disk_len m) <? freq_expect)
              (Corruption "frq_prelude: freq block length overflow");
        validate_region_layout has_freq ws dd_expect (u64 (freq_expect + freq_disk_len m))
      else validate_region_layout has_freq ws dd_expect freq_expect
  end.

Record FrqPreludeReader := mkFrqPreludeReader {
  has_freq_ : bool;
  has_prx_ : bool;
  group_size_ : Z;
  n_super_ : Z;
  dd_block_len_ : Z;
  freq_block_len_ : Z;
  sb_last_docid_ : list Z;
  windows_ : list WindowMeta
}.

Definition open (prelude : Slice) : result FrqPreludeReader :=
  '(h, header_end) ← run_reader (h ← parse_header; header_end ← get_position; mret (h, header_end)) prelude;
  _ ← verify_covered_crc prelude header_end (h_sbdir_len h);
  _ ← reject_if (zlen prelude <? u64 (header_end + h_sbdir_len h))
        (Corruption "frq_prelude: sbdir_len past buffer");
  dir ← subslice prelude header_end (h_sbdir_len h);
  '(rows, window_region_len) ← decode_super_block_dir dir h;
  let region_start := u64 (header_end + h_sbdir_len h + 4) in
  _ ← reject_if (zlen prelude <? u64 (region_start + window_region_len))
        (Corruption "frq_prelude: window region past buffer");
  window_region ← subslice prelude region_start window_region_len;
  ws ← decode_all_blocks window_region h rows;
  '(dd_len, freq_len) ← validate_region_layout (h_has_freq h) ws 0 0;
  Ok (mkFrqPreludeReader (h_has_freq h) (h_has_prx h) (u32 (h_group_size h)) (u32 (h_n_super h))
        dd_len freq_len (map row_last_docid rows) ws).

Definition n_windows (r : FrqPreludeReader) : Z := u32 (zlen (windows_ r)).

Definition window (r : FrqPreludeReader) (w : Z) : result WindowMeta :=
  if zlen (windows_ r) <=? w then Err (InvalidArgument "frq_prelude: window index out of range")
  else match windows_ r !! Z.to_nat w with Some m => Ok m | None => Undef end.

(** [std::lower_bound]: the standard's halving of a [first, count] range. *)
Fixpoint lower_bound_loop (fuel : nat) (xs : list Z) (target first count : Z) : Z :=
  match fuel with
  | O => first
  | S fuel =>
      if 0 <? count then
        let step := count / 2 in
        match xs !! Z.to_nat (first + step) with
        | Some x =>
            if x <? target
            then lower_bound_loop fuel xs target (first + step + 1) (count - (step + 1))
            else lower_bound_loop fuel xs target first step
        | None => first
        end
      else first
  end.
Definition lower_bound (xs : list Z) (target : Z) : Z :=
  lower_bound_loop (length xs) xs target 0 (zlen xs).

(** [for (i = lo; i < hi; ++i)] over [windows_]; the index is [*w]. *)
Fixpoint scan_windows (n : nat) (ws : list WindowMeta) (docid i : Z) : result (option Z) :=
  match n with
  | O => Ok None
  | S n =>
      match ws !! Z.to_nat i with
      | Some m => if docid <=? last_docid m then Ok (Some (u32 i)) else scan_windows n ws docid (i + 1)
      | None => Undef
      end
  end.

Definition locate_window (r : FrqPreludeReader) (docid : Z) : result (option Z) :=
  match last (windows_ r) with
  | None => Ok None
  | Some m =>
      if last_docid m <? docid then Ok None
      else
        let sb := lower_bound (sb_last_docid_ r) docid in
        let lo := sb * group_size_ r in
        let hi := Z.min (lo + group_size_ r) (zlen (windows_ r)) in
        scan_windows (Z.to_nat (hi - lo)) (windows_ r) docid lo
  end.

(** ** Columns a writer produces *)

Definition wf_window (m : WindowMeta) : Prop :=
  is_u32 (last_docid m) ∧ is_u32 (doc_count m) ∧ is_u64 (dd_off m) ∧ is_u64 (dd_disk_len m) ∧
  is_u64 (dd_uncomp_len m) ∧ is_u32 (crc_dd m) ∧ is_u64 (freq_off m) ∧ is_u64 (freq_disk_len m) ∧
  is_u64 (freq_uncomp_len m) ∧ is_u32 (crc_freq m) ∧ is_u64 (prx_off m) ∧ is_u64 (prx_len m) ∧
  is_u32 (max_freq m) ∧ is_u8 (max_norm m).

Fixpoint monotone_from (prev : Z) (ws : list WindowMeta) : Prop :=
  match ws with
  | [] => True
  | m :: ws => prev ≤ last_docid m ∧ monotone_from (last_docid m) ws
  end.

(** The regions tile their blocks. *)
Fixpoint contiguous (has_freq : bool) (dd fq : Z) (ws : list WindowMeta) : Prop :=
  match ws with
  | [] => True
  | m :: ws =>
      dd_off m = dd ∧ (dd_zstd m = true ∨ dd_disk_len m ≤ dd_uncomp_len m) ∧
      dd + dd_disk_len m < 2 ^ 64 ∧
      (has_freq = true → freq_off m = fq ∧ fq + freq_disk_len m < 2 ^ 64) ∧
      contiguous has_freq (dd + dd_disk_len m) (fq + freq_disk_len m) ws
  end.

Definition wf_cols (cols : FrqPreludeColumns) : Prop :=
  0 < group_size cols < 2 ^ 32 ∧ zlen (windows cols) ≤ kMaxWindows ∧
  Forall wf_window (windows cols) ∧ monotone_from 0 (windows cols) ∧
  contiguous (has_freq cols) 0 0 (windows cols).

(** What the reader shows of the window: [win_base] is the previous window's
    last docid, and the columns that were not stored are zero. *)
Definition stored_window (hf hp : bool) (prev : Z) (m : WindowMeta) : WindowMeta :=
  mkWindowMeta (last_docid m) prev (doc_count m) (dd_zstd m) (dd_off m) (dd_disk_len m)
    (dd_uncomp_len m) (crc_dd m) (hf && freq_zstd m)
    (if hf then freq_off m else 0) (if hf then freq_disk_len m else 0)
    (if hf then freq_uncomp_len m else 0) (if hf then crc_freq m else 0)
    (if hp then prx_off m else 0) (if hp then prx_len m else 0) (max_freq m) (max_norm m) true.
Fixpoint stored_windows (hf hp : bool) (prev : Z) (ws : list WindowMeta) : list WindowMeta :=
  match ws with
  | [] => []
  | m :: ws => stored_window hf hp prev m :: stored_windows hf hp (last_docid m) ws
  end.

(** ** Layout *)

Definition row_bytes (hf hp : bool) (prev : Z) (m : WindowMeta) : bytes :=
  encode_varint64 (last_docid m - prev) ++ encode_varint64 (doc_count m) ++ [make_win_mode m hf] ++
  encode_varint64 (dd_off m) ++ encode_varint64 (dd_disk_len m) ++ encode_varint64 (dd_uncomp_len m) ++
  fixed32 (crc_dd m) ++
  (if hf then encode_varint64 (freq_off m) ++ encode_varint64 (freq_disk_len m) ++
     encode_varint64 (freq_uncomp_len m) ++ fixed32 (crc_freq m) else []) ++
  (if hp then encode_varint64 (prx_off m) ++ encode_varint64 (prx_len m) else []) ++
  encode_varint64 (max_freq m) ++ [max_norm m].

Fixpoint rows_bytes (hf hp : bool) (prev : Z) (ws : list WindowMeta) : bytes :=
  match ws with
  | [] => []
  | m :: ws => row_bytes hf hp prev m ++ rows_bytes hf hp (last_docid m) ws
  end.

Fixpoint end_docid (prev : Z) (ws : list WindowMeta) : Z :=
  match ws with [] => prev | m :: ws => end_docid (last_docid m) ws end.

Fixpoint super_blocks (hf hp : bool) (prev : Z) (cs : list (list WindowMeta)) : list SuperBlock :=
  match cs with
  | [] => []
  | c :: cs => mkSuperBlock (rows_bytes hf hp prev c) (end_docid prev c)
                 :: super_blocks hf hp (end_docid prev c) cs
  end.

Fixpoint dir_rows (off : Z) (blocks : list SuperBlock) : list SbDirRow :=
  match blocks with
  | [] => []
  | sb :: blocks => mkSbDirRow (sb_last sb) off (zlen (block sb))
                      :: dir_rows (off + zlen (block sb)) blocks
  end.

Fixpoint dir_bytes (prev off : Z) (blocks : list SuperBlock) : bytes :=
  match blocks with
  | [] => []
  | sb :: blocks =>
      encode_varint64 (sb_last sb - prev) ++ encode_varint64 off ++ encode_varint64 (zlen (block sb)) ++
      dir_bytes (sb_last sb) (off + zlen (block sb)) blocks
  end.

Lemma wf_window_delta prev m : wf_window m → 0 ≤ prev ≤ last_docid m → is_u64 (last_docid m - prev).
Proof. intros (?&_) ?. ulia. Qed.

Lemma encode_rows_app hf hp ws prev blk :
  0 ≤ prev → Forall wf_window ws → monotone_from prev ws →
  encode_rows hf hp ws prev blk = (blk ++ rows_bytes hf hp prev ws, end_docid prev ws).
Proof.
  intros Hp Hw. revert prev Hp blk. induction Hw as [|m ws Hm Hw IH]; intros prev Hp blk Hmono;
    cbn [encode_rows rows_bytes end_docid]; [by rewrite app_nil_r|]. destruct Hmono as [Hle Hmono].
  rewrite IH by (done || lia). f_equal. unfold encode_window_row, row_bytes.
  rewrite u64_small by by apply wf_window_delta.
  destruct hf, hp; autorewrite with sink; by rewrite ?app_nil_l.
Qed.

Lemma monotone_app prev ws ys :
  monotone_from prev (ws ++ ys) ↔ monotone_from prev ws ∧ monotone_from (end_docid prev ws) ys.
Proof.
  revert prev. induction ws as [|m ws IH]; intros prev; cbn [app monotone_from end_docid]; [tauto|].
  rewrite IH. tauto.
Qed.

Lemma end_docid_mono prev ws : monotone_from prev ws → prev ≤ end_docid prev ws.
Proof.
  revert prev. induction ws as [|m ws IH]; intros prev; cbn; [lia|]. intros [? Hm].
  specialize (IH _ Hm). lia.
Qed.

Lemma end_docid_u32 prev ws : is_u32 prev → Forall wf_window ws → is_u32 (end_docid prev ws).
Proof. intros Hp Hw. revert prev Hp. induction Hw as [|m ws (Hm & _) Hw IH]; intros prev Hp; cbn; auto. Qed.

Lemma encode_super_blocks_chunks fuel hf hp (g : nat) ws prev :
  0 ≤ prev → Forall wf_window ws → monotone_from prev ws →
  encode_super_blocks_loop fuel hf hp (Z.of_nat g) ws prev =
    super_blocks hf hp prev (chunks_loop fuel g ws).
Proof.
  revert ws prev. induction fuel as [|fuel IH]; intros ws prev Hp Hw Hmono; [done|].
  destruct ws as [|m ws]; [done|]. cbn [encode_super_blocks_loop chunks_loop super_blocks].
  rewrite Nat2Z.id. rewrite <- (take_drop g (m :: ws)) in Hmono.
  apply monotone_app in Hmono as [Ht Hd].
  rewrite encode_rows_app by (done || by apply Forall_take). cbn [app]. f_equal.
  apply IH; [|by apply Forall_drop|done]. pose proof (end_docid_mono _ _ Ht). lia.
Qed.
(** ** Sizes *)

Definition region_bytes (blocks : list SuperBlock) : bytes := concat (map block blocks).

Lemma row_bytes_le hf hp prev m : (length (row_bytes hf hp prev m) ≤ 150)%nat.
Proof.
  unfold row_bytes. pose proof encode_varint64_length_le as Hle.
  pose proof (Hle (last_docid m - prev)). pose proof (Hle (doc_count m)). pose proof (Hle (dd_off m)).
  pose proof (Hle (dd_disk_len m)). pose proof (Hle (dd_uncomp_len m)). pose proof (Hle (freq_off m)).
  pose proof (Hle (freq_disk_len m)). pose proof (Hle (freq_uncomp_len m)). pose proof (Hle (prx_off m)).
  pose proof (Hle (prx_len m)). pose proof (Hle (max_freq m)). clear Hle.
  destruct hf, hp; solve_len.
Qed.

Lemma rows_bytes_le hf hp prev ws : (length (rows_bytes hf hp prev ws) ≤ 150 * length ws)%nat.
Proof.
  revert prev. induction ws as [|m ws IH]; intros prev; cbn [rows_bytes length]; [lia|].
  rewrite length_app. pose proof (row_bytes_le hf hp prev m). specialize (IH (last_docid m)). lia.
Qed.

Lemma region_bytes_le hf hp prev cs :
  (length (region_bytes (super_blocks hf hp prev cs)) ≤ 150 * length (concat cs))%nat.
Proof.
  unfold region_bytes. revert prev. induction cs as [|c cs IH]; intros prev; cbn [super_blocks map concat block]; [done|].
  rewrite !length_app. pose proof (rows_bytes_le hf hp prev c). specialize (IH (end_docid prev c)). lia.
Qed.

Lemma dir_bytes_le prev off blocks : (length (dir_bytes prev off blocks) ≤ 30 * length blocks)%nat.
Proof.
  revert prev off. induction blocks as [|b blocks IH]; intros prev off; cbn [dir_bytes length]; [lia|].
  rewrite !length_app. specialize (IH (sb_last b) (off + zlen (block b))).
  pose proof (encode_varint64_length_le (sb_last b - prev)). pose proof (encode_varint64_length_le off).
  pose proof (encode_varint64_length_le (zlen (block b))). lia.
Qed.

Lemma super_blocks_length hf hp prev cs : length (super_blocks hf hp prev cs) = length cs.
Proof. revert prev. induction cs as [|c cs IH]; intros prev; cbn; by rewrite ?IH. Qed.

(** Ascending boundaries that fit 32 bits, and blocks that fit 64 bits. *)
Fixpoint wf_blocks (prev off : Z) (blocks : list SuperBlock) : Prop :=
  match blocks with
  | [] => True
  | sb :: blocks =>
      prev ≤ sb_last sb < 2 ^ 32 ∧ off + zlen (block sb) < 2 ^ 64 ∧
      wf_blocks (sb_last sb) (off + zlen (block sb)) blocks
  end.

Lemma super_blocks_wf hf hp cs prev off :
  is_u32 prev → Forall wf_window (concat cs) → monotone_from prev (concat cs) →
  0 ≤ off → off + zlen (region_bytes (super_blocks hf hp prev cs)) < 2 ^ 64 →
  wf_blocks prev off (super_blocks hf hp prev cs).
Proof.
  unfold region_bytes. revert prev off. induction cs as [|c cs IH]; intros prev off Hp Hw Hm Hoff Hlen;
    cbn [super_blocks wf_blocks concat map block sb_last] in *; [done|].
  rewrite length_app in Hlen. apply Forall_app in Hw as [Hw1 Hw2]. apply monotone_app in Hm as [Hm1 Hm2].
  pose proof (end_docid_mono _ _ Hm1). pose proof (end_docid_u32 _ _ Hp Hw1) as Hu.
  split_and!; [lia|ulia|lia|]. apply IH; try done; lia.
Qed.

Lemma encode_super_block_dir_app blocks prev off sink :
  0 ≤ prev → 0 ≤ off → wf_blocks prev off blocks →
  encode_super_block_dir blocks prev off sink = sink ++ dir_bytes prev off blocks.
Proof.
  revert prev off sink. induction blocks as [|b blocks IH]; intros prev off sink Hp Ho Hw;
    cbn [encode_super_block_dir dir_bytes]; [by rewrite app_nil_r|]. destruct Hw as (Hl & Hlen & Hw).
  rewrite (u64_small (sb_last b - prev)), (u64_small (off + _)) by ulia.
  rewrite IH by (done || lia). by autorewrite with sink.
Qed.

(** ** Reading what was written *)

Lemma make_win_mode_fields m hf :
  is_u8 (make_win_mode m hf) ∧ check_win_mode (make_win_mode m hf) hf = Ok tt ∧
  negb (Z.land (make_win_mode m hf) kDdZstd =? 0) = dd_zstd m ∧
  hf && negb (Z.land (make_win_mode m hf) kFreqZstd =? 0) = hf && freq_zstd m.
Proof. unfold make_win_mode. by destruct (dd_zstd m), hf, (freq_zstd m). Qed.

Lemma reads_freq_columns (hf : bool) m :
  wf_window m →
  reads (read_freq_columns hf)
    (if hf then encode_varint64 (freq_off m) ++ encode_varint64 (freq_disk_len m) ++
       encode_varint64 (freq_uncomp_len m) ++ fixed32 (crc_freq m) else [])
    (if hf then freq_off m else 0, if hf then freq_disk_len m else 0,
     if hf then freq_uncomp_len m else 0, if hf then crc_freq m else 0).
Proof.
  intros (_&_&_&_&_&_&?&?&?&?&_). destruct hf; [|apply reads_ret].
  unfold read_freq_columns. do 4 reads_step. apply reads_ret.
Qed.

Lemma reads_prx_columns (hp : bool) m :
  wf_window m →
  reads (read_prx_columns hp)
    (if hp then encode_varint64 (prx_off m) ++ encode_varint64 (prx_len m) else [])
    (if hp then prx_off m else 0, if hp then prx_len m else 0).
Proof.
  intros (_&_&_&_&_&_&_&_&_&_&?&?&_). destruct hp; [|apply reads_ret].
  unfold read_prx_columns. do 2 reads_step. apply reads_ret.
Qed.

Lemma reads_window_row hf hp prev m :
  0 ≤ prev ≤ last_docid m → wf_window m →
  reads (decode_window_row hf hp prev) (row_bytes hf hp prev m) (stored_window hf hp prev m, last_docid m).
Proof.
  intros Hp Hw. pose proof (wf_window_delta prev m Hw Hp) as Hd. pose proof Hw as
    (Hl & Hdc & Hdo & Hdl & Hdu & Hdcr & _ & _ & _ & _ & _ & _ & Hmf & Hmn).
  destruct (make_win_mode_fields m hf) as (_ & Hck & Hzd & Hzf).
  unfold decode_window_row, row_bytes, stored_window.
  assert (is_u64 (doc_count m)) by ulia. assert (is_u64 (max_freq m)) by ulia.
  do 3 reads_step. eapply reads_pure; [by apply reads_lift|]. do 4 reads_step.
  eapply reads_bind; [by apply reads_freq_columns|]. cbv beta iota.
  eapply reads_bind; [by apply reads_prx_columns|]. cbv beta iota. do 2 reads_step.
  replace (prev + (last_docid m - prev)) with (last_docid m) by lia.
  rewrite (u64_small (last_docid m)), !u32_small, Hzd, Hzf by (done || ulia). apply reads_ret.
Qed.

Lemma reads_rows hf hp ws prev :
  0 ≤ prev → Forall wf_window ws → monotone_from prev ws →
  reads (decode_rows hf hp (length ws) prev) (rows_bytes hf hp prev ws)
    (stored_windows hf hp prev ws, end_docid prev ws).
Proof.
  intros Hp Hw. revert prev Hp. induction Hw as [|m ws Hm Hw IH]; intros prev Hp Hmono;
    cbn [decode_rows rows_bytes stored_windows end_docid length]; [apply reads_ret|].
  destruct Hmono as [Hle Hmono]. eapply reads_bind; [by apply reads_window_row|]. cbv beta iota.
  eapply reads_last; [apply IH; [lia|done]|]. apply reads_ret.
Qed.

Lemma reads_dir_rows blocks prev off :
  0 ≤ prev → 0 ≤ off → wf_blocks prev off blocks →
  reads (read_dir_rows (length blocks) prev off) (dir_bytes prev off blocks)
    (dir_rows off blocks, off + zlen (region_bytes blocks)).
Proof.
  unfold region_bytes. revert prev off. induction blocks as [|b blocks IH]; intros prev off Hp Ho Hw;
    cbn [read_dir_rows dir_bytes dir_rows length map concat].
  { rewrite Z.add_0_r. apply reads_ret. }
  destruct Hw as (Hl & Hlen & Hw).
  eapply reads_bind; [apply reads_get_varint64; ulia|].
  eapply reads_bind; [apply reads_get_varint64; ulia|].
  eapply reads_bind; [apply reads_get_varint64; ulia|].
  replace (prev + (sb_last b - prev)) with (sb_last b) by lia. rewrite !u64_small by ulia.
  reads_guard. { apply orb_false_iff. split; [apply Z.ltb_ge; lia|by rewrite Z.eqb_refl]. }
  eapply reads_last; [apply IH; [lia|lia|done]|]. cbv beta iota.
  rewrite length_app. replace (off + Z.of_nat (_ + _)) with (off + zlen (block b) + zlen (concat (map block blocks))) by lia.
  apply reads_ret.
Qed.

Lemma decode_one_block_ok h hf hp c prev n :
  h_has_freq h = hf → h_has_prx h = hp → n = zlen c →
  0 ≤ prev → Forall wf_window c → monotone_from prev c →
  decode_one_block (rows_bytes hf hp prev c) h (end_docid prev c) n prev =
    Ok (stored_windows hf hp prev c, end_docid prev c).
Proof.
  intros Hhf Hhp -> Hp Hw Hm. unfold decode_one_block. rewrite Hhf, Hhp, Nat2Z.id.
  rewrite (run_whole _ _ _ (stored_windows hf hp prev c, end_docid prev c)) by by apply reads_rows.
  rewrite bind_Ok. cbv beta iota. by rewrite Z.eqb_refl.
Qed.

Lemma stored_windows_app hf hp prev ws ys :
  stored_windows hf hp prev (ws ++ ys) =
    stored_windows hf hp prev ws ++ stored_windows hf hp (end_docid prev ws) ys.
Proof. revert prev. induction ws as [|m ws IH]; intros prev; cbn; by rewrite ?IH. Qed.
Lemma stored_windows_length hf hp prev ws : length (stored_windows hf hp prev ws) = length ws.
Proof. revert prev. induction ws as [|m ws IH]; intros prev; cbn; by rewrite ?IH. Qed.

Lemma decode_blocks_ok h hf hp (g : nat) fuel ws prev acc pre :
  h_has_freq h = hf → h_has_prx h = hp → h_group_size h = Z.of_nat g → (0 < g)%nat →
  h_n h = zlen acc + zlen ws → h_n h ≤ kMaxWindows → (length ws ≤ fuel)%nat →
  0 ≤ prev → Forall wf_window ws → monotone_from prev ws →
  let blocks := super_blocks hf hp prev (chunks_loop fuel g ws) in
  zlen pre + zlen (region_bytes blocks) < 2 ^ 64 →
  decode_blocks_loop (pre ++ region_bytes blocks) h (dir_rows (zlen pre) blocks) prev acc =
    Ok (acc ++ stored_windows hf hp prev ws).
Proof.
  intros Hhf Hhp Hg Hg0. revert ws prev acc pre. induction fuel as [|fuel IH];
    intros ws prev acc pre Hn Hmax Hf Hp Hw Hm blocks Hlen; subst blocks.
  { destruct ws; [|cbn in Hf; lia]. cbn. by rewrite app_nil_r. }
  destruct ws as [|m ws]; [cbn; by rewrite app_nil_r|].
  unfold kMaxWindows in *. change (1 ≪ 24) with 16777216 in *.
  cbn [chunks_loop super_blocks]. set (c := take g (m :: ws)).
  set (rest := drop g (m :: ws)). assert (m :: ws = c ++ rest) as Hsplit by (subst c rest; by rewrite take_drop).
  assert (zlen c = Z.min (Z.of_nat g) (zlen (m :: ws))) as Hcl by (subst c; rewrite length_take; lia).
  assert (0 < zlen c) as Hc0 by (rewrite Hcl; cbn [length]; lia).
  assert (length (m :: ws) = (length c + length rest)%nat) as Hwl by (by rewrite Hsplit, length_app).
  rewrite Hsplit in Hw, Hm. apply Forall_app in Hw as [Hwc Hwr]. apply monotone_app in Hm as [Hmc Hmr].
  pose proof (end_docid_mono _ _ Hmc) as Hend.
  cbn [chunks_loop super_blocks] in Hlen. fold c rest in Hlen.
  unfold region_bytes in *. cbn [map concat block dir_rows sb_last] in *.
  rewrite length_app in Hlen. cbn [decode_blocks_loop block_off block_len row_last_docid].
  rewrite !u64_small by ulia.
  rewrite bind_reject_false by (apply orb_false_iff; split; apply Z.ltb_ge; rewrite ?length_app; lia).
  rewrite Hg. rewrite subslice_mid, bind_Ok.
  rewrite (decode_one_block_ok h hf hp); [|done|done|rewrite Hcl; lia|done|done|done].
  rewrite bind_Ok. cbv beta iota.
  specialize (IH rest (end_docid prev c) (acc ++ stored_windows hf hp prev c) (pre ++ rows_bytes hf hp prev c)).
  cbv zeta in IH. rewrite <- !app_assoc in IH. rewrite !length_app, stored_windows_length in IH.
  rewrite (Nat2Z.inj_add (length pre)) in IH.
  rewrite Hsplit, stored_windows_app. apply IH; try done; try lia.
Qed.

(** ** Opening what was built *)

Definition sum_len (f : WindowMeta → Z) (ws : list WindowMeta) : Z := foldr (λ m a, f m + a) 0 ws.

Lemma validate_stored hf hp ws prev dd fq :
  Forall wf_window ws → 0 ≤ dd < 2 ^ 64 → 0 ≤ fq < 2 ^ 64 → contiguous hf dd fq ws →
  validate_region_layout hf (stored_windows hf hp prev ws) dd fq =
    Ok (dd + sum_len dd_disk_len ws, if hf then fq + sum_len freq_disk_len ws else fq).
Proof.
  intros Hw. revert prev dd fq. induction Hw as [|m ws Hm Hw IH]; intros prev dd fq Hdd Hfq Hc;
    cbn [stored_windows validate_region_layout sum_len foldr].
  { by destruct hf; rewrite !Z.add_0_r. }
  destruct Hm as (_&_&_&Hdl&_&_&_&Hfl&_). destruct Hc as (Hdo & Hz & Hds & Hf & Hc).
  cbn [stored_window dd_off dd_disk_len dd_uncomp_len dd_zstd freq_off freq_disk_len].
  rewrite Hdo, bind_reject_false by by rewrite Z.eqb_refl.
  rewrite bind_reject_false by (destruct Hz as [->|]; [apply andb_false_r|]; apply andb_false_iff; left; apply Z.ltb_ge; lia).
  rewrite !u64_small by ulia. rewrite bind_reject_false by (apply Z.ltb_ge; ulia).
  destruct hf.
  - destruct (Hf eq_refl) as [Hfo Hfs]. rewrite Hfo, bind_reject_false by by rewrite Z.eqb_refl.
    rewrite !u64_small by ulia. rewrite bind_reject_false by (apply Z.ltb_ge; ulia).
    rewrite IH by (done || ulia). unfold sum_len. do 2 f_equal; lia.
  - assert (∀ fq', contiguous false (dd + dd_disk_len m) fq' ws →
      contiguous false (dd + dd_disk_len m) fq ws) as Hany.
    { clear. generalize (dd + dd_disk_len m). intros d fq'. revert d fq fq'.
      induction ws as [|x ws IH]; intros d fq fq'; cbn; [done|]. intros (?&?&?&?&?).
      split_and!; try done. by eapply IH. }
    rewrite IH by (done || ulia || by eapply Hany). unfold sum_len. do 2 f_equal; lia.
Qed.

Section Open.
Context (cols : FrqPreludeColumns) (Hwf : wf_cols cols).

Abbreviation hf := (has_freq cols).
Abbreviation hp := (has_prx cols).
Abbreviation ws := (windows cols).
Definition built_blocks : list SuperBlock :=
  super_blocks hf hp 0 (chunks (Z.to_nat (group_size cols)) ws).
Definition built_header : bytes :=
  [make_flags cols] ++ encode_varint64 (zlen ws) ++ encode_varint64 (group_size cols) ++
  encode_varint64 (zlen built_blocks) ++ encode_varint64 (zlen (dir_bytes 0 0 built_blocks)).
Definition built_covered : bytes := built_header ++ dir_bytes 0 0 built_blocks.
Definition built_bytes : bytes :=
  built_covered ++ fixed32 (crc32c built_covered) ++ region_bytes built_blocks.

(** The reader [open] makes of them. *)
Definition built_reader : FrqPreludeReader :=
  mkFrqPreludeReader hf hp (group_size cols) (zlen built_blocks) (sum_len dd_disk_len ws)
    (if hf then sum_len freq_disk_len ws else 0) (map sb_last built_blocks) (stored_windows hf hp 0 ws).

Lemma built_chunks :
  concat (chunks (Z.to_nat (group_size cols)) ws) = ws ∧
  zlen built_blocks = ceil_div (zlen ws) (group_size cols) ∧ zlen built_blocks ≤ kMaxWindows.
Proof.
  destruct Hwf as (Hg & Hn & _). unfold built_blocks. rewrite super_blocks_length.
  assert (0 < Z.to_nat (group_size cols))%nat as Hk by lia.
  destruct (chunks_spec (Z.to_nat (group_size cols)) ws Hk) as [Hc Hne]. split_and!; [done| |].
  - rewrite chunks_length by lia. rewrite Z2Nat.id by lia. unfold ceil_div.
    unfold kMaxWindows in Hn. change (1 ≪ 24) with 16777216 in Hn. by rewrite u64_small by ulia.
  - assert (length (chunks (Z.to_nat (group_size cols)) ws) ≤ length ws)%nat; [|lia].
    rewrite <- Hc at 2. by apply concat_count.
Qed.

Lemma built_sizes :
  zlen (dir_bytes 0 0 built_blocks) < 2 ^ 30 ∧ zlen (region_bytes built_blocks) < 2 ^ 33 ∧
  wf_blocks 0 0 built_blocks.
Proof.
  pose proof Hwf as (Hg & Hn & Hw & Hm & _). destruct built_chunks as (Hc & _ & Hb).
  pose proof (dir_bytes_le 0 0 built_blocks) as Hd.
  pose proof (region_bytes_le hf hp 0 (chunks (Z.to_nat (group_size cols)) ws)) as Hr.
  rewrite Hc in Hr. fold built_blocks in Hr.
  unfold kMaxWindows in *. change (1 ≪ 24) with 16777216 in *. split_and!; [lia|lia|].
  apply super_blocks_wf; rewrite ?Hc; try done. fold built_blocks. lia.
Qed.

Lemma make_flags_fields :
  is_u8 (make_flags cols) ∧ negb (Z.land (make_flags cols) kHasFreq =? 0) = hf ∧
  negb (Z.land (make_flags cols) kHasPrx =? 0) = hp.
Proof. unfold make_flags. by destruct hf, hp. Qed.

Lemma encode_blocks_built : encode_super_blocks cols = built_blocks.
Proof.
  destruct Hwf as (Hg & _ & Hw & Hm & _). unfold encode_super_blocks, built_blocks, chunks.
  rewrite <- (Z2Nat.id (group_size cols)) at 1 by lia. by apply encode_super_blocks_chunks.
Qed.

Lemma check_monotonic_ok prev l : monotone_from prev l → check_monotonic prev l = Ok tt.
Proof.
  revert prev. induction l as [|m l IH]; intros prev; cbn; [done|]. intros [Hle Hm].
  rewrite (proj2 (Z.ltb_ge _ _)) by lia. by apply IH.
Qed.

Lemma build_ok out : build_frq_prelude cols out = Ok (out ++ built_bytes).
Proof.
  pose proof Hwf as (Hg & Hn & Hw & Hm & _). unfold build_frq_prelude, validate_input.
  rewrite (proj2 (Z.eqb_neq _ _)) by lia. rewrite (proj2 (Z.ltb_ge _ _)) by lia. cbn [reject_if].
  rewrite !bind_Ok.
  assert (match ws with [] => Ok tt | m :: l => check_monotonic (last_docid m) l end = Ok tt) as ->.
  { destruct ws as [|m l]; [done|]. destruct Hm as [_ Hm]. by apply check_monotonic_ok. }
  rewrite bind_Ok. rewrite encode_blocks_built. destruct built_sizes as (_ & _ & Hb).
  rewrite encode_super_block_dir_app by (done || lia). cbn [app].
  assert (∀ d, ([] |> put_u8 (make_flags cols) |> put_varint64 (zlen ws) |> put_varint64 (group_size cols)
    |> put_varint64 (zlen built_blocks) |> put_varint64 (zlen d) |> put_bytes d) =
    [make_flags cols] ++ encode_varint64 (zlen ws) ++ encode_varint64 (group_size cols) ++
    encode_varint64 (zlen built_blocks) ++ encode_varint64 (zlen d) ++ d) as Hcov
    by (intros; by autorewrite with sink).
  rewrite Hcov. rewrite (put_each_app _ block) by (intros; apply put_bytes_app).
  rewrite put_fixed32_app, put_bytes_app. unfold built_bytes, built_covered, built_header, region_bytes.
  by rewrite <- !app_assoc.
Qed.

Lemma run_header rest :
  run_reader (h ← parse_header; header_end ← get_position; mret (h, header_end)) (built_header ++ rest) =
    Ok (mkHeader hf hp (zlen ws) (group_size cols) (zlen built_blocks) (zlen (dir_bytes 0 0 built_blocks)),
        zlen built_header).
Proof.
  pose proof Hwf as (Hg & Hn & _). destruct built_chunks as (_ & Hns & Hb). destruct built_sizes as (Hd & _ & _).
  destruct make_flags_fields as (_ & Hf1 & Hf2).
  unfold kMaxWindows in *. change (1 ≪ 24) with 16777216 in *.
  unfold run_reader. rewrite (bind_reads_source _ _ built_header rest
    (mkHeader hf hp (zlen ws) (group_size cols) (zlen built_blocks) (zlen (dir_bytes 0 0 built_blocks)))).
  - rewrite bind_get_position. unfold mret, reader_ret. by cbn [mbind result_bind pos_].
  - unfold parse_header, built_header. reads_step.
    eapply reads_bind; [apply reads_get_varint64; ulia|]. eapply reads_bind; [apply reads_get_varint64; ulia|].
    eapply reads_bind; [apply reads_get_varint64; ulia|]. eapply reads_last; [apply reads_get_varint64; ulia|].
    unfold kMaxWindows. change (1 ≪ 24) with 16777216.
    reads_guard; [apply orb_false_iff; split; apply Z.ltb_ge; lia|].
    reads_guard; [apply Z.eqb_neq; lia|]. reads_guard; [by rewrite <- Hns, Z.eqb_refl|].
    rewrite Hf1, Hf2. apply reads_ret.
Qed.

Lemma dir_bytes_is_bytes prev off blocks : is_bytes (dir_bytes prev off blocks).
Proof.
  revert prev off. induction blocks as [|b blocks IH]; intros prev off; cbn [dir_bytes]; [constructor|].
  auto with snii.
Qed.

Lemma built_covered_is_bytes : is_bytes built_covered.
Proof.
  destruct make_flags_fields as [Hf _]. unfold built_covered, built_header.
  pose proof (dir_bytes_is_bytes 0 0 built_blocks). rewrite !Forall_app. split_and!; auto with snii.
Qed.

Lemma built_crc c : is_bytes c → is_u32 (crc32c c).
Proof. apply crc32c_range. Qed.

(** The checksum test on a prelude cut at its covered region. *)
Lemma verify_covered_crc_cut header_end sbdir_len covered stored post :
  header_end + sbdir_len = zlen covered → is_u32 stored → zlen covered + 4 < 2 ^ 64 →
  verify_covered_crc (covered ++ fixed32 stored ++ post) header_end sbdir_len =
    if crc32c covered =? stored then Ok tt else Err (Corruption "frq_prelude: crc32c mismatch").
Proof.
  intros Hlen Hs H64. unfold verify_covered_crc. rewrite Hlen, (u64_small (zlen covered)) by ulia.
  rewrite u64_small by ulia.
  rewrite bind_reject_false by (apply Z.ltb_ge; rewrite !length_app, fixed32_length; lia).
  assert (subslice (covered ++ fixed32 stored ++ post) (zlen covered) 4 = Ok (fixed32 stored)) as ->.
  { pose proof (subslice_mid covered (fixed32 stored) post) as H. by rewrite fixed32_length in H. }
  rewrite bind_Ok. rewrite (reads_run get_fixed32 _ stored), bind_Ok by by apply reads_get_fixed32.
  rewrite subslice_app_l, bind_Ok by done. unfold reject_if. by destruct (crc32c covered =? stored).
Qed.

Lemma dir_rows_last off blocks : map row_last_docid (dir_rows off blocks) = map sb_last blocks.
Proof. revert off. induction blocks as [|b blocks IH]; intros off; cbn; by rewrite ?IH. Qed.

Lemma built_header_length : zlen built_header ≤ 41.
Proof.
  unfold built_header. pose proof encode_varint64_length_le as Hle.
  pose proof (Hle (zlen ws)). pose proof (Hle (group_size cols)). pose proof (Hle (zlen built_blocks)).
  pose proof (Hle (zlen (dir_bytes 0 0 built_blocks))). solve_len.
Qed.

Lemma open_built : open built_bytes = Ok built_reader.
Proof.
  pose proof Hwf as (Hg & Hn & Hw & Hm & Hc). destruct built_chunks as (Hcc & Hns & Hb).
  destruct built_sizes as (Hd & Hr & Hwb). pose proof built_header_length as Hh.
  assert (zlen built_header + zlen (dir_bytes 0 0 built_blocks) = zlen built_covered) as Hcov
    by (unfold built_covered; rewrite length_app; lia).
  assert (built_bytes = built_header ++ dir_bytes 0 0 built_blocks ++
    fixed32 (crc32c built_covered) ++ region_bytes built_blocks) as Hbb
    by (unfold built_bytes, built_covered; by rewrite <- app_assoc).
  assert (zlen built_bytes = zlen built_covered + 4 + zlen (region_bytes built_blocks)) as Hbl
    by (unfold built_bytes; rewrite !length_app, fixed32_length; lia).
  unfold open. rewrite Hbb at 1. rewrite run_header, bind_Ok. cbv beta iota. cbn [h_sbdir_len].
  assert (verify_covered_crc built_bytes (zlen built_header) (zlen (dir_bytes 0 0 built_blocks)) = Ok tt) as ->.
  { unfold built_bytes. rewrite verify_covered_crc_cut; [|done|apply built_crc, built_covered_is_bytes|ulia].
    by rewrite Z.eqb_refl. }
  rewrite bind_Ok. rewrite Hcov, (u64_small (zlen built_covered)) by ulia.
  rewrite bind_reject_false by (apply Z.ltb_ge; lia).
  assert (subslice built_bytes (zlen built_header) (zlen (dir_bytes 0 0 built_blocks)) =
    Ok (dir_bytes 0 0 built_blocks)) as -> by (rewrite Hbb; apply subslice_mid).
  rewrite bind_Ok. unfold decode_super_block_dir. cbn [h_n_super].
  rewrite Nat2Z.id. rewrite (run_whole _ _ _ (dir_rows 0 built_blocks, 0 + zlen (region_bytes built_blocks)))
    by (apply reads_dir_rows; done || lia).
  rewrite bind_Ok. cbv beta iota. rewrite Z.add_0_l, (u64_small (zlen built_covered + 4)) by ulia.
  rewrite u64_small by ulia. rewrite bind_reject_false by (apply Z.ltb_ge; lia).
  assert (subslice built_bytes (zlen built_covered + 4) (zlen (region_bytes built_blocks)) =
    Ok (region_bytes built_blocks)) as ->.
  { unfold built_bytes. rewrite (app_assoc built_covered). apply subslice_app_r; [|done].
    rewrite length_app, fixed32_length. lia. }
  rewrite bind_Ok. unfold decode_all_blocks.
  rewrite (decode_blocks_ok _ hf hp (Z.to_nat (group_size cols)) (length ws) ws 0 [] []); cbn [h_has_freq h_has_prx
    h_group_size h_n app]; rewrite ?Z2Nat.id; try done; try lia.
  2: { change (0 + zlen (region_bytes built_blocks) < 2 ^ 64). lia. }
  rewrite bind_Ok. rewrite stored_windows_length, bind_reject_false, bind_Ok by by rewrite Z.eqb_refl.
  rewrite validate_stored by (done || lia). rewrite bind_Ok. cbv beta iota. cbn [h_has_freq h_has_prx h_n_super h_group_size].
  unfold built_reader. rewrite dir_rows_last. unfold kMaxWindows in *. change (1 ≪ 24) with 16777216 in *.
  rewrite !u32_small by ulia. by destruct hf.
Qed.
End Open.

(** ** Locating a window *)

Lemma lower_bound_loop_spec fuel xs target first count :
  StronglySorted Z.le xs → 0 ≤ first → 0 ≤ count ≤ Z.of_nat fuel → first + count ≤ zlen xs →
  (∀ (i : nat) x, xs !! i = Some x → Z.of_nat i < first → x < target) →
  (∀ (i : nat) x, xs !! i = Some x → first + count ≤ Z.of_nat i → target ≤ x) →
  let r := lower_bound_loop fuel xs target first count in
  first ≤ r ≤ first + count ∧
  (∀ (i : nat) x, xs !! i = Some x → Z.of_nat i < r → x < target) ∧
  (∀ (i : nat) x, xs !! i = Some x → r ≤ Z.of_nat i → target ≤ x).
Proof.
  intros Hs. revert first count. induction fuel as [|fuel IH]; intros first count Hf Hc Hlen Hlo Hhi r;
    subst r; cbn [lower_bound_loop].
  { split_and!; [lia|lia|done|]. intros i x Hi Hr. apply (Hhi i); [done|lia]. }
  destruct (Z.ltb_spec 0 count) as [Hpos|].
  2: { split_and!; [lia|lia|done|]. intros i x Hi Hr. apply (Hhi i); [done|lia]. }
  assert (0 ≤ count / 2 < count) as Hstep by (split; dlia).
  set (step := count / 2) in *. clearbody step.
  destruct (lookup_lt_is_Some_2 xs (Z.to_nat (first + step))) as [y Hy]; [lia|]. rewrite Hy.
  destruct (Z.ltb_spec y target) as [Hlt|Hge].
  - destruct (IH (first + step + 1) (count - (step + 1))) as (Hr & Hl & Hh); [lia..| | |split_and!; [lia|lia|exact Hl|exact Hh]].
    + intros i x Hi Hr. destruct (decide (i = Z.to_nat (first + step))) as [->|].
      * rewrite Hy in Hi. by injection Hi as <-.
      * assert (x ≤ y); [|lia]. eapply (StronglySorted_lookup_lt _ _ i); [exact Hs|exact Hi|exact Hy|lia].
    + intros i x Hi Hr. apply (Hhi i); [done|lia].
  - destruct (IH first step) as (Hr & Hl & Hh); [lia..|exact Hlo| |split_and!; [lia|lia|exact Hl|exact Hh]].
    intros i x Hi Hr. destruct (decide (i = Z.to_nat (first + step))) as [->|].
    + rewrite Hy in Hi. injection Hi as <-. lia.
    + assert (y ≤ x); [|lia]. eapply (StronglySorted_lookup_lt _ _ _ i); [exact Hs|exact Hy|exact Hi|lia].
Qed.

Lemma scan_windows_spec n ws docid (i : nat) :
  (i + n ≤ length ws)%nat →
  match scan_windows n ws docid (Z.of_nat i) with
  | Ok (Some w) => ∃ (k : nat) m, (i ≤ k < i + n)%nat ∧ w = u32 (Z.of_nat k) ∧ ws !! k = Some m ∧
      docid ≤ last_docid m ∧
      ∀ (j : nat) x, (i ≤ j < k)%nat → ws !! j = Some x → last_docid x < docid
  | Ok None => ∀ (j : nat) x, (i ≤ j < i + n)%nat → ws !! j = Some x → last_docid x < docid
  | _ => False
  end.
Proof.
  revert i. induction n as [|n IH]; intros i Hi; cbn [scan_windows]; [intros j x Hj; lia|].
  rewrite Nat2Z.id. destruct (lookup_lt_is_Some_2 ws i) as [m Hm]; [lia|]. rewrite Hm.
  destruct (Z.leb_spec docid (last_docid m)) as [Hle|Hgt].
  { exists i, m. split_and!; try done; try lia. }
  specialize (IH (S i) ltac:(lia)). replace (Z.of_nat i + 1) with (Z.of_nat (S i)) by lia.
  assert (∀ (j : nat) x P, (i ≤ j)%nat → ((S i ≤ j)%nat → ws !! j = Some x → last_docid x < docid) →
    P → ws !! j = Some x → last_docid x < docid) as Hhead.
  { intros j x P Hj Hrest _ Hx. destruct (decide (j = i)) as [->|]; [|apply Hrest; [lia|done]].
    rewrite Hm in Hx. by injection Hx as <-. }
  destruct (scan_windows n ws docid (Z.of_nat (S i))) as [[w|]| |]; [| |done|done].
  - destruct IH as (k & x & Hk & Hw & Hx & Hd & Hlow). exists k, x. split_and!; try done; try lia.
    intros j y Hj Hy. apply (Hhead j y True); [lia| |done|done]. intros ? ?. apply (Hlow j); [lia|done].
  - intros j y Hj Hy. apply (Hhead j y True); [lia| |done|done]. intros ? ?. apply (IH j); [lia|done].
Qed.

Lemma monotone_lookup prev ws (i j : nat) x y :
  monotone_from prev ws → ws !! i = Some x → ws !! j = Some y → (i ≤ j)%nat → last_docid x ≤ last_docid y.
Proof.
  assert (∀ prev ws (j : nat) y, monotone_from prev ws → ws !! j = Some y → prev ≤ last_docid y) as Hp.
  { clear. intros prev ws. revert prev. induction ws as [|m ws IH]; intros prev j y Hm Hy; [done|].
    destruct Hm as [Hle Hm]. destruct j as [|j]; [by injection Hy as <-|].
    specialize (IH _ _ _ Hm Hy). lia. }
  revert prev i j. induction ws as [|m ws IH]; intros prev i j Hm Hx Hy Hij; [done|].
  destruct Hm as [Hle Hm]. destruct i as [|i], j as [|j]; [|..|lia|].
  - cbn in *. injection Hx as <-. injection Hy as <-. lia.
  - cbn in *. injection Hx as <-. by eapply Hp.
  - apply (IH _ i j Hm Hx Hy). lia.
Qed.

Lemma end_docid_last prev ws m : ws !! (length ws - 1)%nat = Some m → end_docid prev ws = last_docid m.
Proof.
  revert prev. induction ws as [|x ws IH]; intros prev Hm; [done|]. cbn [end_docid].
  destruct ws as [|y ws]; [cbn in Hm; by injection Hm as <-|].
  apply IH. cbn [length] in *. replace (S (S (length ws)) - 1)%nat with (S (length ws)) in Hm by lia.
  cbn in Hm. cbn. by rewrite Nat.sub_0_r.
Qed.

(** The [j]-th boundary is the last docid of the [j]-th group of windows. *)
Lemma super_blocks_lookup hf hp (g : nat) fuel ws prev (j : nat) :
  (0 < g)%nat → (length ws ≤ fuel)%nat →
  match map sb_last (super_blocks hf hp prev (chunks_loop fuel g ws)) !! j with
  | Some x => (j * g < length ws)%nat ∧
      ∃ m, ws !! (Nat.min ((j + 1) * g) (length ws) - 1)%nat = Some m ∧ last_docid m = x
  | None => (length ws ≤ j * g)%nat
  end.
Proof.
  intros Hg. revert ws prev j. induction fuel as [|fuel IH]; intros ws prev j Hf.
  { destruct ws; [|cbn in Hf; lia]. cbn [chunks_loop super_blocks map length]. rewrite lookup_nil. lia. }
  destruct ws as [|w ws]; [cbn [chunks_loop super_blocks map length]; rewrite lookup_nil; lia|]. cbn [chunks_loop super_blocks map sb_last].
  destruct j as [|j].
  - cbn [lookup list_lookup]. split; [cbn; lia|].
    set (c := take g (w :: ws)). assert (length c = Nat.min g (length (w :: ws))) as Hc by (subst c; by rewrite length_take).
    assert (0 < length c)%nat as Hc0 by (rewrite Hc; cbn [length]; lia).
    destruct (lookup_lt_is_Some_2 c (length c - 1)%nat) as [m Hm]; [lia|].
    exists m. split; [|symmetry; by apply end_docid_last].
    rewrite Nat.mul_1_l, <- Hc. subst c. by apply lookup_take_Some in Hm as [? _].
  - cbn [lookup list_lookup]. specialize (IH (drop g (w :: ws)) (end_docid prev (take g (w :: ws))) j).
    rewrite !length_drop in IH. specialize (IH ltac:(cbn [length] in *; lia)).
    destruct (_ !! j) as [x|].
    + destruct IH as (Hj & m & Hm & Hx). split; [lia|]. exists m. split; [|done].
      rewrite lookup_drop in Hm. rewrite <- Hm. f_equal. lia.
    + lia.
Qed.

Lemma stored_windows_lookup hf hp prev ws (i : nat) m :
  ws !! i = Some m → ∃ p, stored_windows hf hp prev ws !! i = Some (stored_window hf hp p m).
Proof.
  revert prev i. induction ws as [|w ws IH]; intros prev i Hm; [done|].
  destruct i as [|i]; cbn in *; [injection Hm as <-; eauto|]. by apply IH.
Qed.

Lemma stored_windows_monotone hf hp p prev ws :
  monotone_from prev ws → monotone_from prev (stored_windows hf hp p ws).
Proof.
  revert p prev. induction ws as [|m ws IH]; intros p prev; cbn; [done|]. intros [Hle Hm].
  split; [done|by apply IH].
Qed.

Lemma sb_last_sorted blocks prev off : wf_blocks prev off blocks →
  StronglySorted Z.le (map sb_last blocks) ∧ Forall (λ x, prev ≤ x) (map sb_last blocks).
Proof.
  revert prev off. induction blocks as [|b blocks IH]; intros prev off; cbn [map wf_blocks]; [by repeat constructor|].
  intros (Hl & _ & Hw). destruct (IH _ _ Hw) as [Hs Hf]. split.
  - by constructor.
  - constructor; [lia|]. eapply Forall_impl; [exact Hf|]. cbn. lia.
Qed.

(** The first window that covers a docid, as an index. *)
Definition covering (docid : Z) (ws : list WindowMeta) : option Z :=
  (λ p, Z.of_nat p.1) <$> list_find (λ m, docid ≤ last_docid m) ws.

Lemma covering_Some docid ws (k : nat) m :
  ws !! k = Some m → docid ≤ last_docid m →
  (∀ (j : nat) x, (j < k)%nat → ws !! j = Some x → last_docid x < docid) →
  covering docid ws = Some (Z.of_nat k).
Proof.
  intros Hk Hd Hlow. unfold covering. rewrite (proj2 (list_find_Some _ ws k m)); [done|].
  split_and!; [done|done|]. intros j x Hj Hlt. specialize (Hlow j x Hlt Hj). lia.
Qed.

Lemma covering_None docid ws :
  (∀ (j : nat) x, ws !! j = Some x → last_docid x < docid) → covering docid ws = None.
Proof.
  intros Hall. unfold covering. rewrite (proj2 (list_find_None _ ws)); [done|].
  apply Forall_lookup. intros j x Hx. specialize (Hall j x Hx). lia.
Qed.

Lemma locate_built cols docid :
  wf_cols cols → locate_window (built_reader cols) docid = Ok (covering docid (windows_ (built_reader cols))).
Proof.
  intros Hwf. pose proof Hwf as (Hg & Hn & Hw & Hm & _). destruct (built_sizes cols Hwf) as (_ & _ & Hwb).
  unfold locate_window, built_reader. cbn [windows_ sb_last_docid_ group_size_].
  set (W := stored_windows (has_freq cols) (has_prx cols) 0 (windows cols)).
  assert (length W = length (windows cols)) as HW by apply stored_windows_length.
  pose proof (stored_windows_monotone (has_freq cols) (has_prx cols) 0 0 _ Hm) as HWm. fold W in HWm.
  destruct (last W) as [m|] eqn:Hlast.
  2: { apply last_None in Hlast. by rewrite Hlast. }
  rewrite last_lookup in Hlast.
  destruct (Z.ltb_spec (last_docid m) docid) as [Hlt|Hge].
  { rewrite covering_None; [done|]. intros j x Hx. apply lookup_lt_Some in Hx as Hj.
    pose proof (monotone_lookup _ _ _ _ _ _ HWm Hx Hlast ltac:(lia)). lia. }
  set (g := Z.to_nat (group_size cols)).
  destruct (sb_last_sorted _ _ _ Hwb) as [Hsb _].
  destruct (lower_bound_loop_spec (length (map sb_last (built_blocks cols))) (map sb_last (built_blocks cols))
    docid 0 (zlen (map sb_last (built_blocks cols)))) as (Hr & Hlow & Hup); [done|lia|lia|lia|lia| |].
  { intros i x Hx Hi. apply lookup_lt_Some in Hx. lia. }
  fold (lower_bound (map sb_last (built_blocks cols)) docid) in *.
  set (sb := lower_bound _ docid) in *. clearbody sb.
  assert (∀ j : nat, match map sb_last (built_blocks cols) !! j with
    | Some x => (j * g < length W)%nat ∧
        ∃ m, W !! (Nat.min ((j + 1) * g) (length W) - 1)%nat = Some m ∧ last_docid m = x
    | None => (length W ≤ j * g)%nat end) as Hlk.
  { intros j. pose proof (super_blocks_lookup (has_freq cols) (has_prx cols) g (length (windows cols))
      (windows cols) 0 j ltac:(lia) ltac:(lia)) as H. rewrite HW.
    change (super_blocks _ _ 0 (chunks_loop _ g _)) with (built_blocks cols) in H.
    destruct (_ !! j) as [x|]; [|done]. destruct H as (Hj & y & Hy & Hx). split; [done|].
    destruct (stored_windows_lookup (has_freq cols) (has_prx cols) 0 _ _ _ Hy) as [p Hp]. by eexists. }
  assert (0 < length W)%nat as HW0 by (apply lookup_lt_Some in Hlast; lia).
  destruct (map sb_last (built_blocks cols) !! Z.to_nat sb) as [x|] eqn:Hx.
  2: { (* past every boundary: the last boundary is the last docid *)
    exfalso. pose proof (Hlk (Z.to_nat sb)) as Hlen. rewrite Hx in Hlen.
    assert (0 < Z.to_nat sb)%nat by (destruct (Z.to_nat sb); lia).
    pose proof (Hlk (Z.to_nat sb - 1)%nat) as Hp.
    destruct (_ !! (Z.to_nat sb - 1)%nat) as [y|] eqn:Hy.
    - destruct Hp as (_ & z & Hz & Hzy). pose proof (Hlow _ _ Hy ltac:(lia)).
      replace (Nat.min ((Z.to_nat sb - 1 + 1) * g) (length W) - 1)%nat with (pred (length W)) in Hz by nia.
      rewrite Hlast in Hz. injection Hz as <-. lia.
    - apply lookup_ge_None in Hy. lia. }
  pose proof (Hlk (Z.to_nat sb)) as Hb. rewrite Hx in Hb. destruct Hb as (Hj & y & Hy & Hyx).
  pose proof (Hup _ _ Hx ltac:(lia)) as Hdx.
  set (lo := (Z.to_nat sb * g)%nat) in *.
  assert (Z.to_nat sb * g + g = (Z.to_nat sb + 1) * g)%nat as Hlog by lia. fold lo in Hlog.
  replace (sb * group_size cols) with (Z.of_nat lo) by (subst lo g; lia).
  set (n := (Nat.min ((Z.to_nat sb + 1) * g) (length W) - lo)%nat).
  replace (Z.to_nat (Z.min (Z.of_nat lo + group_size cols) (zlen W) - Z.of_nat lo)) with n by (subst n g; lia).
  assert (∀ (j : nat) z, (j < lo)%nat → W !! j = Some z → last_docid z < docid) as Hbefore.
  { intros j z Hjlo Hz. assert (0 < Z.to_nat sb)%nat by (subst lo; nia).
    pose proof (Hlk (Z.to_nat sb - 1)%nat) as Hp.
    destruct (_ !! (Z.to_nat sb - 1)%nat) as [b|] eqn:Hbk.
    - destruct Hp as (_ & u & Hu & Hub). pose proof (Hlow _ _ Hbk ltac:(lia)).
      replace (Z.to_nat sb - 1 + 1)%nat with (Z.to_nat sb) in Hu by lia. fold lo in Hu.
      pose proof (monotone_lookup _ _ _ _ _ _ HWm Hz Hu ltac:(lia)). lia.
    - apply lookup_lt_Some in Hx. apply lookup_ge_None in Hbk. lia. }
  pose proof (scan_windows_spec n W docid lo ltac:(subst n; lia)) as Hscan.
  destruct (scan_windows n W docid (Z.of_nat lo)) as [[w|]| |]; [| |done|done].
  - destruct Hscan as (k & z & Hk & -> & Hz & Hd & Hlow2). f_equal.
    rewrite (covering_Some _ _ k z); [|done|done|].
    + f_equal. apply u32_small. apply lookup_lt_Some in Hz.
      unfold kMaxWindows in Hn. change (1 ≪ 24) with 16777216 in Hn. ulia.
    + intros j u Hj' Hu. destruct (decide (j < lo)%nat); [by apply (Hbefore j)|]. apply (Hlow2 j); [lia|done].
  - exfalso. specialize (Hscan (Nat.min ((Z.to_nat sb + 1) * g) (length W) - 1)%nat y).
    assert (last_docid y < docid); [|lia]. apply Hscan; [|done]. subst n. lia.
Qed.

(** ** Properties *)

(** a prelude built from consistent columns opens, and shows every window of
    the columns with [win_base] chained from window to window, and the lengths
    of the two blocks; columns out of docid order are refused. *)
Theorem frq_prelude_roundtrip cols out :
  wf_cols cols →
  ∃ bs r, build_frq_prelude cols out = Ok (out ++ bs) ∧ open bs = Ok r ∧
    windows_ r = stored_windows (has_freq cols) (has_prx cols) 0 (windows cols) ∧
    has_freq_ r = has_freq cols ∧ has_prx_ r = has_prx cols ∧ group_size_ r = group_size cols ∧
    dd_block_len_ r = sum_len dd_disk_len (windows cols) ∧
    freq_block_len_ r = (if has_freq cols then sum_len freq_disk_len (windows cols) else 0).
Proof.
  intros Hwf. exists (built_bytes cols), (built_reader cols).
  split_and!; [by apply build_ok|by apply open_built|done..].
Qed.

(** C31: on an opened prelude the two-level search finds the first window whose
    last docid reaches the docid, and no window exactly when the docid is past
    the last one. *)
Theorem frq_prelude_locate cols docid :
  wf_cols cols →
  ∃ bs r, build_frq_prelude cols [] = Ok bs ∧ open bs = Ok r ∧
    locate_window r docid = Ok (covering docid (windows_ r)).
Proof.
  intros Hwf. exists (built_bytes cols), (built_reader cols).
  split_and!; [by apply build_ok|by apply open_built|by apply locate_built].
Qed.

(** the builder refuses columns whose last docids decrease somewhere. *)
Theorem frq_prelude_rejects_unordered cols out l x y r :
  0 < group_size cols → zlen (windows cols) ≤ kMaxWindows →
  windows cols = l ++ x :: y :: r → last_docid y < last_docid x →
  build_frq_prelude cols out = Err (InvalidArgument "frq_prelude: last_docid not monotonic").
Proof.
  intros Hg Hn Hws Hlt. unfold build_frq_prelude, validate_input.
  rewrite (proj2 (Z.eqb_neq _ _)) by lia. rewrite (proj2 (Z.ltb_ge _ _)) by lia. cbn [reject_if]. rewrite !bind_Ok.
  assert (∀ p l, check_monotonic p (l ++ x :: y :: r) =
    Err (InvalidArgument "frq_prelude: last_docid not monotonic")) as Hgo.
  { clear -Hlt. intros p l. revert p. induction l as [|m l IH]; intros p; cbn [app check_monotonic].
    - destruct (last_docid x <? p); [done|]. by rewrite (proj2 (Z.ltb_lt _ _)).
    - destruct (last_docid m <? p); [done|]. apply IH. }
  rewrite Hws. destruct l as [|m l]; cbn [app].
  - cbn [check_monotonic]. by rewrite (proj2 (Z.ltb_lt _ _)).
  - by rewrite Hgo.
Qed.

(** ** Witnesses *)

Definition sample_window (last off : Z) : WindowMeta :=
  mkWindowMeta last 0 10 false off 20 20 77 true (2 * off) 40 50 88 (3 * off) 5 9 1 true.
Definition sample_cols : FrqPreludeColumns :=
  mkFrqPreludeColumns true true 2 [sample_window 100 0; sample_window 250 20; sample_window 900 40].

Lemma sample_cols_wf : wf_cols sample_cols.
Proof.
  split; [cbn; lia|]. split; [vm_compute; discriminate|]. split.
  - repeat constructor; cbn; lia.
  - cbn. split_and!; try lia; try (by right); intros _; split_and!; lia.
Qed.

Lemma frq_prelude_roundtrip_witness :
  ∃ bs r, build_frq_prelude sample_cols [1] = Ok ([1] ++ bs) ∧ open bs = Ok r ∧
    windows_ r = stored_windows true true 0 (windows sample_cols) ∧
    has_freq_ r = true ∧ has_prx_ r = true ∧ group_size_ r = 2 ∧
    dd_block_len_ r = 60 ∧ freq_block_len_ r = 120.
Proof. exact (frq_prelude_roundtrip sample_cols [1] sample_cols_wf). Defined.

Lemma frq_prelude_locate_witness :
  ∃ bs r, build_frq_prelude sample_cols [] = Ok bs ∧ open bs = Ok r ∧
    locate_window r 251 = Ok (covering 251 (windows_ r)).
Proof. exact (frq_prelude_locate sample_cols 251 sample_cols_wf). Defined.

Lemma frq_prelude_rejects_unordered_witness :
  build_frq_prelude (mkFrqPreludeColumns true false 64 [sample_window 5 0; sample_window 4 20]) [] =
    Err (InvalidArgument "frq_prelude: last_docid not monotonic").
Proof.
  apply (frq_prelude_rejects_unordered _ [] [] (sample_window 5 0) (sample_window 4 20) []);
    [cbn; lia|vm_compute; discriminate|reflexivity|cbn; lia].
Defined.

(** The length check wraps: a header that claims [2 ^ 64 - 18] directory bytes
    passes it, and the checksum field is then read outside the buffer. *)
Example prelude_open_wraps :
  open ([0; 0; 1; 0] ++ encode_varint64 (2 ^ 64 - 18) ++ [0; 0; 0; 0]) = Undef.
Proof. vm_compute. reflexivity. Qed.
