(* ===== verification/PrxPod.v ===== *)
(** * PrxPod: position windows.

    [format/prx_pod.h] and [format/prx_pod.cpp]. The two builders (nested lists,
    flat list with a partition) and the two decoders (nested lists, flat buffer
    with offsets) are separate functions here as in the code; [build_flat_nested]
    and [read_csr_nested] relate them. An index into the flat arrays that leaves
    them is [Undef]. *)

From S2P Require Import Prelude Status Varint ByteIO Crc32c FormatConstants Pfor Zstd PforRuns.

#[local] Open Scope Z_scope.

Definition kAutoZstdMinBytes : Z := 512.
Definition kDefaultZstdLevel : Z := 3.
Definition kMaxWindowUncompBytes : Z := 256 * 1024 * 1024.
Definition kMaxWindowPositions : Z := 1 ≪ 26.
Definition kMaxWindowDocs : Z := 1 ≪ 24.

Definition ascending_error : Status :=
  InvalidArgument "prx: positions within a doc must be ascending".

Fixpoint sum_u64 (freqs : list Z) (sum : Z) : Z :=
  match freqs with [] => sum | fc :: freqs => sum_u64 freqs (u64 (sum + fc)) end.

Definition check_flat_partition (flat freqs : list Z) : result unit :=
  reject_if (negb (sum_u64 freqs 0 =? zlen flat))
    (InvalidArgument "prx: sum(freqs) does not match positions_flat size").

(** ** Encoders *)

(** The positions of one doc; [i > 0] is [negb first]. *)
Fixpoint put_positions (doc : list Z) (first : bool) (prev : Z) (out : ByteSink) : result ByteSink :=
  match doc with
  | [] => Ok out
  | pos :: doc =>
      if negb first && (pos <? prev) then Err ascending_error
      else put_positions doc false pos (put_varint32 (if first then pos else u32 (pos - prev)) out)
  end.

Fixpoint encode_docs (per_doc : list (list Z)) (out : ByteSink) : result ByteSink :=
  match per_doc with
  | [] => Ok out
  | doc :: per_doc =>
      out ← put_positions doc true 0 (put_varint32 (u32 (zlen doc)) out);
      encode_docs per_doc out
  end.

Definition encode_payload (per_doc : list (list Z)) (out : ByteSink) : result ByteSink :=
  encode_docs per_doc (put_varint32 (u32 (zlen per_doc)) out).

(** The next [n] positions of [flat] from index [at_] on. *)
Fixpoint put_positions_flat (flat : list Z) (n at_ : nat) (first : bool) (prev : Z) (out : ByteSink)
    : result ByteSink :=
  match n with
  | O => Ok out
  | S n =>
      match flat !! at_ with
      | None => Undef
      | Some pos =>
          if negb first && (pos <? prev) then Err ascending_error
          else put_positions_flat flat n (S at_) false pos
                 (put_varint32 (if first then pos else u32 (pos - prev)) out)
      end
  end.

Fixpoint encode_docs_flat (flat freqs : list Z) (off : nat) (out : ByteSink) : result ByteSink :=
  match freqs with
  | [] => Ok out
  | fc :: freqs =>
      out ← put_positions_flat flat (Z.to_nat fc) off true 0 (put_varint32 fc out);
      encode_docs_flat flat freqs (off + Z.to_nat fc) out
  end.

Definition encode_payload_flat (flat freqs : list Z) (out : ByteSink) : result ByteSink :=
  _ ← check_flat_partition flat freqs;
  encode_docs_flat flat freqs 0 (put_varint32 (u32 (zlen freqs)) out).

Fixpoint push_deltas_flat (flat : list Z) (n at_ : nat) (first : bool) (prev : Z) (deltas : list Z)
    : result (list Z) :=
  match n with
  | O => Ok deltas
  | S n =>
      match flat !! at_ with
      | None => Undef
      | Some pos =>
          if negb first && (pos <? prev) then Err ascending_error
          else push_deltas_flat flat n (S at_) false pos
                 (deltas ++ [if first then pos else u32 (pos - prev)])
      end
  end.

Fixpoint flat_deltas (flat freqs : list Z) (off : nat) (deltas : list Z) : result (list Z) :=
  match freqs with
  | [] => Ok deltas
  | fc :: freqs =>
      deltas ← push_deltas_flat flat (Z.to_nat fc) off true 0 deltas;
      flat_deltas flat freqs (off + Z.to_nat fc) deltas
  end.

Definition encode_pfor_payload_flat (flat freqs : list Z) (out : ByteSink) : result ByteSink :=
  _ ← check_flat_partition flat freqs;
  let out := out |> put_varint32 (u32 (zlen freqs)) |> put_varint32 (u32 (zlen flat))
    |> encode_pfor_runs freqs in
  deltas ← flat_deltas flat freqs 0 [];
  Ok (encode_pfor_runs deltas out).

Definition encode_pfor_payload (per_doc : list (list Z)) (out : ByteSink) : result ByteSink :=
  let freqs := map (λ doc, u32 (zlen doc)) per_doc in
  let flat := concat per_doc in
  encode_pfor_payload_flat flat freqs out.

(** ** Decoders *)

(** The counts and the deltas of a PFOR payload. *)
Definition read_pfor_columns : reader (list Z * list Z) :=
  doc_count ← get_varint32;
  total_pos ← get_varint32;
  _ ← return_if (kMaxWindowPositions <? total_pos) (Corruption "prx: position count exceeds sane cap");
  _ ← return_if (kMaxWindowDocs <? doc_count) (Corruption "prx: doc count exceeds sane cap");
  pos_counts ← decode_pfor_runs doc_count;
  _ ← return_if (negb (sum_u64 pos_counts 0 =? total_pos)) (Corruption "prx: pos_count sum mismatch");
  deltas ← decode_pfor_runs total_pos;
  mret (pos_counts, deltas).

(** [prev = (i == 0) ? deltas[off + i] : prev + deltas[off + i]] *)
Fixpoint sum_positions (deltas : list Z) (n at_ : nat) (first : bool) (prev : Z) : result (list Z) :=
  match n with
  | O => Ok []
  | S n =>
      match deltas !! at_ with
      | None => Undef
      | Some d =>
          let prev := if first then d else u32 (prev + d) in
          rest ← sum_positions deltas n (S at_) false prev;
          Ok (prev :: rest)
      end
  end.

Fixpoint split_docs (deltas pos_counts : list Z) (off : nat) : result (list (list Z)) :=
  match pos_counts with
  | [] => Ok []
  | c :: pos_counts =>
      doc ← sum_positions deltas (Z.to_nat c) off true 0;
      docs ← split_docs deltas pos_counts (off + Z.to_nat c);
      Ok (doc :: docs)
  end.

Definition decode_pfor_payload (plain : Slice) : result (list (list Z)) :=
  run_reader (whole ('(pos_counts, deltas) ← read_pfor_columns; lift (split_docs deltas pos_counts 0))
                "prx: trailing bytes after pfor payload") plain.

Fixpoint read_positions (n : nat) (first : bool) (prev : Z) : reader (list Z) :=
  match n with
  | O => mret []
  | S n =>
      delta ← get_varint32;
      let prev := if first then delta else u32 (prev + delta) in
      rest ← read_positions n false prev;
      mret (prev :: rest)
  end.

Definition read_doc : reader (list Z) :=
  pos_count ← get_varint32;
  read_positions (Z.to_nat pos_count) true 0.

Definition read_docs : reader (list (list Z)) :=
  doc_count ← get_varint32;
  _ ← return_if (kMaxWindowDocs <? doc_count) (Corruption "prx: doc count exceeds sane cap");
  read_n read_doc (Z.to_nat doc_count).

Definition decode_payload (plain : Slice) : result (list (list Z)) :=
  run_reader (whole read_docs "prx: trailing bytes after payload") plain.

(** [pos_flat] and [pos_off]. *)
Fixpoint split_csr (deltas pos_counts : list Z) (off : nat) (pos_flat pos_off : list Z)
    : result (list Z * list Z) :=
  match pos_counts with
  | [] => Ok (pos_flat, pos_off)
  | c :: pos_counts =>
      doc ← sum_positions deltas (Z.to_nat c) off true 0;
      let pos_flat := pos_flat ++ doc in
      split_csr deltas pos_counts (off + Z.to_nat c) pos_flat (pos_off ++ [u32 (zlen pos_flat)])
  end.

Definition decode_pfor_payload_csr (plain : Slice) : result (list Z * list Z) :=
  run_reader (whole ('(pos_counts, deltas) ← read_pfor_columns; lift (split_csr deltas pos_counts 0 [] [0]))
                "prx: trailing bytes after pfor payload") plain.

Fixpoint read_docs_csr (n : nat) (total_pos : Z) (pos_flat pos_off : list Z) : reader (list Z * list Z) :=
  match n with
  | O => mret (pos_flat, pos_off)
  | S n =>
      pos_count ← get_varint32;
      let total_pos := u64 (total_pos + pos_count) in
      _ ← return_if (kMaxWindowPositions <? total_pos) (Corruption "prx: position count exceeds sane cap");
      doc ← read_positions (Z.to_nat pos_count) true 0;
      let pos_flat := pos_flat ++ doc in
      read_docs_csr n total_pos pos_flat (pos_off ++ [u32 (zlen pos_flat)])
  end.

Definition decode_payload_csr (plain : Slice) : result (list Z * list Z) :=
  run_reader (whole (doc_count ← get_varint32;
                     _ ← return_if (kMaxWindowDocs <? doc_count)
                           (Corruption "prx: doc count exceeds sane cap");
                     read_docs_csr (Z.to_nat doc_count) 0 [] [0])
                "prx: trailing bytes after payload") plain.

(** ** Windows *)

Definition should_compress (level plain_len : Z) : bool :=
  if level =? 0 then false else if 0 <? level then true else kAutoZstdMinBytes <=? plain_len.

Definition write_framed (framed : ByteSink) (sink : ByteSink) : ByteSink :=
  sink |> put_bytes framed |> put_fixed32 (crc32c framed).

Definition write_pfor (payload : Slice) (sink : ByteSink) : ByteSink :=
  let framed := [] |> put_u8 PrxCodec_kPfor |> put_varint32 (u32 (zlen payload)) |> put_bytes payload in
  write_framed framed sink.

Definition write_raw (plain : Slice) (sink : ByteSink) : ByteSink :=
  let framed := [] |> put_u8 PrxCodec_kRaw |> put_varint32 (u32 (zlen plain)) |> put_bytes plain in
  write_framed framed sink.

(** [codec], [uncomp_len] and [payload]. *)
Definition read_framed : reader (Z * Z * Slice) :=
  start ← get_position;
  codec ← get_u8;
  _ ← return_if (negb (codec =? PrxCodec_kRaw) && negb (codec =? PrxCodec_kZstd) &&
                 negb (codec =? PrxCodec_kPfor)) (Corruption "prx: unknown codec");
  uncomp_len ← get_varint32;
  _ ← return_if (kMaxWindowUncompBytes <? uncomp_len)
        (Corruption "prx: uncomp_len exceeds sane window cap");
  payload_len ← (if codec =? PrxCodec_kZstd then get_varint32 else mret uncomp_len);
  payload ← get_bytes payload_len;
  pos ← get_position;
  let framed_len := pos - start in
  stored ← get_fixed32;
  framed ← slice_from start framed_len;
  _ ← return_if (negb (crc32c framed =? stored)) (Corruption "prx: window crc mismatch");
  mret (codec, uncomp_len, payload).

Section Windows.
Context `{ZstdOps}.

Definition write_zstd (plain : Slice) (level : Z) (sink : ByteSink) : result ByteSink :=
  comp ← zstd_compress plain (if 0 <? level then level else kDefaultZstdLevel);
  let framed := [] |> put_u8 PrxCodec_kZstd |> put_varint32 (u32 (zlen plain))
    |> put_varint32 (u32 (zlen comp)) |> put_bytes comp in
  Ok (write_framed framed sink).

Definition write_plain (plain : Slice) (level : Z) (sink : ByteSink) : result ByteSink :=
  if negb (should_compress level (zlen plain)) then Ok (write_raw plain sink)
  else write_zstd plain level sink.

Definition build_prx_window (per_doc : list (list Z)) (level : Z) (sink : ByteSink) : result ByteSink :=
  if 0 <=? level then
    plain ← encode_payload per_doc [];
    write_plain plain level sink
  else
    payload ← encode_pfor_payload per_doc [];
    Ok (write_pfor payload sink).

Definition build_prx_window_flat (flat freqs : list Z) (level : Z) (sink : ByteSink) : result ByteSink :=
  if 0 <=? level then
    plain ← encode_payload_flat flat freqs [];
    write_plain plain level sink
  else
    payload ← encode_pfor_payload_flat flat freqs [];
    Ok (write_pfor payload sink).

(** The payload of a window, decoded by the codec's decoder. *)
Definition read_window {A} (pfor plain : Slice → result A) : reader A :=
  '(codec, uncomp_len, payload) ← read_framed;
  if codec =? PrxCodec_kPfor then lift (pfor payload)
  else if codec =? PrxCodec_kRaw then lift (plain payload)
  else
    bytes ← lift (zstd_decompress payload uncomp_len);
    lift (plain bytes).

Definition read_prx_window : reader (list (list Z)) := read_window decode_pfor_payload decode_payload.
Definition read_prx_window_csr : reader (list Z * list Z) :=
  read_window decode_pfor_payload_csr decode_payload_csr.
End Windows.

(** ** The flat arrays are the nested lists *)

Lemma put_positions_flat_nested pre doc post first prev out :
  put_positions_flat (pre ++ doc ++ post) (length doc) (length pre) first prev out =
    put_positions doc first prev out.
Proof.
  revert pre first prev out. induction doc as [|p doc IH]; intros pre first prev out; [done|].
  cbn [length put_positions_flat put_positions].
  rewrite lookup_app_r, Nat.sub_diag by lia. cbn [app lookup list_lookup].
  destruct (negb first && (p <? prev)); [done|].
  specialize (IH (pre ++ [p])). rewrite length_app, <- app_assoc in IH. cbn [length app] in IH.
  rewrite Nat.add_1_r in IH. apply IH.
Qed.

Abbreviation counts per_doc := (map (λ doc : list Z, zlen doc) per_doc).

Lemma encode_docs_flat_nested pre pd out :
  Forall (λ doc, is_u32 (zlen doc)) pd →
  encode_docs_flat (pre ++ concat pd) (counts pd) (length pre) out = encode_docs pd out.
Proof.
  intros Hpd. revert pre out. induction Hpd as [|doc pd Hd Hpd IH]; intros pre out; [done|].
  cbn [map concat encode_docs_flat encode_docs]. rewrite Nat2Z.id, put_positions_flat_nested.
  rewrite u32_small by done. destruct (put_positions doc true 0 _) as [out'| |]; [|done|done].
  rewrite !bind_Ok. specialize (IH (pre ++ doc)). rewrite length_app, <- app_assoc in IH. apply IH.
Qed.

Lemma sum_u64_counts l base :
  Forall (λ x, 0 ≤ x) l → 0 ≤ base → base + foldr Z.add 0 l < 2 ^ 64 →
  sum_u64 l base = base + foldr Z.add 0 l.
Proof.
  intros Hl. revert base. induction Hl as [|x l Hx Hl IH]; intros base Hb Hs; cbn [sum_u64 foldr] in *; [lia|].
  assert (0 ≤ foldr Z.add 0 l) by (clear -Hl; induction Hl; cbn; lia).
  rewrite u64_small by (unfold is_u64; lia). rewrite IH by lia. lia.
Qed.

Lemma foldr_counts pd : foldr Z.add 0 (counts pd) = zlen (concat pd).
Proof. induction pd as [|d pd IH]; cbn; [done|]. rewrite IH, length_app. lia. Qed.

Lemma counts_nonneg pd : Forall (λ x, 0 ≤ x) (counts pd).
Proof. apply Forall_map, Forall_forall. intros. lia. Qed.

Lemma check_flat_partition_counts pd :
  zlen (concat pd) < 2 ^ 64 → check_flat_partition (concat pd) (counts pd) = Ok tt.
Proof.
  intros Hl. unfold check_flat_partition.
  rewrite sum_u64_counts by (rewrite ?foldr_counts; auto using counts_nonneg with lia; lia).
  rewrite foldr_counts. by rewrite Z.add_0_l, Z.eqb_refl.
Qed.

Lemma counts_u32 pd : Forall (λ doc, is_u32 (zlen doc)) pd → map (λ doc : list Z, u32 (zlen doc)) pd = counts pd.
Proof. induction 1 as [|d pd Hd Hpd IH]; cbn [map]; [done|]. by rewrite IH, u32_small. Qed.

(** ** Deltas of a doc *)

Fixpoint position_deltas (first : bool) (prev : Z) (doc : list Z) : list Z :=
  match doc with
  | [] => []
  | pos :: doc => (if first then pos else u32 (pos - prev)) :: position_deltas false pos doc
  end.

Fixpoint ascendingb (first : bool) (prev : Z) (doc : list Z) : bool :=
  match doc with
  | [] => true
  | pos :: doc => negb (negb first && (pos <? prev)) && ascendingb false pos doc
  end.
Abbreviation ascending doc := (ascendingb true 0 doc).

Lemma ascendingb_false prev doc : ascendingb false prev doc = true ↔ Sorted Z.le (prev :: doc).
Proof.
  revert prev. induction doc as [|p doc IH]; intros prev; cbn [ascendingb].
  - split; [|done]. intros _. by repeat constructor.
  - cbn [negb andb]. rewrite andb_true_iff, negb_true_iff, Z.ltb_ge, IH. split.
    + intros [Hle Hs]. constructor; [done|]. by constructor.
    + intros Hs. apply Sorted_inv in Hs as [Hs Hr]. apply HdRel_inv in Hr. done.
Qed.

Lemma ascendingb_Sorted doc : ascending doc = true ↔ Sorted Z.le doc.
Proof. destruct doc as [|p doc]; [by split|]. cbn [ascendingb negb andb]. apply ascendingb_false. Qed.

Definition ascending_docs (pd : list (list Z)) : Prop := Forall (Sorted Z.le) pd.

Lemma ascending_docs_forallb pd : forallb (λ doc, ascending doc) pd = true ↔ ascending_docs pd.
Proof.
  unfold ascending_docs. rewrite forallb_forall, Forall_forall. split.
  - intros Ha doc Hin. apply ascendingb_Sorted, Ha. by apply list_elem_of_In.
  - intros Ha doc Hin. apply ascendingb_Sorted, Ha. by apply list_elem_of_In.
Qed.

Definition delta_bytes (doc : list Z) : bytes := concat (map encode_varint64 (position_deltas true 0 doc)).
Definition doc_bytes (doc : list Z) : bytes := encode_varint64 (zlen doc) ++ delta_bytes doc.
Definition docs_bytes (pd : list (list Z)) : bytes := concat (map doc_bytes pd).
Definition plain_payload (pd : list (list Z)) : bytes := encode_varint64 (zlen pd) ++ docs_bytes pd.
Definition all_deltas (pd : list (list Z)) : list Z := concat (map (position_deltas true 0) pd).
Definition pfor_payload (pd : list (list Z)) : bytes :=
  encode_varint64 (zlen pd) ++ encode_varint64 (zlen (concat pd)) ++ pfor_runs_bytes (counts pd) ++
  pfor_runs_bytes (all_deltas pd).

Lemma put_positions_spec doc first prev out :
  put_positions doc first prev out =
    if ascendingb first prev doc
    then Ok (out ++ concat (map encode_varint64 (position_deltas first prev doc)))
    else Err ascending_error.
Proof.
  revert first prev out. induction doc as [|p doc IH]; intros first prev out;
    cbn [put_positions ascendingb position_deltas map concat]; [by rewrite app_nil_r|].
  destruct (negb first && (p <? prev)); cbn [negb andb]; [done|]. rewrite IH.
  destruct (ascendingb false p doc); [|done]. rewrite put_varint32_app. by rewrite <- app_assoc.
Qed.

Lemma encode_docs_spec pd out :
  Forall (λ doc, is_u32 (zlen doc)) pd →
  encode_docs pd out =
    if forallb (λ doc, ascending doc) pd then Ok (out ++ docs_bytes pd) else Err ascending_error.
Proof.
  intros Hpd. revert out. induction Hpd as [|doc pd Hd Hpd IH]; intros out; unfold docs_bytes in *;
    cbn [encode_docs forallb map concat]; [by rewrite app_nil_r|].
  rewrite put_positions_spec, u32_small by done. destruct (ascending doc); cbn [andb]; [|done].
  rewrite bind_Ok, IH. destruct (forallb _ pd); [|done]. unfold doc_bytes, delta_bytes.
  rewrite put_varint32_app. by rewrite <- !app_assoc.
Qed.

Lemma push_deltas_flat_spec pre doc post first prev acc :
  push_deltas_flat (pre ++ doc ++ post) (length doc) (length pre) first prev acc =
    if ascendingb first prev doc then Ok (acc ++ position_deltas first prev doc) else Err ascending_error.
Proof.
  revert pre first prev acc. induction doc as [|p doc IH]; intros pre first prev acc;
    cbn [length push_deltas_flat ascendingb position_deltas]; [by rewrite app_nil_r|].
  rewrite lookup_app_r, Nat.sub_diag by lia. cbn [app lookup list_lookup].
  destruct (negb first && (p <? prev)); cbn [negb andb]; [done|].
  specialize (IH (pre ++ [p])). rewrite length_app, <- app_assoc in IH. cbn [length app] in IH.
  rewrite Nat.add_1_r in IH. rewrite IH. destruct (ascendingb false p doc); [|done]. by rewrite <- app_assoc.
Qed.

Lemma flat_deltas_spec pre pd acc :
  flat_deltas (pre ++ concat pd) (counts pd) (length pre) acc =
    if forallb (λ doc, ascending doc) pd then Ok (acc ++ all_deltas pd) else Err ascending_error.
Proof.
  revert pre acc. induction pd as [|doc pd IH]; intros pre acc; unfold all_deltas in *;
    cbn [map concat flat_deltas forallb]; [by rewrite app_nil_r|].
  rewrite Nat2Z.id, push_deltas_flat_spec. destruct (ascending doc); cbn [andb]; [|done].
  rewrite bind_Ok. specialize (IH (pre ++ doc)). rewrite length_app, <- app_assoc in IH. rewrite IH.
  destruct (forallb _ pd); [|done]. by rewrite <- app_assoc.
Qed.

(** ** What a window of [per_doc] has to satisfy *)

Definition wf_docs (pd : list (list Z)) : Prop :=
  Forall is_u32s pd ∧ zlen pd ≤ kMaxWindowDocs ∧ zlen (concat pd) ≤ kMaxWindowPositions.

Lemma wf_docs_lengths pd : wf_docs pd → Forall (λ doc, is_u32 (zlen doc)) pd.
Proof.
  intros (_ & _ & Hp). unfold kMaxWindowPositions in Hp. change (1 ≪ 26) with 67108864 in Hp.
  apply Forall_forall. intros doc Hin. apply list_elem_of_split in Hin as (l & r & ->).
  rewrite concat_app in Hp. cbn [concat] in Hp. rewrite !length_app in Hp. ulia.
Qed.

Lemma encode_payload_spec pd :
  wf_docs pd →
  encode_payload pd [] =
    if forallb (λ doc, ascending doc) pd then Ok (plain_payload pd) else Err ascending_error.
Proof.
  intros Hwf. pose proof (wf_docs_lengths pd Hwf) as Hl. destruct Hwf as (_ & Hn & _).
  unfold kMaxWindowDocs in Hn. change (1 ≪ 24) with 16777216 in Hn.
  unfold encode_payload. rewrite u32_small by ulia. by rewrite encode_docs_spec.
Qed.

Lemma encode_pfor_payload_spec pd :
  wf_docs pd →
  encode_pfor_payload pd [] =
    if forallb (λ doc, ascending doc) pd then Ok (pfor_payload pd) else Err ascending_error.
Proof.
  intros Hwf. pose proof (wf_docs_lengths pd Hwf) as Hl. destruct Hwf as (_ & Hn & Hp).
  unfold kMaxWindowDocs in Hn. change (1 ≪ 24) with 16777216 in Hn.
  unfold kMaxWindowPositions in Hp. change (1 ≪ 26) with 67108864 in Hp.
  unfold encode_pfor_payload, encode_pfor_payload_flat. rewrite counts_u32 by done.
  rewrite check_flat_partition_counts, bind_Ok by lia.
  pose proof (flat_deltas_spec [] pd []) as Hd. cbn [app length] in Hd. rewrite Hd.
  destruct (forallb _ pd); [|done]. rewrite bind_Ok. f_equal. unfold pfor_payload.
  rewrite length_map, !u32_small by ulia. by autorewrite with sink.
Qed.

(** ** Decoding the payloads *)

Lemma next_position (first : bool) prev pos :
  is_u32 pos → is_u32 prev → (first = false → prev ≤ pos) →
  is_u32 (if first then pos else u32 (pos - prev)) ∧
  (if first then (if first then pos else u32 (pos - prev))
   else u32 (prev + (if first then pos else u32 (pos - prev)))) = pos.
Proof.
  intros Hp Hv Hle. destruct first; [done|]. specialize (Hle eq_refl).
  rewrite (u32_small (pos - prev)) by ulia. split; [ulia|].
  replace (prev + (pos - prev)) with pos by lia. by apply u32_small.
Qed.

Lemma ascendingb_cons first prev pos doc :
  ascendingb first prev (pos :: doc) = true →
  (first = false → prev ≤ pos) ∧ ascendingb false pos doc = true.
Proof.
  cbn [ascendingb]. intros H. apply andb_true_iff in H as [H1 H2]. split; [|done]. intros ->.
  cbn in H1. by apply negb_true_iff, Z.ltb_ge in H1.
Qed.

Lemma reads_positions doc first prev :
  is_u32s doc → is_u32 prev → ascendingb first prev doc = true →
  reads (read_positions (length doc) first prev)
    (concat (map encode_varint64 (position_deltas first prev doc))) doc.
Proof.
  intros Hd. revert first prev. induction Hd as [|pos doc Hp Hd IH]; intros first prev Hv Ha;
    cbn [read_positions length position_deltas map concat]; [apply reads_ret|].
  apply ascendingb_cons in Ha as [Hle Ha]. destruct (next_position first prev pos Hp Hv Hle) as [Hu Hn].
  eapply reads_bind; [by apply reads_get_varint32|]. cbv zeta. rewrite Hn.
  eapply reads_last; [by apply IH|]. apply reads_ret.
Qed.

Lemma sum_positions_deltas pre doc post first prev :
  is_u32s doc → is_u32 prev → ascendingb first prev doc = true →
  sum_positions (pre ++ position_deltas first prev doc ++ post) (length doc) (length pre) first prev = Ok doc.
Proof.
  intros Hd. revert pre first prev. induction Hd as [|pos doc Hp Hd IH]; intros pre first prev Hv Ha; [done|].
  cbn [sum_positions length position_deltas].
  apply ascendingb_cons in Ha as [Hle Ha]. destruct (next_position first prev pos Hp Hv Hle) as [Hu Hn].
  rewrite lookup_app_r, Nat.sub_diag by lia. cbn [app lookup list_lookup]. cbv zeta. rewrite Hn.
  set (d := if first then pos else u32 (pos - prev)) in *.
  specialize (IH (pre ++ [d]) false pos Hp Ha). rewrite length_app, <- app_assoc in IH. cbn [length app] in IH.
  rewrite Nat.add_1_r in IH. by rewrite IH.
Qed.

Lemma position_deltas_length first prev doc : length (position_deltas first prev doc) = length doc.
Proof. revert first prev. induction doc as [|p doc IH]; intros first prev; cbn; by rewrite ?IH. Qed.

Lemma position_deltas_u32 first prev doc : is_u32s doc → is_u32s (position_deltas first prev doc).
Proof.
  intros Hd. revert first prev. induction Hd as [|p doc Hp Hd IH]; intros first prev; cbn; [done|].
  constructor; [by destruct first; auto with snii|apply IH].
Qed.

Lemma all_deltas_length pd : length (all_deltas pd) = length (concat pd).
Proof.
  unfold all_deltas. induction pd as [|d pd IH]; cbn; [done|].
  by rewrite !length_app, position_deltas_length, IH.
Qed.

Lemma all_deltas_u32 pd : Forall is_u32s pd → is_u32s (all_deltas pd).
Proof. induction 1; cbn; [done|]. apply Forall_app_2; [by apply position_deltas_u32|done]. Qed.

Lemma split_docs_deltas pre pd :
  Forall is_u32s pd → forallb (λ doc, ascending doc) pd = true →
  split_docs (pre ++ all_deltas pd) (counts pd) (length pre) = Ok pd.
Proof.
  intros Hu. revert pre. induction Hu as [|doc pd Hd Hu IH]; intros pre Ha; [done|].
  cbn [forallb] in Ha. apply andb_true_iff in Ha as [Ha1 Ha].
  unfold all_deltas. cbn [map concat split_docs]. rewrite Nat2Z.id.
  rewrite sum_positions_deltas, bind_Ok by (done || ulia).
  specialize (IH (pre ++ position_deltas true 0 doc) Ha).
  rewrite length_app, position_deltas_length, <- app_assoc in IH. unfold all_deltas in IH. by rewrite IH.
Qed.

Lemma plain_payload_bytes pd : Forall is_u32s pd → is_bytes (plain_payload pd).
Proof.
  intros Hu. unfold plain_payload, docs_bytes. apply Forall_app_2; [auto with snii|].
  apply concat_is_bytes, Forall_forall. intros d _. unfold doc_bytes, delta_bytes.
  apply Forall_app_2; [auto with snii|]. apply concat_is_bytes, Forall_forall. intros. auto with snii.
Qed.

Lemma counts_are_u32s pd : wf_docs pd → is_u32s (counts pd).
Proof. intros Hwf. by apply Forall_map, wf_docs_lengths. Qed.

Lemma pfor_payload_bytes pd : wf_docs pd → is_bytes (pfor_payload pd).
Proof.
  intros Hwf. pose proof (counts_are_u32s pd Hwf). destruct Hwf as (Hu & _).
  pose proof (all_deltas_u32 pd Hu). unfold pfor_payload. rewrite !Forall_app. split_and!; auto with snii.
Qed.

Lemma reads_docs pd :
  wf_docs pd → forallb (λ doc, ascending doc) pd = true → reads read_docs (plain_payload pd) pd.
Proof.
  intros Hwf Ha. pose proof (wf_docs_lengths pd Hwf) as Hl. destruct Hwf as (Hu & Hn & _).
  unfold read_docs, plain_payload. pose proof Hn as Hn'. unfold kMaxWindowDocs in Hn'.
  change (1 ≪ 24) with 16777216 in Hn'.
  eapply reads_bind; [apply reads_get_varint32; ulia|].
  reads_guard; [by apply Z.ltb_ge|]. rewrite Nat2Z.id. apply reads_read_n_id; [done|].
  clear Hn Hn'. induction Hu as [|doc pd Hd Hu IH]; [done|].
  apply Forall_cons in Hl as [Hl1 Hl]. cbn [forallb] in Ha. apply andb_true_iff in Ha as [Ha1 Ha].
  constructor; [|by apply IH]. unfold read_doc, doc_bytes.
  eapply reads_bind; [by apply reads_get_varint32|]. rewrite Nat2Z.id. apply reads_positions; [done|ulia|done].
Qed.

Lemma decode_payload_spec pd :
  wf_docs pd → forallb (λ doc, ascending doc) pd = true → decode_payload (plain_payload pd) = Ok pd.
Proof. intros. by apply run_whole, reads_docs. Qed.

Lemma reads_pfor_columns pd :
  wf_docs pd → reads read_pfor_columns (pfor_payload pd) (counts pd, all_deltas pd).
Proof.
  intros Hwf. pose proof (counts_are_u32s pd Hwf) as Hc. destruct Hwf as (Hu & Hn & Hp).
  pose proof (all_deltas_u32 pd Hu) as Hd. unfold read_pfor_columns, pfor_payload.
  pose proof Hn as Hn'. unfold kMaxWindowDocs in Hn'. change (1 ≪ 24) with 16777216 in Hn'.
  pose proof Hp as Hp'. unfold kMaxWindowPositions in Hp'. change (1 ≪ 26) with 67108864 in Hp'.
  eapply reads_bind; [apply reads_get_varint32; ulia|].
  eapply reads_bind; [apply reads_get_varint32; ulia|].
  reads_guard; [by apply Z.ltb_ge|]. reads_guard; [by apply Z.ltb_ge|].
  eapply reads_bind.
  { rewrite <- (length_map (λ doc : list Z, zlen doc) pd). by apply reads_decode_pfor_runs. }
  reads_guard.
  { rewrite sum_u64_counts by (rewrite ?foldr_counts; auto using counts_nonneg with lia; lia).
    by rewrite foldr_counts, Z.add_0_l, Z.eqb_refl. }
  eapply reads_last; [rewrite <- all_deltas_length; by apply reads_decode_pfor_runs|]. apply reads_ret.
Qed.

Lemma decode_pfor_payload_spec pd :
  wf_docs pd → forallb (λ doc, ascending doc) pd = true → decode_pfor_payload (pfor_payload pd) = Ok pd.
Proof.
  intros Hwf Ha. apply run_whole. eapply reads_last; [by apply reads_pfor_columns|]. cbv beta iota.
  apply reads_lift. apply (split_docs_deltas []); [apply Hwf|done].
Qed.

(** ** Frames *)

Definition frame_bytes (codec uncomp_len : Z) (payload : bytes) : bytes :=
  [codec] ++ encode_varint64 uncomp_len ++
  (if codec =? PrxCodec_kZstd then encode_varint64 (zlen payload) else []) ++ payload.

Definition wf_frame (codec uncomp_len : Z) (payload : bytes) : Prop :=
  (codec = PrxCodec_kRaw ∨ codec = PrxCodec_kZstd ∨ codec = PrxCodec_kPfor) ∧
  0 ≤ uncomp_len ≤ kMaxWindowUncompBytes ∧ is_u32 (zlen payload) ∧ is_bytes payload ∧
  (codec ≠ PrxCodec_kZstd → uncomp_len = zlen payload).

Lemma frame_is_bytes codec n payload : wf_frame codec n payload → is_bytes (frame_bytes codec n payload).
Proof.
  intros (Hc & _ & _ & Hp & _). unfold frame_bytes.
  assert (is_u8 codec) by (destruct Hc as [->|[->| ->]]; by vm_compute).
  rewrite !Forall_app. split_and!; auto with snii. destruct (codec =? PrxCodec_kZstd); auto with snii.
Qed.

Lemma read_framed_layout codec n payload stored pre post :
  wf_frame codec n payload → is_u32 stored →
  read_framed (mkByteSource (pre ++ (frame_bytes codec n payload ++ fixed32 stored) ++ post) (length pre)) =
    if crc32c (frame_bytes codec n payload) =? stored then
      Ok ((codec, n, payload),
          mkByteSource (pre ++ (frame_bytes codec n payload ++ fixed32 stored) ++ post)
            (length pre + length (frame_bytes codec n payload ++ fixed32 stored)))
    else Err (Corruption "prx: window crc mismatch").
Proof.
  intros (Hc & Hn & Hpl & Hp & Hraw) Hst. set (c := crc32c _).
  unfold read_framed. rewrite bind_get_position. cbn [pos_].
  pose proof Hn as Hn'. unfold kMaxWindowUncompBytes in Hn'.
  assert (∀ rest, pre ++ ((frame_bytes codec n payload) ++ fixed32 stored) ++ rest =
    pre ++ [codec] ++ encode_varint64 n ++
    (if codec =? PrxCodec_kZstd then encode_varint64 (zlen payload) else []) ++ payload ++
    fixed32 stored ++ rest) as Hs by (intros; unfold frame_bytes; by rewrite <- !app_assoc).
  rewrite Hs.
  rewrite (bind_reads _ _ _ _ _ codec) by apply reads_get_u8. rewrite bind_return_if.
  assert (negb (codec =? PrxCodec_kRaw) && negb (codec =? PrxCodec_kZstd) && negb (codec =? PrxCodec_kPfor)
    = false) as -> by (destruct Hc as [->|[->| ->]]; done).
  rewrite (bind_reads _ _ _ _ _ n) by (apply reads_get_varint32; ulia). rewrite bind_return_if.
  rewrite (proj2 (Z.ltb_ge _ _)) by lia.
  rewrite (bind_reads _ _ _ _ _ (zlen payload)).
  2: { destruct (Z.eqb_spec codec PrxCodec_kZstd) as [->|Hne]; [by apply reads_get_varint32|].
       rewrite (Hraw Hne). apply reads_ret. }
  rewrite (bind_reads _ _ _ _ _ payload) by by apply reads_get_bytes.
  rewrite bind_get_position. cbn [pos_]. cbv zeta.
  rewrite (bind_reads _ _ _ _ _ stored) by by apply reads_get_fixed32.
  set (src := mkByteSource _ _).
  assert (s_ src = pre ++ frame_bytes codec n payload ++ fixed32 stored ++ post) as Hsrc.
  { subst src. cbn [s_]. unfold frame_bytes. by rewrite <- !app_assoc. }
  unfold mbind at 1, reader_bind at 1. unfold slice_from at 1. rewrite Hsrc.
  replace (_ - Z.of_nat (length pre)) with (zlen (frame_bytes codec n payload))
    by (unfold frame_bytes; rewrite !length_app; cbn [length]; lia).
  rewrite subslice_mid. cbn [mbind result_bind]. fold c.
  rewrite bind_return_if. destruct (c =? stored); cbn [negb]; [|done].
  unfold mret, reader_ret. subst src. do 2 f_equal. f_equal; [by rewrite <- !app_assoc|].
  unfold frame_bytes. rewrite !length_app. cbn [length]. lia.
Qed.

Lemma reads_framed codec n payload :
  wf_frame codec n payload →
  reads read_framed (frame_bytes codec n payload ++ fixed32 (crc32c (frame_bytes codec n payload)))
    (codec, n, payload).
Proof.
  intros Hwf pre post. rewrite read_framed_layout; [by rewrite Z.eqb_refl|done|].
  by apply crc32c_range, frame_is_bytes.
Qed.

(** ** The nested and the flat decoders *)

Fixpoint csr_offsets (base : Z) (docs : list (list Z)) : list Z :=
  match docs with
  | [] => []
  | d :: docs => u32 (base + zlen d) :: csr_offsets (base + zlen d) docs
  end.

Definition to_csr (docs : list (list Z)) : list Z * list Z := (concat docs, 0 :: csr_offsets 0 docs).

Lemma split_csr_docs deltas cs off flat offs :
  split_csr deltas cs off flat offs =
    (docs ← split_docs deltas cs off; Ok (flat ++ concat docs, offs ++ csr_offsets (zlen flat) docs)).
Proof.
  revert off flat offs. induction cs as [|c cs IH]; intros off flat offs; cbn [split_csr split_docs].
  { rewrite bind_Ok. cbn [concat csr_offsets]. by rewrite !app_nil_r. }
  destruct (sum_positions deltas (Z.to_nat c) off true 0) as [doc| |]; [rewrite !bind_Ok|done|done].
  cbv zeta. rewrite IH. destruct (split_docs deltas cs _) as [docs| |]; [rewrite !bind_Ok|done|done].
  cbn [concat csr_offsets]. rewrite length_app, Nat2Z.inj_add, <- !app_assoc. done.
Qed.

Lemma decode_pfor_csr_docs plain :
  decode_pfor_payload_csr plain = (docs ← decode_pfor_payload plain; Ok (to_csr docs)).
Proof.
  unfold decode_pfor_payload_csr, decode_pfor_payload, run_reader, whole, mbind, reader_bind.
  destruct (read_pfor_columns (source plain)) as [[[cs ds] src]| |]; [|done|done].
  unfold lift. rewrite split_csr_docs.
  destruct (split_docs ds cs 0) as [docs| |]; [|done|done]. cbn.
  by destruct (eof src).
Qed.

Lemma read_positions_length n first prev src docs src' :
  read_positions n first prev src = Ok (docs, src') → length docs = n.
Proof.
  revert first prev src docs. induction n as [|n IH]; intros first prev src docs; cbn [read_positions].
  { by intros [= <- <-]. }
  unfold mbind, reader_bind. destruct (get_varint32 src) as [[d src1]| |]; [|done|done]. cbv zeta.
  destruct (read_positions n false _ src1) as [[rest src2]| |] eqn:Hr; [|done|done].
  intros [= <- <-]. cbn. f_equal. by eapply IH.
Qed.

Lemma safe_read_positions n first prev : safe (read_positions n first prev).
Proof.
  revert first prev. induction n as [|n IH]; intros first prev; cbn [read_positions]; [by apply safe_ret|].
  eapply safe_bind; [apply safe_get_varint32|]. intros d _. cbv zeta.
  eapply safe_bind; [apply IH|]. intros r _. by apply safe_ret.
Qed.

Lemma safe_read_doc : safe read_doc.
Proof.
  unfold read_doc. eapply safe_bind; [apply safe_get_varint32|]. intros. apply safe_read_positions.
Qed.

(** With the position count still below its cap, the flat reader follows the
    nested one until the cap is passed. *)
Lemma read_docs_csr_docs n total flat offs src :
  total = zlen flat → total ≤ kMaxWindowPositions → wf_source src →
  match read_n read_doc n src with
  | Ok (docs, src') =>
      if total + zlen (concat docs) <=? kMaxWindowPositions then
        read_docs_csr n total flat offs src = Ok ((flat ++ concat docs, offs ++ csr_offsets total docs), src')
      else ∃ st, read_docs_csr n total flat offs src = Err st
  | Err _ => ∃ st, read_docs_csr n total flat offs src = Err st
  | Undef => False
  end.
Proof.
  revert total flat offs src. induction n as [|n IH]; intros total flat offs src Ht Hcap Hwf; cbn [read_n read_docs_csr].
  { cbn [mret reader_ret concat csr_offsets length]. rewrite Z.add_0_r, (proj2 (Z.leb_le _ _)) by done.
    by rewrite !app_nil_r. }
  rewrite !bind_step. rewrite (bind_step get_varint32 _ src : read_doc src = _).
  pose proof (safe_get_varint32 src Hwf) as Hs.
  destruct (get_varint32 src) as [[c src1]| |]; [|by eexists|done]. destruct Hs as ((Hc0 & Hc) & _ & _ & Hwf1).
  cbv zeta. unfold kMaxWindowPositions in *. change (1 ≪ 26) with 67108864 in *.
  rewrite u64_small by ulia. rewrite !bind_return_if, !bind_step.
  pose proof (safe_read_positions (Z.to_nat c) true 0 src1 Hwf1) as Hs1.
  destruct (read_positions (Z.to_nat c) true 0 src1) as [[doc src2]| |] eqn:Hdoc; cycle 1.
  { destruct (67108864 <? total + c); by eexists. }
  { done. }
  destruct Hs1 as (_ & _ & _ & Hwf2). apply read_positions_length in Hdoc.
  assert (zlen doc = c) as Hlen by lia. rewrite !bind_step.
  pose proof (safe_read_n read_doc _ n safe_read_doc src2 Hwf2) as Hsn.
  specialize (IH (total + c) (flat ++ doc) (offs ++ [u32 (zlen (flat ++ doc))]) src2).
  assert (zlen (flat ++ doc) = total + c) as Hfl by (rewrite length_app; lia).
  destruct (Z.ltb_spec 67108864 (total + c)) as [Hover|Hok].
  { destruct (read_n read_doc n src2) as [[docs src3]| |]; [|by eexists|done].
    unfold mret, reader_ret. cbn [concat]. rewrite length_app, (proj2 (Z.leb_gt _ _)) by lia. by eexists. }
  specialize (IH ltac:(lia) ltac:(lia) Hwf2).
  destruct (read_n read_doc n src2) as [[docs src3]| |]; [|done|done].
  unfold mret, reader_ret. cbn [concat csr_offsets]. rewrite length_app.
  replace (total + Z.of_nat (length doc + length (concat docs))) with (total + c + zlen (concat docs)) by lia.
  destruct (_ <=? 67108864); [|done]. rewrite IH. rewrite <- !app_assoc, Hfl, Hlen. done.
Qed.

(** ** Safety of the decoders *)

Lemma sum_positions_ok deltas n at_ first prev :
  (at_ + n ≤ length deltas)%nat → ∃ doc, sum_positions deltas n at_ first prev = Ok doc ∧ length doc = n.
Proof.
  revert at_ first prev. induction n as [|n IH]; intros at_ first prev Hle; cbn [sum_positions]; [by exists []|].
  destruct (lookup_lt_is_Some_2 deltas at_) as [d ->]; [lia|]. cbv zeta.
  destruct (IH (S at_) false (if first then d else u32 (prev + d))) as (doc & -> & Hl); [lia|].
  eexists. split; [done|]. cbn. by rewrite Hl.
Qed.

Lemma split_docs_ok deltas cs off :
  Forall (λ c, 0 ≤ c) cs → Z.of_nat off + foldr Z.add 0 cs ≤ zlen deltas →
  ∃ docs, split_docs deltas cs off = Ok docs ∧ zlen (concat docs) = foldr Z.add 0 cs.
Proof.
  intros Hcs. revert off. induction Hcs as [|c cs Hc Hcs IH]; intros off Hle; cbn [split_docs foldr] in *; [by exists []|].
  assert (0 ≤ foldr Z.add 0 cs) by (clear -Hcs; induction Hcs; cbn; lia).
  destruct (sum_positions_ok deltas (Z.to_nat c) off true 0) as (doc & -> & Hl); [lia|]. rewrite bind_Ok.
  destruct (IH (off + Z.to_nat c)%nat) as (docs & -> & Hd); [lia|].
  exists (doc :: docs). split; [done|]. cbn [concat]. rewrite length_app. lia.
Qed.

Lemma safe_read_pfor_columns :
  safe_post read_pfor_columns (λ '(cs, ds), Forall (λ c, 0 ≤ c) cs ∧
    foldr Z.add 0 cs = zlen ds ∧ zlen ds ≤ kMaxWindowPositions).
Proof.
  unfold read_pfor_columns.
  eapply safe_bind; [apply safe_get_varint32|]. intros dc [Hdc _].
  eapply safe_bind; [apply safe_get_varint32|]. intros tp [Htp _].
  eapply safe_bind; [apply safe_return_if|]. intros [] Hc1. cbn beta in Hc1. apply Z.ltb_ge in Hc1.
  eapply safe_bind; [apply safe_return_if|]. intros [] Hc2. cbn beta in Hc2. apply Z.ltb_ge in Hc2.
  eapply safe_bind; [by apply safe_decode_pfor_runs|]. intros cs [Hlen Hcs].
  eapply safe_bind; [apply safe_return_if|]. intros [] Hsum. cbn beta in Hsum.
  apply negb_false_iff, Z.eqb_eq in Hsum.
  eapply safe_bind; [by apply safe_decode_pfor_runs|]. intros ds [Hd _].
  apply safe_ret. assert (Forall (λ c, 0 ≤ c) cs) as Hnn by (eapply Forall_impl; [exact Hcs|]; intros ? [? _]; done).
  split_and!; [done| |lia].
  rewrite Hd, <- Hsum. symmetry.
  assert (foldr Z.add 0 cs ≤ 2 ^ 32 * zlen cs) as Hb.
  { clear -Hcs. induction Hcs as [|c cs [_ Hc] Hcs IH]; cbn [foldr length]; lia. }
  unfold kMaxWindowDocs in Hc2. change (1 ≪ 24) with 16777216 in Hc2.
  rewrite sum_u64_counts; [lia|done|lia|lia].
Qed.

Lemma decode_pfor_payload_ok plain :
  match decode_pfor_payload plain with
  | Ok docs => zlen (concat docs) ≤ kMaxWindowPositions
  | Err _ => True
  | Undef => False
  end.
Proof.
  unfold decode_pfor_payload.
  assert (safe_post ('(pos_counts, deltas) ← read_pfor_columns; lift (split_docs deltas pos_counts 0))
    (λ docs, zlen (concat docs) ≤ kMaxWindowPositions)) as Hs.
  { eapply safe_bind; [apply safe_read_pfor_columns|]. intros [cs ds] (Hnn & Hsum & Hcap).
    destruct (split_docs_ok ds cs 0 Hnn ltac:(lia)) as (docs & -> & Hl).
    apply safe_lift; [done|]. intros ? [= <-]. lia. }
  destruct (safe_run _ _ plain (safe_whole _ "prx: trailing bytes after pfor payload" _ Hs)) as [Hd Hp].
  destruct (run_reader _ plain) as [docs| |]; [by apply Hp|done|done].
Qed.

Lemma decode_payload_csr_docs plain :
  match decode_payload plain with
  | Ok docs =>
      if zlen (concat docs) <=? kMaxWindowPositions then decode_payload_csr plain = Ok (to_csr docs)
      else ∃ st, decode_payload_csr plain = Err st
  | Err _ => ∃ st, decode_payload_csr plain = Err st
  | Undef => False
  end.
Proof.
  unfold decode_payload, decode_payload_csr, run_reader, whole, read_docs.
  rewrite !bind_bind, !(bind_step get_varint32).
  assert (wf_source (source plain)) as Hwf by (unfold wf_source; cbn; lia).
  pose proof (safe_get_varint32 _ Hwf) as Hs.
  destruct (get_varint32 (source plain)) as [[c src]| |]; [|by eexists|done].
  destruct Hs as (_ & _ & _ & Hw). rewrite !bind_bind, !bind_return_if.
  destruct (kMaxWindowDocs <? c); [by eexists|].
  pose proof (read_docs_csr_docs (Z.to_nat c) 0 [] [0] src eq_refl ltac:(done) Hw) as H.
  rewrite !bind_step.
  destruct (read_n read_doc (Z.to_nat c) src) as [[docs src']| |]; [| |done].
  - rewrite !bind_step. unfold get_eof. rewrite bind_return_if.
    rewrite Z.add_0_l in H. destruct (zlen (concat docs) <=? kMaxWindowPositions) eqn:Hcap.
    + rewrite H, bind_step. unfold get_eof. rewrite bind_return_if. cbn [app].
      destruct (negb (eof src')); [by eexists|]. cbn. by rewrite Hcap.
    + destruct H as [st Hst]. rewrite Hst. destruct (negb (eof src')); cbn; [by eexists|]. rewrite Hcap. by eexists.
  - destruct H as [st' Hst]. rewrite Hst. by eexists.
Qed.

Lemma safe_read_framed : safe_post read_framed (λ _, True).
Proof.
  apply safe_runs. intros src Hsrc. unfold read_framed.
  eapply runs_bind; [by apply runs_get_position|]. intros start s1 _ _ Hw1 [-> ->].
  eapply runs_bind; [by apply runs_safe, Hw1; apply safe_get_u8|]. intros c s2 Hs2 Hp2 Hw2 _.
  eapply runs_bind; [by apply runs_return_if|]. intros [] s3 _ _ Hw3 [_ ->].
  eapply runs_bind; [by apply runs_safe, Hw2; apply safe_get_varint32|]. intros n s4 Hs4 Hp4 Hw4 [Hn _].
  eapply runs_bind; [by apply runs_return_if|]. intros [] s5 _ _ Hw5 [_ ->].
  eapply (runs_bind _ _ _ (λ l _, 0 ≤ l)).
  { apply runs_safe; [|done]. destruct (c =? PrxCodec_kZstd); [|by apply safe_ret].
    eapply safe_weaken; [apply safe_get_varint32|]. intros ? [? _]. done. }
  intros l s6 Hs6 Hp6 Hw6 Hl.
  eapply runs_bind; [by apply runs_get_bytes|]. intros p s7 Hs7 Hp7 Hw7 _.
  eapply runs_bind; [by apply runs_get_position|]. intros pos s8 _ _ Hw8 [-> ->].
  eapply runs_bind; [by apply runs_safe, Hw7; apply safe_get_fixed32|]. intros st s9 Hs9 Hp9 Hw9 _.
  eapply runs_bind; [apply runs_slice_from; (done || lia)|]. intros cov s10 _ _ Hw10 [-> ->].
  eapply runs_bind; [by apply runs_return_if|]. intros [] s11 _ _ Hw11 _.
  by apply runs_ret.
Qed.

(** ** Properties *)

Section Properties.
Context `{ZstdLaws}.

(** The window the encoder appends for ascending docs, whatever the level. *)
Lemma build_prx_window_ok pd level sink :
  wf_docs pd → forallb (λ doc, ascending doc) pd = true →
  zlen (plain_payload pd) ≤ kMaxWindowUncompBytes → zlen (pfor_payload pd) ≤ kMaxWindowUncompBytes →
  ∃ codec n payload,
    build_prx_window pd level sink =
      Ok (sink ++ frame_bytes codec n payload ++ fixed32 (crc32c (frame_bytes codec n payload))) ∧
    wf_frame codec n payload ∧
    (codec = PrxCodec_kPfor ∧ payload = pfor_payload pd ∨
     codec = PrxCodec_kRaw ∧ payload = plain_payload pd ∨
     codec = PrxCodec_kZstd ∧ zstd_decompress payload n = Ok (plain_payload pd)).
Proof.
  intros Hwf Ha Hp Hq. unfold build_prx_window.
  pose proof Hp as Hp'. pose proof Hq as Hq'. unfold kMaxWindowUncompBytes in Hp', Hq'.
  pose proof (plain_payload_bytes pd (proj1 Hwf)) as Hpb. pose proof (pfor_payload_bytes pd Hwf) as Hqb.
  destruct (0 <=? level).
  - rewrite encode_payload_spec, Ha, bind_Ok by done. unfold write_plain.
    destruct (should_compress level (zlen (plain_payload pd))); cbn [negb].
    + unfold write_zstd.
      destruct (zstd_roundtrip (plain_payload pd) (if 0 <? level then level else kDefaultZstdLevel) Hpb)
        as (comp & -> & Hcb & Hdec & Hlen). rewrite bind_Ok.
      assert (zlen (plain_payload pd) / 256 ≤ zlen (plain_payload pd)) by dlia.
      exists PrxCodec_kZstd, (zlen (plain_payload pd)), comp. rewrite !u32_small by ulia. split.
      * unfold write_framed, frame_bytes. cbn [PrxCodec_kZstd Z.eqb Pos.eqb]. by autorewrite with sink.
      * split; [|by right; right]. unfold wf_frame. split_and!; [by right; left|lia|done|ulia|done|done].
    + exists PrxCodec_kRaw, (zlen (plain_payload pd)), (plain_payload pd). unfold write_raw. rewrite u32_small by ulia. split.
      * unfold write_framed, frame_bytes. cbn [PrxCodec_kRaw PrxCodec_kZstd Z.eqb]. by autorewrite with sink.
      * split; [|by right; left]. unfold wf_frame. split_and!; [by left|lia|done|ulia|done|done].
  - rewrite encode_pfor_payload_spec, Ha, bind_Ok by done.
    exists PrxCodec_kPfor, (zlen (pfor_payload pd)), (pfor_payload pd). unfold write_pfor. rewrite u32_small by ulia. split.
    + unfold write_framed, frame_bytes. cbn [PrxCodec_kPfor PrxCodec_kZstd Z.eqb Pos.eqb]. by autorewrite with sink.
    + split; [|by left]. unfold wf_frame. split_and!; [by right; right|lia|done|ulia|done|done].
Qed.

(** C37: positions that ascend within each doc come back from the window that was
    built of them, with any of the three codecs, and the cursor ends behind it;
    other positions are refused. *)
Theorem prx_window_roundtrip pd level sink post :
  wf_docs pd →
  zlen (plain_payload pd) ≤ kMaxWindowUncompBytes → zlen (pfor_payload pd) ≤ kMaxWindowUncompBytes →
  (Forall (Sorted Z.le) pd →
   ∃ bs, build_prx_window pd level sink = Ok (sink ++ bs) ∧
     read_prx_window (mkByteSource ((sink ++ bs) ++ post) (length sink)) =
       Ok (pd, mkByteSource ((sink ++ bs) ++ post) (length (sink ++ bs)))) ∧
  (¬ Forall (Sorted Z.le) pd → build_prx_window pd level sink = Err ascending_error).
Proof.
  intros Hwf Hp Hq. pose proof (ascending_docs_forallb pd) as Hasc. unfold ascending_docs in Hasc. split.
  - intros Hs. apply Hasc in Hs.
    destruct (build_prx_window_ok pd level sink Hwf Hs Hp Hq) as (codec & n & payload & Hb & Hf & Hdec).
    eexists. split; [exact Hb|]. rewrite <- !app_assoc, !length_app.
    unfold read_prx_window, read_window.
    pose proof (reads_framed codec n payload Hf sink post) as Hr. rewrite <- app_assoc in Hr.
    rewrite bind_step, Hr. rewrite !length_app.
    destruct Hdec as [[-> ->]|[[-> ->]|[-> Hz]]]; cbn [PrxCodec_kPfor PrxCodec_kRaw PrxCodec_kZstd Z.eqb Pos.eqb].
    + unfold lift. by rewrite decode_pfor_payload_spec.
    + unfold lift. by rewrite decode_payload_spec.
    + rewrite bind_lift, Hz, bind_Ok. unfold lift. by rewrite decode_payload_spec.
  - intros Hs. unfold build_prx_window. rewrite encode_payload_spec, encode_pfor_payload_spec by done.
    destruct (forallb _ pd); [by destruct Hs; apply Hasc|]. by destruct (0 <=? level).
Qed.
End Properties.

(** ** Windows of the automatic codec

    The writer's level is negative: the window is a PFOR payload, built without
    a look at the caps of the reader. *)

Definition auto_payload (pd : list (list Z)) : bytes :=
  encode_varint64 (u32 (zlen pd)) ++ encode_varint64 (u32 (zlen (concat pd))) ++ pfor_runs_bytes (counts pd) ++
  pfor_runs_bytes (all_deltas pd).
Definition auto_window (pd : list (list Z)) : bytes := write_pfor (auto_payload pd) [].

Lemma build_auto_window `{ZstdOps} pd level :
  ascending_docs pd → zlen (concat pd) < 2 ^ 64 → level < 0 →
  build_prx_window_flat (concat pd) (counts pd) level [] = Ok (auto_window pd).
Proof.
  intros Ha Hn Hl. unfold build_prx_window_flat. rewrite (proj2 (Z.leb_gt _ _)) by lia.
  unfold encode_pfor_payload_flat. rewrite check_flat_partition_counts, bind_Ok by done. cbv zeta.
  pose proof (flat_deltas_spec [] pd []) as Hd. cbn [app length] in Hd. rewrite Hd.
  rewrite (proj2 (ascending_docs_forallb pd) Ha), !bind_Ok. unfold auto_window, auto_payload. rewrite length_map.
  by autorewrite with sink.
Qed.

Lemma auto_window_bound pd :
  Forall is_u32s pd → Forall (λ doc, is_u32 (zlen doc)) pd →
  is_bytes (auto_window pd) ∧ zlen (auto_window pd) ≤ 64 + 36 * (zlen pd + zlen (concat pd)).
Proof.
  intros Hp Hl. assert (is_u32s (counts pd)) as Hc by by apply Forall_map.
  assert (is_u32s (all_deltas pd)) as Hd.
  { apply Forall_concat, Forall_map. eapply Forall_impl; [exact Hp|]. intros doc. apply position_deltas_u32. }
  assert (is_bytes (auto_payload pd)) as Hpb by (unfold auto_payload; auto 10 with snii).
  assert (is_u8 PrxCodec_kPfor) as H8 by by vm_compute.
  unfold auto_window, write_pfor, write_framed. autorewrite with sink. cbn [app]. split.
  - constructor; [done|]. auto 10 with snii.
  - pose proof (pfor_runs_bytes_le _ Hc) as Hlc. pose proof (pfor_runs_bytes_le _ Hd) as Hld.
    rewrite all_deltas_length in Hld. rewrite length_map in Hlc.
    pose proof (encode_varint64_length_le (u32 (zlen pd))). pose proof (encode_varint64_length_le (u32 (zlen (concat pd)))).
    pose proof (encode_varint64_length_le (u32 (zlen (auto_payload pd)))).
    assert (zlen (auto_payload pd) ≤ 20 + 36 * (zlen pd + zlen (concat pd))) by (unfold auto_payload; rewrite !length_app; lia).
    cbn [length]. rewrite !length_app, fixed32_length. lia.
Qed.

(** Within the caps of the reader it is read back. *)
Lemma read_auto_window `{ZstdOps} pd :
  wf_docs pd → ascending_docs pd → zlen (pfor_payload pd) ≤ kMaxWindowUncompBytes →
  run_reader read_prx_window (auto_window pd) = Ok pd.
Proof.
  intros Hwf Ha Hq. pose proof Hwf as (Hu & Hn & Hp). unfold kMaxWindowDocs in Hn. change (1 ≪ 24) with 16777216 in Hn.
  unfold kMaxWindowPositions in Hp. change (1 ≪ 26) with 67108864 in Hp.
  pose proof Hq as Hq'. unfold kMaxWindowUncompBytes in Hq'.
  assert (auto_payload pd = pfor_payload pd) as Hpl by (unfold auto_payload, pfor_payload; by rewrite !u32_small by ulia).
  set (n := zlen (pfor_payload pd)).
  assert (auto_window pd = frame_bytes PrxCodec_kPfor n (pfor_payload pd) ++
    fixed32 (crc32c (frame_bytes PrxCodec_kPfor n (pfor_payload pd)))) as ->.
  { unfold auto_window. rewrite Hpl. unfold write_pfor. rewrite u32_small by ulia. unfold write_framed, frame_bytes.
    cbn [PrxCodec_kPfor PrxCodec_kZstd Z.eqb Pos.eqb]. by autorewrite with sink. }
  assert (wf_frame PrxCodec_kPfor n (pfor_payload pd)) as Hf.
  { unfold wf_frame. split_and!; [by right; right|subst n; lia|done|subst n; ulia|by apply pfor_payload_bytes|done]. }
  unfold run_reader, read_prx_window, read_window. pose proof (reads_framed _ _ _ Hf [] []) as Hr.
  rewrite app_nil_r in Hr. cbn [app length] in Hr. unfold source. rewrite bind_step, Hr.
  cbn [PrxCodec_kPfor PrxCodec_kRaw PrxCodec_kZstd Z.eqb Pos.eqb]. unfold lift.
  rewrite decode_pfor_payload_spec; [done|done|]. by apply ascending_docs_forallb.
Qed.

(** the flat builder writes the bytes, and makes the refusals, of the nested
    builder on the same positions. *)
Theorem prx_build_flat_nested `{ZstdOps} pd level sink :
  Forall (λ doc, is_u32 (zlen doc)) pd → zlen (concat pd) < 2 ^ 64 →
  build_prx_window_flat (concat pd) (map (λ doc : list Z, zlen doc) pd) level sink =
    build_prx_window pd level sink.
Proof.
  intros Hl Ht. unfold build_prx_window_flat, build_prx_window.
  assert (encode_payload_flat (concat pd) (counts pd) [] = encode_payload pd []) as ->.
  { unfold encode_payload_flat, encode_payload. rewrite check_flat_partition_counts, bind_Ok by done.
    rewrite length_map. by apply (encode_docs_flat_nested []). }
  unfold encode_pfor_payload. by rewrite counts_u32.
Qed.

(** on any bytes, reading a window into the flat buffer gives the nested
    lists flattened, with their offsets, from the same place to the same place;
    it refuses what the nested reader refuses, and beyond that only windows of
    more positions than the cap. Neither reader leaves the buffer. *)
Theorem prx_read_csr_nested `{ZstdOps} src :
  wf_source src →
  match read_prx_window src with
  | Ok (docs, src') =>
      if zlen (concat docs) <=? kMaxWindowPositions then read_prx_window_csr src = Ok (to_csr docs, src')
      else ∃ st, read_prx_window_csr src = Err st
  | Err _ => ∃ st, read_prx_window_csr src = Err st
  | Undef => False
  end.
Proof.
  intros Hwf. unfold read_prx_window, read_prx_window_csr, read_window. rewrite !bind_step.
  pose proof (safe_read_framed src Hwf) as Hs.
  destruct (read_framed src) as [[[[codec n] payload] src1]| |]; [|by eexists|done].
  assert (∀ plain, match lift (decode_payload plain) src1 with
    | Ok (docs, src') =>
        if zlen (concat docs) <=? kMaxWindowPositions
        then lift (decode_payload_csr plain) src1 = Ok (to_csr docs, src')
        else ∃ st, lift (decode_payload_csr plain) src1 = Err st
    | Err _ => ∃ st, lift (decode_payload_csr plain) src1 = Err st
    | Undef => False
    end) as Hplain.
  { intros plain. pose proof (decode_payload_csr_docs plain) as Hd. unfold lift.
    destruct (decode_payload plain) as [docs| |]; [|by destruct Hd as [? ->]; eexists|done].
    cbn [mbind result_bind]. destruct (zlen (concat docs) <=? kMaxWindowPositions); [by rewrite Hd|].
    destruct Hd as [? ->]. by eexists. }
  destruct (codec =? PrxCodec_kPfor); [|destruct (codec =? PrxCodec_kRaw)].
  - unfold lift. rewrite decode_pfor_csr_docs. pose proof (decode_pfor_payload_ok payload) as Hd.
    destruct (decode_pfor_payload payload) as [docs| |]; [|by eexists|done].
    rewrite !bind_Ok. by rewrite (proj2 (Z.leb_le _ _)).
  - apply Hplain.
  - rewrite !bind_lift. pose proof (zstd_decompress_defined payload n) as Hd.
    destruct (zstd_decompress payload n) as [plain| |]; [|by eexists|done]. rewrite !bind_Ok. apply Hplain.
Qed.

(** a window whose framed bytes changed within four consecutive ones (with
    the length fields left alone) is refused. *)
Theorem prx_window_rejects_burst `{ZstdOps} codec n pre v post w before after :
  wf_frame codec n (pre ++ v ++ post) → length w = length v → (length v ≤ 4)%nat → is_bytes w → w ≠ v →
  read_prx_window (mkByteSource (before ++ (frame_bytes codec n (pre ++ w ++ post) ++
      fixed32 (crc32c (frame_bytes codec n (pre ++ v ++ post)))) ++ after) (length before)) =
    Err (Corruption "prx: window crc mismatch").
Proof.
  intros Hf Hlw H4 Hw Hne. pose proof (frame_is_bytes _ _ _ Hf) as Hfb.
  pose proof Hf as (Hc & Hn & Hpl & Hp & Hraw).
  assert (zlen (pre ++ w ++ post) = zlen (pre ++ v ++ post)) as Hz by (rewrite !length_app; lia).
  pose proof Hp as Hp'. apply Forall_app in Hp' as [Hpre Hp']. apply Forall_app in Hp' as [Hv Hpost].
  assert (wf_frame codec n (pre ++ w ++ post)) as Hfw.
  { unfold wf_frame. rewrite Hz. split_and!; try done; [lia|lia|]. auto with snii. }
  unfold read_prx_window, read_window. rewrite bind_step.
  rewrite read_framed_layout by (done || by apply crc32c_range).
  rewrite (proj2 (Z.eqb_neq _ _)); [done|]. unfold frame_bytes in *. rewrite Hz.
  set (hdr := if codec =? PrxCodec_kZstd then _ else _) in *.
  apply Forall_app in Hfb as [Hb1 Hfb]. apply Forall_app in Hfb as [Hb2 Hfb]. apply Forall_app in Hfb as [Hb3 _].
  rewrite !(app_assoc [codec]), !(app_assoc _ hdr), !(app_assoc _ pre).
  apply crc32c_burst; try done; [|lia]. auto with snii.
Qed.

(** ** Witnesses *)

Definition sample_docs : list (list Z) := [[3; 7; 7]; []; [0; 1000]].

Lemma sample_docs_wf : wf_docs sample_docs.
Proof. split; [repeat constructor; lia|]. split; vm_compute; discriminate. Qed.

Lemma prx_window_roundtrip_witness :
  ∃ bs, build_prx_window sample_docs (-1) [9] = Ok ([9] ++ bs) ∧
    read_prx_window (mkByteSource (([9] ++ bs) ++ [8]) 1) =
      Ok (sample_docs, mkByteSource (([9] ++ bs) ++ [8]) (length ([9] ++ bs))).
Proof.
  apply (prx_window_roundtrip sample_docs (-1) [9] [8] sample_docs_wf);
    [vm_compute; discriminate|vm_compute; discriminate|].
  repeat constructor; lia.
Defined.

Lemma prx_build_flat_nested_witness :
  build_prx_window_flat [3; 7; 7; 0; 1000] [3; 0; 2] 0 [] = build_prx_window sample_docs 0 [].
Proof. apply (prx_build_flat_nested sample_docs 0 []); [repeat constructor; cbn; lia|reflexivity]. Defined.

Lemma prx_read_csr_nested_witness :
  match read_prx_window (source [2; 1; 1; 0]) with
  | Ok (docs, src') =>
      if zlen (concat docs) <=? kMaxWindowPositions
      then read_prx_window_csr (source [2; 1; 1; 0]) = Ok (to_csr docs, src')
      else ∃ st, read_prx_window_csr (source [2; 1; 1; 0]) = Err st
  | Err _ => ∃ st, read_prx_window_csr (source [2; 1; 1; 0]) = Err st
  | Undef => False
  end.
Proof. apply (prx_read_csr_nested (source [2; 1; 1; 0])). unfold wf_source. cbn. lia. Defined.

Lemma prx_window_rejects_burst_witness :
  read_prx_window (mkByteSource ([] ++ (frame_bytes 0 3 ([1] ++ [2] ++ [0]) ++
      fixed32 (crc32c (frame_bytes 0 3 ([1] ++ [1] ++ [0])))) ++ []) 0) =
    Err (Corruption "prx: window crc mismatch").
Proof.
  apply (prx_window_rejects_burst 0 3 [1] [1] [0] [2] [] []).
  - unfold wf_frame. split_and!; [by left|lia|vm_compute; discriminate|split; cbn; lia|auto with snii|done].
  - reflexivity.
  - cbn. lia.
  - auto with snii.
  - discriminate.
Defined.
