(* ===== verification/PerIndexMeta.v ===== *)
(** * PerIndexMeta: the metadata block of one logical index.

    [format/per_index_meta.h] and [format/per_index_meta.cpp]. The block is a
    header with its own checksum and a sequence of framed sections; [open] walks
    the sections in any order, keeps the last one of each known type and skips
    the others. A frame takes at least one byte, so one more round than the
    block has bytes is fuel enough ([open_loop_defined]); running out of fuel is
    [Undef]. *)

From S2P Require Import Prelude Status Varint ByteIO Crc32c SectionFramer FormatConstants StatsBlock.

#[local] Open Scope Z_scope.

Definition kMaxSuffixLen : Z := 64 * 1024.
Definition kHasPositions : Z := 1.
Definition kHasBsbf : Z := 2.

Record RegionRef := mkRegionRef { offset : Z; length_ : Z }.

Record SectionRefs := mkSectionRefs {
  dict_region : RegionRef;
  posting_region : RegionRef;
  norms : RegionRef;
  null_bitmap : RegionRef;
  bsbf : RegionRef
}.

Definition no_region : RegionRef := mkRegionRef 0 0.
Definition no_refs : SectionRefs := mkSectionRefs no_region no_region no_region no_region no_region.
Definition no_stats : StatsBlock := mkStatsBlock 0 0 0 0 0.

Definition encode_region (r : RegionRef) (payload : ByteSink) : ByteSink :=
  payload |> put_varint64 (offset r) |> put_varint64 (length_ r).

Definition decode_region : reader RegionRef :=
  offset ← get_varint64;
  len ← get_varint64;
  mret (mkRegionRef offset len).

Definition encode_section_refs (refs : SectionRefs) (sink : ByteSink) : ByteSink :=
  let payload := [] |> encode_region (dict_region refs) |> encode_region (posting_region refs)
    |> encode_region (norms refs) |> encode_region (null_bitmap refs) |> encode_region (bsbf refs) in
  SectionFramer.write sink (section_type_u8 kSectionRefs) payload.

Definition read_section_refs : reader SectionRefs :=
  dict_region ← decode_region;
  posting_region ← decode_region;
  norms ← decode_region;
  null_bitmap ← decode_region;
  bsbf ← decode_region;
  mret (mkSectionRefs dict_region posting_region norms null_bitmap bsbf).

Definition decode_section_refs (payload : Slice) : result SectionRefs :=
  run_reader (whole read_section_refs "per_index_meta: trailing bytes in section_refs") payload.

(** ** Builder *)

Record PerIndexMetaBuilder := mkPerIndexMetaBuilder {
  b_index_id_ : Z;
  b_index_suffix_ : bytes;
  b_flags_ : Z;
  b_stats_ : StatsBlock;
  b_sampled_term_index_ : bytes;
  b_dict_block_directory_ : bytes;
  b_section_refs_ : SectionRefs;
  b_extra_sections_ : list bytes
}.

Definition new_builder (index_id : Z) (index_suffix : bytes) (flags : Z) : PerIndexMetaBuilder :=
  mkPerIndexMetaBuilder index_id index_suffix flags no_stats [] [] no_refs [].

Definition set_stats (stats : StatsBlock) (b : PerIndexMetaBuilder) : PerIndexMetaBuilder :=
  mkPerIndexMetaBuilder (b_index_id_ b) (b_index_suffix_ b) (b_flags_ b) stats
    (b_sampled_term_index_ b) (b_dict_block_directory_ b) (b_section_refs_ b) (b_extra_sections_ b).
Definition set_sampled_term_index (framed_bytes : Slice) (b : PerIndexMetaBuilder) : PerIndexMetaBuilder :=
  mkPerIndexMetaBuilder (b_index_id_ b) (b_index_suffix_ b) (b_flags_ b) (b_stats_ b)
    framed_bytes (b_dict_block_directory_ b) (b_section_refs_ b) (b_extra_sections_ b).
Definition set_dict_block_directory (framed_bytes : Slice) (b : PerIndexMetaBuilder) : PerIndexMetaBuilder :=
  mkPerIndexMetaBuilder (b_index_id_ b) (b_index_suffix_ b) (b_flags_ b) (b_stats_ b)
    (b_sampled_term_index_ b) framed_bytes (b_section_refs_ b) (b_extra_sections_ b).
Definition set_section_refs (refs : SectionRefs) (b : PerIndexMetaBuilder) : PerIndexMetaBuilder :=
  mkPerIndexMetaBuilder (b_index_id_ b) (b_index_suffix_ b) (b_flags_ b) (b_stats_ b)
    (b_sampled_term_index_ b) (b_dict_block_directory_ b) refs (b_extra_sections_ b).
Definition add_raw_section (framed_bytes : Slice) (b : PerIndexMetaBuilder) : PerIndexMetaBuilder :=
  mkPerIndexMetaBuilder (b_index_id_ b) (b_index_suffix_ b) (b_flags_ b) (b_stats_ b)
    (b_sampled_term_index_ b) (b_dict_block_directory_ b) (b_section_refs_ b)
    (b_extra_sections_ b ++ [framed_bytes]).

Definition encode_header (index_id : Z) (suffix : bytes) (flags : Z) (sink : ByteSink) : ByteSink :=
  let head := [] |> put_fixed16 kMetaFormatVersion |> put_varint64 index_id
    |> put_varint32 (u32 (zlen suffix)) |> put_bytes suffix |> put_fixed32 flags in
  let crc := crc32c head in
  sink |> put_bytes head |> put_fixed32 crc.

Definition finish (b : PerIndexMetaBuilder) (sink : ByteSink) : ByteSink :=
  let sink := sink |> encode_header (b_index_id_ b) (b_index_suffix_ b) (b_flags_ b)
    |> encode_stats_block (b_stats_ b) |> put_bytes (b_sampled_term_index_ b)
    |> put_bytes (b_dict_block_directory_ b) |> encode_section_refs (b_section_refs_ b) in
  put_each put_bytes (b_extra_sections_ b) sink.

(** ** Reader *)

Record PerIndexMetaReader := mkPerIndexMetaReader {
  index_id_ : Z;
  index_suffix_ : bytes;
  flags_ : Z;
  stats_ : StatsBlock;
  section_refs_ : SectionRefs;
  sampled_term_index_ : Slice;
  dict_block_directory_ : Slice
}.

(** [index_id], [suffix] and [flags]. *)
Definition decode_header (block : Slice) : reader (Z * bytes * Z) :=
  start ← get_position;
  version ← get_fixed16;
  _ ← return_if (negb (version =? kMetaFormatVersion))
        (Corruption "per_index_meta: unsupported meta_format_version");
  index_id ← get_varint64;
  suffix_len ← get_varint32;
  rest ← get_remaining;
  _ ← return_if ((kMaxSuffixLen <? suffix_len) || (rest <? suffix_len))
        (Corruption "per_index_meta: suffix_len exceeds bounds");
  suffix_view ← get_bytes suffix_len;
  flags ← get_fixed32;
  pos ← get_position;
  let covered := pos - start in
  stored ← get_fixed32;
  head ← lift (subslice block start covered);
  _ ← return_if (negb (crc32c head =? stored)) (Corruption "per_index_meta: header crc mismatch");
  mret (index_id, suffix_view, flags).

Definition read_frame (block : Slice) : reader (Z * Slice) :=
  start ← get_position;
  sec ← SectionFramer.read;
  pos ← get_position;
  frame ← lift (subslice block start (pos - start));
  mret (type sec, frame).

(** The reader under construction with [have_stats] and [have_refs]. *)
Record OpenState := mkOpenState { out : PerIndexMetaReader; have_stats : bool; have_refs : bool }.

Definition with_stats (s : StatsBlock) (r : PerIndexMetaReader) : PerIndexMetaReader :=
  mkPerIndexMetaReader (index_id_ r) (index_suffix_ r) (flags_ r) s (section_refs_ r)
    (sampled_term_index_ r) (dict_block_directory_ r).
Definition with_refs (s : SectionRefs) (r : PerIndexMetaReader) : PerIndexMetaReader :=
  mkPerIndexMetaReader (index_id_ r) (index_suffix_ r) (flags_ r) (stats_ r) s
    (sampled_term_index_ r) (dict_block_directory_ r).
Definition with_sampled (f : Slice) (r : PerIndexMetaReader) : PerIndexMetaReader :=
  mkPerIndexMetaReader (index_id_ r) (index_suffix_ r) (flags_ r) (stats_ r) (section_refs_ r)
    f (dict_block_directory_ r).
Definition with_dict (f : Slice) (r : PerIndexMetaReader) : PerIndexMetaReader :=
  mkPerIndexMetaReader (index_id_ r) (index_suffix_ r) (flags_ r) (stats_ r) (section_refs_ r)
    (sampled_term_index_ r) f.

Definition dispatch_frame (t : Z) (frame : Slice) (r : PerIndexMetaReader) : PerIndexMetaReader :=
  if t =? section_type_u8 kSampledTermIndex then with_sampled frame r
  else if t =? section_type_u8 kDictBlockDirectory then with_dict frame r
  else r.

(** The body of the [while] loop, on the frame just read. *)
Definition take_frame (t : Z) (frame : Slice) (st : OpenState) : result OpenState :=
  if t =? section_type_u8 kStatsBlock then
    s ← run_reader decode_stats_block frame;
    Ok (mkOpenState (with_stats s (out st)) true (have_refs st))
  else if t =? section_type_u8 kSectionRefs then
    sec ← run_reader SectionFramer.read frame;
    refs ← decode_section_refs (payload sec);
    Ok (mkOpenState (with_refs refs (out st)) (have_stats st) true)
  else Ok (mkOpenState (dispatch_frame t frame (out st)) (have_stats st) (have_refs st)).

Fixpoint open_loop (fuel : nat) (block : Slice) (st : OpenState) (src : ByteSource) : result OpenState :=
  match fuel with
  | O => Undef
  | S fuel =>
      if eof src then Ok st
      else
        '((t, frame), src) ← read_frame block src;
        st ← take_frame t frame st;
        open_loop fuel block st src
  end.

Definition open (block : Slice) : result PerIndexMetaReader :=
  '((index_id, suffix, flags), src) ← decode_header block (source block);
  st ← open_loop (S (length block)) block
         (mkOpenState (mkPerIndexMetaReader index_id suffix flags no_stats no_refs [] []) false false) src;
  _ ← reject_if (negb (have_stats st) || negb (have_refs st))
        (Corruption "per_index_meta: missing required sub-section");
  Ok (out st).

Definition has_bsbf (r : PerIndexMetaReader) : bool := 0 <? length_ (bsbf (section_refs_ r)).
Definition has_positions (r : PerIndexMetaReader) : bool := negb (Z.land (flags_ r) kHasPositions =? 0).

(** ** Layout *)

Definition wf_region (r : RegionRef) : Prop := is_u64 (offset r) ∧ is_u64 (length_ r).
Definition wf_refs (refs : SectionRefs) : Prop :=
  wf_region (dict_region refs) ∧ wf_region (posting_region refs) ∧ wf_region (norms refs) ∧
  wf_region (null_bitmap refs) ∧ wf_region (bsbf refs).

Definition region_bytes (r : RegionRef) : bytes := encode_varint64 (offset r) ++ encode_varint64 (length_ r).
Definition refs_payload (refs : SectionRefs) : bytes :=
  region_bytes (dict_region refs) ++ region_bytes (posting_region refs) ++ region_bytes (norms refs) ++
  region_bytes (null_bitmap refs) ++ region_bytes (bsbf refs).

Lemma encode_region_app r sink : encode_region r sink = sink ++ region_bytes r.
Proof. unfold encode_region, region_bytes. by autorewrite with sink. Qed.
#[local] Hint Rewrite encode_region_app : sink.

Lemma encode_section_refs_app refs sink :
  encode_section_refs refs sink = sink ++ section_bytes (section_type_u8 kSectionRefs) (refs_payload refs).
Proof. unfold encode_section_refs. autorewrite with sink. unfold refs_payload. done. Qed.

Lemma refs_payload_bytes refs : is_bytes (refs_payload refs).
Proof. unfold refs_payload, region_bytes. rewrite !Forall_app. split_and!; auto with snii. Qed.

Lemma refs_payload_length refs : is_u64 (zlen (refs_payload refs)).
Proof.
  assert (∀ r, (length (region_bytes r) ≤ 20)%nat) as Hr.
  { intros r. unfold region_bytes. pose proof (encode_varint64_length_le (offset r)).
    pose proof (encode_varint64_length_le (length_ r)). solve_len. }
  unfold refs_payload. pose proof (Hr (dict_region refs)). pose proof (Hr (posting_region refs)).
  pose proof (Hr (norms refs)). pose proof (Hr (null_bitmap refs)). pose proof (Hr (bsbf refs)).
  rewrite !length_app. unfold is_u64. lia.
Qed.

Lemma reads_region r : wf_region r → reads decode_region (region_bytes r) r.
Proof. intros []. destruct r. unfold decode_region, region_bytes. do 2 reads_step. apply reads_ret. Qed.

Lemma reads_section_refs refs : wf_refs refs → reads read_section_refs (refs_payload refs) refs.
Proof.
  intros (?&?&?&?&?). destruct refs. unfold read_section_refs, refs_payload. cbn in *.
  do 4 (eapply reads_bind; [by apply reads_region|]). eapply reads_last; [by apply reads_region|]. apply reads_ret.
Qed.

Definition head_bytes (index_id : Z) (suffix : bytes) (flags : Z) : bytes :=
  fixed16 kMetaFormatVersion ++ encode_varint64 index_id ++ encode_varint64 (zlen suffix) ++ suffix ++
  fixed32 flags.

Definition wf_header (index_id : Z) (suffix : bytes) (flags : Z) : Prop :=
  is_u64 index_id ∧ is_bytes suffix ∧ zlen suffix ≤ kMaxSuffixLen ∧ is_u32 flags.

Lemma encode_header_app index_id suffix flags sink :
  wf_header index_id suffix flags →
  encode_header index_id suffix flags sink =
    sink ++ head_bytes index_id suffix flags ++ fixed32 (crc32c (head_bytes index_id suffix flags)).
Proof.
  intros (_ & _ & Hs & _). unfold encode_header, kMaxSuffixLen in *.
  assert (([] |> put_fixed16 kMetaFormatVersion |> put_varint64 index_id |> put_varint32 (u32 (zlen suffix))
    |> put_bytes suffix |> put_fixed32 flags) = head_bytes index_id suffix flags) as ->.
  { unfold head_bytes. rewrite u32_small by ulia. by autorewrite with sink. }
  by rewrite put_fixed32_app, put_bytes_app, <- app_assoc.
Qed.

Lemma run_decode_header index_id suffix flags rest :
  wf_header index_id suffix flags →
  let head := head_bytes index_id suffix flags in
  let block := (head ++ fixed32 (crc32c head)) ++ rest in
  decode_header block (source block) =
    Ok ((index_id, suffix, flags), mkByteSource block (length (head ++ fixed32 (crc32c head)))).
Proof.
  intros (Hid & Hsb & Hsl & Hfl) head block. unfold kMaxSuffixLen in Hsl.
  assert (is_bytes head) as Hhb by (subst head; unfold head_bytes; rewrite !Forall_app; split_and!; auto with snii).
  set (crc := crc32c head) in *. assert (is_u32 crc) as Hcrc by by apply crc32c_range.
  assert (block = fixed16 kMetaFormatVersion ++ encode_varint64 index_id ++ encode_varint64 (zlen suffix) ++
    suffix ++ fixed32 flags ++ fixed32 crc ++ rest) as Hblock
    by (subst block head; unfold head_bytes; by rewrite <- !app_assoc).
  unfold decode_header. rewrite bind_get_position. change (Z.of_nat (pos_ (source block))) with 0.
  rewrite (f_equal source Hblock).
  rewrite (bind_reads_source _ _ _ _ kMetaFormatVersion) by (apply reads_get_fixed16; by vm_compute).
  rewrite bind_return_if. change (negb (kMetaFormatVersion =? kMetaFormatVersion)) with false. cbv iota.
  rewrite (bind_reads _ _ _ _ _ index_id) by by apply reads_get_varint64.
  rewrite (bind_reads _ _ _ _ _ (zlen suffix)) by (apply reads_get_varint32; ulia).
  rewrite bind_get_remaining, bind_return_if.
  assert ((kMaxSuffixLen <? zlen suffix) || (zlen (suffix ++ fixed32 flags ++ fixed32 crc ++ rest) <? zlen suffix)
    = false) as ->.
  { apply orb_false_iff. unfold kMaxSuffixLen. split; apply Z.ltb_ge; [lia|]. rewrite length_app. lia. }
  rewrite (bind_reads _ _ _ _ _ suffix) by by apply reads_get_bytes.
  rewrite (bind_reads _ _ _ _ _ flags) by by apply reads_get_fixed32.
  rewrite bind_get_position. cbn [pos_]. cbv zeta.
  rewrite (bind_reads _ _ _ _ _ crc) by by apply reads_get_fixed32.
  rewrite bind_lift.
  assert (subslice block 0 (zlen ((((fixed16 kMetaFormatVersion ++ encode_varint64 index_id) ++
    encode_varint64 (zlen suffix)) ++ suffix) ++ fixed32 flags) - 0) = Ok head) as ->.
  { subst block. rewrite <- app_assoc. apply subslice_app_l. subst head. unfold head_bytes.
    rewrite !length_app. lia. }
  rewrite bind_Ok, bind_return_if. fold crc. rewrite Z.eqb_refl. cbn [negb].
  unfold mret, reader_ret. do 2 f_equal. f_equal.
  - rewrite Hblock. by rewrite <- !app_assoc.
  - subst head. unfold head_bytes. by rewrite <- !app_assoc.
Qed.

(** ** Walking the sections *)

(** A frame of a type and a payload, as [SectionFramer.write] makes it. *)
Definition wf_frame (f : Z * bytes) : Prop := is_u8 f.1 ∧ is_bytes f.2 ∧ is_u64 (zlen f.2).
Definition frame_of (f : Z * bytes) : bytes := section_bytes f.1 f.2.

Lemma frame_of_pos f : (1 ≤ length (frame_of f))%nat.
Proof. unfold frame_of, section_bytes, framed_bytes. rewrite !length_app. cbn [length]. lia. Qed.

Lemma read_frame_at f pre post :
  wf_frame f →
  let block := pre ++ frame_of f ++ post in
  read_frame block (mkByteSource block (length pre)) =
    Ok ((f.1, frame_of f), mkByteSource block (length (pre ++ frame_of f))).
Proof.
  intros (Ht & Hp & Hl) block. unfold read_frame. rewrite bind_get_position. cbn [pos_].
  rewrite bind_step. subst block. unfold frame_of.
  rewrite (reads_section f.1 f.2 Ht Hp Hl pre post).
  rewrite bind_get_position. cbn [pos_]. rewrite bind_lift.
  replace (Z.of_nat (length pre + length (section_bytes f.1 f.2)) - Z.of_nat (length pre))
    with (zlen (section_bytes f.1 f.2)) by lia.
  rewrite subslice_mid, bind_Ok. unfold mret, reader_ret. cbn [type]. by rewrite length_app.
Qed.

(** The effect of the frames, folded over the state. *)
Definition take_frames (fs : list (Z * bytes)) (st : OpenState) : result OpenState :=
  fold_result (λ f st, take_frame f.1 (frame_of f) st) fs st.

Lemma open_loop_frames fuel fs st pre :
  Forall wf_frame fs → (length fs < fuel)%nat →
  let block := pre ++ concat (map frame_of fs) in
  open_loop fuel block st (mkByteSource block (length pre)) = take_frames fs st.
Proof.
  intros Hfs. revert fuel st pre. induction Hfs as [|f fs Hf Hfs IH]; intros fuel st pre Hfuel block;
    subst block; (destruct fuel as [|fuel]; [lia|]); cbn [open_loop map concat].
  { by rewrite app_nil_r, eof_end. }
  pose proof (frame_of_pos f) as Hpos. cbn [length] in Hfuel.
  assert (eof (mkByteSource (pre ++ frame_of f ++ concat (map frame_of fs)) (length pre)) = false) as ->.
  { unfold eof. cbn [s_ pos_]. rewrite !length_app. apply bool_decide_eq_false. lia. }
  rewrite read_frame_at, bind_Ok by done. cbv beta iota. unfold take_frames. cbn [fold_result].
  destruct (take_frame f.1 (frame_of f) st) as [st'| |]; [rewrite !bind_Ok|done|done].
  rewrite (app_assoc pre). apply IH. lia.
Qed.

Definition known_type (t : Z) : bool :=
  (t =? section_type_u8 kStatsBlock) || (t =? section_type_u8 kSectionRefs) ||
  (t =? section_type_u8 kSampledTermIndex) || (t =? section_type_u8 kDictBlockDirectory).

Lemma take_frames_unknown fs st : Forall (λ f, known_type f.1 = false) fs → take_frames fs st = Ok st.
Proof.
  intros Hfs. revert st. induction Hfs as [|f fs Hf Hfs IH]; intros st; unfold take_frames in *;
    cbn [fold_result]; [done|].
  unfold known_type in Hf. apply orb_false_iff in Hf as [Hf H4]. apply orb_false_iff in Hf as [Hf H3].
  apply orb_false_iff in Hf as [H1 H2]. unfold take_frame, dispatch_frame. rewrite H1, H2, H3, H4, bind_Ok.
  rewrite IH. by destruct st.
Qed.

Lemma take_frame_stats sb st :
  wf_stats_block sb →
  take_frame (section_type_u8 kStatsBlock) (frame_of (section_type_u8 kStatsBlock, stats_payload sb)) st =
    Ok (mkOpenState (with_stats sb (out st)) true (have_refs st)).
Proof.
  intros Hsb. unfold take_frame. rewrite Z.eqb_refl. unfold frame_of. cbn [fst snd].
  by rewrite (reads_run _ _ sb), bind_Ok by by apply reads_decode_stats_block.
Qed.

Lemma take_frame_refs refs st :
  wf_refs refs →
  take_frame (section_type_u8 kSectionRefs) (frame_of (section_type_u8 kSectionRefs, refs_payload refs)) st =
    Ok (mkOpenState (with_refs refs (out st)) (have_stats st) true).
Proof.
  intros Hr. unfold take_frame. change (_ =? section_type_u8 kStatsBlock) with false. rewrite Z.eqb_refl.
  unfold frame_of. cbn [fst snd]. cbv iota.
  rewrite (reads_run _ _ (mkFramedSection (section_type_u8 kSectionRefs) (refs_payload refs))), bind_Ok
    by (apply reads_section; [by vm_compute|apply refs_payload_bytes|apply refs_payload_length]).
  cbn [payload]. unfold decode_section_refs.
  by rewrite (run_whole _ _ _ refs), bind_Ok by by apply reads_section_refs.
Qed.

(** ** A finished block *)

Definition sampled_frame (p : bytes) : Z * bytes := (section_type_u8 kSampledTermIndex, p).
Definition dict_frame (p : bytes) : Z * bytes := (section_type_u8 kDictBlockDirectory, p).

Definition block_frames (sb : StatsBlock) (sampled dict : bytes) (refs : SectionRefs)
    (extra : list (Z * bytes)) : list (Z * bytes) :=
  [(section_type_u8 kStatsBlock, stats_payload sb); sampled_frame sampled; dict_frame dict;
   (section_type_u8 kSectionRefs, refs_payload refs)] ++ extra.

Lemma take_block_frames sb sampled dict refs extra r :
  wf_stats_block sb → wf_refs refs → Forall (λ f, known_type f.1 = false) extra →
  take_frames (block_frames sb sampled dict refs extra) (mkOpenState r false false) =
    Ok (mkOpenState (mkPerIndexMetaReader (index_id_ r) (index_suffix_ r) (flags_ r) sb refs
          (frame_of (sampled_frame sampled)) (frame_of (dict_frame dict))) true true).
Proof.
  intros Hsb Hr Hx. unfold block_frames, take_frames. rewrite fold_result_app. cbn [fold_result fst].
  rewrite take_frame_stats, bind_Ok by done.
  assert (∀ st, take_frame (section_type_u8 kSampledTermIndex) (frame_of (sampled_frame sampled)) st =
    Ok (mkOpenState (with_sampled (frame_of (sampled_frame sampled)) (out st)) (have_stats st) (have_refs st)))
    as Hs by done.
  assert (∀ st, take_frame (section_type_u8 kDictBlockDirectory) (frame_of (dict_frame dict)) st =
    Ok (mkOpenState (with_dict (frame_of (dict_frame dict)) (out st)) (have_stats st) (have_refs st)))
    as Hd by done.
  cbn [sampled_frame dict_frame fst] in *. rewrite Hs, bind_Ok, Hd, bind_Ok, take_frame_refs, !bind_Ok by done.
  unfold with_dict, with_sampled, with_refs, with_stats.
  cbn [out have_stats have_refs index_id_ index_suffix_ flags_ stats_ section_refs_ sampled_term_index_
       dict_block_directory_].
  exact (take_frames_unknown extra _ Hx).
Qed.

Lemma open_meta_bytes index_id suffix flags sb sampled dict refs extra :
  wf_header index_id suffix flags → wf_stats_block sb → wf_refs refs →
  wf_frame (sampled_frame sampled) → wf_frame (dict_frame dict) →
  Forall wf_frame extra → Forall (λ f, known_type f.1 = false) extra →
  let head := head_bytes index_id suffix flags in
  open ((head ++ fixed32 (crc32c head)) ++ concat (map frame_of (block_frames sb sampled dict refs extra))) =
    Ok (mkPerIndexMetaReader index_id suffix flags sb refs
          (frame_of (sampled_frame sampled)) (frame_of (dict_frame dict))).
Proof.
  intros Hh Hsb Hr Hfs Hfd Hfx Hx head. subst head. unfold open. rewrite run_decode_header, bind_Ok by done. cbv beta iota.
  assert (Forall wf_frame (block_frames sb sampled dict refs extra)) as Hf.
  { unfold block_frames. apply Forall_app_2; [|done]. repeat apply Forall_cons_2; [|exact Hfs|exact Hfd| |done].
    - split; [by vm_compute|]. split; [apply stats_payload_bytes|apply stats_payload_length].
    - split; [by vm_compute|]. split; [apply refs_payload_bytes|apply refs_payload_length]. }
  rewrite open_loop_frames; [|done|].
  - rewrite take_block_frames by done. rewrite bind_Ok. done.
  - rewrite length_app.
    assert (∀ fs, (length fs ≤ length (concat (map frame_of fs)))%nat) as Hle.
    { clear. intros fs. induction fs as [|f fs IH]; cbn [map concat length]; [done|]. rewrite length_app.
      pose proof (frame_of_pos f). lia. }
    specialize (Hle (block_frames sb sampled dict refs extra)). lia.
Qed.

(** ** Safety *)

Lemma safe_section_refs : safe read_section_refs.
Proof.
  unfold read_section_refs.
  assert (safe decode_region) as Hr by (unfold decode_region; do 2 safe_step; by apply safe_ret).
  do 5 (eapply safe_bind; [exact Hr|]; intros ? _). by apply safe_ret.
Qed.

Lemma take_frame_defined t frame st : defined (take_frame t frame st).
Proof.
  unfold take_frame. destruct (t =? _).
  - apply defined_bind; [|done]. apply (safe_run _ _ _ safe_decode_stats_block).
  - destruct (t =? _); [|done].
    apply defined_bind; [apply (safe_run _ _ _ safe_read)|]. intros sec _.
    apply defined_bind; [|done]. apply (safe_run _ _ _ (safe_whole _ _ _ safe_section_refs)).
Qed.

Lemma runs_read_frame block src :
  wf_source src → s_ src = block →
  runs (read_frame block) src (λ _ src', (pos_ src < pos_ src')%nat).
Proof.
  intros Hsrc Hs. unfold read_frame.
  eapply runs_bind; [by apply runs_get_position|]. intros start s1 _ _ Hw1 [-> ->].
  eapply (runs_bind _ _ _ (λ _ s2, (pos_ src < pos_ s2)%nat)).
  { pose proof (safe_read src Hsrc) as Hr. pose proof (advances_read src Hsrc) as Ha. unfold runs.
    destruct (SectionFramer.read src) as [[sec s2]| |]; [|done|done]. destruct Hr as (_ & ? & ? & ?). by split_and!. }
  intros sec s2 Hs2 Hp2 Hw2 Hadv.
  eapply runs_bind; [by apply runs_get_position|]. intros pos s3 _ _ Hw3 [-> ->].
  unfold wf_source in Hw2. rewrite Hs2, Hs in Hw2.
  eapply (runs_bind _ _ _ (λ _ s4, s4 = s2)).
  { unfold runs, lift. rewrite subslice_ok by lia. cbn. split_and!; [done|lia|done|done]. }
  intros frame s4 _ _ Hw4 ->. by apply runs_ret.
Qed.

Lemma open_loop_defined fuel block st src :
  wf_source src → s_ src = block → (length block - pos_ src < fuel)%nat →
  defined (open_loop fuel block st src).
Proof.
  revert st src. induction fuel as [|fuel IH]; intros st src Hwf Hs Hf; [lia|]. cbn [open_loop].
  destruct (eof src); [done|]. pose proof (runs_read_frame block src Hwf Hs) as Hr. unfold runs in Hr.
  destruct (read_frame block src) as [[[t frame] src']| |]; [rewrite bind_Ok|done|done].
  destruct Hr as (Hs' & _ & Hwf' & Hadv). pose proof (take_frame_defined t frame st) as Hd.
  destruct (take_frame t frame st) as [st'| |]; [rewrite bind_Ok|done|done].
  apply IH; [done|congruence|]. unfold wf_source in Hwf'. rewrite Hs', Hs in Hwf'. lia.
Qed.

Lemma runs_decode_header block :
  runs (decode_header block) (source block) (λ _ _, True).
Proof.
  assert (wf_source (source block)) as Hsrc by (unfold wf_source; cbn; lia). unfold decode_header.
  eapply runs_bind; [by apply runs_get_position|]. intros start s1 _ _ Hw1 [-> ->].
  eapply runs_bind; [by apply runs_safe, Hw1; apply safe_get_fixed16|]. intros v s2 Hs2 Hp2 Hw2 _.
  eapply runs_bind; [by apply runs_return_if|]. intros [] s3 _ _ Hw3 [_ ->].
  eapply runs_bind; [by apply runs_safe, Hw2; apply safe_get_varint64|]. intros id s4 Hs4 Hp4 Hw4 _.
  eapply runs_bind; [by apply runs_safe, Hw4; apply safe_get_varint32|]. intros n s5 Hs5 Hp5 Hw5 [Hn _].
  eapply (runs_bind _ _ _ (λ _ s, s = s5)); [unfold runs; cbn; by split_and!|]. intros rest s6 _ _ Hw6 ->.
  eapply runs_bind; [by apply runs_return_if|]. intros [] s7 _ _ Hw7 [_ ->].
  eapply runs_bind; [by apply runs_get_bytes|]. intros sfx s8 Hs8 Hp8 Hw8 _.
  eapply runs_bind; [by apply runs_safe, Hw8; apply safe_get_fixed32|]. intros fl s9 Hs9 Hp9 Hw9 _.
  eapply runs_bind; [by apply runs_get_position|]. intros pos s10 _ _ Hw10 [-> ->].
  eapply runs_bind; [by apply runs_safe, Hw9; apply safe_get_fixed32|]. intros st s11 Hs11 Hp11 Hw11 _.
  assert (s_ s9 = block) as Hblk by (change block with (s_ (source block)); congruence). unfold wf_source in Hw9. rewrite Hblk in Hw9.
  eapply (runs_bind _ _ _ (λ _ s, s = s11)).
  { unfold runs, lift. rewrite subslice_ok by (cbn; lia). cbn. split_and!; [done|lia|done|done]. }
  intros h s12 _ _ Hw12 ->. eapply runs_bind; [by apply runs_return_if|]. intros [] s13 _ _ Hw13 _.
  by apply runs_ret.
Qed.

Lemma open_meta_defined block : defined (open block).
Proof.
  unfold open. pose proof (runs_decode_header block) as Hh. unfold runs in Hh.
  destruct (decode_header block (source block)) as [[[[id suffix] flags] src]| |]; [rewrite bind_Ok|done|done].
  destruct Hh as (Hs & _ & Hwf & _). cbv beta iota.
  apply defined_bind; [|intros; apply defined_bind; [apply defined_reject_if|done]].
  apply open_loop_defined; [done|done|lia].
Qed.

Lemma open_meta_finish index_id suffix flags sb sampled dict refs extra :
  wf_header index_id suffix flags → wf_stats_block sb → wf_refs refs →
  wf_frame (sampled_frame sampled) → wf_frame (dict_frame dict) →
  Forall wf_frame extra → Forall (λ f, known_type f.1 = false) extra →
  let b := new_builder index_id suffix flags |> set_stats sb
    |> set_sampled_term_index (frame_of (sampled_frame sampled))
    |> set_dict_block_directory (frame_of (dict_frame dict)) |> set_section_refs refs in
  let b := fold_left (λ b f, add_raw_section (frame_of f) b) extra b in
  open (finish b []) =
    Ok (mkPerIndexMetaReader index_id suffix flags sb refs
          (frame_of (sampled_frame sampled)) (frame_of (dict_frame dict))).
Proof.
  intros Hh Hsb Hr Hfs Hfd Hfx Hx b0 b. subst b.
  assert (∀ xs b, let b' := fold_left (λ b f, add_raw_section (frame_of f) b) xs b in
    b' = mkPerIndexMetaBuilder (b_index_id_ b) (b_index_suffix_ b) (b_flags_ b) (b_stats_ b)
      (b_sampled_term_index_ b) (b_dict_block_directory_ b) (b_section_refs_ b)
      (b_extra_sections_ b ++ map frame_of xs)) as Hfold.
  { clear. intros xs. induction xs as [|x xs IH]; intros b; cbn [fold_left map].
    - rewrite app_nil_r. by destruct b.
    - cbv zeta in IH |- *. rewrite IH. unfold add_raw_section. cbn. by rewrite <- app_assoc. }
  rewrite Hfold. subst b0. unfold finish. cbn [b_index_id_ b_index_suffix_ b_flags_ b_stats_
    b_sampled_term_index_ b_dict_block_directory_ b_section_refs_ b_extra_sections_ new_builder set_stats
    set_sampled_term_index set_dict_block_directory set_section_refs app].
  rewrite (put_each_app _ (λ b, b)) by (intros; apply put_bytes_app). rewrite map_id.
  rewrite encode_header_app, encode_section_refs_app, encode_stats_block_app, !put_bytes_app by done. cbn [app].
  rewrite <- (open_meta_bytes index_id suffix flags sb sampled dict refs extra) by done. f_equal.
  unfold block_frames. rewrite map_app, concat_app. cbn [map concat]. unfold frame_of at 4 5. cbn [fst snd].
  unfold frame_of at 1. cbn [fst snd]. rewrite <- !app_assoc. done.
Qed.

(** ** Properties *)

(** C36: a finished meta block opens to the header, the counters and the section
    references it was given, hands back the two embedded frames byte for byte,
    and skips every section of an unknown type. *)
Theorem per_index_meta_roundtrip index_id suffix flags sb sampled dict refs extra :
  wf_header index_id suffix flags → wf_stats_block sb → wf_refs refs →
  wf_frame (sampled_frame sampled) → wf_frame (dict_frame dict) →
  Forall wf_frame extra → Forall (λ f, known_type f.1 = false) extra →
  let b := new_builder index_id suffix flags |> set_stats sb
    |> set_sampled_term_index (frame_of (sampled_frame sampled))
    |> set_dict_block_directory (frame_of (dict_frame dict)) |> set_section_refs refs in
  let b := fold_left (λ b f, add_raw_section (frame_of f) b) extra b in
  open (finish b []) =
    Ok (mkPerIndexMetaReader index_id suffix flags sb refs
          (frame_of (sampled_frame sampled)) (frame_of (dict_frame dict))).
Proof. apply open_meta_finish. Qed.

(** on any bytes, opening a meta block ends with a reader or a [Status]. *)
Theorem per_index_meta_safe block : defined (open block).
Proof. apply open_meta_defined. Qed.

(** a meta block without a counters section, or without section references,
    is refused. *)
Theorem per_index_meta_requires_sections index_id suffix flags fs :
  wf_header index_id suffix flags → Forall wf_frame fs →
  Forall (λ f, f.1 ≠ section_type_u8 kStatsBlock) fs ∨ Forall (λ f, f.1 ≠ section_type_u8 kSectionRefs) fs →
  let head := head_bytes index_id suffix flags in
  ∃ st, open ((head ++ fixed32 (crc32c head)) ++ concat (map frame_of fs)) = Err st.
Proof.
  intros Hh Hfs Hmiss head. subst head. unfold open. rewrite run_decode_header, bind_Ok by done. cbv beta iota.
  rewrite open_loop_frames; [|done|].
  2: { rewrite length_app. enough (length fs ≤ length (concat (map frame_of fs)))%nat by lia.
       clear. induction fs as [|f fs IH]; cbn [map concat length]; [done|]. rewrite length_app.
       pose proof (frame_of_pos f). lia. }
  set (r := mkPerIndexMetaReader _ _ _ _ _ _ _).
  assert (∀ st, (have_stats st = false ∧ Forall (λ f, f.1 ≠ section_type_u8 kStatsBlock) fs) ∨
      (have_refs st = false ∧ Forall (λ f, f.1 ≠ section_type_u8 kSectionRefs) fs) →
    match take_frames fs st with
    | Ok st' => have_stats st' = false ∨ have_refs st' = false | Err _ => True | Undef => False end) as Hgo.
  { clear. induction fs as [|f fs IH]; intros st Hm; unfold take_frames in *; cbn [fold_result].
    { destruct Hm as [[? _]|[? _]]; auto. }
    pose proof (take_frame_defined f.1 (frame_of f) st) as Hd.
    destruct (take_frame f.1 (frame_of f) st) as [st'| |] eqn:Ht; [rewrite bind_Ok|done|done].
    apply IH. unfold take_frame in Ht. destruct Hm as [[Hst Hf]|[Hrf Hf]]; apply Forall_cons in Hf as [Hf1 Hf].
    - left. split; [|done]. rewrite (proj2 (Z.eqb_neq _ _)) in Ht by done.
      destruct (f.1 =? _); [inv_bind Ht|]; by injection Ht as <-.
    - right. split; [|done]. destruct (f.1 =? section_type_u8 kStatsBlock).
      { inv_bind Ht. by injection Ht as <-. }
      rewrite (proj2 (Z.eqb_neq _ _)) in Ht by done. by injection Ht as <-. }
  specialize (Hgo (mkOpenState r false false) ltac:(cbn; tauto)).
  destruct (take_frames fs _) as [st| |]; [rewrite bind_Ok|by eexists|done].
  destruct Hgo as [-> | ->]; cbn [negb orb reject_if]; rewrite ?orb_true_r; by eexists.
Qed.

(** ** Witnesses *)

Lemma sample_refs_wf : wf_refs no_refs.
Proof. unfold wf_refs, wf_region. cbn. ulia. Qed.
Lemma sample_stats_wf : wf_stats_block no_stats.
Proof. unfold wf_stats_block. cbn. ulia. Qed.
Lemma sample_header_wf : wf_header 7 [110; 97] 3.
Proof. split; [ulia|]. split; [auto with snii|]. split; [vm_compute; discriminate|ulia]. Qed.

Lemma per_index_meta_roundtrip_witness :
  let b := new_builder 7 [110; 97] 3 |> set_stats no_stats
    |> set_sampled_term_index (frame_of (sampled_frame [1; 2]))
    |> set_dict_block_directory (frame_of (dict_frame [3])) |> set_section_refs no_refs
    |> add_raw_section (frame_of (200, [9])) in
  open (finish b []) =
    Ok (mkPerIndexMetaReader 7 [110; 97] 3 no_stats no_refs
          (frame_of (sampled_frame [1; 2])) (frame_of (dict_frame [3]))).
Proof.
  apply (per_index_meta_roundtrip 7 [110; 97] 3 no_stats [1; 2] [3] no_refs [(200, [9])]
    sample_header_wf sample_stats_wf sample_refs_wf).
  - split; [by vm_compute|]. split; [cbn; auto with snii|by vm_compute].
  - split; [by vm_compute|]. split; [cbn; auto with snii|by vm_compute].
  - constructor; [|done]. split; [by vm_compute|]. split; [cbn; auto with snii|by vm_compute].
  - constructor; [reflexivity|done].
Defined.

Lemma per_index_meta_requires_sections_witness :
  let head := head_bytes 7 [110; 97] 3 in
  ∃ st, open ((head ++ fixed32 (crc32c head)) ++ concat (map frame_of [(2, [1])])) = Err st.
Proof.
  apply (per_index_meta_requires_sections 7 [110; 97] 3 [(2, [1])] sample_header_wf).
  - constructor; [|done]. split; [by vm_compute|]. split; [cbn; auto with snii|by vm_compute].
  - left. constructor; [discriminate|done].
Defined.
