(* ===== verification/FileIO.v ===== *)
(** * FileIO: the physical-read primitive.

    [io/file_reader.h] and [io/file_writer.h]. A reader object is the record of
    its virtual methods; [default_read_batch] is the sequential loop the base
    class supplies. [serves file r] is the contract the comments of the
    interface state, for a reader over the bytes [file]: a range inside the
    file is read exactly, any other is an error. [memory_file] satisfies it.
    A writer is any type with the class [FileWriter]; [FileWriterLaws] is the
    contract of an append-only writer that takes what it is given. *)

From S2P Require Import Prelude Status ByteIO.

#[local] Open Scope Z_scope.

(** [struct Range]. *)
Record Range := mkRange { offset : Z; len : Z }.

#[export] Instance Range_eq_dec : EqDecision Range.
Proof. solve_decision. Defined.

Record FileReader := mkFileReader {
  read_at : Z → Z → result bytes;
  read_batch : list Range → result (list bytes);
  size : Z
}.

Fixpoint default_read_batch (read_at : Z → Z → result bytes) (ranges : list Range) : result (list bytes) :=
  match ranges with
  | [] => Ok []
  | r :: ranges =>
      bs ← read_at (offset r) (len r);
      outs ← default_read_batch read_at ranges;
      Ok (bs :: outs)
  end.

(** ** The contract *)

Definition in_file (file : bytes) (off n : Z) : Prop := 0 ≤ off ∧ 0 ≤ n ∧ off + n ≤ zlen file.

#[export] Instance in_file_dec file off n : Decision (in_file file off n).
Proof. unfold in_file. apply _. Defined.

Definition window (file : bytes) (off n : Z) : bytes := take (Z.to_nat n) (drop (Z.to_nat off) file).

Record serves (file : bytes) (r : FileReader) : Prop := {
  serves_read_at off n : in_file file off n → read_at r off n = Ok (window file off n);
  serves_past_end off n :
    0 ≤ off → 0 ≤ n → ¬ in_file file off n → ∃ st, read_at r off n = Err st;
  serves_batch rs : read_batch r rs = default_read_batch (read_at r) rs;
  serves_size : size r = zlen file
}.

Definition memory_read_at (file : bytes) (off n : Z) : result bytes :=
  if bool_decide (in_file file off n) then Ok (window file off n)
  else Err (Corruption "read past end of file").
Definition memory_file (file : bytes) : FileReader :=
  mkFileReader (memory_read_at file) (default_read_batch (memory_read_at file)) (zlen file).

Lemma memory_file_serves file : serves file (memory_file file).
Proof.
  split; [| |done|done]; intros off n; cbn; unfold memory_read_at.
  - intros Hin. by rewrite bool_decide_true.
  - intros _ _ Hout. rewrite bool_decide_false by done. by eexists.
Qed.

(** ** Windows *)

Lemma window_length file off n : in_file file off n → zlen (window file off n) = n.
Proof. intros (? & ? & ?). unfold window. rewrite length_take, length_drop. lia. Qed.

(** The window that cuts a file laid out as [pre ++ mid ++ post]. *)
Lemma window_mid pre mid post off n :
  off = zlen pre → n = zlen mid → window (pre ++ mid ++ post) off n = mid.
Proof. intros -> ->. unfold window. rewrite !Nat2Z.id. apply take_drop_mid. Qed.

Lemma in_file_mid pre mid post off n :
  off = zlen pre → n = zlen mid → in_file (pre ++ mid ++ post) off n.
Proof. intros -> ->. unfold in_file. rewrite !length_app. lia. Qed.

(** A window of a window. *)
Lemma window_window file off n off' n' :
  in_file file off n → 0 ≤ off' → 0 ≤ n' → off' + n' ≤ n →
  window (window file off n) off' n' = window file (off + off') n'.
Proof.
  intros (? & ? & ?) ???. unfold window. rewrite skipn_firstn_comm, take_take, drop_drop. f_equal; [lia|].
  f_equal. lia.
Qed.

Lemma window_app file off n m :
  0 ≤ off → 0 ≤ n → 0 ≤ m → window file off n ++ window file (off + n) m = window file off (n + m).
Proof.
  intros ???. unfold window. rewrite !Z2Nat.inj_add by done. rewrite <- drop_drop. apply take_take_drop.
Qed.

Lemma serves_batch_ok file r rs :
  serves file r → Forall (λ g, in_file file (offset g) (len g)) rs →
  read_batch r rs = Ok (map (λ g, window file (offset g) (len g)) rs).
Proof.
  intros Hr. rewrite (serves_batch _ _ Hr). induction 1 as [|g rs Hg Hrs IH]; [done|].
  cbn [default_read_batch map]. rewrite (serves_read_at _ _ Hr) by done. by rewrite bind_Ok, IH.
Qed.

(** ** Writers *)

Class FileWriter (W : Type) := {
  append : bytes → W → result W;
  finalize : W → result W;
  bytes_written : W → Z
}.

(** [contents w] are the bytes behind the writer; [writable w] holds from the
    opening to [finalize] of a writer whose device does not fail. *)
Class FileWriterLaws (W : Type) `{FileWriter W} := {
  contents : W → bytes;
  writable : W → Prop;
  finalized : W → Prop;
  append_writable d w :
    writable w → ∃ w', append d w = Ok w' ∧ writable w' ∧ contents w' = contents w ++ d;
  finalize_writable w :
    writable w → ∃ w', finalize w = Ok w' ∧ finalized w' ∧ contents w' = contents w;
  bytes_written_contents w : writable w → bytes_written w = u64 (zlen (contents w))
}.

(** A writer that keeps its bytes in memory. *)
Module MemoryWriter.
#[global] Instance writer : FileWriter bytes := {
  append d w := Ok (w ++ d);
  finalize w := Ok w;
  bytes_written w := u64 (zlen w)
}.

#[global] Instance writer_laws : FileWriterLaws bytes.
Proof.
  refine {| contents w := w; writable _ := True; finalized _ := True |}; cbn; eauto.
Defined.
End MemoryWriter.
