(* ===== verification/SpillableByteBuffer.v ===== *)
(** * SpillableByteBuffer: a tiered append buffer, and the memory reporter.

    [writer/spillable_byte_buffer.h] and [writer/memory_reporter.h]. The buffer
    keeps its bytes as a chain of chunks and moves them to a temp file when the
    reporter shared by all buffers of a writer, or its own cap, says so. The
    temp file (a [LocalFileWriter], and a [LocalFileReader] on its path) is the
    class [TempFile]; the name of the file is the operating system's business
    and only the tag is passed on.

    The reporter is shared: an operation takes the reporter as it finds it and
    returns it with its own deltas added. *)

From S2P Require Import Prelude Status ByteIO FileIO.

#[local] Open Scope Z_scope.

(** [static_cast<int64_t>] *)
Definition i64 (x : Z) : Z := u64 (x + 2 ^ 63) - 2 ^ 63.

Module MemoryReporter.
(** [consume_release_] is the list of deltas the callback was called with, or
    [None] for a null callback. *)
Record t := mk { consume_release_ : option (list Z); cap_bytes_ : Z; current_ : Z }.

Definition report (delta : Z) (r : t) : t :=
  mk ((λ ds, ds ++ [delta]) <$> consume_release_ r) (cap_bytes_ r) (i64 (current_ r + delta)).
Definition over_cap (r : t) : bool :=
  negb (cap_bytes_ r =? 0) && (i64 (cap_bytes_ r) <=? current_ r).
End MemoryReporter.

Abbreviation Reporter := (option MemoryReporter.t).

(** [if (reporter_) reporter_->report(delta)] *)
Definition report_to (delta : Z) (r : Reporter) : Reporter := MemoryReporter.report delta <$> r.

(** The [LocalFileWriter temp_] and the file behind it. *)
Class TempFile (T : Type) := {
  temp_writer :: FileWriter T;
  temp_new : T;
  temp_open : string → T → result T;
  (** [LocalFileReader r; r.open(temp_path_)] *)
  temp_reader : T → result FileReader
}.

Class TempFileLaws (T : Type) `{TempFile T} := {
  temp_writer_laws :: FileWriterLaws T;
  temp_open_new tag : ∃ t, temp_open tag temp_new = Ok t ∧ writable t ∧ contents t = [];
  temp_reader_finalized t : finalized t → ∃ r, temp_reader t = Ok r ∧ serves (contents t) r
}.

Definition kChunk : Z := 1 ≪ 20.

Section Buffer.
Context {T : Type} `{TempFile T}.

Record SpillableByteBuffer := mkSpillableByteBuffer {
  cap_bytes_ : Z;
  tag_ : string;
  chunks_ : list bytes;
  ram_bytes_ : Z;
  spilled_ : bool;
  sealed_ : bool;
  temp_ : T;
  spilled_bytes_ : Z
}.

Definition new_buffer (cap_bytes : Z) (tag : string) : SpillableByteBuffer :=
  mkSpillableByteBuffer cap_bytes tag [] 0 false false temp_new 0.

Definition size (b : SpillableByteBuffer) : Z := if spilled_ b then spilled_bytes_ b else ram_bytes_ b.

Definition over_cap (b : SpillableByteBuffer) (r : Reporter) : bool :=
  match r with Some r => MemoryReporter.over_cap r | None => false end || (cap_bytes_ b <=? ram_bytes_ b).

(** [for (const auto& c : chunks_) if (!c.empty()) append(c)] *)
Definition append_chunk {W} `{FileWriter W} (c : bytes) (out : W) : result W :=
  match c with [] => Ok out | _ => append c out end.

Definition spill_to_disk (b : SpillableByteBuffer) (r : Reporter) : result (SpillableByteBuffer * Reporter) :=
  temp ← temp_open (tag_ b) (temp_ b);
  temp ← fold_result append_chunk (chunks_ b) temp;
  Ok (mkSpillableByteBuffer (cap_bytes_ b) (tag_ b) [] (ram_bytes_ b) true (sealed_ b) temp (ram_bytes_ b),
      report_to (- i64 (ram_bytes_ b)) r).

(** Both appends: [append] copies the bytes into a chunk, [append_move] adopts
    the vector. *)
Definition append_move (v : bytes) (b : SpillableByteBuffer) (r : Reporter)
    : result (SpillableByteBuffer * Reporter) :=
  if spilled_ b then
    temp ← append v (temp_ b);
    Ok (mkSpillableByteBuffer (cap_bytes_ b) (tag_ b) (chunks_ b) (ram_bytes_ b) true (sealed_ b) temp
          (u64 (spilled_bytes_ b + zlen v)), r)
  else
    let '(b, r) :=
      match v with
      | [] => (b, r)
      | _ =>
          (mkSpillableByteBuffer (cap_bytes_ b) (tag_ b) (chunks_ b ++ [v]) (u64 (ram_bytes_ b + zlen v))
             (spilled_ b) (sealed_ b) (temp_ b) (spilled_bytes_ b),
           report_to (i64 (zlen v)) r)
      end in
    if over_cap b r then spill_to_disk b r else Ok (b, r).

Definition seal (b : SpillableByteBuffer) : result SpillableByteBuffer :=
  if spilled_ b && negb (sealed_ b) then
    temp ← finalize (temp_ b);
    Ok (mkSpillableByteBuffer (cap_bytes_ b) (tag_ b) (chunks_ b) (ram_bytes_ b) (spilled_ b) true temp
          (spilled_bytes_ b))
  else Ok b.

(** [for (off = 0; off < spilled_bytes_; off += kChunk)], one round. *)
Definition copy_window {W} `{FileWriter W} (r : FileReader) (total off : Z) (out : W) : result W :=
  let n := Z.min kChunk (total - off) in
  buf ← read_at r off n;
  append buf out.

(** The offsets the loop visits. *)
Definition copy_offsets (total : Z) : list Z :=
  map (λ i, i * kChunk) (seqZ 0 ((total + kChunk - 1) / kChunk)).

Definition stream_into {W} `{FileWriter W} (b : SpillableByteBuffer) (out : W) : result W :=
  if negb (spilled_ b) then fold_result append_chunk (chunks_ b) out
  else
    r ← temp_reader (temp_ b);
    fold_result (copy_window r (spilled_bytes_ b)) (copy_offsets (spilled_bytes_ b)) out.

(** The destructor, as far as the reporter sees it. *)
Definition destroy (b : SpillableByteBuffer) (r : Reporter) : Reporter :=
  if negb (spilled_ b) && (0 <? ram_bytes_ b) then report_to (- i64 (ram_bytes_ b)) r else r.
End Buffer.
Arguments SpillableByteBuffer T : clear implicits.

(** ** What a buffer holds *)

(** The bytes on the heap. *)
Definition resident {T} (b : SpillableByteBuffer T) : Z := if spilled_ b then 0 else ram_bytes_ b.

(** The reporter after the bytes it counts for a buffer went from [before] to
    [now]; the counter is an [int64_t]. *)
Definition accounts (r : Reporter) (before now : Z) (r' : Reporter) : Prop :=
  match r, r' with
  | Some r, Some r' =>
      i64 (MemoryReporter.current_ r') = i64 (MemoryReporter.current_ r + (now - before)) ∧
      MemoryReporter.cap_bytes_ r' = MemoryReporter.cap_bytes_ r
  | None, None => True
  | _, _ => False
  end.

Lemma i64_add x y : i64 (i64 x + y) = i64 (x + y).
Proof. unfold i64, u64. replace (_ - 2 ^ 63 + y + 2 ^ 63) with ((x + 2 ^ 63) `mod` 2 ^ 64 + y) by lia.
  rewrite Zplus_mod_idemp_l. do 2 f_equal. lia. Qed.
Lemma i64_add_r x y : i64 (x + i64 y) = i64 (x + y).
Proof. rewrite Z.add_comm, i64_add. f_equal. lia. Qed.
Lemma i64_sub_r x y : i64 (x - i64 y) = i64 (x - y).
Proof.
  unfold i64, u64. replace (x - _ + 2 ^ 63) with (x + 2 ^ 64 - (y + 2 ^ 63) `mod` 2 ^ 64) by lia.
  rewrite Zminus_mod_idemp_r. f_equal. replace (x + 2 ^ 64 - (y + 2 ^ 63)) with (x - y + 2 ^ 63) by lia. done.
Qed.

Lemma accounts_refl r x : accounts r x x r.
Proof. destruct r as [r|]; [|done]. cbn. split; [|done]. f_equal. lia. Qed.

Lemma accounts_trans r0 a b c r1 r2 : accounts r0 a b r1 → accounts r1 b c r2 → accounts r0 a c r2.
Proof.
  destruct r0 as [r0|], r1 as [r1|], r2 as [r2|]; try done. cbn. intros [H1 ->] [H2 ->]. split; [|done].
  rewrite H2, <- i64_add, H1, i64_add. f_equal. lia.
Qed.

Lemma i64_idem x : i64 (i64 x) = i64 x.
Proof. pose proof (i64_add x 0) as Hi. by rewrite !Z.add_0_r in Hi. Qed.

Lemma accounts_report r before now delta r' :
  accounts r before now r' → accounts r before (now + delta) (report_to (i64 delta) r').
Proof.
  unfold accounts, report_to. destruct r as [r|], r' as [r'|]; [|done..]. cbn. intros [Hc ->]. split; [|done].
  rewrite i64_idem, i64_add_r, <- i64_add, Hc, i64_add. f_equal. lia.
Qed.

Lemma accounts_release r before now delta r' :
  accounts r before now r' → accounts r before (now - delta) (report_to (- i64 delta) r').
Proof.
  unfold accounts, report_to. destruct r as [r|], r' as [r'|]; [|done..]. cbn. intros [Hc ->]. split; [|done].
  rewrite i64_idem, Z.add_opp_r, i64_sub_r, <- Z.add_opp_r, <- i64_add, Hc, i64_add. f_equal. lia.
Qed.

Section Contents.
Context {T : Type} `{TempFileLaws T}.

(** A buffer that may still be appended to holds the bytes [bs]. *)
Definition holds (b : SpillableByteBuffer T) (bs : bytes) : Prop :=
  sealed_ b = false ∧
  if spilled_ b then writable (temp_ b) ∧ contents (temp_ b) = bs ∧ spilled_bytes_ b = zlen bs
  else temp_ b = temp_new ∧ concat (chunks_ b) = bs ∧ ram_bytes_ b = zlen bs.

(** A buffer that is ready to be streamed out. *)
Definition sealed_holds (b : SpillableByteBuffer T) (bs : bytes) : Prop :=
  if spilled_ b then finalized (temp_ b) ∧ contents (temp_ b) = bs ∧ spilled_bytes_ b = zlen bs
  else concat (chunks_ b) = bs.

Lemma new_buffer_holds cap tag : holds (new_buffer cap tag) [].
Proof. by split. Qed.

Lemma holds_size b bs : holds b bs → size b = zlen bs.
Proof. unfold holds, size. intros [_ Hb]. by destruct (spilled_ b); destruct Hb as (_ & _ & ?). Qed.

Lemma append_chunks {W} `{FileWriterLaws W} cs (out : W) :
  writable out →
  ∃ out', fold_result append_chunk cs out = Ok out' ∧ writable out' ∧ contents out' = contents out ++ concat cs.
Proof.
  revert out. induction cs as [|c cs IH]; intros out Ho; cbn [fold_result concat].
  { exists out. by rewrite app_nil_r. }
  assert (∃ o, append_chunk c out = Ok o ∧ writable o ∧ contents o = contents out ++ c) as (o & -> & Hw & Hc).
  { destruct c; [exists out; by rewrite app_nil_r|by apply append_writable]. }
  rewrite bind_Ok. destruct (IH o Hw) as (out' & -> & ? & Hc'). exists out'. by rewrite Hc', Hc, <- app_assoc.
Qed.

Lemma over_cap_spill b bs r :
  holds b bs → spilled_ b = false → is_u64 (zlen bs) →
  ∃ b', spill_to_disk b r = Ok (b', report_to (- i64 (zlen bs)) r) ∧ holds b' bs ∧ spilled_ b' = true.
Proof.
  intros [Hsl Hb] Hs Hn. rewrite Hs in Hb. destruct Hb as (Ht & Hc & Hr). unfold spill_to_disk.
  destruct (temp_open_new (T := T) (tag_ b)) as (t & Ho & Hw & He). rewrite Ht, Ho, bind_Ok.
  destruct (append_chunks (chunks_ b) t Hw) as (t' & -> & Hw' & Hc'). rewrite bind_Ok.
  rewrite Hr. eexists. split; [done|]. split; [|done]. split; [done|]. cbn. split_and!; [done| |done].
  by rewrite Hc', He, Hc.
Qed.

(** An append adds its bytes at the end, whatever tier they land in, and reports
    the bytes that became resident and those that left. *)
Lemma append_move_holds v b bs r :
  holds b bs → is_u64 (zlen (bs ++ v)) →
  ∃ b' r', append_move v b r = Ok (b', r') ∧ holds b' (bs ++ v) ∧ accounts r (resident b) (resident b') r'.
Proof.
  intros Hb Hn. pose proof Hb as [Hsl Hb']. rewrite length_app in Hn. unfold append_move.
  destruct (spilled_ b) eqn:Hs.
  - destruct Hb' as (Hw & Hc & Hz). destruct (append_writable v (temp_ b) Hw) as (t & -> & Hw' & Hc').
    rewrite bind_Ok. do 2 eexists. split; [done|]. split; [|unfold resident; cbn; rewrite Hs; apply accounts_refl].
    split; [done|]. cbn. rewrite Hc', Hc, Hz, length_app. split_and!; [done..|]. rewrite u64_small by ulia. lia.
  - destruct Hb' as (Ht & Hc & Hz).
    set (br := match v with [] => _ | _ => _ end).
    assert (∃ b1, br = (b1, if zlen v =? 0 then r else report_to (i64 (zlen v)) r) ∧ holds b1 (bs ++ v) ∧
      spilled_ b1 = false ∧ ram_bytes_ b1 = zlen bs + zlen v) as (b1 & -> & Hb1 & Hs1 & Hr1).
    { subst br. destruct v as [|x v]; [exists b; rewrite app_nil_r; split_and!; try done; cbn; lia|].
      rewrite (proj2 (Z.eqb_neq _ _)) by (cbn; lia). eexists. split; [done|]. unfold holds. cbn [sealed_ spilled_ temp_ chunks_ ram_bytes_].
      rewrite concat_app, Hc, Hz, length_app, u64_small by ulia. cbn [concat]. rewrite app_nil_r.
      split_and!; try done. lia. }
    set (r1 := if _ =? 0 then r else _).
    assert (accounts r (resident b) (zlen bs + zlen v) r1) as Ha1.
    { unfold resident. rewrite Hs, Hz. subst r1. destruct (Z.eqb_spec (zlen v) 0) as [->|]; [rewrite Z.add_0_r; apply accounts_refl|].
      apply accounts_report, accounts_refl. }
    destruct (over_cap b1 r1).
    + destruct (over_cap_spill b1 (bs ++ v) r1 Hb1 Hs1) as (b' & -> & Hb'' & Hs'); [rewrite length_app; ulia|].
      do 2 eexists. split; [done|]. split; [done|]. unfold resident at 2. rewrite Hs', length_app.
      apply (accounts_release _ _ _ (zlen bs + zlen v)) in Ha1. rewrite Z.sub_diag, <- Nat2Z.inj_add in Ha1. exact Ha1.
    + do 2 eexists. split; [done|]. split; [done|]. unfold resident at 2. rewrite Hs1, Hr1. exact Ha1.
Qed.

Lemma seal_holds b bs : holds b bs → ∃ b', seal b = Ok b' ∧ sealed_holds b' bs ∧ resident b' = resident b.
Proof.
  intros [Hsl Hb]. unfold seal, resident. destruct (spilled_ b) eqn:Hs; rewrite ?Hsl; cbn [andb negb].
  - destruct Hb as (Hw & Hc & Hz). destruct (finalize_writable (temp_ b) Hw) as (t & -> & Hf & Hc').
    rewrite bind_Ok. eexists. split; [done|]. unfold sealed_holds. cbn. rewrite Hc', Hz, Hc. done.
  - exists b. unfold sealed_holds. rewrite Hs. split_and!; [done|apply Hb|done].
Qed.

Lemma kChunk_pos : kChunk = 1048576.
Proof. done. Qed.

Lemma copy_window_spec {W} `{FileWriterLaws W} bs r off (out : W) :
  serves bs r → writable out → 0 ≤ off ≤ zlen bs →
  ∃ out', copy_window r (zlen bs) off out = Ok out' ∧ writable out' ∧
    contents out' = contents out ++ take (Z.to_nat kChunk) (drop (Z.to_nat off) bs).
Proof.
  intros Hs Ho Hoff. unfold copy_window. set (m := Z.min _ _). pose proof kChunk_pos as Hk.
  rewrite (serves_read_at _ _ Hs) by (unfold in_file; lia). rewrite bind_Ok.
  destruct (append_writable (window bs off m) out Ho) as (o & -> & Hw & Hc). exists o. split_and!; [done..|].
  rewrite Hc. f_equal. unfold window. destruct (decide (kChunk ≤ zlen bs - off)).
  - by replace m with kChunk by lia.
  - rewrite !take_ge; [done|rewrite length_drop; lia..].
Qed.

Lemma copy_windows_spec {W} `{FileWriterLaws W} bs r n i (out : W) :
  serves bs r → writable out → 0 ≤ i → zlen bs ≤ (i + Z.of_nat n) * kChunk →
  (n = 0%nat ∨ (i + Z.of_nat n - 1) * kChunk < zlen bs) →
  ∃ out', fold_result (copy_window r (zlen bs)) (map (λ i, i * kChunk) (seqZ i (Z.of_nat n))) out = Ok out' ∧
    writable out' ∧ contents out' = contents out ++ drop (Z.to_nat (i * kChunk)) bs.
Proof.
  intros Hs. pose proof kChunk_pos as Hk. revert i out. induction n as [|n IH]; intros i out Ho Hi Hn Hlast.
  { exists out. rewrite drop_ge, app_nil_r by lia. done. }
  rewrite Nat2Z.inj_succ, seqZ_cons, Z.pred_succ by lia. cbn [map fold_result].
  destruct (copy_window_spec bs r (i * kChunk) out Hs Ho) as (o & -> & Hw & Hc); [lia|]. rewrite bind_Ok.
  destruct (IH (Z.succ i) o Hw) as (out' & -> & ? & Hc'); [lia..|]. exists out'. split_and!; [done..|].
  rewrite Hc', Hc, <- app_assoc. f_equal.
  replace (Z.to_nat (Z.succ i * kChunk)) with (Z.to_nat (i * kChunk) + Z.to_nat kChunk)%nat by lia.
  by rewrite <- drop_drop, take_drop.
Qed.

Lemma stream_into_holds {W} `{FileWriterLaws W} b bs (out : W) :
  sealed_holds b bs → writable out →
  ∃ out', stream_into b out = Ok out' ∧ writable out' ∧ contents out' = contents out ++ bs.
Proof.
  unfold sealed_holds, stream_into. intros Hb Ho. destruct (spilled_ b); cbn [negb].
  - destruct Hb as (Hf & Hc & Hz). destruct (temp_reader_finalized (temp_ b) Hf) as (r & -> & Hr).
    rewrite bind_Ok, Hz. rewrite Hc in Hr. unfold copy_offsets.
    pose proof kChunk_pos as Hk. set (n := (zlen bs + kChunk - 1) / kChunk).
    assert (0 ≤ n) as Hn by (apply Z.div_pos; lia). rewrite <- (Z2Nat.id n) by done.
    destruct (copy_windows_spec bs r (Z.to_nat n) 0 out Hr Ho) as (out' & -> & ? & Hc'); [lia|..|by exists out'].
    + rewrite Z2Nat.id by done. subst n. rewrite Hk. dlia.
    + rewrite Z2Nat.id by done. right. subst n. rewrite Hk. dlia.
  - destruct (append_chunks (chunks_ b) out Ho) as (out' & -> & ? & Hc). exists out'. by rewrite Hc, Hb.
Qed.

Definition append_piece (v : bytes) (st : SpillableByteBuffer T * Reporter) : result (SpillableByteBuffer T * Reporter) :=
  append_move v st.1 st.2.

Lemma append_pieces_hold pieces b bs r0 before r :
  holds b bs → is_u64 (zlen (bs ++ concat pieces)) → accounts r0 before (resident b) r →
  ∃ b' r', fold_result append_piece pieces (b, r) = Ok (b', r') ∧ holds b' (bs ++ concat pieces) ∧
    accounts r0 before (resident b') r'.
Proof.
  revert b bs r. induction pieces as [|v pieces IH]; intros b bs r Hb Hn Ha; cbn [fold_result concat] in *.
  { rewrite app_nil_r. by exists b, r. }
  rewrite app_assoc in Hn. change (append_piece v (b, r)) with (append_move v b r).
  destruct (append_move_holds v b bs r Hb) as (b1 & r1 & -> & Hb1 & Ha1); [rewrite length_app in Hn; ulia|].
  rewrite bind_Ok. destruct (IH b1 (bs ++ v) r1 Hb1 Hn) as (b' & r' & -> & Hb' & Ha').
  - by eapply accounts_trans.
  - exists b', r'. by rewrite app_assoc.
Qed.

Lemma destroy_accounts (b : SpillableByteBuffer T) r0 before r :
  accounts r0 before (resident b) r → 0 ≤ resident b → accounts r0 before 0 (destroy b r).
Proof.
  unfold destroy, resident. destruct (spilled_ b); [done|]. cbn [negb andb]. intros Ha Hn.
  destruct (Z.ltb_spec 0 (ram_bytes_ b)).
  - apply (accounts_release _ _ _ (ram_bytes_ b)) in Ha. by rewrite Z.sub_diag in Ha.
  - by replace (ram_bytes_ b) with 0 in Ha by lia.
Qed.

(** whatever its cap and whatever the shared reporter answers, a buffer that
    was given byte strings streams out their concatenation, from the heap or
    from the temp file; when it is destroyed the reporter counts what it counted
    before the buffer existed. *)
Theorem spillable_buffer_streams {W} `{FileWriterLaws W} cap tag pieces r (out : W) :
  is_u64 (zlen (concat pieces)) → writable out →
  ∃ b r' b' out', fold_result append_piece pieces (new_buffer cap tag, r) = Ok (b, r') ∧
    size b = zlen (concat pieces) ∧ seal b = Ok b' ∧
    stream_into b' out = Ok out' ∧ contents out' = contents out ++ concat pieces ∧
    accounts r 0 0 (destroy b' r').
Proof.
  intros Hn Ho. destruct (append_pieces_hold pieces (new_buffer cap tag) [] r 0 r) as (b & r' & Hf & Hb & Ha);
    [apply new_buffer_holds|done|apply accounts_refl|].
  destruct (seal_holds b _ Hb) as (b' & Hs & Hb' & Hres).
  destruct (stream_into_holds b' _ out Hb' Ho) as (out' & Hst & _ & Hc).
  exists b, r', b', out'. split_and!; [done|exact (holds_size _ _ Hb)|done|done|exact Hc|].
  apply destroy_accounts; rewrite Hres; [done|]. unfold resident. destruct Hb as [_ Hb].
  destruct (spilled_ b); [done|]. destruct Hb as (_ & _ & ->). lia.
Qed.
End Contents.

(** A temp file in memory. *)
Module MemoryTemp.
#[global] Instance temp : TempFile bytes := {
  temp_writer := MemoryWriter.writer;
  temp_new := [];
  temp_open _ _ := Ok [];
  temp_reader t := Ok (memory_file t)
}.

#[global] Instance temp_laws : TempFileLaws bytes.
Proof.
  refine {| temp_writer_laws := MemoryWriter.writer_laws |}; cbn; [by exists []|].
  intros t _. exists (memory_file t). split; [done|apply memory_file_serves].
Defined.
End MemoryTemp.

Lemma spillable_buffer_streams_witness :
  ∃ b r' b' out',
    fold_result append_piece [[1; 2]; []; [3]; [4; 5; 6]]
      (new_buffer (2 ^ 64 - 1) "dict", Some (MemoryReporter.mk (Some []) 3 1)) = Ok (b, r') ∧
    size b = 6 ∧ seal b = Ok b' ∧ stream_into b' [9] = Ok out' ∧
    contents (W := bytes) (FileWriterLaws := MemoryWriter.writer_laws) out' = [9; 1; 2; 3; 4; 5; 6] ∧
    accounts (Some (MemoryReporter.mk (Some []) 3 1)) 0 0 (destroy b' r').
Proof.
  apply (spillable_buffer_streams (T := bytes) (W := bytes) (H0 := MemoryTemp.temp_laws) (H2 := MemoryWriter.writer_laws)
    (2 ^ 64 - 1) "dict" [[1; 2]; []; [3]; [4; 5; 6]] (Some (MemoryReporter.mk (Some []) 3 1)) [9]).
  - vm_compute. split; congruence.
  - exact I.
Defined.

(** The second piece that is not empty reaches the cap of the reporter: from then
    on the bytes are in the temp file, and both deltas were reported. *)
Example spills_at_the_cap :
  fold_result (append_piece (T := bytes)) [[1; 2]; []; [3]; [4; 5; 6]]
    (new_buffer (2 ^ 64 - 1) "dict", Some (MemoryReporter.mk (Some []) 3 1)) =
  Ok (mkSpillableByteBuffer (2 ^ 64 - 1) "dict" [] 2 true false [1; 2; 3; 4; 5; 6] 6,
      Some (MemoryReporter.mk (Some [2; -2]) 3 1)).
Proof. reflexivity. Qed.
