(* ===== verification/LocalFile.v ===== *)
(** * LocalFile: files of the local file system.

    [io/local_file.h] and [io/local_file.cpp]. The system calls are the class
    [Posix]: a call may be interrupted ([EINTR]), fail with the text of its
    [errno], or succeed on part of its input. [PosixLaws] is the documented
    behaviour of a device that does not fail; [stalls] bounds the interruptions
    still to come, and with the bytes to move it is the fuel of the loops.

    The writer implements the class [FileWriter] with its laws, the reader the
    contract [serves], and both together the temp file of a spilled buffer. *)

From S2P Require Import Prelude Status ByteIO FileIO SpillableByteBuffer.

#[local] Open Scope Z_scope.

Inductive SysResult (A : Type) := Interrupted | Failed (what : string) | Done (a : A).
#[global] Arguments Interrupted {A}.
#[global] Arguments Failed {A}.
#[global] Arguments Done {A}.

(** A file open for writing, or closed ([D]); a descriptor open for reading ([fd]). *)
Class Posix (D : Type) := {
  fd : Type;
  sys_none : D;
  sys_create : string → D → string + D;
  sys_write : bytes → D → SysResult Z * D;
  sys_fsync : D → string + D;
  sys_close : D → string + D;
  sys_open : D → string + fd;
  sys_fstat : fd → string + Z;
  sys_read : Z → fd → SysResult bytes * fd;
  (** [pread(fd, buf, n, off)], the [round]-th call of a loop *)
  sys_pread : fd → nat → Z → Z → SysResult bytes;
  stalls : D → nat;
  read_stalls : fd → nat
}.

Class PosixLaws (D : Type) `{Posix D} := {
  file_bytes : D → bytes;
  writing : D → Prop;
  at_rest : D → Prop;
  (** a descriptor at an offset of a file *)
  reading : bytes → Z → fd → Prop;
  create_ok path d : ∃ d', sys_create path d = inr d' ∧ writing d' ∧ file_bytes d' = [];
  write_ok bs d :
    writing d → 0 < zlen bs →
    match sys_write bs d with
    | (Interrupted, d') => writing d' ∧ file_bytes d' = file_bytes d ∧ (stalls d' < stalls d)%nat
    | (Failed _, _) => False
    | (Done n, d') =>
        0 < n ≤ zlen bs ∧ writing d' ∧ file_bytes d' = file_bytes d ++ take (Z.to_nat n) bs ∧ (stalls d' ≤ stalls d)%nat
    end;
  fsync_ok d : writing d → ∃ d', sys_fsync d = inr d' ∧ writing d' ∧ file_bytes d' = file_bytes d;
  close_ok d : writing d → ∃ d', sys_close d = inr d' ∧ at_rest d' ∧ file_bytes d' = file_bytes d;
  open_ok d : at_rest d → ∃ r, sys_open d = inr r ∧ reading (file_bytes d) 0 r;
  fstat_ok file pos r : reading file pos r → sys_fstat r = inr (zlen file);
  read_ok file pos r n :
    reading file pos r → 0 < n →
    match sys_read n r with
    | (Interrupted, r') => reading file pos r' ∧ (read_stalls r' < read_stalls r)%nat
    | (Failed _, _) => False
    | (Done bs, r') =>
        reading file (pos + zlen bs) r' ∧ (read_stalls r' ≤ read_stalls r)%nat ∧ zlen bs ≤ n ∧
        in_file file pos (zlen bs) ∧ bs = window file pos (zlen bs) ∧ (bs = [] → pos = zlen file)
    end;
  pread_ok file pos r round off n :
    reading file pos r → in_file file off n → 0 < n →
    match sys_pread r round off n with
    | Interrupted => (round < read_stalls r)%nat
    | Failed _ => False
    | Done bs => 0 < zlen bs ≤ n ∧ bs = window file off (zlen bs)
    end
}.

(** The loops over [::write]; [what] names the call in the message. *)
Fixpoint write_loop `{Posix} (what : string) (fuel : nat) (data : bytes) (d : D) : result D :=
  match data, fuel with
  | [], _ => Ok d
  | _, O => Undef
  | _, S fuel =>
      match sys_write data d with
      | (Interrupted, d) => write_loop what fuel data d
      | (Failed msg, _) => Err (IoError (what ++ msg))
      | (Done n, d) => write_loop what fuel (drop (Z.to_nat n) data) d
      end
  end.
Definition write_all `{Posix} (what : string) (data : bytes) (d : D) : result D :=
  write_loop what (stalls d + length data) data d.

(** ** The writer *)

Definition kBufCapacity : Z := 256 * 1024.

(** [fd_ >= 0] is [fd_open_]; [file_] is the file behind it. *)
Record LocalFileWriter (D : Type) := mkLocalFileWriter {
  fd_open_ : bool;
  file_ : D;
  bytes_written_ : Z;
  buf_ : bytes
}.
#[global] Arguments mkLocalFileWriter {D}.
#[global] Arguments fd_open_ {D}.
#[global] Arguments file_ {D}.
#[global] Arguments bytes_written_ {D}.
#[global] Arguments buf_ {D}.

(** [status_of(r)]: a failed call as an [IoError]. *)
Definition sys_result {A} (what : string) (r : string + A) : result A :=
  match r with inl msg => Err (IoError (what ++ ": " ++ msg)) | inr a => Ok a end.

Section Local.
Context {D : Type} `{Posix D}.

Definition new_writer : LocalFileWriter D := mkLocalFileWriter false sys_none 0 [].

Definition open_writer (path : string) (w : LocalFileWriter D) : result (LocalFileWriter D) :=
  d ← sys_result "open" (sys_create path (file_ w));
  Ok (mkLocalFileWriter true d (bytes_written_ w) (buf_ w)).

Definition flush_buffer (w : LocalFileWriter D) : result (LocalFileWriter D) :=
  match buf_ w with
  | [] => Ok w
  | buf =>
      d ← write_all "write: " buf (file_ w);
      Ok (mkLocalFileWriter (fd_open_ w) d (bytes_written_ w) [])
  end.

Definition local_append (data : bytes) (w : LocalFileWriter D) : result (LocalFileWriter D) :=
  _ ← reject_if (negb (fd_open_ w)) (IoError "append on unopened file");
  let len := zlen data in
  if len =? 0 then Ok w
  else if kBufCapacity <=? len then
    w ← flush_buffer w;
    d ← write_all "write: " data (file_ w);
    Ok (mkLocalFileWriter (fd_open_ w) d (u64 (bytes_written_ w + len)) (buf_ w))
  else
    w ← (if kBufCapacity <? zlen (buf_ w) + len then flush_buffer w else Ok w);
    Ok (mkLocalFileWriter (fd_open_ w) (file_ w) (u64 (bytes_written_ w + len)) (buf_ w ++ data)).

Definition local_finalize (w : LocalFileWriter D) : result (LocalFileWriter D) :=
  _ ← reject_if (negb (fd_open_ w)) (IoError "finalize on unopened file");
  w ← flush_buffer w;
  d ← sys_result "fsync" (sys_fsync (file_ w));
  d ← sys_result "close" (sys_close d);
  Ok (mkLocalFileWriter false d (bytes_written_ w) (buf_ w)).

#[global] Instance local_writer : FileWriter (LocalFileWriter D) := {
  append := local_append;
  finalize := local_finalize;
  bytes_written := bytes_written_
}.

(** ** The reader *)

(** [while (done < len)], with the [round] of each call. *)
Fixpoint pread_loop (fuel round : nat) (r : fd) (offset len : Z) (out : bytes) : result bytes :=
  if len <=? zlen out then Ok out
  else
    match fuel with
    | O => Undef
    | S fuel =>
        match sys_pread r round (offset + zlen out) (len - zlen out) with
        | Interrupted => pread_loop fuel (S round) r offset len out
        | Failed msg => Err (IoError ("pread: " ++ msg))
        | Done [] => Err (Corruption "pread returned 0 before len")
        | Done bs => pread_loop fuel (S round) r offset len (out ++ bs)
        end
    end.

Record LocalFileReader := mkLocalFileReader { reader_fd_ : option fd; size_ : Z }.

Definition new_reader : LocalFileReader := mkLocalFileReader None 0.

Definition open_reader (d : D) : result LocalFileReader :=
  h ← sys_result "open" (sys_open d);
  size ← sys_result "fstat" (sys_fstat h);
  Ok (mkLocalFileReader (Some h) size).

Definition local_read_at (r : LocalFileReader) (offset len : Z) : result bytes :=
  match reader_fd_ r with
  | None => Err (IoError "read_at on unopened file")
  | Some h =>
      _ ← reject_if ((size_ r <? offset) || (size_ r - offset <? len)) (Corruption "read_at past end of file");
      pread_loop (read_stalls h + Z.to_nat len) 0 h offset len []
  end.

(** The object as a [FileReader]. *)
Definition local_file (r : LocalFileReader) : FileReader :=
  mkFileReader (local_read_at r) (default_read_batch (local_read_at r)) (size_ r).
End Local.

(** ** Writing *)

Section Write.
Context {D : Type} `{PosixLaws D}.

Lemma write_loop_spec what fuel data d :
  writing d → (stalls d + length data ≤ fuel)%nat →
  ∃ d', write_loop what fuel data d = Ok d' ∧ writing d' ∧ file_bytes d' = file_bytes d ++ data.
Proof.
  revert data d. induction fuel as [|fuel IH]; intros data d Hd Hf.
  { destruct data; [|cbn in Hf; lia]. exists d. by rewrite app_nil_r. }
  destruct data as [|x data]; [exists d; by rewrite app_nil_r|]. cbn [write_loop].
  pose proof (write_ok (x :: data) d Hd ltac:(cbn; lia)) as Hw. destruct (sys_write (x :: data) d) as [[|msg|n] d1]; [|done|].
  - destruct Hw as (Hd1 & Hb & Hs). destruct (IH (x :: data) d1 Hd1) as (d2 & -> & Hd2 & Hb2); [lia|].
    exists d2. by rewrite Hb2, Hb.
  - destruct Hw as (Hn & Hd1 & Hb & Hs).
    destruct (IH (drop (Z.to_nat n) (x :: data)) d1 Hd1) as (d2 & -> & Hd2 & Hb2); [rewrite length_drop; lia|].
    exists d2. split; [done|]. split; [done|]. by rewrite Hb2, Hb, <- app_assoc, take_drop.
Qed.

Lemma write_all_spec what data d :
  writing d → ∃ d', write_all what data d = Ok d' ∧ writing d' ∧ file_bytes d' = file_bytes d ++ data.
Proof. intros Hd. by apply write_loop_spec. Qed.

(** What a writer holds: the bytes of the file and those still buffered. *)
Definition local_contents (w : LocalFileWriter D) : bytes := file_bytes (file_ w) ++ buf_ w.
Record local_writable (w : LocalFileWriter D) : Prop := {
  lw_open : fd_open_ w = true;
  lw_file : writing (file_ w);
  lw_count : bytes_written_ w = u64 (zlen (local_contents w));
  lw_buf : zlen (buf_ w) ≤ kBufCapacity
}.
Definition local_finalized (w : LocalFileWriter D) : Prop := at_rest (file_ w) ∧ buf_ w = [].

Lemma flush_buffer_spec w :
  writing (file_ w) →
  ∃ w', flush_buffer w = Ok w' ∧ writing (file_ w') ∧ local_contents w' = local_contents w ∧ buf_ w' = [] ∧
    fd_open_ w' = fd_open_ w ∧ bytes_written_ w' = bytes_written_ w.
Proof.
  intros Hw. unfold flush_buffer, local_contents. destruct (buf_ w) as [|x buf] eqn:Hb; [by exists w; rewrite Hb|].
  destruct (write_all_spec "write: " (x :: buf) (file_ w) Hw) as (d & -> & Hd & Hc). rewrite bind_Ok.
  eexists. split; [done|]. cbn [file_ buf_ fd_open_ bytes_written_]. by rewrite Hc, app_nil_r.
Qed.

Lemma local_append_spec data w :
  local_writable w →
  ∃ w', local_append data w = Ok w' ∧ local_writable w' ∧ local_contents w' = local_contents w ++ data.
Proof.
  intros [Ho Hf Hc Hb]. unfold local_append. rewrite Ho. cbn [negb reject_if]. rewrite bind_Ok.
  destruct (Z.eqb_spec (zlen data) 0) as [He|Hne].
  { destruct data; [|cbn in He; lia]. exists w. by rewrite app_nil_r. }
  assert (∀ s, u64 (u64 (zlen s) + zlen data) = u64 (zlen (s ++ data))) as Hadd.
  { intros s. rewrite length_app, Nat2Z.inj_add. unfold u64. by rewrite Zplus_mod_idemp_l. }
  destruct (Z.leb_spec kBufCapacity (zlen data)) as [Hbig|Hsmall].
  - destruct (flush_buffer_spec w Hf) as (w1 & -> & Hf1 & Hc1 & Hb1 & Ho1 & Hn1). rewrite bind_Ok.
    destruct (write_all_spec "write: " data (file_ w1) Hf1) as (d & -> & Hd & Hcd). rewrite bind_Ok.
    assert (file_bytes (file_ w1) = local_contents w) as Hw1 by by rewrite <- Hc1; unfold local_contents; rewrite Hb1, app_nil_r.
    eexists. split; [done|]. unfold local_contents in *. cbn [file_ buf_ fd_open_ bytes_written_]. rewrite Hb1, app_nil_r, Hcd, Hw1.
    split; [|done]. split; unfold local_contents; cbn [file_ buf_ fd_open_ bytes_written_]; [by rewrite Ho1|done| |done].
    by rewrite Hn1, Hc, app_nil_r, Hcd, Hw1, Hadd.
  - assert (∃ w1, (if kBufCapacity <? zlen (buf_ w) + zlen data then flush_buffer w else Ok w) = Ok w1 ∧ writing (file_ w1) ∧
      local_contents w1 = local_contents w ∧ zlen (buf_ w1) + zlen data ≤ kBufCapacity ∧ fd_open_ w1 = true ∧
      bytes_written_ w1 = bytes_written_ w) as (w1 & -> & Hf1 & Hc1 & Hb1 & Ho1 & Hn1).
    { destruct (Z.ltb_spec kBufCapacity (zlen (buf_ w) + zlen data)); [|by exists w].
      destruct (flush_buffer_spec w Hf) as (w1 & -> & Hf1 & Hc1 & Hb1 & Ho1 & Hn1). exists w1. rewrite Hb1, Ho1, Ho.
      split_and!; try done. cbn. lia. }
    rewrite bind_Ok. eexists. split; [done|].
    assert (local_contents (mkLocalFileWriter (fd_open_ w1) (file_ w1) (u64 (bytes_written_ w1 + zlen data)) (buf_ w1 ++ data)) =
      local_contents w ++ data) as Hlc by by rewrite <- Hc1; unfold local_contents; cbn [file_ buf_]; rewrite app_assoc.
    split; [|exact Hlc]. split; [done|done|by rewrite Hlc; cbn [bytes_written_]; rewrite Hn1, Hc, Hadd|].
    cbn [buf_]. rewrite length_app. lia.
Qed.

Lemma local_finalize_spec w :
  local_writable w →
  ∃ w', local_finalize w = Ok w' ∧ local_finalized w' ∧ local_contents w' = local_contents w.
Proof.
  intros [Ho Hf Hc _]. unfold local_finalize. rewrite Ho. cbn [negb reject_if]. rewrite bind_Ok.
  destruct (flush_buffer_spec w Hf) as (w1 & -> & Hf1 & Hc1 & Hb1 & Ho1 & Hn1). rewrite bind_Ok.
  destruct (fsync_ok _ Hf1) as (d1 & -> & Hd1 & Hcd1). cbn [sys_result]. rewrite bind_Ok.
  destruct (close_ok _ Hd1) as (d2 & -> & Hd2 & Hcd2). cbn [sys_result]. rewrite bind_Ok.
  eexists. split; [done|]. split; [by split|]. unfold local_contents in *. cbn [file_ buf_]. by rewrite Hcd2, Hcd1.
Qed.

#[global] Instance local_writer_laws : FileWriterLaws (LocalFileWriter D) := {
  contents := local_contents;
  writable := local_writable;
  finalized := local_finalized;
  append_writable := local_append_spec;
  finalize_writable := local_finalize_spec;
  bytes_written_contents w Hw := lw_count w Hw
}.

Lemma open_writer_spec path :
  ∃ w, open_writer path new_writer = Ok w ∧ local_writable w ∧ local_contents w = [].
Proof.
  unfold open_writer. destruct (create_ok path sys_none) as (d & Hd & Hw & Hb). cbn [new_writer file_]. rewrite Hd. cbn [sys_result].
  rewrite bind_Ok. eexists. split; [done|]. unfold local_contents. cbn. rewrite Hb. split; [|done].
  split; unfold local_contents; cbn; rewrite ?Hb; done.
Qed.

(** ** Reading *)

Lemma pread_loop_spec file pos h fuel round offset len out :
  reading file pos h → in_file file offset len → zlen out ≤ len → out = window file offset (zlen out) →
  (read_stalls h - round + Z.to_nat (len - zlen out) ≤ fuel)%nat →
  pread_loop fuel round h offset len out = Ok (window file offset len).
Proof.
  intros Hr Hin. revert round out. induction fuel as [|fuel IH]; intros round out Hlen Hout Hf; cbn [pread_loop];
    destruct (Z.leb_spec len (zlen out)) as [Hle|Hlt]; try (f_equal; rewrite Hout; f_equal; lia); [lia|].
  pose proof (pread_ok file pos h round (offset + zlen out) (len - zlen out) Hr) as Hp.
  destruct Hin as (Hin0 & Hin1 & Hin2). specialize (Hp ltac:(unfold in_file; lia) ltac:(lia)).
  destruct (sys_pread _ _ _ _) as [|msg|bs]; [apply IH; [done|done|lia]|done|].
  destruct Hp as [Hn Hbs]. destruct bs as [|b bs]; [cbn in Hn; lia|]. apply IH; rewrite length_app; [lia| |lia].
  rewrite Nat2Z.inj_add, <- window_app by lia. by rewrite <- Hout, <- Hbs.
Qed.

Lemma open_reader_spec d :
  at_rest d → ∃ r, open_reader d = Ok r ∧ serves (file_bytes d) (local_file r).
Proof.
  intros Hd. unfold open_reader. destruct (open_ok d Hd) as (h & -> & Hr). cbn [sys_result]. rewrite bind_Ok.
  rewrite (fstat_ok _ _ _ Hr). cbn [sys_result]. rewrite bind_Ok. eexists. split; [done|].
  split; [| |done|done]; intros off n; cbn [local_file read_at]; unfold local_read_at; cbn [reader_fd_ size_].
  - intros Hin. destruct Hin as (Hin0 & Hin1 & Hin2). rewrite bind_reject_false by (apply orb_false_iff; split; apply Z.ltb_ge; lia).
    apply (pread_loop_spec _ 0); [done|by split|cbn; lia| |cbn; lia]. unfold window. by rewrite take_0.
  - intros Hoff Hlen Hout. rewrite bind_reject. destruct (_ || _) eqn:Hb; [by eexists|].
    apply orb_false_iff in Hb as [?%Z.ltb_ge ?%Z.ltb_ge]. destruct Hout. unfold in_file. lia.
Qed.
End Write.

(** ** The temp file of a spilled buffer *)

(** The path of a tag: the directory, the process and a counter are the system's. *)
Class TempPaths := make_temp_path : string → string.

#[global] Instance local_temp `{Posix} `{!TempPaths} : TempFile (LocalFileWriter D) := {
  temp_writer := local_writer;
  temp_new := new_writer;
  temp_open tag := open_writer (make_temp_path tag);
  temp_reader w := r ← open_reader (file_ w); Ok (local_file r)
}.

#[global] Instance local_temp_laws `{PosixLaws} `{!TempPaths} : TempFileLaws (LocalFileWriter D).
Proof.
  refine {| temp_writer_laws := local_writer_laws : @FileWriterLaws _ (@temp_writer _ local_temp) |}; cbn.
  - intros tag. apply open_writer_spec.
  - intros w [Hr Hb]. destruct (open_reader_spec _ Hr) as (r & -> & Hs). rewrite bind_Ok. exists (local_file r).
    split; [done|]. unfold local_contents. by rewrite Hb, app_nil_r.
Defined.

(** ** Properties *)

(** C26: appends to a local file, of any sizes, and its finalization succeed
    whatever short writes and interruptions the system calls show, and a reader
    opened on the file serves exactly the concatenation of what was appended. *)
Theorem local_file_roundtrip `{PosixLaws} path (pieces : list bytes) :
  ∃ w0 w w' r, open_writer path new_writer = Ok w0 ∧ fold_result local_append pieces w0 = Ok w ∧
    bytes_written_ w = u64 (zlen (concat pieces)) ∧ local_finalize w = Ok w' ∧ open_reader (file_ w') = Ok r ∧
    serves (concat pieces) (local_file r).
Proof.
  destruct (open_writer_spec path) as (w0 & Hopen & Hw0 & Hc0).
  assert (∀ w0, local_writable w0 → ∃ w, fold_result local_append pieces w0 = Ok w ∧ local_writable w ∧
    local_contents w = local_contents w0 ++ concat pieces) as Hgo.
  { clear. induction pieces as [|p ps IH]; intros w0 Hw0; [exists w0; by rewrite app_nil_r|]. cbn [fold_result concat].
    destruct (local_append_spec p w0 Hw0) as (w1 & -> & Hw1 & Hc1). rewrite bind_Ok.
    destruct (IH w1 Hw1) as (w & Hf & Hw & Hc). exists w. by rewrite Hc, Hc1, app_assoc. }
  destruct (Hgo w0 Hw0) as (w & Hf & Hw & Hc). rewrite Hc0 in Hc. cbn [app] in Hc.
  destruct (local_finalize_spec w Hw) as (w' & Hfin & [Hrest Hbuf] & Hc').
  destruct (open_reader_spec _ Hrest) as (r & Hr & Hs). exists w0, w, w', r.
  do 2 (split; [done|]). split; [by rewrite <- Hc, (lw_count w Hw)|]. do 2 (split; [done|]).
  assert (file_bytes (file_ w') = concat pieces) as <-; [|done].
  rewrite <- Hc, <- Hc'. unfold local_contents. by rewrite Hbuf, app_nil_r.
Qed.

(** A device that is interrupted now and then and moves at most three bytes. *)
Module FlakyDisk.
Record disk := mkDisk { on_disk : bytes; pending : nat }.
Record handle := mkHandle { h_bytes : bytes; h_pos : Z; h_pending : nat }.

#[global] Instance posix : Posix disk := {
  fd := handle;
  sys_none := mkDisk [] 0;
  sys_create _ _ := inr (mkDisk [] 2);
  sys_write bs d :=
    match pending d with
    | S n => (Interrupted, mkDisk (on_disk d) n)
    | O => let n := Z.min 3 (zlen bs) in (Done n, mkDisk (on_disk d ++ take (Z.to_nat n) bs) 0)
    end;
  sys_fsync d := inr d;
  sys_close d := inr d;
  sys_open d := inr (mkHandle (on_disk d) 0 1);
  sys_fstat h := inr (zlen (h_bytes h));
  sys_read n h :=
    match h_pending h with
    | S k => (Interrupted, mkHandle (h_bytes h) (h_pos h) k)
    | O =>
        let bs := window (h_bytes h) (h_pos h) (Z.min n 3) in
        (Done bs, mkHandle (h_bytes h) (h_pos h + zlen bs) 0)
    end;
  sys_pread h round off n := if bool_decide (round < h_pending h)%nat then Interrupted else Done (window (h_bytes h) off (Z.min n 3));
  stalls := pending;
  read_stalls := h_pending
}.

Lemma short_window file off n :
  0 ≤ off ≤ zlen file → 0 < n → let bs := window file off (Z.min n 3) in
  0 ≤ zlen bs ≤ n ∧ in_file file off (zlen bs) ∧ bs = window file off (zlen bs) ∧ (bs = [] → off = zlen file).
Proof.
  intros Hoff Hn bs. assert (zlen bs = Z.min (Z.min n 3) (zlen file - off)) as Hl.
  { unfold bs, window. rewrite length_take, length_drop. lia. }
  split; [lia|]. split; [unfold in_file; lia|]. split.
  - unfold bs at 1, window. rewrite Hl. destruct (decide (Z.min n 3 ≤ zlen file - off)); [f_equal; lia|].
    rewrite !take_ge by (rewrite length_drop; lia). done.
  - intros He. rewrite He in Hl. cbn in Hl. lia.
Qed.

#[global] Instance posix_laws : PosixLaws disk.
Proof.
  refine {| file_bytes := on_disk; writing _ := True; at_rest _ := True;
            reading file pos (h : @fd _ posix) := file = h_bytes h ∧ pos = h_pos h ∧ 0 ≤ pos ≤ zlen file |}; cbn.
  - intros _ _. by eexists.
  - intros bs d _ Hn. unfold sys_write. cbn. destruct (pending d) as [|k]; cbn; [|split_and!; [done|done|lia]].
    split_and!; try done; lia.
  - intros d _. by exists d.
  - intros d _. by exists d.
  - intros d _. eexists. split; [done|]. cbn. split_and!; [done|done|lia|lia].
  - intros file pos h (-> & _). done.
  - intros file pos h n (-> & -> & Hp) Hn. destruct (h_pending h) as [|k]; cbn; [|split; [done|lia]].
    destruct (short_window (h_bytes h) (h_pos h) n Hp Hn) as (Hl & Hin & Hw & He). destruct Hin as (?&?&?). split_and!; try done; lia.
  - intros file pos h round off n (-> & _) Hin Hn. case_bool_decide; [done|].
    destruct Hin as (?&?&?). destruct (short_window (h_bytes h) off n ltac:(lia) Hn) as (Hl & _ & Hw & He). split; [|done].
    destruct (window (h_bytes h) off (Z.min n 3)); [|cbn in *; lia]. specialize (He eq_refl). lia.
Defined.
End FlakyDisk.

Example flaky_file :
  ∃ w r, (w0 ← open_writer (H := FlakyDisk.posix) "x" new_writer; w1 ← local_append [1; 2; 3; 4; 5] w0; local_finalize w1) = Ok w ∧
    open_reader (file_ w) = Ok r ∧ read_at (local_file r) 1 4 = Ok [2; 3; 4; 5].
Proof. eexists _, _. vm_compute. done. Qed.

Lemma local_file_roundtrip_witness :
  ∃ w0 w w' r, open_writer (H := FlakyDisk.posix) "x" new_writer = Ok w0 ∧
    fold_result local_append [[1; 2; 3; 4]; []; [5]] w0 = Ok w ∧ bytes_written_ w = 5 ∧
    local_finalize w = Ok w' ∧ open_reader (file_ w') = Ok r ∧ serves [1; 2; 3; 4; 5] (local_file r).
Proof. apply (local_file_roundtrip (H0 := FlakyDisk.posix_laws) "x" [[1; 2; 3; 4]; []; [5]]). Defined.
