(* ===== verification/Bsbf.v ===== *)
(** * Bsbf: the split-block bloom filter over the terms of an index.

    [format/bsbf.h] and [format/bsbf.cpp]: the scalar and the AVX2 kernels, the
    sizing, the builder, the serialized section and the probe that reads one
    block. XXH64, the CPU probe, the AVX2 intrinsics and the floating-point
    estimate of the size are not code of the repository; they are parameters
    ([BsbfEnv]), the intrinsics with the lane-wise meaning Intel documents
    ([Avx2Laws]). The null checks are not modelled. *)

From S2P Require Import Prelude Status ByteIO Crc32c FileIO.

#[local] Open Scope Z_scope.

Definition kBsbfBytesPerBlock : Z := 32.
Definition kBsbfBitsSetPerBlock : Z := 8.
Definition kBsbfMinBytes : Z := 32.
Definition kBsbfMaxBytes : Z := 128 * 1024 * 1024.
Definition kBsbfHeaderSize : Z := 28.

Definition kBsbfSalt : list Z :=
  [0x47b6137b; 0x44974d91; 0x8824ad5b; 0xa2b7289d; 0x705495c7; 0x2df1424b; 0x9efc4947; 0x5c6bfb31].

(** A 256-bit register as its eight 32-bit lanes, lowest first. *)
Class Avx2Ops := {
  mm256_set1_epi32 : Z → list Z;
  mm256_mullo_epi32 : list Z → list Z → list Z;
  mm256_srli_epi32 : list Z → Z → list Z;
  mm256_sllv_epi32 : list Z → list Z → list Z;
  mm256_or_si256 : list Z → list Z → list Z;
  mm256_testc_si256 : list Z → list Z → Z;
  (** the 32 bytes of memory at an address *)
  mm256_loadu_si256 : bytes → list Z;
  mm256_storeu_si256 : list Z → bytes
}.

Class BsbfEnv := {
  bsbf_avx2 :: Avx2Ops;
  cpu_has_avx2 : bool;
  XXH64 : bytes → Z → Z;
  double : Type;
  (** [fpp > 0.0 && fpp < 1.0] *)
  fpp_in_range : double → bool;
  (** [m = -8.0 * ndv / log(1 - pow(fpp, 1.0 / 8))] cast to [uint32_t], or
      [None] where [m < 0 || m > 8 * kBsbfMaxBytes]. *)
  optimal_num_of_bits : Z → double → option Z
}.

(** ** Kernels *)

Definition store_le32 (p : nat) (v : Z) (buf : bytes) : bytes :=
  <[(p + 3)%nat := u8 (v ≫ 24)]> (<[(p + 2)%nat := u8 (v ≫ 16)]>
    (<[(p + 1)%nat := u8 (v ≫ 8)]> (<[p := u8 v]> buf))).

(** The four bytes at [p + off]. *)
Definition load_le32 (p : bytes) (off : nat) : result Z :=
  match drop off p with
  | p0 :: p1 :: p2 :: p3 :: _ => Ok (Z.lor (Z.lor (Z.lor p0 (p1 ≪ 8)) (p2 ≪ 16)) (p3 ≪ 24))
  | _ => Undef
  end.

Definition masks_scalar (key : Z) : list Z :=
  map (λ salt, u32 (1 ≪ (u32 (key * salt) ≫ 27))) kBsbfSalt.

(** [for (i..) if ((load(i) & m[i]) != m[i]) return false; return true;] *)
Fixpoint contains_loop (load : nat → result Z) (i : nat) (m : list Z) : result bool :=
  match m with
  | [] => Ok true
  | mi :: m =>
      w ← load i;
      if negb (Z.land w mi =? mi) then Ok false else contains_loop load (S i) m
  end.

Definition block_contains_scalar (hash : Z) (block : bytes) : result bool :=
  contains_loop (λ i, load_le32 block (4 * i)) 0 (masks_scalar (u32 hash)).

(** [words[block * 8 + i]], the index a [uint32_t]. *)
Definition word_index (block : Z) (i : nat) : nat := Z.to_nat (u32 (block * 8 + Z.of_nat i)).
Definition word_at (words : list Z) (j : nat) : result Z :=
  match words !! j with Some w => Ok w | None => Undef end.

(** [for (i..) words[block * 8 + i] |= m[i];] *)
Fixpoint insert_loop (words : list Z) (block : Z) (i : nat) (m : list Z) : result (list Z) :=
  match m with
  | [] => Ok words
  | mi :: m =>
      w ← word_at words (word_index block i);
      insert_loop (<[word_index block i := Z.lor w mi]> words) block (S i) m
  end.

Definition insert_scalar (words : list Z) (block key : Z) : result (list Z) :=
  insert_loop words block 0 (masks_scalar key).
Definition find_scalar (words : list Z) (block key : Z) : result bool :=
  contains_loop (λ i, word_at words (word_index block i)) 0 (masks_scalar key).

(** Eight words from [words + block * 8] on, as the 32 bytes an unaligned load
    reads; a block that leaves the array is undefined. *)
Definition block_words (words : list Z) (block : Z) : result (list Z) :=
  let j := Z.to_nat (u32 (block * 8)) in
  if (j + 8 <=? length words)%nat then Ok (take 8 (drop j words)) else Undef.

Section Kernels.
Context `{BsbfEnv}.

Definition mask_avx2 (key : Z) : list Z :=
  let prod := mm256_mullo_epi32 (mm256_set1_epi32 key) kBsbfSalt in
  let shifts := mm256_srli_epi32 prod 27 in
  mm256_sllv_epi32 (mm256_set1_epi32 1) shifts.

Definition block_contains_avx2 (hash : Z) (block : bytes) : result bool :=
  let m := mask_avx2 (u32 hash) in
  if (length block <? 32)%nat then Undef
  else Ok (negb (mm256_testc_si256 (mm256_loadu_si256 (take 32 block)) m =? 0)).

(** The store goes through the bytes of the array: eight words are replaced by
    the words those bytes spell. *)
Definition insert_avx2 (words : list Z) (block key : Z) : result (list Z) :=
  old ← block_words words block;
  let p := mm256_or_si256 (mm256_loadu_si256 (words_bytes old)) (mask_avx2 key) in
  let j := Z.to_nat (u32 (block * 8)) in
  Ok (take j words ++ map (little_endian_to_Z 8) (chunks 4 (mm256_storeu_si256 p)) ++ drop (j + 8) words).

Definition find_avx2 (words : list Z) (block key : Z) : result bool :=
  b ← block_words words block;
  Ok (negb (mm256_testc_si256 (mm256_loadu_si256 (words_bytes b)) (mask_avx2 key) =? 0)).

Definition bsbf_hash (term : bytes) : Z := XXH64 term 0.

Definition bsbf_block_contains (hash : Z) (block : bytes) : result bool :=
  if cpu_has_avx2 then block_contains_avx2 hash block else block_contains_scalar hash block.
End Kernels.

Definition bsbf_block_index (hash num_blocks : Z) : Z := u32 (u64 ((hash ≫ 32) * num_blocks) ≫ 32).

(** ** Sizing *)

(** [while (p < num_bits) p <<= 1;] on a [uint32_t]; [num_bits <= 2^30] stops
    it within 31 rounds. *)
Fixpoint pow2_loop (fuel : nat) (p num_bits : Z) : result Z :=
  match fuel with
  | O => Undef
  | S fuel => if p <? num_bits then pow2_loop fuel (u32 (p ≪ 1)) num_bits else Ok p
  end.

Definition round_num_bits (num_bits : Z) : result Z :=
  let num_bits := if num_bits <? kBsbfMinBytes ≪ 3 then kBsbfMinBytes ≪ 3 else num_bits in
  num_bits ← (if negb (Z.land num_bits (num_bits - 1) =? 0) then pow2_loop 32 1 num_bits else Ok num_bits);
  let num_bits := if kBsbfMaxBytes ≪ 3 <? num_bits then kBsbfMaxBytes ≪ 3 else num_bits in
  Ok (num_bits ≫ 3).

Definition bsbf_optimal_num_bytes `{BsbfEnv} (ndv : Z) (fpp : double) : result Z :=
  match optimal_num_of_bits ndv fpp with
  | None => round_num_bits (kBsbfMaxBytes ≪ 3)
  | Some m => round_num_bits m
  end.

(** ** Builder *)

Record BsbfBuilder := mkBsbfBuilder { words_ : list Z; num_bytes_ : Z; num_blocks_ : Z; ndv_ : Z }.

Definition no_builder : BsbfBuilder := mkBsbfBuilder [] 0 0 0.

Definition build_header (b : BsbfBuilder) (bits : bytes) : bytes :=
  let hdr := replicate (Z.to_nat kBsbfHeaderSize) 0 in
  let hdr := <[0%nat := 0x42]> hdr in
  let hdr := <[1%nat := 0x53]> hdr in
  let hdr := <[2%nat := 0x42]> hdr in
  let hdr := <[3%nat := 0x46]> hdr in
  let hdr := <[4%nat := 1]> hdr in
  let hdr := <[5%nat := 0]> hdr in
  let hdr := <[6%nat := 0]> hdr in
  let hdr := <[7%nat := 0]> hdr in
  let hdr := store_le32 8 (num_bytes_ b) hdr in
  let hdr := store_le32 12 (num_blocks_ b) hdr in
  let hdr := store_le32 16 (ndv_ b) hdr in
  let hdr := store_le32 20 (crc32c (take 20 hdr)) hdr in
  store_le32 24 (crc32c bits) hdr.

Section Builder.
Context `{BsbfEnv}.

Definition create (ndv : Z) (fpp : double) : result BsbfBuilder :=
  _ ← reject_if (negb (fpp_in_range fpp)) (InvalidArgument "bsbf: fpp out of (0,1)");
  let ndv := if ndv =? 0 then 1 else ndv in
  num_bytes ← bsbf_optimal_num_bytes ndv fpp;
  let num_blocks := num_bytes / kBsbfBytesPerBlock in
  Ok (mkBsbfBuilder (replicate (Z.to_nat (num_bytes / 4)) 0) num_bytes num_blocks ndv).

Definition insert (hash : Z) (b : BsbfBuilder) : result BsbfBuilder :=
  let block := bsbf_block_index hash (num_blocks_ b) in
  let key := u32 hash in
  words ← (if cpu_has_avx2 then insert_avx2 (words_ b) block key else insert_scalar (words_ b) block key);
  Ok (mkBsbfBuilder words (num_bytes_ b) (num_blocks_ b) (ndv_ b)).

Definition insert_term (term : bytes) (b : BsbfBuilder) : result BsbfBuilder := insert (bsbf_hash term) b.

Definition maybe_contains (b : BsbfBuilder) (hash : Z) : result bool :=
  let block := bsbf_block_index hash (num_blocks_ b) in
  let key := u32 hash in
  if cpu_has_avx2 then find_avx2 (words_ b) block key else find_scalar (words_ b) block key.

Definition maybe_contains_term (b : BsbfBuilder) (term : bytes) : result bool :=
  maybe_contains b (bsbf_hash term).
End Builder.

Definition serialize (b : BsbfBuilder) (sink : ByteSink) : result ByteSink :=
  _ ← reject_if (num_bytes_ b =? 0) (InvalidArgument "bsbf: not built");
  bits ← subslice (words_bytes (words_ b)) 0 (num_bytes_ b);
  let hdr := build_header b bits in
  Ok (sink |> put_bytes hdr |> put_bytes bits).

(** ** Resident header and probe *)

Record BsbfHeader := mkBsbfHeader { num_bytes : Z; num_blocks : Z; bitset_crc : Z; bitset_base : Z }.

Definition parse (h : Slice) (section_base : Z) : result BsbfHeader :=
  _ ← reject_if (zlen h <? kBsbfHeaderSize) (Corruption "bsbf: short header");
  let p (i : nat) := h !!! i in
  _ ← reject_if (negb (p 0%nat =? 0x42) || negb (p 1%nat =? 0x53) || negb (p 2%nat =? 0x42) ||
                 negb (p 3%nat =? 0x46)) (Corruption "bsbf: bad magic");
  _ ← reject_if (negb (p 4%nat =? 1)) (Corruption "bsbf: bad version");
  _ ← reject_if (negb (p 5%nat =? 0)) (Corruption "bsbf: unsupported hash strategy");
  _ ← reject_if (negb (p 6%nat =? 0)) (Corruption "bsbf: unsupported index strategy");
  stored ← load_le32 h 20;
  _ ← reject_if (negb (crc32c (take 20 h) =? stored)) (Corruption "bsbf: header crc mismatch");
  nb ← load_le32 h 8;
  nblk ← load_le32 h 12;
  _ ← reject_if ((nb <? kBsbfMinBytes) || (kBsbfMaxBytes <? nb) || negb (Z.land nb (u32 (nb - 1)) =? 0))
        (Corruption "bsbf: num_bytes out of range or not power of 2");
  _ ← reject_if (negb (nblk =? nb / kBsbfBytesPerBlock)) (Corruption "bsbf: num_blocks mismatch");
  bitset_crc ← load_le32 h 24;
  Ok (mkBsbfHeader nb nblk bitset_crc (u64 (section_base + kBsbfHeaderSize))).

Definition block_offset (header : BsbfHeader) (hash : Z) : Z :=
  u64 (bitset_base header + u64 (bsbf_block_index hash (num_blocks header) * kBsbfBytesPerBlock)).

Definition bsbf_probe `{BsbfEnv} (reader : FileReader) (header : BsbfHeader) (hash : Z) : result bool :=
  blk ← read_at reader (block_offset header hash) kBsbfBytesPerBlock;
  _ ← reject_if (zlen blk <? kBsbfBytesPerBlock) (Corruption "bsbf: short block read");
  bsbf_block_contains hash blk.

(** ** Laws of the environment *)

Definition is_m256 (x : list Z) : Prop := length x = 8%nat ∧ is_u32s x.

Class Avx2Laws `{Avx2Ops} := {
  mm256_set1_epi32_spec v : is_u32 v → mm256_set1_epi32 v = replicate 8 v;
  mm256_mullo_epi32_spec x y :
    is_m256 x → is_m256 y → mm256_mullo_epi32 x y = zip_with (λ a b, u32 (a * b)) x y;
  mm256_srli_epi32_spec x n : is_m256 x → 0 ≤ n < 32 → mm256_srli_epi32 x n = map (λ a, a ≫ n) x;
  mm256_sllv_epi32_spec x y :
    is_m256 x → is_m256 y → Forall (λ n, n < 32) y → mm256_sllv_epi32 x y = zip_with (λ a n, u32 (a ≪ n)) x y;
  mm256_or_si256_spec x y : is_m256 x → is_m256 y → mm256_or_si256 x y = zip_with Z.lor x y;
  mm256_testc_si256_spec x y :
    is_m256 x → is_m256 y →
    mm256_testc_si256 x y = if bool_decide (Forall2 (λ a b, Z.ldiff b a = 0) x y) then 1 else 0;
  mm256_loadu_si256_spec x : is_m256 x → mm256_loadu_si256 (words_bytes x) = x;
  mm256_storeu_si256_spec x : is_m256 x → mm256_storeu_si256 x = words_bytes x
}.

(** ** Masks *)

(** The bit a salt selects for a key. *)
Definition bit_pos (salt key : Z) : Z := u32 (key * salt) ≫ 27.

Lemma bit_pos_range salt key : 0 ≤ bit_pos salt key < 32.
Proof.
  unfold bit_pos. pose proof (u32_range (key * salt)) as Hr. rewrite Z.shiftr_div_pow2 by lia.
  unfold is_u32 in Hr. change (2 ^ 32) with 4294967296 in Hr. change (2 ^ 27) with 134217728. dlia.
Qed.

Lemma bit_mask_u32 p : 0 ≤ p < 32 → u32 (1 ≪ p) = 2 ^ p.
Proof.
  intros. rewrite Z.shiftl_1_l. apply u32_small. split; [lia|]. apply Z.pow_lt_mono_r; lia.
Qed.

Lemma pow2_u32 p : 0 ≤ p < 32 → is_u32 (2 ^ p).
Proof. intros. rewrite <- bit_mask_u32 by done. apply u32_range. Qed.

Lemma masks_scalar_spec key : masks_scalar key = map (λ salt, 2 ^ bit_pos salt key) kBsbfSalt.
Proof. apply map_ext. intros salt. apply bit_mask_u32, bit_pos_range. Qed.

Lemma masks_m256 key : is_m256 (masks_scalar key).
Proof.
  split; [done|]. rewrite masks_scalar_spec. apply Forall_fmap, Forall_true. intros salt.
  apply pow2_u32, bit_pos_range.
Qed.

(** [w & m == m] for a one-bit mask. *)
Lemma land_pow2 w p : 0 ≤ p → Z.land w (2 ^ p) = 2 ^ p ↔ Z.testbit w p = true.
Proof.
  intros Hp. split; intros H.
  - assert (Z.testbit (Z.land w (2 ^ p)) p = true) as Hb by (by rewrite H, Z.pow2_bits_true).
    by rewrite Z.land_spec, Z.pow2_bits_true, andb_true_r in Hb.
  - bitwise i. destruct (Z.eq_dec i p) as [->|Hne].
    + by rewrite H, Z.pow2_bits_true by lia.
    + rewrite !Z.pow2_bits_false by lia. apply andb_false_r.
Qed.

Lemma ldiff_land b a : Z.ldiff b a = 0 ↔ Z.land a b = b.
Proof.
  split; intros H; bitwise i.
  - assert (Z.testbit (Z.ldiff b a) i = false) as Hb by (by rewrite H, Z.bits_0).
    rewrite Z.ldiff_spec in Hb. destruct (Z.testbit a i), (Z.testbit b i); done.
  - rewrite <- H, Z.land_spec. by destruct (Z.testbit a i), (Z.testbit b i).
Qed.

(** ** The loops over a block *)

(** The eight words of a block cover a mask. *)
Definition covers (ws m : list Z) : Prop := Forall2 (λ w mi, Z.land w mi = mi) ws m.

#[export] Instance covers_dec ws m : Decision (covers ws m).
Proof. unfold covers. apply _. Defined.

Lemma contains_loop_spec load i m ws :
  length ws = length m →
  (∀ k w, ws !! k = Some w → load (i + k)%nat = Ok w) →
  contains_loop load i m = Ok (bool_decide (covers ws m)).
Proof.
  revert i ws. induction m as [|mi m IH]; intros i [|w ws] Hlen Hload; [| done | done |].
  { cbn [contains_loop]. by rewrite bool_decide_true by constructor. }
  cbn [contains_loop]. rewrite <- (Nat.add_0_r i) at 1. rewrite (Hload 0%nat w) by done. rewrite bind_Ok.
  rewrite (IH (S i) ws); [|by injection Hlen|].
  2: { intros k w' Hk. rewrite <- (Hload (S k) w') by done. f_equal. lia. }
  unfold covers. destruct (Z.eqb_spec (Z.land w mi) mi) as [He|He]; cbn [negb].
  - f_equal. apply bool_decide_ext. rewrite Forall2_cons. tauto.
  - rewrite bool_decide_false; [done|]. intros Hc. apply Forall2_cons in Hc. tauto.
Qed.

(** [ms] merged into [words] from index [j] on. *)
Definition or_at (words : list Z) (j : nat) (ms : list Z) : list Z :=
  take j words ++ zip_with Z.lor (take (length ms) (drop j words)) ms ++ drop (j + length ms) words.

Lemma insert_loop_spec ms words block i j :
  (∀ k, (k < length ms)%nat → word_index block (i + k) = (j + k)%nat) →
  (j + length ms ≤ length words)%nat →
  insert_loop words block i ms = Ok (or_at words j ms).
Proof.
  revert words i j. induction ms as [|mi ms IH]; intros words i j Hix Hlen; cbn [insert_loop].
  { unfold or_at. cbn [length]. rewrite Nat.add_0_r. by rewrite zip_with_nil_r, app_nil_l, take_drop. }
  cbn [length] in Hix, Hlen. pose proof (Hix 0%nat ltac:(lia)) as H0. rewrite !Nat.add_0_r in H0. rewrite H0.
  destruct (lookup_lt_is_Some_2 words j ltac:(lia)) as [w Hw]. unfold word_at at 1. rewrite Hw, bind_Ok.
  rewrite (IH _ (S i) (S j)); [|intros k Hk; replace (S i + k)%nat with (i + S k)%nat by lia; rewrite Hix by lia; lia
    |rewrite length_insert; lia].
  f_equal. unfold or_at. cbn [length]. rewrite !drop_insert_lt by lia.
  rewrite (drop_S words w j) by done. cbn [take zip_with].
  rewrite (take_S_r (<[j:=_]> words) j (Z.lor w mi)) by (apply list_lookup_insert_eq; lia).
  rewrite take_insert_ge by lia. rewrite <- app_assoc. cbn [app]. by rewrite Nat.add_succ_comm.
Qed.

Lemma or_at_length words j ms : (j + length ms ≤ length words)%nat → length (or_at words j ms) = length words.
Proof.
  intros. unfold or_at. rewrite !length_app, length_zip_with, !length_take, !length_drop. lia.
Qed.

Lemma or_at_u32s words j ms : is_u32s words → is_u32s ms → is_u32s (or_at words j ms).
Proof.
  intros Hw Hm. unfold or_at. apply Forall_app_2; [by apply Forall_take|].
  apply Forall_app_2; [|by apply Forall_drop]. apply Forall_lookup. intros i x Hx.
  apply lookup_zip_with_Some in Hx as (a & b & -> & Ha & Hb). apply lor_range; [lia| |].
  - refine (Forall_lookup_1 is_u32 _ _ _ _ Ha). by apply Forall_take, Forall_drop.
  - exact (Forall_lookup_1 is_u32 _ _ _ Hm Hb).
Qed.

Lemma or_at_lookup words j ms k w :
  words !! k = Some w → (j + length ms ≤ length words)%nat →
  or_at words j ms !! k = Some (if decide (j ≤ k < j + length ms)%nat then Z.lor w (ms !!! (k - j)%nat) else w).
Proof.
  intros Hw Hlen. unfold or_at. pose proof (lookup_lt_Some _ _ _ Hw) as Hk.
  destruct (decide (k < j)%nat) as [Hlt|Hge].
  { rewrite lookup_app_l by (rewrite length_take; lia). rewrite lookup_take_lt by lia.
    by rewrite decide_False by lia. }
  rewrite lookup_app_r by (rewrite length_take; lia). rewrite length_take, Nat.min_l by lia.
  assert (length (zip_with Z.lor (take (length ms) (drop j words)) ms) = length ms) as Hz.
  { rewrite length_zip_with, length_take, length_drop. lia. }
  destruct (decide (k < j + length ms)%nat) as [Hin|Hout].
  - rewrite decide_True by lia. rewrite lookup_app_l by lia. apply lookup_zip_with_Some.
    exists w, (ms !!! (k - j)%nat). split; [done|]. rewrite lookup_take_lt, lookup_drop by lia.
    split; [by replace (j + (k - j))%nat with k by lia|]. apply list_lookup_lookup_total_lt. lia.
  - rewrite decide_False by lia. rewrite lookup_app_r by lia. rewrite Hz, lookup_drop.
    by replace (j + length ms + (k - j - length ms))%nat with k by lia.
Qed.

(** ** Words and their bytes *)

Lemma words_bytes_cover n b :
  is_bytes b → length b = (4 * n)%nat →
  ∃ ws, length ws = n ∧ is_u32s ws ∧ b = words_bytes ws.
Proof.
  revert b. induction n as [|n IH]; intros b Hb Hlen.
  { exists []. by destruct b. }
  destruct (fixed32_cover b Hb ltac:(lia)) as (v & rest & Hv & -> & Hrest & Hl).
  destruct (IH rest Hrest) as (ws & Hn & Hws & ->); [lia|].
  exists (v :: ws). split_and!; [cbn; lia|by constructor|done].
Qed.

Lemma load_le32_fixed32 pre w rest off :
  is_u32 w → off = length pre → load_le32 (pre ++ fixed32 w ++ rest) off = Ok w.
Proof.
  intros Hw ->. unfold load_le32. rewrite drop_app_length. cbn [fixed32 le_bytes app].
  unfold fixed32. cbn [le_bytes app]. f_equal.
  change (Crc32c.load_le32 (u8 (w ≫ (8 * 0))) (u8 (w ≫ (8 * (0 + 1)))) (u8 (w ≫ (8 * (0 + 1 + 1))))
    (u8 (w ≫ (8 * (0 + 1 + 1 + 1)))) = w).
  rewrite load_le32_word. change (little_endian_to_Z 8 (le_bytes 4 w 0) = w).
  rewrite le_bytes_digits by (unfold is_u32 in Hw; lia).
  change (8 * 0) with 0. rewrite Z.shiftr_0_r. by apply u32_small.
Qed.

Lemma load_le32_words ws i w : is_u32s ws → ws !! i = Some w → load_le32 (words_bytes ws) (4 * i) = Ok w.
Proof.
  intros Hws Hi. rewrite (list_split_at ws i w Hi), words_bytes_app, words_bytes_cons.
  apply load_le32_fixed32; [by apply (Forall_lookup_1 is_u32 ws i)|].
  rewrite words_bytes_length, length_take. apply lookup_lt_Some in Hi. lia.
Qed.

(** ** What the kernels compute *)

Definition fits (words : list Z) (block : Z) : Prop :=
  0 ≤ block ∧ block * 8 + 8 ≤ zlen words < 2 ^ 32.

Lemma fits_index words block k :
  fits words block → (k ≤ 8)%nat → word_index block k = (Z.to_nat (block * 8) + k)%nat.
Proof.
  intros (? & ? & Hl) ?. change (2 ^ 32) with 4294967296 in Hl. unfold word_index.
  rewrite u32_small by ulia. lia.
Qed.

Lemma insert_scalar_spec words block key :
  fits words block →
  insert_scalar words block key = Ok (or_at words (Z.to_nat (block * 8)) (masks_scalar key)).
Proof.
  intros Hf. apply insert_loop_spec.
  - intros k Hk. change (length (masks_scalar key)) with 8%nat in Hk. apply (fits_index words); [done|lia].
  - change (length (masks_scalar key)) with 8%nat. destruct Hf. lia.
Qed.

Definition block_at (words : list Z) (block : Z) : list Z := take 8 (drop (Z.to_nat (block * 8)) words).

Lemma block_at_length words block : fits words block → length (block_at words block) = 8%nat.
Proof. intros (? & ? & ?). unfold block_at. rewrite length_take, length_drop. lia. Qed.

Lemma block_at_lookup words block k w :
  block_at words block !! k = Some w → words !! (Z.to_nat (block * 8) + k)%nat = Some w ∧ (k < 8)%nat.
Proof. unfold block_at. intros [Hw Hk]%lookup_take_Some. by rewrite lookup_drop in Hw. Qed.

Lemma find_scalar_spec words block key :
  fits words block →
  find_scalar words block key = Ok (bool_decide (covers (block_at words block) (masks_scalar key))).
Proof.
  intros Hf. apply contains_loop_spec; [by rewrite block_at_length|].
  intros k w [Hw Hk]%block_at_lookup. cbn [Nat.add]. rewrite (fits_index words) by (done || lia).
  unfold word_at. by rewrite Hw.
Qed.

Lemma block_contains_scalar_spec hash ws :
  is_m256 ws →
  block_contains_scalar hash (words_bytes ws) = Ok (bool_decide (covers ws (masks_scalar (u32 hash)))).
Proof.
  intros [Hl Hws]. apply contains_loop_spec; [done|]. intros k w Hk. by apply load_le32_words.
Qed.

Lemma block_words_spec words block : fits words block → block_words words block = Ok (block_at words block).
Proof.
  intros Hf. unfold block_words. pose proof (fits_index words block 0 Hf ltac:(lia)) as H0.
  unfold word_index in H0. rewrite Z.add_0_r, Nat.add_0_r in H0. rewrite H0. destruct Hf as (? & ? & ?).
  rewrite (proj2 (Nat.leb_le _ _)) by lia. done.
Qed.

Lemma block_at_m256 words block : fits words block → is_u32s words → is_m256 (block_at words block).
Proof. intros. split; [by apply block_at_length|]. unfold block_at. by apply Forall_take, Forall_drop. Qed.

Section Avx2.
Context `{BsbfEnv} `{!Avx2Laws}.

Lemma mask_avx2_scalar key : is_u32 key → mask_avx2 key = masks_scalar key.
Proof.
  intros Hk. unfold mask_avx2. cbv zeta.
  assert (is_m256 kBsbfSalt) as Hsalt.
  { split; [done|]. unfold kBsbfSalt. auto 10 with snii. }
  assert (∀ v, is_u32 v → is_m256 (replicate 8 v)) as Hrep by (intros; split; [done|by apply Forall_replicate]).
  rewrite !mm256_set1_epi32_spec by (done || ulia).
  rewrite mm256_mullo_epi32_spec by (done || by apply Hrep).
  change (zip_with _ (replicate 8 key) kBsbfSalt) with (map (λ salt, u32 (key * salt)) kBsbfSalt).
  rewrite mm256_srli_epi32_spec; [|split; [done|apply Forall_fmap, Forall_true; intros; apply u32_range]|lia].
  rewrite map_map. change (map _ kBsbfSalt) with (map (λ salt, bit_pos salt key) kBsbfSalt).
  pose proof (λ salt, bit_pos_range salt key) as Hr.
  rewrite mm256_sllv_epi32_spec; [done|apply Hrep; ulia|split; [done|]|].
  all: apply Forall_fmap, Forall_true; intros salt; specialize (Hr salt); cbn -[bit_pos]; ulia.
Qed.

Lemma testc_covers ws m :
  is_m256 ws → is_m256 m → negb (mm256_testc_si256 ws m =? 0) = bool_decide (covers ws m).
Proof.
  intros Hw Hm. rewrite mm256_testc_si256_spec by done.
  rewrite (bool_decide_ext _ (covers ws m)); [by case_bool_decide|].
  unfold covers. split; intros Hc; (eapply Forall2_impl; [exact Hc|]); intros ??; apply ldiff_land.
Qed.

Lemma insert_avx2_spec words block key :
  fits words block → is_u32s words → is_u32 key →
  insert_avx2 words block key = Ok (or_at words (Z.to_nat (block * 8)) (masks_scalar key)).
Proof.
  intros Hf Hw Hk. unfold insert_avx2. rewrite block_words_spec, bind_Ok by done. cbv zeta.
  pose proof (block_at_m256 _ _ Hf Hw) as Hm. pose proof (masks_m256 key) as Hmask.
  rewrite mm256_loadu_si256_spec, mask_avx2_scalar, mm256_or_si256_spec by done.
  assert (is_m256 (zip_with Z.lor (block_at words block) (masks_scalar key))) as Hz.
  { split; [by rewrite length_zip_with, (proj1 Hm), (proj1 Hmask)|]. apply Forall_lookup. intros i x Hx.
    apply lookup_zip_with_Some in Hx as (a & b & -> & Ha & Hb).
    apply lor_range; [lia|exact (Forall_lookup_1 is_u32 _ _ _ (proj2 Hm) Ha)
      |exact (Forall_lookup_1 is_u32 _ _ _ (proj2 Hmask) Hb)]. }
  rewrite mm256_storeu_si256_spec, words_of_bytes by (done || apply Hz).
  pose proof (fits_index words block 0 Hf ltac:(lia)) as Hj. unfold word_index in Hj.
  rewrite Z.add_0_r, Nat.add_0_r in Hj. by rewrite Hj.
Qed.

Lemma find_avx2_spec words block key :
  fits words block → is_u32s words → is_u32 key →
  find_avx2 words block key = Ok (bool_decide (covers (block_at words block) (masks_scalar key))).
Proof.
  intros Hf Hw Hk. unfold find_avx2. rewrite block_words_spec, bind_Ok by done.
  rewrite mm256_loadu_si256_spec, mask_avx2_scalar by (done || by apply block_at_m256).
  rewrite testc_covers; [done|by apply block_at_m256|apply masks_m256].
Qed.

Lemma block_contains_avx2_spec hash ws :
  is_m256 ws →
  block_contains_avx2 hash (words_bytes ws) = Ok (bool_decide (covers ws (masks_scalar (u32 hash)))).
Proof.
  intros Hws. unfold block_contains_avx2. rewrite words_bytes_length, (proj1 Hws). cbn [Nat.mul Nat.add Nat.ltb Nat.leb].
  rewrite take_ge by by rewrite words_bytes_length, (proj1 Hws).
  rewrite mm256_loadu_si256_spec, mask_avx2_scalar by (done || apply u32_range).
  rewrite testc_covers; [done|done|apply masks_m256].
Qed.

Lemma bsbf_block_contains_spec hash ws :
  is_m256 ws →
  bsbf_block_contains hash (words_bytes ws) = Ok (bool_decide (covers ws (masks_scalar (u32 hash)))).
Proof.
  intros. unfold bsbf_block_contains. destruct cpu_has_avx2;
    [by apply block_contains_avx2_spec|by apply block_contains_scalar_spec].
Qed.
End Avx2.

(** ** The set a filter holds *)

Lemma bsbf_block_index_range hash nb :
  is_u64 hash → 1 ≤ nb < 2 ^ 32 → 0 ≤ bsbf_block_index hash nb < nb.
Proof.
  intros Hh Hnb. unfold bsbf_block_index. rewrite !Z.shiftr_div_pow2 by lia.
  change (2 ^ 32) with 4294967296 in *. set (x := hash / 4294967296).
  assert (0 ≤ x < 4294967296) as Hx by (subst x; ulia || (unfold is_u64 in Hh; change (2 ^ 64) with 18446744073709551616 in Hh; dlia)).
  assert (0 ≤ x * nb ≤ 4294967295 * nb) as Hp by nia.
  rewrite u64_small by ulia. assert (0 ≤ x * nb / 4294967296 < nb) as Hq by dlia.
  rewrite u32_small by ulia. done.
Qed.

Definition wf_builder (b : BsbfBuilder) : Prop :=
  1 ≤ num_blocks_ b ≤ 2 ^ 22 ∧ num_bytes_ b = 32 * num_blocks_ b ∧ zlen (words_ b) = num_blocks_ b * 8 ∧
  is_u32s (words_ b) ∧ is_u32 (ndv_ b) ∧ Z.land (num_bytes_ b) (num_bytes_ b - 1) = 0.

(** Bit [p] of word [i] of block [blk] is set for the hash [h]. *)
Definition sets (nb : Z) (blk : Z) (i : nat) (p h : Z) : Prop :=
  bsbf_block_index h nb = blk ∧ bit_pos (kBsbfSalt !!! i) (u32 h) = p.

#[export] Instance sets_dec nb blk i p h : Decision (sets nb blk i p h).
Proof. unfold sets. apply _. Defined.

Definition represents (b : BsbfBuilder) (hs : list Z) : Prop :=
  wf_builder b ∧
  ∀ blk i p w, 0 ≤ blk < num_blocks_ b → (i < 8)%nat → 0 ≤ p → words_ b !! (Z.to_nat (blk * 8) + i)%nat = Some w →
    Z.testbit w p = bool_decide (Exists (sets (num_blocks_ b) blk i p) hs).

Lemma wf_fits b hash : wf_builder b → is_u64 hash → fits (words_ b) (bsbf_block_index hash (num_blocks_ b)).
Proof.
  intros (Hnb & _ & Hl & _) Hh. change (2 ^ 22) with 4194304 in Hnb.
  pose proof (bsbf_block_index_range hash (num_blocks_ b) Hh ltac:(lia)). unfold fits. lia.
Qed.

(** The words of one block cover the masks of a key iff every selected bit is set. *)
Lemma covers_masks words blk key :
  fits words blk →
  covers (block_at words blk) (masks_scalar key) ↔
  ∀ i w, (i < 8)%nat → words !! (Z.to_nat (blk * 8) + i)%nat = Some w → Z.testbit w (bit_pos (kBsbfSalt !!! i) key) = true.
Proof.
  intros Hf. unfold covers. rewrite Forall2_lookup, masks_scalar_spec. split.
  - intros Hc i w Hi Hw. specialize (Hc i). unfold block_at in Hc. rewrite lookup_take_lt, lookup_drop, Hw in Hc by done.
    rewrite list_lookup_fmap, (list_lookup_lookup_total_lt kBsbfSalt) in Hc by (cbn; lia). cbn in Hc.
    inversion Hc as [? ? He|]; subst. by apply land_pow2 in He; [|apply bit_pos_range].
  - intros Hb i. destruct (decide (i < 8)%nat) as [Hi|Hi].
    + rewrite list_lookup_fmap, (list_lookup_lookup_total_lt kBsbfSalt) by (cbn; lia). cbn.
      unfold block_at. rewrite lookup_take_lt, lookup_drop by done. destruct Hf as (? & ? & ?).
      destruct (lookup_lt_is_Some_2 words (Z.to_nat (blk * 8) + i)%nat ltac:(lia)) as [w Hw]. rewrite Hw.
      constructor. apply land_pow2; [apply bit_pos_range|eauto].
    + rewrite !lookup_ge_None_2; [constructor|cbn; lia|]. rewrite block_at_length by done. lia.
Qed.

Section Filter.
Context `{BsbfEnv} `{!Avx2Laws}.

Lemma insert_spec b hash :
  wf_builder b → is_u64 hash →
  insert hash b = Ok (mkBsbfBuilder
    (or_at (words_ b) (Z.to_nat (bsbf_block_index hash (num_blocks_ b) * 8)) (masks_scalar (u32 hash)))
    (num_bytes_ b) (num_blocks_ b) (ndv_ b)).
Proof.
  intros Hb Hh. unfold insert. pose proof (wf_fits b hash Hb Hh) as Hf. cbv zeta.
  rewrite insert_scalar_spec by done.
  rewrite insert_avx2_spec by (done || apply Hb || apply u32_range). by destruct cpu_has_avx2.
Qed.

Lemma maybe_contains_spec b hash :
  wf_builder b → is_u64 hash →
  maybe_contains b hash =
    Ok (bool_decide (covers (block_at (words_ b) (bsbf_block_index hash (num_blocks_ b))) (masks_scalar (u32 hash)))).
Proof.
  intros Hb Hh. unfold maybe_contains. pose proof (wf_fits b hash Hb Hh) as Hf. cbv zeta.
  rewrite find_scalar_spec by done.
  rewrite find_avx2_spec by (done || apply Hb || apply u32_range). by destruct cpu_has_avx2.
Qed.

(** One insertion adds one element to the represented set. *)
Lemma insert_represents b hs hash :
  represents b hs → is_u64 hash →
  ∃ b', insert hash b = Ok b' ∧ represents b' (hs ++ [hash]) ∧ num_blocks_ b' = num_blocks_ b.
Proof.
  intros [Hb Hrep] Hh. rewrite insert_spec by done. eexists. split; [done|]. cbn [num_blocks_]. split; [|done].
  pose proof (wf_fits b hash Hb Hh) as (Hb0 & Hlen & Hmax). destruct Hb as (Hnb & Hbytes & Hl & Hw & Hndv & Hpow).
  set (j := Z.to_nat (bsbf_block_index hash (num_blocks_ b) * 8)). pose proof (masks_m256 (u32 hash)) as [Hml Hmu].
  assert (j + length (masks_scalar (u32 hash)) ≤ length (words_ b))%nat as Hj by (rewrite Hml; lia).
  split.
  { split_and!; cbn [num_blocks_ num_bytes_ words_ ndv_]; [lia..|by rewrite or_at_length| |done|done].
    by apply or_at_u32s. }
  cbn [num_blocks_ words_]. intros blk i p w Hblk Hi Hp Hlook.
  destruct (lookup_lt_is_Some_2 (words_ b) (Z.to_nat (blk * 8) + i)%nat ltac:(lia)) as [w0 Hw0].
  rewrite (or_at_lookup _ _ _ _ _ Hw0 Hj) in Hlook. apply (inj Some) in Hlook; rewrite <- Hlook; clear Hlook.
  specialize (Hrep blk i p w0 Hblk Hi Hp Hw0). rewrite Hml.
  rewrite (bool_decide_ext _ (Exists (sets (num_blocks_ b) blk i p) hs ∨ sets (num_blocks_ b) blk i p hash)).
  2: { rewrite Exists_app, Exists_cons, Exists_nil. tauto. }
  rewrite bool_decide_or. destruct (decide _) as [Hin|Hout].
  - assert (blk = bsbf_block_index hash (num_blocks_ b)) as -> by lia.
    replace (Z.to_nat (bsbf_block_index hash (num_blocks_ b) * 8) + i - j)%nat with i by lia.
    rewrite Z.lor_spec, Hrep. f_equal. rewrite masks_scalar_spec.
    rewrite (list_lookup_total_fmap (λ salt, 2 ^ bit_pos salt (u32 hash)) kBsbfSalt i) by (cbn; lia). rewrite Z.pow2_bits_eqb by apply bit_pos_range.
    unfold sets. rewrite (bool_decide_ext _ (bit_pos (kBsbfSalt !!! i) (u32 hash) = p)) by tauto.
    by destruct (Z.eqb_spec (bit_pos (kBsbfSalt !!! i) (u32 hash)) p); [rewrite bool_decide_true|rewrite bool_decide_false].
  - rewrite Hrep. rewrite (bool_decide_false (sets _ _ _ _ _)); [by rewrite orb_false_r|]. intros [He _]. subst blk. lia.
Qed.
End Filter.

(** ** Sizing *)

Lemma land_pred_pow2 n : 0 < n → Z.land n (n - 1) = 0 → n = 2 ^ Z.log2 n.
Proof.
  intros Hn Hland. pose proof (Z.log2_spec n Hn) as [Hlo Hhi]. destruct (Z.eq_dec n (2 ^ Z.log2 n)) as [|Hne]; [done|].
  pose proof (Z.log2_nonneg n). pose proof (Z.pow_pos_nonneg 2 (Z.log2 n)).
  assert (Z.log2 (n - 1) = Z.log2 n) as He by (apply Z.log2_unique; lia).
  assert (Z.testbit (Z.land n (n - 1)) (Z.log2 n) = true) as Hb.
  { rewrite Z.land_spec, Z.bit_log2 by done. rewrite <- He at 1. rewrite Z.bit_log2 by lia. done. }
  by rewrite Hland, Z.bits_0 in Hb.
Qed.

Lemma pow2_land_pred k : 0 ≤ k → Z.land (2 ^ k) (2 ^ k - 1) = 0.
Proof.
  intros Hk. change (2 ^ k - 1) with (Z.pred (2 ^ k)). rewrite <- Z.ones_equiv.
  rewrite Z.land_ones by done. apply Z.mod_same. lia.
Qed.

Lemma pow2_loop_spec fuel k nb :
  0 ≤ k ≤ 30 → (31 - k <= Z.of_nat fuel) → nb ≤ 2 ^ 30 →
  ∃ k', pow2_loop fuel (2 ^ k) nb = Ok (2 ^ k') ∧ k ≤ k' ≤ 30 ∧ nb ≤ 2 ^ k' ∧ (k' = k ∨ 2 ^ (k' - 1) < nb).
Proof.
  revert k. induction fuel as [|fuel IH]; intros k Hk Hf Hnb; [lia|]. cbn [pow2_loop].
  destruct (Z.ltb_spec (2 ^ k) nb) as [Hlt|Hge]; [|exists k; split_and!; [done|lia..|by left]].
  assert (k < 30) as Hk30 by (apply (Z.pow_lt_mono_r_iff 2); lia).
  rewrite Z.shiftl_mul_pow2 by lia. change (2 ^ 1) with 2.
  replace (2 ^ k * 2) with (2 ^ (k + 1)) by (rewrite Z.pow_add_r; lia).
  rewrite u32_small by (apply pow2_u32; lia).
  destruct (IH (k + 1)) as (k' & -> & Hk' & Hle & Hor); [lia..|].
  exists k'. split_and!; [done|lia..|]. right. destruct Hor as [->|]; [|done]. by replace (k + 1 - 1) with k by lia.
Qed.

(** The size in bytes for [num_bits] bits. *)
Lemma round_num_bits_spec num_bits :
  0 ≤ num_bits ≤ 2 ^ 30 →
  ∃ k, round_num_bits num_bits = Ok (2 ^ k) ∧ 5 ≤ k ≤ 27 ∧ num_bits ≤ 8 * 2 ^ k ∧ (k = 5 ∨ 4 * 2 ^ k < num_bits).
Proof.
  intros Hnb. unfold round_num_bits. change (kBsbfMinBytes ≪ 3) with (2 ^ 8). change (kBsbfMaxBytes ≪ 3) with (2 ^ 30).
  set (n := if num_bits <? 2 ^ 8 then 2 ^ 8 else num_bits).
  assert (2 ^ 8 ≤ n ≤ 2 ^ 30 ∧ num_bits ≤ n ∧ (n = 2 ^ 8 ∨ n = num_bits)) as (Hn & Hle & Hor).
  { subst n. destruct (Z.ltb_spec num_bits (2 ^ 8)); lia. }
  clearbody n. cbv zeta.
  assert (∃ k, (if negb (Z.land n (n - 1) =? 0) then pow2_loop 32 1 n else Ok n) = Ok (2 ^ k) ∧
    8 ≤ k ≤ 30 ∧ n ≤ 2 ^ k ∧ (k = 8 ∨ 2 ^ (k - 1) < n)) as (k & -> & Hk & Hnk & Hmin).
  { destruct (Z.eqb_spec (Z.land n (n - 1)) 0) as [He|_]; cbn [negb].
    - apply land_pred_pow2 in He; [|lia]. exists (Z.log2 n). rewrite <- He. split; [done|].
      assert (8 ≤ Z.log2 n) by (apply Z.log2_le_pow2; lia).
      assert (Z.log2 n ≤ 30) by (apply (Z.pow_le_mono_r_iff 2); lia).
      split_and!; [lia..|]. right. rewrite He at 2. apply Z.pow_lt_mono_r; lia.
    - destruct (pow2_loop_spec 32 0 n) as (k & Hgo & Hk & Hnk & Hmin); [lia..|]. change (2 ^ 0) with 1 in Hgo.
      assert (8 ≤ k) by (apply (Z.pow_le_mono_r_iff 2); lia). exists k. split_and!; [done|lia..|].
      destruct Hmin as [->|]; [lia|by right]. }
  rewrite bind_Ok. assert (2 ^ k ≤ 2 ^ 30) by (apply Z.pow_le_mono_r; lia).
  rewrite (proj2 (Z.ltb_ge _ _)) by lia. exists (k - 3). rewrite Z.shiftr_div_pow2 by lia.
  replace (2 ^ k) with (2 ^ (k - 3) * 2 ^ 3) in * by (rewrite <- Z.pow_add_r by lia; f_equal; lia).
  rewrite Z.div_mul by lia. split_and!; [done|lia..|].
  destruct Hmin as [Hmin|Hmin]; [left; lia|]. destruct Hor as [Ho|Ho]; [|right]; subst n.
  - left. assert (k - 1 < 8) by (apply (Z.pow_lt_mono_r_iff 2); lia). lia.
  - replace (k - 1) with (k - 3 + 2) in Hmin by lia. rewrite Z.pow_add_r in Hmin by lia. lia.
Qed.

Class BsbfEnvLaws `{BsbfEnv} := {
  bsbf_avx2_laws :: Avx2Laws;
  (** the cast value lies in the range the comparison let through *)
  optimal_num_of_bits_range ndv fpp m : optimal_num_of_bits ndv fpp = Some m → 0 ≤ m ≤ 2 ^ 30;
  XXH64_u64 term seed : is_u64 (XXH64 term seed)
}.

Section Sizing.
Context `{BsbfEnvLaws}.

Lemma optimal_num_bytes_spec ndv fpp :
  ∃ k, bsbf_optimal_num_bytes ndv fpp = Ok (2 ^ k) ∧ 5 ≤ k ≤ 27.
Proof.
  unfold bsbf_optimal_num_bytes. destruct (optimal_num_of_bits ndv fpp) as [m|] eqn:Hm.
  - apply optimal_num_of_bits_range in Hm. destruct (round_num_bits_spec m Hm) as (k & ? & ? & _). eauto.
  - destruct (round_num_bits_spec (2 ^ 30)) as (k & ? & ? & _); [lia|]. eauto.
Qed.

Lemma pow2_blocks k : 5 ≤ k ≤ 27 → 2 ^ k = 32 * 2 ^ (k - 5) ∧ 1 ≤ 2 ^ (k - 5) ≤ 2 ^ 22.
Proof.
  intros Hk. split.
  - change 32 with (2 ^ 5). rewrite <- Z.pow_add_r by lia. f_equal. lia.
  - change 1 with (2 ^ 0). split; apply Z.pow_le_mono_r; lia.
Qed.

(** A fresh filter is well formed and holds nothing. *)
Lemma create_represents ndv fpp :
  fpp_in_range fpp = true → is_u32 ndv → ∃ b, create ndv fpp = Ok b ∧ represents b [].
Proof.
  intros Hf Hn. unfold create. rewrite Hf. cbn [negb reject_if]. rewrite bind_Ok. cbv zeta.
  destruct (optimal_num_bytes_spec (if ndv =? 0 then 1 else ndv) fpp) as (k & -> & Hk). rewrite bind_Ok.
  destruct (pow2_blocks k Hk) as [Hpow Hblk]. eexists. split; [done|]. unfold kBsbfBytesPerBlock.
  assert (2 ^ k / 32 = 2 ^ (k - 5)) as Hdiv by (rewrite Hpow, Z.mul_comm; apply Z.div_mul; lia).
  assert (2 ^ k / 4 = 2 ^ (k - 5) * 8) as Hdiv4.
  { rewrite Hpow. replace (32 * 2 ^ (k - 5)) with (2 ^ (k - 5) * 8 * 4) by lia. apply Z.div_mul. lia. }
  rewrite Hdiv, Hdiv4. split.
  - split_and!; cbn [num_blocks_ num_bytes_ words_ ndv_]; [lia..| | | |].
    + rewrite length_replicate. lia.
    + apply Forall_replicate. ulia.
    + destruct (ndv =? 0); [ulia|done].
    + apply pow2_land_pred. lia.
  - intros blk i p w _ _ Hp [-> _]%lookup_replicate. rewrite Z.bits_0. symmetry. apply bool_decide_false. by intros ?%Exists_nil.
Qed.
End Sizing.

(** ** The serialized section *)

Definition header_prefix (b : BsbfBuilder) : bytes :=
  [0x42; 0x53; 0x42; 0x46; 1; 0; 0; 0] ++ fixed32 (num_bytes_ b) ++ fixed32 (num_blocks_ b) ++ fixed32 (ndv_ b).
Definition header_bytes (b : BsbfBuilder) : bytes :=
  header_prefix b ++ fixed32 (crc32c (header_prefix b)) ++ fixed32 (crc32c (words_bytes (words_ b))).

Lemma header_prefix_length b : length (header_prefix b) = 20%nat.
Proof. unfold header_prefix. by rewrite !length_app, !fixed32_length. Qed.

Lemma header_prefix_is_bytes b : is_bytes (header_prefix b).
Proof. unfold header_prefix. rewrite !Forall_app. split_and!; auto 10 with snii. Qed.

Lemma filter_header_length b : length (header_bytes b) = 28%nat.
Proof. unfold header_bytes. by rewrite !length_app, !fixed32_length, header_prefix_length. Qed.

Lemma store_le32_app pre old post p v :
  p = length pre → length old = 4%nat → store_le32 p v (pre ++ old ++ post) = pre ++ fixed32 v ++ post.
Proof.
  intros -> Hold. destruct old as [|o0 [|o1 [|o2 [|o3 [|]]]]]; [done..| |done]. unfold store_le32.
  rewrite !insert_app_r_alt by lia. rewrite !Nat.sub_diag, !Nat.add_sub_swap, Nat.sub_diag by lia.
  cbn [Nat.add insert list_insert app]. unfold fixed32. cbn [le_bytes app]. by rewrite Z.shiftr_0_r.
Qed.

Lemma build_header_bytes b : build_header b (words_bytes (words_ b)) = header_bytes b.
Proof.
  unfold build_header. set (c := crc32c (words_bytes (words_ b))).
  set (magic := [0x42; 0x53; 0x42; 0x46; 1; 0; 0; 0]).
  change (<[7%nat:=0]> _) with (magic ++ [0; 0; 0; 0] ++ replicate 16 0).
  rewrite store_le32_app by done. cbv zeta.
  change (replicate 16 0) with ([0; 0; 0; 0] ++ replicate 12 0).
  rewrite (app_assoc magic), store_le32_app by (rewrite ?length_app, ?fixed32_length; done).
  change (replicate 12 0) with ([0; 0; 0; 0] ++ replicate 8 0).
  rewrite (app_assoc (magic ++ _)), store_le32_app by (rewrite ?length_app, ?fixed32_length; done).
  assert (((magic ++ fixed32 (num_bytes_ b)) ++ fixed32 (num_blocks_ b)) ++ fixed32 (ndv_ b) ++ replicate 8 0 =
    header_prefix b ++ [0; 0; 0; 0] ++ [0; 0; 0; 0]) as ->.
  { unfold header_prefix. by rewrite <- !app_assoc. }
  rewrite take_app_length_exact by by rewrite header_prefix_length.
  rewrite store_le32_app by (rewrite ?header_prefix_length; done).
  pose proof (store_le32_app (header_prefix b ++ fixed32 (crc32c (header_prefix b))) [0; 0; 0; 0] [] 24 c) as Hs.
  rewrite !app_nil_r, <- !app_assoc in Hs. unfold header_bytes. apply Hs; [|done].
  by rewrite length_app, header_prefix_length, fixed32_length.
Qed.

Lemma serialize_app b sink :
  wf_builder b → serialize b sink = Ok (sink ++ header_bytes b ++ words_bytes (words_ b)).
Proof.
  intros (Hnb & Hbytes & Hl & _). unfold serialize. rewrite (proj2 (Z.eqb_neq _ _)) by lia. cbn [reject_if].
  rewrite bind_Ok, subslice_ok by (rewrite words_bytes_length; lia). rewrite bind_Ok. cbv zeta.
  change (Z.to_nat 0) with 0%nat. rewrite drop_0, take_ge by (rewrite words_bytes_length; lia).
  rewrite build_header_bytes. unfold put_bytes. by rewrite <- app_assoc.
Qed.

Lemma parse_header_bytes b base :
  wf_builder b →
  parse (header_bytes b) base =
    Ok (mkBsbfHeader (num_bytes_ b) (num_blocks_ b) (crc32c (words_bytes (words_ b))) (u64 (base + 28))).
Proof.
  intros (Hnb & Hbytes & Hl & Hw & Hndv & Hpow). change (2 ^ 22) with 4194304 in Hnb. unfold parse.
  rewrite filter_header_length. cbn [Z.of_nat]. rewrite bind_reject_false by done.
  rewrite bind_reject_false by done. rewrite bind_reject_false by done. rewrite bind_reject_false by done.
  rewrite bind_reject_false by done.
  set (c := crc32c (words_bytes (words_ b))). set (p := header_prefix b).
  assert (is_u32 c) as Hc by apply crc32c_range, words_bytes_is_bytes.
  assert (is_u32 (crc32c p)) as Hcp by apply crc32c_range, header_prefix_is_bytes.
  assert (header_bytes b = p ++ fixed32 (crc32c p) ++ fixed32 c) as -> by done.
  assert (p = [0x42; 0x53; 0x42; 0x46; 1; 0; 0; 0] ++ fixed32 (num_bytes_ b) ++ fixed32 (num_blocks_ b) ++ fixed32 (ndv_ b))
    as Hp by done.
  assert (length p = 20%nat) as Hlp by apply header_prefix_length.
  clearbody p c.
  rewrite (load_le32_fixed32 p (crc32c p) (fixed32 c) 20 Hcp (eq_sym Hlp)), bind_Ok.
  rewrite take_app_length_exact by by rewrite Hlp.
  rewrite bind_reject_false by by rewrite Z.eqb_refl.
  assert (load_le32 (p ++ fixed32 (crc32c p) ++ fixed32 c) 8 = Ok (num_bytes_ b)) as ->.
  { rewrite Hp, <- !app_assoc. apply load_le32_fixed32; [ulia|done]. }
  assert (load_le32 (p ++ fixed32 (crc32c p) ++ fixed32 c) 12 = Ok (num_blocks_ b)) as ->.
  { rewrite Hp, <- !app_assoc, app_assoc. apply load_le32_fixed32; [ulia|by rewrite length_app, fixed32_length]. }
  rewrite !bind_Ok. unfold kBsbfMinBytes, kBsbfMaxBytes. rewrite u32_small by ulia. rewrite Hpow.
  rewrite bind_reject_false by (rewrite !(proj2 (Z.ltb_ge _ _)) by lia; done).
  assert (num_bytes_ b / kBsbfBytesPerBlock = num_blocks_ b) as ->.
  { rewrite Hbytes, Z.mul_comm. apply Z.div_mul. done. }
  rewrite bind_reject_false by by rewrite Z.eqb_refl.
  rewrite <- (app_nil_r (fixed32 c)), (app_assoc p).
  rewrite load_le32_fixed32; [done|done|]. by rewrite length_app, fixed32_length, Hlp.
Qed.

Definition insert_all `{BsbfEnv} (hs : list Z) (b : BsbfBuilder) : result BsbfBuilder := fold_result insert hs b.

Section FilterContents.
Context `{BsbfEnvLaws}.

Lemma insert_all_represents hs b hs0 :
  represents b hs0 → Forall is_u64 hs → ∃ b', insert_all hs b = Ok b' ∧ represents b' (hs0 ++ hs).
Proof.
  intros Hb Hhs. revert b hs0 Hb. induction Hhs as [|h hs Hh Hhs IH]; intros b hs0 Hb; cbn [insert_all fold_result].
  { exists b. by rewrite app_nil_r. }
  destruct (insert_represents b hs0 h Hb Hh) as (b1 & -> & Hb1 & _). rewrite bind_Ok.
  destruct (IH b1 (hs0 ++ [h]) Hb1) as (b' & Hgo & Hb'). exists b'. split; [done|]. by rewrite <- app_assoc in Hb'.
Qed.

(** The hashes [hs] set every bit that [h] selects. *)
Definition all_bits_set (nb : Z) (hs : list Z) (h : Z) : Prop :=
  Forall (λ i, Exists (sets nb (bsbf_block_index h nb) i (bit_pos (kBsbfSalt !!! i) (u32 h))) hs) (seq 0 8).

#[export] Instance all_bits_set_dec nb hs h : Decision (all_bits_set nb hs h).
Proof. unfold all_bits_set. apply _. Defined.

Lemma represents_maybe_contains b hs h :
  represents b hs → is_u64 h → maybe_contains b h = Ok (bool_decide (all_bits_set (num_blocks_ b) hs h)).
Proof.
  intros [Hb Hrep] Hh. rewrite maybe_contains_spec by done. f_equal. apply bool_decide_ext.
  pose proof (wf_fits b h Hb Hh) as Hf. rewrite covers_masks by done. unfold all_bits_set. rewrite Forall_seq.
  destruct Hb as (Hnb & _). change (2 ^ 22) with 4194304 in Hnb.
  pose proof (bsbf_block_index_range h (num_blocks_ b) Hh ltac:(lia)) as Hblk. destruct Hf as (_ & Hlen & _).
  assert (∀ i w, (i < 8)%nat → words_ b !! (Z.to_nat (bsbf_block_index h (num_blocks_ b) * 8) + i)%nat = Some w →
    Z.testbit w (bit_pos (kBsbfSalt !!! i) (u32 h)) = true ↔
    Exists (sets (num_blocks_ b) (bsbf_block_index h (num_blocks_ b)) i (bit_pos (kBsbfSalt !!! i) (u32 h))) hs) as Hbit.
  { intros i w Hi Hw. rewrite (Hrep (bsbf_block_index h (num_blocks_ b)) i) by (done || apply bit_pos_range).
    apply bool_decide_eq_true. }
  split.
  - intros Hc i [_ Hi]. destruct (lookup_lt_is_Some_2 (words_ b) (Z.to_nat (bsbf_block_index h (num_blocks_ b) * 8) + i)%nat ltac:(lia))
      as [w Hw]. by apply (Hbit i w ltac:(lia) Hw), Hc; [lia|].
  - intros He i w Hi Hw. apply (Hbit i w Hi Hw), He. lia.
Qed.

Lemma all_bits_set_elem nb hs h : h ∈ hs → all_bits_set nb hs h.
Proof. intros Hin. unfold all_bits_set. apply Forall_true. intros i. apply Exists_exists. by exists h. Qed.

(** The 32 bytes of the block a hash maps to. *)
Lemma words_bytes_block words blk :
  fits words blk →
  words_bytes words =
    words_bytes (take (Z.to_nat (blk * 8)) words) ++ words_bytes (block_at words blk) ++
    words_bytes (drop 8 (drop (Z.to_nat (blk * 8)) words)).
Proof. intros _. rewrite <- !words_bytes_app. unfold block_at. by rewrite !take_drop. Qed.

Lemma block_offset_eq hd hash nb base :
  num_blocks hd = nb → bitset_base hd = u64 (base + 28) → is_u64 hash → 1 ≤ nb ≤ 2 ^ 22 →
  0 ≤ base → base + 28 + 32 * nb ≤ 2 ^ 64 →
  block_offset hd hash = base + 28 + bsbf_block_index hash nb * 32.
Proof.
  intros Hn Hbase Hh Hnb Hb0 Hfit. unfold block_offset, kBsbfBytesPerBlock. rewrite Hn, Hbase.
  change (2 ^ 22) with 4194304 in Hnb. pose proof (bsbf_block_index_range hash nb Hh ltac:(lia)) as Hi.
  rewrite (u64_small (_ * 32)) by ulia. rewrite (u64_small (base + 28)) by ulia. rewrite u64_small by ulia. lia.
Qed.
(** The header [parse] leaves of a serialized builder. *)
Definition header_of (b : BsbfBuilder) (base : Z) : BsbfHeader :=
  mkBsbfHeader (num_bytes_ b) (num_blocks_ b) (crc32c (words_bytes (words_ b))) (u64 (base + 28)).

Lemma block_bytes_represents b hs h :
  represents b hs → is_u64 h →
  bsbf_block_contains h (words_bytes (block_at (words_ b) (bsbf_block_index h (num_blocks_ b)))) =
    Ok (bool_decide (all_bits_set (num_blocks_ b) hs h)).
Proof.
  intros Hb Hh. pose proof Hb as [Hwf _]. pose proof (wf_fits b _ Hwf Hh) as Hfits.
  rewrite bsbf_block_contains_spec by (apply block_at_m256; [done|apply Hwf]).
  rewrite <- (represents_maybe_contains b hs h Hb Hh). symmetry. by apply maybe_contains_spec.
Qed.

(** The bytes of the block a hash maps to, cut out of the bitset. *)
Lemma bitset_block b h :
  wf_builder b → is_u64 h →
  let blk := bsbf_block_index h (num_blocks_ b) in
  ∃ pre post, words_bytes (words_ b) = pre ++ words_bytes (block_at (words_ b) blk) ++ post ∧
    zlen pre = blk * 32 ∧ zlen (words_bytes (block_at (words_ b) blk)) = 32.
Proof.
  intros Hwf Hh blk. pose proof (wf_fits b _ Hwf Hh) as Hfits.
  eexists _, _. split; [by apply words_bytes_block|]. pose proof (block_at_length _ _ Hfits) as Hbl.
  fold blk in Hfits, Hbl. unfold fits in Hfits.
  rewrite !words_bytes_length, length_take, Hbl. split; lia.
Qed.

Lemma probe_represents b hs h pre post r :
  represents b hs → is_u64 h → zlen pre + 28 + kBsbfMaxBytes ≤ 2 ^ 64 →
  serves (pre ++ (header_bytes b ++ words_bytes (words_ b)) ++ post) r →
  bsbf_probe r (header_of b (zlen pre)) h = Ok (bool_decide (all_bits_set (num_blocks_ b) hs h)).
Proof.
  intros Hb Hh Hfit Hserves. pose proof Hb as [Hwf _]. unfold bsbf_probe, kBsbfMaxBytes in *.
  destruct (bitset_block b h Hwf Hh) as (b1 & b2 & Hcut & Hb1 & Hsize).
  destruct Hwf as (Hnb & Hbytes & Hl & _).
  rewrite (block_offset_eq _ _ (num_blocks_ b) (zlen pre));
    [|reflexivity|reflexivity|apply Hh|exact Hnb|lia|change (2 ^ 22) with 4194304 in Hnb; lia].
  set (blk := bsbf_block_index h (num_blocks_ b)) in *.
  rewrite Hcut, <- !app_assoc in Hserves.
  rewrite (app_assoc (header_bytes b)), (app_assoc pre) in Hserves.
  assert (zlen (pre ++ header_bytes b ++ b1) = zlen pre + 28 + blk * 32) as Hbefore
    by (rewrite !length_app, filter_header_length; lia).
  unfold kBsbfBytesPerBlock. rewrite (serves_read_at _ _ Hserves) by (apply in_file_mid; lia).
  rewrite window_mid, bind_Ok by lia. rewrite bind_reject_false by (apply Z.ltb_ge; lia).
  by apply block_bytes_represents.
Qed.
End FilterContents.

Lemma load_le32_u32 p off v : is_bytes p → load_le32 p off = Ok v → is_u32 v.
Proof.
  intros Hp. unfold load_le32. pose proof (Forall_drop is_u8 off p Hp) as Hd.
  destruct (drop off p) as [|p0 [|p1 [|p2 [|p3 rest]]]]; [done..|]. intros [= <-].
  rewrite !Forall_cons in Hd. destruct Hd as (? & ? & ? & ? & _). by apply load_le32_range.
Qed.

Lemma parse_bounds h base hd :
  is_bytes h → parse h base = Ok hd →
  (∃ k, 5 ≤ k ≤ 27 ∧ num_bytes hd = 2 ^ k ∧ num_bytes hd = 32 * num_blocks hd) ∧
  (∀ hash, 0 ≤ base → is_u64 hash → base + 28 + num_bytes hd ≤ 2 ^ 64 →
    base + 28 ≤ block_offset hd hash ∧ block_offset hd hash + 32 ≤ base + 28 + num_bytes hd).
Proof.
  intros Hh Hp. unfold parse in Hp. inv_bind Hp. injection Hp as <-. cbn [num_bytes num_blocks].
  repeat match goal with H : reject_if _ _ = Ok _ |- _ => apply reject_if_Ok in H end.
  repeat match goal with H : load_le32 _ _ = Ok _ |- _ => apply load_le32_u32 in H; [|done] end.
  match goal with H : (_ <? kBsbfMinBytes) || _ || _ = false |- _ => rename H into Hr end.
  match goal with H : negb (?x =? ?y / _) = false |- _ => rename H into Hd; set (nblk := x) in *; set (nb := y) in * end.
  apply orb_false_iff in Hr as [Hr Hpow]. apply orb_false_iff in Hr as [Hmin Hmax].
  apply negb_false_iff, Z.eqb_eq in Hpow, Hd. apply Z.ltb_ge in Hmin, Hmax. unfold kBsbfMinBytes, kBsbfMaxBytes in *.
  rewrite u32_small in Hpow by ulia. apply land_pred_pow2 in Hpow; [|lia].
  assert (5 ≤ Z.log2 nb ≤ 27) as Hk.
  { split; [apply Z.log2_le_pow2; lia|]. apply (Z.pow_le_mono_r_iff 2); lia. }
  destruct (pow2_blocks _ Hk) as [Hmul Hrange]. rewrite <- Hpow in Hmul.
  assert (nblk = 2 ^ (Z.log2 nb - 5)) as Hnblk.
  { rewrite Hd, Hmul at 1. unfold kBsbfBytesPerBlock. rewrite Z.mul_comm. by apply Z.div_mul. }
  split; [exists (Z.log2 nb); split_and!; [lia..|done|lia]|].
  intros hash Hbase Hhash Hfit. rewrite (block_offset_eq _ _ nblk base); [|done..|lia|done|lia].
  change (2 ^ 22) with 4194304 in Hrange. pose proof (bsbf_block_index_range hash nblk Hhash ltac:(lia)). lia.
Qed.

(** ** Properties *)

(** C35: in a filter sized by [create] and filled by any sequence of inserts, the
    answer to a hash is "maybe" exactly when each of the eight bits it selects
    in its block was set by some inserted hash; no access leaves the array. *)
Theorem bsbf_contents `{BsbfEnvLaws} ndv fpp hs :
  fpp_in_range fpp = true → is_u32 ndv → Forall is_u64 hs →
  ∃ b0 b, create ndv fpp = Ok b0 ∧ insert_all hs b0 = Ok b ∧
    ∀ h, is_u64 h → maybe_contains b h = Ok (bool_decide (all_bits_set (num_blocks_ b) hs h)).
Proof.
  intros Hf Hn Hhs. destruct (create_represents ndv fpp Hf Hn) as (b0 & Hc & Hb0).
  destruct (insert_all_represents hs b0 [] Hb0 Hhs) as (b & Hi & Hb). exists b0, b.
  split_and!; [done|done|]. intros h Hh. by apply (represents_maybe_contains b hs).
Qed.

(** C34: a term inserted at any time is reported as possibly present by the
    one-block probe of the serialized section, wherever the section stands in a
    file and on either kernel. *)
Theorem bsbf_no_false_negative `{BsbfEnvLaws} ndv fpp terms term pre :
  fpp_in_range fpp = true → is_u32 ndv → term ∈ terms →
  zlen pre + 28 + kBsbfMaxBytes ≤ 2 ^ 64 →
  ∃ b0 b section hd,
    create ndv fpp = Ok b0 ∧ fold_result insert_term terms b0 = Ok b ∧ serialize b [] = Ok section ∧
    parse (take 28 section) (zlen pre) = Ok hd ∧
    ∀ post r, serves (pre ++ section ++ post) r → bsbf_probe r hd (bsbf_hash term) = Ok true.
Proof.
  intros Hf Hn Hin Hfit. destruct (create_represents ndv fpp Hf Hn) as (b0 & Hc & Hb0).
  assert (∀ t, is_u64 (bsbf_hash t)) as Hu by (intros; apply XXH64_u64).
  destruct (insert_all_represents (map bsbf_hash terms) b0 [] Hb0) as (b & Hi & Hb).
  { by apply Forall_fmap, Forall_true. }
  assert (fold_result insert_term terms b0 = Ok b) as Hit.
  { rewrite <- Hi. unfold insert_all. by rewrite fold_result_map. }
  pose proof Hb as [Hwf _]. pose proof (serialize_app b [] Hwf) as Hs. cbn [app] in Hs.
  pose proof (parse_header_bytes b (zlen pre) Hwf) as Hp.
  eexists b0, b, _, _. split_and!; [done|done|exact Hs|rewrite take_app_length_exact by (by rewrite filter_header_length); exact Hp|].
  intros post r Hserves. change (mkBsbfHeader _ _ _ _) with (header_of b (zlen pre)).
  rewrite (probe_represents b (map bsbf_hash terms) (bsbf_hash term) pre post r) by done.
  by rewrite bool_decide_true by by apply all_bits_set_elem, list_elem_of_fmap_2.
Qed.

(** with intrinsics that act lane by lane as documented, each AVX2 kernel
    computes what its scalar twin computes: the membership test of a block, the
    insertion into the words and the in-memory lookup. *)
Theorem bsbf_simd_scalar `{BsbfEnv} `{!Avx2Laws} words block key hash blk_bytes :
  is_u32s words → fits words block → is_u32 key → is_bytes blk_bytes → length blk_bytes = 32%nat →
  insert_avx2 words block key = insert_scalar words block key ∧
  find_avx2 words block key = find_scalar words block key ∧
  block_contains_avx2 hash blk_bytes = block_contains_scalar hash blk_bytes.
Proof.
  intros Hw Hf Hk Hb Hlen. rewrite insert_avx2_spec, insert_scalar_spec, find_avx2_spec, find_scalar_spec by done.
  destruct (words_bytes_cover 8 blk_bytes Hb Hlen) as (ws & Hl & Hws & ->).
  by rewrite block_contains_avx2_spec, block_contains_scalar_spec.
Qed.

(** a header that parses describes a power of two of bytes between 32 and
    128 MiB, and the 32 bytes probed for any hash lie inside the bitset. *)
Theorem bsbf_header_bounds h base hd :
  is_bytes h → 0 ≤ base → parse h base = Ok hd →
  (∃ k, 5 ≤ k ≤ 27 ∧ num_bytes hd = 2 ^ k ∧ num_bytes hd = 32 * num_blocks hd) ∧
  (∀ hash, is_u64 hash → base + 28 + num_bytes hd ≤ 2 ^ 64 →
    base + 28 ≤ block_offset hd hash ∧ block_offset hd hash + 32 ≤ base + 28 + num_bytes hd).
Proof. intros Hh Hb Hp. destruct (parse_bounds h base hd Hh Hp) as [Hg Ho]. split; auto. Qed.

(** ** An environment that satisfies the laws *)

Module LaneEnv.
#[global] Instance lanes : Avx2Ops := {
  mm256_set1_epi32 v := replicate 8 v;
  mm256_mullo_epi32 := zip_with (λ a b, u32 (a * b));
  mm256_srli_epi32 x n := map (λ a, a ≫ n) x;
  mm256_sllv_epi32 := zip_with (λ a n, u32 (a ≪ n));
  mm256_or_si256 := zip_with Z.lor;
  mm256_testc_si256 x y := if bool_decide (Forall2 (λ a b, Z.ldiff b a = 0) x y) then 1 else 0;
  mm256_loadu_si256 x := map (little_endian_to_Z 8) (chunks 4 x);
  mm256_storeu_si256 := words_bytes
}.
#[global] Instance lanes_laws : Avx2Laws.
Proof. split; try done. intros x [_ Hx]. by apply words_of_bytes. Qed.

(** A multiplicative hash and a size estimate of ten bits per key. *)
#[global] Instance env : BsbfEnv := {
  cpu_has_avx2 := true;
  XXH64 term seed := u64 (foldl (λ h b, (h + b + 1) * 0x9E3779B97F4A7C15) seed term);
  double := bool;
  fpp_in_range b := b;
  optimal_num_of_bits ndv _ := if ndv <? 1000 then Some (10 * (ndv `mod` 1000)) else None
}.
#[global] Instance env_laws : BsbfEnvLaws.
Proof.
  split; [apply _| |intros; apply u64_range]. intros ndv fpp m. cbn.
  destruct (ndv <? 1000); [|done]. intros [= <-]. dlia.
Qed.
End LaneEnv.

Lemma bsbf_contents_witness :
  ∃ b0 b, create (H := LaneEnv.env) 3 true = Ok b0 ∧ insert_all [7; 2 ^ 63 + 5; 2 ^ 40] b0 = Ok b ∧
    ∀ h, is_u64 h →
      maybe_contains b h = Ok (bool_decide (all_bits_set (num_blocks_ b) [7; 2 ^ 63 + 5; 2 ^ 40] h)).
Proof. apply (bsbf_contents (H := LaneEnv.env) 3 true); [reflexivity|ulia|]. repeat constructor; ulia. Defined.

Lemma bsbf_no_false_negative_witness :
  ∃ b0 b section hd,
    create (H := LaneEnv.env) 2 true = Ok b0 ∧ fold_result insert_term [[97]; [98; 99]] b0 = Ok b ∧
    serialize b [] = Ok section ∧ parse (take 28 section) 3 = Ok hd ∧
    ∀ post r, serves ([1; 2; 3] ++ section ++ post) r → bsbf_probe r hd (bsbf_hash [98; 99]) = Ok true.
Proof.
  apply (bsbf_no_false_negative (H := LaneEnv.env) 2 true [[97]; [98; 99]] [98; 99] [1; 2; 3]);
    [reflexivity|ulia|by right; left|vm_compute; discriminate].
Defined.

Lemma bsbf_simd_scalar_witness :
  insert_avx2 (replicate 16 0) 1 12345 = insert_scalar (replicate 16 0) 1 12345 ∧
  find_avx2 (replicate 16 0) 1 12345 = find_scalar (replicate 16 0) 1 12345 ∧
  block_contains_avx2 99 (replicate 32 255) = block_contains_scalar 99 (replicate 32 255).
Proof.
  apply bsbf_simd_scalar; [by apply Forall_replicate|split; vm_compute; done|ulia| |done].
  apply Forall_replicate. ulia.
Defined.

Definition sample_header : bytes :=
  header_bytes (mkBsbfBuilder (replicate 16 0) 64 2 3).

Lemma bsbf_header_bounds_witness :
  ∃ hd, parse sample_header 100 = Ok hd ∧
  (∃ k, 5 ≤ k ≤ 27 ∧ num_bytes hd = 2 ^ k ∧ num_bytes hd = 32 * num_blocks hd) ∧
  (∀ hash, is_u64 hash → 100 + 28 + num_bytes hd ≤ 2 ^ 64 →
    100 + 28 ≤ block_offset hd hash ∧ block_offset hd hash + 32 ≤ 100 + 28 + num_bytes hd).
Proof.
  assert (wf_builder (mkBsbfBuilder (replicate 16 0) 64 2 3)) as Hwf.
  { split_and!; cbn; [lia..|apply (Forall_replicate is_u32 16); ulia|ulia|done]. }
  eexists. split; [exact (parse_header_bytes _ 100 Hwf)|].
  apply (bsbf_header_bounds sample_header); [|lia|exact (parse_header_bytes _ 100 Hwf)].
  unfold sample_header, header_bytes. rewrite !Forall_app. split_and!; auto using header_prefix_is_bytes with snii.
Defined.
