(* ===== verification/CompactPostingPool.v ===== *)
(** * CompactPostingPool: the sliced byte arena of the accumulator.

    [writer/compact_posting_pool.h] and [writer/compact_posting_pool.cpp]: the
    bump allocator over 32 KiB blocks, chains of slices linked by 4-byte forward
    pointers, the append handle and the budgeted cursor. The pool is passed
    explicitly; a chain handle is the value the caller keeps. An access outside
    a block is [Undef]; the [std::overflow_error] of a full arena is [Err].

    The proofs follow one chain through a memory that other chains share:
    [chain] relates the heads of the slices to the bytes appended, [owns] is its
    footprint, and a write outside a footprint leaves the chain alone
    ([chain_frame]). [arena_step] interleaves the operations of many chains. *)

From S2P Require Import Prelude Status ByteIO.

#[local] Open Scope Z_scope.

Definition kBlockShift : Z := 15.
Definition kBlockSize : Z := 1 ≪ kBlockShift.
Definition kBlockMask : Z := kBlockSize - 1.
Definition kPtrBytes : Z := 4.
Definition kLevelCount : Z := 16.

Definition kSliceSizes : list Z :=
  [5; 8; 12; 18; 27; 40; 60; 90; 135; 202; 303; 455; 683; 1024; 1536; 2304].
Definition kNextLevel : list Z := [1; 2; 3; 4; 5; 6; 7; 8; 9; 10; 11; 12; 13; 14; 15; 15].

Definition at_level (table : list Z) (level : Z) : result Z :=
  match table !! Z.to_nat level with Some v => Ok v | None => Undef end.

Record CompactPostingPool := mkPool {
  blocks_ : list bytes;
  next_offset_ : Z;
  payload_bytes_ : Z
}.

Record SliceWriter := mkSliceWriter { cur : Z; slice_end : Z }.

Definition new_pool : CompactPostingPool := mkPool [] 0 0.
Definition reset (p : CompactPostingPool) : CompactPostingPool := mkPool [] 0 0.

(** ** The bytes at an absolute offset *)

Definition block_of (off : Z) : nat := Z.to_nat (off ≫ kBlockShift).
Definition byte_of (off : Z) : nat := Z.to_nat (Z.land off kBlockMask).

(** [memcpy(&v, at(off), n)]: [n] bytes of one block. *)
Definition peek (p : CompactPostingPool) (off : Z) (n : nat) : result bytes :=
  match blocks_ p !! block_of off with
  | Some b => if (byte_of off + n <=? length b)%nat then Ok (take n (drop (byte_of off) b)) else Undef
  | None => Undef
  end.

(** [memcpy(at(off), bs, n)]. *)
Definition poke (off : Z) (bs : bytes) (p : CompactPostingPool) : result CompactPostingPool :=
  match blocks_ p !! block_of off with
  | Some b =>
      if (byte_of off + length bs <=? length b)%nat then
        Ok (mkPool (<[block_of off := list_inserts (byte_of off) bs b]> (blocks_ p)) (next_offset_ p) (payload_bytes_ p))
      else Undef
  | None => Undef
  end.

(** ** Allocation *)

Definition alloc_run (bytes : Z) (p : CompactPostingPool) : result (Z * CompactPostingPool) :=
  let in_block := Z.land (next_offset_ p) kBlockMask in
  let tail_exists := (next_offset_ p ≫ kBlockShift) <? zlen (blocks_ p) in
  let need_block := negb tail_exists || (kBlockSize <? u32 (in_block + bytes)) in
  let run_start := if need_block then u64 (zlen (blocks_ p) * kBlockSize) else next_offset_ p in
  _ ← reject_if (UINT32_MAX <? u64 (run_start + bytes))
        (Internal "snii: CompactPostingPool arena exceeded the 4 GiB uint32 offset limit; the caller must spill before this point");
  let p := if need_block then
             let blocks := blocks_ p ++ [replicate (Z.to_nat kBlockSize) 0] in
             mkPool blocks (u32 ((zlen blocks - 1) * kBlockSize)) (payload_bytes_ p)
           else p in
  let off := next_offset_ p in
  Ok (off, mkPool (blocks_ p) (u32 (next_offset_ p + bytes)) (payload_bytes_ p)).

Definition alloc_slice (level : Z) (p : CompactPostingPool) : result (Z * Z * CompactPostingPool) :=
  cap ← at_level kSliceSizes level;
  '(first, p) ← alloc_run (u32 (cap + kPtrBytes)) p;
  let slice_end := u32 (first + cap) in
  p ← poke slice_end (replicate (Z.to_nat kPtrBytes) 0) p;
  Ok (first, slice_end, p).

Definition read_ptr (p : CompactPostingPool) (slice_end : Z) : result Z :=
  v ← peek p slice_end 4;
  Ok (little_endian_to_Z 8 v).
Definition write_ptr (slice_end next_head : Z) (p : CompactPostingPool) : result CompactPostingPool :=
  poke slice_end (fixed32 next_head) p.

(** ** Appending *)

Definition start_chain (p : CompactPostingPool) : result (Z * SliceWriter * Z * CompactPostingPool) :=
  '(head, slice_end, p) ← alloc_slice 0 p;
  Ok (head, mkSliceWriter head slice_end, 0, p).

Definition grow (w : SliceWriter) (level : Z) (p : CompactPostingPool) :
    result (SliceWriter * Z * CompactPostingPool) :=
  next_level ← at_level kNextLevel level;
  '(new_head, new_end, p) ← alloc_slice next_level p;
  p ← write_ptr (slice_end w) new_head p;
  Ok (mkSliceWriter new_head new_end, next_level, p).

Definition append_byte (w : SliceWriter) (level value : Z) (p : CompactPostingPool) :
    result (SliceWriter * Z * CompactPostingPool) :=
  '(w, level, p) ← (if cur w =? slice_end w then grow w level p else Ok (w, level, p));
  p ← poke (cur w) [value] p;
  Ok (mkSliceWriter (u32 (cur w + 1)) (slice_end w), level,
      mkPool (blocks_ p) (next_offset_ p) (u64 (payload_bytes_ p + 1))).

(** ** Cursor *)

Record Cursor := mkCursor { c_cur : Z; c_slice_end : Z; c_level : Z; c_budget : Z }.

Definition cursor (head budget : Z) : Cursor := 
  mkCursor head (u32 (head + kSliceSizes !!! 0%nat)) 0 budget.

Definition has_next (p : CompactPostingPool) (c : Cursor) : result bool :=
  if c_budget c =? 0 then Ok false
  else if c_cur c =? c_slice_end c then v ← read_ptr p (c_slice_end c); Ok (negb (v =? 0))
  else Ok true.

Definition take_byte (p : CompactPostingPool) (c : Cursor) : result (Z * Cursor) :=
  v ← peek p (c_cur c) 1;
  Ok (v !!! 0%nat, mkCursor (u32 (c_cur c + 1)) (c_slice_end c) (c_level c) (c_budget c - 1)).

Definition next (p : CompactPostingPool) (c : Cursor) : result (Z * Cursor) :=
  if c_budget c =? 0 then Ok (0, c)
  else if c_cur c =? c_slice_end c then
    next_head ← read_ptr p (c_slice_end c);
    if next_head =? 0 then Ok (0, mkCursor (c_cur c) (c_slice_end c) (c_level c) 0)
    else
      level ← at_level kNextLevel (c_level c);
      cap ← at_level kSliceSizes level;
      take_byte p (mkCursor next_head (u32 (next_head + cap)) level (c_budget c))
  else take_byte p c.

(** [while (c.has_next()) out.push_back(c.next());], with fuel. *)
Fixpoint drain (fuel : nat) (p : CompactPostingPool) (c : Cursor) : result bytes :=
  match fuel with
  | O => Undef
  | S fuel =>
      more ← has_next p c;
      if (more : bool) then '(v, c) ← next p c; vs ← drain fuel p c; Ok (v :: vs) else Ok []
  end.

Definition arena_bytes (p : CompactPostingPool) : Z := zlen (blocks_ p) ≪ kBlockShift.

(** ** Memory *)

Definition mem (p : CompactPostingPool) (o : Z) : option Z := blocks_ p !! block_of o ≫= λ b, b !! byte_of o.

Definition bytes_at (p : CompactPostingPool) (o : Z) (bs : bytes) : Prop :=
  ∀ k b, bs !! k = Some b → mem p (o + Z.of_nat k) = Some b.

(** [n] bytes from [o] on stay within one block. *)
Definition one_block (o n : Z) : Prop := 0 ≤ o ∧ o `mod` 32768 + n ≤ 32768.

Record wf_pool (p : CompactPostingPool) : Prop := {
  wf_blocks : Forall (λ b, length b = Z.to_nat 32768) (blocks_ p);
  wf_next : 0 ≤ next_offset_ p ≤ zlen (blocks_ p) * 32768;
  wf_tail : (zlen (blocks_ p) - 1) * 32768 < next_offset_ p ∨ blocks_ p = [];
  wf_u32 : next_offset_ p ≤ UINT32_MAX;
  wf_fresh o : next_offset_ p ≤ o < zlen (blocks_ p) * 32768 → mem p o = Some 0
}.

Lemma block_byte o k :
  one_block o k → ∀ i, 0 ≤ i < k → block_of (o + i) = block_of o ∧ byte_of (o + i) = (byte_of o + Z.to_nat i)%nat.
Proof.
  intros [Ho Hb] i Hi. unfold block_of, byte_of.
  change kBlockMask with (Z.ones 15). rewrite !Z.land_ones, !Z.shiftr_div_pow2 by (unfold kBlockShift; lia).
  unfold kBlockShift. change (2 ^ 15) with 32768 in *.
  assert ((o + i) / 32768 = o / 32768) as -> by (symmetry; apply Z.div_unique_pos with (o `mod` 32768 + i); dlia).
  split; [done|]. assert ((o + i) `mod` 32768 = o `mod` 32768 + i) as ->.
  { symmetry. apply Z.mod_unique_pos with (o / 32768); dlia. }
  rewrite Z2Nat.inj_add by dlia. lia.
Qed.

Lemma byte_of_mod o : 0 ≤ o → Z.of_nat (byte_of o) = o `mod` 32768.
Proof.
  intros. unfold byte_of. change kBlockMask with (Z.ones 15). rewrite Z.land_ones by lia. change (2 ^ 15) with 32768. dlia.
Qed.

Lemma block_of_div o : 0 ≤ o → Z.of_nat (block_of o) = o / 32768.
Proof. intros. unfold block_of, kBlockShift. rewrite Z.shiftr_div_pow2 by lia. change (2 ^ 15) with 32768. dlia. Qed.

(** The cell of an offset determines it. *)
Lemma cell_inj o o' : 0 ≤ o → 0 ≤ o' → block_of o = block_of o' → byte_of o = byte_of o' → o = o'.
Proof.
  intros Ho Ho' Hb Hy. pose proof (byte_of_mod o Ho). pose proof (byte_of_mod o' Ho').
  pose proof (block_of_div o Ho). pose proof (block_of_div o' Ho'). dlia.
Qed.

Lemma mem_is_Some p o : wf_pool p → 0 ≤ o < zlen (blocks_ p) * 32768 → is_Some (mem p o).
Proof.
  intros Hp Ho. pose proof (block_of_div o ltac:(lia)). pose proof (byte_of_mod o ltac:(lia)). unfold mem.
  destruct (lookup_lt_is_Some_2 (blocks_ p) (block_of o)) as [b Hb]; [dlia|]. rewrite Hb. cbn.
  apply lookup_lt_is_Some_2. rewrite (Forall_lookup_1 _ _ _ _ (wf_blocks p Hp) Hb). dlia.
Qed.

Lemma mem_bound p o x : wf_pool p → 0 ≤ o → mem p o = Some x → o < zlen (blocks_ p) * 32768.
Proof.
  intros Hp Ho Hm. unfold mem in Hm. destruct (blocks_ p !! block_of o) as [b|] eqn:Hb; [|done].
  apply lookup_lt_Some in Hb. pose proof (block_of_div o Ho). dlia.
Qed.

Lemma peek_spec p off bs :
  wf_pool p → one_block off (zlen bs) → (0 < length bs)%nat → bytes_at p off bs → peek p off (length bs) = Ok bs.
Proof.
  intros Hp Ho Hn Hbs. unfold peek.
  assert (∀ k x, bs !! k = Some x →
    (blocks_ p !! block_of off ≫= λ b, b !! (byte_of off + k)%nat) = Some x) as Hk.
  { intros k x Hx. pose proof (lookup_lt_Some _ _ _ Hx). specialize (Hbs k x Hx). unfold mem in Hbs.
    destruct (block_byte off (zlen bs) Ho (Z.of_nat k)) as [Hb Hy]; [lia|]. by rewrite Hb, Hy, Nat2Z.id in Hbs. }
  destruct (lookup_lt_is_Some_2 bs 0%nat Hn) as [x0 Hx0]. pose proof (Hk 0%nat x0 Hx0) as Hb0.
  destruct (blocks_ p !! block_of off) as [b|] eqn:Hb; [|done]. cbn in Hk.
  pose proof (Forall_lookup_1 _ _ _ _ (wf_blocks p Hp) Hb) as Hl. cbn in Hl.
  pose proof (byte_of_mod off (proj1 Ho)). destruct Ho as [Ho Hfit].
  rewrite (proj2 (Nat.leb_le _ _)) by lia. f_equal. apply list_eq. intros i.
  destruct (decide (i < length bs)%nat) as [Hi|Hi].
  - destruct (lookup_lt_is_Some_2 bs i Hi) as [x Hx]. rewrite lookup_take_lt, lookup_drop, Hx by done. by apply Hk.
  - rewrite lookup_take_ge by lia. symmetry. apply lookup_ge_None_2. lia.
Qed.

Lemma poke_spec p off bs :
  wf_pool p → one_block off (zlen bs) → off + zlen bs ≤ zlen (blocks_ p) * 32768 → (0 < length bs)%nat →
  ∃ p', poke off bs p = Ok p' ∧ next_offset_ p' = next_offset_ p ∧ payload_bytes_ p' = payload_bytes_ p ∧
    length (blocks_ p') = length (blocks_ p) ∧ Forall (λ b, length b = Z.to_nat 32768) (blocks_ p') ∧
    bytes_at p' off bs ∧ (∀ o, 0 ≤ o → ¬ (off ≤ o < off + zlen bs) → mem p' o = mem p o).
Proof.
  intros Hp Ho Hin Hn. unfold poke. pose proof (byte_of_mod off (proj1 Ho)) as Hy. pose proof (block_of_div off (proj1 Ho)) as Hd.
  destruct (lookup_lt_is_Some_2 (blocks_ p) (block_of off)) as [b Hb]; [dlia|]. rewrite Hb.
  pose proof (Forall_lookup_1 _ _ _ _ (wf_blocks p Hp) Hb) as Hl. cbn in Hl. pose proof (proj2 Ho) as Hfit.
  rewrite (proj2 (Nat.leb_le _ _)) by lia. eexists. split; [done|]. cbn [next_offset_ payload_bytes_ blocks_].
  split_and!; [done|done|by rewrite length_insert| | |].
  - apply Forall_insert; [apply (wf_blocks p Hp)|]. by rewrite length_inserts.
  - intros k x Hx. pose proof (lookup_lt_Some _ _ _ Hx). unfold mem. cbn [blocks_].
    destruct (block_byte off (zlen bs) Ho (Z.of_nat k)) as [-> ->]; [lia|]. rewrite Nat2Z.id.
    rewrite list_lookup_insert_eq by (by eapply lookup_lt_Some). cbn. rewrite list_lookup_inserts by lia.
    by replace (byte_of off + k - byte_of off)%nat with k by lia.
  - intros o Hopos Hout. unfold mem. cbn [blocks_]. destruct (decide (block_of o = block_of off)) as [He|Hne].
    + rewrite He, list_lookup_insert_eq, Hb by (by eapply lookup_lt_Some). cbn.
      pose proof (byte_of_mod o Hopos). pose proof (block_of_div o Hopos). rewrite He in *.
      destruct (decide (byte_of o < byte_of off)%nat); [by apply list_lookup_inserts_lt|].
      apply list_lookup_inserts_ge. dlia.
    + by rewrite list_lookup_insert_ne.
Qed.

Lemma poke_ok p off bs :
  wf_pool p → one_block off (zlen bs) → off + zlen bs ≤ next_offset_ p → (0 < length bs)%nat →
  ∃ p', poke off bs p = Ok p' ∧ wf_pool p' ∧ next_offset_ p' = next_offset_ p ∧ payload_bytes_ p' = payload_bytes_ p ∧
    bytes_at p' off bs ∧ (∀ o, 0 ≤ o → ¬ (off ≤ o < off + zlen bs) → mem p' o = mem p o).
Proof.
  intros Hp Ho Hin Hn. pose proof (wf_next p Hp) as Hnext. destruct (poke_spec p off bs) as (p' & -> & Hno & Hpb & Hlen & Hbl & Hat & Hfr);
    [done|done|lia|done|]. exists p'. split_and!; [done| |done..]. split; rewrite ?Hlen, ?Hno; [done|lia| |apply (wf_u32 p Hp)|].
  - destruct (wf_tail p Hp) as [|He]; [by left|right]. rewrite He in Hlen. by destruct (blocks_ p').
  - intros o Ho'. rewrite Hfr by lia. by apply (wf_fresh p Hp).
Qed.

(** What an allocation returns: a fresh, zeroed run within one block. *)
Lemma alloc_run_spec p n :
  wf_pool p → 0 < n ≤ 32768 →
  match alloc_run n p with
  | Ok (off, p') =>
      wf_pool p' ∧ next_offset_ p ≤ off ∧ one_block off n ∧ next_offset_ p' = off + n ∧
      payload_bytes_ p' = payload_bytes_ p ∧ bytes_at p' off (replicate (Z.to_nat n) 0) ∧
      (∀ o, 0 ≤ o < next_offset_ p → mem p' o = mem p o)
  | Err _ => UINT32_MAX < zlen (blocks_ p) * 32768 + n
  | Undef => False
  end.
Proof.
  intros Hp Hn. destruct (wf_next p Hp) as [Hn0 Hn1]. pose proof (wf_u32 p Hp) as Hmax. unfold UINT32_MAX in *.
  assert ((zlen (blocks_ p) - 1) * 32768 ≤ 4294967295) as Hcap by (destruct (wf_tail p Hp) as [|He]; [lia|rewrite He; cbn; lia]).
  unfold alloc_run. cbv zeta. pose proof (byte_of_mod (next_offset_ p) Hn0) as Hib. unfold byte_of in Hib.
  assert (Z.land (next_offset_ p) kBlockMask = next_offset_ p `mod` 32768) as ->.
  { change kBlockMask with (Z.ones 15). rewrite Z.land_ones by lia. done. }
  pose proof (Z.mod_pos_bound (next_offset_ p) 32768 ltac:(lia)) as Hmod. unfold kBlockShift, kBlockSize.
  rewrite u32_small by ulia. rewrite Z.shiftr_div_pow2 by lia. change (1 ≪ kBlockShift) with 32768. change (2 ^ 15) with 32768.
  destruct (negb _ || _) eqn:Hneed.
  - rewrite (u64_small (zlen (blocks_ p) * 32768)) by ulia. rewrite u64_small by ulia. rewrite bind_reject. unfold UINT32_MAX. destruct (Z.ltb_spec 4294967295 (zlen (blocks_ p) * 32768 + n)); [done|].
    cbn [next_offset_ blocks_ payload_bytes_]. rewrite length_app. cbn [length].
    replace (Z.of_nat (length (blocks_ p) + 1) - 1) with (zlen (blocks_ p)) by lia.
    rewrite (u32_small (zlen (blocks_ p) * 32768)) by ulia. rewrite u32_small by ulia.
    remember (zlen (blocks_ p) * 32768) as off eqn:Hoff.
    assert (∀ o, 0 ≤ o < off → mem (mkPool (blocks_ p ++ [replicate (Z.to_nat 32768) 0]) (off + n) (payload_bytes_ p)) o = mem p o) as Hold.
    { intros o Ho. unfold mem. cbn [blocks_]. pose proof (block_of_div o ltac:(lia)). by rewrite lookup_app_l by dlia. }
    assert (∀ o, off ≤ o < off + 32768 → mem (mkPool (blocks_ p ++ [replicate (Z.to_nat 32768) 0]) (off + n) (payload_bytes_ p)) o = Some 0) as Hnew.
    { intros o Ho. unfold mem. cbn [blocks_]. pose proof (block_of_div o ltac:(lia)). pose proof (byte_of_mod o ltac:(lia)).
      rewrite lookup_app_r by dlia. replace (block_of o - length (blocks_ p))%nat with 0%nat by dlia. cbn [lookup list_lookup mbind option_bind].
      apply lookup_replicate_2. dlia. }
    split_and!; [|lia|split; [lia|]; rewrite Hoff, Z.mod_mul; lia|done|done| |intros; apply Hold; lia].
    + split; cbn [blocks_ next_offset_]; rewrite ?length_app; cbn [length]; [|subst; lia|left; subst; lia|unfold UINT32_MAX; lia|].
      * apply Forall_app_2; [apply (wf_blocks p Hp)|]. constructor; [apply length_replicate|done].
      * intros o Ho. apply Hnew. subst; lia.
    + intros k b [-> Hk]%lookup_replicate. apply Hnew. lia.
  - apply orb_false_iff in Hneed as [He Hfit]. apply negb_false_iff, Z.ltb_lt in He. apply Z.ltb_ge in Hfit.
    rewrite u64_small by ulia. rewrite bind_reject. unfold UINT32_MAX. destruct (Z.ltb_spec 4294967295 (next_offset_ p + n)); [dlia|].
    rewrite u32_small by ulia. split_and!; [|lia|split; lia|done|done| |done].
    + split; cbn [blocks_ next_offset_]; [apply (wf_blocks p Hp)|dlia| |done|].
      * destruct (wf_tail p Hp) as [|He0]; [left; lia|by right].
      * intros o Ho. apply (wf_fresh p Hp). lia.
    + intros k b [-> Hk]%lookup_replicate. apply (wf_fresh p Hp). dlia.
Qed.

(** ** Chains *)

Definition cap (level : Z) : Z := kSliceSizes !!! Z.to_nat level.
Definition nxt (level : Z) : Z := kNextLevel !!! Z.to_nat level.
Definition is_level (level : Z) : Prop := 0 ≤ level < kLevelCount.

Lemma level_cases level : is_level level → level ∈ seqZ 0 16.
Proof. intros. apply elem_of_seqZ. unfold is_level, kLevelCount in *. lia. Qed.

Lemma cap_range level : is_level level → at_level kSliceSizes level = Ok (cap level) ∧ 5 ≤ cap level ≤ 2304.
Proof.
  intros Hl%level_cases. revert level Hl. apply (Forall_forall (λ l, at_level kSliceSizes l = Ok (cap l) ∧ 5 ≤ cap l ≤ 2304)).
  cbn [seqZ seq Z.to_nat]. repeat constructor; done.
Qed.

Lemma nxt_range level : is_level level → at_level kNextLevel level = Ok (nxt level) ∧ is_level (nxt level).
Proof.
  intros Hl%level_cases. revert level Hl. apply (Forall_forall (λ l, at_level kNextLevel l = Ok (nxt l) ∧ is_level (nxt l))).
  cbn [seqZ seq Z.to_nat]. repeat constructor; done.
Qed.

(** A slice at [h]: payload and pointer bytes, allocated, within one block. *)
Definition slice_at (p : CompactPostingPool) (level h : Z) : Prop :=
  one_block h (cap level + 4) ∧ h + cap level + 4 ≤ next_offset_ p.

(** The bytes [data] stand in the slices [heads], linked in order; the unused
    part of the last slice is zero. *)
Fixpoint chain (p : CompactPostingPool) (level : Z) (heads : list Z) (data : bytes) : Prop :=
  match heads with
  | [] => False
  | h :: hs =>
      slice_at p level h ∧
      match hs with
      | [] =>
          zlen data ≤ cap level ∧ bytes_at p h (data ++ replicate (Z.to_nat (cap level) - length data) 0) ∧
          bytes_at p (h + cap level) (replicate 4 0)
      | h' :: _ =>
          cap level ≤ zlen data ∧ bytes_at p h (take (Z.to_nat (cap level)) data) ∧
          bytes_at p (h + cap level) (fixed32 h') ∧ h + cap level + 4 ≤ h' ∧
          chain p (nxt level) hs (drop (Z.to_nat (cap level)) data)
      end
  end.

(** The footprint of a chain. *)
Fixpoint owns (level : Z) (heads : list Z) (o : Z) : Prop :=
  match heads with
  | [] => False
  | h :: hs => h ≤ o < h + cap level + 4 ∨ owns (nxt level) hs o
  end.

(** Level, head and number of payload bytes of the last slice. *)
Fixpoint tail_of (level : Z) (heads : list Z) (n : Z) : Z * Z * Z :=
  match heads with
  | [] => (level, 0, n)
  | h :: hs => match hs with [] => (level, h, n) | _ => tail_of (nxt level) hs (n - cap level) end
  end.

Lemma bytes_at_eq p p' o bs :
  (∀ i, o ≤ i < o + zlen bs → mem p' i = mem p i) → bytes_at p o bs → bytes_at p' o bs.
Proof. intros Hm Hb k b Hk. rewrite Hm; [by apply Hb|]. apply lookup_lt_Some in Hk. lia. Qed.

Lemma bytes_at_app p o xs ys : bytes_at p o (xs ++ ys) ↔ bytes_at p o xs ∧ bytes_at p (o + zlen xs) ys.
Proof.
  split.
  - intros Hb. split; intros k b Hk.
    + apply Hb. by apply lookup_app_l_Some.
    + specialize (Hb (length xs + k)%nat b). rewrite lookup_app_r in Hb by lia.
      replace (length xs + k - length xs)%nat with k in Hb by lia. rewrite <- (Hb Hk). f_equal. lia.
  - intros [Hx Hy] k b [Hk|[Hl Hk]]%lookup_app_Some; [by apply Hx|]. rewrite <- (Hy _ _ Hk). f_equal. lia.
Qed.

Lemma owns_bound p level heads data o :
  is_level level → chain p level heads data → owns level heads o → 0 ≤ o < next_offset_ p.
Proof.
  revert level data. induction heads as [|h hs IH]; intros level data Hl Hc Ho; [done|].
  destruct Hc as [[[Hh _] Hn] Hc]. destruct (cap_range level Hl) as [_ Hcap]. destruct Ho as [Ho|Ho]; [lia|].
  destruct hs as [|h' hs]; [done|]. destruct Hc as (_ & _ & _ & _ & Hc). eapply IH; [apply nxt_range, Hl|done|done].
Qed.

(** A pool that agrees on the footprint holds the same chain. *)
Lemma chain_frame p p' level heads data :
  is_level level → next_offset_ p ≤ next_offset_ p' → (∀ o, owns level heads o → mem p' o = mem p o) →
  chain p level heads data → chain p' level heads data.
Proof.
  revert level data. induction heads as [|h hs IH]; intros level data Hl Hn Hm Hc; [done|].
  destruct Hc as [[Hob Hno] Hc]. destruct (cap_range level Hl) as [_ Hcap]. split; [split; [done|lia]|].
  destruct hs as [|h' hs].
  - destruct Hc as (Hlen & Hb & Hp). split_and!; [done|..].
    + eapply bytes_at_eq; [|done]. intros i Hi. apply Hm. left. rewrite length_app, length_replicate in Hi. lia.
    + eapply bytes_at_eq; [|done]. intros i Hi. apply Hm. left. cbn in Hi. lia.
  - destruct Hc as (Hlen & Hb & Hp & Hh & Hc). split_and!; [done| | |done|].
    + eapply bytes_at_eq; [|done]. intros i Hi. apply Hm. left. rewrite length_take in Hi. lia.
    + eapply bytes_at_eq; [|done]. intros i Hi. apply Hm. left. rewrite fixed32_length in Hi. lia.
    + apply IH; [by apply nxt_range|done| |done]. intros o Ho. apply Hm. by right.
Qed.

(** The last slice: where it is, and that it belongs to the chain. *)
Lemma tail_spec p level heads data lv h n :
  is_level level → chain p level heads data → tail_of level heads (zlen data) = (lv, h, n) →
  is_level lv ∧ slice_at p lv h ∧ 0 ≤ n ≤ cap lv ∧ (∀ o, h ≤ o < h + cap lv + 4 → owns level heads o) ∧
  (∀ h0 hs, heads = h0 :: hs → h0 ≤ h ∧ (hs ≠ [] → h0 + cap level + 4 ≤ h)).
Proof.
  revert level data. induction heads as [|h0 hs IH]; intros level data Hl Hc Ht; [done|].
  destruct Hc as [Hs Hc]. destruct (cap_range level Hl) as [_ Hcap]. destruct hs as [|h1 hs].
  - cbn in Ht. injection Ht as <- <- <-. destruct Hc as (Hlen & _ & _). split_and!; [done|done|lia|lia| |].
    + intros o Ho. by left.
    + intros ?? [= <- <-]. split; [lia|done].
  - destruct Hc as (Hlen & _ & _ & Hh & Hc).
    replace (zlen data - cap level) with (zlen (drop (Z.to_nat (cap level)) data)) in Ht by (rewrite length_drop; lia).
    destruct (IH (nxt level) _ ltac:(by apply nxt_range) Hc) as (Hlv & Hsl & Hn & Ho & Hge).
    { rewrite <- Ht. cbn [tail_of]. rewrite length_drop. by replace (Z.of_nat (length data - Z.to_nat (cap level))) with (zlen data - cap level) by lia. }
    destruct (Hge h1 hs eq_refl) as [Hge1 _]. split_and!; [done|done|lia|lia| |].
    + intros o Hoo. right. by apply Ho.
    + intros ?? [= <- <-]. split; lia.
Qed.

(** One more byte in the last slice. *)
Lemma chain_append p p' level heads data lv h n v :
  is_level level → chain p level heads data → tail_of level heads (zlen data) = (lv, h, n) → n < cap lv →
  next_offset_ p' = next_offset_ p → mem p' (h + n) = Some v →
  (∀ o, 0 ≤ o → o ≠ h + n → mem p' o = mem p o) →
  chain p' level heads (data ++ [v]).
Proof.
  revert level data. induction heads as [|h0 hs IH]; intros level data Hl Hc Ht Hn Hno Hv Hm; [done|].
  pose proof (tail_spec _ _ _ _ _ _ _ Hl Hc Ht) as (_ & _ & Hn0 & _ & Hge).
  destruct Hc as [Hs Hc]. destruct (cap_range level Hl) as [_ Hcap]. pose proof (proj1 (proj1 Hs)) as Hh0.
  split; [by unfold slice_at; rewrite Hno|]. destruct hs as [|h1 hs].
  - cbn in Ht. injection Ht as <- <- <-. destruct Hc as (Hlen & Hb & Hp).
    replace (Z.to_nat (cap level) - length data)%nat with (S (Z.to_nat (cap level) - length (data ++ [v])))%nat in Hb
      by (rewrite length_app; cbn; lia).
    cbn [replicate] in Hb. rewrite (cons_middle 0), bytes_at_app in Hb. destruct Hb as [Hb Hz].
    rewrite length_app. cbn [length]. split_and!; [lia| |].
    + rewrite <- app_assoc, bytes_at_app. split.
      * eapply bytes_at_eq; [|done]. intros i Hi. apply Hm; lia.
      * intros [|k] b Hk; [injection Hk as <-; by rewrite Z.add_0_r|]. rewrite Hm by lia.
        apply Hz. rewrite length_app. exact Hk.
    + eapply bytes_at_eq; [|done]. intros i Hi. apply Hm; lia.
  - destruct Hc as (Hlen & Hb & Hp & Hh & Hc). destruct (Hge h0 (h1 :: hs) eq_refl) as [_ Hge1]. specialize (Hge1 ltac:(done)).
    rewrite length_app. cbn [length]. split_and!; [lia| | |done|].
    + rewrite take_app_le by lia. eapply bytes_at_eq; [|done]. intros i Hi. rewrite length_take in Hi. apply Hm; lia.
    + eapply bytes_at_eq; [|done]. intros i Hi. rewrite fixed32_length in Hi. apply Hm; lia.
    + rewrite drop_app_le by lia. apply IH; [by apply nxt_range|done| |done|done|done|done].
      rewrite <- Ht. cbn [tail_of]. rewrite length_drop.
      by replace (Z.of_nat (length data - Z.to_nat (cap level))) with (zlen data - cap level) by lia.
Qed.

(** A new slice behind a full one. *)
Lemma chain_grow p p' level heads data lv h new :
  is_level level → chain p level heads data → tail_of level heads (zlen data) = (lv, h, cap lv) →
  next_offset_ p ≤ new → slice_at p' (nxt lv) new → bytes_at p' new (replicate (Z.to_nat (cap (nxt lv) + 4)) 0) →
  bytes_at p' (h + cap lv) (fixed32 new) →
  (∀ o, 0 ≤ o < next_offset_ p → ¬ (h + cap lv ≤ o < h + cap lv + 4) → mem p' o = mem p o) →
  chain p' level (heads ++ [new]) data ∧ tail_of level (heads ++ [new]) (zlen data) = (nxt lv, new, 0).
Proof.
  intros Hl Hc Ht Hnew Hsl Hz Hptr Hm.
  assert (next_offset_ p ≤ next_offset_ p') as Hno by (destruct Hsl as [[? _] ?]; destruct (cap_range (nxt lv)); [apply nxt_range; by eapply tail_spec|lia]).
  revert level data Hl Hc Ht. induction heads as [|h0 hs IH]; intros level data Hl Hc Ht; [done|].
  pose proof (tail_spec _ _ _ _ _ _ _ Hl Hc Ht) as (Hlv & _ & Hn0 & _ & Hge).
  destruct Hc as [Hs Hc]. destruct (cap_range level Hl) as [_ Hcap]. destruct Hs as [Hob Hend]. destruct (Hob) as [Hh0 _].
  assert (slice_at p' level h0) as Hs' by (split; [done|lia]).
  destruct (cap_range (nxt lv) (proj2 (nxt_range lv Hlv))) as [_ Hcapn].
  destruct hs as [|h1 hs].
  - cbn in Ht. injection Ht as <- <- Hn. destruct Hc as (Hlen & Hb & Hp). cbn [app].
    assert (length data = Z.to_nat (cap level)) as Hld by lia. split.
    + split; [done|]. split_and!; [lia| |done|lia|split; [done|]].
      * rewrite take_ge by lia. eapply bytes_at_eq; [|by eapply bytes_at_app in Hb as [Hb _]]. intros i Hi. apply Hm; lia.
      * rewrite drop_ge by lia. split_and!; [cbn; lia| |].
        -- replace (Z.to_nat (cap (nxt level) + 4)) with (Z.to_nat (cap (nxt level)) + 4)%nat in Hz by lia.
           rewrite replicate_add, bytes_at_app in Hz. cbn [length app]. rewrite Nat.sub_0_r. apply Hz.
        -- replace (Z.to_nat (cap (nxt level) + 4)) with (Z.to_nat (cap (nxt level)) + 4)%nat in Hz by lia.
           rewrite replicate_add, bytes_at_app, length_replicate, Z2Nat.id in Hz by lia. apply Hz.
    + cbn [tail_of]. do 2 f_equal. lia.
  - destruct Hc as (Hlen & Hb & Hp & Hh & Hc). destruct (Hge h0 (h1 :: hs) eq_refl) as [_ Hge1]. specialize (Hge1 ltac:(done)).
    assert (zlen (drop (Z.to_nat (cap level)) data) = zlen data - cap level) as Hld by (rewrite length_drop; lia).
    destruct (IH (nxt level) (drop (Z.to_nat (cap level)) data)) as [Hc' Ht']; [by apply nxt_range|done| |].
    { rewrite <- Ht, Hld. done. }
    cbn [app] in Hc', Ht' |- *. split.
    + split; [done|]. split_and!; [done| | |done|exact Hc'].
      * eapply bytes_at_eq; [|done]. intros i Hi. rewrite length_take in Hi. apply Hm; lia.
      * eapply bytes_at_eq; [|done]. intros i Hi. rewrite fixed32_length in Hi. apply Hm; lia.
    + rewrite <- Ht', Hld. done.
Qed.

(** ** The operations on a chain *)

Lemma one_block_sub h n i m : one_block h n → 0 ≤ i → 0 < m → i + m ≤ n → one_block (h + i) m.
Proof.
  intros [Hh Hb] ???. split; [lia|]. rewrite <- (Z.mod_unique_pos (h + i) 32768 (h / 32768) (h `mod` 32768 + i)); dlia.
Qed.

(** An allocation that does not fit below [UINT32_MAX]. *)
Definition arena_full (p : CompactPostingPool) : Prop := UINT32_MAX < arena_bytes p + 2308.

Lemma arena_bytes_eq p : arena_bytes p = zlen (blocks_ p) * 32768.
Proof. unfold arena_bytes, kBlockShift. rewrite Z.shiftl_mul_pow2 by lia. done. Qed.

Lemma alloc_slice_spec p lv :
  wf_pool p → is_level lv →
  match alloc_slice lv p with
  | Ok (first, e, p') =>
      wf_pool p' ∧ next_offset_ p ≤ first ∧ e = first + cap lv ∧ slice_at p' lv first ∧
      next_offset_ p' = first + cap lv + 4 ∧ payload_bytes_ p' = payload_bytes_ p ∧
      bytes_at p' first (replicate (Z.to_nat (cap lv + 4)) 0) ∧
      (∀ o, 0 ≤ o < next_offset_ p → mem p' o = mem p o)
  | Err _ => arena_full p
  | Undef => False
  end.
Proof.
  intros Hp Hl. destruct (cap_range lv Hl) as [Hc Hcap]. unfold alloc_slice. rewrite Hc, bind_Ok. unfold kPtrBytes.
  rewrite u32_small by ulia. pose proof (alloc_run_spec p (cap lv + 4) Hp ltac:(lia)) as Ha.
  destruct (alloc_run (cap lv + 4) p) as [[first p1]|st|]; [|cbn; unfold arena_full; rewrite arena_bytes_eq; lia|done].
  destruct Ha as (Hp1 & Hfirst & Hob & Hno & Hpb & Hz & Hfr). rewrite bind_Ok. cbv beta iota zeta.
  pose proof (wf_next p Hp). pose proof (wf_u32 p1 Hp1) as Hmax. unfold UINT32_MAX in Hmax. rewrite u32_small by ulia.
  change (Z.to_nat 4) with 4%nat.
  destruct (poke_ok p1 (first + cap lv) (replicate 4 0)) as (p2 & -> & Hp2 & Hno2 & Hpb2 & Hat & Hfr2);
    [done|eapply one_block_sub; [done|cbn; lia..]|cbn; lia|cbn; lia|]. cbn in Hfr2. rewrite bind_Ok.
  split_and!; [done|done|done|split; [done|lia]|lia|congruence| |intros o Ho; rewrite Hfr2 by lia; by apply Hfr].
  intros k b [-> Hk]%lookup_replicate. destruct (decide (Z.of_nat k < cap lv)).
  - rewrite Hfr2 by lia. apply Hz. by apply lookup_replicate_2.
  - replace (first + Z.of_nat k) with (first + cap lv + Z.of_nat (k - Z.to_nat (cap lv))) by lia.
    apply Hat, lookup_replicate_2. lia.
Qed.

(** The append handle of a chain. *)
Definition handle_at (heads : list Z) (data : bytes) (w : SliceWriter) (lv : Z) : Prop :=
  ∃ h n, tail_of 0 heads (zlen data) = (lv, h, n) ∧ cur w = h + n ∧ slice_end w = h + cap lv.

Lemma level_0 : is_level 0.
Proof. unfold is_level, kLevelCount. lia. Qed.

Lemma start_chain_spec p :
  wf_pool p →
  match start_chain p with
  | Ok (head, w, lv, p') =>
      wf_pool p' ∧ chain p' 0 [head] [] ∧ handle_at [head] [] w lv ∧ next_offset_ p ≤ head ∧
      next_offset_ p ≤ next_offset_ p' ∧ (∀ o, 0 ≤ o < next_offset_ p → mem p' o = mem p o)
  | Err _ => arena_full p
  | Undef => False
  end.
Proof.
  intros Hp. unfold start_chain. pose proof (alloc_slice_spec p 0 Hp level_0) as Ha.
  destruct (alloc_slice 0 p) as [[[head e] p']|st|]; [rewrite bind_Ok|done|done].
  destruct Ha as (Hp' & Hh & -> & Hs & Hno & Hpb & Hz & Hfr). destruct (cap_range 0 level_0) as [_ Hcap].
  split_and!; [done| | |done|lia|done].
  - split; [done|]. replace (Z.to_nat (cap 0 + 4)) with (Z.to_nat (cap 0) + 4)%nat in Hz by lia.
    rewrite replicate_add, bytes_at_app, length_replicate, Z2Nat.id in Hz by lia. cbn [length app]. rewrite Nat.sub_0_r.
    split_and!; [lia|apply Hz..].
  - exists head, 0. cbn. split_and!; [done|lia|done].
Qed.

Lemma owns_app level heads new o : owns level (heads ++ [new]) o → owns level heads o ∨ new ≤ o.
Proof.
  revert level. induction heads as [|h hs IH]; intros level; cbn; [intros [?|[]]; right; lia|].
  intros [?|Ho]; [left; by left|]. destruct (IH _ Ho); [left; by right|by right].
Qed.

(** Growing relinks the full tail to a fresh empty slice. *)
Lemma grow_spec p heads data w lv h :
  wf_pool p → chain p 0 heads data → tail_of 0 heads (zlen data) = (lv, h, cap lv) → slice_end w = h + cap lv →
  match grow w lv p with
  | Ok (w', lv', p') => ∃ new,
      wf_pool p' ∧ chain p' 0 (heads ++ [new]) data ∧ tail_of 0 (heads ++ [new]) (zlen data) = (lv', new, 0) ∧
      cur w' = new ∧ slice_end w' = new + cap lv' ∧ next_offset_ p ≤ new ∧ next_offset_ p ≤ next_offset_ p' ∧
      payload_bytes_ p' = payload_bytes_ p ∧ (∀ o, 0 ≤ o < next_offset_ p → ¬ owns 0 heads o → mem p' o = mem p o)
  | Err _ => arena_full p
  | Undef => False
  end.
Proof.
  intros Hp Hc Ht Hw. destruct (tail_spec _ _ _ _ _ _ _ level_0 Hc Ht) as (Hlv & [Hob Hend] & _ & Hown & _).
  destruct (cap_range lv Hlv) as [_ Hcap]. destruct (nxt_range lv Hlv) as [Hnx Hln]. unfold grow. rewrite Hnx, bind_Ok.
  pose proof (alloc_slice_spec p (nxt lv) Hp Hln) as Ha. destruct (cap_range (nxt lv) Hln) as [_ Hcapn].
  destruct (alloc_slice (nxt lv) p) as [[[new e] p1]|st|]; [rewrite bind_Ok|done|done]. cbv beta iota.
  destruct Ha as (Hp1 & Hnew & -> & Hs & Hno & Hpb & Hz & Hfr). unfold write_ptr. rewrite Hw. pose proof (proj1 Hob) as Hh0.
  destruct (poke_ok p1 (h + cap lv) (fixed32 new)) as (p2 & -> & Hp2 & Hno2 & Hpb2 & Hat & Hfr2);
    [done|rewrite fixed32_length; eapply one_block_sub; [done|lia..]|rewrite fixed32_length; lia|rewrite fixed32_length; lia|].
  rewrite fixed32_length in Hfr2. rewrite bind_Ok. exists new. cbn [cur slice_end].
  assert (bytes_at p2 new (replicate (Z.to_nat (cap (nxt lv) + 4)) 0)) as Hz2.
  { eapply bytes_at_eq; [|exact Hz]. intros i Hi. rewrite length_replicate in Hi. apply Hfr2; lia. }
  destruct (chain_grow p p2 0 heads data lv h new level_0 Hc Ht Hnew) as [Hc2 Ht2]; [split; [apply Hs|destruct Hs; lia]|done|done| |].
  { intros o Ho Hout. rewrite Hfr2 by lia. by apply Hfr. }
  split_and!; [done|done|done|done|done|done|lia|congruence|]. intros o Ho Hnot. rewrite Hfr2; [by apply Hfr|lia|].
  intros Hin. apply Hnot, Hown. lia.
Qed.

Lemma tail_of_succ level heads m lv h n :
  heads ≠ [] → tail_of level heads m = (lv, h, n) → tail_of level heads (m + 1) = (lv, h, n + 1).
Proof.
  revert level m. induction heads as [|x hs IH]; intros level m Hne Ht; [done|].
  destruct hs as [|y hs]; cbn in *; [by injection Ht as <- <- <-|].
  replace (m + 1 - cap level) with (m - cap level + 1) by lia. by apply IH.
Qed.

(** The slice an appended byte goes to: the last one, or a new one behind it. *)
Lemma append_slot_spec p heads data w lv :
  wf_pool p → chain p 0 heads data → handle_at heads data w lv →
  match (if cur w =? slice_end w then grow w lv p else Ok (w, lv, p)) with
  | Ok (w1, lv1, p1) => ∃ more h1 n1,
      wf_pool p1 ∧ chain p1 0 (heads ++ more) data ∧ tail_of 0 (heads ++ more) (zlen data) = (lv1, h1, n1) ∧
      n1 < cap lv1 ∧ cur w1 = h1 + n1 ∧ slice_end w1 = h1 + cap lv1 ∧
      next_offset_ p ≤ next_offset_ p1 ∧ payload_bytes_ p1 = payload_bytes_ p ∧
      (∀ o, 0 ≤ o < next_offset_ p → ¬ owns 0 heads o → mem p1 o = mem p o) ∧
      (∀ o, owns 0 (heads ++ more) o → owns 0 heads o ∨ next_offset_ p ≤ o)
  | Err _ => arena_full p
  | Undef => False
  end.
Proof.
  intros Hp Hc (h & n & Ht & Hcur & Hend). destruct (tail_spec _ _ _ _ _ _ _ level_0 Hc Ht) as (Hlv & _ & Hn & _ & _).
  destruct (Z.eqb_spec (cur w) (slice_end w)) as [He|Hne].
  - pose proof (grow_spec p heads data w lv h Hp Hc) as Hg. rewrite Ht in Hg.
    specialize (Hg ltac:(do 2 f_equal; lia) Hend). destruct (grow w lv p) as [[[w1 lv1] p1]|st|]; [|done|done].
    destruct Hg as (new & Hp1 & Hc1 & Ht1 & Hcur1 & Hend1 & Hnew & Hno & Hpb & Hfr).
    destruct (tail_spec _ _ _ _ _ _ _ level_0 Hc1 Ht1) as (Hlv1 & _). destruct (cap_range lv1 Hlv1) as [_ Hcap1].
    exists [new], new, 0. split_and!; [done..|lia|lia|done|done|done|done|].
    intros o [Ho|Ho]%owns_app; [by left|right; lia].
  - exists [], h, n. rewrite app_nil_r. split_and!; [done..|lia|done|done|lia|done|done|tauto].
Qed.

Lemma append_byte_spec p heads data w lv v :
  wf_pool p → chain p 0 heads data → handle_at heads data w lv →
  match append_byte w lv v p with
  | Ok (w', lv', p') => ∃ more,
      wf_pool p' ∧ chain p' 0 (heads ++ more) (data ++ [v]) ∧ handle_at (heads ++ more) (data ++ [v]) w' lv' ∧
      next_offset_ p ≤ next_offset_ p' ∧ payload_bytes_ p' = u64 (payload_bytes_ p + 1) ∧
      (∀ o, 0 ≤ o < next_offset_ p → ¬ owns 0 heads o → mem p' o = mem p o) ∧
      (∀ o, owns 0 (heads ++ more) o → owns 0 heads o ∨ next_offset_ p ≤ o)
  | Err _ => arena_full p
  | Undef => False
  end.
Proof.
  intros Hp Hc Hw. unfold append_byte. pose proof (append_slot_spec p heads data w lv Hp Hc Hw) as Hslot.
  destruct (if _ : bool then _ else _) as [[[w1 lv1] p1]|st|]; [rewrite bind_Ok|done|done]. cbv beta iota.
  destruct Hslot as (more & h1 & n1 & Hp1 & Hc1 & Ht1 & Hn1 & Hcur1 & Hend1 & Hno & Hpb & Hfr & Hown).
  destruct (tail_spec _ _ _ _ _ _ _ level_0 Hc1 Ht1) as (Hlv1 & [Hob Hin] & Hn1' & Ho1 & _).
  destruct (cap_range lv1 Hlv1) as [_ Hcap1]. pose proof (proj1 Hob) as Hh1. pose proof (wf_next p Hp) as Hnx. rewrite Hcur1.
  destruct (poke_ok p1 (h1 + n1) [v]) as (p2 & -> & Hp2 & Hno2 & Hpb2 & Hat & Hfr2);
    [done|cbn; eapply one_block_sub; [done|lia..]|cbn; lia|cbn; lia|]. cbn in Hfr2. rewrite bind_Ok.
  assert (mem p2 (h1 + n1) = Some v) as Hv by (rewrite <- (Z.add_0_r (h1 + n1)); by apply (Hat 0%nat)).
  pose proof (chain_append p1 p2 0 (heads ++ more) data lv1 h1 n1 v level_0 Hc1 Ht1 Hn1 Hno2 Hv) as Hc2.
  specialize (Hc2 ltac:(intros; apply Hfr2; lia)). exists more. cbn [next_offset_ payload_bytes_].
  pose proof (wf_u32 p2 Hp2) as Hmax. unfold UINT32_MAX in Hmax. rewrite Hno2 in Hmax.
  split_and!.
  - destruct Hp2 as [? ? ? ? ?]. by split.
  - apply (chain_frame p2); [apply level_0|cbn; lia|intros; reflexivity|exact Hc2].
  - exists h1, (n1 + 1). cbn [cur slice_end]. rewrite u32_small by ulia. rewrite length_app. cbn [length].
    rewrite Nat2Z.inj_add. split_and!; [apply tail_of_succ; [by destruct (heads ++ more)|done]|lia|done].
  - lia.
  - by rewrite Hpb2, Hpb.
  - intros o Ho Hnot. rewrite <- (Hfr o Ho Hnot). apply Hfr2; [lia|]. intros Heq.
    destruct (Hown o) as [?|?]; [apply Ho1; lia|done|lia].
  - exact Hown.
Qed.

(** ** Reading a chain *)

(** The cursor produces the bytes [bs], one per call, and then reports the end. *)
Fixpoint yields (p : CompactPostingPool) (c : Cursor) (bs : bytes) : Prop :=
  match bs with
  | [] => has_next p c = Ok false
  | b :: bs => has_next p c = Ok true ∧ ∃ c', next p c = Ok (b, c') ∧ yields p c' bs
  end.

Lemma yields_drain p c bs fuel : yields p c bs → (length bs < fuel)%nat → drain fuel p c = Ok bs.
Proof.
  revert p c bs. induction fuel as [|fuel IH]; intros p c bs Hy Hf; [lia|]. cbn [drain].
  destruct bs as [|b bs]; cbn [yields] in Hy; [by rewrite Hy|]. destruct Hy as (-> & c' & -> & Hy). rewrite !bind_Ok.
  cbn in Hf. rewrite (IH p c' bs) by (done || lia). done.
Qed.

(** Everything the slices hold: the payload and the zeros behind it. *)
Fixpoint stored (level : Z) (heads : list Z) (data : bytes) : bytes :=
  match heads with
  | [] => []
  | _ :: hs =>
      match hs with
      | [] => data ++ replicate (Z.to_nat (cap level) - length data) 0
      | _ => take (Z.to_nat (cap level)) data ++ stored (nxt level) hs (drop (Z.to_nat (cap level)) data)
      end
  end.

Fixpoint room (level : Z) (heads : list Z) : Z :=
  match heads with [] => 0 | _ :: hs => cap level + room (nxt level) hs end.

Lemma stored_padded p level heads data :
  is_level level → chain p level heads data →
  stored level heads data = data ++ replicate (Z.to_nat (room level heads) - length data) 0 ∧ zlen data ≤ room level heads.
Proof.
  revert level data. induction heads as [|h hs IH]; intros level data Hl Hc; [done|].
  destruct Hc as [_ Hc]. destruct (cap_range level Hl) as [_ Hcap]. destruct hs as [|h' hs].
  - cbn. rewrite Z.add_0_r. split; [done|]. apply Hc.
  - destruct Hc as (Hlen & _ & _ & _ & Hc). destruct (IH (nxt level) _ ltac:(by apply nxt_range) Hc) as [He Hr].
    rewrite length_drop in Hr. change (room level (h :: h' :: hs)) with (cap level + room (nxt level) (h' :: hs)).
    cbn [stored] in He |- *. rewrite He, app_assoc, take_drop, length_drop. split; [|lia]. do 2 f_equal. lia.
Qed.

Lemma read_ptr_spec p o v : wf_pool p → one_block o 4 → is_u32 v → bytes_at p o (fixed32 v) → read_ptr p o = Ok v.
Proof.
  intros Hp Ho Hv Hb. unfold read_ptr. pose proof (peek_spec p o (fixed32 v)) as Hpk. rewrite fixed32_length in Hpk.
  rewrite Hpk by (done || lia). rewrite bind_Ok. unfold fixed32. rewrite le_bytes_digits by (unfold is_u32 in Hv; lia).
  change (8 * 0) with 0. rewrite Z.shiftr_0_r. f_equal. by apply u32_small.
Qed.

(** The first slice of a chain and what its pointer says. *)
Lemma first_slice p level h hs data :
  wf_pool p → is_level level → chain p level (h :: hs) data →
  ∃ s, length s = Z.to_nat (cap level) ∧ bytes_at p h s ∧
    stored level (h :: hs) data = s ++ stored (nxt level) hs (drop (Z.to_nat (cap level)) data) ∧
    read_ptr p (h + cap level) = Ok (hd 0 hs) ∧ slice_at p level h ∧
    match hs with [] => True | h' :: _ => 0 < h' ∧ chain p (nxt level) hs (drop (Z.to_nat (cap level)) data) end.
Proof.
  intros Hp Hl [[Hob Hin] Hc]. destruct (cap_range level Hl) as [_ Hcap]. pose proof (proj1 Hob) as Hh.
  assert (one_block (h + cap level) 4) as Hobp by (eapply one_block_sub; [done|lia..]).
  destruct hs as [|h' hs].
  - destruct Hc as (Hlen & Hb & Hptr). exists (data ++ replicate (Z.to_nat (cap level) - length data) 0).
    split_and!; [rewrite length_app, length_replicate; lia|done|cbn; by rewrite app_nil_r| |done|done].
    cbn [hd]. apply read_ptr_spec; [done|done|ulia|exact Hptr].
  - destruct Hc as (Hlen & Hb & Hptr & Hh' & Hc). exists (take (Z.to_nat (cap level)) data).
    split_and!; [rewrite length_take; lia|done|done| |done|lia|exact Hc].
    apply read_ptr_spec; [done|done| |done]. destruct Hc as [[_ Hn'] _]. pose proof (wf_u32 p Hp) as Hmax.
    unfold UINT32_MAX in Hmax. destruct (cap_range (nxt level)) as [_ ?]; [by apply nxt_range|]. cbn [hd]. ulia.
Qed.

(** The cursor stands [k] bytes into the first slice of a chain. *)
Definition cursor_at (level h k : Z) (c : Cursor) : Prop :=
  c_cur c = h + k ∧ c_slice_end c = h + cap level ∧ c_level c = level.

Lemma take_byte_spec p level h s k x c :
  wf_pool p → slice_at p level h → bytes_at p h s → s !! Z.to_nat k = Some x → 0 ≤ k < cap level →
  c_cur c = h + k →
  take_byte p c = Ok (x, mkCursor (h + k + 1) (c_slice_end c) (c_level c) (c_budget c - 1)).
Proof.
  intros Hp [Hob Hin] Hs Hx Hk Hc. unfold take_byte. rewrite Hc. pose proof (wf_u32 p Hp) as Hmax. unfold UINT32_MAX in Hmax.
  change 1%nat with (length [x]).
  rewrite (peek_spec p (h + k) [x]); [|done|cbn; eapply one_block_sub; [done|lia..]|cbn; lia|].
  - rewrite bind_Ok. rewrite u32_small by (destruct Hob; ulia). done.
  - intros [|i] b Hb; [|done]. injection Hb as <-. specialize (Hs _ _ Hx). rewrite <- Hs. f_equal. lia.
Qed.

Lemma cursor_yields p level h hs data k budget :
  wf_pool p → is_level level → chain p level (h :: hs) data → 0 ≤ k ≤ cap level → 0 ≤ budget →
  ∀ c, cursor_at level h k c → c_budget c = budget →
  yields p c (take (Z.to_nat budget) (drop (Z.to_nat k) (stored level (h :: hs) data))).
Proof.
  intros Hp. remember (Z.to_nat budget) as n eqn:Hn. revert level h hs data k budget Hn.
  induction n as [|n IH]; intros level h hs data k budget Hn Hl Hc Hk Hb c (Hcur & Hend & Hlv) Hbud.
  { rewrite take_0. cbn [yields]. unfold has_next. rewrite Hbud. by rewrite (proj2 (Z.eqb_eq _ _)) by lia. }
  destruct (first_slice p level h hs data Hp Hl Hc) as (s & Hlen & Hs & Hst & Hptr & Hsl & Hmore).
  destruct (cap_range level Hl) as [_ Hcap]. assert ((c_budget c =? 0) = false) as Hb0 by (apply Z.eqb_neq; lia).
  destruct (decide (k < cap level)) as [Hlt|Hge].
  - destruct (lookup_lt_is_Some_2 s (Z.to_nat k) ltac:(lia)) as [x Hx].
    rewrite (drop_S _ x) by (rewrite Hst; by apply lookup_app_l_Some). cbn [take yields]. unfold has_next, next.
    rewrite Hb0, Hcur, Hend, (proj2 (Z.eqb_neq _ _)) by lia. split; [done|]. eexists.
    split; [apply (take_byte_spec p level h s k x c Hp Hsl Hs Hx ltac:(lia) Hcur)|]. replace (S (Z.to_nat k)) with (Z.to_nat (k + 1)) by lia.
    apply (IH level h hs data (k + 1) (budget - 1)); [lia|done|done|lia|lia| |cbn; lia].
    split_and!; cbn; lia.
  - assert (k = cap level) as -> by lia. rewrite Hst, drop_app_length_exact by done.
    destruct hs as [|h' hs].
    + cbn [stored]. rewrite take_nil. cbn [yields]. unfold has_next. rewrite Hb0, Hcur, Hend, Z.eqb_refl, Hptr. done.
    + destruct Hmore as [Hh' Hc']. set (data' := drop _ data) in *. cbn [hd] in Hptr. destruct (nxt_range level Hl) as [Hnx Hln].
      destruct (cap_range (nxt level) Hln) as [Hcn Hcapn].
      destruct (first_slice p (nxt level) h' hs data' Hp Hln Hc') as (s' & Hlen' & Hs' & Hst' & _ & Hsl' & _).
      destruct (lookup_lt_is_Some_2 s' 0%nat ltac:(lia)) as [x Hx].
      rewrite <- (drop_0 (stored (nxt level) _ _)).
      rewrite (drop_S _ x 0) by (rewrite Hst'; by apply lookup_app_l_Some). cbn [take yields]. unfold has_next, next.
      assert ((h' =? 0) = false) as Hne by (apply Z.eqb_neq; lia).
      rewrite Hb0, Hcur, Hend, Z.eqb_refl, Hptr, !bind_Ok, Hne. split; [done|]. rewrite Hlv, Hnx, bind_Ok, Hcn, bind_Ok. eexists. pose proof (wf_u32 p Hp) as Hmax. unfold UINT32_MAX in Hmax.
      split; [eapply (take_byte_spec p (nxt level) h' s' 0); [done|done|done|exact Hx|lia|cbn; lia]|].
      apply (IH (nxt level) h' hs data' 1 (budget - 1)); [lia|done|done|lia|lia| |cbn; lia].
      split_and!; cbn; [lia| |done]. destruct Hsl' as [[? _] ?]. rewrite u32_small by ulia. lia.
Qed.

Lemma room_tail p level heads data lv h n :
  is_level level → chain p level heads data → tail_of level heads (zlen data) = (lv, h, n) →
  room level heads - zlen data = cap lv - n.
Proof.
  revert level data. induction heads as [|h0 hs IH]; intros level data Hl Hc Ht; [done|]. destruct Hc as [_ Hc].
  destruct hs as [|h1 hs]; [cbn in *; injection Ht as <- <- <-; lia|]. destruct Hc as (Hlen & _ & _ & _ & Hc).
  assert (zlen (drop (Z.to_nat (cap level)) data) = zlen data - cap level) as Hd.
  { destruct (cap_range level Hl) as [_ ?]. rewrite length_drop. lia. }
  cbn [tail_of] in Ht. change (room level (h0 :: h1 :: hs)) with (cap level + room (nxt level) (h1 :: hs)).
  pose proof (IH (nxt level) _ ltac:(by apply nxt_range) Hc) as IH'. rewrite Hd in IH'. specialize (IH' Ht). lia.
Qed.

(** ** Many chains in one arena *)

Record Handle := mkHandle { h_head : Z; h_writer : SliceWriter; h_level : Z }.
Record Arena := mkArena { pool : CompactPostingPool; handles : list Handle }.
Inductive ArenaOp := Start | Append (i : nat) (v : Z).

Definition arena_step (op : ArenaOp) (a : Arena) : result Arena :=
  match op with
  | Start =>
      '(head, w, lv, p) ← start_chain (pool a);
      Ok (mkArena p (handles a ++ [mkHandle head w lv]))
  | Append i v =>
      match handles a !! i with
      | Some h =>
          '(w, lv, p) ← append_byte (h_writer h) (h_level h) v (pool a);
          Ok (mkArena p (<[i := mkHandle (h_head h) w lv]> (handles a)))
      | None => Undef
      end
  end.

Definition empty_arena : Arena := mkArena new_pool [].

(** The abstract arena: one byte string per chain. *)
Definition spec_step (ls : list bytes) (op : ArenaOp) : list bytes :=
  match op with
  | Start => ls ++ [[]]
  | Append i v => <[i := (ls !!! i) ++ [v]]> ls
  end.

(** Every append goes to a chain already started. *)
Fixpoint valid_ops (n : nat) (ops : list ArenaOp) : Prop :=
  match ops with
  | [] => True
  | Start :: ops => valid_ops (S n) ops
  | Append i _ :: ops => (i < n)%nat ∧ valid_ops n ops
  end.

(** The slices of the chains, the footprints disjoint. *)
Record arena_inv (a : Arena) (ls : list bytes) (hss : list (list Z)) : Prop := {
  inv_pool : wf_pool (pool a);
  inv_length : length (handles a) = length ls ∧ length hss = length ls;
  inv_chain i h bs hs : handles a !! i = Some h → ls !! i = Some bs → hss !! i = Some hs →
    hd 0 hs = h_head h ∧ chain (pool a) 0 hs bs ∧ handle_at hs bs (h_writer h) (h_level h);
  inv_disjoint i j hs hs' o : i ≠ j → hss !! i = Some hs → hss !! j = Some hs' → owns 0 hs o → ¬ owns 0 hs' o
}.

Lemma new_pool_wf : wf_pool new_pool.
Proof. split; cbn; [done|lia|by right|unfold UINT32_MAX; lia|lia]. Qed.

Lemma empty_arena_inv : arena_inv empty_arena [] [].
Proof. split; cbn; [apply new_pool_wf|done|done|done]. Qed.

Lemma inv_owns a ls hss i hs o : arena_inv a ls hss → hss !! i = Some hs → owns 0 hs o → 0 ≤ o < next_offset_ (pool a).
Proof.
  intros Hi Hs. destruct (inv_length _ _ _ Hi) as [Hl1 Hl2]. pose proof (lookup_lt_Some _ _ _ Hs).
  destruct (lookup_lt_is_Some_2 (handles a) i ltac:(lia)) as [h Hh]. destruct (lookup_lt_is_Some_2 ls i ltac:(lia)) as [bs Hb].
  destruct (inv_chain _ _ _ Hi i h bs hs Hh Hb Hs) as (_ & Hc & _). apply (owns_bound _ _ _ _ _ level_0 Hc).
Qed.

Lemma start_inv a ls hss :
  arena_inv a ls hss →
  match arena_step Start a with
  | Ok a' => next_offset_ (pool a) ≤ next_offset_ (pool a') ∧ ∃ hs, arena_inv a' (ls ++ [[]]) (hss ++ [hs])
  | Err _ => arena_full (pool a)
  | Undef => False
  end.
Proof.
  intros Hi. pose proof (start_chain_spec _ (inv_pool _ _ _ Hi)) as Hs. cbn [arena_step].
  destruct (start_chain (pool a)) as [[[[head w] lv] p]|st|]; [rewrite bind_Ok|done|done].
  destruct Hs as (Hp & Hc & Hw & Hhead & Hno & Hfr). split; [cbn [pool]; lia|]. exists [head]. destruct (inv_length _ _ _ Hi) as [Hl1 Hl2].
  split; cbn [pool handles]; [done|rewrite !length_app; cbn; lia| |].
  - intros i h bs hs Hh Hb Hhs. apply lookup_snoc_Some in Hh as [[Hlt Hh]|[-> <-]].
    + rewrite lookup_app_l in Hb by lia. rewrite lookup_app_l in Hhs by lia.
      destruct (inv_chain _ _ _ Hi i h bs hs Hh Hb Hhs) as (? & Hch & ?). split_and!; [done| |done].
      eapply chain_frame; [apply level_0|done| |done]. intros o Ho. apply Hfr. by apply (inv_owns _ _ _ i hs o Hi).
    + rewrite Hl1, list_lookup_middle in Hb by done. rewrite Hl1, <- Hl2, list_lookup_middle in Hhs by done.
      injection Hb as <-. injection Hhs as <-. done.
  - assert (∀ i hs o, (i < length hss)%nat → hss !! i = Some hs → owns 0 hs o → ¬ owns 0 [head] o) as Hfresh.
    { intros i hs o _ Hhs Ho [Hin|[]]. pose proof (inv_owns _ _ _ i hs o Hi Hhs Ho). lia. }
    intros i j hs hs' o Hne Hx Hy Ho Ho'. apply lookup_snoc_Some in Hx as [[Hlt Hx]|[-> <-]], Hy as [[Hlt' Hy]|[-> <-]].
    + by apply (inv_disjoint _ _ _ Hi i j hs hs' o).
    + by apply (Hfresh i hs o).
    + by apply (Hfresh j hs' o).
    + done.
Qed.

Lemma append_inv a ls hss i v :
  arena_inv a ls hss → (i < length ls)%nat →
  match arena_step (Append i v) a with
  | Ok a' => next_offset_ (pool a) ≤ next_offset_ (pool a') ∧ ∃ hs, arena_inv a' (<[i := (ls !!! i) ++ [v]]> ls) (<[i := hs]> hss)
  | Err _ => arena_full (pool a)
  | Undef => False
  end.
Proof.
  intros Hi Hlt. destruct (inv_length _ _ _ Hi) as [Hl1 Hl2]. cbn [arena_step].
  destruct (lookup_lt_is_Some_2 (handles a) i ltac:(lia)) as [h Hh]. destruct (lookup_lt_is_Some_2 ls i ltac:(lia)) as [bs Hb].
  destruct (lookup_lt_is_Some_2 hss i ltac:(lia)) as [hs Hhs]. rewrite Hh, (list_lookup_total_correct _ _ _ Hb).
  destruct (inv_chain _ _ _ Hi i h bs hs Hh Hb Hhs) as (Hhd & Hc & Hw).
  pose proof (append_byte_spec _ hs bs _ _ v (inv_pool _ _ _ Hi) Hc Hw) as Ha.
  destruct (append_byte _ _ _ _) as [[[w lv] p]|st|]; [rewrite bind_Ok|done|done].
  destruct Ha as (more & Hp & Hc' & Hw' & Hno & _ & Hfr & Hown). split; [cbn [pool]; lia|]. exists (hs ++ more).
  split; cbn [pool handles]; [done|rewrite !length_insert; lia| |].
  - intros j hj bsj hsj Hj Hbj Hhsj. destruct (decide (i = j)) as [->|Hne].
    + rewrite list_lookup_insert_eq in Hj by lia. rewrite list_lookup_insert_eq in Hbj by lia.
      rewrite list_lookup_insert_eq in Hhsj by lia. injection Hj as <-. injection Hbj as <-. injection Hhsj as <-.
      cbn [h_head h_writer h_level]. split_and!; [|done|done]. by destruct hs.
    + rewrite list_lookup_insert_ne in Hj by done. rewrite list_lookup_insert_ne in Hbj by done.
      rewrite list_lookup_insert_ne in Hhsj by done.
      destruct (inv_chain _ _ _ Hi j hj bsj hsj Hj Hbj Hhsj) as (? & Hcj & ?). split_and!; [done| |done].
      eapply chain_frame; [apply level_0|done| |done]. intros o Ho. apply Hfr; [by apply (inv_owns _ _ _ j hsj o Hi)|].
      intros Hoi. by apply (inv_disjoint _ _ _ Hi i j hs hsj o).
  - assert (∀ j hsj o, i ≠ j → hss !! j = Some hsj → owns 0 hsj o → ¬ owns 0 (hs ++ more) o) as Hdis.
    { intros j hsj o Hne Hj Ho Hoi. destruct (Hown o Hoi) as [Hold|Hnew]; [by apply (inv_disjoint _ _ _ Hi i j hs hsj o)|].
      pose proof (inv_owns _ _ _ j hsj o Hi Hj Ho). lia. }
    intros j k hsj hsk o Hne Hj Hk Hoj Hok.
    destruct (decide (i = j)) as [->|Hij]; [|destruct (decide (i = k)) as [->|Hik]].
    + rewrite list_lookup_insert_eq in Hj by lia. injection Hj as <-. rewrite list_lookup_insert_ne in Hk by done.
      by apply (Hdis k hsk o).
    + rewrite list_lookup_insert_eq in Hk by lia. injection Hk as <-. rewrite list_lookup_insert_ne in Hj by done.
      by apply (Hdis j hsj o).
    + rewrite list_lookup_insert_ne in Hj by done. rewrite list_lookup_insert_ne in Hk by done. by apply (inv_disjoint _ _ _ Hi j k hsj hsk o).
Qed.

(** One operation: the pointer does not go back, and only a full arena fails. *)
Lemma step_inv op a ls hss :
  arena_inv a ls hss → valid_ops (length ls) [op] →
  match arena_step op a with
  | Ok a' => next_offset_ (pool a) ≤ next_offset_ (pool a') ∧ ∃ hss', arena_inv a' (spec_step ls op) hss'
  | Err _ => arena_full (pool a)
  | Undef => False
  end.
Proof.
  intros Hi Hv. destruct op as [|i v].
  - pose proof (start_inv a ls hss Hi) as Hs. destruct (arena_step Start a); [|done..]. destruct Hs as [Hle [hs Hi']]. split; [done|by eexists].
  - destruct Hv as [Hlt _]. pose proof (append_inv a ls hss i v Hi Hlt) as Hs. destruct (arena_step (Append i v) a); [|done..].
    destruct Hs as [Hle [hs Hi']]. split; [done|by eexists].
Qed.

Lemma valid_ops_cons n op ops : valid_ops n (op :: ops) → valid_ops n [op] ∧ ∀ ls : list bytes, length ls = n → valid_ops (length (spec_step ls op)) ops.
Proof.
  destruct op as [|i v]; cbn [valid_ops spec_step].
  - intros Hv. split; [done|]. intros ls <-. rewrite length_app. cbn. by rewrite Nat.add_1_r.
  - intros [Hlt Hv]. split; [done|]. intros ls <-. by rewrite length_insert.
Qed.

(** What a run of operations keeps of the pointer: it never goes back, and an
    operation fails only on a full arena. *)
Definition run_safe (ops : list ArenaOp) (a : Arena) : Prop :=
  match fold_result arena_step ops a with
  | Ok a' => ∀ pre post, ops = pre ++ post →
      ∃ a0, fold_result arena_step pre a = Ok a0 ∧ next_offset_ (pool a) ≤ next_offset_ (pool a0) ≤ next_offset_ (pool a')
  | Err st => ∃ pre op post a0, ops = pre ++ op :: post ∧ fold_result arena_step pre a = Ok a0 ∧
      arena_step op a0 = Err st ∧ arena_full (pool a0)
  | Undef => False
  end.

Lemma ops_safe ops a ls hss : arena_inv a ls hss → valid_ops (length ls) ops → run_safe ops a.
Proof.
  unfold run_safe. revert a ls hss. induction ops as [|op ops IH]; intros a ls hss Hi Hv.
  { intros pre post [-> ->]%eq_sym%app_nil. exists a. split; [done|lia]. }
  apply valid_ops_cons in Hv as [Ho Hv]. pose proof (step_inv op a ls hss Hi Ho) as Hs. cbn [fold_result].
  destruct (arena_step op a) as [a1|st|] eqn:Hst; [|by exists [], op, ops, a|done]. rewrite bind_Ok. destruct Hs as [Hle [hss' Hi']].
  specialize (IH a1 _ hss' Hi' (Hv ls eq_refl)). destruct (fold_result arena_step ops a1) as [a2|st|]; [| |done].
  - assert (next_offset_ (pool a1) ≤ next_offset_ (pool a2)) as Hle2 by (destruct (IH [] ops eq_refl) as (a0 & _ & ?); lia).
    intros [|o pre] post Heq; [exists a; split; [done|lia]|]. injection Heq as <- Heq. destruct (IH pre post Heq) as (a0 & Hpre & ?).
    exists a0. cbn [fold_result]. rewrite Hst, bind_Ok. split; [done|lia].
  - destruct IH as (pre & op' & post & a0 & -> & Hpre & Hop & Hfull). exists (op :: pre), op', post, a0. cbn [fold_result app].
    by rewrite Hst, bind_Ok.
Qed.

Lemma run_inv ops a ls hss :
  arena_inv a ls hss → valid_ops (length ls) ops →
  match fold_result arena_step ops a with
  | Ok a' => ∃ hss', arena_inv a' (foldl spec_step ls ops) hss'
  | Err _ => True
  | Undef => False
  end.
Proof.
  revert a ls hss. induction ops as [|op ops IH]; intros a ls hss Hi Hv; cbn [fold_result foldl]; [by eexists|].
  apply valid_ops_cons in Hv as [Ho Hv]. pose proof (step_inv op a ls hss Hi Ho) as Hs.
  destruct (arena_step op a) as [a1|st|]; [rewrite bind_Ok|done|done]. destruct Hs as [_ [hss' Hi']]. by apply (IH _ _ _ Hi' (Hv ls eq_refl)).
Qed.

(** ** Properties *)

(** C33: chains grown in any interleaving within one arena stay apart: a cursor
    over a chain with any budget yields the bytes appended to that chain, in
    order, cut to the budget and followed by at most one slice of zeros; with
    the exact length as budget it yields exactly those bytes. *)
Theorem arena_chain_contents ops a i h bs budget fuel :
  valid_ops 0 ops → fold_result arena_step ops empty_arena = Ok a →
  handles a !! i = Some h → foldl spec_step [] ops !! i = Some bs →
  0 ≤ budget < Z.of_nat fuel →
  ∃ pad, (pad ≤ 2304)%nat ∧
    drain fuel (pool a) (cursor (h_head h) budget) = Ok (take (Z.to_nat budget) (bs ++ replicate pad 0)).
Proof.
  intros Hv Hrun Hh Hb Hf. pose proof (run_inv ops empty_arena [] [] empty_arena_inv Hv) as Hinv. rewrite Hrun in Hinv.
  destruct Hinv as [hss Hi]. destruct (inv_length _ _ _ Hi) as [Hl1 Hl2]. pose proof (lookup_lt_Some _ _ _ Hb).
  destruct (lookup_lt_is_Some_2 hss i ltac:(lia)) as [hs Hhs].
  destruct (inv_chain _ _ _ Hi i h bs hs Hh Hb Hhs) as (Hhd & Hc & (hl & n & Ht & _)).
  destruct hs as [|h0 hs]; [done|]. cbn [hd] in Hhd. subst h0. pose proof (inv_pool _ _ _ Hi) as Hp.
  destruct (stored_padded _ _ _ _ level_0 Hc) as [Hst Hroom]. pose proof (room_tail _ _ _ _ _ _ _ level_0 Hc Ht) as Hrt.
  destruct (tail_spec _ _ _ _ _ _ _ level_0 Hc Ht) as (Hlv & _ & Hn & _). destruct (cap_range _ Hlv) as [_ Hcap].
  exists (Z.to_nat (room 0 (h_head h :: hs)) - length bs)%nat. split; [lia|]. rewrite <- Hst.
  apply yields_drain; [|rewrite length_take; lia].
  pose proof (cursor_yields _ 0 (h_head h) hs bs 0 budget Hp level_0 Hc ltac:(destruct (cap_range 0 level_0); lia) ltac:(lia)) as Hy.
  rewrite drop_0 in Hy. apply Hy; [|done]. destruct Hc as [[[? _] Hin] _]. pose proof (wf_u32 _ Hp) as Hmax.
  unfold UINT32_MAX in Hmax. destruct (cap_range 0 level_0) as [_ ?]. change (cap 0) with 5 in *.
  split_and!; cbn; [lia| |done]. rewrite u32_small by ulia. done.
Qed.

(** C40: no sequence of operations on started chains reads or writes outside the
    blocks or wraps an offset. When all succeed, the bump pointer has gone back
    after none of them and lies in the last block, past its start and at most at
    its end, below 4 GiB; an operation fails only on an arena whose blocks are
    within one slice of 4 GiB, with all before it done. *)
Theorem arena_safe ops :
  valid_ops 0 ops →
  match fold_result arena_step ops empty_arena with
  | Ok a =>
      (∀ pre post, ops = pre ++ post →
         ∃ a0, fold_result arena_step pre empty_arena = Ok a0 ∧ next_offset_ (pool a0) ≤ next_offset_ (pool a)) ∧
      next_offset_ (pool a) ≤ UINT32_MAX ∧ next_offset_ (pool a) ≤ arena_bytes (pool a) ∧
      (blocks_ (pool a) ≠ [] → arena_bytes (pool a) - kBlockSize < next_offset_ (pool a))
  | Err st => ∃ pre op post a0, ops = pre ++ op :: post ∧ fold_result arena_step pre empty_arena = Ok a0 ∧
      arena_step op a0 = Err st ∧ UINT32_MAX < arena_bytes (pool a0) + 2308
  | Undef => False
  end.
Proof.
  intros Hv. pose proof (run_inv ops empty_arena [] [] empty_arena_inv Hv) as Hinv.
  pose proof (ops_safe ops empty_arena [] [] empty_arena_inv Hv) as Hs. unfold run_safe in Hs.
  destruct (fold_result arena_step ops empty_arena) as [a|st|]; [|exact Hs|done]. destruct Hinv as [hss Hi].
  pose proof (inv_pool _ _ _ Hi) as Hp. split.
  - intros pre post Hops. destruct (Hs pre post Hops) as (a0 & Hpre & _ & Hle). by exists a0.
  - split; [apply (wf_u32 _ Hp)|]. rewrite arena_bytes_eq. split; [apply (wf_next _ Hp)|]. intros Hne. destruct (wf_tail _ Hp) as [|He]; [|done].
    change kBlockSize with 32768. lia.
Qed.

(** an append fails only when the arena is within one slice of 4 GiB, and a
    successful one counts one payload byte and lengthens its own chain only. *)
Theorem append_byte_total p heads data w lv v :
  wf_pool p → chain p 0 heads data → handle_at heads data w lv → ¬ arena_full p →
  ∃ w' lv' p' more, append_byte w lv v p = Ok (w', lv', p') ∧
    chain p' 0 (heads ++ more) (data ++ [v]) ∧ handle_at (heads ++ more) (data ++ [v]) w' lv' ∧
    payload_bytes_ p' = u64 (payload_bytes_ p + 1) ∧
    (∀ o, 0 ≤ o < next_offset_ p → ¬ owns 0 heads o → mem p' o = mem p o).
Proof.
  intros Hp Hc Hw Hfull. pose proof (append_byte_spec p heads data w lv v Hp Hc Hw) as Ha.
  destruct (append_byte w lv v p) as [[[w' lv'] p']|st|]; [|done|done].
  destruct Ha as (more & _ & ? & ? & _ & ? & ? & _). by exists w', lv', p', more.
Qed.

(** ** Witnesses *)

Definition sample_ops : list ArenaOp :=
  [Start; Start; Append 0 7; Append 1 9; Append 0 8; Append 0 1; Append 0 2; Append 0 3; Append 0 4].

Lemma arena_chain_contents_witness :
  ∃ a h, fold_result arena_step sample_ops empty_arena = Ok a ∧ handles a !! 0%nat = Some h ∧
  ∃ pad, (pad ≤ 2304)%nat ∧ drain 7 (pool a) (cursor (h_head h) 6) = Ok (take 6 ([7; 8; 1; 2; 3; 4] ++ replicate pad 0)).
Proof.
  assert ((λ a, map h_head (handles a)) <$> fold_result arena_step sample_ops empty_arena = Ok [0; 9]) as Hh
    by (vm_compute; reflexivity).
  destruct (fold_result arena_step sample_ops empty_arena) as [a|st|] eqn:E; [|done|done]. cbn in Hh. injection Hh as Hh.
  destruct (handles a) as [|h hs] eqn:Ea; [done|]. exists a, h. split; [done|]. split; [by rewrite Ea|].
  apply (arena_chain_contents sample_ops a 0 h [7; 8; 1; 2; 3; 4] 6 7); [cbn; lia|exact E|by rewrite Ea|reflexivity|lia].
Defined.

Lemma arena_safe_witness :
  match fold_result arena_step sample_ops empty_arena with
  | Ok a =>
      (∀ pre post, sample_ops = pre ++ post →
         ∃ a0, fold_result arena_step pre empty_arena = Ok a0 ∧ next_offset_ (pool a0) ≤ next_offset_ (pool a)) ∧
      next_offset_ (pool a) ≤ UINT32_MAX ∧ next_offset_ (pool a) ≤ arena_bytes (pool a) ∧
      (blocks_ (pool a) ≠ [] → arena_bytes (pool a) - kBlockSize < next_offset_ (pool a))
  | Err st => ∃ pre op post a0, sample_ops = pre ++ op :: post ∧ fold_result arena_step pre empty_arena = Ok a0 ∧
      arena_step op a0 = Err st ∧ UINT32_MAX < arena_bytes (pool a0) + 2308
  | Undef => False
  end.
Proof. apply (arena_safe sample_ops). cbn. lia. Defined.

Lemma append_byte_total_witness :
  ∃ p heads data w lv, wf_pool p ∧ ∃ w' lv' p' more, append_byte w lv 3 p = Ok (w', lv', p') ∧
    chain p' 0 (heads ++ more) (data ++ [3]) ∧ handle_at (heads ++ more) (data ++ [3]) w' lv' ∧
    payload_bytes_ p' = u64 (payload_bytes_ p + 1) ∧
    (∀ o, 0 ≤ o < next_offset_ p → ¬ owns 0 heads o → mem p' o = mem p o).
Proof.
  assert ((λ r, length (blocks_ r.2)) <$> start_chain new_pool = Ok 1%nat) as Hlen by (vm_compute; reflexivity).
  destruct (start_chain new_pool) as [[[[head w] lv] p]|st|] eqn:E; [|done|done]. cbn in Hlen. injection Hlen as Hlen.
  pose proof (start_chain_spec new_pool new_pool_wf) as Hs. rewrite E in Hs.
  destruct Hs as (Hp & Hc & Hw & _). exists p, [head], [], w, lv. split; [done|].
  apply (append_byte_total p [head] [] w lv 3); [done|done|done|].
  unfold arena_full. rewrite arena_bytes_eq, Hlen. unfold UINT32_MAX. lia.
Defined.

(** A cursor whose budget exceeds the payload reports the unused bytes of the
    last slice as zeros. *)
Example cursor_phantom_bytes :
  (a ← fold_result arena_step [Start; Append 0 7; Append 0 8] empty_arena;
   drain 101 (pool a) (cursor 0 100)) = Ok [7; 8; 0; 0; 0].
Proof. vm_compute. reflexivity. Qed.
