(* ===== verification/DocidSets.v ===== *)
(** * DocidSets: intersection and unions of sorted document lists.

    [query/internal/docid_set_ops.h] and [query/docid_set_ops.cpp].
    [std::set_intersection] and [std::set_union] are written out as the
    standard describes them. The order in which [std::priority_queue] returns
    cursors of equal docid is unspecified, so the queue is the class
    [PriorityQueue]: any structure whose [pop] returns a minimal element. The
    k-way loop consumes one element per round; their total number plus one is
    fuel enough ([union_loop_spec]). *)

From S2P Require Import Prelude Status.

#[local] Open Scope Z_scope.

Abbreviation ascending := (StronglySorted Z.lt) (only parsing).

Fixpoint set_intersection (a b : list Z) : list Z :=
  let fix go (b : list Z) : list Z :=
    match a, b with
    | x :: a', y :: b' =>
        if x <? y then set_intersection a' b
        else if negb (y <? x) then x :: set_intersection a' b'
        else go b'
    | _, _ => []
    end in
  go b.

Fixpoint set_union (a b : list Z) : list Z :=
  let fix go (b : list Z) : list Z :=
    match a, b with
    | [], _ => b
    | _, [] => a
    | x :: a', y :: b' =>
        if y <? x then y :: go b'
        else if negb (x <? y) then x :: set_union a' b'
        else x :: set_union a' b
    end in
  go b.

Definition intersect_sorted (a b : list Z) : list Z := set_intersection a b.
Definition union_sorted_into (acc next : list Z) : list Z := set_union acc next.

(** ** The k-way union *)

Record Cursor := mkCursor { docid : Z; list_ : nat; offset : nat }.

Class PriorityQueue := {
  queue : Type;
  queue_empty : queue;
  queue_push : Cursor → queue → queue;
  (** [top()] and [pop()]; [None] on the empty queue *)
  queue_pop : queue → option (Cursor * queue);
  queue_elems : queue → list Cursor;
  queue_empty_spec : queue_elems queue_empty = [];
  queue_push_spec c q : queue_elems (queue_push c q) ≡ₚ c :: queue_elems q;
  queue_pop_spec q :
    match queue_pop q with
    | None => queue_elems q = []
    | Some (c, q') => queue_elems q ≡ₚ c :: queue_elems q' ∧
        Forall (λ c', docid c ≤ docid c') (queue_elems q')
    end
}.

Section Union.
Context `{PriorityQueue}.

(** The loop that fills the heap and counts the non-empty lists. *)
Fixpoint push_heads (lists : list (list Z)) (i : nat) (st : nat * queue) : nat * queue :=
  match lists with
  | [] => st
  | [] :: lists => push_heads lists (S i) st
  | (x :: _) :: lists => push_heads lists (S i) (S st.1, queue_push (mkCursor x i 0) st.2)
  end.

Definition first_non_empty (lists : list (list Z)) : list Z :=
  default [] (List.find (λ docs, match docs with [] => false | _ => true end) lists).

Fixpoint union_loop (fuel : nat) (lists : list (list Z)) (heap : queue) (out : list Z)
    (has_last : bool) (last : Z) : result (list Z) :=
  match fuel with
  | O => Undef
  | S fuel =>
      match queue_pop heap with
      | None => Ok out
      | Some (cur, heap) =>
          let fresh := negb has_last || negb (docid cur =? last) in
          let out := if fresh then out ++ [docid cur] else out in
          let last := if fresh then docid cur else last in
          let has_last := has_last || fresh in
          let next_offset := S (offset cur) in
          match lists !! list_ cur with
          | None => Undef
          | Some docs =>
              let heap :=
                match docs !! next_offset with
                | Some d => queue_push (mkCursor d (list_ cur) next_offset) heap
                | None => heap
                end in
              union_loop fuel lists heap out has_last last
          end
      end
  end.

Definition union_sorted_many (lists : list (list Z)) : result (list Z) :=
  let '(non_empty, heap) := push_heads lists 0 (0%nat, queue_empty) in
  if (non_empty =? 0)%nat then Ok []
  else if (non_empty =? 1)%nat then Ok (first_non_empty lists)
  else union_loop (S (length (concat lists))) lists heap [] false 0.
End Union.

(** ** Two-way operations *)

Lemma set_intersection_nil b : set_intersection [] b = [].
Proof. by destruct b. Qed.
Lemma set_intersection_nil_r a : set_intersection a [] = [].
Proof. by destruct a. Qed.
Lemma set_intersection_cons x a y b :
  set_intersection (x :: a) (y :: b) =
    if x <? y then set_intersection a (y :: b)
    else if negb (y <? x) then x :: set_intersection a b
    else set_intersection (x :: a) b.
Proof. cbn. by destruct (x <? y), (y <? x). Qed.

Lemma set_union_nil b : set_union [] b = b.
Proof. by destruct b. Qed.
Lemma set_union_nil_r a : set_union a [] = a.
Proof. by destruct a. Qed.
Lemma set_union_cons x a y b :
  set_union (x :: a) (y :: b) =
    if y <? x then y :: set_union (x :: a) b
    else if negb (x <? y) then x :: set_union a b
    else x :: set_union a (y :: b).
Proof. cbn. by destruct (y <? x), (x <? y). Qed.

Lemma ascending_cons x l : ascending (x :: l) ↔ ascending l ∧ Forall (Z.lt x) l.
Proof. split; [by inversion 1|intros []; by constructor]. Qed.

Lemma ascending_le l : ascending l → StronglySorted Z.le l.
Proof. apply lt_sorted_le. Qed.

(** Above a bound, membership in a sorted list skips its head. *)
Lemma ascending_head_lt x l y : ascending (x :: l) → y ∈ x :: l → x ≤ y.
Proof.
  intros [_ Hf]%ascending_cons [->|Hy]%elem_of_cons; [lia|]. rewrite Forall_forall in Hf. specialize (Hf y Hy). lia.
Qed.

Lemma set_intersection_elem a b x :
  ascending a → ascending b → x ∈ set_intersection a b ↔ x ∈ a ∧ x ∈ b.
Proof.
  intros Ha. revert b. induction a as [|y a IHa]; intros b Hb; [rewrite set_intersection_nil; set_solver|].
  induction b as [|z b IHb]; [rewrite set_intersection_nil_r; set_solver|]. rewrite set_intersection_cons.
  pose proof (proj1 (ascending_cons _ _) Ha) as [Ha' Hya]. pose proof (proj1 (ascending_cons _ _) Hb) as [Hb' Hzb].
  rewrite Forall_forall in Hya. rewrite Forall_forall in Hzb.
  destruct (Z.ltb_spec y z) as [Hlt|Hge].
  - rewrite IHa by done. split; [set_solver|]. intros [[->|?]%elem_of_cons Hx]; [|done].
    pose proof (ascending_head_lt _ _ _ Hb Hx). lia.
  - destruct (Z.ltb_spec z y) as [Hgt|Hle]; cbn [negb].
    + rewrite IHb by done. split; [set_solver|]. intros [Hx [->|?]%elem_of_cons]; [|done].
      pose proof (ascending_head_lt _ _ _ Ha Hx). lia.
    + assert (y = z) as -> by lia. rewrite elem_of_cons, IHa by done. split; [set_solver|].
      intros [[->|Hxa]%elem_of_cons Hx]; [by left|]. apply elem_of_cons in Hx as [->|Hxb]; [by left|by right].
Qed.

Lemma set_union_elem a b x : x ∈ set_union a b ↔ x ∈ a ∨ x ∈ b.
Proof.
  revert b. induction a as [|y a IHa]; intros b; [rewrite set_union_nil; set_solver|].
  induction b as [|z b IHb]; [rewrite set_union_nil_r; set_solver|]. rewrite set_union_cons.
  destruct (Z.ltb_spec z y); [rewrite elem_of_cons, IHb; set_solver|].
  destruct (Z.ltb_spec y z); cbn [negb]; rewrite elem_of_cons, IHa; [set_solver|].
  assert (y = z) as -> by lia. set_solver.
Qed.

(** A list whose elements lie above [x] stays ascending behind [x]. *)
Lemma ascending_cons_elem x l : ascending l → (∀ y, y ∈ l → x < y) → ascending (x :: l).
Proof. intros Hl Hx. apply ascending_cons. split; [done|]. by apply Forall_forall. Qed.

Lemma set_intersection_ascending a b : ascending a → ascending b → ascending (set_intersection a b).
Proof.
  intros Ha. revert b. induction a as [|y a IHa]; intros b Hb; [rewrite set_intersection_nil; constructor|].
  induction b as [|z b IHb]; [rewrite set_intersection_nil_r; constructor|]. rewrite set_intersection_cons.
  pose proof (proj1 (ascending_cons _ _) Ha) as [Ha' Hya]. pose proof (proj1 (ascending_cons _ _) Hb) as [Hb' Hzb].
  destruct (y <? z); [by apply IHa|]. destruct (negb _); [|by apply IHb].
  apply ascending_cons_elem; [by apply IHa|]. intros w Hw. apply set_intersection_elem in Hw as [Hw _]; [|done..].
  rewrite Forall_forall in Hya. by apply Hya.
Qed.

Lemma set_union_ascending a b : ascending a → ascending b → ascending (set_union a b).
Proof.
  intros Ha. revert b. induction a as [|y a IHa]; intros b Hb; [by rewrite set_union_nil|].
  induction b as [|z b IHb]; [by rewrite set_union_nil_r|]. rewrite set_union_cons.
  pose proof (proj1 (ascending_cons _ _) Ha) as [Ha' Hya]. pose proof (proj1 (ascending_cons _ _) Hb) as [Hb' Hzb].
  rewrite Forall_forall in Hya. rewrite Forall_forall in Hzb.
  destruct (Z.ltb_spec z y) as [Hlt|Hge]; [|destruct (Z.ltb_spec y z); cbn [negb]].
  - apply ascending_cons_elem; [by apply IHb|]. intros w [Hw|Hw]%set_union_elem; [|by apply Hzb].
    pose proof (ascending_head_lt _ _ _ Ha Hw). lia.
  - apply ascending_cons_elem; [by apply IHa|]. intros w [Hw|Hw]%set_union_elem; [by apply Hya|].
    pose proof (ascending_head_lt _ _ _ Hb Hw). lia.
  - apply ascending_cons_elem; [by apply IHa|]. intros w [Hw|Hw]%set_union_elem; [by apply Hya|].
    specialize (Hzb w Hw). lia.
Qed.

(** ** The k-way loop *)

Lemma elem_of_concat (ls : list (list Z)) x : x ∈ concat ls ↔ ∃ l, l ∈ ls ∧ x ∈ l.
Proof.
  induction ls as [|l ls IH]; cbn [concat].
  - split; [by intros ?%elem_of_nil|by intros (l & ?%elem_of_nil & _)].
  - rewrite elem_of_app, IH. split.
    + intros [Hx|(k & Hk & Hx)]; [exists l; split; [by left|done]|exists k; split; [by right|done]].
    + intros (k & [->|Hk]%elem_of_cons & Hx); [by left|right; by exists k].
Qed.

Section UnionSpec.
Context `{PriorityQueue}.

(** The elements a cursor still has to deliver, its own included. *)
Definition pending (lists : list (list Z)) (c : Cursor) : list Z := drop (offset c) (default [] (lists !! list_ c)).

Definition cursor_ok (lists : list (list Z)) (c : Cursor) : Prop :=
  ∃ docs, lists !! list_ c = Some docs ∧ docs !! offset c = Some (docid c).

Definition all_pending (lists : list (list Z)) (cs : list Cursor) : list Z := concat (map (pending lists) cs).

Lemma all_pending_perm lists cs cs' : cs ≡ₚ cs' → all_pending lists cs ≡ₚ all_pending lists cs'.
Proof.
  unfold all_pending. induction 1 as [|c cs cs' _ IH|c c' cs|cs cs' cs'' _ IH1 _ IH2]; cbn [map concat]; [done|by f_equiv| |by etrans].
  rewrite !app_assoc. f_equiv. apply Permutation_app_comm.
Qed.

(** Taking the docid of a cursor leaves its successor's elements. *)
Lemma pending_step lists c docs :
  lists !! list_ c = Some docs → docs !! offset c = Some (docid c) →
  pending lists c = docid c :: drop (S (offset c)) docs ∧
  (∀ d, docs !! S (offset c) = Some d →
    pending lists (mkCursor d (list_ c) (S (offset c))) = drop (S (offset c)) docs ∧
    cursor_ok lists (mkCursor d (list_ c) (S (offset c)))) ∧
  (docs !! S (offset c) = None → drop (S (offset c)) docs = []).
Proof.
  intros Hl Hd. unfold pending, cursor_ok. cbn [list_ offset docid]. rewrite Hl. cbn [from_option id default].
  split_and!; [by apply drop_S|intros d Hn; split; [done|by exists docs]|].
  intros Hn. apply drop_ge. by apply lookup_ge_None.
Qed.

Definition sorted_lists (lists : list (list Z)) : Prop := Forall (StronglySorted Z.le) lists.

Lemma pending_min lists c x : sorted_lists lists → cursor_ok lists c → x ∈ pending lists c → docid c ≤ x.
Proof.
  intros Hs (docs & Hl & Hd) Hx. destruct (pending_step lists c docs Hl Hd) as [He _]. rewrite He in Hx.
  apply elem_of_cons in Hx as [->|Hx]; [lia|]. assert (StronglySorted Z.le docs) as Hsd by exact (Forall_lookup_1 _ _ _ _ Hs Hl).
  apply list_elem_of_lookup in Hx as [i Hi]. rewrite lookup_drop in Hi.
  by apply (StronglySorted_lookup_lt Z.le docs (offset c) (S (offset c) + i) _ _ Hsd Hd Hi); lia.
Qed.

(** The result of the loop from a state: the output grows by the pending
    elements, each once and in order, except the last one already written. *)
Lemma union_loop_spec fuel lists heap out has_last last :
  sorted_lists lists → Forall (cursor_ok lists) (queue_elems heap) →
  (length (all_pending lists (queue_elems heap)) < fuel)%nat →
  (has_last = true → Forall (λ x, last ≤ x) (all_pending lists (queue_elems heap))) →
  ∃ more, union_loop fuel lists heap out has_last last = Ok (out ++ more) ∧ ascending more ∧
    (∀ x, x ∈ more ↔ x ∈ all_pending lists (queue_elems heap) ∧ ¬ (has_last = true ∧ x = last)).
Proof.
  intros Hs. revert heap out has_last last. induction fuel as [|fuel IH]; intros heap out has_last last Hok Hf Hlast; [lia|].
  cbn [union_loop]. pose proof (queue_pop_spec heap) as Hpop. destruct (queue_pop heap) as [[cur heap']|].
  2: { rewrite Hpop. exists []. rewrite app_nil_r. split_and!; [done|constructor|]. intros x. cbn. split; [by intros ?%elem_of_nil|].
       by intros [?%elem_of_nil _]. }
  destruct Hpop as [Hperm Hmin]. pose proof (all_pending_perm lists _ _ Hperm) as Hpp.
  rewrite Hperm in Hok. apply Forall_cons in Hok as [(docs & Hl & Hd) Hok']. rewrite Hl.
  destruct (pending_step lists cur docs Hl Hd) as (He & Hnext & Hend).
  change (all_pending lists (cur :: queue_elems heap')) with (pending lists cur ++ all_pending lists (queue_elems heap')) in Hpp.
  rewrite He in Hpp. cbn [app] in Hpp.
  set (heap2 := match docs !! S (offset cur) with Some d => _ | None => heap' end).
  assert (all_pending lists (queue_elems heap2) ≡ₚ drop (S (offset cur)) docs ++ all_pending lists (queue_elems heap') ∧
    Forall (cursor_ok lists) (queue_elems heap2)) as [Hrest Hok2].
  { subst heap2. destruct (docs !! S (offset cur)) as [d|] eqn:Hn.
    - destruct (Hnext d eq_refl) as [Hpd Hcd]. pose proof (queue_push_spec (mkCursor d (list_ cur) (S (offset cur))) heap') as Hpush.
      split; [|rewrite Hpush; by constructor]. rewrite (all_pending_perm _ _ _ Hpush). unfold all_pending at 1. cbn [map concat].
      by rewrite Hpd.
    - rewrite (Hend eq_refl). by split. }
  assert (Forall (λ x, docid cur ≤ x) (all_pending lists (queue_elems heap2))) as Hge.
  { rewrite Hrest. apply Forall_app_2; apply Forall_forall; intros x Hx.
    - apply (pending_min lists cur); [done|by exists docs|]. rewrite He. by right.
    - apply elem_of_concat in Hx as (l & [c [-> Hc]]%list_elem_of_fmap & Hx). rewrite Forall_forall in Hmin, Hok'.
      specialize (Hmin c Hc). pose proof (pending_min lists c x Hs (Hok' c Hc) Hx). lia. }
  clearbody heap2.
  assert (all_pending lists (queue_elems heap) ≡ₚ docid cur :: all_pending lists (queue_elems heap2)) as Hall.
  { by rewrite Hpp, Hrest. }
  rewrite Hall in Hlast. rewrite (Permutation_length Hall) in Hf. cbn [length] in Hf. clear Hpp Hrest Hend Hnext.
  assert (∀ x, x ∈ all_pending lists (queue_elems heap) ↔ x = docid cur ∨ x ∈ all_pending lists (queue_elems heap2)) as Hel.
  { intros x. by rewrite Hall, elem_of_cons. }
  destruct (negb has_last || negb (docid cur =? last)) eqn:Hfresh.
  - destruct (IH heap2 (out ++ [docid cur]) (has_last || true) (docid cur)) as (more & Hrun & Hasc & Helem); [done|lia|done|].
    exists (docid cur :: more). rewrite orb_true_r in Hrun, Helem. rewrite Forall_forall in Hge. split_and!.
    + rewrite orb_true_r, Hrun. by rewrite <- app_assoc.
    + apply ascending_cons_elem; [done|]. intros x [Hx Hne]%Helem. specialize (Hge x Hx).
      assert (x ≠ docid cur) by (intros ->; by apply Hne). lia.
    + intros x. rewrite elem_of_cons, Helem, Hel. split.
      * intros [->|[Hx Hne]]; (split; [tauto|]); intros [Hh Hq].
        -- by rewrite Hh, Hq, Z.eqb_refl in Hfresh.
        -- subst x. specialize (Hlast Hh). apply Forall_cons in Hlast as [Hle _]. specialize (Hge last Hx).
           apply Hne. split; [done|lia].
      * intros [[->|Hx] Hne]; [by left|]. destruct (decide (x = docid cur)); [by left|right]. split; [done|]. by intros [_ ?].
  - apply orb_false_iff in Hfresh as [Hh Heq]. apply negb_false_iff in Hh, Heq. apply Z.eqb_eq in Heq. subst has_last.
    destruct (IH heap2 out true last) as (more & Hrun & Hasc & Helem); [done|lia|by rewrite <- Heq|].
    exists more. split_and!; [exact Hrun|done|]. intros x. rewrite Helem, Hel, Heq. split; [tauto|].
    intros [[->|Hx] Hne]; [by destruct Hne|done].
Qed.

(** The heap after the first loop holds one cursor per non-empty list. *)
Lemma push_heads_spec lists pre i n q :
  i = length pre → n = length (queue_elems q) →
  Forall (cursor_ok (pre ++ lists)) (queue_elems q) →
  let '(n', q') := push_heads lists i (n, q) in
  Forall (cursor_ok (pre ++ lists)) (queue_elems q') ∧
  n' = (n + length (filter (λ l, l ≠ []) lists))%nat ∧
  all_pending (pre ++ lists) (queue_elems q') ≡ₚ all_pending (pre ++ lists) (queue_elems q) ++ concat lists.
Proof.
  revert pre i n q. induction lists as [|l lists IH]; intros pre i n q Hi Hn Hq; cbn [push_heads].
  { split_and!; [done|cbn; lia|cbn [concat]; by rewrite (app_nil_r (all_pending _ _))]. }
  assert ((pre ++ [l]) ++ lists = pre ++ l :: lists) as Happ by by rewrite <- app_assoc.
  assert (S i = length (pre ++ [l])) as Hi' by (rewrite length_app; cbn; lia).
  destruct l as [|x l].
  - pose proof (IH (pre ++ [[]]) (S i) n q Hi' Hn) as IH'. rewrite Happ in IH'. specialize (IH' Hq).
    destruct (push_heads lists (S i) (n, q)) as [n' q']. exact IH'.
  - set (c := mkCursor x i 0). pose proof (queue_push_spec c q) as Hpush.
    assert (cursor_ok (pre ++ (x :: l) :: lists) c) as Hc.
    { exists (x :: l). split; [|done]. cbn. subst i. by rewrite list_lookup_middle. }
    pose proof (IH (pre ++ [x :: l]) (S i) (S n) (queue_push c q) Hi') as IH'. rewrite Happ in IH'.
    specialize (IH' ltac:(rewrite Hpush; cbn; lia) ltac:(rewrite Hpush; by constructor)). cbn [fst snd].
    destruct (push_heads lists (S i) (S n, queue_push c q)) as [n' q']. destruct IH' as (Hok & Hn' & Hp).
    split_and!; [done|rewrite Hn', filter_cons_True by done; cbn; lia|]. rewrite Hp, (all_pending_perm _ _ _ Hpush).
    unfold all_pending at 1. cbn [map concat]. unfold pending at 1. cbn [list_ offset]. subst i c. cbn [list_ offset].
    rewrite list_lookup_middle by done. cbn [from_option id default drop concat].
    rewrite (Permutation_app_comm (x :: l)). by rewrite <- app_assoc.
Qed.

Lemma union_sorted_many_spec lists :
  Forall (StronglySorted Z.lt) lists →
  ∃ out, union_sorted_many lists = Ok out ∧ ascending out ∧ ∀ x, x ∈ out ↔ ∃ l, l ∈ lists ∧ x ∈ l.
Proof.
  intros Hs. unfold union_sorted_many. pose proof (push_heads_spec lists [] 0 0 queue_empty eq_refl) as Hh.
  rewrite queue_empty_spec in Hh. specialize (Hh eq_refl ltac:(constructor)). cbn [app] in Hh.
  destruct (push_heads lists 0 (0%nat, queue_empty)) as [n q]. destruct Hh as (Hok & Hn & Hp). cbn [Nat.add all_pending map concat app] in Hn, Hp.
  pose proof (elem_of_concat lists) as Hcat.
  destruct (Nat.eqb_spec n 0) as [Hz|Hz].
  { exists []. split_and!; [done|constructor|]. intros x. rewrite elem_of_nil. split; [done|]. intros (l & Hl & Hx).
    rewrite Hz in Hn. symmetry in Hn. apply length_zero_iff_nil in Hn.
    assert (l ∈ filter (λ l, l ≠ []) lists) as Hin by (apply list_elem_of_filter; split; [by destruct l; [apply elem_of_nil in Hx|]|done]).
    rewrite Hn in Hin. by apply elem_of_nil in Hin. }
  destruct (Nat.eqb_spec n 1) as [H1|H1].
  - clear - Hs Hn H1. rewrite H1 in Hn. clear n H1. exists (first_non_empty lists). split; [done|]. unfold first_non_empty.
    induction Hs as [|l lists Hl Hs IH]; [done|]. destruct l as [|y l].
    + cbn [List.find default from_option id]. destruct IH as [IHa IHe]; [done|]. split; [done|]. intros x. rewrite IHe. split.
      * intros (k & Hk & Hx). exists k. split; [by right|done].
      * intros (k & [->|Hk]%elem_of_cons & Hx); [by apply elem_of_nil in Hx|by exists k].
    + cbn. split; [done|]. intros x. split; [intros Hx; exists (y :: l); split; [by left|done]|].
      intros (k & [->|Hk]%elem_of_cons & Hx); [done|]. rewrite filter_cons_True in Hn by done. cbn in Hn. injection Hn as Hn.
      symmetry in Hn. apply length_zero_iff_nil in Hn.
      assert (k ∈ filter (λ l, l ≠ []) lists) as Hin by (apply list_elem_of_filter; split; [by destruct k; [apply elem_of_nil in Hx|]|done]).
      rewrite Hn in Hin. by apply elem_of_nil in Hin.
  - assert (sorted_lists lists) as Hsl.
    { eapply Forall_impl; [exact Hs|]. apply ascending_le. }
    destruct (union_loop_spec (S (length (concat lists))) lists q [] false 0 Hsl Hok) as (out & Hrun & Hasc & Hel).
    { rewrite (Permutation_length Hp). lia. }
    { done. }
    exists out. split_and!; [exact Hrun|done|]. intros x. rewrite Hel, Hp, Hcat. split; [tauto|]. intros Hx. split; [done|]. by intros [? _].
Qed.
End UnionSpec.

(** ** Properties *)

(** on ascending lists the two-way operations return the intersection and the
    union, ascending and without duplicates. *)
Theorem two_way_sets a b :
  ascending a → ascending b →
  ascending (intersect_sorted a b) ∧ ascending (union_sorted_into a b) ∧
  ∀ x, (x ∈ intersect_sorted a b ↔ x ∈ a ∧ x ∈ b) ∧ (x ∈ union_sorted_into a b ↔ x ∈ a ∨ x ∈ b).
Proof.
  intros Ha Hb. split_and!; [by apply set_intersection_ascending|by apply set_union_ascending|].
  intros x. split; [by apply set_intersection_elem|apply set_union_elem].
Qed.

(** An ascending list is determined by its elements. *)
Lemma ascending_ext a b : ascending a → ascending b → (∀ x, x ∈ a ↔ x ∈ b) → a = b.
Proof.
  intros Ha. revert b. induction Ha as [|x a Ha IH Hx]; intros [|y b] Hb He; [done| | |].
  - pose proof (proj2 (He y) ltac:(by left)) as Hn. by apply elem_of_nil in Hn.
  - pose proof (proj1 (He x) ltac:(by left)) as Hn. by apply elem_of_nil in Hn.
  - pose proof (proj1 (ascending_cons _ _) Hb) as [Hb' Hy]. rewrite Forall_forall in Hx. rewrite Forall_forall in Hy.
    assert (x = y) as ->.
    { pose proof (proj1 (He x) ltac:(by left)) as [?|Hxb]%elem_of_cons; [done|].
      pose proof (proj2 (He y) ltac:(by left)) as [?|Hya]%elem_of_cons; [done|]. specialize (Hx y Hya). specialize (Hy x Hxb). lia. }
    f_equal. apply IH; [done|]. intros z. specialize (He z). rewrite !elem_of_cons in He. split; intros Hz.
    + destruct (proj1 He (or_intror Hz)) as [->|?]; [|done]. specialize (Hx y Hz). lia.
    + destruct (proj2 He (or_intror Hz)) as [->|?]; [|done]. specialize (Hy y Hz). lia.
Qed.

(** The union of many lists, two at a time. *)
Definition unions (lists : list (list Z)) : list Z := foldr set_union [] lists.

Lemma unions_spec lists :
  Forall (StronglySorted Z.lt) lists → ascending (unions lists) ∧ ∀ x, x ∈ unions lists ↔ ∃ l, l ∈ lists ∧ x ∈ l.
Proof.
  intros Hs. split; [induction Hs; cbn; [constructor|by apply set_union_ascending]|]. intros x. rewrite <- elem_of_concat.
  clear Hs. induction lists as [|l lists IH]; cbn; [done|]. by rewrite set_union_elem, elem_of_app, IH.
Qed.

(** with any priority queue that pops a minimal cursor, the k-way union of
    ascending lists terminates, and equals the union taken two lists at a time. *)
Theorem k_way_union `{PriorityQueue} lists :
  Forall (StronglySorted Z.lt) lists → union_sorted_many lists = Ok (unions lists).
Proof.
  intros Hs. destruct (union_sorted_many_spec lists Hs) as (out & -> & Hasc & Hel). f_equal.
  destruct (unions_spec lists Hs) as [Hu Hue]. apply ascending_ext; [done|done|]. intros x. by rewrite Hel, Hue.
Qed.

(** ** A queue: the unsorted list, popped at its first minimum *)

Module ListQueue.

Fixpoint pop_min (q : list Cursor) : option (Cursor * list Cursor) :=
  match q with
  | [] => None
  | c :: q =>
      match pop_min q with
      | Some (m, q') => if docid m <? docid c then Some (m, c :: q') else Some (c, q)
      | None => Some (c, [])
      end
  end.

Lemma pop_min_spec q :
  match pop_min q with
  | None => q = []
  | Some (c, q') => q ≡ₚ c :: q' ∧ Forall (λ c', docid c ≤ docid c') q'
  end.
Proof.
  induction q as [|c q IH]; cbn [pop_min]; [done|]. destruct (pop_min q) as [[m q']|]; [|by rewrite IH].
  destruct IH as [Hp Hm]. destruct (Z.ltb_spec (docid m) (docid c)).
  - split; [rewrite Hp; constructor|]. constructor; [lia|done].
  - split; [done|]. rewrite Hp. constructor; [lia|]. eapply Forall_impl; [exact Hm|]. cbn. lia.
Qed.

#[global] Instance list_queue : PriorityQueue := {
  queue := list Cursor;
  queue_empty := [];
  queue_push c q := c :: q;
  queue_pop := pop_min;
  queue_elems q := q;
  queue_empty_spec := eq_refl;
  queue_push_spec c q := reflexivity _;
  queue_pop_spec := pop_min_spec
}.
End ListQueue.

(** ** Witnesses *)

Lemma two_way_sets_witness :
  ascending (intersect_sorted [1; 3; 5] [3; 4; 5]) ∧ ascending (union_sorted_into [1; 3; 5] [3; 4; 5]) ∧
  ∀ x, (x ∈ intersect_sorted [1; 3; 5] [3; 4; 5] ↔ x ∈ [1; 3; 5] ∧ x ∈ [3; 4; 5]) ∧
       (x ∈ union_sorted_into [1; 3; 5] [3; 4; 5] ↔ x ∈ [1; 3; 5] ∨ x ∈ [3; 4; 5]).
Proof. apply two_way_sets; repeat constructor. Defined.

Lemma k_way_union_witness : union_sorted_many [[1; 4]; []; [2; 4; 9]] = Ok (unions [[1; 4]; []; [2; 4; 9]]).
Proof. apply (k_way_union [[1; 4]; []; [2; 4; 9]]). repeat constructor. Defined.

Example k_way_union_run : union_sorted_many [[1; 4]; []; [2; 4; 9]] = Ok [1; 2; 4; 9].
Proof. reflexivity. Qed.
