(* ===== verification/TermPatterns.v ===== *)
(** * TermPatterns: the wildcard matcher and the literal prefixes of patterns.

    The file-local helpers of [query/wildcard_query.cpp] and
    [query/regexp_query.cpp]: the two-row matcher and the prefix that limits the
    enumeration of terms. [glob] is the declarative meaning of a wildcard
    pattern; [wildcard_match_glob] shows the matcher decides it. *)

From S2P Require Import Prelude.

#[local] Open Scope Z_scope.

(** [*] and [?] *)
Definition star : Z := 42.
Definition question : Z := 63.

Fixpoint literal_prefix_for_wildcard (pattern : bytes) : bytes :=
  match pattern with
  | [] => []
  | c :: pattern => if (c =? star) || (c =? question) then [] else c :: literal_prefix_for_wildcard pattern
  end.

(** [curr[i] = prev[i] || curr[i - 1]] *)
Fixpoint star_row (carry : bool) (prev : list bool) : list bool :=
  match prev with
  | [] => []
  | b :: prev => (b || carry) :: star_row (b || carry) prev
  end.

(** [curr[0] = 0; curr[i] = prev[i - 1] && (p == '?' || p == text[i - 1])] *)
Definition char_row (p : Z) (text : bytes) (prev : list bool) : list bool :=
  false :: zip_with (λ b c, b && ((p =? question) || (p =? c))) prev text.

Definition match_row (text : bytes) (prev : list bool) (p : Z) : list bool :=
  if p =? star then star_row false prev else char_row p text prev.

Definition wildcard_match (pattern text : bytes) : bool :=
  foldl (match_row text) (true :: replicate (length text) false) pattern !!! length text.

(** [. ^ $ | ( ) [ ] * + ? { } \ ] *)
Definition is_regex_metachar (c : Z) : bool :=
  bool_decide (c ∈ [46; 94; 36; 124; 40; 41; 91; 93; 42; 43; 63; 123; 125; 92]).

Fixpoint regex_literals (pattern : bytes) : bytes :=
  match pattern with
  | [] => []
  | c :: pattern => if is_regex_metachar c then [] else c :: regex_literals pattern
  end.

Definition literal_prefix_for_regex (pattern : bytes) : bytes :=
  match pattern with
  | c :: rest => if c =? 94 then regex_literals rest else regex_literals pattern
  | [] => []
  end.

(** ** How a regular expression starts *)

(** The characters of the ECMAScript grammar that do not stand for themselves,
    and those of them that may start a quantifier. *)
Definition syntax_characters : list Z := [94; 36; 92; 46; 42; 43; 63; 40; 41; 91; 93; 123; 125; 124].
Definition quantifiers : list Z := [42; 43; 63; 123].

(** No alternative outside a group: [depth] groups and perhaps a bracket are
    open. Brackets within brackets and control escapes are left out. *)
Fixpoint one_alternative (depth : nat) (in_class : bool) (p : bytes) : bool :=
  match p with
  | [] => (depth =? 0)%nat && negb in_class
  | c :: p =>
      if c =? 92 then match p with e :: p => negb (e =? 99) && one_alternative depth in_class p | [] => false end
      else if in_class then if c =? 93 then one_alternative depth false p else negb (c =? 91) && one_alternative depth true p
      else if c =? 91 then one_alternative depth true p
      else if c =? 40 then one_alternative (S depth) false p
      else if c =? 41 then match depth with O => false | S depth => one_alternative depth false p end
      else if c =? 124 then negb (depth =? 0)%nat && one_alternative depth false p
      else one_alternative depth false p
  end.

(** A pattern that starts with the literal [lit], after an anchor or not: its
    only alternative goes on with syntax that leaves [lit] alone, or ends. *)
Definition literal_start (pattern lit : bytes) : Prop :=
  ∃ rest, (pattern = lit ++ rest ∧ head pattern ≠ Some 94 ∨ pattern = 94 :: lit ++ rest) ∧
    Forall (λ c, c ∉ syntax_characters) lit ∧
    match rest with [] => True | c :: _ => c ∈ syntax_characters ∧ c ∉ quantifiers end ∧
    one_alternative 0 false rest = true.

Lemma is_regex_metachar_syntax c : is_regex_metachar c = bool_decide (c ∈ syntax_characters).
Proof. apply bool_decide_ext. unfold syntax_characters. set_solver. Qed.

Lemma regex_literals_app lit rest :
  Forall (λ c, c ∉ syntax_characters) lit → match rest with [] => True | c :: _ => c ∈ syntax_characters end →
  regex_literals (lit ++ rest) = lit.
Proof.
  intros Hl Hr. induction Hl as [|c lit Hc _ IH]; cbn [app].
  - destruct rest as [|c rest]; [done|]. cbn [regex_literals]. by rewrite is_regex_metachar_syntax, bool_decide_true.
  - cbn [regex_literals]. by rewrite is_regex_metachar_syntax, bool_decide_false, IH.
Qed.

(** The prefix the code takes is the literal the pattern starts with. *)
Lemma literal_prefix_for_regex_start pattern lit : literal_start pattern lit → literal_prefix_for_regex pattern = lit.
Proof.
  intros (rest & Hp & Hl & Hr & _). assert (regex_literals (lit ++ rest) = lit) as He by (apply regex_literals_app; [done|by destruct rest as [|c rest]; [|destruct Hr]]).
  destruct Hp as [[-> Hh]| ->]; [|exact He]. unfold literal_prefix_for_regex. destruct (lit ++ rest) as [|c p] eqn:Hlr; [exact He|].
  destruct (Z.eqb_spec c 94) as [->|_]; [done|exact He].
Qed.

(** ** The meaning of a pattern *)

Inductive glob : bytes → bytes → Prop :=
  | glob_nil : glob [] []
  | glob_star_none p t : glob p t → glob (star :: p) t
  | glob_star_more p c t : glob (star :: p) t → glob (star :: p) (c :: t)
  | glob_any p c t : glob p t → glob (question :: p) (c :: t)
  | glob_char p c t : c ≠ star → c ≠ question → glob p t → glob (c :: p) (c :: t).

Lemma glob_star p t : glob (star :: p) t ↔ ∃ a b, t = a ++ b ∧ glob p b.
Proof.
  split.
  - remember (star :: p) as q eqn:Hq. induction 1 as [|q t Hg _|q c t Hg IH|q c t Hg _|q c t Hc1 Hc2 Hg _]; simplify_eq.
    + by exists [], t.
    + destruct (IH eq_refl) as (a & b & -> & Hb). by exists (c :: a), b.
  - intros (a & b & -> & Hb). induction a as [|c a IH]; [by apply glob_star_none|by apply glob_star_more].
Qed.

(** A pattern in two parts splits the text. *)
Lemma glob_app p q t : glob (p ++ q) t ↔ ∃ a b, t = a ++ b ∧ glob p a ∧ glob q b.
Proof.
  split.
  - revert t. induction p as [|c p IH]; intros t Hg; [exists [], t; split_and!; [done|constructor|done]|].
    remember ((c :: p) ++ q) as pq eqn:Hpq. revert Hpq.
    induction Hg as [|r t Hg _|r x t Hg IHg|r x t Hg _|r x t Hc1 Hc2 Hg _]; intros Hpq; cbn in Hpq; simplify_eq.
    + destruct (IH _ Hg) as (a & b & -> & Ha & Hb). exists a, b. split_and!; [done|by apply glob_star_none|done].
    + destruct (IHg eq_refl) as (a & b & -> & Ha & Hb). exists (x :: a), b. split_and!; [done|by apply glob_star_more|done].
    + destruct (IH _ Hg) as (a & b & -> & Ha & Hb). exists (x :: a), b. split_and!; [done|by apply glob_any|done].
    + destruct (IH _ Hg) as (a & b & -> & Ha & Hb). exists (c :: a), b. split_and!; [done|by apply glob_char|done].
  - intros (a & b & -> & Ha & Hb). induction Ha; cbn; [done|by constructor..].
Qed.

Lemma glob_snoc_star p t : glob (p ++ [star]) t ↔ ∃ a b, t = a ++ b ∧ glob p a.
Proof.
  rewrite glob_app. split; [intros (a & b & ? & ? & _); eauto|]. intros (a & b & -> & Ha). exists a, b.
  split_and!; [done..|]. apply glob_star. exists b, []. split; [by rewrite app_nil_r|constructor].
Qed.

Lemma glob_snoc_char p c t :
  c ≠ star → glob (p ++ [c]) t ↔ ∃ a x, t = a ++ [x] ∧ glob p a ∧ (c = question ∨ c = x).
Proof.
  intros Hc. rewrite glob_app. split.
  - intros (a & b & -> & Ha & Hb). inversion Hb as [| | |? x ? Hn|? x ? ? ? Hn]; subst; [done|done|..]; inversion Hn; subst; eauto 10.
  - intros (a & x & -> & Ha & Hx). exists a, [x]. split_and!; [done..|].
    destruct (decide (c = question)) as [->|Hq]; [apply glob_any, glob_nil|]. destruct Hx as [?| ->]; [done|].
    apply glob_char; [done|done|constructor].
Qed.

(** ** The matcher's rows *)

(** Entry [i] of a row tells whether the pattern so far matches the first [i]
    characters. *)
Definition row_ok (p text : bytes) (row : list bool) : Prop :=
  length row = S (length text) ∧ ∀ i b, row !! i = Some b → b = true ↔ glob p (take i text).

Lemma star_row_lookup carry prev i :
  (i < length prev)%nat →
  ∃ b, star_row carry prev !! i = Some b ∧ (b = true ↔ carry = true ∨ ∃ j, (j ≤ i)%nat ∧ prev !! j = Some true).
Proof.
  revert carry i. induction prev as [|x prev IH]; intros carry i Hi; cbn in Hi; [lia|]. destruct i as [|i]; cbn [star_row].
  - exists (x || carry). split; [done|]. rewrite orb_true_iff. split.
    + intros [->|?]; [right; by exists 0%nat|by left].
    + intros [?|(j & Hj & Hx)]; [by right|left]. destruct j; [by injection Hx|lia].
  - destruct (IH (x || carry) i ltac:(lia)) as (b & Hb & He). exists b. split; [done|]. rewrite He, orb_true_iff. split.
    + intros [[->|?]|(j & Hj & Hx)]; [right; exists 0%nat; split; [lia|done]|by left|right; exists (S j); split; [lia|done]].
    + intros [?|([|j] & Hj & Hx)]; [tauto|injection Hx as ->; tauto|right; exists j; split; [lia|done]].
Qed.

Lemma star_row_length carry prev : length (star_row carry prev) = length prev.
Proof. revert carry. induction prev as [|x prev IH]; intros carry; cbn; [done|]. by rewrite IH. Qed.

Lemma match_row_ok p text row c : row_ok p text row → row_ok (p ++ [c]) text (match_row text row c).
Proof.
  intros [Hlen Hrow]. unfold match_row. destruct (Z.eqb_spec c star) as [->|Hc].
  - split; [by rewrite star_row_length|]. intros i b Hi.
    assert (i < length row)%nat as Hlt by (rewrite <- (star_row_length false row); by eapply lookup_lt_Some).
    destruct (star_row_lookup false row i Hlt) as (b' & Hb & He). rewrite Hi in Hb. injection Hb as <-.
    rewrite He, glob_snoc_star. split.
    + intros [?|(j & Hj & Hx)]; [done|]. exists (take j text), (drop j (take i text)). split; [|by apply (Hrow j true)].
      rewrite <- (take_drop j (take i text)) at 1. by rewrite take_take, Nat.min_l by lia.
    + intros (a & b' & Hab & Ha). right. exists (length a).
      assert (length a ≤ i)%nat as Hai by (apply (f_equal length) in Hab; rewrite length_take, length_app in Hab; lia).
      split; [done|]. destruct (lookup_lt_is_Some_2 row (length a) ltac:(lia)) as [x Hx]. rewrite Hx. f_equal. apply (Hrow _ _ Hx).
      assert (take (length a) text = a) as ->; [|done].
      apply (f_equal (take (length a))) in Hab. by rewrite take_take, take_app_length, Nat.min_l in Hab by lia.
  - split; [cbn; rewrite length_zip_with; lia|]. intros [|i] b Hi; cbn [char_row] in Hi.
    + injection Hi as <-. rewrite glob_snoc_char by done. split; [done|]. intros (a & x & Ha & _). by destruct a.
    + apply lookup_zip_with_Some in Hi as (b0 & x & -> & Hb0 & Hx).
      rewrite glob_snoc_char, andb_true_iff, orb_true_iff, !Z.eqb_eq, (Hrow i b0 Hb0), (take_S_r text i x Hx) by done. split.
      * intros [Hg Hq]. by exists (take i text), x.
      * intros (a & y & He & Hg & Hq). apply app_inj_tail in He as [<- <-]. done.
Qed.

Lemma match_rows_ok p q text row :
  row_ok p text row → row_ok (p ++ q) text (foldl (match_row text) row q).
Proof.
  revert p row. induction q as [|c q IH]; intros p row Hrow; cbn [foldl]; [by rewrite app_nil_r|].
  rewrite (cons_middle c), app_assoc. by apply IH, match_row_ok.
Qed.

Lemma first_row_ok text : row_ok [] text (true :: replicate (length text) false).
Proof.
  split; [cbn; by rewrite length_replicate|]. intros [|i] b Hi; cbn in Hi.
  - injection Hi as <-. split; [constructor|done].
  - apply lookup_replicate in Hi as [-> Hi]. split; [done|]. intros Hg. destruct text as [|x text]; [cbn in Hi; lia|].
    by inversion Hg.
Qed.

Lemma wildcard_match_spec pattern text : wildcard_match pattern text = true ↔ glob pattern text.
Proof.
  unfold wildcard_match. destruct (match_rows_ok [] pattern text _ (first_row_ok text)) as [Hlen Hrow]. cbn [app] in *.
  destruct (lookup_lt_is_Some_2 (foldl (match_row text) (true :: replicate (length text) false) pattern) (length text) ltac:(lia)) as [b Hb].
  rewrite (list_lookup_total_correct _ _ _ Hb), (Hrow _ _ Hb). by rewrite take_ge.
Qed.

Lemma literal_prefix_of_match pattern text :
  wildcard_match pattern text = true → literal_prefix_for_wildcard pattern `prefix_of` text.
Proof.
  rewrite wildcard_match_spec. revert text. induction pattern as [|c pattern IH]; intros text Hg; cbn; [apply prefix_nil|].
  destruct (Z.eqb_spec c star), (Z.eqb_spec c question); cbn [orb]; [apply prefix_nil..|].
  inversion Hg; subst; try done. by apply prefix_cons, IH.
Qed.

(** ** Properties *)

(** the dynamic-programming matcher decides the wildcard language: it answers
    true exactly for the texts the pattern describes. *)
Theorem wildcard_match_glob pattern text : wildcard_match pattern text = true ↔ glob pattern text.
Proof. apply wildcard_match_spec. Qed.

(** every text a wildcard pattern matches starts with the literal prefix used
    to enumerate terms, so the enumeration misses none. *)
Theorem wildcard_prefix_complete pattern text :
  wildcard_match pattern text = true → literal_prefix_for_wildcard pattern `prefix_of` text.
Proof. apply literal_prefix_of_match. Qed.

Lemma wildcard_prefix_complete_witness :
  wildcard_match [97; 98; 42; 99] [97; 98; 120; 99] = true ∧
  literal_prefix_for_wildcard [97; 98; 42; 99] `prefix_of` [97; 98; 120; 99].
Proof. split; [reflexivity|]. apply wildcard_prefix_complete. reflexivity. Defined.

(** The prefix of the pattern [ab*] is [ab], although the pattern also describes
    the term [a]; a quantifier does not take back the character it governs, and
    an alternative [a|b] keeps only its first branch. *)
Example regex_prefix_quantifier : literal_prefix_for_regex [97; 98; 42] = [97; 98].
Proof. reflexivity. Qed.
Example regex_prefix_alternative : literal_prefix_for_regex [97; 124; 98] = [97].
Proof. reflexivity. Qed.
