(* ===== verification/BatchRangeFetcher.v ===== *)
(** * BatchRangeFetcher: coalesced reads of many ranges.

    [io/batch_range_fetcher.h] and [io/batch_range_fetcher.cpp]. [std::sort] with
    a comparison of offsets may order equal offsets either way; it is the
    parameter [sort_by] with its contract ([SortLaws]). A [size_t] is a
    [uint64_t] here, so [checked_size] always succeeds. The null check of the
    reader is not modelled. *)

From S2P Require Import Prelude Status ByteIO FileIO.

#[local] Open Scope Z_scope.

(** [std::sort(order.begin(), order.end(), less)] on a vector of indices. *)
Class Sort := sort_by : (nat → nat → bool) → list nat → list nat.

(** [less] compares a key; the result is a permutation sorted by it. *)
Class SortLaws `{Sort} := {
  sort_by_perm (key : nat → Z) l : sort_by (λ a b, key a <? key b) l ≡ₚ l;
  sort_by_sorted (key : nat → Z) l : StronglySorted (λ a b, key a ≤ key b) (sort_by (λ a b, key a <? key b) l)
}.

Definition checked_end (offset len : Z) : result Z :=
  if u64 (2 ^ 64 - 1 - offset) <? len then Err (Corruption "batch_range_fetcher: range end overflow")
  else Ok (u64 (offset + len)).

Definition checked_size (len : Z) : result Z :=
  if 2 ^ 64 - 1 <? len then Err (Corruption "batch_range_fetcher: physical range too large") else Ok len.

Record Req := mkReq {
  r_offset : Z;
  r_len : Z;
  len_size : Z;
  phys_idx : nat;
  sub_offset : Z
}.

Record BatchRangeFetcher := mkFetcher {
  coalesce_gap_ : Z;
  reqs_ : list Req;
  phys_ : list bytes
}.

Definition new_fetcher (coalesce_gap : Z) : BatchRangeFetcher := mkFetcher coalesce_gap [] [].

Definition add (offset len : Z) (f : BatchRangeFetcher) : nat * BatchRangeFetcher :=
  let f := mkFetcher (coalesce_gap_ f) (reqs_ f ++ [mkReq offset len 0 0 0]) (phys_ f) in
  ((length (reqs_ f) - 1)%nat, f).

Definition clear (f : BatchRangeFetcher) : BatchRangeFetcher := mkFetcher (coalesce_gap_ f) [] [].

Definition pending (f : BatchRangeFetcher) : Z := zlen (reqs_ f).

(** The sweep: the segments with the last one open, and the requests. *)
Record Sweep := mkSweep { segs : list Range; cur_start : Z; cur_end : Z; reqs : list Req }.

Definition set_last_len (segs : list Range) (len : Z) : list Range :=
  alter (λ g, mkRange (offset g) len) (length segs - 1)%nat segs.

Definition sweep_one (gap : Z) (k : nat) (st : Sweep) : result Sweep :=
  match reqs st !! k with
  | None => Undef
  | Some r =>
      r_end ← checked_end (r_offset r) (r_len r);
      len_size ← checked_size (r_len r);
      let disjoint := (cur_end st <? r_offset r) && (gap <? u64 (r_offset r - cur_end st)) in
      let st' :=
        if match segs st with [] => true | _ => false end || disjoint then
          mkSweep (segs st ++ [mkRange (r_offset r) 0]) (r_offset r) r_end (reqs st)
        else mkSweep (segs st) (cur_start st) (Z.max (cur_end st) r_end) (reqs st) in
      sub_offset ← checked_size (u64 (r_offset r - cur_start st'));
      seg_len ← checked_size (u64 (cur_end st' - cur_start st'));
      let r := mkReq (r_offset r) (r_len r) len_size (length (segs st') - 1)%nat sub_offset in
      Ok (mkSweep (set_last_len (segs st') seg_len) (cur_start st') (cur_end st') (<[k := r]> (reqs st')))
  end.

Section Fetch.
Context `{Sort}.

Definition offset_of (reqs : list Req) (i : nat) : Z := default 0 (r_offset <$> reqs !! i).

Definition fetch (reader : FileReader) (f : BatchRangeFetcher) : result BatchRangeFetcher :=
  match reqs_ f with
  | [] => Ok (mkFetcher (coalesce_gap_ f) (reqs_ f) [])
  | _ =>
      let order := sort_by (λ a b, offset_of (reqs_ f) a <? offset_of (reqs_ f) b) (seq 0 (length (reqs_ f))) in
      st ← fold_result (sweep_one (coalesce_gap_ f)) order (mkSweep [] 0 0 (reqs_ f));
      phys ← read_batch reader (segs st);
      Ok (mkFetcher (coalesce_gap_ f) (reqs st) phys)
  end.
End Fetch.

(** [Slice(buf.data() + sub_offset, len_size)] *)
Definition get (f : BatchRangeFetcher) (h : nat) : result Slice :=
  match reqs_ f !! h with
  | None => Undef
  | Some r =>
      match phys_ f !! phys_idx r with
      | None => Undef
      | Some buf => subslice buf (sub_offset r) (len_size r)
      end
  end.

(** ** The sweep *)

(** A request lies inside the segment it points at. *)
Definition seg_holds (segs : list Range) (r : Req) : Prop :=
  ∃ g, segs !! phys_idx r = Some g ∧ offset g + sub_offset r = r_offset r ∧ 0 ≤ sub_offset r ∧ 0 ≤ r_len r ∧
    sub_offset r + r_len r ≤ len g ∧ len_size r = r_len r.

(** Consecutive physical reads are more than [gap] bytes apart. *)
Definition apart (gap : Z) (segs : list Range) : Prop :=
  ∀ i g g', segs !! i = Some g → segs !! S i = Some g' → offset g + len g + gap < offset g'.

(** Same ranges, whatever the bookkeeping fields. *)
Definition same_ranges (rs rs' : list Req) : Prop :=
  Forall2 (λ r r', r_offset r = r_offset r' ∧ r_len r = r_len r') rs rs'.

(** Ranges below a limit: the length of a file, or the end of the address space. *)
Definition in_lim (lim off n : Z) : Prop := 0 ≤ off ∧ 0 ≤ n ∧ off + n ≤ lim.
Definition req_in (lim : Z) (r : Req) : Prop := in_lim lim (r_offset r) (r_len r).
#[export] Instance req_in_dec lim r : Decision (req_in lim r).
Proof. unfold req_in, in_lim. apply _. Defined.

Record sweep_ok (lim : Z) (gap : Z) (rs : list Req) (seen : list nat) (st : Sweep) : Prop := {
  sw_ranges : same_ranges (reqs st) rs;
  sw_last : (segs st = [] ∧ seen = []) ∨ ∃ pre, segs st = pre ++ [mkRange (cur_start st) (cur_end st - cur_start st)];
  sw_bounds : 0 ≤ cur_start st ≤ cur_end st ∧ cur_end st ≤ lim;
  sw_files : Forall (λ g, in_lim lim (offset g) (len g)) (segs st);
  sw_apart : apart gap (segs st);
  sw_seen k r : k ∈ seen → reqs st !! k = Some r → seg_holds (segs st) r
}.

Lemma set_last_len_snoc pre g n : set_last_len (pre ++ [g]) n = pre ++ [mkRange (offset g) n].
Proof.
  unfold set_last_len. rewrite length_app. cbn [length]. replace (length pre + 1 - 1)%nat with (length pre) by lia.
  induction pre as [|x pre IH]; [done|]. cbn. by rewrite IH.
Qed.

Lemma seg_holds_snoc segs g r : seg_holds segs r → seg_holds (segs ++ [g]) r.
Proof. intros (g0 & Hg & Hr). exists g0. split; [by apply lookup_app_l_Some|done]. Qed.

Lemma seg_holds_grow pre s n n' r : n ≤ n' → seg_holds (pre ++ [mkRange s n]) r → seg_holds (pre ++ [mkRange s n']) r.
Proof.
  intros Hn (g0 & Hg & Hr). apply lookup_snoc_Some in Hg as [[Hlt Hg]|[He <-]].
  - exists g0. split; [by apply lookup_app_l_Some|done].
  - exists (mkRange s n'). rewrite He, list_lookup_middle by done. split; [done|]. cbn in *. lia.
Qed.

Lemma apart_snoc gap pre s n g :
  apart gap (pre ++ [mkRange s n]) → s + n + gap < offset g → apart gap ((pre ++ [mkRange s n]) ++ [g]).
Proof.
  intros Ha Hg i g1 g2 H1 H2. apply lookup_snoc_Some in H2 as [[Hlt H2]|[He <-]].
  - apply (Ha i); [|done]. rewrite lookup_app_l in H1 by lia. done.
  - rewrite length_app in He. cbn in He. assert (i = length pre) as -> by lia.
    rewrite <- app_assoc in H1. cbn [app] in H1. rewrite list_lookup_middle in H1 by done. by injection H1 as <-.
Qed.

Lemma apart_grow gap pre s n n' : apart gap (pre ++ [mkRange s n]) → apart gap (pre ++ [mkRange s n']).
Proof.
  intros Ha i g1 g2 H1 H2. apply lookup_snoc_Some in H1 as [[Hlt H1]|[-> <-]].
  2: { rewrite lookup_app_r in H2 by lia. by replace (S (length pre) - length pre)%nat with 1%nat in H2 by lia. }
  apply lookup_snoc_Some in H2 as [[Hlt2 H2]|[He <-]].
  - apply (Ha i); by apply lookup_app_l_Some.
  - apply (Ha i g1 (mkRange s n)); [by apply lookup_app_l_Some|]. by rewrite He, list_lookup_middle.
Qed.

(** One request of the sweep, taken at or behind the open segment's start. *)
Lemma sweep_one_ok lim gap rs seen st k :
  sweep_ok lim gap rs seen st → 0 ≤ gap → lim < 2 ^ 64 → (∀ r, rs !! k = Some r → req_in lim r) →
  (k < length rs)%nat → (∀ r, rs !! k = Some r → segs st ≠ [] → cur_start st ≤ r_offset r) →
  ∃ st' r, sweep_one gap k st = Ok st' ∧ rs !! k = Some r ∧ sweep_ok lim gap rs (seen ++ [k]) st' ∧
    cur_start st' ≤ r_offset r ∧ segs st' ≠ [].
Proof.
  intros [Hr Hlast Hb Hf Ha Hseen] Hgap Hlim Hrs Hk Hfrom. unfold sweep_one.
  destruct (lookup_lt_is_Some_2 rs k Hk) as [r0 Hr0]. destruct (Forall2_lookup_r _ _ _ _ _ Hr Hr0) as (r & Hrk & Hro & Hrl). rewrite Hrk.
  pose proof (Hrs _ Hr0) as Hin. unfold req_in, in_lim in Hin. rewrite <- Hro, <- Hrl in Hin.
  destruct Hin as (Hi1 & Hi2 & Hi3). change (2 ^ 64) with 18446744073709551616 in *.
  assert (checked_end (r_offset r) (r_len r) = Ok (r_offset r + r_len r)) as ->.
  { unfold checked_end. change (2 ^ 64) with 18446744073709551616. rewrite !u64_small by ulia. by rewrite (proj2 (Z.ltb_ge _ _)) by lia. }
  assert (∀ n, n < 18446744073709551616 → checked_size n = Ok n) as Hcs.
  { intros n Hn. unfold checked_size. change (2 ^ 64) with 18446744073709551616. by rewrite (proj2 (Z.ltb_ge _ _)) by lia. }
  rewrite bind_Ok, (Hcs (r_len r)), bind_Ok by lia.
  assert (∀ s e, s ≤ r_offset r → 0 ≤ s → r_offset r + r_len r ≤ e → e ≤ lim →
    u64 (r_offset r - s) = r_offset r - s ∧ u64 (e - s) = e - s) as Hu by (intros; rewrite !u64_small by ulia; done).
  assert (∀ pre s e, s ≤ r_offset r → 0 ≤ s → r_offset r + r_len r ≤ e → e ≤ lim →
    seg_holds (pre ++ [mkRange s (e - s)])
      (mkReq (r_offset r) (r_len r) (r_len r) (length (pre ++ [mkRange s (e - s)]) - 1) (r_offset r - s))) as Hself.
  { intros. exists (mkRange s (e - s)). cbn. rewrite length_app. cbn [length].
    replace (length pre + 1 - 1)%nat with (length pre) by lia. rewrite list_lookup_middle by done. split; [done|]. lia. }
  assert (∀ r', r_offset r' = r_offset r ∧ r_len r' = r_len r → same_ranges (<[k:=r']> (reqs st)) rs) as Hsame.
  { intros r' [Ho Hl]. unfold same_ranges. rewrite <- (list_insert_id rs k r0) by done. apply Forall2_insert; [done|]. split; congruence. }
  assert (∀ sg r', (∀ r'', seg_holds (segs st) r'' → seg_holds sg r'') → seg_holds sg r' →
    ∀ k' r'', k' ∈ seen ++ [k] → <[k:=r']> (reqs st) !! k' = Some r'' → seg_holds sg r'') as Hnew.
  { intros sg r' Hold Hself' k' r'' Hk' Hl. apply list_lookup_insert_Some in Hl as [(-> & -> & _)|(Hne & Hl)]; [done|].
    apply Hold, (Hseen k'); [|done]. apply elem_of_app in Hk' as [Hk2|Hk2]; [done|]. by apply list_elem_of_singleton in Hk2. }
  set (fresh := _ || _). assert (fresh = true ∨ (fresh = false ∧ ∃ pre, segs st = pre ++ [mkRange (cur_start st) (cur_end st - cur_start st)]
    ∧ cur_start st ≤ r_offset r)) as Hcase.
  { destruct fresh eqn:Hfr; [by left|right]. split; [done|]. destruct Hlast as [[He _]|[pre Hp]]; [subst fresh; by rewrite He in Hfr|].
    exists pre. split; [done|]. rewrite Hro. apply Hfrom; [done|]. rewrite Hp. by destruct pre. }
  destruct Hcase as [Hfr|(Hfr & pre & Hp & Hle)]; rewrite Hfr; cbn [segs cur_start cur_end reqs].
  - (* a new segment *)
    destruct (Hu (r_offset r) (r_offset r + r_len r)) as [-> ->]; [lia..|]. rewrite !Hcs, !bind_Ok by lia.
    rewrite set_last_len_snoc. cbn [offset]. eexists _, r0. split; [done|]. split; [done|].
    pose proof (Hself (segs st) (r_offset r) (r_offset r + r_len r)) as Hs. rewrite length_app in Hs |- *. cbn [length] in Hs |- *.
    split; [|split; [cbn; lia|cbn; by destruct (segs st)]]. split; cbn [reqs segs cur_start cur_end].
    + by apply Hsame.
    + right. by exists (segs st).
    + lia.
    + apply Forall_app_2; [done|]. constructor; [|done]. cbn. unfold in_lim. lia.
    + destruct Hlast as [[He _]|[pre Hp]].
      * rewrite He. intros [|i] g1 g2 H1 H2; by cbn in *.
      * subst fresh. rewrite Hp in Hfr, Ha |- *. apply apart_snoc; [done|]. cbn. apply orb_true_iff in Hfr as [Hfr|Hfr]; [by destruct pre|].
        apply andb_true_iff in Hfr as [H1 H2]. apply Z.ltb_lt in H1, H2. rewrite u64_small in H2 by ulia. lia.
    + apply Hnew; [apply seg_holds_snoc|apply Hs; lia].
  - (* merged into the open segment *)
    destruct (Hu (cur_start st) (Z.max (cur_end st) (r_offset r + r_len r))) as [-> ->]; [lia..|]. rewrite !Hcs, !bind_Ok by lia.
    rewrite Hp, set_last_len_snoc. cbn [offset]. eexists _, r0. split; [done|]. split; [done|].
    pose proof (Hself pre (cur_start st) (Z.max (cur_end st) (r_offset r + r_len r))) as Hs. rewrite length_app in Hs |- *. cbn [length] in Hs |- *.
    split; [|split; [cbn; lia|cbn; by destruct pre]]. split; cbn [reqs segs cur_start cur_end].
    + by apply Hsame.
    + right. by exists pre.
    + lia.
    + rewrite Hp in Hf. apply Forall_app in Hf as [Hf _]. apply Forall_app_2; [done|]. constructor; [|done]. cbn. unfold in_lim. lia.
    + rewrite Hp in Ha. by eapply apart_grow.
    + apply Hnew; [|apply Hs; lia]. intros r'' Hh. rewrite Hp in Hh. eapply seg_holds_grow; [|exact Hh]. lia.
Qed.

Lemma sweep_ok_init lim gap rs : 0 ≤ lim → sweep_ok lim gap rs [] (mkSweep [] 0 0 rs).
Proof.
  intros Hlim. split; cbn [reqs segs cur_start cur_end]; [|by left|lia|done|by intros i ? ? Hi|by intros k r Hk%elem_of_nil].
  apply Forall2_same_length_lookup_2; [done|]. intros i x y Hx Hy. rewrite Hx in Hy. by injection Hy as ->.
Qed.

Lemma sweep_all_ok lim gap rs order seen st :
  sweep_ok lim gap rs seen st → 0 ≤ gap → lim < 2 ^ 64 →
  Forall (λ k, (k < length rs)%nat ∧ ∀ r, rs !! k = Some r → req_in lim r) order → StronglySorted (λ a b, offset_of rs a ≤ offset_of rs b) order →
  (segs st ≠ [] → Forall (λ k, cur_start st ≤ offset_of rs k) order) →
  ∃ st', fold_result (sweep_one gap) order st = Ok st' ∧ sweep_ok lim gap rs (seen ++ order) st'.
Proof.
  intros Hst Hgap Hlim Hord Hsort. revert seen st Hst.
  induction Hsort as [|k order Hsort IH Hk]; intros seen st Hst Hfrom; cbn [fold_result]; [exists st; by rewrite app_nil_r|].
  apply Forall_cons in Hord as [[Hlt Hrs] Hord].
  destruct (sweep_one_ok lim gap rs seen st k) as (st1 & r & -> & Hr & Hst1 & Hcs & Hne); try done.
  { intros r Hr Hne. specialize (Hfrom Hne). apply Forall_cons in Hfrom as [Hk0 _]. unfold offset_of in Hk0. by rewrite Hr in Hk0. }
  rewrite bind_Ok. destruct (IH Hord (seen ++ [k]) st1 Hst1) as (st' & Hgo & Hst').
  { intros _. eapply Forall_impl; [exact Hk|]. intros j Hj. cbn in Hj. unfold offset_of at 1 in Hj. rewrite Hr in Hj. cbn in Hj. lia. }
  exists st'. split; [done|]. by rewrite <- app_assoc in Hst'.
Qed.

(** A range that wraps 64 bits is refused before anything is read. *)
Lemma sweep_one_bad gap k st r :
  reqs st !! k = Some r → is_u64 (r_offset r) → is_u64 (r_len r) → 2 ^ 64 ≤ r_offset r + r_len r →
  ∃ s, sweep_one gap k st = Err s.
Proof.
  intros Hr Ho Hl Hbad. unfold sweep_one. rewrite Hr.
  assert (checked_end (r_offset r) (r_len r) = Err (Corruption "batch_range_fetcher: range end overflow")) as ->; [|by eexists].
  unfold checked_end. rewrite u64_small by ulia. by rewrite (proj2 (Z.ltb_lt _ _)) by lia.
Qed.

Lemma sweep_all_bad gap rs order seen st :
  sweep_ok (2 ^ 64 - 1) gap rs seen st → 0 ≤ gap → Forall (λ r, is_u64 (r_offset r) ∧ is_u64 (r_len r)) rs →
  Forall (λ k, (k < length rs)%nat) order → StronglySorted (λ a b, offset_of rs a ≤ offset_of rs b) order →
  (segs st ≠ [] → Forall (λ k, cur_start st ≤ offset_of rs k) order) →
  Exists (λ k, ∃ r, rs !! k = Some r ∧ ¬ req_in (2 ^ 64 - 1) r) order →
  ∃ s, fold_result (sweep_one gap) order st = Err s.
Proof.
  intros Hst Hgap Hu Hord Hsort. revert seen st Hst.
  induction Hsort as [|k order Hsort IH Hk]; intros seen st Hst Hfrom Hex; [by apply Exists_nil in Hex|].
  apply Forall_cons in Hord as [Hlt Hord]. cbn [fold_result].
  destruct (lookup_lt_is_Some_2 rs k Hlt) as [r0 Hr0]. destruct (Forall_lookup_1 _ _ _ _ Hu Hr0) as [Ho Hl].
  destruct (decide (req_in (2 ^ 64 - 1) r0)) as [Hin|Hbad].
  - destruct (sweep_one_ok (2 ^ 64 - 1) gap rs seen st k) as (st1 & r & -> & Hr & Hst1 & Hcs & Hne); try done.
    { intros r Hr. rewrite Hr0 in Hr. by injection Hr as <-. }
    { intros r Hr Hne. specialize (Hfrom Hne). apply Forall_cons in Hfrom as [Hk0 _]. unfold offset_of in Hk0. by rewrite Hr in Hk0. }
    rewrite bind_Ok. apply (IH Hord (seen ++ [k]) st1 Hst1).
    + intros _. eapply Forall_impl; [exact Hk|]. intros j Hj. cbn in Hj. unfold offset_of at 1 in Hj. rewrite Hr in Hj. cbn in Hj. lia.
    + apply Exists_cons in Hex as [(r1 & Hr1 & Hn)|Hex]; [|done]. rewrite Hr0 in Hr1. injection Hr1 as <-. done.
  - destruct (Forall2_lookup_r _ _ _ _ _ (sw_ranges _ _ _ _ _ Hst) Hr0) as (r & Hr & Hro & Hrl).
    destruct (sweep_one_bad gap k st r Hr) as [s ->]; [by rewrite Hro|by rewrite Hrl| |by eexists].
    rewrite Hro, Hrl. unfold req_in, in_lim, is_u64 in *. lia.
Qed.

Section FetchSpec.
Context `{SortLaws}.

(** The sweep [fetch] runs, on requests below the limit. *)
Lemma fetch_sweep lim gap rs :
  0 ≤ gap → lim < 2 ^ 64 → Forall (req_in lim) rs →
  ∃ st, fold_result (sweep_one gap)
          (sort_by (λ a b, offset_of rs a <? offset_of rs b) (seq 0 (length rs))) (mkSweep [] 0 0 rs) = Ok st ∧
    same_ranges (reqs st) rs ∧ Forall (λ g, in_lim lim (offset g) (len g)) (segs st) ∧ apart gap (segs st) ∧
    ∀ h r, rs !! h = Some r → ∃ r', reqs st !! h = Some r' ∧ r_offset r' = r_offset r ∧ r_len r' = r_len r ∧
      seg_holds (segs st) r'.
Proof.
  intros Hgap Hlim Hin. destruct rs as [|r0 rs0] eqn:Hrs.
  { exists (mkSweep [] 0 0 []). assert (sort_by (λ a b, offset_of [] a <? offset_of [] b) (seq 0 (length (@nil Req))) = []) as ->.
    { apply Permutation_nil_r. rewrite (sort_by_perm (offset_of []) []). done. }
    split_and!; [done|constructor|constructor|intros i ? ? Hi; done|done]. }
  rewrite <- Hrs in Hin |- *. clear Hrs r0 rs0. set (order := sort_by _ _).
  pose proof (sort_by_perm (offset_of rs) (seq 0 (length rs))) as Hperm.
  pose proof (sort_by_sorted (offset_of rs) (seq 0 (length rs))) as Hsorted. fold order in Hperm, Hsorted.
  assert (0 ≤ lim ∨ rs = []) as [Hl0| ->].
  { destruct Hin as [|r rs [? [? ?]] _]; [by right|left; lia]. }
  2: { cbn in Hperm. apply Permutation_nil_r in Hperm. rewrite Hperm. exists (mkSweep [] 0 0 []).
       split_and!; [done|constructor|constructor|intros i ? ? Hi; done|done]. }
  destruct (sweep_all_ok lim gap rs order [] (mkSweep [] 0 0 rs)) as (st & Hgo & Hst); try done.
  - by apply sweep_ok_init.
  - apply Forall_forall. intros k Hk. rewrite Hperm in Hk. apply elem_of_seq in Hk. split; [lia|].
    intros r Hr. exact (Forall_lookup_1 _ _ _ _ Hin Hr).
  - destruct Hst as [Hr _ _ Hf Ha Hseen]. exists st. split_and!; [done..|].
    intros h r Hh. destruct (Forall2_lookup_r _ _ _ _ _ Hr Hh) as (r' & Hr' & Ho & Hl). exists r'. split_and!; [done..|].
    apply (Hseen h); [|done]. cbn [app]. rewrite Hperm. apply elem_of_seq. apply lookup_lt_Some in Hh. lia.
Qed.

(** A handle reads its range out of the physical reads. *)
Lemma get_window file gap st h r r' :
  Forall (λ g, in_file file (offset g) (len g)) (segs st) →
  reqs st !! h = Some r' → r_offset r' = r_offset r → r_len r' = r_len r → seg_holds (segs st) r' →
  get (mkFetcher gap (reqs st) (map (λ g, window file (offset g) (len g)) (segs st))) h =
    Ok (window file (r_offset r) (r_len r)) ∧ in_file file (r_offset r) (r_len r).
Proof.
  intros Hf Hr' Ho Hl (g & Hg & Hoff & Hs0 & Hl0 & Hfit & Hls). unfold get. cbn [reqs_ phys_]. rewrite Hr'.
  rewrite list_lookup_fmap, Hg. cbn [fmap option_fmap option_map]. pose proof (Forall_lookup_1 _ _ _ _ Hf Hg) as Hgin. cbn in Hgin.
  rewrite subslice_ok by (rewrite window_length by done; lia). split.
  - f_equal. rewrite Hls.
    change (window (window file (offset g) (len g)) (sub_offset r') (r_len r') = window file (r_offset r) (r_len r)).
    rewrite window_window by (done || lia). f_equal; lia.
  - unfold in_file in *. lia.
Qed.

(** Every handle of a fetcher whose ranges lie in the file reads its range; the
    physical reads issued are more than [coalesce_gap_] bytes apart. *)
Lemma fetch_ok file reader f :
  serves file reader → 0 ≤ coalesce_gap_ f → zlen file < 2 ^ 64 → Forall (req_in (zlen file)) (reqs_ f) →
  ∃ f' segs, fetch reader f = Ok f' ∧ apart (coalesce_gap_ f) segs ∧ read_batch reader segs = Ok (phys_ f') ∧
    (∀ h r, reqs_ f !! h = Some r → get f' h = Ok (window file (r_offset r) (r_len r))).
Proof.
  intros Hserves Hgap Hfile Hin. unfold fetch. destruct (reqs_ f) as [|r0 rs0] eqn:Hrs.
  { exists (mkFetcher (coalesce_gap_ f) [] []), []. split_and!; [done| | |done].
    - intros i ? ? Hi. done.
    - by rewrite (serves_batch _ _ Hserves). }
  rewrite <- Hrs in Hin |- *.
  destruct (fetch_sweep _ _ _ Hgap Hfile Hin) as (st & -> & _ & Hf & Ha & Hget). rewrite bind_Ok.
  rewrite (serves_batch_ok file reader (segs st) Hserves Hf), bind_Ok.
  eexists _, (segs st). split; [done|]. split; [done|]. split; [by rewrite (serves_batch_ok file reader)|].
  intros h r Hh. destruct (Hget h r Hh) as (r' & Hr' & Ho & Hl & Hheld).
  exact (proj1 (get_window file (coalesce_gap_ f) st h r r' Hf Hr' Ho Hl Hheld)).
Qed.

(** A batch over a serving reader fails, or all its ranges lie in the file. *)
Lemma serves_batch_spec file reader rs :
  serves file reader → Forall (λ g, in_lim (2 ^ 64 - 1) (offset g) (len g)) rs →
  match read_batch reader rs with
  | Ok bs => Forall (λ g, in_file file (offset g) (len g)) rs ∧ bs = map (λ g, window file (offset g) (len g)) rs
  | Err _ => True
  | Undef => False
  end.
Proof.
  intros Hs Hrs. rewrite (serves_batch _ _ Hs). induction Hrs as [|g rs (Ho & Hl & _) Hrs IH]; cbn [default_read_batch map]; [done|].
  destruct (decide (in_file file (offset g) (len g))) as [Hin|Hout].
  - rewrite (serves_read_at _ _ Hs), bind_Ok by done. destruct (default_read_batch _ rs); [|done|done].
    rewrite bind_Ok. destruct IH as [? ->]. by split; [constructor|].
  - destruct (serves_past_end _ _ Hs (offset g) (len g) Ho Hl Hout) as [st ->]. done.
Qed.

(** Whatever ranges were registered, a fetch over a serving reader ends with an
    error or with every handle valid: its range lies in the file and is read. *)
Lemma fetch_spec file reader f :
  serves file reader → 0 ≤ coalesce_gap_ f → Forall (λ r, is_u64 (r_offset r) ∧ is_u64 (r_len r)) (reqs_ f) →
  match fetch reader f with
  | Ok f' => ∀ h r, reqs_ f !! h = Some r →
      get f' h = Ok (window file (r_offset r) (r_len r)) ∧ in_file file (r_offset r) (r_len r)
  | Err _ => True
  | Undef => False
  end.
Proof.
  intros Hserves Hgap Hu. unfold fetch. destruct (reqs_ f) as [|r0 rs0] eqn:Hrs; [done|]. rewrite <- Hrs in Hu |- *.
  assert (zlen (reqs_ f) ≠ 0) as Hne by by rewrite Hrs. clear Hrs r0 rs0.
  destruct (decide (Forall (req_in (2 ^ 64 - 1)) (reqs_ f))) as [Hin|Hout].
  - destruct (fetch_sweep (2 ^ 64 - 1) _ _ Hgap ltac:(lia) Hin) as (st & -> & _ & Hf & _ & Hget). rewrite bind_Ok.
    pose proof (serves_batch_spec file reader (segs st) Hserves Hf) as Hb.
    destruct (read_batch reader (segs st)) as [bs| |]; [rewrite bind_Ok|done|done]. destruct Hb as [Hfile ->].
    intros h r Hh. destruct (Hget h r Hh) as (r' & Hr' & Ho & Hl & Hheld).
    exact (get_window file (coalesce_gap_ f) st h r r' Hfile Hr' Ho Hl Hheld).
  - set (order := sort_by _ _). pose proof (sort_by_perm (offset_of (reqs_ f)) (seq 0 (length (reqs_ f)))) as Hperm.
    pose proof (sort_by_sorted (offset_of (reqs_ f)) (seq 0 (length (reqs_ f)))) as Hsorted. fold order in Hperm, Hsorted.
    destruct (sweep_all_bad (coalesce_gap_ f) (reqs_ f) order [] (mkSweep [] 0 0 (reqs_ f))) as [s ->]; try done.
    + by apply sweep_ok_init.
    + apply Forall_forall. intros k Hk. rewrite Hperm in Hk. apply elem_of_seq in Hk. lia.
    + apply not_Forall_Exists in Hout; [|apply _]. apply Exists_exists in Hout as (r & Hr & Hn).
      apply list_elem_of_lookup in Hr as [k Hk]. apply Exists_exists. exists k. split; [|by exists r].
      rewrite Hperm. apply elem_of_seq. apply lookup_lt_Some in Hk. lia.
Qed.
End FetchSpec.

(** Register ranges in order. *)
Definition add_all (ranges : list Range) (f : BatchRangeFetcher) : BatchRangeFetcher :=
  fold_left (λ f g, (add (offset g) (len g) f).2) ranges f.

Lemma add_all_reqs ranges f :
  reqs_ (add_all ranges f) = reqs_ f ++ map (λ g, mkReq (offset g) (len g) 0 0 0) ranges ∧
  coalesce_gap_ (add_all ranges f) = coalesce_gap_ f.
Proof.
  revert f. induction ranges as [|g ranges IH]; intros f; [by rewrite app_nil_r|].
  change (add_all (g :: ranges) f) with (add_all ranges (add (offset g) (len g) f).2). cbn [map]. destruct (IH (add (offset g) (len g) f).2) as [-> ->]. cbn. by rewrite <- app_assoc.
Qed.

(** ** Rounds *)

(** The computation [f] asks the reader [r] for at most [n] batches, and for
    nothing else: over any reader that agrees on them it is the same. *)
Definition reads_at_most {A} (n : nat) (r : FileReader) (f : FileReader → A) : Prop :=
  ∃ rounds : list (list Range), (length rounds ≤ n)%nat ∧
    ∀ r', Forall (λ segs, read_batch r' segs = read_batch r segs) rounds → f r' = f r.

Section Rounds.
Context (r : FileReader).

Lemma rounds_none {A} (x : A) : reads_at_most 0 r (λ _, x).
Proof. by exists []. Qed.

Lemma rounds_mono {A} n m (f : FileReader → A) : (n ≤ m)%nat → reads_at_most n r f → reads_at_most m r f.
Proof. intros Hnm (rounds & Hlen & Hf). exists rounds. split; [lia|done]. Qed.

Lemma rounds_bind {A B} n m (f : FileReader → result A) (k : FileReader → A → result B) :
  reads_at_most n r f → (∀ a, f r = Ok a → reads_at_most m r (λ r, k r a)) → reads_at_most (n + m) r (λ r, a ← f r; k r a).
Proof.
  intros (rounds & Hlen & Hf) Hk. destruct (f r) as [a|st|] eqn:Hfr.
  - destruct (Hk a eq_refl) as (more & Hlen' & Hk'). exists (rounds ++ more). rewrite length_app. split; [lia|].
    intros r' [Hr Hr']%Forall_app. cbv beta. rewrite (Hf r' Hr), Hfr, !bind_Ok. by apply Hk'.
  - exists rounds. split; [lia|]. intros r' Hr. cbv beta. by rewrite (Hf r' Hr), Hfr.
  - exists rounds. split; [lia|]. intros r' Hr. cbv beta. by rewrite (Hf r' Hr), Hfr.
Qed.

Lemma rounds_batch segs : reads_at_most 1 r (λ r, read_batch r segs).
Proof. exists [segs]. split; [done|]. intros r' Hr. exact (Forall_inv Hr). Qed.

Lemma fetch_reads `{Sort} f : reads_at_most 1 r (λ r, fetch r f).
Proof.
  unfold fetch. destruct (reqs_ f) as [|q qs]; [eapply rounds_mono, rounds_none; lia|]. cbv zeta.
  apply (rounds_bind 0 1); [apply rounds_none|]. intros st _. apply (rounds_bind 1 0); [apply rounds_batch|]. intros phys _. apply rounds_none.
Qed.
End Rounds.

(** ** Properties *)

(** C39: over a reader that serves a file, a fetcher given ranges inside the file
    returns under the i-th handle exactly the bytes of the i-th range, however
    the ranges overlap and in whatever order they were added; the physical reads
    it issues are pairwise more than the coalescing gap apart. *)
Theorem batch_fetch_exact `{SortLaws} file reader gap ranges :
  serves file reader → 0 ≤ gap → zlen file < 2 ^ 64 → Forall (λ g, in_file file (offset g) (len g)) ranges →
  ∃ f segs, fetch reader (add_all ranges (new_fetcher gap)) = Ok f ∧ apart gap segs ∧ read_batch reader segs = Ok (phys_ f) ∧
    ∀ i g, ranges !! i = Some g → get f i = Ok (window file (offset g) (len g)).
Proof.
  intros Hs Hgap Hfile Hr. destruct (add_all_reqs ranges (new_fetcher gap)) as [Hreqs Hg]. cbn [new_fetcher reqs_ coalesce_gap_ app] in *.
  destruct (fetch_ok file reader (add_all ranges (new_fetcher gap)) Hs) as (f & segs & Hf & Ha & Hb & Hget); [by rewrite Hg|done| |].
  - rewrite Hreqs. apply Forall_fmap. eapply Forall_impl; [exact Hr|]. done.
  - rewrite Hg in Ha. exists f, segs. split_and!; [done..|]. intros i g Hi.
    apply (Hget i (mkReq (offset g) (len g) 0 0 0)). rewrite Hreqs. by rewrite list_lookup_fmap, Hi.
Qed.

(** ** A sort: insertion by key *)

Module InsertionSort.
Fixpoint insert_by (less : nat → nat → bool) (x : nat) (l : list nat) : list nat :=
  match l with
  | [] => [x]
  | y :: l => if less y x then y :: insert_by less x l else x :: y :: l
  end.
#[global] Instance sort : Sort := λ less l, foldr (insert_by less) [] l.

Lemma insert_by_perm less x l : insert_by less x l ≡ₚ x :: l.
Proof. induction l as [|y l IH]; cbn; [done|]. destruct (less y x); [|done]. rewrite IH. constructor. Qed.

Lemma insert_by_sorted (key : nat → Z) x l :
  StronglySorted (λ a b, key a ≤ key b) l → StronglySorted (λ a b, key a ≤ key b) (insert_by (λ a b, key a <? key b) x l).
Proof.
  induction 1 as [|y l Hl IH Hy]; cbn; [by repeat constructor|]. destruct (Z.ltb_spec (key y) (key x)).
  - constructor; [done|]. rewrite insert_by_perm. constructor; [lia|done].
  - constructor; [by constructor|]. constructor; [lia|]. eapply Forall_impl; [exact Hy|]. cbn. lia.
Qed.

#[global] Instance sort_laws : SortLaws.
Proof.
  split; intros key l; unfold sort_by, sort.
  - induction l as [|x l IH]; cbn; [done|]. by rewrite insert_by_perm, IH.
  - induction l as [|x l IH]; cbn; [constructor|by apply insert_by_sorted].
Qed.
End InsertionSort.

(** ** Witnesses *)

Definition sample_file : bytes := seqZ 0 100.
Definition sample_ranges : list Range := [mkRange 40 10; mkRange 5 3; mkRange 45 20; mkRange 5 0; mkRange 100 0].

Lemma batch_fetch_exact_witness :
  ∃ f segs, fetch (memory_file sample_file) (add_all sample_ranges (new_fetcher 8)) = Ok f ∧ apart 8 segs ∧
    read_batch (memory_file sample_file) segs = Ok (phys_ f) ∧
    ∀ i g, sample_ranges !! i = Some g → get f i = Ok (window sample_file (offset g) (len g)).
Proof.
  apply (batch_fetch_exact sample_file (memory_file sample_file) 8 sample_ranges); [apply memory_file_serves|lia|done|].
  unfold sample_ranges. repeat (apply Forall_cons_2; [split_and!; vm_compute; discriminate|]). done.
Defined.

(** Five requests, three physical reads. *)
Example batch_fetch_reads :
  (f ← fetch (memory_file sample_file) (add_all sample_ranges (new_fetcher 8)); Ok (map length (phys_ f))) = Ok [3; 25; 0]%nat.
Proof. reflexivity. Qed.
