(* ===== verification/LogicalIndexReader.v ===== *)
(** * LogicalIndexReader: from a query term to its dictionary entry.

    [reader/logical_index_reader.h] and [reader/logical_index_reader.cpp]. The
    resident parts are parsed once by [open]; [lookup] asks the bloom filter, the
    sampled term index, the block directory and one DICT block in turn, and
    [prefix_terms] enumerates the blocks from the one that may hold the prefix.
    The environment variable that overrides the residency threshold is the
    argument [env] of [open]. A returned [PrefixHit] carries the entry and the
    bases of its block; [lookup] returns one for a term it finds. The null
    checks of pointers are not modelled. *)

From S2P Require Import Prelude Status Varint ByteIO Crc32c SectionFramer FormatConstants Zstd TermKey.
From S2P Require Import StatsBlock FrqPod DictEntry DictBlock SampledTermIndex DictBlockDirectory PerIndexMeta.
From S2P Require Import FileIO Bsbf.

#[local] Open Scope Z_scope.

(** ** The residency threshold *)

Definition kBsbfResidentMaxBytes : Z := 256 * 1024.

Definition is_space (c : Z) : bool := (c =? 32) || ((9 <=? c) && (c <=? 13)).
Definition is_digit (c : Z) : bool := (48 <=? c) && (c <=? 57).

Fixpoint skip_spaces (s : bytes) : bytes :=
  match s with c :: s' => if is_space c then skip_spaces s' else s | [] => [] end.

(** The digits read so far; [None] before the first. *)
Fixpoint read_digits (s : bytes) (acc : option Z) : option Z :=
  match s with
  | c :: s => if is_digit c then read_digits s (Some (default 0 acc * 10 + (c - 48))) else acc
  | [] => acc
  end.

(** [std::strtoull(s, &end, 10)]; [None] is [end == s]. *)
Definition strtoull (s : bytes) : option Z :=
  let s := skip_spaces s in
  let '(neg, s) :=
    match s with
    | c :: s' => if c =? 45 then (true, s') else if c =? 43 then (false, s') else (false, s)
    | [] => (false, [])
    end in
  v ← read_digits s None;
  Some (if 2 ^ 64 - 1 <? v then 2 ^ 64 - 1 else if neg : bool then u64 (- v) else v).

(** [env] is [std::getenv("SNII_BSBF_RESIDENT_MAX")]. *)
Definition bsbf_resident_max_bytes (env : option bytes) : Z :=
  match env with
  | Some s => default kBsbfResidentMaxBytes (strtoull s)
  | None => kBsbfResidentMaxBytes
  end.

(** ** The reader *)

Record LogicalIndexReader := mkLogicalIndexReader {
  reader_ : FileReader;
  tier_ : IndexTier;
  has_positions_ : bool;
  meta_ : PerIndexMetaReader;
  sti_ : list bytes;
  dbd_ : list BlockRef;
  bsbf_header_ : BsbfHeader;
  has_bsbf_ : bool;
  bsbf_resident_ : bool;
  bsbf_resident_bitset_ : bytes
}.

Definition section_refs (idx : LogicalIndexReader) : SectionRefs := section_refs_ (meta_ idx).
Definition stats (idx : LogicalIndexReader) : StatsBlock := stats_ (meta_ idx).

Record PrefixHit := mkPrefixHit { hit_term : bytes; hit_entry : DictEntry; hit_frq_base : Z; hit_prx_base : Z }.

Definition kMaxDictBlockUncompBytes : Z := 256 * 1024 * 1024.

Definition no_bsbf_header : BsbfHeader := mkBsbfHeader 0 0 0 0.

(** The fields [bsbf_header_], [has_bsbf_], [bsbf_resident_] and
    [bsbf_resident_bitset_] that [open] leaves. *)
Definition open_bsbf (env : option bytes) (file_reader : FileReader) (bsbf : RegionRef)
    : result (BsbfHeader * bool * bool * bytes) :=
  if 0 <? length_ bsbf then
    _ ← reject_if (length_ bsbf <=? kBsbfHeaderSize) (Corruption "logical_index: bsbf section too small");
    let num_bytes := length_ bsbf - kBsbfHeaderSize in
    let resident := length_ bsbf <=? bsbf_resident_max_bytes env in
    head ← read_at file_reader (PerIndexMeta.offset bsbf) (if resident then length_ bsbf else kBsbfHeaderSize);
    _ ← reject_if (zlen head <? kBsbfHeaderSize) (Corruption "logical_index: short bsbf header read");
    slice ← subslice head 0 kBsbfHeaderSize;
    header ← parse slice (PerIndexMeta.offset bsbf);
    _ ← reject_if (negb (Bsbf.num_bytes header =? num_bytes))
          (Corruption "logical_index: bsbf header/section size mismatch");
    if resident then
      _ ← reject_if (zlen head <? length_ bsbf) (Corruption "logical_index: short bsbf resident read");
      bitset ← subslice head kBsbfHeaderSize (Bsbf.num_bytes header);
      _ ← reject_if (negb (crc32c bitset =? bitset_crc header))
            (Corruption "logical_index: bsbf bitset crc mismatch");
      Ok (header, true, true, bitset)
    else Ok (header, true, false, [])
  else Ok (no_bsbf_header, false, false, []).

Definition open (env : option bytes) (file_reader : FileReader) (tier : IndexTier) (has_positions : bool)
    (meta_block : Slice) : result LogicalIndexReader :=
  meta ← PerIndexMeta.open meta_block;
  sti ← SampledTermIndex.open (sampled_term_index_ meta);
  dbd ← DictBlockDirectory.open (dict_block_directory_ meta);
  '(header, has_bsbf, resident, bitset) ← open_bsbf env file_reader (bsbf (section_refs_ meta));
  Ok (mkLogicalIndexReader file_reader tier has_positions meta sti dbd header has_bsbf resident bitset).

Section Lookup.
Context `{ZstdOps} `{BsbfEnv}.

(** Step 1, the filter: [maybe]. *)
Definition maybe_present (idx : LogicalIndexReader) (term : bytes) : result bool :=
  if has_bsbf_ idx then
    let h := bsbf_hash term in
    if bsbf_resident_ idx then
      let blk := bsbf_block_index h (Bsbf.num_blocks (bsbf_header_ idx)) in
      block ← subslice (bsbf_resident_bitset_ idx) (blk * kBsbfBytesPerBlock) kBsbfBytesPerBlock;
      bsbf_block_contains h block
    else bsbf_probe (reader_ idx) (bsbf_header_ idx) h
  else Ok true.

(** Step 4, one range read of the DICT block, inflated when it is compressed. *)
Definition read_block (idx : LogicalIndexReader) (ref : BlockRef) : result DictBlockReader :=
  block_bytes ← read_at (reader_ idx) (DictBlockDirectory.offset ref) (DictBlockDirectory.length_ ref);
  block_slice ←
    (if negb (Z.land (flags ref) kZstd =? 0) then
       _ ← reject_if ((uncomp_len ref =? 0) || (kMaxDictBlockUncompBytes <? uncomp_len ref))
             (Corruption "dict block: zstd uncomp_len out of range");
       zstd_decompress block_bytes (uncomp_len ref)
     else Ok block_bytes);
  DictBlock.open block_slice (tier_ idx) (has_positions_ idx).

(** [Some] is [*found = true]. *)
Definition lookup (idx : LogicalIndexReader) (term : bytes) : result (option PrefixHit) :=
  maybe ← maybe_present idx term;
  if negb maybe then Ok None
  else
    match locate (sti_ idx) term with
    | None => Ok None
    | Some ordinal =>
        ref ← get (dbd_ idx) ordinal;
        br ← read_block idx ref;
        hit ← find_term br term;
        Ok (match hit with
            | None => None
            | Some entry => Some (mkPrefixHit term entry (frq_base_ br) (prx_base_ br))
            end)
    end.

Definition has_prefix (prefix t : bytes) : bool :=
  (zlen prefix <=? zlen t) && bool_decide (take (length prefix) t = prefix).

(** The loop over the entries of one block; [true] when it returned. *)
Fixpoint scan_entries (prefix : bytes) (br : DictBlockReader) (entries : list DictEntry)
    (out : list PrefixHit) : list PrefixHit * bool :=
  match entries with
  | [] => (out, false)
  | e :: entries =>
      if term_ltb (term e) prefix then scan_entries prefix br entries out
      else if negb (has_prefix prefix (term e)) then (out, true)
      else scan_entries prefix br entries (out ++ [mkPrefixHit (term e) e (frq_base_ br) (prx_base_ br)])
  end.

Fixpoint prefix_loop (idx : LogicalIndexReader) (prefix : bytes) (ords : list Z) (out : list PrefixHit)
    : result (list PrefixHit) :=
  match ords with
  | [] => Ok out
  | ord :: ords =>
      ref ← get (dbd_ idx) ord;
      br ← read_block idx ref;
      entries ← decode_all br;
      let '(out, done) := scan_entries prefix br entries out in
      if done then Ok out else prefix_loop idx prefix ords out
  end.

Definition prefix_terms (idx : LogicalIndexReader) (prefix : bytes) : result (list PrefixHit) :=
  let start :=
    match prefix with
    | [] => 0
    | _ => match locate (sti_ idx) prefix with Some ordinal => ordinal | None => 0 end
    end in
  let n := n_blocks (dbd_ idx) in
  prefix_loop idx prefix (seqZ start (n - start)) [].
End Lookup.

(** ** Posting locators *)

(** [*abs_off] and [*len]. *)
Definition resolve_window (section : RegionRef) (base off_delta total_len prelude_len : Z)
    : result (Z * Z) :=
  _ ← reject_if (total_len <? prelude_len) (Corruption "logical_index: prelude_len exceeds window len");
  let in_region := u64 (base + off_delta) in
  _ ← reject_if (in_region <? base) (Corruption "logical_index: locator overflow");
  _ ← reject_if ((length_ section <? in_region) || (length_ section - in_region <? total_len))
        (Corruption "logical_index: window past posting region");
  Ok (u64 (u64 (PerIndexMeta.offset section + in_region) + prelude_len), total_len - prelude_len).

Definition resolve_frq_window (idx : LogicalIndexReader) (entry : DictEntry) (frq_base : Z) : result (Z * Z) :=
  resolve_window (posting_region (section_refs idx)) frq_base (frq_off_delta entry) (frq_len entry)
    (prelude_len entry).

Definition resolve_prx_window (idx : LogicalIndexReader) (entry : DictEntry) (prx_base : Z) : result (Z * Z) :=
  resolve_window (posting_region (section_refs idx)) prx_base (prx_off_delta entry) (prx_len entry) 0.

(** ** The dictionary an index holds *)

Record IndexBlock := mkIndexBlock {
  ib_frq_base : Z;
  ib_prx_base : Z;
  ib_interval : nat;
  ib_entries : list DictEntry
}.

Section Dictionary.
Context (tier : IndexTier) (hp : bool).

Definition ib_bytes (b : IndexBlock) : bytes :=
  block_bytes tier hp (ib_frq_base b) (ib_prx_base b) (ib_interval b) (ib_entries b).
Definition ib_opened (b : IndexBlock) : DictBlockReader :=
  opened tier hp (ib_frq_base b) (ib_prx_base b) (ib_interval b) (ib_entries b).
Definition wf_index_block (b : IndexBlock) : Prop :=
  wf_block tier hp (ib_frq_base b) (ib_prx_base b) (ib_interval b) (ib_entries b) ∧ ib_entries b ≠ [].

Definition hit_of (b : IndexBlock) (e : DictEntry) : PrefixHit :=
  mkPrefixHit (term e) (stored tier e) (ib_frq_base b) (if hp then ib_prx_base b else 0).
Definition block_hits (b : IndexBlock) : list PrefixHit := map (hit_of b) (ib_entries b).

(** Every entry of the index, in term order, with the bases of its block. *)
Definition index_hits (blocks : list IndexBlock) : list PrefixHit := concat (map block_hits blocks).
Definition index_entries (blocks : list IndexBlock) : list DictEntry := concat (map ib_entries blocks).
Definition index_terms (blocks : list IndexBlock) : list bytes := map term (index_entries blocks).
Definition first_terms (blocks : list IndexBlock) : list bytes :=
  map (λ b, first_term (ib_entries b)) blocks.

Definition find_hit (t : bytes) (hits : list PrefixHit) : option PrefixHit :=
  List.find (λ h, bool_decide (hit_term h = t)) hits.

(** A dictionary: well-formed blocks whose entries ascend from block to block. *)
Definition wf_dictionary (blocks : list IndexBlock) : Prop :=
  Forall wf_index_block blocks ∧ StronglySorted entry_lt (index_entries blocks) ∧ is_u32 (zlen blocks).

(** A reference finds its block in the file, raw or compressed. *)
Definition block_at_ref `{ZstdOps} (file : bytes) (b : IndexBlock) (ref : BlockRef) : Prop :=
  in_file file (DictBlockDirectory.offset ref) (DictBlockDirectory.length_ ref) ∧
  let disk := FileIO.window file (DictBlockDirectory.offset ref) (DictBlockDirectory.length_ ref) in
  if Z.land (flags ref) kZstd =? 0 then disk = ib_bytes b
  else uncomp_len ref = zlen (ib_bytes b) ∧ zlen (ib_bytes b) ≤ kMaxDictBlockUncompBytes ∧
       zstd_decompress disk (zlen (ib_bytes b)) = Ok (ib_bytes b).

(** What a reader of that dictionary is: its resident parts describe the blocks,
    and its filter admits every term of them. *)
Record indexes `{ZstdOps} `{BsbfEnv} (file : bytes) (idx : LogicalIndexReader) (blocks : list IndexBlock)
    : Prop := {
  indexes_wf : wf_dictionary blocks;
  indexes_serves : serves file (reader_ idx);
  indexes_tier : tier_ idx = tier;
  indexes_positions : has_positions_ idx = hp;
  indexes_sti : sti_ idx = first_terms blocks;
  indexes_dbd : Forall2 (block_at_ref file) blocks (dbd_ idx);
  indexes_filter t : ∃ b, maybe_present idx t = Ok b ∧ (t ∈ index_terms blocks → b = true)
}.

(** *** Lists of hits *)

Lemma find_hit_block t b :
  find_hit t (block_hits b) =
    (λ e, mkPrefixHit t e (ib_frq_base b) (if hp then ib_prx_base b else 0)) <$>
      lookup_term t (map (stored tier) (ib_entries b)).
Proof.
  unfold find_hit, block_hits, lookup_term. induction (ib_entries b) as [|e es IH]; [done|].
  cbn [map List.find hit_of hit_term]. rewrite stored_term.
  destruct (decide (term e = t)) as [<-|Hne]; [by rewrite bool_decide_true|].
  rewrite bool_decide_false by done. apply IH.
Qed.

Lemma find_hit_app t l r :
  find_hit t (l ++ r) = match find_hit t l with Some h => Some h | None => find_hit t r end.
Proof. induction l as [|h l IH]; [done|]. cbn. destruct (bool_decide _); [done|apply IH]. Qed.

(** [find_hit] fails exactly on the terms that are not there. *)
Lemma find_hit_lookup t blocks :
  find_hit t (index_hits blocks) = None ↔
    lookup_term t (map (stored tier) (index_entries blocks)) = None.
Proof.
  unfold index_hits, index_entries. induction blocks as [|b blocks IH]; [done|]. cbn [map concat].
  rewrite map_app, lookup_term_app, find_hit_app, find_hit_block.
  destruct (lookup_term t (map (stored tier) (ib_entries b))); [split; intros [=]|exact IH].
Qed.

Lemma find_hit_absent t blocks : t ∉ index_terms blocks → find_hit t (index_hits blocks) = None.
Proof.
  intros Ht. apply find_hit_lookup, lookup_term_None, stored_not_target, Forall_forall.
  intros e He <-. apply Ht. by apply list_elem_of_fmap_2.
Qed.

Lemma find_hit_located l b r t :
  wf_dictionary (l ++ b :: r) → term_le (first_term (ib_entries b)) t →
  Forall (λ b, term_lt t (first_term (ib_entries b))) r →
  find_hit t (index_hits (l ++ b :: r)) = find_hit t (block_hits b).
Proof.
  intros (Hwf & Hs & _) Hle Hr. unfold index_hits, index_entries in *.
  rewrite map_app in Hs |- *. cbn [map] in Hs |- *.
  assert (∀ bs, Forall wf_index_block bs → Forall (λ s, s ≠ []) (map ib_entries bs)) as Hne.
  { intros bs Hbs. apply Forall_fmap. eapply Forall_impl; [exact Hbs|]. by intros ? [_ ?]. }
  assert (Forall (λ s, s ≠ []) (map ib_entries l ++ ib_entries b :: map ib_entries r)) as Hne'.
  { pose proof (Hne _ Hwf) as Hn. by rewrite map_app in Hn. }
  pose proof (lookup_located tier _ _ _ t Hne' Hs Hle) as Hloc.
  assert (Forall (λ s, term_lt t (first_term s)) (map ib_entries r)) as Hr' by by apply Forall_fmap.
  specialize (Hloc Hr'). rewrite concat_app in Hloc |- *. cbn [concat] in Hloc |- *.
  rewrite !map_app, !lookup_term_app in Hloc. rewrite !find_hit_app.
  assert (find_hit t (concat (map block_hits l)) = None) as ->.
  { apply find_hit_lookup, lookup_term_None, stored_not_target, Forall_forall. intros e He Heq.
    rewrite concat_app in Hs. cbn [concat] in Hs. apply Forall_app in Hwf as [_ Hwf].
    apply Forall_cons in Hwf as [[_ Hbne] _]. destruct (ib_entries b) as [|f s] eqn:Hb; [done|].
    assert (f ∈ (f :: s) ++ concat (map ib_entries r)) as Hf by by left.
    pose proof (StronglySorted_app_1_elem_of _ _ _ e f Hs He Hf) as Hef. unfold entry_lt in Hef.
    rewrite Heq in Hef. apply (irreflexivity term_lt t). by eapply term_lt_le_trans. }
  destruct (find_hit t (block_hits b)); [done|].
  apply find_hit_lookup, lookup_term_None, stored_not_target. apply above_target; [| |done].
  - apply Hne. apply Forall_app in Hwf as [_ Hwf]. by apply Forall_cons in Hwf as [_ ?].
  - pose proof (segments_sorted _ Hs) as Hss. apply Forall_app in Hss as [_ Hss]. by apply Forall_cons in Hss as [_ ?].
Qed.
End Dictionary.

(** ** Looking up a term *)

Section Reading.
Context `{ZstdOps} `{BsbfEnv} (tier : IndexTier) (hp : bool).

Lemma read_block_at_ref file idx b ref :
  serves file (reader_ idx) → tier_ idx = tier → has_positions_ idx = hp →
  wf_index_block tier hp b → block_at_ref tier hp file b ref →
  read_block idx ref = Ok (ib_opened tier hp b).
Proof.
  intros Hs Ht Hp [Hwf _] [Hin Hdisk]. unfold read_block. rewrite (serves_read_at _ _ Hs), bind_Ok by done.
  set (disk := FileIO.window _ _ _) in *. rewrite Ht, Hp.
  assert (DictBlock.open (ib_bytes tier hp b) tier hp = Ok (ib_opened tier hp b)) as Ho
    by exact (open_block_bytes _ _ _ _ _ _ Hwf).
  destruct (Z.land (flags ref) kZstd =? 0); cbn [negb].
  - by rewrite bind_Ok, Hdisk.
  - destruct Hdisk as (-> & Hcap & Hz). rewrite bind_reject_false; [by rewrite Hz, bind_Ok|].
    pose proof (es_length_u32 _ _ _ _ _ _ Hwf) as Hlen. unfold ib_bytes, block_bytes in *.
    rewrite length_app in Hcap |- *. apply orb_false_iff. split; [apply Z.eqb_neq; lia|apply Z.ltb_ge; lia].
Qed.

Lemma wf_dictionary_first blocks :
  wf_dictionary tier hp blocks → StronglySorted term_lt (first_terms blocks) ∧ is_u32 (zlen (first_terms blocks)).
Proof.
  intros (Hwf & Hs & Hn). unfold first_terms. rewrite length_map. split; [|done].
  rewrite <- (map_map ib_entries first_term). apply first_terms_sorted; [|done].
  apply Forall_fmap. eapply Forall_impl; [exact Hwf|]. by intros ? [_ ?].
Qed.

(** A position in the index: the blocks before it, the block and those behind. *)
Lemma index_split idx file blocks (i : nat) s :
  indexes tier hp file idx blocks → first_terms blocks !! i = Some s →
  ∃ l b r ref, blocks = l ++ b :: r ∧ length l = i ∧ s = first_term (ib_entries b) ∧
    get (dbd_ idx) (Z.of_nat i) = Ok ref ∧ read_block idx ref = Ok (ib_opened tier hp b) ∧
    wf_index_block tier hp b.
Proof.
  intros Hidx Hi. unfold first_terms in Hi. apply list_lookup_fmap_Some in Hi as (b & -> & Hb).
  destruct (Forall2_lookup_l _ _ _ _ _ (indexes_dbd _ _ _ _ _ Hidx) Hb) as (ref & Href & Hat).
  exists (take i blocks), b, (drop (S i) blocks), ref. rewrite (take_drop_middle blocks i b Hb).
  assert (wf_index_block tier hp b) as Hwb.
  { pose proof (indexes_wf _ _ _ _ _ Hidx) as (Hwf & _). by apply (Forall_lookup_1 _ _ _ _ Hwf Hb). }
  split_and!; [done| |done| | |done].
  - rewrite length_take. apply lookup_lt_Some in Hb. lia.
  - unfold get. rewrite Nat2Z.id, Href. apply lookup_lt_Some in Href. by rewrite (proj2 (Z.leb_gt _ _)) by lia.
  - destruct Hidx. by eapply read_block_at_ref.
Qed.

Lemma lookup_indexes file idx blocks t :
  indexes tier hp file idx blocks → lookup idx t = Ok (find_hit t (index_hits tier hp blocks)).
Proof.
  intros Hidx. pose proof (indexes_wf _ _ _ _ _ Hidx) as Hwf. unfold lookup.
  destruct (indexes_filter _ _ _ _ _ Hidx t) as (maybe & -> & Hmaybe). rewrite bind_Ok.
  destruct maybe; cbn [negb]; [clear Hmaybe|].
  2: { rewrite find_hit_absent; [done|]. intros Hin. by specialize (Hmaybe Hin). }
  pose proof (wf_dictionary_first blocks Hwf) as [Hsort Hlen].
  rewrite (indexes_sti _ _ _ _ _ Hidx). pose proof (locate_spec (first_terms blocks) t Hsort Hlen) as Hloc.
  destruct (locate (first_terms blocks) t) as [i|].
  - destruct Hloc as (Hi & (s & Hsi & Hle) & Hgt).
    destruct (index_split idx file blocks _ s Hidx Hsi) as (l & b & r & ref & -> & Hl & -> & Href & Hread & Hwb).
    rewrite Z2Nat.id in Href by lia. rewrite Href, bind_Ok, Hread, bind_Ok. destruct Hwb as [Hwb _].
    unfold ib_opened. destruct Hwf as (Hwf & Hsorted & Hu).
    rewrite find_term_opened, bind_Ok; [|done|].
    2: { unfold index_entries in Hsorted. rewrite map_app in Hsorted. apply segments_sorted in Hsorted.
         apply Forall_app in Hsorted as [_ Hsorted]. by apply Forall_cons in Hsorted as [? _]. }
    rewrite (find_hit_located tier hp l b r t); [|done|done|].
    + rewrite find_hit_block. by destruct (lookup_term t _).
    + apply Forall_lookup. intros j c Hj. apply (Hgt (length l + S j)%nat); [|lia].
      unfold first_terms. rewrite map_app, lookup_app_r by (rewrite length_map; lia).
      rewrite length_map, Nat.add_sub'. cbn [map lookup list_lookup]. exact (list_lookup_fmap_Some_2 _ _ _ _ Hj).
  - rewrite (proj2 (find_hit_lookup tier hp t blocks)); [done|].
    apply lookup_term_None, stored_not_target. unfold index_entries.
    destruct Hwf as (Hwf & Hsorted & Hu). apply above_target.
    + apply Forall_fmap. eapply Forall_impl; [exact Hwf|]. by intros ? [_ ?].
    + by apply segments_sorted.
    + apply Forall_fmap, Forall_forall. intros b Hb. apply Hloc. unfold first_terms.
      apply list_elem_of_fmap. by exists b.
Qed.

(** ** Enumerating a prefix *)

Definition with_prefix (prefix : bytes) (hits : list PrefixHit) : list PrefixHit :=
  List.filter (λ h, has_prefix prefix (hit_term h)) hits.

Lemma with_prefix_app p l r : with_prefix p (l ++ r) = with_prefix p l ++ with_prefix p r.
Proof. apply List.filter_app. Qed.

Lemma has_prefix_nil t : has_prefix [] t = true.
Proof. unfold has_prefix. rewrite (proj2 (Z.leb_le _ _)) by (cbn; lia). done. Qed.

Lemma has_prefix_cons a p b t : has_prefix (a :: p) (b :: t) = (a =? b) && has_prefix p t.
Proof.
  unfold has_prefix. cbn [length take]. destruct (Z.eqb_spec a b) as [->|Hne]; cbn [andb].
  - f_equal; [destruct (Z.leb_spec (zlen p) (zlen t)); [apply Z.leb_le|apply Z.leb_gt]; lia|].
    apply bool_decide_ext. split; [by intros [= ->]|by intros ->].
  - rewrite (bool_decide_false (_ = _)) by congruence. apply andb_false_r.
Qed.

(** Terms with the prefix are not below it, and once a term at or above it lacks
    it no later one has it. *)
Lemma has_prefix_ge p t : has_prefix p t = true → term_le p t.
Proof.
  revert t. induction p as [|a p IH]; intros [|b t]; [done|done|done|]. rewrite has_prefix_cons.
  intros [->%Z.eqb_eq Hp]%andb_true_iff. specialize (IH _ Hp). revert IH. rewrite !term_le_cases, term_lt_cons.
  intros [->|?]; [by left|by right; right].
Qed.

Lemma has_prefix_passed p t u :
  term_le p t → has_prefix p t = false → term_lt t u → has_prefix p u = false.
Proof.
  revert t u. induction p as [|a p IH]; intros t u Hle Ht Htu; [by rewrite has_prefix_nil in Ht|].
  destruct u as [|c u]; [done|]. destruct t as [|b t]; [by rewrite term_le_cases in Hle; destruct Hle|].
  rewrite has_prefix_cons in Ht |- *. rewrite term_lt_cons in Htu. rewrite term_le_cases, term_lt_cons in Hle.
  destruct (Z.eqb_spec a c) as [<-|]; [|done]. cbn [andb].
  assert (a = b ∧ term_le p t) as [<- Hpt].
  { rewrite term_le_cases. destruct Hle as [[= -> ->]|[?|[-> ?]]]; [tauto|lia|tauto]. }
  rewrite Z.eqb_refl in Ht. destruct Htu as [?|[_ Htu]]; [lia|]. by apply (IH t).
Qed.

Lemma with_prefix_none p hits : Forall (λ h, has_prefix p (hit_term h) = false) hits → with_prefix p hits = [].
Proof. induction 1 as [|h hits Hh _ IH]; [done|]. cbn. by rewrite Hh. Qed.

(** No entry behind [e] has the prefix. *)
Lemma with_prefix_after p e hits :
  term_le p e → has_prefix p e = false → Forall (λ h, term_lt e (hit_term h)) hits → with_prefix p hits = [].
Proof.
  intros Hle He Hall. apply with_prefix_none. eapply Forall_impl; [exact Hall|]. cbn. intros h.
  by apply has_prefix_passed.
Qed.

Lemma scan_entries_spec p b es out :
  StronglySorted entry_lt es →
  let hits := map (hit_of tier hp b) es in
  let '(out', stop) := scan_entries p (ib_opened tier hp b) (map (stored tier) es) out in
  out' = out ++ with_prefix p hits ∧
  (stop = true → ∃ e, e ∈ es ∧ term_le p (term e) ∧ has_prefix p (term e) = false).
Proof.
  intros Hs. revert out. induction Hs as [|e es Hs IH Hall]; intros out; cbn [map scan_entries].
  { split; [by rewrite app_nil_r|done]. }
  rewrite stored_term. unfold with_prefix. cbn [List.filter hit_of hit_term]. fold (with_prefix p (map (hit_of tier hp b) es)).
  destruct (term_ltb (term e) p) eqn:Hlt.
  - destruct (has_prefix p (term e)) eqn:Hp.
    { apply has_prefix_ge in Hp. unfold term_le, term_leb in Hp. by rewrite Hlt in Hp. }
    specialize (IH out). destruct (scan_entries _ _ _ _) as [out' stop]. destruct IH as [-> Hstop].
    split; [done|]. intros Ht. destruct (Hstop Ht) as (f & Hf & ?). exists f. split; [by right|done].
  - assert (term_le p (term e)) as Hle by (unfold term_le, term_leb; by rewrite Hlt).
    destruct (has_prefix p (term e)) eqn:Hp; cbn [negb].
    + specialize (IH (out ++ [mkPrefixHit (term e) (stored tier e) (ib_frq_base b) (if hp then ib_prx_base b else 0)])).
      cbn [ib_opened frq_base_ prx_base_ opened] in *. destruct (scan_entries _ _ _ _) as [out' stop].
      destruct IH as [-> Hstop]. split; [by rewrite <- app_assoc|].
      intros Ht. destruct (Hstop Ht) as (f & Hf & ?). exists f. split; [by right|done].
    + split; [|intros _; exists e; split; [by left|done]].
      rewrite (with_prefix_after p (term e)); [by rewrite app_nil_r|done|done|].
      apply Forall_fmap. eapply Forall_impl; [exact Hall|]. by intros f Hf.
Qed.

(** The loop over the blocks behind [l]. *)
Lemma prefix_loop_spec file idx blocks l r p out :
  indexes tier hp file idx blocks → blocks = l ++ r →
  prefix_loop idx p (seqZ (zlen l) (zlen r)) out = Ok (out ++ with_prefix p (index_hits tier hp r)).
Proof.
  intros Hidx. revert l out. induction r as [|b r IH]; intros l out Hb; cbn [length].
  { cbn. by rewrite app_nil_r. }
  rewrite seqZ_cons by lia. cbn [prefix_loop].
  assert (first_terms blocks !! length l = Some (first_term (ib_entries b))) as Hi.
  { unfold first_terms. rewrite Hb, map_app, lookup_app_r by (rewrite length_map; lia). by rewrite length_map, Nat.sub_diag. }
  destruct (index_split idx file blocks _ _ Hidx Hi) as (l' & b' & r' & ref & Heq & Hl & _ & Href & Hread & Hwb).
  rewrite Hb in Heq. apply app_inj_1 in Heq as [<- [= <- <-]]; [|done].
  rewrite Href, bind_Ok, Hread, bind_Ok.
  rewrite (decode_all_opened tier hp _ _ _ _ (proj1 Hwb) : decode_all (ib_opened tier hp b) = _), bind_Ok.
  pose proof (indexes_wf _ _ _ _ _ Hidx) as (_ & Hsort & _). rewrite Hb in Hsort. unfold index_entries in Hsort.
  rewrite map_app, concat_app in Hsort. cbn [map concat] in Hsort.
  apply StronglySorted_app in Hsort as (_ & _ & Hsort). apply StronglySorted_app in Hsort as (Hbr & Hsb & Hsr).
  pose proof (scan_entries_spec p b (ib_entries b) out Hsb) as Hscan. cbv zeta in Hscan.
  destruct (scan_entries _ _ _ _) as [out' stop]. destruct Hscan as [-> Hstop].
  unfold index_hits. cbn [map concat]. fold (index_hits tier hp r). fold (block_hits tier hp b).
  rewrite with_prefix_app. destruct stop.
  - destruct (Hstop eq_refl) as (e & He & Hle & Hp).
    rewrite (with_prefix_after p (term e) (index_hits tier hp r)); [by rewrite app_nil_r|done|done|].
    apply Forall_forall. intros h Hh. unfold index_hits in Hh. apply list_elem_of_In, in_concat in Hh as (hs & Hhs & Hin).
    apply in_map_iff in Hhs as (c & <- & Hc). apply in_map_iff in Hin as (f & <- & Hf). cbn [hit_of hit_term].
    apply (Hbr e f He). apply list_elem_of_In, in_concat. exists (ib_entries c). split; [by apply in_map|done].
  - specialize (IH (l ++ [b]) (out ++ with_prefix p (block_hits tier hp b))).
    rewrite length_app in IH. cbn [length] in IH.
    replace (Z.succ (zlen l)) with (Z.of_nat (length l + 1)) by lia.
    replace (Z.pred (Z.of_nat (S (length r)))) with (zlen r) by lia.
    rewrite IH by by rewrite <- app_assoc. by rewrite <- app_assoc.
Qed.

(** The blocks before the one [locate] names hold nothing with the prefix. *)
Lemma with_prefix_before p l b r :
  wf_dictionary tier hp (l ++ b :: r) → term_le (first_term (ib_entries b)) p →
  with_prefix p (index_hits tier hp l) = [].
Proof.
  intros (Hwf & Hs & _) Hle. apply with_prefix_none, Forall_forall. intros h Hh.
  destruct (has_prefix p (hit_term h)) eqn:Hp; [|done]. apply has_prefix_ge in Hp. exfalso.
  unfold index_entries in Hs. rewrite map_app, concat_app in Hs.
  apply StronglySorted_app in Hs as (Hlb & _ & _). apply Forall_app in Hwf as [_ Hwf].
  apply Forall_cons in Hwf as [[_ Hne] _]. destruct (ib_entries b) as [|f s] eqn:Hb; [done|].
  unfold index_hits in Hh. apply list_elem_of_In, in_concat in Hh as (hs & Hhs & Hin).
  apply in_map_iff in Hhs as (c & <- & Hc). apply in_map_iff in Hin as (e & <- & He). cbn [hit_of hit_term] in Hp.
  assert (entry_lt e f) as Hef.
  { apply Hlb; [apply list_elem_of_In, in_concat; exists (ib_entries c); split; [by apply in_map|done]|].
    cbn [map concat]. rewrite Hb. by left. }
  apply (irreflexivity term_lt p). apply (term_le_lt_trans _ (term e)); [done|].
  by apply (term_lt_le_trans _ (term f)).
Qed.

Lemma prefix_terms_indexes file idx blocks p :
  indexes tier hp file idx blocks →
  prefix_terms idx p = Ok (with_prefix p (index_hits tier hp blocks)).
Proof.
  intros Hidx. pose proof (indexes_wf _ _ _ _ _ Hidx) as Hwf. pose proof Hwf as (Hwfb & Hs & Hn).
  pose proof (Forall2_length _ _ _ (indexes_dbd _ _ _ _ _ Hidx)) as Hlen.
  unfold prefix_terms, n_blocks. rewrite <- Hlen, u32_small by done.
  assert (prefix_loop idx p (seqZ 0 (zlen blocks - 0)) [] = Ok (with_prefix p (index_hits tier hp blocks))) as Hall.
  { rewrite Z.sub_0_r. exact (prefix_loop_spec file idx blocks [] blocks p [] Hidx eq_refl). }
  destruct p as [|a p]; [exact Hall|]. rewrite (indexes_sti _ _ _ _ _ Hidx).
  pose proof (wf_dictionary_first blocks Hwf) as [Hsort Hu].
  pose proof (locate_spec (first_terms blocks) (a :: p) Hsort Hu) as Hloc.
  destruct (locate (first_terms blocks) (a :: p)) as [i|]; [|exact Hall].
  destruct Hloc as (Hi & (s & Hsi & Hle) & _).
  destruct (index_split idx file blocks _ s Hidx Hsi) as (l & b & r & ref & Hb & Hl & -> & _).
  assert (i = zlen l) as -> by lia.
  replace (zlen blocks - zlen l) with (zlen (b :: r)) by (rewrite Hb, length_app; lia).
  rewrite (prefix_loop_spec file idx blocks l (b :: r)) by done. cbn [app]. f_equal.
  rewrite Hb. unfold index_hits. rewrite map_app, concat_app, with_prefix_app.
  fold (index_hits tier hp l). rewrite Hb in Hwf. by rewrite (with_prefix_before (a :: p) l b r).
Qed.
End Reading.

(** ** Opening *)

Section Open.
Context `{ZstdOps} `{BsbfEnvLaws} (tier : IndexTier) (hp : bool).

(** The filter section of an index: absent, or a serialized builder that holds
    the hash of every term, wherever it lies in the file. *)
Inductive filter_at (file : bytes) (ref : RegionRef) (terms : list bytes) : Prop :=
  | filter_absent : length_ ref = 0 → filter_at file ref terms
  | filter_section b hs pre post :
      represents b hs → (∀ t, t ∈ terms → bsbf_hash t ∈ hs) →
      file = pre ++ (header_bytes b ++ words_bytes (words_ b)) ++ post →
      PerIndexMeta.offset ref = zlen pre → length_ ref = 28 + num_bytes_ b →
      zlen pre + 28 + kBsbfMaxBytes ≤ 2 ^ 64 →
      filter_at file ref terms.

(** The fields [open_bsbf] leaves answer for the filter. *)
Definition admits (idx : LogicalIndexReader) (terms : list bytes) : Prop :=
  ∀ t, ∃ b, maybe_present idx t = Ok b ∧ (t ∈ terms → b = true).

Lemma open_filter env file r ref terms :
  serves file r → filter_at file ref terms →
  ∃ header has_bsbf resident bitset,
    open_bsbf env r ref = Ok (header, has_bsbf, resident, bitset) ∧
    ∀ meta sti dbd, admits (mkLogicalIndexReader r tier hp meta sti dbd header has_bsbf resident bitset) terms.
Proof.
  intros Hs [Habs|b hs pre post Hb Hall Hfile Hoff Hlen Hfit]; unfold open_bsbf.
  { rewrite Habs. cbn [Z.ltb Z.compare]. do 4 eexists. split; [done|]. intros meta sti dbd t. exists true. by split. }
  pose proof Hb as [Hwf _]. pose proof Hwf as (Hnb & Hbytes & Hl & _).
  rewrite (proj2 (Z.ltb_lt _ _)), Hoff, Hlen by lia. unfold kBsbfHeaderSize.
  rewrite bind_reject_false by (apply Z.leb_gt; lia).
  replace (28 + num_bytes_ b - 28) with (num_bytes_ b) by lia.
  set (resident := _ <=? bsbf_resident_max_bytes env).
  pose proof (filter_header_length b) as Hhl.
  assert (∀ t, ∃ m, Ok (bool_decide (all_bits_set (num_blocks_ b) hs (bsbf_hash t))) = Ok m ∧ (t ∈ terms → m = true))
    as Hanswer.
  { intros t. eexists. split; [done|]. intros Ht. by apply bool_decide_true, all_bits_set_elem, Hall. }
  assert (zlen (words_bytes (words_ b)) = num_bytes_ b) as Hwl by (rewrite words_bytes_length; lia).
  assert (read_at r (zlen pre) (if resident then 28 + num_bytes_ b else 28) =
    Ok (header_bytes b ++ if resident then words_bytes (words_ b) else [])) as ->.
  { destruct resident.
    - rewrite (serves_read_at _ _ Hs) by (rewrite Hfile; apply in_file_mid; rewrite ?length_app; lia).
      rewrite Hfile. by rewrite window_mid by (rewrite ?length_app; lia).
    - rewrite app_nil_r. rewrite <- app_assoc in Hfile.
      rewrite (serves_read_at _ _ Hs) by (rewrite Hfile; apply in_file_mid; lia).
      rewrite Hfile. by rewrite window_mid by lia. }
  rewrite bind_Ok. rewrite bind_reject_false by (apply Z.ltb_ge; rewrite length_app; lia).
  rewrite subslice_app_l, bind_Ok by lia. rewrite parse_header_bytes, bind_Ok by done.
  change (mkBsbfHeader _ _ _ _) with (header_of b (zlen pre)).
  rewrite bind_reject_false by by rewrite Z.eqb_refl.
  destruct resident.
  - rewrite bind_reject_false by (apply Z.ltb_ge; rewrite length_app; lia).
    rewrite subslice_app_r, bind_Ok by (cbn [Bsbf.num_bytes header_of]; lia).
    rewrite bind_reject_false by by rewrite Z.eqb_refl.
    do 4 eexists. split; [done|]. intros meta sti dbd t. unfold maybe_present. cbn [has_bsbf_ bsbf_resident_
      bsbf_header_ bsbf_resident_bitset_ Bsbf.num_blocks header_of].
    destruct (bitset_block b (bsbf_hash t) Hwf (XXH64_u64 _ _)) as (b1 & b2 & Hcut & Hb1 & Hsize).
    set (w := words_bytes (block_at _ _)) in *.
    assert (subslice (words_bytes (words_ b)) (bsbf_block_index (bsbf_hash t) (num_blocks_ b) * kBsbfBytesPerBlock)
      kBsbfBytesPerBlock = Ok w) as ->.
    { unfold kBsbfBytesPerBlock. rewrite <- Hb1, Hcut. replace 32 with (zlen w). apply subslice_mid. }
    rewrite bind_Ok. subst w. rewrite (block_bytes_represents b hs) by (done || apply XXH64_u64). apply Hanswer.
  - do 4 eexists. split; [done|]. intros meta sti dbd t. unfold maybe_present. cbn [has_bsbf_ bsbf_resident_ reader_
      bsbf_header_]. rewrite Hfile in Hs.
    rewrite (probe_represents b hs _ pre post r) by (done || apply XXH64_u64). apply Hanswer.
Qed.

(** The metadata of an index, with its blocks and the references to them. *)
Record IndexImage := mkIndexImage {
  im_index_id : Z;
  im_index_suffix : bytes;
  im_flags : Z;
  im_stats : StatsBlock;
  im_refs : SectionRefs;
  im_blocks : list IndexBlock;
  im_block_refs : list BlockRef
}.

Definition wf_image (file : bytes) (im : IndexImage) : Prop :=
  wf_header (im_index_id im) (im_index_suffix im) (im_flags im) ∧ wf_stats_block (im_stats im) ∧
  wf_refs (im_refs im) ∧ wf_dictionary tier hp (im_blocks im) ∧
  Forall2 (block_at_ref tier hp file) (im_blocks im) (im_block_refs im) ∧
  Forall wf_block_ref (im_block_refs im) ∧
  is_u64 (zlen (payload_bytes (first_terms (im_blocks im)))) ∧
  is_u64 (zlen (directory_payload (im_block_refs im))) ∧
  filter_at file (bsbf (im_refs im)) (index_terms (im_blocks im)).

(** The meta block of the image, as the writer's builders produce it. *)
Definition image_meta (im : IndexImage) : bytes :=
  PerIndexMeta.finish
    (new_builder (im_index_id im) (im_index_suffix im) (im_flags im) |> set_stats (im_stats im)
       |> set_sampled_term_index (SampledTermIndex.finish (first_terms (im_blocks im)) [])
       |> set_dict_block_directory (DictBlockDirectory.finish (im_block_refs im) [])
       |> set_section_refs (im_refs im)) [].

Lemma first_terms_wf blocks : wf_dictionary tier hp blocks → Forall wf_term (first_terms blocks).
Proof.
  intros (Hwf & _). apply Forall_fmap. eapply Forall_impl; [exact Hwf|]. intros b [(_ & _ & _ & Hes & _) Hne].
  change (wf_term (first_term (ib_entries b))).
  destruct (ib_entries b) as [|e es]; [done|]. apply Forall_cons in Hes as [[Ht _] _]. exact Ht.
Qed.

(** The meta reader that opens the block. *)
Definition image_reader (im : IndexImage) : PerIndexMetaReader :=
  mkPerIndexMetaReader (im_index_id im) (im_index_suffix im) (im_flags im) (im_stats im) (im_refs im)
    (section_bytes (section_type_u8 kSampledTermIndex) (payload_bytes (first_terms (im_blocks im))))
    (directory_bytes (im_block_refs im)).

Lemma open_image_meta file im : wf_image file im → PerIndexMeta.open (image_meta im) = Ok (image_reader im).
Proof.
  intros (Hh & Hsb & Hr & Hd & Hrefs & Hwr & Hp1 & Hp2 & _). pose proof (first_terms_wf _ Hd) as Hwt.
  unfold image_meta. rewrite sti_finish_app, dbd_finish_app. unfold directory_bytes. cbn [app].
  pose proof (open_meta_finish (im_index_id im) (im_index_suffix im) (im_flags im) (im_stats im)
    (payload_bytes (first_terms (im_blocks im))) (directory_payload (im_block_refs im)) (im_refs im) []
    Hh Hsb Hr) as Hm. cbv zeta in Hm. cbn [fold_left] in Hm.
  unfold frame_of, sampled_frame, dict_frame in Hm. cbn [fst snd] in Hm. rewrite Hm; [done|..|done|done].
  - split_and!; [by vm_compute|by apply payload_bytes_is_bytes|done].
  - split_and!; [by vm_compute|by apply dbd_directory_payload_bytes|done].
Qed.

Lemma open_image env file r im :
  serves file r → wf_image file im →
  ∃ idx, open env r tier hp (image_meta im) = Ok idx ∧ indexes tier hp file idx (im_blocks im) ∧
    section_refs idx = im_refs im ∧ stats idx = im_stats im.
Proof.
  intros Hs Him. pose proof Him as (Hh & Hsb & Hr & Hd & Hrefs & Hwr & Hp1 & Hp2 & Hf).
  destruct (wf_dictionary_first tier hp _ Hd) as [Hsort Hu]. pose proof (first_terms_wf _ Hd) as Hwt.
  destruct (open_filter env file r _ _ Hs Hf) as (header & has & res & bitset & Ho & Hadm).
  pose proof (Forall2_length _ _ _ Hrefs) as Hlen.
  assert (is_u32 (zlen (im_block_refs im))) as Hur by (rewrite <- Hlen; apply Hd).
  pose proof (sti_open_finish _ Hwt Hu Hp1) as Hsti. rewrite sti_finish_app in Hsti. cbn [app] in Hsti.
  unfold open. rewrite (open_image_meta file im Him), bind_Ok.
  cbn [sampled_term_index_ dict_block_directory_ section_refs_ image_reader].
  rewrite Hsti, bind_Ok, (dbd_open_directory _ Hwr Hur Hp2), bind_Ok, Ho, bind_Ok. cbv beta iota.
  eexists. split; [done|]. split; [|done]. split; try done. intros t. apply Hadm.
Qed.
End Open.

(** ** Safety *)

(** A reader every read of which ends, with fewer than 2^64 bytes. *)
Definition sane_reader (r : FileReader) : Prop :=
  ∀ off n, match read_at r off n with Ok bs => is_bytes bs ∧ zlen bs < 2 ^ 64 | Err _ => True | Undef => False end.

Lemma bsbf_block_contains_defined `{BsbfEnv} hash blk : 32 ≤ zlen blk → defined (bsbf_block_contains hash blk).
Proof.
  intros Hlen. unfold bsbf_block_contains, block_contains_avx2, block_contains_scalar.
  destruct cpu_has_avx2; [by rewrite (proj2 (Nat.ltb_ge _ _)) by lia|].
  assert (∀ m i, (i + length m ≤ 8)%nat → defined (contains_loop (λ i, load_le32 blk (4 * i)) i m)) as Hl; [|by apply Hl].
  induction m as [|w m IH]; intros i Hi; cbn [contains_loop length] in *; [done|].
  apply defined_bind; [|intros; destruct (negb _); [done|apply IH; lia]].
  unfold load_le32. assert (4 ≤ length (drop (4 * i) blk))%nat as H4 by (rewrite length_drop; lia).
  by destruct (drop (4 * i) blk) as [|? [|? [|? [|? ?]]]]; cbn in H4; try lia.
Qed.

Lemma parse_defined h base : defined (parse h base).
Proof.
  unfold parse. destruct (Z.ltb_spec (zlen h) kBsbfHeaderSize) as [|Hlen]; [done|]. unfold kBsbfHeaderSize in Hlen.
  assert (∀ off, (off + 4 ≤ 28)%nat → defined (load_le32 h off)) as Hl.
  { intros off Ho. unfold load_le32. assert (4 ≤ length (drop off h))%nat as H4 by (rewrite length_drop; lia).
    by destruct (drop off h) as [|? [|? [|? [|? ?]]]]; cbn in H4; try lia. }
  repeat (apply defined_bind; [first [apply defined_reject_if|apply Hl; lia]|]; intros ? ?). done.
Qed.

(** What [open] guarantees of the resident parts, on any bytes. *)
Definition wf_resident (idx : LogicalIndexReader) : Prop :=
  sane_reader (reader_ idx) ∧
  (bsbf_resident_ idx = true →
   1 ≤ Bsbf.num_blocks (bsbf_header_ idx) < 2 ^ 32 ∧
   zlen (bsbf_resident_bitset_ idx) = 32 * Bsbf.num_blocks (bsbf_header_ idx)).

Lemma open_bsbf_spec env r ref :
  sane_reader r →
  match open_bsbf env r ref with
  | Ok (header, _, resident, bitset) =>
      resident = true → 1 ≤ Bsbf.num_blocks header < 2 ^ 32 ∧ zlen bitset = 32 * Bsbf.num_blocks header
  | Err _ => True
  | Undef => False
  end.
Proof.
  intros Hs. unfold open_bsbf, kBsbfHeaderSize. destruct (0 <? length_ ref); [|done]. rewrite bind_reject.
  destruct (length_ ref <=? 28); [done|]. set (resident := _ <=? bsbf_resident_max_bytes env).
  pose proof (Hs (PerIndexMeta.offset ref) (if resident then length_ ref else 28)) as Hr.
  destruct (read_at r _ _) as [head| |]; [rewrite bind_Ok|done|done]. destruct Hr as [Hb _]. rewrite bind_reject.
  destruct (Z.ltb_spec (zlen head) 28) as [|Hlen]; [done|]. rewrite subslice_ok, bind_Ok by lia.
  set (h := take _ _). assert (is_bytes h) as Hh by (by apply Forall_take, Forall_drop).
  pose proof (parse_defined h (PerIndexMeta.offset ref)) as Hd.
  destruct (parse h _) as [hd| |] eqn:Hp; [rewrite bind_Ok|done|done]. apply (parse_bounds _ _ _ Hh) in Hp as [Hnb _].
  destruct Hnb as (k & Hk & Hpow & Hmul). destruct (pow2_blocks k Hk) as [Hp2 Hrange].
  rewrite bind_reject. destruct (Z.eqb_spec (Bsbf.num_bytes hd) (length_ ref - 28)) as [Heq|]; [|done]. cbn [negb].
  destruct resident; [|done]. rewrite bind_reject. destruct (Z.ltb_spec (zlen head) (length_ ref)); [done|].
  rewrite subslice_ok, bind_Ok by lia. rewrite bind_reject. destruct (negb _); [done|]. intros _.
  change (2 ^ 22) with 4194304 in Hrange. split; [lia|]. rewrite length_take, length_drop. lia.
Qed.

Lemma maybe_present_defined `{BsbfEnvLaws} idx t : wf_resident idx → defined (maybe_present idx t).
Proof.
  intros [Hs Hres]. unfold maybe_present. destruct (has_bsbf_ idx); [|done].
  destruct (bsbf_resident_ idx).
  - destruct (Hres eq_refl) as [Hnb Hlen].
    pose proof (bsbf_block_index_range (bsbf_hash t) _ (XXH64_u64 t 0) Hnb) as Hblk.
    unfold kBsbfBytesPerBlock. rewrite subslice_ok, bind_Ok by lia. apply bsbf_block_contains_defined.
    rewrite length_take, length_drop. lia.
  - unfold bsbf_probe. pose proof (Hs (block_offset (bsbf_header_ idx) (bsbf_hash t)) kBsbfBytesPerBlock) as Hr.
    destruct (read_at _ _ _) as [blk| |]; [rewrite bind_Ok|done|done]. rewrite bind_reject.
    unfold kBsbfBytesPerBlock. destruct (Z.ltb_spec (zlen blk) 32); [done|]. by apply bsbf_block_contains_defined.
Qed.

Lemma read_block_spec `{ZstdOps} idx ref :
  wf_resident idx →
  match read_block idx ref with Ok br => wf_reader br | Err _ => True | Undef => False end.
Proof.
  intros [Hs _]. unfold read_block.
  pose proof (Hs (DictBlockDirectory.offset ref) (DictBlockDirectory.length_ ref)) as Hr.
  destruct (read_at _ _ _) as [bs| |]; [rewrite bind_Ok|done|done]. destruct Hr as [_ Hr].
  destruct (negb _); [|rewrite bind_Ok; by apply open_spec]. rewrite bind_reject.
  destruct (_ || _) eqn:Hcap; [done|]. apply orb_false_iff in Hcap as [_ Hcap]. apply Z.ltb_ge in Hcap.
  pose proof (zstd_decompress_defined bs (uncomp_len ref)) as Hd.
  destruct (zstd_decompress bs (uncomp_len ref)) as [out| |] eqn:Hz; [rewrite bind_Ok|done|done].
  apply zstd_decompress_length in Hz. apply open_spec. unfold kMaxDictBlockUncompBytes in Hcap. lia.
Qed.

Lemma get_defined refs i : 0 ≤ i → defined (get refs i).
Proof.
  intros Hi. unfold get. destruct (Z.leb_spec (zlen refs) i); [done|].
  by destruct (lookup_lt_is_Some_2 refs (Z.to_nat i)) as [r ->]; [lia|].
Qed.

Lemma lookup_defined `{ZstdOps} `{BsbfEnvLaws} idx t : wf_resident idx → defined (lookup idx t).
Proof.
  intros Hr. unfold lookup. apply defined_bind; [by apply maybe_present_defined|]. intros maybe _.
  destruct (negb maybe); [done|]. unfold locate. destruct (sti_ idx) as [|front terms]; [done|].
  destruct (term_ltb t front); [done|]. apply defined_bind; [apply get_defined; apply u32_range|]. intros ref _.
  pose proof (read_block_spec idx ref Hr) as Hb. destruct (read_block idx ref) as [br| |]; [rewrite bind_Ok|done|done].
  apply defined_bind; [by apply find_term_defined|done].
Qed.

Lemma prefix_terms_defined `{ZstdOps} idx p : wf_resident idx → defined (prefix_terms idx p).
Proof.
  intros Hr. unfold prefix_terms. set (start := match p with [] => 0 | _ => _ end).
  assert (0 ≤ start) as Hst.
  { subst start. destruct p; [done|]. unfold locate. destruct (sti_ idx) as [|front terms]; [done|].
    destruct (term_ltb _ front); [done|]. apply u32_range. }
  set (n := n_blocks _ - start). generalize (@nil PrefixHit).
  assert (Forall (λ i, 0 ≤ i) (seqZ start n)) as Hord.
  { apply Forall_forall. intros i Hi%elem_of_seqZ. lia. }
  induction Hord as [|i ords Hi Hords IH]; intros out; cbn [prefix_loop]; [done|].
  apply defined_bind; [by apply get_defined|]. intros ref _.
  pose proof (read_block_spec idx ref Hr) as Hb. destruct (read_block idx ref) as [br| |]; [rewrite bind_Ok|done|done].
  apply defined_bind; [by apply decode_all_defined|]. intros entries _.
  destruct (scan_entries _ _ _ _) as [out' stop]. by destruct stop.
Qed.

Lemma open_index_spec `{BsbfEnv} env r tier hp meta :
  sane_reader r →
  match open env r tier hp meta with Ok idx => wf_resident idx | Err _ => True | Undef => False end.
Proof.
  intros Hs. unfold open. pose proof (open_meta_defined meta) as Hm.
  destruct (PerIndexMeta.open meta) as [m| |]; [rewrite bind_Ok|done|done].
  pose proof (proj1 (sti_open_spec (sampled_term_index_ m))) as Ht.
  destruct (SampledTermIndex.open _) as [sti| |]; [rewrite bind_Ok|done|done].
  pose proof (proj1 (dbd_open_spec (dict_block_directory_ m))) as Hd.
  destruct (DictBlockDirectory.open _) as [dbd| |]; [rewrite bind_Ok|done|done].
  pose proof (open_bsbf_spec env r (bsbf (section_refs_ m)) Hs) as Hb.
  destruct (open_bsbf _ _ _) as [[[[header has] res] bitset]| |]; [rewrite bind_Ok|done|done]. by split.
Qed.

(** ** Properties *)

(** C11: an index opened over a file that holds its blocks, raw or compressed, and
    its filter, resident or probed in place, finds for every term exactly the
    entry written for it, with the bases of its block, and nothing for a term
    that was not written. *)
Theorem logical_index_lookup_exact `{ZstdOps} `{BsbfEnvLaws} env file r tier hp im :
  serves file r → wf_image tier hp file im →
  ∃ idx, open env r tier hp (image_meta im) = Ok idx ∧
    ∀ t, lookup idx t = Ok (find_hit t (index_hits tier hp (im_blocks im))).
Proof.
  intros Hs Him. destruct (open_image tier hp env file r im Hs Him) as (idx & Ho & Hidx & _).
  exists idx. split; [done|]. intros t. by apply (lookup_indexes tier hp file).
Qed.

(** C24: enumerating a prefix returns exactly the terms that have it, in order and
    across block boundaries, with their entries; the empty prefix returns all. *)
Theorem logical_index_prefix_exact `{ZstdOps} `{BsbfEnvLaws} env file r tier hp im :
  serves file r → wf_image tier hp file im →
  ∃ idx, open env r tier hp (image_meta im) = Ok idx ∧
    ∀ p, prefix_terms idx p = Ok (with_prefix p (index_hits tier hp (im_blocks im))).
Proof.
  intros Hs Him. destruct (open_image tier hp env file r im Hs Him) as (idx & Ho & Hidx & _).
  exists idx. split; [done|]. intros p. by apply (prefix_terms_indexes tier hp file).
Qed.

(** C25: whatever the metadata and the file contain, opening an index ends with a
    reader or a [Status], and on that reader every lookup and every enumeration
    ends without an access outside a buffer. *)
Theorem logical_index_safe `{ZstdOps} `{BsbfEnvLaws} env r tier hp meta :
  sane_reader r →
  match open env r tier hp meta with
  | Ok idx => (∀ t, defined (lookup idx t)) ∧ (∀ p, defined (prefix_terms idx p))
  | Err _ => True
  | Undef => False
  end.
Proof.
  intros Hs. pose proof (open_index_spec env r tier hp meta Hs) as Ho.
  destruct (open _ _ _ _ _) as [idx| |]; [|done|done]. split; intros;
    [by apply lookup_defined|by apply prefix_terms_defined].
Qed.

(** C38: a locator is resolved exactly when its window lies in the posting region,
    with a prelude no longer than the window; the range returned is the window
    behind its prelude, inside the region. Every other locator is an error,
    those whose sum overflows 64 bits included. *)
Theorem resolve_window_exact section base off_delta total_len prelude_len :
  is_u64 base → is_u64 off_delta → is_u64 total_len → is_u64 prelude_len → is_u64 (length_ section) →
  0 ≤ PerIndexMeta.offset section → PerIndexMeta.offset section + length_ section < 2 ^ 64 →
  if bool_decide (prelude_len ≤ total_len ∧ base + off_delta + total_len ≤ length_ section) then
    resolve_window section base off_delta total_len prelude_len =
      Ok (PerIndexMeta.offset section + base + off_delta + prelude_len, total_len - prelude_len)
  else ∃ m, resolve_window section base off_delta total_len prelude_len = Err (Corruption m).
Proof.
  intros Hb Hd Ht Hp Hl Ho Hsec. unfold resolve_window. case_bool_decide as Hc.
  - destruct Hc as [Hpt Hfit]. rewrite bind_reject_false by (apply Z.ltb_ge; lia).
    rewrite (u64_small (base + off_delta)) by ulia. rewrite bind_reject_false by (apply Z.ltb_ge; ulia).
    rewrite bind_reject_false by (apply orb_false_iff; split; apply Z.ltb_ge; ulia).
    rewrite (u64_small (_ + (base + off_delta))) by ulia. rewrite u64_small by ulia. f_equal. f_equal. lia.
  - rewrite bind_reject. destruct (Z.ltb_spec total_len prelude_len); [eauto|]. rewrite bind_reject.
    destruct (Z.ltb_spec (u64 (base + off_delta)) base) as [|Hno]; [eauto|]. rewrite bind_reject.
    destruct (_ || _) eqn:Hr; [eauto|]. exfalso. apply orb_false_iff in Hr as [Hr1 Hr2].
    apply Z.ltb_ge in Hr1, Hr2. apply Hc. split; [lia|].
    destruct (Z.lt_ge_cases (base + off_delta) (2 ^ 64)) as [Hlt|Hge].
    + rewrite u64_small in Hr1, Hr2 by ulia. lia.
    + unfold u64 in Hno, Hr1, Hr2. change (2 ^ 64) with 18446744073709551616 in *. unfold is_u64 in *.
      change (2 ^ 64) with 18446744073709551616 in *.
      rewrite (Z.mod_eq (base + off_delta)) in Hno by lia.
      assert ((base + off_delta) / 18446744073709551616 = 1) as Hq by dlia.
      lia.
Qed.

(** ** Witnesses *)

Definition sample_blocks : list IndexBlock :=
  [mkIndexBlock 0 0 2 (take 3 sample_entries); mkIndexBlock 70 90 16 (drop 3 sample_entries)].
Definition sample_block_bytes (i : nat) : bytes :=
  match sample_blocks !! i with Some b => ib_bytes kT2 true b | None => [] end.

Definition sample_hashes : list Z := map (bsbf_hash (H := LaneEnv.env)) (index_terms sample_blocks).
Definition sample_filter : BsbfBuilder :=
  match (b ← create (H := LaneEnv.env) 5 true; insert_all (H := LaneEnv.env) sample_hashes b) with
  | Ok b => b
  | _ => no_builder
  end.

Definition sample_prefix : bytes := [83; 78] ++ sample_block_bytes 0 ++ 253 :: sample_block_bytes 1.
Definition sample_index_file : bytes :=
  sample_prefix ++ (header_bytes sample_filter ++ words_bytes (words_ sample_filter)) ++ [9; 9].

Definition sample_image : IndexImage :=
  let n0 := zlen (sample_block_bytes 0) in
  let n1 := zlen (sample_block_bytes 1) in
  mkIndexImage 7 [105; 100] 3 (mkStatsBlock 10 10 5 20 0)
    (mkSectionRefs (mkRegionRef 2 (n0 + n1 + 1)) no_region no_region no_region
       (mkRegionRef (zlen sample_prefix) (28 + num_bytes_ sample_filter)))
    sample_blocks
    [mkBlockRef 2 n0 3 0 0 0; mkBlockRef (2 + n0) (n1 + 1) 2 1 0 n1].

Lemma sample_filter_represents : represents sample_filter sample_hashes.
Proof.
  destruct (create_represents (H := LaneEnv.env) 5 true eq_refl) as (b0 & Hc & Hb0); [ulia|].
  destruct (insert_all_represents (H := LaneEnv.env) sample_hashes b0 [] Hb0) as (b & Hi & Hb).
  { apply Forall_fmap, Forall_true. intros t. apply (XXH64_u64 (H := LaneEnv.env)). }
  unfold sample_filter. rewrite Hc, bind_Ok, Hi. exact Hb.
Qed.

Lemma sample_dictionary_wf : wf_dictionary kT2 true sample_blocks.
Proof.
  split; [|split; [exact sample_entries_sorted|by vm_compute]].
  assert (Forall (wf_entry kT2) sample_entries) as Hes by apply sample_entries_wf.
  repeat apply Forall_cons_2; [..|constructor]; (split; [|done]); (split; [cbn; lia|]); (split; [by vm_compute|]);
    (split; [by vm_compute|]); (split; [first [by apply Forall_take|by apply Forall_drop]|by vm_compute]).
Qed.

Lemma sample_image_wf :
  wf_image (H := StoredZstd.ops) (H0 := LaneEnv.env) kT2 true sample_index_file sample_image.
Proof.
  unfold wf_image. split; [split; [by vm_compute|]; split; [cbn; auto with snii|by vm_compute]|].
  split; [by vm_compute|]. split; [by vm_compute|]. split; [exact sample_dictionary_wf|].
  split; [|split; [|split; [|split]]].
  - repeat apply Forall2_cons_2; [..|constructor]; (split; [by vm_compute|]); by vm_compute.
  - repeat apply Forall_cons_2; [..|constructor]; by vm_compute.
  - by vm_compute.
  - by vm_compute.
  - apply (filter_section (H0 := LaneEnv.env) sample_index_file _ _ sample_filter sample_hashes sample_prefix [9; 9]).
    + exact sample_filter_represents.
    + intros t Ht. by apply list_elem_of_fmap_2.
    + done.
    + done.
    + done.
    + by vm_compute.
Qed.

Lemma logical_index_lookup_exact_witness :
  (∃ idx, open None (memory_file sample_index_file) kT2 true (image_meta sample_image) = Ok idx ∧
    ∀ t, lookup (H := StoredZstd.ops) (H0 := LaneEnv.env) idx t = Ok (find_hit t (index_hits kT2 true sample_blocks))) ∧
  find_hit [98; 97] (index_hits kT2 true sample_blocks) =
    Some (mkPrefixHit [98; 97] (sample_inline [98; 97]) 70 90).
Proof.
  split; [|by vm_compute].
  apply (logical_index_lookup_exact (H := StoredZstd.ops) (H0 := LaneEnv.env) None sample_index_file);
    [apply memory_file_serves|exact sample_image_wf].
Defined.

Lemma logical_index_prefix_exact_witness :
  (∃ idx, open (Some [48]) (memory_file sample_index_file) kT2 true (image_meta sample_image) = Ok idx ∧
    ∀ p, prefix_terms (H := StoredZstd.ops) idx p = Ok (with_prefix p (index_hits kT2 true sample_blocks))) ∧
  map hit_term (with_prefix [97] (index_hits kT2 true sample_blocks)) = [[97]; [97; 98]; [97; 99; 100]].
Proof.
  split; [|by vm_compute].
  apply (logical_index_prefix_exact (H := StoredZstd.ops) (H0 := LaneEnv.env) (Some [48]) sample_index_file);
    [apply memory_file_serves|exact sample_image_wf].
Defined.

Lemma logical_index_safe_witness :
  match open None (memory_file [1; 2; 3]) kT2 true (image_meta sample_image) with
  | Ok idx => (∀ t, defined (lookup (H := StoredZstd.ops) (H0 := LaneEnv.env) idx t)) ∧
              (∀ p, defined (prefix_terms (H := StoredZstd.ops) idx p))
  | Err _ => True
  | Undef => False
  end.
Proof.
  apply (logical_index_safe (H := StoredZstd.ops) (H0 := LaneEnv.env) None (memory_file [1; 2; 3])).
  intros off n. cbn. unfold memory_read_at. destruct (bool_decide _); [|done]. unfold FileIO.window. split.
  - apply Forall_take, Forall_drop. auto with snii.
  - rewrite length_take, length_drop. cbn [length]. lia.
Defined.

Lemma resolve_window_exact_witness :
  resolve_window (mkRegionRef 100 50) 10 20 15 5 = Ok (135, 10) ∧
  ∃ m, resolve_window (mkRegionRef 100 50) 10 (2 ^ 64 - 5) 15 5 = Err (Corruption m).
Proof.
  split; [exact (resolve_window_exact (mkRegionRef 100 50) 10 20 15 5 ltac:(ulia) ltac:(ulia) ltac:(ulia)
    ltac:(ulia) ltac:(cbn; ulia) ltac:(cbn; lia) ltac:(cbn; lia))|].
  exact (resolve_window_exact (mkRegionRef 100 50) 10 (2 ^ 64 - 5) 15 5 ltac:(ulia) ltac:(ulia) ltac:(ulia)
    ltac:(ulia) ltac:(cbn; ulia) ltac:(cbn; lia) ltac:(cbn; lia)).
Defined.
