(* ===== verification/WindowedPosting.v ===== *)
(** * WindowedPosting: reading the grouped payload of a windowed entry.

    [reader/windowed_posting.h] and [reader/windowed_posting.cpp]. The .frq span
    of a windowed entry is [prelude][dd-block][freq-block]; every offset below is
    a [uint64_t] sum with its wrap-around. An output that a branch leaves alone
    keeps its initial value: empty vectors, or the zero range. *)

From S2P Require Import Prelude Status ByteIO FormatConstants Zstd FrqPod FrqPrelude PrxPod DictEntry PerIndexMeta.
From S2P Require Import FileIO BatchRangeFetcher LogicalIndexReader.

#[local] Open Scope Z_scope.

(** How far apart the sub-ranges of one term may lie and be one read. *)
Definition kSameTermCoalesceGap : Z := 16 * 1024.

Record DecodedPosting := mkDecodedPosting {
  docids : list Z;
  freqs : list Z;
  positions : list (list Z)
}.
Definition no_posting : DecodedPosting := mkDecodedPosting [] [] [].

Record WindowAbsRange := mkWindowAbsRange {
  wr_dd_off : Z; wr_dd_len : Z; wr_freq_off : Z; wr_freq_len : Z; wr_prx_off : Z; wr_prx_len : Z
}.

(** The absolute start of the posting region, and of the prelude in it. *)
Definition posting_offset (idx : LogicalIndexReader) : Z :=
  PerIndexMeta.offset (posting_region (section_refs idx)).
Definition PreludeAbs (idx : LogicalIndexReader) (entry : DictEntry) (frq_base : Z) : Z :=
  u64 (u64 (posting_offset idx + frq_base) + frq_off_delta entry).
Definition prx_region_start (idx : LogicalIndexReader) (entry : DictEntry) (prx_base : Z) : Z :=
  u64 (u64 (posting_offset idx + prx_base) + prx_off_delta entry).

Definition InBounds (off len total : Z) : result unit :=
  reject_if ((total <? off) || (total - off <? len)) (Corruption "windowed_posting: range out of section").

Record BlockGeometry := mkBlockGeometry {
  g_dd_block_off : Z;
  g_dd_block_len : Z;
  g_freq_block_off : Z;
  g_freq_block_len : Z;
  g_frq_region_len : Z
}.

Definition ResolveBlocks (idx : LogicalIndexReader) (entry : DictEntry) (frq_base : Z)
    (prelude : FrqPreludeReader) : result BlockGeometry :=
  _ ← reject_if (frq_len entry <? prelude_len entry)
        (Corruption "windowed_posting: prelude_len exceeds frq_len");
  let frq_window_start := u64 (PreludeAbs idx entry frq_base + prelude_len entry) in
  let frq_region_len := frq_len entry - prelude_len entry in
  let dd_block_len := dd_block_len_ prelude in
  let freq_block_len := freq_block_len_ prelude in
  _ ← reject_if ((frq_region_len <? dd_block_len) || (frq_region_len - dd_block_len <? freq_block_len))
        (Corruption "windowed_posting: blocks exceed frq region");
  Ok (mkBlockGeometry frq_window_start dd_block_len (u64 (frq_window_start + dd_block_len)) freq_block_len
        frq_region_len).

Record WindowSlices := mkWindowSlices {
  ws_meta : WindowMeta; ws_dd_region : Slice; ws_freq_region : Slice; ws_prx_window : Slice
}.

(** [dd_region] and [freq_region]. *)
Definition CarveRegionSlices (m : WindowMeta) (dd_block freq_block : Slice) (want_freq : bool)
    : result (Slice * Slice) :=
  _ ← InBounds (dd_off m) (dd_disk_len m) (zlen dd_block);
  dd_region ← subslice dd_block (dd_off m) (dd_disk_len m);
  if negb want_freq then Ok (dd_region, [])
  else
    _ ← InBounds (freq_off m) (freq_disk_len m) (zlen freq_block);
    freq_region ← subslice freq_block (freq_off m) (freq_disk_len m);
    Ok (dd_region, freq_region).

Definition dd_meta_of (m : WindowMeta) : FrqRegionMeta :=
  mkFrqRegionMeta (dd_zstd m) (dd_uncomp_len m) (dd_disk_len m) (crc_dd m) (FrqPrelude.verify_crc m).
Definition freq_meta_of (m : WindowMeta) : FrqRegionMeta :=
  mkFrqRegionMeta (freq_zstd m) (freq_uncomp_len m) (freq_disk_len m) (crc_freq m) (FrqPrelude.verify_crc m).

Section Decode.
Context `{ZstdOps}.

(** [*docids], [*freqs] and [*positions]. *)
Definition decode_window_slices (meta : WindowMeta) (dd_region freq_region prx_window : Slice)
    (want_positions want_freq : bool) : result (list Z * list Z * list (list Z)) :=
  docids ← decode_dd_region dd_region (dd_meta_of meta) (win_base meta);
  _ ← reject_if (negb (zlen docids =? doc_count meta))
        (Corruption "windowed_posting: frq doc_count mismatch");
  freqs ← (if want_freq then decode_freq_region freq_region (freq_meta_of meta) (doc_count meta) else Ok []);
  if negb want_positions then Ok (docids, freqs, [])
  else
    positions ← run_reader read_prx_window prx_window;
    _ ← reject_if (negb (zlen positions =? zlen docids))
          (Corruption "windowed_posting: prx/frq doc-count mismatch");
    Ok (docids, freqs, positions).

Definition AppendWindow (ws : WindowSlices) (want_positions want_freq : bool) (out : DecodedPosting)
    : result DecodedPosting :=
  '(ds, fs, pos) ← decode_window_slices (ws_meta ws) (ws_dd_region ws) (ws_freq_region ws)
                     (ws_prx_window ws) want_positions want_freq;
  Ok (mkDecodedPosting (docids out ++ ds) (freqs out ++ fs)
        (if want_positions then positions out ++ pos else positions out)).

Context `{Sort}.

Definition fetch_windowed_prelude (idx : LogicalIndexReader) (entry : DictEntry) (frq_base : Z)
    : result FrqPreludeReader :=
  _ ← reject_if (prelude_len entry =? 0) (Corruption "windowed_posting: windowed entry has no prelude");
  _ ← reject_if (frq_len entry <? prelude_len entry)
        (Corruption "windowed_posting: prelude_len exceeds frq_len");
  let prelude_abs := PreludeAbs idx entry frq_base in
  let '(h, fetcher) := add prelude_abs (prelude_len entry) (new_fetcher 0) in
  fetcher ← fetch (reader_ idx) fetcher;
  bytes ← get fetcher h;
  FrqPrelude.open bytes.

Definition windowed_window_range (idx : LogicalIndexReader) (entry : DictEntry) (frq_base prx_base : Z)
    (prelude : FrqPreludeReader) (w : Z) (want_positions want_freq : bool) : result WindowAbsRange :=
  g ← ResolveBlocks idx entry frq_base prelude;
  meta ← FrqPrelude.window prelude w;
  _ ← InBounds (dd_off meta) (dd_disk_len meta) (g_dd_block_len g);
  let dd_off := u64 (g_dd_block_off g + dd_off meta) in
  '(freq_off, freq_len) ←
    (if want_freq then
       _ ← InBounds (freq_off meta) (freq_disk_len meta) (g_freq_block_len g);
       Ok (u64 (g_freq_block_off g + freq_off meta), freq_disk_len meta)
     else Ok (0, 0));
  if negb want_positions then Ok (mkWindowAbsRange dd_off (dd_disk_len meta) freq_off freq_len 0 0)
  else
    _ ← reject_if (negb (has_prx_ prelude))
          (Corruption "windowed_posting: positions requested but prelude has none");
    let start := prx_region_start idx entry prx_base in
    _ ← InBounds (prx_off meta) (FrqPrelude.prx_len meta) (DictEntry.prx_len entry);
    Ok (mkWindowAbsRange dd_off (dd_disk_len meta) freq_off freq_len (u64 (start + prx_off meta))
          (FrqPrelude.prx_len meta)).

(** The fetcher, [*dd_h], [*freq_h] and [*prx_h]; a handle that is not assigned
    keeps its 0. *)
Definition FetchBlocks (idx : LogicalIndexReader) (entry : DictEntry) (prx_base : Z) (g : BlockGeometry)
    (want_positions want_freq : bool) (fetcher : BatchRangeFetcher)
    : result (BatchRangeFetcher * nat * nat * nat) :=
  let '(dd_h, fetcher) := add (g_dd_block_off g) (g_dd_block_len g) fetcher in
  let '(freq_h, fetcher) :=
    if want_freq then add (g_freq_block_off g) (g_freq_block_len g) fetcher else (0%nat, fetcher) in
  let '(prx_h, fetcher) :=
    if want_positions then add (prx_region_start idx entry prx_base) (DictEntry.prx_len entry) fetcher
    else (0%nat, fetcher) in
  fetcher ← fetch (reader_ idx) fetcher;
  Ok (fetcher, dd_h, freq_h, prx_h).

(** One round of the loop over the windows. *)
Definition read_one_window (prelude : FrqPreludeReader) (dd_block freq_block prx_region : Slice)
    (want_positions want_freq : bool) (w : Z) (out : DecodedPosting) : result DecodedPosting :=
  meta ← FrqPrelude.window prelude w;
  '(dd_region, freq_region) ← CarveRegionSlices meta dd_block freq_block want_freq;
  prx_window ←
    (if want_positions then
       _ ← InBounds (prx_off meta) (FrqPrelude.prx_len meta) (zlen prx_region);
       subslice prx_region (prx_off meta) (FrqPrelude.prx_len meta)
     else Ok []);
  AppendWindow (mkWindowSlices meta dd_region freq_region prx_window) want_positions want_freq out.

Definition read_windowed_posting (idx : LogicalIndexReader) (entry : DictEntry) (frq_base prx_base : Z)
    (want_positions want_freq : bool) : result DecodedPosting :=
  prelude ← fetch_windowed_prelude idx entry frq_base;
  _ ← reject_if (want_positions && negb (has_prx_ prelude))
        (Corruption "windowed_posting: positions requested but prelude has none");
  g ← ResolveBlocks idx entry frq_base prelude;
  '(fetcher, dd_h, freq_h, prx_h) ←
    FetchBlocks idx entry prx_base g want_positions want_freq (new_fetcher 0);
  dd_block ← get fetcher dd_h;
  freq_block ← (if want_freq then get fetcher freq_h else Ok []);
  prx_region ← (if want_positions then get fetcher prx_h else Ok []);
  fold_result (read_one_window prelude dd_block freq_block prx_region want_positions want_freq)
    (seqZ 0 (n_windows prelude)) no_posting.
End Decode.

(** ** Where a windowed posting lies *)

Definition frq_start (idx : LogicalIndexReader) (entry : DictEntry) (frq_base : Z) : Z :=
  posting_offset idx + frq_base + frq_off_delta entry.
Definition prx_start (idx : LogicalIndexReader) (entry : DictEntry) (prx_base : Z) : Z :=
  posting_offset idx + prx_base + prx_off_delta entry.

(** What one window decodes to, off its own bytes in the file. *)
Definition window_bytes (file : bytes) (start : Z) (m : WindowMeta) : bytes :=
  FileIO.window file (start + dd_off m) (dd_disk_len m).

Section Layout.
Context `{ZstdOps} (file : bytes) (idx : LogicalIndexReader) (entry : DictEntry) (frq_base prx_base : Z).

Definition dd_start : Z := frq_start idx entry frq_base + prelude_len entry.
Definition freq_start (prelude : FrqPreludeReader) : Z := dd_start + dd_block_len_ prelude.

(** The .frq span lies in the file and opens with the prelude. *)
Record frq_at (prelude : FrqPreludeReader) : Prop := {
  fa_region : 0 ≤ posting_offset idx;
  fa_base : 0 ≤ frq_base;
  fa_delta : 0 ≤ frq_off_delta entry;
  fa_prelude : 0 < prelude_len entry ≤ frq_len entry;
  fa_in : in_file file (frq_start idx entry frq_base) (frq_len entry);
  fa_open : FrqPrelude.open (FileIO.window file (frq_start idx entry frq_base) (prelude_len entry)) = Ok prelude;
  fa_blocks : 0 ≤ dd_block_len_ prelude ∧ 0 ≤ freq_block_len_ prelude ∧
    prelude_len entry + dd_block_len_ prelude + freq_block_len_ prelude ≤ frq_len entry;
  fa_count : is_u32 (zlen (windows_ prelude))
}.

(** The .prx span lies in the file. *)
Record prx_at : Prop := {
  pa_region : 0 ≤ posting_offset idx;
  pa_base : 0 ≤ prx_base;
  pa_delta : 0 ≤ prx_off_delta entry;
  pa_in : in_file file (prx_start idx entry prx_base) (DictEntry.prx_len entry)
}.

Definition fits_in (off len total : Z) : Prop := 0 ≤ off ∧ 0 ≤ len ∧ off + len ≤ total.

(** A window inside the blocks, and the documents, frequencies and positions its
    slices decode to. *)
Definition window_yields (prelude : FrqPreludeReader) (wp wf : bool) (m : WindowMeta)
    (d : list Z * list Z * list (list Z)) : Prop :=
  fits_in (dd_off m) (dd_disk_len m) (dd_block_len_ prelude) ∧
  (wf = true → fits_in (freq_off m) (freq_disk_len m) (freq_block_len_ prelude)) ∧
  (wp = true → fits_in (prx_off m) (FrqPrelude.prx_len m) (DictEntry.prx_len entry)) ∧
  decode_window_slices m (window_bytes file dd_start m)
    (if wf then FileIO.window file (freq_start prelude + freq_off m) (freq_disk_len m) else [])
    (if wp then FileIO.window file (prx_start idx entry prx_base + prx_off m) (FrqPrelude.prx_len m) else [])
    wp wf = Ok d.

Definition join (ds : list (list Z * list Z * list (list Z))) : DecodedPosting :=
  mkDecodedPosting (concat (map (λ d, d.1.1) ds)) (concat (map (λ d, d.1.2) ds)) (concat (map snd ds)).
End Layout.

(** ** What the scored queries read of an entry *)

(** The single window of a slim or inline entry decodes to these documents and
    frequencies. *)
Definition flat_decodes `{ZstdOps} (entry : DictEntry) (window : bytes) (ds fs : list Z) : Prop :=
  let n := disk_len (dd_meta entry) in
  0 ≤ n ≤ zlen window ∧ decode_dd_region (take (Z.to_nat n) window) (dd_meta entry) 0 = Ok ds ∧
  decode_freq_region (drop (Z.to_nat n) window) (freq_meta entry) (zlen ds) = Ok fs.

(** The windows of a windowed entry: documents and frequencies, the last document of
    a window the one the prelude names. *)
Definition windows_hold `{ZstdOps} (file : bytes) (idx : LogicalIndexReader) (entry : DictEntry) (frq_base prx_base : Z)
    (prelude : FrqPreludeReader) (ds : list (list Z * list Z * list (list Z))) : Prop :=
  frq_at file idx entry frq_base prelude ∧
  Forall2 (window_yields file idx entry frq_base prx_base prelude false true) (windows_ prelude) ds ∧
  Forall2 (λ m d, last d.1.1 = Some (last_docid m)) (windows_ prelude) ds.

Inductive holds_freqs `{ZstdOps} (file : bytes) (idx : LogicalIndexReader) (entry : DictEntry) (frq_base prx_base : Z)
    (ds fs : list Z) : Prop :=
  | inline_freqs : kind entry = kInline → flat_decodes entry (frq_bytes entry) ds fs → holds_freqs file idx entry frq_base prx_base ds fs
  | slim_freqs off len :
      kind entry = kPodRef → enc entry = kSlim → resolve_frq_window idx entry frq_base = Ok (off, len) → in_file file off len →
      flat_decodes entry (FileIO.window file off len) ds fs → holds_freqs file idx entry frq_base prx_base ds fs
  | windowed_freqs prelude wds :
      kind entry = kPodRef → enc entry = kWindowed → windows_hold file idx entry frq_base prx_base prelude wds →
      ds = concat (map (λ d, d.1.1) wds) → fs = concat (map (λ d, d.1.2) wds) → holds_freqs file idx entry frq_base prx_base ds fs.

Lemma InBounds_ok off len total : fits_in off len total → InBounds off len total = Ok tt.
Proof.
  intros (? & ? & ?). unfold InBounds, reject_if. rewrite (proj2 (orb_false_iff _ _)); [done|].
  split; apply Z.ltb_ge; lia.
Qed.

(** The slice of a block is the window of the file. *)
Lemma block_slice file start total off len :
  in_file file start total → fits_in off len total →
  subslice (FileIO.window file start total) off len = Ok (FileIO.window file (start + off) len).
Proof.
  intros Hin (? & ? & ?). rewrite subslice_ok by (rewrite window_length by done; lia). f_equal.
  exact (window_window file start total off len Hin ltac:(lia) ltac:(lia) ltac:(lia)).
Qed.

Section Reading.
Context `{ZstdOps} `{SortLaws} (file : bytes) (idx : LogicalIndexReader) (entry : DictEntry) (frq_base prx_base : Z).
Context (Hfile : zlen file < 2 ^ 64) (Hserves : serves file (reader_ idx)).

Lemma prelude_abs_at prelude :
  frq_at file idx entry frq_base prelude → PreludeAbs idx entry frq_base = frq_start idx entry frq_base.
Proof.
  intros [? ? ? ? (? & ? & ?) _ _ _]. unfold PreludeAbs, frq_start in *.
  rewrite (u64_small (_ + frq_base)) by ulia. by rewrite u64_small by ulia.
Qed.

Lemma prx_region_start_at :
  prx_at file idx entry prx_base → prx_region_start idx entry prx_base = prx_start idx entry prx_base.
Proof.
  intros [? ? ? (? & ? & ?)]. unfold prx_region_start, prx_start in *.
  rewrite (u64_small (_ + prx_base)) by ulia. by rewrite u64_small by ulia.
Qed.

(** Some ranges of the file, fetched in one batch. *)
Lemma fetch_ranges_gap gap ranges :
  0 ≤ gap → Forall (λ g, in_file file (FileIO.offset g) (FileIO.len g)) ranges →
  ∃ f, fetch (reader_ idx) (add_all ranges (new_fetcher gap)) = Ok f ∧
    ∀ i g, ranges !! i = Some g → get f i = Ok (FileIO.window file (FileIO.offset g) (FileIO.len g)).
Proof.
  intros Hgap Hr. destruct (add_all_reqs ranges (new_fetcher gap)) as [Hreqs Hg]. cbn [new_fetcher reqs_ coalesce_gap_ app] in *.
  destruct (fetch_ok file (reader_ idx) (add_all ranges (new_fetcher gap)) Hserves) as (f & segs & Hf & _ & _ & Hget);
    [by rewrite Hg|done| |].
  - rewrite Hreqs. apply Forall_fmap. eapply Forall_impl; [exact Hr|]. done.
  - exists f. split; [done|]. intros i g Hi. apply (Hget i (mkReq (FileIO.offset g) (FileIO.len g) 0 0 0)).
    rewrite Hreqs. by rewrite list_lookup_fmap, Hi.
Qed.

Lemma fetch_ranges ranges :
  Forall (λ g, in_file file (FileIO.offset g) (FileIO.len g)) ranges →
  ∃ f, fetch (reader_ idx) (add_all ranges (new_fetcher 0)) = Ok f ∧
    ∀ i g, ranges !! i = Some g → get f i = Ok (FileIO.window file (FileIO.offset g) (FileIO.len g)).
Proof. by apply fetch_ranges_gap. Qed.

Lemma fetch_prelude_at prelude :
  frq_at file idx entry frq_base prelude → fetch_windowed_prelude idx entry frq_base = Ok prelude.
Proof.
  intros Hat. pose proof Hat as [Hreg Hb Hd Hp Hin Ho _ _]. unfold fetch_windowed_prelude.
  rewrite bind_reject_false by (apply Z.eqb_neq; lia). rewrite bind_reject_false by (apply Z.ltb_ge; lia).
  rewrite (prelude_abs_at prelude Hat).
  destruct (fetch_ranges [mkRange (frq_start idx entry frq_base) (prelude_len entry)]) as (f & Hf & Hget).
  { constructor; [|done]. cbn. unfold in_file in *. lia. }
  unfold add_all in Hf. cbn [fold_left FileIO.offset FileIO.len] in Hf.
  destruct (add _ _ _) as [h f0] eqn:Ha. assert (h = 0%nat) as -> by by injection Ha. cbn [snd] in Hf.
  rewrite Hf, bind_Ok, (Hget 0%nat _ eq_refl), bind_Ok. exact Ho.
Qed.

Lemma resolve_blocks_at prelude :
  frq_at file idx entry frq_base prelude →
  ResolveBlocks idx entry frq_base prelude =
    Ok (mkBlockGeometry (dd_start idx entry frq_base) (dd_block_len_ prelude)
          (freq_start idx entry frq_base prelude) (freq_block_len_ prelude) (frq_len entry - prelude_len entry)).
Proof.
  intros Hat. pose proof Hat as [Hreg Hb Hd Hp (? & ? & ?) Ho (? & ? & ?) _]. unfold ResolveBlocks.
  rewrite bind_reject_false by (apply Z.ltb_ge; lia). rewrite (prelude_abs_at prelude Hat).
  rewrite bind_reject_false by (apply orb_false_iff; split; apply Z.ltb_ge; lia).
  unfold freq_start, dd_start. rewrite (u64_small (frq_start _ _ _ + _)) by ulia. by rewrite u64_small by ulia.
Qed.

Lemma blocks_in_file prelude :
  frq_at file idx entry frq_base prelude →
  in_file file (dd_start idx entry frq_base) (dd_block_len_ prelude) ∧
  in_file file (freq_start idx entry frq_base prelude) (freq_block_len_ prelude).
Proof.
  intros [Hreg Hb Hd Hp (? & ? & ?) Ho (? & ? & ?) _]. unfold freq_start, dd_start, in_file. lia.
Qed.

(** The range of one window of the blocks. *)
Lemma window_range_in prelude wp wf w m :
  frq_at file idx entry frq_base prelude → (wp = true → prx_at file idx entry prx_base) →
  (wp = true → has_prx_ prelude = true) → windows_ prelude !! w = Some m →
  fits_in (dd_off m) (dd_disk_len m) (dd_block_len_ prelude) →
  (wf = true → fits_in (freq_off m) (freq_disk_len m) (freq_block_len_ prelude)) →
  (wp = true → fits_in (prx_off m) (FrqPrelude.prx_len m) (DictEntry.prx_len entry)) →
  windowed_window_range idx entry frq_base prx_base prelude (Z.of_nat w) wp wf =
    Ok (mkWindowAbsRange (dd_start idx entry frq_base + dd_off m) (dd_disk_len m)
          (if wf then freq_start idx entry frq_base prelude + freq_off m else 0)
          (if wf then freq_disk_len m else 0)
          (if wp then prx_start idx entry prx_base + prx_off m else 0)
          (if wp then FrqPrelude.prx_len m else 0)).
Proof.
  intros Hat Hprx Hhas Hm Hdd Hfq Hpx. unfold windowed_window_range.
  destruct (blocks_in_file prelude Hat) as [(? & ? & ?) (? & ? & ?)].
  rewrite (resolve_blocks_at prelude Hat), bind_Ok.
  assert (FrqPrelude.window prelude (Z.of_nat w) = Ok m) as ->.
  { unfold FrqPrelude.window. rewrite Nat2Z.id, Hm. apply lookup_lt_Some in Hm. by rewrite (proj2 (Z.leb_gt _ _)) by lia. }
  rewrite bind_Ok. cbn [g_dd_block_len g_dd_block_off g_freq_block_len g_freq_block_off].
  rewrite (InBounds_ok (dd_off m)), bind_Ok by done. destruct Hdd as (? & ? & ?).
  rewrite (u64_small (dd_start _ _ _ + _)) by ulia.
  assert ((if wf then
       _ ← InBounds (freq_off m) (freq_disk_len m) (freq_block_len_ prelude);
       Ok (u64 (freq_start idx entry frq_base prelude + freq_off m), freq_disk_len m)
     else Ok (0, 0)) = Ok (if wf then freq_start idx entry frq_base prelude + freq_off m else 0,
       if wf then freq_disk_len m else 0)) as ->.
  { destruct wf; [|done]. specialize (Hfq eq_refl). rewrite InBounds_ok, bind_Ok by done.
    destruct Hfq as (? & ? & ?). by rewrite u64_small by ulia. }
  rewrite bind_Ok. destruct wp; [|done]. cbn [negb]. rewrite Hhas by done. cbn [negb].
  rewrite bind_reject_false by done. specialize (Hpx eq_refl). rewrite InBounds_ok, bind_Ok by done.
  destruct Hpx as (? & ? & ?). pose proof (Hprx eq_refl) as Hpa. rewrite prx_region_start_at by done.
  destruct Hpa as [_ _ _ (? & ? & ?)]. by rewrite u64_small by ulia.
Qed.

Lemma window_range_at prelude wp wf w m d :
  frq_at file idx entry frq_base prelude → (wp = true → prx_at file idx entry prx_base) →
  (wp = true → has_prx_ prelude = true) →
  windows_ prelude !! w = Some m → window_yields file idx entry frq_base prx_base prelude wp wf m d →
  windowed_window_range idx entry frq_base prx_base prelude (Z.of_nat w) wp wf =
    Ok (mkWindowAbsRange (dd_start idx entry frq_base + dd_off m) (dd_disk_len m)
          (if wf then freq_start idx entry frq_base prelude + freq_off m else 0)
          (if wf then freq_disk_len m else 0)
          (if wp then prx_start idx entry prx_base + prx_off m else 0)
          (if wp then FrqPrelude.prx_len m else 0)).
Proof. intros Hat Hprx Hhas Hm (Hdd & Hfq & Hpx & _). by apply window_range_in. Qed.

Lemma read_one_window_at prelude wp wf w m d out :
  frq_at file idx entry frq_base prelude → (wp = true → prx_at file idx entry prx_base) →
  windows_ prelude !! w = Some m → window_yields file idx entry frq_base prx_base prelude wp wf m d →
  read_one_window prelude (FileIO.window file (dd_start idx entry frq_base) (dd_block_len_ prelude))
    (if wf then FileIO.window file (freq_start idx entry frq_base prelude) (freq_block_len_ prelude) else [])
    (if wp then FileIO.window file (prx_start idx entry prx_base) (DictEntry.prx_len entry) else [])
    wp wf (Z.of_nat w) out =
  Ok (mkDecodedPosting (docids out ++ d.1.1) (freqs out ++ d.1.2)
        (if wp then positions out ++ d.2 else positions out)).
Proof.
  intros Hat Hprx Hm (Hdd & Hfq & Hpx & Hdec). unfold read_one_window.
  destruct (blocks_in_file prelude Hat) as [Hin1 Hin2].
  assert (FrqPrelude.window prelude (Z.of_nat w) = Ok m) as ->.
  { unfold FrqPrelude.window. rewrite Nat2Z.id, Hm. apply lookup_lt_Some in Hm. by rewrite (proj2 (Z.leb_gt _ _)) by lia. }
  rewrite bind_Ok. unfold CarveRegionSlices. rewrite (InBounds_ok (dd_off m)), bind_Ok by (by rewrite window_length).
  rewrite block_slice, bind_Ok by done. fold (window_bytes file (dd_start idx entry frq_base) m).
  assert ((if negb wf then Ok (window_bytes file (dd_start idx entry frq_base) m, [])
     else
      let b := if wf then FileIO.window file (freq_start idx entry frq_base prelude) (freq_block_len_ prelude) else [] in
      _ ← InBounds (freq_off m) (freq_disk_len m) (zlen b);
      freq_region ← subslice b (freq_off m) (freq_disk_len m);
      Ok (window_bytes file (dd_start idx entry frq_base) m, freq_region)) =
    Ok (window_bytes file (dd_start idx entry frq_base) m,
        if wf then FileIO.window file (freq_start idx entry frq_base prelude + freq_off m) (freq_disk_len m) else [])) as Hc.
  { destruct wf; [|done]. specialize (Hfq eq_refl). cbn [negb]. cbv zeta.
    rewrite InBounds_ok, bind_Ok by (by rewrite window_length). by rewrite block_slice, bind_Ok by done. }
  cbv zeta in Hc. rewrite Hc, bind_Ok. clear Hc.
  assert ((if wp then
       _ ← InBounds (prx_off m) (FrqPrelude.prx_len m)
             (zlen (if wp then FileIO.window file (prx_start idx entry prx_base) (DictEntry.prx_len entry) else []));
       subslice (if wp then FileIO.window file (prx_start idx entry prx_base) (DictEntry.prx_len entry) else [])
         (prx_off m) (FrqPrelude.prx_len m)
     else Ok []) =
    Ok (if wp then FileIO.window file (prx_start idx entry prx_base + prx_off m) (FrqPrelude.prx_len m) else [])) as ->.
  { destruct wp; [|done]. specialize (Hpx eq_refl). destruct (Hprx eq_refl) as [_ _ _ Hpin].
    rewrite InBounds_ok, bind_Ok by (by rewrite window_length). by rewrite block_slice. }
  rewrite bind_Ok. unfold AppendWindow. cbn [ws_meta ws_dd_region ws_freq_region ws_prx_window].
  rewrite Hdec, bind_Ok. by destruct d as [[ds fs] ps].
Qed.

Lemma read_windows_at prelude wp wf l r ds out :
  frq_at file idx entry frq_base prelude → (wp = true → prx_at file idx entry prx_base) →
  windows_ prelude = l ++ r → Forall2 (window_yields file idx entry frq_base prx_base prelude wp wf) r ds →
  fold_result (read_one_window prelude (FileIO.window file (dd_start idx entry frq_base) (dd_block_len_ prelude))
    (if wf then FileIO.window file (freq_start idx entry frq_base prelude) (freq_block_len_ prelude) else [])
    (if wp then FileIO.window file (prx_start idx entry prx_base) (DictEntry.prx_len entry) else []) wp wf)
    (seqZ (zlen l) (zlen r)) out =
  Ok (mkDecodedPosting (docids out ++ docids (join ds)) (freqs out ++ freqs (join ds))
        (if wp then positions out ++ positions (join ds) else positions out)).
Proof.
  intros Hat Hprx Hl Hds. revert l out Hl. induction Hds as [|m d r ds Hm Hds IH]; intros l out Hl; cbn [length].
  { cbn. destruct out. cbn. rewrite !app_nil_r. by destruct wp. }
  rewrite seqZ_cons by lia. cbn [fold_result].
  assert (windows_ prelude !! length l = Some m) as Hw by (rewrite Hl; by apply list_lookup_middle).
  rewrite (read_one_window_at prelude wp wf (length l) m d) by done. rewrite bind_Ok.
  replace (Z.succ (zlen l)) with (zlen (l ++ [m])) by (rewrite length_app; cbn [length]; lia).
  replace (Z.pred (Z.of_nat (S (length r)))) with (zlen r) by lia.
  rewrite IH by by rewrite <- app_assoc. unfold join. cbn [docids freqs positions map concat].
  rewrite <- !app_assoc. by destruct wp; rewrite <- ?app_assoc.
Qed.

(** Reading a posting whose windows decode is the concatenation of its windows. *)
Lemma read_windowed_posting_at prelude wp wf ds :
  frq_at file idx entry frq_base prelude → (wp = true → prx_at file idx entry prx_base ∧ has_prx_ prelude = true) →
  Forall2 (window_yields file idx entry frq_base prx_base prelude wp wf) (windows_ prelude) ds →
  read_windowed_posting idx entry frq_base prx_base wp wf =
    Ok (mkDecodedPosting (docids (join ds)) (freqs (join ds)) (if wp then positions (join ds) else [])).
Proof.
  intros Hat Hprx Hds. pose proof (fa_count _ _ _ _ _ Hat) as Hn. unfold read_windowed_posting.
  rewrite (fetch_prelude_at prelude Hat), bind_Ok.
  rewrite bind_reject_false by (destruct wp; [by destruct (Hprx eq_refl) as [_ ->]|done]).
  rewrite (resolve_blocks_at prelude Hat), bind_Ok.
  destruct (blocks_in_file prelude Hat) as [Hin1 Hin2].
  unfold FetchBlocks. cbn [g_dd_block_len g_dd_block_off g_freq_block_len g_freq_block_off].
  set (rd := mkRange (dd_start idx entry frq_base) (dd_block_len_ prelude)).
  set (rf := mkRange (freq_start idx entry frq_base prelude) (freq_block_len_ prelude)).
  set (rp := mkRange (prx_start idx entry prx_base) (DictEntry.prx_len entry)).
  destruct (fetch_ranges ([rd] ++ (if wf then [rf] else []) ++ (if wp then [rp] else [])))
    as (f & Hf & Hget).
  { apply Forall_app_2; [by apply Forall_cons_2|]. apply Forall_app_2; [destruct wf; [by apply Forall_cons_2|done]|].
    destruct wp; [|done]. destruct (Hprx eq_refl) as [[_ _ _ Hpin] _]. by apply Forall_cons_2. }
  assert (wp = true → prx_region_start idx entry prx_base = prx_start idx entry prx_base) as Hps.
  { intros Hwp. apply prx_region_start_at. by apply Hprx. }
  pose proof (read_windows_at prelude wp wf [] (windows_ prelude) ds no_posting Hat
    (λ H, proj1 (Hprx H)) eq_refl Hds) as Hread. cbn [length no_posting docids freqs positions app] in Hread.
  unfold n_windows. rewrite u32_small by done. change (Z.of_nat 0) with 0 in Hread.
  pose proof (Hget 0%nat rd eq_refl) as Hget0. cbn [rd FileIO.offset FileIO.len] in Hget0.
  destruct wf, wp; unfold add_all in Hf; cbn [app fold_left FileIO.offset FileIO.len rd rf rp] in Hf;
    rewrite ?Hps by done; unfold add in Hf |- *;
    cbn [fst snd reqs_ coalesce_gap_ phys_ new_fetcher app length Nat.sub Nat.add] in Hf |- *; rewrite Hf, !bind_Ok.
  all: rewrite Hget0, bind_Ok.
  all: rewrite ?(Hget 1%nat _ eq_refl), ?bind_Ok.
  all: rewrite ?(Hget 2%nat _ eq_refl), ?bind_Ok.
  all: exact Hread.
Qed.
End Reading.

(** ** Properties *)

(** C18: a windowed posting that lies in the file is read whole as the
    concatenation, in window order, of what its windows decode to: documents
    always, frequencies and positions when they are wanted. *)
Theorem windowed_read_exact `{ZstdOps} `{SortLaws} file idx entry frq_base prx_base prelude wp wf ds :
  serves file (reader_ idx) → zlen file < 2 ^ 64 → frq_at file idx entry frq_base prelude →
  (wp = true → prx_at file idx entry prx_base ∧ has_prx_ prelude = true) →
  Forall2 (window_yields file idx entry frq_base prx_base prelude wp wf) (windows_ prelude) ds →
  read_windowed_posting idx entry frq_base prx_base wp wf =
    Ok (mkDecodedPosting (concat (map (λ d, d.1.1) ds)) (concat (map (λ d, d.1.2) ds))
          (if wp then concat (map snd ds) else [])).
Proof. intros Hs Hf Hat Hp Hds. by apply (read_windowed_posting_at file idx entry frq_base prx_base Hf Hs prelude). Qed.

(** reading a single window by the ranges [windowed_window_range] gives for
    it yields what that window contributes to the whole posting. *)
Theorem windowed_skip_exact `{ZstdOps} `{SortLaws} file idx entry frq_base prx_base prelude wp wf w m d :
  serves file (reader_ idx) → zlen file < 2 ^ 64 → frq_at file idx entry frq_base prelude →
  (wp = true → prx_at file idx entry prx_base ∧ has_prx_ prelude = true) →
  windows_ prelude !! w = Some m → window_yields file idx entry frq_base prx_base prelude wp wf m d →
  ∃ r, windowed_window_range idx entry frq_base prx_base prelude (Z.of_nat w) wp wf = Ok r ∧
    decode_window_slices m (FileIO.window file (wr_dd_off r) (wr_dd_len r))
      (FileIO.window file (wr_freq_off r) (wr_freq_len r)) (FileIO.window file (wr_prx_off r) (wr_prx_len r))
      wp wf = Ok d.
Proof.
  intros Hs Hf Hat Hp Hm Hd.
  rewrite (window_range_at file idx entry frq_base prx_base Hf prelude wp wf w m d Hat
    (λ H, proj1 (Hp H)) (λ H, proj2 (Hp H)) Hm Hd).
  eexists. split; [done|]. cbn [wr_dd_off wr_dd_len wr_freq_off wr_freq_len wr_prx_off wr_prx_len].
  destruct Hd as (_ & _ & _ & <-). by destruct wf, wp.
Qed.

Lemma InBounds_Ok off len total u : InBounds off len total = Ok u → off ≤ total ∧ len ≤ total - off.
Proof. intros H%reject_if_Ok. apply orb_false_iff in H as [H1 H2]. by apply Z.ltb_ge in H1, H2. Qed.

Lemma window_elem prelude w m : FrqPrelude.window prelude w = Ok m → m ∈ windows_ prelude.
Proof.
  unfold FrqPrelude.window. destruct (_ <=? _); [done|]. destruct (_ !! _) as [m'|] eqn:Hm; [|done].
  intros [= <-]. by apply list_elem_of_lookup_2 in Hm.
Qed.

Lemma resolve_blocks_Ok idx entry frq_base prelude g :
  ResolveBlocks idx entry frq_base prelude = Ok g →
  0 ≤ posting_offset idx → 0 ≤ frq_base → 0 ≤ frq_off_delta entry → 0 ≤ prelude_len entry →
  frq_start idx entry frq_base + frq_len entry < 2 ^ 64 →
  0 ≤ dd_block_len_ prelude → 0 ≤ freq_block_len_ prelude →
  g_dd_block_off g = frq_start idx entry frq_base + prelude_len entry ∧
  g_dd_block_len g = dd_block_len_ prelude ∧
  g_freq_block_off g = frq_start idx entry frq_base + prelude_len entry + dd_block_len_ prelude ∧
  g_freq_block_len g = freq_block_len_ prelude ∧
  frq_start idx entry frq_base + prelude_len entry + dd_block_len_ prelude + freq_block_len_ prelude ≤
    frq_start idx entry frq_base + frq_len entry.
Proof.
  unfold ResolveBlocks. intros Hr Ho Hb Hd Hpl Hfit Hdb Hfb. inv_bind Hr. injection Hr as <-.
  apply reject_if_Ok in E, E0. apply Z.ltb_ge in E. apply orb_false_iff in E0 as [E1 E2]. apply Z.ltb_ge in E1, E2.
  cbn [g_dd_block_off g_dd_block_len g_freq_block_off g_freq_block_len].
  assert (PreludeAbs idx entry frq_base = frq_start idx entry frq_base) as ->.
  { unfold PreludeAbs, frq_start in *. rewrite (u64_small (_ + frq_base)) by ulia. by rewrite u64_small by ulia. }
  unfold frq_start in *. rewrite (u64_small (_ + prelude_len entry)) by ulia.
  split_and!; [done|done|by rewrite u64_small by ulia|done|lia].
Qed.

(** whatever the prelude says, the ranges returned for a window of an entry
    whose spans lie in the posting region stay inside those spans: the dd range
    and the freq range behind the prelude and in this order, the prx range in
    the .prx span. *)
Theorem windowed_range_bounds idx entry frq_base prx_base prelude w wp wf r :
  0 ≤ posting_offset idx → 0 ≤ frq_base → 0 ≤ frq_off_delta entry → 0 ≤ prelude_len entry →
  0 ≤ prx_base → 0 ≤ prx_off_delta entry →
  frq_start idx entry frq_base + frq_len entry < 2 ^ 64 →
  prx_start idx entry prx_base + DictEntry.prx_len entry < 2 ^ 64 →
  0 ≤ dd_block_len_ prelude → 0 ≤ freq_block_len_ prelude →
  (∀ m, m ∈ windows_ prelude → 0 ≤ dd_off m ∧ 0 ≤ dd_disk_len m ∧ 0 ≤ freq_off m ∧ 0 ≤ freq_disk_len m ∧
     0 ≤ prx_off m ∧ 0 ≤ FrqPrelude.prx_len m) →
  windowed_window_range idx entry frq_base prx_base prelude w wp wf = Ok r →
  let lo := frq_start idx entry frq_base + prelude_len entry in
  let hi := frq_start idx entry frq_base + frq_len entry in
  lo ≤ wr_dd_off r ∧ wr_dd_off r + wr_dd_len r ≤ hi ∧
  (wf = true → wr_dd_off r + wr_dd_len r ≤ wr_freq_off r ∧ wr_freq_off r + wr_freq_len r ≤ hi) ∧
  (wp = true → prx_start idx entry prx_base ≤ wr_prx_off r ∧
     wr_prx_off r + wr_prx_len r ≤ prx_start idx entry prx_base + DictEntry.prx_len entry).
Proof.
  intros Ho Hb Hd Hpl Hpb Hpd Hfit Hpfit Hdb Hfb Hm Hr lo hi. unfold windowed_window_range in Hr.
  inv_bind Hr. destruct (resolve_blocks_Ok _ _ _ _ _ E Ho Hb Hd Hpl Hfit Hdb Hfb) as (Hg1 & Hg2 & Hg3 & Hg4 & Hsum).
  assert (0 ≤ prx_start idx entry prx_base) as Hps0 by (unfold prx_start; lia).
  assert (prx_region_start idx entry prx_base = prx_start idx entry prx_base ∨ DictEntry.prx_len entry < 0) as Hps.
  { destruct (Z.lt_ge_cases (DictEntry.prx_len entry) 0); [by right|left]. unfold prx_region_start, prx_start in *.
    rewrite (u64_small (_ + prx_base)) by ulia. by rewrite u64_small by ulia. }
  apply window_elem, Hm in E0 as (Hm1 & Hm2 & Hm3 & Hm4 & Hm5 & Hm6). apply InBounds_Ok in E1.
  rewrite Hg1, Hg2, Hg3, Hg4 in *. fold lo in Hsum, Hr |- *. fold hi in Hsum.
  assert (u64 (lo + dd_off a0) = lo + dd_off a0) as Hu1 by (rewrite u64_small; [done|subst lo hi; unfold frq_start in *; ulia]).
  rewrite Hu1 in Hr. destruct a2 as [fo fl].
  assert (wf = true → lo + dd_off a0 + dd_disk_len a0 ≤ fo ∧ fo + fl ≤ hi) as Hfr.
  { intros ->. cbv iota in E2. apply result_bind_Ok in E2 as ([] & E3 & E2). apply InBounds_Ok in E3. injection E2 as <- <-.
    rewrite u64_small; [lia|subst lo hi; unfold frq_start in *; ulia]. }
  destruct wp; cbn [negb] in Hr.
  - apply result_bind_Ok in Hr as ([] & _ & Hr). apply result_bind_Ok in Hr as ([] & E4 & Hr).
    apply InBounds_Ok in E4. injection Hr as <-. cbn. split_and!; [lia|lia|done|]. intros _.
    destruct Hps as [-> |]; [|lia]. rewrite u64_small by ulia. lia.
  - injection Hr as <-. cbn. split_and!; [lia|lia|done|done].
Qed.

(** ** Witnesses *)

(** Two windows, documents 1, 5 and 9, 12, with frequencies and positions. *)
Definition sample_region {A} (r : result (ByteSink * A)) (d : A) : ByteSink * A :=
  match r with Ok x => x | _ => ([], d) end.
Definition sample_dd (docs : list Z) (base : Z) : ByteSink * FrqRegionMeta :=
  sample_region (build_dd_region (H := StoredZstd.ops) docs base 0 [] default_region_meta) default_region_meta.
Definition sample_freq (fs : list Z) : ByteSink * FrqRegionMeta :=
  sample_region (build_freq_region (H := StoredZstd.ops) fs 0 [] default_region_meta) default_region_meta.
Definition sample_prx (ps : list (list Z)) : ByteSink :=
  match build_prx_window (H := StoredZstd.ops) ps (-1) [] with Ok b => b | _ => [] end.

Definition sample_window (base last dd_off freq_off prx_off : Z) (docs fs : list Z) (ps : list (list Z)) : WindowMeta :=
  let '(_, dm) := sample_dd docs base in
  let '(_, fm) := sample_freq fs in
  mkWindowMeta last base (zlen docs) (zstd dm) dd_off (disk_len dm) (uncomp_len dm) (crc dm)
    (zstd fm) freq_off (disk_len fm) (uncomp_len fm) (crc fm) prx_off (zlen (sample_prx ps)) 2 0 true.

Definition sample_data : list (list Z * list Z * list (list Z)) :=
  [([1; 5], [2; 1], [[0; 3]; [7]]); ([9; 12], [1; 1], [[4]; [4]])].
Definition sample_windows : list WindowMeta :=
  [sample_window 0 5 0 0 0 [1; 5] [2; 1] [[0; 3]; [7]];
   sample_window 5 12 (zlen (sample_dd [1; 5] 0).1) (zlen (sample_freq [2; 1]).1) (zlen (sample_prx [[0; 3]; [7]]))
     [9; 12] [1; 1] [[4]; [4]]].
Definition sample_prelude_bytes : bytes :=
  match build_frq_prelude (mkFrqPreludeColumns true true 64 sample_windows) [] with Ok b => b | _ => [] end.
Definition sample_prx_span : bytes := sample_prx [[0; 3]; [7]] ++ sample_prx [[4]; [4]].
Definition sample_frq_span : bytes :=
  sample_prelude_bytes ++ (sample_dd [1; 5] 0).1 ++ (sample_dd [9; 12] 5).1 ++
  (sample_freq [2; 1]).1 ++ (sample_freq [1; 1]).1.
Definition sample_posting_file : bytes := [8; 8; 8] ++ sample_prx_span ++ sample_frq_span ++ [7].

Definition sample_windowed_entry : DictEntry :=
  mkDictEntry [97] kPodRef kWindowed true 4 5 2 (zlen sample_prx_span) (zlen sample_frq_span)
    (zlen sample_prelude_bytes)
    (zlen (sample_prelude_bytes ++ (sample_dd [1; 5] 0).1 ++ (sample_dd [9; 12] 5).1))
    0 (zlen sample_prx_span) default_region_meta default_region_meta 0 [] [].

Definition sample_idx : LogicalIndexReader :=
  mkLogicalIndexReader (memory_file sample_posting_file) kT2 true
    (mkPerIndexMetaReader 0 [] 0 no_stats
       (mkSectionRefs no_region (mkRegionRef 3 (zlen sample_posting_file - 4)) no_region no_region no_region) [] [])
    [] [] no_bsbf_header false false [].

Definition sample_prelude : FrqPreludeReader :=
  match FrqPrelude.open sample_prelude_bytes with
  | Ok p => p
  | _ => mkFrqPreludeReader false false 0 0 0 0 [] []
  end.

Lemma sample_frq_at : frq_at sample_posting_file sample_idx sample_windowed_entry 0 sample_prelude.
Proof. by split; vm_compute. Qed.

Lemma sample_prx_at : prx_at sample_posting_file sample_idx sample_windowed_entry 0.
Proof. by split; vm_compute. Qed.

Lemma sample_yields wp wf :
  Forall2 (window_yields (H := StoredZstd.ops) sample_posting_file sample_idx sample_windowed_entry 0 0 sample_prelude wp wf)
    (windows_ sample_prelude)
    (map (λ d, (d.1.1, if wf then d.1.2 else [], if wp then d.2 else [])) sample_data).
Proof.
  destruct wp, wf; (assert (windows_ sample_prelude = sample_windows) as -> by (vm_compute; reflexivity));
    unfold sample_windows, sample_data; cbn [map]; repeat apply Forall2_cons_2; try constructor; by vm_compute.
Qed.

Lemma windowed_read_exact_witness :
  read_windowed_posting (H := StoredZstd.ops) (H0 := InsertionSort.sort) sample_idx sample_windowed_entry 0 0 true true =
    Ok (mkDecodedPosting [1; 5; 9; 12] [2; 1; 1; 1] [[0; 3]; [7]; [4]; [4]]).
Proof.
  apply (windowed_read_exact (H := StoredZstd.ops) (H0 := InsertionSort.sort) sample_posting_file sample_idx
    sample_windowed_entry 0 0 sample_prelude true true sample_data).
  - apply memory_file_serves.
  - by vm_compute.
  - exact sample_frq_at.
  - intros _. split; [exact sample_prx_at|by vm_compute].
  - exact (sample_yields true true).
Defined.

Lemma windowed_skip_exact_witness :
  ∃ r, windowed_window_range sample_idx sample_windowed_entry 0 0 sample_prelude 1 true false = Ok r ∧
    decode_window_slices (H := StoredZstd.ops) (nth 1 sample_windows (sample_window 0 0 0 0 0 [] [] []))
      (FileIO.window sample_posting_file (wr_dd_off r) (wr_dd_len r))
      (FileIO.window sample_posting_file (wr_freq_off r) (wr_freq_len r))
      (FileIO.window sample_posting_file (wr_prx_off r) (wr_prx_len r)) true false = Ok ([9; 12], [], [[4]; [4]]).
Proof.
  apply (windowed_skip_exact (H := StoredZstd.ops) (H0 := InsertionSort.sort) sample_posting_file sample_idx
    sample_windowed_entry 0 0 sample_prelude true false 1).
  - apply memory_file_serves.
  - by vm_compute.
  - exact sample_frq_at.
  - intros _. split; [exact sample_prx_at|by vm_compute].
  - by vm_compute.
  - by vm_compute.
Defined.

Lemma windowed_range_bounds_witness :
  ∃ r, windowed_window_range sample_idx sample_windowed_entry 0 0 sample_prelude 1 true true = Ok r ∧
    let lo := frq_start sample_idx sample_windowed_entry 0 + prelude_len sample_windowed_entry in
    let hi := frq_start sample_idx sample_windowed_entry 0 + frq_len sample_windowed_entry in
    lo ≤ wr_dd_off r ∧ wr_dd_off r + wr_dd_len r ≤ hi ∧
    (true = true → wr_dd_off r + wr_dd_len r ≤ wr_freq_off r ∧ wr_freq_off r + wr_freq_len r ≤ hi) ∧
    (true = true → prx_start sample_idx sample_windowed_entry 0 ≤ wr_prx_off r ∧
       wr_prx_off r + wr_prx_len r ≤
         prx_start sample_idx sample_windowed_entry 0 + DictEntry.prx_len sample_windowed_entry).
Proof.
  eexists. split; [vm_compute; reflexivity|].
  apply (windowed_range_bounds sample_idx sample_windowed_entry 0 0 sample_prelude 1 true true);
    [by vm_compute..| |by vm_compute].
  apply Forall_forall. vm_compute. repeat constructor; discriminate.
Defined.
