(* ===== verification/DocidPostingReader.v ===== *)
(** * DocidPostingReader: the documents of resolved dictionary entries.

    [query/internal/docid_posting_reader.h] and
    [query/docid_posting_reader.cpp]. A batch is planned in two rounds of reads:
    the preludes of the windowed entries, then every document range. A plan
    points at its posting by the index it has in the batch; the output vector is
    threaded as [docids]. *)

From S2P Require Import Prelude Status ByteIO FormatConstants Zstd FrqPod FrqPrelude DictEntry PerIndexMeta.
From S2P Require Import FileIO BatchRangeFetcher LogicalIndexReader WindowedPosting.

#[local] Open Scope Z_scope.

Record ResolvedDocidPosting := mkResolved { rp_entry : DictEntry; rp_frq_base : Z; rp_prx_base : Z }.

Record FlatPlan := mkFlatPlan { fp_out_index : nat; fp_entry : DictEntry; fp_handle : nat }.
Record WindowHandle := mkWindowHandle { wh_meta : WindowMeta; wh_handle : nat }.
Record WindowPlan := mkWindowPlan {
  wp_out_index : nat;
  wp_posting : ResolvedDocidPosting;
  wp_prelude_handle : nat;
  wp_prelude : FrqPreludeReader;
  wp_windows : list WindowHandle
}.

(** [FrqPreludeReader{}] *)
Definition no_prelude : FrqPreludeReader := mkFrqPreludeReader false false 1 0 0 0 [] [].

Definition set_prelude (p : FrqPreludeReader) (plan : WindowPlan) : WindowPlan :=
  mkWindowPlan (wp_out_index plan) (wp_posting plan) (wp_prelude_handle plan) p (wp_windows plan).
Definition push_window (h : WindowHandle) (plan : WindowPlan) : WindowPlan :=
  mkWindowPlan (wp_out_index plan) (wp_posting plan) (wp_prelude_handle plan) (wp_prelude plan)
    (wp_windows plan ++ [h]).

Definition slim_docs_fetch_len (entry : DictEntry) (win_len : Z) : result Z :=
  _ ← reject_if (win_len <? frq_docs_len entry)
        (Corruption "docid_posting_reader: slim frq_docs_len exceeds frq window");
  Ok (if 0 <? frq_docs_len entry then frq_docs_len entry else win_len).

Definition prelude_abs (idx : LogicalIndexReader) (entry : DictEntry) (frq_base : Z) : Z :=
  u64 (u64 (posting_offset idx + frq_base) + frq_off_delta entry).

Definition validate_windowed_prelude (entry : DictEntry) : result unit :=
  _ ← reject_if (prelude_len entry =? 0)
        (Corruption "docid_posting_reader: windowed entry has no prelude");
  reject_if (frq_len entry <? prelude_len entry)
    (Corruption "docid_posting_reader: prelude_len exceeds frq_len").

Definition plan_flat_docs (idx : LogicalIndexReader) (posting : ResolvedDocidPosting)
    (fetcher : BatchRangeFetcher) (plan : FlatPlan) : result (BatchRangeFetcher * FlatPlan) :=
  '(win_abs, win_len) ← resolve_frq_window idx (rp_entry posting) (rp_frq_base posting);
  docs_len ← slim_docs_fetch_len (rp_entry posting) win_len;
  let '(h, fetcher) := add win_abs docs_len fetcher in
  Ok (fetcher, mkFlatPlan (fp_out_index plan) (fp_entry plan) h).

Section Postings.
Context `{ZstdOps}.

Definition decode_flat_docs (entry : DictEntry) (dd_region : Slice) : result (list Z) :=
  decode_dd_region dd_region (dd_meta entry) 0.

Definition decode_inline_docs (entry : DictEntry) : result (list Z) :=
  _ ← reject_if (zlen (frq_bytes entry) <? disk_len (dd_meta entry))
        (Corruption "docid_posting_reader: inline dd region exceeds frq bytes");
  slice ← subslice (frq_bytes entry) 0 (disk_len (dd_meta entry));
  decode_flat_docs entry slice.

Context `{Sort}.

Fixpoint open_window_preludes (fetcher : BatchRangeFetcher) (plans : list WindowPlan)
    : result (list WindowPlan) :=
  match plans with
  | [] => Ok []
  | plan :: plans =>
      bytes ← get fetcher (wp_prelude_handle plan);
      prelude ← FrqPrelude.open bytes;
      plans ← open_window_preludes fetcher plans;
      Ok (set_prelude prelude plan :: plans)
  end.

Definition plan_one_window (idx : LogicalIndexReader) (w : Z) (st : BatchRangeFetcher * WindowPlan)
    : result (BatchRangeFetcher * WindowPlan) :=
  let '(fetcher, plan) := st in
  let posting := wp_posting plan in
  range ← windowed_window_range idx (rp_entry posting) (rp_frq_base posting) (rp_prx_base posting)
            (wp_prelude plan) w false false;
  meta ← FrqPrelude.window (wp_prelude plan) w;
  let '(h, fetcher) := add (wr_dd_off range) (wr_dd_len range) fetcher in
  Ok (fetcher, push_window (mkWindowHandle meta h) plan).

Definition plan_window_docs (idx : LogicalIndexReader) (plan : WindowPlan) (fetcher : BatchRangeFetcher)
    : result (BatchRangeFetcher * WindowPlan) :=
  fold_result (plan_one_window idx) (seqZ 0 (n_windows (wp_prelude plan))) (fetcher, plan).

Definition decode_flat_plan (fetcher : BatchRangeFetcher) (plan : FlatPlan) : result (list Z) :=
  slice ← get fetcher (fp_handle plan);
  decode_flat_docs (fp_entry plan) slice.

Definition decode_one_window (fetcher : BatchRangeFetcher) (window : WindowHandle) (out : list Z)
    : result (list Z) :=
  slice ← get fetcher (wh_handle window);
  '(docs, _, _) ← decode_window_slices (wh_meta window) slice [] [] false false;
  Ok (out ++ docs).

Definition decode_window_plan (fetcher : BatchRangeFetcher) (plan : WindowPlan) (out : list Z)
    : result (list Z) :=
  fold_result (decode_one_window fetcher) (wp_windows plan) out.

(** *** The batch *)

Record PlanState := mkPlanState {
  ps_docids : list (list Z);
  ps_flat : list FlatPlan;
  ps_windows : list WindowPlan;
  ps_fetcher : BatchRangeFetcher
}.

(** One round of the loop that sorts the postings by their encoding. *)
Definition plan_posting (idx : LogicalIndexReader) (i : nat) (posting : ResolvedDocidPosting) (st : PlanState) : result PlanState :=
  let entry := rp_entry posting in
  if decide (kind entry = kInline) then
    docs ← decode_inline_docs entry;
    Ok (mkPlanState (<[i := docs]> (ps_docids st)) (ps_flat st) (ps_windows st) (ps_fetcher st))
  else if decide (enc entry = kWindowed) then
    _ ← validate_windowed_prelude entry;
    let '(h, fetcher) := add (prelude_abs idx entry (rp_frq_base posting)) (prelude_len entry) (ps_fetcher st) in
    Ok (mkPlanState (ps_docids st) (ps_flat st)
          (ps_windows st ++ [mkWindowPlan i posting h no_prelude []]) fetcher)
  else Ok (mkPlanState (ps_docids st) (ps_flat st ++ [mkFlatPlan i entry 0]) (ps_windows st) (ps_fetcher st)).

(** [postings[plan.out_index]] *)
Definition plan_flat (idx : LogicalIndexReader) (postings : list ResolvedDocidPosting) (plan : FlatPlan)
    (st : BatchRangeFetcher * list FlatPlan) : result (BatchRangeFetcher * list FlatPlan) :=
  match postings !! fp_out_index plan with
  | None => Undef
  | Some posting =>
      '(fetcher, plan) ← plan_flat_docs idx posting st.1 plan;
      Ok (fetcher, st.2 ++ [plan])
  end.
Definition plan_window (idx : LogicalIndexReader) (plan : WindowPlan)
    (st : BatchRangeFetcher * list WindowPlan) : result (BatchRangeFetcher * list WindowPlan) :=
  '(fetcher, plan) ← plan_window_docs idx plan st.1;
  Ok (fetcher, st.2 ++ [plan]).

(** The element of the output at [plan.out_index]. *)
Definition emit_flat (fetcher : BatchRangeFetcher) (plan : FlatPlan) (docids : list (list Z))
    : result (list (list Z)) :=
  match docids !! fp_out_index plan with
  | None => Undef
  | Some _ => docs ← decode_flat_plan fetcher plan; Ok (<[fp_out_index plan := docs]> docids)
  end.
Definition emit_window (fetcher : BatchRangeFetcher) (plan : WindowPlan) (docids : list (list Z))
    : result (list (list Z)) :=
  match docids !! wp_out_index plan with
  | None => Undef
  | Some out => out ← decode_window_plan fetcher plan out; Ok (<[wp_out_index plan := out]> docids)
  end.

Definition fetch_if_pending (idx : LogicalIndexReader) (f : BatchRangeFetcher) : result BatchRangeFetcher :=
  if 0 <? pending f then fetch (reader_ idx) f else Ok f.

Definition read_docid_postings_batched (idx : LogicalIndexReader) (postings : list ResolvedDocidPosting)
    : result (list (list Z)) :=
  st ← fold_result (λ '(i, posting), plan_posting idx i posting) (zip (seq 0 (length postings)) postings)
         (mkPlanState (replicate (length postings) []) [] [] (new_fetcher 0));
  window_plans ←
    (if 0 <? pending (ps_fetcher st) then
       prelude_fetcher ← fetch (reader_ idx) (ps_fetcher st);
       open_window_preludes prelude_fetcher (ps_windows st)
     else Ok (ps_windows st));
  '(docs_fetcher, flat_plans) ← fold_result (plan_flat idx postings) (ps_flat st) (new_fetcher 0, []);
  '(docs_fetcher, window_plans) ← fold_result (plan_window idx) window_plans (docs_fetcher, []);
  docs_fetcher ← fetch_if_pending idx docs_fetcher;
  docids ← fold_result (emit_flat docs_fetcher) flat_plans (ps_docids st);
  fold_result (emit_window docs_fetcher) window_plans docids.

Definition read_docid_posting (idx : LogicalIndexReader) (entry : DictEntry) (frq_base prx_base : Z)
    : result (list Z) :=
  batched ← read_docid_postings_batched idx [mkResolved entry frq_base prx_base];
  match batched with [] => Undef | front :: _ => Ok front end.
End Postings.

(** ** What the postings hold *)

Definition prelude_range (idx : LogicalIndexReader) (p : ResolvedDocidPosting) : Range :=
  mkRange (frq_start idx (rp_entry p) (rp_frq_base p)) (prelude_len (rp_entry p)).

Definition inlined (p : ResolvedDocidPosting) : bool := bool_decide (kind (rp_entry p) = kInline).
Definition windowed (p : ResolvedDocidPosting) : bool :=
  negb (inlined p) && bool_decide (enc (rp_entry p) = kWindowed).
Definition slim (p : ResolvedDocidPosting) : bool := negb (inlined p) && negb (windowed p).

Section Holds.
Context `{ZstdOps} (file : bytes) (idx : LogicalIndexReader).

(** The document range of a slim entry. *)
Definition slim_range (p : ResolvedDocidPosting) (g : Range) : Prop :=
  ∃ win_len, resolve_frq_window idx (rp_entry p) (rp_frq_base p) = Ok (FileIO.offset g, win_len) ∧
    slim_docs_fetch_len (rp_entry p) win_len = Ok (FileIO.len g) ∧
    in_file file (FileIO.offset g) (FileIO.len g).

Definition window_docs (p : ResolvedDocidPosting) (prelude : FrqPreludeReader) (ds : list Z) : Prop :=
  frq_at file idx (rp_entry p) (rp_frq_base p) prelude ∧
  ∃ dss, Forall2 (window_yields file idx (rp_entry p) (rp_frq_base p) (rp_prx_base p) prelude false false)
           (windows_ prelude) dss ∧ ds = docids (join dss).

(** The documents an entry holds, in each of its three encodings. *)
Inductive holds_docs (p : ResolvedDocidPosting) (ds : list Z) : Prop :=
  | inline_docs :
      inlined p = true → disk_len (dd_meta (rp_entry p)) ≤ zlen (frq_bytes (rp_entry p)) →
      decode_dd_region (take (Z.to_nat (disk_len (dd_meta (rp_entry p)))) (frq_bytes (rp_entry p)))
        (dd_meta (rp_entry p)) 0 = Ok ds →
      holds_docs p ds
  | slim_docs g :
      slim p = true → slim_range p g →
      decode_dd_region (FileIO.window file (FileIO.offset g) (FileIO.len g)) (dd_meta (rp_entry p)) 0 = Ok ds →
      holds_docs p ds
  | windowed_docs prelude :
      windowed p = true → window_docs p prelude ds → holds_docs p ds.
End Holds.

(** An element of the batch: its index, the posting and its documents. *)
Record Item := mkItem { it_index : nat; it_posting : ResolvedDocidPosting; it_docs : list Z }.

Definition inlined_items (its : list Item) : list Item := List.filter (λ t, inlined (it_posting t)) its.
Definition slim_items (its : list Item) : list Item := List.filter (λ t, slim (it_posting t)) its.
Definition windowed_items (its : list Item) : list Item := List.filter (λ t, windowed (it_posting t)) its.

Fixpoint store_all (its : list Item) (out : list (list Z)) : list (list Z) :=
  match its with [] => out | t :: its => store_all its (<[it_index t := it_docs t]> out) end.

Fixpoint window_plans_from (n : nat) (its : list Item) : list WindowPlan :=
  match its with
  | [] => []
  | t :: its => mkWindowPlan (it_index t) (it_posting t) n no_prelude [] :: window_plans_from (S n) its
  end.

Section Batch.
Context `{ZstdOps} `{SortLaws} (file : bytes) (idx : LogicalIndexReader).
Context (Hfile : zlen file < 2 ^ 64) (Hserves : serves file (reader_ idx)).

Definition item_ok (t : Item) : Prop := holds_docs file idx (it_posting t) (it_docs t).

Lemma plan_inline t st i :
  inlined (it_posting t) = true → item_ok t →
  plan_posting idx i (it_posting t) st =
    Ok (mkPlanState (<[i := it_docs t]> (ps_docids st)) (ps_flat st) (ps_windows st) (ps_fetcher st)).
Proof.
  intros Hk Ht. unfold plan_posting. pose proof Hk as Hk'. apply bool_decide_eq_true in Hk'. rewrite decide_True by done.
  destruct Ht as [_ Hlen Hdec|g Hs|prelude Hs];
    [|by unfold slim in Hs; rewrite Hk in Hs|by unfold windowed in Hs; rewrite Hk in Hs].
  unfold decode_inline_docs. rewrite bind_reject_false by (apply Z.ltb_ge; lia).
  rewrite subslice_ok, bind_Ok by lia. change (Z.to_nat 0) with 0%nat. rewrite drop_0.
  unfold decode_flat_docs. by rewrite Hdec, !bind_Ok.
Qed.

Lemma plan_slim t st i :
  slim (it_posting t) = true →
  plan_posting idx i (it_posting t) st =
    Ok (mkPlanState (ps_docids st) (ps_flat st ++ [mkFlatPlan i (rp_entry (it_posting t)) 0]) (ps_windows st)
          (ps_fetcher st)).
Proof.
  intros Hk. unfold slim, windowed in Hk. apply andb_true_iff in Hk as [Hk Hw]. rewrite Hk in Hw. cbn [andb] in Hw.
  apply negb_true_iff, bool_decide_eq_false in Hk, Hw. unfold plan_posting. by rewrite decide_False, decide_False.
Qed.

Lemma plan_windowed t st i :
  windowed (it_posting t) = true → item_ok t →
  plan_posting idx i (it_posting t) st =
    Ok (mkPlanState (ps_docids st) (ps_flat st)
          (ps_windows st ++ [mkWindowPlan i (it_posting t) (length (reqs_ (ps_fetcher st))) no_prelude []])
          (add (FileIO.offset (prelude_range idx (it_posting t))) (FileIO.len (prelude_range idx (it_posting t)))
             (ps_fetcher st)).2).
Proof.
  intros Hk Ht. destruct Ht as [Hi|g Hs|prelude _ [Hat _]];
    [by unfold windowed in Hk; rewrite Hi in Hk|unfold slim in Hs; rewrite Hk in Hs; by apply andb_true_iff in Hs as [_ ?]|].
  unfold windowed in Hk. apply andb_true_iff in Hk as [Hk Hw].
  apply negb_true_iff, bool_decide_eq_false in Hk. apply bool_decide_eq_true in Hw.
  unfold plan_posting. rewrite decide_False, decide_True by done.
  pose proof (fa_prelude _ _ _ _ _ Hat) as Hp. unfold validate_windowed_prelude.
  rewrite bind_reject_false by (apply Z.eqb_neq; lia).
  unfold reject_if. rewrite (proj2 (Z.ltb_ge _ _)), bind_Ok by lia.
  unfold prelude_abs. fold (PreludeAbs idx (rp_entry (it_posting t)) (rp_frq_base (it_posting t))).
  rewrite (prelude_abs_at file idx (rp_entry (it_posting t)) (rp_frq_base (it_posting t)) Hfile prelude Hat).
  unfold add. cbn [snd reqs_ prelude_range FileIO.offset FileIO.len]. rewrite length_app. cbn [length]. by rewrite Nat.add_sub.
Qed.

(** The first loop sorts the batch by encoding and stores the inline documents. *)
Lemma plan_postings_ok its st :
  Forall item_ok its →
  fold_result (λ '(i, posting), plan_posting idx i posting) (map (λ t, (it_index t, it_posting t)) its) st =
    Ok (mkPlanState (store_all (inlined_items its) (ps_docids st))
          (ps_flat st ++ map (λ t, mkFlatPlan (it_index t) (rp_entry (it_posting t)) 0) (slim_items its))
          (ps_windows st ++ window_plans_from (length (reqs_ (ps_fetcher st))) (windowed_items its))
          (add_all (map (λ t, prelude_range idx (it_posting t)) (windowed_items its)) (ps_fetcher st))).
Proof.
  intros Hits. revert st. induction Hits as [|t its Ht Hits IH]; intros st; cbn [map fold_result].
  { cbn. rewrite !app_nil_r. by destruct st. }
  unfold inlined_items, slim_items, windowed_items. cbn [List.filter].
  fold (inlined_items its) (slim_items its) (windowed_items its).
  destruct (inlined (it_posting t)) eqn:Hi.
  - rewrite (plan_inline t st _ Hi Ht), bind_Ok, IH. unfold slim, windowed. by rewrite Hi.
  - destruct (windowed (it_posting t)) eqn:Hw.
    + rewrite (plan_windowed t st _ Hw Ht), bind_Ok, IH. unfold slim. rewrite Hi, Hw. cbn [negb andb].
      cbn [ps_docids ps_flat ps_windows ps_fetcher map window_plans_from].
      unfold add. cbn [snd reqs_]. rewrite length_app. cbn [length]. rewrite Nat.add_1_r, <- app_assoc. done.
    + assert (slim (it_posting t) = true) as Hs by (unfold slim; by rewrite Hi, Hw).
      rewrite (plan_slim t st _ Hs), bind_Ok, IH, Hs.
      cbn [ps_docids ps_flat ps_windows ps_fetcher map]. by rewrite <- app_assoc.
Qed.

(** *** The second round *)

(** A plan whose prelude was opened. *)
Definition opened_plan (t : Item) (plan : WindowPlan) : Prop :=
  wp_out_index plan = it_index t ∧ wp_posting plan = it_posting t ∧ wp_windows plan = [] ∧
  window_docs file idx (it_posting t) (wp_prelude plan) (it_docs t).

Lemma open_preludes_ok f n its :
  Forall item_ok its → Forall (λ t, windowed (it_posting t) = true) its →
  (∀ k t, its !! k = Some t → get f (n + k)%nat =
     Ok (FileIO.window file (FileIO.offset (prelude_range idx (it_posting t)))
           (FileIO.len (prelude_range idx (it_posting t))))) →
  ∃ plans, open_window_preludes f (window_plans_from n its) = Ok plans ∧ Forall2 opened_plan its plans.
Proof.
  intros Hits Hw. revert n. induction Hits as [|t its Ht Hits IH]; intros n Hget; cbn [window_plans_from open_window_preludes].
  { by exists []. }
  apply Forall_cons in Hw as [Hk Hw]. pose proof (Hget 0%nat t eq_refl) as H0t. rewrite Nat.add_0_r in H0t.
  cbn [wp_prelude_handle]. rewrite H0t, bind_Ok. cbn [prelude_range FileIO.offset FileIO.len].
  destruct Ht as [Hi|g Hs|prelude _ [Hat Hy]];
    [by unfold windowed in Hk; rewrite Hi in Hk|unfold slim in Hs; rewrite Hk in Hs; by apply andb_true_iff in Hs as [_ ?]|].
  rewrite (fa_open _ _ _ _ _ Hat), bind_Ok.
  destruct (IH Hw (S n)) as (plans & -> & Hp).
  { intros k u Hu. rewrite <- (Hget (S k) u Hu). f_equal. lia. }
  eexists. split; [done|]. constructor; [|done]. by split_and!.
Qed.

(** A fetcher that registered more ranges of the file. *)
Definition extends (f f' : BatchRangeFetcher) : Prop :=
  coalesce_gap_ f' = coalesce_gap_ f ∧ ∃ l, reqs_ f' = reqs_ f ++ l ∧ Forall (req_in (zlen file)) l.

Lemma extends_refl f : extends f f.
Proof. split; [done|]. exists []. by rewrite app_nil_r. Qed.
Lemma extends_trans f1 f2 f3 : extends f1 f2 → extends f2 f3 → extends f1 f3.
Proof.
  intros [Hg (l & Hl & Hf)] [Hg' (l' & Hl' & Hf')]. split; [congruence|]. exists (l ++ l').
  rewrite Hl', Hl, <- app_assoc. split; [done|]. by apply Forall_app_2.
Qed.
Lemma extends_lookup f f' h r : extends f f' → reqs_ f !! h = Some r → reqs_ f' !! h = Some r.
Proof. intros [_ (l & -> & _)] Hr. by apply lookup_app_l_Some. Qed.

Lemma add_extends g f :
  in_file file (FileIO.offset g) (FileIO.len g) →
  ∃ f', add (FileIO.offset g) (FileIO.len g) f = (length (reqs_ f), f') ∧ extends f f' ∧
    reqs_ f' !! length (reqs_ f) = Some (mkReq (FileIO.offset g) (FileIO.len g) 0 0 0).
Proof.
  intros Hin. unfold add. cbn [reqs_]. rewrite length_app. cbn [length]. rewrite Nat.add_sub.
  eexists. split; [done|]. split.
  - split; [done|]. eexists. split; [done|]. constructor; [done|constructor].
  - cbn [reqs_]. by apply list_lookup_middle.
Qed.

(** A handle of [f] whose range decodes to [ds]. *)
Definition handle_at (f : BatchRangeFetcher) (h : nat) (g : Range) : Prop :=
  reqs_ f !! h = Some (mkReq (FileIO.offset g) (FileIO.len g) 0 0 0).

Definition flat_planned (f : BatchRangeFetcher) (t : Item) (plan : FlatPlan) : Prop :=
  fp_out_index plan = it_index t ∧ ∃ g, handle_at f (fp_handle plan) g ∧
  decode_dd_region (FileIO.window file (FileIO.offset g) (FileIO.len g)) (dd_meta (fp_entry plan)) 0 = Ok (it_docs t).

Definition window_planned (f : BatchRangeFetcher) (t : Item) (plan : WindowPlan) : Prop :=
  wp_out_index plan = it_index t ∧
  ∃ dss, it_docs t = docids (join dss) ∧
    Forall2 (λ w d, ∃ g, handle_at f (wh_handle w) g ∧
      decode_window_slices (wh_meta w) (FileIO.window file (FileIO.offset g) (FileIO.len g)) [] [] false false = Ok d)
      (wp_windows plan) dss.

Lemma flat_planned_extends f f' t plan : extends f f' → flat_planned f t plan → flat_planned f' t plan.
Proof. intros He (? & g & Hg & ?). split; [done|]. exists g. split; [by eapply extends_lookup|done]. Qed.

Lemma window_planned_extends f f' t plan : extends f f' → window_planned f t plan → window_planned f' t plan.
Proof.
  intros He (? & dss & ? & Hd). split; [done|]. exists dss. split; [done|].
  eapply Forall2_impl; [exact Hd|]. intros w d (g & Hg & ?). exists g. split; [by eapply extends_lookup|done].
Qed.

Lemma plan_flat_ok postings t f acc :
  item_ok t → slim (it_posting t) = true → postings !! it_index t = Some (it_posting t) →
  ∃ f' plan, plan_flat idx postings (mkFlatPlan (it_index t) (rp_entry (it_posting t)) 0) (f, acc) =
      Ok (f', acc ++ [plan]) ∧ extends f f' ∧ flat_planned f' t plan.
Proof.
  intros Ht Hk Hpt. unfold plan_flat. cbn [fp_out_index fst snd]. rewrite Hpt. unfold plan_flat_docs.
  destruct Ht as [Hi|g _ (win_len & Hres & Hlen & Hin) Hdec|prelude Hw];
    [by unfold slim in Hk; rewrite Hi in Hk| |unfold slim in Hk; rewrite Hw in Hk; by apply andb_true_iff in Hk as [_ ?]].
  rewrite Hres, bind_Ok, Hlen, bind_Ok. destruct (add_extends g f Hin) as (f1 & -> & He1 & Hh). rewrite bind_Ok.
  eexists f1, _. split; [done|]. split; [done|]. split; [done|]. by exists g.
Qed.

Lemma plan_flats_ok postings its f acc :
  Forall item_ok its → Forall (λ t, slim (it_posting t) = true) its →
  Forall (λ t, postings !! it_index t = Some (it_posting t)) its →
  ∃ f' plans, fold_result (plan_flat idx postings)
      (map (λ t, mkFlatPlan (it_index t) (rp_entry (it_posting t)) 0) its) (f, acc) = Ok (f', acc ++ plans) ∧
    extends f f' ∧ Forall2 (flat_planned f') its plans.
Proof.
  intros Hits Hs Hp. revert f acc. induction Hits as [|t its Ht Hits IH]; intros f acc; cbn [map fold_result].
  { exists f, []. rewrite app_nil_r. split_and!; [done|apply extends_refl|constructor]. }
  apply Forall_cons in Hs as [Hk Hs]. apply Forall_cons in Hp as [Hpt Hp].
  destruct (plan_flat_ok postings t f acc Ht Hk Hpt) as (f1 & plan & -> & He1 & Hpl1). rewrite bind_Ok.
  destruct (IH Hs Hp f1 (acc ++ [plan])) as (f' & plans & -> & He & Hpl).
  exists f', (plan :: plans). rewrite <- app_assoc. split; [done|].
  split; [by eapply extends_trans|]. constructor; [|done]. by eapply flat_planned_extends.
Qed.

Lemma plan_one_window_ok t prelude w m d f plan :
  frq_at file idx (rp_entry (it_posting t)) (rp_frq_base (it_posting t)) prelude →
  windows_ prelude !! w = Some m →
  window_yields file idx (rp_entry (it_posting t)) (rp_frq_base (it_posting t))
    (rp_prx_base (it_posting t)) prelude false false m d →
  wp_posting plan = it_posting t → wp_prelude plan = prelude →
  ∃ f' h g, plan_one_window idx (Z.of_nat w) (f, plan) = Ok (f', push_window (mkWindowHandle m h) plan) ∧
    extends f f' ∧ handle_at f' h g ∧
    decode_window_slices m (FileIO.window file (FileIO.offset g) (FileIO.len g)) [] [] false false = Ok d.
Proof.
  intros Hat Hlm Hm Hpo Hpp. unfold plan_one_window. rewrite Hpo, Hpp.
  rewrite (window_range_at file idx _ _ _ Hfile prelude false false w m d Hat) by done.
  rewrite bind_Ok. assert (FrqPrelude.window prelude (Z.of_nat w) = Ok m) as ->.
  { unfold FrqPrelude.window. rewrite Nat2Z.id, Hlm. apply lookup_lt_Some in Hlm. by rewrite (proj2 (Z.leb_gt _ _)) by lia. }
  rewrite bind_Ok. cbn [wr_dd_off wr_dd_len]. destruct Hm as (Hdd & _ & _ & Hdec). destruct Hdd as (? & ? & ?).
  pose proof (blocks_in_file file idx _ _ prelude Hat) as [(? & ? & ?) _].
  set (g := mkRange (dd_start idx (rp_entry (it_posting t)) (rp_frq_base (it_posting t)) + dd_off m) (dd_disk_len m)).
  destruct (add_extends g f) as (f1 & Ha & He1 & Hh); [unfold in_file, g; cbn; lia|].
  cbn [g FileIO.offset FileIO.len] in Ha. rewrite Ha. by exists f1, (length (reqs_ f)), g.
Qed.

(** The windows of one plan, those behind [l]. *)
Lemma plan_one_windows_ok t prelude dss l r rds f plan :
  frq_at file idx (rp_entry (it_posting t)) (rp_frq_base (it_posting t)) prelude →
  windows_ prelude = l ++ r →
  Forall2 (window_yields file idx (rp_entry (it_posting t)) (rp_frq_base (it_posting t))
    (rp_prx_base (it_posting t)) prelude false false) r rds →
  wp_out_index plan = it_index t → wp_posting plan = it_posting t → wp_prelude plan = prelude →
  it_docs t = docids (join (dss ++ rds)) →
  Forall2 (λ w d, ∃ g, handle_at f (wh_handle w) g ∧
      decode_window_slices (wh_meta w) (FileIO.window file (FileIO.offset g) (FileIO.len g)) [] [] false false = Ok d)
      (wp_windows plan) dss →
  ∃ f' plan', fold_result (plan_one_window idx) (seqZ (zlen l) (zlen r)) (f, plan) = Ok (f', plan') ∧
    extends f f' ∧ window_planned f' t plan'.
Proof.
  intros Hat Hl Hr. revert dss l f plan Hl.
  induction Hr as [|m d r rds Hm Hr IH]; intros dss l f plan Hl Ho Hpo Hpp Hds Hw; cbn [length].
  { exists f, plan. split; [done|]. split; [apply extends_refl|]. split; [done|]. exists dss. by rewrite app_nil_r in Hds. }
  rewrite seqZ_cons by lia. cbn [fold_result].
  assert (windows_ prelude !! length l = Some m) as Hlm by (rewrite Hl; by apply list_lookup_middle).
  destruct (plan_one_window_ok t prelude (length l) m d f plan Hat Hlm Hm Hpo Hpp) as (f1 & h & g & -> & He1 & Hh & Hdec).
  rewrite bind_Ok.
  replace (Z.succ (zlen l)) with (zlen (l ++ [m])) by (rewrite length_app; cbn [length]; lia).
  replace (Z.pred (Z.of_nat (S (length r)))) with (zlen r) by lia.
  destruct (IH (dss ++ [d]) (l ++ [m]) f1 (push_window (mkWindowHandle m h) plan)) as (f' & plan' & Hgo & He & Hp);
    [by rewrite <- app_assoc|done|done|done|by rewrite <- app_assoc| |].
  { cbn [push_window wp_windows]. apply Forall2_app.
    - eapply Forall2_impl; [exact Hw|]. intros w d' (g' & Hg' & ?). exists g'. split; [by eapply extends_lookup|done].
    - constructor; [|constructor]. exists g. by split. }
  exists f', plan'. split; [exact Hgo|]. split; [by eapply extends_trans|done].
Qed.

Lemma plan_windows_ok its plans f acc :
  Forall2 opened_plan its plans →
  ∃ f' plans', fold_result (plan_window idx) plans (f, acc) = Ok (f', acc ++ plans') ∧
    extends f f' ∧ Forall2 (window_planned f') its plans'.
Proof.
  intros Hp. revert f acc. induction Hp as [|t plan its plans (Ho & Hpo & Hw & Hat & dss & Hy & Hds) Hp IH]; intros f acc; cbn [fold_result].
  { exists f, []. rewrite app_nil_r. split_and!; [done|apply extends_refl|constructor]. }
  assert (∃ f1 plan', plan_window idx plan (f, acc) = Ok (f1, acc ++ [plan']) ∧ extends f f1 ∧ window_planned f1 t plan')
    as (f1 & plan' & -> & He1 & Hpl1).
  { unfold plan_window, plan_window_docs. cbn [fst snd]. unfold n_windows. rewrite u32_small by apply Hat.
    destruct (plan_one_windows_ok t (wp_prelude plan) [] [] (windows_ (wp_prelude plan)) dss f plan)
      as (f1 & plan' & Hgo & He & Hpl); try done.
    { rewrite Hw. constructor. }
    cbn [length] in Hgo. change (Z.of_nat 0) with 0 in Hgo. rewrite Hgo, bind_Ok. by exists f1, plan'. }
  rewrite bind_Ok. destruct (IH f1 (acc ++ [plan'])) as (f' & plans' & -> & He & Hpl).
  exists f', (plan' :: plans'). rewrite <- app_assoc. split; [done|].
  split; [by eapply extends_trans|]. constructor; [|done]. by eapply window_planned_extends.
Qed.

(** *** Reading and storing *)

Lemma fetch_handles_gap gap f :
  0 ≤ gap → extends (new_fetcher gap) f →
  ∃ f', fetch_if_pending idx f = Ok f' ∧
    ∀ h g, handle_at f h g → get f' h = Ok (FileIO.window file (FileIO.offset g) (FileIO.len g)).
Proof.
  intros Hpg [Hgap (l & Hl & Hin)]. cbn in Hgap, Hl. unfold fetch_if_pending, pending.
  destruct (Z.ltb_spec 0 (zlen (reqs_ f))) as [Hpos|Hnone].
  - destruct (fetch_ok file (reader_ idx) f Hserves) as (f' & segs & Hf & _ & _ & Hget); [by rewrite Hgap|done|by rewrite Hl|].
    exists f'. split; [done|]. intros h g Hh. exact (Hget h _ Hh).
  - exists f. split; [done|]. intros h g Hh. unfold handle_at in Hh. apply lookup_lt_Some in Hh. lia.
Qed.

Lemma fetch_handles f :
  extends (new_fetcher 0) f →
  ∃ f', fetch_if_pending idx f = Ok f' ∧
    ∀ h g, handle_at f h g → get f' h = Ok (FileIO.window file (FileIO.offset g) (FileIO.len g)).
Proof. by apply fetch_handles_gap. Qed.

Lemma emit_flats_ok f f' its plans out :
  (∀ h g, handle_at f h g → get f' h = Ok (FileIO.window file (FileIO.offset g) (FileIO.len g))) →
  Forall2 (flat_planned f) its plans → Forall (λ t, (it_index t < length out)%nat) its →
  fold_result (emit_flat f') plans out = Ok (store_all its out).
Proof.
  intros Hget Hp. revert out. induction Hp as [|t plan its plans (Ho & g & Hh & Hdec) Hp IH]; intros out Hlen; [done|].
  apply Forall_cons in Hlen as [Hlt Hlen]. cbn [fold_result store_all].
  assert (emit_flat f' plan out = Ok (<[it_index t := it_docs t]> out)) as ->.
  { unfold emit_flat. rewrite Ho. destruct (lookup_lt_is_Some_2 out (it_index t) Hlt) as [x ->].
    unfold decode_flat_plan. rewrite (Hget _ _ Hh), bind_Ok. unfold decode_flat_docs. by rewrite Hdec, bind_Ok. }
  rewrite bind_Ok. apply IH. by rewrite length_insert.
Qed.

Lemma decode_windows_ok f f' ws dss out :
  (∀ h g, handle_at f h g → get f' h = Ok (FileIO.window file (FileIO.offset g) (FileIO.len g))) →
  Forall2 (λ w d, ∃ g, handle_at f (wh_handle w) g ∧
    decode_window_slices (wh_meta w) (FileIO.window file (FileIO.offset g) (FileIO.len g)) [] [] false false = Ok d) ws dss →
  fold_result (decode_one_window f') ws out = Ok (out ++ docids (join dss)).
Proof.
  intros Hget Hw. revert out. induction Hw as [|w d ws dss (g & Hh & Hdec) Hw IH]; intros out; cbn [fold_result].
  { cbn. by rewrite app_nil_r. }
  assert (decode_one_window f' w out = Ok (out ++ d.1.1)) as ->.
  { unfold decode_one_window. rewrite (Hget _ _ Hh), bind_Ok, Hdec, bind_Ok. by destruct d as [[? ?] ?]. }
  rewrite bind_Ok, IH. unfold join. cbn [docids map concat]. by rewrite <- app_assoc.
Qed.

Lemma emit_windows_ok f f' its plans out :
  (∀ h g, handle_at f h g → get f' h = Ok (FileIO.window file (FileIO.offset g) (FileIO.len g))) →
  Forall2 (window_planned f) its plans → NoDup (map it_index its) →
  Forall (λ t, out !! it_index t = Some []) its →
  fold_result (emit_window f') plans out = Ok (store_all its out).
Proof.
  intros Hget Hp. revert out. induction Hp as [|t plan its plans (Ho & dss & Hds & Hw) Hp IH]; intros out Hnd Hout; [done|].
  apply Forall_cons in Hout as [Ht Hout]. cbn [map] in Hnd. apply NoDup_cons in Hnd as [Hni Hnd]. cbn [fold_result store_all].
  assert (emit_window f' plan out = Ok (<[it_index t := it_docs t]> out)) as ->.
  { unfold emit_window. rewrite Ho, Ht. unfold decode_window_plan.
    by rewrite (decode_windows_ok f f' _ dss [] Hget Hw), bind_Ok, Hds. }
  rewrite bind_Ok. apply IH; [done|]. apply Forall_forall. intros u Hu. rewrite list_lookup_insert_ne.
  - rewrite Forall_forall in Hout. by apply Hout.
  - intros Heq. apply Hni. rewrite Heq. by apply list_elem_of_fmap_2.
Qed.
End Batch.

Lemma store_all_length its out : length (store_all its out) = length out.
Proof. revert out. induction its as [|t its IH]; intros out; cbn; [done|]. by rewrite IH, length_insert. Qed.

Lemma store_all_other its out j : (∀ t, t ∈ its → it_index t ≠ j) → store_all its out !! j = out !! j.
Proof.
  revert out. induction its as [|t its IH]; intros out Hj; cbn [store_all]; [done|].
  rewrite IH by (intros u Hu; apply Hj; by right). apply list_lookup_insert_ne. apply Hj. by left.
Qed.

Lemma store_all_in its out t :
  NoDup (map it_index its) → t ∈ its → (it_index t < length out)%nat →
  store_all its out !! it_index t = Some (it_docs t).
Proof.
  revert out. induction its as [|u its IH]; intros out Hnd Ht Hlt; [by apply elem_of_nil in Ht|].
  cbn [map] in Hnd. apply NoDup_cons in Hnd as [Hni Hnd]. cbn [store_all].
  apply elem_of_cons in Ht as [-> |Ht]; [|apply IH; [done|done|by rewrite length_insert]].
  rewrite store_all_other, list_lookup_insert_eq; [done|done|].
  intros v Hv Heq. apply Hni. rewrite <- Heq. by apply list_elem_of_fmap_2.
Qed.

Lemma items_filter (P : Item → bool) its t : t ∈ List.filter P its ↔ t ∈ its ∧ P t = true.
Proof. rewrite !list_elem_of_In. apply filter_In. Qed.

Lemma items_filter_nodup (P : Item → bool) its : NoDup (map it_index its) → NoDup (map it_index (List.filter P its)).
Proof.
  induction its as [|t its IH]; intros Hnd; [done|]. cbn [map] in Hnd. apply NoDup_cons in Hnd as [Hni Hnd].
  cbn [List.filter]. destruct (P t); [|by apply IH]. cbn [map]. constructor; [|by apply IH].
  intros Hin. apply Hni. apply list_elem_of_fmap in Hin as (u & Hu & Hin). apply items_filter in Hin as [Hin _].
  rewrite Hu. by apply list_elem_of_fmap_2.
Qed.

(** The items of a batch, from index [i] on. *)
Fixpoint items_from (i : nat) (ps : list ResolvedDocidPosting) (dss : list (list Z)) : list Item :=
  match ps, dss with
  | p :: ps, ds :: dss => mkItem i p ds :: items_from (S i) ps dss
  | _, _ => []
  end.

Lemma items_from_spec i ps dss :
  length ps = length dss →
  map (λ t, (it_index t, it_posting t)) (items_from i ps dss) = zip (seq i (length ps)) ps ∧
  map it_index (items_from i ps dss) = seq i (length ps) ∧ map it_docs (items_from i ps dss) = dss ∧
  Forall (λ t, (i ≤ it_index t)%nat ∧ ps !! (it_index t - i)%nat = Some (it_posting t)) (items_from i ps dss).
Proof.
  revert i dss. induction ps as [|p ps IH]; intros i [|ds dss] Hlen; cbn in Hlen; try done.
  destruct (IH (S i) dss) as (H1 & H2 & H3 & H4); [lia|]. cbn [items_from map length seq zip zip_with it_index it_posting it_docs].
  rewrite H1, H2, H3. split_and!; [done..|]. constructor; [cbn; split; [lia|by rewrite Nat.sub_diag]|].
  eapply Forall_impl; [exact H4|]. intros t [Hle Ht]. split; [lia|].
  replace (it_index t - i)%nat with (S (it_index t - S i)) by lia. exact Ht.
Qed.

(** The three stores of the batch fill the output. *)
Lemma store_classes its n :
  map it_index its = seq 0 n →
  store_all (windowed_items its) (store_all (slim_items its) (store_all (inlined_items its) (replicate n []))) =
    map it_docs its ∧
  Forall (λ t, store_all (slim_items its) (store_all (inlined_items its) (replicate n [])) !! it_index t = Some [])
    (windowed_items its).
Proof.
  intros Hix. assert (NoDup (map it_index its)) as Hnd by (rewrite Hix; apply NoDup_seq).
  assert (length its = n) as Hn by (by rewrite <- (length_map it_index), Hix, length_seq).
  assert (∀ j t, its !! j = Some t → it_index t = j) as Hij.
  { intros j t Hj. assert (map it_index its !! j = Some (it_index t)) as Hm by (by apply list_lookup_fmap_Some_2).
    rewrite Hix in Hm. apply lookup_seq in Hm as [-> _]. lia. }
  assert (∀ t u, t ∈ its → u ∈ its → it_index t = it_index u → t = u) as Hinj.
  { intros t u [j Ht]%list_elem_of_lookup [k Hu]%list_elem_of_lookup Heq.
    apply Hij in Ht as Hj. apply Hij in Hu as Hk. assert (j = k) as -> by congruence. rewrite Ht in Hu. by injection Hu. }
  assert (∀ P Q t, (∀ u : Item, P u = true → Q u = true → False) → t ∈ its → P t = true →
    ∀ u, u ∈ List.filter Q its → it_index u ≠ it_index t) as Hapart.
  { intros P Q t Hpq Ht Hp u Hu Heq. apply items_filter in Hu as [Hu Hq].
    assert (u = t) as -> by by apply Hinj. by apply (Hpq t). }
  assert (∀ u, inlined (it_posting u) = true → slim (it_posting u) = true → False) as Hd1.
  { intros u Hu Hv. unfold slim in Hv. by rewrite Hu in Hv. }
  assert (∀ u, inlined (it_posting u) = true → windowed (it_posting u) = true → False) as Hd2.
  { intros u Hu Hv. unfold windowed in Hv. by rewrite Hu in Hv. }
  assert (∀ u, slim (it_posting u) = true → windowed (it_posting u) = true → False) as Hd3.
  { intros u Hu Hv. unfold slim in Hu. rewrite Hv in Hu. by apply andb_true_iff in Hu as [_ ?]. }
  assert (∀ t, t ∈ its → (it_index t < n)%nat) as Hlt.
  { intros t [j Hj]%list_elem_of_lookup. apply Hij in Hj as Hjt. apply lookup_lt_Some in Hj. lia. }
  assert (∀ t, windowed (it_posting t) = true → t ∈ its →
    store_all (slim_items its) (store_all (inlined_items its) (replicate n [])) !! it_index t = Some []) as Hw.
  { intros t Hk Ht. rewrite store_all_other by (apply (Hapart (λ u, windowed (it_posting u))); [|done|done]; naive_solver).
    rewrite store_all_other by (apply (Hapart (λ u, windowed (it_posting u))); [|done|done]; naive_solver).
    apply lookup_replicate. split; [done|by apply Hlt]. }
  split.
  - apply list_eq. intros j. destruct (its !! j) as [t|] eqn:Hj.
    2: { rewrite !lookup_ge_None_2; [done|rewrite length_map; by apply lookup_ge_None_1 in Hj|].
         rewrite !store_all_length, length_replicate. apply lookup_ge_None_1 in Hj. lia. }
    assert (map it_docs its !! j = Some (it_docs t)) as -> by (by apply list_lookup_fmap_Some_2). apply Hij in Hj as Hjt. subst j.
    assert (t ∈ its) as Ht by by apply list_elem_of_lookup_2 in Hj.
    destruct (windowed (it_posting t)) eqn:Hkw.
    { apply store_all_in; [by apply items_filter_nodup|by apply items_filter|]. rewrite !store_all_length, length_replicate. by apply Hlt. }
    destruct (inlined (it_posting t)) eqn:Hki.
    + rewrite store_all_other by (apply (Hapart (λ u, inlined (it_posting u))); naive_solver).
      rewrite store_all_other by (apply (Hapart (λ u, inlined (it_posting u))); naive_solver).
      apply store_all_in; [by apply items_filter_nodup|by apply items_filter|]. rewrite length_replicate. by apply Hlt.
    + assert (slim (it_posting t) = true) as Hks by (unfold slim; by rewrite Hki, Hkw).
      rewrite store_all_other by (apply (Hapart (λ u, slim (it_posting u))); naive_solver).
      apply store_all_in; [by apply items_filter_nodup|by apply items_filter|].
      rewrite store_all_length, length_replicate. by apply Hlt.
  - apply Forall_forall. intros t [Ht Hk]%items_filter. by apply Hw.
Qed.

Section Exact.
Context `{ZstdOps} `{SortLaws} (file : bytes) (idx : LogicalIndexReader).
Context (Hfile : zlen file < 2 ^ 64) (Hserves : serves file (reader_ idx)).

Lemma read_batched_ok ps dss :
  Forall2 (holds_docs file idx) ps dss → read_docid_postings_batched idx ps = Ok dss.
Proof.
  intros Hps. pose proof (Forall2_length _ _ _ Hps) as Hlen.
  destruct (items_from_spec 0 ps dss Hlen) as (Hzip & Hix & Hdocs & Hpost). set (its := items_from 0 ps dss) in *.
  assert (Forall (item_ok file idx) its) as Hits.
  { clear -Hps. subst its. generalize 0%nat. induction Hps as [|p ds ps dss Hp Hps IH]; intros n; cbn; constructor; [done|apply IH]. }
  destruct (store_classes its (length ps) Hix) as [Hstore Hempty].
  assert (∀ P, Forall (item_ok file idx) (List.filter P its)) as Hsub.
  { intros P. apply Forall_forall. intros t [Ht _]%items_filter. rewrite Forall_forall in Hits. by apply Hits. }
  unfold read_docid_postings_batched. rewrite <- Hzip, (plan_postings_ok file idx Hfile its) by done. rewrite bind_Ok.
  cbn [ps_docids ps_flat ps_windows ps_fetcher app new_fetcher reqs_ length].
  (* the preludes *)
  assert (Forall (λ t, windowed (it_posting t) = true) (windowed_items its)) as Hwk
    by (apply Forall_forall; by intros t [_ ?]%items_filter).
  destruct (fetch_ranges file idx Hfile Hserves (map (λ t, prelude_range idx (it_posting t)) (windowed_items its)))
    as (fp & Hfp & Hgetp).
  { apply Forall_fmap, Forall_forall. intros t Ht. rewrite Forall_forall in Hwk. specialize (Hwk t Ht).
    pose proof (Hsub (λ t, windowed (it_posting t))) as Hok. rewrite Forall_forall in Hok. specialize (Hok t Ht).
    destruct Hok as [Hi|g Hs|prelude _ [Hat _]];
      [by unfold windowed in Hwk; rewrite Hi in Hwk|unfold slim in Hs; rewrite Hwk in Hs; by apply andb_true_iff in Hs as [_ ?]|].
    destruct Hat as [_ _ _ Hp (? & ? & ?) _ _ _]. unfold in_file. cbn. lia. }
  destruct (open_preludes_ok file idx fp 0 (windowed_items its) (Hsub _) Hwk) as (plans & Hopen & Hplans).
  { intros k t Hk. apply (Hgetp (0 + k)%nat). exact (list_lookup_fmap_Some_2 (λ t, prelude_range idx (it_posting t)) _ _ _ Hk). }
  set (pf := add_all _ _) in *.
  assert ((if 0 <? pending pf then
       prelude_fetcher ← fetch (reader_ idx) pf; open_window_preludes prelude_fetcher (window_plans_from 0 (windowed_items its))
     else Ok (window_plans_from 0 (windowed_items its))) = Ok plans) as ->.
  { unfold pending. destruct (Z.ltb_spec 0 (zlen (reqs_ pf))) as [|Hnone]; [by rewrite Hfp, bind_Ok|].
    destruct (add_all_reqs (map (λ t, prelude_range idx (it_posting t)) (windowed_items its)) (new_fetcher 0)) as [Hr _].
    fold pf in Hr. rewrite Hr in Hnone. cbn [new_fetcher reqs_ app] in Hnone. rewrite !length_map in Hnone.
    destruct (windowed_items its); [|cbn in Hnone; lia]. by apply Forall2_nil_inv_l in Hplans as ->. }
  rewrite bind_Ok.
  (* the document ranges *)
  destruct (plan_flats_ok file idx ps (slim_items its) (new_fetcher 0) []) as (f1 & flats & -> & He1 & Hflats).
  { apply Hsub. } { apply Forall_forall. by intros t [_ ?]%items_filter. }
  { apply Forall_forall. intros t [Ht _]%items_filter. rewrite Forall_forall in Hpost.
    destruct (Hpost t Ht) as [_ Hl]. by rewrite Nat.sub_0_r in Hl. }
  rewrite bind_Ok.
  destruct (plan_windows_ok file idx Hfile (windowed_items its) plans f1 [] Hplans) as (f2 & wins & -> & He2 & Hwins).
  rewrite bind_Ok. cbn [app].
  destruct (fetch_handles file idx Hfile Hserves f2) as (f3 & -> & Hget); [by eapply extends_trans|]. rewrite bind_Ok.
  assert (Forall2 (flat_planned file f2) (slim_items its) flats) as Hflats2.
  { eapply Forall2_impl; [exact Hflats|]. intros t plan. by apply flat_planned_extends. }
  rewrite (emit_flats_ok file f2 f3 (slim_items its) flats); [|done|done|].
  - rewrite bind_Ok, (emit_windows_ok file f2 f3 (windowed_items its) wins); [by rewrite Hstore, Hdocs|done|done| |done].
    apply items_filter_nodup. rewrite Hix. apply NoDup_seq.
  - apply Forall_forall. intros t [Ht _]%items_filter. rewrite store_all_length, length_replicate.
    apply (list_elem_of_fmap_2 it_index) in Ht. change (it_index <$> its) with (map it_index its) in Ht.
    rewrite Hix in Ht. apply elem_of_seq in Ht. lia.
Qed.
End Exact.

(** ** The rounds of reads *)

(** The index over another reader. *)
Definition with_reader (r : FileReader) (idx : LogicalIndexReader) : LogicalIndexReader :=
  mkLogicalIndexReader r (tier_ idx) (LogicalIndexReader.has_positions_ idx) (meta_ idx) (sti_ idx) (dbd_ idx) (bsbf_header_ idx)
    (has_bsbf_ idx) (bsbf_resident_ idx) (bsbf_resident_bitset_ idx).

Section Rounds.
Context `{ZstdOps} `{Sort} (idx : LogicalIndexReader).

(** Planning adds prelude ranges for windowed postings only. *)
Lemma plan_posting_fetcher i p st st' :
  plan_posting idx i p st = Ok st' → windowed p = false → ps_fetcher st' = ps_fetcher st.
Proof.
  unfold plan_posting, windowed, inlined. intros Hp Hw. cbv zeta in Hp.
  destruct (decide (kind (rp_entry p) = kInline)) as [Hk|Hk]; [inv_bind Hp; by injection Hp as <-|].
  destruct (decide (enc (rp_entry p) = kWindowed)) as [He|He]; [|by injection Hp as <-].
  by rewrite bool_decide_false, bool_decide_true in Hw.
Qed.

Lemma plan_postings_fetcher ips st st' :
  fold_result (λ '(i, posting), plan_posting idx i posting) ips st = Ok st' →
  existsb windowed (map snd ips) = false → ps_fetcher st' = ps_fetcher st.
Proof.
  revert st. induction ips as [|[i p] ips IH]; intros st; cbn [fold_result map snd existsb]; [by intros [= <-]|].
  intros Hf [Hw Hws]%orb_false_iff. inv_bind Hf. rewrite (IH _ Hf Hws). by eapply plan_posting_fetcher.
Qed.

(** At most two batches are asked for, one if no posting is windowed: planning
    never reads. *)
Lemma batch_reads r ps :
  reads_at_most (if existsb windowed ps then 2 else 1) r (λ r, read_docid_postings_batched (with_reader r idx) ps).
Proof.
  set (n := if existsb windowed ps then 1%nat else 0%nat).
  apply (rounds_mono _ (0 + (n + (0 + (0 + (1 + 0)))))); [subst n; destruct (existsb windowed ps); lia|].
  apply (rounds_bind r 0 _ (λ _, fold_result (λ '(i, posting), plan_posting idx i posting) (zip (seq 0 (length ps)) ps)
           (mkPlanState (replicate (length ps) []) [] [] (new_fetcher 0)))); [apply rounds_none|].
  intros st Hplan. apply rounds_bind.
  - subst n. destruct (existsb windowed ps) eqn:Hw.
    + destruct (0 <? pending (ps_fetcher st)); [|eapply rounds_mono, rounds_none; lia].
      apply (rounds_bind _ 1 0); [apply fetch_reads|]. intros f _. apply rounds_none.
    + apply plan_postings_fetcher in Hplan; [rewrite Hplan; exact (rounds_none r (Ok (ps_windows st)))|].
      change (existsb windowed (snd <$> zip (seq 0 (length ps)) ps) = false). by rewrite snd_zip by (by rewrite length_seq).
  - intros plans _. apply (rounds_bind r 0 _ (λ _, fold_result (plan_flat idx ps) (ps_flat st) (new_fetcher 0, []))); [apply rounds_none|].
    intros [f1 flats] _. apply (rounds_bind r 0 _ (λ _, fold_result (plan_window idx) plans (f1, []))); [apply rounds_none|].
    intros [f2 wins] _. apply rounds_bind; [|intros f _; apply rounds_none].
    unfold fetch_if_pending. destruct (0 <? pending f2); [apply fetch_reads|eapply rounds_mono, rounds_none; lia].
Qed.
End Rounds.

(** ** Properties *)

(** C17: a batch of entries, inline, slim and windowed in any mixture, is read to
    the documents each of them holds, in the order of the batch; reading one
    entry alone gives the same. It takes at most two batched reads, the preludes
    and the documents, and one when no entry is windowed: over any reader that
    agrees on those the outcome is the same, whatever else it would return. *)
Theorem docid_batch_exact `{ZstdOps} `{SortLaws} file idx ps dss :
  serves file (reader_ idx) → zlen file < 2 ^ 64 → Forall2 (holds_docs file idx) ps dss →
  read_docid_postings_batched idx ps = Ok dss ∧
  (∀ i p ds, ps !! i = Some p → dss !! i = Some ds →
    read_docid_posting idx (rp_entry p) (rp_frq_base p) (rp_prx_base p) = Ok ds) ∧
  reads_at_most (if existsb windowed ps then 2 else 1) (reader_ idx) (λ r, read_docid_postings_batched (with_reader r idx) ps).
Proof.
  intros Hs Hf Hps. split; [by apply (read_batched_ok file)|]. split; [|apply batch_reads]. intros i p ds Hp Hd. unfold read_docid_posting.
  rewrite (read_batched_ok file idx Hf Hs [_] [ds]); [done|]. constructor; [|constructor].
  destruct p as [e fb pb]. exact (Forall2_lookup_lr _ _ _ _ _ _ Hps Hp Hd).
Qed.

(** ** Witness *)

Definition sample_inline_entry : DictEntry :=
  let '(bs, m) := sample_dd [3] 0 in
  mkDictEntry [98] kInline kSlim false 1 1 1 0 0 0 0 0 0 m default_region_meta (zlen bs) bs [].
(** The dd region of the first window, referenced as a slim posting. *)
Definition sample_slim_entry : DictEntry :=
  let '(bs, m) := sample_dd [1; 5] 0 in
  mkDictEntry [99] kPodRef kSlim false 2 2 1 (zlen sample_prx_span + zlen sample_prelude_bytes) (zlen bs) 0 0 0 0
    m default_region_meta 0 [] [].

Definition sample_batch : list ResolvedDocidPosting :=
  [mkResolved sample_windowed_entry 0 0; mkResolved sample_inline_entry 0 0; mkResolved sample_slim_entry 0 0].

Lemma sample_batch_holds :
  Forall2 (holds_docs (H := StoredZstd.ops) sample_posting_file sample_idx) sample_batch [[1; 5; 9; 12]; [3]; [1; 5]].
Proof.
  repeat apply Forall2_cons_2; [..|constructor].
  - apply (windowed_docs (H := StoredZstd.ops) _ _ _ _ sample_prelude); [by vm_compute|].
    split; [exact sample_frq_at|]. eexists. split; [exact (sample_yields false false)|by vm_compute].
  - apply inline_docs; [by vm_compute|by vm_compute|by vm_compute].
  - apply (slim_docs (H := StoredZstd.ops) _ _ _ _
      (mkRange (3 + zlen sample_prx_span + zlen sample_prelude_bytes) (zlen (sample_dd [1; 5] 0).1)));
      [by vm_compute| |by vm_compute].
    exists (zlen (sample_dd [1; 5] 0).1). split; [by vm_compute|]. split; [by vm_compute|by vm_compute].
Qed.

Lemma docid_batch_exact_witness :
  read_docid_postings_batched (H := StoredZstd.ops) (H0 := InsertionSort.sort) sample_idx sample_batch =
    Ok [[1; 5; 9; 12]; [3]; [1; 5]] ∧
  (∀ i p ds, sample_batch !! i = Some p → [[1; 5; 9; 12]; [3]; [1; 5]] !! i = Some ds →
    read_docid_posting (H := StoredZstd.ops) (H0 := InsertionSort.sort) sample_idx (rp_entry p) (rp_frq_base p)
      (rp_prx_base p) = Ok ds) ∧
  reads_at_most 2 (reader_ sample_idx) (λ r, read_docid_postings_batched (H := StoredZstd.ops) (H0 := InsertionSort.sort)
    (with_reader r sample_idx) sample_batch).
Proof.
  apply (docid_batch_exact (H := StoredZstd.ops) (H0 := InsertionSort.sort) sample_posting_file sample_idx sample_batch);
    [apply memory_file_serves|by vm_compute|exact sample_batch_holds].
Defined.
