(* ===== verification/Queries.v ===== *)
(** * Queries: the document-set queries over an index.

    [query/docid_union.cpp], [query/term_expansion.cpp], [query/term_query.cpp],
    [query/boolean_query.cpp], [query/prefix_query.cpp],
    [query/wildcard_query.cpp] and [query/regexp_query.cpp], with
    [query/docid_sink.h]. A sink is its [append_sorted], on the state it keeps;
    the overloads that collect I/O metrics only add a profile to the same call.
    The interpreter of [std::regex] is the class [Regex]: what the query needs of
    it is whether a pattern compiles and which terms it matches whole, and
    [RegexLaws] that a pattern with a literal start only matches terms that
    start so. *)

From S2P Require Import Prelude StdAlgorithms Status ByteIO FormatConstants Zstd TermKey DictEntry DictBlock.
From S2P Require Import FileIO Bsbf BatchRangeFetcher DocidSets TermPatterns LogicalIndexReader.
From S2P Require Import WindowedPosting DocidPostingReader.

#[local] Open Scope Z_scope.

(** [DocIdSink::append_sorted] *)
Class DocIdSink (S : Type) := append_sorted : list Z → S → result S.
(** [VectorDocIdSink] *)
#[export] Instance VectorDocIdSink : DocIdSink (list Z) := λ docids out, Ok (out ++ docids).

(** [std::regex]: [inl] is the text of the [regex_error]. *)
Class Regex := {
  regex : Type;
  make_regex : bytes → string + regex;
  regex_match : bytes → regex → bool
}.

(** What [std::regex] documents of the patterns that start with a literal: a
    whole match starts with it. *)
Class RegexLaws `{Regex} :=
  regex_starts pattern lit re t :
    literal_start pattern lit → make_regex pattern = inr re → regex_match t re = true → lit `prefix_of` t.

#[export] Instance term_le_dec s t : Decision (term_le s t).
Proof. unfold term_le. apply _. Defined.

(** Equal terms are indistinguishable, so any sort gives the same list. *)
Definition unique_terms (terms : list bytes) : list bytes := unique (merge_sort term_le terms).

Definition resolved (hit : PrefixHit) : ResolvedDocidPosting :=
  mkResolved (hit_entry hit) (hit_frq_base hit) (hit_prx_base hit).

Section Queries.
Context `{ZstdOps} `{Sort} `{BsbfEnv} `{PriorityQueue}.

Definition emit_docid_union {S} `{DocIdSink S} (idx : LogicalIndexReader)
    (postings : list ResolvedDocidPosting) (sink : S) : result S :=
  match postings with
  | [] => Ok sink
  | _ =>
      docs_by_posting ← read_docid_postings_batched idx postings;
      acc ← union_sorted_many docs_by_posting;
      match acc with [] => Ok sink | _ => append_sorted acc sink end
  end.

Definition emit_expanded_docid_union {S} `{DocIdSink S} (idx : LogicalIndexReader) (enum_prefix : bytes)
    (matches : bytes → bool) (sink : S) : result S :=
  hits ← prefix_terms idx enum_prefix;
  emit_docid_union idx (map resolved (List.filter (λ hit, matches (hit_term hit)) hits)) sink.

Definition term_query (idx : LogicalIndexReader) (term : bytes) : result (list Z) :=
  found ← lookup idx term;
  match found with
  | None => Ok []
  | Some hit => read_docid_posting idx (hit_entry hit) (hit_frq_base hit) (hit_prx_base hit)
  end.

(** One round of the loop over the unique terms. *)
Definition resolve_or_term (idx : LogicalIndexReader) (term : bytes) (postings : list ResolvedDocidPosting)
    : result (list ResolvedDocidPosting) :=
  found ← lookup idx term;
  Ok (match found with None => postings | Some hit => postings ++ [resolved hit] end).

Definition boolean_or_sink {S} `{DocIdSink S} (idx : LogicalIndexReader) (terms : list bytes) (sink : S) : result S :=
  match terms with
  | [] => Ok sink
  | _ =>
      postings ← fold_result (resolve_or_term idx) (unique_terms terms) [];
      emit_docid_union idx postings sink
  end.
Definition boolean_or (idx : LogicalIndexReader) (terms : list bytes) : result (list Z) :=
  boolean_or_sink idx terms [].

Definition prefix_query_sink {S} `{DocIdSink S} (idx : LogicalIndexReader) (prefix : bytes) (sink : S) : result S :=
  hits ← prefix_terms idx prefix;
  emit_docid_union idx (map resolved hits) sink.
Definition prefix_query (idx : LogicalIndexReader) (prefix : bytes) : result (list Z) :=
  prefix_query_sink idx prefix [].

Definition wildcard_query_sink {S} `{DocIdSink S} (idx : LogicalIndexReader) (pattern : bytes) (sink : S) : result S :=
  let enum_prefix := literal_prefix_for_wildcard pattern in
  emit_expanded_docid_union idx enum_prefix (wildcard_match pattern) sink.
Definition wildcard_query (idx : LogicalIndexReader) (pattern : bytes) : result (list Z) :=
  wildcard_query_sink idx pattern [].

Definition regexp_query_sink {S} `{DocIdSink S} `{Regex} (idx : LogicalIndexReader) (pattern : bytes) (sink : S)
    : result S :=
  match make_regex pattern with
  | inl what => Err (InvalidArgument ("regexp_query: invalid regex: " ++ what))
  | inr re =>
      let enum_prefix := literal_prefix_for_regex pattern in
      emit_expanded_docid_union idx enum_prefix (λ term, regex_match term re) sink
  end.
Definition regexp_query `{Regex} (idx : LogicalIndexReader) (pattern : bytes) : result (list Z) :=
  regexp_query_sink idx pattern [].
End Queries.

(** ** What a query answers *)

Lemma unique_terms_elem terms t : t ∈ unique_terms terms ↔ t ∈ terms.
Proof. unfold unique_terms. by rewrite unique_elem, merge_sort_Permutation. Qed.

(** An index whose entries hold the documents [docs_of] gives for their terms. *)
Record answers `{ZstdOps} `{BsbfEnv} (tier : IndexTier) (hp : bool) (file : bytes) (idx : LogicalIndexReader)
    (blocks : list IndexBlock) (docs_of : bytes → list Z) : Prop := {
  ans_indexes : indexes tier hp file idx blocks;
  ans_file : zlen file < 2 ^ 64;
  ans_docs h : h ∈ index_hits tier hp blocks →
    holds_docs file idx (resolved h) (docs_of (hit_term h)) ∧ ascending (docs_of (hit_term h))
}.

(** The documents of the indexed terms that satisfy [P], each once, ascending. *)
Definition answer_of (blocks : list IndexBlock) (docs_of : bytes → list Z) (P : bytes → Prop) (out : list Z) : Prop :=
  ascending out ∧ ∀ x, x ∈ out ↔ ∃ t, t ∈ index_terms blocks ∧ P t ∧ x ∈ docs_of t.

Section Answers.
Context `{ZstdOps} `{SortLaws} `{BsbfEnv} `{PriorityQueue} (tier : IndexTier) (hp : bool).
Context (file : bytes) (idx : LogicalIndexReader) (blocks : list IndexBlock) (docs_of : bytes → list Z).
Context (Hans : answers tier hp file idx blocks docs_of).

Lemma index_hits_terms : map hit_term (index_hits tier hp blocks) = index_terms blocks.
Proof.
  clear Hans. unfold index_hits, index_terms, index_entries. induction blocks as [|b bs IH]; [done|]. cbn [map concat].
  rewrite !map_app, IH. f_equal. unfold block_hits. by rewrite map_map.
Qed.

Lemma index_terms_hit t : t ∈ index_terms blocks ↔ ∃ h, h ∈ index_hits tier hp blocks ∧ hit_term h = t.
Proof.
  rewrite <- index_hits_terms. split.
  - intros (h & -> & Hh)%list_elem_of_fmap. by exists h.
  - intros (h & Hh & <-). by apply list_elem_of_fmap_2.
Qed.

Lemma find_hit_Some t h : find_hit t (index_hits tier hp blocks) = Some h → h ∈ index_hits tier hp blocks ∧ hit_term h = t.
Proof.
  unfold find_hit. intros Hf. apply find_some in Hf as [Hin Heq]. apply bool_decide_eq_true in Heq.
  split; [by apply list_elem_of_In|done].
Qed.

Lemma find_hit_None t : find_hit t (index_hits tier hp blocks) = None → t ∉ index_terms blocks.
Proof.
  unfold find_hit. intros Hf (h & Hh & <-)%index_terms_hit. apply list_elem_of_In in Hh.
  pose proof (find_none _ _ Hf h Hh) as Hn. cbn in Hn. by rewrite bool_decide_true in Hn.
Qed.

(** The union of the documents of some hits. *)
Lemma emit_union_ok hits :
  (∀ h, h ∈ hits → h ∈ index_hits tier hp blocks) →
  ∃ out, emit_docid_union idx (map resolved hits) [] = Ok out ∧ ascending out ∧
    ∀ x, x ∈ out ↔ ∃ h, h ∈ hits ∧ x ∈ docs_of (hit_term h).
Proof.
  intros Hin. set (dss := map (λ h, docs_of (hit_term h)) hits).
  assert (Forall2 (holds_docs file idx) (map resolved hits) dss) as Hh.
  { subst dss. rewrite Forall2_fmap. apply Forall_Forall2_diag, Forall_forall. intros h Hh.
    by apply (ans_docs _ _ _ _ _ _ Hans), Hin. }
  assert (Forall (StronglySorted Z.lt) dss) as Hs.
  { apply Forall_fmap, Forall_forall. intros h Hh'. by apply (ans_docs _ _ _ _ _ _ Hans), Hin. }
  assert (∀ x, (∃ l, l ∈ dss ∧ x ∈ l) ↔ ∃ h, h ∈ hits ∧ x ∈ docs_of (hit_term h)) as Hel.
  { intros x. split.
    - intros (l & (h & -> & Hh')%list_elem_of_fmap & Hx). by exists h.
    - intros (h & Hh' & Hx). exists (docs_of (hit_term h)). split; [|done].
      exact (list_elem_of_fmap_2 (λ h, docs_of (hit_term h)) _ _ Hh'). }
  pose proof (ans_file _ _ _ _ _ _ Hans) as Hfile. pose proof (ans_indexes _ _ _ _ _ _ Hans) as Hidx.
  unfold emit_docid_union. destruct (map resolved hits) as [|p ps] eqn:Hps.
  { exists []. split; [done|]. split; [constructor|]. intros x. rewrite <- Hel. apply Forall2_nil_inv_l in Hh as ->.
    set_solver. }
  rewrite <- Hps in Hh |- *. rewrite (read_batched_ok file idx Hfile (indexes_serves _ _ _ _ _ Hidx) _ dss Hh), bind_Ok.
  destruct (union_sorted_many_spec dss Hs) as (out & -> & Hasc & Hout). rewrite bind_Ok. exists out.
  split; [by destruct out|]. split; [done|]. intros x. by rewrite Hout.
Qed.

Lemma resolve_terms_ok terms acc :
  fold_result (resolve_or_term idx) terms acc =
    Ok (acc ++ map resolved (omap (λ t, find_hit t (index_hits tier hp blocks)) terms)).
Proof.
  revert acc. induction terms as [|t terms IH]; intros acc; cbn [fold_result omap list_omap map]; [by rewrite app_nil_r|].
  assert (resolve_or_term idx t acc =
    Ok (match find_hit t (index_hits tier hp blocks) with None => acc | Some hit => acc ++ [resolved hit] end)) as ->.
  { unfold resolve_or_term. by rewrite (lookup_indexes tier hp file idx blocks t (ans_indexes _ _ _ _ _ _ Hans)). }
  rewrite bind_Ok, IH. destruct (find_hit t _); [by rewrite <- app_assoc|done].
Qed.

(** Enumerating a prefix and keeping the terms that match. *)
Lemma expansion_ok prefix matches :
  ∃ out, emit_expanded_docid_union idx prefix matches [] = Ok out ∧
    answer_of blocks docs_of (λ t, has_prefix prefix t = true ∧ matches t = true) out.
Proof.
  unfold emit_expanded_docid_union.
  rewrite (prefix_terms_indexes tier hp file idx blocks prefix (ans_indexes _ _ _ _ _ _ Hans)), bind_Ok.
  set (hits := List.filter _ _).
  assert (∀ h, h ∈ hits ↔ h ∈ index_hits tier hp blocks ∧ has_prefix prefix (hit_term h) = true ∧ matches (hit_term h) = true) as Hh.
  { intros h. subst hits. unfold with_prefix. rewrite !list_elem_of_In, !filter_In. tauto. }
  destruct (emit_union_ok hits) as (out & -> & Hasc & Hout); [by intros h [? _]%Hh|].
  exists out. split; [done|]. split; [done|]. intros x. rewrite Hout. split.
  - intros (h & [Hin [Hp Hm]]%Hh & Hx). exists (hit_term h). split; [apply index_terms_hit; by exists h|done].
  - intros (t & (h & Hin & <-)%index_terms_hit & [Hp Hm] & Hx). exists h. split; [by apply Hh|done].
Qed.

Lemma has_prefix_of p t : has_prefix p t = true ↔ p `prefix_of` t.
Proof.
  clear Hans. revert t. induction p as [|a p IH]; intros t.
  - rewrite has_prefix_nil. split; [intros _; apply prefix_nil|done].
  - destruct t as [|b t]; [split; [done|by intros ?%prefix_nil_not]|].
    rewrite has_prefix_cons, andb_true_iff, Z.eqb_eq, IH. split.
    + intros [-> Hp]. by apply prefix_cons.
    + intros Hp. split; [by apply prefix_cons_inv_1 in Hp|by apply prefix_cons_inv_2 in Hp].
Qed.

Lemma answer_of_ext P Q out :
  (∀ t, t ∈ index_terms blocks → P t ↔ Q t) → answer_of blocks docs_of P out → answer_of blocks docs_of Q out.
Proof.
  intros HPQ [Ha Hx]. split; [done|]. intros x. rewrite Hx. split; intros (t & Ht & Hp & Hd); exists t;
    (split; [done|split; [by apply HPQ|done]]).
Qed.
End Answers.

Section Exact.
Context `{ZstdOps} `{SortLaws} `{BsbfEnv} `{PriorityQueue}.

Lemma term_query_answers tier hp file idx blocks docs_of t :
  answers tier hp file idx blocks docs_of →
  term_query idx t = Ok (if decide (t ∈ index_terms blocks) then docs_of t else []).
Proof.
  intros Hans. pose proof (ans_indexes _ _ _ _ _ _ Hans) as Hidx. unfold term_query.
  rewrite (lookup_indexes tier hp file idx blocks t Hidx), bind_Ok.
  destruct (find_hit t (index_hits tier hp blocks)) as [h|] eqn:Hf.
  - apply find_hit_Some in Hf as [Hin <-]. rewrite decide_True by (apply (index_terms_hit tier hp); by exists h).
    pose proof (proj1 (ans_docs _ _ _ _ _ _ Hans h Hin)) as Hd. unfold read_docid_posting.
    rewrite (read_batched_ok file idx (ans_file _ _ _ _ _ _ Hans) (indexes_serves _ _ _ _ _ Hidx) _ [docs_of (hit_term h)]);
      [done|]. by constructor.
  - rewrite decide_False; [done|]. by apply (find_hit_None tier hp).
Qed.

(** ** Properties *)

(** C12: a term query returns exactly the documents of the term, and the empty
    list for a term that is not indexed. *)
Theorem term_query_exact tier hp file idx blocks docs_of t :
  answers tier hp file idx blocks docs_of →
  term_query idx t = Ok (if decide (t ∈ index_terms blocks) then docs_of t else []).
Proof. apply term_query_answers. Qed.

(** C13: a disjunction returns, ascending and without duplicates, the documents
    of the queried terms that are indexed; repeated and unknown terms change
    nothing. *)
Theorem boolean_or_exact tier hp file idx blocks docs_of terms :
  answers tier hp file idx blocks docs_of →
  ∃ out, boolean_or idx terms = Ok out ∧ answer_of blocks docs_of (λ t, t ∈ terms) out.
Proof.
  intros Hans. unfold boolean_or, boolean_or_sink. destruct terms as [|t0 terms'] eqn:Ht.
  { exists []. split; [done|]. split; [constructor|]. set_solver. }
  rewrite <- Ht. clear Ht t0 terms'. rewrite (resolve_terms_ok tier hp file idx blocks docs_of Hans), bind_Ok. cbn [app].
  set (hits := omap _ _). assert (∀ h, h ∈ hits ↔ ∃ t, t ∈ terms ∧ find_hit t (index_hits tier hp blocks) = Some h) as Hh.
  { intros h. subst hits. rewrite list_elem_of_omap. by setoid_rewrite unique_terms_elem. }
  destruct (emit_union_ok tier hp file idx blocks docs_of Hans hits) as (out & -> & Hasc & Hout).
  { intros h (t & _ & Hf)%Hh. by apply (find_hit_Some tier hp blocks t). }
  exists out. split; [done|]. split; [done|]. intros x. rewrite Hout. split.
  - intros (h & (t & Ht & Hf)%Hh & Hx). apply find_hit_Some in Hf as [Hin <-].
    exists (hit_term h). split; [apply (index_terms_hit tier hp); by exists h|done].
  - intros (t & Hin & Ht & Hx). destruct (find_hit t (index_hits tier hp blocks)) as [h|] eqn:Hf.
    + exists h. split; [apply Hh; by exists t|]. by apply find_hit_Some in Hf as [_ ->].
    + by apply find_hit_None in Hf.
Qed.

(** C14: a wildcard query returns the documents of exactly the indexed terms the
    pattern describes; limiting the enumeration to its literal prefix loses none. *)
Theorem wildcard_query_exact tier hp file idx blocks docs_of pattern :
  answers tier hp file idx blocks docs_of →
  ∃ out, wildcard_query idx pattern = Ok out ∧ answer_of blocks docs_of (glob pattern) out.
Proof.
  intros Hans. destruct (expansion_ok tier hp file idx blocks docs_of Hans
    (literal_prefix_for_wildcard pattern) (wildcard_match pattern)) as (out & Hgo & Hout).
  exists out. split; [exact Hgo|]. eapply answer_of_ext; [|exact Hout]. intros t _. cbn. rewrite has_prefix_of.
  rewrite <- wildcard_match_spec. split; [by intros [_ ?]|]. intros Hm. split; [by apply literal_prefix_of_match|done].
Qed.

(** C15: a prefix query returns the documents of exactly the indexed terms that
    start with the prefix. *)
Theorem prefix_query_exact tier hp file idx blocks docs_of prefix :
  answers tier hp file idx blocks docs_of →
  ∃ out, prefix_query idx prefix = Ok out ∧ answer_of blocks docs_of (λ t, prefix `prefix_of` t) out.
Proof.
  intros Hans. destruct (expansion_ok tier hp file idx blocks docs_of Hans prefix (λ _, true)) as (out & Hgo & Hout).
  exists out. split.
  - unfold prefix_query, prefix_query_sink. unfold emit_expanded_docid_union in Hgo.
    rewrite (prefix_terms_indexes tier hp file idx blocks prefix (ans_indexes _ _ _ _ _ _ Hans)) in *.
    rewrite bind_Ok in Hgo |- *. rewrite <- Hgo. do 2 f_equal. symmetry. apply forallb_filter_id.
    by apply forallb_forall.
  - eapply answer_of_ext; [|exact Hout]. intros t _. cbn. rewrite has_prefix_of. tauto.
Qed.

(** C16: a regular-expression query refuses a pattern that does not compile.
    Otherwise it returns, ascending, only documents of indexed terms that the
    expression matches whole; and for a pattern that starts with a literal its
    quantifiers and alternatives leave alone (possibly the empty one), the
    documents of all of them: limiting the enumeration to that literal loses
    none. *)
Theorem regexp_query_exact `{RegexLaws} tier hp file idx blocks docs_of pattern :
  answers tier hp file idx blocks docs_of →
  match make_regex pattern with
  | inl what => regexp_query idx pattern = Err (InvalidArgument ("regexp_query: invalid regex: " ++ what))
  | inr re => ∃ out, regexp_query idx pattern = Ok out ∧ StronglySorted Z.lt out ∧
      (∀ x, x ∈ out → ∃ t, t ∈ index_terms blocks ∧ regex_match t re = true ∧ x ∈ docs_of t) ∧
      ∀ lit, literal_start pattern lit → answer_of blocks docs_of (λ t, regex_match t re = true) out
  end.
Proof.
  intros Hans. unfold regexp_query, regexp_query_sink. destruct (make_regex pattern) as [what|re] eqn:Hre; [done|].
  destruct (expansion_ok tier hp file idx blocks docs_of Hans (literal_prefix_for_regex pattern)
    (λ term, regex_match term re)) as (out & Hgo & Hout).
  exists out. split; [exact Hgo|]. split; [by destruct Hout|]. split.
  - intros x (t & Ht & [_ Hm] & Hx)%Hout. by exists t.
  - intros lit Hlit. eapply answer_of_ext; [|exact Hout]. intros t _. cbn. rewrite has_prefix_of, (literal_prefix_for_regex_start _ _ Hlit).
    split; [by intros [_ ?]|]. intros Hm. split; [by eapply regex_starts|done].
Qed.
End Exact.

(** ** Witnesses *)

(** Three inline terms in one block: [a] in 1 and 5, [ab] in 2, [b] in 5 and 9. *)
Definition sample_docs_entry (t : bytes) (docs : list Z) : DictEntry :=
  let '(bs, m) := sample_dd docs 0 in
  mkDictEntry t kInline kSlim false (zlen docs) 0 0 0 0 0 0 0 0 m (FrqPod.mkFrqRegionMeta false 0 0 0 false)
    (zlen bs) bs [].
Definition sample_doc_entries : list DictEntry :=
  [sample_docs_entry [97] [1; 5]; sample_docs_entry [97; 98] [2]; sample_docs_entry [98] [5; 9]].
Definition sample_doc_blocks : list IndexBlock := [mkIndexBlock 0 0 16 sample_doc_entries].
Definition sample_docs_of (t : bytes) : list Z :=
  if decide (t = [97]) then [1; 5] else if decide (t = [97; 98]) then [2] else [5; 9].

Definition sample_query_file : bytes := ib_bytes kT1 false (mkIndexBlock 0 0 16 sample_doc_entries).
Definition sample_query_image : IndexImage :=
  mkIndexImage 1 [] 0 (StatsBlock.mkStatsBlock 10 10 3 5 0) PerIndexMeta.no_refs sample_doc_blocks
    [DictBlockDirectory.mkBlockRef 0 (zlen sample_query_file) 3 0 0 0].

Lemma sample_doc_entries_wf : Forall (wf_entry kT1) sample_doc_entries.
Proof.
  repeat apply Forall_cons_2; [..|constructor];
    (unfold wf_entry, wf_term, wf_region; apply (bool_decide_unpack _); vm_compute; reflexivity).
Qed.

Lemma sample_doc_dictionary_wf : wf_dictionary kT1 false sample_doc_blocks.
Proof.
  split; [|split; [repeat constructor|by vm_compute]]. apply Forall_cons_2; [|constructor]. split; [|done].
  split; [cbn; lia|]. split; [by vm_compute|]. split; [by vm_compute|].
  split; [exact sample_doc_entries_wf|by vm_compute].
Qed.

Lemma sample_query_image_wf :
  wf_image (H := StoredZstd.ops) (H0 := LaneEnv.env) kT1 false sample_query_file sample_query_image.
Proof.
  unfold wf_image. split; [split; [by vm_compute|]; split; [constructor|by vm_compute]|].
  split; [by vm_compute|]. split; [by vm_compute|]. split; [exact sample_doc_dictionary_wf|].
  split; [|split; [|split; [|split]]].
  - apply Forall2_cons_2; [|constructor]. split; [by vm_compute|]. by vm_compute.
  - apply Forall_cons_2; [|constructor]. by vm_compute.
  - by vm_compute.
  - by vm_compute.
  - by apply filter_absent.
Qed.

(** The index the reader opens over the sample file. *)
Definition sample_query_idx : LogicalIndexReader :=
  match open None (memory_file sample_query_file) kT1 false (image_meta sample_query_image) with
  | Ok idx => idx
  | _ => sample_idx
  end.

Lemma sample_answers :
  answers (H := StoredZstd.ops) (H0 := LaneEnv.env) kT1 false sample_query_file sample_query_idx
    sample_doc_blocks sample_docs_of.
Proof.
  split.
  - destruct (open_image (H := StoredZstd.ops) (H0 := LaneEnv.env) kT1 false None sample_query_file
      (memory_file sample_query_file) sample_query_image (memory_file_serves _) sample_query_image_wf) as (idx & Ho & Hidx & _).
    unfold sample_query_idx. rewrite Ho. exact Hidx.
  - by vm_compute.
  - apply Forall_forall. unfold index_hits, sample_doc_blocks. cbn [map concat block_hits ib_entries sample_doc_entries app].
    repeat apply Forall_cons_2; [..|constructor];
      (split; [apply inline_docs; by vm_compute|apply (bool_decide_unpack _); vm_compute; reflexivity]).
Qed.

#[local] Existing Instance StoredZstd.ops.
#[local] Existing Instance LaneEnv.env.
#[local] Existing Instance InsertionSort.sort.
#[local] Existing Instance ListQueue.list_queue.

Lemma term_query_exact_witness : term_query sample_query_idx [98] = Ok [5; 9] ∧ term_query sample_query_idx [99] = Ok [].
Proof.
  split; [exact (term_query_exact kT1 false sample_query_file sample_query_idx sample_doc_blocks sample_docs_of [98] sample_answers)
    |exact (term_query_exact kT1 false sample_query_file sample_query_idx sample_doc_blocks sample_docs_of [99] sample_answers)].
Defined.

Lemma boolean_or_exact_witness :
  ∃ out, boolean_or sample_query_idx [[98]; [97]; [98]; [7]] = Ok out ∧
    answer_of sample_doc_blocks sample_docs_of (λ t, t ∈ [[98]; [97]; [98]; [7]]) out.
Proof. exact (boolean_or_exact kT1 false sample_query_file _ _ _ _ sample_answers). Defined.

Lemma wildcard_query_exact_witness :
  ∃ out, wildcard_query sample_query_idx [97; 42] = Ok out ∧
    answer_of sample_doc_blocks sample_docs_of (glob [97; 42]) out.
Proof. exact (wildcard_query_exact kT1 false sample_query_file _ _ _ _ sample_answers). Defined.

Lemma prefix_query_exact_witness :
  ∃ out, prefix_query sample_query_idx [97] = Ok out ∧
    answer_of sample_doc_blocks sample_docs_of (λ t, [97] `prefix_of` t) out.
Proof. exact (prefix_query_exact kT1 false sample_query_file _ _ _ _ sample_answers). Defined.

(** An interpreter of the patterns of an anchor, literals and dots. *)
Fixpoint dots_match (t p : bytes) : bool :=
  match t, p with
  | [], [] => true
  | c :: t, d :: p => ((d =? 46) || (c =? d)) && dots_match t p
  | _, _ => false
  end.

Definition unanchored (p : bytes) : bytes := match p with c :: p' => if c =? 94 then p' else p | [] => [] end.

#[local] Instance dot_regex : Regex := {
  regex := bytes;
  make_regex p := if bool_decide (Forall (λ c, c = 46 ∨ c ∉ syntax_characters) (unanchored p)) then inr (unanchored p) else inl "Unsupported."%string;
  regex_match := dots_match
}.

Lemma dots_match_prefix lit rest t :
  Forall (λ c, c ∉ syntax_characters) lit → dots_match t (lit ++ rest) = true → lit `prefix_of` t.
Proof.
  intros Hl. revert t. induction Hl as [|d lit Hd _ IH]; intros t Hm; [apply prefix_nil|]. destruct t as [|c t]; [done|].
  cbn [app dots_match] in Hm. apply andb_true_iff in Hm as [Hc Hm]. rewrite (proj2 (Z.eqb_neq d 46)) in Hc by (intros ->; apply Hd; set_solver).
  apply Z.eqb_eq in Hc as ->. apply prefix_cons. by apply IH.
Qed.

#[local] Instance dot_regex_laws : RegexLaws.
Proof.
  intros pattern lit re t (rest & Hp & Hl & _) Hre Hm. cbn [make_regex dot_regex] in Hre. case_bool_decide; [|done]. injection Hre as <-.
  assert (unanchored pattern = lit ++ rest) as He.
  { destruct Hp as [[-> Hh]| ->]; [|done]. unfold unanchored. destruct (lit ++ rest) as [|c p]; [done|]. by destruct (Z.eqb_spec c 94) as [->|]. }
  rewrite He in Hm. by eapply dots_match_prefix.
Qed.

Lemma regexp_query_exact_witness :
  (∃ out, regexp_query sample_query_idx [94; 97; 46] = Ok out ∧ StronglySorted Z.lt out ∧
    answer_of sample_doc_blocks sample_docs_of (λ t, dots_match t [97; 46] = true) out) ∧
  regexp_query sample_query_idx [40; 97] = Err (InvalidArgument ("regexp_query: invalid regex: " ++ "Unsupported.")).
Proof.
  split; [destruct (regexp_query_exact kT1 false sample_query_file _ _ _ [94; 97; 46] sample_answers) as (out & Hgo & Hs & _ & Hall);
      exists out; split; [exact Hgo|split; [exact Hs|apply (Hall [97])]];
      exists [46]; split; [by right|split; [apply (bool_decide_unpack _); vm_compute; done|split; [apply (bool_decide_unpack _); vm_compute; done|done]]]
    |exact (regexp_query_exact kT1 false sample_query_file _ _ _ [40; 97] sample_answers)].
Defined.

(** What the sample index answers. *)
Example sample_queries :
  boolean_or sample_query_idx [[98]; [97]; [98]; [7]] = Ok [1; 5; 9] ∧
  wildcard_query sample_query_idx [97; 42] = Ok [1; 2; 5] ∧
  prefix_query sample_query_idx [97; 98] = Ok [2] ∧
  regexp_query sample_query_idx [94; 97; 46] = Ok [2] ∧
  regexp_query sample_query_idx [46] = Ok [1; 5; 9].
Proof. by vm_compute. Qed.
