(* ===== verification/PhraseQuery.v ===== *)
(** * PhraseQuery: conjunctions, phrases and phrase prefixes.

    [query/phrase_query.cpp] and [query/internal/position_math.h]. A conjunction
    reads the term with the smallest df in full and of every other windowed term
    only the windows that cover the running candidates; phrases are then checked
    by cursors that move forward over the chunks that were read.

    The slices a fetcher hands out are values here, so the list [owners] that
    keeps the fetchers alive has no counterpart. [kNoChunk] is [None], and so is
    the null pointer of [ordered]. The overloads with a [QueryProfile] only add
    a profile to the same call. *)

From S2P Require Import Prelude Status ByteIO FormatConstants Zstd TermKey FrqPod FrqPrelude PrxPod DictEntry DictBlock PerIndexMeta.
From S2P Require Import FileIO Bsbf BatchRangeFetcher DocidSets TermPatterns LogicalIndexReader.
From S2P Require Import WindowedPosting DocidPostingReader Queries.

#[local] Open Scope Z_scope.

(** ** Position arithmetic *)

Definition build_position_offsets (count : Z) : option (list Z) :=
  if UINT32_MAX <=? count then None else Some (seqZ 0 count).

Definition add_position_offset (start offset : Z) : option Z :=
  if UINT32_MAX - offset <? start then None else Some (u32 (start + offset)).

(** [std::binary_search] *)
Definition binary_search (span : list Z) (want : Z) : bool :=
  match span !! Z.to_nat (lower_bound span want) with
  | Some x => negb (want <? x)
  | None => false
  end.

(** ** Plans *)

(** [ResolvedPhraseTerm] has the fields of [ResolvedDocidPosting]. *)
Abbreviation ResolvedPhraseTerm := ResolvedDocidPosting (only parsing).

Record TermPlan := mkTermPlan {
  pl_entry : DictEntry;
  pl_frq_base : Z;
  pl_prx_base : Z;
  pl_df : Z;
  pl_order : nat;
  frq_handle : nat;
  prx_handle : nat;
  prelude_handle : nat;
  pod_ref : bool;
  pl_windowed : bool;
  pl_prelude : FrqPreludeReader
}.

(** A plan behind [p.order = i] and the three fields of the resolved term. *)
Definition term_plan (i : nat) (t : ResolvedPhraseTerm) : TermPlan :=
  mkTermPlan (rp_entry t) (rp_frq_base t) (rp_prx_base t) 0 i 0 0 0 false false no_prelude.

Definition classify (p : TermPlan) : TermPlan :=
  let e := pl_entry p in
  let pod := bool_decide (kind e = kPodRef) in
  mkTermPlan e (pl_frq_base p) (pl_prx_base p) (df e) (pl_order p) (frq_handle p) (prx_handle p)
    (prelude_handle p) pod (pod && bool_decide (enc e = kWindowed)) (pl_prelude p).
Definition with_handles (fh ph wh : nat) (p : TermPlan) : TermPlan :=
  mkTermPlan (pl_entry p) (pl_frq_base p) (pl_prx_base p) (pl_df p) (pl_order p) fh ph wh (pod_ref p)
    (pl_windowed p) (pl_prelude p).
Definition with_prelude (r : FrqPreludeReader) (p : TermPlan) : TermPlan :=
  mkTermPlan (pl_entry p) (pl_frq_base p) (pl_prx_base p) (pl_df p) (pl_order p) (frq_handle p) (prx_handle p)
    (prelude_handle p) (pod_ref p) (pl_windowed p) r.

Definition SlimFrqDocsLen (entry : DictEntry) (win_len : Z) : result Z :=
  _ ← reject_if (win_len <? frq_docs_len entry)
        (Corruption "phrase_query: slim frq_docs_len exceeds frq window");
  Ok (if 0 <? frq_docs_len entry then frq_docs_len entry else win_len).

Definition InlineDdRegion (entry : DictEntry) : result Slice :=
  _ ← reject_if (zlen (frq_bytes entry) <? disk_len (dd_meta entry))
        (Corruption "phrase_query: inline dd region exceeds frq bytes");
  subslice (frq_bytes entry) 0 (disk_len (dd_meta entry)).

Definition ConfigureTermPlan (idx : LogicalIndexReader) (need_positions : bool) (fetcher : BatchRangeFetcher)
    (p : TermPlan) : result (BatchRangeFetcher * TermPlan) :=
  let p := classify p in
  let e := pl_entry p in
  if pl_windowed p then
    let prelude_abs := u64 (u64 (posting_offset idx + pl_frq_base p) + frq_off_delta e) in
    let '(h, fetcher) := add prelude_abs (prelude_len e) fetcher in
    Ok (fetcher, with_handles (frq_handle p) (prx_handle p) h p)
  else if pod_ref p then
    '(foff, flen) ← resolve_frq_window idx e (pl_frq_base p);
    frq_fetch ← SlimFrqDocsLen e flen;
    let '(fh, fetcher) := add foff frq_fetch fetcher in
    if need_positions then
      '(poff, plen) ← resolve_prx_window idx e (pl_prx_base p);
      let '(ph, fetcher) := add poff plen fetcher in
      Ok (fetcher, with_handles fh ph (prelude_handle p) p)
    else Ok (fetcher, with_handles fh (prx_handle p) (prelude_handle p) p)
  else Ok (fetcher, p).

(** One round of the loop of [PlanResolvedTerms]; [plans[i]] is the element
    appended in round [i]. *)
Definition plan_term (idx : LogicalIndexReader) (need_positions : bool) (t : ResolvedPhraseTerm)
    (st : BatchRangeFetcher * list TermPlan) : result (BatchRangeFetcher * list TermPlan) :=
  let '(fetcher, plans) := st in
  '(fetcher, p) ← ConfigureTermPlan idx need_positions fetcher (term_plan (length plans) t);
  Ok (fetcher, plans ++ [p]).

Definition PlanResolvedTerms (idx : LogicalIndexReader) (terms : list ResolvedPhraseTerm)
    (fetcher : BatchRangeFetcher) (need_positions : bool) : result (BatchRangeFetcher * list TermPlan) :=
  fold_result (plan_term idx need_positions) terms (fetcher, []).

(** ** Chunks *)

Record PosChunk := mkPosChunk { ch_docids : list Z; ch_prx : Slice }.
Record PosSource := mkPosSource { src_chunks : list PosChunk }.

Definition push_chunk (c : PosChunk) (src : PosSource) : PosSource := mkPosSource (src_chunks src ++ [c]).

(** [sel] and [last]. *)
Definition select_window (prelude : FrqPreludeReader) (d : Z) (st : list Z * Z) : result (list Z * Z) :=
  let '(sel, last) := st in
  found ← locate_window prelude d;
  Ok (match found with
      | None => (sel, last)
      | Some w => if w =? last then (sel, last) else (sel ++ [w], w)
      end).

Definition SelectCoveringWindows (prelude : FrqPreludeReader) (candidates : list Z) : result (list Z) :=
  '(sel, _) ← fold_result (select_window prelude) candidates ([], UINT32_MAX);
  Ok sel.

Definition AllWindows (prelude : FrqPreludeReader) : list Z := seqZ 0 (n_windows prelude).

Section Conjunction.
Context `{ZstdOps} `{Sort} `{BsbfEnv}.

Definition ResolvePhraseTerm (idx : LogicalIndexReader) (term : bytes) : result (option ResolvedPhraseTerm) :=
  found ← lookup idx term;
  Ok (match found with None => None | Some hit => Some (resolved hit) end).

(** [None] is [*all_present = false]. *)
Fixpoint plan_terms_loop (idx : LogicalIndexReader) (need_positions : bool) (terms : list bytes)
    (st : BatchRangeFetcher * list TermPlan) : result (option (BatchRangeFetcher * list TermPlan)) :=
  match terms with
  | [] => Ok (Some st)
  | term :: terms =>
      found ← ResolvePhraseTerm idx term;
      match found with
      | None => Ok None
      | Some t => st ← plan_term idx need_positions t st; plan_terms_loop idx need_positions terms st
      end
  end.
Definition PlanTerms (idx : LogicalIndexReader) (terms : list bytes) (fetcher : BatchRangeFetcher)
    (need_positions : bool) : result (option (BatchRangeFetcher * list TermPlan)) :=
  plan_terms_loop idx need_positions terms (fetcher, []).

Definition open_prelude (fetcher : BatchRangeFetcher) (need_positions : bool) (p : TermPlan) : result TermPlan :=
  if negb (pl_windowed p) then Ok p
  else
    bytes ← get fetcher (prelude_handle p);
    prelude ← FrqPrelude.open bytes;
    _ ← reject_if (need_positions && negb (has_prx_ prelude))
          (Corruption "phrase_query: windowed prelude has no positions");
    Ok (with_prelude prelude p).
Fixpoint OpenPreludes (fetcher : BatchRangeFetcher) (plans : list TermPlan) (need_positions : bool)
    : result (list TermPlan) :=
  match plans with
  | [] => Ok []
  | p :: plans =>
      p ← open_prelude fetcher need_positions p;
      plans ← OpenPreludes fetcher plans need_positions;
      Ok (p :: plans)
  end.

(** The first loop of [DecodeWindowedDocids]: the fetcher, and [metas] with
    [handles]. *)
Definition plan_chunk (idx : LogicalIndexReader) (p : TermPlan) (need_positions : bool) (w : Z)
    (st : BatchRangeFetcher * list (WindowMeta * nat * nat)) : result (BatchRangeFetcher * list (WindowMeta * nat * nat)) :=
  let '(fetcher, handles) := st in
  r ← windowed_window_range idx (pl_entry p) (pl_frq_base p) (pl_prx_base p) (pl_prelude p) w need_positions false;
  m ← FrqPrelude.window (pl_prelude p) w;
  let '(dh, fetcher) := add (wr_dd_off r) (wr_dd_len r) fetcher in
  let '(ph, fetcher) := if need_positions then add (wr_prx_off r) (wr_prx_len r) fetcher else (0%nat, fetcher) in
  Ok (fetcher, handles ++ [(m, dh, ph)]).

(** The second loop. *)
Definition decode_chunk (fetcher : BatchRangeFetcher) (need_positions : bool) (handles : WindowMeta * nat * nat)
    (st : PosSource * list Z) : result (PosSource * list Z) :=
  let '(src, term_docids) := st in
  let '(m, dh, ph) := handles in
  dd ← get fetcher dh;
  '(docs, _, _) ← decode_window_slices m dd [] [] false false;
  prx ← (if need_positions then get fetcher ph else Ok []);
  Ok (push_chunk (mkPosChunk docs prx) src, term_docids ++ docs).

Definition DecodeWindowedDocids (idx : LogicalIndexReader) (p : TermPlan) (windows : list Z) (need_positions : bool)
    (src : PosSource) (term_docids : list Z) : result (PosSource * list Z) :=
  '(fetcher, handles) ← fold_result (plan_chunk idx p need_positions) windows (new_fetcher kSameTermCoalesceGap, []);
  fetcher ← fetch_if_pending idx fetcher;
  fold_result (decode_chunk fetcher need_positions) handles (src, term_docids).

Definition DecodeFlatDocids (round1 : BatchRangeFetcher) (p : TermPlan) (need_positions : bool) (src : PosSource)
    : result (PosSource * list Z) :=
  '(dd, prx) ←
    (if pod_ref p then
       dd ← get round1 (frq_handle p);
       prx ← (if need_positions then get round1 (prx_handle p) else Ok []);
       Ok (dd, prx)
     else
       dd ← InlineDdRegion (pl_entry p);
       Ok (dd, if need_positions then prx_bytes (pl_entry p) else []));
  docs ← decode_dd_region dd (dd_meta (pl_entry p)) 0;
  Ok (push_chunk (mkPosChunk docs prx) src, docs).

Definition plan_df (plans : list TermPlan) (i : nat) : Z := default 0 (pl_df <$> plans !! i).

Definition AscendingDfOrder (plans : list TermPlan) : list nat :=
  sort_by (λ a b, plan_df plans a <? plan_df plans b) (seq 0 (length plans)).

(** The loop over [order]; [first] is [k == 0]. *)
Fixpoint conjunction_loop (idx : LogicalIndexReader) (round1 : BatchRangeFetcher) (plans : list TermPlan)
    (need_positions : bool) (order : list nat) (first : bool) (srcs : list PosSource) (candidates : list Z)
    : result (list PosSource * list Z) :=
  match order with
  | [] => Ok (srcs, candidates)
  | ti :: order =>
      match plans !! ti, srcs !! ti with
      | Some p, Some src =>
          '(src, term_docids) ←
            (if pl_windowed p then
               windows ← (if first then Ok (AllWindows (pl_prelude p))
                          else SelectCoveringWindows (pl_prelude p) candidates);
               DecodeWindowedDocids idx p windows need_positions src []
             else DecodeFlatDocids round1 p need_positions src);
          let srcs := <[ti := src]> srcs in
          let candidates := if first then term_docids else intersect_sorted candidates term_docids in
          match candidates with
          | [] => Ok (srcs, [])
          | _ => conjunction_loop idx round1 plans need_positions order false srcs candidates
          end
      | _, _ => Undef
      end
  end.

Definition BuildConjunction (idx : LogicalIndexReader) (round1 : BatchRangeFetcher) (plans : list TermPlan)
    (need_positions : bool) (srcs : list PosSource) (candidates : list Z) : result (list PosSource * list Z) :=
  conjunction_loop idx round1 plans need_positions (AscendingDfOrder plans) true srcs candidates.

Definition no_source : PosSource := mkPosSource [].

Definition boolean_and (idx : LogicalIndexReader) (terms : list bytes) : result (list Z) :=
  match terms with
  | [] => Ok []
  | _ =>
      planned ← PlanTerms idx terms (new_fetcher 0) false;
      match planned with
      | None => Ok []
      | Some (round1, plans) =>
          round1 ← fetch_if_pending idx round1;
          plans ← OpenPreludes round1 plans false;
          '(_, docids) ← BuildConjunction idx round1 plans false (replicate (length plans) no_source) [];
          Ok docids
      end
  end.
End Conjunction.

(** ** The cursor *)

Record PostingCursor := mkPostingCursor {
  cu_src : PosSource;
  ci_ : nat;
  li_ : nat;
  decoded_pos_chunk_ : option nat;
  pflat_ : list Z;
  poff_ : list Z
}.

Definition init (src : PosSource) : PostingCursor := mkPostingCursor src 0 0 None [] [].

(** The two loops of [seek], over the chunks from [ci] on and over the documents
    of the chunk from [li] on. *)
Fixpoint skip_chunks (chunks : list PosChunk) (target : Z) (ci li : nat) : nat * nat :=
  match chunks with
  | [] => (ci, li)
  | c :: chunks =>
      match last (ch_docids c) with
      | Some back => if back <? target then skip_chunks chunks target (S ci) 0 else (ci, li)
      | None => skip_chunks chunks target (S ci) 0
      end
  end.
Fixpoint skip_docs (d : list Z) (target : Z) (li : nat) : nat :=
  match d with
  | [] => li
  | x :: d => if x <? target then skip_docs d target (S li) else li
  end.

Definition seek (target : Z) (c : PostingCursor) : PostingCursor :=
  let chunks := src_chunks (cu_src c) in
  let '(ci, li) := skip_chunks (drop (ci_ c) chunks) target (ci_ c) (li_ c) in
  let li := match chunks !! ci with
            | None => li
            | Some ch => skip_docs (drop li (ch_docids ch)) target li
            end in
  mkPostingCursor (cu_src c) ci li (decoded_pos_chunk_ c) (pflat_ c) (poff_ c).

Definition load_positions `{ZstdOps} (ch : PosChunk) : result (list Z * list Z) :=
  '(pflat, poff) ← run_reader read_prx_window_csr (ch_prx ch);
  _ ← reject_if (negb (zlen poff =? zlen (ch_docids ch) + 1)) (Corruption "phrase_query: prx/dd doc-count mismatch");
  Ok (pflat, poff).

(** The span [\[pflat + poff\[li\], pflat + poff\[li + 1\])]. *)
Definition span_of (pflat poff : list Z) (li : nat) : result (list Z) :=
  match poff !! li, poff !! S li with
  | Some b, Some e => if (b <=? e) && (e <=? zlen pflat) then Ok (take (Z.to_nat (e - b)) (drop (Z.to_nat b) pflat)) else Undef
  | _, _ => Undef
  end.

Definition cursor_positions `{ZstdOps} (c : PostingCursor) : result (list Z * PostingCursor) :=
  match src_chunks (cu_src c) !! ci_ c with
  | None => Err (Corruption "phrase_query: cursor positions out of range")
  | Some ch =>
      _ ← reject_if (zlen (ch_docids ch) <=? Z.of_nat (li_ c)) (Corruption "phrase_query: cursor positions out of range");
      '(pflat, poff) ← (if decide (decoded_pos_chunk_ c = Some (ci_ c)) then Ok (pflat_ c, poff_ c) else load_positions ch);
      span ← span_of pflat poff (li_ c);
      Ok (span, mkPostingCursor (cu_src c) (ci_ c) (li_ c) (Some (ci_ c)) pflat poff)
  end.

(** ** Verification *)

(** [ordered\[plans\[i\].order\] = &cur\[i\]] *)
Definition ordered_cursors (plans : list TermPlan) : list (option nat) :=
  fold_left (λ ordered ip, <[pl_order ip.2 := Some ip.1]> ordered) (zip (seq 0 (length plans)) plans)
    (replicate (length plans) None).

Definition gather_span `{ZstdOps} (o : option nat) (st : list PostingCursor * list (list Z))
    : result (list PostingCursor * list (list Z)) :=
  let '(cur, span) := st in
  match o with
  | None => Undef
  | Some i =>
      match cur !! i with
      | None => Undef
      | Some c => '(s, c) ← cursor_positions c; Ok (<[i := c]> cur, span ++ [s])
      end
  end.

(** [term\[t\]@start + position_offsets\[t\]] for every [t] from 1 on. *)
Definition follows (position_offsets : list Z) (span : list (list Z)) (start : Z) : bool :=
  forallb (λ os, match add_position_offset start os.1 with
                 | None => false
                 | Some want => binary_search os.2 want
                 end) (tail (zip position_offsets span)).

Definition seek_all (d : Z) (cur : list PostingCursor) : list PostingCursor := map (seek d) cur.

Section Verification.
Context `{ZstdOps} `{Sort} `{BsbfEnv}.

Definition emit_candidate (ordered : list (option nat)) (position_offsets : list Z) (d : Z)
    (st : list PostingCursor * list Z) : result (list PostingCursor * list Z) :=
  let '(cur, docids) := st in
  '(cur, span) ← fold_result gather_span ordered (seek_all d cur, []);
  match span with
  | [] => Undef
  | s0 :: _ => Ok (cur, if existsb (follows position_offsets span) s0 then docids ++ [d] else docids)
  end.

Definition EmitPhraseStreaming (plans : list TermPlan) (position_offsets : list Z) (srcs : list PosSource)
    (candidates : list Z) (docids : list Z) : result (list Z) :=
  '(_, docids) ← fold_result (emit_candidate (ordered_cursors plans) position_offsets) candidates (map init srcs, docids);
  Ok docids.

Definition BuildPhraseExecutionState (idx : LogicalIndexReader) (round1 : BatchRangeFetcher) (plans : list TermPlan)
    : result (list TermPlan * list PosSource * list Z) :=
  round1 ← fetch_if_pending idx round1;
  plans ← OpenPreludes round1 plans true;
  '(srcs, candidates) ← BuildConjunction idx round1 plans true (replicate (length plans) no_source) [];
  Ok (plans, srcs, candidates).

Definition ExecutePhrasePlans (idx : LogicalIndexReader) (round1 : BatchRangeFetcher) (plans : list TermPlan)
    : result (list Z) :=
  '(plans, srcs, candidates) ← BuildPhraseExecutionState idx round1 plans;
  match candidates with
  | [] => Ok []
  | _ =>
      match build_position_offsets (zlen plans) with
      | None => Err (InvalidArgument "phrase_query: phrase length exceeds doc position range")
      | Some position_offsets => EmitPhraseStreaming plans position_offsets srcs candidates []
      end
  end.

Definition phrase_query (idx : LogicalIndexReader) (terms : list bytes) : result (list Z) :=
  match terms with
  | [] => Ok []
  | _ =>
      _ ← reject_if (negb (has_positions_ idx)) (Unsupported "phrase_query: index has no positions");
      planned ← PlanTerms idx terms (new_fetcher 0) true;
      match planned with
      | None => Ok []
      | Some (round1, plans) => ExecutePhrasePlans idx round1 plans
      end
  end.

(** *** Phrase prefixes *)

Record ExpectedTailPositions := mkExpected { ex_docid : Z; ex_positions : list Z }.

(** The positions [position_offsets\[n\]] behind the starts of a match. *)
Definition tail_positions (position_offsets : list Z) (span : list (list Z)) (s0 : list Z) : list Z :=
  omap (λ start, if follows position_offsets span start
                 then add_position_offset start (nth (length span) position_offsets 0) else None) s0.

Definition expect_candidate (ordered : list (option nat)) (position_offsets : list Z) (d : Z)
    (st : list PostingCursor * list ExpectedTailPositions) : result (list PostingCursor * list ExpectedTailPositions) :=
  let '(cur, out) := st in
  '(cur, span) ← fold_result gather_span ordered (seek_all d cur, []);
  match span with
  | [] => Undef
  | s0 :: _ =>
      Ok (cur, match tail_positions position_offsets span s0 with
               | [] => out
               | ps => out ++ [mkExpected d ps]
               end)
  end.

Definition collect_expected (plans : list TermPlan) (position_offsets : list Z) (srcs : list PosSource)
    (candidates : list Z) : result (list ExpectedTailPositions) :=
  '(_, out) ← fold_result (expect_candidate (ordered_cursors plans) position_offsets) candidates (map init srcs, []);
  Ok out.

Definition CollectExpectedTailPositions (idx : LogicalIndexReader) (exact_terms : list ResolvedPhraseTerm)
    : result (list ExpectedTailPositions) :=
  '(round1, plans) ← PlanResolvedTerms idx exact_terms (new_fetcher 0) true;
  '(plans, srcs, candidates) ← BuildPhraseExecutionState idx round1 plans;
  match candidates with
  | [] => Ok []
  | _ =>
      match build_position_offsets (u64 (zlen plans + 1)) with
      | None => Err (InvalidArgument "phrase_prefix_query: phrase length exceeds doc position range")
      | Some position_offsets => collect_expected plans position_offsets srcs candidates
      end
  end.

Definition contains_any_position (wanted actual : list Z) : bool := existsb (binary_search actual) wanted.

(** The loop over [ei] and [ti]. *)
Fixpoint tail_matches (fuel : nat) (expected : list ExpectedTailPositions) (candidates : list Z) (cursor : PostingCursor)
    (out : list Z) : result (list Z) :=
  match expected, candidates with
  | [], _ | _, [] => Ok out
  | e :: expected', tail_doc :: candidates' =>
      match fuel with
      | O => Undef
      | S fuel =>
          if ex_docid e <? tail_doc then tail_matches fuel expected' candidates cursor out
          else if tail_doc <? ex_docid e then tail_matches fuel expected candidates' cursor out
          else
            '(actual, cursor) ← cursor_positions (seek (ex_docid e) cursor);
            tail_matches fuel expected' candidates' cursor
              (if contains_any_position (ex_positions e) actual then out ++ [ex_docid e] else out)
      end
  end.

Definition CollectTailMatchesAtExpectedPositions (idx : LogicalIndexReader) (tail : ResolvedPhraseTerm)
    (expected : list ExpectedTailPositions) : result (list Z) :=
  match expected with
  | [] => Ok []
  | _ =>
      '(round1, plans) ← PlanResolvedTerms idx [tail] (new_fetcher 0) true;
      '(_, srcs, candidates) ← BuildPhraseExecutionState idx round1 plans;
      match candidates, srcs with
      | [], _ => Ok []
      | _, src :: _ => tail_matches (length expected + length candidates) expected candidates (init src) []
      | _, [] => Undef
      end
  end.

(** The loop that resolves the exact terms; [None] when one is absent. *)
Fixpoint resolve_exact (idx : LogicalIndexReader) (terms : list bytes) (acc : list ResolvedPhraseTerm)
    : result (option (list ResolvedPhraseTerm)) :=
  match terms with
  | [] => Ok (Some acc)
  | term :: terms =>
      found ← ResolvePhraseTerm idx term;
      match found with
      | None => Ok None
      | Some t => resolve_exact idx terms (acc ++ [t])
      end
  end.

Definition union_tail (idx : LogicalIndexReader) (expected : list ExpectedTailPositions) (hit : PrefixHit)
    (acc : list Z) : result (list Z) :=
  tail_docs ← CollectTailMatchesAtExpectedPositions idx (resolved hit) expected;
  Ok (union_sorted_into acc tail_docs).

Context `{PriorityQueue}.

Definition phrase_prefix_query (idx : LogicalIndexReader) (terms : list bytes) : result (list Z) :=
  match terms with
  | [] => Ok []
  | [front] => prefix_query idx front
  | _ =>
      _ ← reject_if (negb (has_positions_ idx)) (Unsupported "phrase_prefix_query: index has no positions");
      exact ← resolve_exact idx (removelast terms) [];
      match exact with
      | None => Ok []
      | Some exact_terms =>
          tail_hits ← prefix_terms idx (List.last terms []);
          match tail_hits with
          | [] => Ok []
          | _ =>
              expected ← CollectExpectedTailPositions idx exact_terms;
              match expected with
              | [] => Ok []
              | _ => fold_result (union_tail idx expected) tail_hits []
              end
          end
      end
  end.
End Verification.
