(* ===== verification/Conjunction.v ===== *)
(** * Conjunction: reading the terms of a conjunction window by window.

    The theory of the planning half of [PhraseQuery]. [holds_postings] says what
    an entry holds, as one list of documents with their positions per chunk (a
    window, or the whole of a flat posting). The loop over the terms reads only
    the windows that cover the running candidates ([covering_windows_exact]);
    [conjunction_loop_ok] shows that the candidates it ends with are the
    documents every term holds, and that the chunks it kept of each term contain
    them. *)

From S2P Require Import Prelude Status ByteIO FormatConstants Zstd TermKey FrqPod FrqPrelude PrxPod DictEntry DictBlock PerIndexMeta.
From S2P Require Import FileIO Bsbf BatchRangeFetcher DocidSets LogicalIndexReader.
From S2P Require Import WindowedPosting DocidPostingReader Queries PhraseQuery.

#[local] Open Scope Z_scope.

(** Documents with their positions. *)
Abbreviation Posting := (list (Z * list Z)) (only parsing).

(** A posting in chunks. *)
Definition posting_docs (cs : list Posting) : list Z := map fst (concat cs).

Section Holds.
Context `{ZstdOps} (np : bool) (file : bytes) (idx : LogicalIndexReader).

(** The bytes of a position window, as the flat reader sees them. *)
Definition decodes_prx (bs : bytes) (ps : list (list Z)) : Prop :=
  run_reader read_prx_window_csr bs = Ok (to_csr ps) ∧ zlen (concat ps) < 2 ^ 32.

Record window_chunk (p : ResolvedDocidPosting) (prelude : FrqPreludeReader) (m : WindowMeta) (c : Posting) : Prop := {
  wc_yields : window_yields file idx (rp_entry p) (rp_frq_base p) (rp_prx_base p) prelude false false m (map fst c, [], []);
  wc_last : last (map fst c) = Some (last_docid m);
  wc_prx : np = true → fits_in (prx_off m) (FrqPrelude.prx_len m) (DictEntry.prx_len (rp_entry p)) ∧
    decodes_prx (FileIO.window file (prx_start idx (rp_entry p) (rp_prx_base p) + prx_off m) (FrqPrelude.prx_len m)) (map snd c)
}.

(** A windowed entry and its prelude. *)
Record windowed_postings (p : ResolvedDocidPosting) (prelude : FrqPreludeReader) (cs : list Posting) : Prop := {
  wp_frq : frq_at file idx (rp_entry p) (rp_frq_base p) prelude;
  wp_locates d : locate_window prelude d = Ok (covering d (windows_ prelude));
  wp_prx : np = true → prx_at file idx (rp_entry p) (rp_prx_base p) ∧ has_prx_ prelude = true;
  wp_chunks : Forall2 (window_chunk p prelude) (windows_ prelude) cs
}.

Inductive holds_postings (p : ResolvedDocidPosting) : list Posting → Prop :=
  | inline_postings c :
      inlined p = true → disk_len (dd_meta (rp_entry p)) ≤ zlen (frq_bytes (rp_entry p)) →
      decode_dd_region (take (Z.to_nat (disk_len (dd_meta (rp_entry p)))) (frq_bytes (rp_entry p)))
        (dd_meta (rp_entry p)) 0 = Ok (map fst c) →
      (np = true → decodes_prx (prx_bytes (rp_entry p)) (map snd c)) →
      holds_postings p [c]
  | slim_postings c g :
      slim p = true → slim_range file idx p g →
      decode_dd_region (FileIO.window file (FileIO.offset g) (FileIO.len g)) (dd_meta (rp_entry p)) 0 = Ok (map fst c) →
      (np = true → ∃ off len, resolve_prx_window idx (rp_entry p) (rp_prx_base p) = Ok (off, len) ∧
         in_file file off len ∧ decodes_prx (FileIO.window file off len) (map snd c)) →
      holds_postings p [c]
  | held_windowed prelude cs :
      windowed p = true → windowed_postings p prelude cs → holds_postings p cs.

(** A chunk in memory. *)
Definition chunk_holds (ch : PosChunk) (c : Posting) : Prop :=
  ch_docids ch = map fst c ∧ (np = true → decodes_prx (ch_prx ch) (map snd c)).
End Holds.

(** An entry, and what it holds. *)
Abbreviation Term := (ResolvedDocidPosting * list Posting)%type (only parsing).

Section Plan.
Context `{ZstdOps} `{SortLaws} (np : bool) (file : bytes) (idx : LogicalIndexReader).
Context (Hfile : zlen file < 2 ^ 64) (Hserves : serves file (reader_ idx)).

Definition term_ok (t : Term) : Prop := holds_postings np file idx t.1 t.2.

(** ** The first round of reads *)

(** The plan of the [i]-th term. *)
Record plan_of (i : nat) (t : Term) (p : TermPlan) : Prop := {
  po_entry : pl_entry p = rp_entry t.1;
  po_frq_base : pl_frq_base p = rp_frq_base t.1;
  po_prx_base : pl_prx_base p = rp_prx_base t.1;
  po_order : pl_order p = i;
  po_pod : pod_ref p = negb (inlined t.1);
  po_windowed : pl_windowed p = windowed t.1
}.

(** What its handles stand for in the first fetcher. *)
Definition handles_ok (f : BatchRangeFetcher) (t : Term) (p : TermPlan) : Prop :=
  (windowed t.1 = true → handle_at f (prelude_handle p) (prelude_range idx t.1)) ∧
  (slim t.1 = true → ∃ c g, t.2 = [c] ∧ handle_at f (frq_handle p) g ∧
     decode_dd_region (FileIO.window file (FileIO.offset g) (FileIO.len g)) (dd_meta (rp_entry t.1)) 0 = Ok (map fst c) ∧
     (np = true → ∃ g', handle_at f (prx_handle p) g' ∧
        decodes_prx (FileIO.window file (FileIO.offset g') (FileIO.len g')) (map snd c))).

Lemma handle_extends f f' h g : extends file f f' → handle_at f h g → handle_at f' h g.
Proof. apply extends_lookup. Qed.

Lemma handles_extends f f' t p : extends file f f' → handles_ok f t p → handles_ok f' t p.
Proof.
  intros He [Hw Hs]. split; [intros Hk; by eapply handle_extends, Hw|].
  intros Hk. destruct (Hs Hk) as (c & g & Hc & Hh & Hd & Hp). exists c, g. split_and!; [done|by eapply handle_extends|done|].
  intros Hn. destruct (Hp Hn) as (g' & Hg' & ?). exists g'. split; [by eapply handle_extends|done].
Qed.

Lemma classify_plan i (p : ResolvedDocidPosting) cs : plan_of i (p, cs) (classify (term_plan i p)).
Proof.
  split; try done; cbn; unfold windowed, inlined; destruct (kind (rp_entry p)); try done; by repeat case_bool_decide.
Qed.

Lemma with_handles_plan i t p a b c : plan_of i t p → plan_of i t (with_handles a b c p).
Proof. by intros []. Qed.

Lemma SlimFrqDocsLen_ok e n m : slim_docs_fetch_len e n = Ok m → SlimFrqDocsLen e n = Ok m.
Proof. unfold slim_docs_fetch_len, SlimFrqDocsLen. by destruct (n <? frq_docs_len e). Qed.

Lemma slim_kind p : slim p = true → inlined p = false ∧ windowed p = false.
Proof. unfold slim. by destruct (inlined p), (windowed p). Qed.
Lemma windowed_kind p : windowed p = true → inlined p = false ∧ slim p = false.
Proof. unfold slim, windowed. destruct (inlined p); [done|]. cbn. by intros ->. Qed.
Lemma flat_kind p : inlined p = false → windowed p = false → slim p = true.
Proof. unfold slim. by intros -> ->. Qed.

Lemma configure_ok i t f :
  term_ok t → ∃ f' p, ConfigureTermPlan idx np f (term_plan i t.1) = Ok (f', p) ∧ extends file f f' ∧ plan_of i t p ∧ handles_ok f' t p.
Proof.
  destruct t as [r cs]. unfold term_ok. cbn [fst snd]. intros Ht. pose proof (classify_plan i r cs) as Hp. unfold ConfigureTermPlan. cbn [fst]. cbv zeta.
  set (p := classify (term_plan i r)) in *.
  destruct Ht as [c Hk|c g Hk (wl & Hres & Hlen & Hin) Hdec Hprx|prelude cs0 Hk Hw]; cbn [fst snd] in *.
  - assert (windowed r = false) as Hw by (unfold windowed; by rewrite Hk).
    rewrite (po_windowed _ _ _ Hp), (po_pod _ _ _ Hp). cbn [fst]. rewrite Hw, Hk. exists f, p. split; [done|]. split; [apply extends_refl|].
    split; [done|]. split; cbn [fst]; [by rewrite Hw|]. unfold slim. by rewrite Hk.
  - destruct (slim_kind _ Hk) as [Hi Hw]. rewrite (po_windowed _ _ _ Hp), (po_pod _ _ _ Hp). cbn [fst]. rewrite Hw, Hi. cbn [negb].
    rewrite (po_entry _ _ _ Hp), (po_frq_base _ _ _ Hp), (po_prx_base _ _ _ Hp). cbn [fst]. rewrite Hres, bind_Ok, (SlimFrqDocsLen_ok _ _ _ Hlen), bind_Ok.
    destruct (add_extends file g f Hin) as (f1 & -> & He1 & Hh1).
    destruct np eqn:Hnp.
    + destruct (Hprx eq_refl) as (off & len & Hr & Hin' & Hd'). rewrite Hr, bind_Ok.
      destruct (add_extends file (mkRange off len) f1 Hin') as (f2 & Ha & He2 & Hh2). cbn [FileIO.offset FileIO.len] in Ha. rewrite Ha.
      eexists f2, _. split; [done|]. split; [by eapply extends_trans|]. split; [by apply with_handles_plan|].
      split; cbn [fst snd]; [by rewrite Hw|]. intros _. exists c, g. split; [done|]. split; [exact (handle_extends _ _ _ _ He2 Hh1)|]. split; [done|].
      intros _. by exists (mkRange off len).
    + eexists f1, _. split; [done|]. split; [done|]. split; [by apply with_handles_plan|].
      split; cbn [fst snd]; [by rewrite Hw|]. intros _. exists c, g. split_and!; [done..|by rewrite Hnp].
  - destruct (windowed_kind _ Hk) as [Hi Hs]. rewrite (po_windowed _ _ _ Hp). cbn [fst]. rewrite Hk.
    rewrite (po_entry _ _ _ Hp), (po_frq_base _ _ _ Hp). cbn [fst]. fold (PreludeAbs idx (rp_entry r) (rp_frq_base r)).
    pose proof (wp_frq _ _ _ _ _ _ Hw) as Hat. rewrite (prelude_abs_at file idx (rp_entry r) (rp_frq_base r) Hfile prelude Hat).
    destruct (add_extends file (prelude_range idx r) f) as (f1 & Ha & He1 & Hh1).
    { destruct Hat as [_ _ _ ? (? & ? & ?) _ _ _]. unfold in_file. cbn. lia. }
    cbn [prelude_range FileIO.offset FileIO.len] in Ha. rewrite Ha. eexists f1, _. split; [done|]. split; [done|].
    split; [by apply with_handles_plan|]. split; cbn [fst snd]; [done|by rewrite Hs].
Qed.

(** The plans of all terms. *)
Definition plans_from (f : BatchRangeFetcher) (n : nat) (ts : list Term) (ps : list TermPlan) : Prop :=
  length ps = length ts ∧ ∀ i t p, ts !! i = Some t → ps !! i = Some p → plan_of (n + i) t p ∧ handles_ok f t p.

Lemma plan_terms_ok ts f ps :
  Forall term_ok ts →
  ∃ f' ps', fold_result (plan_term idx np) (map fst ts) (f, ps) = Ok (f', ps ++ ps') ∧ extends file f f' ∧
    plans_from f' (length ps) ts ps'.
Proof.
  intros Hts. revert f ps. induction Hts as [|t ts Ht Hts IH]; intros f ps; cbn [map fold_result].
  { exists f, []. rewrite app_nil_r. split; [done|]. split; [apply extends_refl|]. by split. }
  destruct (configure_ok (length ps) t f Ht) as (f1 & p & Hc & He1 & Hp & Hh). assert (plan_term idx np t.1 (f, ps) = Ok (f1, ps ++ [p])) as -> by (unfold plan_term; by rewrite Hc).
  rewrite bind_Ok.
  destruct (IH f1 (ps ++ [p])) as (f' & ps' & -> & He & Hlen & Hall). exists f', (p :: ps'). rewrite <- app_assoc.
  split; [done|]. split; [by eapply extends_trans|]. split; [cbn; by rewrite Hlen|].
  intros [|i] t' p' Ht' Hp'; cbn in Ht', Hp'.
  - injection Ht' as <-. injection Hp' as <-. rewrite Nat.add_0_r. split; [done|by eapply handles_extends].
  - destruct (Hall i t' p' Ht' Hp') as [Hpl Hha]. split; [|done]. rewrite length_app in Hpl. cbn [length] in Hpl.
    by replace (length ps + S i)%nat with (length ps + 1 + i)%nat by lia.
Qed.

(** ** After the first round *)

(** A plan whose bytes were fetched and whose prelude was opened: what the two
    decoders need of it. *)
Definition ready (f : BatchRangeFetcher) (t : Term) (p : TermPlan) : Prop :=
  (pl_windowed p = false → ∃ c ch, t.2 = [c] ∧ chunk_holds np ch c ∧
     ∀ src, DecodeFlatDocids f p np src = Ok (push_chunk ch src, map fst c)) ∧
  (pl_windowed p = true → pl_entry p = rp_entry t.1 ∧ pl_frq_base p = rp_frq_base t.1 ∧ pl_prx_base p = rp_prx_base t.1 ∧
     windowed_postings np file idx t.1 (pl_prelude p) t.2).

Definition gets (f f' : BatchRangeFetcher) : Prop :=
  ∀ h g, handle_at f h g → get f' h = Ok (FileIO.window file (FileIO.offset g) (FileIO.len g)).

Lemma open_prelude_ok f f' i t p :
  gets f f' → term_ok t → plan_of i t p → handles_ok f t p →
  ∃ p', open_prelude f' np p = Ok p' ∧ pl_df p' = pl_df p ∧ pl_order p' = pl_order p ∧ ready f' t p'.
Proof.
  destruct t as [r cs]. unfold term_ok. cbn [fst snd]. intros Hget Ht [He Hf Hpb Ho Hpod Hw] [Hhw Hhs]. cbn [fst snd] in *.
  unfold open_prelude. rewrite Hw. destruct Ht as [c Hk Hl Hdec Hprx|c g Hk Hg Hdec Hprx|prelude cs0 Hk Hwp].
  - assert (windowed r = false) as Hwd by (unfold windowed; by rewrite Hk). rewrite Hwd. exists p. split_and!; [done..|].
    split; [intros _|by rewrite Hw, Hwd]. cbn [fst snd].
    exists c, (mkPosChunk (map fst c) (if np then prx_bytes (rp_entry r) else [])). split; [done|]. split.
    { split; [done|]. intros Hn. cbn [ch_prx]. rewrite Hn. by apply Hprx. }
    intros src. unfold DecodeFlatDocids, InlineDdRegion. rewrite Hpod, Hk, He. cbn [negb].
    rewrite bind_reject_false by (apply Z.ltb_ge; lia). rewrite subslice_ok, !bind_Ok by lia.
    change (Z.to_nat 0) with 0%nat. by rewrite drop_0, Hdec, bind_Ok.
  - destruct (slim_kind _ Hk) as [Hi Hwd]. rewrite Hwd. exists p. split_and!; [done..|]. split; [intros _|by rewrite Hw, Hwd]. cbn [fst snd].
    destruct (Hhs Hk) as (c' & g' & [= <-] & Hh & Hdec' & Hprx').
    assert (∃ prx, (if np then get f' (prx_handle p) else Ok []) = Ok prx ∧ (np = true → decodes_prx prx (map snd c))) as (prx & Hprxg & Hd).
    { assert (np = true ∨ np = false) as [E|E] by (destruct np; auto); rewrite E; [|by exists []].
      destruct (Hprx' E) as (g2 & Hh2 & Hd2). rewrite (Hget _ _ Hh2). by eexists. }
    exists c, (mkPosChunk (map fst c) prx). split; [done|]. split; [by split|].
    intros src. unfold DecodeFlatDocids. rewrite Hpod, Hi, He. cbn [negb]. rewrite (Hget _ _ Hh), bind_Ok, Hprxg, !bind_Ok. by rewrite Hdec', bind_Ok.
  - rewrite Hk. cbn [negb]. rewrite (Hget _ _ (Hhw Hk)), bind_Ok. cbn [prelude_range FileIO.offset FileIO.len].
    pose proof Hwp as [Hat Hloc Hpx Hch]. rewrite (fa_open _ _ _ _ _ Hat), bind_Ok.
    rewrite bind_reject_false. 2: { assert (np = true ∨ np = false) as [E|E] by (destruct np; auto); rewrite E; [|done]. by destruct (Hpx E) as [_ ->]. }
    eexists. split; [done|]. split; [done|]. split; [done|]. split; cbn; [by rewrite Hw, Hk|done].
Qed.

Lemma OpenPreludes_ok f f' n ts ps :
  gets f f' → Forall term_ok ts → plans_from f n ts ps →
  ∃ ps', OpenPreludes f' ps np = Ok ps' ∧ map pl_df ps' = map pl_df ps ∧ map pl_order ps' = seq n (length ts) ∧ Forall2 (ready f') ts ps'.
Proof.
  intros Hget Hts. revert n ps. induction Hts as [|t ts Ht Hts IH]; intros n ps [Hlen Hall].
  { destruct ps; [|done]. exists []. by split_and!. }
  destruct ps as [|p ps]; [done|]. destruct (Hall 0%nat t p eq_refl eq_refl) as [Hp Hh]. cbn [OpenPreludes].
  destruct (open_prelude_ok f f' _ t p Hget Ht Hp Hh) as (p' & -> & Hdf & Hor & Hr). rewrite bind_Ok.
  destruct (IH (S n) ps) as (ps' & -> & Hdfs & Hors & Hrs).
  { split; [by injection Hlen|]. intros i t' q Ht' Hq. destruct (Hall (S i) t' q Ht' Hq) as [Hpl Hha]. split; [|done].
    by replace (S n + i)%nat with (n + S i)%nat by lia. }
  rewrite bind_Ok. exists (p' :: ps'). split; [done|]. cbn [map length seq]. rewrite Hdf, Hdfs, Hor, Hors, (po_order _ _ _ Hp), Nat.add_0_r.
  split_and!; [done|done|]. by constructor.
Qed.

(** ** The windows that cover the candidates *)

Lemma covering_spec d ws w :
  covering d ws = Some w → ∃ k m, w = Z.of_nat k ∧ ws !! k = Some m ∧ d ≤ last_docid m ∧
    ∀ (j : nat) x, (j < k)%nat → ws !! j = Some x → last_docid x < d.
Proof.
  unfold covering. intros ([k m] & Hf & ->)%fmap_Some. apply list_find_Some in Hf as (Hk & Hd & Hlow).
  exists k, m. split_and!; [done..|]. intros j x Hj Hx. specialize (Hlow j x Hx Hj). lia.
Qed.

Lemma covering_mono d d' ws w' : d ≤ d' → covering d' ws = Some w' → ∃ w, covering d ws = Some w ∧ w ≤ w'.
Proof.
  intros Hd (k & m & -> & Hk & Hle & _)%covering_spec. unfold covering.
  destruct (list_find _ ws) as [[j x]|] eqn:Hf.
  - exists (Z.of_nat j). split; [done|]. apply list_find_Some in Hf as (Hj & _ & Hlow).
    destruct (Nat.le_gt_cases j k); [lia|]. specialize (Hlow k m Hk ltac:(lia)). lia.
  - apply list_find_None in Hf. rewrite Forall_forall in Hf. apply list_elem_of_lookup_2 in Hk. specialize (Hf _ Hk). lia.
Qed.

(** The windows selected: ascending, and those that cover a candidate. *)
Definition selects (ws : list WindowMeta) (ds : list Z) (sel : list Z) : Prop :=
  StronglySorted Z.lt sel ∧ ∀ w, w ∈ sel ↔ ∃ d, d ∈ ds ∧ covering d ws = Some w.

Lemma sorted_snoc_lt sel w : StronglySorted Z.lt sel → (∀ v, v ∈ sel → v < w) → StronglySorted Z.lt (sel ++ [w]).
Proof.
  induction 1 as [|v sel Hs IH Hv]; intros Hlt; cbn [app]; [by repeat constructor|].
  constructor; [apply IH; intros u Hu; apply Hlt; by right|]. apply Forall_app_2; [done|]. constructor; [apply Hlt; by left|done].
Qed.

Lemma select_loop_ok prelude ds done sel last :
  (∀ d, locate_window prelude d = Ok (covering d (windows_ prelude))) → is_u32 (zlen (windows_ prelude)) →
  StronglySorted Z.lt (done ++ ds) → selects (windows_ prelude) done sel →
  (sel = [] ∧ last = UINT32_MAX ∨ ∃ pre, sel = pre ++ [last]) →
  ∃ sel' last', fold_result (select_window prelude) ds (sel, last) = Ok (sel', last') ∧ selects (windows_ prelude) (done ++ ds) sel'.
Proof.
  intros Hloc Hn. revert done sel last. induction ds as [|d ds IH]; intros done sel last Hs Hsel Hlast; cbn [fold_result].
  { exists sel, last. by rewrite app_nil_r. }
  rewrite cons_middle, app_assoc in Hs |- *. assert (∀ x, x ∈ done → x < d) as Hbelow.
  { intros x Hx. apply StronglySorted_app_1_l in Hs. apply (StronglySorted_app_1_elem_of Z.lt done [d] x d Hs Hx). by left. }
  destruct (covering d (windows_ prelude)) as [w|] eqn:Hw.
  - assert (0 ≤ w < UINT32_MAX) as Hwr.
    { pose proof Hw as (k & m & -> & Hk & _)%covering_spec. apply lookup_lt_Some in Hk. unfold UINT32_MAX. ulia. }
    assert (∀ v, v ∈ sel → v ≤ w) as Hle.
    { intros v (x & Hx & Hc)%(proj2 Hsel). destruct (covering_mono x d _ _ ltac:(specialize (Hbelow x Hx); lia) Hw) as (v' & Hv' & ?).
      rewrite Hc in Hv'. injection Hv' as <-. done. }
    destruct (Z.eqb_spec w last) as [->|Hne].
    + assert (select_window prelude d (sel, last) = Ok (sel, last)) as -> by (unfold select_window; by rewrite Hloc, Hw, bind_Ok, Z.eqb_refl).
      rewrite bind_Ok. apply IH; [done| |done]. destruct Hsel as [Hss Hsel]. split; [done|]. intros v. split.
      * intros (x & Hx & Hc)%Hsel. exists x. split; [set_solver|done].
      * intros (x & [Hx|Hx%list_elem_of_singleton]%elem_of_app & Hc); [apply Hsel; by exists x|]. subst x.
        rewrite Hw in Hc. injection Hc as <-. destruct Hlast as [[_ ->]|(pre & ->)]; [lia|set_solver].
    + assert (select_window prelude d (sel, last) = Ok (sel ++ [w], w)) as ->.
      { unfold select_window. by rewrite Hloc, Hw, bind_Ok, (proj2 (Z.eqb_neq _ _)). }
      rewrite bind_Ok. apply IH; [done| |by right; exists sel]. destruct Hsel as [Hss Hsel]. split.
      * apply sorted_snoc_lt; [done|]. intros v Hv. pose proof (Hle v Hv).
        destruct Hlast as [[-> _]|(pre & ->)]; [by apply elem_of_nil in Hv|]. apply elem_of_app in Hv as [Hv|Hv%list_elem_of_singleton]; [|lia].
        pose proof (StronglySorted_app_1_elem_of Z.lt _ _ v last Hss Hv ltac:(by left)). specialize (Hle last) as Hll.
        assert (last ∈ pre ++ [last]) by set_solver. specialize (Hll ltac:(done)). lia.
      * intros v. rewrite elem_of_app, list_elem_of_singleton, Hsel. split.
        -- intros [(x & Hx & Hc)| ->]; [exists x; split; [set_solver|done]|exists d; split; [set_solver|done]].
        -- intros (x & [Hx|Hx%list_elem_of_singleton]%elem_of_app & Hc); [left; by exists x|]. subst x. rewrite Hw in Hc. injection Hc as <-. by right.
  - assert (select_window prelude d (sel, last) = Ok (sel, last)) as -> by (unfold select_window; by rewrite Hloc, Hw, bind_Ok).
    rewrite bind_Ok. apply IH; [done| |done]. destruct Hsel as [Hss Hsel]. split; [done|]. intros v. rewrite Hsel. split.
    * intros (x & Hx & Hc). exists x. split; [set_solver|done].
    * intros (x & [Hx|Hx%list_elem_of_singleton]%elem_of_app & Hc); [by exists x|]. subst x. congruence.
Qed.

Lemma SelectCoveringWindows_ok prelude ds :
  (∀ d, locate_window prelude d = Ok (covering d (windows_ prelude))) → is_u32 (zlen (windows_ prelude)) →
  StronglySorted Z.lt ds → ∃ sel, SelectCoveringWindows prelude ds = Ok sel ∧ selects (windows_ prelude) ds sel.
Proof.
  intros Hloc Hn Hs. unfold SelectCoveringWindows.
  destruct (select_loop_ok prelude ds [] [] UINT32_MAX Hloc Hn Hs) as (sel & last & -> & Hsel); [|by left|].
  - split; [constructor|]. intros w. split; [by intros ?%elem_of_nil|by intros (? & ?%elem_of_nil & _)].
  - rewrite bind_Ok. by exists sel.
Qed.

(** ** Decoding the windows *)

(** Window [w] is chunk [c]. *)
Definition picks (prelude : FrqPreludeReader) (cs : list Posting) (w : Z) (c : Posting) : Prop :=
  ∃ k, w = Z.of_nat k ∧ (∃ m, windows_ prelude !! k = Some m) ∧ cs !! k = Some c.

(** The handles of a chunk. *)
Definition chunk_handles (f : BatchRangeFetcher) (h : WindowMeta * nat * nat) (c : Posting) : Prop :=
  (∃ g, handle_at f h.1.2 g ∧ decode_window_slices h.1.1 (FileIO.window file (FileIO.offset g) (FileIO.len g)) [] [] false false =
     Ok (map fst c, [], [])) ∧
  (np = true → ∃ g, handle_at f h.2 g ∧ decodes_prx (FileIO.window file (FileIO.offset g) (FileIO.len g)) (map snd c)).

Lemma chunk_handles_extends f f' h c : extends file f f' → chunk_handles f h c → chunk_handles f' h c.
Proof.
  intros He [(g & Hg & Hd) Hp]. split; [exists g; split; [by eapply handle_extends|done]|].
  intros Hn. destruct (Hp Hn) as (g' & Hg' & ?). exists g'. split; [by eapply handle_extends|done].
Qed.

Section Windows.
Context (p : TermPlan) (r : ResolvedDocidPosting) (cs : list Posting).
Context (Hentry : pl_entry p = rp_entry r) (Hfb : pl_frq_base p = rp_frq_base r) (Hpb : pl_prx_base p = rp_prx_base r).
Context (Hwp : windowed_postings np file idx r (pl_prelude p) cs).

Lemma plan_chunk_ok w c f hs :
  picks (pl_prelude p) cs w c →
  ∃ f' h, plan_chunk idx p np w (f, hs) = Ok (f', hs ++ [h]) ∧ extends file f f' ∧ chunk_handles f' h c.
Proof.
  intros (k & -> & (m & Hm) & Hc). destruct Hwp as [Hat _ Hprx Hch].
  destruct (Forall2_lookup_lr _ _ _ _ _ _ Hch Hm Hc) as [(Hdd & _ & _ & Hdec) _ Hpx].
  unfold plan_chunk. rewrite Hentry, Hfb, Hpb.
  rewrite (window_range_in file idx _ _ _ Hfile (pl_prelude p) np false k m Hat); 
    [|intros E; by destruct (Hprx E)|intros E; by destruct (Hprx E)|done|done|done|intros E; by destruct (Hpx E)].
  rewrite bind_Ok. assert (FrqPrelude.window (pl_prelude p) (Z.of_nat k) = Ok m) as ->.
  { unfold FrqPrelude.window. rewrite Nat2Z.id, Hm. apply lookup_lt_Some in Hm. by rewrite (proj2 (Z.leb_gt _ _)) by lia. }
  rewrite bind_Ok. cbn [wr_dd_off wr_dd_len wr_prx_off wr_prx_len]. destruct Hdd as (? & ? & ?).
  pose proof (blocks_in_file file idx _ _ (pl_prelude p) Hat) as [(? & ? & ?) _].
  set (g := mkRange (dd_start idx (rp_entry r) (rp_frq_base r) + dd_off m) (dd_disk_len m)).
  destruct (add_extends file g f) as (f1 & Ha & He1 & Hh1); [unfold in_file, g; cbn; lia|].
  cbn [g FileIO.offset FileIO.len] in Ha. rewrite Ha.
  assert (np = true ∨ np = false) as [E|E] by (destruct np; auto); rewrite E.
  - destruct (Hpx E) as [(? & ? & ?) Hdx]. destruct (Hprx E) as [[_ _ _ (? & ? & ?)] _].
    destruct (add_extends file (mkRange (prx_start idx (rp_entry r) (rp_prx_base r) + prx_off m) (FrqPrelude.prx_len m)) f1)
      as (f2 & Ha2 & He2 & Hh2); [unfold in_file; cbn; lia|]. cbn [FileIO.offset FileIO.len] in Ha2. rewrite Ha2.
    eexists f2, _. split; [done|]. split; [by eapply extends_trans|]. split.
    + exists g. split; [exact (handle_extends _ _ _ _ He2 Hh1)|done].
    + intros _. eexists. split; [exact Hh2|done].
  - eexists f1, _. split; [done|]. split; [done|]. split; [|by rewrite E]. exists g. by split.
Qed.

Lemma plan_chunks_ok ws picked f hs :
  Forall2 (picks (pl_prelude p) cs) ws picked →
  ∃ f' hs', fold_result (plan_chunk idx p np) ws (f, hs) = Ok (f', hs ++ hs') ∧ extends file f f' ∧ Forall2 (chunk_handles f') hs' picked.
Proof.
  intros Hp. revert f hs. induction Hp as [|w c ws picked Hw Hp IH]; intros f hs; cbn [fold_result].
  { exists f, []. rewrite app_nil_r. split; [done|]. split; [apply extends_refl|by apply Forall2_nil]. }
  destruct (plan_chunk_ok w c f hs Hw) as (f1 & h & -> & He1 & Hh). rewrite bind_Ok.
  destruct (IH f1 (hs ++ [h])) as (f' & hs' & -> & He & Hhs). exists f', (h :: hs'). rewrite <- app_assoc.
  split; [done|]. split; [by eapply extends_trans|]. constructor; [by eapply chunk_handles_extends|done].
Qed.

Lemma decode_chunks_ok f f' hs picked src ds :
  gets f f' → Forall2 (chunk_handles f) hs picked →
  ∃ chs, fold_result (decode_chunk f' np) hs (src, ds) = Ok (mkPosSource (src_chunks src ++ chs), ds ++ posting_docs picked) ∧
    Forall2 (chunk_holds np) chs picked.
Proof.
  intros Hget Hh. revert src ds. induction Hh as [|[[m dh] ph] c hs picked [(g & Hg & Hdec) Hp] Hh IH]; intros src ds; cbn [fold_result].
  { exists []. rewrite !app_nil_r. split; [by destruct src|by apply Forall2_nil]. }
  cbn [fst snd] in *.
  assert (∃ prx, (if np then get f' ph else Ok []) = Ok prx ∧ (np = true → decodes_prx prx (map snd c))) as (prx & Hprx & Hd).
  { assert (np = true ∨ np = false) as [E|E] by (destruct np; auto); rewrite E; [|by exists []].
    destruct (Hp E) as (g' & Hg' & ?). rewrite (Hget _ _ Hg'). by eexists. }
  assert (decode_chunk f' np (m, dh, ph) (src, ds) = Ok (push_chunk (mkPosChunk (map fst c) prx) src, ds ++ map fst c)) as ->.
  { unfold decode_chunk. by rewrite (Hget _ _ Hg), bind_Ok, Hdec, bind_Ok, Hprx, bind_Ok. }
  rewrite bind_Ok. destruct (IH (push_chunk (mkPosChunk (map fst c) prx) src) (ds ++ map fst c)) as (chs & -> & Hchs).
  exists (mkPosChunk (map fst c) prx :: chs). unfold posting_docs. cbn [push_chunk src_chunks concat]. rewrite map_app, <- !app_assoc.
  split; [done|]. constructor; [by split|done].
Qed.

Lemma DecodeWindowedDocids_ok ws picked src :
  Forall2 (picks (pl_prelude p) cs) ws picked →
  ∃ chs, DecodeWindowedDocids idx p ws np src [] = Ok (mkPosSource (src_chunks src ++ chs), posting_docs picked) ∧
    Forall2 (chunk_holds np) chs picked.
Proof.
  intros Hp. unfold DecodeWindowedDocids.
  destruct (plan_chunks_ok ws picked (new_fetcher kSameTermCoalesceGap) [] Hp) as (f1 & hs & -> & He & Hhs). rewrite bind_Ok. cbn [app].
  destruct (fetch_handles_gap file idx Hfile Hserves kSameTermCoalesceGap f1 ltac:(done) He) as (f2 & -> & Hget). rewrite bind_Ok.
  destruct (decode_chunks_ok f1 f2 hs picked src [] Hget Hhs) as (chs & -> & Hc). by exists chs.
Qed.
End Windows.

(** The windows are fetched in one batch. *)
Lemma decode_windowed_reads rd p ws src ds :
  reads_at_most 1 rd (λ rd, DecodeWindowedDocids (with_reader rd idx) p ws np src ds).
Proof.
  apply (rounds_bind rd 0 1 (λ _, fold_result (plan_chunk idx p np) ws (new_fetcher kSameTermCoalesceGap, []))); [apply rounds_none|].
  intros [f hs] _. apply (rounds_bind rd 1 0); [|intros f' _; apply rounds_none].
  unfold fetch_if_pending. destruct (0 <? BatchRangeFetcher.pending f); [apply fetch_reads|eapply rounds_mono, rounds_none; lia].
Qed.

(** ** Posting lists in chunks *)

Lemma posting_docs_app cs ds : posting_docs (cs ++ ds) = posting_docs cs ++ posting_docs ds.
Proof. unfold posting_docs. by rewrite concat_app, map_app. Qed.

Lemma posting_docs_cons c cs : posting_docs (c :: cs) = map fst c ++ posting_docs cs.
Proof. unfold posting_docs. cbn [concat]. by rewrite map_app. Qed.

Lemma posting_docs_elem cs d : d ∈ posting_docs cs ↔ ∃ k c, cs !! k = Some c ∧ d ∈ map fst c.
Proof.
  induction cs as [|c cs IH]; [split; [by intros ?%elem_of_nil|by intros (k & c & ? & _)]|].
  rewrite posting_docs_cons, elem_of_app, IH. split.
  - intros [Hd|(k & c' & Hk & Hd)]; [by exists 0%nat, c|by exists (S k), c'].
  - intros ([|k] & c' & Hk & Hd); cbn in Hk; [injection Hk as <-; by left|right; by exists k, c'].
Qed.

Lemma posting_docs_lt cs j k c c' d d' :
  StronglySorted Z.lt (posting_docs cs) → (j < k)%nat → cs !! j = Some c → cs !! k = Some c' →
  d ∈ map fst c → d' ∈ map fst c' → d < d'.
Proof.
  intros Hs Hjk Hj Hk Hd Hd'. rewrite <- (take_drop_middle cs k c' Hk), posting_docs_app, posting_docs_cons in Hs.
  apply (StronglySorted_app_1_elem_of Z.lt _ _ d d' Hs); [|by apply elem_of_app; left].
  apply posting_docs_elem. exists j, c. by rewrite lookup_take_lt.
Qed.

Lemma posting_docs_chunk cs k c : StronglySorted Z.lt (posting_docs cs) → cs !! k = Some c → StronglySorted Z.lt (map fst c).
Proof.
  intros Hs Hk. rewrite <- (take_drop_middle cs k c Hk), posting_docs_app, posting_docs_cons in Hs.
  by apply StronglySorted_app_1_r, StronglySorted_app_1_l in Hs.
Qed.

Lemma sorted_sublist (l k : list Z) : l `sublist_of` k → StronglySorted Z.lt k → StronglySorted Z.lt l.
Proof.
  induction 1 as [|x l k Hl IH|x l k Hl IH]; intros Hs; [constructor| |]; inversion Hs as [|? ? Hk Hx]; subst; [|auto].
  constructor; [by apply IH|]. rewrite Forall_forall in Hx |- *. intros y Hy. apply Hx. by eapply elem_of_sublist.
Qed.

Lemma concat_sublist {A} (l k : list (list A)) : l `sublist_of` k → concat l `sublist_of` concat k.
Proof. induction 1; cbn [concat]; [done|by apply sublist_app|by apply sublist_inserts_l]. Qed.

Lemma map_sublist {A B} (f : A → B) l k : l `sublist_of` k → map f l `sublist_of` map f k.
Proof. induction 1; cbn [map]; by constructor. Qed.

(** The chunks at some indices. *)
Definition picked (cs : list Posting) (base : Z) (ws : list Z) : list Posting := omap (λ w, cs !! Z.to_nat (w - base)) ws.

Lemma picked_sublist cs base ws : StronglySorted Z.lt ws → Forall (Z.le base) ws → picked cs base ws `sublist_of` cs.
Proof.
  unfold picked. revert base ws. induction cs as [|c cs IH]; intros base ws Hs Hb.
  { induction Hb as [|w ws Hw Hb IHb]; [constructor|]. cbn [omap list_omap]. rewrite lookup_nil. apply IHb. by inversion Hs. }
  assert (∀ ws, StronglySorted Z.lt ws → Forall (Z.le (base + 1)) ws → omap (λ w, (c :: cs) !! Z.to_nat (w - base)) ws `sublist_of` cs) as Hgt.
  { intros ws' Hs' Hb'. rewrite (list_omap_ext _ (λ w, cs !! Z.to_nat (w - (base + 1))) _ ws'); [by apply IH|].
    clear -Hb'. induction Hb' as [|w ws' Hw _ IHw]; constructor; [|done].
    by replace (Z.to_nat (w - base)) with (S (Z.to_nat (w - (base + 1)))) by lia. }
  destruct Hb as [|w ws Hw Hb]; [apply sublist_nil_l|]. inversion Hs as [|? ? Hs' Hlt]; subst.
  destruct (decide (w = base)) as [->|Hne].
  - cbn [omap list_omap]. rewrite Z.sub_diag. cbn. apply sublist_skip, Hgt; [done|]. eapply Forall_impl; [exact Hlt|]. cbn. lia.
  - apply sublist_cons, Hgt; [done|]. constructor; [lia|]. eapply Forall_impl; [exact Hlt|]. cbn. lia.
Qed.

Lemma picked_picks prelude cs ws :
  length (windows_ prelude) = length cs → Forall (λ w, 0 ≤ w < zlen cs) ws → Forall2 (picks prelude cs) ws (picked cs 0 ws).
Proof.
  intros Hlen. induction 1 as [|w ws Hw _ IH]; [by apply Forall2_nil|]. unfold picked. cbn [omap list_omap]. rewrite Z.sub_0_r.
  destruct (lookup_lt_is_Some_2 cs (Z.to_nat w)) as [c Hc]; [lia|]. rewrite Hc. constructor; [|exact IH].
  exists (Z.to_nat w). split; [lia|]. split; [|done]. apply lookup_lt_is_Some_2. apply lookup_lt_Some in Hc. lia.
Qed.

(** The window that covers a document is the chunk that has it. *)
Lemma covering_chunk r prelude cs k c d :
  Forall2 (window_chunk np file idx r prelude) (windows_ prelude) cs → StronglySorted Z.lt (posting_docs cs) →
  cs !! k = Some c → d ∈ map fst c → covering d (windows_ prelude) = Some (Z.of_nat k).
Proof.
  intros Hch Hs Hk Hd. destruct (Forall2_lookup_r _ _ _ _ _ Hch Hk) as (m & Hm & [_ Hl _]).
  apply (covering_Some _ _ k m Hm).
  - pose proof (posting_docs_chunk _ _ _ Hs Hk) as Hsc. apply list_elem_of_lookup in Hd as [i Hi].
    rewrite last_lookup in Hl. destruct (decide (i = pred (length (map fst c)))) as [->|Hne]; [rewrite Hi in Hl; injection Hl as <-; done|].
    pose proof (lookup_lt_Some _ _ _ Hi). apply Z.lt_le_incl. eapply (StronglySorted_lookup_lt _ _ i); [exact Hsc|exact Hi|exact Hl|lia].
  - intros j x Hj Hx. destruct (Forall2_lookup_l _ _ _ _ _ Hch Hx) as (c' & Hc' & [_ Hl' _]).
    apply (posting_docs_lt cs j k c' c _ _ Hs Hj Hc' Hk); [|done]. by apply last_Some_elem_of.
Qed.

(** ** The loop over the terms *)

(** The chunks kept of a term: some of its postings, those of the candidates
    among them. *)
Record keeps (t : Term) (cands : list Z) (sel : list Posting) (src : PosSource) : Prop := {
  kp_chunks : Forall2 (chunk_holds np) (src_chunks src) sel;
  kp_sorted : StronglySorted Z.lt (posting_docs sel);
  kp_some x : x ∈ concat sel → x ∈ concat t.2;
  kp_cands d : d ∈ cands → d ∈ posting_docs t.2 → d ∈ posting_docs sel
}.

Lemma keeps_docs t cands sel src d : keeps t cands sel src → d ∈ posting_docs sel → d ∈ posting_docs t.2.
Proof.
  intros Hk (x & -> & Hx)%list_elem_of_fmap. apply (list_elem_of_fmap_2 fst). by apply (kp_some _ _ _ _ Hk).
Qed.

Lemma keeps_mono t cands cands' sel src : (∀ d, d ∈ cands' → d ∈ cands) → keeps t cands sel src → keeps t cands' sel src.
Proof. intros Hc [? ? ? Hd]. split; [done..|]. intros d Hin. by apply Hd, Hc. Qed.

(** The windows read of a term: all of them for the first, and those covering
    the candidates for the others. *)
Definition windows_to_read (first : bool) (prelude : FrqPreludeReader) (cands : list Z) : result (list Z) :=
  if first then Ok (AllWindows prelude) else SelectCoveringWindows prelude cands.

Lemma all_windows_picks prelude cs :
  length (windows_ prelude) = length cs → is_u32 (zlen (windows_ prelude)) → Forall2 (picks prelude cs) (AllWindows prelude) cs.
Proof.
  intros Hlen Hn. unfold AllWindows, n_windows. rewrite u32_small by done. apply Forall2_same_length_lookup_2.
  { rewrite length_seqZ. lia. }
  intros i w c Hw Hc. apply lookup_seqZ in Hw as [-> Hi]. exists i. split; [lia|]. split; [|done].
  apply lookup_lt_is_Some_2. apply lookup_lt_Some in Hc. lia.
Qed.

(** The windows that cover the candidates are chunks of the posting, and have
    the candidates it has. *)
Lemma covering_windows_ok r prelude cs cands :
  windowed_postings np file idx r prelude cs → StronglySorted Z.lt (posting_docs cs) → StronglySorted Z.lt cands →
  ∃ ws, SelectCoveringWindows prelude cands = Ok ws ∧ selects (windows_ prelude) cands ws ∧
    Forall2 (picks prelude cs) ws (picked cs 0 ws) ∧ picked cs 0 ws `sublist_of` cs ∧
    ∀ d, d ∈ cands → d ∈ posting_docs cs → d ∈ posting_docs (picked cs 0 ws).
Proof.
  intros [Hat Hloc _ Hch] Hs Hcs. pose proof (Forall2_length _ _ _ Hch) as Hlen. pose proof (fa_count _ _ _ _ _ Hat) as Hn.
  destruct (SelectCoveringWindows_ok prelude cands Hloc Hn Hcs) as (ws & -> & Hss & Hsel). exists ws. split; [done|]. split; [done|].
  assert (Forall (λ w, 0 ≤ w < zlen cs) ws) as Hr.
  { apply Forall_forall. intros w (d & _ & (k & m & -> & Hk & _)%covering_spec)%Hsel. apply lookup_lt_Some in Hk. lia. }
  split; [by apply picked_picks|]. split; [apply picked_sublist; [done|eapply Forall_impl; [exact Hr|cbn; lia]]|].
  intros d Hd (k & c & Hk & Hdc)%posting_docs_elem. pose proof (covering_chunk r _ cs k c d Hch Hs Hk Hdc) as Hcov.
  apply posting_docs_elem. assert (c ∈ picked cs 0 ws) as [j Hj]%list_elem_of_lookup; [|by exists j, c].
  unfold picked. apply list_elem_of_omap. exists (Z.of_nat k). split; [apply Hsel; by exists d|]. by rewrite Z.sub_0_r, Nat2Z.id.
Qed.

Lemma read_term_ok f t p first cands :
  ready f t p → StronglySorted Z.lt (posting_docs t.2) → (first = false → StronglySorted Z.lt cands) →
  ∃ src sel, (if pl_windowed p then
       windows ← (if first then Ok (AllWindows (pl_prelude p)) else SelectCoveringWindows (pl_prelude p) cands);
       DecodeWindowedDocids idx p windows np no_source []
     else DecodeFlatDocids f p np no_source) = Ok (src, posting_docs sel) ∧
    keeps t (if first then posting_docs t.2 else cands) sel src.
Proof.
  destruct t as [r cs]. cbn [fst snd]. intros [Hflat Hwin] Hs Hcs. destruct (pl_windowed p) eqn:Hw.
  - destruct (Hwin eq_refl) as (He & Hfb & Hpb & Hwp). clear Hflat Hwin. pose proof Hwp as [Hat Hloc _ Hch]. cbn [fst snd] in *.
    pose proof (Forall2_length _ _ _ Hch) as Hlen. pose proof (fa_count _ _ _ _ _ Hat) as Hn.
    assert (∃ ws, (if first then Ok (AllWindows (pl_prelude p)) else SelectCoveringWindows (pl_prelude p) cands) = Ok ws ∧
      ∃ sel, Forall2 (picks (pl_prelude p) cs) ws sel ∧ sel `sublist_of` cs ∧
        ∀ d, d ∈ (if first then posting_docs cs else cands) → d ∈ posting_docs cs → d ∈ posting_docs sel) as (ws & -> & sel & Hpk & Hsub & Hin).
    { destruct first.
      - eexists. split; [done|]. exists cs. split; [by apply all_windows_picks|]. by split.
      - destruct (covering_windows_ok r (pl_prelude p) cs cands Hwp Hs (Hcs eq_refl)) as (ws & -> & _ & Hpk & Hsub & Hin).
        exists ws. split; [done|]. by exists (picked cs 0 ws). }
    rewrite bind_Ok. destruct (DecodeWindowedDocids_ok p r cs He Hfb Hpb Hwp ws sel no_source Hpk) as (chs & -> & Hchs).
    exists (mkPosSource chs), sel. split; [done|]. split; [done| |intros x; by apply sublist_subseteq, concat_sublist|done].
    eapply sorted_sublist; [|exact Hs]. by apply map_sublist, concat_sublist.
  - destruct (Hflat eq_refl) as (c & ch & Hc & Hh & Hdec). cbn [snd] in Hc. subst cs. rewrite (Hdec no_source).
    exists (push_chunk ch no_source), [c]. unfold posting_docs in *. cbn [concat snd] in *. rewrite app_nil_r in *. split; [done|].
    split; unfold posting_docs; cbn [src_chunks push_chunk no_source app concat snd]; rewrite ?app_nil_r; [|done|done|done].
    apply Forall2_cons_2; [done|by apply Forall2_nil].
Qed.

Lemma conjunction_loop_ok f ts ps order first srcs cands :
  Forall2 (ready f) ts ps → Forall (λ t, StronglySorted Z.lt (posting_docs t.2)) ts → length srcs = length ts →
  NoDup order → Forall (λ i, (i < length ts)%nat ∧ srcs !! i = Some no_source) order →
  (first = true → order ≠ []) → (first = false → StronglySorted Z.lt cands) →
  ∃ srcs' out, conjunction_loop idx f ps np order first srcs cands = Ok (srcs', out) ∧ StronglySorted Z.lt out ∧
    length srcs' = length ts ∧ (∀ i, i ∉ order → srcs' !! i = srcs !! i) ∧
    (∀ d, d ∈ out ↔ (first = false → d ∈ cands) ∧ ∀ i t, i ∈ order → ts !! i = Some t → d ∈ posting_docs t.2) ∧
    (out ≠ [] → ∀ i t, i ∈ order → ts !! i = Some t → ∃ src sel, srcs' !! i = Some src ∧ keeps t out sel src).
Proof.
  intros Hts Hsorted. revert first srcs cands. induction order as [|ti order IH]; intros first srcs cands Hlen Hnd Hord Hne Hcs; cbn [conjunction_loop].
  { destruct first; [by destruct (Hne eq_refl)|]. exists srcs, cands. specialize (Hcs eq_refl). split_and!; [done..| |].
    - intros d. split; [intros Hd; split; [done|by intros ? ? ?%elem_of_nil]|by intros [Hd _]; apply Hd].
    - intros _ i t Hi. by apply elem_of_nil in Hi. }
  apply NoDup_cons in Hnd as [Hni Hnd]. apply Forall_cons in Hord as [[Hlt Hsrc] Hord].
  destruct (lookup_lt_is_Some_2 ts ti Hlt) as [t Ht]. destruct (Forall2_lookup_l _ _ _ _ _ Hts Ht) as (p & -> & Hr). rewrite Hsrc.
  pose proof (Forall_lookup_1 _ _ _ _ Hsorted Ht) as Hst. cbn in Hst.
  destruct (read_term_ok f t p first cands Hr Hst Hcs) as (src & sel & -> & Hk). rewrite bind_Ok. cbv zeta.
  set (out1 := if first then posting_docs sel else intersect_sorted cands (posting_docs sel)).
  assert (StronglySorted Z.lt out1 ∧ ∀ d, d ∈ out1 ↔ (first = false → d ∈ cands) ∧ d ∈ posting_docs t.2) as [Hs1 Hel1].
  { pose proof (kp_sorted _ _ _ _ Hk) as Hss. unfold out1. destruct first.
    - split; [done|]. intros d. split; [intros Hd; split; [done|by eapply keeps_docs]|]. intros [_ Hd]. by apply (kp_cands _ _ _ _ Hk).
    - specialize (Hcs eq_refl). unfold intersect_sorted. split; [by apply set_intersection_ascending|]. intros d. rewrite set_intersection_elem by done. split.
      + intros [Hd Hd']. split; [done|by eapply keeps_docs].
      + intros [Hd Hd']. specialize (Hd eq_refl). split; [done|]. by apply (kp_cands _ _ _ _ Hk). }
  assert (∀ i, i ≠ ti → <[ti:=src]> srcs !! i = srcs !! i) as Hother by (intros i Hi; by apply list_lookup_insert_ne).
  destruct out1 as [|d0 out1'] eqn:Hout1.
  - exists (<[ti:=src]> srcs), []. split; [done|]. split; [constructor|]. split; [by rewrite length_insert|]. split.
    { intros i Hi. apply Hother. set_solver. }
    split; [|done]. intros d. split; [by intros ?%elem_of_nil|]. intros [Hd Hall]. apply (Hel1 d). split; [done|]. apply (Hall ti t); [by left|done].
  - rewrite <- Hout1 in Hs1, Hel1 |- *. clear Hout1. destruct (IH false (<[ti:=src]> srcs) out1) as (srcs' & out & -> & Hso & Hl' & Hoth & Hel & Hkeep); try done.
    { by rewrite length_insert. }
    { apply Forall_forall. intros i Hi. rewrite Forall_forall in Hord. destruct (Hord i Hi). split; [done|]. rewrite Hother; [done|]. by intros ->. }
    exists srcs', out. split; [done|]. split; [done|]. split; [done|]. split; [|split].
    + intros i Hi. rewrite Hoth, Hother by set_solver. done.
    + intros d. rewrite Hel. split.
      * intros [Hd Hall]. specialize (Hd eq_refl). apply Hel1 in Hd as [Hd Hdt]. split; [done|]. intros i t' [->|Hi]%elem_of_cons Ht'; [|by apply (Hall i)].
        rewrite Ht in Ht'. by injection Ht' as <-.
      * intros [Hd Hall]. split; [intros _; apply Hel1; split; [done|apply (Hall ti t); [by left|done]]|]. intros i t' Hi. apply Hall. by right.
    + intros Hout i t' [->|Hi]%elem_of_cons Ht'; [|by apply Hkeep]. rewrite Ht in Ht'. injection Ht' as <-. exists src, sel. split.
      * rewrite Hoth by done. apply list_lookup_insert_eq. by rewrite Hlen.
      * eapply keeps_mono; [|exact Hk]. intros d [Hd _]%Hel. specialize (Hd eq_refl). apply Hel1 in Hd as [Hd Hdt]. destruct first; [done|by apply Hd].
Qed.

(** ** The whole conjunction *)

(** The state after the conjunction of some terms. *)
Record conjoined (ts : list Term) (ps : list TermPlan) (srcs : list PosSource) (out : list Z) : Prop := {
  cj_sorted : StronglySorted Z.lt out;
  cj_docs d : d ∈ out ↔ ∀ t, t ∈ ts → d ∈ posting_docs t.2;
  cj_length : length srcs = length ts;
  cj_orders : map pl_order ps = seq 0 (length ts);
  cj_kept : out ≠ [] → ∀ i t, ts !! i = Some t → ∃ src sel, srcs !! i = Some src ∧ keeps t out sel src
}.

Lemma build_conjunction_ok f ts ps :
  ts ≠ [] → Forall2 (ready f) ts ps → Forall (λ t, StronglySorted Z.lt (posting_docs t.2)) ts →
  map pl_order ps = seq 0 (length ts) →
  ∃ srcs out, BuildConjunction idx f ps np (replicate (length ps) no_source) [] = Ok (srcs, out) ∧ conjoined ts ps srcs out.
Proof.
  intros Hne Hr Hs Hord. pose proof (Forall2_length _ _ _ Hr) as Hlen. unfold BuildConjunction, AscendingDfOrder.
  pose proof (sort_by_perm (plan_df ps) (seq 0 (length ps))) as Hperm. set (order := sort_by _ _) in *.
  assert (∀ i, i ∈ order ↔ (i < length ts)%nat) as Hin.
  { intros i. rewrite Hperm, elem_of_seq. lia. }
  destruct (conjunction_loop_ok f ts ps order true (replicate (length ps) no_source) [] Hr Hs) as (srcs & out & -> & Hso & Hl & _ & Hel & Hk).
  - by rewrite length_replicate.
  - rewrite Hperm. apply NoDup_seq.
  - apply Forall_forall. intros i Hi%Hin. split; [done|]. apply lookup_replicate. split; [done|lia].
  - intros _ He. destruct ts as [|t ts]; [done|]. assert (0%nat ∈ order) as H0i by (apply Hin; cbn; lia). rewrite He in H0i. by apply elem_of_nil in H0i.
  - done.
  - exists srcs, out. split; [done|]. split; [done| |done|done|].
    + intros d. rewrite Hel. split.
      * intros [_ Hall] t [i Ht]%list_elem_of_lookup. apply (Hall i t); [apply Hin; by apply lookup_lt_Some in Ht|done].
      * intros Hall. split; [done|]. intros i t _ Ht. apply Hall. by apply list_elem_of_lookup_2 in Ht.
    + intros Ho i t Ht. apply (Hk Ho i t); [apply Hin; by apply lookup_lt_Some in Ht|done].
Qed.

(** From the registered reads to the candidates. *)
Lemma conjunction_ok f ts ps :
  ts ≠ [] → Forall term_ok ts → Forall (λ t, StronglySorted Z.lt (posting_docs t.2)) ts →
  extends file (new_fetcher 0) f → plans_from f 0 ts ps →
  ∃ f' ps' srcs out, fetch_if_pending idx f = Ok f' ∧ OpenPreludes f' ps np = Ok ps' ∧
    BuildConjunction idx f' ps' np (replicate (length ps') no_source) [] = Ok (srcs, out) ∧ conjoined ts ps' srcs out.
Proof.
  intros Hne Hts Hs He Hps. destruct (fetch_handles file idx Hfile Hserves f He) as (f' & Hf & Hget).
  destruct (OpenPreludes_ok f f' 0 ts ps Hget Hts Hps) as (ps' & Ho & _ & Hord & Hr).
  destruct (build_conjunction_ok f' ts ps' Hne Hr Hs Hord) as (srcs & out & Hb & Hc). by exists f', ps', srcs, out.
Qed.
End Plan.

(** ** Over an index *)

(** An index whose entries hold the postings [postings] gives for their terms. *)
Record answers_postings `{ZstdOps} `{BsbfEnv} (np : bool) (tier : IndexTier) (hp : bool) (file : bytes) (idx : LogicalIndexReader)
    (blocks : list IndexBlock) (postings : bytes → Posting) : Prop := {
  ap_indexes : indexes tier hp file idx blocks;
  ap_file : zlen file < 2 ^ 64;
  ap_terms h : h ∈ index_hits tier hp blocks →
    ∃ cs, holds_postings np file idx (resolved h) cs ∧ concat cs = postings (hit_term h);
  ap_sorted t : t ∈ index_terms blocks → StronglySorted Z.lt (map fst (postings t))
}.

Section Answers.
Context `{ZstdOps} `{SortLaws} `{BsbfEnv} (np : bool) (tier : IndexTier) (hp : bool).
Context (file : bytes) (idx : LogicalIndexReader) (blocks : list IndexBlock) (postings : bytes → Posting).
Context (Hans : answers_postings np tier hp file idx blocks postings).

Definition term_for (term : bytes) (t : Term) : Prop :=
  ∃ h, h ∈ index_hits tier hp blocks ∧ hit_term h = term ∧ t.1 = resolved h ∧ term_ok np file idx t ∧ concat t.2 = postings term.

Lemma term_for_sorted term t : term_for term t → StronglySorted Z.lt (posting_docs t.2).
Proof.
  intros (h & Hh & <- & _ & _ & Hc). unfold posting_docs. rewrite Hc. apply (ap_sorted _ _ _ _ _ _ _ Hans).
  apply (index_terms_hit tier hp). by exists h.
Qed.

Lemma resolve_ok term :
  if decide (term ∈ index_terms blocks) then ∃ t : Term, ResolvePhraseTerm idx term = Ok (Some t.1) ∧ term_for term t
  else ResolvePhraseTerm idx term = Ok None.
Proof.
  unfold ResolvePhraseTerm. rewrite (lookup_indexes tier hp file idx blocks term (ap_indexes _ _ _ _ _ _ _ Hans)), bind_Ok.
  destruct (find_hit term (index_hits tier hp blocks)) as [h|] eqn:Hf.
  - apply find_hit_Some in Hf as [Hin <-]. rewrite decide_True by (apply (index_terms_hit tier hp); by exists h).
    destruct (ap_terms _ _ _ _ _ _ _ Hans h Hin) as (cs & Hh & Hc). exists (resolved h, cs). split; [done|]. by exists h.
  - by rewrite decide_False by (by apply (find_hit_None tier hp)).
Qed.

(** The plans of the terms, or the news that one is absent. *)
Lemma plan_terms_loop_ok terms f ps :
  (Forall (λ t, t ∈ index_terms blocks) terms ∧
     ∃ ts f' ps', Forall2 term_for terms ts ∧ plan_terms_loop idx np terms (f, ps) = Ok (Some (f', ps ++ ps')) ∧
       extends file f f' ∧ plans_from np file idx f' (length ps) ts ps') ∨
  (¬ Forall (λ t, t ∈ index_terms blocks) terms ∧ plan_terms_loop idx np terms (f, ps) = Ok None).
Proof.
  revert f ps. induction terms as [|term terms IH]; intros f ps; cbn [plan_terms_loop].
  { left. split; [constructor|]. exists [], f, []. rewrite app_nil_r. split; [by apply Forall2_nil|]. split; [done|].
    split; [apply extends_refl|by split]. }
  pose proof (resolve_ok term) as Hr. destruct (decide (term ∈ index_terms blocks)) as [Hin|Hni].
  2: { right. rewrite Hr, bind_Ok. split; [by intros [? _]%Forall_cons|done]. }
  destruct Hr as (t & -> & Ht). rewrite bind_Ok. pose proof Ht as (h & _ & _ & _ & Htok & _).
  destruct (configure_ok np file idx (ap_file _ _ _ _ _ _ _ Hans) (length ps) t f Htok) as (f1 & p & Hc & He1 & Hp & Hh).
  assert (plan_term idx np t.1 (f, ps) = Ok (f1, ps ++ [p])) as -> by (unfold plan_term; by rewrite Hc).
  rewrite bind_Ok.
  destruct (IH f1 (ps ++ [p])) as [(Hall & ts & f' & ps' & Hts & -> & He & Hlen & Hpl)|[Hn ->]].
  - left. split; [by constructor|]. exists (t :: ts), f', (p :: ps'). rewrite <- app_assoc. split; [by constructor|]. split; [done|].
    split; [by eapply extends_trans|]. split; [cbn; by rewrite Hlen|]. intros [|i] t' p' Ht' Hp'; cbn in Ht', Hp'.
    + injection Ht' as <-. injection Hp' as <-. rewrite Nat.add_0_r. split; [done|by eapply handles_extends].
    + destruct (Hpl i t' p' Ht' Hp') as [Hpo Hha]. split; [|done]. rewrite length_app in Hpo. cbn [length] in Hpo.
      by replace (length ps + S i)%nat with (length ps + 1 + i)%nat by lia.
  - right. split; [by intros [_ ?]%Forall_cons|done].
Qed.

Lemma terms_for_ok terms ts : Forall2 term_for terms ts → Forall (term_ok np file idx) ts ∧ Forall (λ t, StronglySorted Z.lt (posting_docs t.2)) ts.
Proof.
  induction 1 as [|term t terms ts Ht Hts [IH1 IH2]]; [by split|]. split; constructor; [|done|by eapply term_for_sorted|done].
  by destruct Ht as (h & _ & _ & _ & ? & _).
Qed.

Lemma terms_for_docs terms ts d :
  Forall2 term_for terms ts → (∀ t, t ∈ ts → d ∈ posting_docs t.2) ↔ ∀ term, term ∈ terms → d ∈ map fst (postings term).
Proof.
  induction 1 as [|term t terms ts (h & _ & _ & _ & _ & Hc) Hts IH].
  { split; by intros _ x ?%elem_of_nil. }
  setoid_rewrite elem_of_cons. assert (posting_docs t.2 = map fst (postings term)) as He by (unfold posting_docs; by rewrite Hc).
  split; intros Hall x [->|Hx]; [rewrite <- He; apply Hall; by left| |rewrite He; apply Hall; by left|].
  - apply IH; [|done]. intros t' Ht'. apply Hall. by right.
  - apply IH; [|done]. intros t' Ht'. apply Hall. by right.
Qed.
End Answers.

(** ** Properties *)

(** C8: for candidates in order, the windows chosen of a windowed posting are,
    ascending and once each, exactly those some candidate falls in: the first
    whose last document reaches it. One batch of reads then delivers the
    documents of just those windows, and a candidate is among them exactly when
    the posting holds it. *)
Theorem covering_windows_exact `{ZstdOps} `{SortLaws} np file idx p r cs cands :
  serves file (reader_ idx) → zlen file < 2 ^ 64 →
  pl_entry p = rp_entry r → pl_frq_base p = rp_frq_base r → pl_prx_base p = rp_prx_base r →
  windowed_postings np file idx r (pl_prelude p) cs → StronglySorted Z.lt (posting_docs cs) → StronglySorted Z.lt cands →
  ∃ ws src, SelectCoveringWindows (pl_prelude p) cands = Ok ws ∧ StronglySorted Z.lt ws ∧
    (∀ w, w ∈ ws ↔ ∃ d, d ∈ cands ∧ covering d (windows_ (pl_prelude p)) = Some w) ∧
    DecodeWindowedDocids idx p ws np no_source [] = Ok (src, posting_docs (picked cs 0 ws)) ∧
    Forall2 (chunk_holds np) (src_chunks src) (picked cs 0 ws) ∧
    (∀ d, d ∈ cands → d ∈ posting_docs (picked cs 0 ws) ↔ d ∈ posting_docs cs) ∧
    reads_at_most 1 (reader_ idx) (λ r, DecodeWindowedDocids (with_reader r idx) p ws np no_source []).
Proof.
  intros Hserves Hfile He Hfb Hpb Hwp Hs Hcs.
  destruct (covering_windows_ok np file idx Hfile Hserves r (pl_prelude p) cs cands Hwp Hs Hcs) as (ws & Hsel & [Hss Hws] & Hpk & Hsub & Hin).
  destruct (DecodeWindowedDocids_ok np file idx Hfile Hserves p r cs He Hfb Hpb Hwp ws _ no_source Hpk) as (chs & Hdec & Hchs).
  exists ws, (mkPosSource chs). do 3 (split; [done|]). split; [exact Hdec|]. split; [done|]. split; [|by eapply decode_windowed_reads].
  intros d Hd. split; [|by apply Hin]. apply sublist_subseteq. by apply map_sublist, concat_sublist.
Qed.

(** a conjunction returns, ascending, exactly the documents that hold every
    term; nothing when a term is not indexed. *)
Lemma boolean_and_answers `{ZstdOps} `{SortLaws} `{BsbfEnv} tier hp file idx blocks postings terms :
  answers_postings false tier hp file idx blocks postings → terms ≠ [] →
  ∃ out, boolean_and idx terms = Ok out ∧ StronglySorted Z.lt out ∧
    ∀ d, d ∈ out ↔ ∀ t, t ∈ terms → t ∈ index_terms blocks ∧ d ∈ map fst (postings t).
Proof.
  intros Hans Hne. unfold boolean_and. destruct terms as [|t0 terms'] eqn:Hterms; [done|]. rewrite <- Hterms. clear Hne. unfold PlanTerms.
  destruct (plan_terms_loop_ok false tier hp file idx blocks postings Hans terms (new_fetcher 0) [])
    as [(Hall & ts & f & ps & Hts & -> & He & Hps)|[Hn ->]]; rewrite bind_Ok.
  - destruct (terms_for_ok false tier hp file idx blocks postings Hans terms ts Hts) as [Hok Hs].
    destruct (conjunction_ok false file idx (ap_file _ _ _ _ _ _ _ Hans) (indexes_serves _ _ _ _ _ (ap_indexes _ _ _ _ _ _ _ Hans)) f ts ps)
      as (f' & ps' & srcs & out & -> & Ho & Hb & Hc); [|done|done|done|done|].
    { subst terms. by inversion Hts. }
    cbn [app]. rewrite bind_Ok, Ho, bind_Ok, Hb, bind_Ok. exists out. split; [done|]. split; [apply Hc|]. intros d.
    rewrite (cj_docs _ _ _ _ _ Hc), (terms_for_docs false tier hp file idx blocks postings terms ts d Hts). rewrite Forall_forall in Hall. naive_solver.
  - exists []. split; [done|]. split; [constructor|]. intros d. split; [by intros ?%elem_of_nil|]. intros Hd. exfalso. apply Hn, Forall_forall.
    intros t Ht. by apply Hd.
Qed.

(** ** Witness *)

Definition conjunction_cols : FrqPreludeColumns := mkFrqPreludeColumns true true 64 sample_windows.

Lemma conjunction_cols_wf : wf_cols conjunction_cols.
Proof.
  assert (windows conjunction_cols = ltac:(let ws := eval vm_compute in sample_windows in exact ws)) as Hw by (vm_compute; reflexivity).
  unfold wf_cols. rewrite Hw. split; [cbn; lia|]. split; [vm_compute; discriminate|]. split.
  - repeat constructor; cbn; lia.
  - cbn. split_and!; try lia; try (by right); intros _; split_and!; lia.
Qed.

Definition sample_plan : TermPlan := mkTermPlan sample_windowed_entry 0 0 4 0 0 0 0 true true sample_prelude.
Definition sample_chunks : list Posting := [[(1, [0; 3]); (5, [7])]; [(9, [4]); (12, [4])]].

Lemma sample_windowed_postings :
  windowed_postings (H := StoredZstd.ops) false sample_posting_file sample_idx (mkResolved sample_windowed_entry 0 0) sample_prelude sample_chunks.
Proof.
  split; [exact sample_frq_at| |done|].
  - intros d. assert (sample_prelude = built_reader conjunction_cols) as -> by (vm_compute; reflexivity). by apply locate_built, conjunction_cols_wf.
  - pose proof (sample_yields false false) as Hy. assert (windows_ sample_prelude = sample_windows) as Hw by (vm_compute; reflexivity).
    rewrite Hw in Hy |- *. unfold sample_windows in *. inversion Hy as [|? ? ? ? H1 Hy']; subst. inversion Hy' as [|? ? ? ? H2 _]; subst.
    repeat apply Forall2_cons_2; [..|by apply Forall2_nil]; (split; [assumption|by vm_compute|done]).
Qed.

Lemma covering_windows_exact_witness :
  ∃ ws src, SelectCoveringWindows sample_prelude [7; 9; 20] = Ok ws ∧ StronglySorted Z.lt ws ∧
    (∀ w, w ∈ ws ↔ ∃ d, d ∈ [7; 9; 20] ∧ covering d (windows_ sample_prelude) = Some w) ∧
    DecodeWindowedDocids (H := StoredZstd.ops) (H0 := InsertionSort.sort) sample_idx sample_plan ws false no_source [] =
      Ok (src, posting_docs (picked sample_chunks 0 ws)) ∧
    Forall2 (chunk_holds false) (src_chunks src) (picked sample_chunks 0 ws) ∧
    (∀ d, d ∈ [7; 9; 20] → d ∈ posting_docs (picked sample_chunks 0 ws) ↔ d ∈ posting_docs sample_chunks) ∧
    reads_at_most 1 (reader_ sample_idx)
      (λ r, DecodeWindowedDocids (H := StoredZstd.ops) (H0 := InsertionSort.sort) (with_reader r sample_idx) sample_plan ws false no_source []).
Proof.
  apply (covering_windows_exact (H := StoredZstd.ops) (H0 := InsertionSort.sort) false sample_posting_file sample_idx sample_plan
    (mkResolved sample_windowed_entry 0 0) sample_chunks [7; 9; 20]);
    [apply memory_file_serves|by vm_compute|done|done|done|exact sample_windowed_postings|repeat constructor|repeat constructor].
Defined.

Example covering_windows_sample : SelectCoveringWindows sample_prelude [7; 9; 20] = Ok [1].
Proof. by vm_compute. Qed.
