(* ===== verification/PhraseMatch.v ===== *)
(** * PhraseMatch: positions of the candidates, and phrases.

    The theory of the verifying half of [PhraseQuery]. A cursor that moves
    forward over the chunks kept of a term stands, after [seek], on the document
    it was sent to, and hands out that document's positions; each candidate is
    then tested for a start from which the terms follow one another. *)

From S2P Require Import Prelude Status ByteIO FormatConstants Zstd TermKey FrqPod FrqPrelude PrxPod DictEntry DictBlock PerIndexMeta.
From S2P Require Import FileIO Bsbf BatchRangeFetcher DocidSets LogicalIndexReader.
From S2P Require Import WindowedPosting DocidPostingReader Queries PhraseQuery Conjunction.

#[local] Open Scope Z_scope.

(** ** Spans *)

Lemma csr_offsets_length base pss : length (csr_offsets base pss) = length pss.
Proof. revert base. induction pss as [|ps pss IH]; intros base; cbn; [done|]. by rewrite IH. Qed.

Lemma csr_offsets_lookup base pss i ps :
  pss !! i = Some ps → 0 ≤ base → base + zlen (concat pss) < 2 ^ 32 →
  (base :: csr_offsets base pss) !! i = Some (base + zlen (concat (take i pss))) ∧
  (base :: csr_offsets base pss) !! S i = Some (base + zlen (concat (take i pss)) + zlen ps).
Proof.
  revert base i. induction pss as [|p pss IH]; intros base i Hi Hb Hsz; [done|]. cbn [concat] in Hsz. rewrite length_app in Hsz.
  destruct i as [|i]; cbn in Hi.
  - injection Hi as ->. cbn [take concat length csr_offsets lookup list_lookup]. rewrite u32_small by ulia. split; cbn; f_equal; lia.
  - destruct (IH (base + zlen p) i Hi ltac:(lia) ltac:(lia)) as [H1 H2]. cbn [csr_offsets take concat]. rewrite length_app.
    rewrite u32_small by ulia. change ((base :: ?x :: ?l) !! S i) with ((x :: l) !! i). change ((base :: ?x :: ?l) !! S (S i)) with ((x :: l) !! S i).
    rewrite H1, H2. split; f_equal; lia.
Qed.

Lemma concat_lookup {A} (pss : list (list A)) i ps :
  pss !! i = Some ps → concat pss = concat (take i pss) ++ ps ++ concat (drop (S i) pss).
Proof.
  intros Hi. rewrite <- (take_drop_middle pss i ps Hi) at 1. by rewrite concat_app.
Qed.

Lemma span_of_csr pss i ps :
  pss !! i = Some ps → zlen (concat pss) < 2 ^ 32 → span_of (to_csr pss).1 (to_csr pss).2 i = Ok ps.
Proof.
  intros Hi Hsz. destruct (csr_offsets_lookup 0 pss i ps Hi ltac:(lia) ltac:(lia)) as [H1 H2]. unfold span_of, to_csr. cbn [fst snd].
  rewrite H1, H2. rewrite (concat_lookup pss i ps Hi) in Hsz |- *. rewrite !length_app in *.
  rewrite (proj2 (andb_true_iff _ _)) by (split; apply Z.leb_le; lia). f_equal. rewrite Z.add_0_l.
  replace (Z.to_nat _) with (length ps) by lia. rewrite Nat2Z.id. apply take_drop_mid.
Qed.

(** ** The cursor *)

Section Cursor.
Context `{ZstdOps}.

(** A cursor over the chunks [sel] that has left behind only documents below
    [lb]. *)
Record cursor_ok (c : PostingCursor) (sel : list Posting) (lb : Z) : Prop := {
  co_chunks : Forall2 (chunk_holds true) (src_chunks (cu_src c)) sel;
  co_left i ch x : (i < ci_ c)%nat → sel !! i = Some ch → x ∈ map fst ch → x < lb;
  co_passed ch j x : (j < li_ c)%nat → sel !! ci_ c = Some ch → map fst ch !! j = Some x → x < lb;
  co_loaded k ch : decoded_pos_chunk_ c = Some k → sel !! k = Some ch → (pflat_ c, poff_ c) = to_csr (map snd ch)
}.

(** It stands on the document [d] with the positions [ps]. *)
Definition stands_on (c : PostingCursor) (sel : list Posting) (d : Z) (ps : list Z) : Prop :=
  ∃ ch, sel !! ci_ c = Some ch ∧ ch !! li_ c = Some (d, ps).

Lemma init_ok src sel lb : Forall2 (chunk_holds true) (src_chunks src) sel → cursor_ok (init src) sel lb.
Proof. intros Hc. split; cbn; [done|lia|lia|done]. Qed.

Lemma cursor_ok_mono c sel lb lb' : lb ≤ lb' → cursor_ok c sel lb → cursor_ok c sel lb'.
Proof.
  intros Hl [Hc Hlf Hp Hd]. split; [done| | |done].
  - intros i ch x Hi Hch Hx. specialize (Hlf i ch x Hi Hch Hx). lia.
  - intros ch j x Hj Hch Hx. specialize (Hp ch j x Hj Hch Hx). lia.
Qed.

(** The chunk loop passes the chunks that end below the target. *)
Lemma skip_chunks_spec chunks sel target ci li i ch :
  Forall2 (chunk_holds true) chunks sel → (∀ j c x, (j < i)%nat → sel !! j = Some c → x ∈ map fst c → x < target) →
  sel !! i = Some ch → (∃ b, last (map fst ch) = Some b ∧ target ≤ b) →
  skip_chunks chunks target ci li = ((ci + i)%nat, if decide (i = 0%nat) then li else 0%nat).
Proof.
  intros Hc. revert ci li i. induction Hc as [|k c chunks sel [Hk _] Hc IH]; intros ci li i Hlow Hi Hb; [done|]. cbn [skip_chunks]. rewrite Hk.
  destruct i as [|i]; cbn in Hi.
  - injection Hi as ->. destruct Hb as (b & -> & Hb). by rewrite (proj2 (Z.ltb_ge _ _)), Nat.add_0_r.
  - assert (skip_chunks chunks target (S ci) 0 = ((ci + S i)%nat, 0%nat)) as Hgo.
    { rewrite (IH (S ci) 0%nat i); [|intros j c' x Hj; apply (Hlow (S j)); lia|done|done]. destruct (decide (i = 0%nat)); f_equal; lia. }
    destruct (last (map fst c)) as [b|] eqn:Hl; [|exact Hgo].
    rewrite (proj2 (Z.ltb_lt _ _)); [exact Hgo|]. apply (Hlow 0%nat c); [lia|done|]. by apply last_Some_elem_of.
Qed.

Lemma skip_docs_spec ds target li j :
  ds !! j = Some target → (∀ k x, (k < j)%nat → ds !! k = Some x → x < target) → skip_docs ds target li = (li + j)%nat.
Proof.
  revert li j. induction ds as [|x ds IH]; intros li j Hj Hlow; [done|]. cbn [skip_docs]. destruct j as [|j]; cbn in Hj.
  - injection Hj as ->. by rewrite Z.ltb_irrefl, Nat.add_0_r.
  - rewrite (proj2 (Z.ltb_lt _ _)) by (apply (Hlow 0%nat); [lia|done]). rewrite (IH (S li) j Hj); [lia|].
    intros k y Hk. apply (Hlow (S k)). lia.
Qed.

Lemma seek_ok c sel lb d ps :
  cursor_ok c sel lb → lb ≤ d → StronglySorted Z.lt (posting_docs sel) → (d, ps) ∈ concat sel →
  cursor_ok (seek d c) sel d ∧ stands_on (seek d c) sel d ps.
Proof.
  intros [Hc Hlf Hp Hd] Hlb Hs Hin. apply list_elem_of_In, in_concat in Hin as (ch & Hch & Hin).
  apply list_elem_of_In, list_elem_of_lookup in Hch as [i Hi]. apply list_elem_of_In, list_elem_of_lookup in Hin as [j Hj].
  assert (map fst ch !! j = Some d) as Hjd by (by rewrite list_lookup_fmap, Hj).
  assert (∀ k c' x, (k < i)%nat → sel !! k = Some c' → x ∈ map fst c' → x < d) as Hbefore.
  { intros k c' x Hk Hc' Hx. apply (posting_docs_lt sel k i c' ch x d Hs Hk Hc' Hi Hx). by apply list_elem_of_lookup_2 in Hjd. }
  pose proof (posting_docs_chunk _ _ _ Hs Hi) as Hsc.
  assert (∀ k x, (k < j)%nat → map fst ch !! k = Some x → x < d) as Hbelow.
  { intros k x Hk Hx. by eapply (StronglySorted_lookup_lt _ _ k). }
  assert (ci_ c ≤ i)%nat as Hci.
  { destruct (Nat.le_gt_cases (ci_ c) i) as [|Hgt]; [done|]. apply list_elem_of_lookup_2 in Hjd. specialize (Hlf i ch d Hgt Hi Hjd). lia. }
  assert (ci_ c = i → li_ c ≤ j)%nat as Hli.
  { intros <-. destruct (Nat.le_gt_cases (li_ c) j) as [|Hgt]; [done|]. specialize (Hp ch j d Hgt Hi Hjd). lia. }
  assert (∃ k, src_chunks (cu_src c) !! i = Some k ∧ ch_docids k = map fst ch) as (k & Hk & Hkd).
  { destruct (Forall2_lookup_r _ _ _ _ _ Hc Hi) as (k & Hk & [Hkd _]). by exists k. }
  assert (seek d c = mkPostingCursor (cu_src c) i j (decoded_pos_chunk_ c) (pflat_ c) (poff_ c)) as ->.
  { unfold seek. erewrite (skip_chunks_spec (drop (ci_ c) (src_chunks (cu_src c))) (drop (ci_ c) sel) d _ _ (i - ci_ c) ch).
    - replace (ci_ c + (i - ci_ c))%nat with i by lia. rewrite Hk, Hkd. f_equal.
      destruct (decide (i - ci_ c = 0)%nat) as [He|Hne].
      + specialize (Hli ltac:(lia)). rewrite (skip_docs_spec _ d (li_ c) (j - li_ c)); [lia| |].
        * rewrite lookup_drop. by replace (li_ c + (j - li_ c))%nat with j by lia.
        * intros m x Hm. rewrite lookup_drop. apply Hbelow. lia.
      + rewrite drop_0. by rewrite (skip_docs_spec _ d 0 j).
    - by apply Forall2_drop.
    - intros m c' x Hm Hc' Hx. rewrite lookup_drop in Hc'. eapply Hbefore; [|exact Hc'|exact Hx]. lia.
    - rewrite lookup_drop. by replace (ci_ c + (i - ci_ c))%nat with i by lia.
    - rewrite last_lookup. destruct (lookup_lt_is_Some_2 (map fst ch) (pred (length (map fst ch)))) as [b Hb].
      { apply lookup_lt_Some in Hjd. lia. }
      exists b. split; [done|]. apply lookup_lt_Some in Hjd as Hlt. destruct (decide (j = pred (length (map fst ch)))) as [He|Hne].
      + rewrite He, Hb in Hjd. injection Hjd as ->. done.
      + apply Z.lt_le_incl. eapply (StronglySorted_lookup_lt _ _ j); [exact Hsc|exact Hjd|exact Hb|lia]. }
  split; [split; cbn; [done|done| |done]|by exists ch].
  intros ch' m x Hm Hch' Hx. rewrite Hi in Hch'. injection Hch' as <-. by apply (Hbelow m).
Qed.

Lemma positions_ok c sel d ps :
  cursor_ok c sel d → stands_on c sel d ps →
  ∃ c', cursor_positions c = Ok (ps, c') ∧ cursor_ok c' sel d.
Proof.
  intros [Hc Hlf Hp Hd] (ch & Hch & Hps). destruct (Forall2_lookup_r _ _ _ _ _ Hc Hch) as (k & Hk & [Hkd Hpx]).
  destruct (Hpx eq_refl) as [Hrd Hsz]. unfold cursor_positions. rewrite Hk.
  assert (length (ch_docids k) = length ch) as Hlen by (by rewrite Hkd, length_map).
  apply lookup_lt_Some in Hps as Hlt. rewrite bind_reject_false by (apply Z.leb_gt; lia).
  assert ((if decide (decoded_pos_chunk_ c = Some (ci_ c)) then Ok (pflat_ c, poff_ c) else load_positions k) = Ok (to_csr (map snd ch))) as ->.
  { destruct (decide (decoded_pos_chunk_ c = Some (ci_ c))) as [He|_]; [by rewrite (Hd _ _ He Hch)|].
    unfold load_positions. rewrite Hrd, bind_Ok. unfold to_csr at 1. cbn iota beta. rewrite bind_reject_false; [done|].
    apply negb_false_iff, Z.eqb_eq. cbn [length]. rewrite csr_offsets_length, length_map. lia. }
  rewrite bind_Ok. destruct (to_csr (map snd ch)) as [pf po] eqn:Hcsr.
  assert (map snd ch !! li_ c = Some ps) as Hsnd by (by rewrite list_lookup_fmap, Hps).
  pose proof (span_of_csr (map snd ch) (li_ c) ps Hsnd Hsz) as Hsp. rewrite Hcsr in Hsp. cbn [fst snd] in Hsp. rewrite Hsp, bind_Ok.
  eexists. split; [done|]. split; cbn; [done|done|done|]. intros k' ch' [= <-] Hch'. rewrite Hch in Hch'. by injection Hch' as <-.
Qed.
End Cursor.

(** ** Phrases in the positions of a document *)

(** The term [k] stands [k] positions behind the start. *)
Definition phrase_at (spans : list (list Z)) (p : Z) : Prop := ∀ k s, spans !! k = Some s → p + Z.of_nat k ∈ s.

(** Positions as a writer stores them. *)
Definition wf_span (s : list Z) : Prop := StronglySorted Z.le s ∧ Forall is_u32 s.

Lemma binary_search_spec span want : StronglySorted Z.le span → binary_search span want = true ↔ want ∈ span.
Proof.
  intros Hs. unfold binary_search, lower_bound.
  destruct (lower_bound_loop_spec (length span) span want 0 (zlen span) Hs ltac:(lia) ltac:(lia) ltac:(lia)) as (Hr & Hlo & Hhi).
  { intros i x _ Hi. lia. } { intros i x Hx Hi. apply lookup_lt_Some in Hx. lia. }
  set (r := lower_bound_loop _ _ _ _ _) in *. clearbody r. destruct (span !! Z.to_nat r) as [x|] eqn:Hx.
  - rewrite negb_true_iff, Z.ltb_ge. split.
    + intros Hle. specialize (Hhi _ x Hx ltac:(lia)). assert (x = want) as <- by lia. by apply list_elem_of_lookup_2 in Hx.
    + intros [i Hi]%list_elem_of_lookup. destruct (Z.lt_ge_cases (Z.of_nat i) r) as [Hlt|Hge]; [specialize (Hlo i want Hi Hlt); lia|].
      destruct (decide (i = Z.to_nat r)) as [->|Hne]; [rewrite Hx in Hi; injection Hi; lia|].
      eapply (StronglySorted_lookup_lt _ _ (Z.to_nat r)); [exact Hs|exact Hx|exact Hi|lia].
  - split; [done|]. intros [i Hi]%list_elem_of_lookup. apply lookup_ge_None_1 in Hx. apply lookup_lt_Some in Hi as Hlt.
    specialize (Hlo i want Hi ltac:(lia)). lia.
Qed.

Lemma add_position_offset_spec start k :
  is_u32 start → 0 ≤ k ≤ UINT32_MAX →
  add_position_offset start k = if bool_decide (start + k ≤ UINT32_MAX) then Some (start + k) else None.
Proof.
  intros Hs Hk. unfold add_position_offset, UINT32_MAX in *. destruct (Z.ltb_spec (4294967295 - k) start).
  - by rewrite bool_decide_false by lia.
  - rewrite bool_decide_true by lia. by rewrite u32_small by ulia.
Qed.

(** The test of one start, for any number of offsets. *)
Lemma follows_spec n s0 spans start :
  Forall wf_span (s0 :: spans) → zlen (s0 :: spans) ≤ n ≤ UINT32_MAX → start ∈ s0 →
  follows (seqZ 0 n) (s0 :: spans) start = true ↔ phrase_at (s0 :: spans) start.
Proof.
  intros Hwf Hn Hst. apply Forall_cons in Hwf as [[_ H0] Hwf]. rewrite Forall_forall in H0. specialize (H0 _ Hst). cbn [length] in Hn.
  unfold follows. rewrite seqZ_cons by lia. cbn [zip zip_with tail]. rewrite forallb_forall. split.
  - intros Hall [|k] s Hk; cbn in Hk; [injection Hk as <-; by rewrite Z.add_0_r|].
    apply lookup_lt_Some in Hk as Hlt. pose proof (Forall_lookup_1 _ _ _ _ Hwf Hk) as [Hss Hsu].
    specialize (Hall (Z.of_nat (S k), s)). cbn [fst snd] in Hall.
    assert (In (Z.of_nat (S k), s) (zip (seqZ (Z.succ 0) (Z.pred n)) spans)) as Hin.
    { apply list_elem_of_In, list_elem_of_lookup. exists k. apply lookup_zip_Some. split; [|done]. apply lookup_seqZ. lia. }
    specialize (Hall Hin). rewrite add_position_offset_spec in Hall by (done || lia).
    case_bool_decide; [|done]. by apply binary_search_spec in Hall.
  - intros Hp [off s] [k Hk]%list_elem_of_In%list_elem_of_lookup. cbn [fst snd]. apply lookup_zip_Some in Hk as [Hoff Hk].
    apply lookup_seqZ in Hoff as [-> Hlt]. pose proof (Forall_lookup_1 _ _ _ _ Hwf Hk) as [Hss Hsu].
    specialize (Hp (S k) s Hk). replace (Z.succ 0 + Z.of_nat k) with (Z.of_nat (S k)) by lia.
    rewrite Forall_forall in Hsu. pose proof (Hsu _ Hp) as Hu. rewrite add_position_offset_spec by (done || lia).
    rewrite bool_decide_true by (unfold UINT32_MAX; ulia). by apply binary_search_spec.
Qed.

Lemma phrase_start s0 spans p : phrase_at (s0 :: spans) p → p ∈ s0.
Proof. intros Hp. specialize (Hp 0%nat s0 eq_refl). by rewrite Z.add_0_r in Hp. Qed.

Lemma exists_phrase n s0 spans :
  Forall wf_span (s0 :: spans) → zlen (s0 :: spans) ≤ n ≤ UINT32_MAX →
  existsb (follows (seqZ 0 n) (s0 :: spans)) s0 = true ↔ ∃ p, phrase_at (s0 :: spans) p.
Proof.
  intros Hwf Hn. rewrite existsb_exists. split.
  - intros (p & Hp%list_elem_of_In & Hf). exists p. by apply (follows_spec n).
  - intros (p & Hp). pose proof (phrase_start _ _ _ Hp) as Hin. exists p. split; [by apply list_elem_of_In|]. by apply follows_spec.
Qed.

Lemma build_position_offsets_ok n : n < UINT32_MAX → build_position_offsets n = Some (seqZ 0 n).
Proof. intros Hn. unfold build_position_offsets. by rewrite (proj2 (Z.leb_gt _ _)). Qed.

(** The positions of a document in a posting. *)
Definition positions_at (g : Posting) (d : Z) : list Z :=
  match List.find (λ x, x.1 =? d) g with Some x => x.2 | None => [] end.

Lemma positions_at_elem g d ps : StronglySorted Z.lt (map fst g) → (d, ps) ∈ g → positions_at g d = ps.
Proof.
  unfold positions_at. induction g as [|[e qs] g IH]; intros Hs Hin; [by apply elem_of_nil in Hin|]. cbn [List.find fst map] in *.
  inversion Hs as [|? ? Hs' Hlt]; subst. apply elem_of_cons in Hin as [He|Hin].
  - injection He as -> ->. by rewrite Z.eqb_refl.
  - rewrite (proj2 (Z.eqb_neq e d)); [by apply IH|]. rewrite Forall_forall in Hlt. specialize (Hlt d (list_elem_of_fmap_2 fst _ _ Hin)). lia.
Qed.

Lemma positions_at_some g d : d ∈ map fst g → (d, positions_at g d) ∈ g.
Proof.
  unfold positions_at. intros ([e ps] & -> & Hin)%list_elem_of_fmap. destruct (List.find _ g) as [[e' ps']|] eqn:Hf.
  - apply find_some in Hf as [Hin' He%Z.eqb_eq]. cbn in He. subst. by apply list_elem_of_In.
  - apply list_elem_of_In in Hin. pose proof (find_none _ _ Hf _ Hin) as Hn. cbn in Hn. by rewrite Z.eqb_refl in Hn.
Qed.

Lemma positions_at_docs g d x : x ∈ positions_at g d → d ∈ map fst g.
Proof.
  unfold positions_at. destruct (List.find _ g) as [[e ps]|] eqn:Hf; [|by intros ?%elem_of_nil].
  apply find_some in Hf as [Hin He%Z.eqb_eq]. cbn in He. subst. intros _. apply list_elem_of_In in Hin. exact (list_elem_of_fmap_2 fst _ _ Hin).
Qed.

(** ** The pass over the candidates *)

Section Pass.
Context `{ZstdOps}.

Definition cursors_ok (cur : list PostingCursor) (sels : list (list Posting)) (lb : Z) : Prop :=
  Forall2 (λ c sel, cursor_ok c sel lb) cur sels.

(** Reading the spans of the document all cursors stand on. *)
Lemma gather_ok d cur sels spans k acc :
  cursors_ok cur sels d → (length cur = k + length spans)%nat →
  (∀ i ps, spans !! i = Some ps → ∃ c sel, cur !! (k + i)%nat = Some c ∧ sels !! (k + i)%nat = Some sel ∧ stands_on c sel d ps) →
  ∃ cur', fold_result gather_span (map Some (seq k (length spans))) (cur, acc) = Ok (cur', acc ++ spans) ∧ cursors_ok cur' sels d.
Proof.
  revert cur k acc. induction spans as [|ps spans IH]; intros cur k acc Hc Hlen Hst; cbn [length seq map fold_result].
  { exists cur. by rewrite app_nil_r. }
  destruct (Hst 0%nat ps eq_refl) as (c & sel & Hck & Hsk & Hon). rewrite Nat.add_0_r in Hck, Hsk.
  pose proof (Forall2_lookup_lr _ _ _ _ _ _ Hc Hck Hsk) as Hok. cbn in Hok.
  destruct (positions_ok c sel d ps Hok Hon) as (c' & Hp & Hok').
  assert (gather_span (Some k) (cur, acc) = Ok (<[k := c']> cur, acc ++ [ps])) as -> by (unfold gather_span; by rewrite Hck, Hp).
  rewrite bind_Ok. destruct (IH (<[k := c']> cur) (S k) (acc ++ [ps])) as (cur' & Hgo & Hc').
  - apply Forall2_same_length_lookup_2; [rewrite length_insert; by apply (Forall2_length _ _ _ Hc)|]. intros i x y Hx Hy.
    destruct (decide (i = k)) as [->|Hne].
    + rewrite list_lookup_insert_eq in Hx by (by apply lookup_lt_Some in Hck). injection Hx as <-. rewrite Hsk in Hy. by injection Hy as <-.
    + rewrite list_lookup_insert_ne in Hx by done. exact (Forall2_lookup_lr _ _ _ _ _ _ Hc Hx Hy).
  - rewrite length_insert. cbn [length] in Hlen. lia.
  - intros i qs Hi. destruct (Hst (S i) qs Hi) as (c0 & sel0 & H0 & H1 & H2). exists c0, sel0. rewrite list_lookup_insert_ne by lia.
    by replace (S k + i)%nat with (k + S i)%nat by lia.
  - exists cur'. rewrite <- app_assoc in Hgo. by split.
Qed.

(** The spans of a document. *)
Definition spans_of (gs : list Posting) (d : Z) : list (list Z) := map (λ g, positions_at g d) gs.

(** The chunks kept of the terms, all of which have the document. *)
Definition kept_for (gs : list Posting) (sels : list (list Posting)) (d : Z) : Prop :=
  Forall2 (λ g sel, StronglySorted Z.lt (map fst g) ∧ StronglySorted Z.lt (posting_docs sel) ∧
    (∀ x, x ∈ concat sel → x ∈ g) ∧ d ∈ posting_docs sel) gs sels.

Lemma kept_in g sel d :
  StronglySorted Z.lt (map fst g) → (∀ x, x ∈ concat sel → x ∈ g) → d ∈ posting_docs sel → (d, positions_at g d) ∈ concat sel.
Proof.
  intros Hs Hsub ([e ps] & -> & Hx)%list_elem_of_fmap. cbn [fst]. by rewrite (positions_at_elem g e ps Hs (Hsub _ Hx)).
Qed.

(** One candidate: every cursor is sent to it and hands out its positions. *)
Lemma candidate_ok gs sels cur lb d :
  cursors_ok cur sels lb → lb ≤ d → kept_for gs sels d →
  ∃ cur', fold_result gather_span (map Some (seq 0 (length gs))) (seek_all d cur, []) = Ok (cur', spans_of gs d) ∧ cursors_ok cur' sels d.
Proof.
  intros Hc Hlb Hk. assert (length (spans_of gs d) = length gs) as Hls by apply length_map.
  pose proof (Forall2_length _ _ _ Hc) as Hl1. pose proof (Forall2_length _ _ _ Hk) as Hl2.
  assert (∀ i c sel g, cur !! i = Some c → sels !! i = Some sel → gs !! i = Some g →
    cursor_ok (seek d c) sel d ∧ stands_on (seek d c) sel d (positions_at g d)) as Hseek.
  { intros i c sel g Hci Hsi Hgi. pose proof (Forall2_lookup_lr _ _ _ _ _ _ Hc Hci Hsi) as Hok.
    destruct (Forall2_lookup_lr _ _ _ _ _ _ Hk Hgi Hsi) as (Hsg & Hss & Hsub & Hd).
    apply (seek_ok c sel lb d _ Hok Hlb Hss). by apply kept_in. }
  rewrite <- Hls. destruct (gather_ok d (seek_all d cur) sels (spans_of gs d) 0 []) as (cur' & -> & Hc').
  - unfold seek_all, cursors_ok. rewrite Forall2_fmap_l. apply Forall2_same_length_lookup_2; [done|]. intros i c sel Hci Hsi.
    destruct (lookup_lt_is_Some_2 gs i) as [g Hg]; [apply lookup_lt_Some in Hsi; lia|]. by apply (Hseek i c sel g).
  - unfold seek_all, spans_of. rewrite !length_map. lia.
  - intros i ps Hi. apply list_lookup_fmap_Some in Hi as (g & -> & Hg). apply lookup_lt_Some in Hg as Hlt.
    destruct (lookup_lt_is_Some_2 cur i) as [c Hci]; [lia|]. destruct (lookup_lt_is_Some_2 sels i) as [sel Hsi]; [lia|].
    exists (seek d c), sel. split; [by apply (list_lookup_fmap_Some_2 (seek d))|]. split; [done|]. by apply (Hseek i c sel g).
  - exists cur'. by split.
Qed.

Lemma ordered_cursors_loop n k ps l :
  map pl_order ps = seq k (length ps) → (k + length ps ≤ n)%nat → l = map Some (seq 0 k) ++ replicate (n - k) None →
  fold_left (λ ordered ip, <[pl_order ip.2 := Some ip.1]> ordered) (zip (seq k (length ps)) ps) l =
    map Some (seq 0 (k + length ps)) ++ replicate (n - k - length ps) None.
Proof.
  revert k l. induction ps as [|p ps IH]; intros k l Ho Hn ->; cbn [length seq map zip zip_with fold_left] in *.
  { by rewrite Nat.add_0_r, Nat.sub_0_r. }
  injection Ho as Hk Ho. cbn [fst snd]. rewrite Hk. rewrite (IH (S k)); [|done|lia|].
  { replace (k + S (length ps))%nat with (S k + length ps)%nat by lia. by replace (n - k - S (length ps))%nat with (n - S k - length ps)%nat by lia. }
  assert (n - k = S (n - S k))%nat as -> by lia. cbn [replicate].
  rewrite seq_S, map_app, <- app_assoc. cbn [map app]. rewrite Nat.add_0_l.
  rewrite insert_app_r_alt by (rewrite length_map, length_seq; lia). rewrite length_map, length_seq, Nat.sub_diag. done.
Qed.

Lemma ordered_cursors_ok ps n : map pl_order ps = seq 0 n → ordered_cursors ps = map Some (seq 0 n).
Proof.
  intros Ho. assert (length ps = n) as Hn by (by rewrite <- (length_map pl_order), Ho, length_seq). subst n.
  unfold ordered_cursors. rewrite (ordered_cursors_loop (length ps) 0 ps); [|done|lia|by rewrite Nat.sub_0_r].
  rewrite Nat.sub_0_r, Nat.sub_diag. cbn [replicate Nat.add]. apply app_nil_r.
Qed.

(** *** The two passes *)

Lemma filter_sublist {A} (f : A → bool) l : List.filter f l `sublist_of` l.
Proof. induction l as [|x l IH]; cbn [List.filter]; [done|]. destruct (f x); by constructor. Qed.

Definition has_phrase (n : Z) (gs : list Posting) (d : Z) : bool :=
  match spans_of gs d with [] => false | s0 :: _ => existsb (follows (seqZ 0 n) (spans_of gs d)) s0 end.

Lemma emit_loop_ok n gs sels cands cur lb docids :
  gs ≠ [] → cursors_ok cur sels lb → StronglySorted Z.lt cands → Forall (Z.le lb) cands → Forall (kept_for gs sels) cands →
  ∃ cur', fold_result (emit_candidate (map Some (seq 0 (length gs))) (seqZ 0 n)) cands (cur, docids) =
    Ok (cur', docids ++ List.filter (has_phrase n gs) cands).
Proof.
  intros Hne. revert cur lb docids. induction cands as [|d cands IH]; intros cur lb docids Hc Hs Hlb Hk; cbn [fold_result].
  { exists cur. by rewrite app_nil_r. }
  apply Forall_cons in Hlb as [Hd Hlb]. apply Forall_cons in Hk as [Hkd Hk]. inversion Hs as [|? ? Hs' Hlt]; subst.
  destruct (candidate_ok gs sels cur lb d Hc Hd Hkd) as (cur1 & Hg & Hc1).
  assert (emit_candidate (map Some (seq 0 (length gs))) (seqZ 0 n) d (cur, docids) =
    Ok (cur1, if has_phrase n gs d then docids ++ [d] else docids)) as ->.
  { unfold emit_candidate, has_phrase. rewrite Hg, bind_Ok. by destruct gs. }
  rewrite bind_Ok. destruct (IH cur1 d (if has_phrase n gs d then docids ++ [d] else docids) Hc1 Hs') as (cur' & ->); [|done|].
  - eapply Forall_impl; [exact Hlt|]. cbn. lia.
  - exists cur'. cbn [List.filter]. destruct (has_phrase n gs d); [by rewrite <- app_assoc|done].
Qed.

(** The entry a candidate adds to the expected positions of the tail. *)
Definition expected_of (n : Z) (gs : list Posting) (d : Z) : list ExpectedTailPositions :=
  match spans_of gs d with
  | [] => []
  | s0 :: _ => match tail_positions (seqZ 0 n) (spans_of gs d) s0 with [] => [] | ps => [mkExpected d ps] end
  end.

Lemma expect_loop_ok n gs sels cands cur lb out :
  gs ≠ [] → cursors_ok cur sels lb → StronglySorted Z.lt cands → Forall (Z.le lb) cands → Forall (kept_for gs sels) cands →
  ∃ cur', fold_result (expect_candidate (map Some (seq 0 (length gs))) (seqZ 0 n)) cands (cur, out) =
    Ok (cur', out ++ concat (map (expected_of n gs) cands)).
Proof.
  intros Hne. revert cur lb out. induction cands as [|d cands IH]; intros cur lb out Hc Hs Hlb Hk; cbn [fold_result].
  { exists cur. by rewrite app_nil_r. }
  apply Forall_cons in Hlb as [Hd Hlb]. apply Forall_cons in Hk as [Hkd Hk]. inversion Hs as [|? ? Hs' Hlt]; subst.
  destruct (candidate_ok gs sels cur lb d Hc Hd Hkd) as (cur1 & Hg & Hc1).
  assert (expect_candidate (map Some (seq 0 (length gs))) (seqZ 0 n) d (cur, out) = Ok (cur1, out ++ expected_of n gs d)) as ->.
  { unfold expect_candidate, expected_of. rewrite Hg, bind_Ok. destruct (spans_of gs d) as [|s0 ss] eqn:He; [by destruct gs|].
    destruct (tail_positions _ _ _); [by rewrite app_nil_r|done]. }
  rewrite bind_Ok. destruct (IH cur1 d (out ++ expected_of n gs d) Hc1 Hs') as (cur' & ->); [|done|].
  - eapply Forall_impl; [exact Hlt|]. cbn. lia.
  - exists cur'. cbn [map concat]. by rewrite <- app_assoc.
Qed.

(** *** From the conjunction *)

Definition term_posting (t : Term) : Posting := concat t.2.

(** The chunks kept of all terms. *)
Lemma kept_sels ts ps srcs out :
  conjoined true ts ps srcs out → out ≠ [] → Forall (λ t, StronglySorted Z.lt (posting_docs t.2)) ts →
  ∃ sels, (∀ lb, cursors_ok (map init srcs) sels lb) ∧ Forall (kept_for (map term_posting ts) sels) out.
Proof.
  intros [_ Hdocs Hlen _ Hkept] Hne Hs.
  assert (∃ sels, length sels = length ts ∧ ∀ i t src sel, ts !! i = Some t → srcs !! i = Some src → sels !! i = Some sel → keeps true t out sel src) as (sels & Hl & Hk).
  { specialize (Hkept Hne). clear -Hkept Hlen. revert srcs Hlen Hkept. induction ts as [|t ts IH]; intros srcs Hlen Hkept; [by exists []|].
    destruct srcs as [|src srcs]; [done|]. destruct (IH srcs) as (sels & Hl & Hk); [by injection Hlen|intros i t' Ht'; by apply (Hkept (S i))|].
    destruct (Hkept 0%nat t eq_refl) as (src' & sel & [= <-] & Hks). exists (sel :: sels). split; [cbn; by rewrite Hl|].
    intros [|i] t' src' sel'; cbn; [by intros [= <-] [= <-] [= <-]|apply Hk]. }
  exists sels. split.
  - intros lb. unfold cursors_ok. rewrite Forall2_fmap_l. apply Forall2_same_length_lookup_2; [by rewrite Hlen|]. intros i src sel Hsrc Hsel.
    destruct (lookup_lt_is_Some_2 ts i) as [t Ht]; [apply lookup_lt_Some in Hsel; lia|]. apply init_ok, (kp_chunks _ _ _ _ _ (Hk i t src sel Ht Hsrc Hsel)).
  - apply Forall_forall. intros d Hd. unfold kept_for. rewrite Forall2_fmap_l. apply Forall2_same_length_lookup_2; [done|]. intros i t sel Ht Hsel.
    destruct (lookup_lt_is_Some_2 srcs i) as [src Hsrc]; [apply lookup_lt_Some in Ht; lia|]. pose proof (Hk i t src sel Ht Hsrc Hsel) as Hks.
    split; [exact (Forall_lookup_1 _ _ _ _ Hs Ht)|]. split; [apply Hks|]. split; [apply Hks|].
    apply (kp_cands _ _ _ _ _ Hks); [done|]. apply Hdocs; [done|]. by apply list_elem_of_lookup_2 in Ht.
Qed.

Lemma EmitPhraseStreaming_ok n ts ps srcs out :
  ts ≠ [] → conjoined true ts ps srcs out → out ≠ [] → Forall (λ t, StronglySorted Z.lt (posting_docs t.2)) ts →
  EmitPhraseStreaming ps (seqZ 0 n) srcs out [] = Ok (List.filter (has_phrase n (map term_posting ts)) out).
Proof.
  intros Hts Hc Hne Hs. destruct (kept_sels ts ps srcs out Hc Hne Hs) as (sels & Hcur & Hk). unfold EmitPhraseStreaming.
  rewrite (ordered_cursors_ok ps (length ts)) by apply Hc. rewrite <- (length_map term_posting).
  destruct out as [|d0 out'] eqn:Ho; [done|]. rewrite <- Ho in *. pose proof (cj_sorted _ _ _ _ _ Hc) as Hso.
  destruct (emit_loop_ok n (map term_posting ts) sels out (map init srcs) d0 []) as (cur' & ->); [by destruct ts|apply Hcur|done| |done|].
  - rewrite Ho in *. inversion Hso as [|? ? ? Hlt]; subst. constructor; [done|]. eapply Forall_impl; [exact Hlt|]. cbn. lia.
  - by rewrite bind_Ok.
Qed.

Lemma collect_expected_ok n ts ps srcs out :
  ts ≠ [] → conjoined true ts ps srcs out → out ≠ [] → Forall (λ t, StronglySorted Z.lt (posting_docs t.2)) ts →
  collect_expected ps (seqZ 0 n) srcs out = Ok (concat (map (expected_of n (map term_posting ts)) out)).
Proof.
  intros Hts Hc Hne Hs. destruct (kept_sels ts ps srcs out Hc Hne Hs) as (sels & Hcur & Hk). unfold collect_expected.
  rewrite (ordered_cursors_ok ps (length ts)) by apply Hc. rewrite <- (length_map term_posting).
  destruct out as [|d0 out'] eqn:Ho; [done|]. rewrite <- Ho in *. pose proof (cj_sorted _ _ _ _ _ Hc) as Hso.
  destruct (expect_loop_ok n (map term_posting ts) sels out (map init srcs) d0 []) as (cur' & ->); [by destruct ts|apply Hcur|done| |done|].
  - rewrite Ho in *. inversion Hso as [|? ? ? Hlt]; subst. constructor; [done|]. eapply Forall_impl; [exact Hlt|]. cbn. lia.
  - by rewrite bind_Ok.
Qed.
End Pass.

(** ** Phrases over an index *)

Section Phrases.
Context `{ZstdOps} `{SortLaws} `{BsbfEnv} (tier : IndexTier) (hp : bool).
Context (file : bytes) (idx : LogicalIndexReader) (blocks : list IndexBlock) (postings : bytes → Posting).
Context (Hans : answers_postings true tier hp file idx blocks postings).
Context (Hpos : ∀ t d ps, t ∈ index_terms blocks → (d, ps) ∈ postings t → wf_span ps).

Abbreviation term_for := (term_for true tier hp file idx blocks postings).

Lemma terms_postings terms ts : Forall2 term_for terms ts → map term_posting ts = map postings terms.
Proof. induction 1 as [|term t terms ts (h & _ & _ & _ & _ & Hc) Hts IH]; [done|]. cbn [map]. rewrite IH. f_equal. exact Hc. Qed.

Lemma positions_wf t d : t ∈ index_terms blocks → wf_span (positions_at (postings t) d).
Proof.
  intros Ht. destruct (decide (d ∈ map fst (postings t))) as [Hd|Hn]; [apply (Hpos t d); [done|]; by apply positions_at_some|].
  assert (positions_at (postings t) d = []) as ->; [|by split; constructor].
  destruct (positions_at (postings t) d) as [|x l] eqn:He; [done|]. exfalso. apply Hn, (positions_at_docs _ _ x). rewrite He. by left.
Qed.

Lemma spans_wf terms d : Forall (λ t, t ∈ index_terms blocks) terms → Forall wf_span (spans_of (map postings terms) d).
Proof.
  intros Hin. unfold spans_of. rewrite map_map. apply Forall_fmap. eapply Forall_impl; [exact Hin|]. intros t Ht. by apply positions_wf.
Qed.

(** The terms follow one another in the document from position [p] on. *)
Definition phrase_from (terms : list bytes) (d p : Z) : Prop :=
  ∀ k t, terms !! k = Some t → t ∈ index_terms blocks ∧ p + Z.of_nat k ∈ positions_at (postings t) d.

Lemma phrase_at_spans terms d p :
  Forall (λ t, t ∈ index_terms blocks) terms → phrase_at (spans_of (map postings terms) d) p ↔ phrase_from terms d p.
Proof.
  intros Hin. unfold phrase_at, phrase_from, spans_of. rewrite map_map. split.
  - intros Hp k t Ht. split; [exact (Forall_lookup_1 _ _ _ _ Hin Ht)|]. apply Hp. exact (list_lookup_fmap_Some_2 _ _ _ _ Ht).
  - intros Hp k s Hs. apply list_lookup_fmap_Some in Hs as (t & -> & Ht). by apply Hp.
Qed.

Lemma has_phrase_spec n terms d :
  Forall (λ t, t ∈ index_terms blocks) terms → terms ≠ [] → zlen terms ≤ n ≤ UINT32_MAX →
  has_phrase n (map postings terms) d = true ↔ ∃ p, phrase_from terms d p.
Proof.
  intros Hin Hne Hn. setoid_rewrite <- (phrase_at_spans terms d _ Hin). unfold has_phrase.
  pose proof (spans_wf terms d Hin) as Hwf. assert (length (spans_of (map postings terms) d) = length terms) as Hl by (unfold spans_of; by rewrite !length_map).
  destruct (spans_of (map postings terms) d) as [|s0 spans]; [by destruct terms|]. apply exists_phrase; [done|]. rewrite Hl. done.
Qed.

(** A phrase only occurs in documents all terms hold. *)
Lemma phrase_docs terms d p t : phrase_from terms d p → t ∈ terms → d ∈ map fst (postings t).
Proof. intros Hp [k Hk]%list_elem_of_lookup. destruct (Hp k t Hk) as [_ Hx]. by eapply positions_at_docs. Qed.

(** From plans to the execution state. *)
Lemma execution_state_ok ts f ps :
  ts ≠ [] → Forall (term_ok true file idx) ts → Forall (λ t, StronglySorted Z.lt (posting_docs t.2)) ts →
  extends file (new_fetcher 0) f → plans_from true file idx f 0 ts ps →
  ∃ ps' srcs out, BuildPhraseExecutionState idx f ps = Ok (ps', srcs, out) ∧ conjoined true ts ps' srcs out ∧ length ps' = length ts.
Proof.
  intros Hne Hok Hs He Hps. unfold BuildPhraseExecutionState.
  destruct (conjunction_ok true file idx (ap_file _ _ _ _ _ _ _ Hans) (indexes_serves _ _ _ _ _ (ap_indexes _ _ _ _ _ _ _ Hans)) f ts ps Hne Hok Hs He Hps)
    as (f' & ps' & srcs & out & -> & Ho & Hb & Hc).
  rewrite bind_Ok, Ho, bind_Ok, Hb, bind_Ok. exists ps', srcs, out. split; [done|]. split; [done|].
  by rewrite <- (length_map pl_order), (cj_orders _ _ _ _ _ Hc), length_seq.
Qed.

Lemma execute_phrase_ok terms ts f ps :
  Forall2 term_for terms ts → Forall (λ t, t ∈ index_terms blocks) terms → terms ≠ [] → zlen terms < UINT32_MAX →
  extends file (new_fetcher 0) f → plans_from true file idx f 0 ts ps →
  ∃ out, ExecutePhrasePlans idx f ps = Ok out ∧ StronglySorted Z.lt out ∧ ∀ d, d ∈ out ↔ ∃ p, phrase_from terms d p.
Proof.
  intros Hts Hin Hne Hn He Hps. pose proof (Forall2_length _ _ _ Hts) as Hlen. assert (ts ≠ []) as Hne' by (destruct terms, ts; done).
  destruct (terms_for_ok true tier hp file idx blocks postings Hans terms ts Hts) as [Hok Hs].
  destruct (execution_state_ok ts f ps Hne' Hok Hs He Hps) as (ps' & srcs & out & Hst & Hc & Hl). unfold ExecutePhrasePlans. rewrite Hst, bind_Ok.
  assert (∀ d p, phrase_from terms d p → d ∈ out) as Hsub.
  { intros d p Hp. rewrite (cj_docs _ _ _ _ _ Hc), (terms_for_docs true tier hp file idx blocks postings terms ts d Hts).
    intros t Ht. by eapply phrase_docs. }
  destruct out as [|d0 out'] eqn:Ho.
  { exists []. split; [done|]. split; [constructor|]. intros d. split; [by intros ?%elem_of_nil|]. intros (p & Hp). by apply Hsub in Hp. }
  cbv beta iota. rewrite <- Ho in *. rewrite Hl, <- Hlen, build_position_offsets_ok by done. cbv beta iota.
  rewrite (EmitPhraseStreaming_ok (zlen terms) ts ps' srcs out Hne' Hc ltac:(by rewrite Ho) Hs), (terms_postings _ _ Hts).
  eexists. split; [done|]. split; [eapply sorted_sublist; [apply filter_sublist|apply Hc]|]. intros d. rewrite list_elem_of_In, filter_In, <- list_elem_of_In.
  rewrite has_phrase_spec by (done || lia). split; [by intros [_ ?]|]. intros (p & Hp). split; [by apply (Hsub d p)|by exists p].
Qed.
End Phrases.

(** a phrase query returns, ascending, exactly the documents in which the
    terms stand at consecutive positions, whichever windows and chunks they are
    read from; nothing when a term is not indexed. *)
Lemma phrase_query_answers `{ZstdOps} `{SortLaws} `{BsbfEnv} tier hp file idx blocks postings terms :
  answers_postings true tier hp file idx blocks postings →
  (∀ t d ps, t ∈ index_terms blocks → (d, ps) ∈ postings t → wf_span ps) →
  has_positions_ idx = true → terms ≠ [] → zlen terms < UINT32_MAX →
  ∃ out, phrase_query idx terms = Ok out ∧ StronglySorted Z.lt out ∧ ∀ d, d ∈ out ↔ ∃ p, phrase_from blocks postings terms d p.
Proof.
  intros Hans Hpos Hhp Hne Hn. unfold phrase_query. destruct terms as [|t0 terms'] eqn:Hterms; [done|]. rewrite <- Hterms in *.
  rewrite Hhp, bind_reject_false by done. unfold PlanTerms.
  destruct (plan_terms_loop_ok true tier hp file idx blocks postings Hans terms (new_fetcher 0) [])
    as [(Hall & ts & f & ps & Hts & -> & He & Hps)|[Hni ->]]; rewrite bind_Ok.
  - cbn [app]. by apply (execute_phrase_ok tier hp file idx blocks postings Hans Hpos terms ts f ps).
  - exists []. split; [done|]. split; [constructor|]. intros d. split; [by intros ?%elem_of_nil|]. intros (p & Hp). exfalso. apply Hni, Forall_forall.
    intros t [k Hk]%list_elem_of_lookup. by apply (Hp k t Hk).
Qed.
