(* ===== verification/PhrasePrefix.v ===== *)
(** * PhrasePrefix: phrases whose last term is a prefix.

    The theory of [phrase_prefix_query]: the exact terms are matched once and
    leave, per document, the positions at which a tail would continue them; each
    indexed term with the prefix is then merged against these. *)

From S2P Require Import Prelude Status ByteIO FormatConstants Zstd TermKey FrqPod FrqPrelude PrxPod DictEntry DictBlock PerIndexMeta.
From S2P Require Import FileIO Bsbf BatchRangeFetcher DocidSets LogicalIndexReader.
From S2P Require Import WindowedPosting DocidPostingReader Queries PhraseQuery Conjunction PhraseMatch.

#[local] Open Scope Z_scope.
(** *** The expected tails *)

Section Tails.
Context `{ZstdOps}.

Lemma tail_positions_spec n s0 spans x :
  Forall wf_span (s0 :: spans) → zlen (s0 :: spans) < n ≤ UINT32_MAX →
  x ∈ tail_positions (seqZ 0 n) (s0 :: spans) s0 ↔
    ∃ p, phrase_at (s0 :: spans) p ∧ x = p + zlen (s0 :: spans) ∧ x ≤ UINT32_MAX.
Proof.
  intros Hwf Hn. unfold tail_positions. rewrite list_elem_of_omap.
  assert (nth (length (s0 :: spans)) (seqZ 0 n) 0 = zlen (s0 :: spans)) as ->.
  { apply nth_lookup_Some. apply lookup_seqZ. cbn [length] in *. lia. }
  assert (∀ p, p ∈ s0 → is_u32 p) as Hu.
  { intros p Hp. apply Forall_cons in Hwf as [[_ Hu] _]. rewrite Forall_forall in Hu. by apply Hu. }
  split.
  - intros (p & Hp & Hx). destruct (follows _ _ _) eqn:Hf; [|done]. apply (follows_spec n) in Hf; [|done|lia|done].
    rewrite add_position_offset_spec in Hx by ((by apply Hu) || lia). case_bool_decide; [|done]. injection Hx as <-. by exists p.
  - intros (p & Hp & -> & Hx). pose proof (phrase_start _ _ _ Hp) as Hin. exists p. split; [done|].
    rewrite (proj2 (follows_spec n s0 spans p Hwf ltac:(lia) Hin) Hp). rewrite add_position_offset_spec by ((by apply Hu) || lia).
    by rewrite bool_decide_true.
Qed.

Lemma concat_map_expected n gs ds e :
  e ∈ concat (map (expected_of n gs) ds) ↔ ∃ d, d ∈ ds ∧ e ∈ expected_of n gs d.
Proof.
  induction ds as [|d ds IH]; cbn [map concat]; [split; [by intros ?%elem_of_nil|by intros (? & ?%elem_of_nil & _)]|].
  rewrite elem_of_app, IH. setoid_rewrite elem_of_cons. split; [intros [?|(d' & ? & ?)]; eauto|intros (d' & [->|?] & ?); eauto].
Qed.

Lemma expected_docid n gs d e : e ∈ expected_of n gs d → ex_docid e = d.
Proof.
  unfold expected_of. destruct (spans_of gs d); [by intros ?%elem_of_nil|]. destruct (tail_positions _ _ _); [by intros ?%elem_of_nil|].
  by intros ->%list_elem_of_singleton.
Qed.

Lemma expected_sorted n gs ds : StronglySorted Z.lt ds → StronglySorted Z.lt (map ex_docid (concat (map (expected_of n gs) ds))).
Proof.
  intros Hs. apply (sorted_sublist _ ds); [|done]. clear Hs. induction ds as [|d ds IH]; cbn [map concat]; [done|]. rewrite map_app.
  unfold expected_of at 1. destruct (spans_of gs d); [by apply sublist_cons|]. destruct (tail_positions _ _ _); [by apply sublist_cons|].
  by apply sublist_skip.
Qed.

(** *** The merge with the tail *)

(** The expected documents at which the tail stands. *)
Definition tail_hit (g : Posting) (cands : list Z) (e : ExpectedTailPositions) : bool :=
  bool_decide (ex_docid e ∈ cands) && contains_any_position (ex_positions e) (positions_at g (ex_docid e)).

Lemma filter_ext_elem {A} (f f' : A → bool) l : (∀ x, x ∈ l → f x = f' x) → List.filter f l = List.filter f' l.
Proof. intros Hf. apply filter_ext_in. intros x Hx. apply Hf. by apply list_elem_of_In. Qed.

Lemma tail_matches_ok g sel fuel expected cands c lb out :
  StronglySorted Z.lt (posting_docs sel) → cursor_ok c sel lb → Forall (Z.le lb) cands →
  StronglySorted Z.lt (map ex_docid expected) → StronglySorted Z.lt cands →
  Forall (λ d, (d, positions_at g d) ∈ concat sel) cands → (length expected + length cands ≤ fuel)%nat →
  tail_matches fuel expected cands c out = Ok (out ++ map ex_docid (List.filter (tail_hit g cands) expected)).
Proof.
  intros Hsel. revert expected cands c lb out. induction fuel as [|fuel IH]; intros expected cands c lb out Hc Hlb He Hs Hin Hf.
  { destruct expected; [by rewrite app_nil_r|cbn in Hf; lia]. }
  destruct expected as [|e expected]; [cbn; by rewrite app_nil_r|]. destruct cands as [|d cands].
  { cbn [tail_matches]. assert (List.filter (tail_hit g []) (e :: expected) = []) as ->; [|by rewrite app_nil_r].
    rewrite (filter_ext_elem _ (λ _, false)); [clear; induction (e :: expected) as [|x l IHl]; [done|exact IHl]|]. intros x _. unfold tail_hit. by rewrite bool_decide_false by (by intros ?%elem_of_nil). }
  cbn [map] in He. pose proof He as He0. pose proof Hs as Hs0. apply StronglySorted_inv in He0 as [He' Hel]. apply StronglySorted_inv in Hs0 as [Hs' Hsl].
  rewrite Forall_forall in Hel, Hsl. apply Forall_cons in Hlb as [Hld Hlb]. pose proof Hin as Hin0. apply Forall_cons in Hin0 as [Hd Hin']. cbn [tail_matches length] in *.
  destruct (Z.ltb_spec (ex_docid e) d) as [Hlt|Hge].
  { rewrite (IH expected (d :: cands) c lb); try done; [|by constructor|cbn [length]; lia]. cbn [List.filter].
    assert (tail_hit g (d :: cands) e = false) as ->; [|done]. unfold tail_hit. rewrite bool_decide_false; [done|].
    intros [Hx|Hx]%elem_of_cons; [lia|]. specialize (Hsl _ Hx). lia. }
  destruct (Z.ltb_spec d (ex_docid e)) as [Hlt|Hge'].
  { rewrite (IH (e :: expected) cands c lb); try done; [|cbn [length]; lia]. do 3 f_equal. apply filter_ext_elem. intros x Hx.
    unfold tail_hit. f_equal. apply bool_decide_ext. rewrite elem_of_cons. split; [by right|]. intros [Hxd|]; [|done]. exfalso.
    apply elem_of_cons in Hx as [->|Hx]; [lia|]. specialize (Hel _ (list_elem_of_fmap_2 ex_docid _ _ Hx)). lia. }
  assert (ex_docid e = d) as Hed by lia. rewrite Hed in *.
  destruct (seek_ok c sel lb d _ Hc Hld Hsel Hd) as [Hc1 Hon]. destruct (positions_ok _ sel d _ Hc1 Hon) as (c2 & -> & Hc2). rewrite bind_Ok.
  rewrite (IH expected cands c2 d); try done; [|apply Forall_forall; intros x Hx; specialize (Hsl x Hx); lia|lia].
  cbn [List.filter]. assert (tail_hit g (d :: cands) e = contains_any_position (ex_positions e) (positions_at g d)) as ->.
  { unfold tail_hit. rewrite Hed, bool_decide_true by (by left). done. }
  assert (List.filter (tail_hit g (d :: cands)) expected = List.filter (tail_hit g cands) expected) as ->.
  { apply filter_ext_elem. intros x Hx. unfold tail_hit. f_equal. apply bool_decide_ext. rewrite elem_of_cons. split; [|by right]. intros [Hxd|]; [|done].
    specialize (Hel _ (list_elem_of_fmap_2 ex_docid _ _ Hx)). lia. }
  destruct (contains_any_position _ _); [|done]. cbn [map]. by rewrite Hed, <- app_assoc.
Qed.

Lemma contains_any_spec wanted actual :
  StronglySorted Z.le actual → contains_any_position wanted actual = true ↔ ∃ x, x ∈ wanted ∧ x ∈ actual.
Proof.
  intros Hs. unfold contains_any_position. rewrite existsb_exists. setoid_rewrite <- list_elem_of_In. by setoid_rewrite binary_search_spec.
Qed.
End Tails.

(** ** Over an index *)

Section Prefix.
Context `{ZstdOps} `{SortLaws} `{BsbfEnv} (tier : IndexTier) (hp : bool).
Context (file : bytes) (idx : LogicalIndexReader) (blocks : list IndexBlock) (postings : bytes → Posting).
Context (Hans : answers_postings true tier hp file idx blocks postings).
Context (Hpos : ∀ t d ps, t ∈ index_terms blocks → (d, ps) ∈ postings t → wf_span ps).

Abbreviation term_for := (term_for true tier hp file idx blocks postings).
Abbreviation phrase_from := (phrase_from blocks postings).

Lemma resolve_exact_ok terms acc :
  (Forall (λ t, t ∈ index_terms blocks) terms ∧
     ∃ ts : list Term, Forall2 term_for terms ts ∧ resolve_exact idx terms acc = Ok (Some (acc ++ map fst ts))) ∨
  (¬ Forall (λ t, t ∈ index_terms blocks) terms ∧ resolve_exact idx terms acc = Ok None).
Proof.
  revert acc. induction terms as [|term terms IH]; intros acc; cbn [resolve_exact].
  { left. split; [constructor|]. exists []. cbn. rewrite app_nil_r. split; [by apply Forall2_nil|done]. }
  pose proof (resolve_ok true tier hp file idx blocks postings Hans term) as Hr. destruct (decide (term ∈ index_terms blocks)) as [Hin|Hni].
  2: { right. rewrite Hr, bind_Ok. split; [by intros [? _]%Forall_cons|done]. }
  destruct Hr as (t & -> & Ht). rewrite bind_Ok. destruct (IH (acc ++ [t.1])) as [(Hall & ts & Hts & ->)|[Hn ->]].
  - left. split; [by constructor|]. exists (t :: ts). rewrite <- app_assoc. split; [by constructor|done].
  - right. split; [by intros [_ ?]%Forall_cons|done].
Qed.

(** The plans of resolved terms and the state they lead to. *)
Lemma resolved_state_ok (ts : list Term) :
  ts ≠ [] → Forall (term_ok true file idx) ts → Forall (λ t, StronglySorted Z.lt (posting_docs t.2)) ts →
  ∃ f ps ps' srcs out, PlanResolvedTerms idx (map fst ts) (new_fetcher 0) true = Ok (f, ps) ∧
    BuildPhraseExecutionState idx f ps = Ok (ps', srcs, out) ∧ conjoined true ts ps' srcs out ∧ length ps' = length ts.
Proof.
  intros Hne Hok Hs. unfold PlanResolvedTerms.
  destruct (plan_terms_ok true file idx (ap_file _ _ _ _ _ _ _ Hans) ts (new_fetcher 0) [] Hok) as (f & ps & -> & He & Hps). cbn [app].
  destruct (execution_state_ok tier hp file idx blocks postings Hans ts f ps Hne Hok Hs He Hps) as (ps' & srcs & out & Hst & Hc & Hl).
  by exists f, ps, ps', srcs, out.
Qed.

(** What the exact terms leave for the tail. *)
Definition expects (terms : list bytes) (es : list ExpectedTailPositions) : Prop :=
  StronglySorted Z.lt (map ex_docid es) ∧
  ∀ d x, (∃ e, e ∈ es ∧ ex_docid e = d ∧ x ∈ ex_positions e) ↔
    ∃ p, phrase_from terms d p ∧ x = p + zlen terms ∧ x ≤ UINT32_MAX.

Lemma expected_spec terms out :
  Forall (λ t, t ∈ index_terms blocks) terms → terms ≠ [] → zlen terms + 1 < UINT32_MAX → StronglySorted Z.lt out →
  (∀ d p, phrase_from terms d p → d ∈ out) → expects terms (concat (map (expected_of (zlen terms + 1) (map postings terms)) out)).
Proof.
  intros Hin Hne Hn Hs Hsub. split; [by apply expected_sorted|]. intros d x. setoid_rewrite concat_map_expected.
  assert (∀ e, e ∈ expected_of (zlen terms + 1) (map postings terms) d → ∀ x, x ∈ ex_positions e →
    ∃ p, phrase_from terms d p ∧ x = p + zlen terms ∧ x ≤ UINT32_MAX) as Hfwd.
  { intros e He y Hy. unfold expected_of in He. pose proof (spans_wf blocks postings Hpos terms d Hin) as Hwf.
    assert (length (spans_of (map postings terms) d) = length terms) as Hl by (unfold spans_of; by rewrite !length_map).
    destruct (spans_of (map postings terms) d) as [|s0 spans] eqn:Hsp; [by destruct terms|].
    destruct (tail_positions _ _ _) as [|z l] eqn:Htp; [by apply elem_of_nil in He|]. apply list_elem_of_singleton in He as ->. cbn [ex_positions] in Hy.
    rewrite <- Htp in Hy. apply tail_positions_spec in Hy as (p & Hp & Hy & Hu); [|done|rewrite Hl; lia]. rewrite Hl in Hy.
    rewrite <- Hsp in Hp. exists p. split; [by apply (phrase_at_spans blocks postings terms d p Hin)|done]. }
  split.
  - intros (e & (d' & Hd' & He) & Hed & Hx). pose proof (expected_docid _ _ _ _ He) as Hed'. rewrite Hed in Hed'. subst d'. by apply (Hfwd e).
  - intros (p & Hp & Hx & Hu). pose proof (Hsub d p Hp) as Hd. pose proof (spans_wf blocks postings Hpos terms d Hin) as Hwf.
    assert (length (spans_of (map postings terms) d) = length terms) as Hl by (unfold spans_of; by rewrite !length_map).
    pose proof Hp as Hp'. apply (phrase_at_spans blocks postings terms d p Hin) in Hp'. clear Hfwd.
    destruct (spans_of (map postings terms) d) as [|s0 spans] eqn:Hsp; [by destruct terms|].
    assert (x ∈ tail_positions (seqZ 0 (zlen terms + 1)) (s0 :: spans) s0) as Hxt.
    { apply tail_positions_spec; [done|rewrite Hl; lia|]. exists p. by rewrite Hl. }
    destruct (tail_positions (seqZ 0 (zlen terms + 1)) (s0 :: spans) s0) as [|z l] eqn:Htp; [by apply elem_of_nil in Hxt|].
    exists (mkExpected d (z :: l)). split; [|by split]. exists d. split; [done|]. unfold expected_of. rewrite Hsp, Htp. by apply list_elem_of_singleton.
Qed.

Lemma collect_expected_tails_ok terms ts :
  Forall2 term_for terms ts → Forall (λ t, t ∈ index_terms blocks) terms → terms ≠ [] → zlen terms + 1 < UINT32_MAX →
  ∃ es, CollectExpectedTailPositions idx (map fst ts) = Ok es ∧ expects terms es.
Proof.
  intros Hts Hin Hne Hn. pose proof (Forall2_length _ _ _ Hts) as Hlen. assert (ts ≠ []) as Hne' by (destruct terms, ts; done).
  destruct (terms_for_ok true tier hp file idx blocks postings Hans terms ts Hts) as [Hok Hs].
  destruct (resolved_state_ok ts Hne' Hok Hs) as (f & ps & ps' & srcs & out & Hpl & Hst & Hc & Hl).
  unfold CollectExpectedTailPositions. rewrite Hpl, bind_Ok, Hst, bind_Ok.
  assert (∀ d p, phrase_from terms d p → d ∈ out) as Hsub.
  { intros d p Hp. rewrite (cj_docs _ _ _ _ _ Hc), (terms_for_docs true tier hp file idx blocks postings terms ts d Hts).
    intros t Ht. by eapply (phrase_docs blocks postings terms). }
  pose proof (expected_spec terms out Hin Hne Hn (cj_sorted _ _ _ _ _ Hc) Hsub) as Hex.
  destruct out as [|d0 out'] eqn:Ho; [by exists []|]. cbv beta iota. rewrite <- Ho in *.
  rewrite Hl, <- Hlen, u64_small by (unfold UINT32_MAX in *; ulia). rewrite build_position_offsets_ok by done. cbv beta iota.
  rewrite (collect_expected_ok (zlen terms + 1) ts ps' srcs out Hne' Hc ltac:(by rewrite Ho) Hs), (terms_postings tier hp file idx blocks postings _ _ Hts).
  by eexists.
Qed.

(** One tail term against the expected positions. *)
Lemma collect_tail_ok terms es h :
  h ∈ index_hits tier hp blocks → expects terms es → Forall (λ t, t ∈ index_terms blocks) terms →
  ∃ out, CollectTailMatchesAtExpectedPositions idx (resolved h) es = Ok out ∧ StronglySorted Z.lt out ∧
    ∀ d, d ∈ out ↔ ∃ p, phrase_from (terms ++ [hit_term h]) d p.
Proof.
  intros Hh [Hso Hes] Hin. assert (hit_term h ∈ index_terms blocks) as Hht by (apply (index_terms_hit tier hp); by exists h).
  assert (∀ d p, phrase_from (terms ++ [hit_term h]) d p ↔ phrase_from terms d p ∧ p + zlen terms ∈ positions_at (postings (hit_term h)) d) as Hsnoc.
  { intros d p. split.
    - intros Hp. split; [intros k t Hk; apply (Hp k t); by apply lookup_app_l_Some|]. apply (Hp (length terms) (hit_term h)). by apply list_lookup_middle.
    - intros [Hp Hx] k t [[_ Hk]|[-> <-]]%lookup_snoc_Some; [by apply Hp|done]. }
  assert (∀ d, (∃ e, e ∈ es ∧ ex_docid e = d ∧ ∃ x, x ∈ ex_positions e ∧ x ∈ positions_at (postings (hit_term h)) d) ↔
    ∃ p, phrase_from (terms ++ [hit_term h]) d p) as Hgoal.
  { intros d. setoid_rewrite Hsnoc. split.
    - intros (e & He & Hd & x & Hx & Hxt). destruct (proj1 (Hes d x)) as (p & Hp & Hxp & _); [by exists e|]. exists p. split; [done|]. by rewrite <- Hxp.
    - intros (p & Hp & Hx). assert (p + zlen terms ≤ UINT32_MAX) as Hu.
      { pose proof (positions_at_some _ _ (positions_at_docs _ _ _ Hx)) as Hpp. destruct (Hpos _ _ _ Hht Hpp) as [_ Hall]. rewrite Forall_forall in Hall.
        specialize (Hall _ Hx). unfold UINT32_MAX. ulia. }
      destruct (proj2 (Hes d (p + zlen terms))) as (e & He & Hd & Hxe); [by exists p|]. exists e. split; [done|]. split; [done|]. by exists (p + zlen terms). }
  destruct (ap_terms _ _ _ _ _ _ _ Hans h Hh) as (cs & Hcs & Hcc). pose proof (ap_sorted _ _ _ _ _ _ _ Hans _ Hht) as Hsp.
  set (ts := [(resolved h, cs)] : list Term). assert (posting_docs cs = map fst (postings (hit_term h))) as Hdocs by (unfold posting_docs; by rewrite Hcc).
  assert (Forall (λ t : Term, StronglySorted Z.lt (posting_docs t.2)) ts) as Hss by (constructor; [cbn [snd]; by rewrite Hdocs|constructor]).
  destruct (resolved_state_ok ts) as (f & ps & ps' & srcs & out & Hpl & Hst & Hc & _); [done|by constructor|done|].
  unfold CollectTailMatchesAtExpectedPositions. change ([resolved h]) with (map fst ts). destruct es as [|e0 es'] eqn:Hesd.
  { exists []. split; [done|]. split; [constructor|]. intros d. rewrite <- Hgoal. split; [by intros ?%elem_of_nil|by intros (e & ?%elem_of_nil & _)]. }
  cbv beta iota. rewrite <- Hesd in *. rewrite Hpl, bind_Ok, Hst, bind_Ok.
  assert (∀ d, d ∈ out ↔ d ∈ map fst (postings (hit_term h))) as Hout.
  { intros d. rewrite (cj_docs _ _ _ _ _ Hc). unfold ts. setoid_rewrite list_elem_of_singleton. rewrite <- Hdocs. split; [intros Hd; by apply (Hd _ eq_refl)|by intros Hd t ->]. }
  destruct out as [|d0 out'] eqn:Ho.
  { exists []. split; [done|]. split; [constructor|]. intros d. rewrite <- Hgoal. split; [by intros ?%elem_of_nil|].
    intros (e & _ & _ & x & _ & Hx%positions_at_docs). by apply Hout in Hx. }
  cbv beta iota. rewrite <- Ho in *. destruct (kept_sels ts ps' srcs out Hc ltac:(by rewrite Ho) Hss) as (sels & Hcur & Hk).
  pose proof (cj_length _ _ _ _ _ Hc) as Hls. destruct srcs as [|src [|]]; [done| |done].
  specialize (Hcur d0). apply Forall2_cons_inv_l in Hcur as (sel & sels' & Hcs0 & Hnil & ->). cbn [map] in Hnil. apply Forall2_nil_inv_l in Hnil as ->.
  assert (∀ d, d ∈ out → StronglySorted Z.lt (posting_docs sel) ∧ (d, positions_at (postings (hit_term h)) d) ∈ concat sel) as Hkd.
  { intros d Hd. rewrite Forall_forall in Hk. specialize (Hk d Hd). apply Forall2_cons in Hk as [(Hsg & Hsl & Hsub & Hdin) _].
    unfold term_posting in Hsg, Hsub. cbn [snd] in *. rewrite Hcc in *. split; [done|]. by apply kept_in. }
  pose proof (cj_sorted _ _ _ _ _ Hc) as Hcsort.
  rewrite Ho. cbv beta iota. rewrite <- Ho.
  assert (∀ d x, x ∈ positions_at (postings (hit_term h)) d → d ∈ out) as Hpo by (intros d x Hx; by apply Hout, (positions_at_docs _ _ x)).
  assert (StronglySorted Z.lt (posting_docs sel)) as Hssel by (apply (Hkd d0); rewrite Ho; by left).
  assert (cursor_ok (init src) sel d0 ∧ Forall (Z.le d0) out) as [Hcur0 Hlb].
  { split; [done|]. rewrite Ho in Hcsort |- *. apply StronglySorted_inv in Hcsort as [_ Hlt]. constructor; [done|]. eapply Forall_impl; [exact Hlt|]. cbn. lia. }
  rewrite (tail_matches_ok (postings (hit_term h)) sel (length es + length out) es out (init src) d0 []); [|done..| |done].
  2: { apply Forall_forall. intros d Hd. by apply Hkd. }
  cbn [app]. eexists. split; [done|]. split; [eapply sorted_sublist; [apply map_sublist, filter_sublist|done]|]. intros d. rewrite <- Hgoal. split.
  - intros (e & -> & He)%list_elem_of_fmap. apply list_elem_of_In, filter_In in He as [He [_ Hx]%andb_true_iff]. apply list_elem_of_In in He.
    exists e. split; [done|]. split; [done|]. apply contains_any_spec in Hx; [done|]. by apply (positions_wf blocks postings Hpos).
  - intros (e & He & <- & x & Hx & Hxt). apply (list_elem_of_fmap_2 ex_docid). apply list_elem_of_In, filter_In. split; [by apply list_elem_of_In|].
    unfold tail_hit. rewrite bool_decide_true by (by apply (Hpo _ x)). apply contains_any_spec; [by apply (positions_wf blocks postings Hpos)|by exists x].
Qed.

(** The union over the tails. *)
Lemma union_tails_ok terms es hits acc :
  (∀ h, h ∈ hits → h ∈ index_hits tier hp blocks) → expects terms es → Forall (λ t, t ∈ index_terms blocks) terms →
  StronglySorted Z.lt acc →
  ∃ out, fold_result (union_tail idx es) hits acc = Ok out ∧ StronglySorted Z.lt out ∧
    ∀ d, d ∈ out ↔ d ∈ acc ∨ ∃ h p, h ∈ hits ∧ phrase_from (terms ++ [hit_term h]) d p.
Proof.
  intros Hh Hes Hin. revert acc. induction hits as [|h hits IH]; intros acc Hs; cbn [fold_result].
  { exists acc. split; [done|]. split; [done|]. intros d. split; [by left|by intros [|(h & p & ?%elem_of_nil & _)]]. }
  destruct (collect_tail_ok terms es h (Hh h ltac:(by left)) Hes Hin) as (docs & Ht & Hsd & Hd).
  assert (union_tail idx es h acc = Ok (union_sorted_into acc docs)) as -> by (unfold union_tail; by rewrite Ht). rewrite bind_Ok.
  destruct (IH (λ h' H', Hh h' ltac:(by right)) (union_sorted_into acc docs)) as (out & -> & Hso & Hout); [by apply set_union_ascending|].
  exists out. split; [done|]. split; [done|]. intros d. rewrite Hout. unfold union_sorted_into. rewrite set_union_elem, Hd. setoid_rewrite elem_of_cons. naive_solver.
Qed.
End Prefix.

(** a phrase whose last term is a prefix returns, ascending, exactly the
    documents in which the exact terms and some indexed term with the prefix
    stand at consecutive positions. *)
Lemma phrase_prefix_query_answers `{ZstdOps} `{SortLaws} `{BsbfEnv} `{PriorityQueue} tier hp file idx blocks postings terms prefix :
  answers_postings true tier hp file idx blocks postings →
  (∀ t d ps, t ∈ index_terms blocks → (d, ps) ∈ postings t → wf_span ps) →
  has_positions_ idx = true → terms ≠ [] → zlen terms + 1 < UINT32_MAX →
  ∃ out, phrase_prefix_query idx (terms ++ [prefix]) = Ok out ∧ StronglySorted Z.lt out ∧
    ∀ d, d ∈ out ↔ ∃ t p, prefix `prefix_of` t ∧ phrase_from blocks postings (terms ++ [t]) d p.
Proof.
  intros Hans Hpos Hhp Hne Hn. unfold phrase_prefix_query. destruct terms as [|t0 terms'] eqn:Hterms; [done|]. rewrite <- Hterms in *.
  assert (terms ++ [prefix] = t0 :: (terms' ++ [prefix])) as Hcons by (by rewrite Hterms).
  destruct (terms' ++ [prefix]) as [|u l] eqn:Hl; [by destruct terms'|]. rewrite Hcons. cbv beta iota. rewrite <- Hcons. clear Hcons Hl u l.
  rewrite Hhp, bind_reject_false, removelast_last, List.last_last by done.
  assert (∀ h, h ∈ with_prefix prefix (index_hits tier hp blocks) ↔ h ∈ index_hits tier hp blocks ∧ prefix `prefix_of` hit_term h) as Hwith.
  { intros h. unfold with_prefix. rewrite !list_elem_of_In, filter_In. by rewrite has_prefix_of. }
  assert (∀ d t p, phrase_from blocks postings (terms ++ [t]) d p → Forall (λ t, t ∈ index_terms blocks) terms ∧ t ∈ index_terms blocks ∧
    phrase_from blocks postings terms d p) as Hinv.
  { intros d t p Hp. split; [|split].
    - apply Forall_forall. intros x [k Hk]%list_elem_of_lookup. apply (Hp k x). by apply lookup_app_l_Some.
    - apply (Hp (length terms) t). by apply list_lookup_middle.
    - intros k x Hk. apply (Hp k x). by apply lookup_app_l_Some. }
  destruct (resolve_exact_ok tier hp file idx blocks postings Hans terms []) as [(Hall & ts & Hts & ->)|[Hni ->]]; rewrite bind_Ok.
  2: { exists []. split; [done|]. split; [constructor|]. intros d. split; [by intros ?%elem_of_nil|]. by intros (t & p & _ & (Hf & _)%Hinv). }
  rewrite (prefix_terms_indexes tier hp file idx blocks prefix (ap_indexes _ _ _ _ _ _ _ Hans)), bind_Ok.
  destruct (collect_expected_tails_ok tier hp file idx blocks postings Hans Hpos terms ts Hts Hall Hne Hn) as (es & Hce & Hes).
  destruct (union_tails_ok tier hp file idx blocks postings Hans Hpos terms es (with_prefix prefix (index_hits tier hp blocks)) [])
    as (out & Hu & Hso & Hout); [by intros h [? _]%Hwith|done|done|constructor|].
  assert (∀ d, d ∈ out ↔ ∃ t p, prefix `prefix_of` t ∧ phrase_from blocks postings (terms ++ [t]) d p) as Hfin.
  { intros d. rewrite Hout. split.
    - intros [?%elem_of_nil|(h & p & [Hh Hp]%Hwith & Hf)]; [done|]. by exists (hit_term h), p.
    - intros (t & p & Hp & Hf). right. pose proof (Hinv _ _ _ Hf) as (_ & (h & Hh & <-)%(index_terms_hit tier hp) & _). exists h, p. split; [by apply Hwith|done]. }
  destruct (with_prefix prefix (index_hits tier hp blocks)) as [|h0 hits] eqn:Hw.
  { cbn [fold_result] in Hu. injection Hu as <-. by exists []. }
  rewrite <- Hw in *. cbn [app]. rewrite Hce, bind_Ok. destruct es as [|e es'] eqn:He.
  - exists []. split; [done|]. split; [constructor|]. intros d. split; [by intros ?%elem_of_nil|]. intros (t & p & _ & Hf).
    pose proof (Hinv _ _ _ Hf) as (_ & Ht & Hp). destruct Hes as [_ Hes]. destruct (proj2 (Hes d (p + zlen terms))) as (e & ?%elem_of_nil & _); [|done].
    exists p. split; [done|]. split; [done|]. destruct (Hf (length terms) t ltac:(by apply list_lookup_middle)) as [_ Hx].
    destruct (positions_wf blocks postings Hpos t d Ht) as [_ Hu32]. rewrite Forall_forall in Hu32. specialize (Hu32 _ Hx). unfold UINT32_MAX. ulia.
  - exists out. by split.
Qed.
