(* ===== verification/TermPostings.v ===== *)
(** * TermPostings: the postings of one term on their way to the writer.

    [struct TermPostings] of [writer/spimi_term_buffer.h]. A document owns the
    next [freqs[i]] entries of the flat positions. [tp_pos_pump] is the
    [std::function] that yields positions in order: here the positions it has
    not yielded yet. *)

From S2P Require Import Prelude Status ByteIO.

#[local] Open Scope Z_scope.

Record TermPostings := mkTermPostings {
  tp_term : bytes;
  tp_docids : list Z;
  tp_freqs : list Z;
  tp_positions_flat : list Z;
  tp_pos_pump : option (list Z);
  tp_pos_total : Z
}.

(** [pos_pump(dst, n)]; a pump is never asked for more than it holds. *)
Definition pull (pump : list Z) (n : Z) : result (list Z * list Z) :=
  dst ← subslice pump 0 n;
  Ok (dst, drop (Z.to_nat n) pump).

(** [for (i = 0; i < doc_index; ++i) off += freqs[i]] *)
Definition pos_offset (tp : TermPostings) (doc_index : nat) : result Z :=
  if (doc_index <=? length (tp_freqs tp))%nat
  then Ok (fold_left (λ off f, u64 (off + f)) (take doc_index (tp_freqs tp)) 0)
  else Undef.

Definition doc_positions (tp : TermPostings) (doc_index : nat) : result (list Z) :=
  off ← pos_offset tp doc_index;
  match tp_freqs tp !! doc_index with
  | None => Undef
  | Some f => subslice (tp_positions_flat tp) off f
  end.

Fixpoint positions_from (flat freqs : list Z) (off : Z) : result (list (list Z)) :=
  match freqs with
  | [] => Ok []
  | f :: freqs =>
      d ← subslice flat off f;
      ds ← positions_from flat freqs (u64 (off + f));
      Ok (d :: ds)
  end.
Definition positions_per_doc (tp : TermPostings) : result (list (list Z)) :=
  positions_from (tp_positions_flat tp) (tp_freqs tp) 0.

Definition set_positions_per_doc (per_doc : list (list Z)) (tp : TermPostings) : TermPostings :=
  mkTermPostings (tp_term tp) (tp_docids tp) (tp_freqs tp) (concat per_doc) (tp_pos_pump tp) (tp_pos_total tp).

(** ** Postings a producer hands over *)

Abbreviation counts pd := (map (λ doc : list Z, zlen doc) pd).

(** The positions, in document order, that the writer will see. *)
Definition positions_of (tp : TermPostings) : list Z := default (tp_positions_flat tp) (tp_pos_pump tp).

(** [pd] lists the positions of each document. *)
Definition positions_by_doc (tp : TermPostings) (pd : list (list Z)) : Prop :=
  tp_freqs tp = counts pd ∧ positions_of tp = concat pd ∧
  match tp_pos_pump tp with Some q => tp_pos_total tp = zlen q | None => True end.

Lemma positions_per_doc_concat tp pd :
  tp_freqs tp = counts pd → tp_positions_flat tp = concat pd → zlen (concat pd) < 2 ^ 64 →
  positions_per_doc tp = Ok pd.
Proof.
  intros Hf Hp Hn. unfold positions_per_doc. rewrite Hf, Hp.
  assert (∀ pre pd, zlen (pre ++ concat pd) < 2 ^ 64 →
    positions_from (pre ++ concat pd) (counts pd) (zlen pre) = Ok pd) as Hgo; [|exact (Hgo [] pd Hn)].
  clear. intros pre pd. revert pre. induction pd as [|d pd IH]; intros pre Hn; [done|].
  cbn [map concat positions_from] in *. rewrite subslice_mid, bind_Ok. rewrite !length_app in Hn.
  specialize (IH (pre ++ d)). rewrite <- app_assoc, !length_app in IH.
  rewrite u64_small by ulia. replace (zlen pre + zlen d) with (Z.of_nat (length pre + length d)) by lia.
  rewrite IH by lia. done.
Qed.
