(* ===== verification/SpillRunCodec.v ===== *)
(** * SpillRunCodec: the run files of the accumulator.

    [writer/spill_run_codec.h] and the first two thirds of
    [writer/spill_run_codec.cpp] (the merge is RunMerge). A run is a sequence of
    records; [RunWriter] stages them in a buffer, [RunReader] decodes them
    through a sliding window over the file, leaving the positions of a record
    unread until they are asked for. The raw blocks are copies of host memory:
    the host is little-endian. The system calls are the class [Posix].

    [feeds] relates a window to the bytes it will still deliver: every reading
    lemma is stated against it, so that refills, partial buffers, short reads
    and interruptions do not show in the statements. *)

From S2P Require Import Prelude Status Varint ByteIO FileIO LocalFile TermPostings.

#[local] Open Scope Z_scope.

Definition kWriteFlushBytes : Z := 1 ≪ 22.
Definition kReadChunkBytes : Z := 1 ≪ 16.

(** ** The writer *)

Definition AppendVarint (v : Z) (buf : bytes) : bytes := buf ++ encode_varint64 v.

Definition AppendRawU32 (src : list Z) (buf : bytes) : bytes :=
  match src with [] => buf | _ => buf ++ words_bytes src end.

Section Writer.
Context {D : Type} `{Posix D}.

Record RunWriter := mkRunWriter { rw_open_ : bool; rw_file_ : D; rw_buf_ : bytes }.

Definition new_run_writer : RunWriter := mkRunWriter false sys_none [].

Definition run_open (path : string) (w : RunWriter) : result RunWriter :=
  d ← sys_result ("run open(" ++ path ++ ")") (sys_create path (rw_file_ w));
  Ok (mkRunWriter true d []).

Definition run_flush (w : RunWriter) : result RunWriter :=
  match rw_buf_ w with
  | [] => Ok w
  | buf => d ← write_all "run write failed: " buf (rw_file_ w); Ok (mkRunWriter (rw_open_ w) d [])
  end.

Definition write_term (term_id : Z) (tp : TermPostings) (w : RunWriter) : result RunWriter :=
  let buf := AppendVarint term_id (rw_buf_ w) in
  let buf := AppendVarint (zlen (tp_docids tp)) buf in
  let buf := AppendRawU32 (tp_docids tp) buf in
  let buf := AppendRawU32 (tp_freqs tp) buf in
  let n_pos := zlen (tp_positions_flat tp) in
  let buf := AppendVarint n_pos buf in
  let buf := AppendRawU32 (tp_positions_flat tp) buf in
  let w := mkRunWriter (rw_open_ w) (rw_file_ w) buf in
  if kWriteFlushBytes <=? zlen buf then run_flush w else Ok w.

Definition run_close (w : RunWriter) : result RunWriter :=
  if negb (rw_open_ w) then Ok w
  else
    w ← run_flush w;
    d ← sys_result "run close" (sys_close (rw_file_ w));
    Ok (mkRunWriter false d (rw_buf_ w)).
End Writer.
#[global] Arguments RunWriter : clear implicits.

(** ** The reader *)

Section Reader.
Context {D : Type} `{Posix D}.

(** The descriptor and the decode window. *)
Record RunWindow := mkRunWindow {
  fd_ : fd;
  file_size_ : Z;
  window_ : bytes;
  pos_ : Z;
  eof_ : bool
}.

Record RunReader := mkRunReader {
  rr_window : RunWindow;
  has_positions_ : bool;
  exhausted_ : bool;
  current_id_ : Z;
  pos_count_ : Z;
  pos_remaining_ : Z;
  current_ : TermPostings
}.

Definition available (w : RunWindow) : Z := zlen (window_ w) - pos_ w.

(** [do { n = ::read(...) } while (n < 0 && errno == EINTR)] *)
Fixpoint read_loop (fuel : nat) (h : fd) : result (bytes * fd) :=
  match fuel with
  | O => Undef
  | S fuel =>
      match sys_read kReadChunkBytes h with
      | (Interrupted, h) => read_loop fuel h
      | (Failed msg, _) => Err (IoError ("run read: " ++ msg))
      | (Done bs, h) => Ok (bs, h)
      end
  end.

Definition fill (w : RunWindow) : result RunWindow :=
  let window := if 0 <? pos_ w then drop (Z.to_nat (pos_ w)) (window_ w) else window_ w in
  let pos := if 0 <? pos_ w then 0 else pos_ w in
  if eof_ w then Ok (mkRunWindow (fd_ w) (file_size_ w) window pos (eof_ w))
  else
    '(bs, h) ← read_loop (S (read_stalls (fd_ w))) (fd_ w);
    Ok (mkRunWindow h (file_size_ w) (window ++ bs) pos (zlen bs =? 0)).

(** [available() == had && eof_], after a [fill]. *)
Definition starved (had : Z) (w : RunWindow) : bool := (available w =? had) && eof_ w.

Fixpoint ensure_loop (fuel : nat) (n : Z) (w : RunWindow) : result RunWindow :=
  if n <=? available w then Ok w
  else
    match fuel with
    | O => Undef
    | S fuel =>
        let had := available w in
        w ← fill w;
        _ ← reject_if (starved had w) (Corruption "run truncated: needed more bytes than available");
        ensure_loop fuel n w
    end.
Definition ensure (n : Z) (w : RunWindow) : result RunWindow := ensure_loop (S (Z.to_nat (n - available w))) n w.

(** A window can be refilled at most once per byte of the file, and once more to
    see its end. *)
Definition refills (w : RunWindow) : nat := S (S (Z.to_nat (file_size_ w))).

Fixpoint read_varint_loop (fuel : nat) (w : RunWindow) : result (Z * RunWindow) :=
  match fuel with
  | O => Undef
  | S fuel =>
      match decode_varint64 (drop (Z.to_nat (pos_ w)) (window_ w)) with
      | Undef => Undef
      | Ok (v, n) => Ok (v, mkRunWindow (fd_ w) (file_size_ w) (window_ w) (pos_ w + Z.of_nat n) (eof_ w))
      | Err _ =>
          _ ← reject_if (eof_ w) (Corruption "run truncated: incomplete varint");
          let had := available w in
          w ← fill w;
          _ ← reject_if (starved had w) (Corruption "run truncated: incomplete varint at eof");
          read_varint_loop fuel w
      end
  end.
Definition read_varint (w : RunWindow) : result (Z * RunWindow) := read_varint_loop (refills w) w.

(** [while (need > 0)]; [dst] is what has been copied. *)
Fixpoint pull_loop (fuel : nat) (need : Z) (dst : bytes) (w : RunWindow) : result (bytes * RunWindow) :=
  if need <=? 0 then Ok (dst, w)
  else
    match fuel with
    | O => Undef
    | S fuel =>
        w ← (if available w =? 0 then
               let had := available w in
               w ← fill w;
               _ ← reject_if (starved had w) (Corruption "run truncated: needed more raw bytes than available");
               Ok w
             else Ok w);
        let take_ := Z.min need (available w) in
        copied ← subslice (window_ w) (pos_ w) take_;
        pull_loop fuel (need - take_) (dst ++ copied)
          (mkRunWindow (fd_ w) (file_size_ w) (window_ w) (pos_ w + take_) (eof_ w))
    end.

Definition pull_raw_u32 (count : Z) (w : RunWindow) : result (list Z * RunWindow) :=
  if count =? 0 then Ok ([], w)
  else
    let need := u64 (count * 4) in
    '(bs, w) ← pull_loop (Z.to_nat need) need [] w;
    Ok (words_of bs, w).

Definition read_raw_u32 (count : Z) (w : RunWindow) : result (list Z * RunWindow) :=
  _ ← reject_if (file_size_ w / 4 <? count) (Corruption "run: raw u32 count exceeds file size");
  if count =? 0 then Ok ([], w) else pull_raw_u32 count w.

(** *** Records *)

Definition with_positions (flat : list Z) (tp : TermPostings) : TermPostings :=
  mkTermPostings (tp_term tp) (tp_docids tp) (tp_freqs tp) flat (tp_pos_pump tp) (tp_pos_total tp).

Definition materialize_positions (r : RunReader) : result RunReader :=
  if pos_remaining_ r =? 0 then
    Ok (mkRunReader (rr_window r) (has_positions_ r) (exhausted_ r) (current_id_ r) (pos_count_ r) (pos_remaining_ r)
          (with_positions [] (current_ r)))
  else
    '(flat, w) ← read_raw_u32 (pos_remaining_ r) (rr_window r);
    Ok (mkRunReader w (has_positions_ r) (exhausted_ r) (current_id_ r) (pos_count_ r) 0
          (with_positions (if has_positions_ r then flat else []) (current_ r))).

Definition stream_positions (n : Z) (r : RunReader) : result (list Z * RunReader) :=
  if n =? 0 then Ok ([], r)
  else
    _ ← reject_if (pos_remaining_ r <? n) (Corruption "run: stream_positions past block end");
    '(dst, w) ← pull_raw_u32 n (rr_window r);
    Ok (dst, mkRunReader w (has_positions_ r) (exhausted_ r) (current_id_ r) (pos_count_ r) (pos_remaining_ r - n) (current_ r)).

Definition skip_remaining_positions (r : RunReader) : result RunReader :=
  if pos_remaining_ r =? 0 then Ok r
  else
    '(_, w) ← read_raw_u32 (pos_remaining_ r) (rr_window r);
    Ok (mkRunReader w (has_positions_ r) (exhausted_ r) (current_id_ r) (pos_count_ r) 0 (current_ r)).

Definition read_record (r : RunReader) (w : RunWindow) : result RunReader :=
  '(term_id, w) ← read_varint w;
  _ ← reject_if (UINT32_MAX <? term_id) (Corruption "run term_id exceeds uint32");
  '(n_docs, w) ← read_varint w;
  '(docids, w) ← read_raw_u32 n_docs w;
  '(freqs, w) ← read_raw_u32 n_docs w;
  '(n_pos, w) ← read_varint w;
  Ok (mkRunReader w (has_positions_ r) (exhausted_ r) (u32 term_id) n_pos n_pos
        (mkTermPostings [] docids freqs [] (tp_pos_pump (current_ r)) (tp_pos_total (current_ r)))).

Definition advance (r : RunReader) : result RunReader :=
  r ← skip_remaining_positions r;
  if available (rr_window r) =? 0 then
    w ← fill (rr_window r);
    if (available w =? 0) && eof_ w then
      Ok (mkRunReader w (has_positions_ r) true (current_id_ r) (pos_count_ r) (pos_remaining_ r) (current_ r))
    else read_record r w
  else read_record r (rr_window r).

Definition reader_open (d : D) (path : string) (has_positions : bool) : result RunReader :=
  h ← sys_result ("run reopen(" ++ path ++ ")") (sys_open d);
  size ← sys_result "run fstat" (sys_fstat h);
  advance (mkRunReader (mkRunWindow h size [] 0 false) has_positions false 0 0 0 (mkTermPostings [] [] [] [] None 0)).
End Reader.

(** ** Writing *)

Definition record_bytes (term_id : Z) (tp : TermPostings) : bytes :=
  encode_varint64 term_id ++ encode_varint64 (zlen (tp_docids tp)) ++ words_bytes (tp_docids tp) ++
  words_bytes (tp_freqs tp) ++ encode_varint64 (zlen (tp_positions_flat tp)) ++ words_bytes (tp_positions_flat tp).

Lemma AppendRawU32_app src buf : AppendRawU32 src buf = buf ++ words_bytes src.
Proof. destruct src; [by rewrite app_nil_r|done]. Qed.

Section Writing.
Context {D : Type} `{PosixLaws D}.

Definition run_contents (w : RunWriter D) : bytes := file_bytes (rw_file_ w) ++ rw_buf_ w.
Definition run_writable (w : RunWriter D) : Prop := rw_open_ w = true ∧ writing (rw_file_ w).

Lemma run_open_spec path :
  ∃ w, run_open path new_run_writer = Ok w ∧ run_writable w ∧ run_contents w = [].
Proof.
  unfold run_open. destruct (create_ok path sys_none) as (d & Hd & Hw & Hb). cbn [rw_file_ new_run_writer]. rewrite Hd. cbn [sys_result].
  rewrite bind_Ok. eexists. split; [done|]. split; [done|]. unfold run_contents. cbn. by rewrite Hb.
Qed.

Lemma run_flush_spec w :
  run_writable w →
  ∃ w', run_flush w = Ok w' ∧ run_writable w' ∧ run_contents w' = run_contents w ∧ rw_buf_ w' = [].
Proof.
  intros [Ho Hw]. unfold run_flush, run_contents. destruct (rw_buf_ w) as [|x buf] eqn:Hb; [exists w; by rewrite Hb|].
  destruct (write_all_spec "run write failed: " (x :: buf) _ Hw) as (d & -> & Hd & Hc). rewrite bind_Ok.
  eexists. split; [done|]. cbn [rw_file_ rw_buf_ rw_open_]. by rewrite Hc, app_nil_r.
Qed.

Lemma write_term_spec id tp w :
  run_writable w →
  ∃ w', write_term id tp w = Ok w' ∧ run_writable w' ∧ run_contents w' = run_contents w ++ record_bytes id tp.
Proof.
  intros Hw. unfold write_term, AppendVarint. cbv zeta. rewrite !AppendRawU32_app. set (w1 := mkRunWriter _ _ _).
  assert (run_writable w1) as Hw1 by exact Hw.
  assert (run_contents w1 = run_contents w ++ record_bytes id tp) as Hc1.
  { unfold run_contents, record_bytes. cbn [rw_file_ rw_buf_ w1]. by rewrite <- !app_assoc. }
  destruct (kWriteFlushBytes <=? _); [|by exists w1].
  destruct (run_flush_spec w1 Hw1) as (w2 & -> & Hw2 & Hc2 & _). exists w2. by rewrite Hc2.
Qed.

Lemma run_close_spec w :
  run_writable w →
  ∃ w', run_close w = Ok w' ∧ at_rest (rw_file_ w') ∧ file_bytes (rw_file_ w') = run_contents w.
Proof.
  intros Hw. unfold run_close. rewrite (proj1 Hw). cbn [negb]. destruct (run_flush_spec w Hw) as (w1 & -> & [Ho1 Hw1] & Hc1 & Hb1).
  rewrite bind_Ok. destruct (close_ok _ Hw1) as (d & -> & Hd & Hc). cbn [sys_result]. rewrite bind_Ok. eexists. split; [done|].
  split; [done|]. cbn [rw_file_]. rewrite Hc, <- Hc1. unfold run_contents. by rewrite Hb1, app_nil_r.
Qed.
End Writing.

(** ** Reading *)

Lemma decode_varint64_loop_app p q res shift n r :
  decode_varint64_loop p res shift n = Ok r → decode_varint64_loop (p ++ q) res shift n = Ok r.
Proof.
  revert res shift n. induction p as [|b p IH]; intros res shift n; cbn [app decode_varint64_loop]; [done|].
  destruct (_ =? 0); [done|]. destruct (64 <=? _); [done|]. apply IH.
Qed.

Lemma decode_varint64_loop_consumed p res shift n v m :
  decode_varint64_loop p res shift n = Ok (v, m) → (n < m ≤ n + length p)%nat.
Proof.
  revert res shift n. induction p as [|b p IH]; intros res shift n; cbn [decode_varint64_loop length]; [done|].
  destruct (_ =? 0); [intros [= _ <-]; lia|]. destruct (64 <=? _); [done|]. intros Hd. apply IH in Hd. lia.
Qed.

(** A part of an encoding is not taken for a whole one. *)
Lemma decode_varint64_prefix p q v rest :
  is_u64 v → p ++ q = encode_varint64 v ++ rest → (length p < length (encode_varint64 v))%nat →
  ∃ st, decode_varint64 p = Err st.
Proof.
  intros Hv Heq Hlt. destruct (decode_varint64 p) as [[x m]|st|] eqn:Hd; [|by eexists|].
  - pose proof (decode_varint64_loop_consumed _ _ _ _ _ _ Hd) as Hm. unfold decode_varint64 in Hd.
    apply (decode_varint64_loop_app _ q) in Hd. rewrite Heq in Hd.
    pose proof (decode_encode_varint64 v rest Hv) as Hd'. unfold decode_varint64 in Hd'. rewrite Hd' in Hd. injection Hd as _ <-. lia.
  - pose proof (decode_varint64_defined p) as Hdef. by rewrite Hd in Hdef.
Qed.

Section Reading.
Context {D : Type} `{PosixLaws D}.

(** The bytes a window will still deliver: those buffered, then those of the file. *)
Definition feeds (w : RunWindow) (rest : bytes) : Prop :=
  ∃ file p, reading file p (fd_ w) ∧ file_size_ w = zlen file ∧ zlen file < 2 ^ 63 ∧ 0 ≤ p ≤ zlen file ∧
    0 ≤ pos_ w ≤ zlen (window_ w) ∧ drop (Z.to_nat (pos_ w)) (window_ w) ++ drop (Z.to_nat p) file = rest ∧
    zlen rest ≤ zlen file ∧ (eof_ w = true → p = zlen file).

Lemma feeds_available w rest : feeds w rest → 0 ≤ available w ≤ zlen rest ∧ zlen rest ≤ file_size_ w < 2 ^ 63.
Proof.
  intros (file & p & _ & Hs & Hf & Hp & Hpos & Hr & Hl & _). unfold available. rewrite <- Hr in *.
  rewrite length_app, length_drop in *. lia.
Qed.

Lemma feeds_eof w rest : feeds w rest → eof_ w = true → zlen rest = available w.
Proof.
  intros (file & p & _ & _ & _ & Hp & Hpos & Hr & _ & He) Heof. unfold available. rewrite <- Hr, length_app, !length_drop.
  specialize (He Heof). lia.
Qed.

Lemma feeds_window w rest :
  feeds w rest → ∃ q, drop (Z.to_nat (pos_ w)) (window_ w) ++ q = rest ∧ zlen (drop (Z.to_nat (pos_ w)) (window_ w)) = available w.
Proof.
  intros (file & p & _ & _ & _ & _ & Hpos & Hr & _). eexists. split; [exact Hr|]. unfold available. rewrite length_drop. lia.
Qed.

(** Consuming buffered bytes. *)
Lemma feeds_consume w rest n :
  feeds w rest → 0 ≤ n ≤ available w →
  subslice (window_ w) (pos_ w) n = Ok (take (Z.to_nat n) rest) ∧
  feeds (mkRunWindow (fd_ w) (file_size_ w) (window_ w) (pos_ w + n) (eof_ w)) (drop (Z.to_nat n) rest).
Proof.
  intros Hf Hn. pose proof (feeds_available _ _ Hf) as Hav. destruct Hf as (file & p & Hrd & Hs & Hsz & Hp & Hpos & Hr & Hl & He).
  unfold available in *. split.
  - rewrite subslice_ok by lia. f_equal. rewrite <- Hr, take_app_le by (rewrite length_drop; lia). done.
  - exists file, p. cbn [fd_ file_size_ window_ pos_ eof_]. split_and!; try done; try lia.
    + rewrite <- Hr, drop_app_le by (rewrite length_drop; lia). rewrite drop_drop. f_equal. f_equal. lia.
    + rewrite length_drop. lia.
Qed.

Lemma read_loop_spec file p fuel h :
  reading file p h → (read_stalls h < fuel)%nat →
  ∃ bs h', read_loop fuel h = Ok (bs, h') ∧ reading file (p + zlen bs) h' ∧ in_file file p (zlen bs) ∧
    bs = window file p (zlen bs) ∧ (bs = [] → p = zlen file).
Proof.
  revert h. induction fuel as [|fuel IH]; intros h Hr Hf; [lia|]. cbn [read_loop].
  pose proof (read_ok file p h kReadChunkBytes Hr ltac:(done)) as Hk. destruct (sys_read kReadChunkBytes h) as [[|msg|bs] h1].
  - destruct Hk as [Hr1 Hs]. apply IH; [done|lia].
  - done.
  - destruct Hk as (Hr1 & _ & _ & Hin & Hw & He). by exists bs, h1.
Qed.

Lemma fill_spec w rest :
  feeds w rest →
  ∃ w', fill w = Ok w' ∧ feeds w' rest ∧ file_size_ w' = file_size_ w ∧
    (available w < available w' ∨ eof_ w' = true ∧ available w' = available w ∧ zlen rest = available w).
Proof.
  intros Hf. pose proof (feeds_eof w rest Hf) as Heof0. destruct Hf as (file & p & Hrd & Hs & Hsz & Hp & Hpos & Hr & Hl & He).
  unfold fill. set (win := if 0 <? pos_ w then drop (Z.to_nat (pos_ w)) (window_ w) else window_ w). set (pos := if 0 <? pos_ w then 0 else pos_ w).
  assert (0 ≤ pos ≤ zlen win ∧ drop (Z.to_nat pos) win = drop (Z.to_nat (pos_ w)) (window_ w) ∧ zlen win - pos = available w)
    as (Hpos' & Hdrop & Hav).
  { subst win pos. unfold available. destruct (Z.ltb_spec 0 (pos_ w)); [|split_and!; try done; lia]. rewrite length_drop. split_and!; try done; lia. }
  destruct (eof_ w) eqn:Heof.
  - eexists. split; [done|]. split; [|split; [done|right]].
    + exists file, p. cbn [fd_ file_size_ window_ pos_ eof_]. rewrite Hdrop. split_and!; done || lia.
    + unfold available at 1. cbn [window_ pos_ eof_]. split_and!; [done|done|by apply Heof0].
  - destruct (read_loop_spec file p _ (fd_ w) Hrd (Nat.lt_succ_diag_r _)) as (bs & h & -> & Hrd' & Hin & Hw & Hnil). rewrite bind_Ok.
    eexists. split; [done|]. destruct Hin as (Hi0 & Hi1 & Hi2).
    assert (drop (Z.to_nat p) file = bs ++ drop (Z.to_nat (p + zlen bs)) file) as Hcut.
    { rewrite Z2Nat.inj_add, <- drop_drop by lia. rewrite Hw at 1. unfold window. by rewrite Nat2Z.id, take_drop. }
    assert (drop (Z.to_nat pos) (win ++ bs) = drop (Z.to_nat pos) win ++ bs) as Hd by by rewrite drop_app_le by lia.
    split; [|split; [done|]].
    + exists file, (p + zlen bs). cbn [fd_ file_size_ window_ pos_ eof_]. rewrite length_app. split_and!; try done; try lia.
      * by rewrite Hd, <- app_assoc, <- Hcut, Hdrop.
      * intros Hz%Z.eqb_eq. destruct bs; [|cbn in Hz; lia]. rewrite (Hnil eq_refl). cbn. lia.
    + unfold available at 2 3. cbn [window_ pos_ eof_]. rewrite length_app.
      destruct (Z.eqb_spec (zlen bs) 0) as [Hz|Hz]; [right|left; lia]. destruct bs; [|cbn in Hz; lia]. specialize (Hnil eq_refl).
      split_and!; [done|cbn; lia|]. rewrite <- Hr, length_app, length_drop. unfold available. rewrite length_drop. lia.
Qed.

(** A refill that brings nothing is at the end of the file. *)
Lemma fill_progress w rest :
  feeds w rest → available w < zlen rest →
  ∃ w', fill w = Ok w' ∧ feeds w' rest ∧ file_size_ w' = file_size_ w ∧ available w < available w' ∧ starved (available w) w' = false.
Proof.
  intros Hf Hlt. destruct (fill_spec w rest Hf) as (w' & Hfill & Hf' & Hs & [Hav|(_ & _ & Hz)]); [|lia].
  exists w'. split_and!; try done. unfold starved. destruct (Z.eqb_spec (available w') (available w)); [lia|done].
Qed.

Lemma read_varint_loop_spec fuel w v rest :
  is_u64 v → feeds w (encode_varint64 v ++ rest) →
  (Z.to_nat (zlen (encode_varint64 v ++ rest) - available w) < fuel)%nat →
  ∃ w', read_varint_loop fuel w = Ok (v, w') ∧ feeds w' rest ∧ file_size_ w' = file_size_ w.
Proof.
  intros Hv. revert w. induction fuel as [|fuel IH]; intros w Hf Hfuel; [lia|]. cbn [read_varint_loop].
  pose proof (feeds_available _ _ Hf) as Hav. destruct (feeds_window _ _ Hf) as (q & Hq & Hlen).
  set (p := drop (Z.to_nat (pos_ w)) (window_ w)) in *. set (e := encode_varint64 v) in *.
  destruct (decide (length e ≤ length p)%nat) as [Hle|Hgt].
  - assert (p = e ++ drop (length e) p) as Hp.
    { assert (take (length e) p = e) as He by (rewrite <- (take_app_le p q), Hq by done; apply take_app_length).
      rewrite <- He at 1. by rewrite take_drop. }
    rewrite Hp. unfold e. rewrite decode_encode_varint64 by done. fold e. eexists. split; [done|]. split; [|done].
    destruct (feeds_consume w _ (zlen e) Hf) as [_ Hc]; [lia|]. by rewrite Nat2Z.id, drop_app_length in Hc.
  - destruct (decode_varint64_prefix p q v rest Hv Hq) as [st ->]; [fold e; lia|].
    assert (available w < zlen (e ++ rest)) as Hlt by (rewrite length_app; lia).
    rewrite bind_reject_false by (destruct (eof_ w) eqn:He; [pose proof (feeds_eof _ _ Hf He); lia|done]).
    destruct (fill_progress w _ Hf Hlt) as (w1 & -> & Hf1 & Hs1 & Hav1 & Hst). rewrite bind_Ok, Hst. cbn [reject_if]. rewrite bind_Ok.
    destruct (IH w1 Hf1) as (w2 & Hr & Hf2 & Hs2); [lia|]. exists w2. by rewrite Hs2.
Qed.

Lemma read_varint_spec w v rest :
  is_u64 v → feeds w (encode_varint64 v ++ rest) →
  ∃ w', read_varint w = Ok (v, w') ∧ feeds w' rest ∧ file_size_ w' = file_size_ w.
Proof.
  intros Hv Hf. apply read_varint_loop_spec; [done|done|]. pose proof (feeds_available _ _ Hf). unfold refills. lia.
Qed.

Lemma pull_loop_spec fuel w bs rest dst :
  feeds w (bs ++ rest) → (length bs ≤ fuel)%nat →
  ∃ w', pull_loop fuel (zlen bs) dst w = Ok (dst ++ bs, w') ∧ feeds w' rest ∧ file_size_ w' = file_size_ w.
Proof.
  revert w bs dst. induction fuel as [|fuel IH]; intros w bs dst Hf Hfuel; cbn [pull_loop];
    destruct (Z.leb_spec (zlen bs) 0) as [Hz|Hz]; try lia.
  1, 2: destruct bs; [|cbn in Hz; lia]; exists w; by rewrite app_nil_r.
  assert (∃ w1, (if available w =? 0 then
      w' ← fill w; _ ← reject_if (starved (available w) w') (Corruption "run truncated: needed more raw bytes than available"); Ok w'
    else Ok w) = Ok w1 ∧ feeds w1 (bs ++ rest) ∧ file_size_ w1 = file_size_ w ∧ 0 < available w1) as (w1 & Hw1 & Hf1 & Hs1 & Hav1).
  { pose proof (feeds_available _ _ Hf) as Hav. destruct (Z.eqb_spec (available w) 0) as [Hz0|Hz0]; [|exists w; split_and!; try done; lia].
    destruct (fill_progress w _ Hf) as (w1 & -> & Hf1 & Hs1 & Hav1 & Hst); [rewrite length_app; lia|].
    rewrite bind_Ok, Hst. cbn [reject_if]. rewrite bind_Ok. exists w1. split_and!; try done. lia. }
  cbv zeta. rewrite Hw1, bind_Ok. set (n := Z.min (zlen bs) (available w1)).
  destruct (feeds_consume w1 _ n Hf1) as [-> Hf2]; [lia|]. rewrite bind_Ok. rewrite take_app_le, drop_app_le in * by lia.
  destruct (IH _ (drop (Z.to_nat n) bs) (dst ++ take (Z.to_nat n) bs) Hf2) as (w2 & Hp & Hf3 & Hs2); [rewrite length_drop; lia|].
  rewrite length_drop in Hp. replace (zlen bs - n) with (Z.of_nat (length bs - Z.to_nat n)) by lia. rewrite Hp.
  exists w2. rewrite <- app_assoc, take_drop. split_and!; [done|done|]. by rewrite Hs2.
Qed.

Lemma pull_raw_u32_spec w vs rest :
  is_u32s vs → feeds w (words_bytes vs ++ rest) →
  ∃ w', pull_raw_u32 (zlen vs) w = Ok (vs, w') ∧ feeds w' rest ∧ file_size_ w' = file_size_ w.
Proof.
  intros Hvs Hf. unfold pull_raw_u32. destruct (Z.eqb_spec (zlen vs) 0) as [Hz|Hz].
  { destruct vs; [by exists w|cbn in Hz; lia]. }
  pose proof (feeds_available _ _ Hf) as Hav. rewrite length_app in Hav. pose proof (words_bytes_length vs) as Hl.
  assert (u64 (zlen vs * 4) = zlen (words_bytes vs)) as -> by (rewrite u64_small by ulia; lia).
  destruct (pull_loop_spec (Z.to_nat (zlen (words_bytes vs))) w (words_bytes vs) rest [] Hf) as (w' & -> & Hf' & Hs'); [lia|].
  rewrite bind_Ok. exists w'. cbn [app]. unfold words_of. by rewrite words_of_bytes.
Qed.

Lemma read_raw_u32_spec w vs rest :
  is_u32s vs → feeds w (words_bytes vs ++ rest) →
  ∃ w', read_raw_u32 (zlen vs) w = Ok (vs, w') ∧ feeds w' rest ∧ file_size_ w' = file_size_ w.
Proof.
  intros Hvs Hf. pose proof (feeds_available _ _ Hf) as Hav. rewrite length_app, words_bytes_length in Hav. unfold read_raw_u32.
  rewrite bind_reject_false by (apply Z.ltb_ge, Z.div_le_lower_bound; lia).
  destruct (Z.eqb_spec (zlen vs) 0) as [Hz|Hz]; [destruct vs; [by exists w|cbn in Hz; lia]|]. by apply pull_raw_u32_spec.
Qed.
(** *** Records *)

(** A record as it was written. *)
Record wf_record (r : Z * TermPostings) : Prop := {
  wr_id : is_u32 r.1;
  wr_docs : is_u32s (tp_docids r.2);
  wr_freqs : is_u32s (tp_freqs r.2);
  wr_parallel : length (tp_freqs r.2) = length (tp_docids r.2);
  wr_flat : is_u32s (tp_positions_flat r.2)
}.

Definition run_bytes (recs : list (Z * TermPostings)) : bytes := concat (map (λ r, record_bytes r.1 r.2) recs).

(** A reader that has the positions [rem] of its record before it, then [recs]. *)
Record at_run (r : RunReader) (rem : list Z) (recs : list (Z * TermPostings)) : Prop := {
  ar_feeds : feeds (rr_window r) (words_bytes rem ++ run_bytes recs);
  ar_rem : pos_remaining_ r = zlen rem;
  ar_u32s : is_u32s rem;
  ar_recs : Forall wf_record recs
}.

(** A reader with the record [c] loaded and all its positions unread. *)
Record loaded (r : RunReader) (c : Z * TermPostings) (recs : list (Z * TermPostings)) : Prop := {
  ld_at : at_run r (tp_positions_flat c.2) recs;
  ld_live : exhausted_ r = false;
  ld_id : current_id_ r = c.1;
  ld_docs : tp_docids (current_ r) = tp_docids c.2;
  ld_freqs : tp_freqs (current_ r) = tp_freqs c.2;
  ld_count : pos_count_ r = zlen (tp_positions_flat c.2)
}.

Lemma at_run_rem r rem recs : at_run r rem recs → 4 * zlen rem + zlen (run_bytes recs) ≤ file_size_ (rr_window r) < 2 ^ 63.
Proof.
  intros [Hf _ _ _]. pose proof (feeds_available _ _ Hf) as Hav. rewrite length_app, words_bytes_length in Hav. lia.
Qed.

Lemma skip_spec r rem recs :
  at_run r rem recs →
  ∃ r', skip_remaining_positions r = Ok r' ∧ at_run r' [] recs ∧ has_positions_ r' = has_positions_ r ∧
    exhausted_ r' = exhausted_ r ∧ file_size_ (rr_window r') = file_size_ (rr_window r).
Proof.
  intros [Hf Hr Hu Hrec]. unfold skip_remaining_positions. rewrite Hr. destruct (Z.eqb_spec (zlen rem) 0) as [Hz|Hz].
  { exists r. split; [done|]. split; [|done]. destruct rem; [|cbn in Hz; lia]. by split. }
  destruct (read_raw_u32_spec _ rem _ Hu Hf) as (w & -> & Hf' & Hs). rewrite bind_Ok. eexists. split; [done|]. split; [|done].
  split; cbn [rr_window pos_remaining_]; try done.
Qed.

Lemma materialize_spec r rem recs :
  at_run r rem recs →
  ∃ r', materialize_positions r = Ok r' ∧ at_run r' [] recs ∧ exhausted_ r' = exhausted_ r ∧ current_id_ r' = current_id_ r ∧
    has_positions_ r' = has_positions_ r ∧ tp_docids (current_ r') = tp_docids (current_ r) ∧
    tp_freqs (current_ r') = tp_freqs (current_ r) ∧
    tp_positions_flat (current_ r') = (if has_positions_ r then rem else []) ∧
    file_size_ (rr_window r') = file_size_ (rr_window r).
Proof.
  intros [Hf Hr Hu Hrec]. unfold materialize_positions. rewrite Hr. destruct (Z.eqb_spec (zlen rem) 0) as [Hz|Hz].
  { eexists. split; [done|]. destruct rem; [|cbn in Hz; lia]. cbn. destruct (has_positions_ r); by split. }
  destruct (read_raw_u32_spec _ rem _ Hu Hf) as (w & -> & Hf' & Hs). rewrite bind_Ok. eexists. split; [done|].
  split; [|by destruct (has_positions_ r)]. by split.
Qed.

Lemma stream_spec r xs rem recs :
  at_run r (xs ++ rem) recs →
  ∃ r', stream_positions (zlen xs) r = Ok (xs, r') ∧ at_run r' rem recs ∧ exhausted_ r' = exhausted_ r ∧
    current_id_ r' = current_id_ r ∧ has_positions_ r' = has_positions_ r ∧ current_ r' = current_ r ∧
    file_size_ (rr_window r') = file_size_ (rr_window r).
Proof.
  intros [Hf Hr Hu Hrec]. unfold stream_positions. destruct (Z.eqb_spec (zlen xs) 0) as [Hz|Hz].
  { destruct xs; [|cbn in Hz; lia]. exists r. split; [done|]. by split. }
  rewrite length_app in Hr. rewrite bind_reject_false by (apply Z.ltb_ge; lia).
  rewrite words_bytes_app, <- app_assoc in Hf. apply Forall_app in Hu as [Hx Hu].
  destruct (pull_raw_u32_spec _ xs _ Hx Hf) as (w & -> & Hf' & Hs). rewrite bind_Ok. eexists. split; [done|].
  split; [|done]. split; cbn [rr_window pos_remaining_]; try done. lia.
Qed.

Lemma record_bytes_length c : (3 ≤ length (record_bytes c.1 c.2))%nat.
Proof.
  unfold record_bytes. rewrite !length_app. pose proof (encode_varint64_length_pos c.1).
  pose proof (encode_varint64_length_pos (zlen (tp_docids c.2))). pose proof (encode_varint64_length_pos (zlen (tp_positions_flat c.2))). lia.
Qed.

Lemma read_record_spec r w c recs :
  feeds w (run_bytes (c :: recs)) → Forall wf_record (c :: recs) → exhausted_ r = false →
  ∃ r', read_record r w = Ok r' ∧ loaded r' c recs ∧ has_positions_ r' = has_positions_ r ∧
    file_size_ (rr_window r') = file_size_ w.
Proof.
  intros Hf [[Hid Hd Hfr Hpar Hfl] Hrecs]%Forall_cons Hex. unfold run_bytes in Hf. cbn [map concat] in Hf. fold (run_bytes recs) in Hf.
  pose proof (feeds_available _ _ Hf) as Hav. unfold record_bytes in *. rewrite <- !app_assoc in Hf. rewrite !length_app, !words_bytes_length in Hav.
  unfold read_record.
  destruct (read_varint_spec w c.1 _ ltac:(unfold is_u32 in Hid; ulia) Hf) as (w1 & -> & Hf1 & Hs1). rewrite bind_Ok. unfold is_u32 in Hid.
  rewrite bind_reject_false by (apply Z.ltb_ge; unfold UINT32_MAX; lia).
  destruct (read_varint_spec w1 (zlen (tp_docids c.2)) _ ltac:(ulia) Hf1) as (w2 & -> & Hf2 & Hs2). rewrite bind_Ok.
  destruct (read_raw_u32_spec w2 _ _ Hd Hf2) as (w3 & -> & Hf3 & Hs3). rewrite bind_Ok, <- Hpar.
  destruct (read_raw_u32_spec w3 _ _ Hfr Hf3) as (w4 & -> & Hf4 & Hs4). rewrite bind_Ok.
  destruct (read_varint_spec w4 (zlen (tp_positions_flat c.2)) _ ltac:(ulia) Hf4) as (w5 & -> & Hf5 & Hs5). rewrite bind_Ok.
  eexists. split; [done|]. split; [|split; [done|cbn; congruence]]. split; cbn; try done. by apply u32_small.
Qed.

Lemma advance_spec r rem recs :
  at_run r rem recs → exhausted_ r = false →
  ∃ r', advance r = Ok r' ∧ has_positions_ r' = has_positions_ r ∧ file_size_ (rr_window r') = file_size_ (rr_window r) ∧
    match recs with [] => exhausted_ r' = true | c :: recs => loaded r' c recs end.
Proof.
  intros Hr Hex. unfold advance. destruct (skip_spec r rem recs Hr) as (r1 & -> & Hr1 & Hhp & Hex1 & Hs1). rewrite bind_Ok.
  rewrite Hex in Hex1. destruct Hr1 as [Hf Hrem _ Hrecs]. cbn [app words_bytes map concat] in Hf. change (words_bytes []) with (@nil Z) in Hf. cbn [app] in Hf.
  pose proof (feeds_available _ _ Hf) as Hav.
  destruct (Z.eqb_spec (available (rr_window r1)) 0) as [Hz|Hz].
  - destruct (fill_spec _ _ Hf) as (w & -> & Hf1 & Hs & Hcase). rewrite bind_Ok. pose proof (feeds_available _ _ Hf1) as Hav1.
    destruct recs as [|c recs].
    + cbn in Hav1. destruct Hcase as [|(He & Ha & _)]; [lia|]. rewrite Ha, Hz, He. cbn [andb].
      eexists. split; [done|]. cbn. split_and!; [done|congruence|done].
    + assert (((available w =? 0) && eof_ w) = false) as ->.
      { destruct Hcase as [|(_ & _ & Hl)]; [destruct (Z.eqb_spec (available w) 0); [lia|done]|].
        unfold run_bytes in Hl. cbn [map concat] in Hl. rewrite length_app in Hl. pose proof (record_bytes_length c). lia. }
      destruct (read_record_spec r1 w c recs Hf1 Hrecs Hex1) as (r2 & -> & Hl & Hhp2 & Hs2). exists r2. split_and!; [done|congruence|congruence|done].
  - destruct recs as [|c recs]; [cbn in Hav; lia|].
    destruct (read_record_spec r1 _ c recs Hf Hrecs Hex1) as (r2 & -> & Hl & Hhp2 & Hs2). exists r2. split_and!; [done|congruence|congruence|done].
Qed.

Lemma reader_open_spec d path has_positions recs :
  at_rest d → file_bytes d = run_bytes recs → zlen (run_bytes recs) < 2 ^ 63 → Forall wf_record recs →
  ∃ r, reader_open d path has_positions = Ok r ∧ has_positions_ r = has_positions ∧
    file_size_ (rr_window r) = zlen (run_bytes recs) ∧
    match recs with [] => exhausted_ r = true | c :: recs => loaded r c recs end.
Proof.
  intros Hd Hb Hsz Hrecs. unfold reader_open. destruct (open_ok d Hd) as (h & -> & Hr). cbn [sys_result]. rewrite bind_Ok.
  rewrite (fstat_ok _ _ _ Hr). cbn [sys_result]. rewrite bind_Ok. rewrite Hb in *.
  set (r0 := mkRunReader _ _ _ _ _ _ _). assert (at_run r0 [] recs) as Hr0.
  { split; cbn; try done. exists (run_bytes recs), 0. cbn. change (words_bytes []) with (@nil Z). rewrite drop_0. split_and!; done || lia. }
  destruct (advance_spec r0 [] recs Hr0 eq_refl) as (r & Ha & Hhp & Hs & Hc). exists r. by split_and!.
Qed.
End Reading.
