(* ===== verification/PostingGroups.v ===== *)
(** * PostingGroups: postings as documents with their positions.

    The specification side of the accumulator: a term's tokens, in the order
    they arrive, fall into groups of one document each; [posting] is the
    [TermPostings] of a list of groups, [join] concatenates two lists and folds
    a document that ends the first and starts the second. *)

From S2P Require Import Prelude ByteIO TermPostings.

#[local] Open Scope Z_scope.

(** A document and the positions of its tokens. *)
Abbreviation Group := (Z * list Z)%type.

Definition gdocs (gs : list Group) : list Z := map fst gs.
Definition gfreqs (gs : list Group) : list Z := map (λ g, zlen g.2) gs.
Definition gpos (gs : list Group) : list Z := concat (map snd gs).

Definition posting (has_positions : bool) (term : bytes) (gs : list Group) : TermPostings :=
  mkTermPostings term (gdocs gs) (gfreqs gs) (if has_positions then gpos gs else []) None 0.

(** A group in front of others: folded into the first if it is the same document. *)
Definition cons_group (g : Group) (b : list Group) : list Group :=
  match b with
  | (e, qs) :: b' => if g.1 =? e then (e, g.2 ++ qs) :: b' else g :: b
  | [] => [g]
  end.

Fixpoint join (a b : list Group) : list Group :=
  match a with
  | [] => b
  | [g] => cons_group g b
  | g :: a => g :: join a b
  end.

(** Tokens of one document that arrive together. *)
Fixpoint groups (tokens : list (Z * Z)) : list Group :=
  match tokens with
  | [] => []
  | (d, p) :: tokens => cons_group (d, [p]) (groups tokens)
  end.

(** All tokens of each document, documents ascending. *)
Definition positions_in (tokens : list (Z * Z)) (d : Z) : list Z :=
  map snd (List.filter (λ t, t.1 =? d) tokens).

Lemma join_cons g h a b : join (g :: h :: a) b = g :: join (h :: a) b.
Proof. done. Qed.

Lemma join_nil_r a : join a [] = a.
Proof. induction a as [|g [|h a] IH]; [done..|]. by rewrite join_cons, IH. Qed.

Lemma join_app x y c : y ≠ [] → join (x ++ y) c = x ++ join y c.
Proof.
  intros Hy. induction x as [|g x IH]; [done|]. cbn [app]. rewrite <- IH.
  destruct (x ++ y) as [|h l] eqn:Hxy; [|done]. by apply app_eq_nil in Hxy as [_ ?].
Qed.

Lemma cons_group_head g b : ∃ ps r, cons_group g b = (g.1, ps) :: r.
Proof.
  destruct g as [d ps], b as [|[e qs] b]; cbn; [by eexists _, _|]. destruct (Z.eqb_spec d e) as [->|]; by eexists _, _.
Qed.

Lemma join_head g b c : ∃ ps r, join (g :: b) c = (g.1, ps) :: r.
Proof. destruct b as [|h b]; [apply cons_group_head|]. rewrite join_cons. destruct g. by eexists _, _. Qed.

Lemma cons_group_join g b c : join (cons_group g b) c = cons_group g (join b c).
Proof.
  destruct g as [d ps], b as [|[e qs] b]; [done|]. cbn [cons_group fst snd]. destruct (Z.eqb_spec d e) as [->|Hne].
  - destruct b as [|h b].
    + destruct c as [|[f rs] c]; cbn [join cons_group fst snd]; [by rewrite Z.eqb_refl|].
      destruct (Z.eqb_spec e f) as [->|]; cbn [cons_group fst snd]; by rewrite Z.eqb_refl, <- ?app_assoc.
    + rewrite !join_cons. cbn [cons_group fst snd]. by rewrite Z.eqb_refl.
  - rewrite join_cons. destruct (join_head (e, qs) b c) as (qs' & r & ->). cbn [cons_group fst snd].
    by rewrite (proj2 (Z.eqb_neq d e)).
Qed.

Lemma join_assoc a b c : join (join a b) c = join a (join b c).
Proof.
  induction a as [|g a _] using rev_ind; [done|]. rewrite (join_app a [g]) by done. rewrite (join_app a [g]) by done. cbn [join].
  rewrite join_app, cons_group_join; [done|]. by destruct (cons_group_head g b) as (? & ? & ->).
Qed.

Lemma groups_app ts us : groups (ts ++ us) = join (groups ts) (groups us).
Proof. induction ts as [|[d p] ts IH]; [done|]. cbn [app groups]. by rewrite IH, cons_group_join. Qed.

Lemma groups_snoc ts d p : groups (ts ++ [(d, p)]) = join (groups ts) [(d, [p])].
Proof. apply groups_app. Qed.

Lemma gpos_cons_group g b : gpos (cons_group g b) = g.2 ++ gpos b.
Proof.
  unfold gpos. destruct g as [d ps], b as [|[e qs] b]; [done|]. cbn [cons_group fst snd map concat].
  destruct (d =? e); [|done]. cbn [map concat snd]. by rewrite app_assoc.
Qed.

Lemma gpos_join a b : gpos (join a b) = gpos a ++ gpos b.
Proof.
  induction a as [|g [|h a] IH]; [done| |]; [cbn [join]; rewrite gpos_cons_group; unfold gpos; cbn; by rewrite app_nil_r|].
  rewrite join_cons. unfold gpos in *. cbn [map concat] in *. by rewrite IH, app_assoc.
Qed.

Lemma gpos_groups ts : gpos (groups ts) = map snd ts.
Proof. induction ts as [|[d p] ts IH]; [done|]. cbn [groups map snd]. by rewrite gpos_cons_group, IH. Qed.

Lemma cons_group_length g b : (length (cons_group g b) ≤ S (length b))%nat.
Proof. destruct g as [d ps], b as [|[e qs] b]; cbn; [lia|]. destruct (d =? e); cbn; lia. Qed.

Lemma join_length a b : (length (join a b) ≤ length a + length b)%nat.
Proof.
  induction a as [|g [|h a] IH]; [done|cbn [join length]; pose proof (cons_group_length g b); lia|].
  rewrite join_cons. cbn [length] in *. lia.
Qed.

Lemma groups_nil_inv ts : groups ts = [] → ts = [].
Proof. destruct ts as [|[d p] ts]; [done|]. cbn [groups]. by destruct (cons_group_head (d, [p]) (groups ts)) as (? & ? & ->). Qed.

Definition nonempty_groups (gs : list Group) : Prop := Forall (λ g, g.2 ≠ []) gs.

Lemma cons_group_Forall (P : Group → Prop) g b :
  (∀ d ps qs, P (d, ps) → P (d, qs) → P (d, ps ++ qs)) → P g → Forall P b → Forall P (cons_group g b).
Proof.
  intros HP Hg Hb. destruct g as [d ps], Hb as [|[e qs] b Hh Hb]; cbn [cons_group fst snd]; [by repeat constructor|].
  destruct (Z.eqb_spec d e) as [->|]; [|by repeat constructor]. constructor; [by apply HP|done].
Qed.

Lemma join_Forall (P : Group → Prop) a b :
  (∀ d ps qs, P (d, ps) → P (d, qs) → P (d, ps ++ qs)) → Forall P a → Forall P b → Forall P (join a b).
Proof.
  intros HP Ha Hb. induction Ha as [|g [|h a] Hg Ha IH]; [done|by apply cons_group_Forall|]. rewrite join_cons. by constructor.
Qed.

Lemma groups_Forall (P : Z → Z → Prop) ts :
  Forall (λ t, P t.1 t.2) ts → Forall (λ g, Forall (P g.1) g.2) (groups ts).
Proof.
  induction 1 as [|[d p] ts Ht Hts IH]; [done|]. cbn [groups]. apply cons_group_Forall; [|by repeat constructor|done].
  intros e ps qs Hp Hq. by apply Forall_app_2.
Qed.

Lemma groups_nonempty ts : nonempty_groups (groups ts).
Proof.
  induction ts as [|[d p] ts IH]; [constructor|]. cbn [groups]. apply cons_group_Forall; [|done|done].
  intros e ps qs Hp _. cbn in *. by destruct ps.
Qed.

Lemma gfreqs_total gs : zlen (gpos gs) = foldr Z.add 0 (gfreqs gs).
Proof. unfold gpos, gfreqs. induction gs as [|g gs IH]; [done|]. cbn [map concat foldr]. rewrite length_app. lia. Qed.

(** *** Documents in order *)

Lemma groups_docs_elem ts d : d ∈ gdocs (groups ts) ↔ d ∈ map fst ts.
Proof.
  assert (∀ e q b, d ∈ gdocs (cons_group (e, [q]) b) ↔ d = e ∨ d ∈ gdocs b) as Hj.
  { intros e q [|[f rs] b]; cbn [cons_group fst snd]; unfold gdocs; cbn [map fst]; [by rewrite elem_of_cons|].
    destruct (Z.eqb_spec e f) as [->|]; cbn [map fst]; rewrite !elem_of_cons; tauto. }
  induction ts as [|[e q] ts IH]; [done|]. cbn [groups map fst]. rewrite Hj, elem_of_cons. tauto.
Qed.

(** Tokens with documents in order: one group per document, ascending. *)
Lemma groups_sorted ts : StronglySorted Z.le (map fst ts) → StronglySorted Z.lt (gdocs (groups ts)).
Proof.
  induction ts as [|[d p] ts IH]; intros Hs; [constructor|]. cbn [map fst] in Hs. apply StronglySorted_inv in Hs as [Hs Hd].
  specialize (IH Hs). cbn [groups]. pose proof (groups_docs_elem ts) as Hel.
  destruct (groups ts) as [|[e qs] gs] eqn:Hg; cbn [cons_group fst snd]; [by repeat constructor|].
  unfold gdocs in *. cbn [map fst] in *. destruct (Z.eqb_spec d e) as [->|Hne]; [done|]. cbn [map fst].
  constructor; [done|]. rewrite Forall_forall in Hd |- *. intros x Hx.
  apply StronglySorted_inv in IH as [_ Hlt]. rewrite Forall_forall in Hlt.
  assert (d < e) by (specialize (Hd e (proj1 (Hel e) ltac:(by left))); lia).
  apply elem_of_cons in Hx as [->|Hx]; [done|]. specialize (Hlt x Hx). lia.
Qed.

Lemma groups_positions ts :
  StronglySorted Z.le (map fst ts) → Forall (λ g, g.2 = positions_in ts g.1) (groups ts).
Proof.
  intros Hs. pose proof (groups_sorted ts Hs) as Hg. revert Hs Hg.
  induction ts as [|[d p] ts IH]; intros Hs Hg; [constructor|].
  cbn [map fst] in Hs. apply StronglySorted_inv in Hs as [Hs Hd]. specialize (IH Hs (groups_sorted ts Hs)).
  pose proof (groups_docs_elem ts) as Hel. cbn [groups] in *. unfold positions_in in *. cbn [List.filter].
  assert (∀ g : Group, g ∈ groups ts → g.1 ≠ d → g.2 = map snd (List.filter (λ t, t.1 =? g.1) ((d, p) :: ts))) as Hother.
  { intros g Hin Hne. rewrite Forall_forall in IH. cbn [List.filter fst]. rewrite (proj2 (Z.eqb_neq d g.1)) by done. by apply IH. }
  assert (∀ ps, (∀ g, g ∈ groups ts → g.1 ≠ d) → map snd (List.filter (λ t : Z * Z, t.1 =? d) ts) = ps → ps = []) as Hnone.
  { intros ps Hno <-. assert (List.filter (λ t : Z * Z, t.1 =? d) ts = []) as ->; [|done].
    destruct (List.filter _ ts) as [|t l] eqn:Hf; [done|]. exfalso.
    assert (In t (List.filter (λ t : Z * Z, t.1 =? d) ts)) as Hin by (rewrite Hf; by left).
    apply List.filter_In in Hin as [Hin He]. apply Z.eqb_eq in He. apply list_elem_of_In in Hin.
    assert (d ∈ gdocs (groups ts)) as Hdg by (apply Hel; apply list_elem_of_fmap; by exists t).
    apply list_elem_of_fmap in Hdg as (g & Hgd & Hgin). by apply (Hno g Hgin). }
  destruct (groups ts) as [|[e qs] gs] eqn:Hgr; cbn [cons_group fst snd] in *.
  - constructor; [|done]. cbn [fst snd]. rewrite Z.eqb_refl. cbn [map snd]. f_equal. symmetry. eapply Hnone; [by intros g ?%elem_of_nil|done].
  - apply Forall_cons in IH as [He IH]. cbn [fst snd] in He. unfold gdocs in *.
    destruct (Z.eqb_spec d e) as [->|Hne]; cbn [map fst] in Hg.
    + apply StronglySorted_inv in Hg as [_ Hlt]. constructor.
      * cbn [fst snd]. rewrite Z.eqb_refl. cbn [map snd app]. by rewrite He.
      * apply Forall_forall. intros g Hin. apply (Hother g); [by right|]. rewrite Forall_forall in Hlt.
        specialize (Hlt g.1 ltac:(apply list_elem_of_fmap; by exists g)). lia.
    + apply StronglySorted_inv in Hg as [_ Hlt]. rewrite Forall_forall in Hlt.
      assert (∀ g, g ∈ (e, qs) :: gs → g.1 ≠ d) as Hno.
      { intros g Hin. specialize (Hlt g.1 ltac:(apply (list_elem_of_fmap_2 fst _ _ Hin))). lia. }
      constructor.
      * cbn [fst snd]. rewrite Z.eqb_refl. cbn [map snd]. f_equal. symmetry. by eapply Hnone.
      * apply Forall_forall. intros g Hin. apply (Hother g Hin). by apply Hno.
Qed.
