(* ===== verification/RunMerge.v ===== *)
(** * RunMerge: the k-way merge of spilled runs.

    [MergeRuns] of [writer/spill_run_codec.cpp], with its helpers. The callback
    receives the merged terms one at a time: the merge returns the terms it has
    delivered and the status it ends with, so an error leaves the terms
    delivered before it. A streamed term carries the positions its pump yields
    when the callback drains it, as the windowed writer does; an error of the
    pump is reported after that callback, as in the code.

    [std::priority_queue] is the class [PriorityQueueOf]. *)

From S2P Require Import Prelude StdAlgorithms Status ByteIO FormatConstants TermKey LocalFile TermPostings SpillRunCodec PostingGroups.

#[local] Open Scope Z_scope.

Record HeapItem := mkHeapItem { term_id : Z; run : nat }.

(** [vocab[id]]; every id that reaches the heap was checked. *)
Definition vocab_at (vocab : list bytes) (id : Z) : bytes := vocab !!! Z.to_nat id.

Definition HeapGreater (vocab : list bytes) (a b : HeapItem) : bool :=
  let sa := vocab_at vocab (term_id a) in
  let sb := vocab_at vocab (term_id b) in
  if decide (sa ≠ sb) then term_ltb sb sa else (run b <? run a)%nat.

(** The last frequency of [dst] grows by the first of [src]. *)
Definition bump_last (freqs : list Z) (by_ : Z) : list Z :=
  match last freqs with
  | Some f => removelast freqs ++ [u32 (f + by_)]
  | None => freqs
  end.

Definition same_boundary (dst src : list Z) : bool :=
  match last dst, src with Some d, s :: _ => d =? s | _, _ => false end.

Definition ConcatDocsFreqs (dst src : TermPostings) : TermPostings :=
  match tp_docids src with
  | [] => dst
  | _ =>
      let folded := same_boundary (tp_docids dst) (tp_docids src) in
      let start := if folded then 1%nat else 0%nat in
      let freqs := if folded then bump_last (tp_freqs dst) (hd 0 (tp_freqs src)) else tp_freqs dst in
      mkTermPostings (tp_term dst) (tp_docids dst ++ drop start (tp_docids src)) (freqs ++ drop start (tp_freqs src))
        (tp_positions_flat dst) (tp_pos_pump dst) (tp_pos_total dst)
  end.

(** The splice of the first document's positions and the append of the others. *)
Definition Concat (dst src : TermPostings) (has_positions : bool) : result TermPostings :=
  match tp_docids src with
  | [] => Ok dst
  | _ =>
      let folded := same_boundary (tp_docids dst) (tp_docids src) in
      let head_fc := hd 0 (tp_freqs src) in
      flat ← (if negb has_positions then Ok (tp_positions_flat dst)
              else if folded then
                spliced ← subslice (tp_positions_flat src) 0 head_fc;
                Ok (tp_positions_flat dst ++ spliced ++ drop (Z.to_nat head_fc) (tp_positions_flat src))
              else Ok (tp_positions_flat dst ++ tp_positions_flat src));
      let merged := ConcatDocsFreqs dst src in
      Ok (mkTermPostings (tp_term merged) (tp_docids merged) (tp_freqs merged) flat (tp_pos_pump merged) (tp_pos_total merged))
  end.

Definition ShouldStreamPositions (total_docs total_pos : Z) (has_positions : bool) : bool :=
  has_positions && negb (total_pos =? 0) && (kSlimDfThreshold <=? total_docs).

Section Merge.
Context {D : Type} `{Posix D} `{PriorityQueueOf HeapItem} (vocab : list bytes) (has_positions : bool).

Abbreviation greater := (HeapGreater vocab).

(** [readers[ri]] *)
Definition reader_at (readers : list RunReader) (ri : nat) : result RunReader :=
  match readers !! ri with Some r => Ok r | None => Undef end.

(** The check of a head id and its push. *)
Definition push_head (r : RunReader) (ri : nat) (heap : queue) : result queue :=
  if exhausted_ r then Ok heap
  else
    _ ← reject_if (zlen vocab <=? current_id_ r) (Corruption "run term_id out of vocab range");
    Ok (queue_push greater (mkHeapItem (current_id_ r) ri) heap).

Definition open_run (run : D * string) (st : queue * list RunReader) : result (queue * list RunReader) :=
  let '(heap, readers) := st in
  r ← reader_open run.1 run.2 has_positions;
  heap ← push_head r (length readers) heap;
  Ok (heap, readers ++ [r]).

(** The gathering loop: the runs whose head is [term], and their sizes. *)
Fixpoint gather (fuel : nat) (readers : list RunReader) (term : bytes) (heap : queue) (matching : list nat)
    (total_docs total_pos : Z) : result (list nat * Z * Z * queue) :=
  match queue_pop greater heap with
  | None => Ok (matching, total_docs, total_pos, heap)
  | Some (top, rest) =>
      if decide (vocab_at vocab (term_id top) = term) then
        match fuel with
        | O => Undef
        | S fuel =>
            r ← reader_at readers (run top);
            gather fuel readers term rest (matching ++ [run top])
              (u64 (total_docs + zlen (tp_docids (current_ r)))) (u64 (total_pos + pos_count_ r))
        end
      else Ok (matching, total_docs, total_pos, heap)
  end.

(** [for (ri : matching)]: coalesce one run. *)
Definition coalesce (stream : bool) (ri : nat) (st : TermPostings * list RunReader)
    : result (TermPostings * list RunReader) :=
  let '(merged, readers) := st in
  r ← reader_at readers ri;
  if stream then Ok (ConcatDocsFreqs merged (current_ r), readers)
  else
    r ← (if has_positions then materialize_positions r else Ok r);
    merged ← Concat merged (current_ r) has_positions;
    Ok (merged, <[ri := r]> readers).

(** The slim fallback: the positions of every run, in run order. *)
Definition append_positions (ri : nat) (st : TermPostings * list RunReader) : result (TermPostings * list RunReader) :=
  let '(merged, readers) := st in
  r ← reader_at readers ri;
  r ← materialize_positions r;
  Ok (with_positions (tp_positions_flat merged ++ tp_positions_flat (current_ r)) merged, <[ri := r]> readers).

(** What the pump yields over the runs [matching]: the positions, the status it
    latches, the readers it leaves. *)
Fixpoint pump_runs (matching : list nat) (readers : list RunReader) (got : list Z)
    : list Z * result unit * list RunReader :=
  match matching with
  | [] => (got, Ok tt, readers)
  | ri :: matching =>
      match readers !! ri with
      | None => (got, Undef, readers)
      | Some r =>
          match stream_positions (pos_remaining_ r) r with
          | Ok (ps, r) => pump_runs matching (<[ri := r]> readers) (got ++ ps)
          | Err st => (got, Err st, readers)
          | Undef => (got, Undef, readers)
          end
      end
  end.

(** The bytes the callback sees are zero where the pump stopped short. *)
Definition zero_filled (total : Z) (got : list Z) : list Z := got ++ replicate (Z.to_nat total - length got) 0.

(** The term of the heap's top: merged, with the status of its pump, the runs
    that contributed and what is left of the readers and the heap. *)
Definition merge_term (allow_stream_positions : bool) (top : HeapItem) (readers : list RunReader) (heap : queue)
    : result (TermPostings * result unit * list nat * list RunReader * queue) :=
  let term := vocab_at vocab (term_id top) in
  '(matching, total_docs, total_pos, heap) ← gather (length readers) readers term heap [] 0 0;
  let stream := allow_stream_positions && ShouldStreamPositions total_docs total_pos has_positions in
  '(merged, readers) ← fold_result (coalesce stream) matching (mkTermPostings term [] [] [] None 0, readers);
  if stream && (zlen (tp_docids merged) <? kSlimDfThreshold) then
    '(merged, readers) ← fold_result append_positions matching (merged, readers);
    Ok (merged, Ok tt, matching, readers, heap)
  else if stream then
    let '(got, st, readers) := pump_runs matching readers [] in
    Ok (mkTermPostings term (tp_docids merged) (tp_freqs merged) [] (Some (zero_filled total_pos got)) total_pos,
        st, matching, readers, heap)
  else Ok (merged, Ok tt, matching, readers, heap).

(** [for (ri : matching)], after the callback. *)
Definition advance_run (ri : nat) (st : queue * list RunReader) : result (queue * list RunReader) :=
  let '(heap, readers) := st in
  r ← reader_at readers ri;
  r ← advance r;
  heap ← push_head r ri heap;
  Ok (heap, <[ri := r]> readers).

(** [while (!heap.empty())]; [out] is what the callback has received. *)
Fixpoint merge_loop (fuel : nat) (allow_stream_positions : bool) (readers : list RunReader) (heap : queue)
    (out : list TermPostings) : list TermPostings * result unit :=
  match queue_pop greater heap with
  | None => (out, Ok tt)
  | Some (top, _) =>
      match fuel with
      | O => (out, Undef)
      | S fuel =>
          match merge_term allow_stream_positions top readers heap with
          | Err st => (out, Err st)
          | Undef => (out, Undef)
          | Ok (merged, pump, matching, readers, heap) =>
              match (_ ← pump; fold_result advance_run matching (heap, readers)) with
              | Err st => (out ++ [merged], Err st)
              | Undef => (out ++ [merged], Undef)
              | Ok (heap, readers) => merge_loop fuel allow_stream_positions readers heap (out ++ [merged])
              end
          end
      end
  end.

(** A term costs at least one byte of one of the files. *)
Definition merge_fuel (readers : list RunReader) : nat :=
  S (foldr (λ r n, Z.to_nat (file_size_ (rr_window r)) + n)%nat 0%nat readers).

Definition MergeRuns (runs : list (D * string)) (allow_stream_positions : bool) : list TermPostings * result unit :=
  match fold_result open_run runs (queue_empty, []) with
  | Ok (heap, readers) => merge_loop (merge_fuel readers) allow_stream_positions readers heap []
  | Err st => ([], Err st)
  | Undef => ([], Undef)
  end.
End Merge.

(** ** Coalescing *)

Lemma gdocs_cons g gs : gdocs (g :: gs) = g.1 :: gdocs gs.
Proof. done. Qed.

Lemma last_gdocs a g : last (gdocs (a ++ [g])) = Some g.1.
Proof. unfold gdocs. rewrite map_app. apply last_snoc. Qed.

Lemma ConcatDocsFreqs_join a b term t2 f1 f2 pump n pump2 n2 :
  Forall (λ g, zlen g.2 < 2 ^ 32) (join a b) →
  ConcatDocsFreqs (mkTermPostings term (gdocs a) (gfreqs a) f1 pump n) (mkTermPostings t2 (gdocs b) (gfreqs b) f2 pump2 n2) =
    mkTermPostings term (gdocs (join a b)) (gfreqs (join a b)) f1 pump n.
Proof.
  intros Hsm. unfold ConcatDocsFreqs. cbn [tp_docids tp_freqs tp_term tp_positions_flat tp_pos_pump tp_pos_total].
  destruct b as [|[e qs] b]; [by rewrite join_nil_r|]. cbn [gdocs gfreqs map fst snd hd].
  destruct a as [|[d ps] a _] using rev_ind; [done|]. rewrite join_app in * by done. cbn [join cons_group fst snd] in *.
  unfold same_boundary. fold (gdocs (a ++ [(d, ps)])). rewrite last_gdocs. cbn [fst]. unfold gdocs, gfreqs, bump_last. rewrite !map_app. cbn [map fst snd].
  destruct (Z.eqb_spec d e) as [->|Hne]; cbn [drop map fst snd].
  - rewrite last_snoc, removelast_last, <- !app_assoc. cbn [app].
    apply Forall_app in Hsm as [_ [Hq _]%Forall_cons]. cbn [snd] in Hq. rewrite length_app in *. rewrite u32_small by (unfold is_u32; lia).
    by rewrite Nat2Z.inj_add.
  - by rewrite <- !app_assoc.
Qed.

Lemma Concat_join a b term t2 f2 hp pump2 n2 :
  Forall (λ g, zlen g.2 < 2 ^ 32) (join a b) → (hp = true → f2 = gpos b) →
  Concat (posting hp term a) (mkTermPostings t2 (gdocs b) (gfreqs b) f2 pump2 n2) hp = Ok (posting hp term (join a b)).
Proof.
  intros Hsm Hf2. unfold Concat, posting. cbn [tp_docids tp_freqs tp_term tp_positions_flat tp_pos_pump tp_pos_total].
  rewrite ConcatDocsFreqs_join by done. cbn [tp_docids tp_freqs tp_term tp_positions_flat tp_pos_pump tp_pos_total].
  destruct b as [|[e qs] b]; [by rewrite join_nil_r|]. cbn [gdocs gfreqs map fst snd hd].
  destruct hp; cbn [negb]; [rewrite Hf2 by done|by rewrite bind_Ok]. rewrite gpos_join.
  destruct (same_boundary _ _); [|by rewrite bind_Ok].
  change (gpos ((e, qs) :: b)) with (qs ++ gpos b). rewrite subslice_app_l by done.
  by rewrite !bind_Ok, Nat2Z.id, drop_app_length.
Qed.

(** ** The merge of abstract runs *)

(** A run as the terms it holds: ids with their documents. *)
Abbreviation Run := (list (Z * list Group)).

Definition record (has_positions : bool) (c : Z * list Group) : Z * TermPostings := (c.1, posting has_positions [] c.2).

Definition groups_in (rs : Run) (id : Z) : list Group :=
  match List.find (λ c, c.1 =? id) rs with Some c => c.2 | None => [] end.

(** The documents of an id over the runs, in run order. *)
Definition merged (rem : list Run) (id : Z) : list Group := foldl (λ acc rs, join acc (groups_in rs id)) [] rem.

(** What the callback receives for a term: large sorted terms stream their positions. *)
Definition emitted (allow has_positions : bool) (term : bytes) (gs : list Group) : TermPostings :=
  if allow && ShouldStreamPositions (zlen gs) (zlen (gpos gs)) has_positions
  then mkTermPostings term (gdocs gs) (gfreqs gs) [] (Some (gpos gs)) (zlen (gpos gs))
  else posting has_positions term gs.

(** The heads of the runs, and the runs whose head is [m]. *)
Fixpoint heads (k : nat) (rem : list Run) : list HeapItem :=
  match rem with
  | [] => []
  | [] :: rem => heads (S k) rem
  | (c :: _) :: rem => mkHeapItem c.1 k :: heads (S k) rem
  end.

Abbreviation Hit := (nat * (list Group * Run))%type.
Fixpoint hits (m : Z) (k : nat) (rem : list Run) : list Hit :=
  match rem with
  | [] => []
  | [] :: rem => hits m (S k) rem
  | (c :: tl) :: rem => if c.1 =? m then (k, (c.2, tl)) :: hits m (S k) rem else hits m (S k) rem
  end.
Fixpoint others (m : Z) (k : nat) (rem : list Run) : list HeapItem :=
  match rem with
  | [] => []
  | [] :: rem => others m (S k) rem
  | (c :: _) :: rem => if c.1 =? m then others m (S k) rem else mkHeapItem c.1 k :: others m (S k) rem
  end.
Definition pop_head (m : Z) (rs : Run) : Run :=
  match rs with c :: tl => if c.1 =? m then tl else rs | [] => [] end.

Definition new_head (h : Hit) : list HeapItem :=
  match h.2.2 with c :: _ => [mkHeapItem c.1 h.1] | [] => [] end.

Lemma heads_split m k rem : heads k rem ≡ₚ map (λ h, mkHeapItem m h.1) (hits m k rem) ++ others m k rem.
Proof.
  revert k. induction rem as [|[|c tl] rem IH]; intros k; cbn [heads hits others]; [done|apply IH|].
  destruct (Z.eqb_spec c.1 m) as [->|]; cbn [map app fst]; rewrite (IH (S k)); [done|]. by rewrite Permutation_middle.
Qed.

Lemma heads_pop m k rem : heads k (map (pop_head m) rem) ≡ₚ others m k rem ++ concat (map new_head (hits m k rem)).
Proof.
  revert k. induction rem as [|[|c tl] rem IH]; intros k; cbn [map heads hits others]; [done|apply IH|].
  cbn [pop_head]. destruct (Z.eqb_spec c.1 m) as [He|Hne].
  - cbn [map concat]. unfold new_head at 1. cbn [fst snd]. destruct tl as [|c' tl]; cbn [heads app]; [apply IH|].
    rewrite (IH (S k)). by rewrite Permutation_middle.
  - cbn [heads app]. by rewrite (IH (S k)).
Qed.

Lemma hits_lookup m k rem i gs tl : (i, (gs, tl)) ∈ hits m k rem → (k ≤ i)%nat ∧ rem !! (i - k)%nat = Some ((m, gs) :: tl).
Proof.
  revert k. induction rem as [|[|c tl'] rem IH]; intros k; cbn [hits].
  - by intros ?%elem_of_nil.
  - intros Hin. apply IH in Hin as [Hk Hl]. split; [lia|]. by replace (i - k)%nat with (S (i - S k)) by lia.
  - destruct (Z.eqb_spec c.1 m) as [He|Hne]; [rewrite elem_of_cons; intros [[= -> -> ->]|Hin]|intros Hin].
    + split; [lia|]. rewrite Nat.sub_diag. cbn. destruct c as [x y]. cbn in *. by rewrite He.
    + apply IH in Hin as [Hk Hl]. split; [lia|]. by replace (i - k)%nat with (S (i - S k)) by lia.
    + apply IH in Hin as [Hk Hl]. split; [lia|]. by replace (i - k)%nat with (S (i - S k)) by lia.
Qed.

Lemma hits_complete m k rem i c tl : rem !! i = Some (c :: tl) → c.1 = m → ((k + i)%nat, (c.2, tl)) ∈ hits m k rem.
Proof.
  revert k i. induction rem as [|[|c' tl'] rem IH]; intros k i Hi Hc; [done| |]; destruct i as [|i]; cbn in Hi; try done; cbn [hits].
  - specialize (IH (S k) i Hi Hc). by replace (k + S i)%nat with (S k + i)%nat by lia.
  - injection Hi as -> ->. rewrite Hc, Z.eqb_refl, Nat.add_0_r. by left.
  - specialize (IH (S k) i Hi Hc). replace (k + S i)%nat with (S k + i)%nat by lia. destruct (_ =? _); [by right|done].
Qed.

Lemma hits_sorted m k rem : StronglySorted lt (map fst (hits m k rem)).
Proof.
  revert k. induction rem as [|[|c tl] rem IH]; intros k; cbn [hits]; [constructor|apply IH|].
  destruct (_ =? _); [|apply IH]. cbn [map fst]. constructor; [apply IH|]. apply Forall_forall. intros j Hj.
  apply list_elem_of_fmap in Hj as ([j' [gs t]] & -> & Hj). apply hits_lookup in Hj as [? _]. cbn. lia.
Qed.

Lemma merged_foldl_app a rem id : foldl (λ acc rs, join acc (groups_in rs id)) a rem = join a (merged rem id).
Proof.
  unfold merged. revert a. induction rem as [|rs rem IH]; intros a; cbn [foldl]; [by rewrite join_nil_r|].
  rewrite IH, (IH (join [] _)). cbn [join]. by rewrite join_assoc.
Qed.

Lemma merged_cons rs rem id : merged (rs :: rem) id = join (groups_in rs id) (merged rem id).
Proof. unfold merged at 1. cbn [foldl join]. apply merged_foldl_app. Qed.

Lemma groups_in_elem rs id : groups_in rs id ≠ [] → id ∈ map fst rs.
Proof.
  unfold groups_in. destruct (List.find _ rs) as [c|] eqn:Hf; [|done]. intros _. apply List.find_some in Hf as [Hin He%Z.eqb_eq].
  apply list_elem_of_fmap. exists c. split; [done|by apply list_elem_of_In].
Qed.

Lemma groups_in_absent rs id : id ∉ map fst rs → groups_in rs id = [].
Proof. intros Hid. destruct (decide (groups_in rs id = [])) as [|Hne]; [done|]. by apply groups_in_elem in Hne. Qed.

Lemma groups_in_head c tl : groups_in (c :: tl) c.1 = c.2.
Proof. unfold groups_in. cbn [List.find]. by rewrite Z.eqb_refl. Qed.

Lemma groups_in_cons_ne c tl id : c.1 ≠ id → groups_in (c :: tl) id = groups_in tl id.
Proof. intros Hne. unfold groups_in. cbn [List.find]. by rewrite (proj2 (Z.eqb_neq c.1 id)). Qed.

(** All of a list of document lists, joined. *)
Definition join_all (l : list (list Group)) : list Group := foldl join [] l.

Lemma join_all_cons x l : join_all (x :: l) = join x (join_all l).
Proof.
  assert (∀ a l, foldl join a l = join a (foldl join [] l)) as Hj.
  { intros a l0. revert a. induction l0 as [|y l0 IH]; intros a; cbn [foldl]; [by rewrite join_nil_r|]. rewrite IH, (IH (join [] y)).
    cbn [join]. by rewrite join_assoc. }
  unfold join_all. cbn [foldl join]. apply Hj.
Qed.

Definition hit_groups (hs : list Hit) : list Group := join_all (map (λ h : Hit, h.2.1) hs).

Lemma hit_groups_cons h hs : hit_groups (h :: hs) = join h.2.1 (hit_groups hs).
Proof. apply join_all_cons. Qed.

(** The hits carry the documents of [m], when [m] occurs only as a head. *)
Lemma merged_hits m k rem :
  Forall (λ rs, match rs with c :: tl => m ∉ map fst tl | [] => True end) rem →
  hit_groups (hits m k rem) = merged rem m.
Proof.
  intros Hr. revert k. induction Hr as [|rs rem Hrs Hr IH]; intros k; [done|]. rewrite merged_cons.
  destruct rs as [|c tl]; cbn [hits]; [apply IH|]. destruct (Z.eqb_spec c.1 m) as [<-|Hne].
  - rewrite hit_groups_cons, IH, groups_in_head. done.
  - rewrite IH, groups_in_cons_ne, groups_in_absent; done.
Qed.

(** ** The merge of the runs on disk *)

(** One pass over the readers of the hits: [pre] and [post] of each reader, [I]
    of the state and the hits to come. *)
Lemma fold_hits {D : Type} `{Posix D} {S : Type} (step : nat → S * list RunReader → result (S * list RunReader))
    (I : S → list Hit → Prop) (pre post : Hit → RunReader → Prop) hs s rd :
  (∀ h hs s rd r, I s (h :: hs) → rd !! h.1 = Some r → pre h r →
     ∃ s' r', step h.1 (s, rd) = Ok (s', <[h.1 := r']> rd) ∧ post h r' ∧ I s' hs) →
  StronglySorted lt (map fst hs) → Forall (λ h : Hit, ∃ r, rd !! h.1 = Some r ∧ pre h r) hs → I s hs →
  ∃ s' rd', fold_result step (map fst hs) (s, rd) = Ok (s', rd') ∧ I s' [] ∧ length rd' = length rd ∧
    Forall (λ h : Hit, ∃ r, rd' !! h.1 = Some r ∧ post h r) hs ∧ (∀ i, i ∉ map fst hs → rd' !! i = rd !! i).
Proof.
  intros Hstep. revert s rd. induction hs as [|h hs IH]; intros s rd Hs Hpre HI.
  { exists s, rd. by repeat split. }
  cbn [map] in Hs. apply StronglySorted_inv in Hs as [Hs Hlt]. apply Forall_cons in Hpre as [(r & Hr & Hp) Hpre].
  destruct (Hstep h hs s rd r HI Hr Hp) as (s1 & r1 & He & Hpost & HI1). cbn [map fold_result]. rewrite He, bind_Ok.
  assert (∀ h', h' ∈ hs → h.1 ≠ h'.1) as Hne.
  { intros h' Hin Heq. rewrite Forall_forall in Hlt. specialize (Hlt h'.1 (list_elem_of_fmap_2 fst hs h' Hin)). lia. }
  destruct (IH s1 (<[h.1 := r1]> rd)) as (s2 & rd2 & -> & HI2 & Hlen & Hps & Hfr); [done| |done|].
  { apply Forall_forall. intros h' Hin. rewrite Forall_forall in Hpre. rewrite list_lookup_insert_ne by (by apply Hne). by apply Hpre. }
  exists s2, rd2. split; [done|]. split; [done|]. split; [by rewrite Hlen, length_insert|]. split.
  - constructor; [|done]. exists r1. split; [|done]. rewrite Hfr.
    + apply list_lookup_insert_eq. by eapply lookup_lt_Some.
    + intros (h' & Heq & Hin)%list_elem_of_fmap. by apply (Hne h' Hin).
  - intros i [Hi1 Hi2]%not_elem_of_cons. rewrite Hfr by done. by apply list_lookup_insert_ne.
Qed.

Lemma gpos_elem_le gs (g : Group) : g ∈ gs → zlen g.2 ≤ zlen (gpos gs).
Proof.
  unfold gpos. induction 1 as [g gs|g h gs Hin IH]; cbn [map concat]; rewrite length_app; lia.
Qed.

Lemma small_groups gs : zlen (gpos gs) < 2 ^ 32 → Forall (λ g, zlen g.2 < 2 ^ 32) gs.
Proof. intros Hs. apply Forall_forall. intros g Hin. pose proof (gpos_elem_le gs g Hin). lia. Qed.

Lemma nonempty_groups_length gs : nonempty_groups gs → zlen gs ≤ zlen (gpos gs).
Proof.
  unfold gpos. induction 1 as [|g gs Hg Hgs IH]; cbn [map concat length]; [lia|]. rewrite length_app. destruct g as [d [|p ps]]; [done|].
  cbn [snd length]. lia.
Qed.

Section MergeSpec.
Context {D : Type} `{PosixLaws D} `{PriorityQueueOf HeapItem} (vocab : list bytes) (hp allow : bool).

(** Ids in the order of their strings. *)
Definition id_lt (a b : Z) : Prop := term_lt (vocab_at vocab a) (vocab_at vocab b).

Record wf_run (rs : Run) : Prop := {
  wf_run_sorted : StronglySorted id_lt (map fst rs);
  wf_run_vocab : Forall (λ id, 0 ≤ id < zlen vocab) (map fst rs);
  wf_run_records : Forall wf_record (map (record hp) rs);
  wf_run_groups : Forall (λ c, nonempty_groups c.2) rs
}.

(** A reader before the records of [rs], the first of them loaded. *)
Definition holds (r : RunReader) (rs : Run) : Prop :=
  match rs with [] => exhausted_ r = true | c :: tl => loaded r (record hp c) (map (record hp) tl) end ∧ has_positions_ r = hp.

(** The reader of a hit, its positions unread; and with some of them read. *)
Definition fresh (m : Z) (h : Hit) (r : RunReader) : Prop := holds r ((m, h.2.1) :: h.2.2).
Definition parked (rem : list Z) (h : Hit) (r : RunReader) : Prop :=
  at_run r rem (map (record hp) h.2.2) ∧ exhausted_ r = false ∧ has_positions_ r = hp.
Definition started (h : Hit) (r : RunReader) : Prop := ∃ rem, parked rem h r.

Lemma fresh_started m h r : fresh m h r → started h r.
Proof. intros [[Hat Hx _ _ _ _] Hhp]. by eexists. Qed.

Lemma reader_at_Some rd i r : rd !! i = Some r → reader_at rd i = Ok r.
Proof. unfold reader_at. by intros ->. Qed.

Definition docs_total (hs : list Hit) : Z := foldr (λ h n, zlen h.2.1 + n) 0 hs.
Definition pos_total_of (hs : list Hit) : Z := if hp then zlen (gpos (hit_groups hs)) else 0.

Lemma docs_total_bounds hs :
  Forall (λ h : Hit, nonempty_groups h.2.1) hs → 0 ≤ docs_total hs ≤ zlen (gpos (hit_groups hs)) ∧ zlen (hit_groups hs) ≤ docs_total hs.
Proof.
  induction 1 as [|h hs Hh Hhs IH]; [cbn; lia|]. cbn [docs_total foldr]. rewrite hit_groups_cons, gpos_join, length_app.
  pose proof (nonempty_groups_length _ Hh). pose proof (join_length h.2.1 (hit_groups hs)). fold (docs_total hs). lia.
Qed.

Lemma fresh_sizes m h r : fresh m h r →
  zlen (tp_docids (current_ r)) = zlen h.2.1 ∧ pos_count_ r = if hp then zlen (gpos h.2.1) else 0.
Proof.
  intros [[_ _ _ Hd _ Hc] _]. rewrite Hd, Hc. cbn. unfold gdocs. rewrite length_map. by destruct hp.
Qed.

Lemma id_lt_ne a b : id_lt a b → vocab_at vocab a ≠ vocab_at vocab b.
Proof. unfold id_lt. intros Hlt Heq. rewrite Heq in Hlt. by apply (irreflexivity term_lt (vocab_at vocab b)). Qed.

Lemma HeapGreater_false a b :
  HeapGreater vocab a b = false ↔ id_lt (term_id a) (term_id b) ∨
    vocab_at vocab (term_id a) = vocab_at vocab (term_id b) ∧ (run a ≤ run b)%nat.
Proof.
  unfold HeapGreater, id_lt. destruct (decide (vocab_at vocab (term_id a) ≠ vocab_at vocab (term_id b))) as [Hne|He].
  - rewrite term_ltb_false. split; [|intros [Hlt|[? _]]; [|done]].
    + destruct (term_trichotomy (vocab_at vocab (term_id a)) (vocab_at vocab (term_id b))) as [?|[?|?]]; tauto.
    + intros Hgt. by apply (irreflexivity term_lt (vocab_at vocab (term_id a))), (term_lt_trans _ (vocab_at vocab (term_id b))).
  - apply dec_stable in He. rewrite Nat.ltb_ge. split; [tauto|intros [Hlt|[_ ?]]; [|done]].
    rewrite He in Hlt. by apply (irreflexivity term_lt) in Hlt.
Qed.

Lemma HeapGreater_strict_weak : strict_weak (HeapGreater vocab).
Proof.
  split.
  - intros a b Hab. apply HeapGreater_false. apply not_false_iff_true in Hab. rewrite HeapGreater_false in Hab. unfold id_lt in *.
    destruct (term_trichotomy (vocab_at vocab (term_id a)) (vocab_at vocab (term_id b))) as [?|[He|?]]; [tauto| |tauto].
    right. split; [done|]. destruct (le_lt_dec (run a) (run b)); [tauto|lia].
  - intros a b c Hab Hbc. rewrite HeapGreater_false in *. unfold id_lt in *.
    destruct Hab as [Hab|[Hab ?]], Hbc as [Hbc|[Hbc ?]].
    + left. by eapply term_lt_trans.
    + left. by rewrite <- Hbc.
    + left. by rewrite Hab.
    + right. split; [congruence|lia].
Qed.

(** What a pop of a heap that holds [l] yields. *)
Lemma pop_spec heap l :
  queue_elems heap ≡ₚ l →
  match queue_pop (HeapGreater vocab) heap with
  | None => l = []
  | Some (a, rest) => a ∈ l ∧ l ≡ₚ a :: queue_elems rest ∧ ∀ b, b ∈ l → HeapGreater vocab a b = false
  end.
Proof.
  intros Hq. pose proof (queue_pop_spec (HeapGreater vocab) heap _ (strict_weak_everywhere _ _ HeapGreater_strict_weak) (Forall_top _)) as Hp. destruct (queue_pop _ heap) as [[a rest]|].
  - destruct Hp as [Hp Hmin]. rewrite Hq in Hp. split; [rewrite Hp; by left|]. split; [done|]. intros b Hb. rewrite Hp in Hb.
    apply elem_of_cons in Hb as [->|Hb]; [|by rewrite Forall_forall in Hmin; apply Hmin].
    unfold HeapGreater. rewrite decide_False by tauto. apply Nat.ltb_irrefl.
  - rewrite Hp in Hq. by apply Permutation_nil in Hq.
Qed.

(** The runs of [m] leave the heap in run order. *)
Lemma gather_spec m hs oth fuel rd heap mt td tp :
  (length hs ≤ fuel)%nat → queue_elems heap ≡ₚ map (λ h : Hit, mkHeapItem m h.1) hs ++ oth →
  StronglySorted lt (map fst hs) → Forall (λ b, id_lt m (term_id b)) oth →
  Forall (λ h : Hit, ∃ r, rd !! h.1 = Some r ∧ fresh m h r) hs → Forall (λ h : Hit, nonempty_groups h.2.1) hs →
  0 ≤ td → 0 ≤ tp → td + zlen (gpos (hit_groups hs)) < 2 ^ 64 → tp + zlen (gpos (hit_groups hs)) < 2 ^ 64 →
  ∃ heap', gather vocab fuel rd (vocab_at vocab m) heap mt td tp =
      Ok (mt ++ map fst hs, td + docs_total hs, tp + pos_total_of hs, heap') ∧ queue_elems heap' ≡ₚ oth.
Proof.
  revert fuel heap mt td tp. induction hs as [|h hs IH]; intros fuel heap mt td tp Hfuel Hq Hs Ho Hf Hg Htd Htp Hbd Hbp;
    pose proof (pop_spec _ _ Hq) as Hp.
  - exists heap. split; [|done]. cbn [docs_total foldr map]. replace (tp + _) with tp by (unfold pos_total_of; destruct hp; cbn; lia).
    rewrite app_nil_r, Z.add_0_r. destruct fuel; cbn [gather]; destruct (queue_pop _ heap) as [[a rest]|]; try done;
      destruct Hp as (Ha & _); cbn in Ha; rewrite Forall_forall in Ho; apply Ho in Ha; apply id_lt_ne in Ha; by rewrite decide_False by (intros Heq; by rewrite Heq in Ha).
  - destruct fuel as [|fuel]; cbn [length] in Hfuel; [lia|]. cbn [gather]. destruct (queue_pop _ heap) as [[a rest]|]; [|done].
    destruct Hp as (Ha & Hperm & Hmin). cbn [map] in Hs, Hperm, Ha. apply StronglySorted_inv in Hs as [Hs Hlt].
    assert (a = mkHeapItem m h.1) as ->.
    { specialize (Hmin (mkHeapItem m h.1)). cbn [map app] in Hmin, Ha. specialize (Hmin ltac:(by left)). unfold HeapGreater in Hmin.
      cbn [term_id run] in Hmin. apply elem_of_cons in Ha as [->|Ha]; [done|]. apply elem_of_app in Ha as [Ha|Ha].
      - apply list_elem_of_fmap in Ha as (h' & -> & Hin). cbn [term_id run] in Hmin. rewrite decide_False in Hmin by tauto.
        rewrite Forall_forall in Hlt. specialize (Hlt _ (list_elem_of_fmap_2 fst hs h' Hin)). apply Nat.ltb_ge in Hmin. lia.
      - rewrite Forall_forall in Ho. apply Ho in Ha. unfold id_lt in Ha. rewrite decide_True in Hmin.
        + unfold term_lt in Ha. by rewrite Ha in Hmin.
        + intros Heq. by apply (id_lt_ne m (term_id a)). }
    cbn [term_id run app] in *. rewrite decide_True by done. apply Permutation_cons_inv in Hperm.
    apply Forall_cons in Hf as [(r & Hr & Hfr) Hf]. apply Forall_cons in Hg as [Hgh Hg].
    rewrite (reader_at_Some _ _ _ Hr), bind_Ok. destruct (fresh_sizes _ _ _ Hfr) as [-> ->].
    rewrite hit_groups_cons, gpos_join, length_app in Hbd, Hbp. pose proof (nonempty_groups_length _ Hgh).
    destruct (docs_total_bounds hs Hg) as [Hdt _]. rewrite !u64_small by (unfold is_u64; destruct hp; lia).
    destruct (IH fuel rest (mt ++ [h.1]) (td + zlen h.2.1) (tp + (if hp then zlen (gpos h.2.1) else 0))) as (q & -> & Hq'); try done; try (destruct hp; lia).
    exists q. split; [|done]. rewrite <- app_assoc. cbn [map app docs_total foldr]. fold (docs_total hs).
    replace (pos_total_of (h :: hs)) with ((if hp then zlen (gpos h.2.1) else 0) + pos_total_of hs)
      by (unfold pos_total_of; rewrite hit_groups_cons, gpos_join, length_app; destruct hp; lia).
    by rewrite !Z.add_assoc.
Qed.

(** *** One term *)

(** The state of a pass that joins the documents of the hits. *)
Definition joining (flat : list Group → list Z) (m : Z) (merged : TermPostings) (hs : list Hit) (all : list Group) : Prop :=
  ∃ acc, merged = mkTermPostings (vocab_at vocab m) (gdocs acc) (gfreqs acc) (flat acc) None 0 ∧ join acc (hit_groups hs) = all.

Lemma joining_small acc h hs all :
  join acc (hit_groups (h :: hs)) = all → zlen (gpos all) < 2 ^ 32 → Forall (λ g, zlen g.2 < 2 ^ 32) (join acc h.2.1).
Proof.
  intros <- Hs. apply small_groups. rewrite hit_groups_cons, <- join_assoc, gpos_join, length_app in Hs. lia.
Qed.

Lemma fresh_current m h r : fresh m h r → ∃ t f p n, current_ r = mkTermPostings t (gdocs h.2.1) (gfreqs h.2.1) f p n.
Proof.
  intros [[_ _ _ Hd Hf _] _]. destruct (current_ r) as [t d f fl p n]. cbn in Hd, Hf. subst d f. by eexists _, _, _, _.
Qed.

Lemma materialize_hit m h r :
  fresh m h r →
  ∃ r', (if hp then materialize_positions r else Ok r) = Ok r' ∧ started h r' ∧
    ∃ t f p n, current_ r' = mkTermPostings t (gdocs h.2.1) (gfreqs h.2.1) f p n ∧ (hp = true → f = gpos h.2.1).
Proof.
  intros Hfresh. pose proof (fresh_started _ _ _ Hfresh) as Hst. destruct (fresh_current _ _ _ Hfresh) as (t & f & p & n & Hcur).
  assert (hp = true ∨ hp = false) as [E|E] by (destruct hp; tauto); rewrite E.
  - destruct Hfresh as [[Hat Hx Hid Hd Hfq Hc] Hhp]. destruct (materialize_spec r _ _ Hat) as (r' & Hm & Hat' & Hx' & _ & Hp' & Hd' & Hf' & Hfl & _).
    exists r'. split; [done|]. split; [exists []; split; [exact Hat'|split; congruence]|].
    destruct (current_ r') as [t' d f' fl p' n']. cbn in Hd', Hf', Hfl. rewrite Hcur in Hd', Hf'. cbn in Hd', Hf'. subst d f'.
    exists t', fl, p', n'. split; [done|]. intros _. by rewrite Hfl, Hhp, E.
  - exists r. split; [done|]. split; [done|]. by exists t, f, p, n.
Qed.

(** Coalescing every hit: with their positions, or parked before them. *)
Lemma coalesce_spec m hs rd (stream : bool) :
  StronglySorted lt (map fst hs) → Forall (λ h : Hit, ∃ r, rd !! h.1 = Some r ∧ fresh m h r) hs →
  zlen (gpos (hit_groups hs)) < 2 ^ 32 →
  ∃ rd', fold_result (coalesce hp stream) (map fst hs) (mkTermPostings (vocab_at vocab m) [] [] [] None 0, rd) =
      Ok (if stream then mkTermPostings (vocab_at vocab m) (gdocs (hit_groups hs)) (gfreqs (hit_groups hs)) [] None 0
          else posting hp (vocab_at vocab m) (hit_groups hs), rd') ∧
    length rd' = length rd ∧
    Forall (λ h : Hit, ∃ r, rd' !! h.1 = Some r ∧ if stream then fresh m h r else started h r) hs ∧
    (∀ i, i ∉ map fst hs → rd' !! i = rd !! i).
Proof.
  intros Hs Hf Hsm. set (all := hit_groups hs) in *. set (flat := λ gs, if stream then [] else if hp then gpos gs else []).
  destruct (fold_hits (coalesce hp stream) (λ merged hs, joining flat m merged hs all) (fresh m)
              (λ h r, if stream then fresh m h r else started h r) hs (mkTermPostings (vocab_at vocab m) [] [] [] None 0) rd)
    as (s & rd' & -> & (acc & -> & Hacc) & Hlen & Hpost & Hfr); [|done|done| |].
  - intros h hs' s rd0 r (acc & -> & Hacc) Hr Hfresh. pose proof (joining_small _ _ _ _ Hacc Hsm) as Hj.
    rewrite hit_groups_cons, <- join_assoc in Hacc. unfold coalesce. rewrite (reader_at_Some _ _ _ Hr), bind_Ok. destruct stream.
    + destruct (fresh_current _ _ _ Hfresh) as (t & f & p & n & ->). rewrite ConcatDocsFreqs_join by done.
      eexists _, r. rewrite list_insert_id by done. split; [done|]. split; [done|]. by exists (join acc h.2.1).
    + destruct (materialize_hit _ _ _ Hfresh) as (r' & -> & Hst & t & f & p & n & Hcur & Hflat).
      rewrite bind_Ok, Hcur. change (mkTermPostings (vocab_at vocab m) (gdocs acc) (gfreqs acc) (flat acc) None 0) with (posting hp (vocab_at vocab m) acc).
      rewrite Concat_join by done. rewrite bind_Ok. eexists _, r'. split; [done|]. split; [done|]. by exists (join acc h.2.1).
  - exists []. split; [unfold flat; by destruct stream, hp|done].
  - unfold hit_groups in Hacc at 1. cbn in Hacc. unfold join_all in Hacc. cbn in Hacc. rewrite join_nil_r in Hacc. rewrite Hacc.
    exists rd'. split; [|done]. unfold flat. by destruct stream.
Qed.

(** The slim fallback appends the positions of the parked runs. *)
Lemma append_positions_spec m hs rd docs freqs :
  hp = true → StronglySorted lt (map fst hs) → Forall (λ h : Hit, ∃ r, rd !! h.1 = Some r ∧ fresh m h r) hs →
  ∃ rd', fold_result append_positions (map fst hs) (mkTermPostings (vocab_at vocab m) docs freqs [] None 0, rd) =
      Ok (mkTermPostings (vocab_at vocab m) docs freqs (gpos (hit_groups hs)) None 0, rd') ∧
    length rd' = length rd ∧ Forall (λ h : Hit, ∃ r, rd' !! h.1 = Some r ∧ started h r) hs ∧
    (∀ i, i ∉ map fst hs → rd' !! i = rd !! i).
Proof.
  intros E Hs Hf. set (all := gpos (hit_groups hs)).
  destruct (fold_hits append_positions
              (λ merged hs, ∃ flat, merged = mkTermPostings (vocab_at vocab m) docs freqs flat None 0 ∧ flat ++ gpos (hit_groups hs) = all)
              (fresh m) started hs (mkTermPostings (vocab_at vocab m) docs freqs [] None 0) rd)
    as (s & rd' & -> & (flat & -> & Hall) & Hlen & Hpost & Hfr); [|done|done|by exists []|].
  - intros h hs' s rd0 r (flat & -> & Hall) Hr Hfresh. unfold append_positions. rewrite (reader_at_Some _ _ _ Hr), bind_Ok.
    destruct (materialize_hit _ _ _ Hfresh) as (r' & Hm & Hst & t & f & p & n & Hcur & Hflat). rewrite E in Hm. rewrite Hm, bind_Ok, Hcur.
    rewrite (Hflat E). cbn. eexists _, r'. split; [done|]. split; [done|]. exists (flat ++ gpos h.2.1). split; [done|].
    by rewrite <- app_assoc, <- gpos_join, <- hit_groups_cons.
  - cbn in Hall. rewrite app_nil_r in Hall. rewrite Hall. by exists rd'.
Qed.

(** The pump yields the positions of the hits in run order. *)
Lemma pump_runs_spec m hs rd got :
  hp = true → StronglySorted lt (map fst hs) → Forall (λ h : Hit, ∃ r, rd !! h.1 = Some r ∧ fresh m h r) hs →
  ∃ rd', pump_runs (map fst hs) rd got = (got ++ gpos (hit_groups hs), Ok tt, rd') ∧
    length rd' = length rd ∧ Forall (λ h : Hit, ∃ r, rd' !! h.1 = Some r ∧ started h r) hs ∧
    (∀ i, i ∉ map fst hs → rd' !! i = rd !! i).
Proof.
  intros E. revert rd got. induction hs as [|h hs IH]; intros rd got Hs Hf.
  { exists rd. rewrite app_nil_r. by repeat split. }
  cbn [map] in Hs. apply StronglySorted_inv in Hs as [Hs Hlt]. apply Forall_cons in Hf as [(r & Hr & Hfresh) Hf].
  cbn [map pump_runs]. rewrite Hr. destruct Hfresh as [[Hat Hx Hid Hd Hfq Hc] Hhp]. unfold record at 1, posting in Hat. cbn [snd tp_positions_flat] in Hat. rewrite E in Hat.
  rewrite (ar_rem _ _ _ Hat).
  rewrite <- (app_nil_r (gpos h.2.1)) in Hat.
  destruct (stream_spec _ _ _ _ Hat) as (r' & -> & Hat' & Hx' & _ & Hp' & _ & _).
  assert (∀ h', h' ∈ hs → h.1 ≠ h'.1) as Hne.
  { intros h' Hin Heq. rewrite Forall_forall in Hlt. specialize (Hlt h'.1 (list_elem_of_fmap_2 fst hs h' Hin)). lia. }
  destruct (IH (<[h.1 := r']> rd) (got ++ gpos h.2.1) Hs) as (rd' & -> & Hlen & Hst & Hfr).
  { apply Forall_forall. intros h' Hin. rewrite Forall_forall in Hf. rewrite list_lookup_insert_ne by (by apply Hne). by apply Hf. }
  exists rd'. split; [by rewrite hit_groups_cons, gpos_join, app_assoc|]. split; [by rewrite Hlen, length_insert|]. split.
  - constructor; [|done]. exists r'. split; [rewrite Hfr|].
    + apply list_lookup_insert_eq. by eapply lookup_lt_Some.
    + intros (h' & Heq & Hin)%list_elem_of_fmap. by apply (Hne h' Hin).
    + exists []. split; [rewrite E; exact Hat'|]. split; congruence.
  - intros i [Hi1 Hi2]%not_elem_of_cons. rewrite Hfr by done. by apply list_lookup_insert_ne.
Qed.

(** A term merged: what the callback receives, and the readers past its records. *)
Lemma merge_term_spec m hs oth top rd heap :
  term_id top = m → (length hs ≤ length rd)%nat →
  queue_elems heap ≡ₚ map (λ h : Hit, mkHeapItem m h.1) hs ++ oth → StronglySorted lt (map fst hs) →
  Forall (λ b, id_lt m (term_id b)) oth →
  Forall (λ h : Hit, ∃ r, rd !! h.1 = Some r ∧ fresh m h r) hs → Forall (λ h : Hit, nonempty_groups h.2.1) hs →
  zlen (gpos (hit_groups hs)) < 2 ^ 32 →
  ∃ rd' heap', merge_term vocab hp allow top rd heap =
      Ok (emitted allow hp (vocab_at vocab m) (hit_groups hs), Ok tt, map fst hs, rd', heap') ∧
    queue_elems heap' ≡ₚ oth ∧ length rd' = length rd ∧
    Forall (λ h : Hit, ∃ r, rd' !! h.1 = Some r ∧ started h r) hs ∧ (∀ i, i ∉ map fst hs → rd' !! i = rd !! i).
Proof.
  intros <- Hlen Hq Hs Ho Hf Hg Hsm. unfold merge_term.
  destruct (gather_spec _ hs oth (length rd) rd heap [] 0 0 Hlen Hq Hs Ho Hf Hg) as (heap' & -> & Hq'); [lia..|].
  rewrite bind_Ok. cbn [app]. rewrite !Z.add_0_l. set (stream := allow && _).
  destruct (coalesce_spec _ hs rd stream Hs Hf Hsm) as (rd1 & -> & Hlen1 & Hf1 & Hfr1). rewrite bind_Ok.
  destruct (docs_total_bounds hs Hg) as [Hdt Hdl]. destruct stream eqn:Hstream; cbn [andb].
  - unfold stream in Hstream. apply andb_prop in Hstream as [Ha Hstream]. unfold ShouldStreamPositions in Hstream.
    apply andb_prop in Hstream as [Hstream Hdocs]. apply andb_prop in Hstream as [E Hpos]. cbn [tp_docids].
    unfold emitted, ShouldStreamPositions. unfold gdocs at 1. rewrite length_map, Ha, E. unfold pos_total_of in *. rewrite E in *. rewrite Hpos. cbn [andb].
    destruct (Z.ltb_spec (zlen (hit_groups hs)) kSlimDfThreshold) as [Hlt|Hge].
    + rewrite (proj2 (Z.leb_gt _ _) Hlt). destruct (append_positions_spec _ hs rd1 (gdocs (hit_groups hs)) (gfreqs (hit_groups hs)) E Hs Hf1) as (rd2 & -> & Hlen2 & Hf2 & Hfr2).
      rewrite bind_Ok. exists rd2, heap'. unfold posting. split; [done|]. split; [done|]. split; [congruence|]. split; [done|].
      intros i Hi. by rewrite Hfr2, Hfr1.
    + rewrite (proj2 (Z.leb_le _ _) Hge). destruct (pump_runs_spec _ hs rd1 [] E Hs Hf1) as (rd2 & -> & Hlen2 & Hf2 & Hfr2).
      exists rd2, heap'. cbn [app]. unfold zero_filled. rewrite Nat2Z.id, Nat.sub_diag. cbn [replicate]. rewrite app_nil_r.
      split; [done|]. split; [done|]. split; [congruence|]. split; [done|]. intros i Hi. by rewrite Hfr2, Hfr1.
  - exists rd1, heap'. split; [|done]. unfold emitted. destruct (allow && ShouldStreamPositions (zlen (hit_groups hs)) _ hp) eqn:Hst; [|done].
    exfalso. apply not_true_iff_false in Hstream. apply Hstream. unfold stream. revert Hst. unfold ShouldStreamPositions, pos_total_of.
    rewrite !andb_true_iff, !negb_true_iff, !Z.eqb_neq, !Z.leb_le. intros (-> & (Hhp & Hp) & Hd). rewrite Hhp. repeat split; lia.
Qed.

(** *** The next records *)

Lemma push_head_spec r ri rs heap :
  holds r rs → Forall (λ id, 0 ≤ id < zlen vocab) (map fst rs) →
  ∃ heap', push_head vocab r ri heap = Ok heap' ∧
    queue_elems heap' ≡ₚ match rs with c :: _ => [mkHeapItem c.1 ri] | [] => [] end ++ queue_elems heap.
Proof.
  intros [Hr _] Hv. unfold push_head. destruct rs as [|c tl]; [rewrite Hr; by exists heap|].
  apply Forall_cons in Hv as [Hc _]. rewrite (ld_live _ _ _ Hr), (ld_id _ _ _ Hr). cbn [record fst].
  rewrite bind_reject_false by (apply Z.leb_gt; lia). eexists. split; [done|]. apply queue_push_spec.
Qed.

Lemma advance_runs_spec hs rd heap :
  StronglySorted lt (map fst hs) → Forall (λ h : Hit, ∃ r, rd !! h.1 = Some r ∧ started h r) hs →
  Forall (λ h : Hit, Forall (λ id, 0 ≤ id < zlen vocab) (map fst h.2.2)) hs →
  ∃ heap' rd', fold_result (advance_run vocab) (map fst hs) (heap, rd) = Ok (heap', rd') ∧
    queue_elems heap' ≡ₚ queue_elems heap ++ concat (map new_head hs) ∧ length rd' = length rd ∧
    Forall (λ h : Hit, ∃ r, rd' !! h.1 = Some r ∧ holds r h.2.2) hs ∧ (∀ i, i ∉ map fst hs → rd' !! i = rd !! i).
Proof.
  intros Hs Hf Hv. set (all := queue_elems heap ++ concat (map new_head hs)).
  destruct (fold_hits (advance_run vocab)
              (λ q hs, queue_elems q ++ concat (map new_head hs) ≡ₚ all ∧ Forall (λ h : Hit, Forall (λ id, 0 ≤ id < zlen vocab) (map fst h.2.2)) hs)
              started (λ h r, holds r h.2.2) hs heap rd) as (heap' & rd' & -> & [Hq _] & Hlen & Hpost & Hfr); [|done|done|done|].
  - intros h hs' q rd0 r [Hq [Hvh Hv']%Forall_cons] Hr (rem & Hat & Hx & Hhp). unfold advance_run. rewrite (reader_at_Some _ _ _ Hr), bind_Ok.
    destruct (advance_spec _ _ _ Hat Hx) as (r' & -> & Hp' & _ & Hr'). rewrite bind_Ok.
    assert (holds r' h.2.2) as Hh by (split; [by destruct h.2.2|congruence]).
    destruct (push_head_spec _ h.1 _ q Hh Hvh) as (q' & -> & Hq'). rewrite bind_Ok. exists q', r'. split; [done|]. split; [done|].
    split; [|done]. rewrite Hq', <- Hq. cbn [map concat]. unfold new_head at 2. rewrite (Permutation_app_comm _ (queue_elems q)). by rewrite <- app_assoc.
  - exists heap', rd'. cbn in Hq. rewrite app_nil_r in Hq. done.
Qed.

(** *** All terms *)

Definition ids_of (rem : list Run) : list Z := concat (map (map fst) rem).

Lemma ids_of_elem rem id : id ∈ ids_of rem ↔ ∃ rs, rs ∈ rem ∧ id ∈ map fst rs.
Proof.
  unfold ids_of. induction rem as [|rs rem IH]; cbn [map concat].
  { split; [by intros ?%elem_of_nil|intros (rs & Hin & _); by apply elem_of_nil in Hin]. }
  rewrite elem_of_app, IH. split.
  - intros [Hid|(rs' & Hin & Hid)]; [exists rs; split; [by left|done]|exists rs'; split; [by right|done]].
  - intros (rs' & [->|Hin]%elem_of_cons & Hid); [by left|right; by exists rs'].
Qed.

(** The heads are not before [m]. *)
Definition from_id (m : Z) (rs : Run) : Prop := match rs with c :: _ => c.1 = m ∨ id_lt m c.1 | [] => True end.

Lemma id_lt_trans a b c : id_lt a b → id_lt b c → id_lt a c.
Proof. apply term_lt_trans. Qed.

Lemma run_tail_gt c tl id : wf_run (c :: tl) → id ∈ map fst tl → id_lt c.1 id.
Proof. intros [Hs _ _ _] Hin. cbn [map] in Hs. apply StronglySorted_inv in Hs as [_ Hs]. rewrite Forall_forall in Hs. by apply Hs. Qed.

Lemma wf_run_tail c tl : wf_run (c :: tl) → wf_run tl.
Proof.
  intros [Hs Hv Hr Hg]. cbn [map] in Hs, Hv, Hr. apply StronglySorted_inv in Hs as [Hs _]. apply Forall_cons in Hv as [_ Hv].
  apply Forall_cons in Hr as [_ Hr]. apply Forall_cons in Hg as [_ Hg]. by split.
Qed.

Lemma wf_run_pop m rs : wf_run rs → wf_run (pop_head m rs).
Proof. destruct rs as [|c tl]; [done|]. cbn [pop_head]. destruct (_ =? _); [apply wf_run_tail|done]. Qed.

Lemma pop_head_ids m rs id :
  wf_run rs → from_id m rs → (id ∈ map fst (pop_head m rs) → id_lt m id) ∧ (id ≠ m → id ∈ map fst rs → id ∈ map fst (pop_head m rs)).
Proof.
  intros Hwf Hfrom. destruct rs as [|c tl]; [split; [by intros ?%elem_of_nil|done]|]. cbn [pop_head]. destruct (Z.eqb_spec c.1 m) as [<-|Hne].
  - split; [by apply run_tail_gt|]. intros Hid Hin. cbn [map] in Hin. by apply elem_of_cons in Hin as [->|Hin].
  - split; [|done]. destruct Hfrom as [?|Hlt]; [done|]. cbn [map]. intros [->|Hin]%elem_of_cons; [done|].
    eapply id_lt_trans; [done|]. by eapply run_tail_gt.
Qed.

Lemma pop_head_sub m rs id : id ∈ map fst (pop_head m rs) → id ∈ map fst rs.
Proof. destruct rs as [|c tl]; [done|]. cbn [pop_head]. destruct (_ =? _); [|done]. cbn [map]. by right. Qed.

Lemma pop_ids m rem id :
  Forall wf_run rem → Forall (from_id m) rem →
  (id ∈ ids_of (map (pop_head m) rem) → id_lt m id) ∧ (id ≠ m → id ∈ ids_of (map (pop_head m) rem) ↔ id ∈ ids_of rem).
Proof.
  rewrite !Forall_forall. intros Hwf Hfrom. split; [|intros Hne; split].
  - intros (rs & (rs0 & -> & Hin)%list_elem_of_fmap & Hid)%ids_of_elem. by apply (pop_head_ids m rs0); [apply Hwf|apply Hfrom|].
  - intros (rs & (rs0 & -> & Hin)%list_elem_of_fmap & Hid)%ids_of_elem. apply ids_of_elem. exists rs0. split; [done|by eapply pop_head_sub].
  - intros (rs & Hin & Hid)%ids_of_elem. apply ids_of_elem. exists (pop_head m rs).
    split; [by apply list_elem_of_fmap_2|]. by apply (pop_head_ids m rs); [apply Hwf|apply Hfrom|..].
Qed.

Lemma merged_pop m rem id : id ≠ m → merged (map (pop_head m) rem) id = merged rem id.
Proof.
  intros Hne. induction rem as [|rs rem IH]; [done|]. cbn [map]. rewrite !merged_cons, IH. f_equal. destruct rs as [|c tl]; [done|].
  cbn [pop_head]. destruct (Z.eqb_spec c.1 m) as [He|]; [|done]. by rewrite groups_in_cons_ne by congruence.
Qed.

Lemma merged_absent rem id : id ∉ ids_of rem → merged rem id = [].
Proof.
  induction rem as [|rs rem IH]; [done|]. unfold ids_of. cbn [map concat]. rewrite not_elem_of_app. intros [Hrs Hrem].
  by rewrite merged_cons, groups_in_absent, IH.
Qed.

Lemma pop_length m k rem : (length (concat (map (pop_head m) rem)) + length (hits m k rem) = length (concat rem))%nat.
Proof.
  revert k. induction rem as [|[|c tl] rem IH]; intros k; [done|apply IH|]. cbn [map concat pop_head hits]. rewrite !length_app.
  specialize (IH (S k)). destruct (_ =? _); cbn [length]; lia.
Qed.

Lemma hits_length m k rem : (length (hits m k rem) ≤ length rem)%nat.
Proof.
  revert k. induction rem as [|[|c tl] rem IH]; intros k; cbn [hits length]; [done|specialize (IH (S k)); lia|].
  specialize (IH (S k)). destruct (_ =? _); cbn [length]; lia.
Qed.

Lemma heads_elem b k rem : b ∈ heads k rem → ∃ c tl, (c :: tl) ∈ rem ∧ term_id b = c.1.
Proof.
  revert k. induction rem as [|[|c tl] rem IH]; intros k; cbn [heads].
  - by intros ?%elem_of_nil.
  - intros (c & tl & Hin & Hid)%IH. exists c, tl. split; [by right|done].
  - intros [->|Hb]%elem_of_cons; [exists c, tl; split; [by left|done]|]. apply IH in Hb as (c' & tl' & Hin & Hid). exists c', tl'. split; [by right|done].
Qed.

Lemma heads_in c tl k rem : (c :: tl) ∈ rem → ∃ i, mkHeapItem c.1 i ∈ heads k rem.
Proof.
  revert k. induction rem as [|rs rem IH]; intros k; [by intros ?%elem_of_nil|]. intros [<-|Hin]%elem_of_cons; cbn [heads].
  - exists k. by left.
  - destruct (IH (S k) Hin) as (i & Hi). exists i. destruct rs as [|c' tl']; [done|by right].
Qed.

Lemma others_elem b m k rem : b ∈ others m k rem → b ∈ heads k rem ∧ term_id b ≠ m.
Proof.
  revert k. induction rem as [|[|c tl] rem IH]; intros k; cbn [others heads]; [by intros ?%elem_of_nil|apply IH|].
  destruct (Z.eqb_spec c.1 m) as [He|Hne]; [intros Hb; destruct (IH (S k) Hb); split; [by right|done]|].
  intros [->|Hb]%elem_of_cons; [split; [by left|done]|]. destruct (IH (S k) Hb). split; [by right|done].
Qed.

Context (Hvocab : NoDup vocab).

Lemma vocab_at_inj a b : 0 ≤ a < zlen vocab → 0 ≤ b < zlen vocab → vocab_at vocab a = vocab_at vocab b → a = b.
Proof.
  intros Ha Hb He. unfold vocab_at in He. destruct (lookup_lt_is_Some_2 vocab (Z.to_nat a) ltac:(lia)) as [x Hx].
  destruct (lookup_lt_is_Some_2 vocab (Z.to_nat b) ltac:(lia)) as [y Hy]. rewrite (list_lookup_total_correct _ _ _ Hx) in He.
  rewrite (list_lookup_total_correct _ _ _ Hy) in He. subst y. pose proof (NoDup_lookup _ _ _ _ Hvocab Hx Hy). lia.
Qed.

(** The top of the heap has the least string of all heads. *)
Lemma least_head top rem :
  Forall wf_run rem → top ∈ heads 0 rem → (∀ b, b ∈ heads 0 rem → HeapGreater vocab top b = false) → Forall (from_id (term_id top)) rem.
Proof.
  intros Hwf Htop Hmin. rewrite Forall_forall in Hwf. apply Forall_forall. intros [|c tl] Hin; [done|]. cbn.
  assert (∀ c tl, (c :: tl) ∈ rem → 0 ≤ c.1 < zlen vocab) as Hv.
  { intros c' tl' Hin'. destruct (Hwf _ Hin') as [_ Hv _ _]. by apply Forall_cons in Hv as [Hv _]. }
  destruct (heads_in c tl 0 rem Hin) as (i & Hi). specialize (Hmin _ Hi). unfold HeapGreater in Hmin. cbn [term_id run] in Hmin.
  destruct (heads_elem _ _ _ Htop) as (c' & tl' & Hin' & Hid). rewrite Hid in *.
  destruct (decide (vocab_at vocab c'.1 ≠ vocab_at vocab c.1)) as [Hne|He].
  - right. apply term_ltb_false in Hmin. unfold id_lt. destruct (term_trichotomy (vocab_at vocab c'.1) (vocab_at vocab c.1)) as [?|[?|?]]; done.
  - left. apply dec_stable in He. symmetry. by apply vocab_at_inj; [by eapply Hv..|].
Qed.

Lemma hits_fresh m rd rem : Forall2 holds rd rem → Forall (λ h : Hit, ∃ r, rd !! h.1 = Some r ∧ fresh m h r) (hits m 0 rem).
Proof.
  intros Hf. apply Forall_forall. intros [i [gs tl]] Hin. apply hits_lookup in Hin as [_ Hl]. rewrite Nat.sub_0_r in Hl.
  destruct (Forall2_lookup_r _ _ _ _ _ Hf Hl) as (r & Hr & Hh). by exists r.
Qed.

Lemma holds_pop m rd rd' rem :
  Forall2 holds rd rem → length rd' = length rd →
  Forall (λ h : Hit, ∃ r, rd' !! h.1 = Some r ∧ holds r h.2.2) (hits m 0 rem) →
  (∀ i, i ∉ map fst (hits m 0 rem) → rd' !! i = rd !! i) → Forall2 holds rd' (map (pop_head m) rem).
Proof.
  intros Hf Hlen Hh Hfr. apply Forall2_same_length_lookup_2. { rewrite length_map, Hlen. by eapply Forall2_length. }
  intros i r rs Hr Hrs. apply list_lookup_fmap_Some in Hrs as (rs0 & -> & Hrs0).
  destruct (Forall2_lookup_r _ _ _ _ _ Hf Hrs0) as (r0 & Hr0 & Hold).
  assert (∀ c tl, rs0 = c :: tl → c.1 = m → holds r tl) as Hpop.
  { intros c tl -> Hc. pose proof (hits_complete m 0 rem i c tl Hrs0 Hc) as Hin. rewrite Forall_forall in Hh.
    destruct (Hh _ Hin) as (r' & Hr' & Hx). cbn in Hr', Hx. rewrite Hr in Hr'. by injection Hr' as <-. }
  assert ((∀ c tl, rs0 = c :: tl → c.1 ≠ m) → holds r rs0) as Hkeep.
  { intros Hne. assert (r = r0) as ->; [|done]. rewrite Hfr, Hr0 in Hr; [congruence|].
    intros ([j [gs tl]] & Hj & Hin)%list_elem_of_fmap. cbn in Hj. subst j. apply hits_lookup in Hin as [_ Hl]. rewrite Nat.sub_0_r, Hrs0 in Hl.
    injection Hl as ->. by eapply Hne. }
  destruct rs0 as [|c tl]; [by apply Hkeep|]. cbn [pop_head]. destruct (Z.eqb_spec c.1 m) as [Hc|Hc]; [by apply (Hpop c)|].
  apply Hkeep. by intros ? ? [= <- <-].
Qed.

Definition emitted_of (rem : list Run) (id : Z) : TermPostings := emitted allow hp (vocab_at vocab id) (merged rem id).

Lemma merge_loop_spec fuel rem rd heap out :
  (length (concat rem) < fuel)%nat → Forall2 holds rd rem → Forall wf_run rem →
  (∀ id, zlen (gpos (merged rem id)) < 2 ^ 32) → queue_elems heap ≡ₚ heads 0 rem →
  ∃ ids, merge_loop vocab hp fuel allow rd heap out = (out ++ map (emitted_of rem) ids, Ok tt) ∧
    StronglySorted id_lt ids ∧ ∀ id, id ∈ ids ↔ id ∈ ids_of rem.
Proof.
  revert rem rd heap out. induction fuel as [|fuel IH]; intros rem rd heap out Hfuel Hf Hwf Hsm Hq; [lia|].
  pose proof (pop_spec _ _ Hq) as Hp. cbn [merge_loop]. destruct (queue_pop _ heap) as [[top rest]|].
  2: { exists []. cbn [map]. rewrite app_nil_r. split; [done|]. split; [constructor|]. intros id. split; [by intros ?%elem_of_nil|].
       intros (rs & Hin & Hid)%ids_of_elem. destruct rs as [|c tl]; [done|]. destruct (heads_in c tl 0 rem Hin) as (i & Hi).
       rewrite Hp in Hi. by apply elem_of_nil in Hi. }
  destruct Hp as (Htop & _ & Hmin). set (m := term_id top). pose proof (least_head top rem Hwf Htop Hmin) as Hfrom. fold m in Hfrom.
  assert (Forall (λ rs, match rs with c :: tl => m ∉ map fst tl | [] => True end) rem) as Honce.
  { rewrite Forall_forall in Hwf, Hfrom |- *. intros [|c tl] Hin; [done|]. intros Hm. pose proof (run_tail_gt c tl m (Hwf _ Hin) Hm) as Hlt.
    destruct (Hfrom _ Hin) as [He|Hlt']; [rewrite He in Hlt; by apply (id_lt_ne m m)|].
    by apply (id_lt_ne m m); [eapply id_lt_trans|]. }
  assert (Forall (λ b, id_lt m (term_id b)) (others m 0 rem)) as Ho.
  { apply Forall_forall. intros b (Hb & Hne)%others_elem. destruct (heads_elem _ _ _ Hb) as (c & tl & Hin & Hid). rewrite Forall_forall in Hfrom.
    rewrite Hid in *. by destruct (Hfrom _ Hin). }
  assert (Forall (λ h : Hit, nonempty_groups h.2.1) (hits m 0 rem)) as Hg.
  { apply Forall_forall. intros [i [gs tl]] [_ Hl]%hits_lookup. apply list_elem_of_lookup_2 in Hl. rewrite Forall_forall in Hwf.
    destruct (Hwf _ Hl) as [_ _ _ Hg]. by apply Forall_cons in Hg as [Hg _]. }
  assert (Forall (λ h : Hit, Forall (λ id, 0 ≤ id < zlen vocab) (map fst h.2.2)) (hits m 0 rem)) as Hv.
  { apply Forall_forall. intros [i [gs tl]] [_ Hl]%hits_lookup. apply list_elem_of_lookup_2 in Hl. rewrite Forall_forall in Hwf.
    destruct (Hwf _ Hl) as [_ Hv _ _]. by apply Forall_cons in Hv as [_ Hv]. }
  pose proof (merged_hits m 0 rem Honce) as Hmh.
  destruct (merge_term_spec m (hits m 0 rem) (others m 0 rem) top rd heap) as (rd1 & heap1 & -> & Hq1 & Hlen1 & Hst & Hfr1); try done.
  { rewrite (Forall2_length _ _ _ Hf). apply hits_length. }
  { by rewrite Hq, heads_split. }
  { apply hits_sorted. }
  { by apply hits_fresh. }
  { by rewrite Hmh. }
  rewrite bind_Ok.
  destruct (advance_runs_spec (hits m 0 rem) rd1 heap1 (hits_sorted m 0 rem) Hst Hv) as (heap2 & rd2 & -> & Hq2 & Hlen2 & Hh2 & Hfr2).
  rewrite Hmh. destruct (IH (map (pop_head m) rem) rd2 heap2 (out ++ [emitted allow hp (vocab_at vocab m) (merged rem m)])) as (ids & -> & Hs & Hids).
  - pose proof (pop_length m 0 rem). assert (hits m 0 rem ≠ []); [|destruct (hits m 0 rem); [done|cbn [length] in *; lia]].
    rewrite (heads_split m) in Htop. intros Hnil. rewrite Hnil in Htop. cbn [map app] in Htop. by apply others_elem in Htop as [_ ?].
  - eapply holds_pop; [exact Hf|congruence|exact Hh2|]. intros i Hi. by rewrite Hfr2, Hfr1.
  - apply Forall_map. eapply Forall_impl; [exact Hwf|]. apply wf_run_pop.
  - intros id. destruct (decide (id = m)) as [->|Hne]; [|by rewrite merged_pop].
    rewrite merged_absent; [done|]. intros Hin. apply (proj1 (pop_ids m rem m Hwf Hfrom)) in Hin. by apply (id_lt_ne m m).
  - by rewrite Hq2, Hq1, heads_pop.
  - exists (m :: ids). rewrite <- app_assoc. cbn [map app]. split; [|split].
    + do 2 f_equal. f_equal. apply map_ext_in. intros id Hin%list_elem_of_In. unfold emitted_of. rewrite merged_pop; [done|].
      intros ->. apply Hids in Hin. apply (proj1 (pop_ids m rem m Hwf Hfrom)) in Hin. by apply (id_lt_ne m m).
    + constructor; [done|]. apply Forall_forall. intros id Hin%Hids. by apply (pop_ids m rem id Hwf Hfrom).
    + intros id. rewrite elem_of_cons. destruct (decide (id = m)) as [->|Hne].
      * split; [intros _|by left]. destruct (heads_elem _ _ _ Htop) as (c & tl & Hin & Hid). apply ids_of_elem. exists (c :: tl). split; [done|].
        cbn [map]. unfold m. rewrite Hid. by left.
      * rewrite <- (proj2 (pop_ids m rem id Hwf Hfrom) Hne), <- Hids. naive_solver.
Qed.

(** *** The runs of a directory *)

(** A closed file that holds the records of [rs]. *)
Record stored (run : D * string) (rs : Run) : Prop := {
  stored_rest : at_rest run.1;
  stored_bytes : file_bytes run.1 = run_bytes (map (record hp) rs);
  stored_small : zlen (run_bytes (map (record hp) rs)) < 2 ^ 63;
  stored_wf : wf_run rs
}.

Lemma heads_snoc k rem rs : heads k (rem ++ [rs]) = heads k rem ++ match rs with c :: _ => [mkHeapItem c.1 (k + length rem)] | [] => [] end.
Proof.
  revert k. induction rem as [|[|c tl] rem IH]; intros k; cbn [app heads length].
  - rewrite Nat.add_0_r. by destruct rs.
  - rewrite IH. by replace (S k + length rem)%nat with (k + S (length rem))%nat by lia.
  - rewrite IH. by replace (S k + length rem)%nat with (k + S (length rem))%nat by lia.
Qed.

Lemma run_bytes_length recs : (length recs ≤ length (run_bytes recs))%nat.
Proof.
  unfold run_bytes. induction recs as [|c recs IH]; [done|]. cbn [map concat length]. rewrite length_app. pose proof (record_bytes_length c). lia.
Qed.

Lemma open_runs_spec runs rem rd0 rem0 heap0 :
  Forall2 stored runs rem → Forall2 holds rd0 rem0 → queue_elems heap0 ≡ₚ heads 0 rem0 →
  (length (concat rem0) < merge_fuel rd0)%nat →
  ∃ heap rd, fold_result (open_run vocab hp) runs (heap0, rd0) = Ok (heap, rd) ∧ Forall2 holds rd (rem0 ++ rem) ∧
    queue_elems heap ≡ₚ heads 0 (rem0 ++ rem) ∧ (length (concat (rem0 ++ rem)) < merge_fuel rd)%nat.
Proof.
  intros Hst. revert rd0 rem0 heap0. induction Hst as [|run rs runs rem [Hrest Hb Hsz Hwf] Hst IH]; intros rd0 rem0 heap0 Hf Hq Hfu.
  { exists heap0, rd0. by rewrite app_nil_r. }
  destruct (reader_open_spec run.1 run.2 hp _ Hrest Hb Hsz (wf_run_records _ Hwf)) as (r & Ho & Hp & Hs & Hr).
  assert (holds r rs) as Hh by (split; [by destruct rs|done]).
  destruct (push_head_spec r (length rd0) rs heap0 Hh (wf_run_vocab _ Hwf)) as (heap1 & Hpush & Hq1).
  assert (open_run vocab hp run (heap0, rd0) = Ok (heap1, rd0 ++ [r])) as Hrun.
  { unfold open_run. by rewrite Ho, bind_Ok, Hpush, bind_Ok. }
  cbn [fold_result]. rewrite Hrun, bind_Ok.
  destruct (IH (rd0 ++ [r]) (rem0 ++ [rs]) heap1) as (heap & rd & -> & Hres).
  - apply Forall2_app; [done|]. by constructor.
  - rewrite Hq1, Hq, heads_snoc, Nat.add_0_l, (Forall2_length _ _ _ Hf). apply Permutation_app_comm.
  - unfold merge_fuel in *. rewrite foldr_app, concat_app, length_app. cbn [foldr concat]. rewrite app_nil_r.
    pose proof (run_bytes_length (map (record hp) rs)) as Hl. rewrite length_map in Hl. rewrite Hs.
    assert (∀ l n, foldr (λ (r : RunReader) n, Z.to_nat (file_size_ (rr_window r)) + n)%nat n l = (foldr (λ (r : RunReader) n, Z.to_nat (file_size_ (rr_window r)) + n)%nat 0%nat l + n)%nat) as Hadd.
    { intros l n. induction l as [|x l IHl]; cbn [foldr]; lia. }
    rewrite Hadd. lia.
  - exists heap, rd. by rewrite <- app_assoc in Hres.
Qed.

(** C10: the k-way merge of closed run files: every term of some run reaches the
    callback exactly once, in the order of the strings, with the documents of
    all runs joined in run order (a document cut by a spill is one document),
    its positions materialised or streamed. The merge ends without error. *)
Theorem MergeRuns_merges runs rem :
  Forall2 stored runs rem → (∀ id, zlen (gpos (merged rem id)) < 2 ^ 32) →
  ∃ ids, MergeRuns vocab hp runs allow = (map (emitted_of rem) ids, Ok tt) ∧
    StronglySorted id_lt ids ∧ ∀ id, id ∈ ids ↔ id ∈ ids_of rem.
Proof.
  intros Hst Hsm. unfold MergeRuns.
  destruct (open_runs_spec runs rem [] [] queue_empty Hst) as (heap & rd & -> & Hf & Hq & Hfu); [by apply Forall2_nil|by rewrite queue_empty_spec|apply Nat.lt_0_succ|].
  cbn [app] in *. apply (merge_loop_spec _ rem rd heap []); try done.
  clear -Hst. induction Hst as [|run rs runs rem [] Hst IH]; by constructor.
Qed.
End MergeSpec.

(** A queue that searches a list. *)
(** Two runs: the second term was cut by the spill, in the middle of document 5. *)
Definition example_vocab : list bytes := [[98]; [97]; [99]].
Definition example_runs : list Run := [[(1, [(3, [0; 4])]); (0, [(2, [7]); (5, [1])])]; [(0, [(5, [2; 9])]); (2, [(6, [0])])]].
Definition example_disks : list (FlakyDisk.disk * string) :=
  map (λ rs, (FlakyDisk.mkDisk (run_bytes (map (record true) rs)) 0, "run")) example_runs.

Example merge_example :
  MergeRuns (H0 := ListQueue.list_queue HeapItem) example_vocab true example_disks true =
    ([posting true [97] [(3, [0; 4])]; posting true [98] [(2, [7]); (5, [1; 2; 9])]; posting true [99] [(6, [0])]], Ok tt).
Proof. vm_compute. reflexivity. Qed.

Lemma MergeRuns_merges_witness :
  ∃ ids, MergeRuns (H0 := ListQueue.list_queue HeapItem) example_vocab true example_disks true =
      (map (emitted_of example_vocab true true example_runs) ids, Ok tt) ∧
    StronglySorted (id_lt example_vocab) ids ∧ ∀ id, id ∈ ids ↔ id ∈ ids_of example_runs.
Proof.
  apply (MergeRuns_merges (H1 := ListQueue.list_queue HeapItem)).
  - unfold example_vocab. rewrite !NoDup_cons. split_and!; [set_solver..|by apply NoDup_nil].
  - assert (∀ rs, rs ∈ example_runs → stored example_vocab true (FlakyDisk.mkDisk (run_bytes (map (record true) rs)) 0, "run"%string) rs) as Hst.
    { intros rs Hrs. split; [done|done| |].
      - repeat (apply elem_of_cons in Hrs as [->|Hrs]; [by vm_compute|]). by apply elem_of_nil in Hrs.
      - repeat (apply elem_of_cons in Hrs as [->|Hrs]; [split; cbn|]); [..|by apply elem_of_nil in Hrs].
        all: repeat constructor; cbn; try done; unfold is_u32; lia. }
    unfold example_disks. apply Forall2_fmap_l, Forall_Forall2_diag, Forall_forall. exact Hst.
  - intros id. unfold merged, groups_in, example_runs. cbn [foldl List.find fst].
    destruct (1 =? id), (0 =? id), (2 =? id); by vm_compute.
Defined.
