(* ===== verification/SpimiTermBuffer.v ===== *)
(** * SpimiTermBuffer: the in-memory accumulator of tokens.

    [writer/spimi_term_buffer.h] and [writer/spimi_term_buffer.cpp]. Tokens are
    appended to one chain of the arena per live term; a drain decodes the chains
    in the order of the vocabulary, into the callback or into a run file.

    A token that makes the arena throw is the outer [Err] of the operation; a
    latched status is the field [spill_status_]. The callback of a drain
    receives the terms of the returned list in order. A streamed term carries
    the positions its pump yields. [std::sort] and [std::stable_sort] are the
    class [StdSort]; the growth of the vector behind [slot_of_], whose capacity
    counts as resident memory, is the class [VectorGrowth]; the directory of the
    runs is the class [TempDir]. A run is a file with its path. *)

From stdpp Require Import gmap pretty.
From S2P Require Import Prelude StdAlgorithms Status Varint ByteIO FormatConstants TermKey SpillableByteBuffer LocalFile CompactPostingPool TermPostings SpillRunCodec RunMerge.

#[local] Open Scope Z_scope.

(** The capacity after [assign(n, 0)] on an empty vector, and after a
    [push_back] that makes the size [n] at a capacity. *)
Class VectorGrowth := { assigned_capacity : Z → Z; pushed_capacity : Z → Z → Z }.

(** [resolve_temp_dir], [temp_dir_available_bytes] while the runs are on disk,
    and the path of the next run. *)
Class TempDir (D : Type) := {
  resolve_temp_dir : string;
  temp_dir_available_bytes : string → list (D * string) → Z;
  MakeRunPath : string → list (D * string) → string
}.

Definition kNoChain : Z := 0xFFFFFFFF.
Definition kArenaSpillCap : Z := 0xE0000000.
Definition kStreamPositionsTokenThreshold : Z := 1 ≪ 16.

Record Term := mkTerm {
  head : Z;
  w : SliceWriter;
  ntok : Z;
  cur_docid : Z;
  level : Z;
  started : bool;
  sorted : bool
}.
Definition new_term : Term := mkTerm kNoChain (mkSliceWriter 0 0) 0 0 0 false true.

(** The pooled accumulators. *)
Record Accumulators := mkAccumulators {
  slot_of_ : list Z;
  slot_capacity_ : Z;
  slots_ : list Term;
  free_slots_ : list Z;
  touched_ids_ : list Z;
  live_term_count_ : Z;
  pool_ : CompactPostingPool
}.

(** [vocab_] is the caller's vector or [&owned_vocab_]. *)
Record Vocabulary := mkVocabulary {
  borrowed_ : option (list bytes);
  owned_vocab_ : list bytes;
  intern_ : gmap bytes Z;
  string_rank_ : list Z
}.
Definition vocab (v : Vocabulary) : list bytes := default (owned_vocab_ v) (borrowed_ v).

(** ** A token into its chain *)

Definition put_byte (b : Z) (tp : Term * CompactPostingPool) : result (Term * CompactPostingPool) :=
  let '(t, p) := tp in
  '(t, p) ← (if head t =? kNoChain then
               '(h, sw, lv, p) ← start_chain p;
               Ok (mkTerm h sw (ntok t) (cur_docid t) lv (started t) (sorted t), p)
             else Ok (t, p));
  '(sw, lv, p) ← append_byte (w t) (level t) b p;
  Ok (mkTerm (head t) sw (ntok t) (cur_docid t) lv (started t) (sorted t), p).

Definition put_varint (v : Z) (tp : Term * CompactPostingPool) : result (Term * CompactPostingPool) :=
  fold_result put_byte (encode_varint64 v) tp.

(** The entry of a token: [varint((pos << 1) | new_doc)], a new document followed
    by the zigzag delta. *)
Definition put_token (has_positions : bool) (docid pos : Z) (tp : Term * CompactPostingPool)
    : result (Term * CompactPostingPool) :=
  let '(t, p) := tp in
  let new_doc := negb (started t) || negb (cur_docid t =? docid) in
  let bit := if new_doc then 1 else 0 in
  let tagged := if has_positions then Z.lor (u64 (pos ≪ 1)) bit else bit in
  '(t, p) ← put_varint tagged (t, p);
  '(t, p) ← (if new_doc then
               let base := if started t then cur_docid t else 0 in
               let sorted' := if started t && (docid <? cur_docid t) then false else sorted t in
               let t := mkTerm (head t) (w t) (ntok t) (cur_docid t) (level t) (started t) sorted' in
               '(t, p) ← put_varint (zigzag_encode (docid - base)) (t, p);
               Ok (mkTerm (head t) (w t) (ntok t) docid (level t) true (sorted t), p)
             else Ok (t, p));
  Ok (mkTerm (head t) (w t) (u32 (ntok t + 1)) (cur_docid t) (level t) (started t) (sorted t), p).

(** ** The slots *)

(** [term_slot]: the slot of the term and whether it is new. *)
Definition term_slot (term_id : Z) (a : Accumulators) : result (nat * bool * Accumulators) :=
  match slot_of_ a !! Z.to_nat term_id with
  | None => Undef
  | Some enc =>
      if negb (enc =? 0) then Ok (Z.to_nat (enc - 1), false, a)
      else
        let '(slot, slots, free) :=
          match last (free_slots_ a) with
          | Some slot => (slot, slots_ a, removelast (free_slots_ a))
          | None => (u32 (zlen (slots_ a)), slots_ a ++ [new_term], free_slots_ a)
          end in
        Ok (Z.to_nat slot, true,
            mkAccumulators (<[Z.to_nat term_id := u32 (slot + 1)]> (slot_of_ a)) (slot_capacity_ a) slots free
              (touched_ids_ a) (live_term_count_ a) (pool_ a))
  end.

(** The first half of [accumulate]: the token is in the arena. *)
Definition append_token (has_positions : bool) (term_id docid pos : Z) (a : Accumulators) : result Accumulators :=
  '(slot, is_new, a) ← term_slot term_id a;
  let a := if (is_new : bool)
           then mkAccumulators (slot_of_ a) (slot_capacity_ a) (slots_ a) (free_slots_ a) (touched_ids_ a ++ [term_id])
                  (u64 (live_term_count_ a + 1)) (pool_ a)
           else a in
  match slots_ a !! slot with
  | None => Undef
  | Some t =>
      '(t, p) ← put_token has_positions docid pos (t, pool_ a);
      Ok (mkAccumulators (slot_of_ a) (slot_capacity_ a) (<[slot := t]> (slots_ a)) (free_slots_ a) (touched_ids_ a)
            (live_term_count_ a) p)
  end.

Definition release_term (term_id : Z) (a : Accumulators) : result Accumulators :=
  match slot_of_ a !! Z.to_nat term_id with
  | None => Undef
  | Some enc =>
      if enc =? 0 then Ok a
      else
        let slot := u32 (enc - 1) in
        Ok (mkAccumulators (<[Z.to_nat term_id := 0]> (slot_of_ a)) (slot_capacity_ a)
              (<[Z.to_nat slot := new_term]> (slots_ a)) (free_slots_ a ++ [slot]) (touched_ids_ a)
              (u64 (live_term_count_ a - 1)) (pool_ a))
  end.

(** [Term term = std::move(slots_[slot_of_[id] - 1]); release_term(id)] *)
Definition take_term (term_id : Z) (a : Accumulators) : result (Term * Accumulators) :=
  match slot_of_ a !! Z.to_nat term_id with
  | None => Undef
  | Some enc =>
      match slots_ a !! Z.to_nat (u32 (enc - 1)) with
      | None => Undef
      | Some t => a ← release_term term_id a; Ok (t, a)
      end
  end.

(** ** A chain back into postings *)

(** A byte beyond ten groups would be shifted by more than 63 bits. *)
Fixpoint DecodeChainVarint_loop (fuel : nat) (p : CompactPostingPool) (c : Cursor) (res shift : Z) : result (Z * Cursor) :=
  match fuel with
  | O => Undef
  | S fuel =>
      '(b, c) ← next p c;
      let res := Z.lor res (u64 (Z.land b 0x7F ≪ shift)) in
      if Z.land b 0x80 =? 0 then Ok (res, c) else DecodeChainVarint_loop fuel p c res (shift + 7)
  end.
Definition DecodeChainVarint (p : CompactPostingPool) (c : Cursor) : result (Z * Cursor) :=
  DecodeChainVarint_loop 10 p c 0 0.

(** [++freqs.back()] *)
Definition bump_back (freqs : list Z) : result (list Z) :=
  match last freqs with Some f => Ok (removelast freqs ++ [u32 (f + 1)]) | None => Undef end.

(** The decode loop; [keep] says whether positions are collected. *)
Fixpoint decode_tokens (n : nat) (keep : bool) (p : CompactPostingPool) (c : Cursor) (prev : Z)
    (docids freqs flat : list Z) : result (list Z * list Z * list Z) :=
  match n with
  | O => Ok (docids, freqs, flat)
  | S n =>
      '(tagged, c) ← DecodeChainVarint p c;
      let new_doc := negb (Z.land tagged 1 =? 0) in
      '(prev, docids, freqs, c) ←
        (if new_doc then
           '(z, c) ← DecodeChainVarint p c;
           let prev := prev + zigzag_decode z in
           Ok (prev, docids ++ [u32 prev], freqs ++ [0], c)
         else Ok (prev, docids, freqs, c));
      freqs ← bump_back freqs;
      decode_tokens n keep p c prev docids freqs (if keep then flat ++ [u32 (tagged ≫ 1)] else flat)
  end.

(** The second pass over the chain: one position per token. The pump and the
    slim fallback. *)
Fixpoint decode_positions (n : nat) (p : CompactPostingPool) (c : Cursor) (flat : list Z) : result (list Z) :=
  match n with
  | O => Ok flat
  | S n =>
      '(tagged, c) ← DecodeChainVarint p c;
      c ← (if negb (Z.land tagged 1 =? 0) then '(_, c) ← DecodeChainVarint p c; Ok c else Ok c);
      decode_positions n p c (flat ++ [u32 (tagged ≫ 1)])
  end.

Section Sorting.
Context `{StdSort}.

(** [pos_off]: the start of each document's positions. *)
Fixpoint pos_offs (running : Z) (freqs : list Z) : list Z :=
  match freqs with [] => [] | f :: freqs => running :: pos_offs (u32 (running + f)) freqs end.

(** One document of [order] into the new arrays. *)
Definition place_doc (has_positions : bool) (docids freqs flat offs : list Z) (k : nat) (st : list Z * list Z * list Z)
    : result (list Z * list Z * list Z) :=
  let '(nd, nf, np) := st in
  match docids !! k, freqs !! k with
  | Some d, Some f =>
      let '(nd, nf) :=
        match last nd with
        | Some d' => if d' =? d then (nd, bump_last nf f) else (nd ++ [d], nf ++ [f])
        | None => (nd ++ [d], nf ++ [f])
        end in
      if (has_positions : bool) then
        match offs !! k with
        | None => Undef
        | Some off => ps ← subslice flat off f; Ok (nd, nf, np ++ ps)
        end
      else Ok (nd, nf, np)
  | _, _ => Undef
  end.

Definition SortByDocid (has_positions : bool) (docids freqs flat : list Z) : result (list Z * list Z * list Z) :=
  let order := std_stable_sort (λ a b, docids !!! a <? docids !!! b) (seq 0 (length docids)) in
  let offs := if has_positions then pos_offs 0 freqs else [] in
  '(nd, nf, np) ← fold_result (place_doc has_positions docids freqs flat offs) order ([], [], []);
  Ok (nd, nf, if has_positions then np else flat).

Definition to_postings (has_positions : bool) (p : CompactPostingPool) (term : bytes) (t : Term) (allow_stream_positions : bool)
    : result TermPostings :=
  if (ntok t =? 0) || (head t =? kNoChain) then Ok (mkTermPostings term [] [] [] None 0)
  else
    let stream_pos := allow_stream_positions && has_positions && sorted t && (kStreamPositionsTokenThreshold <=? ntok t) in
    let n := Z.to_nat (ntok t) in
    let c := cursor (head t) (cur (w t)) in
    '(docids, freqs, flat) ← decode_tokens n (has_positions && negb stream_pos) p c 0 [] [] [];
    if stream_pos && (kSlimDfThreshold <=? zlen docids) then
      pump ← decode_positions n p c [];
      Ok (mkTermPostings term docids freqs flat (Some pump) (ntok t))
    else if stream_pos && has_positions then
      flat ← decode_positions n p c [];
      Ok (mkTermPostings term docids freqs flat None 0)
    else if negb (sorted t) then
      '(docids, freqs, flat) ← SortByDocid has_positions docids freqs flat;
      Ok (mkTermPostings term docids freqs flat None 0)
    else Ok (mkTermPostings term docids freqs flat None 0).

(** ** The order of the vocabulary *)

(** [for (rank...) string_rank_[order[rank]] = rank] *)
Definition ranks (order : list Z) (n : nat) : list Z :=
  foldl (λ rs (x : nat * Z), <[Z.to_nat x.2 := Z.of_nat x.1]> rs) (replicate n 0) (imap pair order).

Definition ensure_string_rank (v : Vocabulary) : Vocabulary :=
  let strings := vocab v in
  if (length (string_rank_ v) =? length strings)%nat then v
  else
    let order := std_sort (λ a b, term_ltb (vocab_at strings a) (vocab_at strings b)) (seqZ 0 (zlen strings)) in
    mkVocabulary (borrowed_ v) (owned_vocab_ v) (intern_ v) (ranks order (length strings)).

Definition sorted_ids (v : Vocabulary) (touched : list Z) : Vocabulary * list Z :=
  let v := ensure_string_rank v in
  let rank := string_rank_ v in
  (v, std_sort (λ a b, rank !!! Z.to_nat a <? rank !!! Z.to_nat b) touched).
End Sorting.

(** ** The buffer *)

Section Buffer.
Context {D : Type} `{Posix D} `{!TempDir D} `{StdSort} `{VectorGrowth} `{PriorityQueueOf HeapItem}.

Record SpimiTermBuffer := mkSpimi {
  vocab_ : Vocabulary;
  has_positions_ : bool;
  spill_threshold_bytes_ : Z;
  total_tokens_ : Z;
  acc_ : Accumulators;
  mem_reporter_ : Reporter;
  reported_resident_ : Z;
  run_paths_ : list (D * string);
  spill_status_ : result unit;
  drained_ : bool
}.

Definition resident_bytes (s : SpimiTermBuffer) : Z :=
  u64 (arena_bytes (pool_ (acc_ s)) + u64 (slot_capacity_ (acc_ s) * 4)).

Definition report_arena_delta (s : SpimiTermBuffer) : SpimiTermBuffer :=
  match mem_reporter_ s with
  | None => s
  | Some _ =>
      let now := i64 (resident_bytes s) in
      mkSpimi (vocab_ s) (has_positions_ s) (spill_threshold_bytes_ s) (total_tokens_ s) (acc_ s)
        (report_to (now - reported_resident_ s) (mem_reporter_ s)) now (run_paths_ s) (spill_status_ s) (drained_ s)
  end.

(** The constructor that borrows a vocabulary, and the one that owns it. *)
Definition spimi_borrowing (vocab : list bytes) (has_positions : bool) (threshold : Z) (reporter : Reporter) : SpimiTermBuffer :=
  report_arena_delta
    (mkSpimi (mkVocabulary (Some vocab) [] ∅ []) has_positions threshold 0
       (mkAccumulators (replicate (length vocab) 0) (assigned_capacity (zlen vocab)) [] [] [] 0 new_pool)
       reporter 0 [] (Ok tt) false).
Definition spimi_owning (has_positions : bool) (threshold : Z) (reporter : Reporter) : SpimiTermBuffer :=
  mkSpimi (mkVocabulary None [] ∅ []) has_positions threshold 0 (mkAccumulators [] 0 [] [] [] 0 new_pool)
    reporter 0 [] (Ok tt) false.

Definition unique_terms (s : SpimiTermBuffer) : Z := live_term_count_ (acc_ s).

Definition with_vocab (v : Vocabulary) (s : SpimiTermBuffer) : SpimiTermBuffer :=
  mkSpimi v (has_positions_ s) (spill_threshold_bytes_ s) (total_tokens_ s) (acc_ s) (mem_reporter_ s)
    (reported_resident_ s) (run_paths_ s) (spill_status_ s) (drained_ s).
Definition with_acc (a : Accumulators) (s : SpimiTermBuffer) : SpimiTermBuffer :=
  mkSpimi (vocab_ s) (has_positions_ s) (spill_threshold_bytes_ s) (total_tokens_ s) a (mem_reporter_ s)
    (reported_resident_ s) (run_paths_ s) (spill_status_ s) (drained_ s).
Definition with_runs (runs : list (D * string)) (s : SpimiTermBuffer) : SpimiTermBuffer :=
  mkSpimi (vocab_ s) (has_positions_ s) (spill_threshold_bytes_ s) (total_tokens_ s) (acc_ s) (mem_reporter_ s)
    (reported_resident_ s) runs (spill_status_ s) (drained_ s).
Definition with_status (st : result unit) (s : SpimiTermBuffer) : SpimiTermBuffer :=
  mkSpimi (vocab_ s) (has_positions_ s) (spill_threshold_bytes_ s) (total_tokens_ s) (acc_ s) (mem_reporter_ s)
    (reported_resident_ s) (run_paths_ s) st (drained_ s).
Definition with_drained (s : SpimiTermBuffer) : SpimiTermBuffer :=
  mkSpimi (vocab_ s) (has_positions_ s) (spill_threshold_bytes_ s) (total_tokens_ s) (acc_ s) (mem_reporter_ s)
    (reported_resident_ s) (run_paths_ s) (spill_status_ s) true.

Definition status_ok (st : result unit) : bool := match st with Ok _ => true | _ => false end.

(** [if (spill_status_.ok()) spill_status_ = st] *)
Definition latch (st : result unit) (s : SpimiTermBuffer) : SpimiTermBuffer :=
  if status_ok (spill_status_ s) then with_status st s else s.

(** *** Spilling *)

(** One id of [drain_to_writer]; the terms are released after an error too. *)
Definition drain_term (strings : list bytes) (has_positions : bool) (id : Z) (st : result unit * RunWriter D * Accumulators)
    : result (result unit * RunWriter D * Accumulators) :=
  let '(status, rw, a) := st in
  '(t, a) ← take_term id a;
  tp ← to_postings has_positions (pool_ a) (vocab_at strings id) t false;
  match status with
  | Ok _ =>
      match write_term id tp rw with
      | Ok rw => Ok (Ok tt, rw, a)
      | Err e => Ok (Err e, rw, a)
      | Undef => Undef
      end
  | _ => Ok (status, rw, a)
  end.

Definition drain_to_writer (rw : RunWriter D) (s : SpimiTermBuffer) : result (result unit * RunWriter D * SpimiTermBuffer) :=
  let '(v, ids) := sorted_ids (vocab_ s) (touched_ids_ (acc_ s)) in
  '(status, rw, a) ← fold_result (drain_term (vocab v) (has_positions_ s)) ids (Ok tt, rw, acc_ s);
  let a := mkAccumulators (slot_of_ a) (slot_capacity_ a) (slots_ a) (free_slots_ a) [] (live_term_count_ a) (reset (pool_ a)) in
  Ok (status, rw, report_arena_delta (with_acc a (with_vocab v s))).

(** The run path is recorded once the file is open; the file of a failed run is
    the one the writer holds. *)
Definition spill_to_run (s : SpimiTermBuffer) : result (result unit * SpimiTermBuffer) :=
  let dir := resolve_temp_dir in
  let resident := resident_bytes s in
  let avail := temp_dir_available_bytes dir (run_paths_ s) in
  if avail <? resident then
    Ok (Err (IoError ("spimi: insufficient temp space in '" ++ dir ++ "' to spill ~" ++ pretty resident ++ " B (~" ++
                      pretty avail ++ " B free); set SNII_TEMP_DIR/TMPDIR to a larger disk")), s)
  else
    let path := MakeRunPath dir (run_paths_ s) in
    match run_open path new_run_writer with
    | Err e => Ok (Err e, s)
    | Undef => Undef
    | Ok rw =>
        '(status, rw, s) ← drain_to_writer rw s;
        let recorded rw := with_runs (run_paths_ s ++ [(rw_file_ rw, path)]) s in
        match status with
        | Ok _ =>
            match run_close rw with
            | Ok rw => Ok (Ok tt, recorded rw)
            | Err e => Ok (Err e, recorded rw)
            | Undef => Undef
            end
        | _ => Ok (status, recorded rw)
        end
    end.

(** *** Tokens *)

Definition accumulate (term_id docid pos : Z) (s : SpimiTermBuffer) : result SpimiTermBuffer :=
  a ← append_token (has_positions_ s) term_id docid pos (acc_ s);
  let s := report_arena_delta
             (mkSpimi (vocab_ s) (has_positions_ s) (spill_threshold_bytes_ s) (u64 (total_tokens_ s + 1)) a (mem_reporter_ s)
                (reported_resident_ s) (run_paths_ s) (spill_status_ s) (drained_ s)) in
  let over_cap :=
    match mem_reporter_ s with
    | Some r => MemoryReporter.over_cap r
    | None => negb (spill_threshold_bytes_ s =? 0) && (spill_threshold_bytes_ s <=? resident_bytes s)
    end in
  let arena_near_limit := kArenaSpillCap <=? arena_bytes (pool_ (acc_ s)) in
  if (over_cap || arena_near_limit) && status_ok (spill_status_ s) then
    '(status, s) ← spill_to_run s;
    Ok (with_status status s)
  else Ok s.

Definition add_token (term_id docid pos : Z) (s : SpimiTermBuffer) : result SpimiTermBuffer :=
  if zlen (slot_of_ (acc_ s)) <=? term_id then
    Ok (latch (Err (InvalidArgument "spimi: term_id out of vocab range")) s)
  else accumulate term_id docid pos s.

(** The overload that takes the string. *)
Definition add_token_string (term : bytes) (docid pos : Z) (s : SpimiTermBuffer) : result SpimiTermBuffer :=
  match borrowed_ (vocab_ s) with
  | Some _ => Ok (latch (Err (InvalidArgument "spimi: add_token(string_view) requires owned-vocab mode")) s)
  | None =>
      let v := vocab_ s in
      match intern_ v !! term with
      | Some term_id => accumulate term_id docid pos s
      | None =>
          let term_id := u32 (zlen (owned_vocab_ v)) in
          let a := acc_ s in
          let a := mkAccumulators (slot_of_ a ++ [0]) (pushed_capacity (slot_capacity_ a) (zlen (slot_of_ a) + 1)) (slots_ a)
                     (free_slots_ a) (touched_ids_ a) (live_term_count_ a) (pool_ a) in
          let v := mkVocabulary None (owned_vocab_ v ++ [term]) (<[term := term_id]> (intern_ v)) (string_rank_ v) in
          accumulate term_id docid pos (with_acc a (with_vocab v s))
      end
  end.

(** *** Draining *)

(** The terms the callback receives, and the status. *)
Definition drained_terms (strings : list bytes) (has_positions allow : bool) (id : Z) (st : list TermPostings * Accumulators)
    : result (list TermPostings * Accumulators) :=
  let '(out, a) := st in
  '(t, a) ← take_term id a;
  tp ← to_postings has_positions (pool_ a) (vocab_at strings id) t allow;
  Ok (out ++ [tp], a).

Definition drain_sorted (allow_stream_positions : bool) (s : SpimiTermBuffer) : result (list TermPostings * SpimiTermBuffer) :=
  let '(v, ids) := sorted_ids (vocab_ s) (touched_ids_ (acc_ s)) in
  '(out, a) ← fold_result (drained_terms (vocab v) (has_positions_ s) allow_stream_positions) ids ([], acc_ s);
  let a := mkAccumulators [] 0 [] [] [] (live_term_count_ a) (reset (pool_ a)) in
  Ok (out, report_arena_delta (with_acc a (with_vocab v s))).

Definition merge_runs (allow_stream_positions : bool) (s : SpimiTermBuffer)
    : result (list TermPostings * result unit * SpimiTermBuffer) :=
  s ← (match touched_ids_ (acc_ s) with
       | [] => Ok s
       | _ =>
           '(status, s) ← spill_to_run s;
           Ok (if status_ok status then s else latch status s)
       end);
  if negb (status_ok (spill_status_ s)) then Ok ([], spill_status_ s, s)
  else
    let a := acc_ s in
    let s := report_arena_delta (with_acc (mkAccumulators [] 0 [] [] (touched_ids_ a) (live_term_count_ a) (pool_ a)) s) in
    let '(out, status) := MergeRuns (vocab (vocab_ s)) (has_positions_ s) (run_paths_ s) allow_stream_positions in
    Ok (out, status, s).

Definition for_each_term_sorted (s : SpimiTermBuffer) : result (list TermPostings * result unit * SpimiTermBuffer) :=
  if drained_ s then Ok ([], Err (Internal "spimi: already drained (single-drain contract)"), s)
  else
    let s := with_drained s in
    match run_paths_ s, spill_status_ s with
    | [], Ok _ => '(out, s) ← drain_sorted true s; Ok (out, Ok tt, s)
    | _, _ => merge_runs true s
    end.

Definition finalize_sorted (s : SpimiTermBuffer) : result (list TermPostings * SpimiTermBuffer) :=
  if drained_ s then Ok ([], latch (Err (Internal "spimi: already drained (single-drain contract)")) s)
  else
    let s := with_drained s in
    match run_paths_ s, spill_status_ s with
    | [], Ok _ => drain_sorted false s
    | _, _ =>
        '(out, status, s) ← merge_runs false s;
        Ok (out, if status_ok status then s else latch status s)
    end.

Definition cleanup_runs (s : SpimiTermBuffer) : SpimiTermBuffer := with_runs [] s.

(** The destructor: what is left of the object, and the reporter's balance. *)
Definition destroy (s : SpimiTermBuffer) : SpimiTermBuffer :=
  let s := if reported_resident_ s =? 0 then s
           else match mem_reporter_ s with
                | None => s
                | Some _ =>
                    mkSpimi (vocab_ s) (has_positions_ s) (spill_threshold_bytes_ s) (total_tokens_ s) (acc_ s)
                      (report_to (- reported_resident_ s) (mem_reporter_ s)) 0 (run_paths_ s) (spill_status_ s) (drained_ s)
                end in
  cleanup_runs s.
End Buffer.
#[global] Arguments SpimiTermBuffer : clear implicits.
