(* ===== verification/SpimiChains.v ===== *)
(** * SpimiChains: the tagged chain of a term and its decoding.

    The bytes a term's chain holds for its tokens ([chain_bytes]), that appending
    a token appends exactly them and disturbs no other chain, and that
    [to_postings] decodes a chain to the documents of its tokens: those of the
    list in order when the documents ascend, and the stably sorted ones when
    they do not ([to_postings_spec]). *)

From S2P Require Import Prelude StdAlgorithms Status Varint ByteIO FormatConstants TermKey CompactPostingPool TermPostings PostingGroups RunMerge SpimiTermBuffer.

#[local] Open Scope Z_scope.

(** ** Zigzag *)

Lemma zigzag_encode_range v : is_u64 (zigzag_encode v).
Proof. unfold zigzag_encode. apply lxor_range; [lia|apply u64_range..]. Qed.

Lemma zigzag_decode_encode v : is_i64 v → zigzag_decode (zigzag_encode v) = v.
Proof.
  intros Hv. unfold is_i64 in Hv. unfold zigzag_decode, zigzag_encode.
  destruct (decide (0 ≤ v)) as [Hpos|Hneg].
  - assert (v ≫ 63 = 0) as -> by (rewrite Z.shiftr_div_pow2 by lia; apply Z.div_small; lia).
    rewrite (u64_small v) by ulia. rewrite (u64_small (v ≪ 1)) by (rewrite Z.shiftl_mul_pow2 by lia; ulia).
    rewrite (u64_small 0) by ulia. rewrite Z.lxor_0_r.
    assert (v ≪ 1 ≫ 1 = v) as -> by (rewrite Z.shiftr_shiftl_l by lia; apply Z.shiftl_0_r).
    assert (Z.land (v ≪ 1) 1 = 0) as ->.
    { change 1 with (Z.ones 1) at 2. rewrite Z.land_ones, Z.shiftl_mul_pow2 by lia. change (2 ^ 1) with 2. apply Z.mod_mul. lia. }
    unfold i64. rewrite !u64_small by ulia. rewrite Z.add_simpl_r. cbn. by rewrite Z.lxor_0_r.
  - assert (v ≫ 63 = -1) as ->.
    { rewrite Z.shiftr_div_pow2 by lia. symmetry. apply Z.div_unique with (v + 2 ^ 63); lia. }
    assert (u64 v = v + 2 ^ 64) as -> by (unfold u64; symmetry; apply Z.mod_unique with (-1); lia).
    assert (u64 ((v + 2 ^ 64) ≪ 1) = 2 * v + 2 ^ 64) as ->.
    { rewrite Z.shiftl_mul_pow2 by lia. unfold u64. symmetry. apply Z.mod_unique with 1; lia. }
    change (u64 (-1)) with (Z.ones 64). set (y := Z.lxor (2 * v + 2 ^ 64) (Z.ones 64)).
    assert (y = - 2 * v - 1) as ->.
    { unfold y. assert (Z.lxor (2 * v + 2 ^ 64) (Z.ones 64) = Z.ldiff (Z.ones 64) (2 * v + 2 ^ 64)) as ->.
      { bitwise i. destruct (decide (i < 64)); [rewrite bool_decide_true by lia; by destruct (Z.testbit _ i)|].
        rewrite bool_decide_false by lia. by rewrite (testbit_high 64) by lia. }
      rewrite <- Z.sub_nocarry_ldiff; [rewrite Z.ones_equiv; lia|]. bitwise i. destruct (decide (i < 64)).
      - rewrite bool_decide_true by lia. by rewrite andb_false_r.
      - by rewrite (testbit_high 64) by lia. }
    assert ((- 2 * v - 1) ≫ 1 = - v - 1) as ->.
    { rewrite Z.shiftr_div_pow2 by lia. symmetry. apply Z.div_unique with 1; lia. }
    assert (Z.land (- 2 * v - 1) 1 = 1) as ->.
    { change 1 with (Z.ones 1) at 2. rewrite Z.land_ones by lia. symmetry. apply Z.mod_unique with (- v - 1); lia. }
    unfold i64. rewrite !u64_small by ulia. replace (- (1 + 2 ^ 63 - 2 ^ 63)) with (-1) by lia. rewrite Z.lxor_m1_r. unfold Z.lnot. lia.
Qed.

(** ** The bytes of a term *)

Abbreviation Token := (Z * Z)%type.

Definition starts_doc (prev : option Z) (d : Z) : bool := match prev with Some d' => negb (d' =? d) | None => true end.

Definition tag (hp : bool) (nd : bool) (pos : Z) : Z :=
  let bit := if nd then 1 else 0 in if hp then Z.lor (u64 (pos ≪ 1)) bit else bit.

Definition token_bytes (hp : bool) (prev : option Z) (t : Token) : bytes :=
  encode_varint64 (tag hp (starts_doc prev t.1) t.2) ++
  (if starts_doc prev t.1 then encode_varint64 (zigzag_encode (t.1 - default 0 prev)) else []).

Fixpoint chain_bytes (hp : bool) (prev : option Z) (ts : list Token) : bytes :=
  match ts with
  | [] => []
  | t :: ts => token_bytes hp prev t ++ chain_bytes hp (Some t.1) ts
  end.

Definition last_doc (prev : option Z) (ts : list Token) : option Z :=
  match last ts with Some t => Some t.1 | None => prev end.

Lemma last_doc_cons prev t ts : last_doc prev (t :: ts) = last_doc (Some t.1) ts.
Proof. unfold last_doc. destruct ts as [|u ts]; [done|]. rewrite last_cons_cons. destruct (last (u :: ts)) eqn:Hl; [done|]. by apply last_None in Hl. Qed.

Lemma chain_bytes_snoc hp prev ts t : chain_bytes hp prev (ts ++ [t]) = chain_bytes hp prev ts ++ token_bytes hp (last_doc prev ts) t.
Proof.
  revert prev. induction ts as [|u ts IH]; intros prev; cbn [app chain_bytes]; [by rewrite app_nil_r|].
  by rewrite IH, last_doc_cons, app_assoc.
Qed.

Lemma token_bytes_length hp prev t : (0 < length (token_bytes hp prev t) ≤ 20)%nat.
Proof.
  assert (∀ a b : bytes, (0 < length a ≤ 10)%nat → (length b ≤ 10)%nat → (0 < length (a ++ b) ≤ 20)%nat) as Hgo.
  { intros a b. rewrite length_app. lia. }
  unfold token_bytes. apply Hgo; [split; [apply encode_varint64_length_pos|apply encode_varint64_length_le]|].
  destruct (starts_doc _ _); [apply encode_varint64_length_le|apply Nat.le_0_l].
Qed.

(** ** Appending *)

Lemma poke_blocks off bs p p' : poke off bs p = Ok p' → length (blocks_ p') = length (blocks_ p).
Proof.
  unfold poke. destruct (_ !! _) as [b|]; [|done]. destruct (_ <=? _)%nat; [|done]. intros [= <-]. cbn. apply length_insert.
Qed.

Lemma Ok_pair_inj {A B} (a a' : A) (b b' : B) : Ok (a, b) = Ok (a', b') → a = a' ∧ b = b'.
Proof. intros H. by injection H. Qed.

Lemma alloc_run_blocks n p off p' : alloc_run n p = Ok (off, p') → (length (blocks_ p') ≤ S (length (blocks_ p)))%nat.
Proof.
  unfold alloc_run. cbv zeta. rewrite bind_reject. destruct (_ <? _); [done|].
  intros He. apply Ok_pair_inj in He as [_ <-]. cbn [blocks_].
  destruct (negb _ || _); cbn [blocks_]; rewrite ?length_app; cbn [length]; lia.
Qed.

Lemma alloc_slice_blocks lv p first e p' : alloc_slice lv p = Ok (first, e, p') → (length (blocks_ p') ≤ S (length (blocks_ p)))%nat.
Proof.
  unfold alloc_slice. destruct (at_level _ _) as [c|st|]; [|done|done]. rewrite bind_Ok.
  destruct (alloc_run _ p) as [[f p1]|st|] eqn:Ha; [|done|done]. rewrite bind_Ok.
  destruct (poke _ _ p1) as [p2|st|] eqn:Hp; [|done|done]. rewrite bind_Ok. intros [= _ _ <-].
  rewrite (poke_blocks _ _ _ _ Hp). by eapply alloc_run_blocks.
Qed.

Lemma append_byte_blocks sw lv v p sw' lv' p' : append_byte sw lv v p = Ok (sw', lv', p') → (length (blocks_ p') ≤ S (length (blocks_ p)))%nat.
Proof.
  unfold append_byte. destruct (if cur sw =? slice_end sw then _ else _) as [[[w1 lv1] p1]|st|] eqn:Hg; [|done|done]. rewrite bind_Ok.
  destruct (poke _ _ p1) as [p2|st|] eqn:Hp; [|done|done]. rewrite bind_Ok. intros [= _ _ <-]. cbn [blocks_].
  rewrite (poke_blocks _ _ _ _ Hp). destruct (cur sw =? slice_end sw); [|injection Hg as _ _ <-; lia].
  revert Hg. unfold grow. destruct (at_level _ _) as [c|st|]; [|done|done]. rewrite bind_Ok.
  destruct (alloc_slice c p) as [[[f e] p3]|st|] eqn:Ha; [|done|done]. rewrite bind_Ok.
  destruct (write_ptr _ _ p3) as [p4|st|] eqn:Hw; [|done|done]. rewrite bind_Ok. intros [= _ _ <-].
  unfold write_ptr in Hw. rewrite (poke_blocks _ _ _ _ Hw). by eapply alloc_slice_blocks.
Qed.

Lemma start_chain_blocks p h sw lv p' : start_chain p = Ok (h, sw, lv, p') → (length (blocks_ p') ≤ S (length (blocks_ p)))%nat.
Proof.
  unfold start_chain. destruct (alloc_slice 0 p) as [[[f e] p3]|st|] eqn:Ha; [|done|done]. rewrite bind_Ok. intros [= _ _ _ <-].
  by eapply alloc_slice_blocks.
Qed.

(** The term holds the chain [data] in the slices [hs]; none before its first byte. *)
Definition holds_chain (p : CompactPostingPool) (t : Term) (hs : list Z) (data : bytes) : Prop :=
  match hs with
  | [] => data = [] ∧ head t = kNoChain
  | h :: _ => head t = h ∧ chain p 0 hs data ∧ handle_at hs data (w t) (level t)
  end.

Lemma chain_head p h hs data : wf_pool p → chain p 0 (h :: hs) data → 0 ≤ h < UINT32_MAX.
Proof.
  intros Hp Hc. pose proof (owns_bound p 0 (h :: hs) data h level_0 Hc) as Hb.
  destruct Hc as [[[? _] Hn] _]. destruct (cap_range 0 level_0) as [_ Hcap]. pose proof (wf_u32 p Hp). lia.
Qed.

Lemma holds_frame p p' t hs data :
  next_offset_ p ≤ next_offset_ p' → (∀ o, owns 0 hs o → mem p' o = mem p o) → holds_chain p t hs data → holds_chain p' t hs data.
Proof.
  intros Hn Hm. unfold holds_chain. destruct hs as [|h hs]; [done|]. intros (Hh & Hc & Ha). split; [done|]. split; [|done].
  by eapply chain_frame; [apply level_0|..].
Qed.

(** What an append does to a pool: the other chains stay. *)
Record grows (p p' : CompactPostingPool) (hs hs' : list Z) (n : Z) : Prop := {
  gr_next : next_offset_ p ≤ next_offset_ p';
  gr_frame o : 0 ≤ o < next_offset_ p → ¬ owns 0 hs o → mem p' o = mem p o;
  gr_owns o : owns 0 hs' o → owns 0 hs o ∨ next_offset_ p ≤ o;
  gr_blocks : zlen (blocks_ p') ≤ zlen (blocks_ p) + n
}.

Lemma grows_refl p hs : grows p p hs hs 0.
Proof. split; [done|done|tauto|lia]. Qed.

Lemma grows_trans p1 p2 p3 hs1 hs2 hs3 n m : grows p1 p2 hs1 hs2 n → grows p2 p3 hs2 hs3 m → grows p1 p3 hs1 hs3 (n + m).
Proof.
  intros [Hn1 Hf1 Ho1 Hb1] [Hn2 Hf2 Ho2 Hb2]. split.
  - lia.
  - intros o Ho Hno. rewrite Hf2; [by apply Hf1|lia|]. intros Hx. apply Ho1 in Hx as [?|?]; [done|lia].
  - intros o Ho. apply Ho2 in Ho as [Ho|Ho]; [by apply Ho1|right; lia].
  - lia.
Qed.

Lemma grows_weaken p p' hs hs' n m : grows p p' hs hs' n → n ≤ m → grows p p' hs hs' m.
Proof. intros [? ? ? ?] Hm. split; try done. lia. Qed.

(** The fields an append to the chain leaves alone. *)
Definition same_counts (t t' : Term) : Prop :=
  ntok t' = ntok t ∧ cur_docid t' = cur_docid t ∧ started t' = started t ∧ sorted t' = sorted t.

Lemma put_byte_spec p t hs data b :
  wf_pool p → holds_chain p t hs data →
  match put_byte b (t, p) with
  | Ok (t', p') => ∃ hs', wf_pool p' ∧ hs' ≠ [] ∧ holds_chain p' t' hs' (data ++ [b]) ∧ grows p p' hs hs' 2 ∧ same_counts t t'
  | Err _ => UINT32_MAX < arena_bytes p + 2 * 32768
  | Undef => False
  end.
Proof.
  intros Hp Ht. unfold put_byte.
  assert (match (if head t =? kNoChain then
               '(h, sw, lv, p) ← start_chain p; Ok (mkTerm h sw (ntok t) (cur_docid t) lv (started t) (sorted t), p)
             else Ok (t, p)) with
    | Ok (t1, p1) => ∃ hs1, hs1 ≠ [] ∧ wf_pool p1 ∧ holds_chain p1 t1 hs1 data ∧ grows p p1 hs hs1 1 ∧ same_counts t t1
    | Err _ => UINT32_MAX < arena_bytes p + 2 * 32768
    | Undef => False
    end) as Hstart.
  { destruct hs as [|h hs].
    - destruct Ht as [-> Hh]. rewrite Hh, Z.eqb_refl. pose proof (start_chain_spec p Hp) as Hs.
      destruct (start_chain p) as [[[[h sw] lv] p1]|st|] eqn:He; [|cbn; unfold arena_full in Hs; lia|done]. rewrite bind_Ok.
      destruct Hs as (Hp1 & Hc & Ha & Hge & Hn & Hm). exists [h]. split; [done|]. split; [done|]. split; [done|]. split; [|done]. split.
      + done.
      + intros o Ho _. by apply Hm.
      + intros o Ho. right. cbn [owns] in Ho. destruct Ho as [Ho|[]]. lia.
      + pose proof (start_chain_blocks _ _ _ _ _ He). lia.
    - pose proof Ht as (Hh & Hc & Ha). pose proof (chain_head _ _ _ _ Hp Hc) as Hb. unfold kNoChain, UINT32_MAX in *. rewrite Hh.
      rewrite (proj2 (Z.eqb_neq _ _)) by lia. exists (h :: hs). split; [done|]. split; [done|]. split; [done|]. split; [|done].
      destruct (grows_refl p (h :: hs)) as [? ? ? ?]. split; try done. lia. }
  destruct (if head t =? kNoChain then _ else _) as [[t1 p1]|st|]; [|done|done]. rewrite bind_Ok.
  destruct Hstart as (hs1 & Hne & Hp1 & Ht1 & Hg1 & Hsame). destruct hs1 as [|h1 hs1]; [done|]. destruct Ht1 as (Hh & Hc & Ha).
  pose proof (append_byte_spec p1 (h1 :: hs1) data (w t1) (level t1) b Hp1 Hc Ha) as Hs.
  destruct (append_byte (w t1) (level t1) b p1) as [[[sw lv] p2]|st|] eqn:He; [|cbn|done].
  - destruct Hs as (more & Hp2 & Hc2 & Ha2 & Hn2 & _ & Hm2 & Ho2). rewrite bind_Ok. exists (h1 :: hs1 ++ more). split; [done|]. split; [done|].
    split; [done|]. split; [|done]. change 2 with (1 + 1). eapply grows_trans; [exact Hg1|]. split; [done|done|done|].
    pose proof (append_byte_blocks _ _ _ _ _ _ _ He). lia.
  - pose proof (gr_blocks _ _ _ _ _ Hg1). unfold arena_full in Hs. rewrite arena_bytes_eq in *. lia.
Qed.

Lemma same_counts_trans t1 t2 t3 : same_counts t1 t2 → same_counts t2 t3 → same_counts t1 t3.
Proof. intros (?&?&?&?) (?&?&?&?). split_and!; congruence. Qed.

Lemma put_bytes_spec bs p t hs data :
  wf_pool p → holds_chain p t hs data →
  match fold_result put_byte bs (t, p) with
  | Ok (t', p') => ∃ hs', wf_pool p' ∧ (bs ≠ [] → hs' ≠ []) ∧ holds_chain p' t' hs' (data ++ bs) ∧ grows p p' hs hs' (2 * zlen bs) ∧ same_counts t t'
  | Err _ => UINT32_MAX < arena_bytes p + 2 * zlen bs * 32768
  | Undef => False
  end.
Proof.
  revert p t hs data. induction bs as [|b bs IH]; intros p t hs data Hp Ht; cbn [fold_result].
  { exists hs. rewrite app_nil_r. by split_and!; try apply grows_refl. }
  pose proof (put_byte_spec p t hs data b Hp Ht) as Hs. destruct (put_byte b (t, p)) as [[t1 p1]|st|]; [|cbn; lia|done].
  destruct Hs as (hs1 & Hp1 & Hne & Ht1 & Hg1 & Hs1). rewrite bind_Ok. specialize (IH p1 t1 hs1 (data ++ [b]) Hp1 Ht1).
  destruct (fold_result put_byte bs (t1, p1)) as [[t2 p2]|st|]; [| |done].
  - destruct IH as (hs2 & Hp2 & Hne2 & Ht2 & Hg2 & Hs2). exists hs2. rewrite <- app_assoc in Ht2. split; [done|]. split.
    { intros _ ->. destruct Ht2 as [Hnil _]. by destruct data. }
    split; [done|]. split; [|by eapply same_counts_trans].
    replace (2 * zlen (b :: bs)) with (2 + 2 * zlen bs) by (cbn [length]; lia). by eapply grows_trans.
  - pose proof (gr_blocks _ _ _ _ _ Hg1). rewrite arena_bytes_eq in *. cbn [length]. lia.
Qed.

(** ** The state of a term *)

Definition in_order (ts : list Token) : Prop := StronglySorted Z.le (map fst ts).

Record holds_term (hp : bool) (p : CompactPostingPool) (t : Term) (hs : list Z) (ts : list Token) : Prop := {
  ht_chain : holds_chain p t hs (chain_bytes hp None ts);
  ht_ntok : ntok t = zlen ts;
  ht_started : started t = bool_decide (ts ≠ []);
  ht_cur : ts ≠ [] → last_doc None ts = Some (cur_docid t);
  ht_sorted : sorted t = true ↔ in_order ts
}.

Lemma holds_new_term hp p : holds_term hp p new_term [] [].
Proof. split; try done. split; [constructor|done]. Qed.

Lemma sorted_snoc (l : list Z) x : StronglySorted Z.le (l ++ [x]) ↔ StronglySorted Z.le l ∧ match last l with Some y => y ≤ x | None => True end.
Proof.
  induction l as [|y l IH]; cbn [app]; [split; [by repeat constructor|by repeat constructor]|]. split.
  - intros [Hs Hy]%StronglySorted_inv. apply IH in Hs as [Hs Hl]. apply Forall_app in Hy as [Hy [Hyx _]%Forall_cons].
    split; [by constructor|]. destruct l as [|z l]; [done|]. by rewrite last_cons_cons.
  - intros [[Hs Hy]%StronglySorted_inv Hl]. constructor.
    + apply IH. split; [done|]. destruct l as [|z l]; [done|]. by rewrite last_cons_cons in Hl.
    + apply Forall_app. split; [done|]. constructor; [|done]. destruct l as [|z l _] using rev_ind; [done|].
      rewrite app_comm_cons, last_snoc in Hl. apply Forall_app in Hy as [_ [Hyz _]%Forall_cons]. lia.
Qed.

Lemma in_order_snoc ts t : in_order (ts ++ [t]) ↔ in_order ts ∧ match last_doc None ts with Some d => d ≤ t.1 | None => True end.
Proof.
  unfold in_order, last_doc. rewrite map_app. cbn [map]. rewrite sorted_snoc, fmap_last. by destruct (last ts).
Qed.

Lemma last_doc_snoc prev ts t : last_doc prev (ts ++ [t]) = Some t.1.
Proof. unfold last_doc. by rewrite last_snoc. Qed.

Lemma put_token_spec hp p t hs ts d pos :
  wf_pool p → holds_term hp p t hs ts → zlen ts < UINT32_MAX →
  match put_token hp d pos (t, p) with
  | Ok (t', p') => ∃ hs', wf_pool p' ∧ holds_term hp p' t' hs' (ts ++ [(d, pos)]) ∧ grows p p' hs hs' 40
  | Err _ => UINT32_MAX < arena_bytes p + 40 * 32768
  | Undef => False
  end.
Proof.
  intros Hp [Hc Hn Hst Hcur Hso] Hlen. unfold put_token.
  set (prev := last_doc None ts). assert (negb (started t) || negb (cur_docid t =? d) = starts_doc prev d) as ->.
  { rewrite Hst. unfold prev. destruct ts as [|u ts]; [done|]. rewrite (bool_decide_true (_ ≠ _)) by done. cbn [negb orb]. by rewrite Hcur. }
  set (nd := starts_doc prev d). change (if hp then Z.lor (u64 (pos ≪ 1)) (if nd then 1 else 0) else if nd then 1 else 0) with (tag hp nd pos).
  unfold put_varint. pose proof (put_bytes_spec (encode_varint64 (tag hp nd pos)) p t hs _ Hp Hc) as Hs.
  pose proof (encode_varint64_length_le (tag hp nd pos)) as Hl1. pose proof (encode_varint64_length_pos (tag hp nd pos)) as Hpos.
  remember (encode_varint64 (tag hp nd pos)) as bs1 eqn:Hbs1.
  destruct (fold_result put_byte bs1 (t, p)) as [[t1 p1]|st|]; [|cbn; lia|done]. rewrite bind_Ok.
  destruct Hs as (hs1 & Hp1 & Hne1 & Hc1 & Hg1 & Hn1 & Hcur1 & Hst1 & Hso1).
  assert (zlen (ts ++ [(d, pos)]) = zlen ts + 1) as Hlen' by (rewrite length_app; cbn; lia).
  assert (∀ b, b = bool_decide (ts ++ [(d, pos)] ≠ []) ↔ b = true) as Hbd.
  { intros b. rewrite bool_decide_true; [done|]. by destruct ts. }
  destruct nd eqn:Hnd.
  - assert ((if started t1 then cur_docid t1 else 0) = default 0 prev) as ->.
    { rewrite Hst1, Hcur1, Hst. unfold prev. destruct ts as [|u ts]; [done|]. rewrite bool_decide_true by done. by rewrite Hcur. }
    set (t1' := mkTerm _ _ _ _ _ _ _). assert (holds_chain p1 t1' hs1 (chain_bytes hp None ts ++ bs1)) as Hc1' by exact Hc1.
    pose proof (put_bytes_spec (encode_varint64 (zigzag_encode (d - default 0 prev))) p1 t1' hs1 _ Hp1 Hc1') as Hs.
    pose proof (encode_varint64_length_le (zigzag_encode (d - default 0 prev))) as Hl2.
    remember (encode_varint64 (zigzag_encode (d - default 0 prev))) as bs2 eqn:Hbs2.
    destruct (fold_result put_byte bs2 (t1', p1)) as [[t2 p2]|st|]; [|cbn; destruct Hg1; rewrite arena_bytes_eq in *; lia|done].
    rewrite !bind_Ok. destruct Hs as (hs2 & Hp2 & _ & Hc2 & Hg2 & Hn2 & Hcur2 & Hst2 & Hso2). exists hs2. split; [done|]. split.
    + assert (chain_bytes hp None (ts ++ [(d, pos)]) = (chain_bytes hp None ts ++ bs1) ++ bs2) as Heq.
      { rewrite chain_bytes_snoc, <- app_assoc. unfold token_bytes. cbn [fst snd]. fold prev. change (starts_doc prev d) with nd. by rewrite Hnd, Hbs1, Hbs2. }
      split; cbn [ntok started cur_docid sorted].
      * by rewrite Heq.
      * rewrite Hn2. cbn [ntok t1']. rewrite Hn1, Hn, Hlen'. apply u32_small. unfold is_u32, UINT32_MAX in *. lia.
      * by apply Hbd.
      * intros _. apply last_doc_snoc.
      * rewrite Hso2. cbn [sorted t1']. rewrite in_order_snoc. fold prev. cbn [fst]. rewrite Hst1, Hcur1, Hso1, Hst.
        destruct ts as [|u ts]; [rewrite bool_decide_false by (intros Hx; by apply Hx); cbn [andb]; change prev with (@None Z); tauto|].
        rewrite bool_decide_true by done. cbn [andb]. unfold prev. rewrite Hcur by done. destruct (Z.ltb_spec d (cur_docid t)); [|split; [|tauto]; intros Hx; split; [tauto|lia]].
        split; [done|]. intros [_ ?]. lia.
    + eapply grows_weaken; [eapply grows_trans; [exact Hg1|exact Hg2]|lia].
  - rewrite !bind_Ok. exists hs1. split; [done|]. split.
    + assert (chain_bytes hp None (ts ++ [(d, pos)]) = chain_bytes hp None ts ++ bs1) as Heq.
      { rewrite chain_bytes_snoc. unfold token_bytes. cbn [fst snd]. fold prev. change (starts_doc prev d) with nd. by rewrite Hnd, app_nil_r, Hbs1. }
      assert (prev = Some d) as Hpd.
      { unfold nd, starts_doc in Hnd. destruct prev as [d'|]; [|done]. apply negb_false_iff, Z.eqb_eq in Hnd. by subst. }
      assert (ts ≠ []) as Hne by (intros ->; done).
      split; cbn [ntok started cur_docid sorted].
      * by rewrite Heq.
      * rewrite Hn1, Hn, Hlen'. apply u32_small. unfold is_u32, UINT32_MAX in *. lia.
      * apply Hbd. rewrite Hst1, Hst. by apply bool_decide_true.
      * intros _. rewrite last_doc_snoc, Hcur1. cbn [fst]. rewrite <- Hcur by done. by fold prev.
      * rewrite Hso1, in_order_snoc. fold prev. rewrite Hpd. cbn [fst]. rewrite Hso. split; [|tauto]. intros Hx; split; [done|lia].
    + eapply grows_weaken; [exact Hg1|lia].
Qed.

(** ** Decoding *)

Lemma DecodeChainVarint_loop_yields p bs fuel c res shift n v m :
  decode_varint64_loop bs res shift n = Ok (v, m) → 70 ≤ shift + 7 * Z.of_nat fuel → shift < 64 → yields p c bs →
  ∃ c', DecodeChainVarint_loop fuel p c res shift = Ok (v, c') ∧ yields p c' (drop (m - n) bs) ∧ (n < m)%nat.
Proof.
  revert fuel c res shift n. induction bs as [|b bs IH]; intros fuel c res shift n Hd Hf Hsh Hy; [done|].
  destruct fuel as [|fuel]; [lia|]. cbn [decode_varint64_loop] in Hd. cbn [DecodeChainVarint_loop]. destruct Hy as (_ & c1 & -> & Hy).
  rewrite bind_Ok. destruct (Z.land b 128 =? 0).
  - injection Hd as <- <-. exists c1. replace (S n - n)%nat with 1%nat by lia. split; [done|]. split; [done|lia].
  - destruct (Z.leb_spec 64 (shift + 7)) as [|Hlt]; [done|]. destruct (IH fuel c1 _ _ _ Hd ltac:(lia) Hlt Hy) as (c' & -> & Hy' & Hm).
    exists c'. split; [done|]. split; [|lia]. by replace (m - n)%nat with (S (m - S n)) by lia.
Qed.

Lemma DecodeChainVarint_yields p c v rest :
  is_u64 v → yields p c (encode_varint64 v ++ rest) → ∃ c', DecodeChainVarint p c = Ok (v, c') ∧ yields p c' rest.
Proof.
  intros Hv Hy. pose proof (decode_encode_varint64 v rest Hv) as Hd. unfold decode_varint64 in Hd.
  destruct (DecodeChainVarint_loop_yields p _ 10 c 0 0 0 _ _ Hd ltac:(lia) ltac:(lia) Hy) as (c' & He & Hy' & _).
  exists c'. split; [exact He|]. by rewrite Nat.sub_0_r, drop_app_length in Hy'.
Qed.

Definition wf_token (t : Token) : Prop := is_u32 t.1 ∧ is_u32 t.2.

Lemma tag_spec hp nd pos :
  is_u32 pos → is_u64 (tag hp nd pos) ∧ Z.land (tag hp nd pos) 1 = (if nd then 1 else 0) ∧ u32 (tag hp nd pos ≫ 1) = (if hp then pos else 0).
Proof.
  intros Hp. unfold is_u32 in Hp. unfold tag. destruct hp; [|destruct nd; by vm_compute].
  set (bit := if nd then 1 else 0). assert (0 ≤ bit < 2) as Hbit by (destruct nd; cbn; lia). cbv zeta.
  rewrite (u64_small (pos ≪ 1)) by (rewrite Z.shiftl_mul_pow2 by lia; ulia). rewrite Z.lor_comm, lor_shiftl_add by lia. change (2 ^ 1) with 2.
  split; [ulia|]. split.
  - change 1 with (Z.ones 1) at 1. rewrite Z.land_ones by lia. change (2 ^ 1) with 2. rewrite Z.mod_add by lia. by apply Z.mod_small.
  - rewrite Z.shiftr_div_pow2 by lia. change (2 ^ 1) with 2. rewrite Z.div_add, Z.div_small by lia. apply u32_small. unfold is_u32. lia.
Qed.

Lemma last_gdocs_join acc g : last (gdocs (join acc [g])) = Some g.1.
Proof.
  destruct acc as [|h acc _] using rev_ind; [done|]. rewrite join_app by done. cbn [join]. destruct h as [d ps], g as [e qs].
  cbn [cons_group fst snd]. destruct (Z.eqb_spec d e) as [->|]; [by rewrite last_gdocs|].
  change [(d, ps); (e, qs)] with ([(d, ps)] ++ [(e, qs)]). by rewrite app_assoc, last_gdocs.
Qed.

Lemma join_small_l n a b : Forall (λ g : Group, zlen g.2 < n) (join a b) → Forall (λ g : Group, zlen g.2 < n) a.
Proof.
  induction a as [|[d ps] [|h a] IH]; [constructor| |].
  - cbn [join]. intros Hj. constructor; [|constructor]. destruct b as [|[e qs] b]; cbn [cons_group fst snd] in *; [by apply Forall_cons in Hj as [Hj _]|].
    destruct (d =? e); apply Forall_cons in Hj as [Hj _]; cbn [snd] in *; [rewrite length_app in Hj; lia|done].
  - rewrite join_cons. intros [Hg Hj]%Forall_cons. constructor; [done|by apply IH].
Qed.

(** A document joins the documents before it. *)
Lemma join_group acc d ps :
  Forall (λ g, zlen g.2 < 2 ^ 32) (join acc [(d, ps)]) →
  (gdocs (join acc [(d, ps)]), gfreqs (join acc [(d, ps)])) =
    (if starts_doc (last (gdocs acc)) d then gdocs acc ++ [d] else gdocs acc,
     if starts_doc (last (gdocs acc)) d then gfreqs acc ++ [zlen ps]
     else removelast (gfreqs acc) ++ [u32 (default 0 (last (gfreqs acc)) + zlen ps)]).
Proof.
  destruct acc as [|[e qs] acc _] using rev_ind; [done|]. rewrite join_app by done. cbn [join cons_group fst snd]. rewrite last_gdocs. cbn [fst starts_doc].
  unfold gdocs, gfreqs. rewrite !map_app. cbn [map fst snd]. rewrite removelast_last, last_snoc. cbn [default from_option].
  destruct (Z.eqb_spec e d) as [->|Hne]; cbn [negb map fst snd].
  - intros Hsm. apply Forall_app in Hsm as [_ [Hsm _]%Forall_cons]. cbn [snd] in Hsm. do 3 f_equal.
    rewrite !length_app in *. unfold id. rewrite u32_small; [lia|unfold is_u32; lia].
  - intros _. by rewrite <- !app_assoc.
Qed.

Lemma decode_tokens_spec hp keep p ts pad c prev acc flat :
  Forall wf_token ts → last (gdocs acc) = prev → (∀ d, prev = Some d → is_u32 d) →
  Forall (λ g, zlen g.2 < 2 ^ 32) (join acc (groups ts)) →
  yields p c (chain_bytes hp prev ts ++ pad) → (keep = true → hp = true) →
  decode_tokens (length ts) keep p c (default 0 prev) (gdocs acc) (gfreqs acc) flat =
    Ok (gdocs (join acc (groups ts)), gfreqs (join acc (groups ts)), if keep then flat ++ map snd ts else flat).
Proof.
  intros Hts. revert c prev acc flat. induction Hts as [|[d pos] ts [Hd Hpos] Hts IH]; intros c prev acc flat Hlast Hprev Hsm Hy Hk.
  { cbn [length decode_tokens groups map]. rewrite join_nil_r, app_nil_r. by destruct keep. }
  cbn [fst snd] in Hd, Hpos. cbn [length decode_tokens chain_bytes] in *. unfold token_bytes in Hy. cbn [fst snd] in Hy. rewrite <- !app_assoc in Hy.
  destruct (tag_spec hp (starts_doc prev d) pos Hpos) as (Hu & Hbit & Hval).
  destruct (DecodeChainVarint_yields _ _ _ _ Hu Hy) as (c1 & -> & Hy1). rewrite bind_Ok, Hbit, Hval.
  assert (groups ((d, pos) :: ts) = join [(d, [pos])] (groups ts)) as Hg by done.
  rewrite Hg, <- join_assoc in Hsm |- *. set (acc1 := join acc [(d, [pos])]) in *.
  assert (Forall (λ g, zlen g.2 < 2 ^ 32) acc1) as Hsm1 by (by eapply join_small_l).
  pose proof (join_group acc d [pos] Hsm1) as Hj. fold acc1 in Hj. change (zlen [pos]) with 1 in Hj. rewrite Hlast in Hj. apply pair_equal_spec in Hj as [Hjd Hjf].
  assert (last (gdocs acc1) = Some d) as Hl1 by apply last_gdocs_join.
  assert (∀ e, Some d = Some e → is_u32 e) as Hpe by (by intros e [= <-]).
  destruct (starts_doc prev d) eqn:Hnd; cbn [negb Z.eqb].
  - assert (is_i64 (d - default 0 prev)) as Hi.
    { unfold is_i64. unfold is_u32 in Hd. destruct prev as [e|]; cbn; [specialize (Hprev e eq_refl); unfold is_u32 in Hprev|]; lia. }
    destruct (DecodeChainVarint_yields _ _ _ _ (zigzag_encode_range _) Hy1) as (c2 & -> & Hy2). rewrite !bind_Ok, zigzag_decode_encode by done.
    replace (default 0 prev + (d - default 0 prev)) with d by lia. rewrite (u32_small d) by done.
    unfold bump_back. rewrite last_snoc, removelast_last, bind_Ok. change (u32 (0 + 1)) with 1. rewrite <- Hjd, <- Hjf.
    rewrite (IH c2 (Some d) acc1 _ Hl1 Hpe Hsm Hy2 Hk). cbn [map snd]. destruct keep; [|done]. rewrite (Hk eq_refl). by rewrite <- app_assoc.
  - rewrite app_nil_l in Hy1. rewrite !bind_Ok. unfold bump_back.
    assert (prev = Some d) as ->. { unfold starts_doc in Hnd. destruct prev as [d'|]; [|done]. apply negb_false_iff, Z.eqb_eq in Hnd. by subst. }
    assert (∃ f, last (gfreqs acc) = Some f) as (f & Hf).
    { destruct acc as [|h acc _] using rev_ind; [done|]. unfold gfreqs. rewrite map_app. cbn [map]. rewrite last_snoc. by eexists. }
    rewrite Hf in *. unfold default, from_option, id in Hjf. rewrite bind_Ok, <- Hjf, <- Hjd.
    rewrite (IH c1 (Some d) acc1 _ Hl1 Hpe Hsm Hy1 Hk). cbn [map snd]. destruct keep; [|done]. rewrite (Hk eq_refl). by rewrite <- app_assoc.
Qed.

Lemma decode_positions_spec p ts pad c prev flat :
  Forall wf_token ts → yields p c (chain_bytes true prev ts ++ pad) →
  decode_positions (length ts) p c flat = Ok (flat ++ map snd ts).
Proof.
  intros Hts. revert c prev flat. induction Hts as [|[d pos] ts [Hd Hpos] Hts IH]; intros c prev flat Hy.
  { cbn. by rewrite app_nil_r. }
  cbn [fst snd] in Hd, Hpos. cbn [length decode_positions chain_bytes] in *. unfold token_bytes in Hy. cbn [fst snd] in Hy. rewrite <- !app_assoc in Hy.
  destruct (tag_spec true (starts_doc prev d) pos Hpos) as (Hu & Hbit & Hval).
  destruct (DecodeChainVarint_yields _ _ _ _ Hu Hy) as (c1 & -> & Hy1). rewrite bind_Ok, Hbit, Hval.
  assert (∃ c2, (if negb ((if starts_doc prev d then 1 else 0) =? 0) then '(_, c) ← DecodeChainVarint p c1; Ok c else Ok c1) = Ok c2 ∧
            yields p c2 (chain_bytes true (Some d) ts ++ pad)) as (c2 & -> & Hy2).
  { destruct (starts_doc prev d); cbn [negb Z.eqb]; [|by exists c1].
    destruct (DecodeChainVarint_yields _ _ _ _ (zigzag_encode_range _) Hy1) as (c2 & -> & Hy2). rewrite bind_Ok. by exists c2. }
  rewrite bind_Ok, (IH c2 _ _ Hy2). cbn [map snd]. by rewrite <- app_assoc.
Qed.

(** ** A whole chain *)

Lemma room_le p level heads data lv h n :
  is_level level → chain p level heads data → tail_of level heads (zlen data) = (lv, h, n) → room level heads ≤ h + cap lv.
Proof.
  intros Hl Hc Ht. assert (room level heads ≤ h + cap lv - match heads with h0 :: _ => h0 | [] => 0 end) as Hgo.
  2: { destruct heads as [|h0 hs]; [done|]. pose proof (owns_bound p level (h0 :: hs) data h0 Hl Hc). destruct (cap_range level Hl).
       cbn [owns] in *. lia. }
  revert level data Hl Hc Ht. induction heads as [|h0 hs IH]; intros level data Hl Hc Ht; [done|]. destruct Hc as [_ Hc]. destruct hs as [|h1 hs].
  - cbn in Ht. injection Ht as <- <- <-. cbn [room]. lia.
  - destruct Hc as (Hfull & _ & _ & Hord & Hc). cbn [room]. cbn [tail_of] in Ht.
    replace (zlen data - cap level) with (zlen (drop (Z.to_nat (cap level)) data)) in Ht.
    + specialize (IH (nxt level) _ ltac:(by apply nxt_range) Hc Ht). cbn [room] in IH. lia.
    + destruct (cap_range level Hl). rewrite length_drop. lia.
Qed.

(** A cursor whose budget is the append offset yields the chain, then padding. *)
Lemma chain_yields p t hs data :
  wf_pool p → holds_chain p t hs data → hs ≠ [] → ∃ pad, yields p (cursor (head t) (cur (w t))) (data ++ pad).
Proof.
  intros Hp Ht Hne. destruct hs as [|h hs]; [done|]. destruct Ht as (Hh & Hc & (h1 & n & Htl & Hcur & _)).
  pose proof (tail_spec _ _ _ _ _ _ _ level_0 Hc Htl) as (Hlv & [Ho Hn1] & Hn & _ & _). pose proof (chain_head _ _ _ _ Hp Hc) as Hb.
  pose proof (room_tail _ _ _ _ _ _ _ level_0 Hc Htl) as Hr. pose proof (room_le _ _ _ _ _ _ _ level_0 Hc Htl) as Hrl.
  destruct (stored_padded _ _ _ _ level_0 Hc) as [Hst _].
  exists (take (Z.to_nat (cur (w t)) - length data) (replicate (Z.to_nat (room 0 (h :: hs)) - length data) 0)).
  rewrite <- (take_ge data (Z.to_nat (cur (w t)))) at 1 by lia. rewrite <- take_app, <- Hst.
  pose proof (cursor_yields p 0 h hs data 0 (cur (w t)) Hp level_0 Hc) as Hy. cbn [drop] in Hy. apply Hy.
  - destruct (cap_range 0 level_0). lia.
  - destruct Ho. lia.
  - rewrite Hh. split_and!; [cbn; lia| |done]. cbn. rewrite u32_small; [done|]. unfold is_u32. destruct Hc as [[_ Hs] _]. pose proof (wf_u32 p Hp).
    unfold UINT32_MAX in *. change (cap 0) with 5 in *. change (kSliceSizes !!! 0%nat) with 5. lia.
  - done.
Qed.

(** ** Sorting by document *)

Definition tokens_of (gs : list Group) : list Token := concat (map (λ g : Group, map (pair g.1) g.2) gs).

Lemma tokens_of_cons_group g gs : tokens_of (cons_group g gs) = map (pair g.1) g.2 ++ tokens_of gs.
Proof.
  destruct g as [d ps], gs as [|[e qs] gs]; [done|]. cbn [cons_group fst snd]. destruct (Z.eqb_spec d e) as [->|]; [|done].
  unfold tokens_of. cbn [map concat fst snd]. by rewrite map_app, app_assoc.
Qed.

Lemma tokens_of_groups ts : tokens_of (groups ts) = ts.
Proof. induction ts as [|[d p] ts IH]; [done|]. cbn [groups]. by rewrite tokens_of_cons_group, IH. Qed.

Lemma groups_one_doc d ps : ps ≠ [] → groups (map (pair d) ps) = [(d, ps)].
Proof.
  induction ps as [|p [|q ps] IH]; [done|done|]. intros _. cbn [map groups] in *. rewrite IH by done. cbn [cons_group fst snd]. by rewrite Z.eqb_refl.
Qed.

Lemma groups_of_tokens gs : nonempty_groups gs → groups (tokens_of gs) = join_all (map (λ g, [g]) gs).
Proof.
  induction 1 as [|[d ps] gs Hg Hgs IH]; [done|]. cbn [map]. rewrite join_all_cons, <- IH. unfold tokens_of. cbn [map concat fst snd].
  rewrite groups_app, groups_one_doc by done. done.
Qed.

Lemma gpos_join_all l : gpos (join_all l) = concat (map gpos l).
Proof. induction l as [|x l IH]; [done|]. rewrite join_all_cons, gpos_join, IH. done. Qed.

Lemma pos_offs_lookup base gs k :
  0 ≤ base → base + zlen (gpos gs) < 2 ^ 32 → (k < length gs)%nat → pos_offs base (gfreqs gs) !! k = Some (base + zlen (gpos (take k gs))).
Proof.
  revert base k. induction gs as [|g gs IH]; intros base k Hb Hs Hk; cbn [length] in Hk; [lia|]. unfold gpos in Hs. cbn [map concat] in Hs. rewrite length_app in Hs.
  destruct k as [|k]; cbn [gfreqs map pos_offs take lookup list_lookup]; [f_equal; cbn; lia|].
  fold (gfreqs gs). rewrite u32_small by (unfold is_u32; lia). cbn [lookup list_lookup]. rewrite IH by (unfold gpos; lia). f_equal. unfold gpos. cbn [map concat]. rewrite length_app. lia.
Qed.

Definition single (gs : list Group) (k : nat) : list Group := [gs !!! k].

Lemma place_doc_spec (hp : bool) gs acc k :
  zlen (gpos gs) < 2 ^ 32 → (k < length gs)%nat → zlen (gpos (join acc (single gs k))) < 2 ^ 32 →
  place_doc hp (gdocs gs) (gfreqs gs) (if hp then gpos gs else []) (if hp then pos_offs 0 (gfreqs gs) else []) k
    (gdocs acc, gfreqs acc, if hp then gpos acc else []) =
    Ok (gdocs (join acc (single gs k)), gfreqs (join acc (single gs k)), if hp then gpos (join acc (single gs k)) else []).
Proof.
  intros Hs Hk Hj. destruct (lookup_lt_is_Some_2 gs k Hk) as [[d ps] Hg]. unfold single in *. rewrite (list_lookup_total_correct _ _ _ Hg) in *.
  unfold place_doc. assert (gdocs gs !! k = Some d) as -> by (unfold gdocs; by rewrite list_lookup_fmap, Hg).
  assert (gfreqs gs !! k = Some (zlen ps)) as -> by (unfold gfreqs; by rewrite list_lookup_fmap, Hg).
  pose proof (join_group acc d ps (small_groups _ Hj)) as Hdf. apply pair_equal_spec in Hdf as [-> ->].
  assert (∀ (X : Type) (f : list Z → list Z → X),
    (let '(nd, nf) := match last (gdocs acc) with
        | Some d' => if d' =? d then (gdocs acc, bump_last (gfreqs acc) (zlen ps)) else (gdocs acc ++ [d], gfreqs acc ++ [zlen ps])
        | None => (gdocs acc ++ [d], gfreqs acc ++ [zlen ps]) end in f nd nf) =
    f (if starts_doc (last (gdocs acc)) d then gdocs acc ++ [d] else gdocs acc)
      (if starts_doc (last (gdocs acc)) d then gfreqs acc ++ [zlen ps] else removelast (gfreqs acc) ++ [u32 (default 0 (last (gfreqs acc)) + zlen ps)])) as Hnd.
  { intros X f. destruct acc as [|h acc _] using rev_ind; [done|]. rewrite last_gdocs. cbn [starts_doc]. destruct (h.1 =? d); [|done]. cbn [negb].
    unfold bump_last, gfreqs. rewrite map_app. cbn [map]. by rewrite last_snoc. }
  rewrite Hnd. destruct hp; [|done]. rewrite pos_offs_lookup by lia. rewrite Z.add_0_l.
  assert (gpos gs = gpos (take k gs) ++ ps ++ gpos (drop (S k) gs)) as ->.
  { rewrite <- (take_drop_middle gs k _ Hg) at 1. unfold gpos. by rewrite map_app, concat_app. }
  assert (gpos [(d, ps)] = ps) as Hone by (unfold gpos; cbn; apply app_nil_r).
  by rewrite subslice_mid, bind_Ok, gpos_join, Hone.
Qed.

Lemma place_docs_spec (hp : bool) gs order acc :
  zlen (gpos gs) < 2 ^ 32 → Forall (λ k, (k < length gs)%nat) order →
  zlen (gpos (join acc (join_all (map (single gs) order)))) < 2 ^ 32 →
  fold_result (place_doc hp (gdocs gs) (gfreqs gs) (if hp then gpos gs else []) (if hp then pos_offs 0 (gfreqs gs) else [])) order
    (gdocs acc, gfreqs acc, if hp then gpos acc else []) =
    Ok (gdocs (join acc (join_all (map (single gs) order))), gfreqs (join acc (join_all (map (single gs) order))),
        if hp then gpos (join acc (join_all (map (single gs) order))) else []).
Proof.
  intros Hs Ho. revert acc. induction Ho as [|k order Hk Ho IH]; intros acc Hj; cbn [map fold_result]; [by rewrite join_nil_r|].
  cbn [map] in Hj. rewrite join_all_cons, <- join_assoc in Hj |- *. rewrite place_doc_spec; [|done|done|rewrite gpos_join, length_app in Hj; lia].
  rewrite bind_Ok. by apply IH.
Qed.

Lemma positions_in_tokens gs d : positions_in (tokens_of gs) d = concat (map snd (List.filter (λ g : Group, g.1 =? d) gs)).
Proof.
  unfold positions_in, tokens_of. induction gs as [|[e ps] gs IH]; [done|]. cbn [map concat List.filter fst snd]. rewrite List.filter_app, map_app, IH.
  assert (List.filter (λ t : Token, t.1 =? d) (map (pair e) ps) = if e =? d then map (pair e) ps else []) as ->.
  { clear. induction ps as [|p ps IH]; cbn [map List.filter fst]; [by destruct (e =? d)|]. rewrite IH. by destruct (e =? d). }
  destruct (e =? d); [|done]. cbn [map concat snd]. f_equal. clear. induction ps as [|p ps IH]; cbn; [done|by rewrite IH].
Qed.

Lemma in_order_tokens gs : StronglySorted (λ g h : Group, g.1 ≤ h.1) gs → in_order (tokens_of gs).
Proof.
  unfold in_order, tokens_of. induction 1 as [|[d ps] gs Hgs IH Hle]; [constructor|]. cbn [map concat fst snd]. rewrite map_app.
  assert (Forall (λ x, d ≤ x) (map fst (concat (map (λ g : Group, map (pair g.1) g.2) gs)))) as Hall.
  { apply Forall_map, Forall_concat, Forall_map. eapply Forall_impl; [exact Hle|]. cbn. intros [e qs] He. cbn in *. by apply Forall_map, Forall_true. }
  clear Hle. induction ps as [|p ps IHp]; [done|]. cbn [map app fst]. constructor; [exact IHp|]. apply Forall_app. split; [|done].
  apply Forall_map, Forall_map, Forall_true. intros x. cbn. lia.
Qed.

(** Two token lists with the same positions in every document. *)
Definition same_docs (ts us : list Token) : Prop := ts ≡ₚ us ∧ ∀ d, positions_in ts d = positions_in us d.

#[export] Instance tokens_of_perm : Proper (Permutation ==> Permutation) tokens_of.
Proof. intros gs hs Hp. unfold tokens_of. by rewrite Hp. Qed.

Lemma map_lookup_seq {A} `{Inhabited A} (l : list A) : map (λ k, l !!! k) (seq 0 (length l)) = l.
Proof. induction l as [|x l IH]; [done|]. cbn [length seq map]. rewrite <- seq_shift, map_map. cbn. f_equal. exact IH. Qed.

Lemma filter_map_comm {A B} (f : A → B) (P : B → bool) l : List.filter P (map f l) = map f (List.filter (λ x, P (f x)) l).
Proof. induction l as [|x l IH]; [done|]. cbn. rewrite IH. by destruct (P (f x)). Qed.

Lemma StronglySorted_map_in {A B} (R : A → A → Prop) (Q : B → B → Prop) (f : A → B) l :
  StronglySorted R l → (∀ a b, a ∈ l → b ∈ l → R a b → Q (f a) (f b)) → StronglySorted Q (map f l).
Proof.
  induction 1 as [|x l Hs IH Hx]; intros Hf; [constructor|]. cbn [map]. constructor.
  - apply IH. intros a b Ha Hb. apply Hf; by right.
  - apply Forall_map, Forall_forall. intros y Hy. rewrite Forall_forall in Hx. apply Hf; [by left|by right|by apply Hx].
Qed.

Lemma gdocs_total gs k : (k < length gs)%nat → gdocs gs !!! k = (gs !!! k).1.
Proof.
  intros Hk. destruct (lookup_lt_is_Some_2 gs k Hk) as [g Hg]. rewrite (list_lookup_total_correct _ _ _ Hg). apply list_lookup_total_correct.
  unfold gdocs. by rewrite list_lookup_fmap, Hg.
Qed.

Section Sorted.
Context `{StdSortLaws}.

Lemma key_strict_weak {A} (key : A → Z) : strict_weak (λ a b, key a <? key b).
Proof. split; intros a b; [|intros c]; rewrite ?Z.ltb_lt, ?Z.ltb_ge; lia. Qed.

Lemma SortByDocid_spec (hp : bool) ts :
  zlen ts < 2 ^ 32 →
  ∃ us, SortByDocid hp (gdocs (groups ts)) (gfreqs (groups ts)) (if hp then gpos (groups ts) else []) =
      Ok (gdocs (groups us), gfreqs (groups us), if hp then gpos (groups us) else []) ∧
    in_order us ∧ same_docs us ts.
Proof.
  intros Hlen. set (gs := groups ts). assert (zlen (gpos gs) < 2 ^ 32) as Hs by (unfold gs; by rewrite gpos_groups, length_map).
  unfold SortByDocid. assert (length (gdocs gs) = length gs) as -> by apply length_map.
  set (order := std_stable_sort _ (seq 0 (length gs))).
  pose proof (key_strict_weak (λ a : nat, gdocs gs !!! a)) as Hsw. cbn beta in Hsw.
  pose proof (std_stable_sort_permutes _ (seq 0 (length gs)) Hsw) as Hperm. fold order in Hperm.
  pose proof (std_stable_sort_sorts _ (seq 0 (length gs)) Hsw) as Hsorted. fold order in Hsorted.
  assert (Forall (λ k, (k < length gs)%nat) order) as Ho.
  { rewrite Hperm. apply Forall_forall. intros k Hk%elem_of_seq. lia. }
  set (P := map (λ k, gs !!! k) order). assert (P ≡ₚ gs) as HP.
  { unfold P. rewrite Hperm. by rewrite map_lookup_seq. }
  assert (nonempty_groups P) as Hne by (unfold nonempty_groups; rewrite HP; apply groups_nonempty).
  set (us := tokens_of P). exists us.
  assert (groups us = join_all (map (single gs) order)) as Hg.
  { unfold us. rewrite groups_of_tokens by done. unfold P. by rewrite map_map. }
  assert (zlen (gpos (groups us)) < 2 ^ 32) as Hsu.
  { rewrite gpos_groups, length_map. unfold us. rewrite (Permutation_length (tokens_of_perm _ _ HP : tokens_of P ≡ₚ tokens_of gs)). unfold gs. by rewrite tokens_of_groups. }
  split; [|split].
  - pose proof (place_docs_spec hp gs order []) as Hpl. cbn [join] in Hpl. rewrite <- Hg in Hpl. replace (if hp then gpos [] else []) with (@nil Z) in Hpl by (by destruct hp).
    change (gdocs []) with (@nil Z) in Hpl. change (gfreqs []) with (@nil Z) in Hpl. cbv zeta. rewrite Hpl by done. rewrite bind_Ok. by destruct hp.
  - apply in_order_tokens. unfold P. apply (StronglySorted_map_in _ _ _ order Hsorted). intros a b Ha Hb Hle.
    rewrite Forall_forall in Ho. apply Z.ltb_ge in Hle.
    rewrite !gdocs_total in Hle by auto. exact Hle.
  - split; [unfold us; rewrite HP; unfold gs; by rewrite tokens_of_groups|]. intros d. rewrite <- (tokens_of_groups ts). fold gs.
    unfold us. rewrite !positions_in_tokens. do 2 f_equal. unfold P. replace (List.filter (λ g : Group, g.1 =? d) gs) with (List.filter (λ g : Group, g.1 =? d) (map (λ k, gs !!! k) (seq 0 (length gs)))) by (by rewrite map_lookup_seq). rewrite !filter_map_comm. f_equal.
    destruct (List.filter (λ k, (gs !!! k).1 =? d) (seq 0 (length gs))) as [|x l] eqn:Hf.
    { destruct (List.filter _ order) as [|y m] eqn:Hfo; [done|]. exfalso.
      assert (In y (List.filter (λ k, (gs !!! k).1 =? d) order)) as Hy by (rewrite Hfo; by left). apply List.filter_In in Hy as [Hy He].
      apply list_elem_of_In in Hy. rewrite Hperm in Hy. apply list_elem_of_In in Hy.
      assert (In y (List.filter (λ k, (gs !!! k).1 =? d) (seq 0 (length gs)))) as Hin by (by apply List.filter_In). by rewrite Hf in Hin. }
    assert (In x (List.filter (λ k, (gs !!! k).1 =? d) (seq 0 (length gs)))) as Hx by (rewrite Hf; by left).
    apply List.filter_In in Hx as [Hx He%Z.eqb_eq]. apply list_elem_of_In, elem_of_seq in Hx.
    rewrite <- Hf. pose proof (std_stable_sort_stable (λ a b, gdocs gs !!! a <? gdocs gs !!! b) x (seq 0 (length gs)) Hsw) as Hstab. fold order in Hstab.
    assert (∀ m, Forall (λ k, (k < length gs)%nat) m →
      List.filter (λ y, negb (gdocs gs !!! x <? gdocs gs !!! y) && negb (gdocs gs !!! y <? gdocs gs !!! x)) m = List.filter (λ k, (gs !!! k).1 =? d) m) as Heq.
    { intros m Hm. apply List.filter_ext_in. intros y Hy%list_elem_of_In. rewrite Forall_forall in Hm. specialize (Hm y Hy).
      rewrite !gdocs_total by lia. rewrite He. destruct (Z.eqb_spec (gs !!! y).1 d), (Z.ltb_spec d (gs !!! y).1), (Z.ltb_spec (gs !!! y).1 d); cbn; try done; lia. }
    rewrite !Heq in Hstab; [exact Hstab| |done]. by rewrite <- Hperm.
Qed.

(** *** The postings of a term *)

(** Postings that carry the documents [gs]: positions inline or in the pump. *)
Record carries (hp : bool) (tp : TermPostings) (term : bytes) (gs : list Group) : Prop := {
  ca_term : tp_term tp = term;
  ca_docs : tp_docids tp = gdocs gs;
  ca_freqs : tp_freqs tp = gfreqs gs;
  ca_pos : positions_of tp = if hp then gpos gs else [];
  ca_pump : match tp_pos_pump tp with
            | Some q => hp = true ∧ tp_positions_flat tp = [] ∧ tp_pos_total tp = zlen q ∧ kSlimDfThreshold ≤ zlen gs
            | None => True
            end
}.

Lemma carries_posting hp term gs : carries hp (posting hp term gs) term gs.
Proof. by split. Qed.

(** The documents of the tokens, in order; the tokens of a document as they came. *)
Definition documents (ts : list Token) (gs : list Group) : Prop := ∃ us, gs = groups us ∧ in_order us ∧ same_docs us ts.

Lemma documents_in_order ts : in_order ts → documents ts (groups ts).
Proof. intros Hs. by exists ts. Qed.

Lemma to_postings_spec hp p term t hs ts allow :
  wf_pool p → holds_term hp p t hs ts → ts ≠ [] → zlen ts ≤ UINT32_MAX → Forall wf_token ts →
  ∃ tp gs, to_postings hp p term t allow = Ok tp ∧ carries hp tp term gs ∧ documents ts gs ∧
    (in_order ts → gs = groups ts) ∧ (allow = false → tp = posting hp term gs).
Proof.
  intros Hp [Hc Hn _ _ Hso] Hne Hlen Hts. unfold UINT32_MAX in Hlen. unfold to_postings.
  assert (hs ≠ []) as Hhs.
  { intros ->. destruct Hc as [Hc _]. destruct ts as [|u ts]; [done|]. cbn [chain_bytes] in Hc. apply app_eq_nil in Hc as [Hc _].
    pose proof (token_bytes_length hp None u) as Hl. rewrite Hc in Hl. cbn in Hl. lia. }
  destruct (chain_yields p t hs _ Hp Hc Hhs) as (pad & Hy). rewrite Hn.
  assert ((zlen ts =? 0) || (head t =? kNoChain) = false) as ->.
  { destruct ts as [|u ts]; [done|]. destruct hs as [|h hs]; [done|]. destruct Hc as (Hh & Hc & _). pose proof (chain_head _ _ _ _ Hp Hc) as Hb.
    rewrite Hh. unfold kNoChain, UINT32_MAX in *. apply orb_false_iff. split; apply Z.eqb_neq; cbn [length]; lia. }
  rewrite Nat2Z.id. set (stream := allow && hp && sorted t && (kStreamPositionsTokenThreshold <=? zlen ts)).
  assert (Forall (λ g, zlen g.2 < 2 ^ 32) (groups ts)) as Hsm by (apply small_groups; rewrite gpos_groups, length_map; lia).
  pose proof (decode_tokens_spec hp (hp && negb stream) p ts pad (cursor (head t) (cur (w t))) None [] [] Hts eq_refl ltac:(done) Hsm Hy) as Hd.
  change (gdocs []) with (@nil Z) in Hd. change (gfreqs []) with (@nil Z) in Hd. cbn [default from_option join app] in Hd. rewrite Hd by (intros Hx; by apply andb_prop in Hx as [? _]). rewrite bind_Ok. clear Hd.
  assert (zlen (gdocs (groups ts)) = zlen (groups ts)) as Hdl by (unfold gdocs; by rewrite length_map).
  destruct stream eqn:Hstream; cbn [negb andb].
  - unfold stream in Hstream. rewrite !andb_true_iff in Hstream. destruct Hstream as [[[-> ->] Hsorted] _]. cbn [andb].
    pose proof (proj1 Hso Hsorted) as Hord. rewrite Hdl.
    pose proof (decode_positions_spec p ts pad (cursor (head t) (cur (w t))) None [] Hts Hy) as Hpos. cbn [app] in Hpos. rewrite Hpos, <- gpos_groups.
    destruct (Z.leb_spec kSlimDfThreshold (zlen (groups ts))) as [Hge|Hlt]; rewrite bind_Ok; eexists _, (groups ts); (split; [reflexivity|]).
    + split; [|by split; [apply documents_in_order|]]. split; try done. cbn [tp_pos_pump]. split_and!; [done|done| |done].
      cbn [tp_pos_total]. by rewrite gpos_groups, length_map.
    + split; [apply (carries_posting true)|]. by split; [apply documents_in_order|].
  - assert ((if hp && true then map snd ts else []) = if hp then gpos (groups ts) else []) as -> by (rewrite gpos_groups; by destruct hp).
    destruct (sorted t) eqn:Hsorted; cbn [negb].
    + eexists _, (groups ts). split; [reflexivity|]. split; [apply carries_posting|]. pose proof (proj1 Hso eq_refl). by split; [apply documents_in_order|].
    + destruct (SortByDocid_spec hp ts ltac:(lia)) as (us & -> & Hord & Hsame). rewrite bind_Ok.
      eexists _, (groups us). split; [reflexivity|]. split; [apply carries_posting|]. split; [by exists us|]. split; [|done].
      intros Hx. apply Hso in Hx. done.
Qed.
End Sorted.
