(* ===== verification/SpimiInvariant.v ===== *)
(** * SpimiInvariant: the accumulators and the tokens they hold.

    [acc_inv] relates the slots, the free list and the arena to the tokens of
    every live id. Appending a token keeps it ([append_token_spec]); taking a
    term out yields the term and keeps it for the others ([take_term_spec]). *)

From S2P Require Import Prelude Status ByteIO TermKey CompactPostingPool TermPostings PostingGroups RunMerge SpimiTermBuffer SpimiChains.

#[local] Open Scope Z_scope.

(** The tokens of each id. *)
Abbreviation Tokens := (Z → list Token).
Definition no_tokens : Tokens := λ _, [].
Definition add_to (toks : Tokens) (id : Z) (t : Token) : Tokens := λ i, if i =? id then toks i ++ [t] else toks i.
Definition without (toks : Tokens) (id : Z) : Tokens := λ i, if i =? id then [] else toks i.

Record acc_inv (hp : bool) (n : Z) (a : Accumulators) (live : list Z) (toks : Tokens) (hss : Z → list Z) : Prop := {
  ai_pool : wf_pool (pool_ a);
  ai_size : zlen (slot_of_ a) = n;
  ai_small : n ≤ UINT32_MAX;
  ai_nodup : NoDup live;
  ai_range : Forall (λ id, 0 ≤ id < n) live;
  ai_dead id : id ∉ live → toks id = [];
  ai_zero id : 0 ≤ id < n → id ∉ live → slot_of_ a !! Z.to_nat id = Some 0;
  ai_live id : id ∈ live → ∃ (slot : nat) t, slot_of_ a !! Z.to_nat id = Some (Z.of_nat slot + 1) ∧ slots_ a !! slot = Some t ∧
    holds_term hp (pool_ a) t (hss id) (toks id);
  ai_inj id id' slot : id ∈ live → id' ∈ live → slot_of_ a !! Z.to_nat id = Some slot → slot_of_ a !! Z.to_nat id' = Some slot → id = id';
  ai_disjoint id id' o : id ∈ live → id' ∈ live → id ≠ id' → owns 0 (hss id) o → ¬ owns 0 (hss id') o;
  ai_free_nodup : NoDup (free_slots_ a);
  ai_free f : f ∈ free_slots_ a → 0 ≤ f ∧ slots_ a !! Z.to_nat f = Some new_term ∧ ∀ id, id ∈ live → slot_of_ a !! Z.to_nat id ≠ Some (f + 1);
  ai_slots : zlen (slots_ a) ≤ n;
  ai_count : length (slots_ a) = (length live + length (free_slots_ a))%nat;
  ai_live_count : live_term_count_ a = zlen live
}.

Lemma live_length hp n a live toks hss : acc_inv hp n a live toks hss → zlen live ≤ n.
Proof.
  intros Hi. pose proof (ai_size _ _ _ _ _ _ Hi) as Hsz.
  assert (live ⊆+ seqZ 0 n) as Hsub.
  { apply NoDup_submseteq; [apply (ai_nodup _ _ _ _ _ _ Hi)|]. intros id Hid. apply elem_of_seqZ. pose proof (ai_range _ _ _ _ _ _ Hi) as Hr.
    rewrite Forall_forall in Hr. specialize (Hr id Hid). lia. }
  apply submseteq_length in Hsub. rewrite length_seqZ in Hsub. lia.
Qed.

Lemma acc_inv_perm hp n a live live' toks hss : live ≡ₚ live' → acc_inv hp n a live toks hss → acc_inv hp n a live' toks hss.
Proof.
  intros Hp Hi. assert (∀ x, x ∈ live' ↔ x ∈ live) as He by (intros x; by rewrite Hp). destruct Hi. split; try done.
  - by rewrite <- Hp.
  - by rewrite <- Hp.
  - intros id. rewrite He. apply ai_dead0.
  - intros id. rewrite He. apply ai_zero0.
  - intros id. rewrite He. apply ai_live0.
  - intros id id' slot. rewrite !He. apply ai_inj0.
  - intros id id' o. rewrite !He. apply ai_disjoint0.
  - intros f Hf. destruct (ai_free0 f Hf) as (? & ? & Hl). split; [done|]. split; [done|]. intros id. rewrite He. apply Hl.
  - by rewrite ai_count0, (Permutation_length Hp).
  - by rewrite ai_live_count0, (Permutation_length Hp).
Qed.

(** *** Slots *)

Lemma last_Some_snoc {A} (l : list A) x : last l = Some x → l = removelast l ++ [x].
Proof. destruct l as [|y l _] using rev_ind; [done|]. rewrite last_snoc, removelast_last. by intros [= ->]. Qed.

Lemma term_slot_old hp n a live toks hss id :
  acc_inv hp n a live toks hss → id ∈ live →
  ∃ (slot : nat) t, term_slot id a = Ok (slot, false, a) ∧ slot_of_ a !! Z.to_nat id = Some (Z.of_nat slot + 1) ∧
    slots_ a !! slot = Some t ∧ holds_term hp (pool_ a) t (hss id) (toks id).
Proof.
  intros Hi Hid. destruct (ai_live _ _ _ _ _ _ Hi id Hid) as (slot & t & Hs & Ht & Hh). exists slot, t. split; [|done].
  unfold term_slot. rewrite Hs. rewrite (proj2 (Z.eqb_neq _ _)) by lia. cbn [negb]. by replace (Z.to_nat (Z.of_nat slot + 1 - 1)) with slot by lia.
Qed.

(** A new id claims a slot with an empty term. *)
Definition claim (toks : Z → list Z) (id : Z) : Z → list Z := λ i, if i =? id then [] else toks i.

Lemma term_slot_new hp n a live toks hss id :
  acc_inv hp n a live toks hss → 0 ≤ id < n → id ∉ live →
  ∃ (slot : nat) a', term_slot id a = Ok (slot, true, a') ∧
    let a2 := mkAccumulators (slot_of_ a') (slot_capacity_ a') (slots_ a') (free_slots_ a') (touched_ids_ a' ++ [id])
                (u64 (live_term_count_ a' + 1)) (pool_ a') in
    acc_inv hp n a2 (live ++ [id]) toks (claim hss id) ∧ slot_of_ a2 !! Z.to_nat id = Some (Z.of_nat slot + 1) ∧
    slots_ a2 !! slot = Some new_term ∧ touched_ids_ a2 = touched_ids_ a ++ [id] ∧ pool_ a2 = pool_ a ∧
    slot_capacity_ a2 = slot_capacity_ a.
Proof.
  intros Hi Hr Hid. pose proof (live_length _ _ _ _ _ _ Hi) as Hll.
  assert (zlen (live ++ [id]) ≤ n) as Hll'.
  { assert (live ++ [id] ⊆+ seqZ 0 n) as Hsub.
    { apply NoDup_submseteq.
      - apply NoDup_app. split; [apply (ai_nodup _ _ _ _ _ _ Hi)|]. split; [|apply NoDup_singleton]. intros x Hx ->%list_elem_of_singleton. done.
      - intros x [Hx| ->%list_elem_of_singleton]%elem_of_app; apply elem_of_seqZ; [|lia]. pose proof (ai_range _ _ _ _ _ _ Hi) as Hg.
        rewrite Forall_forall in Hg. specialize (Hg x Hx). lia. }
    apply submseteq_length in Hsub. rewrite length_seqZ in Hsub. lia. }
  rewrite length_app in Hll'. cbn [length] in Hll'.
  destruct Hi. unfold term_slot. rewrite ai_zero0 by done. cbn [negb Z.eqb].
  set (st := match last (free_slots_ a) with Some slot => (slot, slots_ a, removelast (free_slots_ a)) | None => (u32 (zlen (slots_ a)), slots_ a ++ [new_term], free_slots_ a) end).
  assert (∃ (slot : nat) slots free, st = (Z.of_nat slot, slots, free) ∧ slots !! slot = Some new_term ∧ Z.of_nat slot < UINT32_MAX ∧
    (∀ id', id' ∈ live → slot_of_ a !! Z.to_nat id' ≠ Some (Z.of_nat slot + 1)) ∧ NoDup free ∧
    (∀ f, f ∈ free → f ∈ free_slots_ a ∧ f ≠ Z.of_nat slot) ∧ length slots = (S (length live) + length free)%nat ∧ zlen slots ≤ n ∧
    (∀ k t, slots_ a !! k = Some t → slots !! k = Some t)) as (slot & slots & free & -> & Hsl & Hsb & Hno & Hnd & Hfr & Hcnt & Hsn & Hold).
  { unfold st. destruct (last (free_slots_ a)) as [f|] eqn:Hl.
    - apply last_Some_snoc in Hl. assert (f ∈ free_slots_ a) as Hf by (rewrite Hl; apply elem_of_app; right; by left).
      destruct (ai_free0 f Hf) as (Hf0 & Hf1 & Hf2). exists (Z.to_nat f), (slots_ a), (removelast (free_slots_ a)). rewrite Z2Nat.id by done.
      pose proof (lookup_lt_Some _ _ _ Hf1). assert (length (free_slots_ a) = S (length (removelast (free_slots_ a)))) as Hlen.
      { rewrite Hl at 1. rewrite length_app. cbn. lia. }
      rewrite Hl in ai_free_nodup0. apply NoDup_app in ai_free_nodup0 as (Hnd & Hx & _).
      split; [done|]. split; [done|]. split; [unfold UINT32_MAX in *; lia|]. split; [intros id' Hin; by apply Hf2|].
      split; [done|]. split; [|split; [lia|]].
      2: { split; [lia|done]. }
      intros g Hg. split; [rewrite Hl; apply elem_of_app; by left|]. intros ->. apply (Hx f Hg). by left.
    - apply last_None in Hl. rewrite Hl in ai_count0. cbn [length] in ai_count0.
      assert (u32 (zlen (slots_ a)) = zlen (slots_ a)) as -> by (apply u32_small; unfold is_u32, UINT32_MAX in *; lia).
      exists (length (slots_ a)), (slots_ a ++ [new_term]), (free_slots_ a). split; [done|]. split; [by apply list_lookup_middle|].
      split; [unfold UINT32_MAX in *; lia|]. split.
      { intros id' Hin Heq. destruct (ai_live0 id' Hin) as (sl & t & Hs & Ht & _). rewrite Hs in Heq. injection Heq as Heq.
        apply lookup_lt_Some in Ht. lia. }
      split; [done|]. split; [by rewrite Hl; intros f ?%elem_of_nil|]. split; [rewrite length_app, Hl; cbn; lia|]. split; [rewrite length_app; cbn; lia|].
      intros k t Hk. by apply lookup_app_l_Some. }
  assert (∀ id', id' ∈ live → Z.to_nat id' ≠ Z.to_nat id) as Hne.
  { intros id' Hin He. rewrite Forall_forall in ai_range0. specialize (ai_range0 id' Hin). assert (id' = id) by lia. by subst. }
  assert (Z.to_nat id < length (slot_of_ a))%nat as Hlt by lia.
  eexists slot, _. rewrite Nat2Z.id. split; [reflexivity|]. cbn [slot_of_ slot_capacity_ slots_ free_slots_ touched_ids_ live_term_count_ pool_].
  assert (u32 (Z.of_nat slot + 1) = Z.of_nat slot + 1) as -> by (apply u32_small; unfold is_u32, UINT32_MAX in *; lia).
  split; [|split; [by apply list_lookup_insert_eq|done]].
  assert (∀ id', id' ∈ live → <[Z.to_nat id:=Z.of_nat slot + 1]> (slot_of_ a) !! Z.to_nat id' = slot_of_ a !! Z.to_nat id') as Hoth.
  { intros id' Hin. rewrite list_lookup_insert_ne; [done|]. by apply not_eq_sym, Hne. }
  assert (∀ id', id' ∈ live → claim hss id id' = hss id') as Hcl.
  { intros id' Hin. unfold claim. rewrite (proj2 (Z.eqb_neq _ _)); [done|]. by intros ->. }
  assert (claim hss id id = []) as Hcid by (unfold claim; by rewrite Z.eqb_refl).
  split; cbn [slot_of_ slot_capacity_ slots_ free_slots_ touched_ids_ live_term_count_ pool_]; try done.
  - by rewrite length_insert.
  - apply NoDup_app. split; [done|]. split; [|apply NoDup_singleton]. by intros x Hx ->%list_elem_of_singleton.
  - apply Forall_app. split; [done|]. by constructor.
  - intros id' [Hin _]%not_elem_of_app. by apply ai_dead0.
  - intros id' Hr' [Hin Hx]%not_elem_of_app. rewrite list_lookup_insert_ne; [by apply ai_zero0|]. intros He. apply Hx, list_elem_of_singleton. lia.
  - intros id' [Hin| ->%list_elem_of_singleton]%elem_of_app.
    + destruct (ai_live0 id' Hin) as (sl & t & Hs & Ht & Hh). exists sl, t. rewrite Hoth, Hcl by done. split; [done|]. split; [by apply Hold|done].
    + exists slot, new_term. rewrite list_lookup_insert_eq by done. split; [done|]. split; [done|]. rewrite Hcid, ai_dead0 by done. apply holds_new_term.
  - intros i j sl Hi Hj Hsi Hsj. apply elem_of_app in Hi as [Hi| ->%list_elem_of_singleton], Hj as [Hj| ->%list_elem_of_singleton].
    + rewrite Hoth in Hsi, Hsj by done. by eapply ai_inj0.
    + rewrite Hoth in Hsi by done. rewrite list_lookup_insert_eq in Hsj by done. injection Hsj as <-. by apply Hno in Hi.
    + rewrite Hoth in Hsj by done. rewrite list_lookup_insert_eq in Hsi by done. injection Hsi as <-. by apply Hno in Hj.
    + done.
  - intros i j o Hi Hj Hij. apply elem_of_app in Hi as [Hi| ->%list_elem_of_singleton], Hj as [Hj| ->%list_elem_of_singleton].
    + rewrite !Hcl by done. by apply ai_disjoint0.
    + rewrite Hcid. by intros _ [].
    + rewrite Hcid. by intros [].
    + done.
  - intros f Hf. destruct (Hfr f Hf) as [Hf' Hfs]. destruct (ai_free0 f Hf') as (Hf0 & Hf1 & Hf2). split; [done|]. split; [by apply Hold|].
    intros id' [Hin| ->%list_elem_of_singleton]%elem_of_app; [rewrite Hoth by done; by apply Hf2|].
    rewrite list_lookup_insert_eq by done. intros [= He]. apply Hfs. lia.
  - rewrite length_app. cbn [length]. lia.
  - rewrite ai_live_count0, length_app. cbn [length]. rewrite u64_small; [lia|]. unfold is_u64, UINT32_MAX in *. lia.
Qed.

(** *** Appending *)

Definition upd {A} (f : Z → A) (id : Z) (x : A) : Z → A := λ i, if i =? id then x else f i.

Lemma upd_eq {A} (f : Z → A) id x : upd f id x id = x.
Proof. unfold upd. by rewrite Z.eqb_refl. Qed.
Lemma upd_ne {A} (f : Z → A) id x i : i ≠ id → upd f id x i = f i.
Proof. intros Hne. unfold upd. by rewrite (proj2 (Z.eqb_neq _ _)). Qed.

Lemma live_owns hp n a live toks hss id o : acc_inv hp n a live toks hss → id ∈ live → owns 0 (hss id) o → 0 ≤ o < next_offset_ (pool_ a).
Proof.
  intros Hi Hid Ho. destruct (ai_live _ _ _ _ _ _ Hi id Hid) as (sl & t & _ & _ & [Hc _ _ _ _]).
  destruct (hss id) as [|h hs] eqn:Hh; [done|]. destruct Hc as (_ & Hc & _). by eapply owns_bound; [apply level_0|..].
Qed.

(** The term of one slot changes, its chain grows. *)
Lemma update_term hp n a live toks hss id (slot : nat) t t' p' hs' ts' k :
  acc_inv hp n a live toks hss → id ∈ live → slot_of_ a !! Z.to_nat id = Some (Z.of_nat slot + 1) → slots_ a !! slot = Some t →
  wf_pool p' → holds_term hp p' t' hs' ts' → grows (pool_ a) p' (hss id) hs' k →
  acc_inv hp n (mkAccumulators (slot_of_ a) (slot_capacity_ a) (<[slot := t']> (slots_ a)) (free_slots_ a) (touched_ids_ a)
                  (live_term_count_ a) p') live (upd toks id ts') (upd hss id hs').
Proof.
  intros Hi Hid Hs Ht Hp' Hh' [Hn Hf Ho Hb]. pose proof (lookup_lt_Some _ _ _ Ht) as Hlt.
  pose proof (λ i o, live_owns _ _ _ _ _ _ i o Hi) as Hown. destruct Hi.
  split; cbn [slot_of_ slot_capacity_ slots_ free_slots_ touched_ids_ live_term_count_ pool_]; try done.
  - intros i Hin. rewrite upd_ne by (by intros ->). by apply ai_dead0.
  - intros i Hin. destruct (decide (i = id)) as [->|Hne].
    + exists slot, t'. rewrite !upd_eq. split; [done|]. split; [by apply list_lookup_insert_eq|done].
    + destruct (ai_live0 i Hin) as (sl & ti & Hsi & Hti & Hhi). exists sl, ti. rewrite !upd_ne by done. split; [done|]. split.
      * rewrite list_lookup_insert_ne; [done|]. intros <-. by apply Hne, (ai_inj0 i id _ Hin Hid Hsi Hs).
      * destruct Hhi as [Hc ? ? ? ?]. split; try done. eapply holds_frame; [done| |exact Hc]. intros o Hoo. apply Hf; [by apply (Hown i)|].
        by apply (ai_disjoint0 i id o Hin Hid Hne).
  - intros i j o Hin Hjn Hij. destruct (decide (i = id)) as [->|Hi], (decide (j = id)) as [->|Hj]; [done| | |].
    + rewrite upd_eq, upd_ne by done. intros Hoi Hoj. apply Ho in Hoi as [Hoi|Hge]; [by apply (ai_disjoint0 id j o Hid Hjn Hij)|].
      apply (Hown j) in Hoj; [|done]. lia.
    + rewrite upd_eq, upd_ne by done. intros Hoi Hoj. apply Ho in Hoj as [Hoj|Hge]; [by apply (ai_disjoint0 i id o Hin Hid Hij)|].
      apply (Hown i) in Hoi; [|done]. lia.
    + rewrite !upd_ne by done. by apply ai_disjoint0.
  - intros f Hfr. destruct (ai_free0 f Hfr) as (Hf0 & Hf1 & Hf2). split; [done|]. split; [|done].
    rewrite list_lookup_insert_ne; [done|]. intros ->. apply (Hf2 id Hid). rewrite Hs. f_equal. lia.
  - by rewrite length_insert.
  - by rewrite length_insert.
Qed.

(** The ids of the accumulators are those touched since the last drain. *)
Record filled (hp : bool) (n : Z) (a : Accumulators) (toks : Tokens) : Prop := {
  fi_inv : ∃ hss, acc_inv hp n a (touched_ids_ a) toks hss;
  fi_fed id : id ∈ touched_ids_ a → toks id ≠ []
}.

Lemma append_token_spec hp n a toks id d pos :
  filled hp n a toks → 0 ≤ id < n → zlen (toks id) < UINT32_MAX →
  match append_token hp id d pos a with
  | Ok a' => filled hp n a' (upd toks id (toks id ++ [(d, pos)])) ∧ slot_capacity_ a' = slot_capacity_ a ∧
      arena_bytes (pool_ a') ≤ arena_bytes (pool_ a) + 40 * 32768
  | Err _ => UINT32_MAX < arena_bytes (pool_ a) + 40 * 32768
  | Undef => False
  end.
Proof.
  intros [[hss Hi] Hfed] Hid Hlen. unfold append_token.
  assert (∃ slot is_new a1 a2 hss1 t, term_slot id a = Ok (slot, is_new, a1) ∧
    a2 = (if (is_new : bool) then mkAccumulators (slot_of_ a1) (slot_capacity_ a1) (slots_ a1) (free_slots_ a1) (touched_ids_ a1 ++ [id])
                  (u64 (live_term_count_ a1 + 1)) (pool_ a1) else a1) ∧
    acc_inv hp n a2 (touched_ids_ a2) toks hss1 ∧ id ∈ touched_ids_ a2 ∧ slot_of_ a2 !! Z.to_nat id = Some (Z.of_nat slot + 1) ∧
    slots_ a2 !! slot = Some t ∧ holds_term hp (pool_ a2) t (hss1 id) (toks id) ∧ pool_ a2 = pool_ a ∧ slot_capacity_ a2 = slot_capacity_ a ∧
    (∀ i, i ∈ touched_ids_ a2 → i ≠ id → i ∈ touched_ids_ a)) as (slot & is_new & a1 & a2 & hss1 & t & -> & Ha2 & Hi2 & Hin2 & Hs2 & Ht2 & Hh2 & Hp2 & Hcap2 & Hold).
  { destruct (decide (id ∈ touched_ids_ a)) as [Hin|Hin].
    - destruct (term_slot_old _ _ _ _ _ _ id Hi Hin) as (slot & t & -> & Hs & Ht & Hh). by exists slot, false, a, a, hss, t.
    - destruct (term_slot_new _ _ _ _ _ _ id Hi Hid Hin) as (slot & a1 & -> & Hi2 & Hs2 & Ht2 & Htid & Hp & Hcap).
      eexists slot, true, a1, _, (claim hss id), new_term. split; [done|]. split; [done|]. rewrite Htid. split; [done|].
      split; [apply elem_of_app; right; by left|]. split; [done|]. split; [done|]. split.
      + unfold claim. rewrite Z.eqb_refl, (ai_dead _ _ _ _ _ _ Hi id Hin). apply holds_new_term.
      + split; [done|]. split; [done|]. by intros i [?| ->%list_elem_of_singleton]%elem_of_app. }
  rewrite bind_Ok, <- Ha2, Ht2. clear Ha2 a1 is_new.
  pose proof (put_token_spec hp _ t _ _ d pos (ai_pool _ _ _ _ _ _ Hi2) Hh2 Hlen) as Hput.
  destruct (put_token hp d pos (t, pool_ a2)) as [[t' p']|st|]; [|by rewrite Hp2 in Hput|done]. rewrite bind_Ok.
  destruct Hput as (hs' & Hp' & Hh' & Hg). split; [|split; [done|]].
  - split; [exists (upd hss1 id hs'); by eapply update_term|]. cbn [touched_ids_]. intros i Hin. destruct (decide (i = id)) as [->|Hne].
    + rewrite upd_eq. by destruct (toks id).
    + rewrite upd_ne by done. by apply Hfed, Hold.
  - cbn [pool_]. pose proof (gr_blocks _ _ _ _ _ Hg) as Hb. rewrite Hp2 in Hb. rewrite !arena_bytes_eq. lia.
Qed.

(** *** Taking a term out *)

Lemma take_term_spec hp n a id rest toks hss :
  acc_inv hp n a (id :: rest) toks hss →
  ∃ t a', take_term id a = Ok (t, a') ∧ holds_term hp (pool_ a) t (hss id) (toks id) ∧ acc_inv hp n a' rest (upd toks id []) hss ∧
    pool_ a' = pool_ a ∧ touched_ids_ a' = touched_ids_ a ∧ slot_capacity_ a' = slot_capacity_ a.
Proof.
  intros Hi. pose proof (live_length _ _ _ _ _ _ Hi) as Hll. destruct Hi. apply NoDup_cons in ai_nodup0 as [Hnot Hnd]. apply Forall_cons in ai_range0 as [Hr Hrange].
  destruct (ai_live0 id ltac:(by left)) as (slot & t & Hs & Ht & Hh). pose proof (lookup_lt_Some _ _ _ Ht) as Hlt.
  unfold take_term, release_term. rewrite Hs. assert (u32 (Z.of_nat slot + 1 - 1) = Z.of_nat slot) as ->.
  { rewrite u32_small; [lia|]. unfold is_u32, UINT32_MAX in *. lia. }
  rewrite Nat2Z.id, Ht. rewrite (proj2 (Z.eqb_neq _ 0)) by lia. rewrite bind_Ok. eexists t, _. split; [reflexivity|]. split; [done|].
  split; [|done]. assert (Z.to_nat id < length (slot_of_ a))%nat as Hidl by lia.
  assert (∀ i, i ∈ rest → i ≠ id ∧ <[Z.to_nat id:=0]> (slot_of_ a) !! Z.to_nat i = slot_of_ a !! Z.to_nat i) as Hoth.
  { intros i Hin. assert (i ≠ id) by (by intros ->). split; [done|]. rewrite list_lookup_insert_ne; [done|]. rewrite Forall_forall in Hrange. specialize (Hrange i Hin). lia. }
  split; cbn [slot_of_ slot_capacity_ slots_ free_slots_ touched_ids_ live_term_count_ pool_]; try done.
  - by rewrite length_insert.
  - intros i Hin. destruct (decide (i = id)) as [->|Hne]; [apply upd_eq|]. rewrite upd_ne by done. apply ai_dead0. by intros [?|?]%elem_of_cons.
  - intros i Hri Hin. destruct (decide (i = id)) as [->|Hne]; [by apply list_lookup_insert_eq|]. rewrite list_lookup_insert_ne by lia.
    apply ai_zero0; [done|]. by intros [?|?]%elem_of_cons.
  - intros i Hin. destruct (Hoth i Hin) as [Hne ->]. destruct (ai_live0 i ltac:(by right)) as (sl & ti & Hsi & Hti & Hhi). exists sl, ti.
    rewrite upd_ne by done. split; [done|]. split; [|done]. rewrite list_lookup_insert_ne; [done|]. intros <-.
    apply Hne, (ai_inj0 i id _ ltac:(by right) ltac:(by left) Hsi Hs).
  - intros i j sl Hin Hjn. rewrite (proj2 (Hoth i Hin)), (proj2 (Hoth j Hjn)). apply ai_inj0; by right.
  - intros i j o Hin Hjn. apply ai_disjoint0; by right.
  - apply NoDup_app. split; [done|]. split; [|apply NoDup_singleton]. intros f Hf ->%list_elem_of_singleton.
    destruct (ai_free0 _ Hf) as (_ & _ & Hno). by apply (Hno id ltac:(by left)).
  - intros f [Hf| ->%list_elem_of_singleton]%elem_of_app.
    + destruct (ai_free0 f Hf) as (Hf0 & Hf1 & Hf2). split; [done|]. split.
      * destruct (decide (slot = Z.to_nat f)) as [->|Hne]; [by apply list_lookup_insert_eq|by rewrite list_lookup_insert_ne].
      * intros i Hin. rewrite (proj2 (Hoth i Hin)). apply Hf2. by right.
    + split; [lia|]. rewrite Nat2Z.id. split; [by apply list_lookup_insert_eq|]. intros i Hin. rewrite (proj2 (Hoth i Hin)). intros Hsi.
      by apply (Hoth i Hin), (ai_inj0 i id _ ltac:(by right) ltac:(by left) Hsi Hs).
  - by rewrite length_insert.
  - rewrite length_insert, length_app, ai_count0. cbn [length]. lia.
  - rewrite ai_live_count0. cbn [length]. unfold UINT32_MAX in *. cbn [length] in Hll. rewrite u64_small; [lia|]. unfold is_u64. lia.
Qed.

(** All terms gone: the arena is reset. *)
Lemma acc_inv_reset hp n a toks hss :
  acc_inv hp n a [] toks hss →
  filled hp n (mkAccumulators (slot_of_ a) (slot_capacity_ a) (slots_ a) (free_slots_ a) [] (live_term_count_ a) (reset (pool_ a))) no_tokens.
Proof.
  intros []. split; [|by intros ? ?%elem_of_nil]. exists (λ _, []).
  split; cbn [slot_of_ slot_capacity_ slots_ free_slots_ touched_ids_ live_term_count_ pool_]; try done.
  - apply new_pool_wf.
  - by intros ? ?%elem_of_nil.
Qed.

Lemma filled_new hp n cap : 0 ≤ n ≤ UINT32_MAX → filled hp n (mkAccumulators (replicate (Z.to_nat n) 0) cap [] [] [] 0 new_pool) no_tokens.
Proof.
  intros Hn. assert (∀ x : Z, x ∉ []) as Hnil by (by intros ? ?%elem_of_nil).
  split; [|by intros ? ?%elem_of_nil]. exists (λ _, []). split; cbn; try done; try (by intros; exfalso; eapply Hnil); try by constructor.
  - apply new_pool_wf.
  - rewrite length_replicate. lia.
  - lia.
  - intros id Hid _. apply lookup_replicate_2. lia.
  - lia.
Qed.
