(* ===== verification/SpimiDrain.v ===== *)
(** * SpimiDrain: from tokens to sorted terms.

    The order of the vocabulary, the drain of the accumulators into a run or
    into the callback, the spills while tokens arrive and the merge at the end:
    whatever the caps, the terms come out once each, in the order of their
    strings, with the documents of each stretch of tokens between spills joined
    ([spimi_delivers]); an
    invalid id makes the drain deliver nothing ([spimi_rejects]). *)

From S2P Require Import Prelude StdAlgorithms Status Varint ByteIO TermKey SpillableByteBuffer LocalFile CompactPostingPool TermPostings SpillRunCodec PostingGroups RunMerge SpimiTermBuffer SpimiChains SpimiInvariant.

#[local] Open Scope Z_scope.

(** ** Ranks *)

Lemma ranks_length order n : length (ranks order n) = n.
Proof.
  unfold ranks. rewrite <- (length_replicate n 0) at 2. generalize (replicate n 0). induction (imap pair order) as [|x l IH]; intros rs; [done|].
  cbn [foldl]. rewrite IH. apply length_insert.
Qed.

Lemma ranks_lookup order n r x :
  NoDup order → Forall (λ x, 0 ≤ x < Z.of_nat n) order → order !! r = Some x → ranks order n !! Z.to_nat x = Some (Z.of_nat r).
Proof.
  revert r x. induction order as [|y order IH] using rev_ind; [done|]. intros r x (Hnd & Hy & _)%NoDup_app [Ho [Hyr _]%Forall_cons]%Forall_app Hr.
  assert (length (ranks order n) = n) as Hlen by apply ranks_length.
  unfold ranks in *. rewrite imap_app, foldl_app. cbn [imap foldl fst snd]. rewrite Nat.add_0_r. destruct (decide (r = length order)) as [->|Hne].
  - rewrite list_lookup_middle in Hr by done. injection Hr as <-. apply list_lookup_insert_eq. lia.
  - assert (r < length order)%nat as Hlt by (apply lookup_lt_Some in Hr; rewrite length_app in Hr; cbn in Hr; lia).
    rewrite lookup_app_l in Hr by done. rewrite list_lookup_insert_ne; [by apply IH|].
    assert (x ∈ order) as Hin by (by eapply list_elem_of_lookup_2). rewrite Forall_forall in Ho. specialize (Ho x Hin).
    intros He. assert (x = y) by lia. subst y. by apply (Hy x Hin); left.
Qed.

Section Order.
Context `{StdSortLaws} (strings : list bytes) (Hnd : NoDup strings).

Abbreviation n := (zlen strings).

(** The ranks order the ids as their strings. *)
Definition ranked (rank : list Z) : Prop :=
  ∀ a b, 0 ≤ a < n → 0 ≤ b < n → rank !!! Z.to_nat a < rank !!! Z.to_nat b → id_lt strings a b.

Definition good_vocab (v : Vocabulary) : Prop :=
  vocab v = strings ∧ (length (string_rank_ v) = length strings → ranked (string_rank_ v) ∧
    ∀ a b, 0 ≤ a < n → 0 ≤ b < n → string_rank_ v !!! Z.to_nat a = string_rank_ v !!! Z.to_nat b → a = b).

Lemma string_strict_weak : strict_weak (λ a b, term_ltb (vocab_at strings a) (vocab_at strings b)).
Proof.
  split.
  - intros a b Hab. by apply term_ltb_antisym.
  - intros a b c. rewrite !term_ltb_false. intros Hab Hbc Hac.
    destruct (term_trichotomy (vocab_at strings b) (vocab_at strings c)) as [?|[He|Hcb]]; [done| |].
    + rewrite He in Hab. done.
    + apply Hab. by apply (term_lt_trans _ (vocab_at strings c)).
Qed.

Lemma ensure_string_rank_spec v :
  good_vocab v →
  good_vocab (ensure_string_rank v) ∧ length (string_rank_ (ensure_string_rank v)) = length strings ∧
  borrowed_ (ensure_string_rank v) = borrowed_ v ∧ owned_vocab_ (ensure_string_rank v) = owned_vocab_ v ∧ intern_ (ensure_string_rank v) = intern_ v.
Proof.
  intros [Hv Hr]. unfold ensure_string_rank. rewrite Hv. destruct (Nat.eqb_spec (length (string_rank_ v)) (length strings)) as [He|Hne].
  { by split_and!. }
  set (order := std_sort _ _). pose proof (std_sort_permutes _ (seqZ 0 n) string_strict_weak) as Hp. fold order in Hp.
  pose proof (std_sort_sorts _ (seqZ 0 n) string_strict_weak) as Hs. fold order in Hs.
  assert (NoDup order) as Hno by (rewrite Hp; apply NoDup_seqZ).
  assert (Forall (λ x, 0 ≤ x < n) order) as Hin by (rewrite Hp; apply Forall_forall; intros x Hx%elem_of_seqZ; lia).
  assert (∀ a, 0 ≤ a < n → ∃ r, order !! r = Some a ∧ ranks order (length strings) !!! Z.to_nat a = Z.of_nat r) as Hrank.
  { intros a Ha. assert (a ∈ order) as Hao by (rewrite Hp; apply elem_of_seqZ; lia). apply list_elem_of_lookup in Hao as [r Hra]. exists r.
    split; [done|]. apply list_lookup_total_correct. by apply ranks_lookup. }
  split; [|split; [apply ranks_length|done]]. split; [exact Hv|]. intros _. cbn [string_rank_]. split.
  - intros a b Ha Hb. destruct (Hrank a Ha) as (ra & Hra & ->), (Hrank b Hb) as (rb & Hrb & ->). intros Hlt.
    pose proof (StronglySorted_lookup_lt _ _ _ _ _ _ Hs Hra Hrb ltac:(lia)) as Hle. cbn in Hle. apply term_ltb_false in Hle.
    unfold id_lt. destruct (term_trichotomy (vocab_at strings a) (vocab_at strings b)) as [?|[He|?]]; [done| |done].
    apply vocab_at_inj in He; try done. subst b. assert (ra = rb) by (by eapply NoDup_lookup). lia.
  - intros a b Ha Hb. destruct (Hrank a Ha) as (ra & Hra & ->), (Hrank b Hb) as (rb & Hrb & ->). intros He.
    assert (ra = rb) by lia. subst. congruence.
Qed.

Lemma sorted_ids_spec v touched :
  good_vocab v → NoDup touched → Forall (λ id, 0 ≤ id < n) touched →
  ∃ v' ids, sorted_ids v touched = (v', ids) ∧ good_vocab v' ∧ ids ≡ₚ touched ∧ StronglySorted (id_lt strings) ids ∧
    borrowed_ v' = borrowed_ v ∧ owned_vocab_ v' = owned_vocab_ v ∧ intern_ v' = intern_ v.
Proof.
  intros Hv Hnd' Hr. destruct (ensure_string_rank_spec v Hv) as (Hv' & Hlen & Hb & Ho & Hi). unfold sorted_ids.
  set (v' := ensure_string_rank v) in *. set (less := λ a b, _). assert (strict_weak less) as Hsw by apply (key_strict_weak (λ a, string_rank_ v' !!! Z.to_nat a)).
  pose proof (std_sort_permutes _ touched Hsw) as Hp. pose proof (std_sort_sorts _ touched Hsw) as Hs.
  exists v', (std_sort less touched). split; [done|]. split; [done|]. split; [done|]. split; [|done].
  destruct Hv' as [_ Hrk]. destruct (Hrk Hlen) as [Hlt Hinj]. clear Hrk.
  assert (NoDup (std_sort less touched)) as Hnd2 by (by rewrite Hp). assert (Forall (λ id, 0 ≤ id < n) (std_sort less touched)) as Hr2 by (by rewrite Hp).
  revert Hs Hnd2 Hr2. generalize (std_sort less touched). induction l as [|x l IH]; intros Hs Hnd2 Hr2; [constructor|].
  apply StronglySorted_inv in Hs as [Hs Hx]. apply NoDup_cons in Hnd2 as [Hxl Hnd2]. apply Forall_cons in Hr2 as [Hxr Hr2].
  constructor; [by apply IH|]. rewrite Forall_forall in Hx, Hr2 |- *. intros y Hy. apply Hlt; [done|by apply Hr2|].
  specialize (Hx y Hy). unfold less in Hx. apply Z.ltb_ge in Hx.
  destruct (decide (string_rank_ v' !!! Z.to_nat x = string_rank_ v' !!! Z.to_nat y)) as [He|]; [|lia].
  apply Hinj in He; [|done|by apply Hr2]. by subst y.
Qed.
End Order.

(** ** Tokens as they arrive *)

(** What [add_token] was called with: the id, the document and the position. *)
Abbreviation Feed := (list (Z * Token)).
Definition tokens_for (feed : Feed) (id : Z) : list Token := map snd (List.filter (λ x, x.1 =? id) feed).

Lemma tokens_for_app a b id : tokens_for (a ++ b) id = tokens_for a id ++ tokens_for b id.
Proof. unfold tokens_for. by rewrite List.filter_app, map_app. Qed.

Lemma tokens_for_length feed id : zlen (tokens_for feed id) ≤ zlen feed.
Proof. unfold tokens_for. rewrite length_map. pose proof (List.filter_length_le (λ x : Z * Token, x.1 =? id) feed). lia. Qed.

Lemma tokens_for_wf feed id : Forall (λ x, wf_token x.2) feed → Forall wf_token (tokens_for feed id).
Proof.
  intros Hf. apply Forall_map, Forall_forall. intros x Hx. apply list_elem_of_In, List.filter_In in Hx as [Hx _].
  rewrite Forall_forall in Hf. by apply Hf, list_elem_of_In.
Qed.

Lemma tokens_for_sum feed ids : NoDup ids → foldr (λ id s, zlen (tokens_for feed id) + s) 0 ids ≤ zlen feed.
Proof.
  intros Hnd. revert feed. induction Hnd as [|id ids Hid Hnd IH]; intros feed; cbn [foldr]; [lia|].
  specialize (IH (List.filter (λ x, negb (x.1 =? id)) feed)).
  assert (foldr (λ i s, zlen (tokens_for (List.filter (λ x, negb (x.1 =? id)) feed) i) + s) 0 ids = foldr (λ i s, zlen (tokens_for feed i) + s) 0 ids) as He.
  { clear IH Hnd. induction ids as [|i ids IHi]; [done|]. apply not_elem_of_cons in Hid as [Hne Hid]. cbn [foldr]. rewrite IHi by done. do 3 f_equal.
    unfold tokens_for. f_equal. clear -Hne. induction feed as [|x feed IH]; [done|]. cbn [List.filter]. destruct (Z.eqb_spec x.1 id) as [Hx|Hx]; cbn [negb List.filter].
    - rewrite (proj2 (Z.eqb_neq x.1 i)) by congruence. exact IH.
    - by rewrite IH. }
  rewrite He in IH. pose proof (List.filter_length (λ x : Z * Token, x.1 =? id) feed) as Hsplit. unfold tokens_for at 1. rewrite length_map. lia.
Qed.

(** The documents of a token list fit the records of a run. *)
Lemma documents_length ts gs : documents ts gs → zlen (gpos gs) = zlen ts.
Proof. intros (us & -> & _ & [Hp _]). rewrite gpos_groups, length_map. by rewrite (Permutation_length Hp). Qed.

Lemma documents_nonempty ts gs : documents ts gs → nonempty_groups gs.
Proof. intros (us & -> & _). apply groups_nonempty. Qed.

Lemma documents_record hp id ts gs :
  documents ts gs → Forall wf_token ts → zlen ts ≤ UINT32_MAX → is_u32 id → wf_record (record hp (id, gs)).
Proof.
  intros Hd Hts Hlen Hid. pose proof (documents_length _ _ Hd) as Hgl. destruct Hd as (us & -> & _ & [Hp _]). unfold UINT32_MAX in Hlen.
  assert (Forall wf_token us) as Hus by (by rewrite Hp).
  split; cbn [record fst snd posting tp_docids tp_freqs tp_positions_flat]; [done| | | |].
  - apply Forall_forall. intros d Hd. apply groups_docs_elem in Hd. apply list_elem_of_fmap in Hd as (t & -> & Ht). rewrite Forall_forall in Hus. by apply Hus.
  - unfold gfreqs. apply Forall_map, Forall_forall. intros g Hg. pose proof (gpos_elem_le _ _ Hg). unfold is_u32. lia.
  - unfold gfreqs, gdocs. by rewrite !length_map.
  - destruct hp; [|constructor]. rewrite gpos_groups. apply Forall_map. eapply Forall_impl; [exact Hus|]. by intros t [].
Qed.

Lemma record_length hp id ts gs : documents ts gs → zlen (record_bytes id (posting hp [] gs)) ≤ 30 + 12 * zlen ts.
Proof.
  intros Hd. pose proof (documents_length _ _ Hd) as Hl. pose proof (nonempty_groups_length _ (documents_nonempty _ _ Hd)) as Hn.
  assert (zlen (gdocs gs) = zlen gs ∧ zlen (gfreqs gs) = zlen gs) as [Hgd Hgf] by (unfold gdocs, gfreqs; by rewrite !length_map).
  assert (zlen (if hp then gpos gs else []) ≤ zlen ts) as Hf by (destruct hp; cbn [length]; lia).
  unfold record_bytes, posting. cbn [tp_docids tp_freqs tp_positions_flat].
  pose proof (encode_varint64_length_le id). pose proof (encode_varint64_length_le (zlen (gdocs gs))).
  pose proof (encode_varint64_length_le (zlen (if hp then gpos gs else []))).
  rewrite !length_app, !words_bytes_length. lia.
Qed.

(** ** Draining *)

Section Drains.
Context {D : Type} `{PosixLaws D} `{!TempDir D} `{StdSortLaws} `{VectorGrowth} `{PriorityQueueOf HeapItem}.
Context (strings : list bytes) (hp : bool) (Hnd : NoDup strings).

Abbreviation n := (zlen strings).

(** Tokens a drain may meet: those of a live id exist, and fit. *)
Definition drainable (toks : Tokens) (id : Z) : Prop :=
  toks id ≠ [] ∧ zlen (toks id) ≤ UINT32_MAX ∧ Forall wf_token (toks id) ∧ 0 ≤ id < n.

(** The documents a drained id is given. *)
Definition drained_docs (toks : Tokens) (id : Z) (gs : list Group) : Prop :=
  documents (toks id) gs ∧ (in_order (toks id) → gs = groups (toks id)).

Lemma taken_others toks id rest :
  NoDup (id :: rest) → Forall (drainable toks) rest → Forall (drainable (upd toks id [])) rest ∧
  (∀ gs i, i ∈ rest → drained_docs (upd toks id []) i gs → drained_docs toks i gs).
Proof.
  intros [Hid _]%NoDup_cons Hr. assert (∀ i, i ∈ rest → upd toks id [] i = toks i) as He by (intros i Hi; apply upd_ne; by intros ->).
  split.
  - apply Forall_forall. intros i Hi. rewrite Forall_forall in Hr. unfold drainable. rewrite He by done. by apply Hr.
  - intros gs i Hi. unfold drained_docs. by rewrite He.
Qed.

Lemma drain_terms_spec ids a toks hss rw :
  acc_inv hp n a ids toks hss → Forall (drainable toks) ids → run_writable rw →
  ∃ rw' a' rs, fold_result (drain_term strings hp) ids (Ok tt, rw, a) = Ok (Ok tt, rw', a') ∧ run_writable rw' ∧
    run_contents rw' = run_contents rw ++ run_bytes (map (record hp) rs) ∧ map fst rs = ids ∧
    Forall (λ c, drained_docs toks c.1 c.2) rs ∧ (∃ toks', acc_inv hp n a' [] toks' hss) ∧ slot_capacity_ a' = slot_capacity_ a.
Proof.
  revert a toks rw. induction ids as [|id ids IH]; intros a toks rw Hi Hdr Hw.
  { exists rw, a, []. split; [done|]. split; [done|]. split; [by rewrite app_nil_r|]. split; [done|]. split; [constructor|]. split; [by exists toks|done]. }
  pose proof (ai_nodup _ _ _ _ _ _ Hi) as Hndi. apply Forall_cons in Hdr as [(Hne & Hlen & Hwf & Hr) Hdr].
  destruct (taken_others _ _ _ Hndi Hdr) as [Hdr' Hback].
  destruct (take_term_spec _ _ _ _ _ _ _ Hi) as (t & a1 & Htake & Ht & Hi1 & Hp1 & _ & Hc1).
  assert (wf_pool (pool_ a1)) as Hwp by apply (ai_pool _ _ _ _ _ _ Hi1). rewrite <- Hp1 in Ht.
  destruct (to_postings_spec hp (pool_ a1) (vocab_at strings id) t _ _ false Hwp Ht Hne Hlen Hwf) as (tp & gs & Htp & _ & Hdocs & Hord & Hflat).
  destruct (write_term_spec id tp rw Hw) as (rw1 & Hwt & Hw1 & Hcon1).
  destruct (IH a1 _ rw1 Hi1 Hdr' Hw1) as (rw' & a' & rs & Hf & Hw' & Hcon & Hfst & Hrs & Hi' & Hc').
  exists rw', a', ((id, gs) :: rs). assert (drain_term strings hp id (Ok tt, rw, a) = Ok (Ok tt, rw1, a1)) as Hstep.
  { unfold drain_term. by rewrite Htake, bind_Ok, Htp, bind_Ok, Hwt. }
  cbn [fold_result]. rewrite Hstep, bind_Ok. split; [done|]. split; [done|]. split.
  - rewrite Hcon, Hcon1, (Hflat eq_refl), <- app_assoc. done.
  - split; [cbn [map fst]; by rewrite Hfst|]. split; [|split; [done|congruence]]. constructor; [by split|].
    rewrite Forall_forall in Hrs |- *. intros c Hin. apply Hback; [|by apply Hrs]. rewrite <- Hfst. by apply list_elem_of_fmap_2.
Qed.

(** The run of a feed. *)
Definition run_of (seg : Feed) (rs : Run) : Prop :=
  ∀ id, (id ∈ map fst rs ↔ tokens_for seg id ≠ []) ∧ drained_docs (tokens_for seg) id (groups_in rs id).

Definition wf_feed (feed : Feed) : Prop := Forall (λ x, 0 ≤ x.1 < n ∧ wf_token x.2) feed ∧ zlen feed ≤ UINT32_MAX.

Lemma wf_feed_app a b : wf_feed (a ++ b) → wf_feed a ∧ wf_feed b.
Proof. unfold wf_feed. rewrite Forall_app, length_app. intros [[? ?] ?]. repeat split; try done; lia. Qed.

Lemma filled_drainable a feed :
  filled hp n a (tokens_for feed) → wf_feed feed → Forall (drainable (tokens_for feed)) (touched_ids_ a).
Proof.
  intros [[hss Hi] Hfed] [Hwf Hlen]. apply Forall_forall. intros id Hid. pose proof (ai_range _ _ _ _ _ _ Hi) as Hr. rewrite Forall_forall in Hr.
  split; [by apply Hfed|]. pose proof (tokens_for_length feed id). split; [lia|]. split; [|by apply Hr].
  apply tokens_for_wf. eapply Forall_impl; [exact Hwf|]. by intros x [_ ?].
Qed.

Lemma groups_in_fst rs c : NoDup (map fst rs) → c ∈ rs → groups_in rs c.1 = c.2.
Proof.
  induction rs as [|x rs IH]; cbn [map]; [by intros _ ?%elem_of_nil|]. intros [Hx Hnd']%NoDup_cons [->|Hin]%elem_of_cons; [apply groups_in_head|].
  rewrite groups_in_cons_ne; [by apply IH|]. intros He. apply Hx. rewrite He. by apply list_elem_of_fmap_2.
Qed.

Lemma documents_nil : documents [] [].
Proof. exists []. split; [done|]. split; [constructor|done]. Qed.

(** A sorted drain of a feed is a well-formed run of it. *)
Lemma drained_run feed touched ids (rs : Run) a :
  filled hp n a (tokens_for feed) → touched = touched_ids_ a → ids ≡ₚ touched → StronglySorted (id_lt strings) ids → wf_feed feed →
  map fst rs = ids → Forall (λ c, drained_docs (tokens_for feed) c.1 c.2) rs →
  wf_run strings hp rs ∧ run_of feed rs ∧ zlen (run_bytes (map (record hp) rs)) < 2 ^ 63.
Proof.
  intros Hfill -> Hp Hs Hwf <- Hrs. pose proof (filled_drainable _ _ Hfill Hwf) as Hdr. destruct Hfill as [[hss Hi] _].
  rewrite <- Hp in Hdr. pose proof (ai_nodup _ _ _ _ _ _ Hi) as Hndi. rewrite <- Hp in Hndi.
  pose proof (ai_small _ _ _ _ _ _ Hi) as Hsmall. split; [|split].
  - split; [done| | |].
    + eapply Forall_impl; [exact Hdr|]. by intros id (_ & _ & _ & ?).
    + apply Forall_map, Forall_forall. intros [id gs] Hin. rewrite Forall_forall in Hrs. rewrite Forall_forall in Hdr. destruct (Hrs _ Hin) as [Hd _].
      destruct (Hdr id ltac:(by apply (list_elem_of_fmap_2 fst rs _ Hin))) as (_ & Hl & Hw & Hr). eapply documents_record; [exact Hd|done|done|].
      unfold is_u32, UINT32_MAX in *. lia.
    + eapply Forall_impl; [exact Hrs|]. intros c [Hd _]. by eapply documents_nonempty.
  - intros id. assert (id ∈ map fst rs ↔ tokens_for feed id ≠ []) as Hiff.
    { split; [intros Hin; rewrite Forall_forall in Hdr; by apply Hdr|]. intros Hne. rewrite Hp. destruct (decide (id ∈ touched_ids_ a)) as [|Hno]; [done|].
      by rewrite (ai_dead _ _ _ _ _ _ Hi id Hno) in Hne. }
    split; [done|]. destruct (decide (tokens_for feed id = [])) as [He|Hne].
    + rewrite groups_in_absent by (rewrite Hiff; tauto). unfold drained_docs. rewrite He. split; [apply documents_nil|done].
    + apply Hiff in Hne. apply list_elem_of_fmap in Hne as (c & -> & Hin). rewrite groups_in_fst by done. rewrite Forall_forall in Hrs. by apply Hrs.
  - assert (zlen (run_bytes (map (record hp) rs)) ≤ 30 * zlen rs + 12 * foldr (λ id s, zlen (tokens_for feed id) + s) 0 (map fst rs)) as Hle.
    { clear -Hrs. unfold run_bytes. induction Hrs as [|[id gs] rs [Hd _] Hrs IH]; [cbn; lia|]. cbn [map concat foldr fst snd record length].
      rewrite length_app. pose proof (record_length hp id _ _ Hd) as Hrl. cbn [fst snd] in Hrl. lia. }
    pose proof (tokens_for_sum feed (map fst rs) Hndi). destruct Hwf as [_ Hlen].
    assert (zlen rs ≤ n) as Hrn by (rewrite <- (length_map fst rs), (Permutation_length Hp); by eapply live_length).
    unfold UINT32_MAX in *. lia.
Qed.

(** What every operation keeps of the object. *)
Record same_buffer (s s' : SpimiTermBuffer D) : Prop := {
  sm_hp : has_positions_ s' = has_positions_ s;
  sm_cap : slot_capacity_ (acc_ s') = slot_capacity_ (acc_ s);
  sm_drained : drained_ s' = drained_ s
}.

Lemma report_same (s : SpimiTermBuffer D) :
  vocab_ (report_arena_delta s) = vocab_ s ∧ has_positions_ (report_arena_delta s) = has_positions_ s ∧ acc_ (report_arena_delta s) = acc_ s ∧
  run_paths_ (report_arena_delta s) = run_paths_ s ∧ spill_status_ (report_arena_delta s) = spill_status_ s ∧
  drained_ (report_arena_delta s) = drained_ s ∧ spill_threshold_bytes_ (report_arena_delta s) = spill_threshold_bytes_ s.
Proof. unfold report_arena_delta. by destruct (mem_reporter_ s). Qed.

Lemma drain_to_writer_spec rw (s : SpimiTermBuffer D) feed :
  has_positions_ s = hp → good_vocab strings (vocab_ s) → filled hp n (acc_ s) (tokens_for feed) → wf_feed feed → run_writable rw →
  ∃ rw' s' rs, drain_to_writer rw s = Ok (Ok tt, rw', s') ∧ run_writable rw' ∧
    run_contents rw' = run_contents rw ++ run_bytes (map (record hp) rs) ∧
    wf_run strings hp rs ∧ run_of feed rs ∧ zlen (run_bytes (map (record hp) rs)) < 2 ^ 63 ∧
    good_vocab strings (vocab_ s') ∧ filled hp n (acc_ s') no_tokens ∧ arena_bytes (pool_ (acc_ s')) = 0 ∧ same_buffer s s' ∧
    run_paths_ s' = run_paths_ s ∧ spill_status_ s' = spill_status_ s.
Proof.
  intros Hhp Hv Hfill Hwf Hw. pose proof Hfill as [[hss Hi] _]. unfold drain_to_writer.
  destruct (sorted_ids_spec strings Hnd (vocab_ s) (touched_ids_ (acc_ s)) Hv (ai_nodup _ _ _ _ _ _ Hi) (ai_range _ _ _ _ _ _ Hi))
    as (v' & ids & -> & Hv' & Hp & Hs & _). rewrite Hhp, (proj1 Hv').
  pose proof (filled_drainable _ _ Hfill Hwf) as Hdr. rewrite <- Hp in Hdr.
  destruct (drain_terms_spec ids (acc_ s) (tokens_for feed) hss rw) as (rw' & a' & rs & -> & Hw' & Hcon & Hfst & Hrs & [toks' Hi'] & Hcap); [|done|done|].
  { eapply acc_inv_perm; [symmetry; exact Hp|done]. }
  rewrite bind_Ok. destruct (drained_run feed _ ids rs (acc_ s) Hfill eq_refl Hp Hs Hwf Hfst Hrs) as (Hrun & Hof & Hsz).
  eexists rw', _, rs. split; [reflexivity|]. do 5 (split; [done|]).
  match goal with |- context [report_arena_delta ?x] => destruct (report_same x) as (Hrv & Hrh & Hra & Hrr & Hrst & Hrd & _) end.
  rewrite Hrv, Hra, Hrr, Hrst. cbn [vocab_ acc_ with_acc with_vocab run_paths_ spill_status_ pool_]. split; [done|]. split; [by eapply acc_inv_reset|]. split; [done|].
  split; [|done]. split; [by rewrite Hrh|by rewrite Hra|by rewrite Hrd].
Qed.

(** Room for every spill: the arena and the slot index always fit. *)
Context (cap : Z) (Hcap : 0 ≤ cap) (Hspace : ∀ runs, 2 ^ 33 + 4 * cap ≤ temp_dir_available_bytes resolve_temp_dir runs).

Lemma spill_to_run_spec (s : SpimiTermBuffer D) feed :
  has_positions_ s = hp → good_vocab strings (vocab_ s) → filled hp n (acc_ s) (tokens_for feed) → wf_feed feed →
  slot_capacity_ (acc_ s) = cap → arena_bytes (pool_ (acc_ s)) ≤ 2 ^ 33 →
  ∃ s' run rs, spill_to_run s = Ok (Ok tt, s') ∧ stored strings hp run rs ∧ run_of feed rs ∧
    run_paths_ s' = run_paths_ s ++ [run] ∧ good_vocab strings (vocab_ s') ∧ filled hp n (acc_ s') no_tokens ∧
    arena_bytes (pool_ (acc_ s')) = 0 ∧ same_buffer s s' ∧ spill_status_ s' = spill_status_ s.
Proof.
  intros Hhp Hv Hfill Hwf Hc Ha. unfold spill_to_run.
  assert (resident_bytes s ≤ 2 ^ 33 + 4 * cap) as Hres.
  { unfold resident_bytes. rewrite Hc. assert (0 ≤ arena_bytes (pool_ (acc_ s))) by (rewrite arena_bytes_eq; lia).
    unfold u64. pose proof (Z.mod_le (cap * 4) (2 ^ 64) ltac:(lia) ltac:(lia)). pose proof (Z.mod_pos_bound (cap * 4) (2 ^ 64) ltac:(lia)).
    pose proof (Z.mod_le (arena_bytes (pool_ (acc_ s)) + (cap * 4) `mod` 2 ^ 64) (2 ^ 64) ltac:(lia) ltac:(lia)). lia. }
  specialize (Hspace (run_paths_ s)). cbv zeta. rewrite (proj2 (Z.ltb_ge _ _)) by lia.
  destruct (run_open_spec (MakeRunPath resolve_temp_dir (run_paths_ s))) as (rw0 & -> & Hw0 & Hc0).
  destruct (drain_to_writer_spec rw0 s feed Hhp Hv Hfill Hwf Hw0) as (rw & s1 & rs & -> & Hw & Hcon & Hrun & Hof & Hsz & Hv1 & Hf1 & Ha1 & [Hs1 Hs2 Hs3] & Hr1 & Hst1).
  rewrite bind_Ok. destruct (run_close_spec rw Hw) as (rw1 & -> & Hrest & Hfb).
  eexists _, (rw_file_ rw1, MakeRunPath resolve_temp_dir (run_paths_ s)), rs. split; [reflexivity|].
  cbn [with_runs vocab_ acc_ run_paths_ spill_status_ has_positions_ drained_]. rewrite Hr1. rewrite Hc0 in Hcon. cbn [app] in Hcon.
  split; [split; [done|by rewrite <- Hcon|done|done]|]. do 5 (split; [done|]). split; [by split|done].
Qed.

(** *** Tokens *)

(** The tokens so far: those of each run, and those in memory. *)
Record holds_feed (s : SpimiTermBuffer D) (segs : list Feed) (rem : list Run) (resident : Feed) : Prop := {
  hf_hp : has_positions_ s = hp;
  hf_vocab : good_vocab strings (vocab_ s);
  hf_runs : Forall2 (stored strings hp) (run_paths_ s) rem;
  hf_segs : Forall2 run_of segs rem;
  hf_acc : filled hp n (acc_ s) (tokens_for resident);
  hf_status : spill_status_ s = Ok tt;
  hf_arena : arena_bytes (pool_ (acc_ s)) < kArenaSpillCap;
  hf_cap : slot_capacity_ (acc_ s) = cap
}.

Definition accumulates (s : SpimiTermBuffer D) (fed : Feed) : Prop :=
  drained_ s = false ∧ ∃ segs rem resident, holds_feed s segs rem resident ∧ fed = concat segs ++ resident.

Lemma acc_inv_ext n' a live toks toks' hss : (∀ id, toks id = toks' id) → acc_inv hp n' a live toks hss → acc_inv hp n' a live toks' hss.
Proof. intros He []. split; try done; intros id; rewrite <- ?He; auto. Qed.

Lemma filled_ext n' a toks toks' : (∀ id, toks id = toks' id) → filled hp n' a toks → filled hp n' a toks'.
Proof. intros He [[hss Hi] Hf]. split; [exists hss; by eapply acc_inv_ext|]. intros id. rewrite <- He. apply Hf. Qed.

Lemma tokens_for_snoc feed id t i : tokens_for (feed ++ [(id, t)]) i = upd (tokens_for feed) id (tokens_for feed id ++ [t]) i.
Proof.
  rewrite tokens_for_app. unfold upd, tokens_for at 2. cbn [List.filter fst]. rewrite (Z.eqb_sym id i).
  destruct (Z.eqb_spec i id) as [->|]; [done|apply app_nil_r].
Qed.

Lemma accumulate_spec (s : SpimiTermBuffer D) fed id d pos :
  accumulates s fed → wf_feed (fed ++ [(id, (d, pos))]) →
  ∃ s', accumulate id d pos s = Ok s' ∧ accumulates s' (fed ++ [(id, (d, pos))]).
Proof.
  intros (Hdr & segs & rem & resident & [Hhp Hv Hr Hsg Hfill Hst Har Hc] & ->) Hwf. rewrite <- app_assoc in *.
  destruct (wf_feed_app _ _ Hwf) as [_ Hwf']. pose proof Hwf' as [[_ [[Hid Ht] _]%Forall_cons]%Forall_app Hlen].
  unfold accumulate. rewrite Hhp. pose proof (tokens_for_length resident id) as Htl. rewrite length_app in Hlen. cbn [length fst snd] in *.
  pose proof (append_token_spec hp n (acc_ s) _ id d pos Hfill Hid ltac:(lia)) as Hap. unfold kArenaSpillCap in *.
  destruct (append_token hp id d pos (acc_ s)) as [a|st|]; [|unfold UINT32_MAX in *; lia|done]. rewrite bind_Ok.
  destruct Hap as (Hfill' & Hcap' & Har'). cbv zeta.
  match goal with |- context [report_arena_delta ?x] => set (s1 := x); destruct (report_same s1) as (Hrv & Hrh & Hra & Hrr & Hrst & Hrd & Hrt) end.
  set (s2 := report_arena_delta s1) in *.
  apply (filled_ext _ _ _ (tokens_for (resident ++ [(id, (d, pos))]))) in Hfill'; [|intros i; symmetry; apply tokens_for_snoc].
  assert (arena_bytes (pool_ (acc_ s2)) ≤ 2 ^ 33) as Hsmall by (rewrite Hra; cbn [s1 acc_]; lia).
  destruct ((_ || (3758096384 <=? _)) && _) eqn:Hcond.
  - destruct (spill_to_run_spec s2 (resident ++ [(id, (d, pos))])) as (s3 & run & rs & -> & Hsto & Hof & Hr3 & Hv3 & Hf3 & Ha3 & [Hs1 Hs2 Hs3] & Hst3);
      [by rewrite Hrh|by rewrite Hrv|by rewrite Hra|done|rewrite Hra; cbn [s1 acc_]; congruence|done|].
    rewrite bind_Ok. eexists. split; [reflexivity|]. split; [cbn [with_status drained_]; by rewrite Hs3, Hrd|].
    exists (segs ++ [resident ++ [(id, (d, pos))]]), (rem ++ [rs]), [].
    split; [|rewrite concat_app; cbn [concat]; by rewrite !app_nil_r].
    split; cbn [with_status vocab_ acc_ run_paths_ spill_status_ has_positions_ drained_]; try done.
    + by rewrite Hs1, Hrh.
    + rewrite Hr3, Hrr. apply Forall2_app; [done|]. by constructor.
    + apply Forall2_app; [done|]. by constructor.
    + by rewrite Ha3.
    + rewrite Hs2, Hra. cbn [s1 acc_]. congruence.
  - eexists. split; [reflexivity|]. split; [by rewrite Hrd|]. exists segs, rem, (resident ++ [(id, (d, pos))]). split; [|done].
    split; rewrite ?Hrv, ?Hrh, ?Hra, ?Hrr, ?Hrst, ?Hrd; cbn [s1 vocab_ acc_ run_paths_ spill_status_ has_positions_ drained_]; try done; [|congruence].
    rewrite Hrst in Hcond. cbn [s1 spill_status_] in Hcond. rewrite Hst in Hcond. cbn [status_ok] in Hcond. rewrite andb_true_r in Hcond.
    apply orb_false_iff in Hcond as [_ Hcond%Z.leb_gt]. rewrite Hra in Hcond. exact Hcond.
Qed.

Lemma add_tokens_spec (s : SpimiTermBuffer D) fed toks :
  accumulates s fed → wf_feed (fed ++ toks) →
  ∃ s', fold_result (λ x s, add_token x.1 x.2.1 x.2.2 s) toks s = Ok s' ∧ accumulates s' (fed ++ toks).
Proof.
  revert s fed. induction toks as [|[id [d pos]] toks IH]; intros s fed Ha Hwf; [exists s; by rewrite app_nil_r|].
  rewrite cons_middle, app_assoc in Hwf |- *. destruct (wf_feed_app _ _ Hwf) as [Hwf1 _].
  destruct (accumulate_spec s fed id d pos Ha Hwf1) as (s1 & Hacc & Ha1).
  assert (add_token id d pos s = Ok s1) as Hadd.
  { unfold add_token. destruct Ha as (_ & segs & rem & resident & [_ _ _ _ [[hss Hi] _] _ _ _] & ->). rewrite (ai_size _ _ _ _ _ _ Hi).
    assert (id < n) as Hid by (destruct Hwf1 as [[_ [[Hid _] _]%Forall_cons]%Forall_app _]; cbn in Hid; lia).
    by rewrite (proj2 (Z.leb_gt _ _)). }
  cbn [fold_result fst snd]. rewrite Hadd, bind_Ok. by apply IH.
Qed.

(** *** The terms in memory *)

(** A term the callback receives: its string and the documents of its tokens. *)
Definition delivers (allow : bool) (docs : Z → list Group → Prop) (id : Z) (tp : TermPostings) : Prop :=
  ∃ gs, carries hp tp (vocab_at strings id) gs ∧ docs id gs ∧ (allow = false → tp = posting hp (vocab_at strings id) gs).

Lemma drained_terms_spec (allow : bool) ids a toks hss out :
  acc_inv hp n a ids toks hss → Forall (drainable toks) ids →
  ∃ tps a', fold_result (drained_terms strings hp allow) ids (out, a) = Ok (out ++ tps, a') ∧
    Forall2 (delivers allow (drained_docs toks)) ids tps.
Proof.
  revert a toks out. induction ids as [|id ids IH]; intros a toks out Hi Hdr.
  { exists [], a. split; [by rewrite app_nil_r|done]. }
  pose proof (ai_nodup _ _ _ _ _ _ Hi) as Hndi. apply Forall_cons in Hdr as [(Hne & Hlen & Hwf & Hr) Hdr].
  destruct (taken_others _ _ _ Hndi Hdr) as [Hdr' Hback].
  destruct (take_term_spec _ _ _ _ _ _ _ Hi) as (t & a1 & Htake & Ht & Hi1 & Hp1 & _ & _).
  assert (wf_pool (pool_ a1)) as Hwp by apply (ai_pool _ _ _ _ _ _ Hi1). rewrite <- Hp1 in Ht.
  destruct (to_postings_spec hp (pool_ a1) (vocab_at strings id) t _ _ allow Hwp Ht Hne Hlen Hwf) as (tp & gs & Htp & Hca & Hdocs & Hord & Hflat).
  destruct (IH a1 _ (out ++ [tp]) Hi1 Hdr') as (tps & a' & Hf & Hall). exists (tp :: tps), a'.
  assert (drained_terms strings hp allow id (out, a) = Ok (out ++ [tp], a1)) as Hstep.
  { unfold drained_terms. by rewrite Htake, bind_Ok, Htp. }
  cbn [fold_result]. rewrite Hstep, bind_Ok, Hf, <- app_assoc. split; [done|]. constructor; [by exists gs|].
  clear -Hall Hback. revert Hback. induction Hall as [|i tp' ids tps (gs & Hc & Hd & Hfl) Hall IH]; intros Hback; constructor.
  - exists gs. split; [done|]. split; [|done]. apply Hback; [by left|done].
  - apply IH. intros g j Hj. apply Hback. by right.
Qed.

(** *** The merge of the runs *)

Lemma in_order_app a b : in_order (a ++ b) → in_order a ∧ in_order b.
Proof. unfold in_order. rewrite map_app. intros Hs%StronglySorted_app. tauto. Qed.

Lemma run_of_merged segs rem id :
  Forall2 run_of segs rem →
  zlen (gpos (merged rem id)) = zlen (tokens_for (concat segs) id) ∧
  (in_order (tokens_for (concat segs) id) → merged rem id = groups (tokens_for (concat segs) id)) ∧
  (id ∈ ids_of rem ↔ tokens_for (concat segs) id ≠ []).
Proof.
  induction 1 as [|seg rs segs rem Hrun Hall (IHl & IHo & IHi)].
  { split; [done|]. split; [done|]. split; [by intros ?%elem_of_nil|done]. }
  destruct (Hrun id) as [Hiff [Hdocs Hord]]. cbn [concat]. rewrite tokens_for_app, merged_cons. split; [|split].
  - rewrite gpos_join, !length_app. pose proof (documents_length _ _ Hdocs). lia.
  - intros [Ho1 Ho2]%in_order_app. rewrite Hord, IHo by done. by rewrite groups_app.
  - unfold ids_of in *. cbn [map concat]. rewrite elem_of_app, Hiff, IHi. destruct (tokens_for seg id), (tokens_for (concat segs) id); cbn; naive_solver.
Qed.

(** The documents of a term over stretches of tokens: those of each stretch,
    stably sorted by document, and the stretches joined in their order. *)
Definition joined_docs (segs : list Feed) (id : Z) (gs : list Group) : Prop :=
  ∃ parts, Forall2 (λ seg part, documents (tokens_for seg id) part) segs parts ∧ gs = join_all parts.

(** The documents of a term at the end: those of its stretches, which are those
    of all its tokens in order, if they arrived in order. *)
Definition delivered_docs (segs : list Feed) (id : Z) (gs : list Group) : Prop :=
  (in_order (tokens_for (concat segs) id) → gs = groups (tokens_for (concat segs) id)) ∧ joined_docs segs id gs.

Lemma run_of_joined segs rem id : Forall2 run_of segs rem → joined_docs segs id (merged rem id).
Proof.
  induction 1 as [|seg rs segs rem Hrun Hall (parts & Hp & He)]; [by exists []|]. destruct (Hrun id) as [_ [Hdocs _]].
  exists (groups_in rs id :: parts). split; [by constructor|]. by rewrite merged_cons, join_all_cons, He.
Qed.

Lemma joined_docs_none segs seg id gs : tokens_for seg id = [] → joined_docs segs id gs → joined_docs (segs ++ [seg]) id gs.
Proof.
  intros Hno (parts & Hp & ->). exists (parts ++ [[]]). split; [|unfold join_all; by rewrite foldl_app, <- (join_nil_r (foldl join [] parts)) at 1].
  apply Forall2_app; [done|]. constructor; [|done]. rewrite Hno. apply documents_nil.
Qed.

Lemma emitted_carries allow term gs : carries hp (emitted allow hp term gs) term gs.
Proof.
  unfold emitted, ShouldStreamPositions. destruct (allow && _) eqn:He; [|apply carries_posting].
  rewrite !andb_true_iff, Z.leb_le in He. destruct He as (_ & (-> & _) & Hk). by split.
Qed.

Lemma concat_snoc {A} (segs : list (list A)) (seg : list A) : concat (segs ++ [seg]) = concat segs ++ seg.
Proof. rewrite concat_app. cbn [concat]. by rewrite app_nil_r. Qed.

(** The residual tokens become one more run. *)
Lemma flush_residual (s : SpimiTermBuffer D) segs rem resident :
  holds_feed s segs rem resident → wf_feed (concat segs ++ resident) →
  ∃ s1 rem1, (match touched_ids_ (acc_ s) with
       | [] => Ok s
       | _ => '(status, s) ← spill_to_run s; Ok (if status_ok status then s else latch status s)
       end) = Ok s1 ∧
    Forall2 (stored strings hp) (run_paths_ s1) rem1 ∧ spill_status_ s1 = Ok tt ∧
    good_vocab strings (vocab_ s1) ∧ has_positions_ s1 = hp ∧ drained_ s1 = drained_ s ∧
    ∀ id, zlen (gpos (merged rem1 id)) = zlen (tokens_for (concat segs ++ resident) id) ∧
      (id ∈ ids_of rem1 ↔ tokens_for (concat segs ++ resident) id ≠ []) ∧ delivered_docs (segs ++ [resident]) id (merged rem1 id).
Proof.
  intros [Hhp Hv Hr Hsg Hfill Hst Har Hc] Hwf. destruct (touched_ids_ (acc_ s)) as [|x l] eqn:Ht.
  - exists s, rem. do 6 (split; [done|]). intros id. destruct Hfill as [[hss Hi] _]. rewrite Ht in Hi.
    assert (tokens_for resident id = []) as Hno by (apply (ai_dead _ _ _ _ _ _ Hi id); by intros ?%elem_of_nil).
    destruct (run_of_merged _ _ id Hsg) as (Hl & Ho & Hin). unfold delivered_docs. rewrite concat_snoc, tokens_for_app, Hno, app_nil_r.
    repeat (split; [done|]). apply joined_docs_none; [done|]. by apply run_of_joined.
  - destruct (wf_feed_app _ _ Hwf) as [_ Hwf']. unfold kArenaSpillCap in Har.
    destruct (spill_to_run_spec s resident Hhp Hv Hfill Hwf' Hc ltac:(lia)) as (s1 & run & rs & -> & Hsto & Hof & Hr1 & Hv1 & _ & _ & [Hs1 _ Hs3] & Hst1).
    rewrite bind_Ok. exists s1, (rem ++ [rs]). split; [done|]. rewrite Hr1, Hst1, Hs1, Hs3. split; [apply Forall2_app; [done|by constructor]|].
    do 4 (split; [done|]). assert (Forall2 run_of (segs ++ [resident]) (rem ++ [rs])) as Hall by (apply Forall2_app; [done|by constructor]).
    intros id. destruct (run_of_merged _ _ id Hall) as (Hl & Ho & Hin). rewrite <- concat_snoc. repeat (split; [done|]). by apply run_of_joined.
Qed.

Lemma merge_runs_spec (s : SpimiTermBuffer D) segs rem resident allow :
  holds_feed s segs rem resident → wf_feed (concat segs ++ resident) →
  ∃ ids out s', merge_runs allow s = Ok (out, Ok tt, s') ∧
    Forall2 (delivers allow (delivered_docs (segs ++ [resident]))) ids out ∧
    StronglySorted (id_lt strings) ids ∧ (∀ id, id ∈ ids ↔ tokens_for (concat segs ++ resident) id ≠ []) ∧
    spill_status_ s' = Ok tt ∧ drained_ s' = drained_ s.
Proof.
  intros Hf Hwf. unfold merge_runs.
  destruct (flush_residual s segs rem resident Hf Hwf) as (s1 & rem1 & -> & Hsto & Hst & Hv & Hhp & Hdr & Htok).
  rewrite bind_Ok, Hst. cbn [status_ok negb]. cbv zeta.
  match goal with |- context [report_arena_delta ?x] => destruct (report_same x) as (Hrv & Hrh & Hra & Hrr & Hrst & Hrd & _) end.
  cbn [with_acc vocab_ has_positions_ run_paths_ spill_status_ drained_] in *. rewrite Hrv, Hrh, Hrr, Hhp, (proj1 Hv).
  assert (∀ id, zlen (gpos (merged rem1 id)) < 2 ^ 32) as Hsm.
  { intros id. destruct (Htok id) as [-> _]. pose proof (tokens_for_length (concat segs ++ resident) id).
    destruct Hwf as [_ Hlen]. unfold UINT32_MAX in Hlen. lia. }
  destruct (MergeRuns_merges strings hp allow Hnd (run_paths_ s1) rem1 Hsto Hsm) as (ids & -> & Hs & Hids).
  eexists ids, _, _. split; [reflexivity|]. split; [|split; [done|split; [|split; [by rewrite Hrst|by rewrite Hrd]]]].
  - apply Forall2_fmap_r, Forall_Forall2_diag, Forall_forall. intros id _.
    exists (merged rem1 id). split; [apply emitted_carries|]. split; [apply Htok|by intros ->].
  - intros id. rewrite Hids. apply Htok.
Qed.

(** *** The drain *)

Lemma drain_sorted_spec (s : SpimiTermBuffer D) rem resident allow :
  holds_feed s [] rem resident → wf_feed resident →
  ∃ ids out s', drain_sorted allow s = Ok (out, s') ∧
    Forall2 (delivers allow (delivered_docs [resident])) ids out ∧ StronglySorted (id_lt strings) ids ∧
    (∀ id, id ∈ ids ↔ tokens_for resident id ≠ []) ∧ spill_status_ s' = Ok tt ∧ drained_ s' = drained_ s.
Proof.
  intros [Hhp Hv Hr Hsg Hfill Hst Har Hc] Hwf. pose proof Hfill as [[hss Hi] Hfed]. unfold drain_sorted.
  destruct (sorted_ids_spec strings Hnd (vocab_ s) (touched_ids_ (acc_ s)) Hv (ai_nodup _ _ _ _ _ _ Hi) (ai_range _ _ _ _ _ _ Hi))
    as (v' & ids & -> & Hv' & Hp & Hs & _). rewrite Hhp, (proj1 Hv').
  pose proof (filled_drainable _ _ Hfill Hwf) as Hdr. rewrite <- Hp in Hdr.
  destruct (drained_terms_spec allow ids (acc_ s) (tokens_for resident) hss []) as (tps & a' & -> & Hall); [|done|].
  { eapply acc_inv_perm; [symmetry; exact Hp|done]. }
  rewrite bind_Ok. cbn [app]. eexists ids, tps, _. split; [reflexivity|]. split.
  - eapply Forall2_impl; [exact Hall|]. intros id tp (gs & Hca & [Hd Ho] & Hfl). exists gs. split; [done|]. split; [|done].
    split; cbn [concat]; [by rewrite app_nil_r|]. exists [gs]. split; [by constructor|done].
  - split; [done|]. match goal with |- context [report_arena_delta ?x] => destruct (report_same x) as (_ & _ & _ & _ & Hrst & Hrd & _) end.
    rewrite Hrst, Hrd. split; [|done]. intros id. rewrite Hp. split; [apply Hfed|]. intros Hne.
    destruct (decide (id ∈ touched_ids_ (acc_ s))) as [|Hno]; [done|]. by rewrite (ai_dead _ _ _ _ _ _ Hi id Hno) in Hne.
Qed.

(** The drain after any sequence of tokens, with or without spills. *)
Lemma for_each_term_sorted_spec (s : SpimiTermBuffer D) fed :
  accumulates s fed → wf_feed fed →
  ∃ segs ids out s', for_each_term_sorted s = Ok (out, Ok tt, s') ∧ concat segs = fed ∧ length segs = S (length (run_paths_ s)) ∧
    Forall2 (delivers true (delivered_docs segs)) ids out ∧
    StronglySorted (id_lt strings) ids ∧ (∀ id, id ∈ ids ↔ tokens_for fed id ≠ []) ∧ drained_ s' = true.
Proof.
  intros (Hdr & segs & rem & resident & Hf & ->) Hwf. unfold for_each_term_sorted. rewrite Hdr.
  assert (holds_feed (with_drained s) segs rem resident) as Hf' by (by destruct Hf).
  cbn [with_drained run_paths_ spill_status_]. rewrite (hf_status _ _ _ _ Hf). destruct (run_paths_ s) as [|run runs] eqn:Hrun.
  - pose proof (hf_runs _ _ _ _ Hf) as Hr. rewrite Hrun in Hr. apply Forall2_nil_inv_l in Hr as ->.
    pose proof (hf_segs _ _ _ _ Hf) as Hsg. apply Forall2_nil_inv_r in Hsg as ->. cbn [concat app] in *.
    destruct (drain_sorted_spec (with_drained s) [] resident true Hf' Hwf) as (ids & out & s' & -> & Hall & Hs & Hids & _ & Hd').
    rewrite bind_Ok. exists [resident], ids, out, s'. cbn [concat]. by rewrite app_nil_r.
  - destruct (merge_runs_spec (with_drained s) segs rem resident true Hf' Hwf) as (ids & out & s' & -> & Hall & Hs & Hids & _ & Hd').
    exists (segs ++ [resident]), ids, out, s'. rewrite concat_snoc, length_app, <- Hrun, Nat.add_1_r.
    by rewrite (Forall2_length _ _ _ (hf_segs _ _ _ _ Hf)), (Forall2_length _ _ _ (hf_runs _ _ _ _ Hf)).
Qed.

Lemma borrowing_accumulates threshold reporter :
  cap = assigned_capacity n → n ≤ UINT32_MAX → accumulates (spimi_borrowing strings hp threshold reporter) [].
Proof.
  intros -> Hn. unfold spimi_borrowing.
  match goal with |- context [report_arena_delta ?x] => set (s1 := x); destruct (report_same s1) as (Hrv & Hrh & Hra & Hrr & Hrst & Hrd & _) end.
  split; [by rewrite Hrd|]. exists [], [], []. split; [|done].
  split; rewrite ?Hrv, ?Hrh, ?Hra, ?Hrr, ?Hrst; cbn [s1 vocab_ acc_ run_paths_ spill_status_ has_positions_ pool_ slot_capacity_]; try done.
  - split; [done|]. cbn [string_rank_ length]. intros He. symmetry in He. apply nil_length_inv in He. rewrite He. split; intros a b; cbn; lia.
  - pose proof (filled_new hp n (assigned_capacity n) ltac:(lia)) as Hfn. rewrite Nat2Z.id in Hfn. exact Hfn.
Qed.

(** C9: the accumulator is a sort of its tokens by term. Feeding any tokens with
    ids of the vocabulary and draining delivers every term that has tokens
    exactly once, in the order of the strings, whatever the caps and the
    reporter make spill. The tokens fall into consecutive stretches, one of each
    run written and one of the tokens still in memory; a term's documents are
    those of each stretch, stably sorted by document with equal ones as one, and
    the stretches joined in order, equal documents at a joint as one. Tokens of
    a term that arrive in order of documents so come out grouped in that order,
    and those of a feed that spilled nothing stably sorted. No token throws and
    no step fails while the temporary directory has room. *)
Theorem spimi_delivers threshold reporter fed :
  cap = assigned_capacity n → n ≤ UINT32_MAX → wf_feed fed →
  ∃ s segs ids out s', fold_result (λ x s, add_token x.1 x.2.1 x.2.2 s) fed (spimi_borrowing strings hp threshold reporter) = Ok s ∧
    for_each_term_sorted s = Ok (out, Ok tt, s') ∧ concat segs = fed ∧ length segs = S (length (run_paths_ s)) ∧
    Forall2 (delivers true (delivered_docs segs)) ids out ∧
    StronglySorted (id_lt strings) ids ∧ (∀ id, id ∈ ids ↔ tokens_for fed id ≠ []).
Proof.
  intros Hc Hn Hwf. destruct (add_tokens_spec _ [] fed (borrowing_accumulates threshold reporter Hc Hn) Hwf) as (s & Hs & Ha). cbn [app] in Ha.
  destruct (for_each_term_sorted_spec s fed Ha Hwf) as (segs & ids & out & s' & Hd & Hcat & Hlen & Hall & Hso & Hids & _).
  by exists s, segs, ids, out, s'.
Qed.

(** C23: a token with an id outside the vocabulary is dropped and latched: the
    drain then delivers no term and returns the latched status, even when runs
    were written before. *)
Theorem spimi_rejects s fed id d pos :
  accumulates s fed → wf_feed fed → n ≤ id →
  ∃ s1 s', add_token id d pos s = Ok s1 ∧
    for_each_term_sorted s1 = Ok ([], Err (InvalidArgument "spimi: term_id out of vocab range"), s').
Proof.
  intros (Hdr & segs & rem & resident & Hf & ->) Hwf Hid. destruct (wf_feed_app _ _ Hwf) as [_ Hwf'].
  destruct Hf as [Hhp Hv Hr Hsg Hfill Hst Har Hc]. pose proof Hfill as [[hss Hi] _].
  eexists. unfold add_token. rewrite (ai_size _ _ _ _ _ _ Hi), (proj2 (Z.leb_le _ _)) by done. unfold latch. rewrite Hst. cbn [status_ok].
  set (st := Err _ : result unit). set (s1 := with_status st s).
  assert (∃ s', merge_runs true (with_drained s1) = Ok ([], st, s')) as [s' Hm].
  { unfold merge_runs. cbn [with_drained s1 with_status acc_]. destruct (touched_ids_ (acc_ s)) as [|x l]; [by eexists|].
    unfold kArenaSpillCap in Har.
    destruct (spill_to_run_spec (with_drained s1) resident Hhp Hv Hfill Hwf' Hc ltac:(cbn; lia)) as (s2 & run & rs & -> & _ & _ & _ & _ & _ & _ & _ & Hst2).
    rewrite !bind_Ok. cbn [status_ok]. rewrite Hst2. by eexists. }
  exists s'. split; [done|]. change (for_each_term_sorted s1 = Ok ([], st, s')). assert (drained_ s1 = false) as Hd1 by exact Hdr. unfold for_each_term_sorted. rewrite Hd1. cbv zeta.
  change (spill_status_ (with_drained s1)) with st. destruct (run_paths_ (with_drained s1)); exact Hm.
Qed.
End Drains.

(** ** An instance *)

(** Insertion sort is stable. *)
Module StableInsertion.
Export StableSorting.
#[global] Instance exact_growth : VectorGrowth := {| assigned_capacity n := n; pushed_capacity c n := Z.max c n |}.
#[global] Instance roomy_dir : TempDir FlakyDisk.disk :=
  {| resolve_temp_dir := "/tmp"; temp_dir_available_bytes _ _ := 2 ^ 34; MakeRunPath d _ := (d ++ "/snii_spill_1_0.run")%string |}.
End StableInsertion.

Section Example_.
Import StableInsertion ListQueue.

(** A cap of one byte: every token spills, document 5 of "b" in two runs. *)
Definition example_feed : Feed := [(0, (2, 7)); (1, (3, 0)); (0, (5, 1)); (1, (3, 4)); (0, (5, 2)); (2, (6, 0))].
Definition example_drain (threshold : Z) :=
  s ← fold_result (λ x s, add_token x.1 x.2.1 x.2.2 s) example_feed (spimi_borrowing (D := FlakyDisk.disk) example_vocab true threshold None);
  '(out, st, _) ← for_each_term_sorted s;
  Ok (out, st).
Definition example_terms : list TermPostings :=
  [posting true [97] [(3, [0; 4])]; posting true [98] [(2, [7]); (5, [1; 2])]; posting true [99] [(6, [0])]].

Example drain_in_memory : example_drain 0 = Ok (example_terms, Ok tt).
Proof. vm_compute. reflexivity. Qed.
Example drain_spilled : example_drain 1 = Ok (example_terms, Ok tt).
Proof. vm_compute. reflexivity. Qed.

(** Document 3 after document 5: one run sorts them, two runs do not. *)
Definition unordered_feed : Feed := [(0, (5, 0)); (0, (3, 1))].
Example unordered_drain (threshold : Z) (Ht : threshold ∈ [0; 1]) :
  ∃ tp, (s ← fold_result (λ x s, add_token x.1 x.2.1 x.2.2 s) unordered_feed (spimi_borrowing (D := FlakyDisk.disk) example_vocab true threshold None);
         '(out, st, _) ← for_each_term_sorted s; Ok (out, st)) = Ok ([tp], Ok tt) ∧
    tp_docids tp = if threshold =? 0 then [3; 5] else [5; 3].
Proof.
  apply elem_of_cons in Ht as [->|Ht]; [|apply list_elem_of_singleton in Ht as ->]; (eexists; split; [vm_compute; reflexivity|reflexivity]).
Qed.

Lemma example_vocab_nodup : NoDup example_vocab.
Proof. unfold example_vocab. rewrite !NoDup_cons. split_and!; [set_solver..|by apply NoDup_nil]. Qed.

Lemma example_feed_wf : wf_feed example_vocab example_feed.
Proof. split; [repeat constructor; cbn; unfold is_u32; lia|cbn; unfold UINT32_MAX; lia]. Qed.

Lemma spimi_delivers_witness :
  ∃ s segs ids out s', fold_result (λ x s, add_token x.1 x.2.1 x.2.2 s) example_feed
      (spimi_borrowing (D := FlakyDisk.disk) example_vocab true 1 None) = Ok s ∧
    for_each_term_sorted s = Ok (out, Ok tt, s') ∧ concat segs = example_feed ∧ length segs = S (length (run_paths_ s)) ∧
    Forall2 (delivers example_vocab true true (delivered_docs segs)) ids out ∧
    StronglySorted (id_lt example_vocab) ids ∧ (∀ id, id ∈ ids ↔ tokens_for example_feed id ≠ []).
Proof.
  apply (spimi_delivers example_vocab true example_vocab_nodup 3); [lia|intros runs; cbn; lia|done|cbn; unfold UINT32_MAX; lia|exact example_feed_wf].
Defined.

Lemma spimi_rejects_witness :
  ∃ s1 s' s, fold_result (λ x s, add_token x.1 x.2.1 x.2.2 s) example_feed
      (spimi_borrowing (D := FlakyDisk.disk) example_vocab true 1 None) = Ok s ∧ add_token 3 7 0 s = Ok s1 ∧
    for_each_term_sorted s1 = Ok ([], Err (InvalidArgument "spimi: term_id out of vocab range"), s').
Proof.
  assert (0 ≤ 3) as Hcap by lia. assert (∀ runs, 2 ^ 33 + 4 * 3 ≤ temp_dir_available_bytes (D := FlakyDisk.disk) resolve_temp_dir runs) as Hsp by (intros runs; cbn; lia).
  assert (accumulates example_vocab true 3 (spimi_borrowing (D := FlakyDisk.disk) example_vocab true 1 None) []) as Hb.
  { apply borrowing_accumulates; [exact Hcap|exact Hsp|reflexivity|cbn; unfold UINT32_MAX; lia]. }
  destruct (add_tokens_spec example_vocab true example_vocab_nodup 3 Hcap Hsp _ [] example_feed Hb example_feed_wf) as (s & Hs & Ha).
  destruct (spimi_rejects example_vocab true example_vocab_nodup 3 Hcap Hsp s ([] ++ example_feed) 3 7 0 Ha example_feed_wf ltac:(cbn; lia)) as (s1 & s' & H1 & H2).
  exists s1, s', s. split; [exact Hs|]. split; [exact H1|exact H2].
Defined.
End Example_.
