(* ===== verification/PostingWriter.v ===== *)
(** * PostingWriter: encoding the postings of one term.

    The file-local helpers of [writer/logical_index_writer.cpp]: the regions of a
    window, the prelude, and the two passes of [BuildWindowedPosting], which
    append the .prx windows to the container as they are built and gather the
    dd and freq blocks. The loops over the windows fold over the offsets they
    visit; a size that only reserves memory is left out. *)

From S2P Require Import Prelude Status ByteIO Crc32c FormatConstants Zstd PforRuns FrqPod FrqPrelude PrxPod FileIO TermPostings.

#[local] Open Scope Z_scope.

Definition kAutoZstd : Z := -1.
Definition kRawFrqRegion : Z := 0.
Definition kPreludeGroupSize : Z := 64.

Definition MaxOf (v : list Z) : Z := fold_left (λ m x, if m <? x then x else m) v 0.
Definition SumOf (v : list Z) : Z := fold_left (λ s x, u64 (s + x)) v 0.

(** One document of the loop of [WindowMaxNorm]. *)
Definition best_norm (norms : list Z) (best docid : Z) : Z :=
  match norms !! Z.to_nat docid with
  | None => best
  | Some norm => if norm <? best then norm else best
  end.
Definition WindowMaxNorm (norms docs : list Z) : Z :=
  match norms, docs with
  | [], _ | _, [] => 0
  | _, _ =>
      let best := fold_left (best_norm norms) docs 0xFF in
      if best =? 0xFF then 0 else best
  end.

Definition AdaptiveWindowDocs (df : Z) : Z :=
  if kAdaptiveWindowDfThreshold <=? df then kAdaptiveWindowDocs else kFrqBaseUnit.

Record WindowScratch := mkWindowScratch { dd_sink : ByteSink; freq_sink : ByteSink; prx_sink : ByteSink }.

Record WindowedPosting := mkWindowedPosting {
  dd_block : bytes;
  freq_block : bytes;
  prx_total_len : Z;
  wp_windows : list WindowMeta
}.

(** [WindowMeta m;] *)
Definition default_window : WindowMeta :=
  mkWindowMeta 0 0 0 false 0 0 0 0 false 0 0 0 0 0 0 0 0 true.

(** Fills the region locators of [m] and appends the regions to the blocks. *)
Definition LayoutWindowRegions (dd_meta : FrqRegionMeta) (dd_bytes : bytes) (freq_meta : FrqRegionMeta)
    (freq_bytes : bytes) (has_freq : bool) (out : WindowedPosting) (m : WindowMeta) : WindowedPosting * WindowMeta :=
  let m := mkWindowMeta (last_docid m) (win_base m) (doc_count m)
    (zstd dd_meta) (zlen (dd_block out)) (disk_len dd_meta) (uncomp_len dd_meta) (crc dd_meta)
    (freq_zstd m) (freq_off m) (freq_disk_len m) (freq_uncomp_len m) (crc_freq m)
    (prx_off m) (prx_len m) (max_freq m) (max_norm m) (FrqPrelude.verify_crc m) in
  let out := mkWindowedPosting (dd_block out ++ dd_bytes) (freq_block out) (prx_total_len out) (wp_windows out) in
  if negb has_freq then (out, m)
  else
    (mkWindowedPosting (dd_block out) (freq_block out ++ freq_bytes) (prx_total_len out) (wp_windows out),
     mkWindowMeta (last_docid m) (win_base m) (doc_count m)
       (dd_zstd m) (dd_off m) (dd_disk_len m) (dd_uncomp_len m) (crc_dd m)
       (zstd freq_meta) (zlen (freq_block out)) (disk_len freq_meta) (uncomp_len freq_meta) (crc freq_meta)
       (prx_off m) (prx_len m) (max_freq m) (max_norm m) (FrqPrelude.verify_crc m)).

(** The offsets of [for (start = 0; start < n; start += unit)]. *)
Definition window_starts (n unit : Z) : list Z := map (λ i, i * unit) (seqZ 0 ((n + unit - 1) / unit)).

Section Encode.
Context `{ZstdOps}.

Definition EncodeRegions (docids freqs : list Z) (win_base : Z) (has_freq : bool)
    (dd_meta freq_meta : FrqRegionMeta) : result (bytes * FrqRegionMeta * bytes * FrqRegionMeta) :=
  '(dd_out, dd_meta) ← build_dd_region docids win_base kRawFrqRegion [] dd_meta;
  if negb has_freq then Ok (dd_out, dd_meta, [], default_region_meta)
  else
    '(freq_out, freq_meta) ← build_freq_region freqs kRawFrqRegion [] freq_meta;
    Ok (dd_out, dd_meta, freq_out, freq_meta).

Definition EncodeRegionsInto (sc : WindowScratch) (docids freqs : list Z) (win_base : Z) (has_freq : bool)
    (dd_meta freq_meta : FrqRegionMeta) : result (WindowScratch * FrqRegionMeta * FrqRegionMeta) :=
  '(dd_sink, dd_meta) ← build_dd_region docids win_base kRawFrqRegion [] dd_meta;
  if negb has_freq then Ok (mkWindowScratch dd_sink (freq_sink sc) (prx_sink sc), dd_meta, default_region_meta)
  else
    '(freq_sink, freq_meta) ← build_freq_region freqs kRawFrqRegion [] freq_meta;
    Ok (mkWindowScratch dd_sink freq_sink (prx_sink sc), dd_meta, freq_meta).

Definition MakePrxWindow (positions_flat freqs : list Z) : result bytes :=
  build_prx_window_flat positions_flat freqs kAutoZstd [].

Definition BuildPrelude (windows : list WindowMeta) (has_freq has_prx : bool) : result bytes :=
  build_frq_prelude (mkFrqPreludeColumns has_freq has_prx kPreludeGroupSize windows) [].

(** The variables of pass 1. *)
Record PrxPass (W : Type) := mkPrxPass {
  p1_out : W;
  p1_posting : WindowedPosting;
  p1_win_base : Z;
  p1_pos_off : Z;
  p1_pump : option (list Z)
}.
#[global] Arguments mkPrxPass {W}.
#[global] Arguments p1_out {W}.
#[global] Arguments p1_posting {W}.
#[global] Arguments p1_win_base {W}.
#[global] Arguments p1_pos_off {W}.
#[global] Arguments p1_pump {W}.

(** The next [win_pos] positions, from the pump or from the flat buffer. *)
Definition window_positions (all_pos : list Z) (pos_off win_pos : Z) (pump : option (list Z))
    : result (list Z * option (list Z)) :=
  match pump with
  | Some q =>
      if win_pos =? 0 then Ok ([], pump)
      else '(buf, q) ← pull q win_pos; Ok (buf, Some q)
  | None => span ← subslice all_pos pos_off win_pos; Ok (span, pump)
  end.

(** One round of pass 1. *)
Definition prx_window {W} `{FileWriter W} (tp : TermPostings) (has_prx : bool) (norms : list Z) (n unit start : Z)
    (st : PrxPass W) : result (PrxPass W) :=
  let len := Z.min unit (n - start) in
  docs ← subslice (tp_docids tp) start len;
  freqs ← subslice (tp_freqs tp) start len;
  last_docid ← match last docs with Some d => Ok d | None => Undef end;
  let max_freq := MaxOf freqs in
  let max_norm := WindowMaxNorm norms docs in
  let m prx_off prx_len :=
    mkWindowMeta last_docid (p1_win_base st) (u32 (zlen docs)) false 0 0 0 0 false 0 0 0 0 prx_off prx_len
      max_freq max_norm true in
  let win_pos := SumOf freqs in
  let wp := p1_posting st in
  if negb has_prx then
    Ok (mkPrxPass (p1_out st)
          (mkWindowedPosting (dd_block wp) (freq_block wp) (prx_total_len wp) (wp_windows wp ++ [m 0 0]))
          last_docid (u64 (p1_pos_off st + win_pos)) (p1_pump st))
  else
    '(pos_span, pump) ← window_positions (tp_positions_flat tp) (p1_pos_off st) win_pos (p1_pump st);
    prx_sink ← build_prx_window_flat pos_span freqs kAutoZstd [];
    out ← append prx_sink (p1_out st);
    Ok (mkPrxPass out
          (mkWindowedPosting (dd_block wp) (freq_block wp) (u64 (prx_total_len wp + zlen prx_sink))
             (wp_windows wp ++ [m (prx_total_len wp) (zlen prx_sink)]))
          last_docid (u64 (p1_pos_off st + win_pos)) pump).

(** The variables of pass 2. *)
Record RegionPass := mkRegionPass { p2_scratch : WindowScratch; p2_posting : WindowedPosting; p2_win_base : Z; p2_wi : nat }.

(** One round of pass 2. *)
Definition region_window (tp : TermPostings) (has_freq : bool) (n unit start : Z) (st : RegionPass) : result RegionPass :=
  let len := Z.min unit (n - start) in
  docs ← subslice (tp_docids tp) start len;
  freqs ← subslice (tp_freqs tp) start len;
  '(sc, dd_meta, freq_meta) ←
    EncodeRegionsInto (p2_scratch st) docs freqs (p2_win_base st) has_freq default_region_meta default_region_meta;
  match wp_windows (p2_posting st) !! p2_wi st with
  | None => Undef
  | Some m =>
      let '(wp, m) := LayoutWindowRegions dd_meta (dd_sink sc) freq_meta (freq_sink sc) has_freq (p2_posting st) m in
      Ok (mkRegionPass sc
            (mkWindowedPosting (dd_block wp) (freq_block wp) (prx_total_len wp) (<[p2_wi st := m]> (wp_windows wp)))
            (last_docid m) (S (p2_wi st)))
  end.

Definition BuildWindowedPosting {W} `{FileWriter W} (tp : TermPostings) (has_freq has_prx : bool) (norms : list Z)
    (posting_out : W) : result (W * WindowedPosting) :=
  let n := zlen (tp_docids tp) in
  let unit := AdaptiveWindowDocs (u32 n) in
  p1 ← fold_result (prx_window tp has_prx norms n unit) (window_starts n unit)
         (mkPrxPass posting_out (mkWindowedPosting [] [] 0 []) 0 0 (tp_pos_pump tp));
  p2 ← fold_result (region_window tp has_freq n unit) (window_starts n unit)
         (mkRegionPass (mkWindowScratch [] [] []) (p1_posting p1) 0 0);
  Ok (p1_out p1, p2_posting p2).
End Encode.

(** ** The windows of a posting *)

(** Window by window: the documents, their frequencies and their positions. *)
Record Window := mkWindow { w_docs : list Z; w_freqs : list Z; w_pos : list (list Z) }.

Abbreviation all_docs ws := (concat (map w_docs ws)).
Abbreviation all_freqs ws := (concat (map w_freqs ws)).
Abbreviation all_pos ws := (concat (map w_pos ws)).

(** Every window but the last one has [unit] documents. *)
Fixpoint tiled (unit : Z) (ws : list Window) : Prop :=
  match ws with
  | [] => True
  | w :: ws =>
      0 < zlen (w_docs w) ≤ unit ∧ (ws ≠ [] → zlen (w_docs w) = unit) ∧
      length (w_freqs w) = length (w_docs w) ∧ length (w_pos w) = length (w_docs w) ∧ tiled unit ws
  end.

Lemma cut_windows unit docs freqs pd :
  0 < unit → length freqs = length docs → length pd = length docs →
  ∃ ws, tiled unit ws ∧ docs = all_docs ws ∧ freqs = all_freqs ws ∧ pd = all_pos ws.
Proof.
  intros Hu. remember (length docs) as n eqn:Hn. revert docs freqs pd Hn.
  induction (lt_wf n) as [n _ IH]. intros docs freqs pd -> Hf Hp.
  destruct docs as [|d docs]. { exists []. cbn in Hf, Hp. destruct freqs, pd; done. }
  set (k := Z.to_nat unit). set (l := d :: docs) in *.
  assert (0 < length (take k l))%nat as Hpos by (rewrite length_take; subst l k; cbn; lia).
  destruct (IH (length (drop k l)) ltac:(rewrite length_drop; subst l k; cbn; lia) (drop k l) (drop k freqs) (drop k pd) eq_refl)
    as (ws & Ht & Hd & Hfr & Hpd); [rewrite !length_drop; lia..|].
  exists (mkWindow (take k l) (take k freqs) (take k pd) :: ws). cbn [map concat w_docs w_freqs w_pos tiled].
  rewrite <- Hd, <- Hfr, <- Hpd, !take_drop, !length_take. split_and!; try done; try lia.
  - rewrite length_take in Hpos. lia.
  - intros Hne. assert (0 < length (drop k l))%nat as Hr; [|rewrite length_drop in Hr; lia].
    rewrite Hd. destruct ws as [|w ws]; [done|]. destruct Ht as ([? _] & _). cbn [map concat]. rewrite length_app. lia.
Qed.

Lemma tiled_count unit ws : 0 < unit → tiled unit ws → (zlen (all_docs ws) + unit - 1) / unit = zlen ws.
Proof.
  intros Hu Ht. symmetry. apply Z.div_unique with (r := (zlen (all_docs ws) + unit - 1) - unit * zlen ws); [|lia].
  left. induction ws as [|w ws IH]; [cbn; lia|]. destruct Ht as (Hl & Hfull & _ & _ & Ht). cbn [map concat length].
  rewrite length_app. specialize (IH Ht). destruct ws as [|w' ws]; [cbn in *; lia|].
  specialize (Hfull ltac:(done)). cbn [length] in *. lia.
Qed.

Lemma tiled_len unit w ws n start :
  tiled unit (w :: ws) → n = start + zlen (all_docs (w :: ws)) → Z.min unit (n - start) = zlen (w_docs w).
Proof.
  intros (Hl & Hfull & _ & _ & Ht) ->. cbn [map concat]. rewrite length_app. destruct ws as [|w' ws]; [cbn; lia|].
  specialize (Hfull ltac:(done)). lia.
Qed.

(** *** What is written for them *)

Definition w_last (w : Window) : Z := default 0 (last (w_docs w)).
Definition px_bytes (hp : bool) (w : Window) : bytes := if hp then auto_window (w_pos w) else [].
Definition fq_bytes (hf : bool) (w : Window) : bytes := if hf then pfor_runs_bytes (w_freqs w) else [].

Definition px_block (hp : bool) (ws : list Window) : bytes := concat (map (px_bytes hp) ws).
Definition fq_block (hf : bool) (ws : list Window) : bytes := concat (map (fq_bytes hf) ws).
Fixpoint dd_blocks (base : Z) (ws : list Window) : bytes :=
  match ws with [] => [] | w :: ws => dd_plain (w_docs w) base ++ dd_blocks (w_last w) ws end.

(** The metadata of a window after pass 1, and after pass 2. *)
Definition skeleton (hp : bool) (norms : list Z) (base px : Z) (w : Window) : WindowMeta :=
  mkWindowMeta (w_last w) base (zlen (w_docs w)) false 0 0 0 0 false 0 0 0 0
    (if hp then px else 0) (zlen (px_bytes hp w)) (MaxOf (w_freqs w)) (WindowMaxNorm norms (w_docs w)) true.
Definition placed (hf : bool) (base dd fq : Z) (w : Window) (m : WindowMeta) : WindowMeta :=
  let d := dd_plain (w_docs w) base in
  let f := fq_bytes hf w in
  mkWindowMeta (last_docid m) (win_base m) (doc_count m) false dd (zlen d) (zlen d) (crc32c d)
    false (if hf then fq else 0) (zlen f) (zlen f) (if hf then crc32c f else 0)
    (prx_off m) (prx_len m) (max_freq m) (max_norm m) true.

Fixpoint skeletons (hp : bool) (norms : list Z) (base px : Z) (ws : list Window) : list WindowMeta :=
  match ws with
  | [] => []
  | w :: ws => skeleton hp norms base px w :: skeletons hp norms (w_last w) (px + zlen (px_bytes hp w)) ws
  end.
Fixpoint layout (hf hp : bool) (norms : list Z) (base dd fq px : Z) (ws : list Window) : list WindowMeta :=
  match ws with
  | [] => []
  | w :: ws =>
      placed hf base dd fq w (skeleton hp norms base px w) ::
        layout hf hp norms (w_last w) (dd + zlen (dd_plain (w_docs w) base)) (fq + zlen (fq_bytes hf w))
          (px + zlen (px_bytes hp w)) ws
  end.

(** *** Pass 1 *)

Lemma SumOf_counts pd s :
  0 ≤ s → s + zlen (concat pd) < 2 ^ 64 → fold_left (λ s x, u64 (s + x)) (counts pd) s = s + zlen (concat pd).
Proof.
  revert s. induction pd as [|d pd IH]; intros s Hs Hn; cbn [map fold_left concat] in *; [cbn; lia|].
  rewrite length_app in *. rewrite u64_small by ulia. rewrite IH by lia. lia.
Qed.

Lemma last_docs w : 0 < zlen (w_docs w) → last (w_docs w) = Some (w_last w).
Proof.
  intros Hl. unfold w_last. destruct (w_docs w) as [|d l] eqn:Hd; [cbn in Hl; lia|]. 
  destruct (last (d :: l)) eqn:He; [done|]. by apply last_None in He.
Qed.

Section Passes.
Context `{ZstdOps} {W : Type} `{FileWriterLaws W}.
Context (tp : TermPostings) (hf hp : bool) (norms : list Z) (unit : Z).

Abbreviation n := (zlen (tp_docids tp)).

(** The positions still to come, in the source the term uses. *)
Definition pos_ready (pump : option (list Z)) (pos_off : Z) (rest : list Z) : Prop :=
  match pump with
  | Some q => q = rest
  | None => ∃ pre, tp_positions_flat tp = pre ++ rest ∧ zlen pre = pos_off
  end.

Lemma window_positions_ready pump pos_off l rest :
  pos_ready pump pos_off (l ++ rest) → 
  ∃ pump', window_positions (tp_positions_flat tp) pos_off (zlen l) pump = Ok (l, pump') ∧
    pos_ready pump' (pos_off + zlen l) rest.
Proof.
  intros Hr. unfold window_positions. destruct pump as [q|].
  - cbn in Hr. subst q. destruct l as [|x l]; [by exists (Some rest)|].
    rewrite (proj2 (Z.eqb_neq _ _)) by (cbn; lia). unfold pull. rewrite subslice_app_l, !bind_Ok by done.
    exists (Some rest). split; [|done]. f_equal. f_equal. by rewrite Nat2Z.id, drop_app_length.
  - destruct Hr as (pre & Hp & Hl). rewrite Hp, <- Hl, subslice_mid, bind_Ok. exists None.
    split; [done|]. exists (pre ++ l). rewrite Hp, <- !app_assoc, length_app. split; [done|lia].
Qed.

(** What a window with positions needs. *)
Definition wf_positions (w : Window) : Prop := w_freqs w = counts (w_pos w) ∧ ascending_docs (w_pos w).

Lemma prx_window_step pre_d pre_f w ws start base px wins out pump pos_off rest :
  tp_docids tp = pre_d ++ all_docs (w :: ws) → tp_freqs tp = pre_f ++ all_freqs (w :: ws) →
  zlen pre_d = start → zlen pre_f = start → tiled unit (w :: ws) → is_u32 unit → writable out → 0 ≤ px →
  px + zlen (px_bytes hp w) < 2 ^ 64 →
  (hp = true → wf_positions w ∧ pos_ready pump pos_off (concat (w_pos w) ++ rest) ∧ 0 ≤ pos_off ∧
     pos_off + zlen (concat (w_pos w)) < 2 ^ 64) →
  ∃ out' pos_off' pump',
    prx_window tp hp norms n unit start (mkPrxPass out (mkWindowedPosting [] [] px wins) base pos_off pump) =
      Ok (mkPrxPass out' (mkWindowedPosting [] [] (px + zlen (px_bytes hp w)) (wins ++ [skeleton hp norms base px w]))
            (w_last w) pos_off' pump') ∧
    writable out' ∧ contents out' = contents out ++ px_bytes hp w ∧
    (hp = true → pos_ready pump' pos_off' rest ∧ pos_off' = pos_off + zlen (concat (w_pos w))).
Proof.
  intros Hd Hf Hpd Hpf Ht Hu Ho Hpx Hlim Hpos. pose proof Ht as (Hl & _ & Hlf & Hlp & _).
  unfold prx_window. rewrite (tiled_len unit w ws) by (done || (rewrite Hd, length_app; lia)).
  rewrite Hd, Hf. cbn [map concat]. rewrite (subslice_at pre_d (w_docs w)), bind_Ok by done.
  rewrite (subslice_at pre_f (w_freqs w)), bind_Ok by (done || lia). rewrite last_docs, bind_Ok by lia. cbv zeta.
  cbn [p1_out p1_posting p1_win_base p1_pos_off p1_pump dd_block freq_block prx_total_len wp_windows].
  rewrite (u32_small (zlen (w_docs w))) by ulia. unfold skeleton, px_bytes in *.
  destruct hp; cbn [negb].
  - destruct (Hpos eq_refl) as ((Hc & Ha) & Hr & Hp0 & Hp64).
    assert (SumOf (w_freqs w) = zlen (concat (w_pos w))) as ->.
    { unfold SumOf. rewrite Hc, SumOf_counts by lia. lia. }
    destruct (window_positions_ready pump pos_off _ rest Hr) as (pump' & -> & Hr'). rewrite bind_Ok. cbv beta iota.
    assert (build_prx_window_flat (concat (w_pos w)) (w_freqs w) kAutoZstd [] = Ok (auto_window (w_pos w))) as ->
      by (rewrite Hc; apply build_auto_window; [done|lia|done]).
    rewrite bind_Ok.
    destruct (append_writable (auto_window (w_pos w)) out Ho) as (out' & -> & Ho' & Hc'). rewrite bind_Ok.
    rewrite !u64_small by ulia. do 3 eexists. split; [done|]. by split_and!.
  - do 3 eexists. split; [by rewrite Z.add_0_r|]. rewrite app_nil_r. by split_and!.
Qed.

(** The windows [ws] are what follows [start] in the term. *)
Definition rest_at (start : Z) (ws : list Window) : Prop :=
  tiled unit ws ∧ ∃ pre_d pre_f, tp_docids tp = pre_d ++ all_docs ws ∧ tp_freqs tp = pre_f ++ all_freqs ws ∧
    zlen pre_d = start ∧ zlen pre_f = start.

Lemma rest_at_next start w ws : rest_at start (w :: ws) → ws ≠ [] → rest_at (start + unit) ws.
Proof.
  intros (Ht & pre_d & pre_f & Hd & Hf & Hpd & Hpf) Hne. destruct Ht as (_ & Hfull & Hlf & _ & Ht).
  specialize (Hfull Hne). split; [done|]. exists (pre_d ++ w_docs w), (pre_f ++ w_freqs w).
  cbn [map concat] in Hd, Hf. rewrite Hd, Hf, <- !app_assoc, !length_app. split_and!; [done..|lia|lia].
Qed.

Lemma prx_windows_spec ws i base px wins out pump pos_off :
  rest_at (i * unit) ws → is_u32 unit → 0 ≤ i → writable out → 0 ≤ px → px + zlen (px_block hp ws) < 2 ^ 64 →
  (hp = true → Forall wf_positions ws ∧ pos_ready pump pos_off (concat (all_pos ws)) ∧ 0 ≤ pos_off ∧
     pos_off + zlen (concat (all_pos ws)) < 2 ^ 64) →
  ∃ out' base' pos_off' pump',
    fold_result (prx_window tp hp norms n unit) (map (λ i, i * unit) (seqZ i (zlen ws)))
      (mkPrxPass out (mkWindowedPosting [] [] px wins) base pos_off pump) =
      Ok (mkPrxPass out' (mkWindowedPosting [] [] (px + zlen (px_block hp ws)) (wins ++ skeletons hp norms base px ws))
            base' pos_off' pump') ∧
    writable out' ∧ contents out' = contents out ++ px_block hp ws.
Proof.
  intros Hrest Hu Hi. revert i base px wins out pump pos_off Hrest Hi.
  induction ws as [|w ws IH]; intros i base px wins out pump pos_off Hrest Hi Ho Hpx Hlim Hpos.
  { do 4 eexists. cbn. rewrite Z.add_0_r, !app_nil_r. by split_and!. }
  unfold px_block in *. cbn [map concat skeletons] in *. rewrite length_app in *.
  pose proof Hrest as (Ht & pre_d & pre_f & Hd & Hf & Hpd & Hpf).
  cbn [length]. rewrite Nat2Z.inj_succ, seqZ_cons, Z.pred_succ by lia. cbn [map fold_result].
  destruct (prx_window_step pre_d pre_f w ws (i * unit) base px wins out pump pos_off (concat (all_pos ws)))
    as (o1 & po1 & pump1 & -> & Ho1 & Hc1 & Hp1); try done; [lia| |].
  { intros Hh. destruct (Hpos Hh) as (Hall & Hr & ? & ?). apply Forall_cons in Hall as [Hw _].
    rewrite concat_app in Hr. rewrite concat_app, length_app in *. split_and!; [done..|lia]. }
  rewrite bind_Ok. destruct (decide (ws = [])) as [->|Hne].
  { cbn [length map fold_result concat skeletons]. rewrite Nat.add_0_r, !app_nil_r.
    do 4 eexists. split; [done|]. by rewrite Hc1. }
  destruct (IH (Z.succ i) (w_last w) (px + zlen (px_bytes hp w)) (wins ++ [skeleton hp norms base px w]) o1 pump1 po1)
    as (o2 & b2 & po2 & pump2 & -> & Ho2 & Hc2); try done; try lia.
  - replace (Z.succ i * unit) with (i * unit + unit) by lia. by eapply rest_at_next.
  - intros Hh. destruct (Hpos Hh) as (Hall & _ & ? & ?). apply Forall_cons in Hall as [_ Hws].
    destruct (Hp1 Hh) as [Hr ->]. rewrite concat_app, length_app in *. split_and!; [done..|lia|lia].
  - do 4 eexists. split; [|split; [done|]].
    + rewrite <- app_assoc. cbn [app]. by rewrite Nat2Z.inj_add, Z.add_assoc.
    + by rewrite Hc2, Hc1, <- app_assoc.
Qed.

(** *** Pass 2 *)

Lemma region_window_step pre_d pre_f w ws start base ddb fqb pl px sc front tail :
  tp_docids tp = pre_d ++ all_docs (w :: ws) → tp_freqs tp = pre_f ++ all_freqs (w :: ws) →
  zlen pre_d = start → zlen pre_f = start → tiled unit (w :: ws) → ascending_from base (w_docs w) →
  ∃ sc',
    region_window tp hf n unit start
      (mkRegionPass sc (mkWindowedPosting ddb fqb pl (front ++ skeleton hp norms base px w :: tail)) base (length front)) =
    Ok (mkRegionPass sc'
          (mkWindowedPosting (ddb ++ dd_plain (w_docs w) base) (fqb ++ fq_bytes hf w) pl
             (front ++ placed hf base (zlen ddb) (zlen fqb) w (skeleton hp norms base px w) :: tail))
          (w_last w) (S (length front))).
Proof.
  intros Hd Hf Hpd Hpf Ht Ha. pose proof Ht as (Hl & _ & Hlf & Hlp & _).
  unfold region_window. rewrite (tiled_len unit w ws) by (done || (rewrite Hd, length_app; lia)).
  rewrite Hd, Hf. cbn [map concat]. rewrite (subslice_at pre_d (w_docs w)), bind_Ok by done.
  rewrite (subslice_at pre_f (w_freqs w)), bind_Ok by (done || lia).
  cbn [p2_scratch p2_posting p2_win_base p2_wi wp_windows]. unfold EncodeRegionsInto, kRawFrqRegion.
  rewrite build_dd_raw, bind_Ok by done. cbv beta iota. rewrite lookup_app_r, Nat.sub_diag by lia. cbn [lookup list_lookup].
  unfold fq_bytes, placed, LayoutWindowRegions. destruct hf; cbn [negb].
  - rewrite build_freq_raw, !bind_Ok. cbv beta iota. cbn [wp_windows].
    rewrite insert_app_r_alt, Nat.sub_diag by lia. eexists. reflexivity.
  - rewrite bind_Ok. cbv beta iota. cbn [wp_windows]. rewrite insert_app_r_alt, Nat.sub_diag by lia.
    eexists. rewrite app_nil_r. reflexivity.
Qed.

Lemma region_windows_spec ws i base ddb fqb pl px sc front :
  rest_at (i * unit) ws → 0 ≤ i → Forall (λ d, base ≤ d) (all_docs ws) → Sorted Z.le (all_docs ws) →
  ∃ st,
    fold_result (region_window tp hf n unit) (map (λ i, i * unit) (seqZ i (zlen ws)))
      (mkRegionPass sc (mkWindowedPosting ddb fqb pl (front ++ skeletons hp norms base px ws)) base (length front)) =
      Ok st ∧
    p2_posting st =
      mkWindowedPosting (ddb ++ dd_blocks base ws) (fqb ++ fq_block hf ws) pl
        (front ++ layout hf hp norms base (zlen ddb) (zlen fqb) px ws).
Proof.
  intros Hrest Hi. revert i base ddb fqb px sc front Hrest Hi.
  induction ws as [|w ws IH]; intros i base ddb fqb px sc front Hrest Hi Hb Hs.
  { eexists. split; [done|]. cbn. by rewrite !app_nil_r. }
  pose proof Hrest as (Ht & pre_d & pre_f & Hd & Hf & Hpd & Hpf). pose proof Ht as (Hl & _).
  unfold fq_block in *. cbn [map concat skeletons layout dd_blocks] in *. apply Forall_app in Hb as [Hbw Hb].
  apply Sorted_StronglySorted in Hs; [|intros ???; lia]. apply StronglySorted_app in Hs as (Hcross & Hsw & Hs).
  apply StronglySorted_Sorted in Hs, Hsw.
  cbn [length]. rewrite Nat2Z.inj_succ, seqZ_cons, Z.pred_succ by lia. cbn [map fold_result].
  destruct (region_window_step pre_d pre_f w ws (i * unit) base ddb fqb pl px sc front
    (skeletons hp norms (w_last w) (px + zlen (px_bytes hp w)) ws)) as (sc' & ->); try done.
  rewrite bind_Ok. destruct (decide (ws = [])) as [->|Hne].
  { cbn [length map fold_result concat skeletons dd_blocks layout]. eexists. split; [done|]. by rewrite !app_nil_r. }
  destruct (IH (Z.succ i) (w_last w) (ddb ++ dd_plain (w_docs w) base) (fqb ++ fq_bytes hf w)
    (px + zlen (px_bytes hp w)) sc' (front ++ [placed hf base (zlen ddb) (zlen fqb) w (skeleton hp norms base px w)]))
    as (st & Hst & Hp); try done; try lia.
  - replace (Z.succ i * unit) with (i * unit + unit) by lia. by eapply rest_at_next.
  - apply Forall_forall. intros d Hd'. apply (Hcross (w_last w) d); [|done].
    pose proof (last_docs w ltac:(lia)) as Hlast. by apply last_Some_elem_of in Hlast.
  - rewrite <- app_assoc, length_app in Hst. cbn [app length] in Hst. rewrite Nat.add_1_r in Hst.
    exists st. split; [exact Hst|]. rewrite Hp, <- !app_assoc, !length_app, !Nat2Z.inj_add. done.
Qed.
End Passes.

(** ** Postings the writer accepts *)

(** What a producer promises of a term, with the positions of each document. *)
Record wf_postings (hp : bool) (tp : TermPostings) (pd : list (list Z)) : Prop := {
  wp_count : zlen (tp_docids tp) < 2 ^ 32;
  wp_docids : is_u32s (tp_docids tp);
  wp_sorted : StronglySorted Z.lt (tp_docids tp);
  wp_parallel : length (tp_freqs tp) = length (tp_docids tp);
  wp_freqs : is_u32s (tp_freqs tp);
  wp_pd : length pd = length (tp_docids tp);
  wp_positions : hp = true →
    positions_by_doc tp pd ∧ ascending_docs pd ∧ Forall is_u32s pd ∧ zlen (concat pd) < 2 ^ 48;
  wp_pump : tp_pos_pump tp ≠ None → kSlimDfThreshold ≤ zlen (tp_docids tp)
}.

(** The windows of such a term. *)
Record wf_windows (hp : bool) (ws : list Window) : Prop := {
  ww_count : zlen (all_docs ws) < 2 ^ 32;
  ww_docs : is_u32s (all_docs ws);
  ww_sorted : StronglySorted Z.lt (all_docs ws);
  ww_freqs : is_u32s (all_freqs ws);
  ww_positions : hp = true →
    Forall wf_positions ws ∧ Forall is_u32s (all_pos ws) ∧ zlen (concat (all_pos ws)) < 2 ^ 48
}.

Lemma sorted_lt_le l : StronglySorted Z.lt l → Sorted Z.le l.
Proof.
  intros Hl. apply StronglySorted_Sorted. induction Hl as [|x l Hl IH Hx]; constructor; [done|].
  eapply Forall_impl; [exact Hx|]. cbn. lia.
Qed.

Lemma adaptive_unit df : AdaptiveWindowDocs df = 256 ∨ AdaptiveWindowDocs df = 1024.
Proof. unfold AdaptiveWindowDocs. destruct (_ <=? df); [by right|by left]. Qed.

Lemma tiled_windows unit ws : tiled unit ws → zlen ws ≤ zlen (all_docs ws) ∧ length (all_pos ws) = length (all_docs ws) ∧
  length (all_freqs ws) = length (all_docs ws).
Proof.
  induction ws as [|w ws IH]; [done|]. intros (Hl & _ & Hf & Hp & Ht). destruct (IH Ht) as (? & ? & ?).
  cbn [map concat length]. rewrite !length_app. lia.
Qed.

(** *** Sizes *)

Lemma concat_nil_map (ws : list Window) : concat (map (λ _, @nil Z) ws) = [].
Proof. induction ws as [|w ws IH]; [done|]. exact IH. Qed.

Lemma px_block_le hp unit ws :
  tiled unit ws → wf_windows hp ws →
  is_bytes (px_block hp ws) ∧ zlen (px_block hp ws) ≤ 100 * zlen (all_docs ws) + 36 * zlen (concat (all_pos ws)).
Proof.
  intros Ht [_ _ _ Hf Hp]. unfold px_block, px_bytes. destruct hp.
  2: { rewrite (concat_nil_map ws). split; [constructor|cbn; lia]. }
  destruct (Hp eq_refl) as (Hall & Hu & _). clear Hp. revert Ht Hf Hall Hu.
  induction ws as [|w ws IH]; intros Ht Hf Hall Hu; [by split; [constructor|cbn; lia]|].
  cbn [map concat] in *. apply Forall_cons in Hall as [(Hc & _) Hall]. apply Forall_app in Hf as [Hfw Hf].
  apply Forall_app in Hu as [Huw Hu]. destruct Ht as (Hl & _ & Hlf & Hlp & Ht). destruct (IH Ht Hf Hall Hu) as [Hb Hle].
  destruct (auto_window_bound (w_pos w) Huw) as [Hbw Hlw].
  { rewrite Hc in Hfw. by apply (Forall_fmap (λ doc : list Z, zlen doc)) in Hfw. }
  split; [by apply Forall_app_2|]. rewrite concat_app, !length_app. lia.
Qed.

Lemma fq_bytes_bound hf w : is_u32s (w_freqs w) → is_bytes (fq_bytes hf w) ∧ zlen (fq_bytes hf w) ≤ 36 * zlen (w_freqs w).
Proof.
  intros Hf. unfold fq_bytes. destruct hf; [|by split; [constructor|cbn; lia]].
  split; [by apply pfor_runs_bytes_is_bytes|by apply pfor_runs_bytes_le].
Qed.

Lemma fq_block_le hf ws :
  is_u32s (all_freqs ws) → is_bytes (fq_block hf ws) ∧ zlen (fq_block hf ws) ≤ 36 * zlen (all_freqs ws).
Proof.
  unfold fq_block. induction ws as [|w ws IH]; intros Hf; [by split; [constructor|cbn; lia]|].
  cbn [map concat] in *. apply Forall_app in Hf as [Hfw Hf]. destruct (IH Hf) as [Hb Hl].
  destruct (fq_bytes_bound hf w Hfw). split; [by apply Forall_app_2|]. rewrite !length_app. lia.
Qed.

Lemma dd_blocks_le unit base ws :
  tiled unit ws → is_bytes (dd_blocks base ws) ∧ zlen (dd_blocks base ws) ≤ 46 * zlen (all_docs ws).
Proof.
  revert base. induction ws as [|w ws IH]; intros base Ht; [by split; [constructor|cbn; lia]|].
  cbn [map concat dd_blocks]. destruct Ht as (Hl & _ & _ & _ & Ht). destruct (IH (w_last w) Ht) as [Hb Hle].
  pose proof (dd_plain_le (w_docs w) base). split; [apply Forall_app_2; [apply dd_plain_bytes|done]|].
  rewrite !length_app. lia.
Qed.

(** *** The prelude *)

Lemma MaxOf_u32 l : is_u32s l → is_u32 (MaxOf l).
Proof.
  unfold MaxOf. assert (is_u32 0) as H0 by (by vm_compute). revert H0. generalize 0. intros m Hm Hl. revert m Hm.
  induction Hl as [|x l Hx Hl IH]; intros m Hm; cbn [fold_left]; [done|]. apply IH. by destruct (m <? x).
Qed.

Lemma WindowMaxNorm_u8 norms docs : is_bytes norms → is_u8 (WindowMaxNorm norms docs).
Proof.
  intros Hn. assert (is_u8 0) as H0 by (by vm_compute). unfold WindowMaxNorm.
  destruct norms as [|x norms]; [done|]. destruct docs as [|d docs]; [done|]. set (ns := x :: norms) in *.
  assert (∀ l b, is_u8 b → is_u8 (fold_left (best_norm ns) l b)) as Hgo.
  { induction l as [|y l IH]; intros b Hb; cbn [fold_left]; [done|]. apply IH. unfold best_norm.
    destruct (ns !! Z.to_nat y) as [v|] eqn:Hv; [|done]. destruct (v <? b); [|done].
    rewrite Forall_lookup in Hn. by eapply Hn. }
  specialize (Hgo (d :: docs) 0xFF ltac:(by vm_compute)). by destruct (_ =? 0xFF).
Qed.

Lemma w_last_in w : 0 < zlen (w_docs w) → w_last w ∈ w_docs w.
Proof. intros Hl. by apply last_Some_elem_of, last_docs. Qed.

Section Prelude_.
Context (hf hp : bool) (norms : list Z) (Hnorms : is_bytes norms).

Lemma layout_wf unit ws base dd fq px :
  tiled unit ws → is_u32s (all_docs ws) → is_u32s (all_freqs ws) → zlen (all_docs ws) < 2 ^ 32 →
  0 ≤ dd → dd + zlen (dd_blocks base ws) < 2 ^ 64 → 0 ≤ fq → fq + zlen (fq_block hf ws) < 2 ^ 64 →
  0 ≤ px → px + zlen (px_block hp ws) < 2 ^ 64 →
  Forall wf_window (layout hf hp norms base dd fq px ws).
Proof.
  revert base dd fq px. induction ws as [|w ws IH]; intros base dd fq px Ht Hd Hf Hn Hdd0 Hdd Hfq0 Hfq Hpx0 Hpx; [constructor|].
  unfold fq_block, px_block in *. cbn [map concat dd_blocks layout] in *. rewrite !length_app in *.
  apply Forall_app in Hd as [Hdw Hd]. apply Forall_app in Hf as [Hfw Hf]. destruct Ht as (Hl & _ & _ & _ & Ht).
  destruct (fq_bytes_bound hf w Hfw) as [Hfb _].
  constructor; [|apply IH; try done; lia].
  unfold wf_window. cbn [placed skeleton last_docid doc_count dd_off dd_disk_len dd_uncomp_len crc_dd freq_off
    freq_disk_len freq_uncomp_len crc_freq prx_off prx_len max_freq max_norm].
  pose proof (crc32c_range _ (dd_plain_bytes (w_docs w) base)). pose proof (crc32c_range _ Hfb).
  assert (is_u32 0) by by vm_compute.
  split_and!; try (destruct hf; ulia); try (destruct hp; ulia); try done.
  - rewrite Forall_forall in Hdw. apply Hdw, w_last_in. lia.
  - by apply MaxOf_u32.
  - by apply WindowMaxNorm_u8.
Qed.

Lemma layout_contiguous ws base dd fq px :
  0 ≤ dd → dd + zlen (dd_blocks base ws) < 2 ^ 64 → 0 ≤ fq → fq + zlen (fq_block hf ws) < 2 ^ 64 →
  contiguous hf dd fq (layout hf hp norms base dd fq px ws).
Proof.
  revert base dd fq px. induction ws as [|w ws IH]; intros base dd fq px Hdd0 Hdd Hfq0 Hfq; [done|].
  unfold fq_block in *. cbn [map concat dd_blocks layout contiguous] in *. rewrite !length_app in *.
  cbn [placed dd_off dd_zstd dd_disk_len dd_uncomp_len freq_off freq_disk_len].
  split_and!; [done|by right|lia| |].
  - intros ->. split; [done|lia].
  - apply IH; lia.
Qed.

Lemma layout_monotone unit ws base dd fq px :
  tiled unit ws → Forall (λ d, base ≤ d) (all_docs ws) → StronglySorted Z.lt (all_docs ws) →
  monotone_from base (layout hf hp norms base dd fq px ws).
Proof.
  revert base dd fq px. induction ws as [|w ws IH]; intros base dd fq px Ht Hb Hs; [done|].
  cbn [map concat layout monotone_from placed skeleton last_docid] in *. destruct Ht as (Hl & _ & _ & _ & Ht).
  apply Forall_app in Hb as [Hbw Hb]. apply StronglySorted_app in Hs as (Hcross & Hsw & Hs).
  assert (w_last w ∈ w_docs w) as Hin by (apply w_last_in; lia). split.
  - rewrite Forall_forall in Hbw. by apply Hbw.
  - apply IH; try done. apply Forall_forall. intros d Hd. specialize (Hcross _ _ Hin Hd). lia.
Qed.

Lemma layout_length ws base dd fq px : length (layout hf hp norms base dd fq px ws) = length ws.
Proof. revert base dd fq px. induction ws as [|w ws IH]; intros; cbn [layout length]; [done|]. by rewrite IH. Qed.

Lemma layout_stored ws base dd fq px :
  stored_windows hf hp base (layout hf hp norms base dd fq px ws) = layout hf hp norms base dd fq px ws.
Proof.
  revert base dd fq px. induction ws as [|w ws IH]; intros; cbn [layout stored_windows]; [done|].
  cbn [placed skeleton last_docid]. rewrite IH. f_equal. unfold stored_window, placed, fq_bytes, skeleton, px_bytes.
  by destruct hf, hp.
Qed.

Lemma layout_sums ws base dd fq px :
  sum_len dd_disk_len (layout hf hp norms base dd fq px ws) = zlen (dd_blocks base ws) ∧
  sum_len freq_disk_len (layout hf hp norms base dd fq px ws) = zlen (fq_block hf ws).
Proof.
  unfold sum_len, fq_block. revert base dd fq px. induction ws as [|w ws IH]; intros; cbn [layout foldr map concat dd_blocks]; [done|].
  destruct (IH (w_last w) (dd + zlen (dd_plain (w_docs w) base)) (fq + zlen (fq_bytes hf w)) (px + zlen (px_bytes hp w))) as [-> ->].
  cbn [placed dd_disk_len freq_disk_len]. rewrite !length_app. lia.
Qed.
End Prelude_.

(** ** Building a windowed posting *)

Definition grouped (hf hp : bool) (norms : list Z) (ws : list Window) : WindowedPosting :=
  mkWindowedPosting (dd_blocks 0 ws) (fq_block hf ws) (zlen (px_block hp ws)) (layout hf hp norms 0 0 0 0 ws).
Definition prelude_cols (hf hp : bool) (norms : list Z) (ws : list Window) : FrqPreludeColumns :=
  mkFrqPreludeColumns hf hp kPreludeGroupSize (layout hf hp norms 0 0 0 0 ws).
Definition prelude_bytes (hf hp : bool) (norms : list Z) (ws : list Window) : bytes :=
  built_bytes (prelude_cols hf hp norms ws).

Definition unit_of (tp : TermPostings) : Z := AdaptiveWindowDocs (u32 (zlen (tp_docids tp))).

Lemma counts_cut unit ws : tiled unit ws → all_freqs ws = counts (all_pos ws) → Forall (λ w, w_freqs w = counts (w_pos w)) ws.
Proof.
  induction ws as [|w ws IH]; intros Ht Hc; [constructor|]. cbn [map concat] in Hc. rewrite map_app in Hc.
  destruct Ht as (_ & _ & Hf & Hp & Ht). apply app_inj_1 in Hc as [Hw Hc]; [|rewrite length_map; lia].
  constructor; [done|by apply IH].
Qed.

Lemma postings_windows hp tp pd :
  wf_postings hp tp pd →
  ∃ ws, tiled (unit_of tp) ws ∧ tp_docids tp = all_docs ws ∧ tp_freqs tp = all_freqs ws ∧ pd = all_pos ws ∧
    wf_windows hp ws.
Proof.
  intros [Hn Hd Hs Hpar Hf Hpd Hpos _].
  destruct (cut_windows (unit_of tp) (tp_docids tp) (tp_freqs tp) pd) as (ws & Ht & Hdw & Hfw & Hpw); [|done..|].
  { unfold unit_of. destruct (adaptive_unit (u32 (zlen (tp_docids tp)))) as [-> | ->]; lia. }
  exists ws. split_and!; try done. split; rewrite <- ?Hdw, <- ?Hfw, <- ?Hpw; try done. intros Hh.
  destruct (Hpos Hh) as ((Hc & _) & Ha & Hu & Hlen). split_and!; try done. rewrite Hfw, Hpw in Hc.
  pose proof (counts_cut _ _ Ht Hc) as Hcw. rewrite Hpw in Ha. unfold ascending_docs in Ha. clear -Hcw Ha.
  induction Hcw as [|w ws Hw Hcw IH]; [constructor|]. cbn [map concat] in Ha. apply Forall_app in Ha as [? Ha].
  constructor; [by split|by apply IH].
Qed.

Lemma prelude_bytes_le hf hp norms ws : zlen (prelude_bytes hf hp norms ws) ≤ 45 + 180 * zlen ws.
Proof.
  unfold prelude_bytes, built_bytes, built_covered. set (cols := prelude_cols _ _ _ _).
  pose proof (built_header_length cols). set (blocks := built_blocks cols) in *.
  destruct (chunks_spec (Z.to_nat (group_size cols)) (windows cols)) as [Hc Hne]; [change (Z.to_nat (group_size cols)) with 64%nat; lia|].
  assert (length (windows cols) = length ws) as Hl by apply layout_length.
  assert (zlen blocks ≤ zlen ws) as Hb.
  { subst blocks. unfold built_blocks. rewrite super_blocks_length. apply concat_count in Hne. rewrite Hc, Hl in Hne. by apply inj_le. }
  assert (zlen (FrqPrelude.region_bytes blocks) ≤ 150 * zlen ws).
  { subst blocks. unfold built_blocks.
    pose proof (region_bytes_le (has_freq cols) (has_prx cols) 0 (chunks (Z.to_nat (group_size cols)) (windows cols))) as Hle.
    rewrite Hc, Hl in Hle. lia. }
  pose proof (dir_bytes_le 0 0 blocks). rewrite !length_app, fixed32_length. lia.
Qed.

Section Build.
Context `{ZstdOps} {W : Type} `{FileWriterLaws W}.

Lemma block_sizes hf hp unit ws :
  tiled unit ws → wf_windows hp ws →
  zlen (dd_blocks 0 ws) < 2 ^ 40 ∧ zlen (fq_block hf ws) < 2 ^ 40 ∧ zlen (px_block hp ws) < 2 ^ 56.
Proof.
  intros Ht Hw. destruct (tiled_windows _ _ Ht) as (_ & _ & Hfl). pose proof Hw as [Hn _ _ Hf Hpos].
  pose proof (proj2 (dd_blocks_le _ 0 ws Ht)). pose proof (proj2 (fq_block_le hf ws Hf)).
  pose proof (proj2 (px_block_le hp _ ws Ht Hw)) as Hp. split_and!; [lia..|].
  destruct hp; [destruct (Hpos eq_refl) as (_ & _ & ?); lia|]. unfold px_block, px_bytes. rewrite concat_nil_map. by vm_compute.
Qed.

Lemma build_windowed_spec hf hp norms tp pd (out : W) :
  wf_postings hp tp pd → writable out →
  ∃ ws out', tiled (unit_of tp) ws ∧ tp_docids tp = all_docs ws ∧ tp_freqs tp = all_freqs ws ∧ pd = all_pos ws ∧
    wf_windows hp ws ∧ BuildWindowedPosting tp hf hp norms out = Ok (out', grouped hf hp norms ws) ∧
    writable out' ∧ contents out' = contents out ++ px_block hp ws.
Proof.
  intros Hwf Ho. destruct (postings_windows hp tp pd Hwf) as (ws & Ht & Hd & Hf & Hp & Hw).
  exists ws. pose proof (block_sizes hf hp _ ws Ht Hw) as (_ & _ & Hpx).
  assert (0 < unit_of tp ∧ is_u32 (unit_of tp)) as [Hu Hu32].
  { unfold unit_of. destruct (adaptive_unit (u32 (zlen (tp_docids tp)))) as [-> | ->]; ulia. }
  assert (rest_at tp (unit_of tp) (0 * unit_of tp) ws) as Hrest by (split; [done|]; by exists [], []).
  assert (window_starts (zlen (tp_docids tp)) (unit_of tp) = map (λ i, i * unit_of tp) (seqZ 0 (zlen ws))) as Hst.
  { unfold window_starts. by rewrite Hd, tiled_count. }
  destruct (prx_windows_spec tp hp norms (unit_of tp) ws 0 0 0 [] out (tp_pos_pump tp) 0 Hrest)
    as (o1 & b1 & po1 & pump1 & Hp1 & Ho1 & Hc1); try done; try lia.
  { intros Hh. destruct (ww_positions _ _ Hw Hh) as (Hall & _ & Hlen).
    destruct (wp_positions _ _ _ Hwf Hh) as ((_ & Hsrc & _) & _). rewrite Hp in Hsrc. split_and!; [done| |lia|lia].
    unfold pos_ready, positions_of in *. destruct (tp_pos_pump tp); [done|]. exists []. by split. }
  destruct (region_windows_spec tp hf hp norms (unit_of tp) ws 0 0 [] [] (0 + zlen (px_block hp ws)) 0
    (mkWindowScratch [] [] []) [] Hrest) as (st & Hst2 & Hpost); [lia| |by apply sorted_lt_le, Hw|].
  { eapply Forall_impl; [exact (ww_docs _ _ Hw)|]. intros x. unfold is_u32. lia. }
  exists o1. unfold BuildWindowedPosting. fold (unit_of tp). rewrite Hst, Hp1, bind_Ok. cbn [p1_posting p1_out app length] in *.
  rewrite Hst2, bind_Ok, Hpost. cbn [app]. rewrite Z.add_0_l. by split_and!.
Qed.

Lemma prelude_cols_wf hf hp norms tp ws :
  is_bytes norms → tiled (unit_of tp) ws → wf_windows hp ws → wf_cols (prelude_cols hf hp norms ws).
Proof.
  intros Hn Ht Hw. destruct (block_sizes hf hp _ ws Ht Hw) as (? & ? & ?). unfold wf_cols.
  cbn [group_size windows has_freq prelude_cols]. split; [by vm_compute|]. split.
  - rewrite layout_length. unfold kMaxWindows. change (1 ≪ 24) with 16777216.
    rewrite <- (tiled_count (unit_of tp) ws) by (done || (unfold unit_of; destruct (adaptive_unit (u32 (zlen (tp_docids tp)))) as [-> | ->]; lia)).
    pose proof (ww_count _ _ Hw). unfold unit_of. destruct (adaptive_unit (u32 (zlen (tp_docids tp)))) as [-> | ->]; dlia.
  - split_and!.
    + eapply layout_wf; try apply Hw; try done; lia.
    + eapply layout_monotone; [done| |apply Hw]. eapply Forall_impl; [exact (ww_docs _ _ Hw)|]. unfold is_u32. lia.
    + apply layout_contiguous; lia.
Qed.
End Build.
