(* ===== verification/LogicalIndexWriter.v ===== *)
(** * LogicalIndexWriter: building one logical index.

    [writer/logical_index_writer.h] and [writer/logical_index_writer.cpp] past
    its file-local helpers (PostingWriter). The const members of the class are
    the record [LogicalIndexWriter]; the members the build changes, and the
    container writer it borrows, are [BuildState]; [BuiltIndex] is the object
    after [build].

    A streaming source is what it delivers: for each term, the deltas it reports
    to the shared reporter before the callback, then the deltas it reports after
    the last one, and the status it ends with. *)

From S2P Require Import Prelude Status ByteIO Crc32c FormatConstants StatsBlock NormsPod TermKey.
From S2P Require Import SampledTermIndex DictBlockDirectory Zstd FrqPod FrqPrelude DictEntry DictBlock.
From S2P Require Import PerIndexMeta FileIO SpillableByteBuffer Bsbf TermPostings PostingWriter.

#[local] Open Scope Z_scope.

(** [kBsbfFpp], the literal 0.01. *)
Class BsbfFpp `{BsbfEnv} := kBsbfFpp : double.

Definition kDictBlockZstdLevel : Z := 3.
(** The default of the block builder's last argument. *)
Definition kDefaultAnchorInterval : Z := 16.

Record TermSource := mkTermSource {
  ts_terms : list (list Z * TermPostings);
  ts_final : list Z;
  ts_status : result unit
}.

Record SniiIndexInput := mkSniiIndexInput {
  in_index_id : Z;
  in_index_suffix : bytes;
  in_config : IndexConfig;
  in_doc_count : Z;
  in_encoded_norms : list Z;
  in_terms : list TermPostings;
  in_term_source : option TermSource;
  in_target_dict_block_bytes : Z;
  in_mem_reporter : Reporter
}.

Record LogicalIndexWriter := mkLogicalIndexWriter {
  index_id_ : Z;
  index_suffix_ : bytes;
  w_tier_ : IndexTier;
  w_has_prx_ : bool;
  has_freq_ : bool;
  has_norms_ : bool;
  w_doc_count_ : Z;
  terms_ : list TermPostings;
  term_source_ : option TermSource;
  encoded_norms_ : list Z;
  target_dict_block_bytes_ : Z;
  mem_reporter_ : Reporter
}.

(** The constructor. *)
Definition new_index_writer (i : SniiIndexInput) : LogicalIndexWriter :=
  mkLogicalIndexWriter (in_index_id i) (in_index_suffix i) (tier_of (in_config i)) (FormatConstants.has_positions (in_config i))
    (tier_u8 kT2 <=? tier_u8 (tier_of (in_config i))) (has_scoring (in_config i)) (in_doc_count i) (in_terms i)
    (in_term_source i) (in_encoded_norms i)
    (if negb (in_target_dict_block_bytes i =? 0) then in_target_dict_block_bytes i else kDefaultTargetDictBlockBytes)
    (in_mem_reporter i).

Record BlockRecord := mkBlockRecord {
  rel_offset : Z;
  rec_length : Z;
  rec_n_entries : Z;
  rec_checksum : Z;
  rec_flags : Z;
  rec_uncomp_len : Z;
  rec_first_term : bytes
}.

Section Writer.
Context `{ZstdOps} `{BsbfEnv} `{!BsbfFpp} {W : Type} `{FileWriter W} {T : Type} `{TempFile T}.

(** The const members. *)
Context (wr : LogicalIndexWriter).

(** The members that change; [posting_off0_] is fixed while terms are added. *)
Record BuildState := mkBuildState {
  posting_out_ : W;
  dict_buf_ : SpillableByteBuffer T;
  reporter_ : Reporter;
  blocks_ : list BlockRecord;
  term_hashes_ : list Z;
  term_count_ : Z;
  sum_total_term_freq_ : Z
}.

(** The in-flight DICT block. *)
Record BlockState := mkBlockState {
  bs_block : option DictBlockBuilder;
  bs_first_term : bytes;
  bs_frq_base : Z;
  bs_prx_base : Z
}.

Fixpoint check_strictly_ascending (prev : Z) (docs : list Z) : result unit :=
  match docs with
  | [] => Ok tt
  | d :: docs =>
      if d <=? prev then Err (InvalidArgument "logical_index: docids must be strictly ascending")
      else check_strictly_ascending d docs
  end.

Definition validate_term (tp : TermPostings) : result unit :=
  _ ← reject_if (negb (zlen (tp_freqs tp) =? zlen (tp_docids tp)))
        (InvalidArgument "logical_index: freqs length must equal docids");
  _ ← (if w_has_prx_ wr then
         let total_pos := SumOf (tp_freqs tp) in
         let have_ := match tp_pos_pump tp with Some _ => tp_pos_total tp | None => zlen (tp_positions_flat tp) end in
         reject_if (negb (total_pos =? have_)) (InvalidArgument "logical_index: positions count must equal sum(freqs)")
       else Ok tt);
  match tp_docids tp with
  | [] => Ok tt
  | d :: docs => check_strictly_ascending d docs
  end.

Definition posting_size (off0 : Z) (out : W) : Z := u64 (bytes_written out - off0).

(** The term's counters, which every encoding stores. *)
Definition entry_of (tp : TermPostings) : DictEntry :=
  mkDictEntry (tp_term tp) kPodRef kSlim false (u32 (zlen (tp_docids tp))) (SumOf (tp_freqs tp)) (MaxOf (tp_freqs tp))
    0 0 0 0 0 0 default_region_meta default_region_meta 0 [] [].

Definition build_windowed_entry (off0 : Z) (tp : TermPostings) (frq_base prx_base : Z) (e : DictEntry) (out : W)
    : result (W * DictEntry) :=
  let prx_off := posting_size off0 out in
  '(out, wp) ← BuildWindowedPosting tp (has_freq_ wr) (w_has_prx_ wr) (encoded_norms_ wr) out;
  prelude ← BuildPrelude (wp_windows wp) (has_freq_ wr) (w_has_prx_ wr);
  let frq_off := posting_size off0 out in
  out ← append prelude out;
  out ← append (dd_block wp) out;
  out ← append (freq_block wp) out;
  let frq_len := u64 (posting_size off0 out - frq_off) in
  Ok (out,
      mkDictEntry (term e) kPodRef kWindowed true (df e) (ttf_delta e) (max_freq e)
        (u64 (frq_off - frq_base)) frq_len (zlen prelude) (u64 (zlen prelude + zlen (dd_block wp)))
        (if w_has_prx_ wr then u64 (prx_off - prx_base) else prx_off_delta e)
        (if w_has_prx_ wr then prx_total_len wp else prx_len e)
        (dd_meta e) (freq_meta e) (inline_dd_disk_len e) (frq_bytes e) (prx_bytes e)).

Definition build_slim_entry (off0 : Z) (tp : TermPostings) (frq_base prx_base : Z) (e : DictEntry) (out : W)
    : result (W * DictEntry) :=
  '(dd_bytes, dd_meta, freq_bytes, freq_meta) ←
    EncodeRegions (tp_docids tp) (tp_freqs tp) 0 (has_freq_ wr) default_region_meta default_region_meta;
  let frq_win := dd_bytes ++ freq_bytes in
  prx_win ← (if w_has_prx_ wr then MakePrxWindow (tp_positions_flat tp) (tp_freqs tp) else Ok []);
  if zlen frq_win <=? kDefaultInlineThreshold then
    Ok (out,
        mkDictEntry (term e) kInline kSlim (has_sb e) (df e) (ttf_delta e) (max_freq e)
          (frq_off_delta e) (frq_len e) (prelude_len e) (frq_docs_len e) (prx_off_delta e) (prx_len e)
          dd_meta freq_meta (disk_len dd_meta) frq_win (if w_has_prx_ wr then prx_win else prx_bytes e))
  else
    '(out, prx_off_delta, prx_len) ←
      (if w_has_prx_ wr then
         let prx_off := posting_size off0 out in
         out ← append prx_win out;
         Ok (out, u64 (prx_off - prx_base), u64 (posting_size off0 out - prx_off))
       else Ok (out, prx_off_delta e, prx_len e));
    let frq_off := posting_size off0 out in
    out ← append frq_win out;
    Ok (out,
        mkDictEntry (term e) kPodRef kSlim (has_sb e) (df e) (ttf_delta e) (max_freq e)
          (u64 (frq_off - frq_base)) (u64 (posting_size off0 out - frq_off)) (prelude_len e) (disk_len dd_meta)
          prx_off_delta prx_len dd_meta freq_meta (inline_dd_disk_len e) (frq_bytes e) (prx_bytes e)).

Definition build_entry (off0 : Z) (tp : TermPostings) (frq_base prx_base : Z) (out : W) : result (W * DictEntry) :=
  let e := entry_of tp in
  if kSlimDfThreshold <=? df e then build_windowed_entry off0 tp frq_base prx_base e out
  else build_slim_entry off0 tp frq_base prx_base e out.

(** *** Blocks *)

Definition flush_block (block : DictBlockBuilder) (first_term : bytes) (st : BuildState) : result BuildState :=
  let plain := DictBlock.finish block [] in
  let record length flags uncomp_len :=
    mkBlockRecord (size (dict_buf_ st)) length (b_n_entries_ block) (crc32c plain) flags uncomp_len first_term in
  let '(rec, data) :=
    match zstd_compress plain kDictBlockZstdLevel with
    | Ok comp =>
        if zlen comp <? zlen plain then (record (zlen comp) DictBlockDirectory.kZstd (zlen plain), comp)
        else (record (zlen plain) 0 0, plain)
    | _ => (record (zlen plain) 0 0, plain)
    end in
  '(dict_buf, reporter) ← append_move data (dict_buf_ st) (reporter_ st);
  Ok (mkBuildState (posting_out_ st) dict_buf reporter (blocks_ st ++ [rec]) (term_hashes_ st) (term_count_ st)
        (sum_total_term_freq_ st)).

Definition no_block : BlockState := mkBlockState None [] 0 0.

(** [if (!st->block) { ... }] *)
Definition open_if_none (off0 : Z) (out : W) (term : bytes) (bs : BlockState) : DictBlockBuilder * BlockState :=
  match bs_block bs with
  | Some block => (block, bs)
  | None =>
      let base := posting_size off0 out in
      let block := DictBlock.new_builder (w_tier_ wr) (w_has_prx_ wr) base base kDefaultAnchorInterval in
      (block, mkBlockState (Some block) term base base)
  end.

Definition process_term (off0 : Z) (tp : TermPostings) (st : BuildState * BlockState) : result (BuildState * BlockState) :=
  let '(b, bs) := st in
  _ ← validate_term tp;
  let term_hashes := term_hashes_ b ++ [bsbf_hash (tp_term tp)] in
  let term_count := u64 (term_count_ b + 1) in
  let sum := u64 (sum_total_term_freq_ b + SumOf (tp_freqs tp)) in
  let '(block, bs) := open_if_none off0 (posting_out_ b) (tp_term tp) bs in
  '(out, e) ← build_entry off0 tp (bs_frq_base bs) (bs_prx_base bs) (posting_out_ b);
  let block := add_entry e block in
  let b := mkBuildState out (dict_buf_ b) (reporter_ b) (blocks_ b) term_hashes term_count sum in
  if target_dict_block_bytes_ wr <=? estimated_bytes block then
    b ← flush_block block (bs_first_term bs) b;
    Ok (b, mkBlockState None (bs_first_term bs) (bs_frq_base bs) (bs_prx_base bs))
  else Ok (b, mkBlockState (Some block) (bs_first_term bs) (bs_frq_base bs) (bs_prx_base bs)).

(** The deltas the source reports to the shared reporter. *)
Definition hear (deltas : list Z) (b : BuildState) : BuildState :=
  mkBuildState (posting_out_ b) (dict_buf_ b) (fold_left (flip report_to) deltas (reporter_ b)) (blocks_ b)
    (term_hashes_ b) (term_count_ b) (sum_total_term_freq_ b).

(** The callback of the streaming source: [if (streamed.ok()) streamed = process_term(tp, &st)]. *)
Definition stream_term (off0 : Z) (ev : list Z * TermPostings) (streamed : result (BuildState * BlockState))
    : result (BuildState * BlockState) :=
  match streamed with
  | Ok (b, bs) => process_term off0 ev.2 (hear ev.1 b, bs)
  | _ => streamed
  end.

Definition build_blocks (off0 : Z) (b : BuildState) : result BuildState :=
  '(b, bs) ←
    match term_source_ wr with
    | Some source =>
        match fold_left (flip (stream_term off0)) (ts_terms source) (Ok (b, no_block)), ts_status source with
        | Undef, _ | _, Undef => Undef
        | _, Err s => Err s
        | streamed, Ok _ => '(b, bs) ← streamed; Ok (hear (ts_final source) b, bs)
        end
    | None => fold_result (process_term off0) (terms_ wr) (b, no_block)
    end;
  match bs_block bs with
  | Some block => flush_block block (bs_first_term bs) b
  | None => Ok b
  end.

(** The object after [build]; the bytes of the norms and of the filter are empty
    where the section is absent. *)
Record BuiltIndex := mkBuiltIndex {
  bi_dict_buf : SpillableByteBuffer T;
  bi_blocks : list BlockRecord;
  bi_stats : StatsBlock;
  norms_section_ : bytes;
  bsbf_bytes_ : bytes
}.

Definition build_norms : bytes :=
  NormsPodWriter.finish (fold_left (flip NormsPodWriter.add) (encoded_norms_ wr) NormsPodWriter.new) [].

Definition build_filter (hashes : list Z) : result bytes :=
  bf ← create (u32 (zlen hashes)) kBsbfFpp;
  bf ← fold_result insert hashes bf;
  serialize bf [].

(** The container writer, the reporter and the object. *)
Definition build_index (posting_out : W) : result (W * Reporter * BuiltIndex) :=
  _ ← reject_if (has_norms_ wr && negb (zlen (encoded_norms_ wr) =? w_doc_count_ wr))
        (InvalidArgument "logical_index: norms length must equal doc_count");
  let off0 := bytes_written posting_out in
  b ← build_blocks off0
        (mkBuildState posting_out (new_buffer (2 ^ 64 - 1) "dict") (mem_reporter_ wr) [] [] 0 0);
  dict_buf ← seal (dict_buf_ b);
  let stats := mkStatsBlock (w_doc_count_ wr) (w_doc_count_ wr) (term_count_ b) (sum_total_term_freq_ b) 0 in
  let norms := if has_norms_ wr then build_norms else [] in
  filter ← match term_hashes_ b with [] => Ok [] | hashes => build_filter hashes end;
  Ok (posting_out_ b, reporter_ b, mkBuiltIndex dict_buf (blocks_ b) stats norms filter).

Definition has_bsbf (bi : BuiltIndex) : bool := match bsbf_bytes_ bi with [] => false | _ => true end.

Definition block_ref (dict_region_offset : Z) (r : BlockRecord) : BlockRef :=
  mkBlockRef (u64 (dict_region_offset + rel_offset r)) (rec_length r) (rec_n_entries r) (rec_flags r)
    (rec_checksum r) (rec_uncomp_len r).

Definition finish_meta (bi : BuiltIndex) (abs_refs : SectionRefs) (dict_region_offset : Z) (out : ByteSink) : ByteSink :=
  let sti_sink := SampledTermIndex.finish (map rec_first_term (bi_blocks bi)) [] in
  let dir_sink :=
    DictBlockDirectory.finish
      (fold_left (flip DictBlockDirectory.add) (map (block_ref dict_region_offset) (bi_blocks bi)) []) [] in
  let flags := if has_bsbf bi then kHasBsbf else 0 in
  let flags := if w_has_prx_ wr then Z.lor flags PerIndexMeta.kHasPositions else flags in
  PerIndexMeta.finish
    (PerIndexMeta.new_builder (index_id_ wr) (index_suffix_ wr) flags |> set_stats (bi_stats bi)
       |> set_sampled_term_index sti_sink |> set_dict_block_directory dir_sink |> set_section_refs abs_refs) out.
End Writer.

(** ** The entry of a term *)

Section Entry.
Context (hf hp : bool) (norms : list Z) (tp : TermPostings) (pd : list (list Z)).

Definition df_of : Z := u32 (zlen (tp_docids tp)).

(** The posting as one window. *)
Definition whole_window : Window := mkWindow (tp_docids tp) (tp_freqs tp) pd.
Definition slim_dd : bytes := dd_plain (tp_docids tp) 0.
Definition slim_frq : bytes := slim_dd ++ fq_bytes hf whole_window.
Definition slim_freq_meta : FrqRegionMeta := if hf then raw_meta (fq_bytes hf whole_window) true else default_region_meta.

(** [at_] is where the term's bytes start in the posting region. *)
Definition windowed_entry (base at_ : Z) (ws : list Window) : DictEntry :=
  let prelude := zlen (prelude_bytes hf hp norms ws) in
  let px := zlen (px_block hp ws) in
  mkDictEntry (tp_term tp) kPodRef kWindowed true df_of (SumOf (tp_freqs tp)) (MaxOf (tp_freqs tp))
    (at_ + px - base) (prelude + zlen (dd_blocks 0 ws) + zlen (PostingWriter.fq_block hf ws)) prelude
    (prelude + zlen (dd_blocks 0 ws)) (if hp then at_ - base else 0) px
    default_region_meta default_region_meta 0 [] [].
Definition slim_entry (base at_ : Z) : DictEntry :=
  let px := zlen (px_bytes hp whole_window) in
  mkDictEntry (tp_term tp) kPodRef kSlim false df_of (SumOf (tp_freqs tp)) (MaxOf (tp_freqs tp))
    (at_ + px - base) (zlen slim_frq) 0 (zlen slim_dd) (if hp then at_ - base else 0) px
    (raw_meta slim_dd true) slim_freq_meta 0 [] [].
Definition inline_entry : DictEntry :=
  mkDictEntry (tp_term tp) kInline kSlim false df_of (SumOf (tp_freqs tp)) (MaxOf (tp_freqs tp))
    0 0 0 0 0 0 (raw_meta slim_dd true) slim_freq_meta (zlen slim_dd) slim_frq (px_bytes hp whole_window).

(** [e] describes the posting of [tp], whose bytes are in [region]. *)
Inductive written (region : bytes) (base : Z) (e : DictEntry) : Prop :=
  | written_windowed ws pre post :
      kSlimDfThreshold ≤ zlen (tp_docids tp) →
      tiled (unit_of tp) ws → tp_docids tp = all_docs ws → tp_freqs tp = all_freqs ws → pd = all_pos ws → wf_windows hp ws →
      region = pre ++ px_block hp ws ++ (prelude_bytes hf hp norms ws ++ dd_blocks 0 ws ++ PostingWriter.fq_block hf ws) ++ post →
      base ≤ zlen pre → e = windowed_entry base (zlen pre) ws →
      written region base e
  | written_slim pre post :
      zlen (tp_docids tp) < kSlimDfThreshold →
      region = pre ++ px_bytes hp whole_window ++ slim_frq ++ post →
      base ≤ zlen pre → e = slim_entry base (zlen pre) →
      written region base e
  | written_inline :
      zlen (tp_docids tp) < kSlimDfThreshold → zlen slim_frq ≤ kDefaultInlineThreshold → e = inline_entry →
      written region base e.

Lemma written_app region base e more : written region base e → written (region ++ more) base e.
Proof.
  intros [ws pre post ? ? ? ? ? ? -> ? ?|pre post ? -> ? ?|? ? ?].
  - apply (written_windowed _ _ _ ws pre (post ++ more)); try done. by rewrite <- !app_assoc.
  - apply (written_slim _ _ _ pre (post ++ more)); try done. by rewrite <- !app_assoc.
  - by apply written_inline.
Qed.

Lemma written_term region base e : written region base e → term e = tp_term tp.
Proof. by intros [? ? ? ? ? ? ? ? ? ? ? ->|? ? ? ? ? ->|? ? ->]. Qed.
End Entry.

(** How much there is to write of a term. *)
Definition volume (tp : TermPostings) (pd : list (list Z)) : Z := zlen (tp_docids tp) + zlen (concat pd) + 1.

Section BuildEntry.
Context `{ZstdOps} `{BsbfEnv} {W : Type} `{FileWriterLaws W} (wr : LogicalIndexWriter).
Abbreviation hf := (has_freq_ wr).
Abbreviation hp := (w_has_prx_ wr).
Abbreviation norms := (encoded_norms_ wr).

Lemma posting_size_eq off0 c0 region (out : W) :
  off0 = zlen c0 → writable out → contents out = c0 ++ region → is_u64 (zlen (c0 ++ region)) → posting_size off0 out = zlen region.
Proof.
  intros -> Ho Hc Hu. unfold posting_size. rewrite bytes_written_contents, Hc, (u64_small (zlen (c0 ++ region))) by done.
  rewrite length_app in *. rewrite u64_small by ulia. lia.
Qed.

Lemma check_strictly_ascending_ok prev docs : StronglySorted Z.lt (prev :: docs) → check_strictly_ascending prev docs = Ok tt.
Proof.
  revert prev. induction docs as [|d docs IH]; intros prev Hs; cbn [check_strictly_ascending]; [done|].
  apply StronglySorted_inv in Hs as [Hs Hd]. apply Forall_cons in Hd as [Hd _].
  rewrite (proj2 (Z.leb_gt _ _)) by lia. by apply IH.
Qed.

Lemma validate_term_ok tp pd : wf_postings hp tp pd → validate_term wr tp = Ok tt.
Proof.
  intros [Hn Hd Hs Hpar Hf Hpd Hpos _]. unfold validate_term. rewrite bind_reject_false by (apply negb_false_iff, Z.eqb_eq; lia).
  assert (∀ c : result unit, (hp = true → c = Ok tt) → (if hp then c else Ok tt) = Ok tt) as Hif.
  { intros c Hc. by destruct hp; [apply Hc|]. }
  rewrite Hif.
  2:  { intros Hh. destruct (Hpos Hh) as ((Hc & Hsrc & Hpump) & _ & _ & Hlen). cbv zeta.
    unfold SumOf. rewrite Hc, SumOf_counts by lia. unfold positions_of in Hsrc.
    destruct (tp_pos_pump tp) as [q|]; unfold from_option, id in Hsrc.
    - by rewrite Hpump, Hsrc, Z.add_0_l, Z.eqb_refl.
    - by rewrite Hsrc, Z.add_0_l, Z.eqb_refl. }
  rewrite bind_Ok. destruct (tp_docids tp) as [|d docs]; [done|]. by apply check_strictly_ascending_ok.
Qed.

(** Where the posting region stands while the term's bytes are appended. *)
Section Region.
Context (c0 : bytes) (tp : TermPostings) (pd : list (list Z)) (Hwf : wf_postings hp tp pd) (Hnorms : is_bytes norms).

Lemma postings_df : df_of tp = zlen (tp_docids tp).
Proof. unfold df_of. pose proof (wp_count _ _ _ Hwf). by rewrite u32_small by ulia. Qed.

Lemma build_windowed_written base region (out : W) :
  kSlimDfThreshold ≤ zlen (tp_docids tp) → writable out → contents out = c0 ++ region →
  0 ≤ base ≤ zlen region → zlen (c0 ++ region) + 400 * volume tp pd < 2 ^ 64 →
  ∃ out' e more, build_windowed_entry wr (zlen c0) tp base base (entry_of tp) out = Ok (out', e) ∧ writable out' ∧
    contents out' = c0 ++ region ++ more ∧ zlen more ≤ 400 * volume tp pd ∧ written hf hp norms tp pd (region ++ more) base e.
Proof.
  intros Hdf Ho Hc Hb Hn. unfold volume in *. rewrite length_app in Hn.
  destruct (build_windowed_spec hf hp norms tp pd out Hwf Ho) as (ws & o1 & Ht & Hd & Hf & Hp & Hw & Hbw & Ho1 & Hc1).
  pose proof (proj2 (px_block_le hp _ ws Ht Hw)) as Hpx. pose proof (proj2 (dd_blocks_le _ 0 ws Ht)) as Hdd.
  pose proof (proj2 (fq_block_le hf ws (ww_freqs _ _ Hw))) as Hfq. pose proof (prelude_bytes_le hf hp norms ws) as Hpr.
  destruct (tiled_windows _ _ Ht) as (Hwc & Hlp & Hlf). rewrite <- Hd, <- ?Hp in *.
  set (px := px_block hp ws) in *. set (pr := prelude_bytes hf hp norms ws) in *. set (dd := dd_blocks 0 ws) in *.
  set (fq := PostingWriter.fq_block hf ws) in *.
  unfold build_windowed_entry. rewrite Hbw, bind_Ok. cbn [wp_windows grouped dd_block freq_block prx_total_len]. 
  assert (BuildPrelude (layout hf hp norms 0 0 0 0 ws) hf hp = Ok pr) as ->.
  { unfold BuildPrelude. fold (prelude_cols hf hp norms ws). by rewrite build_ok by by eapply prelude_cols_wf. }
  rewrite bind_Ok. fold dd fq px.
  destruct (append_writable pr o1 Ho1) as (o2 & -> & Ho2 & Hc2). rewrite bind_Ok.
  destruct (append_writable dd o2 Ho2) as (o3 & -> & Ho3 & Hc3). rewrite bind_Ok.
  destruct (append_writable fq o3 Ho3) as (o4 & -> & Ho4 & Hc4). rewrite bind_Ok.
  rewrite Hc in Hc1. rewrite Hc1 in Hc2. rewrite Hc2 in Hc3. rewrite Hc3 in Hc4. rewrite <- !app_assoc in *.
  rewrite (posting_size_eq _ c0 region out), (posting_size_eq _ c0 (region ++ px) o1),
    (posting_size_eq _ c0 (region ++ px ++ pr ++ dd ++ fq) o4); try done; rewrite ?length_app; try ulia.
  assert (hp = false → px = []) as Hnil.
  { intros Hh. subst px. unfold px_block, px_bytes. rewrite Hh. apply concat_nil_map. }
  exists o4, (windowed_entry hf hp norms tp base (zlen region) ws), (px ++ pr ++ dd ++ fq). split_and!; try done.
  - unfold windowed_entry, entry_of. fold px pr dd fq. 
    cbn [term df ttf_delta max_freq prx_off_delta prx_len DictEntry.dd_meta DictEntry.freq_meta inline_dd_disk_len DictEntry.frq_bytes DictEntry.prx_bytes].
    rewrite !u64_small by ulia. repeat f_equal; try lia.
    destruct hp; [done|]. by rewrite Hnil.
  - rewrite !length_app. lia.
  - apply (written_windowed _ _ _ _ _ _ _ _ ws region []); try done; [|lia]. by rewrite !app_nil_r, <- ?app_assoc.
Qed.

Lemma build_slim_written base region (out : W) :
  zlen (tp_docids tp) < kSlimDfThreshold → writable out → contents out = c0 ++ region →
  0 ≤ base ≤ zlen region → zlen (c0 ++ region) + 400 * volume tp pd < 2 ^ 64 →
  ∃ out' e more, build_slim_entry wr (zlen c0) tp base base (entry_of tp) out = Ok (out', e) ∧ writable out' ∧
    contents out' = c0 ++ region ++ more ∧ zlen more ≤ 400 * volume tp pd ∧ written hf hp norms tp pd (region ++ more) base e.
Proof.
  intros Hdf Ho Hc Hb Hn. unfold volume in *. rewrite length_app in Hn. pose proof Hwf as [_ Hu Hs Hpar Hfu Hlp Hpos Hpump].
  assert (ascending_from 0 (tp_docids tp)) as Ha.
  { split; [by apply sorted_lt_le|]. eapply Forall_impl; [exact Hu|]. unfold is_u32. lia. }
  assert (EncodeRegions (tp_docids tp) (tp_freqs tp) 0 hf default_region_meta default_region_meta = Ok (slim_dd tp, raw_meta (slim_dd tp) true,
    fq_bytes hf (whole_window tp pd), slim_freq_meta hf tp pd)) as Henc.
  { unfold EncodeRegions, slim_freq_meta, fq_bytes. rewrite build_dd_raw, bind_Ok by done. by destruct hf. }
  assert ((if hp then MakePrxWindow (tp_positions_flat tp) (tp_freqs tp) else Ok []) = Ok (px_bytes hp (whole_window tp pd)))
    as Hpx.
  { unfold px_bytes. destruct hp eqn:Hh; [|done]. destruct (Hpos eq_refl) as ((Hcn & Hsrc & _) & Hasc & _ & Hlen).
    unfold positions_of in Hsrc. destruct (tp_pos_pump tp); [by specialize (Hpump ltac:(done)); lia|].
    unfold from_option, id in Hsrc. unfold MakePrxWindow. rewrite Hcn, Hsrc. apply PrxPod.build_auto_window; cbn [w_pos whole_window]; [done|lia|done]. }
  pose proof (dd_plain_le (tp_docids tp) 0) as Hddl. fold (slim_dd tp) in Hddl.
  pose proof (proj2 (fq_bytes_bound hf (whole_window tp pd) Hfu)) as Hfql. cbn [w_freqs whole_window] in Hfql.
  assert (zlen (px_bytes hp (whole_window tp pd)) ≤ 64 + 36 * (zlen pd + zlen (concat pd))) as Hpxl.
  { unfold px_bytes. destruct hp; [|cbn; lia]. destruct (Hpos eq_refl) as ((Hcn & _) & _ & Hup & _).
    apply PrxPod.auto_window_bound; [done|]. rewrite Hcn in Hfu. by apply (Forall_fmap (λ doc : list Z, zlen doc)) in Hfu. }
  unfold build_slim_entry. rewrite Henc, bind_Ok, Hpx, bind_Ok. fold (slim_frq hf tp pd).
  set (px := px_bytes hp (whole_window tp pd)) in *.
  assert (hp = false → px = []) as Hnil by (intros Hh; subst px; unfold px_bytes; by rewrite Hh).
  destruct (Z.leb_spec (zlen (slim_frq hf tp pd)) kDefaultInlineThreshold) as [Hi|Hi].
  - exists out, (inline_entry hf hp tp pd), []. rewrite !app_nil_r. split_and!; try done; [|cbn; lia|by apply written_inline].
    unfold inline_entry, entry_of. fold px. destruct hp; [done|]. by rewrite Hnil.
  - assert (zlen (slim_frq hf tp pd) ≤ 10 + 72 * zlen (tp_docids tp)) as Hsl by (unfold slim_frq; rewrite length_app; lia).
    assert (∃ o1, (if hp then
         append px out ≫= λ o, Ok (o, u64 (posting_size (zlen c0) out - base),
           u64 (posting_size (zlen c0) o - posting_size (zlen c0) out))
       else Ok (out, prx_off_delta (entry_of tp), prx_len (entry_of tp))) =
       Ok (o1, if hp then zlen region - base else 0, zlen px) ∧ writable o1 ∧ contents o1 = c0 ++ region ++ px)
      as (o1 & -> & Ho1 & Hc1).
    { destruct hp.
      - destruct (append_writable px out Ho) as (o1 & -> & Ho1 & Hc1). rewrite bind_Ok. rewrite Hc, <- app_assoc in Hc1.
        exists o1. split_and!; try done.
        rewrite (posting_size_eq _ c0 region out), (posting_size_eq _ c0 (region ++ px) o1); try done;
          rewrite ?length_app; try ulia. rewrite !u64_small by ulia. repeat f_equal. lia.
      - exists out. rewrite Hnil by done. by rewrite app_nil_r. }
    rewrite bind_Ok. destruct (append_writable (slim_frq hf tp pd) o1 Ho1) as (o2 & -> & Ho2 & Hc2).
    rewrite bind_Ok. rewrite Hc1, <- !app_assoc in Hc2. set (fr := slim_frq hf tp pd) in *.
    exists o2, (slim_entry hf hp tp pd base (zlen region)), (px ++ fr). split_and!; try done.
    + rewrite (posting_size_eq _ c0 (region ++ px) o1), (posting_size_eq _ c0 (region ++ px ++ fr) o2); try done;
        rewrite ?length_app; try ulia.
      unfold slim_entry, entry_of. fold fr px.
      rewrite !u64_small by ulia. repeat f_equal; lia.
    + rewrite length_app. lia.
    + apply (written_slim _ _ _ _ _ _ _ _ region []); try done; [|lia]. by rewrite !app_nil_r.
Qed.

Lemma build_entry_written base region (out : W) :
  writable out → contents out = c0 ++ region →
  0 ≤ base ≤ zlen region → zlen (c0 ++ region) + 400 * volume tp pd < 2 ^ 64 →
  ∃ out' e more, build_entry wr (zlen c0) tp base base out = Ok (out', e) ∧ writable out' ∧
    contents out' = c0 ++ region ++ more ∧ zlen more ≤ 400 * volume tp pd ∧ written hf hp norms tp pd (region ++ more) base e.
Proof.
  intros. unfold build_entry. cbn [df entry_of]. fold (df_of tp). rewrite postings_df.
  destruct (Z.leb_spec kSlimDfThreshold (zlen (tp_docids tp))); [by apply build_windowed_written|by apply build_slim_written].
Qed.
End Region.
End BuildEntry.
