(* ===== verification/IndexBuild.v ===== *)
(** * IndexBuild: what building an index leaves.

    The writer of LogicalIndexWriter on well-formed terms: every call succeeds,
    the DICT blocks hold one entry per term, each describing bytes that are in
    the posting region, and the records of the blocks, the filter and the stats
    agree with them ([built]). *)

From S2P Require Import Prelude Status Varint ByteIO Crc32c FormatConstants StatsBlock NormsPod TermKey.
From S2P Require Import SampledTermIndex DictBlockDirectory Zstd PforRuns FrqPod FrqPrelude DictEntry.
From S2P Require Import DictBlock PerIndexMeta FileIO SpillableByteBuffer Bsbf LogicalIndexReader.
From S2P Require Import TermPostings PostingWriter LogicalIndexWriter.

#[local] Open Scope Z_scope.

(** ** The size of a block *)

Lemma varint_len_range v : 1 ≤ varint_len v ≤ 11.
Proof.
  unfold varint_len. assert (∀ f v n, n ≤ varint_len_loop f v n ≤ n + Z.of_nat f) as Hgo; [|exact (Hgo 10%nat v 1)].
  clear v. induction f as [|f IH]; intros v n; cbn [varint_len_loop]; [lia|]. destruct (_ <=? _); [|lia].
  specialize (IH (v ≫ 7) (n + 1)). lia.
Qed.

Lemma term_key_length_le term prev : zlen (term_key_bytes term prev) ≤ 20 + zlen term.
Proof. pose proof (term_key_bytes_le term prev). lia. Qed.

Lemma entry_bytes_le e prev tier : zlen (entry_bytes e prev tier) ≤ 3 * estimate_entry_bytes e.
Proof.
  pose proof encode_varint64_length_le as Hv. pose proof (term_key_length_le (term e) prev).
  pose proof varint_len_range as Hp. unfold entry_bytes, blob_bytes, estimate_entry_bytes.
  set (k := if decide _ then _ else _). rewrite length_app.
  assert (zlen (region_meta_bytes e tier true) ≤ 29 ∧ zlen (region_meta_bytes e tier false) ≤ 29) as [Hrt Hrf].
  { pose proof (Hv (uncomp_len (DictEntry.dd_meta e))). pose proof (Hv (uncomp_len (DictEntry.freq_meta e))).
    unfold region_meta_bytes, crc_bytes. destruct (tier_has_stats tier); rewrite ?length_app, ?fixed32_length; cbn [length]; lia. }
  assert (zlen (stats_bytes e tier) ≤ 30) as Hst.
  { pose proof (Hv (df e)). pose proof (Hv (ttf_delta e)). pose proof (Hv (DictEntry.max_freq e)).
    unfold stats_bytes. destruct (tier_has_stats tier); rewrite ?length_app; cbn [length]; lia. }
  assert (zlen (body_bytes e prev tier) ≤ 140 + zlen (term e) +
    if decide (kind e = kInline) then zlen (DictEntry.frq_bytes e) + zlen (DictEntry.prx_bytes e) else 0) as Hb.
  { pose proof (Hv (zlen (DictEntry.frq_bytes e))). pose proof (Hv (zlen (DictEntry.prx_bytes e))).
    pose proof (Hv (inline_dd_disk_len e)). pose proof (Hv (DictEntry.frq_off_delta e)). pose proof (Hv (DictEntry.frq_len e)).
    pose proof (Hv (prelude_len e)). pose proof (Hv (frq_docs_len e)). pose proof (Hv (DictEntry.prx_off_delta e)).
    pose proof (Hv (DictEntry.prx_len e)).
    unfold body_bytes, inline_bytes, pod_ref_bytes, blob_bytes. destruct (decide (kind e = kInline)), (decide (enc e = kWindowed)),
      (tier_has_stats tier); rewrite ?length_app; cbn [length]; lia. }
  pose proof (Hv (zlen (body_bytes e prev tier))). pose proof (Hp (u32 (zlen (term e)))). pose proof (Hp k).
  subst k. destruct (decide (kind e = kInline)); lia.
Qed.

(** The sum the builder keeps of its entries. *)
Definition est (es : list DictEntry) : Z := foldr (λ e n, estimate_entry_bytes e + n) 0 es.

Lemma estimate_ge e : 4 ≤ estimate_entry_bytes e.
Proof.
  unfold estimate_entry_bytes. pose proof (varint_len_range (u32 (zlen (term e)))). set (k := if decide _ then _ else _).
  pose proof (varint_len_range k). subst k. destruct (decide _); lia.
Qed.

Lemma est_app es fs : est (es ++ fs) = est es + est fs.
Proof. unfold est. induction es as [|e es IH]; cbn [app foldr]; [done|]. rewrite IH. lia. Qed.

Lemma est_length es : 4 * zlen es ≤ est es.
Proof.
  unfold est. induction es as [|e es IH]; cbn [foldr length]; [cbn; lia|]. pose proof (estimate_ge e). lia.
Qed.

Section Block.
Context (tier : IndexTier) (hp : bool) (fb pb k : Z).

Lemma build_snoc es e : build tier hp fb pb k (es ++ [e]) = add_entry e (build tier hp fb pb k es).
Proof. unfold build. by rewrite fold_left_app. Qed.

Lemma build_est es :
  est es < 2 ^ 62 →
  b_entries_est_ (build tier hp fb pb k es) = est es ∧ 0 ≤ b_n_anchors_ (build tier hp fb pb k es) ≤ zlen es.
Proof.
  induction es as [|e es IH] using rev_ind; intros Hn; [done|]. rewrite est_app in Hn. pose proof (est_length es).
  pose proof (estimate_ge e). cbn [est foldr] in Hn. destruct IH as [He Ha]; [lia|]. rewrite build_snoc, est_app. cbn.
  rewrite He, u64_small by ulia. rewrite length_app. cbn [length]. split; [lia|].
  destruct (is_anchor _ _); [rewrite u64_small by ulia|]; lia.
Qed.

(** The entries never outgrow the estimate the block is closed by. *)
Lemma estimated_bytes_ge es : est es < 2 ^ 62 → est es ≤ estimated_bytes (build tier hp fb pb k es).
Proof.
  intros Hn. destruct (build_est es Hn) as [He Ha]. pose proof (est_length es). unfold estimated_bytes, kAnchorOffBytes, kNAnchorsBytes, kFooterBytes.
  rewrite He. set (b := build tier hp fb pb k es) in *.
  pose proof (varint_len_range (b_n_entries_ b)). pose proof (varint_len_range (b_frq_base_ b)).
  pose proof (varint_len_range (b_prx_base_ b)). destruct (b_has_positions_ b); rewrite u64_small by ulia; lia.
Qed.
End Block.

Lemma covered_bytes_le tier hp fb pb (k : nat) es :
  (0 < k)%nat → zlen (covered_bytes tier hp fb pb k es) ≤ 4 * est es + 40.
Proof.
  intros Hk. pose proof (est_length es). rewrite covered_length. destruct (chunks_spec k es Hk) as [Hc Hne].
  unfold offsets, entries_bytes. rewrite seg_offsets_length.
  assert (∀ prev l, zlen (chain_bytes tier prev l) ≤ 3 * est l) as Hchain.
  { intros prev l. revert prev. induction l as [|e l IH]; intros prev; cbn [chain_bytes est foldr]; [cbn; lia|].
    rewrite length_app. pose proof (entry_bytes_le e prev tier). specialize (IH (term e)). unfold est in IH. lia. }
  assert (zlen (concat (map (seg_bytes tier) (chunks k es))) ≤ 3 * est es) as He.
  { rewrite <- Hc at 2. generalize (chunks k es). intros segs. clear -Hchain.
    induction segs as [|s segs IH]; cbn [map concat]; [cbn; lia|]. rewrite length_app, est_app.
    assert (zlen (seg_bytes tier s) ≤ 3 * est s) by apply Hchain. lia. }
  apply concat_count in Hne. rewrite Hc in Hne.
  assert (zlen (DictBlock.header_bytes hp fb pb es) ≤ 32) as Hh.
  { pose proof (encode_varint64_length_le (zlen es)). pose proof (encode_varint64_length_le fb).
    pose proof (encode_varint64_length_le pb). unfold DictBlock.header_bytes. destruct hp; rewrite !length_app; cbn [length]; lia. }
  lia.
Qed.

(** ** The terms of an index *)

(** A term with the positions of each of its documents. *)
Abbreviation Term := (TermPostings * list (list Z))%type.

(** What the writer asks of a term: the last two limits keep every DICT block
    below the 256 MiB the reader accepts. *)
Record wf_input_term (hp : bool) (t : Term) : Prop := {
  wi_postings : wf_postings hp t.1 t.2;
  wi_term : wf_term (tp_term t.1);
  wi_term_len : zlen (tp_term t.1) ≤ 2 ^ 20;
  wi_positions : zlen (tp_docids t.1) < kSlimDfThreshold → zlen (concat t.2) ≤ 2 ^ 19
}.

Lemma SumOf_u64 l : is_u64 (SumOf l).
Proof.
  unfold SumOf. assert (is_u64 0) as H0 by (by vm_compute). revert H0. generalize 0.
  induction l as [|x l IH]; intros s Hs; cbn [fold_left]; [done|]. apply IH. apply u64_range.
Qed.

Section Entries.
Context (hf hp : bool) (norms : list Z) (tier : IndexTier) (Hhf : hf = tier_has_stats tier).

Lemma px_whole_le t :
  wf_input_term hp t → zlen (tp_docids t.1) < kSlimDfThreshold →
  is_bytes (px_bytes hp (whole_window t.1 t.2)) ∧ zlen (px_bytes hp (whole_window t.1 t.2)) ≤ 2 ^ 24 + 2 ^ 22.
Proof.
  intros [Hwf _ _ Hpos] Hdf. specialize (Hpos Hdf). unfold kSlimDfThreshold in Hdf. unfold px_bytes.
  destruct hp; [|by split; [constructor|cbn; lia]]. cbn [w_pos whole_window].
  destruct (wp_positions _ _ _ Hwf eq_refl) as ((Hcn & _) & _ & Hup & _). pose proof (wp_pd _ _ _ Hwf) as Hlp.
  destruct (PrxPod.auto_window_bound t.2) as [Hb Hle]; [done| |split; [done|lia]].
  pose proof (wp_freqs _ _ _ Hwf) as Hf. rewrite Hcn in Hf. by apply (Forall_fmap (λ doc : list Z, zlen doc)) in Hf.
Qed.

Lemma slim_frq_le t :
  wf_input_term hp t →
  is_bytes (slim_frq hf t.1 t.2) ∧ zlen (slim_frq hf t.1 t.2) ≤ 10 + 72 * zlen (tp_docids t.1) ∧
  is_bytes (fq_bytes hf (whole_window t.1 t.2)).
Proof.
  intros [Hwf _ _ _]. destruct (fq_bytes_bound hf (whole_window t.1 t.2) (wp_freqs _ _ _ Hwf)) as [Hb Hl].
  cbn [w_freqs whole_window] in Hl. pose proof (dd_plain_le (tp_docids t.1) 0). pose proof (wp_parallel _ _ _ Hwf).
  unfold slim_frq, slim_dd. rewrite length_app. split_and!; [|lia|done]. apply Forall_app_2; [apply dd_plain_bytes|done].
Qed.

Lemma raw_meta_wf plain v : is_bytes plain → zlen plain < 2 ^ 63 → DictEntry.wf_region (raw_meta plain v).
Proof. intros Hb Hl. pose proof (crc32c_range plain Hb). split; cbn; [ulia|done]. Qed.

Lemma slim_freq_meta_wf t : wf_input_term hp t → zlen (tp_docids t.1) < kSlimDfThreshold → DictEntry.wf_region (slim_freq_meta hf t.1 t.2).
Proof.
  intros Ht Hdf. unfold kSlimDfThreshold in Hdf. destruct (slim_frq_le t Ht) as (_ & Hl & Hb).
  unfold slim_freq_meta. destruct hf; [|by vm_compute]. apply raw_meta_wf; [done|].
  unfold slim_frq in Hl. rewrite length_app in Hl. lia.
Qed.

(** The entry of a term can be stored, and is small. *)
Lemma written_wf region base e t :
  wf_input_term hp t → is_bytes norms → 0 ≤ base → zlen region < 2 ^ 63 → written hf hp norms t.1 t.2 region base e →
  wf_entry tier e ∧ term e = tp_term t.1 ∧ estimate_entry_bytes e ≤ 2 ^ 24 + 2 ^ 23.
Proof.
  intros Ht Hn Hb Hr Hw. pose proof Ht as [Hwf Hterm Htl _].
  pose proof (SumOf_u64 (tp_freqs t.1)) as Hs. pose proof (MaxOf_u32 _ (wp_freqs _ _ _ Hwf)) as Hm.
  assert (is_u32 (df_of t.1)) as Hdf by apply u32_range. pose proof (varint_len_range (u32 (zlen (tp_term t.1)))) as Hv1.
  assert (is_u64 (MaxOf (tp_freqs t.1))) as Hm64 by (unfold is_u32, is_u64 in *; lia).
  assert (∀ e', term e' = tp_term t.1 → 0 ≤ zlen (DictEntry.frq_bytes e') + zlen (DictEntry.prx_bytes e') ≤ 2 ^ 24 + 2 ^ 22 + 1000 →
    estimate_entry_bytes e' ≤ 2 ^ 24 + 2 ^ 23) as Hest.
  { intros e' He' Hsz. unfold estimate_entry_bytes. rewrite He'. set (kk := if decide _ then _ else _).
    pose proof (varint_len_range kk). subst kk. destruct (decide _); lia. }
  assert (DictEntry.wf_region default_region_meta) as Hdm by by vm_compute.
  assert (is_bytes []) as Hnil by constructor. assert (DictEntry.wf_region (raw_meta (slim_dd t.1) true) ∨ 2 ^ 62 ≤ zlen (slim_dd t.1)) as Hdd.
  { destruct (decide (2 ^ 62 ≤ zlen (slim_dd t.1))); [by right|left; apply raw_meta_wf; [apply dd_plain_bytes|lia]]. }
  assert (zstd (slim_freq_meta hf t.1 t.2) = false) as Hz by (unfold slim_freq_meta; by destruct hf).
  destruct (slim_frq_le t Ht) as (Hfb & Hfl & _). 
  assert (zlen (slim_dd t.1) ≤ zlen (slim_frq hf t.1 t.2)) by (unfold slim_frq; rewrite length_app; lia).
  destruct Hw as [ws pre post _ _ _ _ _ _ -> Hpre ->|pre post Hdl -> Hpre ->|Hdl Hi ->];
    (split_and!; [|done|apply Hest; [done|]]); unfold wf_entry, windowed_entry, slim_entry, inline_entry;
    cbn [term df ttf_delta DictEntry.max_freq frq_off_delta frq_len prelude_len prx_off_delta prx_len frq_docs_len
      dd_meta freq_meta inline_dd_disk_len DictEntry.frq_bytes DictEntry.prx_bytes];
    rewrite ?length_app in Hr.
  - split_and!; try assumption; try (destruct hp; ulia); try (cbn; lia); try (intros; reflexivity).
  - cbn; lia.
  - pose proof (slim_freq_meta_wf t Ht Hdl). unfold kSlimDfThreshold in Hdl.
    destruct Hdd as [Hdd|]; [|lia]. split_and!; try assumption; try (destruct hp; ulia); try (cbn; lia); try (intros; assumption).
  - cbn; lia.
  - pose proof (slim_freq_meta_wf t Ht Hdl). destruct (px_whole_le t Ht Hdl) as [Hpb Hpl]. unfold kSlimDfThreshold in Hdl.
    destruct Hdd as [Hdd|]; [|lia]. split_and!; try assumption; try (destruct hp; ulia); try (cbn; lia); try (intros; assumption).
  - destruct (px_whole_le t Ht Hdl) as [_ Hpl]. unfold kDefaultInlineThreshold in Hi. lia.
Qed.
End Entries.

(** ** Flushed blocks *)

(** A block, the record kept of it and its bytes in the dictionary buffer. *)
Record Flushed := mkFlushed { fl_block : IndexBlock; fl_record : BlockRecord; fl_data : bytes }.

Section Blocks.
Context `{!ZstdOps} (tier : IndexTier) (hp : bool).

Record flushed_at (off : Z) (f : Flushed) : Prop := {
  fa_block : wf_index_block tier hp (fl_block f);
  fa_cap : zlen (ib_bytes tier hp (fl_block f)) ≤ kMaxDictBlockUncompBytes;
  fa_offset : rel_offset (fl_record f) = off;
  fa_length : rec_length (fl_record f) = zlen (fl_data f);
  fa_size : zlen (fl_data f) ≤ zlen (ib_bytes tier hp (fl_block f));
  fa_entries : rec_n_entries (fl_record f) = zlen (ib_entries (fl_block f));
  fa_checksum : rec_checksum (fl_record f) = crc32c (ib_bytes tier hp (fl_block f));
  fa_first : rec_first_term (fl_record f) = first_term (ib_entries (fl_block f));
  fa_data :
    rec_flags (fl_record f) = 0 ∧ rec_uncomp_len (fl_record f) = 0 ∧ fl_data f = ib_bytes tier hp (fl_block f) ∨
    rec_flags (fl_record f) = DictBlockDirectory.kZstd ∧ rec_uncomp_len (fl_record f) = zlen (ib_bytes tier hp (fl_block f)) ∧
      zstd_decompress (fl_data f) (zlen (ib_bytes tier hp (fl_block f))) = Ok (ib_bytes tier hp (fl_block f));
  fa_bases : ib_prx_base (fl_block f) = ib_frq_base (fl_block f)
}.

(** Back to back from [off] on. *)
Fixpoint flushed_from (off : Z) (fs : list Flushed) : Prop :=
  match fs with [] => True | f :: fs => flushed_at off f ∧ flushed_from (off + zlen (fl_data f)) fs end.

Abbreviation disk fs := (concat (map fl_data fs)).

Lemma flushed_snoc off fs f :
  flushed_from off fs → flushed_at (off + zlen (disk fs)) f → flushed_from off (fs ++ [f]).
Proof.
  revert off. induction fs as [|g fs IH]; intros off Hfs Hf; cbn [app map concat flushed_from] in *.
  { by rewrite Z.add_0_r in Hf. }
  destruct Hfs as [Hg Hfs]. split; [done|]. apply IH; [done|]. rewrite length_app in Hf.
  replace (off + zlen (fl_data g) + zlen (disk fs)) with (off + Z.of_nat (length (fl_data g) + length (disk fs))) by lia. done.
Qed.

Lemma flushed_at_elem off fs f : flushed_from off fs → f ∈ fs → ∃ off', flushed_at off' f.
Proof.
  revert off. induction fs as [|g fs IH]; intros off Hfs Hf; [by apply elem_of_nil in Hf|]. destruct Hfs as [Hg Hfs].
  apply elem_of_cons in Hf as [->|Hf]; [by exists off|by apply (IH _ Hfs)].
Qed.

Lemma disk_le off fs : flushed_from off fs → zlen (disk fs) ≤ 2 ^ 28 * zlen fs.
Proof.
  revert off. induction fs as [|f fs IH]; intros off Hfs; cbn [map concat flushed_from length] in *; [cbn; lia|].
  destruct Hfs as [Hf Hfs]. specialize (IH _ Hfs). pose proof (fa_cap _ _ Hf) as Hc. pose proof (fa_size _ _ Hf).
  unfold kMaxDictBlockUncompBytes in Hc. rewrite length_app. lia.
Qed.

(** The entries of the flushed blocks, each with the base of its block. *)
Definition based (b : IndexBlock) : list (Z * DictEntry) := map (pair (ib_frq_base b)) (ib_entries b).
Definition flushed_entries (fs : list Flushed) : list (Z * DictEntry) := concat (map (λ f, based (fl_block f)) fs).

Lemma flushed_entries_snoc fs f : flushed_entries (fs ++ [f]) = flushed_entries fs ++ based (fl_block f).
Proof. unfold flushed_entries. rewrite map_app, concat_app. cbn [map concat]. by rewrite app_nil_r. Qed.

Lemma flushed_count off fs : flushed_from off fs → zlen fs ≤ zlen (flushed_entries fs).
Proof.
  revert off. induction fs as [|f fs IH]; intros off Hfs; [done|]. destruct Hfs as [Hf Hfs]. specialize (IH _ Hfs).
  unfold flushed_entries, based in *. cbn [map concat length]. rewrite length_app, length_map.
  pose proof (fa_block _ _ Hf) as [_ Hne]. destruct (ib_entries (fl_block f)); [done|]. cbn [length]. lia.
Qed.

Definition kAnchors : nat := 16.
Lemma kAnchors_interval : Z.of_nat kAnchors = kDefaultAnchorInterval.
Proof. done. Qed.

(** Entries that fit one block. *)
Lemma small_block_wf base es :
  is_u64 base → Forall (wf_entry tier) es → es ≠ [] → est es ≤ 2 ^ 25 + 2 ^ 24 + 2 ^ 23 →
  wf_index_block tier hp (mkIndexBlock base base kAnchors es) ∧
  zlen (ib_bytes tier hp (mkIndexBlock base base kAnchors es)) ≤ kMaxDictBlockUncompBytes.
Proof.
  intros Hb Hes Hne He. pose proof (covered_bytes_le tier hp base base kAnchors es ltac:(unfold kAnchors; lia)) as Hc.
  unfold wf_index_block, wf_block, ib_bytes, block_bytes, kMaxDictBlockUncompBytes. cbn [ib_frq_base ib_prx_base ib_interval ib_entries].
  rewrite length_app, fixed32_length. unfold kAnchors in *. split_and!; try done; lia.
Qed.

Context `{!ZstdLaws} {W : Type} {T : Type} `{TempFileLaws T}.

Lemma flush_block_spec base es (st : BuildState (W := W) (T := T)) bs :
  is_u64 base → Forall (wf_entry tier) es → es ≠ [] → est es ≤ 2 ^ 25 + 2 ^ 24 + 2 ^ 23 →
  holds (dict_buf_ st) bs → zlen bs < 2 ^ 63 →
  ∃ st' f, flush_block (build tier hp base base kDefaultAnchorInterval es) (first_term es) st = Ok st' ∧
    fl_block f = mkIndexBlock base base kAnchors es ∧ flushed_at (zlen bs) f ∧
    holds (dict_buf_ st') (bs ++ fl_data f) ∧ blocks_ st' = blocks_ st ++ [fl_record f] ∧
    posting_out_ st' = posting_out_ st ∧ term_hashes_ st' = term_hashes_ st ∧ term_count_ st' = term_count_ st ∧
    sum_total_term_freq_ st' = sum_total_term_freq_ st.
Proof.
  intros Hb Hes Hne He Hh Hn. destruct (small_block_wf base es Hb Hes Hne He) as [Hwf Hcap].
  set (blk := mkIndexBlock base base kAnchors es) in *. assert (wf_block tier hp base base kAnchors es) as Hwb by apply Hwf.
  unfold flush_block. rewrite <- kAnchors_interval.
  pose proof (finish_build tier hp base base kAnchors es [] Hwb) as Hfin. cbn [app] in Hfin. rewrite Hfin.
  change (block_bytes tier hp base base kAnchors es) with (ib_bytes tier hp blk). set (plain := ib_bytes tier hp blk) in *.
  pose proof (build_fields es (DictBlock.new_builder tier hp base base (Z.of_nat kAnchors))) as (_ & _ & _ & _ & _ & _ & Hne').
  fold (DictBlock.build tier hp base base (Z.of_nat kAnchors) es) in Hne'.
  assert (b_n_entries_ (build tier hp base base (Z.of_nat kAnchors) es) = zlen es) as ->.
  { pose proof (es_length_u32 _ _ _ _ _ _ Hwb) as Hl. destruct Hwb as (_ & _ & _ & _ & Hcov).
    rewrite Hne' by by vm_compute. cbn [b_n_entries_ DictBlock.new_builder]. rewrite u32_small by ulia. lia. }
  rewrite (holds_size _ _ Hh).
  assert (is_bytes plain) as Hpb.
  { subst plain. unfold ib_bytes, block_bytes. apply Forall_app_2; [by apply covered_is_bytes|auto with snii]. }
  destruct (zstd_roundtrip plain kDictBlockZstdLevel Hpb) as (comp & -> & _ & Hd & _).
  assert (∃ rec data, (if zlen comp <? zlen plain
      then (mkBlockRecord (zlen bs) (zlen comp) (zlen es) (crc32c plain) DictBlockDirectory.kZstd (zlen plain) (first_term es), comp)
      else (mkBlockRecord (zlen bs) (zlen plain) (zlen es) (crc32c plain) 0 0 (first_term es), plain)) = (rec, data) ∧
    flushed_at (zlen bs) (mkFlushed blk rec data)) as (rec & data & -> & Hf).
  { destruct (Z.ltb_spec (zlen comp) (zlen plain)); do 2 eexists; (split; [done|]); split; cbn; fold plain; try done; try lia.
    - by right.
    - by left. }
  unfold kMaxDictBlockUncompBytes in Hcap. pose proof (fa_size _ _ Hf) as Hsz. cbn [fl_data fl_block] in Hsz. fold plain in Hsz.
  destruct (append_move_holds data (dict_buf_ st) bs (reporter_ st) Hh) as (d' & r' & -> & Hd' & _); [rewrite length_app; ulia|].
  rewrite bind_Ok. eexists _, (mkFlushed blk rec data). split; [done|]. by cbn.
Qed.
End Blocks.

(** ** The state between two terms *)

Definition volumes (ts : list Term) : Z := foldr (λ t n, volume t.1 t.2 + n) 0 ts.
(** [sum_total_term_freq_], which wraps. *)
Definition total_freq (ts : list Term) : Z := fold_left (λ s t, u64 (s + SumOf (tp_freqs t.1))) ts 0.

Lemma volumes_app ts us : volumes (ts ++ us) = volumes ts + volumes us.
Proof. unfold volumes. induction ts as [|t ts IH]; cbn [app foldr]; [done|]. rewrite IH. lia. Qed.

Lemma volumes_pos ts : zlen ts ≤ volumes ts.
Proof. unfold volumes, volume. induction ts as [|t ts IH]; cbn [foldr length]; [cbn; lia|]. lia. Qed.

Section Build.
Context `{ZstdLaws} `{BsbfEnv} {W : Type} `{FileWriterLaws W} {T : Type} `{TempFileLaws T}.
Context (wr : LogicalIndexWriter) (c0 : bytes).
Abbreviation hf := (has_freq_ wr).
Abbreviation hp := (w_has_prx_ wr).
Abbreviation norms := (encoded_norms_ wr).
Abbreviation tier := (w_tier_ wr).
Context (Hhf : hf = tier_has_stats tier) (Hnorms : is_bytes norms) (Htarget : target_dict_block_bytes_ wr ≤ 2 ^ 25).

Abbreviation disk fs := (concat (map fl_data fs)).

(** The open block: the base its entries count from, and the entries. *)
Definition open_entries (open : option (Z * list DictEntry)) : list (Z * DictEntry) :=
  match open with Some (base, es) => map (pair base) es | None => [] end.

Inductive block_open (region : bytes) : option (Z * list DictEntry) → BlockState → Prop :=
  | block_closed ft fb pb : block_open region None (mkBlockState None ft fb pb)
  | block_started base es :
      es ≠ [] → 0 ≤ base ≤ zlen region → Forall (wf_entry tier) es → est es < 2 ^ 25 →
      block_open region (Some (base, es))
        (mkBlockState (Some (DictBlock.build tier hp base base kDefaultAnchorInterval es)) (first_term es) base base).

Definition writes (region : bytes) (t : Term) (be : Z * DictEntry) : Prop :=
  written hf hp norms t.1 t.2 region be.1 be.2.

(** After the terms [ts]: [region] has been appended to the container, [fs] are
    the flushed blocks and [open] is the block being filled. *)
Record building (ts : list Term) (region : bytes) (fs : list Flushed) (open : option (Z * list DictEntry))
    (st : BuildState (W := W) (T := T) * BlockState) : Prop := {
  bd_writable : writable (posting_out_ st.1);
  bd_contents : contents (posting_out_ st.1) = c0 ++ region;
  bd_region : zlen region ≤ 400 * volumes ts;
  bd_dict : holds (dict_buf_ st.1) (disk fs);
  bd_records : blocks_ st.1 = map fl_record fs;
  bd_flushed : flushed_from tier hp 0 fs;
  bd_hashes : term_hashes_ st.1 = map (λ t, bsbf_hash (tp_term t.1)) ts;
  bd_count : term_count_ st.1 = zlen ts;
  bd_sum : sum_total_term_freq_ st.1 = total_freq ts;
  bd_entries : Forall2 (writes region) ts (flushed_entries fs ++ open_entries open);
  bd_open : block_open region open st.2
}.

Lemma writes_app region more ts bes : Forall2 (writes region) ts bes → Forall2 (writes (region ++ more)) ts bes.
Proof. intros Hw. eapply Forall2_impl; [exact Hw|]. intros t be. apply written_app. Qed.

Lemma building_disk ts region fs open st : building ts region fs open st → zlen ts < 2 ^ 32 → zlen (disk fs) < 2 ^ 62.
Proof.
  intros Hb Hn. pose proof (bd_flushed _ _ _ _ _ Hb) as Hf. pose proof (disk_le _ _ _ _ Hf). pose proof (flushed_count _ _ _ _ Hf).
  pose proof (Forall2_length _ _ _ (bd_entries _ _ _ _ _ Hb)) as Hl. rewrite length_app in Hl. nia.
Qed.

(** The block a term goes to. *)
Lemma open_if_none_spec region open out term bs :
  zlen (c0 ++ region) < 2 ^ 63 → writable out → contents out = c0 ++ region → block_open region open bs →
  ∃ base es, open_entries open = map (pair base) es ∧ 0 ≤ base ≤ zlen region ∧ Forall (wf_entry tier) es ∧ est es < 2 ^ 25 ∧
    open_if_none wr (zlen c0) out term bs =
      (DictBlock.build tier hp base base kDefaultAnchorInterval es,
       mkBlockState (Some (DictBlock.build tier hp base base kDefaultAnchorInterval es))
         (match es with [] => term | _ => first_term es end) base base).
Proof.
  intros Hn Ho Hc [ft fb pb|base es Hne Hb Hes He].
  - exists (zlen region), []. split_and!; try done; try lia. unfold open_if_none. cbn [bs_block].
    by rewrite (posting_size_eq _ c0 region out) by (done || ulia).
  - exists base, es. split_and!; try done; try lia. unfold open_if_none. cbn [bs_block]. by destruct es.
Qed.

Lemma first_term_snoc es e : first_term (es ++ [e]) = match es with [] => term e | _ => first_term es end.
Proof. by destruct es. Qed.

Lemma process_term_spec ts t region fs open st :
  building ts region fs open st → wf_input_term hp t → zlen ts + 1 < 2 ^ 32 → zlen c0 + 400 * volumes (ts ++ [t]) < 2 ^ 63 →
  ∃ more fs' open' st', process_term wr (zlen c0) t.1 st = Ok st' ∧ building (ts ++ [t]) (region ++ more) fs' open' st'.
Proof.
  intros Hbd Ht Hcount Hn. pose proof Hbd as [Hw Hc Hr Hd Hrec Hfl Hh Hct Hsum Hes Hop]. destruct st as [b bs]. cbn [fst snd] in *.
  pose proof Ht as [Hwf Hterm _ _]. rewrite volumes_app in Hn. unfold volumes at 2 in Hn. cbn [foldr] in Hn. rewrite Z.add_0_r in Hn.
  assert (0 < volume t.1 t.2) as Hvol by (unfold volume; lia).
  assert (zlen (c0 ++ region) + 400 * volume t.1 t.2 < 2 ^ 63) as Hfit by (rewrite length_app; lia).
  unfold process_term. rewrite (validate_term_ok wr _ _ Hwf), bind_Ok.
  destruct (open_if_none_spec region open (posting_out_ b) (tp_term t.1) bs) as (base & es & Hoe & Hbase & Hwes & Hest & ->); [lia|done..|].
  cbn [bs_frq_base bs_prx_base].
  destruct (build_entry_written wr c0 t.1 t.2 Hwf Hnorms base region (posting_out_ b) Hw Hc Hbase) as (out' & e & more & -> & Hw' & Hc' & Hm & Hwr);
    [lia|]. rewrite bind_Ok.
  assert (zlen (region ++ more) < 2 ^ 63) as Hr63 by (rewrite !length_app in *; lia).
  destruct (written_wf hf hp norms tier Hhf (region ++ more) base e t Ht Hnorms) as (Hwe & Hte & Hee); [lia|done|done|].
  rewrite <- build_snoc. 
  assert (Forall (wf_entry tier) (es ++ [e])) as Hwes' by (apply Forall_app_2; [done|by constructor]).
  assert (est (es ++ [e]) = est es + estimate_entry_bytes e) as Hest' by (rewrite est_app; cbn; lia).
  assert (match es with [] => tp_term t.1 | _ => first_term es end = first_term (es ++ [e])) as ->.
  { rewrite first_term_snoc. by destruct es. }
  exists more.
  assert (Forall2 (writes (region ++ more)) (ts ++ [t]) (flushed_entries fs ++ map (pair base) (es ++ [e]))) as Hes'.
  { rewrite map_app, app_assoc, <- Hoe. apply Forall2_app; [by apply writes_app|]. constructor; [exact Hwr|constructor]. }
  assert (zlen (region ++ more) ≤ 400 * volumes (ts ++ [t])) as Hr'.
  { rewrite volumes_app, length_app. unfold volumes at 2. cbn [foldr]. lia. }
  assert (term_hashes_ b ++ [bsbf_hash (tp_term t.1)] = map (λ t, bsbf_hash (tp_term t.1)) (ts ++ [t])) as Hh' by by rewrite Hh, map_app.
  assert (u64 (term_count_ b + 1) = zlen (ts ++ [t])) as Hct'.
  { rewrite Hct, length_app. cbn [length]. rewrite u64_small by ulia. lia. }
  assert (u64 (sum_total_term_freq_ b + SumOf (tp_freqs t.1)) = total_freq (ts ++ [t])) as Hsum'.
  { rewrite Hsum. unfold total_freq. by rewrite fold_left_app. }
  set (block := DictBlock.build tier hp base base kDefaultAnchorInterval (es ++ [e])).
  pose proof (estimated_bytes_ge tier hp base base kDefaultAnchorInterval (es ++ [e])) as Hge. fold block in Hge.
  destruct (Z.leb_spec (target_dict_block_bytes_ wr) (estimated_bytes block)) as [Hfull|Hroom].
  - set (st1 := mkBuildState _ _ _ _ _ _ _).
    destruct (flush_block_spec tier hp base (es ++ [e]) st1 (disk fs)) as (st' & f & Hfb & Hblk & Hfa & Hd' & Hrec' & Hpo & Hth & Htc & Hsu);
      try done; [ulia| |lia| |].
    { by destruct es. }
    { eapply Z.lt_trans; [eapply building_disk; [exact Hbd|lia]|lia]. }
    subst block. cbn [bs_first_term]. rewrite Hfb, bind_Ok. exists (fs ++ [f]), None. eexists. split; [done|].
    split; cbn [fst snd]; rewrite ?Hpo, ?Hth, ?Htc, ?Hsu, ?Hrec'; subst st1; cbn [posting_out_ term_hashes_ term_count_ sum_total_term_freq_ blocks_]; try done.
    + rewrite map_app, concat_app. cbn [map concat]. by rewrite app_nil_r.
    + by rewrite Hrec, map_app.
    + by apply flushed_snoc.
    + rewrite flushed_entries_snoc, Hblk. cbn [open_entries]. by rewrite app_nil_r.
    + constructor.
  - exists fs, (Some (base, es ++ [e])). eexists. split; [done|].
    split; cbn [fst snd posting_out_ term_hashes_ term_count_ sum_total_term_freq_ blocks_ dict_buf_]; try done.
    constructor; try done; [by destruct es|rewrite length_app; lia|lia].
Qed.
(** *** All the terms *)

Definition fits (ts : list Term) : Prop := zlen ts < 2 ^ 32 ∧ zlen c0 + 400 * volumes ts < 2 ^ 63.

Lemma fits_app ts us : fits (ts ++ us) → fits ts.
Proof.
  intros [Hn Hv]. rewrite length_app in Hn. rewrite volumes_app in Hv. pose proof (volumes_pos us). split; lia.
Qed.

Lemma building_hear ts region fs open b bs deltas :
  building ts region fs open (b, bs) → building ts region fs open (hear deltas b, bs).
Proof. by intros [? ? ? ? ? ? ? ? ? ? ?]. Qed.

(** The streaming source and the materialized terms drive the same steps. *)
Lemma stream_terms_spec ts us evs region fs open st :
  building ts region fs open st → map snd evs = map fst us → Forall (wf_input_term hp) us → fits (ts ++ us) →
  ∃ more fs' open' st', fold_left (flip (stream_term wr (zlen c0))) evs (Ok st) = Ok st' ∧
    building (ts ++ us) (region ++ more) fs' open' st'.
Proof.
  intros Hb Hev Hus. revert ts evs region fs open st Hb Hev. induction Hus as [|u us Hu Hus IH]; intros ts evs region fs open st Hb Hev Hfit.
  { destruct evs; [|done]. exists [], fs, open, st. by rewrite !app_nil_r. }
  destruct evs as [|ev evs]; [done|]. injection Hev as Hev1 Hev. rewrite cons_middle, app_assoc in Hfit. destruct st as [b bs].
  pose proof (fits_app _ _ Hfit) as [Hn1 Hn2]. rewrite length_app in Hn1. cbn [length] in Hn1.
  destruct (process_term_spec ts u region fs open (hear ev.1 b, bs)) as (m1 & fs1 & op1 & st1 & Hp & Hb1); [by apply building_hear|done|lia|done|].
  cbn [fold_left flip stream_term]. rewrite Hev1, Hp.
  destruct (IH (ts ++ [u]) evs (region ++ m1) fs1 op1 st1 Hb1 Hev Hfit) as (m2 & fs2 & op2 & st2 & Hgo & Hb2).
  exists (m1 ++ m2), fs2, op2, st2. split; [done|]. by rewrite app_assoc, cons_middle, (app_assoc ts).
Qed.

Lemma process_terms_spec ts us region fs open st :
  building ts region fs open st → Forall (wf_input_term hp) us → fits (ts ++ us) →
  ∃ more fs' open' st', fold_result (process_term wr (zlen c0)) (map fst us) st = Ok st' ∧
    building (ts ++ us) (region ++ more) fs' open' st'.
Proof.
  intros Hb Hus. revert ts region fs open st Hb. induction Hus as [|u us Hu Hus IH]; intros ts region fs open st Hb Hfit.
  { exists [], fs, open, st. by rewrite !app_nil_r. }
  rewrite cons_middle, app_assoc in Hfit. pose proof (fits_app _ _ Hfit) as [Hn1 Hn2]. rewrite length_app in Hn1. cbn [length] in Hn1.
  destruct (process_term_spec ts u region fs open st) as (m1 & fs1 & op1 & st1 & Hp & Hb1); [done|done|lia|done|].
  cbn [map fold_result]. rewrite Hp, bind_Ok. destruct (IH _ _ _ _ _ Hb1 Hfit) as (m2 & fs2 & op2 & st2 & Hgo & Hb2).
  exists (m1 ++ m2), fs2, op2, st2. split; [done|]. by rewrite app_assoc, cons_middle, (app_assoc ts).
Qed.

(** The terms the writer is given, by either route, are [ts]. *)
Definition supplies (ts : list Term) : Prop :=
  match term_source_ wr with
  | Some source => map snd (ts_terms source) = map fst ts ∧ ts_status source = Ok tt
  | None => terms_ wr = map fst ts
  end.

Lemma build_blocks_spec ts b :
  building [] [] [] None (b, no_block) → supplies ts → Forall (wf_input_term hp) ts → fits ts →
  ∃ region fs b', build_blocks wr (zlen c0) b = Ok b' ∧ building ts region fs None (b', no_block).
Proof.
  intros Hb Hsup Hts Hfit. unfold build_blocks.
  assert (∃ region fs open st, match term_source_ wr with
    | Some source =>
        match fold_left (flip (stream_term wr (zlen c0))) (ts_terms source) (Ok (b, no_block)), ts_status source with
        | Undef, _ | _, Undef => Undef
        | _, Err s => Err s
        | streamed, Ok _ => '(b, bs) ← streamed; Ok (hear (ts_final source) b, bs)
        end
    | None => fold_result (process_term wr (zlen c0)) (terms_ wr) (b, no_block)
    end = Ok st ∧ building ts region fs open st) as (region & fs & open & [b1 bs] & -> & Hb1).
  { unfold supplies in Hsup. destruct (term_source_ wr) as [source|].
    - destruct Hsup as [Hev Hst]. destruct (stream_terms_spec [] ts _ [] [] None _ Hb Hev Hts Hfit) as (m & fs & op & [b2 bs2] & -> & Hgo).
      rewrite Hst, bind_Ok. exists m, fs, op, (hear (ts_final source) b2, bs2). split; [done|]. by apply building_hear.
    - rewrite Hsup. destruct (process_terms_spec [] ts [] [] None _ Hb Hts Hfit) as (m & fs & op & st & -> & Hgo). by exists m, fs, op, st. }
  rewrite bind_Ok. pose proof (building_disk _ _ _ _ _ Hb1 (proj1 Hfit)) as Hdl.
  destruct Hb1 as [Hw Hc Hr Hd Hrec Hfl Hh Hct Hsum Hes Hop]. cbn [fst snd] in *.
  destruct Hop as [ft fb pb|base es Hne Hbase Hwes Hest]; cbn [bs_block bs_first_term].
  { exists region, fs, b1. split; [done|]. split; try done. constructor. }
  destruct (flush_block_spec tier hp base es b1 (disk fs)) as (st' & f & Hfb & Hblk & Hfa & Hd' & Hrec' & Hpo & Hth & Htc & Hsu); try done.
  { destruct Hfit. ulia. } { lia. } { lia. }
  exists region, (fs ++ [f]), st'. split; [done|].
  split; cbn [fst snd]; rewrite ?Hpo, ?Hth, ?Htc, ?Hsu, ?Hrec'; try done.
  - rewrite map_app, concat_app. cbn [map concat]. by rewrite app_nil_r.
  - by rewrite Hrec, map_app.
  - by apply flushed_snoc.
  - rewrite flushed_entries_snoc, Hblk. cbn [open_entries] in *. by rewrite app_nil_r.
  - constructor.
Qed.
End Build.

(** ** The finished build *)

Section Built.
Context `{ZstdLaws} `{BsbfEnvLaws} `{!BsbfFpp} {W : Type} `{FileWriterLaws W} {T : Type} `{TempFileLaws T}.
Context (wr : LogicalIndexWriter).

Abbreviation disk fs := (concat (map fl_data fs)).

(** The filter section: absent without terms, else a serialized builder that
    holds the hash of each. *)
Definition filter_built (ts : list Term) (section : bytes) : Prop :=
  match ts with
  | [] => section = []
  | _ => ∃ bf, represents bf (map (λ t, bsbf_hash (tp_term t.1)) ts) ∧
      section = Bsbf.header_bytes bf ++ words_bytes (words_ bf)
  end.

(** [region] went to the container and [bi] describes the terms [ts]. *)
Record built (ts : list Term) (region : bytes) (fs : list Flushed) (bi : BuiltIndex (T := T)) : Prop := {
  bt_region : zlen region ≤ 400 * volumes ts;
  bt_dict : sealed_holds (bi_dict_buf bi) (disk fs);
  bt_size : SpillableByteBuffer.size (bi_dict_buf bi) = zlen (disk fs) ∧ zlen (disk fs) < 2 ^ 62;
  bt_records : bi_blocks bi = map fl_record fs;
  bt_flushed : flushed_from (w_tier_ wr) (w_has_prx_ wr) 0 fs;
  bt_entries : Forall2 (writes wr region) ts (flushed_entries fs);
  bt_stats : bi_stats bi = mkStatsBlock (w_doc_count_ wr) (w_doc_count_ wr) (zlen ts) (total_freq ts) 0;
  bt_norms : norms_section_ bi = if has_norms_ wr then build_norms wr else [];
  bt_filter : filter_built ts (bsbf_bytes_ bi)
}.

Lemma build_filter_spec (ts : list Term) :
  ts ≠ [] → fpp_in_range kBsbfFpp = true →
  ∃ section, build_filter (map (λ t, bsbf_hash (tp_term t.1)) ts) = Ok section ∧ filter_built ts section.
Proof.
  intros Hne Hfpp. set (hs := map _ ts). unfold build_filter.
  destruct (create_represents (u32 (zlen hs)) kBsbfFpp Hfpp) as (b0 & -> & Hb0); [apply u32_range|]. rewrite bind_Ok.
  destruct (insert_all_represents hs b0 [] Hb0) as (bf & Hi & Hbf).
  { subst hs. apply Forall_fmap, Forall_forall. intros t _. apply XXH64_u64. }
  unfold insert_all in Hi. rewrite Hi, bind_Ok. pose proof Hbf as [Hwf _]. rewrite (serialize_app bf [] Hwf).
  eexists. split; [done|]. destruct ts as [|t ts]; [done|]. by exists bf.
Qed.

Lemma new_building c0 (out : W) r :
  writable out → contents out = c0 →
  building wr c0 [] [] [] None (mkBuildState out (new_buffer (2 ^ 64 - 1) "dict") r [] [] 0 0, no_block).
Proof.
  intros Hw Hc. split; cbn; try done.
  - by rewrite app_nil_r.
  - constructor.
Qed.

Lemma seal_size (b b' : SpillableByteBuffer T) : seal b = Ok b' → SpillableByteBuffer.size b' = SpillableByteBuffer.size b.
Proof.
  unfold seal. destruct (spilled_ b && negb (sealed_ b)) eqn:Hs; [|by intros [= <-]].
  destruct (finalize (temp_ b)); [|done|done]. rewrite bind_Ok. by intros [= <-].
Qed.

Lemma build_index_spec c0 (out : W) ts :
  has_freq_ wr = tier_has_stats (w_tier_ wr) → is_bytes (encoded_norms_ wr) →
  target_dict_block_bytes_ wr ≤ 2 ^ 25 → fpp_in_range kBsbfFpp = true →
  (has_norms_ wr = true → zlen (encoded_norms_ wr) = w_doc_count_ wr) →
  writable out → contents out = c0 → supplies wr ts → Forall (wf_input_term (w_has_prx_ wr)) ts → fits c0 ts →
  ∃ out' r region fs bi, build_index wr out = Ok (out', r, bi) ∧ writable out' ∧ contents out' = c0 ++ region ∧
    built ts region fs bi.
Proof.
  intros Hhf Hn Ht Hfpp Hnorms Hw Hc Hsup Hts Hfit. unfold build_index.
  rewrite bind_reject_false.
  2: { destruct (has_norms_ wr); [|done]. cbn [andb]. rewrite (Hnorms eq_refl). by rewrite Z.eqb_refl. }
  assert (bytes_written out = zlen c0) as ->.
  { rewrite bytes_written_contents, Hc by done. destruct Hfit as [_ Hf]. pose proof (volumes_pos ts). rewrite u64_small by ulia. done. }
  destruct (build_blocks_spec wr c0 Hhf Hn Ht ts _ (new_building c0 out (mem_reporter_ wr) Hw Hc) Hsup Hts Hfit)
    as (region & fs & b' & -> & Hb). rewrite bind_Ok.
  pose proof (building_disk wr c0 _ _ _ _ _ Hb (proj1 Hfit)) as Hdl.
  destruct Hb as [Hw' Hc' Hr Hd Hrec Hfl Hh Hct Hsum Hes _]. cbn [fst snd open_entries] in *. rewrite app_nil_r in Hes.
  pose proof (holds_size _ _ Hd) as Hsz. destruct (seal_holds _ _ Hd) as (d' & Hseal & Hd' & _). rewrite Hseal, bind_Ok. apply seal_size in Hseal.
  assert (∃ section, match term_hashes_ b' with [] => Ok [] | hashes => build_filter hashes end = Ok section ∧ filter_built ts section)
    as (section & Hs & Hfb).
  { rewrite Hh. destruct ts as [|t ts]; [by exists []|]. cbn [map]. by apply (build_filter_spec (t :: ts)). }
  rewrite Hs, bind_Ok. do 5 eexists. split; [done|]. split_and!; [done|exact Hc'|]. rewrite Hct, Hsum.
  split; cbn; try done. split; [by rewrite Hseal|done].
Qed.
End Built.
