(* ===== verification/EntryRoundtrip.v ===== *)
(** * EntryRoundtrip: a written entry, read back.

    The windows, the flat postings and the inline postings the writer leaves in
    the posting region hold the documents of their term, where the readers of
    WindowedPosting and DocidPostingReader look for them. *)

From S2P Require Import Prelude Status Varint ByteIO Crc32c SectionFramer FormatConstants StatsBlock NormsPod.
From S2P Require Import TermKey SampledTermIndex DictBlockDirectory Zstd PforRuns FrqPod FrqPrelude DictEntry.
From S2P Require Import DictBlock PerIndexMeta FileIO SpillableByteBuffer Bsbf LogicalIndexReader.
From S2P Require Import WindowedPosting DocidPostingReader Queries TermPostings PostingWriter.
From S2P Require Import LogicalIndexWriter IndexBuild.

#[local] Open Scope Z_scope.

(** ** The windows of a posting *)

Section Windows.
Context `{ZstdOps} (file : bytes) (idx : LogicalIndexReader) (entry : DictEntry) (frq_base prx_base : Z).
Context (hf hp : bool) (norms : list Z) (prelude : FrqPreludeReader).
Context (DD FQ pre post : bytes) (Hfile : file = pre ++ DD ++ FQ ++ post).
Context (Hdd : dd_start idx entry frq_base = zlen pre).
Context (Hddl : dd_block_len_ prelude = zlen DD) (Hfql : freq_block_len_ prelude = zlen FQ).

(** What the window decodes to when the positions are not wanted. *)
Definition window_part (wf : bool) (w : Window) : list Z * list Z * list (list Z) :=
  (w_docs w, if wf then w_freqs w else [], []).

Lemma dd_slice m d pre_d post_d :
  DD = pre_d ++ d ++ post_d → dd_off m = zlen pre_d → dd_disk_len m = zlen d →
  window_bytes file (dd_start idx entry frq_base) m = d.
Proof.
  intros -> Ho Hl. unfold window_bytes. rewrite Hdd, Hfile, Ho, Hl.
  replace (pre ++ (pre_d ++ d ++ post_d) ++ FQ ++ post) with ((pre ++ pre_d) ++ d ++ (post_d ++ FQ ++ post)) by by rewrite <- !app_assoc.
  apply window_mid; [rewrite length_app; lia|done].
Qed.

Lemma fq_slice m f pre_f post_f :
  FQ = pre_f ++ f ++ post_f → freq_off m = zlen pre_f → freq_disk_len m = zlen f →
  FileIO.window file (freq_start idx entry frq_base prelude + freq_off m) (freq_disk_len m) = f.
Proof.
  intros -> Ho Hl. unfold freq_start. rewrite Hdd, Hddl, Hfile, Ho, Hl.
  replace (pre ++ DD ++ (pre_f ++ f ++ post_f) ++ post) with ((pre ++ DD ++ pre_f) ++ f ++ (post_f ++ post)) by by rewrite <- !app_assoc.
  apply window_mid; [rewrite !length_app; lia|done].
Qed.

Lemma decode_placed wf base dd fq px w :
  (wf = true → hf = true) → is_u32s (w_docs w) → is_u32s (w_freqs w) → Sorted Z.le (w_docs w) → Forall (λ d, base ≤ d) (w_docs w) →
  0 ≤ base → zlen (w_docs w) ≤ 1024 → length (w_freqs w) = length (w_docs w) →
  decode_window_slices (placed hf base dd fq w (skeleton hp norms base px w)) (dd_plain (w_docs w) base)
    (if wf then fq_bytes hf w else []) [] false wf = Ok (window_part wf w).
Proof.
  intros Hwf Hd Hf Hs Hb H0 Hn Hl. unfold decode_window_slices, dd_meta_of, freq_meta_of.
  cbn [placed skeleton dd_zstd dd_uncomp_len dd_disk_len crc_dd FrqPrelude.verify_crc win_base doc_count freq_zstd
    freq_uncomp_len freq_disk_len crc_freq negb].
  pose proof (dd_plain_le (w_docs w) base). pose proof (fq_bytes_bound hf w Hf) as [_ Hfl].
  rewrite (decode_dd_opened (w_docs w)); [..|apply open_raw]; try done.
  - rewrite bind_Ok, bind_reject_false by by rewrite Z.eqb_refl. unfold window_part. destruct wf; [|done].
    rewrite (Hwf eq_refl) in *. unfold fq_bytes in *. rewrite <- Hl.
    rewrite (decode_freq_opened (w_freqs w)); [done|done|done|apply open_raw; try done].
    unfold kMaxRegionUncompBytes. lia.
  - unfold kMaxWindowDocs. change (1 ≪ 24) with 16777216. lia.
  - unfold kMaxRegionUncompBytes. lia.
Qed.

Lemma layout_yields wf unit ws base dd fq px pre_d pre_f :
  (wf = true → hf = true) → unit ≤ 1024 → tiled unit ws → is_u32s (all_docs ws) → is_u32s (all_freqs ws) →
  Sorted Z.le (all_docs ws) → Forall (λ d, base ≤ d) (all_docs ws) → 0 ≤ base →
  DD = pre_d ++ dd_blocks base ws → dd = zlen pre_d → FQ = pre_f ++ PostingWriter.fq_block hf ws → fq = zlen pre_f →
  Forall2 (window_yields file idx entry frq_base prx_base prelude false wf) (layout hf hp norms base dd fq px ws)
    (map (window_part wf) ws).
Proof.
  intros Hwf Hu. revert base dd fq px pre_d pre_f. induction ws as [|w ws IH];
    intros base dd fq px pre_d pre_f Ht Hd Hf Hs Hb H0 HDD Hddo HFQ Hfqo; [constructor|].
  cbn [map layout]. unfold PostingWriter.fq_block in *. cbn [map concat dd_blocks] in *.
  destruct Ht as (Hl & Hfull & Hlf & Hlp & Ht). apply Forall_app in Hd as [Hdw Hd]. apply Forall_app in Hf as [Hfw Hf].
  apply Forall_app in Hb as [Hbw Hb]. apply Sorted_StronglySorted in Hs; [|intros ???; lia].
  apply StronglySorted_app in Hs as (Hcross & Hsw & Hs). apply StronglySorted_Sorted in Hs, Hsw.
  pose proof (w_last_in w ltac:(lia)) as Hin. constructor.
  - unfold window_yields, fits_in. set (m := placed _ _ _ _ _ _).
    assert (dd_off m = zlen pre_d ∧ dd_disk_len m = zlen (dd_plain (w_docs w) base) ∧
      (hf = true → freq_off m = zlen pre_f) ∧ freq_disk_len m = zlen (fq_bytes hf w)) as (Hm1 & Hm2 & Hm3 & Hm4).
    { split_and!; try done. intros ->. done. }
    pose proof (dd_slice m _ _ _ HDD Hm1 Hm2) as ->.
    rewrite Hddl, Hfql, Hm1, Hm2, Hm4. rewrite HDD, HFQ. rewrite !length_app. split_and!; try lia.
    + intros ->. rewrite Hm3 by auto. lia.
    + assert ((if wf then FileIO.window file (freq_start idx entry frq_base prelude + freq_off m) (zlen (fq_bytes hf w)) else []) =
        if wf then fq_bytes hf w else []) as ->.
      { destruct wf; [|done]. rewrite <- Hm4. by apply (fq_slice m _ _ _ HFQ); auto. }
      apply decode_placed; try done. lia.
  - eapply IH with (pre_d := pre_d ++ dd_plain (w_docs w) base) (pre_f := pre_f ++ fq_bytes hf w); try done.
    + apply Forall_forall. intros d Hd'. by apply Hcross.
    + rewrite Forall_forall in Hbw. specialize (Hbw _ Hin). lia.
    + by rewrite <- app_assoc.
    + rewrite length_app. lia.
    + by rewrite <- app_assoc.
    + rewrite length_app. lia.
Qed.
End Windows.

(** ** The documents of an entry *)

Section Entries.
Context `{ZstdOps} (file : bytes) (idx : LogicalIndexReader) (hf hp : bool) (norms : list Z) (tier : IndexTier).
Context (Hhf : hf = tier_has_stats tier) (Hnorms : is_bytes norms).
Context (c0 region post : bytes) (Hfile : file = c0 ++ region ++ post) (Hsize : zlen file < 2 ^ 63).
Context (Hpost : posting_region (section_refs idx) = mkRegionRef (zlen c0) (zlen region)).

Lemma posting_start : posting_offset idx = zlen c0.
Proof. unfold posting_offset. by rewrite Hpost. Qed.

Lemma region_in pre mid rest : region = pre ++ mid ++ rest →
  in_file file (zlen c0 + zlen pre) (zlen mid) ∧ FileIO.window file (zlen c0 + zlen pre) (zlen mid) = mid.
Proof.
  intros Hr. rewrite Hfile, Hr. replace (c0 ++ (pre ++ mid ++ rest) ++ post) with ((c0 ++ pre) ++ mid ++ (rest ++ post)) by by rewrite <- !app_assoc.
  split; [apply in_file_mid|apply window_mid]; rewrite ?length_app; lia.
Qed.

Lemma wf_docs_from_0 docs : is_u32s docs → StronglySorted Z.lt docs → ascending_from 0 docs.
Proof.
  intros Hu Hs. split; [by apply sorted_lt_le|]. eapply Forall_impl; [exact Hu|]. unfold is_u32. lia.
Qed.

Section Term.
Context (t : Term) (Ht : wf_input_term hp t) (base pb : Z) (Hbase : 0 ≤ base).

Lemma slim_dd_decodes m :
  zlen (tp_docids t.1) < kSlimDfThreshold → zstd m = false → uncomp_len m = zlen (slim_dd t.1) → disk_len m = zlen (slim_dd t.1) →
  (FrqPod.verify_crc m = true → crc m = crc32c (slim_dd t.1)) →
  decode_dd_region (slim_dd t.1) m 0 = Ok (tp_docids t.1).
Proof.
  intros Hdf Hz Hu Hd Hc. pose proof (wi_postings _ _ Ht) as Hwf. unfold kSlimDfThreshold in Hdf.
  pose proof (dd_plain_le (tp_docids t.1) 0) as Hle. fold (slim_dd t.1) in Hle.
  apply decode_dd_opened; [apply Hwf|lia|..|apply open_raw; try done].
  - unfold kMaxWindowDocs. change (1 ≪ 24) with 16777216. lia.
  - by apply wf_docs_from_0; apply Hwf.
  - unfold kMaxRegionUncompBytes, slim_dd in *. lia.
Qed.

Lemma inline_holds :
  zlen (tp_docids t.1) < kSlimDfThreshold →
  holds_docs file idx (mkResolved (stored tier (inline_entry hf hp t.1 t.2)) base pb) (tp_docids t.1).
Proof.
  intros Hdf. apply inline_docs; [done|..]; cbn [rp_entry stored kind inline_entry set_inline dd_meta DictEntry.frq_bytes
    stored_region disk_len DictEntry.dd_meta inline_dd_disk_len].
  - unfold slim_frq. rewrite length_app. lia.
  - unfold slim_frq at 1. rewrite Nat2Z.id, take_app_length. by apply slim_dd_decodes.
Qed.

Lemma slim_holds pre rest :
  zlen (tp_docids t.1) < kSlimDfThreshold →
  region = pre ++ px_bytes hp (whole_window t.1 t.2) ++ slim_frq hf t.1 t.2 ++ rest → base ≤ zlen pre →
  holds_docs file idx (mkResolved (stored tier (slim_entry hf hp t.1 t.2 base (zlen pre))) base pb) (tp_docids t.1).
Proof.
  intros Hdf Hr Hb. set (px := px_bytes hp (whole_window t.1 t.2)) in *.
  assert (region = (pre ++ px) ++ slim_dd t.1 ++ (fq_bytes hf (whole_window t.1 t.2) ++ rest)) as Hr'
    by (rewrite Hr; unfold slim_frq; by rewrite <- !app_assoc).
  destruct (region_in _ _ _ Hr') as [Hin Hwin].
  assert (1 ≤ zlen (slim_dd t.1)) as Hpos.
  { unfold slim_dd, dd_plain. rewrite length_app. pose proof (encode_varint64_length_pos (u32 (zlen (tp_docids t.1)))). lia. }
  assert (zlen region ≤ zlen file) as Hrl by (rewrite Hfile, !length_app; lia).
  assert (zlen (slim_dd t.1) ≤ zlen (slim_frq hf t.1 t.2)) as Hdl by (unfold slim_frq; rewrite length_app; lia).
  apply slim_docs with (g := mkRange (zlen c0 + zlen (pre ++ px)) (zlen (slim_dd t.1))); [done|..];
    cbn [rp_entry rp_frq_base FileIO.offset FileIO.len].
  - exists (zlen (slim_frq hf t.1 t.2)). cbn [rp_entry rp_frq_base FileIO.offset FileIO.len]. split_and!; [| |done].
    + unfold resolve_frq_window, resolve_window. rewrite Hpost.
      cbn [stored slim_entry kind enc set_pod_ref frq_off_delta frq_len prelude_len PerIndexMeta.length_ PerIndexMeta.offset]. fold px.
      assert (zlen (pre ++ px) = zlen pre + zlen px) as Hpl by (rewrite length_app; lia).
      assert (zlen pre + zlen px + zlen (slim_frq hf t.1 t.2) ≤ zlen region) by (rewrite Hr, !length_app; lia).
      assert (zlen c0 + zlen region ≤ zlen file) by (rewrite Hfile, !length_app; lia).
      replace (base + (zlen pre + zlen px - base)) with (zlen pre + zlen px) by lia.
      rewrite (u64_small (zlen pre + zlen px)) by ulia.
      rewrite bind_reject_false by (apply Z.ltb_ge; lia). rewrite bind_reject_false by (apply Z.ltb_ge; lia).
      rewrite bind_reject_false by (apply orb_false_iff; split; apply Z.ltb_ge; lia).
      rewrite !Z.add_0_r, !Z.sub_0_r. rewrite (u64_small (zlen c0 + _)) by ulia. rewrite u64_small by ulia. by rewrite Hpl.
    + unfold slim_docs_fetch_len. cbn [stored slim_entry kind enc set_pod_ref frq_docs_len].
      rewrite bind_reject_false by (apply Z.ltb_ge; lia). by rewrite (proj2 (Z.ltb_lt _ _)) by lia.
  - rewrite Hwin. by apply slim_dd_decodes.
Qed.

Lemma windowed_at wf ws pre rest :
  (wf = true → hf = true) → tiled (unit_of t.1) ws → tp_docids t.1 = all_docs ws → tp_freqs t.1 = all_freqs ws → wf_windows hp ws →
  region = pre ++ px_block hp ws ++ (prelude_bytes hf hp norms ws ++ dd_blocks 0 ws ++ PostingWriter.fq_block hf ws) ++ rest →
  base ≤ zlen pre →
  let e := stored tier (windowed_entry hf hp norms t.1 base (zlen pre) ws) in
  let prelude := built_reader (prelude_cols hf hp norms ws) in
  frq_at file idx e base prelude ∧ windows_ prelude = layout hf hp norms 0 0 0 0 ws ∧
  Forall2 (window_yields file idx e base pb prelude false wf) (windows_ prelude) (map (window_part wf) ws).
Proof.
  intros Hwf Htl Hd Hf Hw Hr Hb e prelude. set (px := px_block hp ws) in *. set (pr := prelude_bytes hf hp norms ws) in *.
  set (dd := dd_blocks 0 ws) in *. set (fq := PostingWriter.fq_block hf ws) in *.
  pose proof (prelude_cols_wf hf hp norms t.1 ws Hnorms Htl Hw) as Hcols. pose proof (open_built _ Hcols) as Hopen.
  change (built_bytes _) with pr in Hopen. change (built_reader _) with prelude in Hopen.
  assert (zlen c0 + zlen region ≤ zlen file) by (rewrite Hfile, !length_app; lia).
  assert (region = (pre ++ px) ++ pr ++ (dd ++ fq ++ rest)) as Hr1 by (rewrite Hr; by rewrite <- !app_assoc).
  assert (region = (pre ++ px) ++ (pr ++ dd ++ fq) ++ rest) as Hr2 by (rewrite Hr; by rewrite <- !app_assoc).
  destruct (region_in _ _ _ Hr1) as [_ Hwpr]. destruct (region_in _ _ _ Hr2) as [Hin _].
  assert (frq_start idx e base = zlen c0 + zlen (pre ++ px)) as Hfs.
  { unfold frq_start. rewrite posting_start. subst e. cbn [stored windowed_entry kind enc set_pod_ref frq_off_delta].
    fold px. rewrite length_app. lia. }
  assert (windows_ prelude = layout hf hp norms 0 0 0 0 ws) as Hlay.
  { subst prelude. unfold built_reader. cbn [windows_ has_freq has_prx windows prelude_cols]. apply layout_stored. }
  destruct (layout_sums hf hp norms ws 0 0 0 0) as [Hsd Hsf].
  assert (dd_block_len_ prelude = zlen dd) as Hddl by done.
  assert (freq_block_len_ prelude = zlen fq) as Hfql.
  { subst prelude. cbn [freq_block_len_ built_reader has_freq windows prelude_cols]. rewrite Hsf. subst fq.
    unfold PostingWriter.fq_block, fq_bytes. destruct hf; [done|]. by rewrite concat_nil_map. }
  split; [|split; [done|]].
  - split; rewrite ?Hfs, ?posting_start, ?Hddl, ?Hfql.
    + lia.
    + done.
    + subst e. cbn [stored windowed_entry kind enc set_pod_ref frq_off_delta]. lia.
    + subst e. cbn [stored windowed_entry kind enc set_pod_ref prelude_len frq_len]. fold pr dd fq.
      assert (1 ≤ zlen pr); [|lia]. subst pr. unfold prelude_bytes, built_bytes, built_covered, built_header.
      rewrite !length_app. cbn [length]. lia.
    + subst e. cbn [stored windowed_entry kind enc set_pod_ref frq_len]. fold pr dd fq.
      rewrite !length_app, !Nat2Z.inj_add, !Z.add_assoc in Hin. rewrite length_app, Nat2Z.inj_add, Z.add_assoc. exact Hin.
    + subst e. cbn [stored windowed_entry kind enc set_pod_ref prelude_len]. fold pr. by rewrite Hwpr.
    + subst e. cbn [stored windowed_entry kind enc set_pod_ref prelude_len frq_len]. fold pr dd fq. lia.
    + rewrite Hlay, layout_length. destruct (tiled_windows _ _ Htl) as (? & _). pose proof (ww_count _ _ Hw). ulia.
  - rewrite Hlay.
    assert (file = ((c0 ++ pre ++ px) ++ pr) ++ dd ++ fq ++ (rest ++ post)) as Hf2 by (rewrite Hfile, Hr; by rewrite <- !app_assoc).
    apply (layout_yields file idx e base pb hf hp norms prelude dd fq ((c0 ++ pre ++ px) ++ pr) (rest ++ post) Hf2)
      with (unit := unit_of t.1) (pre_d := []) (pre_f := []); try done.
    + unfold dd_start. rewrite Hfs. subst e. cbn [stored windowed_entry kind enc set_pod_ref prelude_len]. fold pr.
      rewrite !length_app. lia.
    + unfold unit_of. destruct (adaptive_unit (u32 (zlen (tp_docids t.1)))) as [-> | ->]; lia.
    + apply Hw.
    + apply Hw.
    + apply sorted_lt_le, Hw.
    + eapply Forall_impl; [exact (ww_docs _ _ Hw)|]. unfold is_u32. lia.
Qed.

Lemma windowed_holds ws pre rest :
  tiled (unit_of t.1) ws → tp_docids t.1 = all_docs ws → tp_freqs t.1 = all_freqs ws → wf_windows hp ws →
  region = pre ++ px_block hp ws ++ (prelude_bytes hf hp norms ws ++ dd_blocks 0 ws ++ PostingWriter.fq_block hf ws) ++ rest →
  base ≤ zlen pre →
  holds_docs file idx (mkResolved (stored tier (windowed_entry hf hp norms t.1 base (zlen pre) ws)) base pb) (tp_docids t.1).
Proof.
  intros Htl Hd Hf Hw Hr Hb. destruct (windowed_at false ws pre rest ltac:(done) Htl Hd Hf Hw Hr Hb) as (Hat & _ & Hy).
  apply windowed_docs with (prelude := built_reader (prelude_cols hf hp norms ws)); [done|]. split; [exact Hat|].
  exists (map (window_part false) ws). split; [exact Hy|]. rewrite Hd. unfold join. cbn [docids]. by rewrite map_map.
Qed.

Lemma written_holds e :
  written hf hp norms t.1 t.2 region base e → holds_docs file idx (mkResolved (stored tier e) base pb) (tp_docids t.1).
Proof.
  intros [ws pre rest _ Htl Hd Hf _ Hw Hr Hb ->|pre rest Hdf Hr Hb ->|Hdf _ ->].
  - by apply (windowed_holds ws pre rest).
  - by apply (slim_holds pre rest).
  - by apply inline_holds.
Qed.
End Term.
End Entries.
