(* ===== verification/PostingRoundtrip.v ===== *)
(** * PostingRoundtrip: the positions of a written entry.

    What EntryRoundtrip shows of the documents, for the positions too: the
    position windows of a written entry are where the phrase queries read them,
    and each decodes to the positions its documents were added with. *)

From S2P Require Import Prelude Status Varint ByteIO FormatConstants Zstd PforRuns FrqPod FrqPrelude PrxPod DictEntry.
From S2P Require Import PerIndexMeta FileIO Bsbf LogicalIndexReader WindowedPosting DocidPostingReader Queries.
From S2P Require Import PhraseQuery Conjunction TermPostings PostingWriter LogicalIndexWriter IndexBuild EntryRoundtrip.

#[local] Open Scope Z_scope.

(** At most 4096 positions per document, so that a window of 1024 documents
    stays within the caps of the reader. *)
Definition kMaxDocPositions : Z := 4096.
Definition sparse (pd : list (list Z)) : Prop := Forall (λ ps, zlen ps ≤ kMaxDocPositions) pd.

Lemma sparse_concat pd : sparse pd → zlen (concat pd) ≤ kMaxDocPositions * zlen pd.
Proof.
  unfold sparse, kMaxDocPositions. induction 1 as [|ps pd Hp _ IH]; cbn [concat length]; [cbn; lia|]. rewrite length_app. lia.
Qed.

(** The pairs of documents and positions of a window. *)
Definition chunk_of (w : Window) : list (Z * list Z) := zip (w_docs w) (w_pos w).

Lemma chunk_docs w : length (w_pos w) = length (w_docs w) → map fst (chunk_of w) = w_docs w.
Proof. intros Hl. unfold chunk_of. apply fst_zip. lia. Qed.
Lemma chunk_positions w : length (w_pos w) = length (w_docs w) → map snd (chunk_of w) = w_pos w.
Proof. intros Hl. unfold chunk_of. apply snd_zip. lia. Qed.

Lemma chunks_of_windows unit ws : tiled unit ws → concat (map chunk_of ws) = zip (all_docs ws) (all_pos ws).
Proof.
  induction ws as [|w ws IH]; intros Ht; [done|]. destruct Ht as (_ & _ & _ & Hp & Ht). cbn [map concat]. rewrite (IH Ht).
  symmetry. by apply zip_with_app.
Qed.

Section Decode.
Context `{ZstdOps}.

Lemma pfor_payload_le pd :
  Forall is_u32s pd → Forall (λ doc, is_u32 (zlen doc)) pd → zlen (pfor_payload pd) ≤ 20 + 36 * (zlen pd + zlen (concat pd)).
Proof.
  intros Hp Hl. assert (is_u32s (counts pd)) as Hc by by apply Forall_map.
  assert (is_u32s (all_deltas pd)) as Hd.
  { apply Forall_concat, Forall_map. eapply Forall_impl; [exact Hp|]. intros doc. apply position_deltas_u32. }
  pose proof (pfor_runs_bytes_le _ Hc) as Hlc. pose proof (pfor_runs_bytes_le _ Hd) as Hld.
  rewrite all_deltas_length in Hld. rewrite length_map in Hlc.
  pose proof (encode_varint64_length_le (zlen pd)). pose proof (encode_varint64_length_le (zlen (concat pd))).
  unfold pfor_payload. rewrite !length_app. lia.
Qed.

Lemma decodes_auto_window pd :
  Forall is_u32s pd → ascending_docs pd → sparse pd → zlen pd ≤ 1024 → decodes_prx (auto_window pd) pd.
Proof.
  intros Hu Ha Hs Hn. pose proof (sparse_concat pd Hs) as Hc. unfold kMaxDocPositions in Hc.
  assert (wf_docs pd) as Hwf.
  { unfold wf_docs, kMaxWindowDocs, kMaxWindowPositions. change (1 ≪ 24) with 16777216. change (1 ≪ 26) with 67108864. split_and!; [done|lia|lia]. }
  pose proof (wf_docs_lengths pd Hwf) as Hl. pose proof (pfor_payload_le pd Hu Hl) as Hpl.
  assert (run_reader read_prx_window (auto_window pd) = Ok pd) as Hr by (apply read_auto_window; [done|done|unfold kMaxWindowUncompBytes; lia]).
  destruct (auto_window_bound pd Hu Hl) as [Hb _]. assert (wf_source (source (auto_window pd))) as Hws by (unfold wf_source; cbn; lia).
  pose proof (prx_read_csr_nested (source (auto_window pd)) Hws) as Hcsr. split; [|lia]. unfold run_reader in Hr |- *.
  destruct (read_prx_window (source (auto_window pd))) as [[docs src']| |]; [|done|done]. rewrite bind_Ok in Hr. injection Hr as ->.
  rewrite (proj2 (Z.leb_le _ _)) in Hcsr; [by rewrite Hcsr|]. unfold kMaxWindowPositions. change (1 ≪ 26) with 67108864. lia.
Qed.
End Decode.

(** ** The position windows *)

Section Windows.
Context (file : bytes) (hf hp : bool) (norms : list Z) (start : Z) (PX pre post : bytes).
Context (Hfile : file = pre ++ PX ++ post) (Hstart : start = zlen pre) (Hhp : hp = true).

(** The window of a layout and the window it was made of. *)
Definition prx_placed (m : WindowMeta) (w : Window) : Prop :=
  last_docid m = w_last w ∧ fits_in (prx_off m) (FrqPrelude.prx_len m) (zlen PX) ∧
  FileIO.window file (start + prx_off m) (FrqPrelude.prx_len m) = auto_window (w_pos w).

Lemma layout_prx_placed base dd fq px ws pre_p :
  PX = pre_p ++ px_block hp ws → px = zlen pre_p → Forall2 prx_placed (layout hf hp norms base dd fq px ws) ws.
Proof.
  revert base dd fq px pre_p. induction ws as [|w ws IH]; intros base dd fq px pre_p HPX Hpx; cbn [layout]; [by apply Forall2_nil|].
  unfold px_block in *. cbn [map concat] in HPX. constructor.
  - unfold prx_placed. cbn [placed skeleton last_docid prx_off FrqPrelude.prx_len]. rewrite Hhp. split; [done|]. rewrite HPX.
    unfold px_bytes. rewrite Hhp. split; [unfold fits_in; rewrite !length_app; lia|].
    rewrite Hfile, HPX. unfold px_bytes. rewrite Hhp.
    replace (pre ++ (pre_p ++ auto_window (w_pos w) ++ concat (map (λ w, auto_window (w_pos w)) ws)) ++ post)
      with ((pre ++ pre_p) ++ auto_window (w_pos w) ++ (concat (map (λ w, auto_window (w_pos w)) ws) ++ post)) by by rewrite <- !app_assoc.
    apply window_mid; [rewrite length_app; lia|done].
  - apply (IH _ _ _ _ (pre_p ++ px_bytes hp w)); [by rewrite <- app_assoc|rewrite length_app; lia].
Qed.
End Windows.

Lemma layout_last_docid hf hp norms base dd fq px ws i m w :
  layout hf hp norms base dd fq px ws !! i = Some m → ws !! i = Some w → last_docid m = w_last w.
Proof.
  revert base dd fq px i. induction ws as [|w' ws IH]; intros base dd fq px i Hm Hw; [done|]. cbn [layout] in Hm. destruct i as [|i]; cbn in Hm, Hw.
  - injection Hm as <-. by injection Hw as ->.
  - by eapply IH.
Qed.

Lemma tiled_lookup unit ws i w : tiled unit ws → ws !! i = Some w → 0 < zlen (w_docs w) ≤ unit ∧ length (w_pos w) = length (w_docs w).
Proof.
  revert i. induction ws as [|w' ws IH]; intros i Ht Hi; [done|]. destruct Ht as (Hl & _ & _ & Hp & Ht). destruct i as [|i]; cbn in Hi; [by injection Hi as <-|].
  by apply (IH i).
Qed.

Lemma unit_le tp : unit_of tp ≤ 1024.
Proof. unfold unit_of. destruct (adaptive_unit (u32 (zlen (tp_docids tp)))) as [-> | ->]; lia. Qed.

(** ** The entries *)

Section Entries.
Context `{ZstdOps} (np : bool) (file : bytes) (idx : LogicalIndexReader) (hf hp : bool) (norms : list Z) (tier : IndexTier).
Context (Hhf : hf = tier_has_stats tier) (Hnorms : is_bytes norms) (Hnp : np = true → hp = true ∧ tier_has_stats tier = true).
Context (c0 region post : bytes) (Hfile : file = c0 ++ region ++ post) (Hsize : zlen file < 2 ^ 63).
Context (Hpost : posting_region (section_refs idx) = mkRegionRef (zlen c0) (zlen region)).
Context (t : Term) (Ht : wf_input_term hp t) (Hsparse : np = true → sparse t.2).
Context (base pb : Z) (Hbase : 0 ≤ base) (Hpb : np = true → pb = base).

Lemma whole_chunk : length t.2 = length (tp_docids t.1).
Proof. apply (wp_pd _ _ _ (wi_postings _ _ Ht)). Qed.

Lemma whole_decodes : np = true → zlen (tp_docids t.1) < kSlimDfThreshold → decodes_prx (px_bytes hp (whole_window t.1 t.2)) t.2.
Proof.
  intros Hn Hdf. destruct (Hnp Hn) as [Hh _]. unfold px_bytes. rewrite Hh. cbn [whole_window w_pos].
  destruct (wp_positions _ _ _ (wi_postings _ _ Ht) Hh) as (_ & Ha & Hu & _). unfold kSlimDfThreshold in Hdf.
  apply decodes_auto_window; [done|done|by apply Hsparse|]. rewrite whole_chunk. lia.
Qed.

Abbreviation the_chunk := (zip (tp_docids t.1) t.2).

Lemma inline_holds_postings :
  zlen (tp_docids t.1) < kSlimDfThreshold →
  holds_postings np file idx (mkResolved (stored tier (inline_entry hf hp t.1 t.2)) base pb) [the_chunk].
Proof.
  intros Hdf. pose proof whole_chunk as Hl. pose proof (inline_holds file idx hf hp tier t Ht base pb Hdf) as Hi.
  destruct Hi as [Hk Hlen Hdec|g Hs|prelude Hs]; [|done|done].
  apply inline_postings; [done|done|by rewrite fst_zip by lia|]. intros Hn. rewrite snd_zip by lia. destruct (Hnp Hn) as [_ Hst].
  cbn [rp_entry stored kind inline_entry]. rewrite Hst. by apply whole_decodes.
Qed.

Lemma slim_holds_postings pre rest :
  zlen (tp_docids t.1) < kSlimDfThreshold →
  region = pre ++ px_bytes hp (whole_window t.1 t.2) ++ slim_frq hf t.1 t.2 ++ rest → base ≤ zlen pre →
  holds_postings np file idx (mkResolved (stored tier (slim_entry hf hp t.1 t.2 base (zlen pre))) base pb) [the_chunk].
Proof.
  intros Hdf Hr Hb. pose proof whole_chunk as Hl.
  pose proof (slim_holds file idx hf hp tier c0 region post Hfile Hsize Hpost t Ht base pb pre rest Hdf Hr Hb) as Hi.
  destruct Hi as [Hk|g Hs Hg Hdec|prelude Hs]; [done| |done].
  apply (slim_postings _ _ _ _ _ g); [done|done|by rewrite fst_zip by lia|]. intros Hn. rewrite snd_zip by lia. destruct (Hnp Hn) as [Hh Hst].
  set (px := px_bytes hp (whole_window t.1 t.2)) in *.
  destruct (region_in file c0 region post Hfile pre px (slim_frq hf t.1 t.2 ++ rest) Hr) as [Hin Hwin].
  exists (zlen c0 + zlen pre), (zlen px). split; [|split; [done|rewrite Hwin; by apply whole_decodes]].
  set (e := stored tier _). assert (prx_off_delta e = zlen pre - base ∧ DictEntry.prx_len e = zlen px) as [Ho He].
  { subst e. cbn [stored kind enc slim_entry]. rewrite Hst. cbn [set_pod_ref prx_off_delta DictEntry.prx_len]. unfold slim_entry. subst px. rewrite Hh. by split. }
  unfold resolve_prx_window, resolve_window. rewrite Hpost. cbn [rp_entry rp_prx_base PerIndexMeta.length_ PerIndexMeta.offset]. rewrite Ho, He, (Hpb Hn).
  assert (zlen region ≤ zlen file ∧ zlen pre + zlen px ≤ zlen region ∧ zlen c0 + zlen region ≤ zlen file) as (? & ? & ?).
  { rewrite Hfile, Hr, !length_app. lia. }
  replace (base + (zlen pre - base)) with (zlen pre) by lia. rewrite (u64_small (zlen pre)) by ulia.
  rewrite bind_reject_false by (apply Z.ltb_ge; lia). rewrite bind_reject_false by (apply Z.ltb_ge; lia).
  rewrite bind_reject_false by (apply orb_false_iff; split; apply Z.ltb_ge; lia).
  rewrite Z.sub_0_r, Z.add_0_r. rewrite (u64_small (zlen c0 + zlen pre)) by ulia. by rewrite u64_small by ulia.
Qed.

Lemma windowed_holds_postings ws pre rest :
  tiled (unit_of t.1) ws → tp_docids t.1 = all_docs ws → tp_freqs t.1 = all_freqs ws → t.2 = all_pos ws → wf_windows hp ws →
  region = pre ++ px_block hp ws ++ (prelude_bytes hf hp norms ws ++ dd_blocks 0 ws ++ PostingWriter.fq_block hf ws) ++ rest →
  base ≤ zlen pre →
  holds_postings np file idx (mkResolved (stored tier (windowed_entry hf hp norms t.1 base (zlen pre) ws)) base pb) (map chunk_of ws).
Proof.
  intros Htl Hd Hf Hp Hw Hr Hb.
  destruct (windowed_at file idx hf hp norms tier Hhf Hnorms c0 region post Hfile Hpost t base pb Hbase false ws pre rest ltac:(done) Htl Hd Hf Hw Hr Hb) as (Hat & Hlay & Hy).
  set (e := stored tier _) in *. set (prelude := built_reader _) in *.
  pose proof (prelude_cols_wf hf hp norms t.1 ws Hnorms Htl Hw) as Hcols.
  apply (held_windowed _ _ _ _ prelude); [done|].
  assert (np = true → prx_at file idx e pb ∧ DictEntry.prx_len e = zlen (px_block hp ws) ∧ prx_start idx e pb = zlen (c0 ++ pre)) as Hprx.
  { intros Hn. destruct (Hnp Hn) as [Hh Hst]. destruct (region_in file c0 region post Hfile pre (px_block hp ws) _ Hr) as [Hin _].
    assert (DictEntry.prx_len e = zlen (px_block hp ws) ∧ prx_off_delta e = zlen pre - base) as [Hl Ho].
    { subst e. cbn [stored kind enc windowed_entry]. rewrite Hst. cbn [set_pod_ref prx_off_delta DictEntry.prx_len]. unfold windowed_entry. rewrite Hh. by split. }
    assert (prx_start idx e pb = zlen c0 + zlen pre) as Hs by (unfold prx_start; rewrite (posting_start idx c0 region Hpost), Ho, (Hpb Hn); lia).
    split; [|split; [done|rewrite length_app; lia]]. split; [rewrite (posting_start idx c0 region Hpost); lia|rewrite (Hpb Hn); done|rewrite Ho; lia|]. by rewrite Hs, Hl. }
  split.
  - exact Hat.
  - intros d. by apply locate_built.
  - intros Hn. split; [by apply Hprx|]. by destruct (Hnp Hn) as [-> _].
  - apply Forall2_same_length_lookup_2; [rewrite length_map, Hlay; apply layout_length|]. intros i m c Hm Hc.
    apply list_lookup_fmap_Some in Hc as (w & -> & Hwi). pose proof (tiled_lookup _ _ _ _ Htl Hwi) as (Hl0 & Hlp).
    destruct (Forall2_lookup_lr _ _ _ i m (window_part false w) Hy Hm) as (Hdd & Hfq & Hpx & Hdec); [by apply list_lookup_fmap_Some_2|].
    split.
    + rewrite chunk_docs by done. split; [done|]. split; [done|]. split; [done|]. exact Hdec.
    + rewrite chunk_docs by done. rewrite (last_docs w) by lia. f_equal.
      rewrite Hlay in Hm. symmetry. by eapply layout_last_docid.
    + intros Hn. destruct (Hprx Hn) as (Hpa & Hpl & Hps). destruct (Hnp Hn) as [Hh _]. rewrite chunk_positions by done.
      assert (file = (c0 ++ pre) ++ px_block hp ws ++ ((prelude_bytes hf hp norms ws ++ dd_blocks 0 ws ++ PostingWriter.fq_block hf ws) ++ rest ++ post)) as Hf2
        by (rewrite Hfile, Hr, <- !app_assoc; done).
      pose proof (layout_prx_placed file hf hp norms (prx_start idx e pb) (px_block hp ws) (c0 ++ pre) _ Hf2 Hps Hh 0 0 0 0 ws [] eq_refl eq_refl) as Hpp.
      rewrite Hlay in Hm. destruct (Forall2_lookup_lr _ _ _ _ _ _ Hpp Hm Hwi) as (_ & Hfit & Hwin). cbn [rp_entry rp_prx_base]. rewrite Hpl, Hwin. split; [done|].
      destruct (ww_positions _ _ Hw Hh) as (Hwp & Hu & _). pose proof (Forall_lookup_1 _ _ _ _ Hwp Hwi) as [_ Ha].
      assert (w_pos w ⊆ t.2) as Hsub.
      { rewrite Hp. intros ps Hps'. apply elem_of_concat_map. exists w. split; [by apply list_elem_of_lookup_2 in Hwi|done]. }
      apply decodes_auto_window; [|done| |].
      * rewrite Forall_forall in Hu |- *. intros ps Hps'. apply Hu. rewrite <- Hp. by apply Hsub.
      * pose proof (Hsparse Hn) as Hsp. unfold sparse in *. rewrite Forall_forall in Hsp |- *. intros ps Hps'. by apply Hsp, Hsub.
      * rewrite Hlp. pose proof (unit_le t.1). lia.
Qed.

Lemma written_holds_postings e :
  written hf hp norms t.1 t.2 region base e →
  ∃ cs, holds_postings np file idx (mkResolved (stored tier e) base pb) cs ∧ concat cs = zip (tp_docids t.1) t.2.
Proof.
  intros [ws pre rest _ Htl Hd Hf Hp Hw Hr Hb ->|pre rest Hdf Hr Hb ->|Hdf _ ->].
  - exists (map chunk_of ws). split; [by apply (windowed_holds_postings ws pre rest)|]. rewrite Hd, Hp. by eapply chunks_of_windows.
  - eexists. split; [by apply (slim_holds_postings pre rest)|]. cbn. apply app_nil_r.
  - eexists. split; [by apply inline_holds_postings|]. cbn. apply app_nil_r.
Qed.
End Entries.
