(* ===== verification/FreqRoundtrip.v ===== *)
(** * FreqRoundtrip: the frequencies of a written entry, read back.

    Like EntryRoundtrip and PostingRoundtrip, for what the scored queries read: an
    entry of an index with frequencies holds the documents of its term and how
    often the term occurs in each. *)

From S2P Require Import Prelude Status Varint ByteIO Crc32c FormatConstants TermKey Zstd PforRuns FrqPod FrqPrelude DictEntry.
From S2P Require Import PerIndexMeta FileIO LogicalIndexReader WindowedPosting TermPostings PostingWriter LogicalIndexWriter IndexBuild EntryRoundtrip PostingRoundtrip.

#[local] Open Scope Z_scope.

(** ** Written entries *)

Section Entries.
Context `{ZstdOps} (file : bytes) (idx : LogicalIndexReader) (hp : bool) (norms : list Z) (tier : IndexTier).
Context (Hstats : tier_has_stats tier = true) (Hnorms : is_bytes norms).
Context (c0 region post : bytes) (Hfile : file = c0 ++ region ++ post) (Hsize : zlen file < 2 ^ 63).
Context (Hpost : posting_region (section_refs idx) = mkRegionRef (zlen c0) (zlen region)).
Context (t : Term) (Ht : wf_input_term hp t) (base pb : Z) (Hbase : 0 ≤ base).

Lemma flat_freqs_decode e :
  zlen (tp_docids t.1) < kSlimDfThreshold →
  zstd (dd_meta e) = false → uncomp_len (dd_meta e) = zlen (slim_dd t.1) → disk_len (dd_meta e) = zlen (slim_dd t.1) →
  (FrqPod.verify_crc (dd_meta e) = true → crc (dd_meta e) = crc32c (slim_dd t.1)) →
  let f := fq_bytes true (whole_window t.1 t.2) in
  zstd (freq_meta e) = false → uncomp_len (freq_meta e) = zlen f → disk_len (freq_meta e) = zlen f →
  (FrqPod.verify_crc (freq_meta e) = true → crc (freq_meta e) = crc32c f) →
  flat_decodes e (slim_frq true t.1 t.2) (tp_docids t.1) (tp_freqs t.1).
Proof.
  intros Hdf Hz Hu Hd Hc f Hfz Hfu Hfd Hfc. unfold flat_decodes. rewrite Hd, Nat2Z.id. unfold slim_frq. fold f.
  rewrite length_app, take_app_length, drop_app_length. split_and!; [lia|lia|by eapply slim_dd_decodes|].
  pose proof (wi_postings _ _ Ht) as Hwf. pose proof (pfor_runs_bytes_le _ (wp_freqs _ _ _ Hwf)) as Hle.
  replace (zlen (tp_docids t.1)) with (zlen (tp_freqs t.1)) by (rewrite (wp_parallel _ _ _ Hwf); done).
  assert (f = pfor_runs_bytes (tp_freqs t.1)) as Hf by done. rewrite Hf in *.
  apply decode_freq_opened; [apply Hwf|done|]. apply open_raw; [done..|].
  rewrite (wp_parallel _ _ _ Hwf) in Hle. unfold kSlimDfThreshold, kMaxRegionUncompBytes in *. lia.
Qed.

Lemma inline_holds_freqs :
  zlen (tp_docids t.1) < kSlimDfThreshold →
  holds_freqs file idx (stored tier (inline_entry true hp t.1 t.2)) base pb (tp_docids t.1) (tp_freqs t.1).
Proof.
  intros Hdf. apply inline_freqs; [done|]. cbn [stored kind inline_entry]. rewrite Hstats.
  apply flat_freqs_decode; try done. cbn [set_inline freq_meta stored_region disk_len inline_entry DictEntry.frq_bytes inline_dd_disk_len DictEntry.freq_meta slim_freq_meta].
  unfold slim_frq. rewrite length_app. lia.
Qed.

Lemma slim_holds_freqs pre rest :
  zlen (tp_docids t.1) < kSlimDfThreshold →
  region = pre ++ px_bytes hp (whole_window t.1 t.2) ++ slim_frq true t.1 t.2 ++ rest → base ≤ zlen pre →
  holds_freqs file idx (stored tier (slim_entry true hp t.1 t.2 base (zlen pre))) base pb (tp_docids t.1) (tp_freqs t.1).
Proof.
  intros Hdf Hr Hb. set (px := px_bytes hp (whole_window t.1 t.2)) in *.
  assert (region = (pre ++ px) ++ slim_frq true t.1 t.2 ++ rest) as Hr' by (rewrite Hr; by rewrite <- !app_assoc).
  destruct (region_in file c0 region post Hfile _ _ _ Hr') as [Hin Hwin].
  apply slim_freqs with (off := zlen c0 + zlen (pre ++ px)) (len := zlen (slim_frq true t.1 t.2)); [done|done| |done|].
  - assert (zlen region ≤ zlen file ∧ zlen c0 + zlen region ≤ zlen file) as [? ?] by (rewrite Hfile, !length_app; lia).
    assert (zlen pre + zlen px + zlen (slim_frq true t.1 t.2) ≤ zlen region) by (rewrite Hr, !length_app; lia).
    unfold resolve_frq_window, resolve_window. rewrite Hpost.
    cbn [stored slim_entry kind enc set_pod_ref frq_off_delta frq_len prelude_len PerIndexMeta.length_ PerIndexMeta.offset]. fold px.
    rewrite length_app, Nat2Z.inj_add. replace (base + (zlen pre + zlen px - base)) with (zlen pre + zlen px) by lia.
    rewrite (u64_small (zlen pre + zlen px)) by ulia.
    rewrite bind_reject_false by (apply Z.ltb_ge; lia). rewrite bind_reject_false by (apply Z.ltb_ge; lia).
    rewrite bind_reject_false by (apply orb_false_iff; split; apply Z.ltb_ge; lia).
    rewrite !Z.add_0_r, !Z.sub_0_r. rewrite (u64_small (zlen c0 + _)) by ulia. by rewrite u64_small by ulia.
  - rewrite Hwin. cbn [stored kind enc slim_entry]. rewrite Hstats. apply flat_freqs_decode; try done.
    cbn [set_pod_ref freq_meta stored_region disk_len slim_entry DictEntry.freq_meta frq_len frq_docs_len]. unfold slim_frq. rewrite length_app. lia.
Qed.

Lemma windowed_holds_freqs ws pre rest :
  tiled (unit_of t.1) ws → tp_docids t.1 = all_docs ws → tp_freqs t.1 = all_freqs ws → wf_windows hp ws →
  region = pre ++ px_block hp ws ++ (prelude_bytes true hp norms ws ++ dd_blocks 0 ws ++ PostingWriter.fq_block true ws) ++ rest →
  base ≤ zlen pre →
  holds_freqs file idx (stored tier (windowed_entry true hp norms t.1 base (zlen pre) ws)) base pb (tp_docids t.1) (tp_freqs t.1).
Proof.
  intros Htl Hd Hf Hw Hr Hb.
  destruct (windowed_at file idx true hp norms tier (eq_sym Hstats) Hnorms c0 region post Hfile Hpost t base pb Hbase true ws pre rest
    ltac:(done) Htl Hd Hf Hw Hr Hb) as (Hat & Hlay & Hy).
  apply windowed_freqs with (prelude := built_reader (prelude_cols true hp norms ws)) (wds := map (window_part true) ws); [done|done| | |].
  - split; [exact Hat|]. split; [exact Hy|]. apply Forall2_same_length_lookup_2; [by rewrite Hlay, layout_length, length_map|].
    intros i m d Hm Hdi. apply list_lookup_fmap_Some in Hdi as (w & -> & Hwi). destruct (tiled_lookup _ _ _ _ Htl Hwi) as [Hl0 _].
    cbn [window_part fst]. rewrite (last_docs w) by lia. rewrite Hlay in Hm. f_equal. symmetry. by eapply layout_last_docid.
  - by rewrite Hd, map_map.
  - by rewrite Hf, map_map.
Qed.

(** An entry of an index with frequencies holds those of its term. *)
Lemma written_holds_freqs e :
  written true hp norms t.1 t.2 region base e → holds_freqs file idx (stored tier e) base pb (tp_docids t.1) (tp_freqs t.1).
Proof.
  intros [ws pre rest _ Htl Hd Hf _ Hw Hr Hb ->|pre rest Hdf Hr Hb ->|Hdf _ ->].
  - by apply (windowed_holds_freqs ws pre rest).
  - by apply (slim_holds_freqs pre rest).
  - by apply inline_holds_freqs.
Qed.
End Entries.
