(* ===== verification/IndexRoundtrip.v ===== *)
(** * IndexRoundtrip: a written index, read back.

    What the writer leaves of an index (IndexBuild), placed in a file, is what
    the readers of LogicalIndexReader, WindowedPosting and DocidPostingReader
    expect of one: the metadata opens, and every entry finds its documents,
    positions and frequencies. *)

From S2P Require Import Prelude Status Varint ByteIO Crc32c SectionFramer FormatConstants StatsBlock NormsPod.
From S2P Require Import TermKey SampledTermIndex DictBlockDirectory Zstd PforRuns FrqPod FrqPrelude DictEntry.
From S2P Require Import DictBlock PerIndexMeta FileIO SpillableByteBuffer Bsbf LogicalIndexReader.
From S2P Require Import WindowedPosting DocidPostingReader Queries PhraseQuery Conjunction TermPostings PostingWriter.
From S2P Require Import LogicalIndexWriter IndexBuild EntryRoundtrip PostingRoundtrip FreqRoundtrip.

#[local] Open Scope Z_scope.

(** ** The tier of the reader *)

(** The bytes of an entry depend on the tier through [tier_has_stats] alone. *)
Section Tiers.
Context (t1 t2 : IndexTier) (Htt : tier_has_stats t1 = tier_has_stats t2) (hp : bool).

Lemma entry_bytes_tier e prev : entry_bytes e prev t1 = entry_bytes e prev t2.
Proof.
  unfold entry_bytes, body_bytes, stats_bytes, inline_bytes, pod_ref_bytes, region_meta_bytes. by rewrite Htt.
Qed.

Lemma chain_bytes_tier prev es : chain_bytes t1 prev es = chain_bytes t2 prev es.
Proof. revert prev. induction es as [|e es IH]; intros prev; cbn [chain_bytes]; [done|]. by rewrite entry_bytes_tier, IH. Qed.

Lemma covered_bytes_tier fb pb k es : covered_bytes t1 hp fb pb k es = covered_bytes t2 hp fb pb k es.
Proof.
  unfold covered_bytes, table_bytes, offsets, entries_bytes.
  assert (∀ segs, map (seg_bytes t1) segs = map (seg_bytes t2) segs) as Hm.
  { intros segs. apply map_ext. intros s. apply chain_bytes_tier. }
  assert (∀ segs start, seg_offsets t1 start segs = seg_offsets t2 start segs) as Ho.
  { induction segs as [|s segs IH]; intros start; cbn [seg_offsets]; [done|]. unfold seg_bytes. by rewrite chain_bytes_tier, IH. }
  by rewrite Hm, Ho.
Qed.

Lemma ib_bytes_tier b : ib_bytes t1 hp b = ib_bytes t2 hp b.
Proof. unfold ib_bytes, block_bytes. by rewrite covered_bytes_tier. Qed.

Lemma wf_index_block_tier b : wf_index_block t1 hp b → wf_index_block t2 hp b.
Proof.
  unfold wf_index_block, wf_block. rewrite covered_bytes_tier. unfold wf_entry. rewrite Htt. done.
Qed.

Lemma flushed_from_tier `{ZstdOps} off fs : flushed_from t1 hp off fs → flushed_from t2 hp off fs.
Proof.
  revert off. induction fs as [|f fs IH]; intros off; [done|]. intros [[] Hfs]. split; [|by apply IH].
  rewrite ib_bytes_tier in *. split; rewrite <- ?ib_bytes_tier; try done; rewrite ?ib_bytes_tier; try done.
  by apply wf_index_block_tier.
Qed.
End Tiers.

Lemma section_bytes_le t p : zlen (section_bytes t p) ≤ zlen p + 15.
Proof.
  unfold section_bytes, framed_bytes. pose proof (encode_varint64_length_le (zlen p)).
  rewrite !length_app, fixed32_length. cbn [length]. lia.
Qed.

(** ** The index in a file *)

(** The term added under a name, its documents and its postings. *)
Definition term_named (ts : list Term) (term : bytes) : option Term := List.find (λ t, bool_decide (tp_term t.1 = term)) ts.
Definition docs_of (ts : list Term) (term : bytes) : list Z :=
  match term_named ts term with Some t => tp_docids t.1 | None => [] end.
Definition postings_of (ts : list Term) (term : bytes) : list (Z * list Z) :=
  match term_named ts term with Some t => zip (tp_docids t.1) t.2 | None => [] end.

Lemma term_named_elem (ts : list Term) t :
  StronglySorted term_lt (map (λ t, tp_term t.1) ts) → t ∈ ts → term_named ts (tp_term t.1) = Some t.
Proof.
  intros Hs Ht. unfold term_named. induction ts as [|u ts IH]; [by apply elem_of_nil in Ht|]. cbn [map List.find] in *.
  apply StronglySorted_inv in Hs as [Hs Hu]. apply elem_of_cons in Ht as [->|Ht]; [by rewrite bool_decide_true|].
  rewrite bool_decide_false; [by apply IH|]. intros Heq. rewrite Forall_forall in Hu.
  specialize (Hu (tp_term t.1)). rewrite Heq in Hu. apply (irreflexivity term_lt (tp_term t.1)), Hu.
  apply list_elem_of_fmap. by exists t.
Qed.

Lemma term_named_Some ts term t : term_named ts term = Some t → t ∈ ts ∧ tp_term t.1 = term.
Proof. intros [Hu Hb]%List.find_some. apply bool_decide_eq_true in Hb. split; [by apply list_elem_of_In|done]. Qed.

Lemma term_named_None ts term : term ∉ map (λ t : Term, tp_term t.1) ts → term_named ts term = None.
Proof.
  intros Ht. destruct (term_named ts term) as [u|] eqn:Hf; [|done]. apply term_named_Some in Hf as [Hu <-].
  destruct Ht. apply list_elem_of_fmap. by exists u.
Qed.

Lemma docs_of_elem (ts : list Term) t :
  StronglySorted term_lt (map (λ t, tp_term t.1) ts) → t ∈ ts → docs_of ts (tp_term t.1) = tp_docids t.1.
Proof. intros Hs Ht. unfold docs_of. by rewrite term_named_elem. Qed.

Lemma filter_built_cases `{BsbfEnv} (ts : list Term) section :
  filter_built ts section → section = [] ∨
  ∃ bf, represents bf (map (λ t, bsbf_hash (tp_term t.1)) ts) ∧ section = Bsbf.header_bytes bf ++ words_bytes (words_ bf).
Proof. destruct ts as [|t ts]; intros Hf; [by left|by right]. Qed.

(** Norms where the reader looks for them. *)
Definition norms_at (file : bytes) (refs : SectionRefs) (ns : list Z) : Prop :=
  let r := norms refs in
  in_file file (PerIndexMeta.offset r) (PerIndexMeta.length_ r) ∧ 0 < PerIndexMeta.length_ r ∧
  NormsPodReader.open (FileIO.window file (PerIndexMeta.offset r) (PerIndexMeta.length_ r)) = Ok (NormsPodReader.mk ns (zlen ns)).

Section Image.
Context `{ZstdOps} `{BsbfEnvLaws} {T : Type} `{TempFileLaws T}.
Context (wr : LogicalIndexWriter) (ts : list Term) (region : bytes) (fs : list Flushed) (bi : BuiltIndex (T := T)).
Context (Hbuilt : built wr ts region fs bi).
Abbreviation hp := (w_has_prx_ wr).
Abbreviation disk := (concat (map fl_data fs)).
Abbreviation blocks := (map fl_block fs).

(** Where the container put the sections of the index. *)
Record placed_in (file : bytes) (refs : SectionRefs) : Prop := {
  pl_posting : ∃ pre post, file = pre ++ region ++ post ∧ posting_region refs = mkRegionRef (zlen pre) (zlen region);
  pl_dict : ∃ pre post, file = pre ++ disk ++ post ∧ dict_region refs = mkRegionRef (zlen pre) (zlen disk);
  pl_norms : ∃ pre post, file = pre ++ norms_section_ bi ++ post ∧
    (norms refs = no_region ∧ norms_section_ bi = [] ∨ norms refs = mkRegionRef (zlen pre) (zlen (norms_section_ bi)));
  pl_bitmap : null_bitmap refs = no_region;
  pl_filter : ∃ pre post, file = pre ++ bsbf_bytes_ bi ++ post ∧
    (bsbf refs = no_region ∧ bsbf_bytes_ bi = [] ∨ bsbf refs = mkRegionRef (zlen pre) (zlen (bsbf_bytes_ bi)));
  pl_size : zlen file < 2 ^ 63
}.

Definition index_flags : Z :=
  let flags := if has_bsbf bi then kHasBsbf else 0 in
  if hp then Z.lor flags PerIndexMeta.kHasPositions else flags.

Definition index_image (refs : SectionRefs) : IndexImage :=
  mkIndexImage (index_id_ wr) (index_suffix_ wr) index_flags (bi_stats bi) refs blocks
    (map (block_ref (PerIndexMeta.offset (dict_region refs))) (bi_blocks bi)).

Lemma add_refs_all refs acc : fold_left (flip DictBlockDirectory.add) refs acc = acc ++ refs.
Proof.
  revert acc. induction refs as [|r refs IH]; intros acc; cbn [fold_left]; [by rewrite app_nil_r|].
  rewrite IH. unfold flip, DictBlockDirectory.add. by rewrite <- app_assoc.
Qed.

Lemma records_first_terms off : flushed_from (w_tier_ wr) hp off fs → map rec_first_term (map fl_record fs) = first_terms blocks.
Proof.
  clear Hbuilt. revert off. induction fs as [|f l IH]; intros off; [done|]. intros [Hf Hl]. unfold first_terms in *. cbn [map].
  rewrite (IH _ Hl), (fa_first _ _ _ _ Hf). done.
Qed.

Lemma finish_meta_image refs :
  finish_meta wr bi refs (PerIndexMeta.offset (dict_region refs)) [] = image_meta (index_image refs).
Proof.
  pose proof (bt_flushed _ _ _ _ _ Hbuilt) as Hfl. unfold finish_meta, image_meta, index_image.
  cbn [im_index_id im_index_suffix im_flags im_stats im_refs im_blocks im_block_refs]. fold index_flags.
  rewrite (bt_records _ _ _ _ _ Hbuilt), (records_first_terms _ Hfl), add_refs_all. done.
Qed.

(** *** The dictionary *)

Lemma index_entries_flushed : index_entries blocks = map snd (flushed_entries fs).
Proof.
  unfold index_entries, flushed_entries, based. clear Hbuilt. induction fs as [|f l IH]; [done|]. cbn [map concat].
  rewrite map_app, IH. f_equal. rewrite map_map. cbn [snd]. by rewrite map_id.
Qed.

Lemma index_terms_written : index_terms blocks = map (λ t, tp_term t.1) ts.
Proof.
  unfold index_terms. rewrite index_entries_flushed. pose proof (bt_entries _ _ _ _ _ Hbuilt) as He. clear -He.
  induction He as [|t be ts bes Hw He IH]; [done|]. cbn [map]. rewrite IH. f_equal. by eapply written_term.
Qed.

Context (Hterms : StronglySorted term_lt (map (λ t, tp_term t.1) ts)) (Hcount : zlen ts < 2 ^ 32).

Lemma entries_sorted : StronglySorted entry_lt (index_entries blocks).
Proof.
  rewrite <- index_terms_written in Hterms. unfold index_terms in Hterms. revert Hterms. clear. generalize (index_entries blocks).
  intros es. induction es as [|e es IH]; cbn [map]; intros Hs; [constructor|].
  apply StronglySorted_inv in Hs as [Hs He]. constructor; [by apply IH|].
  by apply (Forall_map term (term_lt (term e))) in He.
Qed.

Lemma blocks_count : zlen fs ≤ zlen ts.
Proof.
  pose proof (flushed_count _ _ _ _ (bt_flushed _ _ _ _ _ Hbuilt)). pose proof (Forall2_length _ _ _ (bt_entries _ _ _ _ _ Hbuilt)). lia.
Qed.

Lemma flushed_wf t off : flushed_from t hp off fs → Forall (wf_index_block t hp) blocks.
Proof.
  clear. revert off. induction fs as [|f l IH]; intros off; [constructor|]. intros [Hf Hl]. constructor; [apply Hf|by eapply IH].
Qed.

Context (rt : IndexTier) (Htier : tier_has_stats (w_tier_ wr) = tier_has_stats rt).

Lemma flushed_reader : flushed_from rt hp 0 fs.
Proof. eapply flushed_from_tier; [exact Htier|]. apply Hbuilt. Qed.

Lemma dictionary_wf : wf_dictionary rt hp blocks.
Proof.
  split; [|split; [exact entries_sorted|]].
  - eapply flushed_wf, flushed_reader.
  - pose proof blocks_count. rewrite length_map. ulia.
Qed.
(** *** The references and their blocks *)

Lemma block_refs_at file D off l pre post :
  flushed_from rt hp off l → file = pre ++ concat (map fl_data l) ++ post → zlen pre = D + off → 0 ≤ D → 0 ≤ off →
  zlen file < 2 ^ 63 →
  Forall2 (block_at_ref rt hp file) (map fl_block l) (map (block_ref D) (map fl_record l)) ∧
  Forall wf_block_ref (map (block_ref D) (map fl_record l)).
Proof.
  clear. revert off pre. induction l as [|f l IH]; intros off pre Hfl Hfile Hpre HD Ho Hsz; [by split; constructor|].
  destruct Hfl as [Hf Hfl]. cbn [map concat] in *. rewrite <- app_assoc in Hfile.
  destruct (IH (off + zlen (fl_data f)) (pre ++ fl_data f) Hfl) as [IH1 IH2]; try done; try lia.
  { by rewrite <- app_assoc. } { rewrite length_app. lia. }
  destruct Hf as [Hblk Hcap Hoff Hlen Hsize Hent Hck Hfirst Hdata]. pose proof Hblk as [Hwf _].
  assert (zlen pre + zlen (fl_data f) ≤ zlen file) as Hle by (rewrite Hfile, !length_app; lia).
  assert (is_bytes (ib_bytes rt hp (fl_block f))) as Hbytes.
  { unfold ib_bytes, block_bytes. apply Forall_app_2; [by apply covered_is_bytes|auto with snii]. }
  split; constructor; try done.
  - unfold block_at_ref, block_ref. cbn [DictBlockDirectory.offset DictBlockDirectory.length_ DictBlockDirectory.flags DictBlockDirectory.uncomp_len].
    rewrite Hoff, Hlen, u64_small by ulia. rewrite <- Hpre.
    assert (FileIO.window file (zlen pre) (zlen (fl_data f)) = fl_data f) as -> by (rewrite Hfile; by apply window_mid).
    split; [rewrite Hfile; by apply in_file_mid|].
    destruct Hdata as [(-> & _ & ->)|(-> & -> & Hz)]; [done|]. by change (Z.land DictBlockDirectory.kZstd DictBlockDirectory.kZstd =? 0) with false.
  - unfold wf_block_ref, block_ref. cbn [DictBlockDirectory.offset DictBlockDirectory.length_ DictBlockDirectory.flags
      DictBlockDirectory.uncomp_len DictBlockDirectory.n_entries DictBlockDirectory.checksum].
    pose proof (es_length_u32 _ _ _ _ _ _ Hwf) as Hn. destruct Hwf as (_ & _ & _ & _ & Hcov). unfold kMaxDictBlockUncompBytes in Hcap.
    pose proof (crc32c_range _ Hbytes). rewrite Hlen, Hent, Hck. split_and!; try (auto with snii; fail); try ulia; try done.
    + destruct Hdata as [(-> & _)|(-> & _)]; by vm_compute.
    + destruct Hdata as [(_ & -> & _)|(-> & _ & _)]; done.
Qed.

Lemma samples_bytes_le terms prev :
  Forall (λ t, zlen t ≤ 2 ^ 20) terms → zlen (samples_bytes terms prev) ≤ 2 ^ 21 * zlen terms.
Proof.
  intros Ht. revert prev. induction Ht as [|t terms' Ht Hts IH]; intros prev; cbn [samples_bytes length]; [cbn; lia|].
  rewrite length_app. pose proof (term_key_length_le t prev). specialize (IH t). lia.
Qed.

Lemma last_Forall {A} (P : A → Prop) (l : list A) d : Forall P l → P d → P (List.last l d).
Proof. intros Hl Hd. induction Hl as [|x l Hx Hl IH]; [done|]. cbn. by destruct l. Qed.

Lemma payload_bytes_le terms :
  Forall (λ t, zlen t ≤ 2 ^ 20) terms → zlen (payload_bytes terms) ≤ 2 ^ 21 * (zlen terms + 3).
Proof.
  intros Ht. unfold payload_bytes. pose proof (encode_varint64_length_le (u32 (zlen terms))).
  set (n := encode_varint64 (u32 (zlen terms))) in *. clearbody n. destruct terms as [|front terms]; [rewrite app_nil_r; cbn [length]; lia|].
  pose proof (samples_bytes_le (front :: terms) [] Ht).
  assert (zlen (List.last (front :: terms) front) ≤ 2 ^ 20).
  { apply last_Forall; [done|]. by apply Forall_cons in Ht as [? _]. }
  pose proof (term_key_length_le (List.last (front :: terms) front) []). pose proof (term_key_length_le front []).
  apply Forall_cons in Ht as [Hf _]. rewrite !length_app. lia.
Qed.

Lemma directory_payload_le refs : zlen (directory_payload refs) ≤ 10 + 64 * zlen refs.
Proof.
  unfold directory_payload. pose proof (encode_varint64_length_le (u32 (zlen refs))). rewrite length_app.
  assert (zlen (concat (map ref_bytes refs)) ≤ 64 * zlen refs); [|lia].
  induction refs as [|r refs IH]; cbn [map concat length]; [cbn; lia|]. rewrite length_app.
  assert (zlen (ref_bytes r) ≤ 64); [|specialize (IH ltac:(apply encode_varint64_length_le)); lia].
  pose proof (encode_varint64_length_le (DictBlockDirectory.offset r)). pose proof (encode_varint64_length_le (DictBlockDirectory.length_ r)).
  pose proof (encode_varint64_length_le (DictBlockDirectory.n_entries r)). pose proof (encode_varint64_length_le (DictBlockDirectory.uncomp_len r)).
  unfold ref_bytes. rewrite !length_app, fixed32_length. destruct (negb _); cbn [length]; lia.
Qed.

(** ** The written index is read back *)

Lemma filter_placed file refs :
  placed_in file refs → filter_at file (bsbf refs) (index_terms blocks).
Proof.
  intros [_ _ _ _ (pre & post & Hfile & Href) Hsz]. destruct Href as [[Hn He]|Href]; [apply filter_absent; by rewrite Hn|].
  destruct (filter_built_cases _ _ (bt_filter _ _ _ _ _ Hbuilt)) as [Hfb|(bf & Hrep & Hbytes)].
  { apply filter_absent. by rewrite Href, Hfb. }
  pose proof Hrep as [Hwf _].
  pose proof (filter_header_length bf). destruct Hwf as (Hnb & Hb & Hl & _).
  assert (zlen pre ≤ zlen file) by (rewrite Hfile, length_app; lia).
  apply (filter_section file (bsbf refs) _ bf (map (λ t, bsbf_hash (tp_term t.1)) ts) pre post); try done.
  - intros x. rewrite index_terms_written, !list_elem_of_fmap. intros (u & -> & Hu). by exists u.
  - by rewrite <- Hbytes.
  - by rewrite Href.
  - rewrite Href. cbn [PerIndexMeta.length_]. rewrite Hbytes, length_app, words_bytes_length. lia.
  - unfold kBsbfMaxBytes. lia.
Qed.

(** The names and counters the metadata has room for. *)
Record wf_writer : Prop := {
  ww_id : is_u64 (index_id_ wr);
  ww_suffix : is_bytes (index_suffix_ wr) ∧ zlen (index_suffix_ wr) ≤ kMaxSuffixLen;
  ww_docs_count : is_u64 (w_doc_count_ wr);
  ww_norms : is_bytes (encoded_norms_ wr)
}.

Context (Hwr : wf_writer) (Hwts : Forall (wf_input_term hp) ts).

Lemma total_freq_u64 l : is_u64 (total_freq l).
Proof.
  unfold total_freq. assert (is_u64 0) as Hz by (by vm_compute). revert Hz. generalize 0.
  induction l as [|x l IH]; intros s Hs; cbn [fold_left]; [done|]. apply IH. apply u64_range.
Qed.

Lemma first_terms_payload_le : zlen (payload_bytes (first_terms blocks)) ≤ 2 ^ 21 * (zlen ts + 3).
Proof.
  pose proof blocks_count. assert (zlen (first_terms blocks) = zlen fs) as Hn by (unfold first_terms; by rewrite !length_map).
  enough (zlen (payload_bytes (first_terms blocks)) ≤ 2 ^ 21 * (zlen (first_terms blocks) + 3)) by lia.
  apply payload_bytes_le, Forall_fmap, Forall_forall. intros b Hb. destruct dictionary_wf as (Hwf & _). rewrite Forall_forall in Hwf.
  destruct (Hwf _ Hb) as [_ Hne]. assert (first_term (ib_entries b) ∈ index_terms blocks) as Hin.
  { unfold index_terms, index_entries. rewrite list_elem_of_fmap. destruct (ib_entries b) as [|e es] eqn:He; [done|].
    exists e. split; [done|]. apply elem_of_concat_map. exists b. split; [done|]. rewrite He. left. }
  rewrite index_terms_written, list_elem_of_fmap in Hin. destruct Hin as (u & Hu & Hin). cbn. rewrite Hu.
  rewrite Forall_forall in Hwts. by apply (wi_term_len _ _ (Hwts _ Hin)).
Qed.

Lemma image_wf file refs : placed_in file refs → wf_refs refs → wf_image rt hp file (index_image refs).
Proof.
  intros Hp Hrefs. pose proof blocks_count as Hbc. pose proof dictionary_wf as Hdict. pose proof flushed_reader as Hfl.
  destruct (pl_dict _ _ Hp) as (pre & post & Hfile & Href). pose proof (pl_size _ _ Hp) as Hsz.
  unfold wf_image, index_image. cbn [im_index_id im_index_suffix im_flags im_stats im_refs im_blocks im_block_refs].
  rewrite (bt_records _ _ _ _ _ Hbuilt), Href. cbn [PerIndexMeta.offset].
  destruct (block_refs_at file (zlen pre) 0 fs pre post Hfl Hfile) as [Hat Hwb]; try lia.
  destruct Hwr as [Hid [Hsb Hsl] Hdc _]. split_and!; try done.
  - split_and!; try done. unfold index_flags. destruct (has_bsbf bi), hp; by vm_compute.
  - rewrite (bt_stats _ _ _ _ _ Hbuilt). unfold wf_stats_block. cbn. pose proof (total_freq_u64 ts). split_and!; try done; ulia.
  - pose proof first_terms_payload_le. unfold is_u64. lia.
  - pose proof (directory_payload_le (map (block_ref (zlen pre)) (map fl_record fs))) as Hle. rewrite !length_map in Hle. ulia.
  - by apply filter_placed.
Qed.

Lemma finish_meta_bytes file refs :
  placed_in file refs → wf_refs refs →
  let meta := finish_meta wr bi refs (PerIndexMeta.offset (dict_region refs)) [] in
  is_bytes meta ∧ zlen meta ≤ 2 ^ 22 * (zlen ts + 3) + 2 ^ 18.
Proof.
  intros Hp Hr meta. pose proof (image_wf file refs Hp Hr) as (Hh & Hsb & _ & Hd & _ & Hwb & _).
  pose proof first_terms_payload_le as Hfl. pose proof blocks_count as Hbc. subst meta. rewrite finish_meta_image.
  pose proof (first_terms_wf _ _ _ Hd) as Hft.
  unfold image_meta, index_image in *. cbn [im_index_id im_index_suffix im_flags im_stats im_refs im_blocks im_block_refs] in *.
  pose proof (directory_payload_le (map (block_ref (PerIndexMeta.offset (dict_region refs))) (bi_blocks bi))) as Hdl.
  rewrite length_map, (bt_records _ _ _ _ _ Hbuilt), length_map in Hdl.
  unfold PerIndexMeta.finish. cbn [b_index_id_ b_index_suffix_ b_flags_ b_stats_ b_sampled_term_index_ b_dict_block_directory_
    b_section_refs_ b_extra_sections_ PerIndexMeta.new_builder set_stats set_sampled_term_index set_dict_block_directory
    set_section_refs put_each fold_left].
  rewrite encode_header_app, encode_section_refs_app, encode_stats_block_app, !put_bytes_app by done.
  rewrite sti_finish_app, dbd_finish_app. unfold directory_bytes. cbn [app].
  destruct Hh as (_ & Hb & Hl & _). unfold kMaxSuffixLen in Hl. split.
  - rewrite !Forall_app. split_and!; auto with snii.
    + unfold head_bytes. auto 10 with snii.
    + apply section_bytes_is_bytes; [by vm_compute|apply stats_payload_bytes].
    + apply section_bytes_is_bytes; [by vm_compute|by apply payload_bytes_is_bytes].
    + apply section_bytes_is_bytes; [by vm_compute|by apply dbd_directory_payload_bytes].
    + apply section_bytes_is_bytes; [by vm_compute|apply refs_payload_bytes].
  - assert (zlen (stats_payload (bi_stats bi)) ≤ 50) as Hsl.
    { unfold stats_payload. pose proof encode_varint64_length_le as Hv. rewrite !length_app.
      pose proof (Hv (StatsBlock.doc_count (bi_stats bi))). pose proof (Hv (indexed_doc_count (bi_stats bi))).
      pose proof (Hv (term_count (bi_stats bi))). pose proof (Hv (sum_total_term_freq (bi_stats bi))).
      pose proof (Hv (null_count (bi_stats bi))). lia. }
    assert (zlen (refs_payload refs) ≤ 100) as Hrl.
    { assert (∀ r, zlen (PerIndexMeta.region_bytes r) ≤ 20) as Hg.
      { intros r. unfold PerIndexMeta.region_bytes. pose proof (encode_varint64_length_le (PerIndexMeta.offset r)).
        pose proof (encode_varint64_length_le (PerIndexMeta.length_ r)). rewrite length_app. lia. }
      unfold refs_payload. pose proof (Hg (dict_region refs)). pose proof (Hg (posting_region refs)). pose proof (Hg (norms refs)).
      pose proof (Hg (null_bitmap refs)). pose proof (Hg (bsbf refs)). rewrite !length_app. lia. }
    unfold head_bytes. pose proof (encode_varint64_length_le (index_id_ wr)). pose proof (encode_varint64_length_le (zlen (index_suffix_ wr))).
    rewrite !length_app, !fixed32_length, fixed16_length. rewrite (bt_records _ _ _ _ _ Hbuilt) in *.
    pose proof (section_bytes_le (section_type_u8 kStatsBlock) (stats_payload (bi_stats bi))).
    pose proof (section_bytes_le (section_type_u8 kSampledTermIndex) (payload_bytes (first_terms blocks))).
    pose proof (section_bytes_le (section_type_u8 kDictBlockDirectory)
      (directory_payload (map (block_ref (PerIndexMeta.offset (dict_region refs))) (map fl_record fs)))).
    pose proof (section_bytes_le (section_type_u8 kSectionRefs) (refs_payload refs)). lia.
Qed.

Context (Hhf : has_freq_ wr = tier_has_stats (w_tier_ wr)).

Lemma docs_of_written t : t ∈ ts → docs_of ts (tp_term t.1) = tp_docids t.1.
Proof. intros Ht. by apply docs_of_elem. Qed.

(** Every hit is the entry of one of the terms. *)
Lemma hit_written h :
  h ∈ index_hits rt hp blocks →
  ∃ t e base pb, t ∈ ts ∧ written (has_freq_ wr) hp (encoded_norms_ wr) t.1 t.2 region base e ∧ 0 ≤ base ∧
    (hp = true → pb = base) ∧ hit_term h = tp_term t.1 ∧ resolved h = mkResolved (stored rt e) base pb.
Proof.
  intros Hh. unfold index_hits in Hh. apply elem_of_concat_map in Hh as (b & Hb & Hh).
  unfold block_hits in Hh. apply list_elem_of_fmap in Hh as (e & -> & He).
  destruct dictionary_wf as (Hwf & _). rewrite Forall_forall in Hwf. destruct (Hwf _ Hb) as [(_ & Hu & _) _].
  assert ((ib_frq_base b, e) ∈ flushed_entries fs) as Hin.
  { apply list_elem_of_fmap in Hb as (f & -> & Hf). unfold flushed_entries. apply elem_of_concat_map. exists f. split; [done|].
    unfold based. apply list_elem_of_fmap. by exists e. }
  apply list_elem_of_lookup in Hin as [i Hi]. destruct (Forall2_lookup_r _ _ _ _ _ (bt_entries _ _ _ _ _ Hbuilt) Hi) as (t & Ht & Hw).
  apply list_elem_of_lookup_2 in Ht. unfold writes in Hw. cbn [fst snd] in Hw.
  exists t, e, (ib_frq_base b), (if hp then ib_prx_base b else 0). split_and!; try done; [apply Hu| |].
  { intros ->. apply list_elem_of_fmap in Hb as (f & -> & Hf). destruct (flushed_at_elem _ _ _ _ _ (bt_flushed _ _ _ _ _ Hbuilt) Hf) as [off Hfa]. apply (fa_bases _ _ _ _ Hfa). }
  cbn [hit_of hit_term]. by eapply written_term.
Qed.

(** Its entries hold the postings they were written from. *)
Lemma index_holds np file idx refs h :
  placed_in file refs → section_refs idx = refs → h ∈ index_hits rt hp blocks →
  (np = true → hp = true ∧ tier_has_stats rt = true ∧ Forall (λ t, sparse t.2) ts) →
  ∃ cs, holds_postings np file idx (resolved h) cs ∧ concat cs = postings_of ts (hit_term h).
Proof.
  intros Hp Hrefs Hh Hnp. destruct (hit_written h Hh) as (t & e & base & pb & Ht & Hw & Hb & Hpb & -> & ->).
  unfold postings_of. rewrite (term_named_elem ts t Hterms Ht). rewrite Forall_forall in Hwts. pose proof (Hwts _ Ht) as Hwt.
  destruct (pl_posting _ _ Hp) as (pre & post & Hfile & Hpo). pose proof (pl_size _ _ Hp).
  apply (written_holds_postings np file idx (has_freq_ wr) hp (encoded_norms_ wr) rt) with (c0 := pre) (region := region) (post := post); try done.
  - by rewrite Hhf.
  - apply Hwr.
  - intros Hn. by destruct (Hnp Hn) as (? & ? & _).
  - by rewrite Hrefs.
  - intros Hn. destruct (Hnp Hn) as (_ & _ & Hs). rewrite Forall_forall in Hs. by apply Hs.
  - intros Hn. apply Hpb. by destruct (Hnp Hn).
Qed.

(** And the frequencies. *)
Lemma index_freqs file idx refs h :
  placed_in file refs → section_refs idx = refs → tier_has_stats rt = true → h ∈ index_hits rt hp blocks →
  ∃ t, t ∈ ts ∧ hit_term h = tp_term t.1 ∧ df (hit_entry h) = zlen (tp_docids t.1) ∧
    (enc (hit_entry h) = kWindowed → kSlimDfThreshold ≤ zlen (tp_docids t.1)) ∧
    holds_freqs file idx (hit_entry h) (hit_frq_base h) (hit_prx_base h) (tp_docids t.1) (tp_freqs t.1).
Proof.
  intros Hp Hrefs Hst Hh. destruct (hit_written h Hh) as (t & e & base & pb & Ht & Hw & Hb & _ & Hterm & Hres).
  injection Hres as He Hfb Hpb. rewrite He, Hfb, Hpb. exists t. split; [done|]. split; [done|].
  rewrite Forall_forall in Hwts. pose proof (Hwts _ Ht) as Hwt. destruct (pl_posting _ _ Hp) as (pre & post & Hfile & Hpo). pose proof (pl_size _ _ Hp).
  rewrite Hhf, Htier, Hst in Hw. split; [|split].
  - assert (df e = zlen (tp_docids t.1)) as Hdf.
    { transitivity (df_of t.1); [by destruct Hw; subst e|]. unfold df_of. apply u32_small.
      pose proof (wp_count _ _ _ (wi_postings _ _ Hwt)). unfold is_u32. lia. }
    rewrite <- Hdf. unfold stored. by destruct (kind e), (enc e).
  - assert (enc (stored rt e) = enc e) as -> by (unfold stored; destruct (kind e) eqn:Hk, (enc e) eqn:He2; done || by destruct Hw; subst e). 
    by destruct Hw; subst e.
  - apply (written_holds_freqs file idx hp (encoded_norms_ wr) rt Hst (ww_norms Hwr) pre region post Hfile); try done. by rewrite Hrefs.
Qed.

(** The norms, where there are any. *)
Lemma index_norms file refs :
  placed_in file refs → has_norms_ wr = true → zlen (encoded_norms_ wr) < 2 ^ 32 → norms_at file refs (encoded_norms_ wr).
Proof.
  intros Hp Hn Hlen. destruct (pl_norms _ _ Hp) as (pre & post & Hfile & Href). rewrite (bt_norms _ _ _ _ _ Hbuilt), Hn in *.
  unfold build_norms in *. rewrite norms_finish_app, norms_add_all in *. cbn [NormsPodWriter.norms_ NormsPodWriter.new app] in *.
  set (s := section_bytes _ _) in *. assert (0 < zlen s) as Hpos.
  { subst s. unfold section_bytes. rewrite !length_app, fixed32_length. lia. }
  unfold norms_at. destruct Href as [[_ Hs]| ->]; [rewrite Hs in Hpos; cbn in Hpos; lia|]. cbn [PerIndexMeta.offset PerIndexMeta.length_].
  split; [|split; [done|]].
  - rewrite Hfile. apply in_file_mid; done.
  - rewrite Hfile, window_mid by done. by apply norms_section_open; [apply Hwr|].
Qed.

Lemma postings_of_docs t : t ∈ ts → map fst (postings_of ts (tp_term t.1)) = tp_docids t.1.
Proof.
  intros Ht. unfold postings_of. rewrite (term_named_elem ts t Hterms Ht). apply fst_zip.
  rewrite Forall_forall in Hwts. rewrite (wp_pd _ _ _ (wi_postings _ _ (Hwts _ Ht))). done.
Qed.

Lemma index_answers env file r refs :
  serves file r → placed_in file refs → wf_refs refs →
  ∃ idx, LogicalIndexReader.open env r rt hp (finish_meta wr bi refs (PerIndexMeta.offset (dict_region refs)) []) = Ok idx ∧
    answers rt hp file idx blocks (docs_of ts) ∧
    (∀ np, (np = true → hp = true ∧ tier_has_stats rt = true ∧ Forall (λ t, sparse t.2) ts) →
      answers_postings np rt hp file idx blocks (postings_of ts)) ∧
    (tier_has_stats rt = true → ∀ h, h ∈ index_hits rt hp blocks →
      ∃ t, t ∈ ts ∧ hit_term h = tp_term t.1 ∧ df (hit_entry h) = zlen (tp_docids t.1) ∧
        (enc (hit_entry h) = kWindowed → kSlimDfThreshold ≤ zlen (tp_docids t.1)) ∧
        holds_freqs file idx (hit_entry h) (hit_frq_base h) (hit_prx_base h) (tp_docids t.1) (tp_freqs t.1)) ∧
    section_refs idx = refs ∧ stats idx = bi_stats bi.
Proof.
  intros Hs Hp Hr. rewrite finish_meta_image. pose proof (image_wf file refs Hp Hr) as Him.
  destruct (open_image rt hp env file r (index_image refs) Hs Him) as (idx & Ho & Hidx & Hrefs & Hst).
  cbn [index_image im_refs im_stats im_blocks] in *. exists idx. pose proof (pl_size _ _ Hp) as Hsz.
  split; [done|]. split; [|split; [|split; [|done]]].
  3: { intros Hts h Hh. by apply (index_freqs file idx refs). }
  - split; [done|lia|]. intros h Hh. destruct (hit_written h Hh) as (t & e & base & pb & Ht & Hw & Hb & _ & -> & ->).
    rewrite (docs_of_written t Ht). rewrite Forall_forall in Hwts. pose proof (Hwts _ Ht) as Hwt. split.
    2: { apply (wp_sorted _ _ _ (wi_postings _ _ Hwt)). }
    destruct (pl_posting _ _ Hp) as (pre & post & Hfile & Hpo).
    apply (written_holds file idx (has_freq_ wr) hp (encoded_norms_ wr) rt) with (c0 := pre) (region := region) (post := post); try done.
    + by rewrite Hhf.
    + apply Hwr.
    + by rewrite Hrefs.
  - intros np Hnp. split; [done|lia| |].
    + intros h Hh. by apply (index_holds np file idx refs).
    + intros term Hin. rewrite index_terms_written, list_elem_of_fmap in Hin. destruct Hin as (t & -> & Ht).
      rewrite (postings_of_docs t Ht). rewrite Forall_forall in Hwts. apply (wp_sorted _ _ _ (wi_postings _ _ (Hwts _ Ht))).
Qed.
End Image.
