(* ===== verification/CompoundWriter.v ===== *)
(** * CompoundWriter: a container of logical indexes.

    [writer/snii_compound_writer.h] and [writer/snii_compound_writer.cpp]. The
    object is the record [SniiCompoundWriter]; a call returns the object it
    leaves, and the object after a failed call is not modelled. The null check
    of [out_] has no counterpart, since the writer is a value here. *)

From S2P Require Import Prelude Status ByteIO Crc32c Zstd PerIndexMeta FileIO SpillableByteBuffer Bsbf.
From S2P Require Import LogicalIndexWriter.
From S2P Require BootstrapHeader TailPointer TailMetaRegion.

#[local] Open Scope Z_scope.

Record Placement := mkPlacement {
  dict_off : Z;
  dict_len : Z;
  post_off : Z;
  post_len : Z;
  norms_off : Z;
  norms_len : Z;
  bsbf_off : Z;
  bsbf_len : Z
}.

Section Compound.
Context `{ZstdOps} `{BsbfEnv} `{!BsbfFpp} {W : Type} `{FileWriter W} {T : Type} `{TempFile T}.

(** [*indexes_[i]]: the writer, after [build]. *)
Record IndexWriter := mkIndexWriter {
  iw_writer : LogicalIndexWriter;
  iw_built : BuiltIndex (T := T);
  iw_reporter : Reporter
}.

Record SniiCompoundWriter := mkSniiCompoundWriter {
  out_ : W;
  indexes_ : list IndexWriter;
  placements_ : list Placement;
  bootstrap_written_ : bool;
  finished_ : bool
}.

(** The constructor. *)
Definition new_compound (out : W) : SniiCompoundWriter := mkSniiCompoundWriter out [] [] false false.

(** [append]: nothing is written of an empty vector. *)
Definition append_bytes (bytes : bytes) (out : W) : result W :=
  match bytes with [] => Ok out | _ => append bytes out end.

Definition write_bootstrap (out : W) : result W :=
  let bh := BootstrapHeader.mkBootstrapHeader FormatConstants.kContainerMagic FormatConstants.kFormatVersion
              FormatConstants.kMinReaderVersion 0 0 (u8 TailPointer.tail_pointer_size) in
  sink ← BootstrapHeader.encode_bootstrap_header bh [];
  append_bytes sink out.

Definition ensure_bootstrap (w : SniiCompoundWriter) : result SniiCompoundWriter :=
  if bootstrap_written_ w then Ok w
  else
    out ← write_bootstrap (out_ w);
    Ok (mkSniiCompoundWriter out (indexes_ w) (placements_ w) true (finished_ w)).

Definition stream_dict_region_into (iw : IndexWriter) (out : W) : result W :=
  stream_into (bi_dict_buf (iw_built iw)) out.

Definition add_logical_index (i : SniiIndexInput) (w : SniiCompoundWriter) : result SniiCompoundWriter :=
  _ ← reject_if (finished_ w) (Internal "compound: add after finish");
  w ← ensure_bootstrap w;
  let liw := new_index_writer i in
  let post_off := bytes_written (out_ w) in
  '(out, reporter, bi) ← build_index (T := T) liw (out_ w);
  let post_len := u64 (bytes_written out - post_off) in
  let dict_off := bytes_written out in
  let iw := mkIndexWriter liw bi reporter in
  out ← stream_dict_region_into iw out;
  let dict_len := u64 (bytes_written out - dict_off) in
  Ok (mkSniiCompoundWriter out (indexes_ w ++ [iw])
        (placements_ w ++ [mkPlacement dict_off dict_len post_off post_len 0 0 0 0])
        (bootstrap_written_ w) (finished_ w)).

(** The two loops of [write_norms], over the indexes and their placements. *)
Definition place_norms (iw : IndexWriter) (p : Placement) (out : W) : result (W * Placement) :=
  let norms := norms_section_ (iw_built iw) in
  if negb (has_norms_ (iw_writer iw)) || match norms with [] => true | _ => false end then Ok (out, p)
  else
    let off := bytes_written out in
    out ← append_bytes norms out;
    Ok (out, mkPlacement (dict_off p) (dict_len p) (post_off p) (post_len p) off (u64 (bytes_written out - off))
               (bsbf_off p) (bsbf_len p)).

Definition place_bsbf (iw : IndexWriter) (p : Placement) (out : W) : result (W * Placement) :=
  if negb (has_bsbf (iw_built iw)) then Ok (out, p)
  else
    let off := bytes_written out in
    out ← append_bytes (bsbf_bytes_ (iw_built iw)) out;
    Ok (out, mkPlacement (dict_off p) (dict_len p) (post_off p) (post_len p) (norms_off p) (norms_len p)
               off (u64 (bytes_written out - off))).

(** [for (i = 0; i < indexes_.size(); ++i)] with [placements_[i]]. *)
Fixpoint place_each (f : IndexWriter → Placement → W → result (W * Placement)) (iws : list IndexWriter)
    (ps : list Placement) (out : W) : result (W * list Placement) :=
  match iws, ps with
  | [], _ => Ok (out, ps)
  | _ :: _, [] => Undef
  | iw :: iws, p :: ps =>
      '(out, p) ← f iw p out;
      '(out, ps) ← place_each f iws ps out;
      Ok (out, p :: ps)
  end.

Definition write_norms (w : SniiCompoundWriter) : result SniiCompoundWriter :=
  '(out, ps) ← place_each place_norms (indexes_ w) (placements_ w) (out_ w);
  '(out, ps) ← place_each place_bsbf (indexes_ w) ps out;
  Ok (mkSniiCompoundWriter out (indexes_ w) ps (bootstrap_written_ w) (finished_ w)).

Definition refs_of (p : Placement) : SectionRefs :=
  mkSectionRefs (mkRegionRef (dict_off p) (dict_len p)) (mkRegionRef (post_off p) (post_len p))
    (mkRegionRef (norms_off p) (norms_len p)) (mkRegionRef 0 0) (mkRegionRef (bsbf_off p) (bsbf_len p)).

(** The entries of the tail region, in the order they are added. *)
Fixpoint tail_entries (iws : list IndexWriter) (ps : list Placement) (region : list TailMetaRegion.Entry)
    : result (list TailMetaRegion.Entry) :=
  match iws, ps with
  | [], _ => Ok region
  | _ :: _, [] => Undef
  | iw :: iws, p :: ps =>
      let meta := finish_meta (iw_writer iw) (iw_built iw) (refs_of p) (dict_off p) [] in
      tail_entries iws ps
        (TailMetaRegion.add_index (index_id_ (iw_writer iw)) (index_suffix_ (iw_writer iw)) meta region)
  end.

Definition write_tail (w : SniiCompoundWriter) : result SniiCompoundWriter :=
  region ← tail_entries (indexes_ w) (placements_ w) [];
  let region_sink := TailMetaRegion.finish region [] in
  let region_off := bytes_written (out_ w) in
  out ← append_bytes region_sink (out_ w);
  let region_len := u64 (bytes_written out - region_off) in
  let tp := TailPointer.mkTailPointer region_off region_len 0 (crc32c region_sink) 0 in
  tail_sink ← TailPointer.encode_tail_pointer tp [];
  out ← append_bytes tail_sink out;
  Ok (mkSniiCompoundWriter out (indexes_ w) (placements_ w) (bootstrap_written_ w) (finished_ w)).

Definition finish (w : SniiCompoundWriter) : result SniiCompoundWriter :=
  _ ← reject_if (finished_ w) (Internal "compound: finish called twice");
  let w := mkSniiCompoundWriter (out_ w) (indexes_ w) (placements_ w) (bootstrap_written_ w) true in
  w ← ensure_bootstrap w;
  w ← write_norms w;
  w ← write_tail w;
  out ← finalize (out_ w);
  Ok (mkSniiCompoundWriter out (indexes_ w) (placements_ w) (bootstrap_written_ w) (finished_ w)).
End Compound.
