(* ===== verification/SegmentReader.v ===== *)
(** * SegmentReader: opening a container and its indexes.

    [reader/snii_segment_reader.h] and [reader/snii_segment_reader.cpp]. The
    null checks have no counterpart; [meta_region_] is the vector the region
    reader's slices point into, and is part of [region_reader_] here. *)

From S2P Require Import Prelude Status ByteIO Crc32c FormatConstants PerIndexMeta FileIO Bsbf LogicalIndexReader.
From S2P Require BootstrapHeader TailPointer TailMetaRegion.

#[local] Open Scope Z_scope.

Record SniiSegmentReader := mkSniiSegmentReader {
  seg_reader_ : FileReader;
  region_reader_ : TailMetaRegion.TailMetaRegionReader
}.

Definition ReadBootstrap (reader : FileReader) : result BootstrapHeader.BootstrapHeader :=
  buf ← read_at reader 0 BootstrapHeader.kBootstrapHeaderSize;
  BootstrapHeader.decode_bootstrap_header buf.

Definition ReadTailPointer (reader : FileReader) : result TailPointer.TailPointer :=
  let tp_size := TailPointer.tail_pointer_size in
  let total := FileIO.size reader in
  _ ← reject_if (total <? tp_size) (Corruption "segment: file smaller than tail pointer");
  buf ← read_at reader (total - tp_size) tp_size;
  let '(st, tp) := TailPointer.decode_tail_pointer buf TailPointer.default_tail_pointer in
  _ ← st;
  Ok tp.

Definition open (reader : FileReader) : result SniiSegmentReader :=
  _ ← ReadBootstrap reader;
  tp ← ReadTailPointer reader;
  _ ← reject_if (TailPointer.meta_region_length tp =? 0) (Corruption "segment: empty tail meta region");
  meta_region ← read_at reader (TailPointer.meta_region_offset tp) (TailPointer.meta_region_length tp);
  _ ← reject_if (negb (crc32c meta_region =? TailPointer.meta_region_checksum tp))
        (Corruption "segment: meta region checksum mismatch");
  region_reader ← TailMetaRegion.open meta_region;
  Ok (mkSniiSegmentReader reader region_reader).

Definition n_logical_indexes (s : SniiSegmentReader) : Z := TailMetaRegion.n_logical_indexes (region_reader_ s).

Definition open_index `{BsbfEnv} (env : option bytes) (s : SniiSegmentReader) (index_id : Z) (suffix : bytes)
    : result LogicalIndexReader :=
  found ← TailMetaRegion.find (region_reader_ s) index_id suffix;
  match found with
  | None => Err (NotFound "segment: logical index not found")
  | Some meta_bytes =>
      meta ← PerIndexMeta.open meta_bytes;
      let has_norms := 0 <? length_ (norms (section_refs_ meta)) in
      let has_positions := PerIndexMeta.has_positions meta || has_norms in
      let tier := if has_norms then kT3 else if has_positions then kT2 else kT1 in
      LogicalIndexReader.open env (seg_reader_ s) tier has_positions meta_bytes
  end.
