(* ===== verification/ContainerRoundtrip.v ===== *)
(** * ContainerRoundtrip: a written container, read back.

    Any number of indexes added to a container (CompoundWriter) and finished;
    the reader (SegmentReader) over the bytes finds each of them, and the index
    it opens answers for the terms that were added. *)

From S2P Require Import Prelude Status Varint ByteIO Crc32c SectionFramer FormatConstants StatsBlock NormsPod.
From S2P Require Import TermKey SampledTermIndex DictBlockDirectory Zstd PerIndexMeta FileIO.
From S2P Require Import SpillableByteBuffer Bsbf BatchRangeFetcher LogicalIndexReader Queries PhraseQuery Conjunction TermPostings.
From S2P Require Import LogicalIndexWriter IndexBuild PostingRoundtrip IndexRoundtrip CompoundWriter SegmentReader.
From S2P Require BootstrapHeader TailPointer LogicalIndexDirectory TailMetaRegion DictEntry WindowedPosting.

#[local] Open Scope Z_scope.

(** ** Sections of a file *)

Definition located (file : bytes) (off len : Z) (section : bytes) : Prop :=
  ∃ pre post, file = pre ++ section ++ post ∧ off = zlen pre ∧ len = zlen section.

Lemma located_app file off len s more : located file off len s → located (file ++ more) off len s.
Proof. intros (pre & post & -> & Ho & Hl). exists pre, (post ++ more). split; [by rewrite <- !app_assoc|done]. Qed.

Lemma located_last pre s : located (pre ++ s) (zlen pre) (zlen s) s.
Proof. exists pre, []. by rewrite app_nil_r. Qed.

(** ** What is added *)

(** What an index read back has of the terms it was written from. *)
Record reads_as `{ZstdOps} `{BsbfEnv} (file : bytes) (i : SniiIndexInput) (ts : list Term) (idx : LogicalIndexReader)
    (tier : IndexTier) (blocks : list IndexBlock) : Prop := {
  rb_terms : index_terms blocks = map (λ t, tp_term t.1) ts;
  rb_stats : stats idx = mkStatsBlock (in_doc_count i) (in_doc_count i) (zlen ts) (total_freq ts) 0;
  rb_answers : answers tier (FormatConstants.has_positions (in_config i)) file idx blocks (docs_of ts);
  rb_postings np : (np = true → FormatConstants.has_positions (in_config i) = true ∧ Forall (λ t, sparse t.2) ts) →
    answers_postings np tier (FormatConstants.has_positions (in_config i)) file idx blocks (postings_of ts);
  rb_freqs h : DictEntry.tier_has_stats tier = true → h ∈ index_hits tier (FormatConstants.has_positions (in_config i)) blocks →
    ∃ t, t ∈ ts ∧ hit_term h = tp_term t.1 ∧ DictEntry.df (hit_entry h) = zlen (tp_docids t.1) ∧
      (DictEntry.enc (hit_entry h) = kWindowed → kSlimDfThreshold ≤ zlen (tp_docids t.1)) ∧
      WindowedPosting.holds_freqs file idx (hit_entry h) (hit_frq_base h) (hit_prx_base h) (tp_docids t.1) (tp_freqs t.1);
  rb_scoring : has_scoring (in_config i) = true → in_doc_count i < 2 ^ 32 →
    DictEntry.tier_has_stats tier = true ∧ norms_at file (section_refs idx) (in_encoded_norms i) ∧ zlen (in_encoded_norms i) = in_doc_count i
}.

Definition reads_back `{ZstdOps} `{BsbfEnv} (file : bytes) (i : SniiIndexInput) (ts : list Term) (idx : LogicalIndexReader) : Prop :=
  ∃ tier blocks, reads_as file i ts idx tier blocks.

Lemma docs_of_absent ts t : t ∉ map (λ t : Term, tp_term t.1) ts → docs_of ts t = [].
Proof. intros Ht. unfold docs_of. by rewrite term_named_None. Qed.

Lemma reads_back_term `{ZstdOps} `{BsbfEnv} `{SortLaws} file i ts idx t : reads_back file i ts idx → term_query idx t = Ok (docs_of ts t).
Proof.
  intros (tier & blocks & [Hterms _ Hans _ _ _]). rewrite (term_query_answers _ _ _ _ _ _ t Hans), Hterms.
  destruct (decide _) as [|Hout]; [done|]. by rewrite docs_of_absent.
Qed.

Section Container.
Context `{ZstdLaws} `{BsbfEnvLaws} `{!BsbfFpp} {W : Type} `{FileWriterLaws W} {T : Type} `{TempFileLaws T}.
Context (Hfpp : fpp_in_range kBsbfFpp = true).

(** An index as its producer hands it over, with its terms. *)
Record wf_index_input (i : SniiIndexInput) (ts : list Term) : Prop := {
  ii_writer : wf_writer (new_index_writer i);
  ii_supplies : supplies (new_index_writer i) ts;
  ii_terms : Forall (wf_input_term (w_has_prx_ (new_index_writer i))) ts;
  ii_sorted : StronglySorted term_lt (map (λ t, tp_term t.1) ts);
  ii_count : zlen ts < 2 ^ 32;
  ii_target : target_dict_block_bytes_ (new_index_writer i) ≤ 2 ^ 25;
  ii_norms : has_norms_ (new_index_writer i) = true → zlen (in_encoded_norms i) = in_doc_count i
}.

(** The room an index takes, its metadata included. *)
Definition index_cost (i : SniiIndexInput) (ts : list Term) : Z :=
  400 * volumes ts + 2 ^ 32 * (zlen ts + 1) + zlen (in_encoded_norms i).

(** An index after [add_logical_index]: its input and terms, and what [build] left. *)
Record Added := mkAdded {
  ad_input : SniiIndexInput;
  ad_terms : list Term;
  ad_region : bytes;
  ad_flushed : list Flushed;
  ad_iw : IndexWriter (T := T)
}.

Abbreviation disk a := (concat (map fl_data (ad_flushed a))).

Record added_ok (a : Added) : Prop := {
  ao_input : wf_index_input (ad_input a) (ad_terms a);
  ao_writer : iw_writer (ad_iw a) = new_index_writer (ad_input a);
  ao_built : built (iw_writer (ad_iw a)) (ad_terms a) (ad_region a) (ad_flushed a) (iw_built (ad_iw a))
}.

Definition at_streams (file : bytes) (a : Added) (p : Placement) : Prop :=
  located file (post_off p) (post_len p) (ad_region a) ∧ located file (dict_off p) (dict_len p) (disk a).
Definition at_norms (file : bytes) (a : Added) (p : Placement) : Prop :=
  norms_off p = 0 ∧ norms_len p = 0 ∧ norms_section_ (iw_built (ad_iw a)) = [] ∨
  located file (norms_off p) (norms_len p) (norms_section_ (iw_built (ad_iw a))).
Definition at_bsbf (file : bytes) (a : Added) (p : Placement) : Prop :=
  bsbf_off p = 0 ∧ bsbf_len p = 0 ∧ bsbf_bytes_ (iw_built (ad_iw a)) = [] ∨
  located file (bsbf_off p) (bsbf_len p) (bsbf_bytes_ (iw_built (ad_iw a))).

(** The stages of a placement: after the build, with the norms, with the filter. *)
Definition placed_0 (file : bytes) (a : Added) (p : Placement) : Prop :=
  added_ok a ∧ at_streams file a p ∧ norms_off p = 0 ∧ norms_len p = 0 ∧ bsbf_off p = 0 ∧ bsbf_len p = 0.
Definition placed_1 (file : bytes) (a : Added) (p : Placement) : Prop :=
  added_ok a ∧ at_streams file a p ∧ at_norms file a p ∧ bsbf_off p = 0 ∧ bsbf_len p = 0.
Definition placed_2 (file : bytes) (a : Added) (p : Placement) : Prop :=
  added_ok a ∧ at_streams file a p ∧ at_norms file a p ∧ at_bsbf file a p.

Lemma at_streams_app file a p more : at_streams file a p → at_streams (file ++ more) a p.
Proof. intros []. split; by apply located_app. Qed.
Lemma at_norms_app file a p more : at_norms file a p → at_norms (file ++ more) a p.
Proof. intros [?|?]; [by left|right; by apply located_app]. Qed.
Lemma at_bsbf_app file a p more : at_bsbf file a p → at_bsbf (file ++ more) a p.
Proof. intros [?|?]; [by left|right; by apply located_app]. Qed.
Lemma placed_0_app file a p more : placed_0 file a p → placed_0 (file ++ more) a p.
Proof. intros (? & ? & ?). split; [done|split; [by apply at_streams_app|done]]. Qed.
Lemma placed_1_app file a p more : placed_1 file a p → placed_1 (file ++ more) a p.
Proof. intros (? & ? & ? & ?). split; [done|]. split; [by apply at_streams_app|]. split; [by apply at_norms_app|done]. Qed.
Lemma placed_2_app file a p more : placed_2 file a p → placed_2 (file ++ more) a p.
Proof. intros (? & ? & ? & ?). split; [done|]. split; [by apply at_streams_app|]. split; [by apply at_norms_app|by apply at_bsbf_app]. Qed.

Lemma Forall2_placed_app (P : bytes → Added → Placement → Prop) file more adds ps :
  (∀ a p, P file a p → P (file ++ more) a p) → Forall2 (P file) adds ps → Forall2 (P (file ++ more)) adds ps.
Proof. intros Hp Hf. eapply Forall2_impl; [exact Hf|exact Hp]. Qed.

Lemma append_bytes_spec d (out : W) :
  writable out → ∃ out', append_bytes d out = Ok out' ∧ writable out' ∧ contents out' = contents out ++ d.
Proof.
  intros Ho. destruct d as [|x d]; [exists out; by rewrite app_nil_r|]. by apply append_writable.
Qed.

Lemma bytes_written_eq (out : W) : writable out → zlen (contents out) < 2 ^ 64 → bytes_written out = zlen (contents out).
Proof. intros Ho Hn. rewrite bytes_written_contents by done. apply u64_small. ulia. Qed.

(** *** Adding an index *)

Definition bootstrap : BootstrapHeader.BootstrapHeader :=
  BootstrapHeader.mkBootstrapHeader kContainerMagic kFormatVersion kMinReaderVersion 0 0 (u8 TailPointer.tail_pointer_size).
Definition bootstrap_bytes : bytes := BootstrapHeader.bootstrap_header_bytes bootstrap.

Lemma bootstrap_wf : BootstrapHeader.wf_bootstrap_header bootstrap.
Proof. by vm_compute. Qed.

Lemma bootstrap_length : zlen bootstrap_bytes = 21.
Proof. by vm_compute. Qed.

Definition costs (adds : list Added) : Z := foldr (λ a n, index_cost (ad_input a) (ad_terms a) + n) 0 adds.

Lemma costs_app l r : costs (l ++ r) = costs l + costs r.
Proof. unfold costs. induction l as [|a l IH]; cbn [app foldr]; [done|]. rewrite IH. lia. Qed.

(** The container after the indexes [adds]. *)
Record container (adds : list Added) (w : SniiCompoundWriter (W := W) (T := T)) : Prop := {
  ct_writable : writable (out_ w);
  ct_start : if bootstrap_written_ w then ∃ rest, contents (out_ w) = bootstrap_bytes ++ rest
    else contents (out_ w) = [] ∧ adds = [];
  ct_size : zlen (contents (out_ w)) ≤ 21 + costs adds;
  ct_indexes : indexes_ w = map ad_iw adds;
  ct_placed : Forall2 (placed_0 (contents (out_ w))) adds (placements_ w);
  ct_open : finished_ w = false
}.

Lemma ensure_bootstrap_spec adds w :
  container adds w → ∃ w', ensure_bootstrap w = Ok w' ∧ container adds w' ∧ bootstrap_written_ w' = true.
Proof.
  intros Hct. pose proof Hct as [Ho Hs Hn Hi Hp Hf]. unfold ensure_bootstrap. destruct (bootstrap_written_ w) eqn:Hb; [by exists w|].
  destruct Hs as [Hc ->]. unfold write_bootstrap. fold bootstrap.
  rewrite BootstrapHeader.encode_bootstrap_header_app, bind_Ok by exact bootstrap_wf. fold bootstrap_bytes. cbn [app].
  destruct (append_bytes_spec bootstrap_bytes (out_ w) Ho) as (out & -> & Hw & Hc'). rewrite bind_Ok. eexists. split; [done|].
  rewrite Hc in Hc'. cbn [app] in Hc'. split; [|done].
  split; cbn [out_ bootstrap_written_ indexes_ placements_ finished_]; rewrite ?Hc'; try done.
  - exists []. by rewrite app_nil_r.
  - apply Forall2_nil_inv_l in Hp. rewrite Hp. constructor.
Qed.

Lemma index_cost_pos i ts : 0 ≤ index_cost i ts.
Proof. unfold index_cost. pose proof (volumes_pos ts). lia. Qed.

Lemma costs_pos adds : 0 ≤ costs adds.
Proof.
  unfold costs. induction adds as [|a adds IH]; cbn [foldr]; [done|]. pose proof (index_cost_pos (ad_input a) (ad_terms a)). lia.
Qed.

Lemma add_logical_index_spec adds i ts w :
  container adds w → wf_index_input i ts → costs adds + index_cost i ts < 2 ^ 62 →
  ∃ w' a, add_logical_index i w = Ok w' ∧ ad_input a = i ∧ ad_terms a = ts ∧ container (adds ++ [a]) w' ∧
    bootstrap_written_ w' = true.
Proof.
  intros Hc Hi Hcost. destruct (ensure_bootstrap_spec adds w Hc) as (w1 & He & Hc1 & Hb1).
  unfold add_logical_index. rewrite (ct_open _ _ Hc). cbn [reject_if]. rewrite bind_Ok, He, bind_Ok. clear He Hc w.
  destruct Hc1 as [Ho Hs Hn Hix Hp Hf]. rewrite Hb1 in Hs. destruct Hs as [rest Hs]. set (c0 := contents (out_ w1)) in *.
  pose proof Hi as [Hwr Hsup Hts Hsorted Hcount Htarget Hnorms]. set (wr := new_index_writer i) in *.
  pose proof (volumes_pos ts) as Hvol. pose proof (costs_pos adds). unfold index_cost in Hcost.
  destruct (build_index_spec (T := T) wr c0 (out_ w1) ts) as (o1 & r & region & fs & bi & -> & Ho1 & Hco1 & Hbt);
    try done; [apply Hwr|unfold fits; lia|].
  rewrite bind_Ok. cbv beta iota. unfold stream_dict_region_into. cbn [iw_built].
  pose proof (bt_region _ _ _ _ _ Hbt) as Hrl. pose proof (bt_dict _ _ _ _ _ Hbt) as Hd.
  pose proof (disk_le _ _ _ _ (bt_flushed _ _ _ _ _ Hbt)) as Hdl. pose proof (blocks_count wr ts region fs bi Hbt) as Hfc.
  destruct (stream_into_holds _ _ o1 Hd Ho1) as (o2 & -> & Ho2 & Hco2). rewrite bind_Ok.
  set (dk := concat (map fl_data fs)) in *. rewrite Hco1 in Hco2.
  assert (zlen (c0 ++ region) = zlen c0 + zlen region) as Hl1 by (rewrite length_app; lia).
  assert (zlen ((c0 ++ region) ++ dk) = zlen c0 + zlen region + zlen dk) as Hl2 by (rewrite length_app; lia).
  assert (zlen dk ≤ 2 ^ 28 * zlen ts) as Hdk by lia.
  eexists _, (mkAdded i ts region fs (mkIndexWriter wr bi r)). split; [done|]. split; [done|]. split; [done|].
  split; [|exact Hb1]. split; cbn [out_ bootstrap_written_ indexes_ placements_ finished_]; try done; rewrite ?Hco2.
  - rewrite Hb1. exists (rest ++ region ++ dk). by rewrite Hs, <- !app_assoc.
  - rewrite Hl2, costs_app. cbn [costs foldr ad_input ad_terms]. unfold index_cost. lia.
  - by rewrite Hix, map_app.
  - apply Forall2_app.
    { rewrite <- app_assoc. apply Forall2_placed_app; [|done]. intros a p. apply placed_0_app. }
    constructor; [|constructor]. split; [by split|]. split; [|done].
    rewrite !bytes_written_eq; rewrite ?Hco1, ?Hco2, ?Hl1, ?Hl2; fold c0; try done; try lia.
    unfold at_streams. cbn [ad_region ad_flushed dict_off dict_len post_off post_len]. fold dk.
    rewrite !u64_small by ulia. split.
    + exists c0, dk. split; [by rewrite <- app_assoc|]. split; [done|lia].
    + exists (c0 ++ region), []. split; [by rewrite app_nil_r|]. split; [lia|lia].
Qed.

(** *** The norms and the filters *)

Lemma cost_lower i ts : 2 ^ 32 ≤ index_cost i ts.
Proof. unfold index_cost. pose proof (volumes_pos ts). lia. Qed.

Lemma place_each_spec (f : IndexWriter → Placement → W → result (W * Placement)) (P Q : bytes → Added → Placement → Prop) :
  (∀ c d a p, P c a p → P (c ++ d) a p) → (∀ c d a p, Q c a p → Q (c ++ d) a p) →
  (∀ a p out, writable out → P (contents out) a p → zlen (contents out) + index_cost (ad_input a) (ad_terms a) < 2 ^ 63 →
    ∃ out' p' d, f (ad_iw a) p out = Ok (out', p') ∧ writable out' ∧ contents out' = contents out ++ d ∧
      zlen d ≤ index_cost (ad_input a) (ad_terms a) ∧ Q (contents out') a p') →
  ∀ adds ps out, writable out → Forall2 (P (contents out)) adds ps → zlen (contents out) + costs adds < 2 ^ 63 →
  ∃ out' ps' d, place_each f (map ad_iw adds) ps out = Ok (out', ps') ∧ writable out' ∧ contents out' = contents out ++ d ∧
    zlen d ≤ costs adds ∧ Forall2 (Q (contents out')) adds ps'.
Proof.
  intros HP HQ Hf adds ps out Ho Hps. revert out Ho Hps.
  induction adds as [|a adds IH] in ps |- *; intros out Ho Hps Hn.
  { apply Forall2_nil_inv_l in Hps as ->. exists out, [], []. cbn. rewrite app_nil_r. split_and!; try done. }
  apply Forall2_cons_inv_l in Hps as (p & ps' & Hp & Hps & ->). cbn [costs foldr] in Hn. fold (costs adds) in Hn. pose proof (costs_pos adds).
  cbn [map place_each]. destruct (Hf a p out Ho Hp) as (o1 & p1 & d1 & -> & Ho1 & Hc1 & Hd1 & HQ1); [lia|]. rewrite bind_Ok.
  destruct (IH ps' o1 Ho1) as (o2 & ps2 & d2 & -> & Ho2 & Hc2 & Hd2 & HQ2).
  { rewrite Hc1. eapply Forall2_impl; [exact Hps|]. intros b q. apply HP. }
  { rewrite Hc1, length_app. lia. }
  rewrite bind_Ok. exists o2, (p1 :: ps2), (d1 ++ d2). split_and!; try done.
  - by rewrite Hc2, Hc1, <- app_assoc.
  - rewrite length_app. cbn [costs foldr]. fold (costs adds). lia.
  - constructor; [|done]. rewrite Hc2. by apply HQ.
Qed.

(** A section appended at the end, and its place. *)
Lemma append_located s (out : W) :
  writable out → zlen (contents out) + zlen s < 2 ^ 63 →
  ∃ out', append_bytes s out = Ok out' ∧ writable out' ∧ contents out' = contents out ++ s ∧
    located (contents out') (bytes_written out) (u64 (bytes_written out' - bytes_written out)) s.
Proof.
  intros Ho Hn. destruct (append_bytes_spec s out Ho) as (o & -> & Hw & Hc). exists o. split_and!; try done.
  rewrite !bytes_written_eq by (done || (rewrite ?Hc, ?length_app; lia)). rewrite Hc, length_app.
  rewrite u64_small by ulia. exists (contents out), []. rewrite app_nil_r. split; [done|]. split; [done|lia].
Qed.

Lemma norms_section_le a : added_ok a → zlen (norms_section_ (iw_built (ad_iw a))) ≤ index_cost (ad_input a) (ad_terms a).
Proof.
  intros [_ Hw Hb]. rewrite (bt_norms _ _ _ _ _ Hb), Hw. unfold index_cost. pose proof (volumes_pos (ad_terms a)).
  destruct (has_norms_ _); [|cbn; lia]. unfold build_norms. rewrite norms_finish_app. cbn [app].
  rewrite norms_add_all. cbn [NormsPodWriter.norms_ NormsPodWriter.new app encoded_norms_ new_index_writer]. set (ns := in_encoded_norms _).
  pose proof (section_bytes_le (section_type_u8 kStatsBlock) (norms_payload ns)) as Hl. unfold norms_payload in *.
  rewrite (length_app (encode_varint64 _) ns) in Hl. pose proof (encode_varint64_length_le (zlen ns)). lia.
Qed.

Lemma bsbf_section_le a : added_ok a → zlen (bsbf_bytes_ (iw_built (ad_iw a))) ≤ index_cost (ad_input a) (ad_terms a).
Proof.
  intros [_ _ Hb]. pose proof (cost_lower (ad_input a) (ad_terms a)).
  destruct (filter_built_cases _ _ (bt_filter _ _ _ _ _ Hb)) as [->|(bf & Hrep & ->)]; [cbn; lia|].
  pose proof (filter_header_length bf). destruct Hrep as [(Hnb & Hbytes & Hl & Hr) _]. rewrite length_app, words_bytes_length. lia.
Qed.

Lemma place_norms_spec a p out :
  writable out → placed_0 (contents out) a p → zlen (contents out) + index_cost (ad_input a) (ad_terms a) < 2 ^ 63 →
  ∃ out' p' d, place_norms (ad_iw a) p out = Ok (out', p') ∧ writable out' ∧ contents out' = contents out ++ d ∧
    zlen d ≤ index_cost (ad_input a) (ad_terms a) ∧ placed_1 (contents out') a p'.
Proof.
  intros Ho (Hok & Hst & Hp1 & Hp2 & Hp3 & Hp4) Hn. pose proof (norms_section_le a Hok) as Hle. unfold place_norms.
  set (s := norms_section_ _) in *. destruct (negb _ || _) eqn:Hskip.
  - exists out, p, []. rewrite app_nil_r. split_and!; try done; [cbn; lia|]. split; [done|]. split; [done|]. split; [|done].
    left. split_and!; try done. fold s. apply orb_true_iff in Hskip as [Hno|Hemp]; [|by destruct s].
    subst s. rewrite (bt_norms _ _ _ _ _ (ao_built _ Hok)). by destruct (has_norms_ _).
  - destruct (append_located s out Ho) as (o & -> & Ho' & Hc & Hloc); [lia|]. rewrite bind_Ok.
    exists o. eexists _, s. do 4 (split; [done|]). rewrite Hc in *. split; [done|].
    split; [by apply at_streams_app|]. split; [by right|done].
Qed.

Lemma place_bsbf_spec a p out :
  writable out → placed_1 (contents out) a p → zlen (contents out) + index_cost (ad_input a) (ad_terms a) < 2 ^ 63 →
  ∃ out' p' d, place_bsbf (ad_iw a) p out = Ok (out', p') ∧ writable out' ∧ contents out' = contents out ++ d ∧
    zlen d ≤ index_cost (ad_input a) (ad_terms a) ∧ placed_2 (contents out') a p'.
Proof.
  intros Ho (Hok & Hst & Hno & Hp3 & Hp4) Hn. pose proof (bsbf_section_le a Hok) as Hle. unfold place_bsbf, has_bsbf.
  destruct (bsbf_bytes_ (iw_built (ad_iw a))) as [|x s] eqn:Hs; cbn [negb].
  - exists out, p, []. rewrite app_nil_r. do 3 (split; [done|]). split; [cbn; lia|]. do 3 (split; [done|]).
    left. by rewrite Hs.
  - destruct (append_located (x :: s) out Ho) as (o & -> & Ho' & Hc & Hloc); [lia|]. rewrite bind_Ok.
    exists o. eexists _, (x :: s). do 4 (split; [done|]). rewrite Hc in *. split; [done|].
    split; [by apply at_streams_app|]. split; [by apply at_norms_app|]. right. by rewrite Hs.
Qed.

Lemma write_norms_spec adds w :
  writable (out_ w) → indexes_ w = map ad_iw adds → Forall2 (placed_0 (contents (out_ w))) adds (placements_ w) →
  zlen (contents (out_ w)) + 2 * costs adds < 2 ^ 63 →
  ∃ w' d, write_norms w = Ok w' ∧ writable (out_ w') ∧ contents (out_ w') = contents (out_ w) ++ d ∧ zlen d ≤ 2 * costs adds ∧
    indexes_ w' = map ad_iw adds ∧ Forall2 (placed_2 (contents (out_ w'))) adds (placements_ w').
Proof.
  intros Ho Hix Hp Hn. pose proof (costs_pos adds). unfold write_norms. rewrite Hix.
  destruct (place_each_spec place_norms placed_0 placed_1 (λ c d a p, placed_0_app c a p d) (λ c d a p, placed_1_app c a p d)
    place_norms_spec adds (placements_ w) (out_ w) Ho Hp) as (o1 & ps1 & d1 & -> & Ho1 & Hc1 & Hd1 & Hp1); [lia|]. rewrite bind_Ok.
  destruct (place_each_spec place_bsbf placed_1 placed_2 (λ c d a p, placed_1_app c a p d) (λ c d a p, placed_2_app c a p d)
    place_bsbf_spec adds ps1 o1 Ho1 Hp1) as (o2 & ps2 & d2 & -> & Ho2 & Hc2 & Hd2 & Hp2); [rewrite Hc1, length_app; lia|].
  rewrite bind_Ok. eexists _, (d1 ++ d2). split; [done|]. cbn [out_ indexes_ placements_]. split_and!; try done.
  - by rewrite Hc2, Hc1, <- app_assoc.
  - rewrite length_app. lia.
Qed.

(** *** The tail *)

Definition tail_entry (a : Added) (p : Placement) : TailMetaRegion.Entry :=
  TailMetaRegion.mkEntry (index_id_ (iw_writer (ad_iw a))) (index_suffix_ (iw_writer (ad_iw a)))
    (finish_meta (iw_writer (ad_iw a)) (iw_built (ad_iw a)) (refs_of p) (dict_off p) []).

Lemma tail_entries_spec adds ps region :
  length adds = length ps → tail_entries (map ad_iw adds) ps region = Ok (region ++ zip_with tail_entry adds ps).
Proof.
  revert ps region. induction adds as [|a adds IH]; intros [|p ps] region Hl; try done; cbn [map tail_entries zip_with].
  { by rewrite app_nil_r. }
  rewrite IH by (cbn in Hl; lia). unfold TailMetaRegion.add_index. by rewrite <- app_assoc.
Qed.

(** The tier and the positions the reader gives an index. *)
Definition reader_tier (a : Added) (p : Placement) : IndexTier :=
  if 0 <? norms_len p then kT3 else if w_has_prx_ (iw_writer (ad_iw a)) then kT2 else kT1.

Lemma norms_len_scoring file a p :
  placed_2 file a p → 0 < norms_len p → w_has_prx_ (iw_writer (ad_iw a)) = true.
Proof.
  intros (Hok & _ & Hno & _) Hpos. pose proof (bt_norms _ _ _ _ _ (ao_built _ Hok)) as Hb. rewrite (ao_writer _ Hok) in *.
  assert (has_norms_ (new_index_writer (ad_input a)) = true) as Hs.
  { destruct (has_norms_ _); [done|]. destruct Hno as [(_ & Hz & _)|(pre & post & _ & _ & Hl)]; [lia|]. rewrite Hb in Hl. cbn in Hl. lia. }
  revert Hs. cbn. unfold has_scoring, FormatConstants.has_positions. by destruct (in_config (ad_input a)).
Qed.

Lemma reader_tier_stats file a p :
  placed_2 file a p → DictEntry.tier_has_stats (w_tier_ (iw_writer (ad_iw a))) = DictEntry.tier_has_stats (reader_tier a p).
Proof.
  intros Hp. unfold reader_tier. pose proof (norms_len_scoring file a p Hp) as Hs. destruct (Z.ltb_spec 0 (norms_len p)) as [Hpos|_].
  - specialize (Hs Hpos). rewrite (ao_writer _ (proj1 Hp)) in *. revert Hs. cbn. unfold FormatConstants.has_positions, tier_of.
    by destruct (in_config (ad_input a)).
  - rewrite (ao_writer _ (proj1 Hp)) in *. cbn. unfold FormatConstants.has_positions, tier_of. by destruct (in_config (ad_input a)).
Qed.

Lemma placed_2_in file a p :
  placed_2 file a p → zlen file < 2 ^ 63 →
  placed_in (ad_region a) (ad_flushed a) (iw_built (ad_iw a)) file (refs_of p) ∧ wf_refs (refs_of p).
Proof.
  intros (Hok & [(p1 & q1 & Hf1 & Ho1 & Hl1) (p2 & q2 & Hf2 & Ho2 & Hl2)] & Hno & Hbf) Hsz.
  assert (∀ off len s, located file off len s → is_u64 off ∧ is_u64 len) as Hu.
  { intros off len s (pre & post & -> & -> & ->). rewrite !length_app in Hsz. split; ulia. }
  split.
  - split; unfold refs_of; cbn [posting_region dict_region norms null_bitmap bsbf]; try done.
    + exists p1, q1. by rewrite Ho1, Hl1.
    + exists p2, q2. by rewrite Ho2, Hl2.
    + destruct Hno as [(-> & -> & He)|(pre & post & Hf & -> & ->)]; [exists [], file; rewrite He; split; [done|by left]|].
      exists pre, post. split; [done|by right].
    + destruct Hbf as [(-> & -> & He)|(pre & post & Hf & -> & ->)]; [exists [], file; rewrite He; split; [done|by left]|].
      exists pre, post. split; [done|by right].
  - assert (PerIndexMeta.wf_region (mkRegionRef 0 0)) by by vm_compute.
    unfold wf_refs, refs_of. cbn [posting_region dict_region norms null_bitmap bsbf]. split_and!; try done.
    + subst. apply (Hu _ _ (concat (map fl_data (ad_flushed a)))). by exists p2, q2.
    + subst. apply (Hu _ _ (ad_region a)). by exists p1, q1.
    + destruct Hno as [(-> & -> & _)|Hloc]; [done|]. by apply Hu in Hloc.
    + destruct Hbf as [(-> & -> & _)|Hloc]; [done|]. by apply Hu in Hloc.
Qed.

Lemma tail_entry_ok file a p :
  placed_2 file a p → zlen file < 2 ^ 63 →
  TailMetaRegion.wf_entry (tail_entry a p) ∧
  zlen (TailMetaRegion.entry_data (tail_entry a p)) ≤ 2 ^ 22 * (zlen (ad_terms a) + 3) + 2 ^ 18 ∧
  zlen (TailMetaRegion.suffix (tail_entry a p)) ≤ 2 ^ 16.
Proof.
  intros Hp Hsz. pose proof Hp as (Hok & _). destruct (placed_2_in file a p Hp Hsz) as [Hin Hr]. pose proof Hok as [Hi Hw Hb].
  pose proof (reader_tier_stats file a p Hp) as Ht. destruct Hi as [Hwr _ Hts Hsorted Hcount _ _]. rewrite <- Hw in *.
  destruct (finish_meta_bytes _ _ _ _ _ Hb Hsorted Hcount _ Ht Hwr Hts file (refs_of p) Hin Hr) as [Hbytes Hlen].
  destruct Hwr as [Hid [Hsb Hsl] _ _]. unfold kMaxSuffixLen in Hsl. cbn [refs_of dict_region PerIndexMeta.offset] in *.
  unfold TailMetaRegion.wf_entry, tail_entry. cbn [TailMetaRegion.index_id TailMetaRegion.suffix TailMetaRegion.entry_data].
  split_and!; try done; ulia.
Qed.

(** *** The tail region and the end of the file *)

Section Tail.
Context (file : bytes) (adds : list Added) (ps : list Placement) (Hps : Forall2 (placed_2 file) adds ps) (Hsz : zlen file < 2 ^ 63).
Context (Hcosts : costs adds < 2 ^ 60).
Abbreviation entries := (zip_with tail_entry adds ps).

Lemma adds_count : zlen adds < 2 ^ 28.
Proof.
  enough (2 ^ 32 * zlen adds ≤ costs adds) by lia. clear. unfold costs. induction adds as [|a l IH]; cbn [foldr length]; [cbn; lia|].
  pose proof (cost_lower (ad_input a) (ad_terms a)). lia.
Qed.

Lemma entries_ok : Forall TailMetaRegion.wf_entry entries ∧ length entries = length adds ∧
  zlen (TailMetaRegion.meta_data entries) ≤ costs adds ∧
  foldr (λ e n, zlen (TailMetaRegion.suffix e) + 40 + n) 0 entries ≤ costs adds.
Proof.
  clear Hcosts. unfold TailMetaRegion.meta_data. induction Hps as [|a p l q Hp Hl IH]; [done|]. cbn [zip_with map concat foldr length costs].
  fold (costs l). destruct (tail_entry_ok file a p Hp Hsz) as (Hwf & Hlen & Hsfx). destruct (IH Hl) as (IH1 & IH2 & IH3 & IH4).
  unfold index_cost. pose proof (volumes_pos (ad_terms a)).
  split; [by constructor|]. split; [lia|]. rewrite length_app. split; lia.
Qed.

Lemma dir_size es off :
  zlen (LogicalIndexDirectory.directory_bytes (TailMetaRegion.place_entries es off).1) ≤
    25 + foldr (λ e n, zlen (TailMetaRegion.suffix e) + 40 + n) 0 es.
Proof.
  clear. unfold LogicalIndexDirectory.directory_bytes.
  set (refs := (TailMetaRegion.place_entries es off).1).
  pose proof (section_bytes_le (section_type_u8 kLogicalIndexDirectory) (LogicalIndexDirectory.directory_payload refs)) as Hle.
  unfold LogicalIndexDirectory.directory_payload in *. pose proof (encode_varint64_length_le (u32 (zlen refs))).
  rewrite (length_app (encode_varint64 _)) in Hle.
  enough (zlen (concat (map LogicalIndexDirectory.entry_bytes refs)) ≤ foldr (λ e n, zlen (TailMetaRegion.suffix e) + 40 + n) 0 es) by lia.
  subst refs. clear. revert off. induction es as [|e es IH]; intros off; cbn [TailMetaRegion.place_entries foldr]; [done|].
  specialize (IH (u64 (off + zlen (TailMetaRegion.entry_data e)))).
  destruct (TailMetaRegion.place_entries es _) as [refs off']. cbn [fst map concat] in *. rewrite length_app.
  set (r := LogicalIndexDirectory.mkLogicalIndexRef _ _ _ _). unfold LogicalIndexDirectory.entry_bytes at 1.
  pose proof encode_varint64_length_le as Hv. pose proof (Hv (LogicalIndexDirectory.index_id r)).
  pose proof (Hv (u32 (zlen (LogicalIndexDirectory.index_suffix r)))). pose proof (Hv (LogicalIndexDirectory.meta_off r)).
  pose proof (Hv (LogicalIndexDirectory.meta_len r)). rewrite !length_app.
  change (LogicalIndexDirectory.index_suffix r) with (TailMetaRegion.suffix e) in *. lia.
Qed.

Lemma region_ok :
  Forall TailMetaRegion.wf_entry entries ∧ is_u32 (zlen entries) ∧ zlen (TailMetaRegion.finish entries []) ≤ 69 + 2 * costs adds ∧
  is_bytes (TailMetaRegion.finish entries []) ∧ 0 < zlen (TailMetaRegion.finish entries []).
Proof.
  destruct entries_ok as (Hwf & Hlen & Hmd & Hdir). pose proof adds_count. pose proof (dir_size entries TailMetaRegion.kHeaderSize) as Hds.
  assert (zlen (TailMetaRegion.finish entries []) =
    44 + zlen (TailMetaRegion.meta_data entries) +
      zlen (LogicalIndexDirectory.directory_bytes (TailMetaRegion.place_entries entries TailMetaRegion.kHeaderSize).1)) as Hl.
  { rewrite TailMetaRegion.tmr_finish_app. cbn [app]. rewrite TailMetaRegion.region_bytes_length. unfold TailMetaRegion.written_mid.
    rewrite length_app. change TailMetaRegion.kHeaderSize with 40. lia. }
  split_and!; [done|ulia|lia| |lia].
  rewrite TailMetaRegion.tmr_finish_app. cbn [app]. unfold TailMetaRegion.region_bytes, TailMetaRegion.region_body.
  assert (is_bytes (TailMetaRegion.written_mid entries)).
  { unfold TailMetaRegion.written_mid. apply Forall_app_2; [by apply TailMetaRegion.meta_data_bytes|].
    pose proof (TailMetaRegion.written_refs entries Hwf ltac:(unfold is_u64; lia)) as (_ & _ & Hrefs & _).
    apply section_bytes_is_bytes; [by vm_compute|]. by apply LogicalIndexDirectory.lid_directory_payload_bytes. }
  pose proof TailMetaRegion.header_bytes_bytes. auto 10 with snii.
Qed.
End Tail.

(** *** The finished file *)

(** The file of the container: its sections, the tail region and the tail pointer. *)
Record sealed_file (adds : list Added) (ps : list Placement) (body file : bytes) : Prop := {
  sf_start : ∃ rest, body = bootstrap_bytes ++ rest;
  sf_placed : Forall2 (placed_2 body) adds ps;
  sf_size : zlen body ≤ 21 + 3 * costs adds;
  sf_file : let region := TailMetaRegion.finish (zip_with tail_entry adds ps) [] in
    file = body ++ region ++ TailPointer.tail_pointer_bytes kFormatVersion
      (TailPointer.mkTailPointer (zlen body) (zlen region) 0 (crc32c region) 0)
}.

Lemma tail_pointer_length tp : zlen (TailPointer.tail_pointer_bytes kFormatVersion tp) = 43.
Proof.
  unfold TailPointer.tail_pointer_bytes. by rewrite length_app, TailPointer.covered_bytes_length, fixed32_length.
Qed.

Lemma finish_spec adds w :
  container adds w → costs adds < 2 ^ 60 →
  ∃ w' ps body, finish w = Ok w' ∧ finalized (out_ w') ∧ sealed_file adds ps body (contents (out_ w')).
Proof.
  intros Hct Hcosts. unfold finish. rewrite (ct_open _ _ Hct). cbn [reject_if]. rewrite bind_Ok.
  destruct (ensure_bootstrap_spec adds w Hct) as (w1 & He & Hc1 & Hb1).
  set (w0 := mkSniiCompoundWriter _ _ _ _ _).
  assert (∃ w1', ensure_bootstrap w0 = Ok w1' ∧ out_ w1' = out_ w1 ∧ indexes_ w1' = indexes_ w1 ∧ placements_ w1' = placements_ w1)
    as (w1' & -> & Hout & Hix & Hpl).
  { unfold ensure_bootstrap in *. cbn [bootstrap_written_ out_ w0]. destruct (bootstrap_written_ w); [injection He as <-; by eexists|].
    destruct (write_bootstrap (out_ w)) as [o| |]; try done. rewrite bind_Ok in *. injection He as <-. by eexists. }
  rewrite bind_Ok. destruct Hc1 as [Ho Hs Hn Hi Hp _]. rewrite Hb1 in Hs. destruct Hs as [rest Hs]. pose proof (costs_pos adds).
  destruct (write_norms_spec adds w1') as (w2 & d & -> & Ho2 & Hc2 & Hd2 & Hi2 & Hp2); rewrite ?Hout, ?Hix, ?Hpl; try done; [lia|].
  rewrite bind_Ok. rewrite Hout in Hc2. set (body := contents (out_ w2)) in *. set (ps := placements_ w2) in *.
  assert (zlen body ≤ 21 + 3 * costs adds) as Hbl by (rewrite Hc2, length_app; lia).
  destruct (region_ok body adds ps Hp2) as (Hwf & Hcount & Hrl & Hrb & Hrpos); [lia|done|].
  unfold write_tail. fold ps. rewrite Hi2, tail_entries_spec by by eapply Forall2_length. rewrite bind_Ok. cbn [app].
  set (region := TailMetaRegion.finish (zip_with tail_entry adds ps) []) in *.
  destruct (append_bytes_spec region (out_ w2) Ho2) as (o3 & -> & Ho3 & Hc3). rewrite bind_Ok.
  rewrite TailPointer.encode_tail_pointer_app, bind_Ok. cbn [app]. fold body in Hc3.
  set (tail := TailPointer.tail_pointer_bytes _ _).
  destruct (append_bytes_spec tail o3 Ho3) as (o4 & -> & Ho4 & Hc4). rewrite bind_Ok. cbn [out_].
  destruct (finalize_writable o4 Ho4) as (o5 & Hfin & Hf5 & Hc5). rewrite bind_Ok. cbn [out_]. rewrite Hfin, bind_Ok.
  eexists _, ps, body. split; [done|]. cbn [out_]. split; [done|]. split; [|done|done|].
  - exists (rest ++ d). by rewrite Hc2, Hs, <- app_assoc.
  - fold region. rewrite Hc5, Hc4, Hc3, <- app_assoc. subst tail. do 4 f_equal.
    + rewrite bytes_written_eq; fold body; done || lia.
    + rewrite !bytes_written_eq; rewrite ?Hc3; fold body; rewrite ?length_app; try done; try lia. rewrite u64_small by ulia. lia.
Qed.

(** *** Reading *)

Section Read.
Context (adds : list Added) (ps : list Placement) (body file : bytes) (Hfile : sealed_file adds ps body file).
Context (Hcosts : costs adds < 2 ^ 60) (r : FileReader) (Hserves : serves file r).

Abbreviation entries := (zip_with tail_entry adds ps).
Abbreviation region := (TailMetaRegion.finish entries []).
Abbreviation tp := (TailPointer.mkTailPointer (zlen body) (zlen region) 0 (crc32c region) 0).

Lemma read_bootstrap : ∃ bh, ReadBootstrap r = Ok bh.
Proof.
  destruct (sf_start _ _ _ _ Hfile) as [rest Hb]. pose proof (sf_file _ _ _ _ Hfile) as Hf. cbv zeta in Hf.
  rewrite Hb, <- app_assoc in Hf. unfold ReadBootstrap. change BootstrapHeader.kBootstrapHeaderSize with 21.
  rewrite <- bootstrap_length. rewrite (serves_read_at _ _ Hserves) by (rewrite Hf; apply (in_file_mid []); done).
  rewrite bind_Ok, Hf. pose proof (window_mid [] bootstrap_bytes (rest ++ region ++ TailPointer.tail_pointer_bytes kFormatVersion
    (TailPointer.mkTailPointer (zlen (bootstrap_bytes ++ rest)) (zlen region) 0 (crc32c region) 0)) 0 _ eq_refl eq_refl) as Hw.
  cbn [app] in Hw. rewrite Hw. clear Hw.
  assert (match BootstrapHeader.decode_bootstrap_header bootstrap_bytes with Ok _ => true | _ => false end = true) as Hd by by vm_compute.
  destruct (BootstrapHeader.decode_bootstrap_header bootstrap_bytes) as [h| |]; [by exists h|done..].
Qed.

Lemma region_facts :
  Forall TailMetaRegion.wf_entry entries ∧ is_u32 (zlen entries) ∧ zlen region ≤ 69 + 2 * costs adds ∧ is_bytes region ∧
  0 < zlen region ∧ zlen body ≤ 21 + 3 * costs adds.
Proof.
  pose proof (sf_size _ _ _ _ Hfile). pose proof (costs_pos adds).
  destruct (region_ok body adds ps (sf_placed _ _ _ _ Hfile)) as (? & ? & ? & ? & ?); [lia|done|]. done.
Qed.

Lemma file_length : zlen file = zlen body + zlen region + 43.
Proof. rewrite (sf_file _ _ _ _ Hfile). rewrite !length_app, <- tail_pointer_length with (tp := tp). lia. Qed.

Lemma read_tail_pointer : ReadTailPointer r = Ok tp.
Proof.
  destruct region_facts as (_ & _ & Hrl & Hrb & _ & Hbl). pose proof file_length as Hfl. pose proof (sf_file _ _ _ _ Hfile) as Hf. cbv zeta in Hf.
  unfold ReadTailPointer. rewrite (serves_size _ _ Hserves). change TailPointer.tail_pointer_size with 43. 
  rewrite bind_reject_false by (apply Z.ltb_ge; lia). pose proof (tail_pointer_length tp) as Htl.
  assert (in_file file (zlen file - 43) 43 ∧ FileIO.window file (zlen file - 43) 43 = TailPointer.tail_pointer_bytes kFormatVersion tp) as [Hin Hw].
  { assert (file = (body ++ region) ++ TailPointer.tail_pointer_bytes kFormatVersion tp ++ []) as Hf'
      by (rewrite app_nil_r, Hf; by rewrite <- app_assoc).
    assert (zlen file - 43 = zlen (body ++ region)) as -> by (rewrite length_app; lia).
    rewrite Hf', <- Htl. split; [by apply in_file_mid|by apply window_mid]. }
  rewrite (serves_read_at _ _ Hserves) by done. rewrite bind_Ok, Hw. unfold TailPointer.tail_pointer_bytes.
  assert (TailPointer.wf_tail_pointer tp) as Hwf.
  { pose proof (costs_pos adds). pose proof (crc32c_range _ Hrb). unfold TailPointer.wf_tail_pointer.
    cbn [TailPointer.meta_region_offset TailPointer.meta_region_length TailPointer.hot_off TailPointer.meta_region_checksum
      TailPointer.bootstrap_header_checksum]. split_and!; (done || ulia). }
  rewrite TailPointer.decode_tail_pointer_layout; [|by vm_compute|by vm_compute|exact Hwf|by vm_compute|].
  - rewrite !Z.eqb_refl. cbn [negb]. by rewrite bind_Ok.
  - by apply crc32c_range, TailPointer.covered_bytes_is_bytes.
Qed.

Lemma open_segment :
  ∃ seg, open r = Ok seg ∧ seg_reader_ seg = r ∧ n_logical_indexes seg = zlen adds ∧
    (∀ l1 e l2, entries = l1 ++ e :: l2 →
      Forall (λ x, (TailMetaRegion.index_id x, TailMetaRegion.suffix x) ≠ (TailMetaRegion.index_id e, TailMetaRegion.suffix e)) l1 →
      TailMetaRegion.find (region_reader_ seg) (TailMetaRegion.index_id e) (TailMetaRegion.suffix e) =
        Ok (Some (TailMetaRegion.entry_data e))) ∧
    (∀ id sfx, (id, sfx) ∉ map (λ e, (TailMetaRegion.index_id e, TailMetaRegion.suffix e)) entries →
      TailMetaRegion.find (region_reader_ seg) id sfx = Ok None).
Proof.
  destruct region_facts as (Hwf & Hcount & Hrl & Hrb & Hrpos & Hbl). pose proof (sf_file _ _ _ _ Hfile) as Hf. cbv zeta in Hf.
  pose proof (costs_pos adds). unfold open. destruct read_bootstrap as [bh ->]. rewrite bind_Ok, read_tail_pointer, bind_Ok.
  cbn [TailPointer.meta_region_length TailPointer.meta_region_offset TailPointer.meta_region_checksum].
  rewrite bind_reject_false by (apply Z.eqb_neq; lia).
  rewrite (serves_read_at _ _ Hserves) by (rewrite Hf; by apply in_file_mid). rewrite bind_Ok, Hf, window_mid by done.
  rewrite bind_reject_false by by rewrite Z.eqb_refl.
  assert (is_u64 (zlen region)) as Hu by ulia.
  pose proof (TailMetaRegion.open_written entries Hwf Hcount Hu) as Hopen. rewrite TailMetaRegion.tmr_finish_app. cbn [app].
  rewrite Hopen, bind_Ok. eexists. split; [done|]. split; [done|]. split.
  - cbn. rewrite length_zip_with. pose proof (Forall2_length _ _ _ (sf_placed _ _ _ _ Hfile)). lia.
  - split; [|intros id sfx Hid; by apply TailMetaRegion.find_absent].
    intros l1 e l2 He Hl1. by eapply TailMetaRegion.find_written.
Qed.

(** The index of one of the entries opens and answers for its terms. *)
Lemma open_index_answers env seg (k : nat) a p :
  adds !! k = Some a → ps !! k = Some p → seg_reader_ seg = r →
  TailMetaRegion.find (region_reader_ seg) (TailMetaRegion.index_id (tail_entry a p)) (TailMetaRegion.suffix (tail_entry a p)) =
    Ok (Some (TailMetaRegion.entry_data (tail_entry a p))) →
  ∃ idx, open_index env seg (in_index_id (ad_input a)) (in_index_suffix (ad_input a)) = Ok idx ∧
    reads_back file (ad_input a) (ad_terms a) idx.
Proof.
  intros Ha Hp Hr Hfind. destruct region_facts as (_ & _ & Hrl & _ & _ & Hbl). pose proof file_length as Hfl. pose proof (costs_pos adds).
  assert (placed_2 body a p) as Hbody by (eapply Forall2_lookup_lr; [exact (sf_placed _ _ _ _ Hfile)|done|done]).
  assert (placed_2 file a p) as Hplaced by (rewrite (sf_file _ _ _ _ Hfile); by apply placed_2_app).
  destruct (placed_2_in file a p Hplaced) as [Hin Hwr]; [lia|]. pose proof (reader_tier_stats file a p Hplaced) as Ht.
  pose proof (norms_len_scoring file a p Hplaced) as Hnl. pose proof Hplaced as (Hok & _). pose proof Hok as [Hi Hw Hb].
  pose proof Hi as [Hwwr _ Hts Hsorted Hcount _ _]. unfold tail_entry in Hfind. cbn [TailMetaRegion.index_id TailMetaRegion.suffix TailMetaRegion.entry_data] in Hfind.
  rewrite Hw in *. set (wr := new_index_writer (ad_input a)) in *. set (bi := iw_built (ad_iw a)) in *.
  pose proof (image_wf wr (ad_terms a) _ _ bi Hb Hsorted Hcount _ Ht Hwwr Hts file (refs_of p) Hin Hwr) as Him.
  destruct (index_answers wr (ad_terms a) _ _ bi Hb Hsorted Hcount _ Ht Hwwr Hts eq_refl env file r (refs_of p) Hserves Hin Hwr)
    as (idx & Hopen & Hans & Hpost & Hfreqs & Hrefs & Hst).
  exists idx. unfold open_index. change (in_index_id (ad_input a)) with (index_id_ wr).
  change (in_index_suffix (ad_input a)) with (index_suffix_ wr). rewrite Hfind, bind_Ok.
  change (dict_off p) with (PerIndexMeta.offset (dict_region (refs_of p))).
  pose proof (open_image_meta _ _ _ _ Him) as Hmeta. rewrite <- (finish_meta_image wr (ad_terms a) _ _ bi Hb) in Hmeta.
  rewrite Hmeta, bind_Ok. cbv zeta.
  assert (PerIndexMeta.has_positions (image_reader (index_image wr (ad_flushed a) bi (refs_of p))) = w_has_prx_ wr) as Hpos.
  { unfold PerIndexMeta.has_positions, image_reader, index_image, index_flags. cbn [PerIndexMeta.flags_ im_flags].
    by destruct (has_bsbf bi), (w_has_prx_ wr). }
  rewrite Hpos. change (PerIndexMeta.length_ (PerIndexMeta.norms (PerIndexMeta.section_refs_ (image_reader (index_image wr (ad_flushed a) bi (refs_of p)))))) with (norms_len p).
  assert (w_has_prx_ wr || (0 <? norms_len p) = w_has_prx_ wr) as ->.
  { destruct (Z.ltb_spec 0 (norms_len p)) as [Hlt|]; [by rewrite (Hnl Hlt)|apply orb_false_r]. }
  assert ((if 0 <? norms_len p then kT3 else if w_has_prx_ wr then kT2 else kT1) = reader_tier a p) as ->.
  { unfold reader_tier. by rewrite Hw. }
  rewrite Hr. split; [exact Hopen|]. exists (reader_tier a p), (map fl_block (ad_flushed a)). split.
  - by apply (index_terms_written wr (ad_terms a) (ad_region a) (ad_flushed a) bi).
  - by rewrite Hst, (bt_stats _ _ _ _ _ Hb).
  - exact Hans.
  - intros np Hnp. apply Hpost. intros Hn. destruct (Hnp Hn) as [Hh Hs]. split; [done|]. split; [|done].
    unfold reader_tier. rewrite Hw. change (w_has_prx_ wr) with (FormatConstants.has_positions (in_config (ad_input a))). rewrite Hh.
    by destruct (0 <? norms_len p).
  - intros h Hst2 Hh. by apply Hfreqs.
  - intros Hsc Hdc. pose proof (ii_norms _ _ Hi Hsc) as Hnl2. split; [|split; [|done]].
    + unfold reader_tier. rewrite Hw. change (w_has_prx_ wr) with (FormatConstants.has_positions (in_config (ad_input a))).
      revert Hsc. unfold has_scoring, FormatConstants.has_positions. by destruct (in_config (ad_input a)), (0 <? norms_len p).
    + rewrite Hrefs. apply (index_norms wr (ad_terms a) _ _ bi Hb Hwwr file (refs_of p) Hin Hsc). change (encoded_norms_ wr) with (in_encoded_norms (ad_input a)). lia.
Qed.
End Read.

(** ** Whole containers *)

Definition index_key (i : SniiIndexInput) : Z * bytes := (in_index_id i, in_index_suffix i).

(** A producer's run: every index added, and the container finished. *)
Definition write_container (inputs : list SniiIndexInput) (out : W) : result (SniiCompoundWriter (W := W) (T := T)) :=
  w ← fold_result add_logical_index inputs (new_compound out);
  finish w.

Definition total_cost (inputs : list (SniiIndexInput * list Term)) : Z := foldr (λ x n, index_cost x.1 x.2 + n) 0 inputs.

Lemma total_cost_pos inputs : 0 ≤ total_cost inputs.
Proof. induction inputs as [|[i ts] l IH]; cbn; [done|]. pose proof (index_cost_pos i ts). unfold total_cost in IH. lia. Qed.

Abbreviation added_pair a := (ad_input a, ad_terms a).

Lemma costs_total adds : costs adds = total_cost (map (λ a, added_pair a) adds).
Proof. induction adds as [|a adds IH]; [done|]. cbn. unfold total_cost, costs in *. by rewrite IH. Qed.

Lemma add_all_spec inputs adds w :
  container adds w → Forall (λ x, wf_index_input x.1 x.2) inputs → costs adds + total_cost inputs < 2 ^ 62 →
  ∃ w' more, fold_result add_logical_index (map fst inputs) w = Ok w' ∧ map (λ a, added_pair a) more = inputs ∧
    container (adds ++ more) w'.
Proof.
  revert adds w. induction inputs as [|[i ts] inputs IH]; intros adds w Hc Hwf Hn.
  { exists w, []. by rewrite app_nil_r. }
  apply Forall_cons in Hwf as [Hi Hwf]. cbn [total_cost foldr fst snd] in *. fold (total_cost inputs) in Hn.
  pose proof (total_cost_pos inputs). cbn [map fold_result fst].
  destruct (add_logical_index_spec adds i ts w Hc Hi) as (w1 & a & -> & Hai & Hat & Hc1 & _); [lia|]. rewrite bind_Ok.
  destruct (IH _ _ Hc1 Hwf) as (w2 & more & -> & Hm & Hc2).
  { rewrite costs_app. cbn [costs foldr]. rewrite Hai, Hat. lia. }
  exists w2, (a :: more). split; [done|]. split; [by rewrite <- Hm, <- Hai, <- Hat|]. by rewrite <- app_assoc in Hc2.
Qed.

Lemma new_compound_container out :
  writable out → contents out = [] → container [] (new_compound out).
Proof. intros Ho Hc. split; cbn [new_compound out_ bootstrap_written_ indexes_ placements_ finished_]; rewrite ?Hc; done || constructor. Qed.

Lemma entry_keys adds ps :
  Forall2 (λ a p, iw_writer (ad_iw a) = new_index_writer (ad_input a)) adds ps →
  map (λ e, (TailMetaRegion.index_id e, TailMetaRegion.suffix e)) (zip_with tail_entry adds ps) =
  map (λ a, index_key (ad_input a)) adds.
Proof. induction 1 as [|a p adds ps Hw _ IH]; [done|]. cbn [zip_with map]. rewrite IH. cbn. by rewrite Hw. Qed.

Lemma placed_keys file adds ps : Forall2 (placed_2 file) adds ps →
  map (λ e, (TailMetaRegion.index_id e, TailMetaRegion.suffix e)) (zip_with tail_entry adds ps) =
  map (λ a, index_key (ad_input a)) adds.
Proof. intros Hp. apply entry_keys. eapply Forall2_impl; [exact Hp|]. by intros a p ([] & _). Qed.

(** The entry of the [k]-th index, and the keys before it. *)
Lemma entry_at adds ps (k : nat) a p :
  NoDup (map (λ e, (TailMetaRegion.index_id e, TailMetaRegion.suffix e)) (zip_with tail_entry adds ps)) →
  adds !! k = Some a → ps !! k = Some p →
  ∃ l1 l2, zip_with tail_entry adds ps = l1 ++ tail_entry a p :: l2 ∧
    Forall (λ x, (TailMetaRegion.index_id x, TailMetaRegion.suffix x) ≠
      (TailMetaRegion.index_id (tail_entry a p), TailMetaRegion.suffix (tail_entry a p))) l1.
Proof.
  intros Hnd Ha Hp. assert (zip_with tail_entry adds ps !! k = Some (tail_entry a p)) as He
    by (apply lookup_zip_with_Some; by exists a, p).
  exists (take k (zip_with tail_entry adds ps)), (drop (S k) (zip_with tail_entry adds ps)).
  split; [symmetry; by apply take_drop_middle|]. rewrite <- (take_drop_middle _ _ _ He), map_app in Hnd.
  apply NoDup_app in Hnd as (_ & Hnd & _). apply Forall_forall. intros x Hx Heq.
  apply (Hnd (TailMetaRegion.index_id x, TailMetaRegion.suffix x)).
  - apply list_elem_of_fmap. by exists x.
  - rewrite Heq. cbn [map]. apply elem_of_cons. by left.
Qed.
End Container.

(** ** Properties *)

(** A container is read back: each of its indexes, under its key. *)
Lemma container_reads `{ZstdLaws} `{BsbfEnvLaws} `{!BsbfFpp} {W : Type} `{FileWriterLaws W} {T : Type} `{TempFileLaws T}
    (inputs : list (SniiIndexInput * list Term)) (out : W) (env : option bytes) :
  fpp_in_range kBsbfFpp = true → writable out → contents out = [] →
  Forall (λ x, wf_index_input x.1 x.2) inputs → NoDup (map (λ x, index_key x.1) inputs) → total_cost inputs < 2 ^ 60 →
  ∃ w, write_container (T := T) (map fst inputs) out = Ok w ∧ finalized (out_ w) ∧
    ∀ r, serves (contents (out_ w)) r →
    ∃ seg, open r = Ok seg ∧ n_logical_indexes seg = zlen inputs ∧
      (∀ i ts, (i, ts) ∈ inputs →
        ∃ idx, open_index env seg (in_index_id i) (in_index_suffix i) = Ok idx ∧ reads_back (contents (out_ w)) i ts idx) ∧
      (∀ id sfx, (id, sfx) ∉ map (λ x, index_key x.1) inputs →
        open_index env seg id sfx = Err (NotFound "segment: logical index not found")).
Proof.
  intros Hfpp Ho Hc Hwf Hnd Hcost. pose proof (total_cost_pos inputs).
  destruct (add_all_spec (T := T) Hfpp inputs [] (new_compound out)) as (w1 & adds & Hadd & Hpairs & Hct);
    [by apply new_compound_container|done|cbn [costs foldr]; lia|]. cbn [app] in Hct.
  assert (costs adds < 2 ^ 60) as Hcosts by by rewrite costs_total, Hpairs.
  destruct (finish_spec adds w1 Hct Hcosts) as (w2 & ps & body & Hfin & Hfd & Hsealed).
  exists w2. unfold write_container. rewrite Hadd, bind_Ok. split; [done|]. split; [done|]. intros r Hserves.
  destruct (open_segment adds ps body _ Hsealed Hcosts r Hserves) as (seg & Hopen & Hr & Hcount & Hfind & Hmiss).
  pose proof (sf_placed _ _ _ _ Hsealed) as Hplaced. pose proof (placed_keys _ _ _ Hplaced) as Hkeys.
  assert (map (λ a, index_key (ad_input a)) adds = map (λ x, index_key x.1) inputs) as Hk by by rewrite <- Hpairs, map_map.
  rewrite Hk in Hkeys. exists seg. split; [done|]. split; [by rewrite Hcount, <- Hpairs, length_map|]. split.
  - intros i ts Hin. rewrite <- Hpairs in Hin. apply list_elem_of_fmap in Hin as (a & Heq & Hin). injection Heq as -> ->.
    apply list_elem_of_lookup in Hin as [k Ha]. destruct (Forall2_lookup_l _ _ _ _ _ Hplaced Ha) as (p & Hp & _).
    destruct (entry_at adds ps k a p) as (l1 & l2 & He & Hl1); [by rewrite Hkeys|done|done|].
    by destruct (open_index_answers adds ps body _ Hsealed Hcosts r Hserves env seg k a p Ha Hp Hr (Hfind _ _ _ He Hl1)) as (idx & Hoi & Hrb); exists idx.
  - intros id sfx Hid. unfold open_index. by rewrite Hmiss, bind_Ok by by rewrite Hkeys.
Qed.

(** A container answers for the terms it was built from. *)
Lemma container_answers `{ZstdLaws} `{BsbfEnvLaws} `{!BsbfFpp} {W : Type} `{FileWriterLaws W} {T : Type} `{TempFileLaws T}
    `{SortLaws} (inputs : list (SniiIndexInput * list Term)) (out : W) (env : option bytes) :
  fpp_in_range kBsbfFpp = true → writable out → contents out = [] →
  Forall (λ x, wf_index_input x.1 x.2) inputs → NoDup (map (λ x, index_key x.1) inputs) → total_cost inputs < 2 ^ 60 →
  ∃ w, write_container (T := T) (map fst inputs) out = Ok w ∧ finalized (out_ w) ∧
    ∀ r, serves (contents (out_ w)) r →
    ∃ seg, open r = Ok seg ∧ n_logical_indexes seg = zlen inputs ∧
      (∀ i ts, (i, ts) ∈ inputs →
        ∃ idx, open_index env seg (in_index_id i) (in_index_suffix i) = Ok idx ∧
          stats idx = mkStatsBlock (in_doc_count i) (in_doc_count i) (zlen ts) (total_freq ts) 0 ∧
          ∀ t, term_query idx t = Ok (docs_of ts t)) ∧
      (∀ id sfx, (id, sfx) ∉ map (λ x, index_key x.1) inputs →
        open_index env seg id sfx = Err (NotFound "segment: logical index not found")).
Proof.
  intros Hfpp Ho Hc Hwf Hnd Hcost. destruct (container_reads (T := T) inputs out env Hfpp Ho Hc Hwf Hnd Hcost) as (w & Hw & Hf & Hr).
  exists w. split; [done|]. split; [done|]. intros r Hs. destruct (Hr r Hs) as (seg & Hopen & Hn & Hin & Hout). exists seg.
  split; [done|]. split; [done|]. split; [|done]. intros i ts Hi. destruct (Hin i ts Hi) as (idx & Hoi & Hrb). exists idx.
  split; [done|]. split; [by destruct Hrb as (? & ? & [])|]. intros t. by apply (reads_back_term (contents (out_ w)) i).
Qed.

(** C3: any indexes added to a container under distinct keys and finished are read
    back: the reader over the written bytes opens, counts them, opens the index
    of each key, whose statistics are those of its terms and whose term query
    answers, for every term, with the documents the term was added with (none
    for a term that was not added); any other key is reported as not found. *)
Theorem segment_roundtrip `{ZstdLaws} `{BsbfEnvLaws} `{!BsbfFpp} {W : Type} `{FileWriterLaws W} {T : Type} `{TempFileLaws T}
    `{SortLaws} (inputs : list (SniiIndexInput * list Term)) (out : W) (env : option bytes) :
  fpp_in_range kBsbfFpp = true → writable out → contents out = [] →
  Forall (λ x, wf_index_input x.1 x.2) inputs → NoDup (map (λ x, index_key x.1) inputs) → total_cost inputs < 2 ^ 60 →
  ∃ w, write_container (T := T) (map fst inputs) out = Ok w ∧ finalized (out_ w) ∧
    ∀ r, serves (contents (out_ w)) r →
    ∃ seg, open r = Ok seg ∧ n_logical_indexes seg = zlen inputs ∧
      (∀ i ts, (i, ts) ∈ inputs →
        ∃ idx, open_index env seg (in_index_id i) (in_index_suffix i) = Ok idx ∧
          stats idx = mkStatsBlock (in_doc_count i) (in_doc_count i) (zlen ts) (total_freq ts) 0 ∧
          ∀ t, term_query idx t = Ok (docs_of ts t)) ∧
      (∀ id sfx, (id, sfx) ∉ map (λ x, index_key x.1) inputs →
        open_index env seg id sfx = Err (NotFound "segment: logical index not found")).
Proof. apply container_answers. Qed.


Section Sample.
#[local] Instance sample_fpp : BsbfFpp (H := LaneEnv.env) := true.

Definition sample_scored : SniiIndexInput * list Term :=
  let a := mkTermPostings [97] [0; 2] [2; 1] [1; 5; 0] None 3 in
  let b := mkTermPostings [98] [1] [1] [3] None 1 in
  (mkSniiIndexInput 1 [] kDocsPositionsScoring 3 [10; 20; 30] [a; b] None 0 None, [(a, [[1; 5]; [0]]); (b, [[3]])]).
Definition sample_plain : SniiIndexInput * list Term :=
  let a := mkTermPostings [97] [1] [1] [] None 0 in
  (mkSniiIndexInput 1 [120] kDocsOnly 2 [] [a] None 0 None, [(a, [[]])]).

Lemma sample_scored_wf : wf_index_input sample_scored.1 sample_scored.2.
Proof.
  split; try by vm_compute.
  - split; try by vm_compute. by apply (bool_decide_unpack _); vm_compute.
  - repeat constructor; try by vm_compute.
  - repeat constructor; try by vm_compute.
Qed.

Lemma sample_plain_wf : wf_index_input sample_plain.1 sample_plain.2.
Proof.
  split; try by vm_compute.
  - split; try by vm_compute. by apply (bool_decide_unpack _); vm_compute.
  - repeat constructor; try by vm_compute.
  - repeat constructor; try by vm_compute.
Qed.

Lemma segment_roundtrip_witness :
  ∃ w : SniiCompoundWriter (W := bytes) (T := bytes),
    write_container (H := StoredZstd.ops) (H1 := LaneEnv.env) (H3 := sample_fpp) (H4 := MemoryWriter.writer) (T := bytes) (H6 := MemoryTemp.temp)
      [sample_scored.1; sample_plain.1] [] = Ok w ∧
    ∀ r, serves (out_ w) r →
    ∃ seg, open r = Ok seg ∧ n_logical_indexes seg = 2 ∧
      (∀ i ts, (i, ts) ∈ [sample_scored; sample_plain] →
        ∃ idx, open_index (H := LaneEnv.env) None seg (in_index_id i) (in_index_suffix i) = Ok idx ∧
          ∀ t, term_query (H := StoredZstd.ops) (H0 := InsertionSort.sort) idx t = Ok (docs_of ts t)) ∧
      open_index (H := LaneEnv.env) None seg 2 [] = Err (NotFound "segment: logical index not found").
Proof.
  destruct (segment_roundtrip (H := StoredZstd.ops) (H0 := StoredZstd.laws) (H1 := LaneEnv.env) (H2 := LaneEnv.env_laws) (H3 := sample_fpp)
    (W := bytes) (H5 := MemoryWriter.writer_laws) (T := bytes) (H7 := MemoryTemp.temp_laws) (H9 := InsertionSort.sort_laws)
    [sample_scored; sample_plain] [] None) as (w & Hw & _ & Hr).
  - done.
  - done.
  - done.
  - exact (Forall_cons_2 _ _ _ sample_scored_wf (Forall_cons_2 _ _ _ sample_plain_wf (Forall_nil_2 _))).
  - apply (bool_decide_unpack _); vm_compute; done.
  - by vm_compute.
  - exists w. split; [exact Hw|]. intros r Hs. destruct (Hr r Hs) as (seg & Ho & Hn & Hi & Hm). exists seg.
    split; [exact Ho|]. split; [exact Hn|]. split.
    + intros i ts Hin. destruct (Hi i ts Hin) as (idx & Hx & _ & Hq). exists idx. split; [exact Hx|exact Hq].
    + apply Hm. apply (bool_decide_unpack _); vm_compute; done.
Defined.
End Sample.
