(* ===== verification/IndexFromTokens.v ===== *)
(** * IndexFromTokens: from tokens to the answers of a query.

    The whole path of a build and a read: tokens into the accumulator, the sorted
    drain into the index writer, the container, the reader and a term query. The
    documents a query returns are those the tokens named ([tokens_answered]). *)

From S2P Require Import Prelude StdAlgorithms Status ByteIO FormatConstants TermKey Zstd FileIO SpillableByteBuffer LocalFile Bsbf BatchRangeFetcher PrxPod TermPostings PostingWriter LogicalIndexWriter IndexBuild IndexRoundtrip CompoundWriter SegmentReader Queries ContainerRoundtrip PostingGroups RunMerge SpimiTermBuffer SpimiChains SpimiDrain.

#[local] Open Scope Z_scope.

(** What the producer of the tokens promises: documents and positions ascend
    within a term, and a term of few documents has few tokens. *)
Record indexable (strings : list bytes) (fed : Feed) : Prop := {
  ix_nodup : NoDup strings;
  ix_strings : Forall (λ s, wf_term s ∧ zlen s ≤ 2 ^ 20) strings;
  ix_small : zlen strings < 2 ^ 27;
  ix_feed : wf_feed strings fed;
  ix_order id : in_order (tokens_for fed id);
  ix_positions id d : Sorted Z.le (positions_in (tokens_for fed id) d);
  ix_slim id : zlen (groups (tokens_for fed id)) < kSlimDfThreshold → zlen (tokens_for fed id) ≤ 2 ^ 19
}.

Section Terms.
Context (strings : list bytes) (fed : Feed) (Hix : indexable strings fed).

(** The positions by document of a term. *)
Definition doc_positions_of (id : Z) : list (list Z) := map snd (groups (tokens_for fed id)).

Lemma fed_length : zlen fed ≤ UINT32_MAX.
Proof. apply (ix_feed _ _ Hix). Qed.

Lemma tokens_wf id : Forall wf_token (tokens_for fed id).
Proof. apply tokens_for_wf. destruct (ix_feed _ _ Hix) as [Hf _]. eapply Forall_impl; [exact Hf|]. by intros x [_ ?]. Qed.

Lemma carries_wf hp id tp :
  carries hp tp (vocab_at strings id) (groups (tokens_for fed id)) → wf_postings hp tp (doc_positions_of id).
Proof.
  intros [_ Hd Hf Hp Hpump]. pose proof fed_length as Hfl. unfold UINT32_MAX in Hfl. pose proof (tokens_for_length fed id) as Htl.
  pose proof (nonempty_groups_length _ (groups_nonempty (tokens_for fed id))) as Hgl. rewrite gpos_groups, length_map in Hgl.
  pose proof (groups_Forall (λ d p, is_u32 d ∧ is_u32 p) _ (tokens_wf id)) as Hgw. pose proof (ix_order _ _ Hix id) as Hord.
  set (gs := groups (tokens_for fed id)) in *.
  assert (zlen (tp_docids tp) = zlen gs) as Hdl by (rewrite Hd; unfold gdocs; by rewrite length_map).
  split.
  - lia.
  - rewrite Hd. unfold gdocs. apply Forall_map, Forall_forall. intros g Hg. rewrite Forall_forall in Hgw. specialize (Hgw g Hg).
    pose proof (groups_nonempty (tokens_for fed id)) as Hne. unfold nonempty_groups in Hne. rewrite Forall_forall in Hne. specialize (Hne g Hg).
    destruct g.2 as [|p ps]; [done|]. apply Forall_cons in Hgw as [[? _] _]. done.
  - rewrite Hd. by apply groups_sorted.
  - rewrite Hf, Hd. unfold gfreqs, gdocs. by rewrite !length_map.
  - rewrite Hf. unfold gfreqs. apply Forall_map, Forall_forall. intros g Hg. pose proof (gpos_elem_le _ _ Hg) as Hle.
    unfold gs in Hle. rewrite gpos_groups, length_map in Hle. unfold is_u32. lia.
  - rewrite Hd. unfold gdocs, doc_positions_of. by rewrite !length_map.
  - intros ->. split; [|split; [|split]].
    + split; [rewrite Hf; unfold gfreqs, doc_positions_of; by rewrite map_map|]. split; [exact Hp|]. destruct (tp_pos_pump tp); [|done]. tauto.
    + unfold ascending_docs, doc_positions_of. apply Forall_map. eapply Forall_impl; [apply groups_positions; exact Hord|].
      intros g Hg. cbn in Hg. rewrite Hg. apply (ix_positions _ _ Hix).
    + unfold doc_positions_of. apply Forall_map. eapply Forall_impl; [exact Hgw|]. intros g Hg. cbn in Hg. eapply Forall_impl; [exact Hg|]. by intros p [_ ?].
    + unfold doc_positions_of. change (concat (map snd (groups (tokens_for fed id)))) with (gpos (groups (tokens_for fed id))). rewrite gpos_groups, length_map. lia.
  - intros Hpn. destruct (tp_pos_pump tp) as [q|]; [|done]. rewrite Hdl. tauto.
Qed.

(** The terms of the index. *)
Definition with_docs (id : Z) (tp : TermPostings) : IndexBuild.Term := (tp, doc_positions_of id).

Context (hp : bool) (ids : list Z) (out : list TermPostings).
Context (Hout : Forall2 (λ id tp, carries hp tp (vocab_at strings id) (groups (tokens_for fed id))) ids out)
  (Hrange : Forall (λ id, 0 ≤ id < zlen strings) ids) (Hsorted : StronglySorted (id_lt strings) ids)
  (Hids : ∀ id, id ∈ ids ↔ tokens_for fed id ≠ []).

Definition fed_index : list IndexBuild.Term := zip_with with_docs ids out.

Lemma index_terms_fst : map fst fed_index = out.
Proof. unfold fed_index. clear -Hout. induction Hout as [|id tp ids' out' _ Hr IH]; [done|]. cbn. by rewrite IH. Qed.

Lemma index_terms_keys : map (λ t, tp_term t.1) fed_index = map (vocab_at strings) ids.
Proof. unfold fed_index. clear -Hout. induction Hout as [|id tp ids' out' Hc Hr IH]; [done|]. cbn. by rewrite IH, (ca_term _ _ _ _ Hc). Qed.

Lemma index_terms_sorted : StronglySorted term_lt (map (λ t, tp_term t.1) fed_index).
Proof. rewrite index_terms_keys. by apply (StronglySorted_map_in _ _ _ _ Hsorted). Qed.

Lemma index_terms_wf : Forall (wf_input_term hp) fed_index.
Proof.
  unfold fed_index. clear -Hout Hrange Hix. induction Hout as [|id tp ids' out' Hc Hr IH]; [constructor|]. apply Forall_cons in Hrange as [Hid Hrange].
  cbn [zip_with]. constructor; [|by apply IH]. pose proof (ix_strings _ _ Hix) as Hstr. rewrite Forall_forall in Hstr.
  assert (vocab_at strings id ∈ strings) as Hin.
  { unfold vocab_at. destruct (lookup_lt_is_Some_2 strings (Z.to_nat id) ltac:(lia)) as [s Hs]. rewrite (list_lookup_total_correct _ _ _ Hs). by eapply list_elem_of_lookup_2. }
  destruct (Hstr _ Hin) as [Hw Hl]. split; unfold with_docs; cbn [fst snd]; rewrite ?(ca_term _ _ _ _ Hc); [by apply carries_wf|done|done|].
  rewrite (ca_docs _ _ _ _ Hc). unfold gdocs. rewrite length_map. intros Hs%(ix_slim _ _ Hix).
  unfold doc_positions_of. change (concat (map snd (groups (tokens_for fed id)))) with (gpos (groups (tokens_for fed id))). by rewrite gpos_groups, length_map.
Qed.

Lemma ids_nodup : NoDup ids.
Proof.
  revert Hsorted. generalize ids. intros l Hs. induction Hs as [|id ids' _ IH Hlt]; [apply NoDup_nil_2|]. apply NoDup_cons_2; [|exact IH].
  intros Hin. rewrite Forall_forall in Hlt. by apply (id_lt_ne strings id id (Hlt id Hin)).
Qed.

Lemma index_terms_length : zlen fed_index = zlen ids ∧ zlen ids ≤ zlen strings.
Proof.
  unfold fed_index. rewrite length_zip_with, <- (Forall2_length _ _ _ Hout), Nat.min_id. split; [done|].
  assert (ids ⊆+ seqZ 0 (zlen strings)) as Hsub.
  { apply NoDup_submseteq; [apply ids_nodup|]. intros id Hid. apply elem_of_seqZ. rewrite Forall_forall in Hrange. specialize (Hrange id Hid). lia. }
  apply submseteq_length in Hsub. rewrite length_seqZ in Hsub. lia.
Qed.

Lemma index_terms_volume : volumes fed_index ≤ 3 * zlen fed.
Proof.
  assert (volumes fed_index ≤ foldr (λ id s, 3 * zlen (tokens_for fed id) + s) 0 ids) as Hle.
  { assert (∀ id, id ∈ ids → 1 ≤ zlen (tokens_for fed id)) as Hpos.
    { intros id Hid%Hids. destruct (tokens_for fed id); [done|]. cbn [length]. lia. }
    unfold volumes, fed_index. revert Hout Hpos. clear. revert ids out. intros l o Hlo Hpos. induction Hlo as [|id tp ids' out' Hc Hr IH]; [done|].
    cbn [zip_with foldr]. assert (∀ i, i ∈ ids' → 1 ≤ zlen (tokens_for fed i)) as Hpos' by (intros i Hi; apply Hpos; by right).
    specialize (IH Hpos'). specialize (Hpos id ltac:(by left)).
    pose proof (nonempty_groups_length _ (groups_nonempty (tokens_for fed id))) as Hgl. rewrite gpos_groups, length_map in Hgl.
    assert (volume (with_docs id tp).1 (with_docs id tp).2 = zlen (groups (tokens_for fed id)) + zlen (tokens_for fed id) + 1) as ->; [|lia].
    unfold volume, with_docs. cbn [fst snd]. rewrite (ca_docs _ _ _ _ Hc). unfold doc_positions_of, gdocs. rewrite length_map.
    change (concat (map snd (groups (tokens_for fed id)))) with (gpos (groups (tokens_for fed id))). by rewrite gpos_groups, length_map. }
  pose proof (tokens_for_sum fed ids ids_nodup) as Hsum.
  assert (foldr (λ id s, 3 * zlen (tokens_for fed id) + s) 0 ids = 3 * foldr (λ id s, zlen (tokens_for fed id) + s) 0 ids) as He.
  { clear. induction ids as [|id l IH]; cbn [foldr]; lia. }
  lia.
Qed.

Lemma index_terms_docs id :
  0 ≤ id < zlen strings → docs_of fed_index (vocab_at strings id) = gdocs (groups (tokens_for fed id)).
Proof.
  intros Hid. destruct (decide (id ∈ ids)) as [Hin|Hno].
  - apply list_elem_of_lookup in Hin as [k Hk]. destruct (Forall2_lookup_l _ _ _ _ _ Hout Hk) as (tp & Htp & Hc).
    assert (with_docs id tp ∈ fed_index) as Hit.
    { apply list_elem_of_lookup. exists k. unfold fed_index. apply lookup_zip_with_Some. by exists id, tp. }
    pose proof (docs_of_elem _ _ index_terms_sorted Hit) as Hd. unfold with_docs in Hd. cbn [fst] in Hd.
    by rewrite (ca_term _ _ _ _ Hc), (ca_docs _ _ _ _ Hc) in Hd.
  - rewrite docs_of_absent.
    + destruct (tokens_for fed id) eqn:Ht; [done|]. exfalso. apply Hno, Hids. by rewrite Ht.
    + rewrite index_terms_keys. intros (j & Hj & Hin)%list_elem_of_fmap. apply Hno. rewrite Forall_forall in Hrange.
      by rewrite (vocab_at_inj strings (ix_nodup _ _ Hix) id j Hid (Hrange j Hin) Hj).
Qed.

Lemma index_terms_unknown t : t ∉ strings → docs_of fed_index t = [].
Proof.
  intros Ht. apply docs_of_absent. rewrite index_terms_keys. intros (j & -> & Hin)%list_elem_of_fmap. apply Ht.
  rewrite Forall_forall in Hrange. specialize (Hrange j Hin). unfold vocab_at.
  destruct (lookup_lt_is_Some_2 strings (Z.to_nat j) ltac:(lia)) as [s Hs]. rewrite (list_lookup_total_correct _ _ _ Hs). by eapply list_elem_of_lookup_2.
Qed.
Lemma index_terms_key t : t ∈ map (λ t, tp_term t.1) fed_index ↔ ∃ id, 0 ≤ id < zlen strings ∧ t = vocab_at strings id ∧ tokens_for fed id ≠ [].
Proof.
  rewrite index_terms_keys, list_elem_of_fmap. rewrite Forall_forall in Hrange. setoid_rewrite <- Hids. split.
  - intros (id & -> & Hid). exists id. by split; [apply Hrange|].
  - intros (id & _ & -> & Hid). by exists id.
Qed.

Lemma index_terms_postings id :
  0 ≤ id < zlen strings → postings_of fed_index (vocab_at strings id) = groups (tokens_for fed id).
Proof.
  intros Hid. destruct (decide (id ∈ ids)) as [Hin|Hno].
  - apply list_elem_of_lookup in Hin as [k Hk]. destruct (Forall2_lookup_l _ _ _ _ _ Hout Hk) as (tp & Htp & Hc).
    assert (with_docs id tp ∈ fed_index) as Hit.
    { apply list_elem_of_lookup. exists k. unfold fed_index. apply lookup_zip_with_Some. by exists id, tp. }
    pose proof (term_named_elem _ _ index_terms_sorted Hit) as Hd. unfold with_docs in Hd. cbn [fst] in Hd.
    unfold postings_of. rewrite <- (ca_term _ _ _ _ Hc), Hd. cbn [fst snd]. rewrite (ca_docs _ _ _ _ Hc). unfold doc_positions_of, gdocs.
    apply zip_fst_snd.
  - unfold postings_of. rewrite term_named_None.
    + destruct (tokens_for fed id) eqn:Ht; [done|]. exfalso. apply Hno, Hids. by rewrite Ht.
    + rewrite index_terms_key. intros (j & Hj & Heq & Hne). apply Hno, Hids.
      by rewrite (vocab_at_inj strings (ix_nodup _ _ Hix) id j Hid Hj Heq).
Qed.

(** What the index holds of the tokens. *)
Record fed_terms (ts : list IndexBuild.Term) : Prop := {
  ft_key t : t ∈ map (λ t, tp_term t.1) ts ↔ ∃ id, 0 ≤ id < zlen strings ∧ t = vocab_at strings id ∧ tokens_for fed id ≠ [];
  ft_docs id : 0 ≤ id < zlen strings → docs_of ts (vocab_at strings id) = gdocs (groups (tokens_for fed id));
  ft_postings id : 0 ≤ id < zlen strings → postings_of ts (vocab_at strings id) = groups (tokens_for fed id);
  ft_unknown t : t ∉ strings → docs_of ts t = [];
  ft_positions t : t ∈ ts → ∃ id, t.2 = doc_positions_of id
}.

Lemma index_terms_fed : fed_terms fed_index.
Proof.
  split; [apply index_terms_key|apply index_terms_docs|apply index_terms_postings|apply index_terms_unknown|].
  intros t [k Hk]%list_elem_of_lookup. unfold fed_index in Hk. apply lookup_zip_with_Some in Hk as (id & tp & -> & _ & _). by exists id.
Qed.
End Terms.

(** The documents that hold a term. *)
Definition documents_with (fed : Feed) (id : Z) (ds : list Z) : Prop :=
  StronglySorted Z.lt ds ∧ ∀ d, d ∈ ds ↔ ∃ pos, (id, (d, pos)) ∈ fed.

Lemma documents_with_groups fed id : in_order (tokens_for fed id) → documents_with fed id (gdocs (groups (tokens_for fed id))).
Proof.
  intros Ho. split; [by apply groups_sorted|]. intros d. rewrite groups_docs_elem. unfold tokens_for. rewrite map_map. split.
  - intros ([i [e pos]] & -> & Hx)%list_elem_of_fmap. apply list_elem_of_In, List.filter_In in Hx as [Hx He%Z.eqb_eq]. cbn in He. subst i.
    exists pos. by apply list_elem_of_In.
  - intros [pos Hx]. apply list_elem_of_fmap. exists (id, (d, pos)). split; [done|]. apply list_elem_of_In, List.filter_In.
    split; [by apply list_elem_of_In|apply Z.eqb_refl].
Qed.

(** The rest of the index input is well-formed. *)
Record wf_build (i : SniiIndexInput) : Prop := {
  wb_writer : wf_writer (new_index_writer i);
  wb_target : target_dict_block_bytes_ (new_index_writer i) ≤ 2 ^ 25;
  wb_norms : has_norms_ (new_index_writer i) = true → zlen (in_encoded_norms i) = in_doc_count i;
  wb_small : zlen (in_encoded_norms i) < 2 ^ 58
}.

Section Build.
Context `{ZstdLaws} `{BsbfEnvLaws} `{!BsbfFpp} {W : Type} `{FileWriterLaws W} {T : Type} `{TempFileLaws T} `{SortLaws}.
Context {D : Type} `{PosixLaws D} `{!TempDir D} `{StdSortLaws} `{VectorGrowth} `{PriorityQueueOf HeapItem}.

(** The tokens in the accumulator, and what the drain gives the index writer. *)
Definition accumulate_terms (strings : list bytes) (hp : bool) (threshold : Z) (reporter : Reporter) (fed : Feed)
    : result (list TermPostings * result unit) :=
  s ← fold_result (λ x s, add_token x.1 x.2.1 x.2.2 s) fed (spimi_borrowing (D := D) strings hp threshold reporter);
  '(terms, st, _) ← for_each_term_sorted s;
  Ok (terms, st).

(** The container built of the tokens, read back. *)
Lemma tokens_built (strings : list bytes) (fed : Feed) (threshold : Z) (reporter : Reporter) (i : SniiIndexInput) (out : W) (env : option bytes) :
  indexable strings fed → wf_build i → fpp_in_range kBsbfFpp = true → writable out → contents out = [] →
  0 ≤ assigned_capacity (zlen strings) →
  (∀ runs, 2 ^ 33 + 4 * assigned_capacity (zlen strings) ≤ temp_dir_available_bytes (D := D) resolve_temp_dir runs) →
  ∃ terms, accumulate_terms strings (w_has_prx_ (new_index_writer i)) threshold reporter fed = Ok (terms, Ok tt) ∧
    ∀ source, in_term_source i = Some source → map snd (ts_terms source) = terms → ts_status source = Ok tt →
    ∃ w ts, write_container (T := T) [i] out = Ok w ∧ fed_terms strings fed ts ∧
      ∀ r, serves (contents (out_ w)) r →
      ∃ seg idx, open r = Ok seg ∧ open_index env seg (in_index_id i) (in_index_suffix i) = Ok idx ∧
        reads_back (contents (out_ w)) i ts idx.
Proof.
  intros Hix [Hbw Hbt Hbn Hbs] Hfpp Hw Hc Hcap Hspace. set (hp := w_has_prx_ (new_index_writer i)).
  pose proof (ix_small _ _ Hix) as Hsmall. pose proof (ix_feed _ _ Hix) as Hfeed.
  destruct (add_tokens_spec strings hp (ix_nodup _ _ Hix) _ Hcap Hspace _ [] fed
    (borrowing_accumulates strings hp _ Hcap Hspace threshold reporter eq_refl ltac:(unfold UINT32_MAX; lia)) Hfeed) as (s & Hs & Ha).
  destruct (for_each_term_sorted_spec strings hp (ix_nodup _ _ Hix) _ Hcap Hspace s _ Ha Hfeed) as (segs & ids & terms & s' & Hd & Hcat & _ & Hall & Hso & Hids & _).
  cbn [app] in *. exists terms. unfold accumulate_terms. rewrite Hs, bind_Ok, Hd, bind_Ok. split; [done|]. intros source Hsrc Hterms Hst.
  assert (Forall2 (λ id tp, carries hp tp (vocab_at strings id) (groups (tokens_for fed id))) ids terms) as Hout.
  { eapply Forall2_impl; [exact Hall|]. intros id tp (gs & Hca & [Hord _] & _). rewrite Hcat in Hord. by rewrite <- Hord by apply (ix_order _ _ Hix). }
  assert (Forall (λ id, 0 ≤ id < zlen strings) ids) as Hrange.
  { apply Forall_forall. intros id Hne%Hids. destruct Hfeed as [Hf _]. rewrite Forall_forall in Hf. unfold tokens_for in Hne.
    destruct (List.filter (λ x, x.1 =? id) fed) as [|x l] eqn:Hfl; [done|]. assert (In x (List.filter (λ x, x.1 =? id) fed)) as Hx by (rewrite Hfl; by left).
    apply List.filter_In in Hx as [Hx <-%Z.eqb_eq]. apply list_elem_of_In, Hf in Hx as [? _]. done. }
  set (ts := fed_index fed ids terms).
  destruct (index_terms_length strings fed hp ids terms Hout Hrange Hso) as [Hlt Hln].
  pose proof (index_terms_volume strings fed hp ids terms Hout Hso Hids) as Hvol.
  assert (wf_index_input i ts) as Hwf.
  { split; [done| | | | |done|done].
    - unfold supplies. change (term_source_ (new_index_writer i)) with (in_term_source i). rewrite Hsrc. split; [|done].
      unfold ts. by rewrite Hterms, (index_terms_fst strings fed hp ids terms Hout).
    - by eapply index_terms_wf.
    - by eapply index_terms_sorted.
    - unfold ts. lia. }
  destruct (container_reads (T := T) [(i, ts)] out env Hfpp Hw Hc) as (w & Hwc & _ & Hr).
  - by constructor.
  - apply NoDup_singleton.
  - unfold total_cost, index_cost. cbn [foldr fst snd]. destruct Hfeed as [_ Hfl]. unfold UINT32_MAX in Hfl. unfold ts. lia.
  - exists w, ts. split; [exact Hwc|]. split; [by eapply index_terms_fed|]. intros r Hserves. destruct (Hr r Hserves) as (seg & Hopen & _ & Hidx & _).
    destruct (Hidx i ts ltac:(by left)) as (idx & Hoi & Hrb). by exists seg, idx.
Qed.

(** C2: tokens fed into the accumulator, drained into the index writer and
    written to a container are what queries find: over any file that serves the
    container, the index opens and a term query returns, for every string of the
    vocabulary, the ascending documents of the tokens with its id, and nothing
    for any other string. This holds for every cap, so whether the accumulator
    spilled does not show. *)
Theorem tokens_answered (strings : list bytes) (fed : Feed) (threshold : Z) (reporter : Reporter) (i : SniiIndexInput) (out : W) (env : option bytes) :
  indexable strings fed → wf_build i → fpp_in_range kBsbfFpp = true → writable out → contents out = [] →
  0 ≤ assigned_capacity (zlen strings) →
  (∀ runs, 2 ^ 33 + 4 * assigned_capacity (zlen strings) ≤ temp_dir_available_bytes (D := D) resolve_temp_dir runs) →
  ∃ terms, accumulate_terms strings (w_has_prx_ (new_index_writer i)) threshold reporter fed = Ok (terms, Ok tt) ∧
    ∀ source, in_term_source i = Some source → map snd (ts_terms source) = terms → ts_status source = Ok tt →
    ∃ w, write_container (T := T) [i] out = Ok w ∧
      ∀ r, serves (contents (out_ w)) r →
      ∃ seg idx, open r = Ok seg ∧ open_index env seg (in_index_id i) (in_index_suffix i) = Ok idx ∧
        (∀ id, 0 ≤ id < zlen strings → ∃ ds, term_query idx (vocab_at strings id) = Ok ds ∧ documents_with fed id ds) ∧
        (∀ t, t ∉ strings → term_query idx t = Ok []).
Proof.
  intros Hix Hb Hfpp Hw Hc Hcap Hspace. destruct (tokens_built strings fed threshold reporter i out env Hix Hb Hfpp Hw Hc Hcap Hspace) as (terms & Hacc & Hq).
  exists terms. split; [done|]. intros source Hsrc Hterms Hst. destruct (Hq source Hsrc Hterms Hst) as (w & ts & Hwc & Hft & Hr).
  exists w. split; [done|]. intros r Hs. destruct (Hr r Hs) as (seg & idx & Ho & Hoi & Hrb). exists seg, idx. split; [done|]. split; [done|]. split.
  - intros id Hid. eexists. split; [by apply (reads_back_term (contents (out_ w)) i ts)|]. rewrite (ft_docs _ _ _ Hft id Hid).
    apply documents_with_groups, (ix_order _ _ Hix).
  - intros t Ht. by rewrite (reads_back_term (contents (out_ w)) i ts idx t Hrb), (ft_unknown _ _ _ Hft t Ht).
Qed.
End Build.

(** ** An instance *)

Section Sample.
Import StableInsertion ListQueue.
#[local] Instance sample_fpp : BsbfFpp (H := LaneEnv.env) := true.

Lemma example_indexable : indexable example_vocab example_feed.
Proof.
  assert (∀ id, tokens_for example_feed id = [(2, 7); (5, 1); (5, 2)] ∨ tokens_for example_feed id = [(3, 0); (3, 4)] ∨
    tokens_for example_feed id = [(6, 0)] ∨ tokens_for example_feed id = []) as Hcases.
  { intros id. destruct (decide (id = 0)) as [->|]; [by left|]. destruct (decide (id = 1)) as [->|]; [by right; left|].
    destruct (decide (id = 2)) as [->|]; [by right; right; left|]. right; right; right. unfold tokens_for, example_feed. cbn [List.filter fst].
    by rewrite !(proj2 (Z.eqb_neq 0 id)), !(proj2 (Z.eqb_neq 1 id)), !(proj2 (Z.eqb_neq 2 id)) by done. }
  split.
  - apply example_vocab_nodup.
  - repeat constructor; by vm_compute.
  - by vm_compute.
  - apply example_feed_wf.
  - intros id. unfold in_order. destruct (Hcases id) as [->|[->|[->| ->]]]; repeat constructor; cbn; lia.
  - intros id d. unfold positions_in. destruct (Hcases id) as [->|[->|[->| ->]]]; cbn [List.filter fst snd map];
      destruct (Z.eqb_spec 2 d), (Z.eqb_spec 5 d), (Z.eqb_spec 3 d), (Z.eqb_spec 6 d); try lia; cbn;
      repeat first [by apply Sorted_nil|apply Sorted_cons|by apply HdRel_nil|apply HdRel_cons; lia].
  - intros id Hs. clear Hs. destruct (Hcases id) as [He|[He|[He|He]]]; rewrite He; by vm_compute.
Qed.

Definition example_input : SniiIndexInput :=
  mkSniiIndexInput 7 [] kDocsPositions 7 [] [] (Some (mkTermSource (map (pair []) example_terms) [] (Ok tt))) 0 None.

Lemma example_input_wf : wf_build example_input.
Proof. split; by vm_compute. Qed.

Lemma example_accumulated : accumulate_terms (D := FlakyDisk.disk) example_vocab true 1 None example_feed = Ok (example_terms, Ok tt).
Proof. vm_compute. reflexivity. Qed.

Lemma tokens_answered_witness :
  ∃ w : SniiCompoundWriter (W := bytes) (T := bytes),
    write_container (H := StoredZstd.ops) (H1 := LaneEnv.env) (H3 := sample_fpp) (H4 := MemoryWriter.writer) (T := bytes) (H6 := MemoryTemp.temp)
      [example_input] [] = Ok w ∧
    ∀ r, serves (out_ w) r →
    ∃ seg idx, open r = Ok seg ∧ open_index (H := LaneEnv.env) None seg 7 [] = Ok idx ∧
      ∃ ds, term_query (H := StoredZstd.ops) (H0 := InsertionSort.sort) idx [98] = Ok ds ∧ documents_with example_feed 0 ds.
Proof.
  destruct (tokens_answered (H := StoredZstd.ops) (H0 := StoredZstd.laws) (H1 := LaneEnv.env) (H2 := LaneEnv.env_laws) (H3 := sample_fpp)
    (W := bytes) (H5 := MemoryWriter.writer_laws) (T := bytes) (H7 := MemoryTemp.temp_laws) (H9 := InsertionSort.sort_laws)
    (D := FlakyDisk.disk) example_vocab example_feed 1 None example_input [] None) as (terms & Hacc & Hq).
  - exact example_indexable.
  - exact example_input_wf.
  - done.
  - done.
  - done.
  - cbn. lia.
  - intros runs. cbn. lia.
  - assert (terms = example_terms) as Ht.
    { pose proof (eq_trans (eq_sym Hacc) example_accumulated) as He. by injection He. }
    destruct (Hq (mkTermSource (map (pair []) example_terms) [] (Ok tt)) eq_refl) as (w & Hw & Hr); [by rewrite Ht|done|].
    exists w. split; [exact Hw|]. intros r Hs. destruct (Hr r Hs) as (seg & idx & Ho & Hoi & Hds & _). exists seg, idx.
    split; [exact Ho|]. split; [exact Hoi|]. exact (Hds 0 ltac:(cbn; lia)).
Defined.
End Sample.
