(* ===== verification/PhraseRoundtrip.v ===== *)
(** * PhraseRoundtrip: phrases over what was written.

    The theorems on phrases and conjunctions (Conjunction, PhraseMatch,
    PhrasePrefix) as properties, with their instances over a written container,
    and the whole path: tokens in, the documents of a phrase out
    ([tokens_phrases]). *)

From S2P Require Import Prelude StdAlgorithms Status ByteIO FormatConstants TermKey Zstd FileIO SpillableByteBuffer LocalFile Bsbf BatchRangeFetcher PrxPod LogicalIndexReader DocidSets Queries PhraseQuery Conjunction PhraseMatch PhrasePrefix TermPostings PostingWriter LogicalIndexWriter IndexBuild PostingRoundtrip IndexRoundtrip CompoundWriter SegmentReader ContainerRoundtrip PostingGroups RunMerge SpimiTermBuffer SpimiChains SpimiDrain IndexFromTokens.

#[local] Open Scope Z_scope.

(** ** Phrases of tokens *)

(** The words stand in the document one after the other from position [p] on. *)
Definition stands_at (fed : Feed) (words : list Z) (d p : Z) : Prop :=
  ∀ k id, words !! k = Some id → (id, (d, p + Z.of_nat k)) ∈ fed.

Section Tokens.
Context (strings : list bytes) (fed : Feed) (Hix : indexable strings fed).

Lemma positions_fed id d x : x ∈ positions_at (groups (tokens_for fed id)) d ↔ (id, (d, x)) ∈ fed.
Proof.
  pose proof (ix_order _ _ Hix id) as Ho. pose proof (groups_positions _ Ho) as Hg. pose proof (groups_sorted _ Ho) as Hs.
  assert ((id, (d, x)) ∈ fed ↔ (d, x) ∈ tokens_for fed id) as ->.
  { unfold tokens_for. rewrite list_elem_of_fmap. split.
    - intros Hin. exists (id, (d, x)). split; [done|]. apply list_elem_of_In, List.filter_In. split; [by apply list_elem_of_In|apply Z.eqb_refl].
    - intros ([j y] & -> & [Hin Hj%Z.eqb_eq]%list_elem_of_In%List.filter_In). cbn in Hj. subst j. by apply list_elem_of_In. }
  assert ((d, x) ∈ tokens_for fed id ↔ x ∈ positions_in (tokens_for fed id) d) as ->.
  { unfold positions_in. rewrite list_elem_of_fmap. split.
    - intros Hin. exists (d, x). split; [done|]. apply list_elem_of_In, List.filter_In. split; [by apply list_elem_of_In|apply Z.eqb_refl].
    - intros ([e y] & -> & [Hin He%Z.eqb_eq]%list_elem_of_In%List.filter_In). cbn in He. subst e. by apply list_elem_of_In. }
  destruct (decide (d ∈ gdocs (groups (tokens_for fed id)))) as [Hd|Hd].
  - apply positions_at_some in Hd. rewrite Forall_forall in Hg. specialize (Hg _ Hd). cbn in Hg. by rewrite Hg.
  - split; intros Hx; destruct Hd.
    + by apply positions_at_docs in Hx.
    + apply groups_docs_elem. unfold positions_in in Hx. apply list_elem_of_fmap in Hx as ([e y] & -> & [Hin He%Z.eqb_eq]%list_elem_of_In%List.filter_In).
      cbn in He. subst e. apply list_elem_of_fmap. exists (d, y). split; [done|by apply list_elem_of_In].
Qed.

Context (ts : list IndexBuild.Term) (Hft : fed_terms strings fed ts).

Lemma fed_spans t d ps : t ∈ map (λ t, tp_term t.1) ts → (d, ps) ∈ postings_of ts t → wf_span ps.
Proof.
  intros (id & Hid & -> & _)%(ft_key _ _ _ Hft) Hin. rewrite (ft_postings _ _ _ Hft id Hid) in Hin.
  pose proof (groups_positions _ (ix_order _ _ Hix id)) as Hg. rewrite Forall_forall in Hg. specialize (Hg _ Hin). cbn in Hg.
  pose proof (groups_Forall (λ d p, is_u32 d ∧ is_u32 p) _ (tokens_wf strings fed Hix id)) as Hw. rewrite Forall_forall in Hw. specialize (Hw _ Hin). cbn in Hw. split.
  - apply Sorted_StronglySorted; [intros ? ? ?; lia|]. rewrite Hg. apply (ix_positions _ _ Hix).
  - eapply Forall_impl; [exact Hw|]. by intros x [_ ?].
Qed.

Lemma fed_sparse : (∀ id d, zlen (positions_in (tokens_for fed id) d) ≤ kMaxDocPositions) → Forall (λ t, sparse t.2) ts.
Proof.
  intros Hs. apply Forall_forall. intros t Ht. destruct (ft_positions _ _ _ Hft t Ht) as (id & ->). unfold sparse, doc_positions_of.
  pose proof (groups_positions _ (ix_order _ _ Hix id)) as Hg. apply Forall_map. eapply Forall_impl; [exact Hg|]. intros g Hgp. cbn in Hgp. by rewrite Hgp.
Qed.

Context (Hnodup : NoDup strings) `{ZstdOps} `{BsbfEnv} (file : bytes) (i : SniiIndexInput) (idx : LogicalIndexReader) (tier : IndexTier) (blocks : list IndexBlock).
Context (Hrb : reads_as file i ts idx tier blocks).

Lemma fed_positions_in id d x : 0 ≤ id < zlen strings →
  vocab_at strings id ∈ index_terms blocks ∧ x ∈ positions_at (postings_of ts (vocab_at strings id)) d ↔ (id, (d, x)) ∈ fed.
Proof.
  intros Hid. rewrite (rb_terms _ _ _ _ _ _ Hrb), (ft_key _ _ _ Hft), (ft_postings _ _ _ Hft id Hid), positions_fed. split; [tauto|].
  intros Hin. split; [|done]. exists id. split; [done|]. split; [done|]. apply (positions_fed id d x) in Hin. apply positions_at_docs in Hin.
  intros He. rewrite He in Hin. by apply elem_of_nil in Hin.
Qed.

Lemma phrase_stands words d p : Forall (λ id, 0 ≤ id < zlen strings) words →
  phrase_from blocks (postings_of ts) (map (vocab_at strings) words) d p ↔ stands_at fed words d p.
Proof.
  intros Hw. unfold phrase_from, stands_at. split.
  - intros Hp k id Hk. apply fed_positions_in; [by apply (Forall_lookup_1 _ _ _ _ Hw Hk)|]. apply (Hp k). by apply list_lookup_fmap_Some_2.
  - intros Hp k t (id & -> & Hk)%list_lookup_fmap_Some. apply fed_positions_in; [by apply (Forall_lookup_1 _ _ _ _ Hw Hk)|]. by apply (Hp k).
Qed.

Lemma tail_stands words prefix d : Forall (λ id, 0 ≤ id < zlen strings) words →
  (∃ t p, prefix `prefix_of` t ∧ phrase_from blocks (postings_of ts) (map (vocab_at strings) words ++ [t]) d p) ↔
  ∃ id p, 0 ≤ id < zlen strings ∧ prefix `prefix_of` vocab_at strings id ∧ stands_at fed (words ++ [id]) d p.
Proof.
  intros Hw. split.
  - intros (t & p & Hpre & Hp). destruct (Hp (length words) t) as [Ht _]; [apply list_lookup_middle; by rewrite length_map|].
    rewrite (rb_terms _ _ _ _ _ _ Hrb), (ft_key _ _ _ Hft) in Ht. destruct Ht as (id & Hid & -> & _). exists id, p. split; [done|]. split; [done|].
    apply phrase_stands; [by apply Forall_app_2; [|constructor]|]. by rewrite map_app.
  - intros (id & p & Hid & Hpre & Hp). exists (vocab_at strings id), p. split; [done|].
    apply phrase_stands in Hp; [|by apply Forall_app_2; [|constructor]]. by rewrite map_app in Hp.
Qed.

Lemma word_docs id d : 0 ≤ id < zlen strings →
  vocab_at strings id ∈ index_terms blocks ∧ d ∈ map fst (postings_of ts (vocab_at strings id)) ↔ ∃ x, (id, (d, x)) ∈ fed.
Proof.
  intros Hid. setoid_rewrite <- (fed_positions_in id d _ Hid). split.
  - intros [Hin Hd]. apply positions_at_some in Hd as Hp.
    rewrite (ft_postings _ _ _ Hft id Hid) in *. pose proof (groups_nonempty (tokens_for fed id)) as Hne. unfold nonempty_groups in Hne.
    rewrite Forall_forall in Hne. specialize (Hne _ Hp). cbn in Hne. destruct (positions_at _ d) as [|x l]; [done|]. exists x. split; [done|by left].
  - intros (x & Hin & Hx). split; [done|]. by apply positions_at_docs in Hx.
Qed.
End Tokens.

(** The words of a phrase. *)
Definition vocabulary_words (strings : list bytes) (words : list Z) : Prop :=
  words ≠ [] ∧ zlen words + 1 < UINT32_MAX ∧ Forall (λ id, 0 ≤ id < zlen strings) words.

(** ** Properties *)

(** C7: a conjunction returns, ascending, exactly the documents that hold every
    term; nothing when a term is not indexed. *)
Theorem boolean_and_exact `{ZstdOps} `{SortLaws} `{BsbfEnv} tier hp file idx blocks postings terms :
  answers_postings false tier hp file idx blocks postings → terms ≠ [] →
  ∃ out, boolean_and idx terms = Ok out ∧ StronglySorted Z.lt out ∧
    ∀ d, d ∈ out ↔ ∀ t, t ∈ terms → t ∈ index_terms blocks ∧ d ∈ map fst (postings t).
Proof. apply boolean_and_answers. Qed.

(** C5: a phrase query returns, ascending, exactly the documents in which the
    terms stand at consecutive positions, whichever windows and chunks they are
    read from; nothing when a term is not indexed. *)
Theorem phrase_query_exact `{ZstdOps} `{SortLaws} `{BsbfEnv} tier hp file idx blocks postings terms :
  answers_postings true tier hp file idx blocks postings →
  (∀ t d ps, t ∈ index_terms blocks → (d, ps) ∈ postings t → wf_span ps) →
  LogicalIndexReader.has_positions_ idx = true → terms ≠ [] → zlen terms < UINT32_MAX →
  ∃ out, phrase_query idx terms = Ok out ∧ StronglySorted Z.lt out ∧ ∀ d, d ∈ out ↔ ∃ p, phrase_from blocks postings terms d p.
Proof. apply phrase_query_answers. Qed.

(** C6: a phrase whose last term is a prefix returns, ascending, exactly the
    documents in which the exact terms and some indexed term with the prefix
    stand at consecutive positions. *)
Theorem phrase_prefix_query_exact `{ZstdOps} `{SortLaws} `{BsbfEnv} `{PriorityQueue} tier hp file idx blocks postings terms prefix :
  answers_postings true tier hp file idx blocks postings →
  (∀ t d ps, t ∈ index_terms blocks → (d, ps) ∈ postings t → wf_span ps) →
  LogicalIndexReader.has_positions_ idx = true → terms ≠ [] → zlen terms + 1 < UINT32_MAX →
  ∃ out, phrase_prefix_query idx (terms ++ [prefix]) = Ok out ∧ StronglySorted Z.lt out ∧
    ∀ d, d ∈ out ↔ ∃ t p, prefix `prefix_of` t ∧ phrase_from blocks postings (terms ++ [t]) d p.
Proof. apply phrase_prefix_query_answers. Qed.

Section Build.
Context `{ZstdLaws} `{BsbfEnvLaws} `{!BsbfFpp} {W : Type} `{FileWriterLaws W} {T : Type} `{TempFileLaws T} `{SortLaws} `{PriorityQueue}.
Context {D : Type} `{PosixLaws D} `{!TempDir D} `{StdSortLaws} `{VectorGrowth} `{PriorityQueueOf HeapItem}.

(** The three phrase queries over an index read back. *)
Lemma fed_conjunction strings fed ts file i idx words :
  indexable strings fed → fed_terms strings fed ts → reads_back file i ts idx → vocabulary_words strings words →
  ∃ ds, boolean_and idx (map (vocab_at strings) words) = Ok ds ∧ StronglySorted Z.lt ds ∧
    ∀ d, d ∈ ds ↔ ∀ id, id ∈ words → ∃ p, (id, (d, p)) ∈ fed.
Proof.
  intros Hix Hft (tier & blocks & Hrb) (Hne & _ & Hw).
  destruct (boolean_and_answers _ _ _ _ _ _ (map (vocab_at strings) words) (rb_postings _ _ _ _ _ _ Hrb false ltac:(done))) as (out & Ho & Hs & Hel); [by destruct words|].
  exists out. split; [done|]. split; [done|]. intros d. rewrite Hel, Forall_forall in *. split.
  - intros Hall id Hid. apply (word_docs strings fed Hix ts Hft file i idx tier blocks Hrb id d (Hw id Hid)), Hall. apply list_elem_of_fmap. by exists id.
  - intros Hall t (id & -> & Hid)%list_elem_of_fmap. apply (word_docs strings fed Hix ts Hft file i idx tier blocks Hrb id d (Hw id Hid)). by apply Hall.
Qed.

Lemma fed_phrase strings fed ts file i idx words :
  indexable strings fed → fed_terms strings fed ts → reads_back file i ts idx → vocabulary_words strings words →
  FormatConstants.has_positions (in_config i) = true → (∀ id d, zlen (positions_in (tokens_for fed id) d) ≤ kMaxDocPositions) →
  ∃ ds, phrase_query idx (map (vocab_at strings) words) = Ok ds ∧ StronglySorted Z.lt ds ∧
    ∀ d, d ∈ ds ↔ ∃ p, stands_at fed words d p.
Proof.
  intros Hix Hft (tier & blocks & Hrb) (Hne & Hn & Hw) Hp Hsp. pose proof (fed_sparse strings fed Hix ts Hft Hsp) as Hsparse.
  pose proof (rb_postings _ _ _ _ _ _ Hrb true ltac:(done)) as Hans. rewrite Hp in Hans.
  destruct (phrase_query_answers _ _ _ _ _ _ (map (vocab_at strings) words) Hans) as (out & Ho & Hs & Hel).
  - intros t d ps. rewrite (rb_terms _ _ _ _ _ _ Hrb). by apply (fed_spans strings fed).
  - apply (indexes_positions _ _ _ _ _ (ap_indexes _ _ _ _ _ _ _ Hans)).
  - by destruct words.
  - rewrite length_map. lia.
  - exists out. split; [done|]. split; [done|]. intros d. rewrite Hel. by setoid_rewrite (phrase_stands strings fed Hix ts Hft file i idx tier blocks Hrb words d _ Hw).
Qed.

Lemma fed_phrase_prefix strings fed ts file i idx words prefix :
  indexable strings fed → fed_terms strings fed ts → reads_back file i ts idx → vocabulary_words strings words →
  FormatConstants.has_positions (in_config i) = true → (∀ id d, zlen (positions_in (tokens_for fed id) d) ≤ kMaxDocPositions) →
  ∃ ds, phrase_prefix_query idx (map (vocab_at strings) words ++ [prefix]) = Ok ds ∧ StronglySorted Z.lt ds ∧
    ∀ d, d ∈ ds ↔ ∃ id p, 0 ≤ id < zlen strings ∧ prefix `prefix_of` vocab_at strings id ∧ stands_at fed (words ++ [id]) d p.
Proof.
  intros Hix Hft (tier & blocks & Hrb) (Hne & Hn & Hw) Hp Hsp. pose proof (fed_sparse strings fed Hix ts Hft Hsp) as Hsparse.
  pose proof (rb_postings _ _ _ _ _ _ Hrb true ltac:(done)) as Hans. rewrite Hp in Hans.
  destruct (phrase_prefix_query_answers _ _ _ _ _ _ (map (vocab_at strings) words) prefix Hans) as (out & Ho & Hs & Hel).
  - intros t d ps. rewrite (rb_terms _ _ _ _ _ _ Hrb). by apply (fed_spans strings fed).
  - apply (indexes_positions _ _ _ _ _ (ap_indexes _ _ _ _ _ _ _ Hans)).
  - by destruct words.
  - rewrite length_map. lia.
  - exists out. split; [done|]. split; [done|]. intros d. rewrite Hel. by apply (tail_stands strings fed Hix ts Hft file i idx tier blocks Hrb).
Qed.

(** C1: tokens fed into the accumulator, drained into the index writer and
    written to a container are what phrases find: over any file that serves the
    container, a phrase of words of the vocabulary returns, ascending, the
    documents in which the tokens put the words at consecutive positions; with a
    prefix for a last word, those in which some word with the prefix follows;
    and a conjunction those in which every word occurs. *)
Theorem tokens_phrases (strings : list bytes) (fed : Feed) (threshold : Z) (reporter : Reporter) (i : SniiIndexInput) (out : W) (env : option bytes) :
  indexable strings fed → (∀ id d, zlen (positions_in (tokens_for fed id) d) ≤ kMaxDocPositions) →
  wf_build i → FormatConstants.has_positions (in_config i) = true →
  fpp_in_range kBsbfFpp = true → writable out → contents out = [] →
  0 ≤ assigned_capacity (zlen strings) →
  (∀ runs, 2 ^ 33 + 4 * assigned_capacity (zlen strings) ≤ temp_dir_available_bytes (D := D) resolve_temp_dir runs) →
  ∃ terms, accumulate_terms strings true threshold reporter fed = Ok (terms, Ok tt) ∧
    ∀ source, in_term_source i = Some source → map snd (ts_terms source) = terms → ts_status source = Ok tt →
    ∃ w, write_container (T := T) [i] out = Ok w ∧
      ∀ r, serves (contents (out_ w)) r →
      ∃ seg idx, open r = Ok seg ∧ open_index env seg (in_index_id i) (in_index_suffix i) = Ok idx ∧
      ∀ words, vocabulary_words strings words →
        (∃ ds, phrase_query idx (map (vocab_at strings) words) = Ok ds ∧ StronglySorted Z.lt ds ∧
           ∀ d, d ∈ ds ↔ ∃ p, stands_at fed words d p) ∧
        (∀ prefix, ∃ ds, phrase_prefix_query idx (map (vocab_at strings) words ++ [prefix]) = Ok ds ∧ StronglySorted Z.lt ds ∧
           ∀ d, d ∈ ds ↔ ∃ id p, 0 ≤ id < zlen strings ∧ prefix `prefix_of` vocab_at strings id ∧ stands_at fed (words ++ [id]) d p) ∧
        (∃ ds, boolean_and idx (map (vocab_at strings) words) = Ok ds ∧ StronglySorted Z.lt ds ∧
           ∀ d, d ∈ ds ↔ ∀ id, id ∈ words → ∃ p, (id, (d, p)) ∈ fed).
Proof.
  intros Hix Hsp Hb Hp Hfpp Hw Hc Hcap Hspace. destruct (tokens_built (T := T) strings fed threshold reporter i out env Hix Hb Hfpp Hw Hc Hcap Hspace) as (terms & Hacc & Hq).
  change (w_has_prx_ (new_index_writer i)) with (FormatConstants.has_positions (in_config i)) in Hacc. rewrite Hp in Hacc.
  exists terms. split; [done|]. intros source Hsrc Hterms Hst. destruct (Hq source Hsrc Hterms Hst) as (w & ts & Hwc & Hft & Hr).
  exists w. split; [done|]. intros r Hs. destruct (Hr r Hs) as (seg & idx & Ho & Hoi & Hrb). exists seg, idx. split; [done|]. split; [done|].
  intros words Hwords. split; [|split; [intros prefix|]].
  - by eapply fed_phrase.
  - by eapply fed_phrase_prefix.
  - by eapply fed_conjunction.
Qed.
End Build.

(** ** Instances *)

Section Sample.
Import StableInsertion StdAlgorithms.ListQueue.
#[local] Existing Instances StoredZstd.ops StoredZstd.laws LaneEnv.env LaneEnv.env_laws InsertionSort.sort InsertionSort.sort_laws DocidSets.ListQueue.list_queue.
#[local] Existing Instances MemoryWriter.writer MemoryWriter.writer_laws MemoryTemp.temp MemoryTemp.temp_laws.
#[local] Instance sample_fpp : BsbfFpp (H := LaneEnv.env) := true.

Lemma example_sparse id d : zlen (positions_in (tokens_for example_feed id) d) ≤ kMaxDocPositions.
Proof.
  pose proof (tokens_for_length example_feed id) as Hl. unfold positions_in. rewrite length_map.
  pose proof (List.filter_length_le (λ t : Z * Z, t.1 =? d) (tokens_for example_feed id)). cbn [example_feed length] in Hl. unfold kMaxDocPositions. lia.
Qed.

Lemma example_words : vocabulary_words example_vocab [0; 0].
Proof. split; [done|]. split; [by vm_compute|]. repeat constructor; by vm_compute. Qed.

(** The index of the example tokens. *)
Lemma example_index :
  ∃ file idx ts tier blocks, fed_terms example_vocab example_feed ts ∧ reads_as file example_input ts idx tier blocks.
Proof.
  destruct (tokens_built (W := bytes) (T := bytes) (D := FlakyDisk.disk) example_vocab example_feed 1 None example_input [] None) as (terms & Hacc & Hq).
  - exact example_indexable.
  - exact example_input_wf.
  - done.
  - done.
  - done.
  - cbn. lia.
  - intros runs. cbn. lia.
  - assert (terms = example_terms) as Ht.
    { pose proof (eq_trans (eq_sym Hacc) example_accumulated) as He. by injection He. }
    destruct (Hq (mkTermSource (map (pair []) example_terms) [] (Ok tt)) eq_refl) as (w & ts & Hw & Hft & Hr); [by rewrite Ht|done|].
    destruct (Hr _ (memory_file_serves _)) as (seg & idx & _ & _ & tier & blocks & Hrb). exists (contents (out_ w)), idx, ts, tier, blocks. split; [exact Hft|exact Hrb].
Qed.

(** Document 5 holds the word 0 at the positions 1 and 2. *)
Lemma example_stands : stands_at example_feed [0; 0] 5 1.
Proof. intros [|[|k]] id Hk; [injection Hk as <-|injection Hk as <-|done]; apply list_elem_of_In; cbn; tauto. Qed.

Lemma phrase_query_exact_witness :
  ∃ (idx : LogicalIndexReader) out, phrase_query idx [[98]; [98]] = Ok out ∧ 5 ∈ out.
Proof.
  destruct example_index as (file & idx & ts & tier & blocks & Hft & Hrb).
  destruct (phrase_query_exact tier true file idx blocks (postings_of ts) [[98]; [98]]) as (out & Ho & _ & Hel).
  - apply (rb_postings _ _ _ _ _ _ Hrb true). intros _. split; [done|]. by apply (fed_sparse _ _ example_indexable ts Hft example_sparse).
  - intros t d ps. rewrite (rb_terms _ _ _ _ _ _ Hrb). by apply (fed_spans _ _ example_indexable ts Hft).
  - by apply (indexes_positions _ _ _ _ _ (ans_indexes _ _ _ _ _ _ (rb_answers _ _ _ _ _ _ Hrb))).
  - done.
  - by vm_compute.
  - exists idx, out. split; [exact Ho|]. apply Hel. exists 1.
    apply (phrase_stands _ _ example_indexable ts Hft file example_input idx tier blocks Hrb [0; 0]); [apply example_words|apply example_stands].
Defined.

Lemma phrase_prefix_query_exact_witness :
  ∃ (idx : LogicalIndexReader) out, phrase_prefix_query idx ([[98]] ++ [[]]) = Ok out ∧ 5 ∈ out.
Proof.
  destruct example_index as (file & idx & ts & tier & blocks & Hft & Hrb).
  destruct (phrase_prefix_query_exact tier true file idx blocks (postings_of ts) [[98]] []) as (out & Ho & _ & Hel).
  - apply (rb_postings _ _ _ _ _ _ Hrb true). intros _. split; [done|]. by apply (fed_sparse _ _ example_indexable ts Hft example_sparse).
  - intros t d ps. rewrite (rb_terms _ _ _ _ _ _ Hrb). by apply (fed_spans _ _ example_indexable ts Hft).
  - by apply (indexes_positions _ _ _ _ _ (ans_indexes _ _ _ _ _ _ (rb_answers _ _ _ _ _ _ Hrb))).
  - done.
  - by vm_compute.
  - exists idx, out. split; [exact Ho|]. apply Hel. exists [98], 1. split; [apply prefix_nil|].
    apply (phrase_stands _ _ example_indexable ts Hft file example_input idx tier blocks Hrb [0; 0]); [apply example_words|apply example_stands].
Defined.

Lemma boolean_and_exact_witness :
  ∃ (idx : LogicalIndexReader) out, boolean_and idx [[98]; [98]] = Ok out ∧ 5 ∈ out.
Proof.
  destruct example_index as (file & idx & ts & tier & blocks & Hft & Hrb).
  destruct (boolean_and_exact tier true file idx blocks (postings_of ts) [[98]; [98]]) as (out & Ho & _ & Hel).
  - by apply (rb_postings _ _ _ _ _ _ Hrb false).
  - done.
  - exists idx, out. split; [exact Ho|]. apply Hel. intros t Ht. assert (t = [98]) as -> by (apply elem_of_cons in Ht as [->|Ht%list_elem_of_singleton]; done).
    apply (word_docs _ _ example_indexable ts Hft file example_input idx tier blocks Hrb 0 5); [by vm_compute|].
    exists 1. apply list_elem_of_In. cbn. tauto.
Defined.

Lemma tokens_phrases_witness :
  ∃ w : SniiCompoundWriter (W := bytes) (T := bytes), write_container (T := bytes) [example_input] [] = Ok w ∧
    ∃ seg idx, open (memory_file (out_ w)) = Ok seg ∧ open_index None seg 7 [] = Ok idx ∧
      ∃ ds, phrase_query idx [[98]; [98]] = Ok ds ∧ ∀ d, d ∈ ds ↔ ∃ p, stands_at example_feed [0; 0] d p.
Proof.
  destruct (tokens_phrases (W := bytes) (T := bytes) (D := FlakyDisk.disk) example_vocab example_feed 1 None example_input [] None) as (terms & Hacc & Hq).
  - exact example_indexable.
  - exact example_sparse.
  - exact example_input_wf.
  - done.
  - done.
  - done.
  - done.
  - cbn. lia.
  - intros runs. cbn. lia.
  - assert (terms = example_terms) as Ht.
    { pose proof (eq_trans (eq_sym Hacc) example_accumulated) as He. by injection He. }
    destruct (Hq (mkTermSource (map (pair []) example_terms) [] (Ok tt)) eq_refl) as (w & Hw & Hr); [by rewrite Ht|done|].
    exists w. split; [exact Hw|]. destruct (Hr _ (memory_file_serves _)) as (seg & idx & Ho & Hoi & Hwords). exists seg, idx.
    split; [exact Ho|]. split; [exact Hoi|]. destruct (Hwords [0; 0] example_words) as ((ds & Hp & _ & Hel) & _). exists ds. split; [exact Hp|exact Hel].
Defined.
End Sample.
