(* ===== verification/MeteredFileReader.v ===== *)
(** * MeteredFileReader: the cache an object store is read through.

    [io/metered_file_reader.h], [io/metered_file_reader.cpp] and
    [io/io_metrics.h]. Reads touch blocks of a fixed size; a block that is not
    resident is fetched, adjacent misses of one call as one GET. The reader is
    the state it keeps; a call returns the state also when it fails. The inner
    reader is never null here, and the set of blocks is a [gset]. *)

From stdpp Require Import gmap.
From S2P Require Import Prelude StdAlgorithms Status ByteIO FileIO.

#[local] Open Scope Z_scope.

Record IoMetrics := mkIoMetrics {
  read_at_calls : Z;
  serial_rounds : Z;
  range_gets : Z;
  remote_bytes : Z;
  total_request_bytes : Z
}.
Definition no_metrics : IoMetrics := mkIoMetrics 0 0 0 0 0.

(** [snii::io::delta] *)
Definition delta (after before : IoMetrics) : IoMetrics :=
  mkIoMetrics (u64 (read_at_calls after - read_at_calls before)) (u64 (serial_rounds after - serial_rounds before))
    (u64 (range_gets after - range_gets before)) (u64 (remote_bytes after - remote_bytes before))
    (u64 (total_request_bytes after - total_request_bytes before)).

Record MeteredFileReader := mkMeteredFileReader {
  inner_ : FileReader;
  block_size_ : Z;
  resident_ : gset Z;
  metrics_ : IoMetrics
}.

Definition metered (inner : FileReader) (block_size : Z) : MeteredFileReader := mkMeteredFileReader inner block_size ∅ no_metrics.
Definition kDefaultBlockSize : Z := 1 ≪ 20.

Definition reset_metrics (m : MeteredFileReader) : MeteredFileReader := metered (inner_ m) (block_size_ m).

Definition validate_range (m : MeteredFileReader) (offset len : Z) : result unit :=
  _ ← reject_if (block_size_ m =? 0) (InvalidArgument "metered: zero block size");
  let total := size (inner_ m) in
  reject_if ((total <? offset) || (total - offset <? len)) (Corruption "metered: read range past end").

(** [first] and [last]. *)
Definition block_range (offset len block_size : Z) : Z * Z :=
  (offset / block_size, u64 (u64 (offset + len) - 1) / block_size).
Definition blocks_of (offset len block_size : Z) : list Z :=
  let '(first, last) := block_range offset len block_size in seqZ first (last - first + 1).

(** What a missed block adds to [remote_bytes]. *)
Definition missed_bytes (m : MeteredFileReader) (b : Z) : Z :=
  Z.min (block_size_ m) (size (inner_ m) - u64 (b * block_size_ m)).

(** [resident_], the two counters, [any_miss] and [in_run]. *)
Record Account := mkAccount { ac_resident : gset Z; ac_bytes : Z; ac_gets : Z; ac_miss : bool; ac_run : bool }.

Definition account_block (m : MeteredFileReader) (a : Account) (b : Z) : Account :=
  if decide (b ∈ ac_resident a) then mkAccount (ac_resident a) (ac_bytes a) (ac_gets a) (ac_miss a) false
  else mkAccount ({[b]} ∪ ac_resident a) (u64 (ac_bytes a + missed_bytes m b))
         (if ac_run a then ac_gets a else u64 (ac_gets a + 1)) true true.

Definition account_blocks (m : MeteredFileReader) (offset len : Z) : bool * MeteredFileReader :=
  if len =? 0 then (false, m)
  else
    let mt := metrics_ m in
    let a := fold_left (account_block m) (blocks_of offset len (block_size_ m))
               (mkAccount (resident_ m) (remote_bytes mt) (range_gets mt) false false) in
    (ac_miss a, mkMeteredFileReader (inner_ m) (block_size_ m) (ac_resident a)
       (mkIoMetrics (read_at_calls mt) (serial_rounds mt) (ac_gets a) (ac_bytes a) (total_request_bytes mt))).

(** [calls] more requests for [len] bytes. *)
Definition count_request (calls len : Z) (m : MeteredFileReader) : MeteredFileReader :=
  let mt := metrics_ m in
  mkMeteredFileReader (inner_ m) (block_size_ m) (resident_ m)
    (mkIoMetrics (u64 (read_at_calls mt + calls)) (serial_rounds mt) (range_gets mt) (remote_bytes mt)
       (u64 (total_request_bytes mt + len))).
Definition count_round (m : MeteredFileReader) : MeteredFileReader :=
  let mt := metrics_ m in
  mkMeteredFileReader (inner_ m) (block_size_ m) (resident_ m)
    (mkIoMetrics (read_at_calls mt) (u64 (serial_rounds mt + 1)) (range_gets mt) (remote_bytes mt) (total_request_bytes mt)).

Definition metered_read_at (m : MeteredFileReader) (offset len : Z) : result bytes * MeteredFileReader :=
  match validate_range m offset len with
  | Ok _ =>
      let m := count_request 1 len m in
      let '(miss, m) := account_blocks m offset len in
      let m := if miss then count_round m else m in
      (read_at (inner_ m) offset len, m)
  | Err st => (Err st, m)
  | Undef => (Undef, m)
  end.

(** [prev_miss] with [have_prev]. *)
Record BatchAccount := mkBatchAccount { ba_resident : gset Z; ba_bytes : Z; ba_gets : Z; ba_miss : bool; ba_prev : option Z }.

Definition batch_block (m : MeteredFileReader) (a : BatchAccount) (b : Z) : BatchAccount :=
  if decide (b ∈ ba_resident a) then a
  else mkBatchAccount ({[b]} ∪ ba_resident a) (u64 (ba_bytes a + missed_bytes m b))
         (if bool_decide (ba_prev a = Some (b - 1)) then ba_gets a else u64 (ba_gets a + 1)) true (Some b).

Fixpoint validate_each (m : MeteredFileReader) (ranges : list Range) : result unit :=
  match ranges with
  | [] => Ok tt
  | r :: ranges => _ ← validate_range m (offset r) (len r); validate_each m ranges
  end.

Definition touched_blocks (m : MeteredFileReader) (ranges : list Range) : list Z :=
  concat (map (λ r, if len r =? 0 then [] else blocks_of (offset r) (len r) (block_size_ m)) ranges).

(** Equal blocks are indistinguishable, so any sort gives the same list. *)
Definition sorted_blocks (m : MeteredFileReader) (ranges : list Range) : list Z :=
  unique (merge_sort Z.le (touched_blocks m ranges)).

Definition account_batch (m : MeteredFileReader) (ranges : list Range) : bool * MeteredFileReader :=
  let mt := metrics_ m in
  let a := fold_left (batch_block m) (sorted_blocks m ranges)
             (mkBatchAccount (resident_ m) (remote_bytes mt) (range_gets mt) false None) in
  (ba_miss a, mkMeteredFileReader (inner_ m) (block_size_ m) (ba_resident a)
     (mkIoMetrics (read_at_calls mt) (serial_rounds mt) (ba_gets a) (ba_bytes a) (total_request_bytes mt))).

Definition request_bytes (ranges : list Range) : Z := foldr (λ r n, len r + n) 0 ranges.

Definition metered_read_batch (m : MeteredFileReader) (ranges : list Range) : result (list bytes) * MeteredFileReader :=
  match validate_each m ranges with
  | Ok _ =>
      let m := count_request (zlen ranges) (request_bytes ranges) m in
      let '(miss, m) := account_batch m ranges in
      let m := if miss then count_round m else m in
      (read_batch (inner_ m) ranges, m)
  | Err st => (Err st, m)
  | Undef => (Undef, m)
  end.

(** ** Sums over sets of blocks *)

Definition sum_with (f : Z → Z) (l : list Z) : Z := foldr (λ b s, f b + s) 0 l.

Lemma sum_with_perm f l k : l ≡ₚ k → sum_with f l = sum_with f k.
Proof. unfold sum_with. induction 1; cbn; lia. Qed.

Lemma sum_with_app f l k : sum_with f (l ++ k) = sum_with f l + sum_with f k.
Proof. unfold sum_with. induction l as [|x l IH]; cbn; lia. Qed.

Lemma sum_with_nonneg f l : (∀ b, b ∈ l → 0 ≤ f b) → 0 ≤ sum_with f l.
Proof.
  unfold sum_with. induction l as [|x l IH]; intros Hf; cbn; [lia|]. pose proof (Hf x ltac:(by left)). specialize (IH (λ b Hb, Hf b ltac:(by right))). lia.
Qed.

Lemma sum_with_submseteq f l k : (∀ b, b ∈ k → 0 ≤ f b) → l ⊆+ k → sum_with f l ≤ sum_with f k.
Proof.
  intros Hf [r Hr]%submseteq_Permutation. rewrite (sum_with_perm f k _ Hr), sum_with_app.
  assert (0 ≤ sum_with f r); [|lia]. apply sum_with_nonneg. intros b Hb. apply Hf. rewrite Hr. apply elem_of_app. by right.
Qed.

Section Meter.
Context (file : bytes) (inner : FileReader) (bs : Z).
Context (Hserves : serves file inner) (Hbs : 0 < bs) (Hfile : zlen file < 2 ^ 63).

Definition is_block (b : Z) : Prop := 0 ≤ b ∧ b * bs < zlen file.
Definition block_bytes (b : Z) : Z := Z.min bs (zlen file - b * bs).

Lemma sum_blocks (n : nat) : Z.of_nat n * bs ≤ zlen file + bs - 1 → sum_with block_bytes (seqZ 0 (Z.of_nat n)) = Z.min (Z.of_nat n * bs) (zlen file).
Proof.
  induction n as [|n IH]; intros Hn; [change (seqZ 0 (Z.of_nat 0)) with (@nil Z); cbn [sum_with foldr]; lia|]. replace (Z.of_nat (S n) * bs) with (Z.of_nat n * bs + bs) in * by lia.
  rewrite seqZ_S, sum_with_app, IH by lia. cbn. unfold block_bytes. lia.
Qed.

(** Distinct blocks of the file have together at most its bytes. *)
Lemma sum_blocks_le l : NoDup l → (∀ b, b ∈ l → is_block b) → zlen l ≤ sum_with block_bytes l ≤ zlen file.
Proof.
  intros Hnd Hl. split.
  - unfold sum_with. clear Hnd. induction l as [|b l IH]; cbn; [lia|]. destruct (Hl b ltac:(by left)) as [? ?]. specialize (IH (λ c Hc, Hl c ltac:(by right))).
    unfold block_bytes at 1. lia.
  - set (n := Z.to_nat ((zlen file + bs - 1) / bs)). assert (Z.of_nat n = (zlen file + bs - 1) / bs) as Hn by (unfold n; rewrite Z2Nat.id; [done|]; apply Z.div_pos; lia).
    assert (l ⊆+ seqZ 0 (Z.of_nat n)) as Hsub.
    { apply NoDup_submseteq; [done|]. intros b Hb. destruct (Hl b Hb) as [? ?]. apply elem_of_seqZ. split; [done|]. rewrite Hn, Z.add_0_l.
      assert (b + 1 ≤ (zlen file + bs - 1) / bs); [|lia]. apply Z.div_le_lower_bound; lia. }
    assert (Z.of_nat n * bs ≤ zlen file + bs - 1) as Hle by (rewrite Hn; pose proof (Z.mul_div_le (zlen file + bs - 1) bs ltac:(lia)); lia).
    etrans; [apply (sum_with_submseteq _ _ (seqZ 0 (Z.of_nat n))); [|done]|rewrite sum_blocks by done; lia].
    intros b Hb%elem_of_seqZ. assert (b * bs ≤ (Z.of_nat n - 1) * bs) by (apply Z.mul_le_mono_nonneg_r; lia). unfold block_bytes. lia.
Qed.

(** What the counters say: the bytes fetched are those of the resident blocks,
    no more GETs than blocks, no more rounds than GETs. *)
Record metering (m : MeteredFileReader) : Prop := {
  me_inner : inner_ m = inner;
  me_size : block_size_ m = bs;
  me_blocks b : b ∈ resident_ m → is_block b;
  me_bytes : remote_bytes (metrics_ m) = sum_with block_bytes (elements (resident_ m));
  me_gets : 0 ≤ range_gets (metrics_ m) ≤ zlen (elements (resident_ m));
  me_rounds : 0 ≤ serial_rounds (metrics_ m) ≤ range_gets (metrics_ m)
}.

Lemma metered_metering : metering (metered inner bs).
Proof. by split. Qed.

Lemma elements_bound (X : gset Z) : (∀ b, b ∈ X → is_block b) → zlen (elements X) ≤ sum_with block_bytes (elements X) ≤ zlen file.
Proof. intros HX. apply sum_blocks_le; [apply NoDup_elements|]. intros b Hb. by apply HX, elem_of_elements. Qed.

(** ** The accounting of a batch *)

(** The missed blocks of [l] that start a run of misses. *)
Definition missed (X : gset Z) (l : list Z) : list Z := List.filter (λ b, bool_decide (b ∉ X)) l.
Definition run_starts (X : gset Z) (l : list Z) : list Z :=
  List.filter (λ b, bool_decide (b ∉ X) && negb (bool_decide (b - 1 ∈ missed X l))) l.

Lemma missed_elem X l b : b ∈ missed X l ↔ b ∈ l ∧ b ∉ X.
Proof. unfold missed. rewrite list_elem_of_In, List.filter_In, <- list_elem_of_In, bool_decide_eq_true. done. Qed.

Lemma missed_snoc X l b : missed X (l ++ [b]) = missed X l ++ (if decide (b ∈ X) then [] else [b]).
Proof. unfold missed. rewrite List.filter_app. cbn. f_equal. by destruct (decide (b ∈ X)), (bool_decide_reflect (b ∉ X)). Qed.

Lemma run_starts_snoc X l b :
  Forall (λ c, c < b) l →
  run_starts X (l ++ [b]) = run_starts X l ++ (if decide ((b ∉ X) ∧ (b - 1 ∉ missed X l)) then [b] else []).
Proof.
  intros Hl. unfold run_starts. rewrite List.filter_app. f_equal.
  - apply List.filter_ext_in. intros c Hc%list_elem_of_In. rewrite Forall_forall in Hl. specialize (Hl c Hc). f_equal. f_equal.
    apply bool_decide_ext. rewrite !missed_elem, elem_of_app, list_elem_of_singleton. split; [|tauto]. intros [[?|?] ?]; [done|lia].
  - cbn [List.filter]. assert (bool_decide (b - 1 ∈ missed X (l ++ [b])) = bool_decide (b - 1 ∈ missed X l)) as ->.
    { apply bool_decide_ext. rewrite !missed_elem, elem_of_app, list_elem_of_singleton. split; [|tauto]. intros [[?| ?] ?]; [done|lia]. }
    destruct (decide _) as [[Hb Hc]|Hn]; [by rewrite bool_decide_true, bool_decide_false|].
    destruct (bool_decide_reflect (b ∉ X)), (bool_decide_reflect (b - 1 ∈ missed X l)); cbn; try done. by destruct Hn.
Qed.

Lemma filter_and_length {A} (f g : A → bool) l : (length (List.filter (λ x, f x && g x) l) ≤ length (List.filter f l))%nat.
Proof. induction l as [|x l IH]; cbn [List.filter]; [done|]. destruct (f x), (g x); cbn [andb length] in *; lia. Qed.

Lemma run_starts_le X l : zlen (run_starts X l) ≤ zlen (missed X l).
Proof.
  apply inj_le. exact (filter_and_length (λ b, bool_decide (b ∉ X)) (λ b, negb (bool_decide (b - 1 ∈ missed X l))) l).
Qed.

(** Some block is missed exactly when some run starts. *)
Lemma run_starts_nil X l : StronglySorted Z.lt l → run_starts X l = [] ↔ missed X l = [].
Proof.
  intros Hs. split; [|intros Hm; pose proof (run_starts_le X l); rewrite Hm in *; by destruct (run_starts X l)].
  induction l as [|b l IH] using rev_ind; [done|]. apply StronglySorted_app in Hs as (Hlt & Hs & _).
  assert (Forall (λ c, c < b) l) as Hlb by (apply Forall_forall; intros c Hc; apply Hlt; [done|by left]).
  rewrite run_starts_snoc, missed_snoc by done. intros [Hr Hd]%app_nil. rewrite (IH Hs Hr) in *.
  destruct (decide (b ∈ X)); [done|]. rewrite decide_True in Hd; [done|]. split; [done|by intros ?%elem_of_nil].
Qed.

(** There is a new resident block for every run. *)
Lemma runs_fit X l : StronglySorted Z.lt l → zlen (run_starts X l) + zlen (elements X) ≤ zlen (elements (X ∪ list_to_set l)).
Proof.
  intros Hs. assert (elements X ++ missed X l ⊆+ elements (X ∪ list_to_set l)) as Hsub.
  { apply NoDup_submseteq.
    - apply NoDup_app. split; [apply NoDup_elements|]. split; [intros c Hc%elem_of_elements; rewrite missed_elem; tauto|].
      apply NoDup_ListNoDup, List.NoDup_filter, NoDup_ListNoDup. clear -Hs. induction Hs as [|c l Hs IH Hc]; constructor; [|done].
      intros Hin. rewrite Forall_forall in Hc. specialize (Hc c Hin). lia.
    - intros c. rewrite elem_of_app, missed_elem, !elem_of_elements. set_solver. }
  apply submseteq_length in Hsub. rewrite length_app in Hsub. pose proof (run_starts_le X l). lia.
Qed.

Lemma missed_last X l b :
  StronglySorted Z.lt l → Forall (λ c, c < b) l → b - 1 ∈ missed X l → last (missed X l) = Some (b - 1).
Proof.
  induction l as [|c l IH] using rev_ind; intros Hs Hlb Hin; [by apply elem_of_nil in Hin|].
  apply StronglySorted_app in Hs as (Hlt & Hs & _). apply Forall_app in Hlb as [Hlb [Hc _]%Forall_cons].
  rewrite missed_snoc in *. apply elem_of_app in Hin as [Hin|Hin].
  - assert (b - 1 < c) by (apply missed_elem in Hin as [Hin _]; apply Hlt; [done|by left]). lia.
  - destruct (decide (c ∈ X)); [by apply elem_of_nil in Hin|]. apply list_elem_of_singleton in Hin as ->. by rewrite last_snoc.
Qed.

Definition after_batch (X : gset Z) (g : Z) (miss : bool) (l : list Z) (a : BatchAccount) : Prop :=
  ba_resident a = X ∪ list_to_set l ∧ ba_bytes a = sum_with block_bytes (elements (ba_resident a)) ∧
  ba_gets a = g + zlen (run_starts X l) ∧ ba_miss a = (miss || bool_decide (missed X l ≠ []))%bool ∧ ba_prev a = last (missed X l).

Lemma account_batch_spec m X g l :
  inner_ m = inner → block_size_ m = bs → (∀ b, b ∈ X → is_block b) → Forall is_block l → StronglySorted Z.lt l →
  0 ≤ g ≤ zlen (elements X) →
  after_batch X g false l (fold_left (batch_block m) l (mkBatchAccount X (sum_with block_bytes (elements X)) g false None)).
Proof.
  intros Hin Hsz HX Hl Hs Hg. induction l as [|b l IH] using rev_ind.
  { cbn. unfold after_batch. cbn. split_and!; [set_solver|done|lia|done|done]. }
  apply StronglySorted_app in Hs as (Hlt & Hs & _). apply Forall_app in Hl as [Hl [Hb _]%Forall_cons].
  assert (Forall (λ c, c < b) l) as Hlb by (apply Forall_forall; intros c Hc; apply Hlt; [done|by left]).
  destruct (IH Hl Hs) as (Hr & Hby & Hge & Hmi & Hpr). rewrite fold_left_app. cbn [fold_left]. set (a := fold_left _ l _) in *.
  assert (∀ c, c ∈ ba_resident a → is_block c) as Hall.
  { intros c. rewrite Hr, elem_of_union, elem_of_list_to_set. rewrite Forall_forall in Hl. intros [?|?]; auto. }
  assert (b ∉ l) as Hbl by (intros Hbl; rewrite Forall_forall in Hlb; specialize (Hlb b Hbl); lia).
  unfold after_batch, batch_block. rewrite missed_snoc, run_starts_snoc by done. destruct (decide (b ∈ ba_resident a)) as [Hbin|Hbout].
  - assert (b ∈ X) as HbX by (rewrite Hr, elem_of_union, elem_of_list_to_set in Hbin; tauto).
    rewrite (decide_True _ _ HbX), (decide_False _ _ (λ H, proj1 H HbX)), !app_nil_r. split_and!; try done. rewrite Hr. set_solver.
  - assert (b ∉ X) as HbX by (intros ?; apply Hbout; rewrite Hr; set_solver). rewrite (decide_False _ _ HbX). cbn.
    assert (missed_bytes m b = block_bytes b) as ->.
    { unfold missed_bytes, block_bytes. rewrite Hin, Hsz, (serves_size _ _ Hserves). destruct Hb. by rewrite u64_small by (unfold is_u64; lia). }
    assert (elements ({[b]} ∪ ba_resident a) ≡ₚ b :: elements (ba_resident a)) as Hperm by by apply elements_union_singleton.
    pose proof (elements_bound ({[b]} ∪ ba_resident a)) as Hbd. rewrite (sum_with_perm _ _ _ Hperm), Hperm in Hbd. cbn [sum_with foldr length] in Hbd.
    specialize (Hbd ltac:(intros c; rewrite elem_of_union, elem_of_singleton; intros [->|?]; auto)). fold (sum_with block_bytes (elements (ba_resident a))) in Hbd.
    pose proof (elements_bound _ Hall) as Hba. assert (0 ≤ block_bytes b) by (destruct Hb; unfold block_bytes; lia).
    assert (zlen (run_starts X l) + zlen (elements X) ≤ zlen (elements (ba_resident a))) as Hruns by (rewrite Hr; by apply runs_fit).
    split_and!.
    + rewrite Hr. set_solver.
    + rewrite (sum_with_perm _ _ _ Hperm). cbn [sum_with foldr]. fold (sum_with block_bytes (elements (ba_resident a))). rewrite Hby, u64_small by ulia. lia.
    + rewrite Hge, Hpr. assert (bool_decide (last (missed X l) = Some (b - 1)) = bool_decide (b - 1 ∈ missed X l)) as ->.
      { apply bool_decide_ext. split; [apply last_Some_elem_of|]. by apply missed_last. }
      rewrite u64_small by ulia. destruct (bool_decide_reflect (b - 1 ∈ missed X l)) as [Hm|Hm].
      * rewrite decide_False by tauto. by rewrite app_nil_r.
      * rewrite decide_True by done. rewrite length_app. cbn. lia.
    + rewrite bool_decide_true; [done|]. by destruct (missed X l).
    + by rewrite last_snoc.
Qed.

(** ** Reads *)

Lemma block_of_range off n b :
  in_file file off n → 0 < n → b ∈ blocks_of off n bs ↔ off / bs ≤ b ≤ (off + n - 1) / bs.
Proof.
  intros (? & ? & ?) Hn. unfold blocks_of, block_range. rewrite (u64_small (off + n)) by ulia. rewrite u64_small by ulia. rewrite elem_of_seqZ. lia.
Qed.

Lemma blocks_of_range off n : in_file file off n → 0 < n → Forall is_block (blocks_of off n bs) ∧ blocks_of off n bs ≠ [].
Proof.
  intros Hin Hn. pose proof Hin as (? & ? & ?). split.
  - apply Forall_forall. intros b [Hlo Hhi]%block_of_range; [|done..]. pose proof (Z.div_pos off bs ltac:(lia) ltac:(lia)). split; [lia|].
    assert (b * bs ≤ off + n - 1); [|lia]. pose proof (Z.mul_div_le (off + n - 1) bs ltac:(lia)). nia.
  - intros He. assert (off / bs ∈ blocks_of off n bs) as Hb; [|rewrite He in Hb; by apply elem_of_nil in Hb].
    apply block_of_range; [done..|]. split; [lia|]. apply Z.div_le_mono; lia.
Qed.

Lemma validate_in m off n : inner_ m = inner → block_size_ m = bs → in_file file off n → validate_range m off n = Ok tt.
Proof.
  intros Hi Hb (? & ? & ?). unfold validate_range. rewrite Hi, Hb, (serves_size _ _ Hserves).
  rewrite bind_reject_false by (apply Z.eqb_neq; lia). unfold reject_if. by rewrite (proj2 (orb_false_iff _ _)) by (split; apply Z.ltb_ge; lia).
Qed.

Lemma validate_each_in m rs :
  inner_ m = inner → block_size_ m = bs → Forall (λ r, in_file file (offset r) (len r)) rs → validate_each m rs = Ok tt.
Proof. intros Hi Hb. induction 1 as [|r rs Hr Hrs IH]; [done|]. cbn [validate_each]. by rewrite validate_in, bind_Ok. Qed.

Lemma sorted_blocks_spec m rs :
  block_size_ m = bs → Forall (λ r, in_file file (offset r) (len r)) rs →
  StronglySorted Z.lt (sorted_blocks m rs) ∧ Forall is_block (sorted_blocks m rs) ∧
  ∀ b, b ∈ sorted_blocks m rs ↔ ∃ r, r ∈ rs ∧ 0 < len r ∧ offset r / bs ≤ b ≤ (offset r + len r - 1) / bs.
Proof.
  intros Hsz Hrs. unfold sorted_blocks.
  assert (∀ b, b ∈ unique (merge_sort Z.le (touched_blocks m rs)) ↔ ∃ r, r ∈ rs ∧ 0 < len r ∧ b ∈ blocks_of (offset r) (len r) bs) as Hel.
  { intros b. rewrite unique_elem, merge_sort_Permutation. unfold touched_blocks. rewrite elem_of_concat_map, Hsz. rewrite Forall_forall in Hrs.
    split; intros (r & Hr & Hb); exists r; destruct (Hrs r Hr) as (? & ? & ?).
    - destruct (Z.eqb_spec (len r) 0); [by apply elem_of_nil in Hb|]. split_and!; [done|lia|done].
    - destruct Hb as [? Hb]. split; [done|]. by rewrite (proj2 (Z.eqb_neq _ _)) by lia. }
  split; [|split].
  - apply unique_sorted, (StronglySorted_merge_sort _).
  - apply Forall_forall. intros b (r & Hr & Hn & Hb)%Hel. rewrite Forall_forall in Hrs.
    destruct (blocks_of_range _ _ (Hrs r Hr) Hn) as [Hall _]. rewrite Forall_forall in Hall. by apply Hall.
  - intros b. rewrite Hel. rewrite Forall_forall in Hrs.
    split; intros (r & Hr & Hn & Hb); exists r; (split; [done|]); (split; [done|]); by apply (block_of_range _ _ _ (Hrs r Hr) Hn).
Qed.

(** Touched blocks become resident; each run of misses is a GET, and a call
    with a miss is a round. *)
Definition accounts (m m' : MeteredFileReader) (blocks : list Z) : Prop :=
  resident_ m' = resident_ m ∪ list_to_set blocks ∧
  range_gets (metrics_ m') = range_gets (metrics_ m) + zlen (run_starts (resident_ m) blocks) ∧
  serial_rounds (metrics_ m') = serial_rounds (metrics_ m) + (if decide (missed (resident_ m) blocks = []) then 0 else 1).

Lemma count_request_metering calls n m : metering m → metering (count_request calls n m).
Proof. by intros []. Qed.

Lemma inner_count_round b m : inner_ (if b : bool then count_round m else m) = inner_ m.
Proof. by destruct b. Qed.

Lemma read_batch_ok m rs :
  metering m → Forall (λ r, in_file file (offset r) (len r)) rs →
  ∃ m', metered_read_batch m rs = (Ok (map (λ r, window file (offset r) (len r)) rs), m') ∧ metering m' ∧
    accounts m m' (sorted_blocks m rs).
Proof.
  intros Hm Hrs. pose proof Hm as [Hi Hsz HX Hby Hg Hro]. unfold metered_read_batch. rewrite validate_each_in by done.
  destruct (sorted_blocks_spec m rs Hsz Hrs) as (Hs & Hbl & _). unfold account_batch.
  change (sorted_blocks (count_request (zlen rs) (request_bytes rs) m) rs) with (sorted_blocks m rs).
  cbn [count_request resident_ metrics_ remote_bytes range_gets inner_ block_size_ serial_rounds read_at_calls total_request_bytes].
  destruct (account_batch_spec (count_request (zlen rs) (request_bytes rs) m) (resident_ m) (range_gets (metrics_ m)) (sorted_blocks m rs) Hi Hsz HX Hbl Hs Hg)
    as (Hr & Hb & Hge & Hmi & _). rewrite <- Hby in Hr, Hb, Hge, Hmi. cbn [count_request resident_ metrics_ remote_bytes range_gets inner_ block_size_] in *.
  set (a := fold_left _ _ _) in *. cbv zeta. rewrite inner_count_round. cbn [inner_]. rewrite Hi, (serves_batch_ok file inner rs Hserves Hrs). cbn [orb] in Hmi.
  eexists. split; [done|].
  assert (zlen (run_starts (resident_ m) (sorted_blocks m rs)) + zlen (elements (resident_ m)) ≤ zlen (elements (ba_resident a))) as Hruns.
  { rewrite Hr. by apply runs_fit. }
  assert (∀ b, b ∈ ba_resident a → is_block b) as Hall.
  { intros b. rewrite Hr, elem_of_union, elem_of_list_to_set. rewrite Forall_forall in Hbl. intros [?|?]; auto. }
  pose proof (elements_bound _ Hall) as Hbd. pose proof (run_starts_nil (resident_ m) _ Hs) as Hnil. destruct (ba_miss a) eqn:Hmiss.
  - symmetry in Hmi. apply bool_decide_eq_true in Hmi. assert (0 < zlen (run_starts (resident_ m) (sorted_blocks m rs))) as Hpos.
    { destruct (run_starts _ _); [by destruct Hmi, Hnil; auto|cbn; lia]. }
    split; [split; cbn; try done; rewrite ?u64_small by ulia; lia|]. unfold accounts. cbn. rewrite decide_False by done. rewrite u64_small by ulia. by split_and!.
  - symmetry in Hmi. apply bool_decide_eq_false, dec_stable in Hmi. rewrite (proj2 Hnil Hmi) in *. cbn [length] in *.
    split; [split; cbn; try done; lia|]. unfold accounts. cbn. rewrite decide_True by done. rewrite (proj2 Hnil Hmi). split_and!; [done|done|lia].
Qed.

(** ** One range *)

Definition same_account (a : Account) (ba : BatchAccount) : Prop :=
  ac_resident a = ba_resident ba ∧ ac_bytes a = ba_bytes ba ∧ ac_gets a = ba_gets ba ∧ ac_miss a = ba_miss ba.

Lemma account_same m (n : nat) first a ba :
  same_account a ba → ac_run a = bool_decide (ba_prev ba = Some (first - 1)) → (∀ p, ba_prev ba = Some p → p < first) →
  same_account (fold_left (account_block m) (seqZ first (Z.of_nat n)) a) (fold_left (batch_block m) (seqZ first (Z.of_nat n)) ba).
Proof.
  revert first a ba. induction n as [|n IH]; intros first a ba Hsame Hrun Hprev; [done|].
  rewrite seqZ_cons by lia. replace (Z.pred (Z.of_nat (S n))) with (Z.of_nat n) by lia. cbn [fold_left].
  pose proof Hsame as (Hr & Hb & Hg & Hm). apply IH; unfold account_block, batch_block; rewrite ?Hr; destruct (decide (first ∈ ba_resident ba)).
  - done.
  - unfold same_account. cbn. rewrite Hb, Hrun. split_and!; try done. by destruct (bool_decide _); rewrite Hg.
  - cbn. symmetry. apply bool_decide_eq_false. intros Hp. specialize (Hprev _ Hp). lia.
  - cbn. symmetry. apply bool_decide_eq_true. f_equal. lia.
  - intros p Hp. specialize (Hprev _ Hp). lia.
  - cbn. intros p [= <-]. lia.
Qed.

Lemma seqZ_ascends a n : StronglySorted Z.lt (seqZ a n).
Proof.
  destruct (Z.le_gt_cases 0 n) as [Hn|]; [|rewrite seqZ_nil by lia; constructor]. revert a. pattern n. apply natlike_ind; [intros a; constructor| |done].
  intros k Hk IH a. rewrite seqZ_cons by lia. replace (Z.pred (Z.succ k)) with k by lia. constructor; [apply IH|].
  apply Forall_forall. intros x Hx%elem_of_seqZ. lia.
Qed.

Lemma sorted_blocks_one m off n : block_size_ m = bs → in_file file off n → 0 < n → sorted_blocks m [mkRange off n] = blocks_of off n bs.
Proof.
  intros Hsz Hin Hn. destruct (sorted_blocks_spec m [mkRange off n] Hsz) as (Hs & _ & Hel); [by apply Forall_cons_2|].
  assert (StronglySorted Z.lt (blocks_of off n bs)) as Hs'.
  { unfold blocks_of. destruct (block_range _ _ _). apply seqZ_ascends. }
  apply (StronglySorted_unique Z.le); [by apply lt_sorted_le..|]. apply NoDup_Permutation; [by apply lt_sorted_nodup..|]. intros b. rewrite Hel, (block_of_range off n b Hin Hn). cbn [FileIO.offset len]. split.
  - intros (r & ->%list_elem_of_singleton & _ & ?). done.
  - intros ?. exists (mkRange off n). split; [by left|]. by split.
Qed.

(** A read accounts for what a batch of that one range would. *)
Lemma read_at_batch m off n :
  metering m → in_file file off n →
  metered_read_at m off n = (Ok (window file off n), (metered_read_batch m [mkRange off n]).2).
Proof.
  intros Hm Hin. pose proof Hm as [Hi Hsz _ _ _ _]. unfold metered_read_at, metered_read_batch. cbn [validate_each FileIO.offset len].
  rewrite validate_in, bind_Ok by done. cbn [length request_bytes foldr len]. rewrite Z.add_0_r. change (Z.of_nat 1) with 1.
  assert (account_blocks (count_request 1 n m) off n = account_batch (count_request 1 n m) [mkRange off n]) as ->.
  { unfold account_blocks, account_batch. destruct (Z.eqb_spec n 0) as [->|Hn]; [by destruct m as [? ? ? []]|].
    pose proof Hin as (? & ? & ?). rewrite (sorted_blocks_one (count_request 1 n m)) by (done || lia). change (block_size_ (count_request 1 n m)) with (block_size_ m). rewrite Hsz. unfold blocks_of. destruct (block_range off n bs) as [first last].
    destruct (Z.le_gt_cases 0 (last - first + 1)) as [Hl|Hl].
    - rewrite <- (Z2Nat.id (last - first + 1)) by done.
      destruct (account_same (count_request 1 n m) (Z.to_nat (last - first + 1)) first
        (mkAccount (resident_ m) (remote_bytes (metrics_ m)) (range_gets (metrics_ m)) false false)
        (mkBatchAccount (resident_ m) (remote_bytes (metrics_ m)) (range_gets (metrics_ m)) false None)) as (Hr & Hb & Hg & Hmi); [done|done|done|].
      cbn [count_request resident_ metrics_ remote_bytes range_gets] in *. by rewrite Hr, Hb, Hg, Hmi.
    - by rewrite !seqZ_nil by lia. }
  destruct (account_batch _ _) as [miss m'] eqn:Ha. cbv zeta. cbn [snd]. f_equal. rewrite inner_count_round.
  assert (inner_ m' = inner) as ->; [|by apply (serves_read_at _ _ Hserves)].
  unfold account_batch in Ha. injection Ha as _ <-. exact Hi.
Qed.
End Meter.

(** ** Properties *)

(** C22: over a reader that serves a file, a batch returns the bytes of its ranges
    and leaves the meter consistent: the touched blocks become resident, each run
    of adjacent missed blocks is one GET, a batch with a miss one round, and the
    bytes fetched remotely are those of the resident blocks, so never more than
    the file has. A single read does what a batch of its range does. *)
Theorem metered_exact file inner bs m rs :
  serves file inner → 0 < bs → zlen file < 2 ^ 63 → metering file inner bs m →
  Forall (λ r, in_file file (offset r) (len r)) rs →
  (∃ m', metered_read_batch m rs = (Ok (map (λ r, window file (offset r) (len r)) rs), m') ∧ metering file inner bs m' ∧
     accounts m m' (sorted_blocks m rs) ∧ remote_bytes (metrics_ m') ≤ zlen file ∧
     ∀ b, b ∈ resident_ m' ↔ b ∈ resident_ m ∨ ∃ r, r ∈ rs ∧ 0 < len r ∧ offset r / bs ≤ b ≤ (offset r + len r - 1) / bs) ∧
  ∀ r, r ∈ rs → metered_read_at m (offset r) (len r) = (Ok (window file (offset r) (len r)), (metered_read_batch m [r]).2).
Proof.
  intros Hs Hbs Hf Hm Hrs. split.
  - destruct (read_batch_ok file inner bs Hs Hbs Hf m rs Hm Hrs) as (m' & Hr & Hm' & Ha). exists m'. split; [done|]. split; [done|]. split; [done|]. split.
    + rewrite (me_bytes _ _ _ _ Hm'). apply (elements_bound file bs Hbs). apply (me_blocks _ _ _ _ Hm').
    + intros b. destruct Ha as (-> & _). rewrite elem_of_union, elem_of_list_to_set.
      destruct (sorted_blocks_spec file bs Hbs Hf m rs (me_size _ _ _ _ Hm) Hrs) as (_ & _ & Hel). by rewrite Hel.
  - intros [off n] Hr. rewrite Forall_forall in Hrs. apply (read_at_batch file inner bs Hs Hbs Hf m off n Hm). exact (Hrs _ Hr).
Qed.

(** A cold cache of blocks of four bytes over ten bytes: two ranges with a gap
    of one block are two GETs in one round. *)
Definition sample_meter : MeteredFileReader := metered (memory_file [0; 1; 2; 3; 4; 5; 6; 7; 8; 9]) 4.
Example sample_batch :
  metered_read_batch sample_meter [mkRange 8 2; mkRange 1 2] =
    (Ok [[8; 9]; [1; 2]], mkMeteredFileReader (inner_ sample_meter) 4 {[0; 2]} (mkIoMetrics 2 1 2 6 4)).
Proof. vm_compute. reflexivity. Qed.

Lemma metered_exact_witness :
  ∃ m', metered_read_batch sample_meter [mkRange 8 2; mkRange 1 2] = (Ok [[8; 9]; [1; 2]], m') ∧ remote_bytes (metrics_ m') ≤ 10.
Proof.
  destruct (metered_exact [0; 1; 2; 3; 4; 5; 6; 7; 8; 9] (memory_file [0; 1; 2; 3; 4; 5; 6; 7; 8; 9]) 4 sample_meter [mkRange 8 2; mkRange 1 2])
    as [(m' & Hr & _ & _ & Hb & _) _].
  - apply memory_file_serves.
  - lia.
  - by vm_compute.
  - apply metered_metering.
  - repeat apply Forall_cons_2; [by vm_compute..|apply Forall_nil_2].
  - exists m'. split; [exact Hr|exact Hb].
Defined.
