(* ===== verification/Bm25Scorer.v ===== *)
(** * Bm25Scorer: BM25 scores in double precision.

    [query/bm25_scorer.h] and [query/bm25_scorer.cpp]. A [double] is a value of
    the Standard Library's [SpecFloat] with the parameters of binary64, rounded
    to nearest even; every operation is one of its operations, without
    contraction of products and sums. [std::log] is the class [StdLog]. *)

From Stdlib Require Import SpecFloat.
From S2P Require Import Prelude StdAlgorithms.

#[local] Open Scope Z_scope.

(** ** Doubles *)

Definition double : Type := spec_float.
Definition dadd : double → double → double := SFadd 53 1024.
Definition dsub : double → double → double := SFsub 53 1024.
Definition dmul : double → double → double := SFmul 53 1024.
Definition ddiv : double → double → double := SFdiv 53 1024.
(** [<], [<=], [==] *)
Definition dltb : double → double → bool := SFltb.
Definition dleb : double → double → bool := SFleb.
Definition deqb : double → double → bool := SFeqb.
(** [static_cast<double>] of an unsigned integer. *)
Definition to_double (x : Z) : double := binary_normalize 53 1024 x 0 false.

Definition d0 : double := S754_zero false.
Definition d1 : double := S754_finite false 4503599627370496 (-52).
Definition d_half : double := S754_finite false 4503599627370496 (-53).
(** The double nearest to 1.2. *)
Definition d1_2 : double := S754_finite false 5404319552844595 (-52).
Definition d0_75 : double := S754_finite false 6755399441055744 (-53).
Definition d_minus_1 : double := S754_finite true 4503599627370496 (-52).

Example literals :
  [to_double 0; to_double 1; ddiv d1 (to_double 2); ddiv (to_double 12) (to_double 10); ddiv (to_double 3) (to_double 4); dsub d0 d1] =
  [d0; d1; d_half; d1_2; d0_75; d_minus_1].
Proof. vm_compute. reflexivity. Qed.

(** [std::max] *)
Definition dmax (a b : double) : double := if dltb a b then b else a.

Class StdLog := std_log : double → double.

Section Scorer.
Context `{StdLog}.

Record Bm25Params := mkBm25Params { k1 : double; b_ : double }.
Definition default_params : Bm25Params := mkBm25Params d1_2 d0_75.

Definition decode_norm (encoded : Z) : double := if encoded =? 0 then d1 else to_double encoded.

Definition encode_norm (doc_length : Z) : Z := u8 (Z.max 1 (Z.min doc_length 255)).

Record ScorerContext := mkScorerContext { idf_ : double; df_ : Z }.

Definition make (n df : Z) : ScorerContext :=
  let nn := to_double n in
  let dff := to_double df in
  mkScorerContext (std_log (dadd d1 (ddiv (dadd (dsub nn dff) d_half) (dadd dff d_half)))) df.

Definition score (ctx : ScorerContext) (tf encoded_norm : Z) (avgdl : double) (params : Bm25Params) : double :=
  let dl := decode_norm encoded_norm in
  let tff := to_double tf in
  let denom := dadd tff (dmul (k1 params) (dadd (dsub d1 (b_ params)) (ddiv (dmul (b_ params) dl) avgdl))) in
  ddiv (dmul (idf_ ctx) (dmul tff (dadd (k1 params) d1))) denom.

Definition max_score (ctx : ScorerContext) (max_freq min_norm : Z) (avgdl : double) (params : Bm25Params) : double :=
  score ctx max_freq min_norm avgdl params.
End Scorer.

(** ** The order of doubles *)

Definition is_nan (x : double) : Prop := x = S754_nan.

#[export] Instance is_nan_dec x : Decision (is_nan x).
Proof. unfold is_nan. destruct x; [right|right|left|right]; done. Defined.

(** The sign and class of a number, its exponent and its mantissa order it. *)
Definition key (x : double) : Z * Z * Z :=
  match x with
  | S754_infinity true => (-2, 0, 0)
  | S754_finite true m e => (-1, -e, Z.neg m)
  | S754_zero _ | S754_nan => (0, 0, 0)
  | S754_finite false m e => (1, e, Z.pos m)
  | S754_infinity false => (2, 0, 0)
  end.
Definition key_lt (a b : Z * Z * Z) : Prop := a.1.1 < b.1.1 ∨ a.1.1 = b.1.1 ∧ (a.1.2 < b.1.2 ∨ a.1.2 = b.1.2 ∧ a.2 < b.2).

Lemma compare_key x y :
  ¬ is_nan x → ¬ is_nan y →
  match SFcompare x y with
  | Some Lt => key_lt (key x) (key y)
  | Some Eq => key x = key y
  | Some Gt => key_lt (key y) (key x)
  | None => False
  end.
Proof.
  unfold key_lt. destruct x as [sx|[]| |[] mx ex], y as [sy|[]| |[] my ey]; intros Hx Hy; try (by destruct Hx); try (by destruct Hy);
    cbn; try lia; try done; change (Pos.compare_cont Eq mx my) with (Pos.compare mx my).
  - destruct (Z.compare_spec ex ey) as [->| |]; [|lia|lia]. destruct (Pos.compare_spec mx my) as [->| |]; cbn; [done|lia|lia].
  - destruct (Z.compare_spec ex ey) as [->| |]; [|lia|lia]. destruct (Pos.compare_spec mx my) as [->| |]; cbn; [done|lia|lia].
Qed.

Lemma dltb_key x y : ¬ is_nan x → ¬ is_nan y → dltb x y = true ↔ key_lt (key x) (key y).
Proof.
  intros Hx Hy. pose proof (compare_key x y Hx Hy) as Hc. unfold dltb, SFltb, key_lt in *.
  destruct (SFcompare x y) as [[]|]; [rewrite Hc; split; [done|lia]|by split|split; [done|lia]|done].
Qed.
Lemma deqb_key x y : ¬ is_nan x → ¬ is_nan y → deqb x y = true ↔ key x = key y.
Proof.
  intros Hx Hy. pose proof (compare_key x y Hx Hy) as Hc. unfold deqb, SFeqb, key_lt in *.
  destruct (SFcompare x y) as [[]|]; [by split|split; [done|intros He; rewrite He in Hc; lia]|split; [done|intros He; rewrite He in Hc; lia]|done].
Qed.

Lemma dleb_key x y : ¬ is_nan x → ¬ is_nan y → dleb x y = true ↔ ¬ key_lt (key y) (key x).
Proof.
  intros Hx Hy. pose proof (compare_key x y Hx Hy) as Hc. unfold dleb, SFleb, key_lt in *.
  destruct (SFcompare x y) as [[]|]; [rewrite Hc; split; [lia|done]|split; [lia|done]|split; [done|tauto]|done].
Qed.

Lemma key_lt_total a b : key_lt a b ∨ a = b ∨ key_lt b a.
Proof.
  destruct a as [[a1 a2] a3], b as [[b1 b2] b3]. unfold key_lt. cbn.
  destruct (Z.lt_trichotomy a1 b1) as [|[->|]]; [lia| |lia]. destruct (Z.lt_trichotomy a2 b2) as [|[->|]]; [lia| |lia].
  destruct (Z.lt_trichotomy a3 b3) as [|[->|]]; [lia|by right; left|lia].
Qed.
Lemma key_lt_trans a b c : key_lt a b → key_lt b c → key_lt a c.
Proof. unfold key_lt. lia. Qed.
Lemma key_lt_irrefl a : ¬ key_lt a a.
Proof. unfold key_lt. lia. Qed.

(** ** Doubles that are not negative *)

Definition nonneg (x : double) : Prop :=
  match x with S754_zero _ | S754_infinity false | S754_finite false _ _ => True | _ => False end.

#[export] Instance nonneg_dec x : Decision (nonneg x).
Proof. destruct x as [|[]| |[]]; cbn; apply _. Defined.

Lemma nonneg_num x : nonneg x → ¬ is_nan x.
Proof. by destruct x. Qed.

Lemma shr_1_nonneg mrs : 0 ≤ shr_m mrs → 0 ≤ shr_m (shr_1 mrs).
Proof. destruct mrs as [[|[m|m|]|m] r s]; cbn; lia. Qed.

Lemma shr_nonneg mrs e n : 0 ≤ shr_m mrs → 0 ≤ shr_m (shr mrs e n).1.
Proof.
  intros Hm. unfold shr. destruct n as [|p|p]; [done| |done]. cbn [fst].
  assert (∀ p mrs, 0 ≤ shr_m mrs → 0 ≤ shr_m (SpecFloat.iter_pos shr_1 p mrs)) as Hi; [|cbn [fst]; by apply Hi].
  clear. intros p. induction p as [p IH|p IH|]; intros mrs Hm; cbn; auto using shr_1_nonneg.
Qed.

Lemma shr_fexp_nonneg m e l : 0 ≤ m → 0 ≤ shr_m (shr_fexp 53 1024 m e l).1.
Proof. intros Hm. unfold shr_fexp. apply shr_nonneg. unfold shr_record_of_loc. by destruct l as [|[]]. Qed.

Lemma round_nonneg m e : nonneg (binary_round 53 1024 false m e).
Proof.
  unfold binary_round. destruct (shl_align _ _ _) as [mz ez]. unfold binary_round_aux.
  pose proof (shr_fexp_nonneg (Z.pos mz) ez loc_Exact ltac:(lia)) as H1. destruct (shr_fexp _ _ (Z.pos mz) ez loc_Exact) as [mrs e']. cbn [fst] in H1.
  assert (0 ≤ round_nearest_even (shr_m mrs) (loc_of_shr_record mrs)) as H2.
  { unfold round_nearest_even. destruct (loc_of_shr_record mrs) as [|[]]; try lia. destruct (Z.even _); lia. }
  pose proof (shr_fexp_nonneg _ e' loc_Exact H2) as H3. destruct (shr_fexp _ _ _ e' loc_Exact) as [mrs' e'']. cbn [fst] in H3.
  destruct (shr_m mrs'); [done|by destruct (_ <=? _)|lia].
Qed.

Lemma dadd_nonneg x y : nonneg x → nonneg y → nonneg (dadd x y).
Proof.
  destruct x as [[]|[]| |[] mx ex], y as [[]|[]| |[] my ey]; try done; intros _ _.
  unfold dadd. cbn [SFadd]. unfold binary_normalize. cbn [cond_Zopp].
  destruct (Z.pos _ + Z.pos _) eqn:E; [done|apply round_nonneg|lia].
Qed.

(** Adding to zero changes a number's sign of zero at most. *)
Lemma key_dadd_0 x : key (dadd d0 x) = key x.
Proof. by destruct x as [[]|[]| |[]]. Qed.
Lemma is_nan_dadd_0 x : is_nan (dadd d0 x) ↔ is_nan x.
Proof. by destruct x as [[]|[]| |[]]. Qed.
