(* ===== verification/StatsProvider.v ===== *)
(** * StatsProvider: the statistics BM25 needs of an index.

    [stats/snii_stats_provider.h] and [stats/snii_stats_provider.cpp]. The
    segment counts come from the stats block, df and ttf from the entry of a
    term, the length norm of a document from the norms read once. *)

From S2P Require Import Prelude StdAlgorithms Status ByteIO StatsBlock NormsPod DictEntry PerIndexMeta FileIO Bsbf BatchRangeFetcher LogicalIndexReader Bm25Scorer.

#[local] Open Scope Z_scope.

Record SniiStatsProvider := mkStatsProvider {
  sp_idx : LogicalIndexReader;
  doc_count_ : Z;
  indexed_doc_count_ : Z;
  sum_total_term_freq_ : Z;
  has_norms_ : bool;
  norms_reader_ : NormsPodReader.t
}.

Section Provider.
Context `{Zstd.ZstdOps} `{Sort} `{BsbfEnv}.

Definition open (idx : LogicalIndexReader) : result SniiStatsProvider :=
  let sb := stats idx in
  let norms := norms (section_refs idx) in
  let provider := mkStatsProvider idx (StatsBlock.doc_count sb) (indexed_doc_count sb) (sum_total_term_freq sb) in
  if length_ norms =? 0 then Ok (provider false (NormsPodReader.mk [] 0))
  else
    let '(h, fetcher) := add (PerIndexMeta.offset norms) (length_ norms) (new_fetcher 0) in
    fetcher ← fetch (reader_ idx) fetcher;
    framed ← get fetcher h;
    norms_reader ← NormsPodReader.open framed;
    Ok (provider true norms_reader).

Definition avgdl (p : SniiStatsProvider) : double :=
  let denom := Z.max 1 (indexed_doc_count_ p) in
  ddiv (to_double (sum_total_term_freq_ p)) (to_double denom).

Definition doc_freq (p : SniiStatsProvider) (term : bytes) : result Z :=
  found ← lookup (sp_idx p) term;
  Ok (match found with Some hit => df (hit_entry hit) | None => 0 end).

Definition total_term_freq (p : SniiStatsProvider) (term : bytes) : result Z :=
  found ← lookup (sp_idx p) term;
  Ok (match found with Some hit => ttf_delta (hit_entry hit) | None => 0 end).

Definition encoded_norm (p : SniiStatsProvider) (docid : Z) : result Z :=
  if negb (has_norms_ p) then Err (InvalidArgument "stats_provider: index has no norms")
  else NormsPodReader.try_encoded_norm (norms_reader_ p) docid.
End Provider.
