(* ===== verification/TopK.v ===== *)
(** * TopK: the heap of the best documents, and their ranking.

    [TopK], its [Cmp], and [DrainSorted] of [query/scoring_query.cpp]. A document
    ranks before another by a higher score, or an equal score and a smaller
    docid. The heap keeps the best [k] of the documents it was offered
    ([offer_keeps]), and the drain returns them in rank order ([DrainSorted_top]). *)

From S2P Require Import Prelude StdAlgorithms Status Bm25Scorer.

#[local] Open Scope Z_scope.

Record ScoredDoc := mkScoredDoc { docid : Z; sd_score : double }.

(** [(score, docid)] *)
Definition Entry : Type := double * Z.

Definition Cmp (a b : Entry) : bool :=
  if negb (deqb a.1 b.1) then dltb b.1 a.1 else a.2 <? b.2.

(** The comparator of the final sort. *)
Definition ranks_before (a b : ScoredDoc) : bool :=
  if negb (deqb (sd_score a) (sd_score b)) then dltb (sd_score b) (sd_score a) else docid a <? docid b.

Section Heap.
Context `{PriorityQueueOf Entry} `{StdSort}.

Record TopK := mkTopK { k_ : Z; heap_ : queue }.
Definition new_topk (k : Z) : TopK := mkTopK k queue_empty.

Definition offer (docid : Z) (score : double) (t : TopK) : TopK :=
  if queue_size (heap_ t) <? k_ t then mkTopK (k_ t) (queue_push Cmp (score, docid) (heap_ t))
  else
    match queue_pop Cmp (heap_ t) with
    | None => t
    | Some (worst, rest) =>
        let better := dltb worst.1 score || deqb score worst.1 && (docid <? worst.2) in
        if better then mkTopK (k_ t) (queue_push Cmp (score, docid) rest) else t
    end.

(** [top()] of a heap of no element is not defined; it does not happen for a
    positive [k]. *)
Definition threshold (t : TopK) : result double :=
  if queue_size (heap_ t) <? k_ t then Ok d_minus_1
  else match queue_pop Cmp (heap_ t) with Some (worst, _) => Ok worst.1 | None => Undef end.

(** The loop takes one element a round. *)
Fixpoint drain (fuel : nat) (q : queue) : list ScoredDoc :=
  match fuel, queue_pop Cmp q with
  | S fuel, Some (e, q) => mkScoredDoc e.2 e.1 :: drain fuel q
  | _, _ => []
  end.

Definition DrainSorted (t : TopK) : list ScoredDoc :=
  std_sort ranks_before (drain (Z.to_nat (queue_size (heap_ t))) (heap_ t)).

End Heap.

(** ** The ranking *)

Definition num (d : ScoredDoc) : Prop := ¬ is_nan (sd_score d).
Definition doc_of (e : Entry) : ScoredDoc := mkScoredDoc e.2 e.1.

Definition outranks (a b : ScoredDoc) : Prop :=
  key_lt (key (sd_score b)) (key (sd_score a)) ∨ key (sd_score a) = key (sd_score b) ∧ docid a < docid b.

Lemma ranks_before_iff a b : num a → num b → ranks_before a b = true ↔ outranks a b.
Proof.
  intros Ha Hb. unfold ranks_before, outranks. pose proof (deqb_key _ _ Ha Hb) as He. pose proof (dltb_key _ _ Hb Ha) as Hl.
  destruct (deqb _ _) eqn:E; cbn [negb].
  - apply proj1 in He. rewrite (He eq_refl). rewrite Z.ltb_lt. split; [by right|]. intros [Hk|[_ Hk]]; [by apply key_lt_irrefl in Hk|done].
  - rewrite Hl. split; [by left|]. intros [Hk|[Hk _]]; [done|]. by apply He in Hk.
Qed.

Lemma key_eq (a b : Z * Z * Z) : a = b ↔ a.1.1 = b.1.1 ∧ a.1.2 = b.1.2 ∧ a.2 = b.2.
Proof. destruct a as [[??]?], b as [[??]?]. cbn. split; [intros [= -> -> ->]; done|intros (-> & -> & ->); done]. Qed.

Ltac rank_lia := unfold outranks, key_lt in *; rewrite ?key_eq in *; lia.

Lemma ranks_before_false a b : num a → num b → ranks_before a b = false ↔ ¬ outranks a b.
Proof. intros Ha Hb. rewrite <- (ranks_before_iff a b Ha Hb). by destruct (ranks_before a b). Qed.

Lemma ranks_weak : strict_weak_on num ranks_before.
Proof.
  split.
  - intros a b Ha Hb Hab%ranks_before_iff; [|done..]. apply ranks_before_false; [done..|]. rank_lia.
  - intros a b c Ha Hb Hc Hab%ranks_before_false Hbc%ranks_before_false; [|done..]. apply ranks_before_false; [done..|]. rank_lia.
Qed.

(** Documents that rank alike are the same document. *)
Lemma ranks_antisym a b :
  num a → num b → ranks_before a b = false → ranks_before b a = false → docid a = docid b.
Proof. intros Ha Hb Hab%ranks_before_false Hba%ranks_before_false; [|done..]. rank_lia. Qed.

Lemma Cmp_weak : strict_weak_on (λ e, num (doc_of e)) Cmp.
Proof. destruct ranks_weak as [Has Htr]. split; [intros a b; apply (Has (doc_of a) (doc_of b))|intros a b c; apply (Htr (doc_of a) (doc_of b) (doc_of c))]. Qed.

(** The list [out] holds the best [k] documents of [all], in rank order. *)
Definition top_of (k : Z) (all out : list ScoredDoc) : Prop :=
  ∃ rest, all ≡ₚ out ++ rest ∧ StronglySorted (λ a b, ranks_before b a = false) out ∧
    (∀ a b, a ∈ out → b ∈ rest → ranks_before b a = false) ∧ zlen out = Z.min k (zlen all).

#[export] Instance top_of_proper k : Proper ((≡ₚ) ==> (=) ==> iff) (top_of k).
Proof.
  intros l l' Hl o o' ->. unfold top_of. by setoid_rewrite Hl.
Qed.

(** With one entry a document the ranking leaves one answer. *)
Lemma top_of_unique `{StdSortLaws} k all o1 o2 :
  NoDup (map docid all) → Forall num all → top_of k all o1 → top_of k all o2 → o1 = o2.
Proof.
  intros Hnd Hnum (r1 & Hp1 & Hs1 & Hr1 & Hl1) (r2 & Hp2 & Hs2 & Hr2 & Hl2).
  assert (∀ o r, all ≡ₚ o ++ r → StronglySorted (λ a b, ranks_before b a = false) o →
    (∀ a b, a ∈ o → b ∈ r → ranks_before b a = false) →
    StronglySorted (λ a b, ranks_before b a = false) (o ++ std_sort ranks_before r) ∧ o ++ std_sort ranks_before r ≡ₚ all) as Hsort.
  { intros o r Hp Hs Hr. assert (Forall num r) as Hnr by (rewrite Hp in Hnum; by apply Forall_app in Hnum as [_ ?]).
    pose proof (std_sort_perm num ranks_before r ranks_weak Hnr) as Hpr. split; [|by rewrite Hp, Hpr].
    apply StronglySorted_app_2; [|done|by apply (std_sort_sorted num); [apply ranks_weak|]].
    intros a b Ha Hb. apply Hr; [done|]. by rewrite <- Hpr. }
  destruct (Hsort o1 r1 Hp1 Hs1 Hr1) as [Ha1 Hq1], (Hsort o2 r2 Hp2 Hs2 Hr2) as [Ha2 Hq2].
  assert (o1 ++ std_sort ranks_before r1 = o2 ++ std_sort ranks_before r2) as He.
  { eapply (StronglySorted_unique_strong (λ a b, ranks_before b a = false)); [|done|done|by rewrite Hq1, Hq2].
    intros x y Hx Hy Hxy Hyx. rewrite Hq1 in Hx. rewrite Hq2 in Hy. rewrite Forall_forall in Hnum.
    pose proof (ranks_antisym x y (Hnum _ Hx) (Hnum _ Hy) Hyx Hxy) as Hd.
    apply list_elem_of_lookup in Hx as [i Hi], Hy as [j Hj].
    assert (i = j) as ->; [|congruence]. eapply (NoDup_lookup (map docid all)); [done| |]; rewrite list_lookup_fmap; [by rewrite Hi|].
    rewrite Hj. cbn. by rewrite Hd. }
  apply app_inj_1 in He as [? _]; [done|]. lia.
Qed.

(** ** The heap keeps the best *)

Section Keeps.
Context `{PriorityQueueOf Entry}.

Definition kept (t : TopK) : list ScoredDoc := map doc_of (queue_elems (heap_ t)).

(** The state of the heap behind the [offers]. *)
Definition keeps (k : Z) (offers : list ScoredDoc) (t : TopK) : Prop :=
  k_ t = k ∧ ∃ dropped, offers ≡ₚ kept t ++ dropped ∧ zlen (kept t) = Z.min k (zlen offers) ∧
    ∀ a b, a ∈ kept t → b ∈ dropped → ranks_before b a = false.

#[export] Instance keeps_proper k : Proper ((≡ₚ) ==> (=) ==> iff) (keeps k).
Proof. intros l l' Hl t t' ->. unfold keeps. by setoid_rewrite Hl. Qed.

Lemma new_topk_keeps k : 0 ≤ k → keeps k [] (new_topk k).
Proof.
  intros Hk. split; [done|]. exists []. unfold kept, new_topk. cbn [heap_]. rewrite queue_empty_spec. cbn. split_and!; [done|lia|set_solver].
Qed.

(** The worst of a full heap. *)
Lemma full_heap k offers t :
  0 < k → Forall num offers → keeps k offers t → k ≤ queue_size (heap_ t) →
  ∃ worst rest, queue_pop Cmp (heap_ t) = Some (worst, rest) ∧ kept t ≡ₚ doc_of worst :: map doc_of (queue_elems rest) ∧
    ∀ a, a ∈ kept t → ranks_before (doc_of worst) a = false.
Proof.
  intros Hk Hnum (_ & dropped & Hp & Hl & _) Hfull. rewrite queue_size_spec in Hfull.
  assert (Forall (λ e, num (doc_of e)) (queue_elems (heap_ t))) as Hn.
  { rewrite Hp in Hnum. apply Forall_app in Hnum as [Hn _]. unfold kept in Hn. by rewrite Forall_fmap in Hn. }
  pose proof (queue_pop_spec Cmp (heap_ t) _ Cmp_weak Hn) as Hpop. destruct (queue_pop Cmp (heap_ t)) as [[worst rest]|].
  - destruct Hpop as [He Hw]. exists worst, rest. split; [done|].
    assert (kept t ≡ₚ doc_of worst :: map doc_of (queue_elems rest)) as Hkept.
    { unfold kept. change (doc_of worst :: map doc_of (queue_elems rest)) with (map doc_of (worst :: queue_elems rest)). by rewrite He. }
    split; [done|]. intros a Ha. rewrite Hkept in Ha.
    assert (num (doc_of worst)) as Hnw by (rewrite He in Hn; by apply Forall_cons in Hn as [? _]).
    apply elem_of_cons in Ha as [->|Ha].
    + apply ranks_before_false; [done..|]. rank_lia.
    + apply list_elem_of_fmap in Ha as (e & -> & He'). rewrite Forall_forall in Hw. exact (Hw e He').
  - rewrite Hpop in Hfull. cbn in Hfull. lia.
Qed.

(** A document that nothing kept ranks behind may be dropped. *)
Lemma keeps_drop k offers t x :
  keeps k offers t → k ≤ queue_size (heap_ t) → (∀ a, a ∈ kept t → ranks_before x a = false) → keeps k (x :: offers) t.
Proof.
  intros (Hk & dropped & Hp & Hl & Hd) Hfull Hx. split; [done|]. exists (x :: dropped). split_and!.
  - rewrite Hp. by apply Permutation_middle.
  - rewrite queue_size_spec in Hfull. unfold kept in *. rewrite length_map in *. cbn [length]. lia.
  - intros a b Ha [->|Hb]%elem_of_cons; auto.
Qed.

Lemma offer_keeps k offers t d s :
  0 < k → Forall num offers → num (mkScoredDoc d s) → keeps k offers t →
  keeps k (mkScoredDoc d s :: offers) (offer d s t).
Proof.
  intros Hk Hnum Hn Hkeeps. pose proof Hkeeps as (Hkt & dropped & Hp & Hl & Hd). unfold offer.
  destruct (Z.ltb_spec (queue_size (heap_ t)) (k_ t)) as [Hlt|Hge].
  - split; [done|]. rewrite queue_size_spec in Hlt. unfold kept in *. rewrite length_map in Hl.
    assert (dropped = []) as -> by (apply Permutation_length in Hp; rewrite length_app, length_map in Hp; apply nil_length_inv; lia).
    exists []. cbn [heap_]. rewrite queue_push_spec. cbn [map]. split_and!; [by rewrite app_nil_r in *; rewrite Hp|cbn [length]; rewrite length_map; lia|set_solver].
  - rewrite Hkt in Hge. destruct (full_heap k offers t Hk Hnum Hkeeps Hge) as (worst & rest & -> & Hw & Hworst).
    set (x := mkScoredDoc d s) in *.
    assert (Forall num (kept t)) as Hnk by (rewrite Hp in Hnum; by apply Forall_app in Hnum as [? _]).
    assert (num (doc_of worst)) as Hnw by (rewrite Hw in Hnk; by apply Forall_cons in Hnk as [? _]).
    assert (Forall num dropped) as Hnd by (rewrite Hp in Hnum; by apply Forall_app in Hnum as [_ ?]).
    destruct ranks_weak as [Has Htr].
    assert (dltb worst.1 s || deqb s worst.1 && (d <? worst.2) = ranks_before x (doc_of worst)) as ->.
    { unfold ranks_before, x, doc_of. cbn [sd_score docid]. destruct (deqb s worst.1) eqn:E; cbn [negb andb]; [|by rewrite orb_false_r].
      apply (deqb_key s worst.1) in E; [|done..]. destruct (dltb worst.1 s) eqn:El; [|done].
      apply (dltb_key worst.1 s) in El; [|done..]. rewrite E in El. by apply key_lt_irrefl in El. }
    destruct (ranks_before x (doc_of worst)) eqn:Hx.
    + assert (kept (mkTopK (k_ t) (queue_push Cmp (s, d) rest)) ≡ₚ x :: map doc_of (queue_elems rest)) as Hnew.
      { unfold kept. cbn [heap_]. by rewrite queue_push_spec. }
      split; [done|]. exists (doc_of worst :: dropped). rewrite Hnew. split_and!.
      * rewrite Hp, Hw. cbn. f_equiv. apply Permutation_middle.
      * rewrite queue_size_spec in Hge. rewrite Hw in Hl. unfold kept in Hw. apply Permutation_length in Hw. rewrite length_map in Hw.
        cbn [length] in *. lia.
      * intros a b Ha. rewrite Hnew in Ha. revert a b Ha. intros a b [-> |Ha]%elem_of_cons [-> |Hb]%elem_of_cons.
        -- by apply Has.
        -- rewrite Forall_forall in Hnd. apply (Htr b (doc_of worst) x); auto. apply Hd; [|done]. rewrite Hw. by left.
        -- apply Hworst. rewrite Hw. by right.
        -- apply Hd; [|done]. rewrite Hw. by right.
    + apply keeps_drop; [done..|]. intros a Ha. rewrite Forall_forall in Hnk. apply (Htr x (doc_of worst) a); auto.
Qed.

Lemma threshold_full k offers t :
  0 < k → Forall num offers → keeps k offers t →
  ∃ theta, threshold t = Ok theta ∧
    (theta = d_minus_1 ∨ k ≤ queue_size (heap_ t) ∧ ∃ worst, num (doc_of worst) ∧ theta = worst.1 ∧ ∀ a, a ∈ kept t → ranks_before (doc_of worst) a = false).
Proof.
  intros Hk Hnum Hkeeps. pose proof Hkeeps as (Hkt & dropped & Hp & _ & _). unfold threshold. rewrite Hkt.
  destruct (Z.ltb_spec (queue_size (heap_ t)) k) as [|Hge]; [eauto|].
  destruct (full_heap k offers t Hk Hnum Hkeeps Hge) as (worst & rest & -> & Hw & Hworst). exists worst.1. split; [done|]. right.
  split; [done|]. exists worst. split_and!; try done. rewrite Hp, Hw in Hnum. by apply Forall_cons in Hnum as [? _].
Qed.

(** Documents whose scores stay below a bound under the threshold are not missed. *)
Lemma keeps_pruned k offers t theta bound more :
  0 < k → Forall num offers → keeps k offers t → threshold t = Ok theta → ¬ is_nan bound → dleb theta bound = false →
  dleb d_minus_1 bound = true → Forall (λ x, num x ∧ dleb (sd_score x) bound = true) more → keeps k (more ++ offers) t.
Proof.
  intros Hk Hnum Hkeeps Hth Hb Htb H1 Hmore. destruct (threshold_full k offers t Hk Hnum Hkeeps) as (theta' & Hth' & Hcase).
  rewrite Hth in Hth'. injection Hth' as <-. destruct Hcase as [-> | (Hfull & worst & Hnw & -> & Hworst)]; [congruence|].
  assert (Forall num (kept t)) as Hnk.
  { destruct Hkeeps as (_ & dropped & Hp & _). rewrite Hp in Hnum. by apply Forall_app in Hnum as [? _]. }
  induction Hmore as [|x more [Hnx Hx] Hmore IH]; [done|]. cbn [app]. apply keeps_drop; [done..|]. intros a Ha.
  rewrite Forall_forall in Hnk. destruct ranks_weak as [_ Htr]. apply (Htr x (doc_of worst) a); auto.
  apply ranks_before_false; [done..|]. rewrite dleb_key in Hx by done.
  assert (¬ ¬ key_lt (key bound) (key worst.1)) as Hbw by (intros Hn; apply (dleb_key worst.1 bound) in Hn; [congruence|done..]).
  destruct (key_lt_total (key bound) (key worst.1)) as [Hlt|[He|Hlt]]; [unfold outranks, doc_of; cbn [sd_score docid]; rank_lia|..].
  - exfalso. apply Hbw. rewrite He. apply key_lt_irrefl.
  - exfalso. apply Hbw. intros Hc. pose proof (key_lt_trans _ _ _ Hlt Hc) as Hi. by apply key_lt_irrefl in Hi.
Qed.

Lemma drain_all q fuel :
  Forall (λ e, num (doc_of e)) (queue_elems q) → (length (queue_elems q) ≤ fuel)%nat →
  drain fuel q ≡ₚ map doc_of (queue_elems q).
Proof.
  revert q. induction fuel as [|fuel IH]; intros q Hn Hf; cbn [drain].
  { by destruct (queue_elems q); [|cbn in Hf; lia]. }
  pose proof (queue_pop_spec Cmp q _ Cmp_weak Hn) as Hpop. destruct (queue_pop Cmp q) as [[e q']|]; [|by rewrite Hpop].
  destruct Hpop as [He _]. rewrite He in Hn, Hf |- *. apply Forall_cons in Hn as [_ Hn]. cbn [map]. constructor. apply IH; [done|].
  cbn [length] in Hf. lia.
Qed.

(** The drained heap: the best [k] offers in rank order. *)
Lemma DrainSorted_top `{StdSortLaws} k offers t :
  Forall num offers → keeps k offers t → top_of k offers (DrainSorted t).
Proof.
  intros Hnum (_ & dropped & Hp & Hl & Hd). unfold DrainSorted.
  assert (Forall num (kept t)) as Hnk by (rewrite Hp in Hnum; by apply Forall_app in Hnum as [? _]).
  assert (drain (Z.to_nat (queue_size (heap_ t))) (heap_ t) ≡ₚ kept t) as Hdr.
  { apply drain_all; [unfold kept in Hnk; by rewrite Forall_fmap in Hnk|]. rewrite queue_size_spec. lia. }
  assert (Forall num (drain (Z.to_nat (queue_size (heap_ t))) (heap_ t))) as Hnd by by rewrite Hdr.
  pose proof (std_sort_perm num ranks_before _ ranks_weak Hnd) as Hs. exists dropped. split_and!.
  - by rewrite Hs, Hdr.
  - by apply (std_sort_sorted num); [apply ranks_weak|].
  - intros a b Ha. rewrite Hs, Hdr in Ha. by apply Hd.
  - by rewrite Hs, Hdr.
Qed.
End Keeps.

(** A sorted list cut after [k] documents. *)
Lemma sorted_cut_top `{StdSortLaws} k all :
  0 ≤ k → Forall num all →
  top_of k all (if k <? zlen (std_sort ranks_before all) then take (Z.to_nat k) (std_sort ranks_before all) else std_sort ranks_before all).
Proof.
  intros Hk Hnum. pose proof (std_sort_perm num ranks_before all ranks_weak Hnum) as Hp.
  pose proof (std_sort_sorted num ranks_before all ranks_weak Hnum) as Hs. set (l := std_sort ranks_before all) in *.
  assert ((if k <? zlen l then take (Z.to_nat k) l else l) = take (Z.to_nat k) l) as ->.
  { destruct (Z.ltb_spec k (zlen l)); [done|]. by rewrite take_ge by lia. }
  rewrite <- (take_drop (Z.to_nat k) l) in Hs. apply StronglySorted_app in Hs as (Hc & Hs & _).
  exists (drop (Z.to_nat k) l). split_and!; [by rewrite take_drop, Hp|done|done|]. rewrite length_take, <- Hp. lia.
Qed.
