(* ===== verification/ScoringQuery.v ===== *)
(** * ScoringQuery: top-k retrieval by BM25 score.

    [query/scoring_query.h] and the part of [query/scoring_query.cpp] that reads
    whole postings: the exhaustive query and the block-max WAND query. The
    selective variant is in [SelectiveWand]. The null checks of the out-pointers
    are not modelled.

    The theory: what the exhaustive query sums ([exhaustive_top_ok]), that every
    round of the WAND loop moves a cursor ([wand_top_ends]), that cursors stay
    within their postings, and when one cursor is ranked exactly
    ([wand_one_exact]): its bounds must cover what follows, as the single window
    of the fallback does and several windows need not. *)

From stdpp Require Import gmap.
From S2P Require Import Prelude StdAlgorithms Status ByteIO FormatConstants Zstd FrqPod FrqPrelude DictEntry PerIndexMeta.
From S2P Require Import FileIO Bsbf BatchRangeFetcher LogicalIndexReader WindowedPosting Bm25Scorer StatsProvider TopK.

#[local] Open Scope Z_scope.

Record TermPosting := mkTermPosting { tp_docid : Z; tp_score : double }.

Record WindowBound := mkWindowBound { first_docid : Z; wb_last_docid : Z; wb_max_score : double; block_max : bool }.

Record TermCursor := mkTermCursor { postings : list TermPosting; windows : list WindowBound; pos : nat }.

Definition set_pos (p : nat) (c : TermCursor) : TermCursor := mkTermCursor (postings c) (windows c) p.

Definition CurrentDoc (c : TermCursor) : Z :=
  match postings c !! pos c with Some p => tp_docid p | None => UINT32_MAX end.

(** The iteration order of [std::unordered_map<uint32_t, double>]. *)
Class UnorderedMap := um_iterate : gmap Z double → list (Z * double).
Class UnorderedMapLaws `{UnorderedMap} := um_iterate_perm m : um_iterate m ≡ₚ map_to_list m.

(** ** Reading the postings of a term *)

Section Cursors.
Context `{Zstd.ZstdOps} `{Sort} `{BsbfEnv} `{StdLog}.

Definition FetchSlimWindowBytes (idx : LogicalIndexReader) (entry : DictEntry) (frq_base : Z) : result Slice :=
  if decide (kind entry = kInline) then Ok (frq_bytes entry)
  else
    '(win_abs, win_len) ← resolve_frq_window idx entry frq_base;
    let '(h, fetcher) := add win_abs win_len (new_fetcher 0) in
    fetcher ← fetch (reader_ idx) fetcher;
    get fetcher h.

Definition FetchPrelude (idx : LogicalIndexReader) (entry : DictEntry) (frq_base : Z) : result FrqPreludeReader :=
  let '(h, fetcher) := add (PreludeAbs idx entry frq_base) (prelude_len entry) (new_fetcher 0) in
  fetcher ← fetch (reader_ idx) fetcher;
  bytes ← get fetcher h;
  FrqPrelude.open bytes.

(** The bound of window [w], pushed on [windows]. *)
Definition push_bound (prelude : FrqPreludeReader) (ctx : ScorerContext) (avgdl : double) (params : Bm25Params)
    (w : Z) (windows : list WindowBound) : result (list WindowBound) :=
  m ← FrqPrelude.window prelude w;
  if doc_count m =? 0 then Ok windows
  else
    Ok (windows ++ [mkWindowBound (u32 (u32 (win_base m) + (if w =? 0 then 0 else 1))) (last_docid m)
                      (max_score ctx (FrqPrelude.max_freq m) (max_norm m) avgdl params) true]).

Definition BuildWindowBounds (prelude : FrqPreludeReader) (ctx : ScorerContext) (avgdl : double) (params : Bm25Params)
    : result (list WindowBound) :=
  fold_result (push_bound prelude ctx avgdl params) (seqZ 0 (n_windows prelude)) [].

Definition SingleWindowFallback (postings : list TermPosting) : list WindowBound :=
  match postings with
  | [] => []
  | p :: _ =>
      [mkWindowBound (tp_docid p) (tp_docid (List.last postings p))
         (foldl (λ m q, dmax m (tp_score q)) d0 postings) false]
  end.

(** The posting of the [i]-th document, pushed on [out]. *)
Definition score_posting (sp : SniiStatsProvider) (ctx : ScorerContext) (params : Bm25Params) (docids freqs : list Z)
    (i : nat) (out : list TermPosting) : result (list TermPosting) :=
  let d := docids !!! i in
  norm ← encoded_norm sp d;
  let tf := default 1 (freqs !! i) in
  Ok (out ++ [mkTermPosting d (score ctx tf norm (avgdl sp) params)]).

Definition ScoreDecoded (sp : SniiStatsProvider) (ctx : ScorerContext) (params : Bm25Params) (docids freqs : list Z)
    : result (list TermPosting) :=
  fold_result (score_posting sp ctx params docids freqs) (seq 0 (length docids)) [].

(** [*docids] and [*freqs]. *)
Definition DecodeSlim (idx : LogicalIndexReader) (entry : DictEntry) (frq_base : Z) : result (list Z * list Z) :=
  window ← FetchSlimWindowBytes idx entry frq_base;
  let dd_len := disk_len (dd_meta entry) in
  _ ← reject_if (zlen window <? dd_len) (Corruption "scoring_query: slim dd region exceeds window");
  dd_region ← subslice window 0 dd_len;
  docids ← decode_dd_region dd_region (dd_meta entry) 0;
  freq_region ← subslice window dd_len (zlen window - dd_len);
  freqs ← decode_freq_region freq_region (freq_meta entry) (zlen docids);
  Ok (docids, freqs).

Definition BuildWindowedCursor (idx : LogicalIndexReader) (sp : SniiStatsProvider) (ctx : ScorerContext)
    (entry : DictEntry) (frq_base prx_base : Z) (params : Bm25Params) : result TermCursor :=
  posting ← read_windowed_posting idx entry frq_base prx_base false true;
  postings ← ScoreDecoded sp ctx params (WindowedPosting.docids posting) (WindowedPosting.freqs posting);
  match FetchPrelude idx entry frq_base with
  | Ok prelude =>
      windows ← BuildWindowBounds prelude ctx (avgdl sp) params;
      Ok (mkTermCursor postings windows 0)
  | Err _ => Ok (mkTermCursor postings [] 0)
  | Undef => Undef
  end.

Definition is_windowed (entry : DictEntry) : bool :=
  bool_decide (kind entry = kPodRef) && bool_decide (enc entry = kWindowed).

(** [None] for a term that is not [*found]. *)
Definition BuildCursor (idx : LogicalIndexReader) (sp : SniiStatsProvider) (term : bytes) (params : Bm25Params)
    : result (option TermCursor) :=
  found ← lookup idx term;
  match found with
  | None => Ok None
  | Some hit =>
      let entry := hit_entry hit in
      let ctx := make (indexed_doc_count_ sp) (df entry) in
      cursor ←
        (if is_windowed entry then
           BuildWindowedCursor idx sp ctx entry (hit_frq_base hit) (hit_prx_base hit) params
         else
           '(docids, freqs) ← DecodeSlim idx entry (hit_frq_base hit);
           postings ← ScoreDecoded sp ctx params docids freqs;
           Ok (mkTermCursor postings [] 0));
      Ok (Some (match windows cursor with
                | [] => mkTermCursor (postings cursor) (SingleWindowFallback (postings cursor)) (pos cursor)
                | _ => cursor
                end))
  end.

Definition push_cursor (idx : LogicalIndexReader) (sp : SniiStatsProvider) (params : Bm25Params) (term : bytes)
    (cursors : list TermCursor) : result (list TermCursor) :=
  c ← BuildCursor idx sp term params;
  Ok (match c with
      | Some c => match postings c with [] => cursors | _ => cursors ++ [c] end
      | None => cursors
      end).

Definition BuildCursors (idx : LogicalIndexReader) (sp : SniiStatsProvider) (terms : list bytes) (params : Bm25Params)
    : result (list TermCursor) :=
  fold_result (push_cursor idx sp params) terms [].
End Cursors.

Definition TermBoundAt (c : TermCursor) (docid : Z) : double :=
  match List.find (λ w, docid <=? wb_last_docid w) (windows c) with
  | Some w => wb_max_score w
  | None => d0
  end.

(** ** The queries *)

Section Queries.
Context `{PriorityQueueOf Entry} `{StdSort}.

Context `{UnorderedMap}.

(** [scores[p.docid] += p.score] *)
Definition add_score (scores : gmap Z double) (p : TermPosting) : gmap Z double :=
  <[tp_docid p := dadd (default d0 (scores !! tp_docid p)) (tp_score p)]> scores.

(** [scoring_query_exhaustive] behind the cursors. *)
Definition exhaustive_top (k : Z) (cursors : list TermCursor) : list ScoredDoc :=
  let scores := foldl (λ s c, foldl add_score s (postings c)) ∅ cursors in
  let all := map (λ kv, mkScoredDoc kv.1 kv.2) (um_iterate scores) in
  let all := std_sort ranks_before all in
  if k <? zlen all then take (Z.to_nat k) all else all.

(** The pivot's document: the first cursor at which the bounds reach [theta]. *)
Fixpoint find_pivot (theta bound : double) (cursors : list TermCursor) : option Z :=
  match cursors with
  | [] => None
  | c :: cursors =>
      let d := CurrentDoc c in
      if d =? UINT32_MAX then None
      else
        let bound := dadd bound (TermBoundAt c d) in
        if dleb theta bound then Some d else find_pivot theta bound cursors
  end.

Fixpoint score_pivot (pivot_doc : Z) (doc_score : double) (cursors : list TermCursor) : double * list TermCursor :=
  match cursors with
  | [] => (doc_score, [])
  | c :: cursors =>
      if CurrentDoc c =? pivot_doc then
        let doc_score := match postings c !! pos c with Some p => dadd doc_score (tp_score p) | None => doc_score end in
        let '(doc_score, cursors) := score_pivot pivot_doc doc_score cursors in
        (doc_score, set_pos (S (pos c)) c :: cursors)
      else
        let '(doc_score, cursors) := score_pivot pivot_doc doc_score cursors in
        (doc_score, c :: cursors)
  end.

(** How many documents lead the list below [target]. *)
Fixpoint below (target : Z) (ps : list TermPosting) : nat :=
  match ps with
  | p :: ps => if tp_docid p <? target then S (below target ps) else 0
  | [] => 0
  end.

Definition skip_to (target : Z) (c : TermCursor) : TermCursor :=
  set_pos (pos c + below target (drop (pos c) (postings c))) c.

Fixpoint advance_lagging (pivot_doc : Z) (cursors : list TermCursor) : list TermCursor :=
  match cursors with
  | [] => []
  | c :: cursors =>
      if CurrentDoc c <? pivot_doc then skip_to pivot_doc c :: cursors else c :: advance_lagging pivot_doc cursors
  end.

(** One round of the loop; [None] is a [break]. *)
Definition wand_step (cursors : list TermCursor) (topk : TopK) : result (option (list TermCursor * TopK)) :=
  let cursors := std_sort (λ a b, CurrentDoc a <? CurrentDoc b) cursors in
  match cursors with
  | [] => Ok None
  | front :: _ =>
      if CurrentDoc front =? UINT32_MAX then Ok None
      else
        theta ← threshold topk;
        match find_pivot theta d0 cursors with
        | None => Ok None
        | Some pivot_doc =>
            if CurrentDoc front =? pivot_doc then
              let '(doc_score, cursors) := score_pivot pivot_doc d0 cursors in
              Ok (Some (cursors, offer pivot_doc doc_score topk))
            else Ok (Some (advance_lagging pivot_doc cursors, topk))
        end
  end.

(** Every round moves a cursor: [wand_fuel] rounds are enough. [None] is out of
    fuel. *)
Fixpoint wand_loop (fuel : nat) (cursors : list TermCursor) (topk : TopK) : result (option TopK) :=
  match fuel with
  | O => Ok None
  | S fuel =>
      next ← wand_step cursors topk;
      match next with
      | None => Ok (Some topk)
      | Some (cursors, topk) => wand_loop fuel cursors topk
      end
  end.

Definition remaining (c : TermCursor) : nat := length (postings c) - pos c.
Definition wand_fuel (cursors : list TermCursor) : nat := S (sum_list_with remaining cursors).

(** [scoring_query_wand] behind the cursors. *)
Definition wand_top (k : Z) (cursors : list TermCursor) : result (option (list ScoredDoc)) :=
  topk ← wand_loop (wand_fuel cursors) cursors (new_topk k);
  Ok (option_map DrainSorted topk).

Context `{Zstd.ZstdOps} `{Sort} `{BsbfEnv} `{StdLog}.

Definition scoring_query_exhaustive (idx : LogicalIndexReader) (sp : SniiStatsProvider) (terms : list bytes) (k : Z)
    (params : Bm25Params) : result (list ScoredDoc) :=
  if k =? 0 then Ok []
  else
    cursors ← BuildCursors idx sp terms params;
    Ok (exhaustive_top k cursors).

(** [None] only if the fuel were too little. *)
Definition scoring_query_wand (idx : LogicalIndexReader) (sp : SniiStatsProvider) (terms : list bytes) (k : Z)
    (params : Bm25Params) : result (option (list ScoredDoc)) :=
  if k =? 0 then Ok (Some [])
  else
    cursors ← BuildCursors idx sp terms params;
    wand_top k cursors.
End Queries.

(** ** What the exhaustive query sums *)

Definition all_postings (cursors : list TermCursor) : list TermPosting := concat (map postings cursors).

(** The scores of one document, in the order of the terms, and their sum. *)
Definition scores_of (d : Z) (ps : list TermPosting) : list double := map tp_score (filter (λ p, tp_docid p = d) ps).
Definition doc_score (ps : list TermPosting) (d : Z) : double := foldl dadd d0 (scores_of d ps).

(** Every document that holds a term, with the sum of its scores. *)
Definition scored_docs (ps : list TermPosting) : list ScoredDoc :=
  map (λ d, mkScoredDoc d (doc_score ps d)) (remove_dups (map tp_docid ps)).

Lemma scored_docs_ids ps : NoDup (map docid (scored_docs ps)).
Proof. unfold scored_docs. rewrite map_map. cbn [docid]. rewrite map_id. apply NoDup_remove_dups. Qed.

Lemma foldl_concat {A B} (f : A → B → A) (ls : list (list B)) a :
  foldl (λ a l, foldl f a l) a ls = foldl f a (concat ls).
Proof. revert a. induction ls as [|l ls IH]; intros a; cbn; [done|]. by rewrite foldl_app, IH. Qed.

Lemma foldl_map {A B C} (f : A → C → A) (g : B → C) (l : list B) a : foldl f a (map g l) = foldl (λ a x, f a (g x)) a l.
Proof. revert a. induction l as [|x l IH]; intros a; cbn; [done|]. by rewrite IH. Qed.

Lemma add_scores_lookup ps (m : gmap Z double) d :
  foldl add_score m ps !! d =
    match scores_of d ps with [] => m !! d | l => Some (foldl dadd (default d0 (m !! d)) l) end.
Proof.
  revert m. induction ps as [|p ps IH]; intros m; [done|]. cbn [foldl]. rewrite IH. unfold scores_of, add_score.
  rewrite filter_cons. destruct (decide (tp_docid p = d)) as [<-|Hne]; cbn [map].
  - rewrite lookup_insert_eq. cbn [default foldl]. by destruct (map _ _).
  - by rewrite lookup_insert_ne by done.
Qed.

Lemma scores_of_elem d ps : scores_of d ps ≠ [] ↔ d ∈ map tp_docid ps.
Proof.
  unfold scores_of. rewrite list_elem_of_fmap. split.
  - destruct (filter _ ps) as [|p l] eqn:E; [done|]. intros _. exists p.
    assert (p ∈ filter (λ p, tp_docid p = d) ps) as Hp by (rewrite E; by left). apply list_elem_of_filter in Hp as [? ?]. done.
  - intros (p & -> & Hp) Hf. apply map_eq_nil in Hf.
    assert (p ∈ filter (λ q, tp_docid q = tp_docid p) ps) as Hin by by apply list_elem_of_filter. rewrite Hf in Hin. by apply elem_of_nil in Hin.
Qed.

(** Sums of scores that are not negative are numbers. *)
Lemma scored_docs_num ps : Forall (λ p, nonneg (tp_score p)) ps → Forall num (scored_docs ps).
Proof.
  intros Hps. apply Forall_fmap, Forall_forall. intros d _. apply nonneg_num. unfold compose. cbn [sd_score]. unfold doc_score.
  assert (Forall nonneg (scores_of d ps)) as Hs.
  { apply Forall_fmap, Forall_forall. intros p [_ Hp]%list_elem_of_filter. rewrite Forall_forall in Hps. by apply Hps. }
  assert (nonneg d0) as Hz by done. revert Hs Hz. generalize d0. induction (scores_of d ps) as [|s l IH]; intros z Hs Hz; cbn; [done|].
  apply Forall_cons in Hs as [Hs Hl]. apply IH; [done|]. by apply dadd_nonneg.
Qed.

Section Exhaustive.
Context `{StdSortLaws} `{UnorderedMapLaws}.

Lemma scored_map cursors :
  map (λ kv, mkScoredDoc kv.1 kv.2) (um_iterate (foldl (λ s c, foldl add_score s (postings c)) ∅ cursors)) ≡ₚ scored_docs (all_postings cursors).
Proof.
  rewrite um_iterate_perm. rewrite <- (foldl_map (λ s ps, foldl add_score s ps) postings), foldl_concat.
  fold (all_postings cursors). set (m := foldl add_score ∅ (all_postings cursors)).
  apply NoDup_Permutation.
  - apply NoDup_fmap_2; [intros [] [] [= -> ->]; done|]. apply NoDup_map_to_list.
  - eapply (NoDup_fmap_1 docid), scored_docs_ids.
  - intros [d s]. unfold scored_docs. rewrite !list_elem_of_fmap.
    assert (m !! d = Some s ↔ d ∈ map tp_docid (all_postings cursors) ∧ s = doc_score (all_postings cursors) d) as Hm.
    { unfold m. rewrite add_scores_lookup, lookup_empty, <- scores_of_elem. unfold doc_score.
      destruct (scores_of d (all_postings cursors)); [by split; [|intros []]|]. cbn [default]. split; [intros [= <-]; done|by intros [_ ->]]. }
    split.
    + intros ([d' s'] & [= -> ->] & Hin). apply elem_of_map_to_list, Hm in Hin as [Hd ->]. exists d'. split; [done|]. by apply elem_of_remove_dups.
    + intros (d' & [= -> ->] & Hin). rewrite elem_of_remove_dups in Hin. exists (d', doc_score (all_postings cursors) d'). split; [done|].
      by apply elem_of_map_to_list, Hm.
Qed.

Lemma exhaustive_top_ok k cursors :
  0 ≤ k → Forall num (scored_docs (all_postings cursors)) →
  top_of k (scored_docs (all_postings cursors)) (exhaustive_top k cursors).
Proof.
  intros Hk Hnum. unfold exhaustive_top. rewrite <- scored_map in Hnum |- *. by apply sorted_cut_top.
Qed.
End Exhaustive.

(** ** One round of the WAND loop *)

Lemma less_by_weak {A} (f : A → Z) : strict_weak (λ a b, f a <? f b).
Proof. split; intros *; rewrite ?Z.ltb_lt, ?Z.ltb_ge; lia. Qed.

Lemma current_doc_at c : CurrentDoc c ≠ UINT32_MAX → ∃ p, postings c !! pos c = Some p ∧ CurrentDoc c = tp_docid p.
Proof. unfold CurrentDoc. destruct (postings c !! pos c) as [p|]; [by exists p|done]. Qed.

Lemma find_pivot_elem theta bound cs d : find_pivot theta bound cs = Some d → d ≠ UINT32_MAX ∧ ∃ c, c ∈ cs ∧ CurrentDoc c = d.
Proof.
  revert bound. induction cs as [|c cs IH]; intros bound; cbn [find_pivot]; [done|].
  destruct (Z.eqb_spec (CurrentDoc c) UINT32_MAX) as [|Hne]; [done|].
  destruct (dleb _ _); [intros [= <-]; split; [done|]; exists c; split; [by left|done]|].
  intros (Hd & c' & Hc & He)%IH. split; [done|]. exists c'. split; [by right|done].
Qed.

(** Cursors whose scores are not negative: no sum is a NaN. *)
Definition nonneg_cursor (c : TermCursor) : Prop := Forall (λ p, nonneg (tp_score p)) (postings c).

Lemma remaining_advanced c n : (remaining (set_pos (pos c + n) c) ≤ remaining c)%nat.
Proof. unfold remaining. cbn. lia. Qed.

Lemma score_pivot_spec d s cs s' cs' :
  score_pivot d s cs = (s', cs') → Forall nonneg_cursor cs → nonneg s →
  nonneg s' ∧ Forall nonneg_cursor cs' ∧ (sum_list_with remaining cs' ≤ sum_list_with remaining cs)%nat.
Proof.
  intros He Hcs. revert s s' cs' He. induction Hcs as [|c cs Hc Hcs IH]; intros s s' cs' He Hs; cbn [score_pivot] in He.
  { injection He as <- <-. done. }
  destruct (CurrentDoc c =? d).
  - destruct (score_pivot d _ cs) as [s1 cs1] eqn:E. injection He as <- <-.
    assert (nonneg (match postings c !! pos c with Some p => dadd s (tp_score p) | None => s end)) as Hn.
    { destruct (postings c !! pos c) as [p|] eqn:Hp; [|done]. apply dadd_nonneg; [done|].
      unfold nonneg_cursor in Hc. rewrite Forall_lookup in Hc. eauto. }
    destruct (IH _ _ _ E Hn) as (? & ? & ?). cbn [sum_list_with]. pose proof (remaining_advanced c 1) as Hr.
    rewrite Nat.add_1_r in Hr. split_and!; [done|by constructor|lia].
  - destruct (score_pivot d _ cs) as [s1 cs1] eqn:E. injection He as <- <-. destruct (IH _ _ _ E Hs) as (? & ? & ?).
    cbn [sum_list_with]. split_and!; [done|by constructor|lia].
Qed.

Lemma advance_lagging_spec d cs :
  Forall nonneg_cursor cs →
  Forall nonneg_cursor (advance_lagging d cs) ∧ (sum_list_with remaining (advance_lagging d cs) ≤ sum_list_with remaining cs)%nat.
Proof.
  induction 1 as [|c cs Hc Hcs [IH1 IH2]]; cbn [advance_lagging]; [by split|].
  destruct (CurrentDoc c <? d); (split; [by constructor|]); cbn [sum_list_with]; [|lia].
  unfold skip_to. pose proof (remaining_advanced c (below d (drop (pos c) (postings c)))). lia.
Qed.

(** The front cursor moves. *)
Lemma front_skips d c : CurrentDoc c ≠ UINT32_MAX → CurrentDoc c < d → (remaining (skip_to d c) < remaining c)%nat.
Proof.
  intros (p & Hp & He)%current_doc_at Hd. rewrite He in Hd. unfold skip_to, remaining. cbn [set_pos postings pos].
  rewrite (drop_S _ _ _ Hp). cbn [below]. rewrite (proj2 (Z.ltb_lt _ _) Hd). apply lookup_lt_Some in Hp. lia.
Qed.

Section Wand.
Context `{PriorityQueueOf Entry} `{StdSortLaws}.

(** A document offered in a round, or none. *)
Lemma wand_step_ok k cs t offers :
  0 < k → Forall nonneg_cursor cs → Forall num offers → keeps k offers t →
  ∃ r, wand_step cs t = Ok r ∧
    match r with
    | None => True
    | Some (cs', t') =>
        Forall nonneg_cursor cs' ∧ (sum_list_with remaining cs' < sum_list_with remaining cs)%nat ∧
        ∃ offers', Forall num offers' ∧ keeps k offers' t'
    end.
Proof.
  intros Hk Hcs Hoff Hkeeps. unfold wand_step.
  pose proof (std_sort_permutes _ cs (less_by_weak CurrentDoc)) as Hp.
  pose proof (std_sort_sorts _ cs (less_by_weak CurrentDoc)) as Hs.
  set (sorted := std_sort _ cs) in *. rewrite <- Hp in Hcs.
  assert (sum_list_with remaining cs = sum_list_with remaining sorted) as -> by by rewrite Hp.
  clearbody sorted. destruct sorted as [|front rest]; [by exists None|].
  destruct (Z.eqb_spec (CurrentDoc front) UINT32_MAX) as [|Hfront]; [by exists None|].
  destruct (threshold_full k offers t Hk Hoff Hkeeps) as (theta & -> & _). rewrite bind_Ok.
  destruct (find_pivot theta d0 (front :: rest)) as [d|] eqn:Hpiv; [|by exists None].
  apply find_pivot_elem in Hpiv as (Hd & c & Hc & Hcd).
  destruct (Z.eqb_spec (CurrentDoc front) d) as [He|Hne].
  - destruct (score_pivot d d0 (front :: rest)) as [s cs'] eqn:Hsc. eexists. split; [done|]. cbn [score_pivot] in Hsc.
    rewrite (proj2 (Z.eqb_eq _ _) He) in Hsc. destruct (current_doc_at front Hfront) as (p & Hpp & _). rewrite Hpp in Hsc.
    destruct (score_pivot d (dadd d0 (tp_score p)) rest) as [s1 cs1] eqn:Hsc1. injection Hsc as <- <-.
    apply Forall_cons in Hcs as [Hcf Hcr].
    destruct (score_pivot_spec _ _ _ _ _ Hsc1 Hcr) as (Hs1 & Hcs1 & Hrem).
    { apply dadd_nonneg; [done|]. unfold nonneg_cursor in Hcf. rewrite Forall_lookup in Hcf. eauto. }
    split_and!.
    + by constructor.
    + cbn [sum_list_with]. unfold remaining at 1 3. cbn [set_pos postings pos]. apply lookup_lt_Some in Hpp. lia.
    + exists (mkScoredDoc d s1 :: offers). assert (num (mkScoredDoc d s1)) by by apply nonneg_num.
      split; [by constructor|]. by apply offer_keeps.
  - eexists. split; [done|]. cbn beta iota.
    assert (CurrentDoc front < d) as Hlt.
    { apply StronglySorted_inv in Hs as [_ Hs]. rewrite Forall_forall in Hs. apply elem_of_cons in Hc as [-> |Hc]; [done|].
      specialize (Hs c Hc). apply Z.ltb_ge in Hs. lia. }
    destruct (advance_lagging_spec d _ Hcs) as [Hadv _]. split_and!; [done| |eauto].
    cbn [advance_lagging]. rewrite (proj2 (Z.ltb_lt _ _) Hlt). cbn [sum_list_with]. pose proof (front_skips d front Hfront Hlt). lia.
Qed.

Lemma wand_loop_ok k fuel cs t offers :
  0 < k → Forall nonneg_cursor cs → Forall num offers → keeps k offers t → (sum_list_with remaining cs < fuel)%nat →
  ∃ t', wand_loop fuel cs t = Ok (Some t') ∧ ∃ offers', Forall num offers' ∧ keeps k offers' t'.
Proof.
  intros Hk. revert cs t offers. induction fuel as [|fuel IH]; intros cs t offers Hcs Hoff Hkeeps Hf; [lia|]. cbn [wand_loop].
  destruct (wand_step_ok k cs t offers Hk Hcs Hoff Hkeeps) as (r & -> & Hr). rewrite bind_Ok.
  destruct r as [[cs' t']|]; [|eauto 10]. destruct Hr as (Hcs' & Hlt & offers' & Hoff' & Hkeeps'). apply (IH _ _ offers'); [done..|lia].
Qed.

Lemma wand_top_ends k cs :
  0 < k → Forall nonneg_cursor cs → ∃ out, wand_top k cs = Ok (Some out) ∧ zlen out ≤ k.
Proof.
  intros Hk Hcs. unfold wand_top.
  destruct (wand_loop_ok k (wand_fuel cs) cs (new_topk k) []) as (t & -> & offers & Hoff & Hkeeps);
    [done|done|constructor|by apply new_topk_keeps; lia|unfold wand_fuel; lia|]. rewrite bind_Ok. cbn [option_map]. exists (DrainSorted t). split; [done|].
  destruct (DrainSorted_top k offers t Hoff Hkeeps) as (rest & _ & _ & _ & ->). lia.
Qed.
End Wand.

(** ** The cursors of a query *)

(** A cursor keeps its postings and windows, and its position does not go back nor
    past the end. *)
Definition in_stream (c : TermCursor) : Prop := (pos c ≤ length (postings c))%nat.
Definition moved (c c' : TermCursor) : Prop :=
  postings c' = postings c ∧ windows c' = windows c ∧ (pos c ≤ pos c')%nat ∧ (in_stream c → in_stream c').

#[export] Instance moved_refl : Reflexive moved.
Proof. by intros c. Qed.
#[export] Instance moved_trans : Transitive moved.
Proof. intros a b c (Hp & Hw & Hl & Hi) (Hp' & Hw' & Hl' & Hi'). split_and!; [congruence..|lia|auto]. Qed.

Lemma score_pivot_moved d s cs : d ≠ UINT32_MAX → Forall2 moved cs (score_pivot d s cs).2.
Proof.
  intros Hd. revert s. induction cs as [|c cs IH]; intros s; cbn [score_pivot]; [constructor|]. destruct (Z.eqb_spec (CurrentDoc c) d) as [He|_].
  - destruct (current_doc_at c) as (p & Hp & _); [by rewrite He|]. rewrite Hp. specialize (IH (dadd s (tp_score p))). destruct (score_pivot d _ cs).
    constructor; [|done]. apply lookup_lt_Some in Hp. unfold moved, in_stream. cbn. split_and!; [done|done|lia|lia].
  - specialize (IH s). destruct (score_pivot d s cs). by constructor.
Qed.

Lemma below_length d ps : (below d ps ≤ length ps)%nat.
Proof. induction ps as [|p ps IH]; cbn; [done|]. destruct (_ <? _); lia. Qed.

Lemma advance_lagging_moved d cs : Forall2 moved cs (advance_lagging d cs).
Proof.
  induction cs as [|c cs IH]; cbn [advance_lagging]; [constructor|]. destruct (_ <? _); (constructor; [|done || reflexivity]); [|done].
  unfold skip_to, moved, in_stream. cbn. pose proof (below_length d (drop (pos c) (postings c))) as Hb. rewrite length_drop in Hb.
  split_and!; [done|done|lia|lia].
Qed.

(** Up to the order of the cursors. *)
Definition all_moved (cs cs' : list TermCursor) : Prop := ∃ sorted, sorted ≡ₚ cs ∧ Forall2 moved sorted cs'.

Lemma all_moved_trans a b c : all_moved a b → all_moved b c → all_moved a c.
Proof.
  intros (s & Hs & Hab) (u & Hu & Hbc). destruct (Permutation_Forall2 (symmetry Hu) (proj2 (Forall2_flip _ _ _) Hab)) as (s' & Hs' & Hsu).
  exists s'. split; [by rewrite <- Hs'|]. eapply (Forall2_trans moved moved); [|exact (proj1 (Forall2_flip _ _ _) Hsu)|exact Hbc]. by etrans.
Qed.

Section Cursors.
Context `{PriorityQueueOf Entry} `{StdSortLaws}.

Lemma wand_step_moved cs t cs' t' : wand_step cs t = Ok (Some (cs', t')) → all_moved cs cs'.
Proof.
  unfold wand_step. pose proof (std_sort_permutes _ cs (less_by_weak CurrentDoc)) as Hp. set (sorted := std_sort _ cs) in *. intros Hstep.
  exists sorted. split; [done|]. clearbody sorted. destruct sorted as [|front rest]; [done|]. destruct (_ =? _); [done|].
  apply result_bind_Ok in Hstep as (theta & _ & Hstep). destruct (find_pivot theta d0 (front :: rest)) as [d|] eqn:Hpiv; [|done].
  apply find_pivot_elem in Hpiv as [Hd _]. destruct (_ =? _).
  - pose proof (score_pivot_moved d d0 (front :: rest) Hd) as Hm. destruct (score_pivot d d0 (front :: rest)). by injection Hstep as <- <-.
  - injection Hstep as <- <-. apply (advance_lagging_moved d (front :: rest)).
Qed.

(** The states the loop passes through. *)
Inductive wand_reaches (cs : list TermCursor) (t : TopK) : list TermCursor → TopK → Prop :=
  | reaches_start : wand_reaches cs t cs t
  | reaches_round cs1 t1 cs2 t2 : wand_reaches cs t cs1 t1 → wand_step cs1 t1 = Ok (Some (cs2, t2)) → wand_reaches cs t cs2 t2.

(** C32: at every state the WAND loop reaches, the cursors are those it started with, in
    some order: their postings and windows untouched, no position moved back, and
    none past the end of its postings. *)
Theorem wand_cursors_typed cs t cs' t' :
  Forall in_stream cs → wand_reaches cs t cs' t' → all_moved cs cs' ∧ Forall in_stream cs'.
Proof.
  intros Hcs Hr. assert (all_moved cs cs') as Hm.
  { induction Hr as [|cs1 t1 cs2 t2 _ IH Hstep]; [by exists cs|]. eapply all_moved_trans; [exact IH|]. by eapply wand_step_moved. }
  split; [done|]. destruct Hm as (sorted & Hp & Hm). rewrite <- Hp in Hcs. clear Hp Hr. induction Hm as [|c c' l l' (_ & _ & _ & Hc) Hl IH]; [constructor|].
  apply Forall_cons in Hcs as [? ?]. constructor; auto.
Qed.
End Cursors.

Section CursorsSample.
#[local] Existing Instances ListQueue.list_queue StableSorting.stable_insertion StableSorting.stable_insertion_laws.

Lemma wand_cursors_typed_witness :
  let c d s := mkTermCursor [mkTermPosting d s] [mkWindowBound d d s false] 0 in
  ∃ cs' t', wand_reaches [c 5 d1; c 3 d1_2] (new_topk 1) cs' t' ∧ map CurrentDoc cs' = [UINT32_MAX; 5] ∧
    all_moved [c 5 d1; c 3 d1_2] cs' ∧ Forall in_stream cs'.
Proof.
  intros c. destruct (wand_step [c 5 d1; c 3 d1_2] (new_topk 1)) as [[[cs' t']|]|st|] eqn:E; [|by vm_compute in E..].
  assert (wand_reaches [c 5 d1; c 3 d1_2] (new_topk 1) cs' t') as Hr by exact (reaches_round _ _ _ _ _ _ (reaches_start _ _) E).
  exists cs', t'. split; [exact Hr|]. split; [by vm_compute in E; injection E as <- _|].
  apply (wand_cursors_typed [c 5 d1; c 3 d1_2] (new_topk 1) cs' t'); [|exact Hr]. repeat apply Forall_cons_2; by vm_compute; lia || constructor.
Defined.
End CursorsSample.

(** ** One cursor *)

(** The bound at a posting covers every score from there on: a single window has it,
    several windows need not. *)
Definition bounds_rest (c : TermCursor) : Prop :=
  ∀ (i j : nat) p q, (i ≤ j)%nat → postings c !! i = Some p → postings c !! j = Some q →
    let bound := dadd d0 (TermBoundAt c (tp_docid p)) in
    ¬ is_nan bound ∧ dleb d_minus_1 bound = true ∧ dleb (dadd d0 (tp_score q)) bound = true.

(** Documents ascend, below the end marker, with scores that are numbers. *)
Record wf_cursor (c : TermCursor) : Prop := {
  wc_docs : StronglySorted Z.lt (map tp_docid (postings c));
  wc_marker : Forall (λ p, tp_docid p ≠ UINT32_MAX) (postings c);
  wc_scores : Forall (λ p, ¬ is_nan (tp_score p)) (postings c)
}.

Definition scored (p : TermPosting) : ScoredDoc := mkScoredDoc (tp_docid p) (dadd d0 (tp_score p)).

Lemma scored_num ps : Forall (λ p, ¬ is_nan (tp_score p)) ps → Forall num (map scored ps).
Proof. intros Hps. apply Forall_fmap. eapply Forall_impl; [exact Hps|]. intros p Hp. unfold num, compose, scored. cbn [sd_score]. by rewrite is_nan_dadd_0. Qed.

Lemma scored_docs_one ps : NoDup (map tp_docid ps) → scored_docs ps ≡ₚ map scored ps.
Proof.
  intros Hnd. unfold scored_docs.
  assert (∀ p, p ∈ ps → doc_score ps (tp_docid p) = dadd d0 (tp_score p)) as Hscore.
  { intros p Hp. unfold doc_score. apply list_elem_of_split in Hp as (l & r & ->). unfold scores_of. rewrite filter_app, filter_cons_True by done.
    rewrite map_app in Hnd. cbn [map] in Hnd. apply NoDup_app in Hnd as (_ & Hl & [Hr _]%NoDup_cons).
    assert (∀ k, tp_docid p ∉ map tp_docid k → filter (λ q, tp_docid q = tp_docid p) k = []) as Hnone.
    { intros k Hk. destruct (filter _ k) as [|q f] eqn:E; [done|]. exfalso. apply Hk.
      assert (q ∈ filter (λ q, tp_docid q = tp_docid p) k) as [Hq Hqk]%list_elem_of_filter by (rewrite E; by left).
      rewrite <- Hq. by apply list_elem_of_fmap_2. }
    rewrite (Hnone r Hr), (Hnone l); [done|]. intros Hin. apply (Hl _ Hin). by left. }
  apply NoDup_Permutation.
  - eapply (NoDup_fmap_1 docid). change (docid <$> ?l) with (map docid l). rewrite map_map. cbn [docid]. rewrite map_id. apply NoDup_remove_dups.
  - eapply (NoDup_fmap_1 docid). change (docid <$> ?l) with (map docid l). by rewrite map_map.
  - intros x. rewrite !list_elem_of_fmap. split.
    + intros (d & -> & Hd). rewrite elem_of_remove_dups, list_elem_of_fmap in Hd. destruct Hd as (p & -> & Hp). exists p. split; [|done].
      unfold scored. by rewrite Hscore.
    + intros (p & -> & Hp). exists (tp_docid p). unfold scored. rewrite Hscore by done. split; [done|].
      rewrite elem_of_remove_dups. by apply list_elem_of_fmap_2.
Qed.

Section One.
Context `{PriorityQueueOf Entry} `{StdSortLaws} `{UnorderedMapLaws}.

Lemma wand_loop_one k c fuel i t :
  0 < k → wf_cursor c → bounds_rest c → (length (postings c) - i < fuel)%nat → keeps k (map scored (take i (postings c))) t →
  ∃ t', wand_loop fuel [set_pos i c] t = Ok (Some t') ∧ keeps k (map scored (postings c)) t'.
Proof.
  intros Hk Hwf Hrest. pose proof (wc_scores _ Hwf) as Hnum. revert i t. induction fuel as [|fuel IH]; intros i t Hf Hkeeps; [lia|].
  cbn [wand_loop]. unfold wand_step.
  pose proof (std_sort_permutes _ [set_pos i c] (less_by_weak CurrentDoc)) as ->%Permutation_singleton_r. unfold CurrentDoc. cbn [set_pos postings pos].
  destruct (postings c !! i) as [p|] eqn:Hp.
  2: { exists t. split; [done|]. apply lookup_ge_None in Hp. by rewrite take_ge in Hkeeps by done. }
  pose proof (Forall_lookup_1 _ _ _ _ (wc_marker _ Hwf) Hp) as Hm. cbn beta in Hm. rewrite (proj2 (Z.eqb_neq _ _) Hm).
  assert (Forall num (map scored (take i (postings c)))) as Hn by by apply scored_num, Forall_take.
  destruct (threshold_full k _ t Hk Hn Hkeeps) as (theta & Hth & _). rewrite Hth, bind_Ok. cbn [find_pivot]. unfold CurrentDoc. cbn [set_pos postings pos].
  rewrite Hp, (proj2 (Z.eqb_neq _ _) Hm). destruct (dleb theta _) eqn:Hb.
  - rewrite Z.eqb_refl. cbn [score_pivot]. unfold CurrentDoc. cbn [set_pos postings pos]. rewrite Hp, Z.eqb_refl, bind_Ok.
    change (set_pos (S i) (set_pos i c)) with (set_pos (S i) c). apply IH; [apply lookup_lt_Some in Hp; lia|].
    rewrite (take_S_r _ _ _ Hp), map_app. cbn [map]. rewrite Permutation_app_comm. cbn [app].
    apply offer_keeps; [done|done| |done]. unfold num, scored. cbn [sd_score]. rewrite is_nan_dadd_0. by apply (Forall_lookup_1 _ _ _ _ Hnum Hp).
  - exists t. rewrite bind_Ok. split; [done|]. rewrite <- (take_drop i (postings c)), map_app, Permutation_app_comm.
    destruct (Hrest i i p p) as (Hnb & Hlow & _); [done..|].
    eapply keeps_pruned; try done. apply Forall_fmap, Forall_lookup. intros j q Hq. rewrite lookup_drop in Hq. unfold compose, scored. cbn [sd_score]. split.
    + unfold num, scored. cbn [sd_score]. rewrite is_nan_dadd_0. by apply (Forall_lookup_1 _ _ _ _ Hnum Hq).
    + apply (Hrest i (i + j)%nat p q); [lia|done..].
Qed.

Lemma wand_one_exact k c :
  0 < k → wf_cursor c → bounds_rest c → pos c = 0%nat → wand_top k [c] = Ok (Some (exhaustive_top k [c])).
Proof.
  intros Hk Hwf Hrest Hpos. unfold wand_top.
  assert (c = set_pos 0 c) as Hc by (destruct c; cbn in *; by subst).
  destruct (wand_loop_one k c (wand_fuel [c]) 0 (new_topk k)) as (t & Ht & Hkeeps); [done..| | |].
  { unfold wand_fuel, remaining. cbn. lia. }
  { apply new_topk_keeps. lia. }
  rewrite <- Hc in Ht. rewrite Ht, bind_Ok. cbn [option_map]. do 2 f_equal. pose proof (lt_sorted_nodup _ (wc_docs _ Hwf)) as Hnd.
  pose proof (scored_num _ (wc_scores _ Hwf)) as Hnum. pose proof (scored_docs_one _ Hnd) as Hperm.
  assert (all_postings [c] = postings c) as Hall by apply app_nil_r.
  eapply (top_of_unique k (map scored (postings c))); [|done| |].
  - rewrite map_map. done.
  - by apply DrainSorted_top.
  - rewrite <- Hperm, <- Hall. apply exhaustive_top_ok; [lia|]. by rewrite Hall, Hperm.
Qed.

Lemma wand_none_exact k : 0 < k → wand_top k [] = Ok (Some (exhaustive_top k [])).
Proof.
  intros Hk. unfold wand_top. cbn [wand_fuel sum_list_with wand_loop]. unfold wand_step.
  pose proof (std_sort_permutes (λ a b, CurrentDoc a <? CurrentDoc b) [] (less_by_weak CurrentDoc)) as ->%Permutation_nil_r. rewrite !bind_Ok. cbn [option_map].
  do 2 f_equal. eapply (top_of_unique k []); [constructor|constructor| |].
  - apply DrainSorted_top; [constructor|]. apply new_topk_keeps. lia.
  - apply (exhaustive_top_ok k []); [lia|constructor].
Qed.
End One.

(** The fallback's single window. *)
Lemma dmax_bound ps m :
  ¬ is_nan m → Forall (λ p, ¬ is_nan (tp_score p)) ps →
  let b := foldl (λ m q, dmax m (tp_score q)) m ps in
  ¬ is_nan b ∧ ¬ key_lt (key b) (key m) ∧ ∀ q, q ∈ ps → ¬ key_lt (key b) (key (tp_score q)).
Proof.
  intros Hm Hps. revert m Hm. induction Hps as [|p ps Hp Hps IH]; intros m Hm; cbn [foldl].
  { split_and!; [done|apply key_lt_irrefl|]. intros q Hq. by apply elem_of_nil in Hq. }
  assert (¬ is_nan (dmax m (tp_score p)) ∧ ¬ key_lt (key (dmax m (tp_score p))) (key m) ∧ ¬ key_lt (key (dmax m (tp_score p))) (key (tp_score p))) as (H1 & H2 & H3).
  { unfold dmax. destruct (dltb m (tp_score p)) eqn:E; pose proof (dltb_key m (tp_score p) Hm Hp) as Hk; rewrite E in Hk.
    - split_and!; [done| |apply key_lt_irrefl]. intros Hc. pose proof (proj1 Hk eq_refl) as Hk'. apply (key_lt_irrefl (key m)). by eapply key_lt_trans.
    - split_and!; [done|apply key_lt_irrefl|]. intros Hc. by apply Hk in Hc. }
  destruct (IH _ H1) as (Hb & Hbm & Hbq).
  assert (∀ x y z : Z * Z * Z, ¬ key_lt x y → ¬ key_lt y z → ¬ key_lt x z) as Htr by (unfold key_lt; lia).
  split_and!; [done|by eapply Htr|]. intros q [->|Hq]%elem_of_cons; [by eapply Htr|by apply Hbq].
Qed.

Lemma fallback_bounds ps :
  StronglySorted Z.lt (map tp_docid ps) → Forall (λ p, ¬ is_nan (tp_score p)) ps →
  bounds_rest (mkTermCursor ps (SingleWindowFallback ps) 0).
Proof.
  intros Hs Hnum i j p q Hij Hp Hq. cbn [postings] in *.
  destruct (dmax_bound ps d0 ltac:(done) Hnum) as (Hb & Hb0 & Hbq).
  assert (TermBoundAt (mkTermCursor ps (SingleWindowFallback ps) 0) (tp_docid p) = foldl (λ m q, dmax m (tp_score q)) d0 ps) as ->.
  { unfold TermBoundAt. destruct ps as [|p0 ps]; [done|]. cbn [windows SingleWindowFallback List.find wb_last_docid wb_max_score].
    rewrite (proj2 (Z.leb_le _ _)); [done|].
    destruct (exists_last (l := p0 :: ps) ltac:(done)) as (l & z & Hl). rewrite Hl, List.last_last. rewrite Hl in Hp, Hs.
    rewrite map_app in Hs. apply StronglySorted_app in Hs as (Hord & _ & _). apply list_elem_of_lookup_2 in Hp.
    apply elem_of_app in Hp as [Hp|Hp%list_elem_of_singleton]; [|by subst]. apply Z.lt_le_incl, Hord; [by apply list_elem_of_fmap_2|by left]. }
  set (b := foldl _ d0 ps) in *. cbn zeta. assert (¬ is_nan (dadd d0 b)) as Hnb by by rewrite is_nan_dadd_0. split_and!; [done|..].
  - apply dleb_key; [done|done|]. rewrite key_dadd_0. intros Hc. apply Hb0. eapply key_lt_trans; [exact Hc|]. unfold key_lt. cbn. lia.
  - apply dleb_key; [rewrite is_nan_dadd_0; by apply (Forall_lookup_1 _ _ _ _ Hnum Hq)|done|]. rewrite !key_dadd_0. apply Hbq. by apply list_elem_of_lookup_2 in Hq.
Qed.
