(* ===== verification/SelectiveWand.v ===== *)
(** * SelectiveWand: the WAND query that fetches windows on demand.

    The lazy cursors of [query/scoring_query.cpp] and
    [scoring_query_wand_selective]. A cursor knows its windows from the prelude;
    the postings of a window are read when the cursor stands in it. The pointers
    [idx] and [stats] of a cursor and its copy of [params] are the arguments of
    the query. A loop over windows that does not end is [Undef]. *)

From stdpp Require Import gmap.
From S2P Require Import Prelude StdAlgorithms Status ByteIO FormatConstants Zstd FrqPod FrqPrelude DictEntry PerIndexMeta.
From S2P Require Import FileIO Bsbf BatchRangeFetcher LogicalIndexReader WindowedPosting Bm25Scorer StatsProvider TopK ScoringQuery.

#[local] Open Scope Z_scope.

Record LazyTermCursor := mkLazyCursor {
  lc_ctx : ScorerContext;
  lc_entry : DictEntry;
  lc_frq_base : Z;
  lc_prx_base : Z;
  lc_prelude : FrqPreludeReader;
  lc_windowed : bool;
  lc_windows : list WindowBound;
  lc_postings : list TermPosting;
  win_start : list Z;
  fetched : list bool;
  lc_pos : nat
}.

Definition lc_set_pos (p : nat) (c : LazyTermCursor) : LazyTermCursor :=
  mkLazyCursor (lc_ctx c) (lc_entry c) (lc_frq_base c) (lc_prx_base c) (lc_prelude c) (lc_windowed c) (lc_windows c)
    (lc_postings c) (win_start c) (fetched c) p.
Definition lc_set_postings (ps : list TermPosting) (fetched : list bool) (c : LazyTermCursor) : LazyTermCursor :=
  mkLazyCursor (lc_ctx c) (lc_entry c) (lc_frq_base c) (lc_prx_base c) (lc_prelude c) (lc_windowed c) (lc_windows c)
    ps (win_start c) fetched (lc_pos c).
Definition lc_set_windows (prelude : FrqPreludeReader) (ws : list WindowBound) (ps : list TermPosting) (starts : list Z)
    (fetched : list bool) (c : LazyTermCursor) : LazyTermCursor :=
  mkLazyCursor (lc_ctx c) (lc_entry c) (lc_frq_base c) (lc_prx_base c) prelude (lc_windowed c) ws ps starts fetched (lc_pos c).

(** [win_start.back()] *)
Definition TotalPostings (c : LazyTermCursor) : Z := default 0 (last (win_start c)).

Definition WindowOf (c : LazyTermCursor) (p : Z) : Z :=
  u32 (partition_point (λ s, negb (p <? s)) (win_start c) - 1).

Definition default_posting : TermPosting := mkTermPosting 0 d0.

(** [std::copy] into a vector. *)
Definition copy_at (off : Z) (src dst : list TermPosting) : result (list TermPosting) :=
  if off + zlen src <=? zlen dst
  then Ok (take (Z.to_nat off) dst ++ src ++ drop (Z.to_nat off + length src) dst) else Undef.

(** [v[i]] *)
Definition vec_at {A} (v : list A) (i : Z) : result A :=
  match v !! Z.to_nat i with Some x => Ok x | None => Undef end.

Section Lazy.
Context `{Zstd.ZstdOps} `{Sort} `{BsbfEnv} `{StdLog}.
Context (idx : LogicalIndexReader) (sp : SniiStatsProvider) (params : Bm25Params).

(** The documents and frequencies of window [w]. *)
Definition FetchLazyWindow (w : Z) (c : LazyTermCursor) : result (list Z * list Z) :=
  meta ← FrqPrelude.window (lc_prelude c) w;
  r ← windowed_window_range idx (lc_entry c) (lc_frq_base c) (lc_prx_base c) (lc_prelude c) w false true;
  let '(dh, fetcher) := add (wr_dd_off r) (wr_dd_len r) (new_fetcher kSameTermCoalesceGap) in
  let '(fh, fetcher) := add (wr_freq_off r) (wr_freq_len r) fetcher in
  fetcher ← fetch (reader_ idx) fetcher;
  dd ← get fetcher dh;
  freq ← get fetcher fh;
  '(docids, freqs, _) ← decode_window_slices meta dd freq [] false true;
  Ok (docids, freqs).

Definition MaterializeWindow (w : Z) (c : LazyTermCursor) : result LazyTermCursor :=
  done ← vec_at (fetched c) w;
  if done : bool then Ok c
  else
    '(docids, freqs) ← FetchLazyWindow w c;
    lo ← vec_at (win_start c) w;
    hi ← vec_at (win_start c) (w + 1);
    _ ← reject_if (negb (zlen docids =? u32 (hi - lo))) (Corruption "scoring_query: selective window doc-count drift");
    scored ← ScoreDecoded sp (lc_ctx c) params docids freqs;
    postings ← copy_at lo scored (lc_postings c);
    Ok (lc_set_postings postings (<[Z.to_nat w := true]> (fetched c)) c).

(** [*docid] and the cursor. *)
Definition LazyCurrentDoc (c : LazyTermCursor) : result (Z * LazyTermCursor) :=
  if TotalPostings c <=? Z.of_nat (lc_pos c) then Ok (UINT32_MAX, c)
  else
    c ← MaterializeWindow (WindowOf c (Z.of_nat (lc_pos c))) c;
    p ← vec_at (lc_postings c) (Z.of_nat (lc_pos c));
    Ok (tp_docid p, c).

(** The loop over whole windows. *)
Fixpoint skip_windows (fuel : nat) (target : Z) (c : LazyTermCursor) : result LazyTermCursor :=
  match fuel with
  | O => Undef
  | S fuel =>
      if TotalPostings c <=? Z.of_nat (lc_pos c) then Ok c
      else
        let w := WindowOf c (Z.of_nat (lc_pos c)) in
        bound ← vec_at (lc_windows c) w;
        if target <=? wb_last_docid bound then Ok c
        else
          next ← vec_at (win_start c) (w + 1);
          skip_windows fuel target (lc_set_pos (Z.to_nat next) c)
  end.

Definition LazySkipTo (target : Z) (c : LazyTermCursor) : result LazyTermCursor :=
  let total := TotalPostings c in
  c ← skip_windows (S (length (lc_windows c))) target c;
  if total <=? Z.of_nat (lc_pos c) then Ok c
  else
    c ← MaterializeWindow (WindowOf c (Z.of_nat (lc_pos c))) c;
    Ok (lc_set_pos (lc_pos c + below target (drop (lc_pos c) (take (Z.to_nat total) (lc_postings c)))) c).

(** The prefix sums over the windows that hold documents, [nb] of them. *)
Definition push_start (prelude : FrqPreludeReader) (nb : Z) (w : Z) (starts : list Z) : result (list Z) :=
  if nb <=? zlen starts - 1 then Ok starts
  else
    meta ← FrqPrelude.window prelude w;
    if doc_count meta =? 0 then Ok starts
    else Ok (starts ++ [u32 (default 0 (last starts) + doc_count meta)]).

Definition BuildLazyWindowed (c : LazyTermCursor) : result LazyTermCursor :=
  prelude ← fetch_windowed_prelude idx (lc_entry c) (lc_frq_base c);
  windows ← BuildWindowBounds prelude (lc_ctx c) (avgdl sp) params;
  let nb := zlen windows in
  starts ← fold_result (push_start prelude nb) (seqZ 0 (n_windows prelude)) [0];
  let acc := default 0 (last starts) in
  let starts := starts ++ replicate (Z.to_nat (nb + 1 - zlen starts)) 0 in
  Ok (lc_set_windows prelude windows (replicate (Z.to_nat acc) default_posting) starts (replicate (Z.to_nat nb) false) c).

Definition BuildLazySlim (c : LazyTermCursor) : result LazyTermCursor :=
  '(docids, freqs) ← DecodeSlim idx (lc_entry c) (lc_frq_base c);
  postings ← ScoreDecoded sp (lc_ctx c) params docids freqs;
  Ok (lc_set_windows (lc_prelude c) (SingleWindowFallback postings) postings [0; u32 (zlen postings)] [true] c).

Definition no_prelude : FrqPreludeReader := mkFrqPreludeReader false false 0 0 0 0 [] [].

Definition BuildLazyCursor (term : bytes) : result (option LazyTermCursor) :=
  found ← lookup idx term;
  match found with
  | None => Ok None
  | Some hit =>
      let entry := hit_entry hit in
      let c := mkLazyCursor (make (indexed_doc_count_ sp) (df entry)) entry (hit_frq_base hit) (hit_prx_base hit)
                 no_prelude (is_windowed entry) [] [] [] [] 0 in
      c ← (if lc_windowed c then BuildLazyWindowed c else BuildLazySlim c);
      Ok (Some c)
  end.

Definition push_lazy_cursor (term : bytes) (cursors : list LazyTermCursor) : result (list LazyTermCursor) :=
  c ← BuildLazyCursor term;
  Ok (match c with
      | Some c => if 0 <? TotalPostings c then cursors ++ [c] else cursors
      | None => cursors
      end).

Definition SelectiveBuildCursors (terms : list bytes) : result (list LazyTermCursor) :=
  fold_result push_lazy_cursor terms [].

Definition LazyTermBoundAt (c : LazyTermCursor) (docid : Z) : double :=
  match List.find (λ w, docid <=? wb_last_docid w) (lc_windows c) with
  | Some w => wb_max_score w
  | None => d0
  end.

(** ** One round *)

(** [cur] and the cursors. *)
Fixpoint current_docs (cursors : list LazyTermCursor) : result (list Z * list LazyTermCursor) :=
  match cursors with
  | [] => Ok ([], [])
  | c :: cursors =>
      '(d, c) ← LazyCurrentDoc c;
      '(cur, cursors) ← current_docs cursors;
      Ok (d :: cur, c :: cursors)
  end.

Context `{PriorityQueueOf Entry} `{StdSort}.

(** [*front] and the cursors. *)
Definition SelectiveSortByDoc (cursors : list LazyTermCursor) : result (Z * list LazyTermCursor) :=
  '(cur, cursors) ← current_docs cursors;
  let order := std_sort (λ a b, cur !!! a <? cur !!! b) (seq 0 (length cursors)) in
  let sorted := omap (λ i, cursors !! i) order in
  Ok (match order with [] => UINT32_MAX | i :: _ => cur !!! i end, sorted).

(** [*pivot_doc], if it is [*found], and the cursors. *)
Fixpoint SelectivePivot (theta bound : double) (cursors : list LazyTermCursor)
    : result (option Z * list LazyTermCursor) :=
  match cursors with
  | [] => Ok (None, [])
  | c :: cursors =>
      '(d, c) ← LazyCurrentDoc c;
      if d =? UINT32_MAX then Ok (None, c :: cursors)
      else
        let bound := dadd bound (LazyTermBoundAt c d) in
        if dleb theta bound then Ok (Some d, c :: cursors)
        else
          '(found, cursors) ← SelectivePivot theta bound cursors;
          Ok (found, c :: cursors)
  end.

(** [doc_score] and the cursors. *)
Fixpoint SelectiveScorePivot (pivot_doc : Z) (doc_score : double) (cursors : list LazyTermCursor)
    : result (double * list LazyTermCursor) :=
  match cursors with
  | [] => Ok (doc_score, [])
  | c :: cursors =>
      '(d, c) ← LazyCurrentDoc c;
      if d =? pivot_doc then
        p ← vec_at (lc_postings c) (Z.of_nat (lc_pos c));
        '(doc_score, cursors) ← SelectiveScorePivot pivot_doc (dadd doc_score (tp_score p)) cursors;
        Ok (doc_score, lc_set_pos (S (lc_pos c)) c :: cursors)
      else
        '(doc_score, cursors) ← SelectiveScorePivot pivot_doc doc_score cursors;
        Ok (doc_score, c :: cursors)
  end.

Fixpoint SelectiveAdvanceLagging (pivot_doc : Z) (cursors : list LazyTermCursor) : result (list LazyTermCursor) :=
  match cursors with
  | [] => Ok []
  | c :: cursors =>
      '(d, c) ← LazyCurrentDoc c;
      if d <? pivot_doc then
        c ← LazySkipTo pivot_doc c;
        Ok (c :: cursors)
      else
        cursors ← SelectiveAdvanceLagging pivot_doc cursors;
        Ok (c :: cursors)
  end.

(** [None] is [*done]. *)
Definition SelectiveStep (cursors : list LazyTermCursor) (topk : TopK)
    : result (option (list LazyTermCursor * TopK)) :=
  '(front, cursors) ← SelectiveSortByDoc cursors;
  match cursors with
  | [] => Ok None
  | _ =>
      if front =? UINT32_MAX then Ok None
      else
        theta ← threshold topk;
        '(found, cursors) ← SelectivePivot theta d0 cursors;
        match found with
        | None => Ok None
        | Some pivot_doc =>
            if front =? pivot_doc then
              '(doc_score, cursors) ← SelectiveScorePivot pivot_doc d0 cursors;
              Ok (Some (cursors, offer pivot_doc doc_score topk))
            else
              cursors ← SelectiveAdvanceLagging pivot_doc cursors;
              Ok (Some (cursors, topk))
        end
  end.

(** [None] is out of fuel. *)
Fixpoint SelectiveWandLoop (fuel : nat) (cursors : list LazyTermCursor) (topk : TopK) : result (option TopK) :=
  match fuel with
  | O => Ok None
  | S fuel =>
      next ← SelectiveStep cursors topk;
      match next with
      | None => Ok (Some topk)
      | Some (cursors, topk) => SelectiveWandLoop fuel cursors topk
      end
  end.

Definition lazy_remaining (c : LazyTermCursor) : nat := Z.to_nat (TotalPostings c) - lc_pos c.
Definition selective_fuel (cursors : list LazyTermCursor) : nat := S (sum_list_with lazy_remaining cursors).

(** [None] only if the fuel were too little. *)
Definition scoring_query_wand_selective (terms : list bytes) (k : Z) : result (option (list ScoredDoc)) :=
  if k =? 0 then Ok (Some [])
  else
    cursors ← SelectiveBuildCursors terms;
    topk ← SelectiveWandLoop (selective_fuel cursors) cursors (new_topk k);
    Ok (option_map DrainSorted topk).
End Lazy.
