(* ===== verification/SelectiveExact.v ===== *)
(** * SelectiveExact: the selective WAND query answers as the eager one.

    A lazy cursor stands for an eager cursor ([lazy_of]): same windows, same
    position, and every window that has been fetched holds its postings, every
    other window reads as them. The steps of the selective query keep the
    relation, so that its rounds are those of [wand_loop]. *)

From stdpp Require Import gmap.
From S2P Require Import Prelude StdAlgorithms Status ByteIO FormatConstants Zstd FrqPod FrqPrelude DictEntry PerIndexMeta.
From S2P Require Import FileIO Bsbf BatchRangeFetcher LogicalIndexReader WindowedPosting Bm25Scorer StatsProvider TopK ScoringQuery SelectiveWand.

#[local] Open Scope Z_scope.

(** ** Segments of a list *)

Section Segments.
Context {A : Type}.
Implicit Types (segs : list (list A)) (seg : list A).

(** Where segment [w] starts, and all the starts with the total. *)
Definition start_of segs (w : nat) : nat := length (concat (take w segs)).
Definition starts_of segs : list Z := map (λ w, Z.of_nat (start_of segs w)) (seq 0 (S (length segs))).

Lemma starts_lookup segs w : (w ≤ length segs)%nat → starts_of segs !! w = Some (Z.of_nat (start_of segs w)).
Proof. intros Hw. unfold starts_of. rewrite list_lookup_fmap, lookup_seq_lt by lia. done. Qed.

Lemma starts_length segs : length (starts_of segs) = S (length segs).
Proof. unfold starts_of. by rewrite length_map, length_seq. Qed.

Lemma starts_last segs : last (starts_of segs) = Some (zlen (concat segs)).
Proof.
  rewrite last_lookup, starts_length. cbn [pred]. rewrite starts_lookup by done. unfold start_of. by rewrite firstn_all.
Qed.

Lemma start_S segs w seg : segs !! w = Some seg → start_of segs (S w) = (start_of segs w + length seg)%nat.
Proof. intros Hw. unfold start_of. rewrite (take_S_r _ _ _ Hw), concat_app, length_app. cbn. by rewrite app_nil_r. Qed.

Lemma start_mono segs v w : (v ≤ w)%nat → (start_of segs v ≤ start_of segs w)%nat.
Proof.
  intros Hvw. unfold start_of. rewrite <- (take_drop v (take w segs)), take_take, Nat.min_l by done. rewrite concat_app, length_app. lia.
Qed.

(** The segment of a position. *)
Lemma segment_at segs p :
  (p < length (concat segs))%nat →
  ∃ w seg, segs !! w = Some seg ∧ (start_of segs w ≤ p < start_of segs w + length seg)%nat.
Proof.
  induction segs as [|seg segs IH] using rev_ind; [cbn; lia|]. rewrite concat_app, length_app. cbn. rewrite app_nil_r. intros Hp.
  destruct (decide (p < length (concat segs))%nat) as [Hlt|Hge].
  - destruct (IH Hlt) as (w & s & Hw & Hr). pose proof (lookup_lt_Some _ _ _ Hw). exists w, s.
    split; [by rewrite lookup_app_l|]. unfold start_of in *. by rewrite take_app_le by lia.
  - exists (length segs), seg. split; [by apply list_lookup_middle|]. unfold start_of. rewrite take_app_length. lia.
Qed.

Lemma concat_split segs w seg :
  segs !! w = Some seg → concat segs = concat (take w segs) ++ seg ++ concat (drop (S w) segs).
Proof. intros Hw. pose proof (f_equal (@concat A) (take_drop_middle segs w seg Hw)) as He. rewrite concat_app in He. by symmetry. Qed.

Lemma segment_lookup segs w seg i :
  segs !! w = Some seg → (i < length seg)%nat → concat segs !! (start_of segs w + i)%nat = seg !! i.
Proof.
  intros Hw Hi. rewrite (concat_split _ _ _ Hw). unfold start_of.
  rewrite lookup_app_r by lia. rewrite lookup_app_l by lia. f_equal. lia.
Qed.

Lemma drop_at segs w seg i :
  segs !! w = Some seg → (i ≤ length seg)%nat →
  drop (start_of segs w + i) (concat segs) = drop i seg ++ drop (start_of segs (S w)) (concat segs).
Proof.
  intros Hw Hi. rewrite (start_S _ _ _ Hw), (concat_split _ _ _ Hw). unfold start_of.
  rewrite <- !drop_drop, !drop_app_length. rewrite drop_app_le by lia. done.
Qed.

(** A segment replaced by another of its length. *)
Lemma concat_replace segs w old seg :
  segs !! w = Some old → length seg = length old →
  take (start_of segs w) (concat segs) ++ seg ++ drop (start_of segs w + length seg) (concat segs) = concat (<[w := seg]> segs).
Proof.
  intros Hw Hl. rewrite (insert_take_drop segs w seg) by by apply lookup_lt_Some in Hw.
  rewrite concat_app, (concat_split _ _ _ Hw). cbn [concat]. unfold start_of.
  rewrite take_app_length. f_equal. f_equal. rewrite <- drop_drop, drop_app_length, Hl. by rewrite drop_app_length.
Qed.
End Segments.

(** ** A lazy cursor and the cursor it stands for *)

Section Cursor.
Context `{Zstd.ZstdOps} `{Sort} `{BsbfEnv} `{StdLog}.
Context (idx : LogicalIndexReader) (sp : SniiStatsProvider) (params : Bm25Params).

(** The bound of a window is that of its postings' documents. *)
Definition covers (b : WindowBound) (seg : list TermPosting) : Prop :=
  Forall (λ p, tp_docid p ≤ wb_last_docid b) seg ∧ ∃ p, last seg = Some p ∧ tp_docid p = wb_last_docid b.

Record lazy_with (segs cells : list (list TermPosting)) (lc : LazyTermCursor) (c : TermCursor) : Prop := {
  lw_windows : lc_windows lc = windows c;
  lw_pos : lc_pos lc = pos c;
  lw_postings : postings c = concat segs;
  lw_starts : win_start lc = starts_of segs;
  lw_total : is_u32 (zlen (concat segs));
  lw_cells : lc_postings lc = concat cells;
  lw_shape : map length cells = map length segs;
  lw_count : length (fetched lc) = length segs;
  lw_nonempty : Forall (λ s, s ≠ []) segs;
  lw_bounds : Forall2 covers (lc_windows lc) segs;
  lw_fetched w seg : segs !! w = Some seg → fetched lc !! w = Some true → cells !! w = Some seg;
  lw_reads w seg : segs !! w = Some seg → fetched lc !! w = Some false →
    ∃ ds fs, FetchLazyWindow idx (Z.of_nat w) lc = Ok (ds, fs) ∧ length ds = length seg ∧
      ScoreDecoded sp (lc_ctx lc) params ds fs = Ok seg
}.
Definition lazy_of (lc : LazyTermCursor) (c : TermCursor) : Prop := ∃ segs cells, lazy_with segs cells lc c.

Lemma start_of_shape {A} (segs cells : list (list A)) w : map length cells = map length segs → start_of cells w = start_of segs w.
Proof.
  revert cells w. induction segs as [|seg segs IH]; intros [|cell cells] w; try done. cbn [map]. intros [= Hl Hs].
  destruct w as [|w]; [done|]. unfold start_of in *. cbn [take concat]. rewrite !length_app, Hl. by rewrite (IH cells w Hs).
Qed.

Lemma total_of segs cells lc c : lazy_with segs cells lc c → TotalPostings lc = zlen (concat segs).
Proof. intros Hw. unfold TotalPostings. by rewrite (lw_starts _ _ _ _ Hw), starts_last. Qed.

Lemma window_of_at segs cells lc c w seg p :
  lazy_with segs cells lc c → segs !! w = Some seg → (start_of segs w ≤ p < start_of segs w + length seg)%nat →
  WindowOf lc (Z.of_nat p) = Z.of_nat w.
Proof.
  intros Hw Hseg Hp. unfold WindowOf. rewrite (lw_starts _ _ _ _ Hw). pose proof (lookup_lt_Some _ _ _ Hseg) as Hlt.
  rewrite (partition_point_spec _ _ (S w)); [| |rewrite starts_length; lia].
  - pose proof (concat_count segs (lw_nonempty _ _ _ _ Hw)). pose proof (lw_total _ _ _ _ Hw). rewrite u32_small by ulia. lia.
  - intros i x Hi. pose proof (lookup_lt_Some _ _ _ Hi) as Hil. rewrite starts_length in Hil. rewrite starts_lookup in Hi by lia. injection Hi as <-.
    destruct (Nat.lt_ge_cases i (S w)) as [Hiw|Hiw].
    + rewrite bool_decide_true by done. pose proof (start_mono segs i w ltac:(lia)). apply negb_true_iff, Z.ltb_ge. lia.
    + rewrite bool_decide_false by lia. pose proof (start_mono segs (S w) i ltac:(lia)) as Hm. rewrite (start_S _ _ _ Hseg) in Hm.
      apply negb_false_iff, Z.ltb_lt. lia.
Qed.

(** A position in the stream: its window, and the place in it. *)
Lemma at_window segs cells lc c :
  lazy_with segs cells lc c → (pos c < length (concat segs))%nat →
  ∃ w seg i, segs !! w = Some seg ∧ (i < length seg)%nat ∧ pos c = (start_of segs w + i)%nat ∧
    WindowOf lc (Z.of_nat (lc_pos lc)) = Z.of_nat w.
Proof.
  intros Hw Hp. destruct (segment_at segs _ Hp) as (w & seg & Hseg & Hr). exists w, seg, (pos c - start_of segs w)%nat.
  split_and!; [done|lia|lia|]. rewrite (lw_pos _ _ _ _ Hw). by eapply window_of_at.
Qed.

(** A window is fetched once, and then holds its postings. *)
Lemma materialize_ok segs cells lc c w seg :
  lazy_with segs cells lc c → segs !! w = Some seg →
  ∃ lc' cells', MaterializeWindow idx sp params (Z.of_nat w) lc = Ok lc' ∧ lazy_with segs cells' lc' c ∧
    cells' !! w = Some seg.
Proof.
  intros Hw Hseg. pose proof (lookup_lt_Some _ _ _ Hseg) as Hlt. unfold MaterializeWindow, vec_at. rewrite Nat2Z.id.
  destruct (lookup_lt_is_Some_2 (fetched lc) w) as [[|] Hf]; [by rewrite (lw_count _ _ _ _ Hw)| |]; rewrite Hf, bind_Ok.
  { exists lc, cells. split_and!; [done..|]. by apply (lw_fetched _ _ _ _ Hw). }
  destruct (lw_reads _ _ _ _ Hw w seg Hseg Hf) as (ds & fs & -> & Hds & Hsc). rewrite bind_Ok. cbn beta iota.
  rewrite (lw_starts _ _ _ _ Hw). replace (Z.to_nat (Z.of_nat w + 1)) with (S w) by lia.
  rewrite !starts_lookup, !bind_Ok by lia. rewrite (start_S _ _ _ Hseg).
  destruct (list_lookup_fmap_Some_1 length cells w (length seg)) as (cell & Hcl & Hcell).
  { change (length <$> cells) with (map length cells). rewrite (lw_shape _ _ _ _ Hw). change (map length segs) with (length <$> segs). by rewrite list_lookup_fmap, Hseg. }
  assert (zlen seg ≤ zlen (concat segs)) as Hle by (rewrite (concat_split _ _ _ Hseg), !length_app; lia).
  pose proof (lw_total _ _ _ _ Hw) as Htot.
  rewrite bind_reject_false by (apply negb_false_iff, Z.eqb_eq; rewrite u32_small by ulia; lia).
  rewrite Hsc, bind_Ok. unfold copy_at. rewrite (lw_cells _ _ _ _ Hw). rewrite (proj2 (Z.leb_le _ _)).
  2: { rewrite <- (start_of_shape segs cells w) by apply (lw_shape _ _ _ _ Hw). rewrite (concat_split _ _ _ Hcell), !length_app. unfold start_of. lia. }
  rewrite bind_Ok, Nat2Z.id. rewrite <- (start_of_shape segs cells w) by apply (lw_shape _ _ _ _ Hw).
  rewrite (concat_replace cells w cell seg) by (done || lia).
  eexists _, (<[w := seg]> cells). split; [done|]. split; [|by apply list_lookup_insert_eq, (lookup_lt_Some _ _ _ Hcell)].
  destruct Hw as [? ? ? ? ? ? Hshape Hcount ? ? Hfetched Hreads]. split; cbn [lc_set_postings lc_windows lc_pos win_start lc_postings fetched lc_ctx]; try done.
  - rewrite <- Hshape. apply list_eq. intros i. change (map length) with (fmap (M := list) (@length TermPosting)). rewrite !list_lookup_fmap.
    destruct (decide (w = i)) as [<-|Hne]; [|by rewrite list_lookup_insert_ne by done].
    rewrite list_lookup_insert_eq by by apply lookup_lt_Some in Hcell. rewrite Hcell. cbn. by rewrite Hcl.
  - by rewrite length_insert.
  - intros v s Hs. destruct (decide (w = v)) as [<-|Hne].
    + intros _. rewrite list_lookup_insert_eq by by apply lookup_lt_Some in Hcell. congruence.
    + rewrite !list_lookup_insert_ne by done. by apply Hfetched.
  - intros v s Hs. destruct (decide (w = v)) as [<-|Hne].
    + rewrite list_lookup_insert_eq by lia. done.
    + rewrite list_lookup_insert_ne by done. by apply Hreads.
Qed.
Lemma lazy_set_pos segs cells lc c p : lazy_with segs cells lc c → lazy_with segs cells (lc_set_pos p lc) (set_pos p c).
Proof. intros []. by split. Qed.

Lemma cells_length segs cells lc c : lazy_with segs cells lc c → length (concat cells) = length (concat segs).
Proof.
  intros Hw. rewrite !length_concat. by rewrite (lw_shape _ _ _ _ Hw).
Qed.

(** The document the cursor stands at; its posting is then at hand. *)
Lemma lazy_current_doc lc c :
  lazy_of lc c →
  ∃ lc', LazyCurrentDoc idx sp params lc = Ok (CurrentDoc c, lc') ∧ lazy_of lc' c ∧
    ∀ p, postings c !! pos c = Some p → lc_postings lc' !! lc_pos lc' = Some p.
Proof.
  intros (segs & cells & Hw). unfold LazyCurrentDoc. rewrite (total_of _ _ _ _ Hw), (lw_pos _ _ _ _ Hw).
  destruct (Z.leb_spec (zlen (concat segs)) (Z.of_nat (pos c))) as [Hge|Hlt].
  - assert (postings c !! pos c = None) as Hnone by (rewrite (lw_postings _ _ _ _ Hw); apply lookup_ge_None; lia).
    exists lc. unfold CurrentDoc. rewrite Hnone. split_and!; [done|by exists segs, cells|done].
  - destruct (at_window _ _ _ _ Hw) as (w & seg & i & Hseg & Hi & Hp & Hof); [lia|]. rewrite (lw_pos _ _ _ _ Hw) in Hof. rewrite Hof.
    destruct (materialize_ok _ _ _ _ w seg Hw Hseg) as (lc' & cells' & -> & Hw' & Hc'). rewrite bind_Ok. unfold vec_at. rewrite Nat2Z.id.
    assert (lc_postings lc' !! pos c = postings c !! pos c) as Heq.
    { rewrite (lw_cells _ _ _ _ Hw'), (lw_postings _ _ _ _ Hw'), Hp. rewrite (segment_lookup _ _ _ _ Hseg Hi).
      rewrite <- (start_of_shape segs cells' w) by apply (lw_shape _ _ _ _ Hw'). by rewrite (segment_lookup _ _ _ _ Hc' Hi). }
    rewrite (lw_pos _ _ _ _ Hw'). destruct (lookup_lt_is_Some_2 (postings c) (pos c)) as [q Hq]; [rewrite (lw_postings _ _ _ _ Hw); lia|].
    rewrite Heq, Hq, bind_Ok. exists lc'. unfold CurrentDoc. rewrite Hq. split_and!; [done|by exists segs, cells'|]. by rewrite (lw_pos _ _ _ _ Hw'), Heq, Hq.
Qed.

(** ** Skipping *)

Lemma below_app target l r : Forall (λ p, tp_docid p < target) l → below target (l ++ r) = (length l + below target r)%nat.
Proof. induction 1 as [|p l Hp Hl IH]; [done|]. cbn [app below length]. rewrite (proj2 (Z.ltb_lt _ _) Hp), IH. lia. Qed.

Lemma below_stops target l r : Exists (λ p, target ≤ tp_docid p) l → below target (l ++ r) = below target l.
Proof.
  induction 1 as [p l Hp|p l Hl IH]; cbn [app below]; [by rewrite (proj2 (Z.ltb_ge _ _) Hp)|]. rewrite IH. done.
Qed.

Lemma last_drop {A} (l : list A) i x : last l = Some x → (i < length l)%nat → last (drop i l) = Some x.
Proof.
  intros Hl Hi. rewrite <- (take_drop i l) in Hl. destruct (drop i l) as [|y r] eqn:E.
  - apply (f_equal length) in E. rewrite length_drop in E. cbn in E. lia.
  - by rewrite last_app_cons in Hl.
Qed.

(** The end of the loop over windows: behind the stream, or in the window of the target. *)
Definition landed (segs : list (list TermPosting)) (target : Z) (c : TermCursor) : Prop :=
  (length (concat segs) ≤ pos c)%nat ∨
  ∃ w seg i, segs !! w = Some seg ∧ (i < length seg)%nat ∧ pos c = (start_of segs w + i)%nat ∧
    Exists (λ p, target ≤ tp_docid p) (drop i seg).

Lemma skip_windows_ok segs cells target fuel lc c :
  lazy_with segs cells lc c →
  (∀ w seg i, segs !! w = Some seg → pos c = (start_of segs w + i)%nat → (i < length seg)%nat → (length segs < fuel + w)%nat) → (0 < fuel)%nat →
  ∃ lc' p, skip_windows fuel target lc = Ok lc' ∧ lazy_with segs cells lc' (set_pos p c) ∧
    skip_to target (set_pos p c) = skip_to target c ∧ landed segs target (set_pos p c).
Proof.
  revert lc c. induction fuel as [|fuel IH]; intros lc c Hw Hfuel Hpos; [lia|]. cbn [skip_windows].
  rewrite (total_of _ _ _ _ Hw). rewrite (lw_pos _ _ _ _ Hw).
  destruct (Z.leb_spec (zlen (concat segs)) (Z.of_nat (pos c))) as [Hge|Hlt].
  { exists lc, (pos c). destruct c. split_and!; try done. left. cbn in *. lia. }
  destruct (at_window _ _ _ _ Hw) as (w & seg & i & Hseg & Hi & Hp & Hof); [lia|]. rewrite (lw_pos _ _ _ _ Hw) in Hof. rewrite Hof.
  pose proof (lookup_lt_Some _ _ _ Hseg) as Hwl.
  destruct (Forall2_lookup_r _ _ _ _ _ (lw_bounds _ _ _ _ Hw) Hseg) as (b & Hb & Hall & q & Hq & Hqd).
  unfold vec_at. rewrite Nat2Z.id, Hb, bind_Ok. destruct (Z.leb_spec target (wb_last_docid b)) as [Hle|Hgt].
  - exists lc, (pos c). destruct c as [ps ws p0]. cbn [pos set_pos postings windows] in *. split_and!; try done. right. exists w, seg, i.
    split_and!; [done..|]. apply Exists_exists. exists q. split; [|lia].
    pose proof (last_drop _ _ _ Hq Hi) as Hql. by apply last_Some_elem_of in Hql.
  - rewrite (lw_starts _ _ _ _ Hw). replace (Z.to_nat (Z.of_nat w + 1)) with (S w) by lia. rewrite starts_lookup, bind_Ok, Nat2Z.id by lia.
    set (next := start_of segs (S w)).
    assert (skip_to target (set_pos next c) = skip_to target c) as Hskip.
    { apply (f_equal (λ p, set_pos p c)). cbn [set_pos pos postings windows]. rewrite (lw_postings _ _ _ _ Hw), Hp.
      rewrite (drop_at _ _ _ _ Hseg (Nat.lt_le_incl _ _ Hi)). rewrite below_app.
      - rewrite length_drop. unfold next. rewrite (start_S _ _ _ Hseg). lia.
      - apply Forall_drop. eapply Forall_impl; [exact Hall|]. cbn. lia. }
    destruct (IH (lc_set_pos next lc) (set_pos next c)) as (lc' & p & Hs & Hw' & Hst & Hl).
    + by apply lazy_set_pos.
    + intros v s j Hs Hpv Hj. cbn [set_pos pos] in Hpv. specialize (Hfuel w seg i Hseg Hp Hi).
      destruct (Nat.le_gt_cases (S w) v); [lia|]. pose proof (start_mono segs (S v) (S w) ltac:(lia)) as Hm.
      rewrite (start_S segs v s Hs) in Hm. unfold next in Hpv. lia.
    + specialize (Hfuel w seg i Hseg Hp Hi). lia.
    + exists lc', p. split_and!; [exact Hs|exact Hw'| |exact Hl]. by rewrite <- Hskip.
Qed.

Lemma lazy_skip_to target lc c :
  lazy_of lc c → ∃ lc', LazySkipTo idx sp params target lc = Ok lc' ∧ lazy_of lc' (skip_to target c).
Proof.
  intros (segs & cells & Hw). unfold LazySkipTo. rewrite (total_of _ _ _ _ Hw).
  destruct (skip_windows_ok segs cells target (S (length (lc_windows lc))) lc c Hw) as (lc1 & p & -> & Hw1 & Hskip & Hl).
  - intros w seg i Hseg _ _. pose proof (Forall2_length _ _ _ (lw_bounds _ _ _ _ Hw)). lia.
  - lia.
  - rewrite bind_Ok. rewrite <- Hskip. rewrite (lw_pos _ _ _ _ Hw1). destruct Hl as [Hge|(w & seg & i & Hseg & Hi & Hp & Hex)].
    + rewrite (proj2 (Z.leb_le _ _)) by lia. exists lc1. split; [done|]. exists segs, cells.
      assert (skip_to target (set_pos p c) = set_pos p c) as ->; [|done].
      apply (f_equal (λ p, set_pos p c)). cbn [set_pos pos postings]. rewrite drop_ge; [cbn; lia|]. by rewrite (lw_postings _ _ _ _ Hw).
    + cbn [set_pos pos] in *. assert (start_of segs w + length seg ≤ length (concat segs))%nat as Hle.
      { rewrite (concat_split _ _ _ Hseg), !length_app. unfold start_of. lia. }
      rewrite (proj2 (Z.leb_gt _ _)) by lia.
      rewrite (window_of_at _ _ _ _ w seg p Hw1 Hseg) by lia.
      destruct (materialize_ok _ _ _ _ w seg Hw1 Hseg) as (lc2 & cells2 & -> & Hw2 & Hc2). rewrite bind_Ok. eexists. split; [done|].
      exists segs, cells2. rewrite (lw_pos _ _ _ _ Hw2). cbn [set_pos pos].
      assert (skip_to target (set_pos p c) = set_pos (p + below target (drop p (take (Z.to_nat (zlen (concat segs))) (lc_postings lc2)))) (set_pos p c)) as ->.
      2: { by apply lazy_set_pos. }
      apply (f_equal (λ n, set_pos (p + n) c)). cbn [set_pos pos postings windows]. rewrite Nat2Z.id, (lw_cells _ _ _ _ Hw2).
      rewrite take_ge by by rewrite (cells_length _ _ _ _ Hw2).
      rewrite (lw_postings _ _ _ _ Hw), Hp, (drop_at _ _ _ _ Hseg (Nat.lt_le_incl _ _ Hi)), (below_stops _ _ _ Hex).
      rewrite <- (start_of_shape segs cells2 w) by apply (lw_shape _ _ _ _ Hw2). rewrite (drop_at _ _ _ _ Hc2 (Nat.lt_le_incl _ _ Hi)).
      by rewrite (below_stops _ _ _ Hex).
Qed.
End Cursor.

(** ** The rounds *)

Section Rounds.
Context `{Zstd.ZstdOps} `{Sort} `{BsbfEnv} `{StdLog} `{PriorityQueueOf Entry} `{StdSortUniform}.
Context (idx : LogicalIndexReader) (sp : SniiStatsProvider) (params : Bm25Params).

Abbreviation lazy_cursors := (Forall2 (lazy_of idx sp params)).

Lemma current_docs_ok lcs cs :
  lazy_cursors lcs cs → ∃ lcs', current_docs idx sp params lcs = Ok (map CurrentDoc cs, lcs') ∧ lazy_cursors lcs' cs.
Proof.
  induction 1 as [|lc c lcs cs Hc Hcs (lcs' & IH & Hcs')]; cbn [current_docs map]; [by exists []|].
  destruct (lazy_current_doc idx sp params lc c Hc) as (lc' & -> & Hc' & _). rewrite bind_Ok. cbn beta iota. rewrite IH, bind_Ok.
  cbn beta iota. exists (lc' :: lcs'). split; [done|by constructor].
Qed.

Lemma sort_by_doc_ok lcs cs :
  lazy_cursors lcs cs →
  let sorted := std_sort (λ a b, CurrentDoc a <? CurrentDoc b) cs in
  ∃ lcs', SelectiveSortByDoc idx sp params lcs = Ok (match sorted with [] => UINT32_MAX | c :: _ => CurrentDoc c end, lcs') ∧
    lazy_cursors lcs' sorted.
Proof.
  intros Hcs sorted. unfold SelectiveSortByDoc. destruct (current_docs_ok lcs cs Hcs) as (lcs' & -> & Hcs'). rewrite bind_Ok. cbn beta iota.
  rewrite (Forall2_length _ _ _ Hcs').
  assert (∀ i c, cs !! i = Some c → map CurrentDoc cs !!! i = CurrentDoc c) as Hcur.
  { intros i c Hi. apply list_lookup_total_correct. change (map CurrentDoc cs) with (CurrentDoc <$> cs). by rewrite list_lookup_fmap, Hi. }
  assert (Forall2 (λ i c, cs !! i = Some c)
    (std_sort (λ a b, map CurrentDoc cs !!! a <? map CurrentDoc cs !!! b) (seq 0 (length cs))) sorted) as Hord.
  { apply std_sort_uniform.
    - intros a c a' c' Ha Ha'. by rewrite (Hcur _ _ Ha), (Hcur _ _ Ha').
    - apply Forall2_same_length_lookup_2; [by rewrite length_seq|]. intros i a c Ha Hc. apply lookup_seq in Ha as [-> _]. done. }
  set (order := std_sort _ (seq 0 (length cs))) in *. eexists. split.
  - do 2 f_equal. destruct Hord as [|i c order' sorted' Hi _]; [done|]. by apply Hcur.
  - clearbody order sorted. induction Hord as [|i c order' sorted' Hi Hord IH]; [constructor|]. cbn [omap list_omap].
    destruct (Forall2_lookup_r _ _ _ _ _ Hcs' Hi) as (lc & Hlc & Hof). rewrite Hlc. by constructor.
Qed.

Lemma bound_at lc c d : lazy_of idx sp params lc c → LazyTermBoundAt lc d = TermBoundAt c d.
Proof. intros (segs & cells & Hw). unfold LazyTermBoundAt, TermBoundAt. by rewrite (lw_windows _ _ _ _ _ _ _ Hw). Qed.

Lemma selective_pivot_ok theta bound lcs cs :
  lazy_cursors lcs cs →
  ∃ lcs', SelectivePivot idx sp params theta bound lcs = Ok (find_pivot theta bound cs, lcs') ∧ lazy_cursors lcs' cs.
Proof.
  intros Hcs. revert bound. induction Hcs as [|lc c lcs cs Hc Hcs IH]; intros bound; cbn [SelectivePivot find_pivot]; [by exists []|].
  destruct (lazy_current_doc idx sp params lc c Hc) as (lc' & -> & Hc' & _). rewrite bind_Ok. cbn beta iota.
  rewrite (bound_at lc' c _ Hc'). destruct (_ =? _); [exists (lc' :: lcs); split; [done|by constructor]|].
  destruct (dleb _ _); [exists (lc' :: lcs); split; [done|by constructor]|].
  destruct (IH (dadd bound (TermBoundAt c (CurrentDoc c)))) as (lcs' & -> & Hcs'). rewrite bind_Ok.
  exists (lc' :: lcs'). split; [done|by constructor].
Qed.

Lemma selective_score_ok d s lcs cs :
  d ≠ UINT32_MAX → lazy_cursors lcs cs →
  ∃ lcs', SelectiveScorePivot idx sp params d s lcs = Ok ((score_pivot d s cs).1, lcs') ∧ lazy_cursors lcs' (score_pivot d s cs).2.
Proof.
  intros Hd Hcs. revert s. induction Hcs as [|lc c lcs cs Hc Hcs IH]; intros s; cbn [SelectiveScorePivot score_pivot]; [by exists []|].
  destruct (lazy_current_doc idx sp params lc c Hc) as (lc' & -> & Hc' & Hp). rewrite bind_Ok. cbn beta iota.
  destruct (Z.eqb_spec (CurrentDoc c) d) as [He|Hne].
  - destruct (current_doc_at c) as (p & Hpp & _); [by rewrite He|]. rewrite Hpp. unfold vec_at. rewrite Nat2Z.id, (Hp p Hpp), bind_Ok.
    destruct (IH (dadd s (tp_score p))) as (lcs' & -> & Hcs'). rewrite bind_Ok. cbn beta iota.
    destruct (score_pivot d _ cs) as [s1 cs1]. cbn [fst snd] in *. eexists. split; [done|]. constructor; [|done].
    destruct Hc' as (segs & cells & Hw). exists segs, cells. rewrite (lw_pos _ _ _ _ _ _ _ Hw). by apply lazy_set_pos.
  - destruct (IH s) as (lcs' & -> & Hcs'). rewrite bind_Ok. cbn beta iota.
    destruct (score_pivot d _ cs) as [s1 cs1]. cbn [fst snd] in *. eexists. split; [done|]. by constructor.
Qed.

Lemma selective_advance_ok d lcs cs :
  lazy_cursors lcs cs →
  ∃ lcs', SelectiveAdvanceLagging idx sp params d lcs = Ok lcs' ∧ lazy_cursors lcs' (advance_lagging d cs).
Proof.
  induction 1 as [|lc c lcs cs Hc Hcs (lcs' & IH & Hcs')]; cbn [SelectiveAdvanceLagging advance_lagging]; [by exists []|].
  destruct (lazy_current_doc idx sp params lc c Hc) as (lc' & -> & Hc' & _). rewrite bind_Ok. cbn beta iota. destruct (_ <? _).
  - destruct (lazy_skip_to idx sp params d lc' c Hc') as (lc2 & -> & Hc2). rewrite bind_Ok. exists (lc2 :: lcs). split; [done|by constructor].
  - rewrite IH, bind_Ok. exists (lc' :: lcs'). split; [done|by constructor].
Qed.

(** A round of the selective query is a round of the eager one. *)
Lemma selective_step_ok lcs cs t :
  lazy_cursors lcs cs →
  match wand_step cs t with
  | Ok (Some (cs', t')) => ∃ lcs', SelectiveStep idx sp params lcs t = Ok (Some (lcs', t')) ∧ lazy_cursors lcs' cs'
  | Ok None => SelectiveStep idx sp params lcs t = Ok None
  | Err st => SelectiveStep idx sp params lcs t = Err st
  | Undef => SelectiveStep idx sp params lcs t = Undef
  end.
Proof.
  intros Hcs. unfold wand_step, SelectiveStep. destruct (sort_by_doc_ok lcs cs Hcs) as (lcs1 & -> & Hcs1). rewrite bind_Ok. cbn beta iota.
  destruct Hcs1 as [|lc c lcs1 cs1 Hc Hcs1]; [done|]. assert (lazy_cursors (lc :: lcs1) (c :: cs1)) as Hall by by constructor.
  destruct (Z.eqb_spec (CurrentDoc c) UINT32_MAX) as [|Hmax]; [done|]. destruct (threshold t) as [theta|st|]; [|done|done]. rewrite !bind_Ok.
  destruct (selective_pivot_ok theta d0 _ _ Hall) as (lcs2 & -> & Hcs2). rewrite bind_Ok. cbn beta iota.
  destruct (find_pivot theta d0 (c :: cs1)) as [d|] eqn:Hpiv; [|done]. apply find_pivot_elem in Hpiv as [Hd _]. destruct (_ =? _).
  - destruct (selective_score_ok d d0 _ _ Hd Hcs2) as (lcs3 & -> & Hcs3). rewrite bind_Ok. cbn beta iota.
    destruct (score_pivot d d0 (c :: cs1)) as [s cs3]. by exists lcs3.
  - destruct (selective_advance_ok d _ _ Hcs2) as (lcs3 & -> & Hcs3). rewrite bind_Ok. by exists lcs3.
Qed.

Lemma selective_loop_ok fuel lcs cs t :
  lazy_cursors lcs cs → SelectiveWandLoop idx sp params fuel lcs t = wand_loop fuel cs t.
Proof.
  revert lcs cs t. induction fuel as [|fuel IH]; intros lcs cs t Hcs; cbn [SelectiveWandLoop wand_loop]; [done|].
  pose proof (selective_step_ok lcs cs t Hcs) as Hs. destruct (wand_step cs t) as [[[cs' t']|]|st|].
  - destruct Hs as (lcs' & -> & Hcs'). rewrite !bind_Ok. by apply IH.
  - by rewrite Hs.
  - by rewrite Hs.
  - by rewrite Hs.
Qed.

Lemma selective_fuel_ok lcs cs : lazy_cursors lcs cs → selective_fuel lcs = wand_fuel cs.
Proof.
  intros Hcs. unfold selective_fuel, wand_fuel. f_equal. induction Hcs as [|lc c lcs cs (segs & cells & Hw) Hcs IH]; [done|].
  cbn [sum_list_with]. rewrite IH. f_equal. unfold lazy_remaining, remaining.
  rewrite (total_of _ _ _ _ _ _ _ Hw), (lw_pos _ _ _ _ _ _ _ Hw), (lw_postings _ _ _ _ _ _ _ Hw). lia.
Qed.
End Rounds.

(** ** Building the cursors *)

Section Score.
Context `{StdLog} (sp : SniiStatsProvider) (ctx : ScorerContext) (params : Bm25Params).

(** The posting of a document with its score. *)
Definition posting_of (d tf : Z) : result TermPosting :=
  norm ← encoded_norm sp d;
  Ok (mkTermPosting d (score ctx tf norm (avgdl sp) params)).

Lemma fold_push {A B} (g : A → result B) l acc r :
  fold_result (λ x out, p ← g x; Ok (out ++ [p])) l acc = Ok r ↔ ∃ ps, r = acc ++ ps ∧ Forall2 (λ x p, g x = Ok p) l ps.
Proof.
  revert acc. induction l as [|x l IH]; intros acc; cbn [fold_result].
  - split; [intros [= <-]; exists []; by rewrite app_nil_r|]. intros (ps & -> & Hps). apply Forall2_nil_inv_l in Hps as ->. by rewrite app_nil_r.
  - destruct (g x) as [p|st|] eqn:E.
    + rewrite !bind_Ok, IH. split.
      * intros (ps & -> & Hps). exists (p :: ps). rewrite <- app_assoc. split; [done|by constructor].
      * intros (ps & -> & Hps). apply Forall2_cons_inv_l in Hps as (q & ps' & Hq & Hps & ->). rewrite E in Hq. injection Hq as <-.
        exists ps'. by rewrite <- app_assoc.
    + split; [done|]. intros (ps & -> & Hps). apply Forall2_cons_inv_l in Hps as (q & ps' & Hq & Hps & ->). congruence.
    + split; [done|]. intros (ps & -> & Hps). apply Forall2_cons_inv_l in Hps as (q & ps' & Hq & Hps & ->). congruence.
Qed.

Lemma score_decoded_iff ds fs ps :
  ScoreDecoded sp ctx params ds fs = Ok ps ↔
  length ps = length ds ∧ ∀ i d, ds !! i = Some d → ∃ p, ps !! i = Some p ∧ posting_of d (default 1 (fs !! i)) = Ok p.
Proof.
  unfold ScoreDecoded. transitivity (fold_result (λ i out, p ← posting_of (ds !!! i) (default 1 (fs !! i)); Ok (out ++ [p])) (seq 0 (length ds)) [] = Ok ps).
  { assert (∀ l acc, fold_result (score_posting sp ctx params ds fs) l acc =
      fold_result (λ i out, p ← posting_of (ds !!! i) (default 1 (fs !! i)); Ok (out ++ [p])) l acc) as ->; [|done].
    assert (∀ i out, score_posting sp ctx params ds fs i out =
      (p ← posting_of (ds !!! i) (default 1 (fs !! i)); Ok (out ++ [p]))) as He.
    { intros i out. unfold score_posting, posting_of. by destruct (encoded_norm sp (ds !!! i)). }
    induction l as [|i l IH]; intros acc; cbn [fold_result]; [done|]. rewrite He.
    destruct (posting_of _ _); cbn; [apply IH|done|done]. }
  rewrite fold_push. split.
  - intros (ps' & -> & Hps). split; [apply Forall2_length in Hps; rewrite length_seq in Hps; done|]. intros i d Hd.
    assert (seq 0 (length ds) !! i = Some i) as Hi by (apply lookup_seq; split; [done|by apply lookup_lt_Some in Hd]).
    destruct (Forall2_lookup_l _ _ _ _ _ Hps Hi) as (p & Hp & Ho). exists p. split; [done|].
    by rewrite (list_lookup_total_correct _ _ _ Hd) in Ho.
  - intros [Hl Hps]. exists ps. split; [done|]. apply Forall2_same_length_lookup_2; [by rewrite length_seq|].
    intros i j p Hi Hp. apply lookup_seq in Hi as [-> Hi]. cbn [Nat.add] in *. destruct (lookup_lt_is_Some_2 ds i Hi) as [d Hd].
    destruct (Hps i d Hd) as (q & Hq & Ho). rewrite (list_lookup_total_correct _ _ _ Hd). congruence.
Qed.

Lemma score_decoded_app d1 d2 f1 f2 ps :
  length f1 = length d1 → ScoreDecoded sp ctx params (d1 ++ d2) (f1 ++ f2) = Ok ps →
  ∃ p1 p2, ps = p1 ++ p2 ∧ ScoreDecoded sp ctx params d1 f1 = Ok p1 ∧ ScoreDecoded sp ctx params d2 f2 = Ok p2.
Proof.
  intros Hf [Hl Hps]%score_decoded_iff. rewrite length_app in Hl. exists (take (length d1) ps), (drop (length d1) ps).
  split; [by rewrite take_drop|]. split; apply score_decoded_iff.
  - split; [rewrite length_take; lia|]. intros i d Hd. pose proof (lookup_lt_Some _ _ _ Hd) as Hi.
    destruct (Hps i d) as (p & Hp & Ho); [by rewrite lookup_app_l|]. exists p. rewrite lookup_take_lt by done. split; [done|].
    by rewrite lookup_app_l in Ho by lia.
  - split; [rewrite length_drop; lia|]. intros i d Hd. destruct (Hps (length d1 + i)%nat d) as (p & Hp & Ho).
    { rewrite lookup_app_r by lia. by replace (length d1 + i - length d1)%nat with i by lia. }
    exists p. rewrite lookup_drop. split; [done|]. rewrite lookup_app_r in Ho by lia. by replace (length d1 + i - length f1)%nat with i in Ho by lia.
Qed.

Lemma score_decoded_concat (xs : list (list Z * list Z)) ps :
  Forall (λ x, length x.2 = length x.1) xs → ScoreDecoded sp ctx params (concat (map fst xs)) (concat (map snd xs)) = Ok ps →
  ∃ segs, ps = concat segs ∧ Forall2 (λ x seg, ScoreDecoded sp ctx params x.1 x.2 = Ok seg) xs segs.
Proof.
  intros Hxs. revert ps. induction Hxs as [|[d f] xs Hx Hxs IH]; intros ps Hs.
  - apply score_decoded_iff in Hs as [Hl _]. exists []. split; [by apply nil_length_inv|constructor].
  - cbn [map concat fst snd] in *. apply score_decoded_app in Hs as (p1 & p2 & -> & H1 & H2); [|done].
    destruct (IH p2 H2) as (segs & -> & Hsegs). exists (p1 :: segs). split; [done|by constructor].
Qed.

Lemma score_decoded_docs ds fs ps : ScoreDecoded sp ctx params ds fs = Ok ps → map tp_docid ps = ds.
Proof.
  intros [Hl Hps]%score_decoded_iff. apply list_eq. intros i. change (map tp_docid ps) with (tp_docid <$> ps). rewrite list_lookup_fmap.
  destruct (ds !! i) as [d|] eqn:Hd.
  - destruct (Hps i d Hd) as (p & -> & Ho). unfold posting_of in Ho. destruct (encoded_norm sp d); [|done|done]. by injection Ho as <-.
  - apply lookup_ge_None in Hd. rewrite lookup_ge_None_2 by lia. done.
Qed.
End Score.

Section Bounds.
Context `{StdLog} (ctx : ScorerContext) (avg : double) (params : Bm25Params) (prelude : FrqPreludeReader).

Definition bound_of (w : nat) (m : WindowMeta) : WindowBound :=
  mkWindowBound (u32 (u32 (win_base m) + (if Z.of_nat w =? 0 then 0 else 1))) (last_docid m)
    (max_score ctx (FrqPrelude.max_freq m) (max_norm m) avg params) true.

Lemma window_at (w : nat) m : windows_ prelude !! w = Some m → FrqPrelude.window prelude (Z.of_nat w) = Ok m.
Proof.
  intros Hm. unfold FrqPrelude.window. pose proof (lookup_lt_Some _ _ _ Hm). rewrite (proj2 (Z.leb_gt _ _)) by lia. by rewrite Nat2Z.id, Hm.
Qed.

(** Every window that holds documents has its bound. *)
Lemma push_bounds_ok l r acc :
  windows_ prelude = l ++ r → Forall (λ m, doc_count m ≠ 0) r →
  fold_result (push_bound prelude ctx avg params) (seqZ (zlen l) (zlen r)) acc =
    Ok (acc ++ imap (λ i m, bound_of (length l + i) m) r).
Proof.
  revert l acc. induction r as [|m r IH]; intros l acc Hw Hr; [by rewrite app_nil_r|]. apply Forall_cons in Hr as [Hm Hr].
  cbn [length]. rewrite Nat2Z.inj_succ, seqZ_cons by lia. cbn [fold_result].
  assert (push_bound prelude ctx avg params (zlen l) acc = Ok (acc ++ [bound_of (length l) m])) as ->.
  { unfold push_bound. rewrite (window_at (length l) m), bind_Ok by (rewrite Hw; by apply list_lookup_middle).
    by rewrite (proj2 (Z.eqb_neq _ _) Hm). }
  rewrite bind_Ok.
  specialize (IH (l ++ [m])). rewrite length_app in IH. cbn [length] in IH.
  replace (Z.succ (Z.of_nat (length l))) with (Z.of_nat (length l + 1)) by lia. rewrite Z.pred_succ.
  rewrite IH; [|by rewrite <- app_assoc|done]. f_equal. rewrite <- app_assoc. cbn [imap app]. rewrite Nat.add_0_r. f_equal. f_equal.
  apply imap_ext. intros i x _. unfold compose. f_equal. lia.
Qed.

Lemma bounds_ok :
  is_u32 (zlen (windows_ prelude)) → Forall (λ m, doc_count m ≠ 0) (windows_ prelude) →
  BuildWindowBounds prelude ctx avg params = Ok (imap bound_of (windows_ prelude)).
Proof.
  intros Hn Hr. unfold BuildWindowBounds, n_windows. rewrite u32_small by done.
  exact (push_bounds_ok [] (windows_ prelude) [] eq_refl Hr).
Qed.

Lemma starts_snoc {A} (segs : list (list A)) seg : starts_of (segs ++ [seg]) = starts_of segs ++ [zlen (concat (segs ++ [seg]))].
Proof.
  unfold starts_of. rewrite length_app. cbn [length]. rewrite Nat.add_1_r, seq_S, map_app. cbn [map Nat.add]. f_equal.
  - apply map_ext_in. intros w Hw. apply in_seq in Hw. unfold start_of. by rewrite take_app_le by lia.
  - unfold start_of. f_equal. f_equal. f_equal. f_equal. apply take_ge. rewrite length_app. cbn [length]. lia.
Qed.

(** The prefix sums over the windows are the starts of their postings. *)
Lemma push_starts_ok {A} (sl sr : list (list A)) l r :
  windows_ prelude = l ++ r → length l = length sl → Forall2 (λ m s, doc_count m = zlen s ∧ s ≠ []) r sr → is_u32 (zlen (concat (sl ++ sr))) →
  fold_result (push_start prelude (zlen (sl ++ sr))) (seqZ (zlen l) (zlen r)) (starts_of sl) = Ok (starts_of (sl ++ sr)).
Proof.
  intros Hw Hl Hr. revert sl l Hw Hl. induction Hr as [|m s r sr [Hm Hs] Hr IH]; intros sl l Hw Hl Htot; [by rewrite app_nil_r|].
  cbn [length]. rewrite Nat2Z.inj_succ, seqZ_cons by lia. cbn [fold_result].
  assert (push_start prelude (zlen (sl ++ s :: sr)) (zlen l) (starts_of sl) = Ok (starts_of (sl ++ [s]))) as ->.
  { unfold push_start. rewrite starts_length, length_app. cbn [length]. rewrite (proj2 (Z.leb_gt _ _)) by lia.
    rewrite (window_at (length l) m), bind_Ok by (rewrite Hw; by apply list_lookup_middle).
    assert (0 < zlen s) by (destruct s; [done|cbn [length]; lia]). rewrite (proj2 (Z.eqb_neq _ _)) by lia. rewrite starts_last. cbn [default].
    rewrite starts_snoc. do 3 f_equal. rewrite concat_app, !length_app in *. cbn in *. rewrite app_nil_r, Hm. rewrite length_app in Htot.
    rewrite u32_small by ulia. lia. }
  rewrite bind_Ok.
  specialize (IH (sl ++ [s]) (l ++ [m])). rewrite <- !app_assoc in IH. cbn [app] in IH. rewrite !length_app in IH. cbn [length] in IH.
  replace (Z.succ (Z.of_nat (length l))) with (Z.of_nat (length l + 1)) by lia. rewrite Z.pred_succ.
  rewrite (length_app sl (s :: sr)). cbn [length]. by apply IH; [|lia|].
Qed.
End Bounds.

Lemma decode_freq_length `{Zstd.ZstdOps} r m n fs : 0 < n → decode_freq_region r m n = Ok fs → zlen fs = n.
Proof.
  intros Hn. unfold decode_freq_region. destruct (open_region r m) as [plain|st|]; [|done|done]. rewrite bind_Ok.
  rewrite (proj2 (Z.eqb_neq _ _)) by lia. intros Hr.
  by destruct (safe_run _ _ plain (safe_whole _ "frq: trailing bytes after freq region payload" _ (PforRuns.safe_decode_pfor_runs n ltac:(lia)))) as [_ HP]; apply HP in Hr as [? _].
Qed.

Lemma decode_window_lengths `{Zstd.ZstdOps} m dd fq px d :
  decode_window_slices m dd fq px false true = Ok d →
  zlen d.1.1 = doc_count m ∧ (d.1.1 ≠ [] → length d.1.2 = length d.1.1).
Proof.
  unfold decode_window_slices. intros Hd. inv_bind Hd. apply reject_if_Ok, negb_false_iff, Z.eqb_eq in E0. injection Hd as <-. cbn.
  split; [done|]. intros Hne. apply decode_freq_length in E1; [lia|]. destruct a; [done|cbn [length] in *; lia].
Qed.

(** ** The two ways to build a cursor *)

(** A windowed entry lies in the file. *)
Definition fetchable `{Zstd.ZstdOps} (file : bytes) (idx : LogicalIndexReader) (hit : PrefixHit) : Prop :=
  is_windowed (hit_entry hit) = true → ∃ prelude ds, windows_hold file idx (hit_entry hit) (hit_frq_base hit) (hit_prx_base hit) prelude ds.

(** Documents in order, and fewer than a [uint32_t] counts. *)
Definition sane_cursor (c : TermCursor) : Prop :=
  StronglySorted Z.le (map tp_docid (postings c)) ∧ is_u32 (zlen (postings c)).

Section Build.
Context `{Zstd.ZstdOps} `{SortLaws} `{BsbfEnv} `{StdLog} (file : bytes) (idx : LogicalIndexReader).
Context (sp : SniiStatsProvider) (params : Bm25Params) (Hfile : zlen file < 2 ^ 64) (Hserves : serves file (reader_ idx)).

Lemma FetchPrelude_at entry frq_base prelude :
  frq_at file idx entry frq_base prelude → FetchPrelude idx entry frq_base = Ok prelude.
Proof.
  intros Hat. pose proof (fetch_prelude_at file idx entry frq_base Hfile Hserves prelude Hat) as Hf. pose proof (fa_prelude _ _ _ _ _ Hat).
  unfold fetch_windowed_prelude in Hf. rewrite bind_reject_false in Hf by (apply Z.eqb_neq; lia).
  by rewrite bind_reject_false in Hf by (apply Z.ltb_ge; lia).
Qed.

Lemma fetch_lazy_at hit prelude lc (w : nat) m d :
  frq_at file idx (hit_entry hit) (hit_frq_base hit) prelude → windows_ prelude !! w = Some m →
  window_yields file idx (hit_entry hit) (hit_frq_base hit) (hit_prx_base hit) prelude false true m d →
  lc_prelude lc = prelude → lc_entry lc = hit_entry hit → lc_frq_base lc = hit_frq_base hit → lc_prx_base lc = hit_prx_base hit →
  FetchLazyWindow idx (Z.of_nat w) lc = Ok d.1.
Proof.
  intros Hat Hm Hy Hp He Hb Hpb. unfold FetchLazyWindow. rewrite Hp, He, Hb, Hpb. rewrite (window_at prelude w m Hm), bind_Ok.
  rewrite (window_range_at file idx (hit_entry hit) (hit_frq_base hit) (hit_prx_base hit) Hfile prelude false true w m d) by done. rewrite bind_Ok.
  cbn [wr_dd_off wr_dd_len wr_freq_off wr_freq_len].
  destruct (blocks_in_file file idx (hit_entry hit) (hit_frq_base hit) prelude Hat) as [Hin1 Hin2].
  destruct Hy as (Hdd & Hfq & _ & Hdec). specialize (Hfq eq_refl).
  set (r1 := mkRange (dd_start idx (hit_entry hit) (hit_frq_base hit) + dd_off m) (dd_disk_len m)).
  set (r2 := mkRange (freq_start idx (hit_entry hit) (hit_frq_base hit) prelude + freq_off m) (freq_disk_len m)).
  destruct (fetch_ranges_gap file idx Hfile Hserves kSameTermCoalesceGap [r1; r2]) as (f & Hf & Hget).
  { done. }
  { unfold in_file, fits_in in *. repeat apply Forall_cons_2; [cbn; lia|cbn; lia|constructor]. }
  pose proof (Hget 0%nat r1 eq_refl) as Hg1. pose proof (Hget 1%nat r2 eq_refl) as Hg2.
  unfold add_all in Hf. cbn [fold_left FileIO.offset FileIO.len r1 r2] in Hf, Hg1, Hg2. unfold add in Hf |- *.
  cbn [fst snd reqs_ coalesce_gap_ phys_ new_fetcher app length Nat.sub Nat.add] in Hf |- *. rewrite Hf, !bind_Ok, Hg1, bind_Ok, Hg2, bind_Ok.
  unfold window_bytes in Hdec. rewrite Hdec, bind_Ok. by destruct d as [[ds fs] ps].
Qed.

(** The windows of a scored entry, one segment of postings each. *)
Lemma windowed_segments hit prelude ds ctx ps :
  windows_hold file idx (hit_entry hit) (hit_frq_base hit) (hit_prx_base hit) prelude ds →
  ScoreDecoded sp ctx params (concat (map (λ d, d.1.1) ds)) (concat (map (λ d, d.1.2) ds)) = Ok ps →
  ∃ segs, ps = concat segs ∧ Forall2 (λ d seg, ScoreDecoded sp ctx params d.1.1 d.1.2 = Ok seg) ds segs ∧
    Forall2 (λ m seg, doc_count m = zlen seg ∧ seg ≠ []) (windows_ prelude) segs ∧
    Forall2 (λ m seg, ∃ p, last seg = Some p ∧ tp_docid p = last_docid m) (windows_ prelude) segs.
Proof.
  intros (Hat & Hy & Hl) Hsc. rewrite <- (map_map fst fst), <- (map_map fst snd) in Hsc.
  apply score_decoded_concat in Hsc as (segs & -> & Hsegs).
  2: { apply Forall_fmap, Forall_lookup. intros i d Hd. destruct (Forall2_lookup_r _ _ _ _ _ Hy Hd) as (m & Hm & (_ & _ & _ & Hdec)).
       pose proof (Forall2_lookup_lr _ _ _ _ _ _ Hl Hm Hd) as Hlast. cbn beta in Hlast. apply decode_window_lengths in Hdec as [_ Hf]. apply Hf.
       intros Hn. rewrite Hn in Hlast. done. }
  change (map fst ds) with (fst <$> ds) in Hsegs. apply Forall2_fmap_l in Hsegs. exists segs. split; [done|]. split; [exact Hsegs|].
  pose proof (Forall2_length _ _ _ Hy) as Hl1. pose proof (Forall2_length _ _ _ Hsegs) as Hl2.
  split; (apply Forall2_same_length_lookup_2; [lia|]); intros i m seg Hm Hseg;
    destruct (Forall2_lookup_l _ _ _ _ _ Hy Hm) as (d & Hd & (_ & _ & _ & Hdec));
    pose proof (Forall2_lookup_lr _ _ _ _ _ _ Hsegs Hd Hseg) as Hs; pose proof (Forall2_lookup_lr _ _ _ _ _ _ Hl Hm Hd) as Hlast;
    cbn in Hs; apply score_decoded_docs in Hs; cbn beta in Hlast; rewrite <- Hs in Hlast;
    change (map tp_docid seg) with (tp_docid <$> seg) in Hlast; rewrite fmap_last in Hlast.
  - apply decode_window_lengths in Hdec as [Hc _]. rewrite <- Hs, length_map in Hc. split; [done|]. by intros ->.
  - destruct (last seg) as [p|]; [|done]. exists p. split; [done|]. by injection Hlast.
Qed.

Lemma build_windowed_ok hit prelude ds ctx c :
  windows_hold file idx (hit_entry hit) (hit_frq_base hit) (hit_prx_base hit) prelude ds →
  BuildWindowedCursor idx sp ctx (hit_entry hit) (hit_frq_base hit) (hit_prx_base hit) params = Ok c → sane_cursor c →
  ∃ lc, BuildLazyWindowed idx sp params (mkLazyCursor ctx (hit_entry hit) (hit_frq_base hit) (hit_prx_base hit) no_prelude true [] [] [] [] 0) = Ok lc ∧
    lazy_of idx sp params lc c ∧ TotalPostings lc = zlen (postings c) ∧ (windows c = [] → postings c = []).
Proof.
  intros Hh Hb [Hsorted Htotal]. pose proof Hh as (Hat & Hy & Hl). pose proof (fa_count _ _ _ _ _ Hat) as Hcount. unfold BuildWindowedCursor in Hb.
  rewrite (read_windowed_posting_at file idx _ _ _ Hfile Hserves prelude false true ds) in Hb by done. rewrite bind_Ok in Hb.
  cbn [join WindowedPosting.docids WindowedPosting.freqs] in Hb.
  apply result_bind_Ok in Hb as (ps & Hsc & Hb). rewrite (FetchPrelude_at _ _ _ Hat) in Hb.
  destruct (windowed_segments hit prelude ds ctx ps Hh Hsc) as (segs & -> & Hsegs & Hcnt & Hlast).
  assert (Forall (λ m, doc_count m ≠ 0) (windows_ prelude)) as Hne.
  { apply Forall_lookup. intros i m Hm. destruct (Forall2_lookup_l _ _ _ _ _ Hcnt Hm) as (seg & _ & -> & Hs). destruct seg; [done|cbn; lia]. }
  pose proof (bounds_ok ctx (avgdl sp) params prelude Hcount Hne) as Hbounds. rewrite Hbounds, bind_Ok in Hb. injection Hb as <-. cbn [postings windows] in *.
  unfold BuildLazyWindowed. cbn [lc_entry lc_frq_base lc_ctx]. rewrite (fetch_prelude_at file idx _ _ Hfile Hserves prelude Hat), bind_Ok.
  rewrite Hbounds, bind_Ok. rewrite length_imap. pose proof (Forall2_length _ _ _ Hcnt) as Hlen. rewrite Hlen.
  pose proof (push_starts_ok prelude [] segs [] (windows_ prelude) eq_refl eq_refl Hcnt Htotal) as Hst. unfold n_windows. rewrite u32_small by done.
  cbn [app length] in Hst. change (starts_of (A := TermPosting) []) with [0] in Hst. change (Z.of_nat 0) with 0 in Hst. rewrite Hst, bind_Ok.
  rewrite starts_length, starts_last. cbn [default].
  replace (Z.to_nat (Z.of_nat (length segs) + 1 - Z.of_nat (S (length segs)))) with 0%nat by lia. rewrite app_nil_r, !Nat2Z.id.
  eexists. split; [done|]. split; [|split].
  - exists segs, (map (λ s, replicate (length s) default_posting) segs). split; cbn; try done.
    + rewrite Nat2Z.id. clear. induction segs as [|s segs IH]; [done|]. cbn [concat map]. rewrite length_app, replicate_add. by rewrite IH.
    + rewrite map_map. apply map_ext. intros s. by rewrite length_replicate.
    + by rewrite length_replicate.
    + apply Forall_lookup. intros i s Hs. destruct (Forall2_lookup_r _ _ _ _ _ Hcnt Hs) as (m & _ & _ & ?). done.
    + apply Forall2_same_length_lookup_2; [by rewrite length_imap|]. intros i b seg Hb Hseg. rewrite list_lookup_imap in Hb.
      apply fmap_Some in Hb as (m & Hm & ->). destruct (Forall2_lookup_lr _ _ _ _ _ _ Hlast Hm Hseg) as (p & Hp & Hpd). cbn.
      split; [|by exists p]. apply last_Some in Hp as (seg' & ->).
      rewrite (concat_split _ _ _ Hseg), !map_app in Hsorted. apply StronglySorted_app_1_r, StronglySorted_app_1_l in Hsorted.
      apply StronglySorted_app in Hsorted as (Hord & _ & _). cbn in Hord. cbn. rewrite <- Hpd. apply Forall_app_2; [|by apply Forall_cons_2].
      apply Forall_forall. intros q Hq. apply Hord; [by apply list_elem_of_fmap_2|by left].
    + intros w seg Hw Hf. apply lookup_replicate in Hf as [? _]. done.
    + intros w seg Hseg _. destruct (Forall2_lookup_r _ _ _ _ _ Hsegs Hseg) as (d & Hd & Hs).
      destruct (Forall2_lookup_r _ _ _ _ _ Hy Hd) as (m & Hm & Hyd). exists d.1.1, d.1.2. split_and!; [|by rewrite <- (score_decoded_docs _ _ _ _ _ _ Hs), length_map|done].
      rewrite (fetch_lazy_at hit prelude _ w m d) by done. by destruct d as [[??]?].
  - unfold TotalPostings. cbn [win_start lc_set_windows]. by rewrite starts_last.
  - intros Hn. apply (f_equal length) in Hn. rewrite length_imap, Hlen in Hn. cbn in Hn. by apply nil_length_inv in Hn as ->.
Qed.
Lemma build_slim_ok hit ctx ds fs ps :
  DecodeSlim idx (hit_entry hit) (hit_frq_base hit) = Ok (ds, fs) → ScoreDecoded sp ctx params ds fs = Ok ps →
  let c := mkTermCursor ps (SingleWindowFallback ps) 0 in sane_cursor c →
  ∃ lc, BuildLazySlim idx sp params (mkLazyCursor ctx (hit_entry hit) (hit_frq_base hit) (hit_prx_base hit) no_prelude false [] [] [] [] 0) = Ok lc ∧
    TotalPostings lc = zlen ps ∧ (ps ≠ [] → lazy_of idx sp params lc c).
Proof.
  intros Hd Hsc c [Hsorted Htotal]. cbn [postings c] in *. unfold BuildLazySlim. cbn [lc_entry lc_frq_base lc_ctx].
  rewrite Hd, bind_Ok. cbn beta iota. rewrite Hsc, bind_Ok, u32_small by done.
  eexists. split; [done|]. split; [done|]. intros Hne. exists [ps], [ps].
  split; cbn [lc_set_windows lc_windows lc_pos win_start lc_postings fetched lc_ctx windows pos postings concat map c]; rewrite ?app_nil_r; try done.
  - unfold starts_of, start_of. cbn. by rewrite app_nil_r.
  - by apply Forall_cons_2.
  - destruct ps as [|p ps]; [done|]. constructor; [|constructor].
    assert (last (p :: ps) = Some (List.last (p :: ps) p)) as Hlast.
    { clear. destruct (exists_last (l := p :: ps) ltac:(done)) as (l & q & ->). by rewrite last_snoc, List.last_last. }
    split; [|by exists (List.last (p :: ps) p)]. cbn [wb_last_docid].
    apply last_Some in Hlast as (l & Hl). set (q := List.last (p :: ps) p) in *. rewrite Hl, map_app in Hsorted. rewrite Hl.
    apply StronglySorted_app in Hsorted as (Hord & _ & _).
    apply Forall_app_2; [|by apply Forall_cons_2]. apply Forall_forall. intros x Hx.
    apply Hord; [by apply list_elem_of_fmap_2|by left].
  - intros [|w] seg; [|by destruct w]. done.
Qed.

Lemma build_cursor_ok t oc :
  (∀ hit, lookup idx t = Ok (Some hit) → fetchable file idx hit) → BuildCursor idx sp t params = Ok oc →
  match oc with
  | None => BuildLazyCursor idx sp params t = Ok None
  | Some c => sane_cursor c →
      ∃ lc, BuildLazyCursor idx sp params t = Ok (Some lc) ∧ TotalPostings lc = zlen (postings c) ∧
        (postings c ≠ [] → lazy_of idx sp params lc c)
  end.
Proof.
  intros Hfet Hb. unfold BuildCursor in Hb. unfold BuildLazyCursor. destruct (lookup idx t) as [[hit|]|st|]; [|by injection Hb as <-|done|done].
  specialize (Hfet hit eq_refl). rewrite bind_Ok. rewrite bind_Ok in Hb. cbn [lc_windowed]. set (ctx := make _ _) in *. unfold fetchable in Hfet.
  destruct (is_windowed (hit_entry hit)).
  - destruct (Hfet eq_refl) as (prelude & ds & Hh). apply result_bind_Ok in Hb as (c & Hc & Hb). injection Hb as <-. intros Hsane.
    assert (sane_cursor c) as Hsc by by destruct (windows c).
    destruct (build_windowed_ok hit prelude ds ctx c Hh Hc Hsc) as (lc & -> & Hof & Htot & Hnil). rewrite bind_Ok. exists lc.
    split; [done|]. destruct (windows c) as [|b bs]; [|done]. cbn [postings]. by rewrite (Hnil eq_refl) in *.
  - apply result_bind_Ok in Hb as (c & Hc & Hb). injection Hb as <-.
    apply result_bind_Ok in Hc as ([ds fs] & Hd & Hc). apply result_bind_Ok in Hc as (ps & Hps & Hc). injection Hc as <-.
    cbn [windows postings pos]. intros Hsane.
    destruct (build_slim_ok hit ctx ds fs ps Hd Hps Hsane) as (lc & -> & Htot & Hof). rewrite bind_Ok. by exists lc.
Qed.

Lemma push_cursors_prefix terms acc cs :
  fold_result (push_cursor idx sp params) terms acc = Ok cs → ∃ r, cs = acc ++ r.
Proof.
  revert acc. induction terms as [|t terms IH]; intros acc Hb; cbn [fold_result] in Hb; [injection Hb as <-; exists []; by rewrite app_nil_r|].
  apply result_bind_Ok in Hb as (acc' & Hpush & Hb). apply result_bind_Ok in Hpush as (oc & _ & Hpush). injection Hpush as <-.
  destruct oc as [c|]; [|by apply IH]. destruct (postings c); [by apply IH|].
  destruct (IH _ Hb) as (r & ->). exists (c :: r). by rewrite <- app_assoc.
Qed.

Lemma build_cursors_ok terms acc lacc cs :
  (∀ t hit, t ∈ terms → lookup idx t = Ok (Some hit) → fetchable file idx hit) →
  fold_result (push_cursor idx sp params) terms acc = Ok cs → Forall sane_cursor cs →
  Forall2 (lazy_of idx sp params) lacc acc →
  ∃ lcs, fold_result (push_lazy_cursor idx sp params) terms lacc = Ok lcs ∧ Forall2 (lazy_of idx sp params) lcs cs.
Proof.
  revert acc lacc. induction terms as [|t terms IH]; intros acc lacc Hfet Hb Hs Hacc; cbn [fold_result] in *.
  { injection Hb as <-. by exists lacc. }
  apply result_bind_Ok in Hb as (acc' & Hpush & Hb). pose proof (push_cursors_prefix _ _ _ Hb) as (r & Hcs).
  apply result_bind_Ok in Hpush as (oc & Hoc & Hpush).
  injection Hpush as <-. pose proof (build_cursor_ok t oc (λ hit, Hfet t hit (list_elem_of_here _ _)) Hoc) as Hlazy.
  assert (∀ t' hit, t' ∈ terms → lookup idx t' = Ok (Some hit) → fetchable file idx hit) as Hfet'.
  { intros t' hit Ht'. apply Hfet. by right. }
  change (push_lazy_cursor idx sp params t lacc) with
    (c ← BuildLazyCursor idx sp params t; Ok (match c with Some c => if 0 <? TotalPostings c then lacc ++ [c] else lacc | None => lacc end)).
  destruct oc as [c|]; [|rewrite Hlazy, !bind_Ok; by apply (IH acc)].
  destruct (postings c) as [|p ps] eqn:Hps.
  - destruct Hlazy as (lc & -> & Htot & _); [split; rewrite Hps; [constructor|done]|]. rewrite !bind_Ok, Htot. cbn [length]. by apply (IH acc).
  - assert (sane_cursor c) as Hsc.
    { rewrite Hcs in Hs. apply Forall_app in Hs as [Hs _]. apply Forall_app in Hs as [_ Hs]. by apply Forall_cons in Hs as [? _]. }
    destruct (Hlazy Hsc) as (lc & -> & Htot & Hof). rewrite !bind_Ok, Htot. cbn [length]. rewrite (proj2 (Z.ltb_lt _ _)) by lia.
    apply (IH (acc ++ [c])); [done..|]. apply Forall2_app; [done|]. constructor; [by apply Hof|constructor].
Qed.
End Build.

Section Answers.
Context `{Zstd.ZstdOps} `{SortLaws} `{BsbfEnv} `{StdLog} `{PriorityQueueOf Entry} `{StdSortUniform}.

Lemma selective_answers file idx sp params terms k cs :
  serves file (reader_ idx) → zlen file < 2 ^ 64 →
  (∀ t hit, t ∈ terms → lookup idx t = Ok (Some hit) → fetchable file idx hit) →
  BuildCursors idx sp terms params = Ok cs → Forall sane_cursor cs →
  scoring_query_wand_selective idx sp params terms k = scoring_query_wand idx sp terms k params.
Proof.
  intros Hserves Hfile Hfet Hcs Hs. unfold scoring_query_wand_selective, scoring_query_wand. destruct (k =? 0); [done|].
  destruct (build_cursors_ok file idx sp params Hfile Hserves terms [] [] cs Hfet Hcs Hs (Forall2_nil_2 _ _ _)) as (lcs & Hl & Hof).
  unfold SelectiveBuildCursors. rewrite Hl, Hcs, !bind_Ok. unfold wand_top.
  by rewrite (selective_fuel_ok _ _ _ _ _ Hof), (selective_loop_ok _ _ _ _ _ _ _ Hof).
Qed.
End Answers.
