(* ===== verification/ScoringRoundtrip.v ===== *)
(** * ScoringRoundtrip: scored queries on a written index.

    An index of a scoring configuration, written by CompoundWriter and opened by
    SegmentReader: its statistics provider opens, the cursors of a query carry the
    BM25 scores of the postings the index was written from, and the three queries
    rank by them. *)

From stdpp Require Import gmap.
From Stdlib Require Import SpecFloat.
From S2P Require Import Prelude StdAlgorithms Status ByteIO FormatConstants StatsBlock NormsPod TermKey Zstd FrqPod FrqPrelude DictEntry PerIndexMeta.
From S2P Require Import FileIO SpillableByteBuffer Bsbf BatchRangeFetcher LogicalIndexReader WindowedPosting Queries TermPostings PostingWriter LogicalIndexWriter IndexBuild IndexRoundtrip.
From S2P Require Import CompoundWriter SegmentReader ContainerRoundtrip Bm25Scorer StatsProvider TopK ScoringQuery SelectiveWand SelectiveExact.

#[local] Open Scope Z_scope.

(** ** The scores of what was written *)

Section Bm25.
Context `{StdLog} (i : SniiIndexInput) (ts : list Term) (params : Bm25Params).

Definition average_length : double := ddiv (to_double (total_freq ts)) (to_double (Z.max 1 (in_doc_count i))).

(** The documents of a term with their scores. *)
Definition bm25_postings (t : Term) : list TermPosting :=
  zip_with (λ d f, mkTermPosting d
      (score (make (in_doc_count i) (zlen (tp_docids t.1))) f (in_encoded_norms i !!! Z.to_nat d) average_length params))
    (tp_docids t.1) (tp_freqs t.1).

Definition bm25_term (q : bytes) : list TermPosting :=
  match term_named ts q with Some t => bm25_postings t | None => [] end.

(** Those of the terms of a query, one after another. *)
Definition bm25_query (terms : list bytes) : list TermPosting := concat (map bm25_term terms).
End Bm25.

(** ** Reading them *)

Section Read.
Context `{Zstd.ZstdOps} `{SortLaws} `{BsbfEnv} `{StdLog} (file : bytes) (i : SniiIndexInput) (ts : list Term).
Context (idx : LogicalIndexReader) (tier : IndexTier) (blocks : list IndexBlock) (params : Bm25Params).
Context (Hrb : reads_as file i ts idx tier blocks) (Hwf : wf_index_input i ts).
Context (Hsc : has_scoring (in_config i) = true) (Hdc : in_doc_count i < 2 ^ 32).
Context (Hdocs : Forall (λ t : Term, Forall (λ d, d < in_doc_count i) (tp_docids t.1)) ts).

Abbreviation hp := (FormatConstants.has_positions (in_config i)).

Lemma read_serves : serves file (reader_ idx).
Proof. apply (indexes_serves _ _ _ _ _ (ans_indexes _ _ _ _ _ _ (rb_answers _ _ _ _ _ _ Hrb))). Qed.
Lemma read_size : zlen file < 2 ^ 64.
Proof. apply (ans_file _ _ _ _ _ _ (rb_answers _ _ _ _ _ _ Hrb)). Qed.

Definition written_provider : SniiStatsProvider :=
  mkStatsProvider idx (in_doc_count i) (in_doc_count i) (total_freq ts) true
    (NormsPodReader.mk (in_encoded_norms i) (zlen (in_encoded_norms i))).

Lemma provider_opens : StatsProvider.open idx = Ok written_provider.
Proof.
  destruct (rb_scoring _ _ _ _ _ _ Hrb Hsc Hdc) as (_ & (Hin & Hpos & Ho) & _). unfold StatsProvider.open. rewrite (rb_stats _ _ _ _ _ _ Hrb).
  cbn [StatsBlock.doc_count indexed_doc_count sum_total_term_freq]. set (r := norms (section_refs idx)) in *. rewrite (proj2 (Z.eqb_neq _ _)) by lia.
  destruct (fetch_ranges file idx read_size read_serves [mkRange (PerIndexMeta.offset r) (PerIndexMeta.length_ r)]) as (f & Hf & Hget);
    [by apply Forall_cons_2|]. specialize (Hget 0%nat _ eq_refl). unfold add_all in Hf. cbn [fold_left FileIO.offset FileIO.len] in Hf, Hget.
  unfold add in Hf |- *. cbn [fst snd reqs_ coalesce_gap_ phys_ new_fetcher app length Nat.sub Nat.add] in Hf |- *. by rewrite Hf, bind_Ok, Hget, bind_Ok, Ho.
Qed.

Lemma written_norm d : 0 ≤ d < in_doc_count i → encoded_norm written_provider d = Ok (in_encoded_norms i !!! Z.to_nat d).
Proof.
  intros Hd. destruct (rb_scoring _ _ _ _ _ _ Hrb Hsc Hdc) as (_ & _ & Hlen).
  unfold encoded_norm, NormsPodReader.try_encoded_norm, NormsPodReader.encoded_norm, written_provider. cbn [has_norms_ norms_reader_ negb NormsPodReader.doc_count_ NormsPodReader.norms_].
  rewrite (proj2 (Z.leb_gt _ _)) by lia. destruct (lookup_lt_is_Some_2 (in_encoded_norms i) (Z.to_nat d)) as [v Hv]; [lia|].
  by rewrite Hv, (list_lookup_total_correct _ _ _ Hv).
Qed.

(** The single window of a slim or inline entry. *)
Lemma decode_slim_ok entry frq_base prx_base ds fs :
  holds_freqs file idx entry frq_base prx_base ds fs → is_windowed entry = false → DecodeSlim idx entry frq_base = Ok (ds, fs).
Proof.
  assert (∀ window, flat_decodes entry window ds fs → FetchSlimWindowBytes idx entry frq_base = Ok window → DecodeSlim idx entry frq_base = Ok (ds, fs)) as Hdec.
  { intros window (Hn & Hdd & Hfq) Hw. unfold DecodeSlim. rewrite Hw, bind_Ok. cbv zeta. rewrite bind_reject_false by (apply Z.ltb_ge; lia).
    rewrite (subslice_ok window 0), bind_Ok by lia. change (Z.to_nat 0) with 0%nat. rewrite drop_0, Hdd, bind_Ok.
    rewrite subslice_ok, bind_Ok by lia. rewrite take_ge by (rewrite length_drop; lia). by rewrite Hfq. }
  intros [Hk Hf|off len Hk He Hres Hin Hf|prelude wds Hk He _ _ _] Hnw.
  - apply (Hdec _ Hf). unfold FetchSlimWindowBytes. by rewrite decide_True.
  - apply (Hdec _ Hf). unfold FetchSlimWindowBytes. rewrite decide_False by (by rewrite Hk). rewrite Hres, bind_Ok. cbn beta iota.
    destruct (fetch_ranges file idx read_size read_serves [mkRange off len]) as (f & Hf' & Hget); [by apply Forall_cons_2|].
    specialize (Hget 0%nat _ eq_refl). unfold add_all in Hf'. cbn [fold_left FileIO.offset FileIO.len] in Hf', Hget.
    unfold add in Hf' |- *. cbn [fst snd reqs_ coalesce_gap_ phys_ new_fetcher app length Nat.sub Nat.add] in Hf' |- *. by rewrite Hf', bind_Ok.
  - unfold is_windowed in Hnw. by rewrite !bool_decide_true in Hnw.
Qed.

(** The decoded documents are scored as [bm25_postings] says. *)
Lemma scores_written t :
  t ∈ ts → ScoreDecoded written_provider (make (in_doc_count i) (zlen (tp_docids t.1))) params (tp_docids t.1) (tp_freqs t.1) =
    Ok (bm25_postings i ts params t).
Proof.
  intros Ht. pose proof (ii_terms _ _ Hwf) as Hts. rewrite Forall_forall in Hts, Hdocs. pose proof (wi_postings _ _ (Hts _ Ht)) as Hp.
  apply score_decoded_iff. unfold bm25_postings. split; [rewrite length_zip_with, (wp_parallel _ _ _ Hp); lia|].
  intros j d Hd. destruct (lookup_lt_is_Some_2 (tp_freqs t.1) j) as [f Hf]; [rewrite (wp_parallel _ _ _ Hp); by apply lookup_lt_Some in Hd|].
  rewrite lookup_zip_with, Hd, Hf. cbn [mbind option_bind default]. eexists. split; [done|]. unfold posting_of.
  rewrite written_norm; [by rewrite bind_Ok|]. specialize (Hdocs _ Ht). rewrite Forall_lookup in Hdocs. split; [|by eapply Hdocs].
  pose proof (Forall_lookup_1 _ _ _ _ (wp_docids _ _ _ Hp) Hd) as [? _]. done.
Qed.

(** What a query finds for a term. *)
Lemma lookup_written q :
  match term_named ts q with
  | None => lookup idx q = Ok None
  | Some t => ∃ hit, lookup idx q = Ok (Some hit) ∧ df (hit_entry hit) = zlen (tp_docids t.1) ∧
      (enc (hit_entry hit) = kWindowed → kSlimDfThreshold ≤ zlen (tp_docids t.1)) ∧
      holds_freqs file idx (hit_entry hit) (hit_frq_base hit) (hit_prx_base hit) (tp_docids t.1) (tp_freqs t.1)
  end.
Proof.
  pose proof (ans_indexes _ _ _ _ _ _ (rb_answers _ _ _ _ _ _ Hrb)) as Hidx. rewrite (lookup_indexes _ _ _ _ _ q Hidx).
  destruct (rb_scoring _ _ _ _ _ _ Hrb Hsc Hdc) as (Hst & _). destruct (find_hit q (index_hits tier hp blocks)) as [hit|] eqn:Hf.
  - unfold find_hit in Hf. apply List.find_some in Hf as [Hin Hq]. apply bool_decide_eq_true in Hq. apply list_elem_of_In in Hin.
    destruct (rb_freqs _ _ _ _ _ _ Hrb hit Hst Hin) as (t & Ht & Hterm & Hdf & Henc & Hh). rewrite <- Hq, Hterm.
    rewrite (term_named_elem ts t (ii_sorted _ _ Hwf) Ht). by exists hit.
  - rewrite term_named_None; [done|]. rewrite <- (rb_terms _ _ _ _ _ _ Hrb). intros Hin.
    rewrite <- (index_hits_terms tier hp), list_elem_of_fmap in Hin. destruct Hin as (hit & -> & Hin).
    apply list_elem_of_In in Hin. unfold find_hit in Hf. apply (List.find_none _ _ Hf) in Hin. by rewrite bool_decide_true in Hin.
Qed.

Lemma fetchable_written entry frq_base prx_base ds fs :
  holds_freqs file idx entry frq_base prx_base ds fs → is_windowed entry = true →
  ∃ prelude wds, windows_hold file idx entry frq_base prx_base prelude wds ∧
    ds = concat (map (λ d, d.1.1) wds) ∧ fs = concat (map (λ d, d.1.2) wds).
Proof.
  unfold is_windowed. intros [Hk _|off len Hk He _ _ _|prelude wds Hk He Hh Hd Hf] Hw.
  - by rewrite Hk in Hw.
  - by rewrite Hk, He in Hw.
  - by exists prelude, wds.
Qed.

(** The cursor of a term carries the scores of its postings. *)
Lemma cursor_written q :
  match term_named ts q with
  | None => BuildCursor idx written_provider q params = Ok None
  | Some t => ∃ c, BuildCursor idx written_provider q params = Ok (Some c) ∧ pos c = 0%nat ∧
      postings c = bm25_postings i ts params t ∧
      (zlen (tp_docids t.1) < kSlimDfThreshold → windows c = SingleWindowFallback (postings c))
  end.
Proof.
  pose proof (lookup_written q) as Hl. unfold BuildCursor. destruct (term_named ts q) as [t|] eqn:Ht; [|by rewrite Hl, bind_Ok].
  destruct Hl as (hit & -> & Hdf & Henc & Hh). rewrite bind_Ok. cbv zeta. rewrite Hdf. apply term_named_Some in Ht as [Ht _].
  pose proof (scores_written t Ht) as Hs. cbn [indexed_doc_count_ written_provider] in *. set (ctx := make _ _) in *.
  destruct (is_windowed (hit_entry hit)) eqn:Hw.
  - destruct (fetchable_written _ _ _ _ _ Hh Hw) as (prelude & wds & Hhold & Hd & Hf). pose proof Hhold as (Hat & Hy & _).
    assert (BuildWindowedCursor idx written_provider ctx (hit_entry hit) (hit_frq_base hit) (hit_prx_base hit) params =
      Ok (mkTermCursor (bm25_postings i ts params t)
        (imap (bound_of ctx (avgdl written_provider) params) (windows_ prelude)) 0)) as ->.
    { unfold BuildWindowedCursor. rewrite (read_windowed_posting_at file idx _ _ _ read_size read_serves prelude false true wds) by done.
      rewrite bind_Ok. cbn [join WindowedPosting.docids WindowedPosting.freqs]. rewrite <- Hd, <- Hf, Hs, bind_Ok.
      rewrite (FetchPrelude_at file idx read_size read_serves _ _ _ Hat).
      rewrite Hd, Hf in Hs. destruct (windowed_segments file idx written_provider params hit prelude wds ctx _ Hhold Hs) as (segs & _ & _ & Hcnt & _).
      rewrite bounds_ok; [done|by apply (fa_count _ _ _ _ _ Hat)|]. apply Forall_lookup. intros n m Hm.
      destruct (Forall2_lookup_l _ _ _ _ _ Hcnt Hm) as (seg & _ & -> & Hne). destruct seg; [done|cbn; lia]. }
    rewrite bind_Ok. eexists. split; [done|]. cbn [windows postings pos].
    assert (¬ zlen (tp_docids t.1) < kSlimDfThreshold) as Hlong.
    { unfold is_windowed in Hw. apply andb_true_iff in Hw as [_ Hw%bool_decide_eq_true]. specialize (Henc Hw). lia. }
    by destruct (imap _ _).
  - rewrite (decode_slim_ok _ _ _ _ _ Hh Hw), bind_Ok. cbn beta iota. rewrite Hs, bind_Ok, bind_Ok. eexists. by split_and!.
Qed.

Lemma zip_scores_docs (g : Z → Z → double) ds fs :
  length fs = length ds → map tp_docid (zip_with (λ d f, mkTermPosting d (g d f)) ds fs) = ds.
Proof.
  revert fs. induction ds as [|d ds IH]; intros [|f fs] Hl; try done. cbn [zip_with map tp_docid]. by rewrite IH by (cbn in Hl; lia).
Qed.

Lemma bm25_docs t : t ∈ ts → map tp_docid (bm25_postings i ts params t) = tp_docids t.1.
Proof.
  intros Ht. pose proof (ii_terms _ _ Hwf) as Hts. rewrite Forall_forall in Hts. pose proof (wp_parallel _ _ _ (wi_postings _ _ (Hts _ Ht))) as Hl.
  unfold bm25_postings. by apply (zip_scores_docs (λ d f, score _ f _ _ _)).
Qed.

Lemma sane_written c t : t ∈ ts → postings c = bm25_postings i ts params t → sane_cursor c.
Proof.
  intros Ht Hc. pose proof (ii_terms _ _ Hwf) as Hts. rewrite Forall_forall in Hts. pose proof (wi_postings _ _ (Hts _ Ht)) as Hp.
  unfold sane_cursor. rewrite Hc, bm25_docs by done. split.
  - apply lt_sorted_le, (wp_sorted _ _ _ Hp).
  - pose proof (f_equal length (bm25_docs t Ht)) as Hl. rewrite length_map in Hl. rewrite Hl. pose proof (wp_count _ _ _ Hp). ulia.
Qed.

Lemma push_found q acc c :
  BuildCursor idx written_provider q params = Ok (Some c) →
  push_cursor idx written_provider params q acc = Ok (match postings c with [] => acc | _ => acc ++ [c] end).
Proof. intros Hb. unfold push_cursor. by rewrite Hb. Qed.

Lemma push_missing q acc :
  BuildCursor idx written_provider q params = Ok None → push_cursor idx written_provider params q acc = Ok acc.
Proof. intros Hb. unfold push_cursor. by rewrite Hb. Qed.

Lemma cursors_written terms :
  ∃ cs, BuildCursors idx written_provider terms params = Ok cs ∧ all_postings cs = bm25_query i ts params terms ∧
    Forall sane_cursor cs ∧ Forall (λ c, pos c = 0%nat) cs.
Proof.
  unfold BuildCursors.
  assert (∀ acc, all_postings acc ++ bm25_query i ts params [] = all_postings acc) as Hnil by (intros acc; by rewrite app_nil_r).
  assert (∀ acc, Forall sane_cursor acc → Forall (λ c, pos c = 0%nat) acc →
    ∃ cs, fold_result (push_cursor idx written_provider params) terms acc = Ok cs ∧
      all_postings cs = all_postings acc ++ bm25_query i ts params terms ∧ Forall sane_cursor cs ∧ Forall (λ c, pos c = 0%nat) cs) as Hgen.
  { induction terms as [|q terms IH]; intros acc Hs Hz; cbn [fold_result]; [by exists acc|].
    change (bm25_query i ts params (q :: terms)) with (bm25_term i ts params q ++ bm25_query i ts params terms).
    pose proof (cursor_written q) as Hc. unfold bm25_term. destruct (term_named ts q) as [t|] eqn:Ht.
    - destruct Hc as (c & Hb & Hpos & Hps & _). apply term_named_Some in Ht as [Ht _].
      pose proof (push_found q acc c Hb) as ->. rewrite <- Hps, bind_Ok. destruct (postings c) as [|p ps] eqn:E; [by apply IH|].
      destruct (IH (acc ++ [c])) as (cs & -> & Hall & Hcs & Hz').
      + apply Forall_app_2; [done|]. apply Forall_singleton. apply (sane_written c t Ht). congruence.
      + by apply Forall_app_2; [|apply Forall_singleton].
      + exists cs. split; [done|]. split; [|done]. rewrite Hall. unfold all_postings. rewrite map_app, concat_app. cbn [map concat].
        by rewrite E, app_nil_r, app_assoc.
    - pose proof (push_missing q acc Hc) as ->. rewrite bind_Ok. by apply IH. }
  exact (Hgen [] (List.Forall_nil _) (List.Forall_nil _)).
Qed.

Lemma fetchable_lookup q hit : lookup idx q = Ok (Some hit) → fetchable file idx hit.
Proof.
  intros Hl Hw. pose proof (lookup_written q) as Hlw. destruct (term_named ts q) as [t|]; [|congruence].
  destruct Hlw as (hit' & Hl' & _ & _ & Hh). assert (hit' = hit) as -> by congruence.
  destruct (fetchable_written _ _ _ _ _ Hh Hw) as (prelude & wds & Hhold & _). by exists prelude, wds.
Qed.

(** ** The answers *)

Context `{PriorityQueueOf Entry} `{StdSort} `{!StdSortLaws} `{!StdSortUniform} `{UnorderedMapLaws}.

(** No score of the query is negative or a NaN. *)
Abbreviation scores_nonneg terms := (Forall (λ p, nonneg (tp_score p)) (bm25_query i ts params terms)).

Lemma exhaustive_answers terms k :
  0 < k → scores_nonneg terms →
  ∃ out, scoring_query_exhaustive idx written_provider terms k params = Ok out ∧ top_of k (scored_docs (bm25_query i ts params terms)) out.
Proof.
  intros Hk Hn. destruct (cursors_written terms) as (cs & Hcs & Hall & _). unfold scoring_query_exhaustive.
  rewrite (proj2 (Z.eqb_neq _ _)) by lia. rewrite Hcs, bind_Ok. eexists. split; [done|]. rewrite <- Hall.
  apply exhaustive_top_ok; [lia|]. rewrite Hall. by apply scored_docs_num.
Qed.

Lemma selective_agrees terms k :
  scoring_query_wand_selective idx written_provider params terms k = scoring_query_wand idx written_provider terms k params.
Proof.
  destruct (cursors_written terms) as (cs & Hcs & _ & Hs & _).
  apply (selective_answers file _ _ _ _ _ cs); [apply read_serves|apply read_size| |done|done]. intros q hit _. apply fetchable_lookup.
Qed.

Lemma wand_answers terms k :
  0 < k → scores_nonneg terms →
  ∃ out, scoring_query_wand idx written_provider terms k params = Ok (Some out) ∧ zlen out ≤ k.
Proof.
  intros Hk Hn. destruct (cursors_written terms) as (cs & Hcs & Hall & _). unfold scoring_query_wand.
  rewrite (proj2 (Z.eqb_neq _ _)) by lia. rewrite Hcs, bind_Ok. apply wand_top_ends; [done|].
  rewrite <- Hall in Hn. unfold all_postings in Hn. apply Forall_concat in Hn. rewrite !Forall_fmap in Hn. exact Hn.
Qed.

(** A term of fewer than [kSlimDfThreshold] documents has one window, whose bound
    is its largest score. *)
Lemma wand_short_answers q k :
  0 < k → scores_nonneg [q] → zlen (bm25_query i ts params [q]) < kSlimDfThreshold →
  ∃ out, scoring_query_exhaustive idx written_provider [q] k params = Ok out ∧
    scoring_query_wand idx written_provider [q] k params = Ok (Some out).
Proof.
  intros Hk Hn Hshort. unfold scoring_query_exhaustive, scoring_query_wand. rewrite (proj2 (Z.eqb_neq _ _)) by lia.
  unfold BuildCursors. cbn [fold_result]. pose proof (cursor_written q) as Hc. unfold bm25_query, bm25_term in Hn, Hshort. cbn [map concat] in Hn, Hshort.
  rewrite app_nil_r in Hn, Hshort. destruct (term_named ts q) as [t|] eqn:Ht.
  2: { rewrite (push_missing q [] Hc), !bind_Ok. eexists. split; [done|]. by apply wand_none_exact. }
  destruct Hc as (c & Hb & Hpos & Hps & Hwin). apply term_named_Some in Ht as [Ht _]. rewrite (push_found q [] c Hb), !bind_Ok. eexists. split; [done|].
  pose proof (bm25_docs t Ht) as Hdt. rewrite <- Hps in Hn, Hshort, Hdt.
  destruct (postings c) as [|p ps] eqn:E; [by apply wand_none_exact|]. rewrite <- E in *.
  pose proof (ii_terms _ _ Hwf) as Hts. rewrite Forall_forall in Hts, Hdocs. pose proof (wi_postings _ _ (Hts _ Ht)) as Hp.
  assert (StronglySorted Z.lt (map tp_docid (postings c))) as Hsorted by (rewrite Hdt; apply (wp_sorted _ _ _ Hp)).
  assert (Forall (λ p, ¬ is_nan (tp_score p)) (postings c)) as Hnum by (eapply Forall_impl; [exact Hn|]; intros x; apply nonneg_num).
  assert (c = mkTermCursor (postings c) (SingleWindowFallback (postings c)) 0) as Hone.
  { rewrite <- Hwin by (rewrite <- Hdt, length_map; done). destruct c. cbn in *. by subst. }
  cbn [app]. apply wand_one_exact; [done| |rewrite Hone; by apply fallback_bounds|done]. split; [done| |done].
  assert (Forall (λ d, d ≠ UINT32_MAX) (map tp_docid (postings c))) as Hmax.
  { rewrite Hdt. eapply Forall_impl; [by apply Hdocs|]. unfold UINT32_MAX. cbn. lia. }
  by rewrite Forall_fmap in Hmax.
Qed.
End Read.

Section Claims.
Context `{ZstdLaws} `{SortLaws} `{BsbfEnvLaws} `{!BsbfFpp} `{StdLog}.
Context `{PriorityQueueOf Entry} `{StdSort} `{!StdSortLaws} `{!StdSortUniform} `{UnorderedMapLaws}.

(** An index of a scoring configuration whose documents have norms. *)
Record scoring_input (i : SniiIndexInput) (ts : list Term) : Prop := {
  si_wf : wf_index_input i ts;
  si_scoring : has_scoring (in_config i) = true;
  si_count : in_doc_count i < 2 ^ 32;
  si_docs : Forall (λ t : Term, Forall (λ d, d < in_doc_count i) (tp_docids t.1)) ts
}.

Lemma provider_of file i ts idx tier blocks sp :
  reads_as file i ts idx tier blocks → has_scoring (in_config i) = true → in_doc_count i < 2 ^ 32 → StatsProvider.open idx = Ok sp →
  sp = written_provider i ts idx.
Proof. intros Hrb Hsc Hdc Hsp. pose proof (provider_opens file i ts idx tier blocks Hrb Hsc Hdc) as He. congruence. Qed.

Abbreviation scores_nonneg i ts params terms := (Forall (λ p, nonneg (tp_score p)) (bm25_query i ts params terms)).

(** C4: an index of a scoring configuration that is added to a container and opened
    again has its statistics provider, and the exhaustive query over it returns the
    best [k] documents of the terms, ranked by the sum of the BM25 scores that the
    document counts, frequencies and norms added give, ties by document id. *)
Theorem scored_container {W : Type} `{FileWriterLaws W} {T : Type} `{TempFileLaws T}
    (inputs : list (SniiIndexInput * list Term)) (out : W) (env : option bytes) :
  fpp_in_range kBsbfFpp = true → writable out → contents out = [] →
  Forall (λ x, wf_index_input x.1 x.2) inputs → NoDup (map (λ x, index_key x.1) inputs) → total_cost inputs < 2 ^ 60 →
  ∃ w, write_container (T := T) (map fst inputs) out = Ok w ∧
    ∀ r, serves (contents (out_ w)) r →
    ∃ seg, SegmentReader.open r = Ok seg ∧
      ∀ i ts, (i, ts) ∈ inputs → scoring_input i ts →
      ∃ idx sp, open_index env seg (in_index_id i) (in_index_suffix i) = Ok idx ∧ StatsProvider.open idx = Ok sp ∧
        ∀ params terms k, 0 < k → scores_nonneg i ts params terms →
        ∃ out, scoring_query_exhaustive idx sp terms k params = Ok out ∧ top_of k (scored_docs (bm25_query i ts params terms)) out.
Proof.
  intros Hfpp Ho Hc Hwf Hnd Hcost. destruct (container_reads (T := T) inputs out env Hfpp Ho Hc Hwf Hnd Hcost) as (w & Hw & _ & Hr).
  exists w. split; [done|]. intros r Hs. destruct (Hr r Hs) as (seg & Hopen & _ & Hin & _). exists seg. split; [done|].
  intros i ts Hi [Hwi Hsc Hdc Hdocs]. destruct (Hin i ts Hi) as (idx & Hoi & tier & blocks & Hrb). exists idx, (written_provider i ts idx).
  split; [done|]. split; [by eapply provider_opens|]. intros params terms k. by eapply exhaustive_answers.
Qed.

(** C19: over an index read back, the WAND query that fetches windows only as it
    reaches them answers as the WAND query that reads every posting first. *)
Theorem selective_wand_same file i ts idx tier blocks sp params terms k :
  reads_as file i ts idx tier blocks → scoring_input i ts → StatsProvider.open idx = Ok sp →
  scoring_query_wand_selective idx sp params terms k = scoring_query_wand idx sp terms k params.
Proof.
  intros Hrb [Hwi Hsc Hdc Hdocs] Hsp. rewrite (provider_of _ _ _ _ _ _ _ Hrb Hsc Hdc Hsp).
  by eapply selective_agrees.
Qed.

(** C21: over an index read back, the loop of the WAND query ends: with one round for
    each posting and one more it returns at most [k] documents. *)
Theorem wand_query_ends file i ts idx tier blocks sp params terms k :
  reads_as file i ts idx tier blocks → scoring_input i ts → StatsProvider.open idx = Ok sp → 0 < k → scores_nonneg i ts params terms →
  ∃ out, scoring_query_wand idx sp terms k params = Ok (Some out) ∧ zlen out ≤ k.
Proof.
  intros Hrb [Hwi Hsc Hdc Hdocs] Hsp. rewrite (provider_of _ _ _ _ _ _ _ Hrb Hsc Hdc Hsp).
  by eapply wand_answers.
Qed.

(** C20: for one term of fewer than [kSlimDfThreshold] documents the WAND query
    returns what the exhaustive query returns. *)
Theorem wand_short_term_exact file i ts idx tier blocks sp params q k :
  reads_as file i ts idx tier blocks → scoring_input i ts → StatsProvider.open idx = Ok sp → 0 < k → scores_nonneg i ts params [q] →
  zlen (bm25_query i ts params [q]) < kSlimDfThreshold →
  ∃ out, scoring_query_exhaustive idx sp [q] k params = Ok out ∧ scoring_query_wand idx sp [q] k params = Ok (Some out).
Proof.
  intros Hrb [Hwi Hsc Hdc Hdocs] Hsp. rewrite (provider_of _ _ _ _ _ _ _ Hrb Hsc Hdc Hsp).
  by eapply wand_short_answers.
Qed.
End Claims.

(** ** Examples *)

Section Sample.
#[local] Existing Instances ListQueue.list_queue StableSorting.stable_insertion StableSorting.stable_insertion_laws StableSorting.stable_insertion_uniform.
#[local] Existing Instances StoredZstd.ops StoredZstd.laws LaneEnv.env LaneEnv.env_laws InsertionSort.sort InsertionSort.sort_laws.
#[local] Existing Instances MemoryWriter.writer MemoryWriter.writer_laws MemoryTemp.temp MemoryTemp.temp_laws.
#[local] Instance sample_fpp : BsbfFpp (H := LaneEnv.env) := true.
#[local] Instance key_order : UnorderedMap := map_to_list.
#[local] Instance key_order_laws : UnorderedMapLaws.
Proof. by intros m. Defined.

(** The logarithm of 1 + 0.5/513.5, to the nearest double; the wide index below takes
    no other. *)
#[local] Instance wide_log : StdLog := λ _, S754_finite false 8976518505963306 (-63).

(** The scored index of [ContainerRoundtrip], read back. *)
Lemma sample_opened :
  ∃ file idx tier blocks sp, reads_as file sample_scored.1 sample_scored.2 idx tier blocks ∧ StatsProvider.open idx = Ok sp.
Proof.
  destruct (container_reads (W := bytes) (T := bytes) [sample_scored] [] None) as (w & Hw & _ & Hr).
  - done.
  - done.
  - done.
  - by apply Forall_singleton, sample_scored_wf.
  - apply (bool_decide_unpack _); vm_compute; done.
  - by vm_compute.
  - destruct (Hr _ (memory_file_serves _)) as (seg & _ & _ & Hin & _). destruct (Hin sample_scored.1 sample_scored.2) as (idx & _ & tier & blocks & Hrb); [by left|].
    exists (contents (out_ w)), idx, tier, blocks, (written_provider sample_scored.1 sample_scored.2 idx). split; [exact Hrb|]. by eapply provider_opens.
Qed.

Lemma sample_scoring : scoring_input sample_scored.1 sample_scored.2.
Proof. split; [apply sample_scored_wf|done|done|]. repeat constructor. Qed.

Lemma scored_container_witness :
  ∃ w : SniiCompoundWriter (W := bytes) (T := bytes), write_container (T := bytes) [sample_scored.1] [] = Ok w ∧
    ∀ r, serves (out_ w) r →
    ∃ seg idx sp out, SegmentReader.open r = Ok seg ∧ open_index None seg 1 [] = Ok idx ∧ StatsProvider.open idx = Ok sp ∧
      scoring_query_exhaustive idx sp [[97]; [98]; [99]] 2 default_params = Ok out ∧ length out = 2%nat.
Proof.
  destruct (scored_container (W := bytes) (T := bytes) [sample_scored] [] None) as (w & Hw & Hr).
  - done.
  - done.
  - done.
  - by apply Forall_singleton, sample_scored_wf.
  - apply (bool_decide_unpack _); vm_compute; done.
  - by vm_compute.
  - exists w. split; [exact Hw|]. intros r Hs. destruct (Hr r Hs) as (seg & Ho & Hi).
    destruct (Hi sample_scored.1 sample_scored.2) as (idx & sp & Hoi & Hsp & Hq); [by left|apply sample_scoring|].
    destruct (Hq default_params [[97]; [98]; [99]] 2) as (out & Hout & _ & _ & _ & _ & Hl); [done|by apply (bool_decide_unpack _); vm_compute|].
    exists seg, idx, sp, out. split_and!; [exact Ho|exact Hoi|exact Hsp|exact Hout|].
    assert (zlen (scored_docs (bm25_query sample_scored.1 sample_scored.2 default_params [[97]; [98]; [99]])) = 3) as Hn by by vm_compute.
    rewrite Hn in Hl. cbn in Hl. lia.
Defined.

Lemma selective_wand_same_witness :
  ∃ idx sp, scoring_query_wand_selective idx sp default_params [[97]; [98]] 2 = scoring_query_wand idx sp [[97]; [98]] 2 default_params.
Proof.
  destruct sample_opened as (file & idx & tier & blocks & sp & Hrb & Hsp). exists idx, sp.
  exact (selective_wand_same file _ _ idx tier blocks sp default_params _ 2 Hrb sample_scoring Hsp).
Defined.

Lemma wand_query_ends_witness :
  ∃ idx sp out, scoring_query_wand idx sp [[97]; [98]] 2 default_params = Ok (Some out) ∧ zlen out ≤ 2.
Proof.
  destruct sample_opened as (file & idx & tier & blocks & sp & Hrb & Hsp).
  destruct (wand_query_ends file _ _ idx tier blocks sp default_params [[97]; [98]] 2 Hrb sample_scoring Hsp) as (out & Ho & Hl);
    [done|by apply (bool_decide_unpack _); vm_compute|]. exists idx, sp, out. split; [exact Ho|exact Hl].
Defined.

Lemma wand_short_term_exact_witness :
  ∃ idx sp out, scoring_query_exhaustive idx sp [[97]] 1 default_params = Ok out ∧ scoring_query_wand idx sp [[97]] 1 default_params = Ok (Some out).
Proof.
  destruct sample_opened as (file & idx & tier & blocks & sp & Hrb & Hsp).
  destruct (wand_short_term_exact file _ _ idx tier blocks sp default_params [97] 1 Hrb sample_scoring Hsp) as (out & He & Hw);
    [done|by apply (bool_decide_unpack _); vm_compute|by vm_compute|]. exists idx, sp, out. split; [exact He|exact Hw].
Defined.

(** One term in the documents 0 to 512, once in each: the first 256 of encoded length
    2, the next 256 of length 100, the last of length 1. *)
Definition wide_input : SniiIndexInput :=
  let a := mkTermPostings [97] (seqZ 0 513) (replicate 513 1) (replicate 513 0) None 513 in
  mkSniiIndexInput 1 [] kDocsPositionsScoring 513 (replicate 256 2 ++ replicate 256 100 ++ [1]) [a] None 0 None.

(** The documents of the three queries over its container. *)
Definition wide_answers (k : Z) : result (list Z * option (list Z) * option (list Z)) :=
  w ← write_container (W := bytes) (T := bytes) [wide_input] [];
  seg ← SegmentReader.open (memory_file (out_ w));
  idx ← open_index None seg 1 [];
  sp ← StatsProvider.open idx;
  best ← scoring_query_exhaustive idx sp [[97]] k default_params;
  wand ← scoring_query_wand idx sp [[97]] k default_params;
  selective ← scoring_query_wand_selective idx sp default_params [[97]] k;
  Ok (map docid best, option_map (map docid) wand, option_map (map docid) selective).

(** The WAND queries can miss the best document: an example. Over the wide index document
    512, the shortest, scores best. Both WAND queries stop at the second window, whose
    bound is below the score of document 0, although the third window is not read:
    the bound of one window is taken for the bound of the rest of the term. *)
Example wand_misses_best : wide_answers 1 = Ok ([512], Some [0], Some [0]).
Proof. exact (@eq_refl (result (list Z * option (list Z) * option (list Z))) (Ok ([512], Some [0], Some [0])) <: wide_answers 1 = Ok ([512], Some [0], Some [0])). Qed.
End Sample.
